(* ===== verification/_CoqProject ===== *)
-Q . S2P
Prelude.v
Bytes.v
Hashes.v
Pos.v
Dag.v
Wlru.v
WlruSync.v
EventBuffer.v
PieceFunc.v
Prque.v
Semaphore.v
Workers.v
Processor.v
Fetcher.v
Seeder.v
Leecher.v
Kvdb.v
MultiDb.v
KvStore.v
TableStore.v
TableReflect.v
Wrappers.v
CachedProducer.v
DiskStore.v
RbTree.v
Flushable.v
Snapshots.v
FlushPool.v
PoolSession.v
Flagged.v
VecFC.v
ForklessCause.v
VecEngine.v
VecBranches.v
VecBefore.v
VecAfter.v
VecCorrect.v
VecIndex.v
Emitter.v
Election.v
ElectionSafety.v
ElectionCorrect.v
AbftStore.v
StoreBytes.v
VecBytes.v
Frames.v
Abft.v
AbftFrames.v
Consensus.v
Agreement.v
Blocks.v
Node.v
Epochs.v
Delivery.v
TestDag.v
AsciiScheme.v
AsciiPrint.v
Printing.v
