(* ===== verification/Prelude.v ===== *)
(** * Verification of lachesis-base

    lachesis-base is the consensus library of a directed-acyclic-graph
    blockchain: validators emit events, each naming its parents; every node
    assigns the events to frames, elects an Atropos among the roots of each
    frame, and cuts the graph into blocks at the Atroposes.  The development
    models the Go code of the library and proves that it does what its parts
    promise each other, up to the agreement of the nodes.

    ** The parts and their files

    Numbers, results of calls and generic lemmas
      - Prelude.v: machine integers ([u32], [u64], [i32], [i64]), [outcome] (a call returns,
        returns an error, or panics), maps of fresh elements, list lemmas.
      - Bytes.v, Hashes.v: common/bigendian, common/littleendian, inter/idx,
        hash/, utils/util.go.
      - PieceFunc.v: utils/piecefunc and the cache sizes of the disk stores.
      - Prque.v: common/prque, the priority queue over container/heap.
    Data of the consensus
      - Pos.v: inter/pos, the validators, their quorums and weight counters.
      - Dag.v: inter/dag and eventcheck/, events, their checks, the graph.
    Storage
      - Wlru.v, WlruSync.v: utils/simplewlru, the weighted LRU cache, and
        utils/wlru, the same behind a mutex.
      - Kvdb.v: the keys of a store, their order and their prefixes.
      - KvStore.v: kvdb/interface.go as classes with laws, kvdb/devnulldb.
      - TableStore.v, TableReflect.v: kvdb/table, prefixed tables over any
        store, and the tables of a struct.
      - Wrappers.v: kvdb/nokeyiserr, skipkeys, readonlystore, skiperrors,
        fallible, synced and batched over any store.
      - CachedProducer.v: kvdb/cachedproducer, shared stores.
      - DiskStore.v: kvdb/leveldb and kvdb/pebble over their libraries.
      - RbTree.v, Flushable.v: kvdb/flushable/flushable.go, and with it
        kvdb/memorydb/memorydb.go.
      - Snapshots.v: snapshots of flushable stores, the named stores of
        kvdb/memorydb.
      - FlushPool.v, PoolSession.v: the lazy stores and the synced pool of
        kvdb/flushable, and sessions of its users.
      - Flagged.v: kvdb/flaggedproducer, on the disk of FlushPool.v.
      - MultiDb.v: kvdb/multidb, tables routed to databases, the verification
        of their records.
    Vector clocks
      - VecFC.v: the interfaces of vecengine/vector.go with their laws, and
        their byte implementation vecfc/vector.go, vector_ops.go.
      - ForklessCause.v: forkless cause as a relation on the graph.
      - VecEngine.v: vecengine/ and vecfc/forkless_cause.go.
      - VecBranches.v, VecBefore.v, VecAfter.v, VecCorrect.v: the invariants
        of the branches and of both kinds of vectors, and the correctness of
        the index.
      - VecIndex.v: vecfc/index.go, the index behind its caches.
      - VecBytes.v: store_branches_info.go and store_vectors.go, the storage of
        the index over the bytes of a flushable store.
    Consensus
      - Election.v: abft/election/.
      - ElectionSafety.v, ElectionCorrect.v: votes as a function of the roots,
        and the election's refinement of it.
      - AbftStore.v, StoreBytes.v: abft/store*.go, apply_genesis.go: the store
        with its values decoded, and over the bytes of its databases.
      - Frames.v: roots and frames of a graph.
      - Abft.v: the orderer, the blocks and the indexed node, abft/*.go.
      - AbftFrames.v, Consensus.v, Agreement.v, Blocks.v, Node.v: frame
        assignment, the invariant of a node over a growing graph, agreement
        of nodes, the blocks, and the node with its index.
      - Epochs.v: such a node through epochs, restarts and resets.
      - Delivery.v: the ordering buffer and the checkers in front of such a
        node, wired as their callbacks are made for.
    Around the consensus
      - EventBuffer.v: gossip/dagordering, events waiting for their parents.
      - Semaphore.v, Workers.v: utils/datasemaphore, utils/workers,
        utils/spin_lock.
      - Processor.v: gossip/dagprocessor.
      - Fetcher.v: gossip/itemsfetcher.
      - Seeder.v, Leecher.v: gossip/basestream, both sides of a stream.
      - Emitter.v: emitter/, utils/wmedian, abft/dagidx, utils/adapters.
      - TestDag.v, AsciiScheme.v, AsciiPrint.v: inter/dag/tdag, the order, the
        random graphs and the drawn graphs of the tests.
      - Printing.v: the text of events and elections, utils/scheme.go,
        utils/fmtfilter.

    ** How the model follows the code

    A struct is a record, a method a function from the state to an [outcome]
    with the new state; callbacks and interfaces are arguments, records of
    functions or type classes with laws, and each law is also discharged by an
    implementation of the development.  Integers are [Z], reduced at the width
    of the source wherever they can overflow.  Pointers that are shared and
    mutated are handles into a heap (the LRU elements, the buffered events, the
    tree nodes).  Recursion without a structural bound takes fuel; every such
    function has a theorem that the fuel its caller gives is enough: the
    traversals get one unit per event and parent edge, the buffer one per
    recorded event, the spill loop one per entry, the election of frames one
    per frame that can have roots, the heap one per level.

    The stores are layers over one interface ([KvReader], [KvWriter], [KvFull]
    of KvStore.v): a finite map, the disk stores, the flushable store and the
    tables are instances whose laws are proved, and the wrappers are functions
    of any instance.  Writes to disk that a crash may cut short are a trace of
    operations of which any prefix may be what is left (FlushPool.v).
    Goroutines are steps of a system in any order that their channels and
    locks allow (Workers.v, Processor.v, Fetcher.v, Seeder.v, Leecher.v).

    ** What the theorems show

      - agreement: nodes whose events fit in one graph, in which the validators
        with forks hold no more than a third of the weight, decide the same
        blocks in the same order, whatever the order of delivery
        ([nodes_agree]); through epochs, restarts and resets they enter the
        same epochs with the same validators and application
        ([epochs_agree]), and they are never stuck ([epochs_never_stuck]); two
        nodes that are pushed the same events, in any orders, end in the same
        state ([arrival_order_irrelevant]); a
        block holds exactly the events its Atropos observes and no earlier one
        does ([confirmed_iff_observed], [confirmEvents_correct]);
      - election: no failure, no contradiction, same result on all nodes;
      - index: the byte vectors decide forkless cause as defined on the graph,
        for every order of additions ([forklessCause_correct]), and the
        caches in front of it change no answer ([caches_invisible]);
      - stores: the disk stores, the flushable store, the tables, the roots
        cache and the multi-database producer refine finite maps, and the
        encoded stores of the consensus and of the index their decoded models
        ([store_refines], [vec_store_refines]); sessions
        with a pool of databases see their writes, and a crash in the middle
        of a flush, or of the writes of a flagged producer, leaves the
        databases dirty, out of step or at one flush
        ([pool_session_durable]); a shared
        store is closed once, by the last who holds it; where the records of
        the databases pass their verification, each recorded table is routed to
        the database that holds it ([verified_placement]);
      - gossip: the event buffer hands over parents first, releases each event
        at most once and loses none within its bounds; the processor gives
        back all that it acquires and is indifferent to the order in which the
        checks of an ordered batch answer; the fetcher and the seeder stay
        within their limits, a stream is sent once, in order and whole;
      - data: validators groups, counters, encodings, caches, the priority
        queue as a multiset, interpolation and bounds; the random graphs of
        the tests pass the checkers ([generated_dag]), and a drawn graph has
        cells of one width ([rows_aligned]).

    ** Not modelled

    A method that takes a lock is one step; only kvdb/synced and
    utils/spin_lock show their locks.  The goleveldb and
    pebble libraries, RLP and the red-black tree package are foreign code,
    given by classes with their documented laws.  Package fmt
    and the log are left out.  A failed [Process] returns the state
    before the call; the source's caches may differ from it then, not its
    tables. *)

From Stdlib Require Export ZArith Lia.
From stdpp Require Export prelude gmap list sorting strings.

#[global] Open Scope Z_scope.
#[export] Set Warnings "-clear-no-such-hyp".

(** ** Machine integers

    Go's fixed-width unsigned integers are kept as [Z]; a conversion or an
    arithmetic operation at width [w] is followed by the reduction written
    here, and so are the signed ones of 64 bits.  [u32] is the width of every [idx] type but [idx.Block]. *)

Definition u32 (z : Z) : Z := z mod 2 ^ 32.
Definition u64 (z : Z) : Z := z mod 2 ^ 64.
Definition i64 (z : Z) : Z := (z + 2 ^ 63) mod 2 ^ 64 - 2 ^ 63.
Definition i32 (z : Z) : Z := (z + 2 ^ 31) mod 2 ^ 32 - 2 ^ 31.
Definition is_i32 (z : Z) : Prop := - 2 ^ 31 <= z < 2 ^ 31.
Definition is_i64 (z : Z) : Prop := - 2 ^ 63 <= z < 2 ^ 63.
Definition is_u32 (z : Z) : Prop := 0 <= z < 2 ^ 32.
Definition is_u64 (z : Z) : Prop := 0 <= z < 2 ^ 64.
Definition MaxUint32 : Z := 2 ^ 32 - 1.
Definition MaxInt32 : Z := 2 ^ 31 - 1.

(** A [time.Time] is a number of nanoseconds, 0 being the zero time;
    [time.Time.Sub] saturates. *)
Definition min_duration : Z := - 2 ^ 63.
Definition max_duration : Z := 2 ^ 63 - 1.
Definition time_Sub (t u : Z) : Z := Z.max min_duration (Z.min max_duration (t - u)).

(** ** Results of Go calls

    A call returns normally, returns a Go [error], or panics (an explicit
    [panic], an index out of range, a nil dereference, or the fatal [crit]
    callback, which never resumes the computation). *)

Inductive outcome (A : Type) : Type :=
| Ok (a : A)
| Err (e : string)
| Panic (e : string).
Arguments Ok {A} a.
Arguments Err {A} e.
Arguments Panic {A} e.

Definition outcome_bind {A B} (m : outcome A) (k : A -> outcome B) : outcome B :=
  match m with
  | Ok a => k a
  | Err e => Err e
  | Panic e => Panic e
  end.

(** An indexed read: out of range is a run-time panic. *)
Definition index {A} (l : list A) (i : nat) : outcome A :=
  match l !! i with
  | Some a => Ok a
  | None => Panic "index out of range"
  end.

(** [for _, x := range l { s = body(s, x) }] with early exit on failure. *)
Fixpoint foldM {A S} (body : S -> A -> outcome S) (s : S) (l : list A) : outcome S :=
  match l with
  | [] => Ok s
  | x :: l' => outcome_bind (body s x) (fun s' => foldM body s' l')
  end.

Declare Scope go_scope.
Delimit Scope go_scope with go.
Notation "'let*' x ':=' m 'in' k" := (outcome_bind m (fun x => k))
  (at level 10, x name, m at level 100, k at level 200) : go_scope.
Notation "'let*' ' p ':=' m 'in' k" := (outcome_bind m (fun x => match x with p => k end))
  (at level 10, p strict pattern, m at level 100, k at level 200) : go_scope.

(** ** Weighted sums over lists *)

Fixpoint wsum {A} (f : A -> Z) (l : list A) : Z :=
  match l with
  | [] => 0
  | x :: l' => f x + wsum f l'
  end.

(** ** Tactics *)

(** Case analysis on a match or an [if] of the goal, then of a hypothesis. *)
Ltac case_go :=
  match goal with
  | |- context [match ?x with _ => _ end] => destruct x eqn:?
  | H : context [match ?x with _ => _ end] |- _ => destruct x eqn:?
  end.

(** Boolean comparisons as propositions, for [lia]. *)
Ltac bool_to_prop :=
  rewrite ?andb_true_iff, ?orb_true_iff, ?negb_true_iff, ?andb_false_iff, ?orb_false_iff,
    ?negb_false_iff, ?Z.eqb_eq, ?Z.eqb_neq, ?Z.ltb_lt, ?Z.ltb_ge, ?Z.leb_le, ?Z.leb_gt,
    ?Nat.eqb_eq, ?Nat.eqb_neq, ?Nat.ltb_lt, ?Nat.ltb_ge, ?Nat.leb_le, ?Nat.leb_gt in *.

(** Splits conjunctions only, leaving records whole. *)
Ltac splits := repeat match goal with |- _ /\ _ => split end.

(** Membership in a concrete list, element by element. *)
Ltac list_cases :=
  repeat match goal with
  | H : _ ∈ [] |- _ => by apply not_elem_of_nil in H
  | H : _ ∈ _ |- _ => apply elem_of_cons in H as [H|H]
  end.

(** Arithmetic with the widths unfolded. *)
Ltac solve_width := unfold is_u32, is_u64, is_i64, u32, u64, MaxUint32, MaxInt32 in *; lia.

Create HintDb lachesis.
Create Rewrite HintDb width.
Create Rewrite HintDb wsum.

(** ** Lemmas on widths and outcomes *)

Lemma u32_small z : is_u32 z -> u32 z = z.
Proof. intros. apply Z.mod_small. solve_width. Qed.

Lemma u64_small z : is_u64 z -> u64 z = z.
Proof. intros. apply Z.mod_small. solve_width. Qed.

Lemma u32_range z : is_u32 (u32 z).
Proof. apply Z.mod_pos_bound. lia. Qed.

Lemma u64_range z : is_u64 (u64 z).
Proof. apply Z.mod_pos_bound. lia. Qed.

Lemma i64_range z : is_i64 (i64 z).
Proof. unfold is_i64, i64. pose proof (Z.mod_pos_bound (z + 2 ^ 63) (2 ^ 64)). lia. Qed.

Lemma i64_small z : is_i64 z -> i64 z = z.
Proof. unfold is_i64, i64. intros Hz. rewrite Z.mod_small by lia. lia. Qed.

Lemma i32_small z : is_i32 z -> i32 z = z.
Proof. unfold is_i32, i32. intros Hz. rewrite Z.mod_small by lia. lia. Qed.

#[export] Hint Resolve u32_range u64_range i64_range : lachesis.
#[export] Hint Rewrite u32_small u64_small using solve_width : width.

Lemma index_Ok {A} (l : list A) i a : index l i = Ok a <-> l !! i = Some a.
Proof. unfold index. destruct (l !! i); naive_solver. Qed.

Lemma index_lookup {A} (l : list A) i a : l !! i = Some a -> index l i = Ok a.
Proof. apply index_Ok. Qed.

(** Two calls that fail alike or return related results. *)
Definition outcome_rel {A B} (R : A -> B -> Prop) (m1 : outcome A) (m2 : outcome B) : Prop :=
  match m1, m2 with
  | Ok a, Ok b => R a b
  | Err e, Err e' | Panic e, Panic e' => e = e'
  | _, _ => False
  end.

Lemma outcome_rel_bind {A B A' B'} (R : A -> B -> Prop) (R' : A' -> B' -> Prop) m1 m2 k1 k2 :
  outcome_rel R m1 m2 -> (forall a b, R a b -> outcome_rel R' (k1 a) (k2 b)) ->
  outcome_rel R' (outcome_bind m1 k1) (outcome_bind m2 k2).
Proof. destruct m1, m2; simpl; intros HR Hk; try done. by apply Hk. Qed.

Lemma outcome_rel_same {A B C} (R : A -> B -> Prop) (m : outcome C) k1 k2 :
  (forall c, m = Ok c -> outcome_rel R (k1 c) (k2 c)) -> outcome_rel R (outcome_bind m k1) (outcome_bind m k2).
Proof. destruct m; simpl; auto. Qed.

Lemma outcome_rel_foldM {A S T} (R : S -> T -> Prop) (body1 : S -> A -> outcome S) (body2 : T -> A -> outcome T) l : forall s t,
  R s t -> (forall s t x, R s t -> outcome_rel R (body1 s x) (body2 t x)) -> outcome_rel R (foldM body1 s l) (foldM body2 t l).
Proof.
  induction l as [|x l IH]; intros s t HR Hb; simpl; [done|]. eapply outcome_rel_bind; [by apply Hb|]. intros s' t' HR'. by apply IH.
Qed.

Lemma outcome_rel_Ok {A B} (R : A -> B -> Prop) m b : outcome_rel R m (Ok b) -> exists a, m = Ok a /\ R a b.
Proof. destruct m as [a| |]; simpl; [intros HR; by exists a|done|done]. Qed.

Lemma outcome_rel_Ok_l {A B} (R : A -> B -> Prop) a m : outcome_rel R (Ok a) m -> exists b, m = Ok b /\ R a b.
Proof. destruct m as [b| |]; simpl; [intros HR; by exists b|done|done]. Qed.

Lemma foldM_app {A S} (body : S -> A -> outcome S) s l1 l2 :
  foldM body s (l1 ++ l2) = outcome_bind (foldM body s l1) (fun s' => foldM body s' l2).
Proof.
  revert s. induction l1 as [|x l1 IH]; intros s; simpl; [done|].
  destruct (body s x); simpl; auto.
Qed.

Lemma foldM_ext {A S} (body1 body2 : S -> A -> outcome S) s l :
  (forall s x, body1 s x = body2 s x) -> foldM body1 s l = foldM body2 s l.
Proof.
  intros Hb. revert s. induction l as [|x l IH]; intros s; simpl; [done|].
  rewrite Hb. destruct (body2 s x); simpl; auto.
Qed.

Lemma foldl_ext_all {A B} (f g : A -> B -> A) l z : (forall a x, f a x = g a x) -> foldl f z l = foldl g z l.
Proof. intros Hf. revert z. induction l as [|x l IH]; intros z; simpl; [done|]. by rewrite Hf, IH. Qed.

(** Rule for loops: an invariant on the consumed prefix. *)
Lemma foldM_ind {A S} (body : S -> A -> outcome S) (P : list A -> S -> Prop) s l s' :
  foldM body s l = Ok s' ->
  P [] s ->
  (forall pre x s1 s2, pre ++ [x] `prefix_of` l -> P pre s1 -> body s1 x = Ok s2 -> P (pre ++ [x]) s2) ->
  P l s'.
Proof.
  intros Hf H0 Hstep.
  assert (forall suf pre s1, l = pre ++ suf -> P pre s1 -> foldM body s1 suf = Ok s' -> P l s') as Hgen.
  { induction suf as [|x suf IH]; intros pre s1 Hl HP Hs; simpl in Hs.
    - rewrite Hl, app_nil_r. by simplify_eq.
    - destruct (body s1 x) as [s2| |] eqn:Hb; try done. simpl in Hs.
      apply (IH (pre ++ [x]) s2); [by rewrite <- app_assoc| |done].
      eapply Hstep; [|done|done]. exists suf. by rewrite <- app_assoc. }
  by apply (Hgen l [] s).
Qed.

Lemma Forall_filter_1 {A} (P Q : A -> Prop) `{!forall x, Decision (P x)} l : Forall Q l -> Forall Q (filter P l).
Proof. rewrite !Forall_forall. intros HQ x [_ Hx]%list_elem_of_filter. auto. Qed.

Lemma list_filter_all {A} (P : A -> Prop) `{!forall x, Decision (P x)} l : Forall P l -> filter P l = l.
Proof. induction 1 as [|x l Hx _ IH]; [done|]. by rewrite filter_cons, decide_True, IH. Qed.

Lemma list_filter_none {A} (P : A -> Prop) `{!forall x, Decision (P x)} l : Forall (fun x => ~ P x) l -> filter P l = [].
Proof. induction 1 as [|x l Hx Hl IH]; [done|]. rewrite filter_cons, decide_False by done. exact IH. Qed.

Lemma prefix_by_lookup {A} (l1 l2 : list A) :
  (length l1 <= length l2)%nat -> (forall i, (i < length l1)%nat -> l1 !! i = l2 !! i) -> l1 `prefix_of` l2.
Proof.
  intros Hlen Hl. exists (drop (length l1) l2). rewrite <- (take_drop (length l1) l2) at 1. f_equal.
  apply list_eq. intros i. destruct (decide (i < length l1)%nat) as [Hi|Hi].
  - by rewrite lookup_take_lt, Hl.
  - rewrite (lookup_ge_None_2 l1) by lia. apply lookup_ge_None_2. rewrite length_take. lia.
Qed.

Lemma omap_ext_in {A B} (f g : A -> option B) (l : list A) : (forall x, x ∈ l -> f x = g x) -> omap f l = omap g l.
Proof.
  induction l as [|x l IH]; intros Hfg; [done|]. cbn. rewrite (Hfg x) by left.
  rewrite IH; [done|]. intros y Hy. apply Hfg. by right.
Qed.

Lemma length_omap_le {X Y} (f : X -> option Y) (l : list X) : (length (omap f l) <= length l)%nat.
Proof. induction l as [|x l IH]; csimpl; [done|]. destruct (f x); simpl; lia. Qed.

Lemma elem_of_imap_pair {A} (l : list A) k x : (k, x) ∈ imap pair l <-> l !! k = Some x.
Proof. rewrite elem_of_lookup_imap. split; [by intros (j & y & [= -> ->] & ?)|by exists k, x]. Qed.

(** Two sums over a map that differ at one key. *)
Lemma sum_list_one {K V} (f g : K * V -> nat) (l : list (K * V)) k x :
  NoDup l.*1 -> (k, x) ∈ l -> (forall k' x', k' <> k -> f (k', x') = g (k', x')) ->
  (sum_list (f <$> l) + g (k, x) = sum_list (g <$> l) + f (k, x))%nat.
Proof.
  intros Hnd Hin Hfg. induction l as [|[k0 x0] l IH]; [by apply not_elem_of_nil in Hin|].
  csimpl in *. apply NoDup_cons in Hnd as [Hn Hnd]. apply elem_of_cons in Hin as [[= <- <-]|Hin].
  - assert (f <$> l = g <$> l) as ->; [|lia].
    apply list_fmap_ext. intros i [k' x'] Hi. apply Hfg. intros ->. apply Hn.
    apply list_elem_of_fmap. exists (k, x'). split; [done|]. by eapply list_elem_of_lookup_2.
  - rewrite (Hfg k0 x0); [specialize (IH Hnd Hin); lia|].
    intros ->. apply Hn. apply list_elem_of_fmap. by exists (k, x).
Qed.

(** ** Lemmas on weighted sums *)

Section wsum_lemmas.
Context {A : Type}.
Implicit Types (f g : A -> Z) (l : list A).

Lemma wsum_app f l1 l2 : wsum f (l1 ++ l2) = wsum f l1 + wsum f l2.
Proof. induction l1 as [|x l1 IH]; simpl; lia. Qed.

Lemma wsum_mono f g l : (forall x, x ∈ l -> f x <= g x) -> wsum f l <= wsum g l.
Proof.
  induction l as [|x l IH]; intros Hfg; simpl; [lia|].
  pose proof (Hfg x ltac:(left)). assert (wsum f l <= wsum g l); [|lia].
  apply IH. intros y Hy. apply Hfg. by right.
Qed.

Lemma wsum_ext f g l : (forall x, x ∈ l -> f x = g x) -> wsum f l = wsum g l.
Proof.
  intros Hfg. apply Z.le_antisymm; apply wsum_mono; intros x Hx; rewrite (Hfg x Hx); lia.
Qed.

Lemma wsum_plus f g l : wsum (fun x => f x + g x) l = wsum f l + wsum g l.
Proof. induction l as [|x l IH]; simpl; lia. Qed.

Lemma wsum_scale k f l : wsum (fun x => k * f x) l = k * wsum f l.
Proof. induction l as [|x l IH]; simpl; lia. Qed.

Lemma wsum_nonneg f l : (forall x, x ∈ l -> 0 <= f x) -> 0 <= wsum f l.
Proof.
  induction l as [|x l IH]; intros Hf; simpl; [lia|].
  pose proof (Hf x ltac:(left)). assert (0 <= wsum f l); [|lia].
  apply IH. intros y Hy. apply Hf. by right.
Qed.

Lemma wsum_filter_le f (P : A -> Prop) `{!forall x, Decision (P x)} l : (forall x, x ∈ l -> 0 <= f x) -> wsum f (filter P l) <= wsum f l.
Proof.
  induction l as [|x l IH]; intros Hf; [done|]. rewrite filter_cons. pose proof (Hf x ltac:(left)).
  assert (wsum f (filter P l) <= wsum f l) by (apply IH; intros; apply Hf; by right). case_decide; simpl; lia.
Qed.

Lemma wsum_zero l : wsum (fun _ : A => 0) l = 0.
Proof. induction l; simpl; lia. Qed.

Lemma wsum_fmap {B} (h : B -> A) f (l : list B) : wsum f (h <$> l) = wsum (fun b => f (h b)) l.
Proof. induction l as [|x l IH]; csimpl; [done|]. by rewrite IH. Qed.

Lemma wsum_elem_le f l x : (forall y, y ∈ l -> 0 <= f y) -> x ∈ l -> f x <= wsum f l.
Proof.
  intros Hf Hx. apply list_elem_of_split in Hx as (l1 & l2 & ->).
  rewrite wsum_app. simpl.
  assert (0 <= wsum f l1) by (apply wsum_nonneg; intros; apply Hf; set_solver).
  assert (0 <= wsum f l2) by (apply wsum_nonneg; intros; apply Hf; set_solver).
  lia.
Qed.

#[global] Instance wsum_perm f : Proper ((≡ₚ) ==> (=)) (wsum f).
Proof.
  intros l1 l2 Hl. induction Hl; simpl; lia.
Qed.

End wsum_lemmas.

(** Exchange of two sums, for counting arguments over pairs. *)
Lemma wsum_swap {A B} (f : A -> B -> Z) (la : list A) (lb : list B) :
  wsum (fun a => wsum (f a) lb) la = wsum (fun b => wsum (fun a => f a b) la) lb.
Proof.
  induction la as [|a la IH]; simpl; [by rewrite wsum_zero|].
  by rewrite IH, <- wsum_plus.
Qed.

#[export] Hint Rewrite @wsum_app @wsum_plus @wsum_zero @wsum_fmap : wsum.
