(* ===== verification/Bytes.v ===== *)
(** * Byte encodings and event hashes

    common/bigendian, common/littleendian (Go's encoding/binary), the [Bytes]
    conversions of inter/idx, and the event hashes of hash/.  A byte is a [Z]
    in [0, 256); a byte slice is a list of them.  A 32-byte array [hash.Event]
    is kept as its big-endian value ([Event.Big]), which [Event_Bytes] and
    [BytesToEvent] translate from and to bytes. *)

From S2P Require Import Prelude.

(** ** encoding/binary *)

Definition is_byte (b : Z) : Prop := 0 <= b < 256.

(** Little-endian bytes of the low [8 * n] bits. *)
Fixpoint le_split (n : nat) (z : Z) : list Z :=
  match n with
  | O => []
  | S n' => z mod 256 :: le_split n' (z / 256)
  end.

Fixpoint le_value (l : list Z) : Z :=
  match l with
  | [] => 0
  | b :: l' => b + 256 * le_value l'
  end.

Definition be_split (n : nat) (z : Z) : list Z := reverse (le_split n z).
Definition be_value (l : list Z) : Z := le_value (reverse l).

(** [binary.*.UintN] reads the first [n] bytes and panics when there are fewer. *)
Definition read_n (value : list Z -> Z) (n : nat) (b : list Z) : outcome Z :=
  if (length b <? n)%nat then Panic "index out of range" else Ok (value (take n b)).

(** common/bigendian/bytes.go *)
Definition BE_Uint64ToBytes (n : Z) : list Z := be_split 8 n.
Definition BE_BytesToUint64 (b : list Z) : outcome Z := read_n be_value 8 b.
Definition BE_Uint32ToBytes (n : Z) : list Z := be_split 4 n.
Definition BE_BytesToUint32 (b : list Z) : outcome Z := read_n be_value 4 b.
Definition BE_Uint16ToBytes (n : Z) : list Z := be_split 2 n.
Definition BE_BytesToUint16 (b : list Z) : outcome Z := read_n be_value 2 b.

(** common/littleendian/bytes.go *)
Definition LE_Uint64ToBytes (n : Z) : list Z := le_split 8 n.
Definition LE_BytesToUint64 (b : list Z) : outcome Z := read_n le_value 8 b.
Definition LE_Uint32ToBytes (n : Z) : list Z := le_split 4 n.
Definition LE_BytesToUint32 (b : list Z) : outcome Z := read_n le_value 4 b.
Definition LE_Uint16ToBytes (n : Z) : list Z := le_split 2 n.
Definition LE_BytesToUint16 (b : list Z) : outcome Z := read_n le_value 2 b.

(** ** inter/idx: every index but [Block] is a [uint32] *)

Definition Epoch_Bytes : Z -> list Z := BE_Uint32ToBytes.
Definition Seq_Bytes : Z -> list Z := BE_Uint32ToBytes.
Definition Block_Bytes : Z -> list Z := BE_Uint64ToBytes.
Definition Lamport_Bytes : Z -> list Z := BE_Uint32ToBytes.
Definition Pack_Bytes : Z -> list Z := BE_Uint32ToBytes.
Definition ValidatorID_Bytes : Z -> list Z := BE_Uint32ToBytes.
Definition Frame_Bytes : Z -> list Z := BE_Uint32ToBytes.
Definition Validator_Bytes : Z -> list Z := BE_Uint32ToBytes.

Definition BytesToEpoch : list Z -> outcome Z := BE_BytesToUint32.
Definition BytesToSeq : list Z -> outcome Z := BE_BytesToUint32.
Definition BytesToBlock : list Z -> outcome Z := BE_BytesToUint64.
Definition BytesToLamport : list Z -> outcome Z := BE_BytesToUint32.
Definition BytesToFrame : list Z -> outcome Z := BE_BytesToUint32.
Definition BytesToPack : list Z -> outcome Z := BE_BytesToUint32.
Definition BytesToValidatorID : list Z -> outcome Z := BE_BytesToUint32.
Definition BytesToValidator : list Z -> outcome Z := BE_BytesToUint32.

Definition MaxLamport (x y : Z) : Z := if y <? x then x else y.

(** ** hash/event_hash.go *)

Definition HashLength : nat := 32.

(** [Hash.SetBytes] on a zero array: too long an input loses its left part, a
    short one is right-aligned. *)
Definition crop (b : list Z) : list Z :=
  if (HashLength <? length b)%nat then drop (length b - HashLength) b else b.

Definition SetBytes (b : list Z) : list Z :=
  let b' := crop b in replicate (HashLength - length b') 0 ++ b'.

Definition Event_Bytes (h : Z) : list Z := be_split HashLength h.
Definition BytesToEvent (b : list Z) : Z := be_value (SetBytes b).

Definition slice {A} (l : list A) (from to : nat) : list A := take (to - from) (drop from l).

Definition Event_Lamport (h : Z) : outcome Z := BytesToLamport (slice (Event_Bytes h) 4 8).
Definition Event_Epoch (h : Z) : outcome Z := BytesToEpoch (slice (Event_Bytes h) 0 4).
Definition Event_IsZero (h : Z) : bool := h =? 0.

(** [bytes.Compare] *)
Fixpoint bytes_Compare (a b : list Z) : comparison :=
  match a, b with
  | [], [] => Eq
  | [], _ :: _ => Lt
  | _ :: _, [] => Gt
  | x :: a', y :: b' => match x ?= y with Eq => bytes_Compare a' b' | c => c end
  end.

Definition OrderedEvents_Less (a b : Z) : bool :=
  match bytes_Compare (Event_Bytes a) (Event_Bytes b) with Lt => true | _ => false end.

(** Event sets: Go maps to the empty struct. *)
Definition EventsSet_Add (s : gset Z) (hs : list Z) : gset Z := foldl (fun s h => {[h]} ∪ s) s hs.
Definition EventsSet_Erase (s : gset Z) (hs : list Z) : gset Z := foldl (fun s h => s ∖ {[h]}) s hs.
Definition EventsSet_Contains (s : gset Z) (h : Z) : bool := bool_decide (h ∈ s).
Definition Events_Set (hs : list Z) : gset Z := EventsSet_Add ∅ hs.

(** The stack of the graph traversals: the top is the end of the slice. *)
Definition Stack_Push (s : list Z) (v : Z) : list Z := s ++ [v].
Definition Stack_PushAll (s vv : list Z) : list Z := s ++ vv.
Definition Stack_Pop (s : list Z) : option (Z * list Z) :=
  match last s with
  | None => None
  | Some v => Some (v, take (length s - 1) s)
  end.

(** inter/dag/event.go and abft/indexed_lachesis.go: an ID is the epoch, the
    Lamport time and 24 more bytes. *)
Definition make_id (epoch lamport : Z) (rID : list Z) : Z :=
  be_value (Epoch_Bytes epoch ++ Lamport_Bytes lamport ++ rID).

(** [big.Int.Bytes]: the minimal big-endian bytes, none for zero. *)
Definition big_Bytes (n : Z) : list Z :=
  if n =? 0 then [] else be_split (Z.to_nat (Z.log2 n / 8 + 1)) n.

(** [copy(id[:], bytes)] into a zero array of [n] bytes. *)
Definition copy_into (n : nat) (b : list Z) : list Z :=
  take n b ++ replicate (n - length b) 0.

(** abft/indexed_lachesis.go: the counter is incremented, then its bytes are
    copied to the front of the ID. *)
Definition uniqueID_sample (counter : Z) : Z * list Z :=
  (counter + 1, copy_into 24 (big_Bytes (counter + 1))).

(** * Theorems *)

Lemma le_split_length n z : length (le_split n z) = n.
Proof. revert z. induction n as [|n IH]; intros z; simpl; auto. Qed.

Lemma be_split_length n z : length (be_split n z) = n.
Proof. unfold be_split. by rewrite length_reverse, le_split_length. Qed.

Lemma le_value_split n z : le_value (le_split n z) = z mod 256 ^ Z.of_nat n.
Proof.
  revert z. induction n as [|n IH]; intros z; simpl le_split; simpl le_value.
  - by rewrite Z.mod_1_r.
  - rewrite IH, Nat2Z.inj_succ, Z.pow_succ_r by lia.
    rewrite Z.rem_mul_r by lia. lia.
Qed.

Lemma be_value_split n z : be_value (be_split n z) = z mod 256 ^ Z.of_nat n.
Proof. unfold be_value, be_split. by rewrite reverse_involutive, le_value_split. Qed.

Lemma le_split_bytes n z : Forall is_byte (le_split n z).
Proof.
  revert z. induction n as [|n IH]; intros z; simpl; constructor; [|done].
  apply Z.mod_pos_bound. lia.
Qed.

Lemma be_split_bytes n z : Forall is_byte (be_split n z).
Proof. apply Forall_reverse, le_split_bytes. Qed.

Lemma le_split_value l : Forall is_byte l -> le_split (length l) (le_value l) = l.
Proof.
  induction 1 as [|b l Hb Hl IH]; simpl; [done|]. unfold is_byte in Hb. f_equal.
  - rewrite Z.mul_comm, Z.mod_add by lia. by apply Z.mod_small.
  - rewrite Z.mul_comm, Z.div_add, (Z.div_small b) by lia. done.
Qed.

Lemma be_split_value l : Forall is_byte l -> be_split (length l) (be_value l) = l.
Proof.
  intros Hl. unfold be_split, be_value. rewrite <- (length_reverse l).
  rewrite le_split_value by (by apply Forall_reverse). apply reverse_involutive.
Qed.

Lemma le_value_bound l : Forall is_byte l -> 0 <= le_value l < 256 ^ Z.of_nat (length l).
Proof.
  intros Hl. rewrite <- (le_split_value l Hl), le_value_split, le_split_length.
  apply Z.mod_pos_bound, Z.pow_pos_nonneg; lia.
Qed.

Lemma be_value_bound l : Forall is_byte l -> 0 <= be_value l < 256 ^ Z.of_nat (length l).
Proof.
  intros Hl. unfold be_value. rewrite <- (length_reverse l). by apply le_value_bound, Forall_reverse.
Qed.

Lemma le_value_app l1 l2 :
  le_value (l1 ++ l2) = le_value l1 + 256 ^ Z.of_nat (length l1) * le_value l2.
Proof.
  induction l1 as [|b l1 IH]; [simpl; lia|].
  simpl app. simpl le_value. simpl length.
  rewrite IH, Nat2Z.inj_succ, Z.pow_succ_r by lia. lia.
Qed.

Lemma be_value_app l1 l2 :
  be_value (l1 ++ l2) = be_value l1 * 256 ^ Z.of_nat (length l2) + be_value l2.
Proof. unfold be_value. rewrite reverse_app, le_value_app, length_reverse. lia. Qed.

Lemma be_value_zeros n : be_value (replicate n 0) = 0.
Proof.
  unfold be_value. rewrite reverse_replicate. induction n as [|n IH]; simpl; lia.
Qed.

Lemma read_be_split n z :
  0 <= z < 256 ^ Z.of_nat n -> read_n be_value n (be_split n z) = Ok z.
Proof.
  intros Hz. unfold read_n. rewrite be_split_length, Nat.ltb_irrefl.
  rewrite take_ge by (rewrite be_split_length; lia).
  by rewrite be_value_split, Z.mod_small.
Qed.

Lemma read_le_split n z :
  0 <= z < 256 ^ Z.of_nat n -> read_n le_value n (le_split n z) = Ok z.
Proof.
  intros Hz. unfold read_n. rewrite le_split_length, Nat.ltb_irrefl.
  rewrite take_ge by (rewrite le_split_length; lia).
  by rewrite le_value_split, Z.mod_small.
Qed.

(** The big- and little-endian codecs of the three widths are inverse to
    each other on the values of the width. *)
Theorem endian_roundtrip (n : Z) :
  (0 <= n < 2 ^ 16 -> BE_BytesToUint16 (BE_Uint16ToBytes n) = Ok n /\
               LE_BytesToUint16 (LE_Uint16ToBytes n) = Ok n) /\
  (is_u32 n -> BE_BytesToUint32 (BE_Uint32ToBytes n) = Ok n /\
               LE_BytesToUint32 (LE_Uint32ToBytes n) = Ok n) /\
  (is_u64 n -> BE_BytesToUint64 (BE_Uint64ToBytes n) = Ok n /\
               LE_BytesToUint64 (LE_Uint64ToBytes n) = Ok n).
Proof.
  split; [|split]; intros Hn; split; (apply read_be_split || apply read_le_split); exact Hn.
Qed.

Lemma endian_roundtrip_witness : BE_BytesToUint32 (BE_Uint32ToBytes 305419896) = Ok 305419896.
Proof. apply (endian_roundtrip 305419896). by vm_compute. Defined.

Lemma Stack_Pop_snoc l x : Stack_Pop (l ++ [x]) = Some (x, l).
Proof.
  unfold Stack_Pop. rewrite last_snoc, length_app. simpl. rewrite Nat.add_sub.
  by rewrite take_app_length.
Qed.

(** ** Order of hashes *)

Lemma bytes_Compare_value a : forall b,
  length a = length b -> Forall is_byte a -> Forall is_byte b ->
  bytes_Compare a b = (be_value a ?= be_value b).
Proof.
  induction a as [|x a IH]; intros [|y b] Hlen Ha Hb; simplify_eq/=; [done|].
  apply Forall_cons in Ha as [Hx Ha]. apply Forall_cons in Hb as [Hy Hb].
  change (x :: a) with ([x] ++ a). change (y :: b) with ([y] ++ b).
  rewrite !be_value_app, Hlen.
  pose proof (be_value_bound a Ha) as Ba. pose proof (be_value_bound b Hb) as Bb. rewrite Hlen in Ba.
  unfold be_value at 1 3. simpl. rewrite !Z.add_0_r. set (m := 256 ^ Z.of_nat (length b)) in *.
  destruct (Z.compare_spec x y) as [->|Hlt|Hgt]; symmetry.
  - rewrite (IH b) by done. destruct (Z.compare_spec (be_value a) (be_value b)).
    + apply Z.compare_eq_iff. lia.
    + apply Z.compare_lt_iff. lia.
    + apply Z.compare_gt_iff. lia.
  - apply Z.compare_lt_iff. nia.
  - apply Z.compare_gt_iff. nia.
Qed.

Definition is_hash (h : Z) : Prop := 0 <= h < 256 ^ Z.of_nat HashLength.

Lemma Event_Bytes_value h : is_hash h -> be_value (Event_Bytes h) = h.
Proof. intros Hh. unfold Event_Bytes. by rewrite be_value_split, Z.mod_small. Qed.

Lemma OrderedEvents_Less_value a b :
  is_hash a -> is_hash b -> OrderedEvents_Less a b = (a <? b).
Proof.
  intros Ha Hb. unfold OrderedEvents_Less.
  rewrite bytes_Compare_value by (apply be_split_bytes || (unfold Event_Bytes; by rewrite !be_split_length)).
  by rewrite !Event_Bytes_value.
Qed.

(** [BytesToEvent] undoes [Bytes]. *)
Lemma BytesToEvent_Bytes h : is_hash h -> BytesToEvent (Event_Bytes h) = h.
Proof.
  intros Hh. unfold BytesToEvent, SetBytes, crop. unfold Event_Bytes.
  rewrite be_split_length, Nat.ltb_irrefl, be_split_length, Nat.sub_diag. simpl app.
  by apply Event_Bytes_value.
Qed.

Section make_id.
Context (epoch lamport : Z) (rID : list Z).
Context (He : is_u32 epoch) (Hl : is_u32 lamport) (Hlen : length rID = 24%nat) (Hb : Forall is_byte rID).

Lemma make_id_length : length (Epoch_Bytes epoch ++ Lamport_Bytes lamport ++ rID) = HashLength.
Proof using Hlen.
  rewrite !length_app. unfold Epoch_Bytes, Lamport_Bytes, BE_Uint32ToBytes.
  by rewrite !be_split_length, Hlen.
Qed.

Lemma make_id_bytes : Event_Bytes (make_id epoch lamport rID) = Epoch_Bytes epoch ++ Lamport_Bytes lamport ++ rID.
Proof using Hlen Hb.
  unfold Event_Bytes, make_id. rewrite <- make_id_length. apply be_split_value.
  rewrite !Forall_app. split; [apply be_split_bytes|split; [apply be_split_bytes|done]].
Qed.

Lemma make_id_is_hash : is_hash (make_id epoch lamport rID).
Proof using Hlen Hb.
  unfold is_hash, make_id. rewrite <- make_id_length. apply be_value_bound.
  rewrite !Forall_app. split; [apply be_split_bytes|split; [apply be_split_bytes|done]].
Qed.

Lemma make_id_Epoch : Event_Epoch (make_id epoch lamport rID) = Ok epoch.
Proof using He Hlen Hb.
  unfold Event_Epoch, slice. rewrite make_id_bytes, drop_0, take_app_length'
    by (unfold Epoch_Bytes, BE_Uint32ToBytes; by rewrite be_split_length).
  by apply read_be_split.
Qed.

Lemma make_id_Lamport : Event_Lamport (make_id epoch lamport rID) = Ok lamport.
Proof using Hl Hlen Hb.
  unfold Event_Lamport, slice. rewrite make_id_bytes, drop_app_length'
    by (unfold Epoch_Bytes, BE_Uint32ToBytes; by rewrite be_split_length).
  rewrite take_app_length' by (unfold Lamport_Bytes, BE_Uint32ToBytes; by rewrite be_split_length).
  by apply read_be_split.
Qed.

Lemma make_id_value :
  make_id epoch lamport rID = epoch * 256 ^ 28 + lamport * 256 ^ 24 + be_value rID.
Proof using He Hl Hlen.
  unfold make_id. rewrite !be_value_app, length_app.
  unfold Epoch_Bytes, Lamport_Bytes, BE_Uint32ToBytes. rewrite be_split_length, !be_value_split, Hlen.
  change (256 ^ Z.of_nat 4) with (2 ^ 32). change (Z.of_nat (4 + 24)) with 28. change (Z.of_nat 24) with 24.
  rewrite !Z.mod_small by solve_width. lia.
Qed.
End make_id.

(** Event IDs carry their epoch and Lamport time, and sorting IDs
    ([OrderedEvents.ByEpochAndLamport]) orders events by epoch first, Lamport
    time second and the remaining bytes third. *)
Theorem ByEpochAndLamport_order (e1 l1 e2 l2 : Z) (r1 r2 : list Z) :
  is_u32 e1 -> is_u32 l1 -> is_u32 e2 -> is_u32 l2 ->
  length r1 = 24%nat -> length r2 = 24%nat -> Forall is_byte r1 -> Forall is_byte r2 ->
  Event_Epoch (make_id e1 l1 r1) = Ok e1 /\ Event_Lamport (make_id e1 l1 r1) = Ok l1 /\
  (OrderedEvents_Less (make_id e1 l1 r1) (make_id e2 l2 r2) = true <->
   e1 < e2 \/ (e1 = e2 /\ (l1 < l2 \/ (l1 = l2 /\ be_value r1 < be_value r2)))).
Proof.
  intros He1 Hl1 He2 Hl2 Hr1 Hr2 Hb1 Hb2.
  split; [by apply make_id_Epoch|split; [by apply make_id_Lamport|]].
  rewrite OrderedEvents_Less_value by (by apply make_id_is_hash).
  rewrite Z.ltb_lt, !make_id_value by done.
  pose proof (be_value_bound r1 Hb1) as B1. pose proof (be_value_bound r2 Hb2) as B2.
  rewrite Hr1 in B1. rewrite Hr2 in B2. change (Z.of_nat 24) with 24 in *.
  unfold is_u32 in *. lia.
Qed.

Lemma ByEpochAndLamport_order_witness :
  Event_Epoch (make_id 1 5 (replicate 24 7)) = Ok 1 /\
  Event_Lamport (make_id 1 5 (replicate 24 7)) = Ok 5 /\
  (OrderedEvents_Less (make_id 1 5 (replicate 24 7)) (make_id 1 6 (replicate 24 0)) = true <->
   1 < 1 \/ (1 = 1 /\ (5 < 6 \/ (5 = 6 /\ be_value (replicate 24 7) < be_value (replicate 24 0))))).
Proof.
  apply (ByEpochAndLamport_order 1 5 1 6 (replicate 24 7) (replicate 24 0)); try (split; reflexivity || discriminate);
    try reflexivity; apply Forall_replicate; split; reflexivity || discriminate.
Defined.

(** ** Temporary IDs of [Build] *)

Lemma be_split_snoc n z : be_split (S n) (256 * z) = be_split n z ++ [0].
Proof.
  unfold be_split. simpl le_split. rewrite (Z.mul_comm 256), Z.mod_mul, Z.div_mul by lia.
  by rewrite reverse_cons.
Qed.

Lemma big_Bytes_value n : 0 <= n -> be_value (big_Bytes n) = n.
Proof.
  intros Hn. unfold big_Bytes. destruct (n =? 0) eqn:E; bool_to_prop; [by subst|].
  rewrite be_value_split. apply Z.mod_small. split; [done|].
  pose proof (Z.log2_spec n ltac:(lia)) as [_ Hl]. pose proof (Z.log2_nonneg n).
  assert (0 <= Z.log2 n / 8) by (apply Z.div_pos; lia). rewrite Z2Nat.id by lia.
  change 256 with (2 ^ 8). rewrite <- Z.pow_mul_r by lia. eapply Z.lt_le_trans; [exact Hl|].
  apply Z.pow_le_mono_r; [lia|]. pose proof (Z.div_mod (Z.log2 n) 8 ltac:(lia)).
  pose proof (Z.mod_pos_bound (Z.log2 n) 8 ltac:(lia)). lia.
Qed.

Lemma big_Bytes_bytes n : Forall is_byte (big_Bytes n).
Proof. unfold big_Bytes. case_match; [done|apply be_split_bytes]. Qed.

Lemma big_Bytes_mul256 n : 0 < n -> big_Bytes (256 * n) = big_Bytes n ++ [0].
Proof.
  intros Hn. unfold big_Bytes.
  destruct (256 * n =? 0) eqn:E1; destruct (n =? 0) eqn:E2; bool_to_prop; try lia.
  replace (Z.log2 (256 * n)) with (Z.log2 n + 8)
    by (rewrite (Z.mul_comm 256); change 256 with (2 ^ 8); by rewrite Z.log2_mul_pow2, Z.add_comm by lia).
  replace (Z.log2 n + 8) with (Z.log2 n + 1 * 8) by lia. rewrite Z.div_add by lia.
  pose proof (Z.log2_nonneg n). assert (0 <= Z.log2 n / 8) by (apply Z.div_pos; lia).
  replace (Z.to_nat (Z.log2 n / 8 + 1 + 1)) with (S (Z.to_nat (Z.log2 n / 8 + 1))) by lia.
  apply be_split_snoc.
Qed.

Lemma big_Bytes_length n : 0 < n < 2 ^ 184 -> (length (big_Bytes n) < 24)%nat.
Proof.
  intros [Hn Hlt]. unfold big_Bytes. destruct (n =? 0) eqn:E; bool_to_prop; [lia|].
  rewrite be_split_length. apply Z.log2_lt_pow2 in Hlt; [|lia].
  assert (Z.log2 n / 8 < 23) by (apply Z.div_lt_upper_bound; lia). lia.
Qed.

(** The counter behind the temporary IDs of [Build] does not make them
    unique: its bytes are copied to the front of the ID without their length,
    so the samples number [n] and [256 * n] are the same ID. *)
Theorem uniqueID_sample_collides (n : Z) :
  0 < n < 2 ^ 184 ->
  (uniqueID_sample (n - 1)).2 = (uniqueID_sample (256 * n - 1)).2.
Proof.
  intros Hn. unfold uniqueID_sample. simpl. rewrite !Z.sub_add, big_Bytes_mul256 by lia.
  pose proof (big_Bytes_length n Hn). unfold copy_into.
  rewrite length_app. simpl length. rewrite !take_ge by (rewrite ?length_app; simpl; lia).
  rewrite <- app_assoc. f_equal.
  replace (24 - length (big_Bytes n))%nat with (S (24 - (length (big_Bytes n) + 1))) by lia. done.
Qed.

Lemma uniqueID_sample_collides_witness : (uniqueID_sample 0).2 = (uniqueID_sample 255).2.
Proof. apply (uniqueID_sample_collides 1). lia. Defined.
