(* ===== verification/Hashes.v ===== *)
(** * hash: the operations on hashes and event ids

    hash/hash.go and hash/event_hash.go past the codecs of Bytes.v: filling a
    hash from bytes, a big integer or text, slices and sets of hashes, the sort
    of event ids, and the ids printed for people with the names of hash/log.go
    and utils/util.go.  As in Bytes.v a hash is its big-endian value.  The hex
    codec of go-ethereum is a parameter; [fmt] prints a number in decimal. *)

From S2P Require Import Prelude Bytes.
From stdpp Require Import pretty.
From Stdlib Require Ascii.
Local Abbreviation ascii := Ascii.ascii.
Local Abbreviation ascii_of_nat := Ascii.ascii_of_nat.

Local Open Scope Z_scope.
Local Open Scope list_scope.
Local Open Scope go_scope.

(** ** hash/hash.go *)

(** [Hash.SetBytes] copies over the right part of a hash that may hold a value. *)
Definition Hash_SetBytes (h : Z) (b : list Z) : Z :=
  let b := crop b in be_value (take (HashLength - length b) (Event_Bytes h) ++ b).

Definition BytesToHash (b : list Z) : Z := Hash_SetBytes 0 b.
Definition BigToHash (n : Z) : Z := BytesToHash (big_Bytes n).
Definition Hash_Bytes (h : Z) : list Z := Event_Bytes h.
(** [big.Int.SetBytes] *)
Definition Hash_Big (h : Z) : Z := be_value (Event_Bytes h).

(** [%x] *)
Definition hex_digit (d : Z) : ascii := ascii_of_nat (Z.to_nat (if (d <? 10)%Z then (48 + d)%Z else (87 + d)%Z)).
Definition fmt_x (l : list Z) : string :=
  foldr (fun b s => String (hex_digit (b / 16)) (String (hex_digit (b mod 16)) s)) ""%string l.
(** The UTF-8 bytes of the ellipsis. *)
Definition ellipsis : string := String (ascii_of_nat 226) (String (ascii_of_nat 128) (String (ascii_of_nat 166) "")).
Definition TerminalString (h : Z) : string :=
  (fmt_x (slice (Event_Bytes h) 0 3) ++ ellipsis ++ fmt_x (slice (Event_Bytes h) 29 32))%string.

(** github.com/ethereum/go-ethereum/common/hexutil. *)
Class HexUtil := {
  hexutil_Encode : list Z -> string;
  hexutil_MustDecode : string -> outcome (list Z);
  common_Bytes2Hex : list Z -> string
}.
(** What is encoded is decoded; different bytes have different digits, two for a byte. *)
Class HexUtilLaws `{!HexUtil} : Prop := {
  hexutil_decode l : Forall is_byte l -> hexutil_MustDecode (hexutil_Encode l) = Ok l;
  Bytes2Hex_inj l1 l2 : Forall is_byte l1 -> Forall is_byte l2 -> common_Bytes2Hex l1 = common_Bytes2Hex l2 -> l1 = l2
}.

Definition Hash_Hex `{!HexUtil} (h : Z) : string := hexutil_Encode (Event_Bytes h).
Definition Hash_String `{!HexUtil} (h : Z) : string := Hash_Hex h.
Definition HexToHash `{!HexUtil} (s : string) : outcome Z := let* b := hexutil_MustDecode s in Ok (BytesToHash b).

(** [strings.Join] *)
Fixpoint strings_Join (l : list string) (sep : string) : string :=
  match l with
  | [] => ""
  | [s] => s
  | s :: l => s ++ sep ++ strings_Join l sep
  end%string.
Definition bracketed (l : list string) : string := ("[" ++ strings_Join l ", " ++ "]")%string.

(** Slices and sets of hashes.  The order in which Go walks a map is any. *)
Definition Hashes_Add (hh hash : list Z) : list Z := hh ++ hash.
Definition NewHashes (h : list Z) : list Z := Hashes_Add [] h.
(** [make], then each element is assigned. *)
Definition copy_slice (hh : list Z) : list Z := imap (fun k _ => default 0 (hh !! k)) (replicate (length hh) 0).
Definition Hashes_Copy (hh : list Z) : list Z := copy_slice hh.
Definition Hashes_String `{!HexUtil} (hh : list Z) : string := bracketed (Hash_String <$> hh).
Definition HashesSet_Add (hh : gset Z) (hash : list Z) : gset Z := foldl (fun s h => {[h]} ∪ s) hh hash.
Definition HashesSet_Erase (hh : gset Z) (hash : list Z) : gset Z := foldl (fun s h => s ∖ {[h]}) hh hash.
Definition HashesSet_Contains (hh : gset Z) (h : Z) : bool := bool_decide (h ∈ hh).
Definition NewHashesSet (h : list Z) : gset Z := HashesSet_Add ∅ h.
Definition Hashes_Set (hh : list Z) : gset Z := HashesSet_Add ∅ hh.
Definition HashesSet_Slice (hh : gset Z) (arr : list Z) : Prop := arr ≡ₚ elements hh.
Definition HashesSet_Copy (hh ee : gset Z) : Prop := exists ks, ks ≡ₚ elements hh /\ ee = foldl (fun s h => {[h]} ∪ s) ∅ ks.
Definition HashesSet_String `{!HexUtil} (hh : gset Z) (s : string) : Prop :=
  exists ks, ks ≡ₚ elements hh /\ s = bracketed (Hash_String <$> ks).

(** ** hash/log.go *)

Record Names := mk_Names { nodeNameDict : gmap Z string; eventNameDict : gmap Z string }.
Definition no_names : Names := mk_Names ∅ ∅.
Definition SetNodeName (d : Names) (n : Z) (name : string) : Names := mk_Names (<[n := name]> (nodeNameDict d)) (eventNameDict d).
Definition SetEventName (d : Names) (e : Z) (name : string) : Names := mk_Names (nodeNameDict d) (<[e := name]> (eventNameDict d)).
Definition GetNodeName (d : Names) (n : Z) : string := default ""%string (nodeNameDict d !! n).
Definition GetEventName (d : Names) (e : Z) : string := default ""%string (eventNameDict d !! e).

(** utils/util.go *)
Definition NameOf (d : Names) (p : Z) : string :=
  let name := GetNodeName d p in if (0 <? String.length name)%nat then name else pretty p.

(** ** hash/event_hash.go *)

Section event_hash.
Context `{!HexUtil} (d : Names).

Definition FromBytes (b : list Z) : Z := Hash_SetBytes 0 b.
Definition Event_Big (h : Z) : Z := Hash_Big h.
Definition Event_SetBytes (h : Z) (raw : list Z) : Z := Hash_SetBytes h raw.
Definition HexToEventHash (s : string) : outcome Z := HexToHash s.
Definition Event_Hex (h : Z) : string := Hash_Hex h.

(** Slicing past the end of the array panics. *)
Definition ShortID (h precision : Z) : outcome string :=
  let name := GetEventName d h in
  if (0 <? String.length name)%nat then Ok name
  else
    let* epoch := Event_Epoch h in
    let* lamport := Event_Lamport h in
    if (8 <=? 8 + precision) && (8 + precision <=? Z.of_nat HashLength) then
      Ok (pretty epoch ++ ":" ++ pretty lamport ++ ":" ++
          common_Bytes2Hex (slice (Event_Bytes h) 8 (Z.to_nat (8 + precision))))%string
    else Panic "slice bounds out of range".

Definition Event_String (h : Z) : outcome string := ShortID h 3.
Definition FullID (h : Z) : outcome string := ShortID h (32 - 4 - 4).

(** The strings of a list of events. *)
Definition names_of (hh : list Z) : outcome (list string) :=
  foldM (fun ss h => let* s := Event_String h in Ok (ss ++ [s])) [] hh.

Definition NewEventsSet (h : list Z) : gset Z := EventsSet_Add ∅ h.
Definition EventsSet_Copy (hh ee : gset Z) : Prop := exists ks, ks ≡ₚ elements hh /\ ee = EventsSet_Add ∅ ks.
Definition EventsSet_Slice (hh : gset Z) (arr : list Z) : Prop := arr ≡ₚ elements hh.
Definition EventsSet_String (hh : gset Z) (s : string) : Prop :=
  exists ks ss, ks ≡ₚ elements hh /\ names_of ks = Ok ss /\ s = bracketed ss.

Definition Events_Add (hh hash : list Z) : list Z := hh ++ hash.
Definition NewEvents (h : list Z) : list Z := Events_Add [] h.
Definition Events_Copy (hh : list Z) : list Z := copy_slice hh.
Definition Events_String (hh : list Z) : outcome string := let* ss := names_of hh in Ok (bracketed ss).

(** A separator follows the last event too. *)
Definition OrderedEvents_String (hh : list Z) : outcome string :=
  let* body := foldM (fun s h => let* n := Event_String h in Ok (s ++ (n ++ ", "))%string) "["%string hh in
  Ok (body ++ "]")%string.

Definition OrderedEvents_Len (hh : list Z) : nat := length hh.
Definition OrderedEvents_Swap (hh : list Z) (i j : nat) : outcome (list Z) :=
  match hh !! i, hh !! j with
  | Some x, Some y => Ok (<[j := x]> (<[i := y]> hh))
  | _, _ => Panic "index out of range"
  end.

(** [sort.Sort]: a sorted permutation; the order is total on hashes, so it is
    the one that this sort gives ([ByEpochAndLamport_unique]). *)
#[local] Instance Less_dec : RelDecision (fun a b => OrderedEvents_Less b a = false).
Proof. intros a b. apply _. Defined.
Definition ByEpochAndLamport (hh : list Z) : list Z := merge_sort (fun a b => OrderedEvents_Less b a = false) hh.

(** The digest of [crypto/sha256] is a parameter. *)
Definition hash_Of (sha256 : list Z -> list Z) (data : list (list Z)) : Z := BytesToHash (sha256 (concat data)).

Definition FakeEpoch : Z := 123456.
(** [r] is what [rand.Read] fills the hash with. *)
Definition FakeEvent (r : list Z) : Z := be_value (BE_Uint32ToBytes FakeEpoch ++ drop 4 r).
Definition FakeEvents (rs : list (list Z)) : list Z := foldl (fun res r => Events_Add res [FakeEvent r]) [] rs.
Definition FakePeer (r : list Z) : outcome Z := BytesToValidatorID (take 4 r).

End event_hash.

(** * Theorems *)

(** ** Filling a hash *)

Lemma take_zero_bytes n : (n <= HashLength)%nat -> take n (Event_Bytes 0) = replicate n 0.
Proof.
  intros Hn. assert (Event_Bytes 0 = replicate HashLength 0) as -> by (vm_compute; reflexivity).
  rewrite take_replicate. f_equal. lia.
Qed.

Lemma BytesToHash_value b : BytesToHash b = be_value (crop b).
Proof.
  unfold BytesToHash, Hash_SetBytes. rewrite take_zero_bytes by lia.
  by rewrite be_value_app, be_value_zeros.
Qed.

(** A short input leaves the left part of a hash as it was: [SetBytes] sets the
    hash to the value of its argument only when it starts from zero. *)
Lemma Hash_SetBytes_stale : Hash_SetBytes (2 ^ 248) [1] = 2 ^ 248 + 1 /\ BytesToHash [1] = 1.
Proof. split; vm_compute; reflexivity. Qed.

Lemma be_value_drop n l : Forall is_byte l -> be_value (drop n l) = be_value l mod 256 ^ Z.of_nat (length l - n).
Proof.
  intros Hl. rewrite <- (take_drop n l) at 2. rewrite be_value_app, length_drop.
  rewrite Z.add_comm, Z.mod_add by lia. symmetry. apply Z.mod_small. rewrite <- length_drop.
  by apply be_value_bound, Forall_drop.
Qed.

Lemma crop_value b : Forall is_byte b -> be_value (crop b) = be_value b mod 256 ^ Z.of_nat HashLength.
Proof.
  intros Hb. unfold crop. destruct (Nat.ltb_spec HashLength (length b)) as [Hlt|Hge].
  - rewrite be_value_drop by done. do 3 f_equal. lia.
  - symmetry. apply Z.mod_small. pose proof (be_value_bound b Hb) as [? Hlt]. split; [done|].
    eapply Z.lt_le_trans; [exact Hlt|]. apply Z.pow_le_mono_r; lia.
Qed.

(** A hash holds a number modulo 2^256, and gives a smaller one back. *)
Lemma BigToHash_mod n : 0 <= n -> BigToHash n = n mod 256 ^ Z.of_nat HashLength.
Proof.
  intros Hn. unfold BigToHash. rewrite BytesToHash_value, crop_value by apply big_Bytes_bytes. by rewrite big_Bytes_value.
Qed.

Lemma BigToHash_Big h : is_hash h -> BigToHash (Hash_Big h) = h.
Proof.
  intros Hh. unfold Hash_Big. rewrite Event_Bytes_value by done. rewrite BigToHash_mod by apply Hh. by apply Z.mod_small.
Qed.

Lemma HexToHash_Hex `{HexUtilLaws} h : is_hash h -> HexToHash (Hash_Hex h) = Ok h.
Proof.
  intros Hh. unfold HexToHash, Hash_Hex. rewrite hexutil_decode by apply be_split_bytes. simpl. f_equal.
  rewrite BytesToHash_value, crop_value by apply be_split_bytes. rewrite Event_Bytes_value by done. by apply Z.mod_small.
Qed.

(** ** Slices and sets *)

Lemma copy_slice_same hh : copy_slice hh = hh.
Proof.
  apply list_eq. intros i. unfold copy_slice. rewrite list_lookup_imap. destruct (hh !! i) eqn:Hi.
  - rewrite lookup_replicate_2 by (by eapply lookup_lt_Some). done.
  - by rewrite (proj1 (lookup_replicate_None _ _ _)) by (by eapply lookup_ge_None).
Qed.

Lemma elem_of_HashesSet_Add hash : forall hh x, x ∈ HashesSet_Add hh hash <-> x ∈ hh \/ x ∈ hash.
Proof.
  unfold HashesSet_Add. induction hash as [|h hash IH]; intros hh x; simpl; [set_solver|]. rewrite IH. set_solver.
Qed.

Lemma elem_of_HashesSet_Erase hash : forall hh x, x ∈ HashesSet_Erase hh hash <-> x ∈ hh /\ x ∉ hash.
Proof.
  unfold HashesSet_Erase. induction hash as [|h hash IH]; intros hh x; simpl; [set_solver|]. rewrite IH. set_solver.
Qed.

Lemma set_copy_same hh ee : HashesSet_Copy hh ee -> ee = hh.
Proof.
  intros (ks & Hks & ->). change (HashesSet_Add ∅ ks = hh). apply set_eq. intros x.
  rewrite elem_of_HashesSet_Add, Hks, elem_of_elements. set_solver.
Qed.

(** ** The order of event ids *)

Lemma slice_value h i j : is_hash h -> (i <= j <= HashLength)%nat ->
  be_value (slice (Event_Bytes h) i j) = h / 256 ^ Z.of_nat (HashLength - j) mod 256 ^ Z.of_nat (j - i).
Proof.
  intros Hh Hij. pose proof (be_split_bytes HashLength h) as Hb. fold (Event_Bytes h) in Hb.
  assert (length (Event_Bytes h) = HashLength) as Hlen by apply be_split_length.
  assert (slice (Event_Bytes h) i j = drop i (take j (Event_Bytes h))) as ->.
  { unfold slice. rewrite skipn_firstn_comm. done. }
  rewrite be_value_drop by by apply Forall_take. rewrite length_take, Hlen, Nat.min_l by lia. f_equal.
  rewrite <- (Event_Bytes_value h Hh) at 2. rewrite <- (take_drop j (Event_Bytes h)) at 2. rewrite be_value_app, length_drop, Hlen.
  rewrite Z.div_add_l by lia. rewrite Z.div_small; [lia|]. rewrite <- Hlen, <- length_drop. by apply be_value_bound, Forall_drop.
Qed.

Definition epoch_of (h : Z) : Z := h / 256 ^ 28.
Definition lamport_of (h : Z) : Z := h / 256 ^ 24 mod 256 ^ 4.

Lemma slice_length l i j : (i <= j <= length l)%nat -> length (slice (A := Z) l i j) = (j - i)%nat.
Proof. intros H. unfold slice. rewrite length_take, length_drop. lia. Qed.

Lemma Event_parts h : is_hash h -> Event_Epoch h = Ok (epoch_of h) /\ Event_Lamport h = Ok (lamport_of h).
Proof.
  intros Hh. assert (length (Event_Bytes h) = 32%nat) as Hlen by apply be_split_length.
  unfold Event_Epoch, Event_Lamport, BytesToEpoch, BytesToLamport, BE_BytesToUint32, read_n.
  rewrite !slice_length by lia. simpl (_ <? _)%nat. split; f_equal; rewrite take_ge by (rewrite slice_length; lia);
    rewrite slice_value by (done || (unfold HashLength; lia)); [|done].
  unfold epoch_of. apply Z.mod_small. destruct Hh as [H0 H1].
  split; [by apply Z.div_pos|]. apply Z.div_lt_upper_bound; [done|]. eapply Z.lt_le_trans; [exact H1|done].
Qed.

(** Earlier epoch first, then smaller Lamport time, then smaller id. *)
Definition id_before (a b : Z) : Prop :=
  epoch_of a < epoch_of b \/ epoch_of a = epoch_of b /\ (lamport_of a < lamport_of b \/ lamport_of a = lamport_of b /\ a <= b).

Lemma le_id_before a b : is_hash a -> is_hash b -> a <= b <-> id_before a b.
Proof.
  intros Ha Hb. unfold id_before, epoch_of, lamport_of.
  assert (forall h, h / 256 ^ 28 = h / 256 ^ 24 / 256 ^ 4) as Hq by (intros h; by rewrite Z.div_div by done).
  rewrite !Hq. pose proof (Z.div_le_mono a b (256 ^ 24) ltac:(done)) as H1. pose proof (Z.div_le_mono b a (256 ^ 24) ltac:(done)) as H2.
  revert H1 H2. generalize (a / 256 ^ 24) (b / 256 ^ 24). intros x y H1 H2.
  pose proof (Z.div_mod x (256 ^ 4) ltac:(done)). pose proof (Z.mod_pos_bound x (256 ^ 4) ltac:(done)).
  pose proof (Z.div_mod y (256 ^ 4) ltac:(done)). pose proof (Z.mod_pos_bound y (256 ^ 4) ltac:(done)).
  change (256 ^ 4) with 4294967296 in *. lia.
Qed.

Lemma Less_mod a b : OrderedEvents_Less a b = (a mod 256 ^ Z.of_nat HashLength <? b mod 256 ^ Z.of_nat HashLength).
Proof.
  unfold OrderedEvents_Less, Event_Bytes.
  rewrite bytes_Compare_value by (apply be_split_bytes || by rewrite !be_split_length). by rewrite !be_value_split.
Qed.

Lemma not_less_le a b : is_hash a -> is_hash b -> OrderedEvents_Less b a = false <-> a <= b.
Proof. intros Ha Hb. rewrite OrderedEvents_Less_value by done. apply Z.ltb_ge. Qed.

#[local] Instance not_less_total : Total (fun a b => OrderedEvents_Less b a = false).
Proof. intros a b. rewrite !Less_mod, !Z.ltb_ge. lia. Qed.
#[local] Instance not_less_trans : Transitive (fun a b => OrderedEvents_Less b a = false).
Proof. intros a b c. rewrite !Less_mod, !Z.ltb_ge. lia. Qed.

(** [ByEpochAndLamport] orders ids by epoch, then by Lamport time, then as
    numbers; no other permutation of them is in the order of [Less]. *)
Lemma ByEpochAndLamport_sorts l : Forall is_hash l ->
  ByEpochAndLamport l ≡ₚ l /\ StronglySorted id_before (ByEpochAndLamport l) /\
  forall l', l' ≡ₚ l -> StronglySorted (fun a b => OrderedEvents_Less b a = false) l' -> l' = ByEpochAndLamport l.
Proof.
  intros Hl. assert (ByEpochAndLamport l ≡ₚ l) as Hp by apply merge_sort_Permutation. split; [done|].
  assert (StronglySorted (fun a b => OrderedEvents_Less b a = false) (ByEpochAndLamport l)) as Hs by (apply (StronglySorted_merge_sort (fun a b => OrderedEvents_Less b a = false)); apply _).
  assert (forall l', l' ≡ₚ l -> StronglySorted (fun a b => OrderedEvents_Less b a = false) l' -> StronglySorted Z.le l') as Hle.
  { intros l' Hp' Hs'. rewrite <- Hp' in Hl. clear -Hl Hs'. induction Hs' as [|a l' _ IH Ha]; [constructor|].
    apply Forall_cons in Hl as [H1 H2]. constructor; [by apply IH|]. rewrite Forall_forall in *. intros b Hb. apply not_less_le; auto. }
  split.
  - apply Hle in Hs as Hz; [|done]. rewrite <- Hp in Hl. clear -Hl Hz. induction Hz as [|a l' _ IH Ha]; [constructor|].
    apply Forall_cons in Hl as [H1 H2]. constructor; [by apply IH|]. rewrite Forall_forall in *. intros b Hb.
    apply le_id_before; auto.
  - intros l' Hp' Hs'. apply (StronglySorted_unique Z.le); [by apply Hle|by apply Hle|]. by rewrite Hp', Hp.
Qed.

(** ** Printed ids *)

Lemma append_colon s1 : forall s2 t1 t2,
  (forall c, c ∈ String.list_ascii_of_string s1 -> c <> ascii_of_nat 58) -> (forall c, c ∈ String.list_ascii_of_string s2 -> c <> ascii_of_nat 58) ->
  (s1 ++ ":" ++ t1 = s2 ++ ":" ++ t2)%string -> s1 = s2 /\ t1 = t2.
Proof.
  induction s1 as [|a s1 IH]; intros [|b s2] t1 t2 H1 H2 Heq; simpl in *.
  - by injection Heq as Heq.
  - injection Heq as Hb _. exfalso. apply (H2 b); [by left|done].
  - injection Heq as Ha _. exfalso. apply (H1 a); [by left|done].
  - injection Heq as -> Heq. destruct (IH s2 t1 t2) as [-> ->]; [intros c ?; apply H1; by right|intros c ?; apply H2; by right|done|done].
Qed.

Lemma pretty_N_no_colon x : forall s,
  (forall c, c ∈ String.list_ascii_of_string s -> c <> ascii_of_nat 58) ->
  forall c, c ∈ String.list_ascii_of_string (pretty_N_go x s) -> c <> ascii_of_nat 58.
Proof.
  induction (N.lt_wf_0 x) as [x _ IH]; intros s Hs. destruct (decide (0 < x)%N) as [Hx|Hx].
  - rewrite pretty_N_go_step by done. apply IH; [by apply N.div_lt|]. simpl. intros c [->|Hc]%elem_of_cons; [|by apply Hs].
    unfold pretty_N_char. by repeat case_match.
  - assert (x = 0%N) as -> by lia. by rewrite pretty_N_go_0.
Qed.

Lemma pretty_no_colon (z : Z) : 0 <= z -> forall c, c ∈ String.list_ascii_of_string (pretty z) -> c <> ascii_of_nat 58.
Proof.
  intros Hz. unfold pretty, pretty_Z. destruct z as [|p|p]; [|unfold pretty, pretty_positive, pretty, pretty_N|lia].
  - intros c. cbn. by intros [->|?%not_elem_of_nil]%elem_of_cons.
  - case_decide; [done|]. apply pretty_N_no_colon. cbn. by intros c ?%not_elem_of_nil.
Qed.

Lemma ShortID_unnamed `{!HexUtil} d h k : is_hash h -> eventNameDict d !! h = None -> 0 <= k <= 24 ->
  ShortID d h k = Ok (pretty (epoch_of h) ++ ":" ++ pretty (lamport_of h) ++ ":" ++
                      common_Bytes2Hex (slice (Event_Bytes h) 8 (Z.to_nat (8 + k))))%string.
Proof.
  intros Hh Hn Hk. unfold ShortID, GetEventName. rewrite Hn. cbn [default String.length Nat.ltb Nat.leb].
  destruct (Event_parts h Hh) as [-> ->]. cbn [outcome_bind]. unfold HashLength.
  by rewrite (proj2 (Z.leb_le 8 _)), (proj2 (Z.leb_le (8 + k) _)) by lia.
Qed.

Lemma event_tail a b : is_hash a -> is_hash b -> epoch_of a = epoch_of b -> lamport_of a = lamport_of b ->
  slice (Event_Bytes a) 8 32 = slice (Event_Bytes b) 8 32 -> a = b.
Proof.
  intros Ha Hb He Hl Ht. apply (f_equal be_value) in Ht. rewrite !slice_value in Ht by (done || (unfold HashLength; lia)).
  unfold epoch_of, lamport_of, is_hash, HashLength in *. change (a / 1 mod 256 ^ 24 = b / 1 mod 256 ^ 24) in Ht. rewrite !Z.div_1_r in Ht.
  assert (forall h, h / 256 ^ 28 = h / 256 ^ 24 / 256 ^ 4) as Hq by (intros h; by rewrite Z.div_div by done).
  rewrite !Hq in He. pose proof (Z.div_mod a (256 ^ 24) ltac:(done)). pose proof (Z.div_mod b (256 ^ 24) ltac:(done)).
  pose proof (Z.div_mod (a / 256 ^ 24) (256 ^ 4) ltac:(done)). pose proof (Z.div_mod (b / 256 ^ 24) (256 ^ 4) ltac:(done)).
  assert (a / 256 ^ 24 = b / 256 ^ 24) by congruence. congruence.
Qed.

(** No information is lost: two events without names that print alike are one. *)
Lemma FullID_lossless `{HexUtilLaws} d a b :
  is_hash a -> is_hash b -> eventNameDict d !! a = None -> eventNameDict d !! b = None ->
  (exists s, FullID d a = Ok s) /\ (FullID d a = FullID d b -> a = b).
Proof.
  intros Ha Hb Hna Hnb. unfold FullID. rewrite !ShortID_unnamed by (done || lia). split; [by eexists|]. intros [= Heq].
  assert (forall h, is_hash h -> 0 <= epoch_of h /\ 0 <= lamport_of h) as Hpos.
  { intros h [Hh _]. unfold epoch_of, lamport_of. split; [by apply Z.div_pos|apply Z.mod_pos_bound; lia]. }
  destruct (Hpos a Ha), (Hpos b Hb).
  apply append_colon in Heq as [He Heq]; [|by apply pretty_no_colon..].
  apply append_colon in Heq as [Hl Heq]; [|by apply pretty_no_colon..].
  apply Bytes2Hex_inj in Heq; [|apply Forall_take, Forall_drop, be_split_bytes..].
  apply event_tail; try done; by apply (inj pretty).
Qed.

Lemma FakeEvent_epoch r : length r = HashLength -> Forall is_byte r -> Event_Epoch (FakeEvent r) = Ok FakeEpoch.
Proof.
  intros Hr Hb. assert (FakeEvent r = make_id FakeEpoch (be_value (slice r 4 8)) (drop 8 r)) as ->.
  - unfold FakeEvent, make_id. do 2 f_equal. unfold slice, Lamport_Bytes, BE_Uint32ToBytes.
    rewrite <- (take_drop 4 (drop 4 r)) at 1. rewrite drop_drop. f_equal.
    assert (length (take 4 (drop 4 r)) = 4%nat) as Hl by (rewrite length_take, length_drop, Hr; done).
    rewrite <- (be_split_value (take 4 (drop 4 r))) at 1 by (by apply Forall_take, Forall_drop). by rewrite Hl.
  - apply make_id_Epoch; [done|by rewrite length_drop, Hr|by apply Forall_drop].
Qed.
