(* ===== verification/Pos.v ===== *)
(** * inter/pos: validators groups, weights, quorums and weight counters

    [Validators] keeps the weights by validator ID together with the caches
    that [calcCaches] derives from the sorted array; [WeightCounter] adds up
    the weights of the validators it has counted.  A [panic] of the code is
    the [Panic] outcome.  Weights are [uint32]: every addition is reduced. *)

From S2P Require Import Prelude.

(** ** Data *)

(** inter/pos/sort.go: one entry of the sorted array. *)
Record validator := mk_validator { v_ID : Z; v_Weight : Z }.

#[export] Instance validator_eq_dec : EqDecision validator.
Proof. solve_decision. Defined.

(** inter/pos/validators.go: the derived data of a group. *)
Record validators_cache := mk_cache {
  indexes : gmap Z nat;
  weights : list Z;
  ids : list Z;
  totalWeight : Z
}.

Record Validators := mk_Validators {
  values : gmap Z Z;
  vcache : validators_cache
}.

(** inter/pos/stake.go *)
Record WeightCounter := mk_WeightCounter {
  wc_validators : Validators;
  already : list bool;
  wc_quorum : Z;
  wc_sum : Z
}.

(** ** Builder *)

Definition NewBuilder : gmap Z Z := ∅.

Definition Builder_Set (vv : gmap Z Z) (id weight : Z) : gmap Z Z :=
  if weight =? 0 then delete id vv else <[id := weight]> vv.

(** ** Sorting (inter/pos/sort.go) *)

Definition Less (a b : validator) : bool :=
  if negb (v_Weight a =? v_Weight b) then v_Weight b <? v_Weight a
  else v_ID a <? v_ID b.

(** The order [sort.Sort] establishes between consecutive entries. *)
Definition not_after (a b : validator) : Prop := Less b a = false.

#[export] Instance not_after_dec a b : Decision (not_after a b) := decide (Less b a = false).

Definition to_validator (kv : Z * Z) : validator := mk_validator kv.1 kv.2.

(** Ranging over a Go map yields its entries in an unspecified order; the
    sort makes the result independent of it ([sortedArray_any_order]). *)
Definition sortedArray (values : gmap Z Z) : list validator :=
  merge_sort not_after (to_validator <$> map_to_list values).

(** ** Caches *)

Definition calcCaches_step (st : nat * validators_cache) (v : validator) : outcome (nat * validators_cache) :=
  let '(i, c) := st in
  let totalWeightBefore := totalWeight c in
  let total := u32 (totalWeight c + v_Weight v) in
  let c' := mk_cache (<[v_ID v := i]> (indexes c)) (<[i := v_Weight v]> (weights c))
                     (<[i := v_ID v]> (ids c)) total in
  if total <? totalWeightBefore then Panic "validators weight overflow"
  else Ok (S i, c').

Definition calcCaches (values : gmap Z Z) : outcome validators_cache :=
  let n := size values in
  let c0 := mk_cache ∅ (replicate n 0) (replicate n 0) 0 in
  outcome_bind (foldM calcCaches_step (0%nat, c0) (sortedArray values))
    (fun st => if MaxUint32 / 2 <? totalWeight st.2
               then Panic "validators weight overflow" else Ok st.2).

Definition newValidators (values : gmap Z Z) : outcome Validators :=
  let valuesCopy := foldl (fun m kv => Builder_Set m kv.1 kv.2) NewBuilder (map_to_list values) in
  outcome_bind (calcCaches valuesCopy) (fun c => Ok (mk_Validators valuesCopy c)).

Definition Builder_Build (vv : gmap Z Z) : outcome Validators := newValidators vv.

Definition EqualWeightValidators (ids : list Z) (weight : Z) : outcome Validators :=
  Builder_Build (foldl (fun b id => Builder_Set b id weight) NewBuilder ids).

(** [weights[i]] panics when the second slice is shorter. *)
Definition ArrayToValidators (ids weights : list Z) : outcome Validators :=
  outcome_bind
    (foldM (fun b ii => outcome_bind (index weights ii.1) (fun w => Ok (Builder_Set b ii.2 w)))
       NewBuilder (imap pair ids))
    Builder_Build.

(** ** Accessors *)

Definition Validators_Len (vv : Validators) : nat := size (values vv).
(** A missing key of a Go map reads as zero. *)
Definition Validators_Get (vv : Validators) (id : Z) : Z := default 0 (values vv !! id).
Definition GetIdx (vv : Validators) (id : Z) : nat := default 0%nat (indexes (vcache vv) !! id).
Definition GetID (vv : Validators) (i : nat) : outcome Z := index (ids (vcache vv)) i.
Definition GetWeightByIdx (vv : Validators) (i : nat) : outcome Z := index (weights (vcache vv)) i.
Definition Validators_Exists (vv : Validators) (id : Z) : bool := bool_decide (is_Some (values vv !! id)).
Definition IDs (vv : Validators) : list Z := ids (vcache vv).
Definition SortedIDs (vv : Validators) : list Z := ids (vcache vv).
Definition SortedWeights (vv : Validators) : list Z := weights (vcache vv).
Definition Idxs (vv : Validators) : gmap Z nat := indexes (vcache vv).
Definition TotalWeight (vv : Validators) : Z := totalWeight (vcache vv).
Definition Quorum (vv : Validators) : Z := u32 (u32 (TotalWeight vv * 2) / 3 + 1).

Definition Validators_Copy (vv : Validators) : outcome Validators := newValidators (values vv).
Definition Validators_Builder (vv : Validators) : outcome (gmap Z Z) :=
  outcome_bind (Validators_Copy vv) (fun c => Ok (values c)).

(** ** Serialization: RLP is go-ethereum's, a parameter *)

Section rlp.
Context {bytes : Type} (rlp_encode : list validator -> bytes)
  (rlp_decode : bytes -> outcome (list validator)).

Definition EncodeRLP (vv : Validators) : bytes := rlp_encode (sortedArray (values vv)).

Definition DecodeRLP (b : bytes) : outcome Validators :=
  outcome_bind (rlp_decode b)
    (fun arr => Builder_Build (foldl (fun m w => Builder_Set m (v_ID w) (v_Weight w)) NewBuilder arr)).
End rlp.

(** ** Weight counters (inter/pos/stake.go) *)

Definition NewCounter (vv : Validators) : WeightCounter :=
  mk_WeightCounter vv (replicate (Validators_Len vv) false) (Quorum vv) 0.

Definition CountByIdx (s : WeightCounter) (validatorIdx : nat) : outcome (bool * WeightCounter) :=
  outcome_bind (index (already s) validatorIdx) (fun counted =>
  if (counted : bool) then Ok (false, s)
  else outcome_bind (GetWeightByIdx (wc_validators s) validatorIdx) (fun w =>
    Ok (true, mk_WeightCounter (wc_validators s) (<[validatorIdx := true]> (already s))
                (wc_quorum s) (u32 (wc_sum s + w))))).

Definition Counter_Count (s : WeightCounter) (v : Z) : outcome (bool * WeightCounter) :=
  CountByIdx s (GetIdx (wc_validators s) v).

Definition HasQuorum (s : WeightCounter) : bool := wc_quorum s <=? wc_sum s.
Definition Counter_Sum (s : WeightCounter) : Z := wc_sum s.

(** ** Big-integer builder (inter/pos/stake_bigint.go) *)

(** [nil] and zero weights delete the entry. *)
Definition BigBuilder_Set (vv : gmap Z Z) (id : Z) (weight : option Z) : gmap Z Z :=
  match weight with
  | None => delete id vv
  | Some w => if w =? 0 then delete id vv else <[id := w]> vv
  end.

Definition BigBuilder_TotalWeight (vv : gmap Z Z) : Z :=
  foldl (fun res kv => res + kv.2) 0 (map_to_list vv).

(** math/big: [BitLen] is the length of the absolute value, 0 for 0. *)
Definition BitLen (z : Z) : Z := if z =? 0 then 0 else Z.log2 (Z.abs z) + 1.

Definition BigBuilder_shift (vv : gmap Z Z) : Z :=
  let totalBits := BitLen (BigBuilder_TotalWeight vv) in
  if 31 <? totalBits then totalBits - 31 else 0.

Definition BigBuilder_Build (vv : gmap Z Z) : outcome Validators :=
  let shift := BigBuilder_shift vv in
  Builder_Build (foldl (fun b kv => Builder_Set b kv.1 (u32 (u64 (Z.shiftr kv.2 shift))))
                   NewBuilder (map_to_list vv)).

(** * Theorems *)

(** ** The sort order *)

Lemma Less_spec a b :
  Less a b = true <-> v_Weight b < v_Weight a \/ (v_Weight a = v_Weight b /\ v_ID a < v_ID b).
Proof. unfold Less. destruct (v_Weight a =? v_Weight b) eqn:E; simpl; bool_to_prop; lia. Qed.

Lemma not_after_spec a b :
  not_after a b <-> v_Weight b < v_Weight a \/ (v_Weight a = v_Weight b /\ v_ID a <= v_ID b).
Proof.
  unfold not_after. rewrite <- not_true_iff_false, Less_spec. lia.
Qed.

#[export] Instance not_after_total : Total not_after.
Proof. intros a b. rewrite !not_after_spec. lia. Qed.

#[export] Instance not_after_trans : Transitive not_after.
Proof. intros a b c. rewrite !not_after_spec. lia. Qed.

#[export] Instance not_after_antisymm : AntiSymm (=) not_after.
Proof.
  intros [i w] [j x]. rewrite !not_after_spec. simpl. intros. f_equal; lia.
Qed.

Lemma sortedArray_perm m : sortedArray m ≡ₚ to_validator <$> map_to_list m.
Proof. apply merge_sort_Permutation. Qed.

Lemma sortedArray_sorted m : StronglySorted not_after (sortedArray m).
Proof. apply (StronglySorted_merge_sort _). Qed.

Lemma sortedArray_length m : length (sortedArray m) = size m.
Proof. rewrite sortedArray_perm, length_fmap. apply length_map_to_list. Qed.

Lemma sortedArray_ids_perm m : v_ID <$> sortedArray m ≡ₚ (map_to_list m).*1.
Proof.
  rewrite sortedArray_perm, <- list_fmap_compose. done.
Qed.

Lemma sortedArray_ids_NoDup m : NoDup (v_ID <$> sortedArray m).
Proof. rewrite sortedArray_ids_perm. apply NoDup_fst_map_to_list. Qed.

Lemma elem_of_sortedArray m v : v ∈ sortedArray m <-> m !! v_ID v = Some (v_Weight v).
Proof.
  rewrite sortedArray_perm, list_elem_of_fmap. split.
  - intros ([k w] & -> & Hin). by apply elem_of_map_to_list in Hin.
  - intros Hm. exists (v_ID v, v_Weight v). split; [by destruct v|]. by apply elem_of_map_to_list.
Qed.

Lemma elem_of_sortedArray_ids m id : id ∈ v_ID <$> sortedArray m <-> is_Some (m !! id).
Proof.
  rewrite list_elem_of_fmap. split.
  - intros (v & -> & Hv%elem_of_sortedArray). eauto.
  - intros [w Hw]. exists (mk_validator id w). split; [done|]. by apply elem_of_sortedArray.
Qed.

(** ** Folding [Set] over entries *)

Lemma sets_lookup (l : list (Z * Z)) acc k :
  NoDup l.*1 ->
  foldl (fun m kv => Builder_Set m kv.1 kv.2) acc l !! k =
  match (list_to_map l : gmap Z Z) !! k with
  | Some w => if w =? 0 then None else Some w
  | None => acc !! k
  end.
Proof.
  revert acc. induction l as [|[k' w'] l IH]; intros acc; csimpl; [by rewrite lookup_empty|].
  intros [Hk' Hnd]%NoDup_cons. rewrite (IH _ Hnd), lookup_insert.
  case_decide as Hk; [subst k'|].
  - rewrite (not_elem_of_list_to_map_1 l k Hk'). unfold Builder_Set.
    destruct (w' =? 0); [apply lookup_delete_eq|apply lookup_insert_eq].
  - destruct (list_to_map l !! k); [done|]. unfold Builder_Set.
    destruct (w' =? 0); [by apply lookup_delete_ne|by apply lookup_insert_ne].
Qed.

Lemma Build_values_lookup m k :
  foldl (fun b kv => Builder_Set b kv.1 kv.2) NewBuilder (map_to_list m) !! k =
  match m !! k with Some w => if w =? 0 then None else Some w | None => None end.
Proof.
  rewrite sets_lookup by apply NoDup_fst_map_to_list.
  rewrite list_to_map_to_list. unfold NewBuilder. rewrite lookup_empty. done.
Qed.

(** ** The caches, computed exactly *)

Fixpoint idx_from (i : nat) (m : gmap Z nat) (arr : list validator) : gmap Z nat :=
  match arr with
  | [] => m
  | v :: arr' => idx_from (S i) (<[v_ID v := i]> m) arr'
  end.

Lemma idx_from_lookup arr : forall i m id j,
  NoDup (v_ID <$> arr) ->
  idx_from i m arr !! id = Some j <->
  (exists k, (v_ID <$> arr) !! k = Some id /\ j = (i + k)%nat) \/
  ((id ∉ v_ID <$> arr) /\ m !! id = Some j).
Proof.
  induction arr as [|v arr IH]; intros i m id j Hnd; csimpl.
  - split; [intros; right; split; [apply not_elem_of_nil|done]|].
    intros [(k & Hk & _)|[_ ?]]; [by rewrite lookup_nil in Hk|done].
  - apply NoDup_cons in Hnd as [Hv Hnd]. rewrite (IH _ _ _ _ Hnd). clear IH. split.
    + intros [(k & Hk & ->)|[Hid Hm]].
      * left. exists (S k). split; [done|lia].
      * apply lookup_insert_Some in Hm as [[<- <-]|[Hne Hm]].
        -- left. exists 0%nat. split; [done|lia].
        -- right. split; [|done]. apply not_elem_of_cons. done.
    + intros [([|k] & Hk & ->)|[Hid Hm]]; simpl in *.
      * simplify_eq. right. split; [done|]. rewrite lookup_insert_eq. f_equal. lia.
      * left. exists k. split; [done|lia].
      * apply not_elem_of_cons in Hid as [Hne Hid]. right. split; [done|].
        by rewrite lookup_insert_ne.
Qed.

Lemma insert_replicate_zero (l : list Z) n x :
  <[length l := x]> (l ++ replicate (S n) 0) = (l ++ [x]) ++ replicate n 0.
Proof.
  rewrite insert_app_r_alt by lia. rewrite Nat.sub_diag. simpl. by rewrite <- app_assoc.
Qed.

Lemma caches_loop suf : forall l1 l2 m t,
  length l1 = length l2 -> Forall (fun v => is_u32 (v_Weight v)) suf -> is_u32 t ->
  foldM calcCaches_step
    (length l1, mk_cache m (l1 ++ replicate (length suf) 0) (l2 ++ replicate (length suf) 0) t) suf =
  if t + wsum v_Weight suf <? 2 ^ 32
  then Ok ((length l1 + length suf)%nat,
           mk_cache (idx_from (length l1) m suf) (l1 ++ (v_Weight <$> suf)) (l2 ++ (v_ID <$> suf))
                    (t + wsum v_Weight suf))
  else Panic "validators weight overflow".
Proof.
  induction suf as [|v suf IH]; intros l1 l2 m t Hlen Hw Ht.
  - cbn -[Z.pow]. rewrite Z.add_0_r, Nat.add_0_r.
    destruct (t <? 2 ^ 32) eqn:E; bool_to_prop; [done|solve_width].
  - apply Forall_cons in Hw as [Hv Hw].
    cbn [foldM calcCaches_step length totalWeight weights ids indexes wsum].
    rewrite insert_replicate_zero, Hlen, insert_replicate_zero, <- Hlen.
    assert (0 <= wsum v_Weight suf).
    { apply wsum_nonneg. rewrite Forall_forall in Hw. intros x Hx%Hw. solve_width. }
    destruct (decide (t + v_Weight v < 2 ^ 32)) as [Hlt|Hge].
    + rewrite u32_small by solve_width.
      destruct (t + v_Weight v <? t) eqn:E; bool_to_prop; [solve_width|]. simpl.
      specialize (IH (l1 ++ [v_Weight v]) (l2 ++ [v_ID v]) (<[v_ID v := length l1]> m)
        (t + v_Weight v)).
      rewrite !length_app in IH. simpl in IH. rewrite Nat.add_1_r in IH.
      rewrite IH by (done || lia || solve_width).
      rewrite <- !app_assoc, Z.add_assoc. simpl.
      replace (length l1 + S (length suf))%nat with (S (length l1 + length suf)) by lia. done.
    + assert (u32 (t + v_Weight v) = t + v_Weight v - 2 ^ 32) as ->.
      { symmetry. apply (Z.mod_unique _ _ 1); solve_width. }
      destruct (t + v_Weight v - 2 ^ 32 <? t) eqn:E; bool_to_prop; [|solve_width]. simpl.
      destruct (t + (v_Weight v + wsum v_Weight suf) <? 2 ^ 32) eqn:E2; bool_to_prop; [solve_width|done].
Qed.

Definition full_cache (m : gmap Z Z) : validators_cache :=
  let arr := sortedArray m in
  mk_cache (idx_from 0 ∅ arr) (v_Weight <$> arr) (v_ID <$> arr) (wsum v_Weight arr).

Definition weights_u32 (m : gmap Z Z) : Prop := forall k w, m !! k = Some w -> is_u32 w.

Lemma weights_u32_sorted m : weights_u32 m -> Forall (fun v => is_u32 (v_Weight v)) (sortedArray m).
Proof. intros Hm. apply Forall_forall. intros v Hv%elem_of_sortedArray. by apply Hm in Hv. Qed.

Lemma wsum_weights_nonneg m : weights_u32 m -> 0 <= wsum v_Weight (sortedArray m).
Proof.
  intros Hm%weights_u32_sorted. apply wsum_nonneg. rewrite Forall_forall in Hm.
  intros x Hx%Hm. solve_width.
Qed.

Lemma calcCaches_exact m :
  weights_u32 m ->
  calcCaches m = if wsum v_Weight (sortedArray m) <=? MaxUint32 / 2
                 then Ok (full_cache m) else Panic "validators weight overflow".
Proof.
  intros Hm. unfold calcCaches. pose proof (caches_loop (sortedArray m) [] [] ∅ 0) as Hl.
  simpl length in Hl. rewrite sortedArray_length in Hl. simpl app in Hl.
  rewrite Hl; [|done|by apply weights_u32_sorted|solve_width]. clear Hl.
  pose proof (wsum_weights_nonneg m Hm).
  rewrite Z.add_0_l. change (MaxUint32 / 2) with (2 ^ 31 - 1).
  destruct (wsum v_Weight (sortedArray m) <? 2 ^ 32) eqn:E1;
    destruct (wsum v_Weight (sortedArray m) <=? 2 ^ 31 - 1) eqn:E2; bool_to_prop; simpl; try lia; try done.
  - destruct (2 ^ 31 - 1 <? _) eqn:E3; bool_to_prop; [lia|done].
  - destruct (2 ^ 31 - 1 <? _) eqn:E3; bool_to_prop; [done|lia].
Qed.

(** ** Well-formed groups: what every built [Validators] satisfies *)

Record wf (vv : Validators) : Prop := mk_wf {
  wf_values_pos : forall id w, values vv !! id = Some w -> 0 < w;
  wf_ids_NoDup : NoDup (SortedIDs vv);
  wf_ids_elem : forall id, id ∈ SortedIDs vv <-> is_Some (values vv !! id);
  wf_ids_len : length (SortedIDs vv) = Validators_Len vv;
  wf_idx : forall id i, Idxs vv !! id = Some i <-> SortedIDs vv !! i = Some id;
  wf_weights : SortedWeights vv = Validators_Get vv <$> SortedIDs vv;
  wf_total : TotalWeight vv = wsum (Validators_Get vv) (SortedIDs vv);
  wf_total_le : TotalWeight vv <= MaxUint32 / 2;
  wf_sorted : StronglySorted not_after (zip_with mk_validator (SortedIDs vv) (SortedWeights vv))
}.

Lemma sortedArray_weights m (c : validators_cache) :
  v_Weight <$> sortedArray m = Validators_Get (mk_Validators m c) <$> (v_ID <$> sortedArray m).
Proof.
  rewrite <- list_fmap_compose. apply list_fmap_ext. intros i v Hv%list_elem_of_lookup_2.
  apply elem_of_sortedArray in Hv. unfold Validators_Get. simpl. by rewrite Hv.
Qed.

Lemma zip_with_mk_validator arr : zip_with mk_validator (v_ID <$> arr) (v_Weight <$> arr) = arr.
Proof. induction arr as [|[i w] arr IH]; csimpl; [done|]. by rewrite IH. Qed.

Lemma full_cache_wf m :
  weights_u32 m -> (forall k w, m !! k = Some w -> w <> 0) ->
  wsum v_Weight (sortedArray m) <= MaxUint32 / 2 ->
  wf (mk_Validators m (full_cache m)).
Proof.
  intros Hm Hnz Hle. split; unfold SortedIDs, SortedWeights, Idxs, TotalWeight, Validators_Len; simpl.
  - intros id w Hw. pose proof (Hm _ _ Hw). pose proof (Hnz _ _ Hw). solve_width.
  - apply sortedArray_ids_NoDup.
  - apply elem_of_sortedArray_ids.
  - by rewrite length_fmap, sortedArray_length.
  - intros id i. rewrite idx_from_lookup by apply sortedArray_ids_NoDup.
    rewrite lookup_empty. split; [|by left; exists i].
    intros [(k & Hk & ->)|[_ ?]]; done.
  - apply sortedArray_weights.
  - rewrite <- (wsum_fmap v_Weight (fun z => z)), (sortedArray_weights m (full_cache m)).
    by rewrite wsum_fmap.
  - done.
  - rewrite zip_with_mk_validator. apply sortedArray_sorted.
Qed.

Definition nonzero (m : gmap Z Z) : gmap Z Z := filter (fun kw => kw.2 <> 0) m.

Lemma nonzero_lookup m k w : nonzero m !! k = Some w <-> m !! k = Some w /\ w <> 0.
Proof. unfold nonzero. by rewrite map_lookup_filter_Some. Qed.

Lemma nonzero_id m : (forall k w, m !! k = Some w -> w <> 0) -> nonzero m = m.
Proof.
  intros Hm. apply map_eq. intros k. apply option_eq. intros w. rewrite nonzero_lookup. naive_solver.
Qed.

(** Setting the entries of a map, in any order, rebuilds it without zeros. *)
Lemma sets_of_entries (l : list (Z * Z)) m :
  l ≡ₚ map_to_list m -> foldl (fun b kv => Builder_Set b kv.1 kv.2) NewBuilder l = nonzero m.
Proof.
  intros Hl. assert (NoDup l.*1) as Hnd by (rewrite Hl; apply NoDup_fst_map_to_list).
  apply map_eq. intros k. rewrite sets_lookup by done.
  rewrite (list_to_map_proper l (map_to_list m)), list_to_map_to_list by done.
  unfold NewBuilder. rewrite lookup_empty. apply option_eq. intros w. rewrite nonzero_lookup.
  destruct (m !! k) as [w'|]; [|naive_solver].
  destruct (w' =? 0) eqn:E; bool_to_prop; naive_solver.
Qed.

Lemma copied_values m :
  foldl (fun b kv => Builder_Set b kv.1 kv.2) NewBuilder (map_to_list m) = nonzero m.
Proof. by apply sets_of_entries. Qed.

Lemma scaled_values (g : Z -> Z) m :
  foldl (fun b kv => Builder_Set b kv.1 (g kv.2)) NewBuilder (map_to_list m) = nonzero (g <$> m).
Proof.
  rewrite <- (sets_of_entries (prod_map id g <$> map_to_list m)) by (by rewrite map_to_list_fmap).
  by rewrite foldl_fmap.
Qed.

Lemma decoded_values m :
  foldl (fun b w => Builder_Set b (v_ID w) (v_Weight w)) NewBuilder (sortedArray m) = nonzero m.
Proof.
  rewrite <- (sets_of_entries ((fun v => (v_ID v, v_Weight v)) <$> sortedArray m)).
  - by rewrite foldl_fmap.
  - rewrite sortedArray_perm, <- list_fmap_compose. apply reflexive_eq.
    rewrite <- list_fmap_id. apply list_fmap_ext. by intros i [k w] _.
Qed.

Lemma nonzero_idemp m : nonzero (nonzero m) = nonzero m.
Proof. apply nonzero_id. by intros k w [_ ?]%nonzero_lookup. Qed.

Lemma nonzero_default (g : Z -> Z) m k :
  default 0 (nonzero (g <$> m) !! k) = default 0 (g <$> m !! k).
Proof.
  destruct (nonzero (g <$> m) !! k) as [w|] eqn:Hk; simpl.
  - apply nonzero_lookup in Hk as [Hk _]. rewrite lookup_fmap in Hk. by rewrite Hk.
  - destruct (m !! k) as [w|] eqn:Hm; simpl; [|done]. destruct (decide (g w = 0)); [done|].
    exfalso. apply eq_None_not_Some in Hk. apply Hk. exists (g w).
    apply nonzero_lookup. by rewrite lookup_fmap, Hm.
Qed.

Lemma Build_exact m :
  weights_u32 m ->
  Builder_Build m = if wsum v_Weight (sortedArray (nonzero m)) <=? MaxUint32 / 2
                    then Ok (mk_Validators (nonzero m) (full_cache (nonzero m)))
                    else Panic "validators weight overflow".
Proof.
  intros Hm. unfold Builder_Build, newValidators. rewrite copied_values.
  rewrite calcCaches_exact by (intros k w [Hk _]%nonzero_lookup; by apply Hm in Hk).
  destruct (_ <=? _); done.
Qed.

Lemma Build_wf m vv :
  weights_u32 m -> Builder_Build m = Ok vv ->
  wf vv /\ values vv = nonzero m /\ vcache vv = full_cache (nonzero m).
Proof.
  intros Hm. rewrite (Build_exact m Hm).
  destruct (_ <=? _) eqn:E; [|done]. intros [= <-]. bool_to_prop.
  split; [|done]. apply full_cache_wf; [| |done].
  - intros k w [Hk _]%nonzero_lookup. by apply Hm in Hk.
  - by intros k w [_ ?]%nonzero_lookup.
Qed.

Section wf_facts.
Context (vv : Validators) (Hwf : wf vv).

Lemma Get_nonneg id : 0 <= Validators_Get vv id.
Proof.
  unfold Validators_Get. destruct (values vv !! id) as [w|] eqn:Hw; simpl; [|lia].
  pose proof (wf_values_pos _ Hwf _ _ Hw). lia.
Qed.

Lemma Get_pos id : id ∈ SortedIDs vv -> 0 < Validators_Get vv id.
Proof.
  rewrite (wf_ids_elem _ Hwf). intros [w Hw]. unfold Validators_Get. rewrite Hw.
  by apply (wf_values_pos _ Hwf) in Hw.
Qed.

Lemma Total_nonneg : 0 <= TotalWeight vv.
Proof. rewrite (wf_total _ Hwf). apply wsum_nonneg. intros. apply Get_nonneg. Qed.

Lemma Quorum_exact : Quorum vv = TotalWeight vv * 2 / 3 + 1.
Proof.
  pose proof Total_nonneg. pose proof (wf_total_le _ Hwf) as Hle.
  change (MaxUint32 / 2) with (2 ^ 31 - 1) in Hle. unfold Quorum.
  rewrite (u32_small (_ * 2)) by solve_width. apply u32_small.
  assert (0 <= TotalWeight vv * 2 / 3) by (apply Z.div_pos; lia).
  assert (TotalWeight vv * 2 / 3 <= TotalWeight vv * 2) by (apply Z.div_le_upper_bound; lia).
  solve_width.
Qed.

Lemma Quorum_bounds : 2 * TotalWeight vv < 3 * Quorum vv <= 2 * TotalWeight vv + 3.
Proof.
  rewrite Quorum_exact. pose proof (Z.div_mod (TotalWeight vv * 2) 3 ltac:(lia)).
  pose proof (Z.mod_pos_bound (TotalWeight vv * 2) 3 ltac:(lia)). lia.
Qed.

Lemma GetIdx_lookup id i : SortedIDs vv !! i = Some id -> GetIdx vv id = i.
Proof. intros Hi%(wf_idx _ Hwf). unfold GetIdx. unfold Idxs in Hi. by rewrite Hi. Qed.

Lemma GetIdx_in id : id ∈ SortedIDs vv -> SortedIDs vv !! GetIdx vv id = Some id.
Proof.
  intros [i Hi]%list_elem_of_lookup. by rewrite (GetIdx_lookup _ _ Hi).
Qed.

Lemma GetWeightByIdx_lookup id i :
  SortedIDs vv !! i = Some id -> GetWeightByIdx vv i = Ok (Validators_Get vv id).
Proof.
  intros Hi. apply index_Ok. change (weights (vcache vv)) with (SortedWeights vv).
  by rewrite (wf_weights _ Hwf), list_lookup_fmap, Hi.
Qed.

Lemma Exists_elem id : Validators_Exists vv id = true <-> id ∈ SortedIDs vv.
Proof. unfold Validators_Exists. rewrite bool_decide_eq_true. by rewrite (wf_ids_elem _ Hwf). Qed.

End wf_facts.

(** ** Weight of a set of validators *)

Definition weight_of (vv : Validators) (p : Z -> bool) : Z :=
  wsum (fun id => if p id then Validators_Get vv id else 0) (SortedIDs vv).

Definition is_quorum (vv : Validators) (p : Z -> bool) : Prop := Quorum vv <= weight_of vv p.

#[export] Instance is_quorum_dec vv p : Decision (is_quorum vv p) := Z_le_dec _ _.

Section weight_of_facts.
Context (vv : Validators) (Hwf : wf vv).
Implicit Types (p q : Z -> bool).

Lemma weight_of_mono p q :
  (forall id, id ∈ SortedIDs vv -> p id = true -> q id = true) -> weight_of vv p <= weight_of vv q.
Proof.
  intros Hpq. apply wsum_mono. intros id Hid. pose proof (Get_nonneg vv Hwf id).
  destruct (p id) eqn:Hp; [by rewrite (Hpq id)|]. destruct (q id); lia.
Qed.

Lemma weight_of_ext p q :
  (forall id, id ∈ SortedIDs vv -> p id = q id) -> weight_of vv p = weight_of vv q.
Proof. intros Hpq. apply wsum_ext. intros id Hid. by rewrite Hpq. Qed.

Lemma weight_of_nonneg p : 0 <= weight_of vv p.
Proof.
  apply wsum_nonneg. intros id _. pose proof (Get_nonneg vv Hwf id). destruct (p id); lia.
Qed.

Lemma weight_of_le_total p : weight_of vv p <= TotalWeight vv.
Proof.
  rewrite (wf_total _ Hwf). apply wsum_mono. intros id _.
  pose proof (Get_nonneg vv Hwf id). destruct (p id); lia.
Qed.

Lemma weight_of_split p q :
  weight_of vv p = weight_of vv (fun id => p id && q id) + weight_of vv (fun id => p id && negb (q id)).
Proof.
  unfold weight_of. rewrite <- wsum_plus. apply wsum_ext. intros id _.
  destruct (p id), (q id); simpl; lia.
Qed.

Lemma weight_of_incl_excl p q :
  weight_of vv (fun id => p id || q id) + weight_of vv (fun id => p id && q id) =
  weight_of vv p + weight_of vv q.
Proof.
  unfold weight_of. rewrite <- !wsum_plus. apply wsum_ext. intros id _.
  destruct (p id), (q id); simpl; lia.
Qed.

Lemma quorum_overlap p q :
  is_quorum vv p -> is_quorum vv q ->
  TotalWeight vv < 3 * weight_of vv (fun id => p id && q id).
Proof.
  unfold is_quorum. intros Hp Hq. pose proof (weight_of_incl_excl p q).
  pose proof (weight_of_le_total (fun id => p id || q id)).
  pose proof (Quorum_bounds vv Hwf). lia.
Qed.

(** A set heavier than the exceptions has a member outside of them. *)
Lemma weight_of_exceeds p q :
  weight_of vv q < weight_of vv p ->
  exists id, id ∈ SortedIDs vv /\ p id = true /\ q id = false.
Proof.
  intros Hlt. destruct (decide (Exists (fun id => p id = true /\ q id = false) (SortedIDs vv)))
    as [[id [Hid ?]]%Exists_exists|Hn]; [by exists id|].
  exfalso. assert (weight_of vv p <= weight_of vv q); [|lia].
  apply weight_of_mono. intros id Hid Hp. destruct (q id) eqn:Hq; [done|].
  exfalso. apply Hn. apply Exists_exists. by exists id.
Qed.

End weight_of_facts.

(** ** Weight counters refine sets of counted validators *)

Definition in_set (S : gset Z) (id : Z) : bool := bool_decide (id ∈ S).

Record counter_inv (vv : Validators) (S : gset Z) (wc : WeightCounter) : Prop := mk_counter_inv {
  ci_validators : wc_validators wc = vv;
  ci_quorum : wc_quorum wc = Quorum vv;
  ci_already : already wc = in_set S <$> SortedIDs vv;
  ci_sum : wc_sum wc = weight_of vv (in_set S)
}.

(** [for _, v := range l { counter.Count(v) }] *)
Definition count_all (c : WeightCounter) (l : list Z) : outcome WeightCounter :=
  foldM (fun c v => outcome_bind (Counter_Count c v) (fun r => Ok r.2)) c l.

Section counter_facts.
Context (vv : Validators) (Hwf : wf vv).

Lemma in_set_empty id : in_set ∅ id = false.
Proof. apply bool_decide_eq_false. set_solver. Qed.

Lemma NewCounter_inv : counter_inv vv ∅ (NewCounter vv).
Proof.
  split; simpl; [done|done| |].
  - rewrite <- (wf_ids_len _ Hwf). generalize (SortedIDs vv) as l.
    induction l as [|x l IH]; csimpl; [done|]. by rewrite in_set_empty, IH.
  - unfold weight_of. rewrite (wsum_ext _ (fun _ => 0)); [by rewrite wsum_zero|].
    intros id _. by rewrite in_set_empty.
Qed.

Lemma weight_of_insert S id :
  id ∈ SortedIDs vv -> id ∉ S ->
  weight_of vv (in_set ({[id]} ∪ S)) = weight_of vv (in_set S) + Validators_Get vv id.
Proof.
  intros Hid HS. pose proof (wf_ids_NoDup _ Hwf) as Hnd. unfold weight_of.
  apply list_elem_of_split in Hid as (l1 & l2 & Hl). rewrite Hl in Hnd |- *.
  apply NoDup_app in Hnd as (Hnd1 & Hdisj & [Hid Hnd2]%NoDup_cons).
  assert (forall l, id ∉ l ->
    wsum (fun x => if in_set ({[id]} ∪ S) x then Validators_Get vv x else 0) l =
    wsum (fun x => if in_set S x then Validators_Get vv x else 0) l) as Hext.
  { intros l Hl'. apply wsum_ext. intros x Hx.
    replace (in_set ({[id]} ∪ S) x) with (in_set S x); [done|].
    apply bool_decide_ext. set_solver. }
  rewrite !wsum_app. simpl. rewrite !Hext by set_solver.
  replace (in_set ({[id]} ∪ S) id) with true by (symmetry; apply bool_decide_eq_true; set_solver).
  replace (in_set S id) with false by (symmetry; by apply bool_decide_eq_false). lia.
Qed.

Lemma already_insert S i id :
  SortedIDs vv !! i = Some id ->
  <[i := true]> (in_set S <$> SortedIDs vv) = in_set ({[id]} ∪ S) <$> SortedIDs vv.
Proof.
  intros Hi. apply list_eq. intros j. rewrite list_lookup_fmap.
  destruct (decide (i = j)) as [<-|Hne].
  - rewrite list_lookup_insert_eq.
    + rewrite Hi. simpl. f_equal. symmetry. apply bool_decide_eq_true. set_solver.
    + rewrite length_fmap. by eapply lookup_lt_Some.
  - rewrite list_lookup_insert_ne, list_lookup_fmap by done.
    destruct (SortedIDs vv !! j) as [id'|] eqn:Hj; [|done]. simpl. f_equal.
    apply bool_decide_ext. assert (id' <> id); [|set_solver].
    intros ->. pose proof (NoDup_lookup _ _ _ _ (wf_ids_NoDup _ Hwf) Hi Hj). done.
Qed.

Lemma CountByIdx_inv S wc i id :
  counter_inv vv S wc -> SortedIDs vv !! i = Some id ->
  exists wc', CountByIdx wc i = Ok (negb (in_set S id), wc') /\ counter_inv vv ({[id]} ∪ S) wc'.
Proof.
  intros [Hv Hq Ha Hs] Hi. unfold CountByIdx.
  rewrite (index_lookup _ _ (in_set S id)) by (by rewrite Ha, list_lookup_fmap, Hi). simpl.
  assert (id ∈ SortedIDs vv) as Hid by (by eapply list_elem_of_lookup_2).
  destruct (in_set S id) eqn:Hin; simpl.
  - exists wc. split; [done|]. apply bool_decide_eq_true in Hin.
    replace ({[id]} ∪ S) with S by set_solver. done.
  - apply bool_decide_eq_false in Hin.
    rewrite Hv, (GetWeightByIdx_lookup vv Hwf id i Hi). simpl.
    eexists. split; [done|]. split; simpl; [done|done| |].
    + by rewrite Ha, (already_insert S i id Hi).
    + rewrite Hs, <- (weight_of_insert S id Hid Hin). apply u32_small.
      pose proof (weight_of_nonneg vv Hwf (in_set ({[id]} ∪ S))).
      pose proof (weight_of_le_total vv Hwf (in_set ({[id]} ∪ S))).
      pose proof (wf_total_le _ Hwf) as Hle. change (MaxUint32 / 2) with (2 ^ 31 - 1) in Hle.
      solve_width.
Qed.

Lemma Count_inv S wc id :
  counter_inv vv S wc -> id ∈ SortedIDs vv ->
  exists wc', Counter_Count wc id = Ok (negb (in_set S id), wc') /\ counter_inv vv ({[id]} ∪ S) wc'.
Proof.
  intros Hc Hid. unfold Counter_Count. rewrite (ci_validators _ _ _ Hc).
  by apply CountByIdx_inv, GetIdx_in.
Qed.

Lemma HasQuorum_inv S wc :
  counter_inv vv S wc -> HasQuorum wc = bool_decide (is_quorum vv (in_set S)).
Proof.
  intros [Hv Hq Ha Hs]. unfold HasQuorum, is_quorum. rewrite Hq, Hs.
  destruct (Z.leb_spec (Quorum vv) (weight_of vv (in_set S))); symmetry.
  - by apply bool_decide_eq_true.
  - apply bool_decide_eq_false. lia.
Qed.

Lemma count_all_inv l : forall S wc,
  counter_inv vv S wc -> (forall id, id ∈ l -> id ∈ SortedIDs vv) ->
  exists wc', count_all wc l = Ok wc' /\ counter_inv vv (list_to_set l ∪ S) wc'.
Proof.
  induction l as [|id l IH]; intros S wc Hc Hl.
  - exists wc. split; [done|]. simpl. replace (∅ ∪ S) with S by set_solver. done.
  - destruct (Count_inv S wc id Hc (Hl id ltac:(left))) as (wc1 & H1 & Hc1).
    destruct (IH _ _ Hc1 ltac:(set_solver)) as (wc2 & H2 & Hc2).
    exists wc2. unfold count_all in *. simpl. rewrite H1. simpl. split; [done|].
    replace ({[id]} ∪ list_to_set l ∪ S) with (list_to_set l ∪ ({[id]} ∪ S)) by set_solver. done.
Qed.

End counter_facts.

(** ** Main theorems *)

(** What [Build] returns: the group, or the overflow panic. *)
Lemma Build_outcome (b : gmap Z Z) :
  weights_u32 b ->
  if wsum v_Weight (sortedArray (nonzero b)) <=? MaxUint32 / 2
  then exists vv, Builder_Build b = Ok vv /\ values vv = nonzero b /\ wf vv
  else Builder_Build b = Panic "validators weight overflow".
Proof.
  intros Hb. pose proof (Build_exact b Hb) as HB. destruct (_ <=? _) eqn:E; [|done].
  eexists. split; [done|]. split; [done|]. by eapply Build_wf.
Qed.

(** C18: [ValidatorsBuilder.Build] panics exactly when the weights add up to
    more than [MaxUint32/2]; otherwise the group it returns has exact caches:
    no duplicate IDs, an index map inverse to the ID list, the weights and the
    total without overflow, sorted by weight and then ID. *)
Theorem Build_correct (b : gmap Z Z) :
  weights_u32 b ->
  if wsum v_Weight (sortedArray (nonzero b)) <=? MaxUint32 / 2
  then exists vv, Builder_Build b = Ok vv /\ values vv = nonzero b /\ wf vv
  else Builder_Build b = Panic "validators weight overflow".
Proof. exact (Build_outcome b). Qed.

(** The deterministic order of a group: any sorted arrangement of the
    entries of the map, whatever order the Go runtime ranges over it, is the
    array [sortedArray] returns. *)
Theorem sortedArray_any_order (m : gmap Z Z) (ranged sorted : list validator) :
  ranged ≡ₚ to_validator <$> map_to_list m ->
  sorted ≡ₚ ranged -> Sorted not_after sorted ->
  sorted = sortedArray m.
Proof.
  intros Hr Hs Hso. apply (StronglySorted_unique not_after).
  - by apply (Sorted_StronglySorted _).
  - apply sortedArray_sorted.
  - by rewrite sortedArray_perm, Hs, Hr.
Qed.

(** A fresh counter fed with any sequence of validators of the group,
    repetitions included, holds the exact weight of the set of validators fed
    to it (no [uint32] wrap-around), and [HasQuorum] says whether that set is
    a quorum. *)
Theorem counter_counts_set (vv : Validators) (l : list Z) :
  wf vv -> (forall id, id ∈ l -> id ∈ SortedIDs vv) ->
  exists wc, count_all (NewCounter vv) l = Ok wc /\
    Counter_Sum wc = weight_of vv (in_set (list_to_set l)) /\
    (HasQuorum wc = true <-> is_quorum vv (in_set (list_to_set l))).
Proof.
  intros Hwf Hl. destruct (count_all_inv vv Hwf l ∅ _ (NewCounter_inv vv Hwf) Hl) as (wc & H1 & H2).
  replace (list_to_set l ∪ ∅) with (list_to_set l : gset Z) in H2 by set_solver.
  exists wc. split; [done|]. split; [apply (ci_sum _ _ _ H2)|].
  by rewrite (HasQuorum_inv _ _ _ H2), bool_decide_eq_true.
Qed.

(** Two quorums of a group share more than a third of its total weight;
    so if less than a third is faulty they share a validator that is not. *)
Theorem quorum_intersection (vv : Validators) (p q faulty : Z -> bool) :
  wf vv -> is_quorum vv p -> is_quorum vv q ->
  3 * weight_of vv faulty <= TotalWeight vv ->
  exists id, id ∈ SortedIDs vv /\ p id = true /\ q id = true /\ faulty id = false.
Proof.
  intros Hwf Hp Hq Hf. pose proof (quorum_overlap vv Hwf p q Hp Hq) as Ho.
  destruct (weight_of_exceeds vv Hwf (fun id => p id && q id) faulty) as (id & Hid & Hpq & Hnf); [lia|].
  apply andb_true_iff in Hpq as []. by exists id.
Qed.

(** C40: decoding the RLP encoding of a group restores it, caches included. *)
Theorem rlp_roundtrip {bytes} (enc : list validator -> bytes) (dec : bytes -> outcome (list validator))
    (b : gmap Z Z) (vv : Validators) :
  (forall l, dec (enc l) = Ok l) ->
  weights_u32 b -> Builder_Build b = Ok vv ->
  DecodeRLP dec (EncodeRLP enc vv) = Ok vv.
Proof.
  intros Hcodec Hb HB. destruct (Build_wf b vv Hb HB) as (Hwf & Hval & Hca).
  unfold DecodeRLP, EncodeRLP. rewrite Hcodec. simpl. rewrite Hval, decoded_values, nonzero_idemp.
  rewrite <- HB, !Build_exact, nonzero_idemp; [done|done|].
  intros k w [Hk _]%nonzero_lookup. by apply Hb in Hk.
Qed.

(** ** Downscaling of big weights *)

Definition msum (m : gmap Z Z) : Z := wsum snd (map_to_list m).

Lemma msum_insert m k w : m !! k = None -> msum (<[k := w]> m) = w + msum m.
Proof. intros Hk. unfold msum. by rewrite map_to_list_insert. Qed.

Lemma sorted_sum m : wsum v_Weight (sortedArray m) = msum m.
Proof. rewrite sortedArray_perm, wsum_fmap. done. Qed.

Lemma BigBuilder_TotalWeight_msum m : BigBuilder_TotalWeight m = msum m.
Proof.
  unfold BigBuilder_TotalWeight, msum. rewrite <- (Z.add_0_l (wsum _ _)).
  generalize 0. induction (map_to_list m) as [|kv l IH]; intros t; simpl; [lia|].
  rewrite IH. lia.
Qed.

Lemma msum_nonneg m : (forall k w, m !! k = Some w -> 0 <= w) -> 0 <= msum m.
Proof.
  intros Hm. apply wsum_nonneg. intros [k w] Hin%elem_of_map_to_list. by apply Hm in Hin.
Qed.

Lemma msum_elem_le m k w : (forall k w, m !! k = Some w -> 0 <= w) -> m !! k = Some w -> w <= msum m.
Proof.
  intros Hm Hk. apply (wsum_elem_le snd _ (k, w)); [|by apply elem_of_map_to_list].
  intros [k' w'] Hin%elem_of_map_to_list. by apply Hm in Hin.
Qed.

Lemma msum_scaled (g : Z -> Z) c m :
  0 <= c -> (forall k w, m !! k = Some w -> g w * c <= w) -> msum (nonzero (g <$> m)) * c <= msum m.
Proof.
  intros Hc. induction m as [|k w m Hk IH] using map_ind; intros Hg; [done|].
  rewrite fmap_insert, msum_insert by done.
  assert (msum (nonzero (g <$> m)) * c <= msum m).
  { apply IH. intros k' w' Hk'. apply (Hg k'). rewrite lookup_insert_ne; [done|congruence]. }
  pose proof (Hg k w (lookup_insert_eq _ _ _)). unfold nonzero.
  destruct (decide (g w = 0)) as [Hz|Hnz].
  - rewrite map_filter_insert_False by (simpl; tauto).
    rewrite delete_id by (by rewrite lookup_fmap, Hk). unfold nonzero in *. lia.
  - rewrite map_filter_insert_True by done. rewrite msum_insert; [unfold nonzero in *; lia|].
    apply map_lookup_filter_None. left. by rewrite lookup_fmap, Hk.
Qed.

Lemma BigBuilder_shift_bound m :
  0 < msum m -> 0 <= BigBuilder_shift m /\ msum m < 2 ^ 31 * 2 ^ BigBuilder_shift m.
Proof.
  intros Hpos. unfold BigBuilder_shift, BitLen. rewrite BigBuilder_TotalWeight_msum.
  destruct (msum m =? 0) eqn:E0; bool_to_prop; [lia|]. rewrite Z.abs_eq by lia.
  pose proof (Z.log2_spec (msum m) Hpos) as [_ Hlt]. pose proof (Z.log2_nonneg (msum m)).
  destruct (31 <? Z.log2 (msum m) + 1) eqn:E; bool_to_prop.
  - split; [lia|]. rewrite <- Z.pow_add_r by lia.
    replace (31 + (Z.log2 (msum m) + 1 - 31)) with (Z.succ (Z.log2 (msum m))) by lia. done.
  - split; [lia|]. rewrite Z.mul_1_r. eapply Z.lt_le_trans; [done|].
    apply Z.pow_le_mono_r; lia.
Qed.

Lemma BigBuilder_shift_zero m : 0 < msum m < 2 ^ 31 -> BigBuilder_shift m = 0.
Proof.
  intros [Hpos Hfits]. unfold BigBuilder_shift, BitLen. rewrite BigBuilder_TotalWeight_msum.
  destruct (msum m =? 0) eqn:E0; bool_to_prop; [lia|]. rewrite Z.abs_eq by lia.
  apply Z.log2_lt_pow2 in Hfits; [|lia].
  destruct (31 <? _) eqn:E1; bool_to_prop; lia.
Qed.

(** The weight given to the group for a big weight [w]. *)
Definition downscaled (m : gmap Z Z) (w : Z) : Z := u32 (u64 (Z.shiftr w (BigBuilder_shift m))).

Definition positive_weights (m : gmap Z Z) : Prop := forall k w, m !! k = Some w -> 0 < w.

Section downscaling.
Context (b : gmap Z Z) (Hpos : positive_weights b) (Hne : b <> ∅).

Lemma big_weight_le k w : b !! k = Some w -> w <= msum b.
Proof. apply msum_elem_le. intros k' w' Hk'. pose proof (Hpos _ _ Hk'). lia. Qed.

Lemma big_total_pos : 0 < msum b.
Proof.
  destruct (map_choose b Hne) as (k & w & Hk).
  pose proof (Hpos _ _ Hk). pose proof (big_weight_le _ _ Hk). lia.
Qed.

Lemma downscaled_exact k w : b !! k = Some w -> downscaled b w = Z.shiftr w (BigBuilder_shift b).
Proof.
  intros Hk. destruct (BigBuilder_shift_bound b big_total_pos) as [Hs Hlt].
  pose proof (Hpos _ _ Hk). pose proof (big_weight_le _ _ Hk).
  assert (0 <= Z.shiftr w (BigBuilder_shift b) < 2 ^ 31) as Hr.
  { rewrite Z.shiftr_div_pow2 by done. split; [apply Z.div_pos; lia|].
    apply Z.div_lt_upper_bound; lia. }
  unfold downscaled. rewrite u64_small by solve_width. apply u32_small. solve_width.
Qed.

Lemma downscaled_total : msum (nonzero (downscaled b <$> b)) < 2 ^ 31.
Proof.
  destruct (BigBuilder_shift_bound b big_total_pos) as [Hs Hlt].
  assert (msum (nonzero (downscaled b <$> b)) * 2 ^ BigBuilder_shift b <= msum b).
  { apply msum_scaled; [lia|]. intros k w Hk. rewrite (downscaled_exact k w Hk).
    rewrite Z.shiftr_div_pow2, Z.mul_comm by done. apply Z.mul_div_le. lia. }
  apply (Zmult_lt_reg_r _ _ (2 ^ BigBuilder_shift b)); lia.
Qed.

Lemma downscaled_u32 : weights_u32 (nonzero (downscaled b <$> b)).
Proof.
  intros k w [Hk _]%nonzero_lookup. rewrite lookup_fmap in Hk.
  destruct (b !! k); simplify_eq/=. apply u32_range.
Qed.
End downscaling.

(** The big-integer builder never panics: for any positive weights the
    downscaled ones fit a group, each is the original shifted right by the
    same amount, and nothing is lost when the total already fits 31 bits. *)
Theorem BigBuilder_never_overflows (b : gmap Z Z) :
  b <> ∅ -> positive_weights b ->
  exists vv, BigBuilder_Build b = Ok vv /\ wf vv /\
    (forall id, Validators_Get vv id = Z.shiftr (default 0 (b !! id)) (BigBuilder_shift b)) /\
    (msum b < 2 ^ 31 -> BigBuilder_shift b = 0).
Proof.
  intros Hne Hpos. pose proof (downscaled_total b Hpos Hne) as Hfit.
  pose proof (Build_outcome _ (downscaled_u32 b Hne)) as HB.
  rewrite nonzero_idemp, sorted_sum in HB. change (MaxUint32 / 2) with (2 ^ 31 - 1) in HB.
  destruct (_ <=? _) eqn:E; bool_to_prop; [|lia]. destruct HB as (vv & HB & Hv & Hwf).
  exists vv. split; [|split; [done|split]].
  - unfold BigBuilder_Build. by rewrite (scaled_values (downscaled b)).
  - intros id. unfold Validators_Get. rewrite Hv, nonzero_default.
    destruct (b !! id) as [w|] eqn:Hb; simpl; [by eapply downscaled_exact|by rewrite Z.shiftr_0_l].
  - intros Hfits. apply BigBuilder_shift_zero. split; [|done]. by apply big_total_pos.
Qed.

(** ** Witnesses *)

(** Four validators; the group used by the concrete runs of the development. *)
Definition group4 : gmap Z Z := list_to_map [(1, 3); (2, 5); (3, 1); (4, 5)].

Definition validators4 : Validators := mk_Validators group4 (full_cache group4).

Lemma group4_u32 : weights_u32 group4.
Proof.
  intros k w Hk%elem_of_map_to_list.
  assert (Forall (fun kw => is_u32 kw.2) (map_to_list group4)) as HF.
  { apply (bool_decide_unpack _). vm_compute. exact I. }
  rewrite Forall_forall in HF. apply (HF _ Hk).
Qed.

Lemma group4_Build : Builder_Build group4 = Ok validators4.
Proof. vm_compute. reflexivity. Qed.

Lemma validators4_wf : wf validators4.
Proof. apply (Build_wf group4 _ group4_u32 group4_Build). Qed.

Example group4_ids : SortedIDs validators4 = [2; 4; 1; 3] /\ Quorum validators4 = 10.
Proof. split; reflexivity. Qed.

Lemma Build_correct_witness :
  exists vv, Builder_Build group4 = Ok vv /\ values vv = nonzero group4 /\ wf vv.
Proof. exact (Build_correct group4 group4_u32). Defined.

Lemma sortedArray_any_order_witness :
  [mk_validator 2 5; mk_validator 4 5; mk_validator 1 3; mk_validator 3 1] = sortedArray group4.
Proof.
  assert ([mk_validator 2 5; mk_validator 4 5; mk_validator 1 3; mk_validator 3 1] = sortedArray group4)
    as Hs by (vm_compute; reflexivity).
  apply (sortedArray_any_order group4 (to_validator <$> map_to_list group4)); [done| |].
  - rewrite Hs. apply sortedArray_perm.
  - rewrite Hs. apply StronglySorted_Sorted, sortedArray_sorted.
Defined.

Lemma counter_counts_set_witness :
  exists wc, count_all (NewCounter validators4) [2; 4; 2] = Ok wc /\
    Counter_Sum wc = weight_of validators4 (in_set (list_to_set [2; 4; 2])) /\
    (HasQuorum wc = true <-> is_quorum validators4 (in_set (list_to_set [2; 4; 2]))).
Proof.
  apply (counter_counts_set validators4 [2; 4; 2] validators4_wf).
  intros id Hid. change (SortedIDs validators4) with [2; 4; 1; 3]. set_solver.
Defined.

Lemma quorum_intersection_witness :
  exists id, id ∈ SortedIDs validators4 /\ negb (id =? 3) = true /\ negb (id =? 1) = true /\
    (id =? 1) = false.
Proof.
  apply (quorum_intersection validators4 (fun id => negb (id =? 3)) (fun id => negb (id =? 1))
    (fun id => id =? 1) validators4_wf); vm_compute; discriminate.
Defined.

Lemma rlp_roundtrip_witness : DecodeRLP Ok (EncodeRLP id validators4) = Ok validators4.
Proof. apply (rlp_roundtrip id Ok group4); [done|exact group4_u32|exact group4_Build]. Defined.

(** Two weights of 80 bits. *)
Definition big_group : gmap Z Z := list_to_map [(1, 2 ^ 80); (2, 3 * 2 ^ 79)].

Lemma BigBuilder_never_overflows_witness :
  exists vv, BigBuilder_Build big_group = Ok vv /\ wf vv /\
    (forall id, Validators_Get vv id = Z.shiftr (default 0 (big_group !! id)) (BigBuilder_shift big_group)) /\
    (msum big_group < 2 ^ 31 -> BigBuilder_shift big_group = 0).
Proof.
  apply (BigBuilder_never_overflows big_group); [discriminate|].
  assert (map_Forall (fun _ w => 0 < w) big_group) as HF.
  { apply (bool_decide_unpack _). vm_compute. exact I. }
  intros k w Hk. exact (HF k w Hk).
Defined.

(** A group of one validator, for small examples. *)
Definition solo : Validators := mk_Validators {[1 := 1]} (full_cache {[1 := 1]}).

Lemma solo_wf : wf solo.
Proof.
  apply full_cache_wf.
  - intros k w [<- <-]%lookup_singleton_Some. solve_width.
  - by intros k w [<- <-]%lookup_singleton_Some.
  - vm_compute. done.
Qed.
