(* ===== verification/Dag.v ===== *)
(** * inter/dag and eventcheck: events, their checks, and the event graph

    [BaseEvent] is the event record; the checkers of eventcheck/ return the
    error of the first check that fails.  The graph of the connected events
    is a finite map from IDs; [anc] is the "observes" relation. *)

From S2P Require Import Prelude Bytes Pos.
Local Open Scope go_scope.

(** ** inter/dag/event.go *)

Record BaseEvent := mk_BaseEvent {
  e_epoch : Z;
  e_seq : Z;
  e_frame : Z;
  e_creator : Z;
  e_parents : list Z;
  e_lamport : Z;
  e_id : Z
}.

#[export] Instance BaseEvent_eq_dec : EqDecision BaseEvent.
Proof. solve_decision. Defined.

Definition SelfParent (e : BaseEvent) : option Z :=
  if (e_seq e <=? 1) || (length (e_parents e) =? 0)%nat then None
  else head (e_parents e).

Definition IsSelfParent (e : BaseEvent) (h : Z) : bool :=
  match SelfParent e with
  | None => false
  | Some p => p =? h
  end.

Definition Event_Size (e : BaseEvent) : Z :=
  4 + 4 + 4 + 4 + Z.of_nat (length (e_parents e)) * 32 + 4 + 32.

Definition SetEpoch (e : BaseEvent) (v : Z) : BaseEvent :=
  mk_BaseEvent v (e_seq e) (e_frame e) (e_creator e) (e_parents e) (e_lamport e) (e_id e).
Definition SetSeq (e : BaseEvent) (v : Z) : BaseEvent :=
  mk_BaseEvent (e_epoch e) v (e_frame e) (e_creator e) (e_parents e) (e_lamport e) (e_id e).
Definition SetFrame (e : BaseEvent) (v : Z) : BaseEvent :=
  mk_BaseEvent (e_epoch e) (e_seq e) v (e_creator e) (e_parents e) (e_lamport e) (e_id e).
Definition SetCreator (e : BaseEvent) (v : Z) : BaseEvent :=
  mk_BaseEvent (e_epoch e) (e_seq e) (e_frame e) v (e_parents e) (e_lamport e) (e_id e).
Definition SetParents (e : BaseEvent) (v : list Z) : BaseEvent :=
  mk_BaseEvent (e_epoch e) (e_seq e) (e_frame e) (e_creator e) v (e_lamport e) (e_id e).
Definition SetLamport (e : BaseEvent) (v : Z) : BaseEvent :=
  mk_BaseEvent (e_epoch e) (e_seq e) (e_frame e) (e_creator e) (e_parents e) v (e_id e).

(** The epoch and Lamport bytes are those the event has at the call. *)
Definition SetID (e : BaseEvent) (rID : list Z) : BaseEvent :=
  mk_BaseEvent (e_epoch e) (e_seq e) (e_frame e) (e_creator e) (e_parents e) (e_lamport e)
    (make_id (e_epoch e) (e_lamport e) rID).

Definition Event_Build (me : BaseEvent) (rID : list Z) : BaseEvent := SetID me rID.

(** ** inter/dag/events.go and metric.go *)

Record Metric := mk_Metric { Num : Z; Size : Z }.

Definition Events_Metric (ee : list BaseEvent) : Metric :=
  mk_Metric (u32 (Z.of_nat (length ee)))
            (foldl (fun s e => u64 (s + u64 (Event_Size e))) 0 ee).

Definition Events_IDs (ee : list BaseEvent) : list Z := e_id <$> ee.

(** ** eventcheck/basiccheck *)

Definition ErrNoParents : string := "event has no parents".
Definition ErrNotInited : string := "event field is not initialized".
Definition ErrHugeValue : string := "too big value".
Definition ErrDoubleParents : string := "event has double parents".

Definition checkLimits (e : BaseEvent) : outcome unit :=
  if (MaxInt32 - 1 <=? e_seq e) || (MaxInt32 - 1 <=? e_epoch e) || (MaxInt32 - 1 <=? e_frame e)
     || (MaxInt32 - 1 <=? e_lamport e)
  then Err ErrHugeValue else Ok tt.

Definition checkInited (e : BaseEvent) : outcome unit :=
  if (e_seq e <=? 0) || (e_epoch e <=? 0) || (e_frame e <=? 0) || (e_lamport e <=? 0)
  then Err ErrNotInited
  else if (1 <? e_seq e) && (length (e_parents e) =? 0)%nat
  then Err ErrNoParents else Ok tt.

Definition basiccheck_Validate (e : BaseEvent) : outcome unit :=
  let* _ := checkLimits e in
  let* _ := checkInited e in
  if negb (size (Events_Set (e_parents e)) =? length (e_parents e))%nat
  then Err ErrDoubleParents else Ok tt.

(** ** eventcheck/epochcheck: [GetEpochValidators] gives the two parameters *)

Definition ErrNotRelevant : string := "event is too old or too new".
Definition ErrAuth : string := "event creator isn't a validator".

Definition epochcheck_Validate (validators : Validators) (epoch : Z) (e : BaseEvent) : outcome unit :=
  if negb (e_epoch e =? epoch) then Err ErrNotRelevant
  else if negb (Validators_Exists validators (e_creator e)) then Err ErrAuth
  else Ok tt.

(** ** eventcheck/parentscheck *)

Definition ErrWrongSeq : string := "event has wrong sequence time".
Definition ErrWrongLamport : string := "event has wrong Lamport time".
Definition ErrWrongSelfParent : string := "event is missing self-parent".

Definition parentscheck_Validate (e : BaseEvent) (parents : list BaseEvent) : outcome unit :=
  if negb (length (e_parents e) =? length parents)%nat
  then Panic "parentscheck: expected event's parents as an argument"
  else
  let maxLamport := foldl (fun m p => MaxLamport m (e_lamport p)) 0 parents in
  if negb (e_lamport e =? u32 (maxLamport + 1)) then Err ErrWrongLamport
  else
  let* _ := foldM (fun _ pi =>
              if negb (eqb (e_creator pi.1 =? e_creator e) (IsSelfParent e pi.2))
              then Err ErrWrongSelfParent else Ok tt)
            tt (zip parents (e_parents e)) in
  if negb (eqb (e_seq e =? 1) (match SelfParent e with None => true | _ => false end))
  then Err ErrWrongSeq
  else
  match SelfParent e with
  | None => Ok tt
  | Some _ =>
      let* selfParent := index parents 0 in
      if negb (IsSelfParent e (e_id selfParent)) then Err ErrWrongSelfParent
      else if negb (e_seq e =? u32 (e_seq selfParent + 1)) then Err ErrWrongSeq
      else Ok tt
  end.

(** ** eventcheck/all.go *)

Definition Checkers_Validate (validators : Validators) (epoch : Z)
    (e : BaseEvent) (parents : list BaseEvent) : outcome unit :=
  let* _ := basiccheck_Validate e in
  let* _ := epochcheck_Validate validators epoch e in
  let* _ := parentscheck_Validate e parents in
  Ok tt.

(** * The event graph *)

Section graph.
Implicit Types (D : gmap Z BaseEvent) (a b x : Z).

(** [b] is a parent of the connected event [a]. *)
Definition parent D a b : Prop := exists e, D !! a = Some e /\ b ∈ e_parents e.

(** [a] observes [b]: reachability through parents, [a] itself included. *)
Definition anc D : Z -> Z -> Prop := rtc (parent D).

End graph.

(** An event ready to be connected: its parents are, it is not, and all the
    checks pass on it. *)
Record connectable (vv : Validators) (epoch : Z) (D : gmap Z BaseEvent) (e : BaseEvent) : Prop := {
  con_fresh : D !! e_id e = None;
  con_checked : exists ps, mapM (fun p => D !! p) (e_parents e) = Some ps /\
                  Checkers_Validate vv epoch e ps = Ok tt
}.

(** Graphs built by connecting events one after the other, parents first. *)
Inductive dag (vv : Validators) (epoch : Z) : gmap Z BaseEvent -> Prop :=
| dag_empty : dag vv epoch ∅
| dag_connect D e : dag vv epoch D -> connectable vv epoch D e -> dag vv epoch (<[e_id e := e]> D).

(** * Theorems *)

(** ** What the checks establish *)

(** The specification of a checked event, with exact arithmetic. *)
Record checked_event (vv : Validators) (epoch : Z) (e : BaseEvent) (ps : list BaseEvent) : Prop := {
  ce_len : length ps = length (e_parents e);
  ce_ranges : 0 < e_seq e < MaxInt32 - 1 /\ 0 < e_frame e < MaxInt32 - 1 /\
              0 < e_lamport e < MaxInt32 - 1;
  ce_epoch : e_epoch e = epoch /\ 0 < epoch < MaxInt32 - 1;
  ce_creator : is_Some (values vv !! e_creator e);
  ce_parents_NoDup : NoDup (e_parents e);
  ce_lamport : e_lamport e = foldr (fun p m => Z.max (e_lamport p) m) 0 ps + 1;
  ce_self : forall i p h, ps !! i = Some p -> e_parents e !! i = Some h ->
              (e_creator p = e_creator e <-> SelfParent e = Some h);
  ce_first : SelfParent e = None <-> e_seq e = 1;
  ce_next : SelfParent e <> None ->
              exists p, ps !! 0%nat = Some p /\ SelfParent e = Some (e_id p) /\ e_seq e = u32 (e_seq p + 1)
}.

Lemma list_to_set_Events_Set l : Events_Set l = list_to_set l.
Proof.
  unfold Events_Set, EventsSet_Add. rewrite <- (right_id_L ∅ (∪) (list_to_set l)).
  generalize (∅ : gset Z). induction l as [|x l IH]; intros s; simpl; [set_solver|].
  rewrite IH. set_solver.
Qed.

Lemma size_list_to_set_NoDup (l : list Z) : size (list_to_set l : gset Z) = length l -> NoDup l.
Proof.
  induction l as [|x l IH]; intros Hs; [constructor|]. simpl in Hs.
  assert (size (list_to_set l : gset Z) <= length l)%nat as Hle.
  { clear. induction l as [|y l IH]; [done|]. simpl.
    pose proof (size_union_alt ({[y]} : gset Z) (list_to_set l)) as ->.
    rewrite size_singleton.
    pose proof (subseteq_size (list_to_set l ∖ {[y]}) (list_to_set l : gset Z) ltac:(set_solver)). lia. }
  destruct (decide (x ∈ l)) as [Hx|Hx].
  - replace ({[x]} ∪ list_to_set l : gset Z) with (list_to_set l : gset Z) in Hs by set_solver. lia.
  - constructor; [done|]. apply IH. rewrite size_union, size_singleton in Hs by set_solver. lia.
Qed.

Lemma foldl_MaxLamport l :
  foldl (fun m p => MaxLamport m (e_lamport p)) 0 l = foldr (fun p m => Z.max (e_lamport p) m) 0 l.
Proof.
  assert (forall l m, 0 <= m -> foldl (fun m p => MaxLamport m (e_lamport p)) m l =
    Z.max m (foldr (fun p m => Z.max (e_lamport p) m) 0 l)) as Hm.
  { clear l. induction l as [|q l IH]; intros m H; simpl; [lia|].
    replace (MaxLamport m (e_lamport q)) with (Z.max m (e_lamport q));
      [rewrite IH; lia|]. unfold MaxLamport. destruct (_ <? _) eqn:E; bool_to_prop; lia. }
  rewrite Hm by lia. apply Z.max_r. induction l; simpl; lia.
Qed.

Lemma max_lamport_ge l p : p ∈ l -> e_lamport p <= foldr (fun p m => Z.max (e_lamport p) m) 0 l.
Proof. induction 1; simpl; lia. Qed.

Lemma max_lamport_bound l k :
  0 <= k -> Forall (fun p => e_lamport p <= k) l ->
  0 <= foldr (fun p m => Z.max (e_lamport p) m) 0 l <= k.
Proof. intros Hk. induction 1; simpl; lia. Qed.

Lemma foldM_unit_Ok {A} (f : A -> outcome unit) l :
  foldM (fun _ x => f x) tt l = Ok tt <-> Forall (fun x => f x = Ok tt) l.
Proof.
  induction l as [|y l IH]; simpl; [done|]. rewrite Forall_cons, <- IH.
  destruct (f y) as [[]| |] eqn:Hy; simpl; naive_solver.
Qed.

Lemma basiccheck_Ok e :
  basiccheck_Validate e = Ok tt <->
  (0 < e_seq e < MaxInt32 - 1 /\ 0 < e_frame e < MaxInt32 - 1 /\ 0 < e_lamport e < MaxInt32 - 1) /\
  0 < e_epoch e < MaxInt32 - 1 /\ (1 < e_seq e -> e_parents e <> []) /\ NoDup (e_parents e).
Proof.
  unfold basiccheck_Validate, checkLimits, checkInited. rewrite list_to_set_Events_Set.
  destruct (_ || _ || _ || _) eqn:E1; simpl.
  { split; [done|]. rewrite !orb_true_iff in E1. bool_to_prop. intros (? & ? & _). lia. }
  destruct ((e_seq e <=? 0) || _ || _ || _) eqn:E2; simpl.
  { split; [done|]. rewrite !orb_true_iff in E2. bool_to_prop. intros (? & ? & _). lia. }
  rewrite !orb_false_iff in E1, E2. destruct E1 as [[[]]], E2 as [[[]]].
  destruct ((1 <? e_seq e) && _) eqn:E3; simpl.
  { split; [done|]. bool_to_prop. destruct E3 as [E3 E4]. intros (_ & _ & Hp & _).
    apply Hp in E3. destruct (e_parents e); done. }
  destruct (negb _) eqn:E4; bool_to_prop.
  - split; [done|]. intros (_ & _ & _ & Hnd). rewrite size_list_to_set in E4 by done. done.
  - split; [|done]. intros _. repeat split; try lia; [|by apply size_list_to_set_NoDup].
    intros Hseq Hnil. rewrite Hnil in E3. destruct E3; [lia|done].
Qed.

Lemma epochcheck_Ok vv epoch e :
  epochcheck_Validate vv epoch e = Ok tt <-> e_epoch e = epoch /\ is_Some (values vv !! e_creator e).
Proof.
  unfold epochcheck_Validate, Validators_Exists.
  destruct (e_epoch e =? epoch) eqn:E1; simpl; bool_to_prop; [|naive_solver].
  case_bool_decide; simpl; naive_solver.
Qed.

Lemma selfparent_loop_Ok e ps :
  length ps = length (e_parents e) ->
  foldM (fun _ pi => if negb (eqb (e_creator pi.1 =? e_creator e) (IsSelfParent e pi.2))
                     then Err ErrWrongSelfParent else Ok tt) tt (zip ps (e_parents e)) = Ok tt <->
  forall i p h, ps !! i = Some p -> e_parents e !! i = Some h ->
    (e_creator p = e_creator e <-> SelfParent e = Some h).
Proof.
  intros Hlen. rewrite foldM_unit_Ok, Forall_lookup. setoid_rewrite lookup_zip_with_Some.
  assert (forall p h, (if negb (eqb (e_creator p =? e_creator e) (IsSelfParent e h))
     then Err ErrWrongSelfParent else Ok tt) = Ok tt <->
     (e_creator p = e_creator e <-> SelfParent e = Some h)) as Heq.
  { intros p h. unfold IsSelfParent. destruct (SelfParent e) as [sp|].
    - destruct (e_creator p =? e_creator e) eqn:E1; destruct (sp =? h) eqn:E2; bool_to_prop; naive_solver.
    - destruct (e_creator p =? e_creator e) eqn:E1; bool_to_prop; naive_solver. }
  split.
  - intros H i p h Hp Hh. apply Heq, (H i (p, h)). eauto.
  - intros H i [p' h'] (p & h & [= -> ->] & Hp & Hh). apply Heq. by apply (H i).
Qed.

Lemma parentscheck_Ok e ps :
  parentscheck_Validate e ps = Ok tt <->
  length ps = length (e_parents e) /\
  e_lamport e = u32 (foldr (fun p m => Z.max (e_lamport p) m) 0 ps + 1) /\
  (forall i p h, ps !! i = Some p -> e_parents e !! i = Some h ->
     (e_creator p = e_creator e <-> SelfParent e = Some h)) /\
  (SelfParent e = None <-> e_seq e = 1) /\
  (SelfParent e <> None ->
     exists p, ps !! 0%nat = Some p /\ SelfParent e = Some (e_id p) /\ e_seq e = u32 (e_seq p + 1)).
Proof.
  unfold parentscheck_Validate. rewrite foldl_MaxLamport.
  destruct (length (e_parents e) =? length ps)%nat eqn:E1; simpl; bool_to_prop; [|naive_solver].
  destruct (e_lamport e =? _) eqn:E2; simpl; bool_to_prop; [|naive_solver].
  rewrite <- (selfparent_loop_Ok e ps) by done.
  destruct (foldM _ tt _) as [[]| |] eqn:E3; simpl; [|naive_solver..].
  destruct (SelfParent e) as [sp|] eqn:Hsp.
  - destruct (e_seq e =? 1) eqn:E4; simpl; bool_to_prop; [naive_solver|].
    unfold index, IsSelfParent. rewrite Hsp.
    destruct (ps !! 0%nat) as [p|] eqn:Hp; simpl; [|naive_solver].
    destruct (sp =? e_id p) eqn:E5; simpl; bool_to_prop; [|naive_solver].
    destruct (e_seq e =? u32 _) eqn:E6; simpl; bool_to_prop; naive_solver.
  - destruct (e_seq e =? 1) eqn:E4; simpl; bool_to_prop; naive_solver.
Qed.

Lemma Validate_checked (vv : Validators) (epoch : Z) (e : BaseEvent) (ps : list BaseEvent) :
  Forall (fun p => e_lamport p < MaxInt32 - 1) ps ->
  Checkers_Validate vv epoch e ps = Ok tt <-> checked_event vv epoch e ps.
Proof.
  intros Hps. assert (0 <= foldr (fun p m => Z.max (e_lamport p) m) 0 ps <= MaxInt32 - 2) as Hb.
  { apply max_lamport_bound; [solve_width|]. eapply Forall_impl; [exact Hps|]. simpl. lia. }
  unfold Checkers_Validate. split.
  - destruct (basiccheck_Validate e) as [[]| |] eqn:E1; try done. simpl.
    destruct (epochcheck_Validate vv epoch e) as [[]| |] eqn:E2; try done. simpl.
    destruct (parentscheck_Validate e ps) as [[]| |] eqn:E3; try done. intros _.
    apply basiccheck_Ok in E1 as (? & ? & ? & ?). apply epochcheck_Ok in E2 as (<- & ?).
    apply parentscheck_Ok in E3 as (? & Hl & ? & ? & ?).
    rewrite u32_small in Hl by solve_width. by split.
  - intros [? ? [? ?] ? ? Hl Hs Hf ?].
    rewrite (proj2 (basiccheck_Ok e)); [|split; [done|split; [by subst|split; [|done]]]].
    + rewrite (proj2 (epochcheck_Ok vv epoch e)) by done. simpl.
      rewrite (proj2 (parentscheck_Ok e ps)); [done|].
      rewrite u32_small by solve_width. done.
    + intros Hseq Hnil. assert (e_seq e = 1); [|lia]. apply Hf.
      unfold SelfParent. by rewrite Hnil, orb_true_r.
Qed.

(** C17: the checkers accept an event exactly when it is well-formed with
    respect to its parents: fields in range, of the current epoch and by a
    validator of it, no duplicate parent, Lamport time one above the parents'
    maximum, the self-parent the only parent of the same creator and in first
    position, sequence number 1 without it and one above its own with it. *)
Theorem Validate_iff_checked (vv : Validators) (epoch : Z) (e : BaseEvent) (ps : list BaseEvent) :
  Forall (fun p => e_lamport p < MaxInt32 - 1) ps ->
  Checkers_Validate vv epoch e ps = Ok tt <-> checked_event vv epoch e ps.
Proof. exact (Validate_checked vv epoch e ps). Qed.

(** ** Connected events *)

Record event_ok (vv : Validators) (D : gmap Z BaseEvent) (e : BaseEvent) : Prop := {
  eo_ranges : 0 < e_seq e < MaxInt32 - 1 /\ 0 < e_frame e < MaxInt32 - 1 /\ 0 < e_lamport e < MaxInt32 - 1;
  eo_creator : is_Some (values vv !! e_creator e);
  eo_parents : forall p, p ∈ e_parents e -> exists pe, D !! p = Some pe /\ e_lamport pe < e_lamport e;
  eo_self : forall p pe, p ∈ e_parents e -> D !! p = Some pe ->
              (e_creator pe = e_creator e <-> SelfParent e = Some p);
  eo_first : SelfParent e = None <-> e_seq e = 1;
  eo_next : forall sp, SelfParent e = Some sp ->
              sp ∈ e_parents e /\
              exists pe, D !! sp = Some pe /\ e_creator pe = e_creator e /\ e_seq e = e_seq pe + 1
}.

Lemma SelfParent_head e sp : SelfParent e = Some sp -> head (e_parents e) = Some sp.
Proof. unfold SelfParent. by destruct (_ || _). Qed.

Section dag_facts.
Context (vv : Validators) (epoch : Z).
Implicit Types (D : gmap Z BaseEvent).

Lemma event_ok_weaken D1 D2 e : D1 ⊆ D2 -> event_ok vv D1 e -> event_ok vv D2 e.
Proof.
  intros Hsub [H1 H2 H3 H4 H5 H6]. split; [done|done| | |done|].
  - intros p Hp. destruct (H3 p Hp) as (pe & Hpe & ?). exists pe. split; [|done].
    by eapply lookup_weaken.
  - intros p pe Hp Hpe. destruct (H3 p Hp) as (pe' & Hpe' & ?).
    pose proof (lookup_weaken _ _ _ _ Hpe' Hsub). simplify_eq. by apply H4.
  - intros sp Hsp. destruct (H6 sp Hsp) as (? & pe & Hpe & ?). split; [done|].
    exists pe. split; [by eapply lookup_weaken|done].
Qed.

Lemma connectable_ok D e :
  (forall h e', D !! h = Some e' -> e_id e' = h /\ event_ok vv D e') ->
  connectable vv epoch D e -> event_ok vv D e.
Proof.
  intros HD [_ (ps & Hps & Hc)]. apply mapM_Some in Hps.
  apply Validate_checked in Hc as [Hlen Hr _ Hcr _ Hl Hs Hf Hn].
  2:{ apply Forall_forall. intros p [i Hi]%list_elem_of_lookup.
      destruct (Forall2_lookup_r _ _ _ _ _ Hps Hi) as (h & _ & Hh).
      destruct (HD _ _ Hh) as [_ [[_ [_ ?]] _]]. lia. }
  split; [done|done| | |done|].
  - intros p [i Hi]%list_elem_of_lookup.
    destruct (Forall2_lookup_l _ _ _ _ _ Hps Hi) as (pe & Hpe & Hlk).
    exists pe. split; [done|]. pose proof (max_lamport_ge ps pe ltac:(by eapply list_elem_of_lookup_2)). lia.
  - intros p pe [i Hi]%list_elem_of_lookup Hpe.
    destruct (Forall2_lookup_l _ _ _ _ _ Hps Hi) as (pe' & Hpe' & Hlk).
    simplify_eq. by apply (Hs i).
  - intros sp Hsp. destruct Hn as (p & Hp & Hsp' & Hseq); [by rewrite Hsp|].
    destruct (Forall2_lookup_r _ _ _ _ _ Hps Hp) as (h & Hh & Hlk).
    assert (h = sp) as -> by (apply SelfParent_head in Hsp; rewrite head_lookup in Hsp; congruence).
    split; [by eapply list_elem_of_lookup_2|]. exists p. split; [done|]. split.
    + by apply (Hs 0%nat _ _ Hp Hh).
    + rewrite Hseq. apply u32_small. destruct (HD _ _ Hlk) as [_ [[? _] _]]. solve_width.
Qed.

Lemma dag_events D :
  dag vv epoch D -> forall h e, D !! h = Some e -> e_id e = h /\ event_ok vv D e.
Proof.
  induction 1 as [|D e0 Hdag IH Hcon]; intros h e Hh; [by rewrite lookup_empty in Hh|].
  assert (D ⊆ <[e_id e0 := e0]> D) as Hsub by (apply insert_subseteq, Hcon).
  apply lookup_insert_Some in Hh as [[<- <-]|[_ Hh]].
  - split; [done|]. eapply event_ok_weaken; [done|]. by apply connectable_ok.
  - destruct (IH _ _ Hh). split; [done|]. by eapply event_ok_weaken.
Qed.

Lemma dag_connectable_ok D e : dag vv epoch D -> connectable vv epoch D e -> event_ok vv D e.
Proof. intros HD. apply connectable_ok. by apply dag_events. Qed.

Lemma dag_id D h e : dag vv epoch D -> D !! h = Some e -> e_id e = h.
Proof. intros HD Hh. by apply (dag_events D HD). Qed.

Lemma dag_event_ok D h e : dag vv epoch D -> D !! h = Some e -> event_ok vv D e.
Proof. intros HD Hh. by apply (dag_events D HD h). Qed.

(** ** Observation *)

Lemma anc_dom D a x : dag vv epoch D -> is_Some (D !! a) -> anc D a x -> is_Some (D !! x).
Proof.
  intros HD Ha Hx. induction Hx as [|a b x [e [He Hb]] _ IH]; [done|]. apply IH.
  destruct (eo_parents _ _ _ (dag_event_ok _ _ _ HD He) _ Hb) as (pe & Hpe & _). eauto.
Qed.

Lemma anc_lamport D a x ea ex :
  dag vv epoch D -> anc D a x -> D !! a = Some ea -> D !! x = Some ex ->
  a = x \/ e_lamport ex < e_lamport ea.
Proof.
  intros HD Hx. revert ea. induction Hx as [|a b x [e [He Hb]] Hbx IH]; intros ea Ha Hex; [by left|].
  simplify_eq. right.
  destruct (eo_parents _ _ _ (dag_event_ok _ _ _ HD He) _ Hb) as (pe & Hpe & Hlt).
  destruct (IH _ Hpe Hex) as [->|]; [|lia]. by simplify_eq.
Qed.

Lemma anc_antisymm D a x :
  dag vv epoch D -> is_Some (D !! a) -> anc D a x -> anc D x a -> a = x.
Proof.
  intros HD [ea Ha] Hax Hxa. destruct (anc_dom D a x HD ltac:(eauto) Hax) as [ex Hx].
  destruct (anc_lamport _ _ _ _ _ HD Hax Ha Hx) as [|]; [done|].
  destruct (anc_lamport _ _ _ _ _ HD Hxa Hx Ha) as [|]; [done|lia].
Qed.

(** Observation from a connected event is the same in every larger graph. *)
Lemma parent_sub D D' a b : D ⊆ D' -> is_Some (D !! a) -> parent D' a b <-> parent D a b.
Proof.
  intros Hsub [ea Ha]. unfold parent. pose proof (lookup_weaken _ _ _ _ Ha Hsub) as Ha'.
  by rewrite Ha, Ha'.
Qed.

Lemma anc_sub D D' a x : dag vv epoch D -> D ⊆ D' -> is_Some (D !! a) -> anc D' a x <-> anc D a x.
Proof.
  intros HD Hsub Ha. split; intros Hx; (induction Hx as [|a b x Hab _ IH]; [constructor|]).
  - apply (parent_sub D D' a b Hsub Ha) in Hab. econstructor; [done|]. apply IH.
    apply (anc_dom D a b HD Ha). by apply rtc_once.
  - econstructor; [by apply (parent_sub D D')|]. apply IH. apply (anc_dom D a b HD Ha). by apply rtc_once.
Qed.

Lemma anc_insert_old D e a x :
  dag vv epoch D -> D !! e_id e = None -> is_Some (D !! a) ->
  anc (<[e_id e := e]> D) a x <-> anc D a x.
Proof. intros HD Hf Ha. apply anc_sub; [done|by apply insert_subseteq|done]. Qed.

Lemma anc_insert_new D e x :
  dag vv epoch D -> connectable vv epoch D e ->
  anc (<[e_id e := e]> D) (e_id e) x <-> x = e_id e \/ exists p, p ∈ e_parents e /\ anc D p x.
Proof.
  intros HD Hcon. pose proof (dag_connectable_ok _ _ HD Hcon) as Hok. pose proof (con_fresh _ _ _ _ Hcon) as Hf.
  assert (forall p, p ∈ e_parents e -> is_Some (D !! p)) as Hp.
  { intros p Hp. destruct (eo_parents _ _ _ Hok p Hp) as (pe & Hpe & _). eauto. }
  split.
  - intros Hx. inversion Hx as [|? p ? [e' [He' Hin]] Hpx]; [by left|subst]. right.
    rewrite lookup_insert_eq in He'. simplify_eq. exists p. split; [done|].
    eapply anc_insert_old; eauto.
  - intros [->|(p & Hin & Hx)]; [constructor|]. econstructor.
    + exists e. split; [by rewrite lookup_insert_eq|done].
    + apply anc_insert_old; auto.
Qed.

(** Nothing already connected observes a new event. *)
Lemma anc_insert_not_old D e a :
  dag vv epoch D -> D !! e_id e = None -> is_Some (D !! a) -> ~ anc (<[e_id e := e]> D) a (e_id e).
Proof.
  intros HD Hf Ha Hx. apply anc_insert_old in Hx; [|done..].
  apply (anc_dom D a _ HD Ha) in Hx as [? ?]. congruence.
Qed.

(** ** Forks *)

(** [a] observes a fork of [c]: two events of [c] with one sequence number. *)
Definition sees_fork D (a c : Z) : Prop :=
  exists x1 x2 e1 e2, anc D a x1 /\ anc D a x2 /\ D !! x1 = Some e1 /\ D !! x2 = Some e2 /\
    x1 <> x2 /\ e_creator e1 = c /\ e_creator e2 = c /\ e_seq e1 = e_seq e2.

(** The creators that have forked in the graph. *)
Definition is_cheater D (c : Z) : Prop :=
  exists x1 x2 e1 e2, D !! x1 = Some e1 /\ D !! x2 = Some e2 /\
    x1 <> x2 /\ e_creator e1 = c /\ e_creator e2 = c /\ e_seq e1 = e_seq e2.

Lemma cheater_mono D D' c : is_cheater D c -> D ⊆ D' -> is_cheater D' c.
Proof.
  intros (x1 & x2 & e1 & e2 & H1 & H2 & ?) Hsub. exists x1, x2, e1, e2.
  split; [by eapply lookup_weaken|]. split; [by eapply lookup_weaken|done].
Qed.

#[export] Instance is_cheater_dec D c : Decision (is_cheater D c).
Proof.
  refine (cast_if (decide (Exists (fun p1 => Exists (fun p2 => p1.1 <> p2.1 /\
    e_creator p1.2 = c /\ e_creator p2.2 = c /\ e_seq p1.2 = e_seq p2.2) (map_to_list D)) (map_to_list D)))).
  - match goal with H : Exists _ _ |- _ => rename H into Hx end.
    apply Exists_exists in Hx as ([x1 e1] & H1%elem_of_map_to_list & Hx).
    apply Exists_exists in Hx as ([x2 e2] & H2%elem_of_map_to_list & Hx).
    exists x1, x2, e1, e2. naive_solver.
  - intros (x1 & x2 & e1 & e2 & H1 & H2 & Hx).
    match goal with H : ~ Exists _ _ |- _ => apply H end. apply Exists_exists. exists (x1, e1).
    split; [by apply elem_of_map_to_list|]. apply Exists_exists. exists (x2, e2).
    split; [by apply elem_of_map_to_list|done].
Defined.

Lemma sees_fork_cheater D a c : sees_fork D a c -> is_cheater D c.
Proof. intros (x1 & x2 & e1 & e2 & _ & _ & ?). by exists x1, x2, e1, e2. Qed.

Lemma sees_fork_mono D a b c : anc D a b -> sees_fork D b c -> sees_fork D a c.
Proof.
  intros Hab (x1 & x2 & e1 & e2 & H1 & H2 & ?). exists x1, x2, e1, e2.
  split; [by etrans|]. split; [by etrans|]. done.
Qed.

(** The events of a creator that has not forked form a chain. *)
Lemma honest_chain D x y ex ey c :
  dag vv epoch D -> ~ is_cheater D c ->
  D !! x = Some ex -> D !! y = Some ey -> e_creator ex = c -> e_creator ey = c ->
  e_seq ex <= e_seq ey -> anc D y x.
Proof.
  intros HD Hh Hx. remember (Z.to_nat (e_seq ey - e_seq ex)) as n eqn:Hn.
  revert y ey Hn. induction n as [|n IH]; intros y ey Hn Hy Hcx Hcy Hle.
  - destruct (decide (x = y)) as [->|Hne]; [constructor|]. exfalso. apply Hh.
    exists x, y, ex, ey. repeat split; try done. lia.
  - pose proof (dag_event_ok _ _ _ HD Hy) as Hok. pose proof (dag_event_ok _ _ _ HD Hx) as Hokx.
    destruct (SelfParent ey) as [sp|] eqn:Hsp.
    + destruct (eo_next _ _ _ Hok _ Hsp) as (Hin & pe & Hpe & Hc & Hs).
      apply (rtc_l _ _ sp); [by exists ey|].
      apply (IH sp pe); [lia|done|done|congruence|lia].
    + apply (eo_first _ _ _ Hok) in Hsp. pose proof (eo_ranges _ _ _ Hokx). lia.
Qed.

End dag_facts.

(** ** A concrete check: the second event of a validator on its first *)

Definition sample_first : BaseEvent := mk_BaseEvent 1 1 1 1 [] 1 11.
Definition sample_second : BaseEvent := mk_BaseEvent 1 2 1 1 [11] 2 12.

Lemma Validate_iff_checked_witness : checked_event solo 1 sample_second [sample_first].
Proof.
  apply (Validate_iff_checked solo 1 sample_second [sample_first]); [|vm_compute; reflexivity].
  apply Forall_singleton. by vm_compute.
Defined.

Example sample_wrong_seq :
  Checkers_Validate solo 1 (SetSeq sample_second 3) [sample_first] = Err ErrWrongSeq.
Proof. vm_compute. reflexivity. Qed.
