(* ===== verification/Wlru.v ===== *)
(** * utils/simplewlru and utils/wlru: the weighted LRU cache

    The cache keeps a doubly-linked list of entries, newest first, and a map
    from keys to list list_elements.  Elements are handles into [list_elements], so that
    the list and the map share them as in the source.  [contents] reads the
    cache back as a list of entries; the operations are proved to implement the
    expected list operations and to keep the index and the list consistent.

    utils/wlru wraps the same operations in a mutex: under the lock they are
    the operations of this file. *)

From S2P Require Import Prelude.
Local Open Scope go_scope.

Section wlru.
Context {K V : Type} `{Countable K}.

Record entry := mk_entry { en_key : K; en_value : V; en_weight : Z }.

Record Cache := mk_Cache {
  maxSize : Z;
  c_weight : Z;
  maxWeight : Z;
  evictList : list nat;
  list_elements : gmap nat entry;
  items : gmap K nat
}.

Definition Cache_New (maxWeight : Z) (maxSize : Z) : outcome Cache :=
  if maxSize <? 0 then Err "must provide a non-negative size"
  else if maxWeight <? 0 then Err "must provide a non-negative weight"
  else Ok (mk_Cache maxSize 0 maxWeight [] ∅ ∅).

(** container/list: [MoveToFront], [PushFront] and [Remove] on the handles. *)
Definition MoveToFront (l : list nat) (h : nat) : list nat := h :: filter (fun x => x <> h) l.
Definition list_Remove (l : list nat) (h : nat) : list nat := filter (fun x => x <> h) l.

Definition Cache_Len (c : Cache) : Z := Z.of_nat (length (evictList c)).
Definition Cache_Weight (c : Cache) : Z := c_weight c.
Definition Cache_Total (c : Cache) : Z * Z := (Cache_Weight c, Cache_Len c).

(** The removed entry is passed to [onEvict]; it is returned here. *)
Definition removeElement (c : Cache) (h : nat) : outcome (entry * Cache) :=
  match list_elements c !! h with
  | None => Panic "nil element"
  | Some kv =>
      Ok (kv, mk_Cache (maxSize c) (u64 (c_weight c - en_weight kv)) (maxWeight c)
                (list_Remove (evictList c) h) (delete h (list_elements c)) (delete (en_key kv) (items c)))
  end.

Definition removeOldest (c : Cache) : outcome (list entry * Cache) :=
  match last (evictList c) with
  | None => Ok ([], c)
  | Some h => let* ' (kv, c) := removeElement c h in Ok ([kv], c)
  end.

(** The loop condition of [normalize]. *)
Definition overfull (c : Cache) : bool := (maxWeight c <? c_weight c) || (maxSize c <? Cache_Len c).

Fixpoint normalize_loop (fuel : nat) (c : Cache) : outcome (list entry * Cache) :=
  if overfull c then
    match fuel with
    | O => Err "out of fuel"
    | S fuel =>
        let* ' (ev, c) := removeOldest c in
        let* ' (ev', c) := normalize_loop fuel c in
        Ok (ev ++ ev', c)
    end
  else Ok ([], c).

(** One turn per entry is enough ([normalize_spec]). *)
Definition normalize (c : Cache) : outcome (list entry * Cache) :=
  normalize_loop (length (evictList c)) c.

Definition Cache_Add (c : Cache) (key : K) (value : V) (weight : Z) : outcome (list entry * Cache) :=
  match items c !! key with
  | Some h =>
      match list_elements c !! h with
      | None => Panic "nil element"
      | Some existing =>
          normalize (mk_Cache (maxSize c) (u64 (u64 (c_weight c - en_weight existing) + weight)) (maxWeight c)
            (MoveToFront (evictList c) h) (<[h := mk_entry key value weight]> (list_elements c)) (items c))
      end
  | None =>
      let h := fresh (dom (list_elements c)) in
      normalize (mk_Cache (maxSize c) (u64 (c_weight c + weight)) (maxWeight c)
        (h :: evictList c) (<[h := mk_entry key value weight]> (list_elements c)) (<[key := h]> (items c)))
  end.

Definition Cache_Get (c : Cache) (key : K) : option V * Cache :=
  match items c !! key with
  | Some h =>
      (en_value <$> list_elements c !! h,
       mk_Cache (maxSize c) (c_weight c) (maxWeight c) (MoveToFront (evictList c) h) (list_elements c) (items c))
  | None => (None, c)
  end.

Definition Cache_Contains (c : Cache) (key : K) : bool := bool_decide (is_Some (items c !! key)).

Definition Cache_Peek (c : Cache) (key : K) : option V :=
  match items c !! key with
  | Some h => en_value <$> list_elements c !! h
  | None => None
  end.

Definition Cache_Remove (c : Cache) (key : K) : outcome (bool * Cache) :=
  match items c !! key with
  | Some h => let* ' (_, c) := removeElement c h in Ok (true, c)
  | None => Ok (false, c)
  end.

Definition RemoveOldest (c : Cache) : outcome (option (K * V) * Cache) :=
  match last (evictList c) with
  | None => Ok (None, c)
  | Some h => let* ' (kv, c) := removeElement c h in Ok (Some (en_key kv, en_value kv), c)
  end.

Definition GetOldest (c : Cache) : outcome (option (K * V)) :=
  match last (evictList c) with
  | None => Ok None
  | Some h => match list_elements c !! h with
              | None => Panic "nil element"
              | Some kv => Ok (Some (en_key kv, en_value kv))
              end
  end.

(** From oldest to newest. *)
Definition Cache_Keys (c : Cache) : list K := omap (fun h => en_key <$> list_elements c !! h) (rev (evictList c)).

Definition Cache_Resize (c : Cache) (maxWeight : Z) (maxSize : Z) : outcome (list entry * Cache) :=
  normalize (mk_Cache maxSize (c_weight c) maxWeight (evictList c) (list_elements c) (items c)).

(** Every entry of [items] is subtracted and deleted, then the list is emptied. *)
Definition Cache_Purge (c : Cache) : Cache :=
  mk_Cache (maxSize c)
    (foldl (fun w kh => u64 (w - default 0 (en_weight <$> list_elements c !! kh.2))) (c_weight c) (map_to_list (items c)))
    (maxWeight c) [] ∅ ∅.

(** utils/wlru: the two compound operations, executed under the lock. *)
Definition ContainsOrAdd (c : Cache) (key : K) (value : V) (weight : Z) : outcome (bool * Cache) :=
  if Cache_Contains c key then Ok (true, c)
  else let* ' (_, c) := Cache_Add c key value weight in Ok (false, c).

Definition PeekOrAdd (c : Cache) (key : K) (value : V) (weight : Z) : outcome (option V * Cache) :=
  match Cache_Peek c key with
  | Some v => Ok (Some v, c)
  | None => let* ' (_, c) := Cache_Add c key value weight in Ok (None, c)
  end.

(** ** The cache as a list of entries, newest first *)

Definition contents (c : Cache) : list entry := omap (fun h => list_elements c !! h) (evictList c).

(** The index and the list agree, and [c_weight] is the sum of the weights at
    its width. *)
Record cache_wf (c : Cache) : Prop := {
  cw_nodup : NoDup (evictList c);
  cw_elems : forall h, h ∈ evictList c <-> is_Some (list_elements c !! h);
  cw_items : forall k h, items c !! k = Some h <-> exists e, list_elements c !! h = Some e /\ en_key e = k;
  cw_weight : c_weight c = u64 (wsum en_weight (contents c));
  cw_weights : Forall (fun e => 0 <= en_weight e) (contents c);
  cw_max : 0 <= maxWeight c /\ 0 <= maxSize c
}.

Lemma contents_cons c h (l : list nat) e :
  list_elements c !! h = Some e -> omap (fun h => list_elements c !! h) (h :: l) = e :: omap (fun h => list_elements c !! h) l.
Proof. intros He. csimpl. by rewrite He. Qed.

Lemma omap_all {A B} (f : A -> option B) l :
  (forall x, x ∈ l -> is_Some (f x)) -> length (omap f l) = length l.
Proof.
  induction l as [|x l IH]; intros Hf; csimpl; [done|]. destruct (Hf x ltac:(left)) as [y ->]. simpl.
  rewrite IH; [done|]. intros z Hz. apply Hf. by right.
Qed.

Lemma contents_length c : cache_wf c -> length (contents c) = length (evictList c).
Proof. intros Hc. apply omap_all. intros h Hh. by apply (cw_elems _ Hc). Qed.

Lemma elem_of_contents c e : cache_wf c -> e ∈ contents c <-> exists h, list_elements c !! h = Some e.
Proof.
  intros Hc. unfold contents. rewrite list_elem_of_omap. split; [naive_solver|].
  intros [h Hh]. exists h. split; [|done]. apply (cw_elems _ Hc). by eexists.
Qed.

(** Handles of distinct entries carry distinct keys. *)
Lemma handle_unique c h1 h2 e1 e2 :
  cache_wf c -> list_elements c !! h1 = Some e1 -> list_elements c !! h2 = Some e2 -> en_key e1 = en_key e2 -> h1 = h2.
Proof.
  intros Hc H1 H2 Hk.
  assert (items c !! en_key e1 = Some h1) as E1 by (apply (cw_items _ Hc); eauto).
  assert (items c !! en_key e1 = Some h2) as E2 by (apply (cw_items _ Hc); eauto). congruence.
Qed.

Lemma filter_contents c h e (l : list nat) :
  cache_wf c -> list_elements c !! h = Some e -> (forall x, x ∈ l -> is_Some (list_elements c !! x)) ->
  omap (fun h => list_elements c !! h) (filter (fun x => x <> h) l) =
  filter (fun x => en_key x <> en_key e) (omap (fun h => list_elements c !! h) l).
Proof.
  intros Hc He. induction l as [|x l IH]; intros Hl; [done|]. destruct (Hl x ltac:(left)) as [ex Hx].
  rewrite filter_cons. csimpl. rewrite Hx. csimpl. rewrite filter_cons.
  assert (x <> h <-> en_key ex <> en_key e) as Hiff.
  { split; intros Hn Heq; apply Hn; [by eapply handle_unique|congruence]. }
  specialize (IH ltac:(intros y Hy; apply Hl; by right)).
  destruct (decide (x <> h)), (decide (en_key ex <> en_key e)); csimpl; rewrite ?Hx, ?IH; tauto || done.
Qed.

Lemma contents_keys_NoDup c : cache_wf c -> NoDup (en_key <$> contents c).
Proof.
  intros Hc. pose proof (cw_nodup _ Hc) as Hnd. unfold contents.
  assert (forall h, h ∈ evictList c -> is_Some (list_elements c !! h)) as Hl by (intros; by apply (cw_elems _ Hc)).
  induction (evictList c) as [|h l IH]; csimpl; [constructor|]. apply NoDup_cons in Hnd as [Hn Hnd].
  destruct (Hl h ltac:(left)) as [e He]. rewrite He. csimpl. constructor.
  - rewrite list_elem_of_fmap. intros (e' & Hk & He'). apply list_elem_of_omap in He' as (h' & Hh' & He').
    apply Hn. by rewrite (handle_unique c h h' e e' Hc He He' Hk).
  - apply IH; [done|]. intros x Hx. apply Hl. by right.
Qed.

(** ** Operations on the list *)

Lemma key_unique c e1 e2 :
  cache_wf c -> e1 ∈ contents c -> e2 ∈ contents c -> en_key e1 = en_key e2 -> e1 = e2.
Proof.
  intros Hc (h1 & H1)%elem_of_contents (h2 & H2)%elem_of_contents Hk; [|done..].
  pose proof (handle_unique c h1 h2 e1 e2 Hc H1 H2 Hk). congruence.
Qed.

Lemma snoc_inv {A} (l : list A) : (0 < length l)%nat -> exists l' x, l = l' ++ [x].
Proof. destruct l as [|x l _] using rev_ind; simpl; [lia|eauto]. Qed.

Lemma u64_add_l a b : u64 (u64 a + b) = u64 (a + b).
Proof. unfold u64. by rewrite Zplus_mod_idemp_l. Qed.

Lemma u64_sub_l a b : u64 (u64 a - b) = u64 (a - b).
Proof. unfold u64. by rewrite Zminus_mod_idemp_l. Qed.

Lemma contents_perm c e :
  cache_wf c -> e ∈ contents c -> contents c ≡ₚ e :: filter (fun x => en_key x <> en_key e) (contents c).
Proof.
  intros Hc He. pose proof (contents_keys_NoDup c Hc) as Hnd. revert He Hnd. generalize (contents c) as l.
  induction l as [|x l IH]; intros He Hnd; [by apply not_elem_of_nil in He|].
  csimpl in Hnd. apply NoDup_cons in Hnd as [Hn Hnd]. rewrite filter_cons.
  apply elem_of_cons in He as [->|He].
  - rewrite decide_False by tauto. f_equiv. symmetry. apply reflexive_eq, list_filter_all.
    apply Forall_forall. intros y Hy Heq. apply Hn. rewrite <- Heq. by apply list_elem_of_fmap_2.
  - rewrite decide_True.
    + rewrite Permutation_swap. f_equiv. by apply IH.
    + intros Heq. apply Hn. rewrite Heq. by apply list_elem_of_fmap_2.
Qed.

(** Weight and length bound a list of entries. *)
Definition too_big (mw ms : Z) (l : list entry) : bool :=
  (mw <? u64 (wsum en_weight l)) || (ms <? Z.of_nat (length l)).

Lemma overfull_contents c : cache_wf c -> overfull c = too_big (maxWeight c) (maxSize c) (contents c).
Proof.
  intros Hc. unfold overfull, too_big, Cache_Len. by rewrite (cw_weight _ Hc), (contents_length _ Hc).
Qed.

Lemma removeElement_spec c h e :
  cache_wf c -> list_elements c !! h = Some e ->
  exists c', removeElement c h = Ok (e, c') /\ cache_wf c' /\
    contents c' = filter (fun x => en_key x <> en_key e) (contents c) /\
    maxWeight c' = maxWeight c /\ maxSize c' = maxSize c /\ evictList c' = list_Remove (evictList c) h.
Proof.
  intros Hc He. unfold removeElement. rewrite He. eexists. split; [reflexivity|].
  assert (forall l : list nat, h ∉ l -> omap (fun x => delete h (list_elements c) !! x) l = omap (fun x => list_elements c !! x) l) as Hom.
  { induction l as [|x l IH]; intros Hn; [done|]. csimpl. rewrite IH by set_solver.
    rewrite lookup_delete_ne by set_solver. done. }
  assert (h ∉ filter (fun x => x <> h) (evictList c)) as Hnf by (rewrite list_elem_of_filter; tauto).
  assert (contents (mk_Cache (maxSize c) (u64 (c_weight c - en_weight e)) (maxWeight c)
    (list_Remove (evictList c) h) (delete h (list_elements c)) (delete (en_key e) (items c))) =
    filter (fun x => en_key x <> en_key e) (contents c)) as Hcont.
  { unfold contents, list_Remove. simpl. rewrite Hom by done. apply filter_contents; [done..|].
    intros x Hx. by apply (cw_elems _ Hc). }
  split; [|done]. split.
  - apply NoDup_filter, Hc.
  - intros x. simpl. unfold list_Remove. rewrite list_elem_of_filter, lookup_delete_is_Some, (cw_elems _ Hc). naive_solver.
  - intros k x. simpl. rewrite lookup_delete_Some, (cw_items _ Hc). setoid_rewrite lookup_delete_Some. split.
    + intros (Hk & ex & Hx & Hkx). exists ex. split; [|done]. split; [|done]. intros <-. congruence.
    + intros (ex & (Hne & Hx) & Hkx). split; [|eauto]. intros Heq. apply Hne.
      apply (handle_unique c h x e ex); congruence.
  - rewrite Hcont. simpl. rewrite (cw_weight _ Hc), u64_sub_l.
    rewrite (wsum_perm en_weight _ _ (contents_perm c e Hc ltac:(apply elem_of_contents; eauto))) at 1.
    simpl. f_equal. lia.
  - rewrite Hcont. apply Forall_filter_1, Hc.
  - apply Hc.
Qed.

Lemma removeOldest_spec c l e :
  cache_wf c -> contents c = l ++ [e] ->
  exists c', removeOldest c = Ok ([e], c') /\ cache_wf c' /\ contents c' = l /\
    maxWeight c' = maxWeight c /\ maxSize c' = maxSize c /\ length (evictList c') = length l.
Proof.
  intros Hc Hl. pose proof (contents_length _ Hc) as Hlen. rewrite Hl, length_app in Hlen. simpl in Hlen.
  destruct (snoc_inv (evictList c) ltac:(lia)) as (hs & h & Hev).
  assert (is_Some (list_elements c !! h)) as [e' He'] by (apply (cw_elems _ Hc); rewrite Hev; set_solver).
  assert (contents c = omap (fun x => list_elements c !! x) hs ++ [e']) as Hc2.
  { unfold contents. rewrite Hev, omap_app. csimpl. by rewrite He'. }
  rewrite Hl in Hc2. apply app_inj_2 in Hc2 as [Hl2 [= <-]]; [|done].
  unfold removeOldest. rewrite Hev, last_snoc.
  destruct (removeElement_spec c h e Hc He') as (c' & -> & Hwf & Hcont & Hm1 & Hm2 & Hev').
  simpl. exists c'. split; [done|]. split; [done|].
  assert (contents c' = l) as Hcl.
  { rewrite Hcont, Hl. pose proof (contents_keys_NoDup c Hc) as Hnd. rewrite Hl, fmap_app in Hnd.
    apply NoDup_app in Hnd as (_ & Hd & _). rewrite filter_app, filter_cons, decide_False by tauto.
    rewrite app_nil_r. apply list_filter_all. apply Forall_forall. intros x Hx Heq.
    apply (Hd (en_key x)); [by apply list_elem_of_fmap_2|]. rewrite Heq. csimpl. left. }
  split; [done|]. split; [done|]. split; [done|]. by rewrite <- (contents_length _ Hwf), Hcl.
Qed.

Lemma too_big_nil mw ms : 0 <= mw -> 0 <= ms -> too_big mw ms [] = false.
Proof. intros Hm Hs. unfold too_big. simpl. apply orb_false_iff. split; apply Z.ltb_ge; [|lia]. done. Qed.

Lemma normalize_loop_spec fuel : forall c,
  cache_wf c -> (length (contents c) <= fuel)%nat ->
  exists ev c', normalize_loop fuel c = Ok (ev, c') /\ cache_wf c' /\ contents c = contents c' ++ rev ev /\
    maxWeight c' = maxWeight c /\ maxSize c' = maxSize c /\
    too_big (maxWeight c) (maxSize c) (contents c') = false /\
    (forall k, (length (contents c') < k <= length (contents c))%nat ->
       too_big (maxWeight c) (maxSize c) (take k (contents c)) = true).
Proof.
  induction fuel as [|fuel IH]; intros c Hc Hlen; simpl; rewrite (overfull_contents c Hc).
  - destruct (contents c) as [|x l] eqn:Hl; [|simpl in Hlen; lia].
    rewrite too_big_nil by apply Hc. exists [], c. rewrite Hl. splits; try done; [apply too_big_nil; apply Hc|].
    intros k. simpl. lia.
  - destruct (too_big _ _ (contents c)) eqn:E.
    + destruct (contents c) as [|e l _] eqn:Hl using rev_ind; [by rewrite too_big_nil in E by apply Hc|].
      destruct (removeOldest_spec c l e Hc Hl) as (c1 & -> & Hc1 & Hl1 & Hm1 & Hm2 & _). simpl.
      rewrite length_app in Hlen. simpl in Hlen.
      destruct (IH c1 Hc1) as (ev & c' & -> & Hc' & Happ & Hm1' & Hm2' & Hfit & Hmax); [rewrite Hl1; lia|].
      simpl. exists (e :: ev), c'. rewrite Hm1, Hm2, Hl1 in *. split; [done|]. split; [done|].
      split; [rewrite Happ; simpl; by rewrite <- app_assoc|]. split; [done|]. split; [done|]. split; [done|].
      intros k Hk. rewrite length_app in Hk. simpl in Hk.
      destruct (decide (k = length l + 1)%nat) as [->|Hne].
      * rewrite take_ge by (rewrite length_app; simpl; lia). done.
      * rewrite take_app_le by lia. apply Hmax. lia.
    + exists [], c. simpl. rewrite app_nil_r. splits; try done. intros k. lia.
Qed.

Lemma normalize_spec c :
  cache_wf c ->
  exists ev c', normalize c = Ok (ev, c') /\ cache_wf c' /\ contents c = contents c' ++ rev ev /\
    maxWeight c' = maxWeight c /\ maxSize c' = maxSize c /\
    too_big (maxWeight c) (maxSize c) (contents c') = false /\
    (forall k, (length (contents c') < k <= length (contents c))%nat ->
       too_big (maxWeight c) (maxSize c) (take k (contents c)) = true).
Proof. intros Hc. apply normalize_loop_spec; [done|]. by rewrite (contents_length _ Hc). Qed.

Lemma omap_insert_fresh (m : gmap nat entry) h e (l : list nat) :
  h ∉ l -> omap (fun x => <[h := e]> m !! x) l = omap (fun x => m !! x) l.
Proof.
  induction l as [|x l IH]; intros Hn; [done|]. csimpl. rewrite IH by set_solver.
  rewrite lookup_insert_ne by set_solver. done.
Qed.

(** Moving an entry to the front, possibly with a new value and weight. *)
Lemma move_front_wf c h e v w :
  cache_wf c -> list_elements c !! h = Some e -> 0 <= w ->
  let c' := mk_Cache (maxSize c) (u64 (u64 (c_weight c - en_weight e) + w)) (maxWeight c)
              (MoveToFront (evictList c) h) (<[h := mk_entry (en_key e) v w]> (list_elements c)) (items c) in
  cache_wf c' /\ contents c' = mk_entry (en_key e) v w :: filter (fun x => en_key x <> en_key e) (contents c).
Proof.
  intros Hc He Hw c'.
  assert (h ∉ filter (fun x => x <> h) (evictList c)) as Hnf by (rewrite list_elem_of_filter; tauto).
  assert (contents c' = mk_entry (en_key e) v w :: filter (fun x => en_key x <> en_key e) (contents c)) as Hcont.
  { unfold contents, c', MoveToFront. csimpl. rewrite lookup_insert_eq, omap_insert_fresh by done. f_equal.
    apply filter_contents; [done..|]. intros x Hx. by apply (cw_elems _ Hc). }
  split; [|done]. split; simpl.
  - unfold MoveToFront. constructor; [done|]. apply NoDup_filter, Hc.
  - intros x. unfold MoveToFront. rewrite elem_of_cons, list_elem_of_filter, lookup_insert_is_Some', (cw_elems _ Hc).
    destruct (decide (x = h)); naive_solver.
  - intros k x. rewrite (cw_items _ Hc). destruct (decide (x = h)) as [->|Hne].
    + rewrite lookup_insert_eq, He. naive_solver.
    + by rewrite lookup_insert_ne by done.
  - rewrite Hcont, (cw_weight _ Hc), u64_sub_l, u64_add_l.
    rewrite (wsum_perm en_weight _ _ (contents_perm c e Hc ltac:(apply elem_of_contents; eauto))) at 1.
    simpl. f_equal. lia.
  - rewrite Hcont. constructor; [done|]. apply Forall_filter_1, Hc.
  - apply Hc.
Qed.

Lemma push_front_wf c k v w :
  cache_wf c -> items c !! k = None -> 0 <= w ->
  let h := fresh (dom (list_elements c)) in
  let c' := mk_Cache (maxSize c) (u64 (c_weight c + w)) (maxWeight c)
              (h :: evictList c) (<[h := mk_entry k v w]> (list_elements c)) (<[k := h]> (items c)) in
  cache_wf c' /\ contents c' = mk_entry k v w :: filter (fun x => en_key x <> k) (contents c).
Proof.
  intros Hc Hk Hw h c'.
  assert (list_elements c !! h = None) as Hh by (apply not_elem_of_dom, is_fresh).
  assert (h ∉ evictList c) as Hn by (rewrite (cw_elems _ Hc), Hh; by intros [? ?]).
  assert (Forall (fun x => en_key x <> k) (contents c)) as Hks.
  { apply Forall_forall. intros x (hx & Hx)%elem_of_contents Heq; [|done].
    assert (items c !! k = Some hx) by (apply (cw_items _ Hc); eauto). congruence. }
  assert (contents c' = mk_entry k v w :: filter (fun x => en_key x <> k) (contents c)) as Hcont.
  { unfold contents, c'. csimpl. rewrite lookup_insert_eq, omap_insert_fresh by done. f_equal.
    symmetry. by apply list_filter_all. }
  split; [|done]. split; simpl.
  - constructor; [done|apply Hc].
  - intros x. rewrite elem_of_cons, lookup_insert_is_Some', (cw_elems _ Hc). naive_solver.
  - intros k' x. rewrite lookup_insert_Some. setoid_rewrite lookup_insert_Some. rewrite (cw_items _ Hc). split.
    + intros [[<- <-]|(Hne & ex & Hx & Hkx)]; [exists (mk_entry k v w); auto|].
      exists ex. split; [|done]. right. split; [congruence|done].
    + intros (ex & [[<- <-]|(Hne & Hx)] & Hkx); [by left|]. right. split; [|eauto].
      intros ->. assert (items c !! en_key ex = Some x) by (apply (cw_items _ Hc); eauto). congruence.
  - rewrite Hcont, (cw_weight _ Hc), u64_add_l. simpl. rewrite list_filter_all by done. f_equal. lia.
  - rewrite Hcont. constructor; [done|]. apply Forall_filter_1, Hc.
  - apply Hc.
Qed.

Lemma Cache_Add_spec c k v w :
  cache_wf c -> 0 <= w ->
  exists ev c', Cache_Add c k v w = Ok (ev, c') /\ cache_wf c' /\
    maxWeight c' = maxWeight c /\ maxSize c' = maxSize c /\
    let l := mk_entry k v w :: filter (fun x => en_key x <> k) (contents c) in
    l = contents c' ++ rev ev /\ too_big (maxWeight c) (maxSize c) (contents c') = false /\
    forall n, (length (contents c') < n <= length l)%nat -> too_big (maxWeight c) (maxSize c) (take n l) = true.
Proof.
  intros Hc Hw. unfold Cache_Add. destruct (items c !! k) as [h|] eqn:Hk.
  - apply (cw_items _ Hc) in Hk as (e & He & <-). rewrite He.
    destruct (move_front_wf c h e v w Hc He Hw) as [Hwf Hcont].
    destruct (normalize_spec _ Hwf) as (ev & c' & Hn & Hwf' & Happ & Hm1 & Hm2 & Hfit & Hmax).
    rewrite Hcont in *. exists ev, c'. simpl in *. done.
  - destruct (push_front_wf c k v w Hc Hk Hw) as [Hwf Hcont].
    destruct (normalize_spec _ Hwf) as (ev & c' & Hn & Hwf' & Happ & Hm1 & Hm2 & Hfit & Hmax).
    rewrite Hcont in *. exists ev, c'. simpl in *. done.
Qed.

(** Removal by key, the oldest entry, the keys. *)
Lemma Cache_Remove_spec c k :
  cache_wf c ->
  exists b c', Cache_Remove c k = Ok (b, c') /\ cache_wf c' /\ contents c' = filter (fun x => en_key x <> k) (contents c) /\
    maxWeight c' = maxWeight c /\ maxSize c' = maxSize c.
Proof.
  intros Hc. unfold Cache_Remove. destruct (items c !! k) as [h|] eqn:Hk.
  - apply (cw_items _ Hc) in Hk as (e & He & <-).
    destruct (removeElement_spec c h e Hc He) as (c' & -> & Hwf & Hcont & Hm1 & Hm2 & _). simpl. eauto 10.
  - exists false, c. splits; try done. symmetry. apply list_filter_all, Forall_forall.
    intros x (h & Hx)%elem_of_contents Heq; [|done].
    assert (items c !! k = Some h) by (apply (cw_items _ Hc); eauto). congruence.
Qed.

Lemma RemoveOldest_spec c :
  cache_wf c ->
  (contents c = [] /\ RemoveOldest c = Ok (None, c)) \/
  (exists l e c', contents c = l ++ [e] /\ RemoveOldest c = Ok (Some (en_key e, en_value e), c') /\ cache_wf c' /\
     contents c' = l /\ maxWeight c' = maxWeight c /\ maxSize c' = maxSize c).
Proof.
  intros Hc. destruct (contents c) as [|e l _] eqn:Hl using rev_ind.
  - left. split; [done|]. pose proof (contents_length _ Hc) as Hlen. rewrite Hl in Hlen.
    unfold RemoveOldest. by destruct (evictList c).
  - right. destruct (removeOldest_spec c l e Hc Hl) as (c' & Hr & Hwf & Hcont & Hm1 & Hm2 & _).
    exists l, e, c'. split; [done|]. split; [|done]. revert Hr. unfold removeOldest, RemoveOldest.
    destruct (last (evictList c)); [|done]. destruct (removeElement c n) as [[kv c1]| |]; simpl; by intros [= -> ->].
Qed.

Lemma Keys_contents c : Cache_Keys c = rev (en_key <$> contents c).
Proof.
  unfold Cache_Keys, contents. induction (evictList c) as [|h l IH]; [done|]. csimpl. rewrite omap_app, IH. csimpl.
  destruct (list_elements c !! h); csimpl; [done|]. by rewrite app_nil_r.
Qed.

Lemma Len_contents c : cache_wf c -> Cache_Len c = Z.of_nat (length (contents c)).
Proof. intros Hc. unfold Cache_Len. by rewrite contents_length. Qed.

(** ** Lookups *)

Lemma Peek_contents c k v :
  cache_wf c -> Cache_Peek c k = Some v <-> exists e, e ∈ contents c /\ en_key e = k /\ en_value e = v.
Proof.
  intros Hc. unfold Cache_Peek. split.
  - destruct (items c !! k) as [h|] eqn:Hk; [|done]. apply (cw_items _ Hc) in Hk as (e & He & <-).
    rewrite He. simpl. intros [= <-]. exists e. split; [|done]. apply elem_of_contents; eauto.
  - intros (e & (h & He)%elem_of_contents & <- & <-); [|done].
    assert (items c !! en_key e = Some h) as -> by (apply (cw_items _ Hc); eauto). by rewrite He.
Qed.

Lemma Get_spec c k :
  cache_wf c ->
  (Cache_Get c k).1 = Cache_Peek c k /\ cache_wf (Cache_Get c k).2 /\
  contents (Cache_Get c k).2 ≡ₚ contents c /\
  forall k', Cache_Peek (Cache_Get c k).2 k' = Cache_Peek c k'.
Proof.
  intros Hc. unfold Cache_Get, Cache_Peek. destruct (items c !! k) as [h|] eqn:Hk; simpl; [|done].
  apply (cw_items _ Hc) in Hk as (e & He & <-).
  assert (0 <= en_weight e) as Hw.
  { apply (proj1 (Forall_forall _ _) (cw_weights _ Hc)), elem_of_contents; eauto. }
  destruct (move_front_wf c h e (en_value e) (en_weight e) Hc He Hw) as [Hwf Hcont].
  assert (mk_entry (en_key e) (en_value e) (en_weight e) = e) as Heta by (by destruct e).
  rewrite Heta, (insert_id _ _ _ He) in *.
  assert (u64 (u64 (c_weight c - en_weight e) + en_weight e) = c_weight c) as Hcw.
  { rewrite u64_add_l, Z.sub_add, (cw_weight _ Hc). unfold u64. by rewrite Zmod_mod. }
  rewrite Hcw in *. split; [by rewrite He|]. split; [done|]. split; [|done].
  rewrite Hcont. symmetry. apply contents_perm; [done|]. apply elem_of_contents; eauto.
Qed.

Lemma Add_Peek c k v w ev c' k' v' :
  cache_wf c -> 0 <= w -> Cache_Add c k v w = Ok (ev, c') -> Cache_Peek c' k' = Some v' ->
  (k' = k /\ v' = v) \/ (k' <> k /\ Cache_Peek c k' = Some v').
Proof.
  intros Hc Hw Ha Hp. destruct (Cache_Add_spec c k v w Hc Hw) as (ev2 & c2 & Ha2 & Hc2 & _ & _ & Hl & _).
  rewrite Ha in Ha2. injection Ha2 as <- <-.
  apply Peek_contents in Hp as (e & He & Hk & Hv); [|done].
  assert (e ∈ mk_entry k v w :: filter (fun x => en_key x <> k) (contents c)) as Hin.
  { rewrite Hl. apply elem_of_app. by left. }
  apply elem_of_cons in Hin as [->|[Hne Hin]%list_elem_of_filter]; [by left|right].
  split; [congruence|]. apply Peek_contents; eauto.
Qed.

Lemma foldl_sub {A} (f : A -> Z) l : forall a,
  foldl (fun w x => u64 (w - f x)) (u64 a) l = u64 (a - wsum f l).
Proof.
  induction l as [|x l IH]; intros a; simpl; [f_equal; lia|]. rewrite u64_sub_l, IH. f_equal. lia.
Qed.

Lemma items_handles c : cache_wf c -> (map_to_list (items c)).*2 ≡ₚ evictList c.
Proof.
  intros Hc. apply NoDup_Permutation; [|apply Hc|].
  - apply NoDup_fmap_2_strong; [|apply NoDup_map_to_list].
    intros [k1 h1] [k2 h2] H1%elem_of_map_to_list H2%elem_of_map_to_list. simpl. intros <-.
    apply (cw_items _ Hc) in H1 as (e1 & He1 & <-), H2 as (e2 & He2 & <-). congruence.
  - intros h. rewrite (cw_elems _ Hc), list_elem_of_fmap. split.
    + intros ([k h'] & -> & Hin%elem_of_map_to_list). apply (cw_items _ Hc) in Hin as (e & He & _). by eexists.
    + intros [e He]. exists (en_key e, h). split; [done|]. apply elem_of_map_to_list, (cw_items _ Hc). eauto.
Qed.

Lemma contents_weight c (l : list nat) :
  (forall h, h ∈ l -> is_Some (list_elements c !! h)) ->
  wsum en_weight (omap (fun h => list_elements c !! h) l) = wsum (fun h => default 0 (en_weight <$> list_elements c !! h)) l.
Proof.
  induction l as [|h l IH]; intros Hl; [done|]. csimpl. destruct (Hl h ltac:(left)) as [e He]. rewrite He. simpl.
  rewrite IH; [done|]. intros x Hx. apply Hl. by right.
Qed.

Lemma Purge_wf c : cache_wf c -> cache_wf (Cache_Purge c) /\ contents (Cache_Purge c) = [].
Proof.
  intros Hc. split; [|done]. split; simpl; try (by intros *; rewrite ?lookup_empty; split; [|intros [? ?]]).
  - constructor.
  - intros h. rewrite lookup_empty. split; [by intros ?%not_elem_of_nil|by intros [? ?]].
  - intros k h. rewrite lookup_empty. split; [done|]. intros (e & He & _). by rewrite lookup_empty in He.
  - rewrite (cw_weight _ Hc), foldl_sub. f_equal.
    rewrite <- (wsum_fmap snd (fun h => default 0 (en_weight <$> list_elements c !! h)) (map_to_list (items c))).
    rewrite (items_handles c Hc). unfold contents. rewrite contents_weight; [simpl; lia|].
    intros h Hh. by apply (cw_elems _ Hc).
  - constructor.
  - apply Hc.
Qed.
End wlru.
Arguments entry : clear implicits.
Arguments Cache K V {_ _}.

(** ** The interface its clients use *)

(** A lossy map: what is found was put there last under that key. *)
Class LossyCache (C K V : Type) := {
  cache_get : C -> K -> option V * C;
  cache_add : C -> K -> V -> Z -> C;
  cache_purge : C -> C
}.

Class LossyCacheLaws (C K V : Type) `{!LossyCache C K V} := {
  cache_ok : C -> Prop;
  cache_peek : C -> K -> option V;
  cache_get_fst c k : cache_ok c -> (cache_get c k).1 = cache_peek c k;
  cache_get_ok c k : cache_ok c -> cache_ok (cache_get c k).2;
  cache_get_peek c k k' : cache_ok c -> cache_peek (cache_get c k).2 k' = cache_peek c k';
  cache_add_ok c k v w : cache_ok c -> 0 <= w -> cache_ok (cache_add c k v w);
  cache_add_peek c k v w k' v' : cache_ok c -> 0 <= w -> cache_peek (cache_add c k v w) k' = Some v' ->
    (k' = k /\ v' = v) \/ (k' <> k /\ cache_peek c k' = Some v');
  cache_purge_ok c : cache_ok c -> cache_ok (cache_purge c);
  cache_purge_peek c k : cache_ok c -> cache_peek (cache_purge c) k = None
}.

#[export] Instance wlru_LossyCache {K V} `{Countable K} : LossyCache (Cache K V) K V := {
  cache_get := Cache_Get;
  cache_add c k v w := match Cache_Add c k v w with Ok (_, c') => c' | _ => c end;
  cache_purge := Cache_Purge
}.

#[export] Instance wlru_LossyCacheLaws {K V} `{Countable K} : LossyCacheLaws (Cache K V) K V.
Proof.
  refine {| cache_ok := cache_wf; cache_peek := Cache_Peek |}; simpl.
  - intros c k Hc. by apply Get_spec.
  - intros c k Hc. by apply Get_spec.
  - intros c k k' Hc. by apply Get_spec.
  - intros c k v w Hc Hw. by destruct (Cache_Add_spec c k v w Hc Hw) as (ev & c' & -> & Hc' & _).
  - intros c k v w k' v' Hc Hw. destruct (Cache_Add_spec c k v w Hc Hw) as (ev & c' & Ha & Hc' & _). rewrite Ha.
    by apply (Add_Peek c k v w ev c').
  - intros c Hc. by apply Purge_wf.
  - intros c k Hc. done.
Defined.

Lemma empty_cache_wf {K V} `{Countable K} (mw ms : Z) :
  0 <= mw -> 0 <= ms -> cache_wf (mk_Cache ms 0 mw [] ∅ ∅ : Cache K V).
Proof.
  intros Hw Hs. split; simpl; try done; try constructor.
  - by intros ?%not_elem_of_nil.
  - by intros [? ?].
  - done.
  - intros (e & He & _). by rewrite lookup_empty in He.
Qed.

(** ** Any sequence of operations *)

Inductive cache_op (K V : Type) :=
| OpAdd (k : K) (v : V) (w : Z)
| OpContainsOrAdd (k : K) (v : V) (w : Z)
| OpPeekOrAdd (k : K) (v : V) (w : Z)
| OpGet (k : K)
| OpRemove (k : K)
| OpRemoveOldest
| OpResize (maxWeight maxSize : Z)
| OpPurge.
Arguments OpAdd {K V}.
Arguments OpContainsOrAdd {K V}.
Arguments OpPeekOrAdd {K V}.
Arguments OpGet {K V}.
Arguments OpRemove {K V}.
Arguments OpRemoveOldest {K V}.
Arguments OpResize {K V}.
Arguments OpPurge {K V}.

Definition cache_do {K V} `{Countable K} (c : Cache K V) (op : cache_op K V) : outcome (Cache K V) :=
  match op with
  | OpAdd k v w => let* ' (_, c) := Cache_Add c k v w in Ok c
  | OpContainsOrAdd k v w => let* ' (_, c) := ContainsOrAdd c k v w in Ok c
  | OpPeekOrAdd k v w => let* ' (_, c) := PeekOrAdd c k v w in Ok c
  | OpGet k => Ok (Cache_Get c k).2
  | OpRemove k => let* ' (_, c) := Cache_Remove c k in Ok c
  | OpRemoveOldest => let* ' (_, c) := RemoveOldest c in Ok c
  | OpResize mw ms => let* ' (_, c) := Cache_Resize c mw ms in Ok c
  | OpPurge => Ok (Cache_Purge c)
  end.

(** Weights are unsigned; [Resize] is not given a negative size. *)
Definition cache_op_ok {K V} (op : cache_op K V) : Prop :=
  match op with
  | OpAdd _ _ w | OpContainsOrAdd _ _ w | OpPeekOrAdd _ _ w => 0 <= w
  | OpResize mw ms => 0 <= mw /\ 0 <= ms
  | _ => True
  end.

Definition cache_fits {K V} `{Countable K} (c : Cache K V) : Prop :=
  cache_wf c /\ too_big (maxWeight c) (maxSize c) (contents c) = false.

Section cache_ops.
Context {K V : Type} `{Countable K}.
Implicit Types (c : Cache K V) (l : list (entry K V)).

Lemma too_big_u64 mw ms l : too_big mw ms l = false <-> u64 (wsum en_weight l) <= mw /\ Z.of_nat (length l) <= ms.
Proof. unfold too_big. rewrite orb_false_iff, !Z.ltb_ge. done. Qed.

Lemma Add_fits c k v w : cache_wf c -> 0 <= w -> exists ev c', Cache_Add c k v w = Ok (ev, c') /\ cache_fits c'.
Proof.
  intros Hc Hw. destruct (Cache_Add_spec c k v w Hc Hw) as (ev & c' & Ha & Hwf & Hm1 & Hm2 & _ & Hfit & _). exists ev, c'.
  split; [done|]. split; [done|]. by rewrite Hm1, Hm2.
Qed.

Lemma Purge_fits c : cache_wf c -> cache_fits (Cache_Purge c).
Proof. intros Hc. destruct (Purge_wf c Hc) as [Hwf Hcont]. split; [done|]. rewrite Hcont. apply too_big_nil; apply Hwf. Qed.

Lemma cache_do_wf c op : cache_wf c -> cache_op_ok op -> exists c', cache_do c op = Ok c' /\ cache_wf c'.
Proof.
  intros Hc Hop. destruct op as [k v w|k v w|k v w|k|k| |mw ms|]; simpl in *.
  - destruct (Add_fits c k v w Hc Hop) as (ev & c' & -> & [Hwf _]). by exists c'.
  - unfold ContainsOrAdd. destruct (Cache_Contains c k); [by exists c|].
    destruct (Add_fits c k v w Hc Hop) as (ev & c' & -> & [Hwf _]). by exists c'.
  - unfold PeekOrAdd. destruct (Cache_Peek c k); [by exists c|].
    destruct (Add_fits c k v w Hc Hop) as (ev & c' & -> & [Hwf _]). by exists c'.
  - eexists. split; [done|]. by apply Get_spec.
  - destruct (Cache_Remove_spec c k Hc) as (b & c' & -> & Hwf & _). by exists c'.
  - destruct (RemoveOldest_spec c Hc) as [[_ ->]|(l & e & c' & _ & -> & Hwf & _)]; [by exists c|by exists c'].
  - unfold Cache_Resize. destruct (normalize_spec (mk_Cache ms (c_weight c) mw (evictList c) (list_elements c) (items c))) as (ev & c' & -> & Hwf & _).
    { destruct Hc. by split. }
    by exists c'.
  - eexists. split; [done|]. by apply Purge_wf.
Qed.

End cache_ops.

(** ** Properties *)


Definition sample_cache_ops : list (cache_op Z Z) :=
  [OpAdd 1 10 3; OpAdd 2 20 4; OpGet 1; OpPeekOrAdd 3 30 5; OpResize 8 1; OpRemove 7; OpContainsOrAdd 4 40 1; OpRemoveOldest; OpPurge; OpAdd 5 50 2].


(** [Add] puts the entry in front (replacing the entry of that key) and
    evicts from the back exactly as many entries as needed: what is left fits,
    and keeping one entry more would not; it never panics and always ends, and
    the index stays consistent with the list. *)
Theorem Cache_Add_evicts_least {K V : Type} `{Countable K} (c : Cache K V) (k : K) (v : V) (w : Z) :
  cache_wf c -> 0 <= w ->
  exists ev c', Cache_Add c k v w = Ok (ev, c') /\ cache_wf c' /\
    let l := mk_entry k v w :: filter (fun x => en_key x <> k) (contents c) in
    l = contents c' ++ rev ev /\
    too_big (maxWeight c) (maxSize c) (contents c') = false /\
    (forall n, (length (contents c') < n <= length l)%nat -> too_big (maxWeight c) (maxSize c) (take n l) = true).
Proof.
  intros Hc Hw. destruct (Cache_Add_spec c k v w Hc Hw) as (ev & c' & Ha & Hwf & _ & _ & Hl). by exists ev, c'.
Qed.

Definition small_cache : Cache Z Z := mk_Cache 2 0 10 [] ∅ ∅.
Definition small_add (c : Cache Z Z) (k : Z) : Cache Z Z := cache_add c k (k * k) 4.

Lemma small_wf : cache_wf small_cache.
Proof. by apply empty_cache_wf. Qed.

Lemma Cache_Add_evicts_least_witness :
  exists ev c', Cache_Add small_cache 3 9 4 = Ok (ev, c') /\ cache_wf c' /\
    let l := mk_entry 3 9 4 :: filter (fun x => en_key x <> 3) (contents small_cache) in
    l = contents c' ++ rev ev /\
    too_big 10 2 (contents c') = false /\
    (forall n, (length (contents c') < n <= length l)%nat -> too_big 10 2 (take n l) = true).
Proof. apply (Cache_Add_evicts_least small_cache 3 9 4 small_wf). lia. Defined.

Example small_cache_run :
  Cache_Keys (small_add (Cache_Get (small_add (small_add small_cache 1) 2) 1).2 3) = [1; 3].
Proof. vm_compute. reflexivity. Qed.

(** [Resize] accepts a negative size, which [New] rejects; its loop then
    never ends, whatever the number of turns: the empty list stays longer than
    the size. *)
Theorem Resize_negative_diverges {K V : Type} `{Countable K} (c : Cache K V) (mw ms : Z) (fuel : nat) :
  cache_wf c -> ms < 0 ->
  normalize_loop fuel (mk_Cache ms (c_weight c) mw (evictList c) (list_elements c) (items c)) = Err "out of fuel".
Proof.
  intros Hc Hms.
  assert (forall c' : Cache K V, maxSize c' < 0 -> (forall h, h ∈ evictList c' -> is_Some (list_elements c' !! h)) ->
    NoDup (evictList c') -> normalize_loop fuel c' = Err "out of fuel") as Hgen.
  { induction fuel as [|fuel IH]; intros c' Hs Hel Hnd; simpl;
      (assert (overfull c' = true) as -> by (unfold overfull, Cache_Len; apply orb_true_iff; right; apply Z.ltb_lt; lia));
      [done|].
    unfold removeOldest. destruct (last (evictList c')) as [h|] eqn:Hh; simpl.
    - apply last_Some in Hh as [l Hl]. destruct (Hel h) as [e He]; [rewrite Hl; set_solver|].
      unfold removeElement. rewrite He. simpl. rewrite IH; [done|done| |by apply NoDup_filter].
      intros x [Hne Hx]%list_elem_of_filter. simpl. rewrite lookup_delete_ne by done. by apply Hel.
    - by rewrite IH. }
  apply Hgen; [done| |apply Hc]. intros h Hh. by apply (cw_elems _ Hc).
Qed.

Lemma Resize_negative_diverges_witness :
  normalize_loop 100 (mk_Cache (-1) 0 10 [] ∅ ∅ : Cache Z Z) = Err "out of fuel".
Proof. apply (Resize_negative_diverges small_cache 10 (-1) 100 small_wf). lia. Defined.
