(* ===== verification/WlruSync.v ===== *)
(** * utils/wlru: the thread-safe weighted LRU cache

    Every method of [wlru.Cache] takes the mutex of the cache, for reading or
    for writing, around the method of [simplewlru.Cache] (Wlru.v).  A method is
    given here as its mode and its body; goroutines call them at any time, read
    the cache when they get the lock and write it back when they leave it.  The
    calls take effect one after the other ([wlru_linearizable]), the compound
    [ContainsOrAdd] and [PeekOrAdd] included. *)

From S2P Require Import Prelude Wlru.
Local Open Scope go_scope.

Section wlru_sync.
Context {K V : Type} `{Countable K}.

(** ** The methods *)

Definition wlru_New (maxWeight : Z) (maxSize : Z) : outcome (Cache K V) := Cache_New maxWeight maxSize.

(** Evictions are counted. *)
Definition wlru_Add (c : Cache K V) (key : K) (value : V) (weight : Z) : outcome (Z * Cache K V) :=
  let* ' (evicted, c) := Cache_Add c key value weight in Ok (Z.of_nat (length evicted), c).
Definition wlru_Resize (c : Cache K V) (maxWeight maxSize : Z) : outcome (Z * Cache K V) :=
  let* ' (evicted, c) := Cache_Resize c maxWeight maxSize in Ok (Z.of_nat (length evicted), c).
Definition wlru_Get (c : Cache K V) (key : K) : option V * Cache K V := Cache_Get c key.
Definition wlru_Contains (c : Cache K V) (key : K) : bool := Cache_Contains c key.
Definition wlru_Peek (c : Cache K V) (key : K) : option V := Cache_Peek c key.

Definition wlru_ContainsOrAdd (c : Cache K V) (key : K) (value : V) (weight : Z) : outcome ((bool * Z) * Cache K V) :=
  if Cache_Contains c key then Ok ((true, 0), c)
  else let* ' (evicted, c) := Cache_Add c key value weight in Ok ((false, Z.of_nat (length evicted)), c).

Definition wlru_PeekOrAdd (c : Cache K V) (key : K) (value : V) (weight : Z) : outcome ((option V * bool * Z) * Cache K V) :=
  match Cache_Peek c key with
  | Some previous => Ok ((Some previous, true, 0), c)
  | None => let* ' (evicted, c) := Cache_Add c key value weight in Ok ((None, false, Z.of_nat (length evicted)), c)
  end.

Definition wlru_Remove (c : Cache K V) (key : K) : outcome (bool * Cache K V) := Cache_Remove c key.
Definition wlru_RemoveOldest (c : Cache K V) : outcome (option (K * V) * Cache K V) := RemoveOldest c.
Definition wlru_GetOldest (c : Cache K V) : outcome (option (K * V)) := GetOldest c.
Definition wlru_Keys (c : Cache K V) : list K := Cache_Keys c.
Definition wlru_Len (c : Cache K V) : Z := Cache_Len c.
Definition wlru_Weight (c : Cache K V) : Z := Cache_Weight c.
Definition wlru_Total (c : Cache K V) : Z * Z := Cache_Total c.
Definition wlru_Purge (c : Cache K V) : Cache K V := Cache_Purge c.

Inductive wlru_call :=
| CallPurge | CallAdd (k : K) (v : V) (w : Z) | CallGet (k : K) | CallContains (k : K) | CallPeek (k : K)
| CallContainsOrAdd (k : K) (v : V) (w : Z) | CallPeekOrAdd (k : K) (v : V) (w : Z) | CallRemove (k : K)
| CallResize (mw ms : Z) | CallRemoveOldest | CallGetOldest | CallKeys | CallLen | CallWeight | CallTotal.

Inductive wlru_reply :=
| RNone | RCount (n : Z) | RValue (v : option V) | RBool (b : bool) | RAdded (b : bool) (n : Z)
| RPrevious (v : option V) (b : bool) (n : Z) | RPair (kv : option (K * V)) | RKeys (l : list K) | RTotal (w n : Z).

(** [Lock] or [RLock]. *)
Definition wlru_exclusive (call : wlru_call) : bool :=
  match call with
  | CallContains _ | CallPeek _ | CallKeys | CallLen | CallWeight | CallTotal => false
  | _ => true
  end.

Definition wlru_body (call : wlru_call) (c : Cache K V) : outcome (wlru_reply * Cache K V) :=
  match call with
  | CallPurge => Ok (RNone, wlru_Purge c)
  | CallAdd k v w => let* ' (n, c) := wlru_Add c k v w in Ok (RCount n, c)
  | CallGet k => let '(v, c) := wlru_Get c k in Ok (RValue v, c)
  | CallContains k => Ok (RBool (wlru_Contains c k), c)
  | CallPeek k => Ok (RValue (wlru_Peek c k), c)
  | CallContainsOrAdd k v w => let* ' (r, c) := wlru_ContainsOrAdd c k v w in Ok (RAdded r.1 r.2, c)
  | CallPeekOrAdd k v w => let* ' (r, c) := wlru_PeekOrAdd c k v w in Ok (RPrevious r.1.1 r.1.2 r.2, c)
  | CallRemove k => let* ' (b, c) := wlru_Remove c k in Ok (RBool b, c)
  | CallResize mw ms => let* ' (n, c) := wlru_Resize c mw ms in Ok (RCount n, c)
  | CallRemoveOldest => let* ' (kv, c) := wlru_RemoveOldest c in Ok (RPair kv, c)
  | CallGetOldest => let* kv := wlru_GetOldest c in Ok (RPair kv, c)
  | CallKeys => Ok (RKeys (wlru_Keys c), c)
  | CallLen => Ok (RCount (wlru_Len c), c)
  | CallWeight => Ok (RCount (wlru_Weight c), c)
  | CallTotal => let '(w, n) := wlru_Total c in Ok (RTotal w n, c)
  end.

(** The methods under [RLock] leave the cache as it is. *)
Lemma shared_reads_only call c r c' : wlru_exclusive call = false -> wlru_body call c = Ok (r, c') -> c' = c.
Proof. destruct call; cbn; intros Hm; try done; by intros [= _ <-]. Qed.

(** The methods do to the cache what the operations of Wlru.v do. *)
Lemma wlru_counts c k v w :
  wlru_Add c k v w = (let* ' (ev, c) := Cache_Add c k v w in Ok (Z.of_nat (length ev), c)) /\
  outcome_bind (wlru_ContainsOrAdd c k v w) (fun r => Ok (r.1.1, r.2)) = ContainsOrAdd c k v w /\
  outcome_bind (wlru_PeekOrAdd c k v w) (fun r => Ok (r.1.1.1, r.2)) = PeekOrAdd c k v w.
Proof.
  split; [done|]. unfold wlru_ContainsOrAdd, wlru_PeekOrAdd, ContainsOrAdd, PeekOrAdd. split.
  - destruct (Cache_Contains c k); [done|]. by destruct (Cache_Add c k v w) as [[ev c']|e|e].
  - destruct (Cache_Peek c k); [done|]. by destruct (Cache_Add c k v w) as [[ev c']|e|e].
Qed.

(** ** Goroutines around the mutex *)

(** A goroutine waits for the lock with its call, or holds it with the cache
    as it was read. *)
Inductive wlru_phase := Waits (call : wlru_call) | Holds (call : wlru_call) (c : Cache K V).

Record wlru_state := mk_wlru_state {
  wx_cache : Cache K V;
  wx_threads : gmap nat wlru_phase;
  wx_log : list (wlru_call * wlru_reply)
}.

Definition wlru_free (exclusive : bool) (ths : gmap nat wlru_phase) : Prop :=
  forall t call c, ths !! t = Some (Holds call c) -> exclusive = false /\ wlru_exclusive call = false.

Inductive wlru_step : wlru_state -> wlru_state -> Prop :=
| wlru_calls c ths log t call : ths !! t = None ->
    wlru_step (mk_wlru_state c ths log) (mk_wlru_state c (<[t := Waits call]> ths) log)
| wlru_locks c ths log t call : ths !! t = Some (Waits call) -> wlru_free (wlru_exclusive call) ths ->
    wlru_step (mk_wlru_state c ths log) (mk_wlru_state c (<[t := Holds call c]> ths) log)
| wlru_unlocks c ths log t call c0 r c1 : ths !! t = Some (Holds call c0) -> wlru_body call c0 = Ok (r, c1) ->
    wlru_step (mk_wlru_state c ths log)
      (mk_wlru_state (if wlru_exclusive call then c1 else c) (delete t ths) (log ++ [(call, r)])).

(** The calls one after the other, with the replies they give. *)
Inductive wlru_runs : Cache K V -> list (wlru_call * wlru_reply) -> Cache K V -> Prop :=
| runs_nil c : wlru_runs c [] c
| runs_snoc c0 log c1 call r c2 : wlru_runs c0 log c1 -> wlru_body call c1 = Ok (r, c2) ->
    wlru_runs c0 (log ++ [(call, r)]) c2.

Definition wlru_inv (c0 : Cache K V) (x : wlru_state) : Prop :=
  wlru_runs c0 (wx_log x) (wx_cache x) /\
  (forall t call c, wx_threads x !! t = Some (Holds call c) -> c = wx_cache x) /\
  (forall t1 t2 call1 call2 a b, t1 <> t2 -> wx_threads x !! t1 = Some (Holds call1 a) -> wx_threads x !! t2 = Some (Holds call2 b) ->
     wlru_exclusive call1 = false).

Lemma wlru_step_inv c0 x y : wlru_step x y -> wlru_inv c0 x -> wlru_inv c0 y.
Proof.
  intros [c ths log t call Ht|c ths log t call Ht Hfree|c ths log t call cr r c1 Ht Hb] (Hr & Hc & Hx); unfold wlru_inv; cbn in *.
  - split; [done|]. split.
    + intros t' call' c' [(-> & [=])|[_ Hin]]%lookup_insert_Some. by eapply Hc.
    + intros t1 t2 call1 call2 a b Hne [[_ [=]]|[_ H1]]%lookup_insert_Some [[_ [=]]|[_ H2]]%lookup_insert_Some. by eapply Hx.
  - split; [done|]. split.
    + intros t' call' c' [(-> & [= <- <-])|[_ Hin]]%lookup_insert_Some; [done|by eapply Hc].
    + intros t1 t2 call1 call2 a b Hne [[E1 [= <- <-]]|[_ H1]]%lookup_insert_Some [[E2 [= <- <-]]|[_ H2]]%lookup_insert_Some.
      * congruence.
      * by apply Hfree in H2 as [? _].
      * by apply Hfree in H1 as [_ ?].
      * by eapply Hx.
  - assert (cr = c) as -> by (by eapply Hc). split; [|split].
    + eapply runs_snoc; [done|]. destruct (wlru_exclusive call) eqn:He; [done|].
      by rewrite <- (shared_reads_only _ _ _ _ He Hb) at 2.
    + intros t' call' c' [Hne Hin]%lookup_delete_Some. rewrite (Hx t t' _ _ _ _ Hne Ht Hin). by eapply Hc.
    + intros t1 t2 call1 call2 a b Hne [_ H1]%lookup_delete_Some [_ H2]%lookup_delete_Some. by eapply Hx.
Qed.

(** Whatever the interleaving of the goroutines, the cache is what the
    finished calls, one after the other in the order in which they left the
    lock, make of the initial one, and each of them got its reply of that run. *)
Theorem wlru_linearizable c0 x : rtc wlru_step (mk_wlru_state c0 ∅ []) x -> wlru_runs c0 (wx_log x) (wx_cache x).
Proof.
  intros Hx. enough (wlru_inv c0 x) as (? & _) by done.
  assert (wlru_inv c0 (mk_wlru_state c0 ∅ [])) as Hi by (split; [constructor|]; split; intros *; cbn; by rewrite lookup_empty).
  induction Hx as [|a b d Hab _ IH]; [done|]. by apply IH, (wlru_step_inv c0 a).
Qed.

(** A goroutine that waits gets the lock once those who hold it have left. *)
Lemma wlru_lock_available c ths log t call : ths !! t = Some (Waits call) ->
  (forall t' call' c', ths !! t' <> Some (Holds call' c')) ->
  exists y, wlru_step (mk_wlru_state c ths log) y /\ wx_threads y !! t = Some (Holds call c).
Proof.
  intros Ht Hn. eexists. split; [eapply wlru_locks; [done|]|cbn; apply lookup_insert_eq]. intros t' call' c' Hh. by destruct (Hn _ _ _ Hh).
Qed.

(** The weights and sizes given are those of unsigned parameters, [Resize]
    apart ([Resize_negative_diverges]). *)
Definition wlru_call_ok (call : wlru_call) : Prop :=
  match call with
  | CallAdd _ _ w | CallContainsOrAdd _ _ w | CallPeekOrAdd _ _ w => 0 <= w
  | CallResize mw ms => 0 <= mw /\ 0 <= ms
  | _ => True
  end.

(** Then no method fails inside the lock: who takes it leaves it. *)
Lemma wlru_body_total call c : cache_wf c -> wlru_call_ok call -> exists r c', wlru_body call c = Ok (r, c') /\ cache_wf c'.
Proof.
  intros Hc Hok. destruct call as [|k v w|k|k|k|k v w|k v w|k|mw ms| | | | | |]; cbn in *.
  - do 2 eexists. split; [done|]. by apply Purge_wf.
  - unfold wlru_Add. destruct (Add_fits c k v w Hc Hok) as (ev & c' & -> & [Hwf _]). by do 2 eexists.
  - unfold wlru_Get. pose proof (Get_spec c k Hc) as Hg. destruct (Cache_Get c k) as [v c']. do 2 eexists. split; [done|]. apply Hg.
  - by do 2 eexists.
  - by do 2 eexists.
  - unfold wlru_ContainsOrAdd. destruct (Cache_Contains c k); [by do 2 eexists|].
    destruct (Add_fits c k v w Hc Hok) as (ev & c' & -> & [Hwf _]). by do 2 eexists.
  - unfold wlru_PeekOrAdd. destruct (Cache_Peek c k); [by do 2 eexists|].
    destruct (Add_fits c k v w Hc Hok) as (ev & c' & -> & [Hwf _]). by do 2 eexists.
  - unfold wlru_Remove. destruct (Cache_Remove_spec c k Hc) as (b & c' & -> & Hwf & _). by do 2 eexists.
  - clear -Hc Hok. destruct (cache_do_wf c (OpResize mw ms) Hc Hok) as (c' & Hd & Hwf). revert Hd. unfold wlru_Resize, cache_do.
    destruct (Cache_Resize c mw ms) as [[ev c'']|e|e]; intros [= ->]. by do 2 eexists.
  - unfold wlru_RemoveOldest. destruct (RemoveOldest_spec c Hc) as [[_ ->]|(l & e & c' & _ & -> & Hwf & _)]; by do 2 eexists.
  - unfold wlru_GetOldest, GetOldest. destruct (last (evictList c)) as [h|] eqn:Hl; [|by do 2 eexists].
    apply last_Some in Hl as [l Hl]. destruct (proj1 (cw_elems _ Hc h)) as [e ->]; [rewrite Hl; set_solver|]. by do 2 eexists.
  - by do 2 eexists.
  - by do 2 eexists.
  - by do 2 eexists.
  - by do 2 eexists.
Qed.

End wlru_sync.
