(* ===== verification/EventBuffer.v ===== *)
(** * gossip/dagordering/event_buffer.go: events wait for their parents

    The buffer keeps in a weighted LRU cache the events whose parents the
    application does not know yet.  The cache holds pointers: the records
    [event] with their mutable fields live in [b_heap], so that a record seen
    through the snapshot of [getIncompleteEventsList] and through the cache is
    the same one.  The application is a state threaded through the callbacks;
    the calls of [Released] are collected in [b_log]. *)

From S2P Require Import Prelude Dag Wlru.
Local Open Scope go_scope.

(** eventcheck/noban.go *)
Definition ErrAlreadyConnectedEvent : string := "event is connected already".
Definition ErrSpilledEvent : string := "event is spilled".
Definition ErrDuplicateEvent : string := "event is duplicated".

Record event := mk_event { ev_event : BaseEvent; ev_peer : string; ev_err : option string; ev_released : bool }.

(** [cb_Released] tells whether that callback is set. *)
Record Callback (A : Type) := mk_Callback {
  cb_Process : A -> BaseEvent -> option string * A;
  cb_Released : bool;
  cb_Get : A -> Z -> option BaseEvent;
  cb_Exists : A -> Z -> bool;
  cb_Check : option (A -> BaseEvent -> list BaseEvent -> option string);
  cb_IsImportant : option (BaseEvent -> bool)
}.
Arguments mk_Callback {A}.
Arguments cb_Process {A}.
Arguments cb_Released {A}.
Arguments cb_Get {A}.
Arguments cb_Exists {A}.
Arguments cb_Check {A}.
Arguments cb_IsImportant {A}.

(** What the buffer relies on: [Exists] and [Get] agree, and [Process] makes
    exactly its event known, or nothing when it fails. *)
Class CallbackLaws {A} (cb : Callback A) : Prop := {
  cb_exists_get s id : cb_Exists cb s id = bool_decide (is_Some (cb_Get cb s id));
  cb_process_ok s e s' id : cb_Process cb s e = (None, s') ->
    is_Some (cb_Get cb s' id) <-> id = e_id e \/ is_Some (cb_Get cb s id);
  cb_process_err s e err s' id : cb_Process cb s e = (Some err, s') ->
    is_Some (cb_Get cb s' id) <-> is_Some (cb_Get cb s id)
}.

Section buffer.
Context {A : Type} (cb : Callback A) (size : BaseEvent -> Z).

Record EventsBuffer := mk_EventsBuffer {
  b_incompletes : Cache Z nat;
  b_limit : Metric;
  b_heap : list event;
  b_app : A;
  b_log : list (BaseEvent * string * option string)
}.

Definition EventsBuffer_New (limit : Metric) (app : A) : outcome EventsBuffer :=
  let* c := Cache_New MaxInt32 MaxInt32 in
  Ok (mk_EventsBuffer c limit [] app []).

Definition with_incompletes (b : EventsBuffer) (c : Cache Z nat) : EventsBuffer :=
  mk_EventsBuffer c (b_limit b) (b_heap b) (b_app b) (b_log b).
Definition with_heap (b : EventsBuffer) (h : list event) : EventsBuffer :=
  mk_EventsBuffer (b_incompletes b) (b_limit b) h (b_app b) (b_log b).
Definition with_app (b : EventsBuffer) (s : A) : EventsBuffer :=
  mk_EventsBuffer (b_incompletes b) (b_limit b) (b_heap b) s (b_log b).

Definition set_err (o : event) (err : string) : event := mk_event (ev_event o) (ev_peer o) (Some err) (ev_released o).

Definition dropEvent (p : nat) (err : string) (b : EventsBuffer) : EventsBuffer :=
  with_heap b (alter (fun o => if ev_err o is None then set_err o err else o) p (b_heap b)).

Definition releaseEvent (p : nat) (b : EventsBuffer) : EventsBuffer :=
  match b_heap b !! p with
  | None => b
  | Some o =>
      mk_EventsBuffer (b_incompletes b) (b_limit b)
        (<[p := mk_event (ev_event o) (ev_peer o) (ev_err o) true]> (b_heap b)) (b_app b)
        (if cb_Released cb && negb (ev_released o) then b_log b ++ [(ev_event o, ev_peer o, ev_err o)] else b_log b)
  end.

Definition remove_incomplete (b : EventsBuffer) (id : Z) : outcome EventsBuffer :=
  let* ' (_, c) := Cache_Remove (b_incompletes b) id in Ok (with_incompletes b c).

Definition getIncompleteEventsList (b : EventsBuffer) : list nat :=
  omap (Cache_Peek (b_incompletes b)) (Cache_Keys (b_incompletes b)).

Definition completeEventParents (s : A) (e : BaseEvent) : option (list BaseEvent) := mapM (cb_Get cb s) (e_parents e).

Definition run_Check (s : A) (e : BaseEvent) (parents : list BaseEvent) : option string :=
  match cb_Check cb with Some check => check s e parents | None => None end.

Definition processCompleteEvent (p : nat) (e : BaseEvent) (parents : list BaseEvent) (b : EventsBuffer) : bool * EventsBuffer :=
  match run_Check (b_app b) e parents with
  | Some err => (false, dropEvent p err b)
  | None =>
      let '(err, s) := cb_Process cb (b_app b) e in
      match err with
      | Some err => (false, dropEvent p err (with_heap (with_app b s) (alter (fun o => set_err o err) p (b_heap b))))
      | None => (true, with_app b s)
      end
  end.

(** The recursion goes one level down for each event that gets connected. *)
Fixpoint pushEvent (fuel : nat) (p : nat) (list_ : option (list nat)) (recheck : bool) (b : EventsBuffer) :
    outcome (bool * EventsBuffer) :=
  match fuel with
  | O => Err "out of fuel"
  | S fuel =>
      match b_heap b !! p with
      | None => Panic "nil event"
      | Some o =>
          let e := ev_event o in
          if cb_Exists cb (b_app b) (e_id e) then
            let* b := remove_incomplete b (e_id e) in
            let b := if recheck then b else dropEvent p ErrAlreadyConnectedEvent b in
            Ok (false, releaseEvent p b)
          else
            match completeEventParents (b_app b) e with
            | None =>
                if recheck then Ok (false, b)
                else let* ' (_, c) := Cache_Add (b_incompletes b) (e_id e) p (u64 (size e)) in Ok (false, with_incompletes b c)
            | Some parents =>
                let '(ok, b) := processCompleteEvent p e parents b in
                let b := releaseEvent p b in
                let* b :=
                  if ok then
                    let l := default (getIncompleteEventsList b) list_ in
                    foldM (fun b c =>
                      match b_heap b !! c with
                      | None => Panic "nil event"
                      | Some child =>
                          if existsb (Z.eqb (e_id e)) (e_parents (ev_event child)) then
                            let* ' (_, b) := pushEvent fuel c (Some l) true b in Ok b
                          else Ok b
                      end) b l
                  else Ok b in
                let* b := remove_incomplete b (e_id e) in
                Ok (ok, b)
            end
      end
  end.

(** ** Spilling *)

Definition over_limit (limit : Metric) (b : EventsBuffer) : bool :=
  (Num limit <? u32 (Cache_Len (b_incompletes b))) || (Size limit <? Cache_Weight (b_incompletes b)).

(** The oldest buffered event that is not important. *)
Fixpoint first_unimportant (important : BaseEvent -> bool) (b : EventsBuffer) (keys : list Z) : option (Z * nat) :=
  match keys with
  | [] => None
  | k :: keys =>
      match Cache_Peek (b_incompletes b) k ≫= fun p => (p,.) <$> b_heap b !! p with
      | None => first_unimportant important b keys
      | Some (p, o) => if important (ev_event o) then first_unimportant important b keys else Some (k, p)
      end
  end.

(** [None] is the [break] on an empty cache. *)
Definition spill_oldest (b : EventsBuffer) : outcome (option EventsBuffer) :=
  let* ' (kv, c) := RemoveOldest (b_incompletes b) in
  match kv with
  | None => Ok None
  | Some (_, p) => Ok (Some (releaseEvent p (dropEvent p ErrSpilledEvent (with_incompletes b c))))
  end.

Definition spill_one (b : EventsBuffer) : outcome (option EventsBuffer) :=
  match cb_IsImportant cb with
  | None => spill_oldest b
  | Some important =>
      match first_unimportant important b (Cache_Keys (b_incompletes b)) with
      | Some (k, p) =>
          let* b := remove_incomplete b k in
          Ok (Some (releaseEvent p (dropEvent p ErrSpilledEvent b)))
      | None => spill_oldest b
      end
  end.

Fixpoint spill_loop (fuel : nat) (limit : Metric) (b : EventsBuffer) : outcome EventsBuffer :=
  if over_limit limit b then
    match fuel with
    | O => Err "out of fuel"
    | S fuel =>
        let* next := spill_one b in
        match next with
        | None => Ok b
        | Some b => spill_loop fuel limit b
        end
    end
  else Ok b.

(** Every turn removes an entry. *)
Definition spillIncompletes (limit : Metric) (b : EventsBuffer) : outcome EventsBuffer :=
  spill_loop (length (evictList (b_incompletes b))) limit b.

(** ** The operations *)

Definition PushEvent (de : BaseEvent) (peer : string) (b : EventsBuffer) : outcome (bool * EventsBuffer) :=
  let p := length (b_heap b) in
  let b := with_heap b (b_heap b ++ [mk_event de peer None false]) in
  match Cache_Peek (b_incompletes b) (e_id de) with
  | Some _ => Ok (false, releaseEvent p (dropEvent p ErrDuplicateEvent b))
  | None =>
      let* ' (complete, b) := pushEvent (S (S (length (evictList (b_incompletes b))))) p None false b in
      let* b := spillIncompletes (b_limit b) b in
      Ok (complete, b)
  end.

Definition IsBuffered (b : EventsBuffer) (id : Z) : bool := Cache_Contains (b_incompletes b) id.
Definition EventsBuffer_Clear (b : EventsBuffer) : outcome EventsBuffer := spillIncompletes (mk_Metric 0 0) b.
Definition EventsBuffer_Total (b : EventsBuffer) : Metric :=
  let '(weight, num) := Cache_Total (b_incompletes b) in mk_Metric (u32 num) weight.

(** ** Known and complete events *)

Definition known (s : A) (id : Z) : Prop := is_Some (cb_Get cb s id).
Definition complete (s : A) (e : BaseEvent) : Prop := Forall (known s) (e_parents e).

(** The application only ever processes an event it does not know, whose
    parents it knows and which passed the check. *)
Definition app_step (s s' : A) : Prop :=
  exists e parents, ~ known s (e_id e) /\ mapM (cb_Get cb s) (e_parents e) = Some parents /\
    run_Check s e parents = None /\ s' = (cb_Process cb s e).2.

End buffer.

(** ** The relation a turn of [pushEvent] keeps *)

Section steps.
Context {A : Type} (cb : Callback A) (size : BaseEvent -> Z) `{!CallbackLaws cb}.
Context (Inv : A -> Prop) (Ev : BaseEvent -> Prop).
Abbreviation buffer := (EventsBuffer (A := A)).
Implicit Types (b : buffer) (s : A).

Definition slots b : list (entry Z nat) := contents (b_incompletes b).
Definition released b (p : nat) : Prop := exists o, b_heap b !! p = Some o /\ ev_released o = true.
Definition cached b (p : nat) : Prop := exists en, en ∈ slots b /\ en_value en = p.

(** What is always true of the buffer. *)
Record buffer_ok b : Prop := {
  bo_cache : cache_wf (b_incompletes b);
  bo_slots : forall en, en ∈ slots b -> exists o, b_heap b !! en_value en = Some o /\ e_id (ev_event o) = en_key en /\
    en_weight en = u64 (size (ev_event o));
  bo_log : cb_Released cb = true ->
    (fun x => (x.1.1, x.1.2)) <$> b_log b ≡ₚ (fun o => (ev_event o, ev_peer o)) <$> filter (fun o => ev_released o = true) (b_heap b);
  bo_connected : forall e peer, (e, peer, None) ∈ b_log b -> known cb (b_app b) (e_id e)
}.

Record steps b b' : Prop := {
  st_limit : b_limit b' = b_limit b;
  st_caps : maxWeight (b_incompletes b') = maxWeight (b_incompletes b) /\ maxSize (b_incompletes b') = maxSize (b_incompletes b);
  st_heap : (fun o => (ev_event o, ev_peer o)) <$> b_heap b' = (fun o => (ev_event o, ev_peer o)) <$> b_heap b;
  st_released : forall p, released b p -> released b' p;
  st_app : rtc (app_step cb) (b_app b) (b_app b');
  st_slots : forall en, en ∈ slots b' -> en ∈ slots b;
  st_removed : forall p, cached b p -> ~ cached b' p -> released b' p;
  st_gone : forall p, released b' p -> ~ released b p -> ~ cached b' p;
  st_complete : forall en o, en ∈ slots b' -> b_heap b !! en_value en = Some o ->
    complete cb (b_app b') (ev_event o) -> complete cb (b_app b) (ev_event o);
  st_known : forall en, en ∈ slots b' -> known cb (b_app b') (en_key en) -> known cb (b_app b) (en_key en)
}.

(** The application accepts the events [Ev] while it satisfies [Inv]: it keeps [Inv],
    and what leaves the cache is known. *)
Definition no_refusal : Prop := forall s e parents,
  Inv s -> Ev e -> ~ known cb s (e_id e) -> mapM (cb_Get cb s) (e_parents e) = Some parents ->
  run_Check cb s e parents = None /\ (cb_Process cb s e).1 = None /\ Inv (cb_Process cb s e).2.
Definition fine b : Prop := Inv (b_app b) /\ Forall (fun ep => Ev ep.1) ((fun o => (ev_event o, ev_peer o)) <$> b_heap b).
Definition keeps b b' : Prop :=
  no_refusal -> fine b -> Inv (b_app b') /\ forall en, en ∈ slots b -> en ∈ slots b' \/ known cb (b_app b') (en_key en).

Lemma heap_event b b' p o :
  (fun o => (ev_event o, ev_peer o)) <$> b_heap b' = (fun o => (ev_event o, ev_peer o)) <$> b_heap b ->
  b_heap b !! p = Some o -> exists o', b_heap b' !! p = Some o' /\ ev_event o' = ev_event o /\ ev_peer o' = ev_peer o.
Proof.
  intros Hh Hp. assert (((fun o => (ev_event o, ev_peer o)) <$> b_heap b') !! p = Some (ev_event o, ev_peer o)) as Hl.
  { by rewrite Hh, list_lookup_fmap, Hp. }
  rewrite list_lookup_fmap in Hl. destruct (b_heap b' !! p) as [o'|]; [|done]. injection Hl as ? ?. eauto.
Qed.

#[local] Instance cached_dec b p : Decision (cached b p).
Proof.
  refine (cast_if (decide (Exists (fun en => en_value en = p) (slots b)))); unfold cached; rewrite <- Exists_exists; done.
Defined.

Lemma steps_refl b : steps b b.
Proof. by split. Qed.

Lemma steps_trans b1 b2 b3 : steps b1 b2 -> steps b2 b3 -> steps b1 b3.
Proof.
  intros H1 H2. split.
  - by rewrite (st_limit _ _ H2), (st_limit _ _ H1).
  - destruct (st_caps _ _ H1), (st_caps _ _ H2). split; congruence.
  - by rewrite (st_heap _ _ H2), (st_heap _ _ H1).
  - intros p Hp. by apply (st_released _ _ H2), (st_released _ _ H1).
  - etrans; [apply (st_app _ _ H1)|apply (st_app _ _ H2)].
  - intros en He. by apply (st_slots _ _ H1), (st_slots _ _ H2).
  - intros p Hp Hn. destruct (decide (cached b2 p)) as [Hc|Hc]; [by apply (st_removed _ _ H2)|].
    apply (st_released _ _ H2). by apply (st_removed _ _ H1).
  - intros p Hp Hn. destruct (decide (cached b3 p)) as [Hc|Hc]; [|done]. intros _.
    assert (cached b2 p) as Hc2 by (destruct Hc as (en & He & <-); exists en; split; [by apply (st_slots _ _ H2)|done]).
    apply (st_gone _ _ H2 p Hp); [|done]. intros Hr. by apply (st_gone _ _ H1 p Hr).
  - intros en o He Ho Hc. destruct (heap_event _ _ _ _ (st_heap _ _ H1) Ho) as (o2 & Ho2 & Heq & _). rewrite <- Heq in Hc.
    apply (st_complete _ _ H2 en o2 He Ho2) in Hc. rewrite Heq in Hc.
    by apply (st_complete _ _ H1 en o); [apply (st_slots _ _ H2)| |].
  - intros en He Hk. apply (st_known _ _ H2 en He) in Hk. by apply (st_known _ _ H1 en); [apply (st_slots _ _ H2)|].
Qed.

(** ** Known events are never forgotten *)

Lemma process_keeps s e id : known cb s id -> known cb (cb_Process cb s e).2 id.
Proof.
  intros Hk. destruct (cb_Process cb s e) as [[err|] s'] eqn:Hp; simpl.
  - by apply (cb_process_err _ _ _ _ _ Hp).
  - apply (cb_process_ok _ _ _ _ Hp). by right.
Qed.

Lemma rtc_known s s' id : rtc (app_step cb) s s' -> known cb s id -> known cb s' id.
Proof.
  induction 1 as [|s s1 s' (e & ps & _ & _ & _ & ->) _ IH]; [done|]. intros Hk. by apply IH, process_keeps.
Qed.

Lemma rtc_complete s s' e : rtc (app_step cb) s s' -> complete cb s e -> complete cb s' e.
Proof. intros Hr Hc. eapply Forall_impl; [exact Hc|]. intros p. by apply rtc_known. Qed.

#[local] Instance known_dec s id : Decision (known cb s id).
Proof. unfold known. apply _. Defined.

Lemma Exists_known s id : cb_Exists cb s id = bool_decide (known cb s id).
Proof. apply cb_exists_get. Qed.

Lemma completeEventParents_complete s e :
  (exists ps, completeEventParents cb s e = Some ps) <-> complete cb s e.
Proof. unfold completeEventParents, complete. apply mapM_is_Some. Qed.

Lemma keeps_refl b : keeps b b.
Proof. intros _ [HI _]. split; [done|]. intros en Hin. by left. Qed.

Lemma fine_heap b b' :
  (fun o => (ev_event o, ev_peer o)) <$> b_heap b' = (fun o => (ev_event o, ev_peer o)) <$> b_heap b -> Inv (b_app b') -> fine b -> fine b'.
Proof. intros Hh HI [_ HE]. split; [done|]. by rewrite Hh. Qed.

Lemma keeps_trans b1 b2 b3 : steps b1 b2 -> steps b2 b3 -> keeps b1 b2 -> keeps b2 b3 -> keeps b1 b3.
Proof.
  intros Hs1 Hs H1 H2 Hn Hf. destruct (H1 Hn Hf) as [HI2 Hk1]. destruct (H2 Hn) as [HI3 Hk2].
  { by eapply fine_heap; [apply Hs1| |]. }
  split; [done|]. intros en Hin. destruct (Hk1 en Hin) as [?|Hk]; [by apply Hk2|right].
  eapply rtc_known; [apply (st_app _ _ Hs)|done].
Qed.

(** ** The primitive operations *)

(** Only the error changes. *)
Definition only_err (f : event -> event) : Prop :=
  forall o, ev_event (f o) = ev_event o /\ ev_peer (f o) = ev_peer o /\ ev_released (f o) = ev_released o.

Lemma released_alter f (p : nat) (l : list event) : only_err f ->
  (fun o => (ev_event o, ev_peer o)) <$> filter (fun o => ev_released o = true) (alter f p l) =
  (fun o => (ev_event o, ev_peer o)) <$> filter (fun o => ev_released o = true) l.
Proof.
  intros Hf. revert p. induction l as [|o l IH]; intros [|p]; [done..| |]; unfold alter; simpl;
    [|fold (alter f p l)]; rewrite !filter_cons; destruct (Hf o) as (He & Hp & Hr).
  - rewrite Hr. case_decide; csimpl; by rewrite ?He, ?Hp.
  - case_decide; csimpl; by rewrite IH.
Qed.

Lemma alter_lookup f (p : nat) (l : list event) q o : only_err f ->
  l !! q = Some o -> exists o', alter f p l !! q = Some o' /\ ev_event o' = ev_event o /\ ev_released o' = ev_released o.
Proof.
  intros Hf Hq. destruct (decide (p = q)) as [->|Hne].
  - rewrite list_lookup_alter_eq, Hq. simpl. destruct (Hf o) as (? & ? & ?). eauto.
  - rewrite list_lookup_alter_ne by done. eauto.
Qed.

Lemma alter_events f (p : nat) (l : list event) : only_err f ->
  (fun o => (ev_event o, ev_peer o)) <$> alter f p l = (fun o => (ev_event o, ev_peer o)) <$> l.
Proof.
  intros Hf. apply list_eq. intros i. rewrite !list_lookup_fmap. destruct (decide (p = i)) as [->|Hne].
  - rewrite list_lookup_alter_eq. destruct (l !! i); [|done]. simpl. destruct (Hf e) as (-> & -> & _). done.
  - by rewrite list_lookup_alter_ne.
Qed.

Lemma only_err_drop err : only_err (fun o => if ev_err o is None then set_err o err else o).
Proof. intros o. by destruct (ev_err o). Qed.
Lemma only_err_set err : only_err (fun o => set_err o err).
Proof. by intros o. Qed.

Lemma alter_ok f p b : only_err f -> buffer_ok b -> buffer_ok (with_heap b (alter f p (b_heap b))).
Proof.
  intros Hf Hb. split; [apply Hb| | |apply Hb].
  - intros en He. destruct (bo_slots _ Hb en He) as (o & Ho & Hid & Hw).
    destruct (alter_lookup f p _ _ _ Hf Ho) as (o' & Ho' & Heq & _). exists o'. by rewrite Heq.
  - intros Hr. simpl. rewrite released_alter by done. by apply Hb.
Qed.

(** Releasing: the first time the callback is told; without an error the event
    must be known. *)
Lemma releaseEvent_ok p b o :
  buffer_ok b -> b_heap b !! p = Some o -> (ev_released o = false -> ev_err o = None -> known cb (b_app b) (e_id (ev_event o))) ->
  buffer_ok (releaseEvent cb p b) /\ released (releaseEvent cb p b) p /\
  (forall q, q <> p -> b_heap (releaseEvent cb p b) !! q = b_heap b !! q) /\
  (fun o => (ev_event o, ev_peer o)) <$> b_heap (releaseEvent cb p b) = (fun o => (ev_event o, ev_peer o)) <$> b_heap b.
Proof.
  intros Hb Hp Hk. unfold releaseEvent. rewrite Hp. assert (p < length (b_heap b))%nat as Hlt by (by eapply lookup_lt_Some).
  splits; simpl.
  - split; simpl; [apply Hb| | |].
    + intros en He. destruct (bo_slots _ Hb en He) as (o1 & Ho1 & Hid & Hw). destruct (decide (en_value en = p)) as [Heq|Hne].
      * rewrite Heq in *. simplify_eq. eexists. rewrite list_lookup_insert_eq by done. split; [done|]. done.
      * exists o1. by rewrite list_lookup_insert_ne by done.
    + intros Hr. rewrite Hr. simpl. pose proof (bo_log _ Hb Hr) as Hl.
      rewrite <- (take_drop_middle _ _ _ Hp) in Hl |- *.
      rewrite insert_app_r_alt by (rewrite length_take; lia). rewrite length_take, Nat.min_l, Nat.sub_diag by lia. simpl.
      rewrite filter_app, filter_cons in Hl |- *. rewrite decide_True by done. case_decide as Hrel; simpl in Hl.
      * rewrite Hrel. simpl. rewrite Hl. by rewrite !fmap_app.
      * apply not_true_is_false in Hrel. rewrite Hrel. simpl. rewrite fmap_app, Hl, !fmap_app. csimpl. 
        rewrite <- app_assoc. f_equiv. by rewrite Permutation_app_comm.
    + intros e peer. case_match; [|apply Hb]. rewrite elem_of_app, list_elem_of_singleton. intros [Hin|[= -> -> Herr]].
      * by apply (bo_connected _ Hb) in Hin.
      * apply Hk; [|done]. destruct (cb_Released cb); [|done]. by destruct (ev_released o).
  - unfold released. simpl. eexists. by rewrite list_lookup_insert_eq.
  - intros q Hq. by rewrite list_lookup_insert_ne.
  - apply list_eq. intros i. rewrite !list_lookup_fmap. destruct (decide (i = p)) as [->|Hne].
    + by rewrite list_lookup_insert_eq, Hp by done.
    + by rewrite list_lookup_insert_ne.
Qed.

Lemma with_app_ok b s : buffer_ok b -> (forall id, known cb (b_app b) id -> known cb s id) -> buffer_ok (with_app b s).
Proof. intros Hb Hk. split; try apply Hb. intros e peer He. simpl. by apply Hk, (bo_connected _ Hb e peer). Qed.

Lemma remove_incomplete_ok b id :
  buffer_ok b -> exists b', remove_incomplete b id = Ok b' /\ buffer_ok b' /\ b_heap b' = b_heap b /\ b_app b' = b_app b /\
    b_limit b' = b_limit b /\ b_log b' = b_log b /\ slots b' = filter (fun en => en_key en <> id) (slots b) /\
    maxWeight (b_incompletes b') = maxWeight (b_incompletes b) /\ maxSize (b_incompletes b') = maxSize (b_incompletes b).
Proof.
  intros Hb. destruct (Cache_Remove_spec (b_incompletes b) id (bo_cache _ Hb)) as (r & c & Hr & Hwf & Hc & Hm1 & Hm2).
  unfold remove_incomplete. rewrite Hr. simpl. eexists. split; [done|]. splits; try done.
  split; [exact Hwf| |exact (bo_log _ Hb)|exact (bo_connected _ Hb)]. intros en He. apply (bo_slots _ Hb). unfold slots in *. simpl in He.
  rewrite Hc in He. by apply list_elem_of_filter in He as [_ He].
Qed.

Lemma released_alter_iff f p b : only_err f ->
  forall q, released (with_heap b (alter f p (b_heap b))) q <-> released b q.
Proof.
  intros Hf q. unfold released. simpl. destruct (decide (p = q)) as [->|Hne].
  - rewrite list_lookup_alter_eq. destruct (b_heap b !! q) as [o|]; simpl; [|naive_solver].
    destruct (Hf o) as (_ & _ & Hr). split; intros (o' & [= <-] & H); eexists; (split; [done|congruence]).
  - by rewrite list_lookup_alter_ne.
Qed.

(** Check and process one event: what changes but the cache. *)
Record processed (p : nat) (id : Z) (ok : bool) b b' : Prop := {
  pr_ok : buffer_ok b';
  pr_cache : b_incompletes b' = b_incompletes b;
  pr_limit : b_limit b' = b_limit b;
  pr_heap : (fun o => (ev_event o, ev_peer o)) <$> b_heap b' = (fun o => (ev_event o, ev_peer o)) <$> b_heap b;
  pr_released : forall q, released b' q <-> released b q;
  pr_app : rtc (app_step cb) (b_app b) (b_app b');
  pr_known : forall x, known cb (b_app b') x <-> known cb (b_app b) x \/ (ok = true /\ x = id);
  pr_err : exists o, b_heap b' !! p = Some o /\ (ok = false -> ev_err o <> None)
}.


Lemma processed_drop p id b err o :
  buffer_ok b -> b_heap b !! p = Some o -> processed p id false b (dropEvent p err b).
Proof.
  intros Hb Hp. split; simpl; [by apply alter_ok; [apply only_err_drop|]|done|done| | |done|naive_solver|].
  - apply alter_events, only_err_drop.
  - intros q. apply released_alter_iff, only_err_drop.
  - rewrite list_lookup_alter_eq, Hp. simpl. eexists. split; [done|]. intros _. by destruct (ev_err o) eqn:E; simpl; rewrite ?E.
Qed.

Lemma processCompleteEvent_spec p o e parents b :
  buffer_ok b -> b_heap b !! p = Some o -> ev_event o = e -> ~ known cb (b_app b) (e_id e) ->
  completeEventParents cb (b_app b) e = Some parents ->
  exists ok b', processCompleteEvent cb p e parents b = (ok, b') /\ processed p (e_id e) ok b b' /\ (no_refusal -> fine b -> ok = true /\ Inv (b_app b')).
Proof.
  intros Hb Hp He Hk Hps. unfold processCompleteEvent.
  assert (no_refusal -> fine b -> run_Check cb (b_app b) e parents = None /\ (cb_Process cb (b_app b) e).1 = None /\
    Inv (cb_Process cb (b_app b) e).2) as Hacc.
  { intros Hn [HI HE]. apply Hn; [done| |done|done]. rewrite <- He. rewrite Forall_fmap, Forall_forall in HE.
    apply HE. by eapply list_elem_of_lookup_2. }
  destruct (run_Check cb (b_app b) e parents) as [err|] eqn:Hc.
  { eexists _, _. split; [done|]. split; [by eapply processed_drop|]. intros Hn Hf. destruct (Hacc Hn Hf) as [H _]. congruence. }
  destruct (cb_Process cb (b_app b) e) as [[err|] s] eqn:Hpr.
  - assert (rtc (app_step cb) (b_app b) s) as Hrtc.
    { apply rtc_once. exists e, parents. by rewrite Hpr. }
    set (b1 := with_app b s). eexists _, _. split; [done|]. split; [|intros Hn Hf; by destruct (Hacc Hn Hf) as (_ & H & _)].
    change (with_heap b1 (alter _ p (b_heap b))) with (with_heap b1 (alter (fun o => set_err o err) p (b_heap b1))).
    assert (buffer_ok b1) as Hb1 by (apply with_app_ok; [done|]; intros id; by apply rtc_known).
    pose proof (alter_ok _ p b1 (only_err_set err) Hb1) as Hb2.
    destruct (alter_lookup _ p _ _ _ (only_err_set err) Hp) as (o2 & Ho2 & _).
    destruct (processed_drop p (e_id e) _ err o2 Hb2 Ho2) as [H1 H2 H3 H4 H5 H6 H7 H8]. split; [done|done|done| | |done| |done].
    + rewrite H4. simpl. apply alter_events, only_err_set.
    + intros q. rewrite H5. apply (released_alter_iff _ p b1), only_err_set.
    + intros x. rewrite H7. simpl. unfold known. rewrite (cb_process_err _ _ _ _ x Hpr). naive_solver.
  - assert (rtc (app_step cb) (b_app b) s) as Hrtc.
    { apply rtc_once. exists e, parents. by rewrite Hpr. }
    eexists _, _. split; [done|]. split; [|intros Hn Hf; split; [done|by apply Hacc]]. split; try done.
    + apply with_app_ok; [done|]. intros id. by apply rtc_known.
    + intros x. simpl. unfold known. rewrite (cb_process_ok _ _ _ x Hpr). naive_solver.
    + simpl. by exists o.
Qed.

(** ** The snapshot of the buffered events *)

Record view (l : list nat) b : Prop := {
  vi_all : forall c, c ∈ l -> exists o, b_heap b !! c = Some o;
  vi_cover : forall en, en ∈ slots b -> en_value en ∈ l;
  vi_same : forall c o en, c ∈ l -> b_heap b !! c = Some o -> en ∈ slots b -> en_key en = e_id (ev_event o) -> en_value en = c
}.

Definition pids b (l : list nat) : list Z := omap (fun c => (fun o => e_id (ev_event o)) <$> b_heap b !! c) l.
Definition missing b (l : list nat) : nat := length (filter (fun id => ~ known cb (b_app b) id) (pids b l)).

Lemma heap_event_back b b' p o :
  (fun o => (ev_event o, ev_peer o)) <$> b_heap b' = (fun o => (ev_event o, ev_peer o)) <$> b_heap b ->
  b_heap b' !! p = Some o -> exists o', b_heap b !! p = Some o' /\ ev_event o' = ev_event o /\ ev_peer o' = ev_peer o.
Proof. intros Hh. by apply heap_event. Qed.

Lemma view_keep l b b' :
  view l b -> (fun o => (ev_event o, ev_peer o)) <$> b_heap b' = (fun o => (ev_event o, ev_peer o)) <$> b_heap b ->
  (forall en, en ∈ slots b' -> en ∈ slots b) -> view l b'.
Proof.
  intros Hv Hh Hs. split.
  - intros c Hc. destruct (vi_all _ _ Hv c Hc) as [o Ho]. destruct (heap_event _ _ _ _ Hh Ho) as (o' & ? & _). eauto.
  - intros en He. by apply (vi_cover _ _ Hv), Hs.
  - intros c o en Hc Ho He Hid. destruct (heap_event_back _ _ _ _ Hh Ho) as (o' & Ho' & Heq & _).
    apply (vi_same _ _ Hv c o' en Hc Ho'); [by apply Hs|]. by rewrite Heq.
Qed.

Lemma pids_keep l b b' :
  (fun o => (ev_event o, ev_peer o)) <$> b_heap b' = (fun o => (ev_event o, ev_peer o)) <$> b_heap b -> pids b' l = pids b l.
Proof.
  intros Hh. unfold pids. apply omap_ext_in. intros c _. destruct (b_heap b !! c) as [o|] eqn:Ho.
  - destruct (heap_event _ _ _ _ Hh Ho) as (o' & -> & Heq & _). simpl. by rewrite Heq.
  - destruct (b_heap b' !! c) as [o'|] eqn:Ho'; [|done].
    destruct (heap_event_back _ _ _ _ Hh Ho') as (o & Ho2 & _). congruence.
Qed.

Lemma missing_le l b b' :
  (fun o => (ev_event o, ev_peer o)) <$> b_heap b' = (fun o => (ev_event o, ev_peer o)) <$> b_heap b ->
  (forall id, known cb (b_app b) id -> known cb (b_app b') id) -> (missing b' l <= missing b l)%nat.
Proof.
  intros Hh Hk. unfold missing. rewrite (pids_keep _ _ _ Hh). induction (pids b l) as [|id ids IH]; [done|].
  rewrite !filter_cons. do 2 case_decide; simpl; [lia|naive_solver|lia|lia].
Qed.

Lemma missing_lt l b b' p o :
  (fun o => (ev_event o, ev_peer o)) <$> b_heap b' = (fun o => (ev_event o, ev_peer o)) <$> b_heap b ->
  (forall id, known cb (b_app b) id -> known cb (b_app b') id) ->
  p ∈ l -> b_heap b !! p = Some o -> ~ known cb (b_app b) (e_id (ev_event o)) -> known cb (b_app b') (e_id (ev_event o)) ->
  (missing b' l < missing b l)%nat.
Proof.
  intros Hh Hk Hp Ho Hn Hy. unfold missing. rewrite (pids_keep _ _ _ Hh).
  assert (e_id (ev_event o) ∈ pids b l) as Hin.
  { apply list_elem_of_omap. exists p. split; [done|]. by rewrite Ho. }
  revert Hin. induction (pids b l) as [|id ids IH]; [by intros ?%not_elem_of_nil|]. rewrite elem_of_cons, !filter_cons.
  assert (length (filter (fun x => ~ known cb (b_app b') x) ids) <= length (filter (fun x => ~ known cb (b_app b) x) ids))%nat.
  { clear IH. induction ids as [|x ids IH]; [done|]. rewrite !filter_cons. do 2 case_decide; simpl; [lia|naive_solver|lia|lia]. }
  intros [<-|Hin].
  - rewrite decide_False by tauto. rewrite decide_True by done. simpl. lia.
  - specialize (IH Hin). do 2 case_decide; simpl; [lia|naive_solver|lia|lia].
Qed.

(** ** One turn of [pushEvent] *)

Definition absent b (id : Z) : Prop := forall en, en ∈ slots b -> en_key en <> id.

(** A recheck: nothing happens while a parent is missing; otherwise the event
    leaves the cache. *)
Definition recheck_ok (fuel : nat) : Prop := forall p l b o,
  buffer_ok b -> view l b -> p ∈ l -> b_heap b !! p = Some o -> (missing b l < fuel)%nat ->
  exists r b', pushEvent cb size fuel p (Some l) true b = Ok (r, b') /\ buffer_ok b' /\ steps b b' /\ keeps b b' /\
    (known cb (b_app b) (e_id (ev_event o)) \/ complete cb (b_app b) (ev_event o) -> absent b' (e_id (ev_event o))).

Definition push_child (fuel : nat) (id : Z) (l : list nat) b (c : nat) : outcome buffer :=
  match b_heap b !! c with
  | None => Panic "nil event"
  | Some child =>
      if existsb (Z.eqb id) (e_parents (ev_event child)) then
        let* ' (_, b) := pushEvent cb size fuel c (Some l) true b in Ok b
      else Ok b
  end.

Lemma push_children fuel id l : recheck_ok fuel -> forall suf b,
  suf ⊆ l -> buffer_ok b -> view l b -> (missing b l < fuel)%nat ->
  exists b', foldM (push_child fuel id l) b suf = Ok b' /\ buffer_ok b' /\ steps b b' /\ keeps b b' /\
    forall c o, c ∈ suf -> b_heap b !! c = Some o -> id ∈ e_parents (ev_event o) -> complete cb (b_app b) (ev_event o) ->
      absent b' (e_id (ev_event o)).
Proof.
  intros IH. induction suf as [|c suf IHs]; intros b Hsub Hb Hv Hm; simpl.
  { exists b. splits; [done|done|apply steps_refl|apply keeps_refl|]. by intros ? ? ?%not_elem_of_nil. }
  destruct (vi_all _ _ Hv c) as [o Ho]; [apply Hsub; left|].
  assert (exists b1, push_child fuel id l b c = Ok b1 /\ buffer_ok b1 /\ steps b b1 /\ keeps b b1 /\
    (id ∈ e_parents (ev_event o) -> complete cb (b_app b) (ev_event o) -> absent b1 (e_id (ev_event o))))
    as (b1 & -> & Hb1 & Hs1 & Hp1 & Ha1).
  { unfold push_child. rewrite Ho. destruct (existsb _ _) eqn:Hex.
    - destruct (IH c l b o Hb Hv ltac:(apply Hsub; left) Ho Hm) as (r & b1 & -> & Hb1 & Hs1 & Hp1 & Ha1). simpl.
      exists b1. splits; try done. intros _ Hc. apply Ha1. by right.
    - exists b. splits; [done|done|apply steps_refl|apply keeps_refl|]. intros Hin _. exfalso. 
      apply not_true_iff_false in Hex. apply Hex, existsb_exists. exists id. rewrite Z.eqb_refl. by rewrite <- list_elem_of_In. }
  simpl. destruct (IHs b1) as (b2 & Hf & Hb2 & Hs2 & Hp2 & Ha2).
  { intros x Hx. apply Hsub. by right. } { done. }
  { apply (view_keep l b); [done|apply Hs1|apply Hs1]. }
  { pose proof (missing_le l b b1 (st_heap _ _ Hs1) (fun id => rtc_known _ _ id (st_app _ _ Hs1))). lia. }
  exists b2. splits; try done; [by eapply steps_trans|by eapply keeps_trans|].
  intros c' o' [->|Hin]%elem_of_cons Ho' Hpar Hc.
  - simplify_eq. intros en He. by apply (Ha1 Hpar Hc), (st_slots _ _ Hs2).
  - destruct (heap_event _ _ _ _ (st_heap _ _ Hs1) Ho') as (o1 & Ho1 & Heq & _). rewrite <- Heq in *.
    apply (Ha2 c' o1 Hin Ho1 Hpar). by apply (rtc_complete (b_app b)); [apply (st_app _ _ Hs1)|].
Qed.

(** A complete event: checked and processed, then its children, then removed. *)
Definition connect (fuel : nat) (p : nat) (e : BaseEvent) (parents : list BaseEvent) (list_ : option (list nat)) b : outcome (bool * buffer) :=
  let '(ok, b) := processCompleteEvent cb p e parents b in
  let b := releaseEvent cb p b in
  let* b :=
    if ok then let l := default (getIncompleteEventsList b) list_ in foldM (push_child fuel (e_id e) l) b l else Ok b in
  let* b := remove_incomplete b (e_id e) in
  Ok (ok, b).

Lemma release_processed p id ok b b1 o :
  b_heap b !! p = Some o -> e_id (ev_event o) = id -> processed p id ok b b1 ->
  let b2 := releaseEvent cb p b1 in
  buffer_ok b2 /\ b_incompletes b2 = b_incompletes b /\ b_limit b2 = b_limit b /\
  (fun o => (ev_event o, ev_peer o)) <$> b_heap b2 = (fun o => (ev_event o, ev_peer o)) <$> b_heap b /\
  (forall q, released b2 q <-> q = p \/ released b q) /\ b_app b2 = b_app b1.
Proof.
  intros Ho Hid Hp b2. destruct (pr_err _ _ _ _ _ Hp) as (o1 & Ho1 & Herr).
  destruct (heap_event _ _ _ _ (pr_heap _ _ _ _ _ Hp) Ho) as (o1' & Ho1' & Heq & _). simplify_eq.
  destruct (releaseEvent_ok p b1 o1 (pr_ok _ _ _ _ _ Hp) Ho1) as (Hb2 & Hr & Hq & Hh).
  { intros _ He. destruct ok; [|by specialize (Herr eq_refl)]. apply (pr_known _ _ _ _ _ Hp). right. by rewrite Heq. }
  splits; [done| | |etrans; [exact Hh|apply Hp]| |].
  - unfold b2, releaseEvent. rewrite Ho1. simpl. apply Hp.
  - unfold b2, releaseEvent. rewrite Ho1. simpl. apply Hp.
  - intros q. rewrite <- (pr_released _ _ _ _ _ Hp q). unfold released. destruct (decide (q = p)) as [->|Hne].
    + split; [by left|]. intros _. apply Hr.
    + unfold b2. rewrite (Hq q Hne). naive_solver.
  - unfold b2, releaseEvent. by rewrite Ho1.
Qed.

Lemma connect_spec fuel p o e parents list_ b l :
  recheck_ok fuel -> buffer_ok b -> b_heap b !! p = Some o -> ev_event o = e -> ~ known cb (b_app b) (e_id e) ->
  completeEventParents cb (b_app b) e = Some parents ->
  default (getIncompleteEventsList b) list_ = l -> view l b ->
  (forall b', (fun o => (ev_event o, ev_peer o)) <$> b_heap b' = (fun o => (ev_event o, ev_peer o)) <$> b_heap b ->
    (forall x, known cb (b_app b') x <-> known cb (b_app b) x \/ x = e_id e) -> (missing b' l < fuel)%nat) ->
  (forall en, en ∈ slots b -> en_key en = e_id e -> en_value en = p) ->
  exists ok b', connect fuel p e parents list_ b = Ok (ok, b') /\ buffer_ok b' /\ steps b b' /\ keeps b b' /\ absent b' (e_id e) /\
    released b' p /\ (ok = true -> known cb (b_app b') (e_id e)) /\ (no_refusal -> fine b -> ok = true).
Proof.
  intros IH Hb Ho He Hk Hps Hl Hv Hm Hown. unfold connect.
  destruct (processCompleteEvent_spec p o e parents b Hb Ho He Hk Hps) as (ok & b1 & -> & Hpr & Hnr).
  destruct (release_processed p (e_id e) ok b b1 o Ho ltac:(by rewrite He) Hpr) as (Hb2 & Hc2 & Hlim2 & Hh2 & Hr2 & Ha2).
  set (b2 := releaseEvent cb p b1) in *. cbv zeta.
  assert (forall x, known cb (b_app b2) x <-> known cb (b_app b) x \/ (ok = true /\ x = e_id e)) as Hk2.
  { intros x. rewrite Ha2. apply Hpr. }
  assert (slots b2 = slots b) as Hs2 by (unfold slots; by rewrite Hc2).
  set (l2 := default (getIncompleteEventsList b2) list_).
  assert (exists b3, (if ok then foldM (push_child fuel (e_id e) l2) b2 l2 else Ok b2) = Ok b3 /\
    buffer_ok b3 /\ steps b2 b3 /\ keeps b2 b3 /\ forall c oc, ok = true -> c ∈ l -> b_heap b2 !! c = Some oc -> e_id e ∈ e_parents (ev_event oc) ->
      complete cb (b_app b2) (ev_event oc) -> absent b3 (e_id (ev_event oc))) as (b3 & -> & Hb3 & Hs3 & Hp3 & Ha3).
  { destruct ok; [|exists b2; split; [done|]; split; [done|]; split; [apply steps_refl|split; [apply keeps_refl|done]]].
    assert (l2 = l) as ->.
    { unfold l2. rewrite <- Hl. unfold getIncompleteEventsList. by rewrite Hc2. }
    destruct (push_children fuel (e_id e) l IH l b2) as (b3 & Hf & Hb3 & Hs3 & Hp3 & Ha3); [done|done| | |].
    - apply (view_keep l b); [done..|]. by rewrite Hs2.
    - apply Hm; [done|]. intros x. rewrite Hk2. naive_solver.
    - exists b3. split; [done|]. split; [done|]. split; [done|]. split; [done|]. intros c oc _. apply Ha3. }
  simpl. destruct (remove_incomplete_ok b3 (e_id e) Hb3) as (b4 & -> & Hb4 & Hh4 & Hap4 & Hlim4 & _ & Hsl4 & Hm4).
  simpl. exists ok, b4. split; [done|]. split; [done|].
  assert (absent b4 (e_id e)) as Habs.
  { intros en Hin. rewrite Hsl4 in Hin. by apply list_elem_of_filter in Hin as [Hne _]. }
  assert (forall en, en ∈ slots b4 -> en ∈ slots b3) as Hsub4.
  { intros en. rewrite Hsl4. by intros [_ ?]%list_elem_of_filter. }
  assert (forall en, en ∈ slots b4 -> en ∈ slots b) as Hsub.
  { intros en Hin. rewrite <- Hs2. by apply (st_slots _ _ Hs3), Hsub4. }
  assert (forall q, released b4 q <-> released b3 q) as Hr4 by (intros q; unfold released; by rewrite Hh4).
  assert (~ cached b4 p) as Hnp.
  { intros (en & Hin & Hv'). destruct (bo_slots _ Hb4 en Hin) as (o4 & Ho4 & Hid & _). rewrite Hv' in Ho4.
    assert ((fun o => (ev_event o, ev_peer o)) <$> b_heap b4 = (fun o => (ev_event o, ev_peer o)) <$> b_heap b) as Hh4'.
    { by rewrite Hh4, (st_heap _ _ Hs3). }
    destruct (heap_event _ _ _ _ Hh4' Ho) as (o4' & Ho4' & Heq & _). simplify_eq. apply (Habs en Hin). by rewrite <- Hid, Heq. }
  splits; [| |done| | |intros Hn Hf; by apply Hnr].
  - split.
    + rewrite Hlim4, (st_limit _ _ Hs3). done.
    + destruct (st_caps _ _ Hs3) as [E1 E2]. rewrite Hc2 in E1, E2. destruct Hm4. split; congruence.
    + rewrite Hh4, (st_heap _ _ Hs3). done.
    + intros q Hq. apply Hr4, (st_released _ _ Hs3), Hr2. by right.
    + rewrite Hap4. etrans; [|apply (st_app _ _ Hs3)]. rewrite Ha2. apply Hpr.
    + done.
    + intros q Hq Hn. apply Hr4. destruct (decide (cached b3 q)) as [(en & Hin & Hvq)|Hq3].
      * apply (st_released _ _ Hs3), Hr2. left. rewrite <- Hvq. apply Hown; [rewrite <- Hs2; by apply (st_slots _ _ Hs3)|].
        destruct (decide (en_key en = e_id e)) as [|Hne]; [done|]. destruct Hn. exists en. split; [|done].
        rewrite Hsl4. apply list_elem_of_filter. done.
      * apply (st_removed _ _ Hs3); [|done]. destruct Hq as (en & Hin & Hvq). exists en. by rewrite Hs2.
    + intros q Hq Hn Hc. destruct (decide (q = p)) as [->|Hne]; [done|].
      apply Hr4 in Hq. apply (st_gone _ _ Hs3 q Hq); [intros [?|?]%Hr2; done|].
      destruct Hc as (en & Hin & Hvq). exists en. split; [by apply Hsub4|done].
    + intros en oc Hin Hoc Hcomp. rewrite Hap4 in Hcomp.
      destruct (heap_event _ _ _ _ Hh2 Hoc) as (oc2 & Hoc2 & Heq & _). rewrite <- Heq in *.
      assert (complete cb (b_app b2) (ev_event oc2)) as Hcomp2.
      { apply (st_complete _ _ Hs3 en oc2); [by apply Hsub4|done..]. }
      destruct (decide (e_id e ∈ e_parents (ev_event oc2) /\ ok = true)) as [[Hpar ->]|Hpar].
      * exfalso. apply (Ha3 (en_value en) oc2 eq_refl) with (en := en); try done; [by apply (vi_cover _ _ Hv), Hsub|by apply Hsub4|].
        destruct (bo_slots _ Hb en (Hsub _ Hin)) as (ob & Hob & Hid & _). simplify_eq. by rewrite Heq.
      * apply Forall_forall. intros x Hx. unfold complete in Hcomp2. rewrite Forall_forall in Hcomp2.
        pose proof (proj1 (Hk2 x) (Hcomp2 x Hx)) as Hx2. destruct Hx2 as [?|[Ho2 ->]]; [done|]. by destruct Hpar.
    + intros en Hin Hkn. rewrite Hap4 in Hkn. apply (st_known _ _ Hs3 en (Hsub4 _ Hin)), Hk2 in Hkn.
      destruct Hkn as [?|[_ Heq]]; [done|]. by destruct (Habs en Hin).
  - intros Hn Hf. destruct (Hnr Hn Hf) as [Hok HI1]. destruct (Hp3 Hn) as [HI3 Hkp3].
    { eapply fine_heap; [exact Hh2| |done]. by rewrite Ha2. }
    rewrite Hap4. split; [done|]. intros en Hin. destruct (decide (en_key en = e_id e)) as [Heq|Hne].
    + right. rewrite Heq. apply (rtc_known (b_app b2)); [apply Hs3|]. apply Hk2. by right.
    + destruct (Hkp3 en) as [Hin3|?]; [by rewrite Hs2| |by right]. left. rewrite Hsl4. by apply list_elem_of_filter.
  - apply Hr4, (st_released _ _ Hs3), Hr2. by left.
  - intros ->. rewrite Hap4. apply (rtc_known (b_app b2)); [apply Hs3|]. apply Hk2. by right.
Qed.

(** An event leaves the cache and is released. *)
Definition drop_opt (drop : option string) (p : nat) b : buffer :=
  match drop with Some err => dropEvent p err b | None => b end.

Lemma discard_spec p o drop c b :
  buffer_ok b -> b_heap b !! p = Some o -> cache_wf c ->
  maxWeight c = maxWeight (b_incompletes b) -> maxSize c = maxSize (b_incompletes b) ->
  (forall en, en ∈ contents c -> en ∈ slots b /\ en_value en <> p) ->
  (forall en, en ∈ slots b -> en ∈ contents c \/ en_value en = p) ->
  (drop = None -> known cb (b_app b) (e_id (ev_event o))) ->
  let b' := releaseEvent cb p (drop_opt drop p (with_incompletes b c)) in
  buffer_ok b' /\ steps b b' /\ slots b' = contents c /\ b_app b' = b_app b /\ released b' p.
Proof.
  intros Hb Hp Hwf Hm1 Hm2 Hsub Hown Hdrop b'.
  assert (buffer_ok (with_incompletes b c)) as Hb1.
  { split; [done| |exact (bo_log _ Hb)|exact (bo_connected _ Hb)]. intros en He. apply (bo_slots _ Hb).
    by apply Hsub. }
  assert (exists b2, drop_opt drop p (with_incompletes b c) = b2 /\ buffer_ok b2 /\ b_incompletes b2 = c /\ b_limit b2 = b_limit b /\
    b_app b2 = b_app b /\ (forall q, released b2 q <-> released b q) /\
    (fun o => (ev_event o, ev_peer o)) <$> b_heap b2 = (fun o => (ev_event o, ev_peer o)) <$> b_heap b /\
    exists o2, b_heap b2 !! p = Some o2 /\ (ev_err o2 = None -> known cb (b_app b) (e_id (ev_event o))))
    as (b2 & Hb2' & Hb2 & Hi2 & Hl2 & Ha2 & Hr2 & Hh2 & o2 & Ho2 & Hk2).
  { destruct drop as [err|]; simpl; eexists; (split; [done|]).
    - destruct (processed_drop p 0 _ err o Hb1 Hp) as [H1 H2 H3 H4 H5 _ _ (o2 & Ho2 & He2)].
      splits; [done..|]. exists o2. split; [done|]. intros He. by destruct (He2 eq_refl).
    - splits; [done..|]. exists o. auto. }
  destruct (heap_event _ _ _ _ Hh2 Hp) as (o2' & Ho2' & Heq & _). rewrite Ho2 in Ho2'. injection Ho2' as <-.
  unfold b'. rewrite Hb2'. destruct (releaseEvent_ok p b2 o2 Hb2 Ho2) as (Hb3 & Hr3 & Hq3 & Hh3).
  { intros _ He. rewrite Ha2, Heq. by apply Hk2. }
  assert (b_incompletes (releaseEvent cb p b2) = c /\ b_limit (releaseEvent cb p b2) = b_limit b /\ b_app (releaseEvent cb p b2) = b_app b)
    as (Hi3 & Hl3 & Ha3) by (unfold releaseEvent; rewrite Ho2; done).
  assert (slots (releaseEvent cb p b2) = contents c) as Hs3 by (unfold slots; by rewrite Hi3).
  assert (forall q, released (releaseEvent cb p b2) q <-> q = p \/ released b q) as Hr4.
  { intros q. rewrite <- Hr2. destruct (decide (q = p)) as [->|Hne]; [naive_solver|].
    unfold released at 1. rewrite (Hq3 q Hne). unfold released. naive_solver. }
  splits; try done. split.
  - done.
  - by rewrite Hi3.
  - by rewrite Hh3, Hh2.
  - intros q Hq. apply Hr4. by right.
  - rewrite Ha3. done.
  - rewrite Hs3. intros en Hin. by apply Hsub.
  - intros q (en & Hin & Hv) Hn. apply Hr4. left. rewrite <- Hv. destruct (Hown en Hin) as [Hin2|]; [|done].
    destruct Hn. exists en. by rewrite Hs3.
  - intros q [->|?]%Hr4 Hn; [|done]. intros (en & Hin & Hv). rewrite Hs3 in Hin. by apply Hsub in Hin as [Hin Hne].
  - rewrite Ha3. done.
  - rewrite Ha3. done.
Qed.

Lemma pushEvent_unfold fuel p list_ recheck b :
  pushEvent cb size (S fuel) p list_ recheck b =
  match b_heap b !! p with
  | None => Panic "nil event"
  | Some o =>
      let e := ev_event o in
      if cb_Exists cb (b_app b) (e_id e) then
        let* b := remove_incomplete b (e_id e) in
        Ok (false, releaseEvent cb p (drop_opt (if recheck then None else Some ErrAlreadyConnectedEvent) p b))
      else
        match completeEventParents cb (b_app b) e with
        | None =>
            if recheck then Ok (false, b)
            else let* ' (_, c) := Cache_Add (b_incompletes b) (e_id e) p (u64 (size e)) in Ok (false, with_incompletes b c)
        | Some parents => connect fuel p e parents list_ b
        end
  end.
Proof. simpl. destruct (b_heap b !! p); [|done]. by destruct recheck. Qed.

Lemma own_removed p o b (l : list (entry Z nat)) :
  buffer_ok b -> b_heap b !! p = Some o -> l = filter (fun en => en_key en <> e_id (ev_event o)) (slots b) ->
  (forall en, en ∈ slots b -> en_key en = e_id (ev_event o) -> en_value en = p) ->
  (forall en, en ∈ l -> en ∈ slots b /\ en_value en <> p) /\ (forall en, en ∈ slots b -> en ∈ l \/ en_value en = p).
Proof.
  intros Hb Ho -> Hown. split; intros en.
  - intros [Hne Hin]%list_elem_of_filter. split; [done|]. destruct (bo_slots _ Hb en Hin) as (o' & Ho' & Hid & _).
    intros Hv. rewrite Hv in Ho'. congruence.
  - intros Hin. destruct (decide (en_key en = e_id (ev_event o))) as [He|Hne]; [right; by apply Hown|left].
    by apply list_elem_of_filter.
Qed.

(** The branch for an event that is known already. *)
Lemma push_known p o drop b :
  buffer_ok b -> b_heap b !! p = Some o -> known cb (b_app b) (e_id (ev_event o)) ->
  (forall en, en ∈ slots b -> en_key en = e_id (ev_event o) -> en_value en = p) ->
  exists b1 b', remove_incomplete b (e_id (ev_event o)) = Ok b1 /\ releaseEvent cb p (drop_opt drop p b1) = b' /\
    buffer_ok b' /\ steps b b' /\ keeps b b' /\ absent b' (e_id (ev_event o)) /\ released b' p /\ b_app b' = b_app b.
Proof.
  intros Hb Ho Hk Hown.
  destruct (Cache_Remove_spec (b_incompletes b) (e_id (ev_event o)) (bo_cache _ Hb)) as (r & c & Hr & Hwf & Hc & Hm1 & Hm2).
  destruct (own_removed p o b _ Hb Ho Hc Hown) as [Hsub Hown'].
  destruct (discard_spec p o drop c b Hb Ho Hwf Hm1 Hm2 Hsub Hown' ltac:(done)) as (Hb' & Hs & Hsl & Ha & Hrel).
  unfold remove_incomplete. rewrite Hr. simpl. eexists _, _. splits; [done|done|done|done| | |done|done].
  - intros _ [HI _]. rewrite Ha. split; [done|]. intros en Hin. rewrite Hsl, Hc. destruct (decide (en_key en = e_id (ev_event o))) as [->|Hne]; [by right|left].
    by apply list_elem_of_filter.
  - intros en Hin. rewrite Hsl, Hc in Hin. by apply list_elem_of_filter in Hin as [? _].
Qed.

Lemma recheck_all fuel : recheck_ok fuel.
Proof.
  induction fuel as [|fuel IH]; intros p l b o Hb Hv Hp Ho Hm; [lia|]. rewrite pushEvent_unfold, Ho. cbv zeta.
  rewrite Exists_known. case_bool_decide as Hk.
  - destruct (push_known p o None b Hb Ho Hk) as (b1 & b' & -> & Heq & Hb' & Hs & Hkp & Ha & _); [by intros en; apply (vi_same _ _ Hv)|].
    simpl in *. rewrite Heq. eauto 10.
  - destruct (completeEventParents cb (b_app b) (ev_event o)) as [parents|] eqn:Hps.
    + destruct (connect_spec fuel p o _ parents (Some l) b l IH Hb Ho eq_refl Hk Hps eq_refl Hv) as (ok & b' & -> & Hb' & Hs & Hkp & Ha & _).
      * intros b1 Hh Hkn. pose proof (missing_lt l b b1 p o Hh ltac:(naive_solver) Hp Ho Hk ltac:(naive_solver)). lia.
      * intros en. by apply (vi_same _ _ Hv).
      * eauto 10.
    + exists false, b. splits; [done|done|apply steps_refl|apply keeps_refl|]. intros [?|Hc]; [done|].
      apply completeEventParents_complete in Hc as [? ?]. congruence.
Qed.

(** ** Between two calls *)

(** Every record is either buffered or released, and what is buffered waits. *)
Record calm b : Prop := {
  ca_ok : buffer_ok b;
  ca_split : forall p o, b_heap b !! p = Some o -> (ev_released o = true <-> ~ cached b p);
  ca_waiting : forall en o, en ∈ slots b -> b_heap b !! en_value en = Some o ->
    ~ complete cb (b_app b) (ev_event o) /\ ~ known cb (b_app b) (en_key en);
  ca_caps : maxWeight (b_incompletes b) = MaxInt32 /\ maxSize (b_incompletes b) = MaxInt32
}.

Definition with_new b (de : BaseEvent) (peer : string) : buffer := with_heap b (b_heap b ++ [mk_event de peer None false]).

Lemma with_new_lookup b de peer : b_heap (with_new b de peer) !! length (b_heap b) = Some (mk_event de peer None false).
Proof. simpl. rewrite lookup_app_r, Nat.sub_diag by lia. done. Qed.

Lemma slot_old b en : buffer_ok b -> en ∈ slots b -> (en_value en < length (b_heap b))%nat.
Proof. intros Hb Hin. destruct (bo_slots _ Hb en Hin) as (o & Ho & _). by eapply lookup_lt_Some. Qed.

Lemma with_new_ok b de peer : buffer_ok b -> buffer_ok (with_new b de peer).
Proof.
  intros Hb. split; [apply Hb| | |apply Hb].
  - intros en Hin. destruct (bo_slots _ Hb en Hin) as (o & Ho & Hr). exists o. split; [|done].
    simpl. rewrite lookup_app_l; [done|]. by eapply lookup_lt_Some.
  - intros Hr. simpl. rewrite filter_app, fmap_app, (bo_log _ Hb Hr). simpl. by rewrite app_nil_r.
Qed.

(** The new record is disposed of, the rest moved by [steps]. *)
Lemma calm_steps b de peer b' :
  calm b -> buffer_ok b' -> steps (with_new b de peer) b' -> released b' (length (b_heap b)) -> calm b'.
Proof.
  intros Hc Hb' Hs Hrel. set (b0 := with_new b de peer) in *. split; [done| | |].
  - intros q o Ho. assert (ev_released o = true <-> released b' q) as ->.
    { split; [intros; by exists o|]. intros (o' & Ho' & ?). congruence. }
    destruct (heap_event_back _ _ _ _ (st_heap _ _ Hs) Ho) as (o0 & Ho0 & _).
    destruct (decide (q = length (b_heap b))) as [->|Hne].
    { split; [|done]. intros _ (en & Hin & Hv). apply (st_slots _ _ Hs) in Hin. pose proof (slot_old b en (ca_ok _ Hc) Hin). lia. }
    assert (b_heap b !! q = Some o0) as Hq.
    { simpl in Ho0. rewrite lookup_app_Some in Ho0. destruct Ho0 as [?|[Hge Hl]]; [done|].
      destruct (q - length (b_heap b))%nat eqn:E; [lia|done]. }
    assert (released b0 q <-> ~ cached b q) as Hq0.
    { rewrite <- (ca_split _ Hc q o0 Hq). split; [intros (? & ? & ?); congruence|]. by exists o0. }
    destruct (decide (cached b q)) as [Hcq|Hcq].
    + split; [|by apply (st_removed _ _ Hs)]. intros Hr. apply (st_gone _ _ Hs q Hr). tauto.
    + split; [|intros _; by apply (st_released _ _ Hs), Hq0].
      intros _ (en & Hin & Hv). apply Hcq. exists en. split; [by apply (st_slots _ _ Hs)|done].
  - intros en o Hin Ho. destruct (heap_event_back _ _ _ _ (st_heap _ _ Hs) Ho) as (o0 & Ho0 & Heq & _). rewrite <- Heq.
    pose proof (st_slots _ _ Hs en Hin) as Hin0. change (slots b0) with (slots b) in Hin0.
    assert (b_heap b !! en_value en = Some o0) as Hq.
    { simpl in Ho0. rewrite lookup_app_l in Ho0; [done|]. apply slot_old; [apply Hc|done]. }
    destruct (ca_waiting _ Hc en o0 Hin0 Hq) as [Hw1 Hw2]. split.
    + intros H. apply Hw1. by apply (st_complete _ _ Hs en o0).
    + intros H. apply Hw2. by apply (st_known _ _ Hs en).
  - destruct (st_caps _ _ Hs) as [-> ->]. apply Hc.
Qed.

(** ** Spilling *)

Lemma discard_calm p o c b :
  calm b -> b_heap b !! p = Some o -> cache_wf c ->
  maxWeight c = maxWeight (b_incompletes b) -> maxSize c = maxSize (b_incompletes b) ->
  (forall en, en ∈ contents c -> en ∈ slots b /\ en_value en <> p) ->
  (forall en, en ∈ slots b -> en ∈ contents c \/ en_value en = p) ->
  let b' := releaseEvent cb p (dropEvent p ErrSpilledEvent (with_incompletes b c)) in
  calm b' /\ steps b b' /\ slots b' = contents c /\ b_app b' = b_app b.
Proof.
  intros Hc Ho Hwf Hm1 Hm2 Hsub Hown b'.
  destruct (discard_spec p o (Some ErrSpilledEvent) c b (ca_ok _ Hc) Ho Hwf Hm1 Hm2 Hsub Hown ltac:(done)) as (Hb' & Hs & Hsl & Ha & Hrel).
  simpl in *. fold b' in Hb', Hs, Hsl, Ha, Hrel. splits; try done. split; [done| | |].
  - intros q o' Ho'. assert (ev_released o' = true <-> released b' q) as ->.
    { split; [intros; by exists o'|]. intros (o2 & Ho2 & ?). congruence. }
    destruct (heap_event_back _ _ _ _ (st_heap _ _ Hs) Ho') as (o0 & Ho0 & _).
    assert (released b q <-> ~ cached b q) as Hq0.
    { rewrite <- (ca_split _ Hc q o0 Ho0). split; [intros (? & ? & ?); congruence|]. by exists o0. }
    destruct (decide (cached b q)) as [Hcq|Hcq].
    + split; [|by apply (st_removed _ _ Hs)]. intros Hr. apply (st_gone _ _ Hs q Hr). tauto.
    + split; [|intros _; by apply (st_released _ _ Hs), Hq0].
      intros _ (en & Hin & Hv). apply Hcq. exists en. split; [by apply (st_slots _ _ Hs)|done].
  - intros en o' Hin Ho'. destruct (heap_event_back _ _ _ _ (st_heap _ _ Hs) Ho') as (o0 & Ho0 & Heq & _).
    rewrite Ha, <- Heq. apply (ca_waiting _ Hc en o0); [by apply (st_slots _ _ Hs)|done].
  - destruct (st_caps _ _ Hs) as [-> ->]. apply Hc.
Qed.

(** Distinct entries hold distinct records. *)
Lemma slot_values_NoDup b : buffer_ok b -> NoDup (en_value <$> slots b).
Proof.
  intros Hb. apply NoDup_fmap_2_strong; [|eapply NoDup_fmap_1, contents_keys_NoDup, (bo_cache _ Hb)].
  intros e1 e2 H1 H2 Hv. destruct (bo_slots _ Hb _ H1) as (o1 & Ho1 & Hk1 & Hw1), (bo_slots _ Hb _ H2) as (o2 & Ho2 & Hk2 & Hw2).
  rewrite Hv in Ho1. simplify_eq. destruct e1, e2. simpl in *. congruence.
Qed.

Lemma first_unimportant_Some imp b keys k p :
  first_unimportant imp b keys = Some (k, p) -> Cache_Peek (b_incompletes b) k = Some p.
Proof.
  induction keys as [|k' keys IH]; simpl; [done|]. destruct (Cache_Peek (b_incompletes b) k') as [p'|] eqn:Hp; simpl; [|done].
  destruct (b_heap b !! p') as [o|]; simpl; [|done]. destruct (imp (ev_event o)); [done|]. by intros [= -> ->].
Qed.

Lemma spill_oldest_spec b :
  calm b ->
  (slots b = [] /\ spill_oldest cb b = Ok None) \/
  exists b', spill_oldest cb b = Ok (Some b') /\ calm b' /\ steps b b' /\ b_app b' = b_app b /\ S (length (slots b')) = length (slots b).
Proof.
  intros Hc. unfold spill_oldest. destruct (RemoveOldest_spec _ (bo_cache _ (ca_ok _ Hc))) as [[He ->]|(l & e & c & Hl & -> & Hwf & Hcl & Hm1 & Hm2)].
  { by left. } right. simpl. assert (e ∈ slots b) as Hin by (unfold slots; rewrite Hl; set_solver).
  destruct (bo_slots _ (ca_ok _ Hc) e Hin) as (o & Ho & _).
  assert (forall en, en ∈ l -> en_value en <> en_value e) as Hne.
  { pose proof (slot_values_NoDup b (ca_ok _ Hc)) as Hnd. unfold slots in Hnd. rewrite Hl, fmap_app, NoDup_app in Hnd.
    destruct Hnd as (_ & Hd & _). intros en Hen Hv. apply (Hd (en_value en)); [by apply list_elem_of_fmap_2|]. csimpl. rewrite Hv. left. }
  destruct (discard_calm (en_value e) o c b Hc Ho Hwf Hm1 Hm2) as (Hc' & Hs & Hsl & Ha).
  - intros en. rewrite Hcl. intros Hen. split; [unfold slots; rewrite Hl; set_solver|by apply Hne].
  - intros en. unfold slots. rewrite Hl, Hcl, elem_of_app, list_elem_of_singleton. naive_solver.
  - eexists. splits; try done. rewrite Hsl, Hcl. unfold slots. rewrite Hl, length_app. simpl. lia.
Qed.

Lemma spill_one_spec b :
  calm b ->
  (slots b = [] /\ spill_one cb b = Ok None) \/
  exists b', spill_one cb b = Ok (Some b') /\ calm b' /\ steps b b' /\ b_app b' = b_app b /\ (length (slots b') < length (slots b))%nat.
Proof.
  intros Hc. assert ((slots b = [] /\ spill_oldest cb b = Ok None) \/
    exists b', spill_oldest cb b = Ok (Some b') /\ calm b' /\ steps b b' /\ b_app b' = b_app b /\ (length (slots b') < length (slots b))%nat) as Hold.
  { destruct (spill_oldest_spec b Hc) as [?|(b' & ? & ? & ? & ? & ?)]; [by left|right]. exists b'. splits; try done. lia. }
  unfold spill_one. destruct (cb_IsImportant cb) as [imp|]; [|done].
  destruct (first_unimportant imp b _) as [[k p]|] eqn:Hf; [|done]. right.
  apply first_unimportant_Some, Peek_contents in Hf as (e & Hin & Hk & Hv); [|apply Hc]. subst k p.
  destruct (bo_slots _ (ca_ok _ Hc) e Hin) as (o & Ho & Hid & _).
  destruct (Cache_Remove_spec (b_incompletes b) (en_key e) (bo_cache _ (ca_ok _ Hc))) as (r & c & Hr & Hwf & Hcc & Hm1 & Hm2).
  rewrite <- Hid in Hcc.
  destruct (own_removed (en_value e) o b _ (ca_ok _ Hc) Ho Hcc) as [Hsub Hown].
  { intros en Hen Hk. rewrite Hid in Hk. f_equal. by apply (key_unique (b_incompletes b)); [apply Hc|..]. }
  destruct (discard_calm (en_value e) o c b Hc Ho Hwf Hm1 Hm2 Hsub Hown) as (Hc' & Hs & Hsl & Ha).
  unfold remove_incomplete. rewrite Hr. simpl. eexists. splits; try done. rewrite Hsl, Hcc.
  apply length_filter_lt with e; [done|]. by rewrite Hid; intros Hn; apply Hn.
Qed.

Lemma over_limit_empty limit b :
  calm b -> 0 <= Num limit -> 0 <= Size limit -> slots b = [] -> over_limit limit b = false.
Proof.
  intros Hc Hn Hz He. unfold over_limit, Cache_Weight. rewrite (Len_contents _ (bo_cache _ (ca_ok _ Hc))).
  rewrite (cw_weight _ (bo_cache _ (ca_ok _ Hc))). unfold slots in He. rewrite He. simpl. apply orb_false_iff.
  split; apply Z.ltb_ge; unfold u32, u64; rewrite Zmod_0_l; done.
Qed.

Lemma spill_loop_spec fuel limit : forall b,
  calm b -> 0 <= Num limit -> 0 <= Size limit -> (length (slots b) <= fuel)%nat ->
  exists b', spill_loop cb fuel limit b = Ok b' /\ calm b' /\ b_app b' = b_app b /\ steps b b' /\ over_limit limit b' = false.
Proof.
  induction fuel as [|fuel IH]; intros b Hc Hn Hz Hlen; simpl.
  - assert (over_limit limit b = false) as Ho.
    { apply over_limit_empty; try done. destruct (slots b); [done|simpl in Hlen; lia]. }
    rewrite Ho. exists b. splits; try done.
  - destruct (over_limit limit b) eqn:Ho; [|exists b; by splits].
    destruct (spill_one_spec b Hc) as [[He _]|(b1 & -> & Hc1 & Hs1 & Ha1 & Hl1)]; [by rewrite over_limit_empty in Ho|].
    simpl. destruct (IH b1) as (b' & -> & Hc' & Ha' & Hs' & Hov); [done..|lia|].
    exists b'. splits; try done; [congruence|by eapply steps_trans].
Qed.

Lemma spillIncompletes_spec limit b :
  calm b -> 0 <= Num limit -> 0 <= Size limit ->
  exists b', spillIncompletes cb limit b = Ok b' /\ calm b' /\ b_app b' = b_app b /\ steps b b' /\ over_limit limit b' = false.
Proof.
  intros Hc Hn Hz. apply spill_loop_spec; try done. by rewrite <- (contents_length _ (bo_cache _ (ca_ok _ Hc))).
Qed.

(** What the limits say of the entries. *)
Definition fits (num size : Z) b : Prop := Z.of_nat (length (slots b)) <= num /\ wsum en_weight (slots b) <= size.

Lemma steps_fits num sz b b' : buffer_ok b' -> steps b b' -> fits num sz b -> buffer_ok b -> fits num sz b'.
Proof.
  intros Hb' Hs [Hn Hw] Hb. assert (slots b' ⊆+ slots b) as Hsub.
  { apply NoDup_submseteq; [|apply Hs]. by eapply NoDup_fmap_1, slot_values_NoDup. }
  split; [apply submseteq_length in Hsub; lia|]. apply submseteq_Permutation in Hsub as [l Hl]. rewrite Hl, wsum_app in Hw.
  assert (0 <= wsum en_weight l); [|lia]. apply wsum_nonneg. intros en Hin.
  pose proof (cw_weights _ (bo_cache _ Hb)) as Hf. rewrite Forall_forall in Hf. apply Hf. fold (slots b). rewrite Hl. set_solver.
Qed.

Lemma over_limit_fits limit b :
  calm b -> over_limit limit b = false -> fits MaxInt32 MaxInt32 b -> fits (Num limit) (Size limit) b.
Proof.
  intros Hc Ho [Hl Hw]. unfold over_limit, Cache_Weight in Ho. rewrite (Len_contents _ (bo_cache _ (ca_ok _ Hc))) in Ho.
  rewrite (cw_weight _ (bo_cache _ (ca_ok _ Hc))) in Ho. bool_to_prop. destruct Ho as [H1 H2]. fold (slots b) in *.
  rewrite u32_small in H1 by solve_width. rewrite u64_small in H2; [done|].
  split; [|solve_width]. apply wsum_nonneg. intros en Hin. pose proof (cw_weights _ (bo_cache _ (ca_ok _ Hc))) as Hf.
  rewrite Forall_forall in Hf. by apply Hf.
Qed.

(** ** One call of [PushEvent] *)

Definition quiet b : Prop := calm b /\ fits (Num (b_limit b)) (Size (b_limit b)) b.

(** The cache itself never evicts: its own limits are out of reach. *)
Definition limits_ok (limit : Metric) : Prop := 0 <= Num limit < MaxInt32 /\ 0 <= Size limit.
Definition fits_size (limit : Metric) (e : BaseEvent) : Prop := 0 <= size e /\ Size limit + size e <= MaxInt32.

Lemma pairs_calm b b' de peer :
  (fun o => (ev_event o, ev_peer o)) <$> b_heap b' = (fun o => (ev_event o, ev_peer o)) <$> b_heap (with_new b de peer) ->
  (fun o => (ev_event o, ev_peer o)) <$> b_heap b' = ((fun o => (ev_event o, ev_peer o)) <$> b_heap b) ++ [(de, peer)].
Proof. intros ->. simpl. by rewrite fmap_app. Qed.

Lemma Peek_None_absent b id : buffer_ok b -> Cache_Peek (b_incompletes b) id = None -> absent b id.
Proof.
  intros Hb Hp en Hin Hk. assert (Cache_Peek (b_incompletes b) id = Some (en_value en)) as Hs; [|congruence].
  apply Peek_contents; [apply Hb|]. by exists en.
Qed.

Lemma elem_of_incomplete_list b p : buffer_ok b -> p ∈ getIncompleteEventsList b <-> cached b p.
Proof.
  intros Hb. unfold getIncompleteEventsList. rewrite list_elem_of_omap, Keys_contents. unfold cached, slots. split.
  - intros (k & _ & Hp). apply Peek_contents in Hp as (en & ? & _ & ?); [eauto|apply Hb].
  - intros (en & Hin & Hv). exists (en_key en). split.
    + apply list_elem_of_In, in_rev. rewrite rev_involutive. by apply list_elem_of_In, list_elem_of_fmap_2.
    + apply Peek_contents; [apply Hb|]. by exists en.
Qed.

Lemma view_list b : buffer_ok b -> view (getIncompleteEventsList b) b.
Proof.
  intros Hb. split.
  - intros c (en & Hin & <-)%elem_of_incomplete_list; [|done]. destruct (bo_slots _ Hb en Hin) as (o & Ho & _). eauto.
  - intros en Hin. apply elem_of_incomplete_list; [done|]. by exists en.
  - intros c o en (en' & Hin & <-)%elem_of_incomplete_list Ho Hen Hk; [|done].
    destruct (bo_slots _ Hb en' Hin) as (o' & Ho' & Hid & _). simplify_eq.
    f_equal. apply (key_unique (b_incompletes b)); [apply Hb|done|done|congruence].
Qed.

Lemma list_length_slots b : buffer_ok b -> (length (getIncompleteEventsList b) <= length (evictList (b_incompletes b)))%nat.
Proof.
  intros Hb. rewrite <- (contents_length _ (bo_cache _ Hb)). unfold getIncompleteEventsList. rewrite Keys_contents.
  rewrite length_omap_le. by rewrite length_rev, length_fmap.
Qed.

(** Buffered or known; what one push adds. *)
Definition holds b (id : Z) : Prop := known cb (b_app b) id \/ exists en, en ∈ slots b /\ en_key en = id.

Definition grows b b' (de : BaseEvent) : Prop :=
  fits (Z.of_nat (S (length (slots b)))) (wsum en_weight (slots b) + size de) b' /\
  (no_refusal -> fine b -> Ev de -> Inv (b_app b') /\ (forall id, holds b id -> holds b' id) /\ holds b' (e_id de)).

Lemma keeps_holds b b' id : steps b b' -> keeps b b' -> no_refusal -> fine b -> holds b id -> holds b' id.
Proof.
  intros Hs Hk Hn Hf [Hkn|(en & Hin & <-)].
  - left. eapply rtc_known; [apply (st_app _ _ Hs)|done].
  - destruct (proj2 (Hk Hn Hf) en Hin) as [?|?]; [right; eauto|by left].
Qed.

Lemma slots_self b : fits (Z.of_nat (length (slots b))) (wsum en_weight (slots b)) b.
Proof. by split. Qed.

(** The event keeps waiting: it enters the cache, and nothing leaves it. *)
Lemma add_keeps b de (p : nat) :
  quiet b -> limits_ok (b_limit b) -> fits_size (b_limit b) de -> absent b (e_id de) ->
  exists ev c, Cache_Add (b_incompletes b) (e_id de) p (u64 (size de)) = Ok (ev, c) /\ cache_wf c /\
    maxWeight c = MaxInt32 /\ maxSize c = MaxInt32 /\ contents c = mk_entry (e_id de) p (u64 (size de)) :: slots b /\
    Z.of_nat (length (contents c)) <= MaxInt32 /\ wsum en_weight (contents c) <= MaxInt32.
Proof.
  intros [Hc [Hf1 Hf2]] [Hlim1 Hlim2] [Hsz1 Hsz2] Habs.
  assert (0 <= wsum en_weight (slots b)) as Hpos.
  { apply wsum_nonneg. intros en Hin. pose proof (cw_weights _ (bo_cache _ (ca_ok _ Hc))) as Hf. rewrite Forall_forall in Hf. by apply Hf. }
  rewrite (u64_small (size de)) by solve_width.
  destruct (Cache_Add_spec (b_incompletes b) (e_id de) p (size de) (bo_cache _ (ca_ok _ Hc)) ltac:(lia))
    as (ev & c & Ha & Hwf & Hm1 & Hm2 & Hl & Hfit & Hmax). destruct (ca_caps _ Hc) as [Hc1 Hc2].
  rewrite list_filter_all in Hl, Hmax by (apply Forall_forall; intros en Hin; by apply Habs). fold (slots b) in *.
  set (l := mk_entry (e_id de) p (size de) :: slots b) in *.
  assert (wsum en_weight l = size de + wsum en_weight (slots b)) as Hwl by done.
  assert (length l = S (length (slots b))) as Hll by done.
  assert (contents c = l) as Hcont.
  { destruct (decide (length (contents c) < length l)%nat) as [Hlt|Hge].
    - exfalso. specialize (Hmax _ (conj Hlt (le_n _))). rewrite take_ge in Hmax by done.
      unfold too_big in Hmax. rewrite Hc1, Hc2, Hwl, Hll, u64_small in Hmax by solve_width. bool_to_prop. solve_width.
    - apply (f_equal length) in Hl as Hl'. rewrite length_app, length_rev in Hl'. destruct ev; [|simpl in *; lia].
      simpl in Hl. by rewrite app_nil_r in Hl. }
  exists ev, c. rewrite Hcont. splits; try done; [congruence|congruence|rewrite Hll; solve_width|lia].
Qed.

Lemma push_waits b de peer :
  quiet b -> limits_ok (b_limit b) -> fits_size (b_limit b) de -> absent b (e_id de) ->
  ~ known cb (b_app b) (e_id de) -> ~ complete cb (b_app b) de ->
  exists ev c, Cache_Add (b_incompletes b) (e_id de) (length (b_heap b)) (u64 (size de)) = Ok (ev, c) /\
    calm (with_incompletes (with_new b de peer) c) /\ fits MaxInt32 MaxInt32 (with_incompletes (with_new b de peer) c) /\
    grows b (with_incompletes (with_new b de peer) c) de.
Proof.
  intros Hq Hlim Hsz Habs Hk Hcomp. pose proof Hq as [Hc _].
  destruct (add_keeps b de (length (b_heap b)) Hq Hlim Hsz Habs) as (ev & c & Ha & Hwf & Hm1 & Hm2 & Hcont & Hf1 & Hf2).
  set (b' := with_incompletes (with_new b de peer) c).
  assert (slots b' = mk_entry (e_id de) (length (b_heap b)) (u64 (size de)) :: slots b) as Hsl by done.
  pose proof (with_new_ok b de peer (ca_ok _ Hc)) as Hb0. pose proof (with_new_lookup b de peer) as Hnew.
  assert (forall q, cached b' q <-> cached b q \/ q = length (b_heap b)) as Hcached.
  { intros q. unfold cached. rewrite Hsl. setoid_rewrite elem_of_cons. split.
    - intros (en & [->|Hin] & Hv); [by right|left; eauto].
    - intros [(en & Hin & Hv)|Hv]; [exists en; auto|]. eexists. split; [by left|done]. }
  exists ev, c. split; [done|]. fold b'. split; [|split; [done|split; [split|]]].
  2: { rewrite Hsl. simpl. lia. }
  2: { rewrite Hsl. simpl. unfold limits_ok, fits_size in *. rewrite u64_small by solve_width. lia. }
  2: { intros _ [HI _] _. split; [done|]. split; [|right; rewrite Hsl; eexists; split; [left|done]].
       intros id [?|(en & Hin & Hk')]; [by left|right]. rewrite Hsl. exists en. split; [by right|done]. }
  split; [split; [done| |exact (bo_log _ Hb0)|exact (bo_connected _ Hb0)]| | |done].
  - intros en Hin. change (en ∈ slots b') in Hin. rewrite Hsl in Hin. apply elem_of_cons in Hin as [->|Hin]; [by eexists|].
    by apply (bo_slots _ Hb0).
  - intros q o Hq'. simpl in Hq'. apply lookup_app_Some in Hq' as [Ho|[Hge Ho]].
    + rewrite (ca_split _ Hc q o Ho). apply lookup_lt_Some in Ho. apply not_iff_compat.
      etrans; [|symmetry; apply Hcached]. split; [by left|]. intros [?|?]; [done|lia].
    + destruct (q - length (b_heap b))%nat eqn:E; [|done]. assert (q = length (b_heap b)) as -> by lia. simpl in Ho.
      injection Ho as <-. split; [done|]. intros []. apply Hcached. by right.
  - intros en o Hin Ho. change (en ∈ slots b') in Hin. rewrite Hsl in Hin. apply elem_of_cons in Hin as [->|Hin].
    + simpl in Ho. rewrite lookup_app_r, Nat.sub_diag in Ho by lia. injection Ho as <-. done.
    + simpl in Ho. rewrite lookup_app_l in Ho by (apply slot_old; [apply Hc|done]). by apply (ca_waiting _ Hc en o).
Qed.

(** The first part of [PushEvent]: a duplicate, or [pushEvent]. *)
Lemma push_new b de peer :
  quiet b -> limits_ok (b_limit b) -> fits_size (b_limit b) de -> absent b (e_id de) ->
  exists r b1, pushEvent cb size (S (S (length (evictList (b_incompletes b))))) (length (b_heap b)) None false (with_new b de peer) = Ok (r, b1) /\
    calm b1 /\ fits MaxInt32 MaxInt32 b1 /\ rtc (app_step cb) (b_app b) (b_app b1) /\ b_limit b1 = b_limit b /\
    (fun o => (ev_event o, ev_peer o)) <$> b_heap b1 = ((fun o => (ev_event o, ev_peer o)) <$> b_heap b) ++ [(de, peer)] /\
    (r = true -> ~ known cb (b_app b) (e_id de) /\ known cb (b_app b1) (e_id de)) /\ grows b b1 de.
Proof.
  intros Hq Hlim Hsz Habs. pose proof Hq as [Hc Hf]. set (b0 := with_new b de peer).
  pose proof (with_new_ok b de peer (ca_ok _ Hc)) as Hb0. pose proof (with_new_lookup b de peer) as Hnew.
  assert (fits MaxInt32 MaxInt32 b0) as Hf0.
  { destruct Hf, Hlim, Hsz. split; change (slots b0) with (slots b); solve_width. }
  assert (forall b1 r, buffer_ok b1 -> steps b0 b1 -> keeps b0 b1 -> released b1 (length (b_heap b)) ->
    (no_refusal -> fine b0 -> known cb (b_app b1) (e_id de)) ->
    (r = true -> ~ known cb (b_app b) (e_id de) /\ known cb (b_app b1) (e_id de)) ->
    calm b1 /\ fits MaxInt32 MaxInt32 b1 /\ rtc (app_step cb) (b_app b) (b_app b1) /\ b_limit b1 = b_limit b /\
    (fun o => (ev_event o, ev_peer o)) <$> b_heap b1 = ((fun o => (ev_event o, ev_peer o)) <$> b_heap b) ++ [(de, peer)] /\
    (r = true -> ~ known cb (b_app b) (e_id de) /\ known cb (b_app b1) (e_id de)) /\ grows b b1 de) as Hdone.
  { intros b1 r Hb1 Hs Hkp Hr Hnr Hk. splits; try done; [by eapply calm_steps|by eapply steps_fits|apply Hs|apply Hs|apply pairs_calm, Hs|].
    split.
    - destruct (steps_fits _ _ b0 b1 Hb1 Hs (slots_self b0) Hb0) as [H1 H2]. destruct Hsz. change (slots b0) with (slots b) in *. split; lia.
    - intros Hn Hfb HE. assert (fine b0) as Hfb0.
      { destruct Hfb as [HI HE']. split; [done|]. simpl. rewrite fmap_app. apply Forall_app. split; [done|]. by constructor. }
      split; [by apply Hkp|]. split; [|left; by apply Hnr]. intros id Hid. by apply (keeps_holds b0). }
  rewrite pushEvent_unfold. fold b0. unfold b0 at 1. rewrite Hnew. cbv zeta. cbn [ev_event]. rewrite Exists_known.
  change (b_app b0) with (b_app b). case_bool_decide as Hk.
  - destruct (push_known (length (b_heap b)) _ (Some ErrAlreadyConnectedEvent) b0 Hb0 Hnew Hk) as (b1 & b2 & Hr1 & Hr2 & Hb2 & Hs & Hkp & _ & Hr & Ha).
    { intros en Hin Hid. by destruct (Habs en Hin). }
    simpl in Hr1. rewrite Hr1. simpl in *. rewrite Hr2. exists false, b2. split; [done|]. apply Hdone; try done. by rewrite Ha.
  - destruct (completeEventParents cb (b_app b) de) as [parents|] eqn:Hps.
    + destruct (connect_spec (S (length (evictList (b_incompletes b)))) (length (b_heap b)) _ de parents None b0
        (getIncompleteEventsList b0) (recheck_all _) Hb0 Hnew eq_refl Hk Hps eq_refl (view_list _ Hb0)) as (ok & b1 & -> & Hb1 & Hs & Hkp & _ & Hr & Hok & Hnr).
      * intros b' _ _. unfold missing, pids. pose proof (list_length_slots b0 Hb0) as Hlen. change (b_incompletes b0) with (b_incompletes b) in Hlen.
        eapply Nat.le_lt_trans; [apply length_filter|]. eapply Nat.le_lt_trans; [apply length_omap_le|]. lia.
      * intros en Hin Hid. by destruct (Habs en Hin).
      * exists ok, b1. split; [done|]. apply Hdone; auto.
    + destruct (push_waits b de peer Hq Hlim Hsz Habs Hk) as (ev & c & Ha & Hc1 & Hf1 & Hg1).
      { intros Hcomp. apply completeEventParents_complete in Hcomp as [? ?]. congruence. }
      change (b_incompletes b0) with (b_incompletes b). rewrite Ha. simpl. eexists _, _. split; [done|].
      splits; try done. by apply pairs_calm.
Qed.

Lemma fits_not_over limit b : calm b -> fits (Num limit) (Size limit) b -> over_limit limit b = false.
Proof.
  intros Hc [Hl Hw]. unfold over_limit, Cache_Weight. pose proof (bo_cache _ (ca_ok _ Hc)) as Hwf.
  rewrite (Len_contents _ Hwf), (cw_weight _ Hwf). fold (slots b).
  assert (0 <= wsum en_weight (slots b)) as Hpos.
  { apply wsum_nonneg. intros en Hin. pose proof (cw_weights _ Hwf) as Hf. rewrite Forall_forall in Hf. by apply Hf. }
  apply orb_false_iff. split; apply Z.ltb_ge; unfold u32, u64.
  - pose proof (Z.mod_le (Z.of_nat (length (slots b))) (2 ^ 32) ltac:(lia) ltac:(lia)). lia.
  - pose proof (Z.mod_le (wsum en_weight (slots b)) (2 ^ 64) Hpos ltac:(lia)). lia.
Qed.

Lemma spill_nothing limit b : over_limit limit b = false -> spillIncompletes cb limit b = Ok b.
Proof. intros Ho. unfold spillIncompletes. destruct (length _); simpl; by rewrite Ho. Qed.

Lemma PushEvent_spec b de peer :
  quiet b -> limits_ok (b_limit b) -> fits_size (b_limit b) de ->
  exists r b', PushEvent cb size de peer b = Ok (r, b') /\ quiet b' /\ rtc (app_step cb) (b_app b) (b_app b') /\ b_limit b' = b_limit b /\
    (fun o => (ev_event o, ev_peer o)) <$> b_heap b' = ((fun o => (ev_event o, ev_peer o)) <$> b_heap b) ++ [(de, peer)] /\
    (r = true -> ~ known cb (b_app b) (e_id de) /\ known cb (b_app b') (e_id de)) /\
    (Z.of_nat (S (length (slots b))) <= Num (b_limit b) -> wsum en_weight (slots b) + size de <= Size (b_limit b) -> grows b b' de).
Proof.
  intros Hq Hlim Hsz. pose proof Hq as [Hc Hf]. unfold PushEvent. cbv zeta. fold (with_new b de peer).
  pose proof (with_new_ok b de peer (ca_ok _ Hc)) as Hb0. pose proof (with_new_lookup b de peer) as Hnew.
  change (b_incompletes (with_new b de peer)) with (b_incompletes b).
  destruct (Cache_Peek (b_incompletes b) (e_id de)) as [p|] eqn:Hp.
  - destruct (discard_spec (length (b_heap b)) _ (Some ErrDuplicateEvent) (b_incompletes b) _ Hb0 Hnew (bo_cache _ Hb0) eq_refl eq_refl)
      as (Hb' & Hs & Hsl & Ha & Hr); [|by left|done|].
    { intros en Hin. split; [done|]. pose proof (slot_old b en (ca_ok _ Hc) Hin). lia. }
    simpl in *. eexists _, _. split; [done|]. change (with_incompletes (with_new b de peer) (b_incompletes b)) with (with_new b de peer) in *.
    fold (slots b) in Hsl. split; [split; [by eapply calm_steps|]|].
    + rewrite (st_limit _ _ Hs). by eapply steps_fits.
    + splits; [apply Hs|apply Hs|apply pairs_calm, Hs|done|]. intros _ _. unfold grows, holds, fits. rewrite Hsl, Ha.
      destruct Hsz. split; [lia|]. intros _ [HI _] _. split; [done|]. split; [done|]. right.
      apply Peek_contents in Hp as (en & ? & ? & _); [|apply Hc]. by exists en.
  - destruct (push_new b de peer Hq Hlim Hsz (Peek_None_absent _ _ (ca_ok _ Hc) Hp))
      as (r & b1 & -> & Hc1 & Hf1 & Hr1 & Hl1 & Hh1 & Hk1 & Hg1).
    simpl. rewrite Hl1. destruct (spillIncompletes_spec (b_limit b) b1 Hc1) as (b2 & Hsp & Hc2 & Ha2 & Hs2 & Ho2); [apply Hlim..|].
    rewrite Hsp. simpl. exists r, b2. split; [done|]. rewrite (st_limit _ _ Hs2), Hl1, (st_heap _ _ Hs2), Ha2. split.
    + split; [done|]. rewrite (st_limit _ _ Hs2), Hl1. apply over_limit_fits; [done..|].
      apply (steps_fits _ _ b1); [apply Hc2|done|done|apply Hc1].
    + splits; try done. intros Hn Hw. rewrite spill_nothing in Hsp; [by simplify_eq|]. apply fits_not_over; [done|].
      destruct Hg1 as [[? ?] _]. split; lia.
Qed.

(** ** Nothing is lost *)

Definition buffered b : list (BaseEvent * string) :=
  omap (fun en => (fun o => (ev_event o, ev_peer o)) <$> b_heap b !! en_value en) (slots b).

Lemma filter_indices (P : event -> Prop) `{!forall o, Decision (P o)} (l : list event) (ix : list nat) :
  NoDup ix -> (forall i, i ∈ ix <-> exists o, l !! i = Some o /\ P o) -> omap (fun i => l !! i) ix ≡ₚ filter P l.
Proof.
  revert ix. induction l as [|o l IH] using rev_ind; intros ix Hnd Hin.
  { destruct ix as [|i ix]; [done|]. destruct (proj1 (Hin i) ltac:(left)) as (? & ? & _). done. }
  rewrite filter_app, filter_cons, filter_nil.
  assert (forall ix', length l ∉ ix' -> omap (fun i => (l ++ [o]) !! i) ix' ≡ₚ omap (fun i => l !! i) ix') as Hom.
  { intros ix' Hn. induction ix' as [|i ix' IHi]; [done|]. csimpl. apply not_elem_of_cons in Hn as [Hne Hn].
    assert ((l ++ [o]) !! i = l !! i) as ->; [|destruct (l !! i); by rewrite IHi].
    destruct (decide (i < length l)%nat); [by rewrite lookup_app_l|].
    rewrite (lookup_ge_None_2 l) by lia. apply lookup_ge_None_2. rewrite length_app. simpl. lia. }
  assert (forall i, i <> length l -> (exists x, (l ++ [o]) !! i = Some x /\ P x) <-> exists x, l !! i = Some x /\ P x) as Hl.
  { intros i Hne. split; intros (x & Hx & HP); exists x; (split; [|done]).
    - apply lookup_app_Some in Hx as [?|[Hge Hx]]; [done|]. destruct (i - length l)%nat eqn:E; [lia|done].
    - rewrite lookup_app_l; [done|]. by eapply lookup_lt_Some. }
  assert ((l ++ [o]) !! length l = Some o) as Hlast by (by rewrite lookup_app_r, Nat.sub_diag).
  case_decide as HP.
  - assert (length l ∈ ix) as Hm by (apply Hin; eauto). apply list_elem_of_split in Hm as (ix1 & ix2 & ->).
    rewrite omap_app. csimpl. rewrite Hlast, <- Permutation_middle, <- omap_app.
    assert (NoDup (length l :: ix1 ++ ix2)) as [Hn Hnd']%NoDup_cons by (by rewrite Permutation_middle).
    rewrite Hom by done. rewrite (IH (ix1 ++ ix2) Hnd'); [by rewrite Permutation_app_comm|].
    intros i. rewrite elem_of_app in Hn. destruct (decide (i = length l)) as [->|Hne].
    + rewrite elem_of_app. split; [tauto|]. intros (x & Hx & _). apply lookup_lt_Some in Hx. lia.
    + rewrite <- (Hl i Hne), <- Hin, !elem_of_app, elem_of_cons. naive_solver.
  - rewrite app_nil_r. assert (length l ∉ ix) as Hn.
    { intros (x & Hx & HPx)%Hin. rewrite Hlast in Hx. by simplify_eq. }
    rewrite Hom by done. apply IH; [done|]. intros i. rewrite Hin. destruct (decide (i = length l)) as [->|Hne]; [|by apply Hl].
    split; [intros (x & Hx & HPx); rewrite Hlast in Hx; by simplify_eq|]. intros (x & Hx & _). apply lookup_lt_Some in Hx. lia.
Qed.

Lemma calm_conserves b :
  calm b -> cb_Released cb = true ->
  (fun o => (ev_event o, ev_peer o)) <$> b_heap b ≡ₚ ((fun x => (x.1.1, x.1.2)) <$> b_log b) ++ buffered b.
Proof.
  intros Hc Hr. rewrite (bo_log _ (ca_ok _ Hc) Hr).
  assert (buffered b ≡ₚ (fun o => (ev_event o, ev_peer o)) <$> filter (fun o => ~ ev_released o = true) (b_heap b)) as ->.
  { rewrite <- (filter_indices _ (b_heap b) (en_value <$> slots b)).
    - unfold buffered. induction (slots b) as [|en l IH]; csimpl; [done|]. destruct (b_heap b !! en_value en); csimpl; by rewrite IH.
    - apply slot_values_NoDup, Hc.
    - intros i. rewrite list_elem_of_fmap. split.
      + intros (en & -> & Hin). destruct (bo_slots _ (ca_ok _ Hc) en Hin) as (o & Ho & _). exists o. split; [done|].
        rewrite (ca_split _ Hc _ _ Ho). intros Hn. apply Hn. by exists en.
      + intros (o & Ho & Hn). rewrite (ca_split _ Hc _ _ Ho) in Hn. destruct (decide (cached b i)) as [(en & ? & ?)|]; [eauto|done]. }
  rewrite <- fmap_app. apply fmap_Permutation. symmetry. induction (b_heap b) as [|o l IH]; [done|]. rewrite !filter_cons.
  destruct (decide (ev_released o = true)); [rewrite decide_False by tauto|rewrite decide_True by done]; simpl.
  - by rewrite IH.
  - by rewrite <- Permutation_middle, IH.
Qed.

(** ** Runs *)

Inductive buffer_op := OpPush (e : BaseEvent) (peer : string) | OpClear.

Definition buffer_do b (op : buffer_op) : outcome buffer :=
  match op with
  | OpPush e peer => let* ' (_, b) := PushEvent cb size e peer b in Ok b
  | OpClear => EventsBuffer_Clear cb b
  end.

Definition buffer_run (limit : Metric) s (ops : list buffer_op) : outcome buffer :=
  let* b := EventsBuffer_New limit s in foldM buffer_do b ops.

Definition pushes (ops : list buffer_op) : list (BaseEvent * string) :=
  omap (fun op => match op with OpPush e peer => Some (e, peer) | OpClear => None end) ops.

Lemma Clear_spec b :
  quiet b -> limits_ok (b_limit b) ->
  exists b', EventsBuffer_Clear cb b = Ok b' /\ quiet b' /\ b_app b' = b_app b /\ b_limit b' = b_limit b /\ slots b' = [] /\
    (fun o => (ev_event o, ev_peer o)) <$> b_heap b' = (fun o => (ev_event o, ev_peer o)) <$> b_heap b.
Proof.
  intros [Hc Hf] Hlim. destruct (spillIncompletes_spec (mk_Metric 0 0) b Hc) as (b' & Hsp & Hc' & Ha & Hs & Ho); [simpl; lia..|].
  assert (fits (Num (b_limit b)) (Size (b_limit b)) b') as Hf' by (apply (steps_fits _ _ b); [apply Hc'|done|done|apply Hc]).
  exists b'. splits; [done| |done|apply Hs| |apply Hs].
  - split; [done|]. by rewrite (st_limit _ _ Hs).
  - unfold over_limit in Ho. rewrite (Len_contents _ (bo_cache _ (ca_ok _ Hc'))) in Ho. fold (slots b') in Ho. simpl in Ho.
    apply orb_false_iff in Ho as [Ho _]. apply Z.ltb_ge in Ho. destruct Hf', Hlim. rewrite u32_small in Ho by solve_width.
    destruct (slots b'); [done|simpl in Ho; lia].
Qed.

Lemma buffer_new_quiet limit s :
  limits_ok limit ->
  exists b, EventsBuffer_New limit s = Ok b /\ quiet b /\ b_limit b = limit /\ b_app b = s /\ slots b = [] /\ b_heap b = [].
Proof.
  intros Hlim. eexists. split; [done|]. splits; try done. split; [|split; simpl; apply Hlim].
  split; [|done|by intros ? ? ?%not_elem_of_nil|done].
  split; [by apply empty_cache_wf|by intros ? ?%not_elem_of_nil|done|by intros ? ? ?%not_elem_of_nil].
Qed.

Lemma buffer_run_spec limit s ops :
  limits_ok limit -> Forall (fun ep => fits_size limit ep.1) (pushes ops) ->
  exists b, buffer_run limit s ops = Ok b /\ quiet b /\ rtc (app_step cb) s (b_app b) /\ b_limit b = limit /\
    (fun o => (ev_event o, ev_peer o)) <$> b_heap b = pushes ops.
Proof.
  intros Hlim Hsz. destruct (buffer_new_quiet limit s Hlim) as (b0 & Hb0 & Hq0 & Hl0 & Ha0 & _ & Hh0).
  unfold buffer_run. rewrite Hb0. simpl.
  assert (forall b, quiet b -> b_limit b = limit -> exists b', foldM buffer_do b ops = Ok b' /\ quiet b' /\
    rtc (app_step cb) (b_app b) (b_app b') /\ b_limit b' = limit /\
    (fun o => (ev_event o, ev_peer o)) <$> b_heap b' = ((fun o => (ev_event o, ev_peer o)) <$> b_heap b) ++ pushes ops) as Hgen;
    [|destruct (Hgen b0 Hq0 Hl0) as (b & ? & ? & ? & ? & Hh); rewrite Hh0 in Hh; rewrite Ha0 in *; by exists b].
  clear b0 Hb0 Hq0 Hl0 Ha0 Hh0. induction ops as [|op ops IH]; intros b Hq Hl; simpl.
  { exists b. rewrite app_nil_r. splits; done. }
  destruct op as [e peer|]; simpl.
  - apply Forall_cons in Hsz as [Hsz1 Hsz]. simpl in Hsz1.
    destruct (PushEvent_spec b e peer Hq) as (r & b1 & -> & Hq1 & Hr1 & Hl1 & Hh1 & _ & _); [by rewrite Hl..|]. simpl.
    destruct (IH Hsz b1 Hq1) as (b2 & -> & Hq2 & Hr2 & Hl2 & Hh2); [congruence|]. exists b2. splits; try done; [by etrans|].
    rewrite Hh2, Hh1, <- app_assoc. done.
  - destruct (Clear_spec b Hq) as (b1 & -> & Hq1 & Ha1 & Hl1 & _ & Hh1); [by rewrite Hl|]. simpl.
    destruct (IH Hsz b1 Hq1) as (b2 & -> & Hq2 & Hr2 & Hl2 & Hh2); [congruence|]. exists b2. rewrite <- Ha1, <- Hh1. splits; done.
Qed.
(** Events only, no refusals, room for all: everything pushed is buffered or known. *)
Lemma pushes_held ps : forall b,
  quiet b -> limits_ok (b_limit b) -> Forall (fun ep => fits_size (b_limit b) ep.1) ps -> no_refusal -> fine b -> Forall (fun ep => Ev ep.1) ps ->
  Z.of_nat (length (slots b) + length ps) <= Num (b_limit b) ->
  wsum en_weight (slots b) + wsum (fun ep => size ep.1) ps <= Size (b_limit b) ->
  exists b', foldM buffer_do b ((fun ep => OpPush ep.1 ep.2) <$> ps) = Ok b' /\ quiet b' /\ rtc (app_step cb) (b_app b) (b_app b') /\
    (fun o => (ev_event o, ev_peer o)) <$> b_heap b' = ((fun o => (ev_event o, ev_peer o)) <$> b_heap b) ++ ps /\
    (forall id, holds b id \/ (exists ep, ep ∈ ps /\ e_id ep.1 = id) -> holds b' id) /\ fine b'.
Proof.
  induction ps as [|[e peer] ps IH]; intros b Hq Hlim Hsz Hn Hfb HE Hnum Hw; csimpl in *.
  { exists b. rewrite app_nil_r. split_and!; try done. intros id [?|(? & ?%not_elem_of_nil & _)]; done. }
  apply Forall_cons in Hsz as [Hsz1 Hsz]. apply Forall_cons in HE as [HE1 HE]. simpl in Hsz1, HE1.
  assert (0 <= wsum (fun ep => size ep.1) ps) as Hpos.
  { apply wsum_nonneg. intros ep Hin. rewrite Forall_forall in Hsz. by apply (Hsz ep Hin). }
  destruct (PushEvent_spec b e peer Hq Hlim Hsz1) as (r & b1 & Hp & Hq1 & Hr1 & Hl1 & Hh1 & _ & Hg).
  cbn [foldM buffer_do]. rewrite Hp. cbn [outcome_bind].
  destruct Hg as [[Hg1 Hg2] Hg3]; [lia|lia|]. destruct (Hg3 Hn Hfb HE1) as (HI1 & Hold & Hnew).
  assert (fine b1) as Hfb1.
  { split; [done|]. rewrite Hh1, Forall_app. split; [apply Hfb|by constructor]. }
  destruct (IH b1) as (b2 & -> & Hq2 & Hr2 & Hh2 & Hk2 & Hf2); try rewrite Hl1; try done; [lia|lia|].
  exists b2. split_and!; [done|done|by etrans|by rewrite Hh2, Hh1, <- app_assoc| |done].
  intros id [Hid|(ep & [->|Hin]%elem_of_cons & <-)]; apply Hk2; eauto.
Qed.

(** A set of events whose parents are known or in the set; parents come earlier
    in Lamport time, and an id names one event. *)
Record closed_set s (ps : list (BaseEvent * string)) : Prop := {
  cs_parents e peer p : (e, peer) ∈ ps -> p ∈ e_parents e -> known cb s p \/ exists e' peer', (e', peer') ∈ ps /\ e_id e' = p;
  cs_lamport e peer e' peer' : (e, peer) ∈ ps -> (e', peer') ∈ ps -> e_id e' ∈ e_parents e -> 0 <= e_lamport e' < e_lamport e;
  cs_ids e peer e' peer' : (e, peer) ∈ ps -> (e', peer') ∈ ps -> e_id e = e_id e' -> e = e'
}.

Lemma closed_set_connects limit s ps :
  limits_ok limit -> Forall (fun ep => fits_size limit ep.1) ps -> no_refusal -> Inv s -> Forall (fun ep => Ev ep.1) ps ->
  Z.of_nat (length ps) <= Num limit -> wsum (fun ep => size ep.1) ps <= Size limit -> closed_set s ps ->
  exists b, buffer_run limit s ((fun ep => OpPush ep.1 ep.2) <$> ps) = Ok b /\ Inv (b_app b) /\ rtc (app_step cb) s (b_app b) /\
    forall e peer, (e, peer) ∈ ps -> known cb (b_app b) (e_id e).
Proof.
  intros Hlim Hsz Hn HI HE Hnum Hw [Hclosed Hlam Hids].
  destruct (buffer_new_quiet limit s Hlim) as (b0 & Hb0 & Hq0 & Hl0 & Ha0 & Hs0 & Hh0).
  unfold buffer_run. rewrite Hb0. simpl.
  assert (fine b0) as Hf0 by (split; [by rewrite Ha0|rewrite Hh0; constructor]).
  destruct (pushes_held ps b0) as (b & -> & [Hc _] & Hr & Hh & Hk & [HIb _]); rewrite ?Hl0, ?Hs0; try done. rewrite Hh0 in Hh. simpl in Hh.
  exists b. split; [done|]. split; [done|]. rewrite Ha0 in Hr. split; [done|].
  intros e. remember (Z.to_nat (e_lamport e)) as n eqn:En. revert e En.
  induction n as [n IH] using lt_wf_ind. intros e -> peer Hin.
  destruct (Hk (e_id e)) as [?|(en & Hen & Hid)]; [right; by exists (e, peer)|done|]. exfalso.
  destruct (bo_slots _ (ca_ok _ Hc) en Hen) as (o & Ho & Hid' & _).
  assert ((ev_event o, ev_peer o) ∈ ps) as Ho'.
  { rewrite <- Hh. apply (list_elem_of_fmap_2 (fun o => (ev_event o, ev_peer o))). by eapply list_elem_of_lookup_2. }
  assert (ev_event o = e) as Heq by (eapply Hids; [done..|congruence]).
  destruct (ca_waiting _ Hc en o Hen Ho) as [Hwait _]. apply Hwait. rewrite Heq. apply Forall_forall. intros p Hp.
  destruct (Hclosed e peer p Hin Hp) as [Hs|(e' & peer' & Hin' & <-)].
  - eapply rtc_known; [done|exact Hs].
  - pose proof (Hlam e peer e' peer' Hin Hin' Hp). eapply (IH (Z.to_nat (e_lamport e')) ltac:(lia) e' eq_refl); done.
Qed.
End steps.

(** ** Properties *)

(** C25: whatever events are pushed in whatever order, with clears in between,
    the buffer never fails or loops; the application only ever processes
    events it did not know, whose parents it knew and which passed the check;
    no event is left waiting once it is known or all its parents are; and an
    event released without an error is connected. *)
Theorem buffer_orders {A} (cb : Callback A) (size : BaseEvent -> Z) `{!CallbackLaws cb} (limit : Metric) (s : A) (ops : list buffer_op) :
  limits_ok limit -> Forall (fun ep => fits_size size limit ep.1) (pushes ops) ->
  exists b, buffer_run cb size limit s ops = Ok b /\
    rtc (app_step cb) s (b_app b) /\
    (forall e peer, (e, peer) ∈ buffered b -> ~ known cb (b_app b) (e_id e) /\ ~ complete cb (b_app b) e /\ IsBuffered b (e_id e) = true) /\
    (forall e peer, (e, peer, None) ∈ b_log b -> known cb (b_app b) (e_id e)).
Proof.
  intros Hlim Hsz. destruct (buffer_run_spec cb size (fun _ => True) (fun _ => True) limit s ops Hlim Hsz) as (b & Hr & [Hc _] & Hs & _ & _).
  exists b. splits; [done|done| |apply (bo_connected _ _ _ (ca_ok _ _ _ Hc))].
  intros e peer (en & Hin & Hp)%list_elem_of_omap. destruct (b_heap b !! en_value en) as [o|] eqn:Ho; [|done].
  injection Hp as <- <-. destruct (ca_waiting _ _ _ Hc en o Hin Ho) as [H1 H2].
  destruct (bo_slots _ _ _ (ca_ok _ _ _ Hc) en Hin) as (o' & Ho' & Hid & _). simplify_eq. rewrite Hid. splits; try done.
  unfold IsBuffered, Cache_Contains. apply bool_decide_eq_true.
  pose proof (bo_cache _ _ _ (ca_ok _ _ _ Hc)) as Hwf. apply elem_of_contents in Hin as [h Hh]; [|done].
  exists h. apply (cw_items _ Hwf). eauto.
Qed.

(** C26: every pushed event is either still buffered or has been released
    exactly once, and what is buffered stays within the limits. *)
Theorem buffer_conserves {A} (cb : Callback A) (size : BaseEvent -> Z) `{!CallbackLaws cb} (limit : Metric) (s : A) (ops : list buffer_op) :
  limits_ok limit -> Forall (fun ep => fits_size size limit ep.1) (pushes ops) -> cb_Released cb = true ->
  exists b, buffer_run cb size limit s ops = Ok b /\
    pushes ops ≡ₚ ((fun x => (x.1.1, x.1.2)) <$> b_log b) ++ buffered b /\
    Num (EventsBuffer_Total b) = Z.of_nat (length (buffered b)) /\
    Num (EventsBuffer_Total b) <= Num limit /\ Size (EventsBuffer_Total b) <= Size limit.
Proof.
  intros Hlim Hsz Hrel. destruct (buffer_run_spec cb size (fun _ => True) (fun _ => True) limit s ops Hlim Hsz) as (b & Hr & [Hc [Hf1 Hf2]] & _ & Hl & Hh).
  rewrite Hl in Hf1, Hf2. exists b. pose proof (bo_cache _ _ _ (ca_ok _ _ _ Hc)) as Hwf.
  assert (length (buffered b) = length (slots b)) as Hlen.
  { apply omap_all. intros en Hin. destruct (bo_slots _ _ _ (ca_ok _ _ _ Hc) en Hin) as (o & -> & _). by eexists. }
  assert (0 <= wsum en_weight (slots b)) as Hpos.
  { apply wsum_nonneg. intros en Hin. pose proof (cw_weights _ Hwf) as Hf. rewrite Forall_forall in Hf. by apply Hf. }
  destruct Hlim as [Hl1 Hl2].
  unfold EventsBuffer_Total, Cache_Total, Cache_Weight. rewrite (Len_contents _ Hwf), (cw_weight _ Hwf). fold (slots b). simpl.
  splits; [done|rewrite <- Hh; by apply (calm_conserves cb size)| | |].
  - rewrite u32_small by solve_width. by rewrite Hlen.
  - rewrite u32_small by solve_width. done.
  - unfold u64. pose proof (Z.mod_le (wsum en_weight (slots b)) (2 ^ 64) Hpos ltac:(lia)). lia.
Qed.

(** C22: in whatever order the events of a set closed under parents arrive, every
    one of them ends up connected, if the limits leave room for all of them and
    the application, which starts in [Inv] and is given events of [Ev], accepts
    each of them when its parents are known, and keeps [Inv]. *)
Theorem any_order_connects {A} (cb : Callback A) (size : BaseEvent -> Z) `{!CallbackLaws cb} (Inv : A -> Prop) (Ev : BaseEvent -> Prop)
    (limit : Metric) (s : A) (ps : list (BaseEvent * string)) :
  limits_ok limit -> Forall (fun ep => fits_size size limit ep.1) ps ->
  no_refusal cb Inv Ev -> Inv s -> Forall (fun ep => Ev ep.1) ps ->
  Z.of_nat (length ps) <= Num limit -> wsum (fun ep => size ep.1) ps <= Size limit ->
  closed_set cb s ps ->
  exists b, buffer_run cb size limit s ((fun ep => OpPush ep.1 ep.2) <$> ps) = Ok b /\ Inv (b_app b) /\
    forall e peer, (e, peer) ∈ ps -> known cb (b_app b) (e_id e).
Proof.
  intros Hlim Hsz Hn HI HE Hnum Hw Hcl.
  destruct (closed_set_connects cb size Inv Ev limit s ps Hlim Hsz Hn HI HE Hnum Hw Hcl) as (b & ? & ? & _ & ?). by exists b.
Qed.

(** ** A concrete application: a map of events that checks Lamport times *)

Definition store_callback : Callback (gmap Z BaseEvent) := {|
  cb_Process s e := (None, <[e_id e := e]> s);
  cb_Released := true;
  cb_Get s id := s !! id;
  cb_Exists s id := bool_decide (is_Some (s !! id));
  cb_Check := None;
  cb_IsImportant := Some (fun e => e_creator e =? 7)
|}.

#[export] Instance store_callback_laws : CallbackLaws store_callback.
Proof.
  split; simpl; [done| |by intros].
  intros s e s' id [= <-]. destruct (decide (id = e_id e)) as [->|Hne]; [rewrite lookup_insert_eq|rewrite lookup_insert_ne by done]; naive_solver.
Qed.

Definition sample_event (id creator lamport : Z) (parents : list Z) : BaseEvent := mk_BaseEvent 1 lamport 1 creator parents lamport id.
Definition sample_a := sample_event 1 1 1 [].
Definition sample_b := sample_event 2 2 2 [1].
Definition sample_c := sample_event 3 7 3 [2; 1].
Definition sample_d := sample_event 4 1 4 [9].
Definition sample_limit : Metric := mk_Metric 2 1000.
Definition sample_ops : list buffer_op :=
  [OpPush sample_c "p"; OpPush sample_b "q"; OpPush sample_b "p"; OpPush sample_d "q"; OpPush sample_a "q"; OpPush sample_a "p"].
Definition sample_pushes : list (BaseEvent * string) := [(sample_c, "p"%string); (sample_b, "q"%string)].

(** The third buffered event spills the oldest that is not important, though
    [sample_c] is older. *)
Example sample_buffer_run :
  (fun b : EventsBuffer => (fun x => (e_id x.1.1, x.1.2, x.2)) <$> b_log b) <$>
    (match buffer_run store_callback Event_Size sample_limit ∅ sample_ops with Ok b => Some b | _ => None end) =
  Some [(2, "p", Some ErrDuplicateEvent); (2, "q", Some ErrSpilledEvent); (1, "q", None); (1, "p", Some ErrAlreadyConnectedEvent)]%string.
Proof. vm_compute. reflexivity. Qed.

Lemma sample_limit_ok : limits_ok sample_limit.
Proof. done. Qed.

Lemma sample_sizes : Forall (fun ep : BaseEvent * string => fits_size Event_Size sample_limit ep.1) (pushes sample_ops).
Proof. repeat constructor; vm_compute; congruence. Qed.

Lemma buffer_orders_witness :
  exists b, buffer_run store_callback Event_Size sample_limit ∅ sample_ops = Ok b /\
    rtc (app_step store_callback) ∅ (b_app b) /\
    (forall e peer, (e, peer) ∈ buffered b ->
       ~ known store_callback (b_app b) (e_id e) /\ ~ complete store_callback (b_app b) e /\ IsBuffered b (e_id e) = true) /\
    (forall e peer, (e, peer, None) ∈ b_log b -> known store_callback (b_app b) (e_id e)).
Proof. apply (buffer_orders store_callback Event_Size sample_limit ∅ sample_ops sample_limit_ok sample_sizes). Defined.

Lemma buffer_conserves_witness :
  exists b, buffer_run store_callback Event_Size sample_limit ∅ sample_ops = Ok b /\
    pushes sample_ops ≡ₚ ((fun x => (x.1.1, x.1.2)) <$> b_log b) ++ buffered b /\
    Num (EventsBuffer_Total b) = Z.of_nat (length (buffered b)) /\
    Num (EventsBuffer_Total b) <= 2 /\ Size (EventsBuffer_Total b) <= 1000.
Proof. apply (buffer_conserves store_callback Event_Size sample_limit ∅ sample_ops sample_limit_ok sample_sizes eq_refl). Defined.

(** [sample_c] arrives before its parent [sample_b]. *)
Lemma any_order_connects_witness :
  exists b, buffer_run store_callback Event_Size sample_limit {[1 := sample_a]} [OpPush sample_c "p"; OpPush sample_b "q"] = Ok b /\
    forall e peer, (e, peer) ∈ sample_pushes -> known store_callback (b_app b) (e_id e).
Proof.
  refine (_ (any_order_connects store_callback Event_Size (fun _ => True) (fun _ => True) sample_limit {[1 := sample_a]} sample_pushes sample_limit_ok
    _ (fun s e ps _ _ _ _ => conj eq_refl (conj eq_refl Logic.I)) Logic.I _ _ _ _)).
  - intros (b & ? & _ & ?). by exists b.
  - repeat constructor; vm_compute; congruence.
  - by repeat constructor.
  - vm_compute. congruence.
  - vm_compute. congruence.
  - split.
    + intros e peer p Hin Hp. list_cases; simplify_eq; list_cases; subst;
        (left; by eexists) || (right; exists sample_b, "q"%string; split; [right; left|done]).
    + intros e peer e' peer' Hin Hin' Hp. list_cases; simplify_eq; list_cases; done.
    + intros e peer e' peer' Hin Hin' Hid. by list_cases; simplify_eq.
Defined.
