(* ===== verification/PieceFunc.v ===== *)
(** * utils/piecefunc/piecefunc.go: piecewise linear functions on integers

    Every operation is on [uint64] and wraps around; the bounds that [NewFunc]
    checks keep each intermediate result in range.  The functions that
    kvdb/leveldb and kvdb/pebble use to size their caches are the instances. *)

From S2P Require Import Prelude.
Local Open Scope go_scope.

Definition DecimalUnit : Z := 1000000.
Definition maxVal : Z := (2 ^ 64 - 1) / DecimalUnit - 1.

Record Dot := mk_Dot { dot_X : Z; dot_Y : Z }.

(** The checks of [NewFunc], from the dot [i]. *)
Fixpoint check_dots (i : nat) (prevX : Z) (dots : list Dot) : outcome unit :=
  match dots with
  | [] => Ok tt
  | dot :: dots =>
      if (1 <=? i)%nat && (dot_X dot <=? prevX) then Panic "non monotonic X"
      else if maxVal <? dot_Y dot then Panic "too large Y"
      else if maxVal <? dot_X dot then Panic "too large X"
      else check_dots (S i) (dot_X dot) dots
  end.

(** [NewFunc]: the function itself is [Func_Get] of the dots returned. *)
Definition NewFunc (dots : list Dot) : outcome (list Dot) :=
  if (length dots <? 2)%nat then Panic "too few dots" else let* _ := check_dots 0 0 dots in Ok dots.

Definition Mul (a b : Z) : Z := u64 (a * b) / DecimalUnit.

(** A zero divisor panics. *)
Definition Div (a b : Z) : outcome Z := if b =? 0 then Panic "integer divide by zero" else Ok (u64 (a * DecimalUnit) / b).

(** The loop of [Get]: the first piece strictly inside whose dot is beyond [x]. *)
Fixpoint find_piece (n i : nat) (dots : list Dot) (x : Z) : option nat :=
  match dots with
  | [] => None
  | piece :: dots =>
      if (1 <=? i)%nat && (i <? n - 1)%nat && (x <? dot_X piece) then Some (i - 1)%nat else find_piece n (S i) dots x
  end.

Definition Func_Get (dots : list Dot) (x : Z) : outcome Z :=
  let* first := index dots 0 in
  if x <? dot_X first then Ok (dot_Y first) else
  let* last := index dots (length dots - 1) in
  if dot_X last <? x then Ok (dot_Y last) else
  let p0 := default (length dots - 2)%nat (find_piece (length dots) 0 dots x) in
  let* d0 := index dots p0 in
  let* d1 := index dots (p0 + 1) in
  let* ratio := Div (u64 (x - dot_X d0)) (u64 (dot_X d1 - dot_X d0)) in
  Ok (u64 (Mul (dot_Y d0) (u64 (DecimalUnit - ratio)) + Mul (dot_Y d1) ratio)).

(** ** The cache sizes of kvdb/leveldb and kvdb/pebble *)

Section cache_sizes.
(** The units are constants of goleveldb's package opt: 2^10 and 2^20. *)
Context (KiB MiB : Z).

Definition leveldb_adjustCache : list Dot := [
    mk_Dot 0 (16 * KiB); mk_Dot (12 * MiB) (100 * KiB); mk_Dot (25 * MiB) (1 * MiB); mk_Dot (47 * MiB) (10 * MiB);
    mk_Dot (62 * MiB) (14 * MiB); mk_Dot (74 * MiB) (18 * MiB); mk_Dot (99 * MiB) (25 * MiB);
    mk_Dot (153 * MiB) (40 * MiB); mk_Dot (317 * MiB) (100 * MiB); mk_Dot (403 * MiB) (129 * MiB);
    mk_Dot (585 * MiB) (437 * MiB); mk_Dot (889 * MiB) (300 * MiB); mk_Dot (948 * MiB) (437 * MiB);
    mk_Dot (1770 * MiB) (703 * MiB); mk_Dot (2470 * MiB) (1000 * MiB); mk_Dot (2470000 * MiB) (1000000 * MiB)].

Definition pebble_adjustCache : list Dot := [
    mk_Dot 0 (16 * KiB); mk_Dot (35 * MiB) (100 * KiB); mk_Dot (44 * MiB) (336 * KiB); mk_Dot (53 * MiB) (538 * KiB);
    mk_Dot (72 * MiB) (808 * KiB); mk_Dot (140 * MiB) (809 * KiB); mk_Dot (151 * MiB) (875 * KiB);
    mk_Dot (172 * MiB) (1 * MiB); mk_Dot (177 * MiB) (2955 * KiB); mk_Dot (250 * MiB) (5370 * KiB);
    mk_Dot (347 * MiB) (8187 * KiB); mk_Dot (401 * MiB) (10 * MiB); mk_Dot (484 * MiB) (13563 * KiB);
    mk_Dot (645 * MiB) (18 * MiB); mk_Dot (765 * MiB) (24128 * KiB); mk_Dot (1000 * MiB) (31478 * KiB);
    mk_Dot (1258 * MiB) (40 * MiB); mk_Dot (1337 * MiB) (100 * MiB); mk_Dot (1685 * MiB) (130 * MiB);
    mk_Dot (2159 * MiB) (168 * MiB); mk_Dot (2647 * MiB) (230 * MiB); mk_Dot (3068 * MiB) (300 * MiB);
    mk_Dot (3863 * MiB) (362 * MiB); mk_Dot (5142 * MiB) (550 * MiB); mk_Dot (5671 * MiB) (1000 * MiB);
    mk_Dot (5671000 * MiB) (1000000 * MiB)].

Definition aligned256kb (v : Z) : Z :=
  let base := 256 * KiB in if v <? base then v else v ÷ base * base.

End cache_sizes.

(** ** Which dots are accepted *)

Definition is_dot (d : Dot) : Prop := is_u64 (dot_X d) /\ is_u64 (dot_Y d).

Record dots_ok (dots : list Dot) : Prop := {
  dk_length : (2 <= length dots)%nat;
  dk_bounded : Forall (fun d => dot_X d <= maxVal /\ dot_Y d <= maxVal) dots;
  dk_increasing i d0 d1 : dots !! i = Some d0 -> dots !! S i = Some d1 -> dot_X d0 < dot_X d1
}.

Lemma check_dots_spec i prevX dots :
  check_dots i prevX dots = Ok tt <->
  Forall (fun d => dot_X d <= maxVal /\ dot_Y d <= maxVal) dots /\
  (forall d, dots !! 0%nat = Some d -> (1 <= i)%nat -> prevX < dot_X d) /\
  (forall j d0 d1, dots !! j = Some d0 -> dots !! S j = Some d1 -> dot_X d0 < dot_X d1).
Proof.
  revert i prevX. induction dots as [|d dots IH]; intros i prevX; cbn [check_dots].
  - split; [|done]. intros _. by split.
  - rewrite Forall_cons. destruct (_ && _) eqn:E1; bool_to_prop; [split; [done|]; intros (_ & Hf & _); specialize (Hf d eq_refl); lia|].
    destruct (maxVal <? dot_Y d) eqn:E2; bool_to_prop; [split; [done|]; lia|].
    destruct (maxVal <? dot_X d) eqn:E3; bool_to_prop; [split; [done|]; lia|]. rewrite IH. clear IH. split.
    + intros (Hb & Hf & Hn). split; [done|]. split; [intros ? [= <-]; lia|]. intros [|j] d0 d1 H0 H1; simpl in *; [simplify_eq; apply Hf; [done|lia]|by eapply Hn].
    + intros ([_ Hb] & Hf & Hn). split; [done|]. split; [intros d1 H1 _; by apply (Hn 0%nat)|]. intros j d0 d1 H0 H1. by apply (Hn (S j)).
Qed.

Lemma NewFunc_ok dots f : NewFunc dots = Ok f <-> f = dots /\ dots_ok dots.
Proof.
  unfold NewFunc. destruct (_ <? _)%nat eqn:E; bool_to_prop; [split; [done|]; intros [_ [? _ _]]; lia|].
  assert (check_dots 0 0 dots = Ok tt <-> dots_ok dots) as Hc.
  { rewrite check_dots_spec. split; [intros (? & _ & ?); by split|]. intros [? ? ?]. split; [done|]. split; [lia|done]. }
  destruct (check_dots 0 0 dots) as [[]| |]; cbn [outcome_bind].
  - split; [intros [= <-]; split; [done|by apply Hc]|by intros [-> _]].
  - split; [done|]. intros [_ ?%Hc]. done.
  - split; [done|]. intros [_ ?%Hc]. done.
Qed.

Lemma dots_mono dots i j d0 d1 : dots_ok dots -> (i < j)%nat -> dots !! i = Some d0 -> dots !! j = Some d1 -> dot_X d0 < dot_X d1.
Proof.
  intros Hok. revert d1. induction j as [|j IH]; intros d1 Hij H0 H1; [lia|].
  destruct (dots !! j) as [d|] eqn:Hj.
  - pose proof (dk_increasing _ Hok j d d1 Hj H1). destruct (decide (i = j)) as [->|]; [congruence|]. specialize (IH d ltac:(lia) H0 eq_refl). lia.
  - apply lookup_ge_None in Hj. apply lookup_lt_Some in H1. lia.
Qed.

(** ** The piece that is found *)

Lemma find_piece_spec n x : forall dots i, match find_piece n i dots x with
  | Some p => (i <= S p)%nat /\ (S p < n - 1)%nat /\ exists d, dots !! (S p - i)%nat = Some d /\ x < dot_X d /\
      forall j d', (1 <= i + j <= p)%nat -> dots !! j = Some d' -> dot_X d' <= x
  | None => forall j d', (1 <= i + j < n - 1)%nat -> dots !! j = Some d' -> dot_X d' <= x
  end.
Proof.
  induction dots as [|d dots IH]; intros i; cbn [find_piece]; [by intros j d' _ Hj|].
  destruct (_ && _) eqn:E; bool_to_prop.
  - split; [lia|]. split; [lia|]. exists d. replace (S (i - 1) - i)%nat with 0%nat by lia. split; [done|]. split; [lia|]. intros; lia.
  - specialize (IH (S i)). destruct (find_piece n (S i) dots x) as [p|].
    + destruct IH as (H1 & H2 & d1 & H3 & H4 & H5). split; [lia|]. split; [done|]. exists d1.
      replace (S p - i)%nat with (S (S p - S i))%nat by lia. split; [done|]. split; [done|].
      intros [|j] d' Hj Hd; [simpl in Hd; simplify_eq; lia|]. apply (H5 j d'); [lia|done].
    + intros [|j] d' Hj Hd; [simpl in Hd; simplify_eq; lia|]. apply (IH j d'); [lia|done].
Qed.

(** The value at [x] between two dots, the ratio rounded down as the code does. *)
Definition ratio_of (d0 d1 : Dot) (x : Z) : Z := (x - dot_X d0) * DecimalUnit / (dot_X d1 - dot_X d0).
Definition value_of (d0 d1 : Dot) (x : Z) : Z :=
  dot_Y d0 * (DecimalUnit - ratio_of d0 d1 x) / DecimalUnit + dot_Y d1 * ratio_of d0 d1 x / DecimalUnit.

Lemma maxVal_u64 a b : 0 <= a <= maxVal -> 0 <= b <= DecimalUnit -> u64 (a * b) = a * b.
Proof.
  intros Ha Hb. apply u64_small. assert (a * b <= maxVal * DecimalUnit) as Hab by nia. split; [nia|].
  eapply Z.le_lt_trans; [exact Hab|]. vm_compute. done.
Qed.

Lemma ratio_range d0 d1 x : dot_X d0 < dot_X d1 -> dot_X d0 <= x <= dot_X d1 -> 0 <= ratio_of d0 d1 x <= DecimalUnit.
Proof.
  intros Hlt Hx. unfold ratio_of, DecimalUnit. split; [apply Z.div_pos; lia|]. apply Z.div_le_upper_bound; nia.
Qed.

(** Bounds of two roundings down. *)
Lemma value_bounds y0 y1 r :
  0 <= y0 -> 0 <= y1 -> 0 <= r <= DecimalUnit ->
  let e := y0 * (DecimalUnit - r) + y1 * r in
  let v := y0 * (DecimalUnit - r) / DecimalUnit + y1 * r / DecimalUnit in
  e - 2 * DecimalUnit < v * DecimalUnit <= e /\ Z.min y0 y1 - 1 <= v <= Z.max y0 y1.
Proof.
  intros H0 H1 Hr e v.
  assert (e - 2 * DecimalUnit < v * DecimalUnit <= e) as Hv.
  { subst e v. unfold DecimalUnit. Z.to_euclidean_division_equations. lia. }
  split; [done|]. assert (Z.min y0 y1 * DecimalUnit <= e <= Z.max y0 y1 * DecimalUnit) by (subst e; split; nia).
  unfold DecimalUnit in *. lia.
Qed.

(** What [Get] computes: before the first dot, after the last, or on a piece. *)
Definition piece_value (dots : list Dot) (x v : Z) : Prop :=
  (exists d, dots !! 0%nat = Some d /\ x < dot_X d /\ v = dot_Y d) \/
  (exists d, dots !! (length dots - 1)%nat = Some d /\ dot_X d < x /\ v = dot_Y d) \/
  exists p d0 d1, dots !! p = Some d0 /\ dots !! S p = Some d1 /\ dot_X d0 <= x <= dot_X d1 /\ v = value_of d0 d1 x.

Lemma Get_piece dots x : Forall is_dot dots -> dots_ok dots -> is_u64 x -> exists v, Func_Get dots x = Ok v /\ piece_value dots x v.
Proof.
  intros Hdot Hok Hx. pose proof (dk_length _ Hok) as Hlen. unfold Func_Get.
  destruct (lookup_lt_is_Some_2 dots 0 ltac:(lia)) as [first Hf]. rewrite (index_lookup _ _ _ Hf). cbn [outcome_bind].
  destruct (x <? dot_X first) eqn:E1; bool_to_prop; [exists (dot_Y first); split; [done|]; left; by exists first|].
  destruct (lookup_lt_is_Some_2 dots (length dots - 1) ltac:(lia)) as [last Hl]. rewrite (index_lookup _ _ _ Hl). cbn [outcome_bind].
  destruct (dot_X last <? x) eqn:E2; bool_to_prop; [exists (dot_Y last); split; [done|]; right; left; by exists last|].
  set (p := default _ _).
  assert (exists d0 d1, dots !! p = Some d0 /\ dots !! S p = Some d1 /\ dot_X d0 <= x <= dot_X d1) as (d0 & d1 & H0 & H1 & Hx01).
  { pose proof (find_piece_spec (length dots) x dots 0) as Hp. subst p. destruct (find_piece (length dots) 0 dots x) as [p|]; cbn [default from_option id].
    - destruct Hp as (_ & Hlt & d & Hd & Hxd & Hbefore). rewrite Nat.sub_0_r in Hd.
      destruct (lookup_lt_is_Some_2 dots p ltac:(lia)) as [d0 Hd0]. exists d0, d. split; [done|]. split; [done|]. split; [|lia].
      destruct p as [|p]; [congruence|]. apply (Hbefore (S p)); [lia|done].
    - destruct (lookup_lt_is_Some_2 dots (length dots - 2) ltac:(lia)) as [d0 Hd0]. exists d0, last. split; [done|].
      replace (S (length dots - 2)) with (length dots - 1)%nat by lia. split; [done|]. split; [|lia].
      destruct (decide (length dots = 2%nat)) as [E|]; [rewrite E in Hd0; simpl in Hd0; congruence|]. apply (Hp (length dots - 2)%nat); [lia|done]. }
  clearbody p. rewrite (index_lookup _ _ _ H0). replace (p + 1)%nat with (S p) by lia. rewrite (index_lookup _ _ _ H1). cbn [outcome_bind].
  pose proof (dk_increasing _ Hok _ _ _ H0 H1) as Hlt.
  rewrite Forall_lookup in Hdot. destruct (Hdot _ _ H0) as [Hdx0 Hdy0], (Hdot _ _ H1) as [Hdx1 Hdy1].
  pose proof (dk_bounded _ Hok) as Hb. rewrite Forall_lookup in Hb. destruct (Hb _ _ H0) as [Hbx0 Hby0], (Hb _ _ H1) as [Hbx1 Hby1].
  unfold is_u64 in *. rewrite (u64_small (x - dot_X d0)), (u64_small (dot_X d1 - dot_X d0)) by (unfold is_u64; lia).
  unfold Div. destruct (_ =? 0) eqn:E3; bool_to_prop; [lia|]. rewrite maxVal_u64 by (unfold DecimalUnit; lia). fold (ratio_of d0 d1 x). cbn [outcome_bind].
  pose proof (ratio_range d0 d1 x Hlt Hx01) as Hr. eexists. split; [reflexivity|]. right. right. exists p, d0, d1. splits; try done; try lia.
  rewrite (u64_small (DecimalUnit - _)) by (unfold is_u64, DecimalUnit in *; lia). unfold Mul. rewrite !maxVal_u64 by lia. fold (value_of d0 d1 x).
  apply u64_small. destruct (value_bounds (dot_Y d0) (dot_Y d1) (ratio_of d0 d1 x)) as [_ Hv]; [lia..|]. fold (value_of d0 d1 x) in Hv.
  split; [|eapply Z.le_lt_trans; [apply Hv|]; lia]. unfold value_of. apply Z.add_nonneg_nonneg; apply Z.div_pos; unfold DecimalUnit in *; nia.
Qed.

Lemma value_left d0 d1 : dot_X d0 < dot_X d1 -> value_of d0 d1 (dot_X d0) = dot_Y d0.
Proof.
  intros Hlt. unfold value_of, ratio_of. rewrite Z.sub_diag, Z.mul_0_l, Z.div_0_l by lia. rewrite Z.sub_0_r, Z.mul_0_r, Z.div_mul by done. change (0 / DecimalUnit) with 0. lia.
Qed.

Lemma value_right d0 d1 : dot_X d0 < dot_X d1 -> value_of d0 d1 (dot_X d1) = dot_Y d1.
Proof.
  intros Hlt. unfold value_of. assert (ratio_of d0 d1 (dot_X d1) = DecimalUnit) as -> by (unfold ratio_of; rewrite Z.mul_comm; apply Z.div_mul; lia).
  rewrite Z.sub_diag, Z.mul_0_r, Z.div_mul by done. by change (0 / DecimalUnit) with 0.
Qed.

(** The distance from the line through the two dots. *)
Lemma value_error d0 d1 x : 0 <= dot_Y d0 -> 0 <= dot_Y d1 -> dot_X d0 < dot_X d1 -> dot_X d0 <= x <= dot_X d1 ->
  Z.abs (value_of d0 d1 x * (dot_X d1 - dot_X d0) - (dot_Y d0 * (dot_X d1 - x) + dot_Y d1 * (x - dot_X d0))) * DecimalUnit
  <= (2 * DecimalUnit + Z.abs (dot_Y d1 - dot_Y d0)) * (dot_X d1 - dot_X d0).
Proof.
  intros H0 H1 Hlt Hx. pose proof (ratio_range d0 d1 x Hlt Hx) as Hr. destruct (value_bounds (dot_Y d0) (dot_Y d1) _ H0 H1 Hr) as [Hv _].
  fold (value_of d0 d1 x) in Hv.
  assert (0 <= (x - dot_X d0) * DecimalUnit - ratio_of d0 d1 x * (dot_X d1 - dot_X d0) < dot_X d1 - dot_X d0) as Hq.
  { unfold ratio_of. pose proof (Z.mod_pos_bound ((x - dot_X d0) * DecimalUnit) (dot_X d1 - dot_X d0) ltac:(lia)) as Hm.
    rewrite Z.mod_eq in Hm by lia. lia. }
  set (v := value_of d0 d1 x) in *. set (r := ratio_of d0 d1 x) in *. clearbody v r.
  set (w := dot_X d1 - dot_X d0) in *. set (t := x - dot_X d0) in *. replace (dot_X d1 - x) with (w - t) by lia. clearbody w t.
  set (y0 := dot_Y d0) in *. set (y1 := dot_Y d1) in *. clearbody y0 y1.
  set (q := t * DecimalUnit - r * w) in *.
  assert ((v * w - (y0 * (w - t) + y1 * t)) * DecimalUnit
    = (v * DecimalUnit - (y0 * (DecimalUnit - r) + y1 * r)) * w - (y1 - y0) * q) as Heq by (subst q; ring).
  rewrite <- (Z.abs_eq DecimalUnit) at 1 by done. rewrite <- Z.abs_mul, Heq.
  assert (Z.abs ((v * DecimalUnit - (y0 * (DecimalUnit - r) + y1 * r)) * w) <= 2 * DecimalUnit * w) by (rewrite Z.abs_mul; nia).
  assert (Z.abs ((y1 - y0) * q) <= Z.abs (y1 - y0) * w) by (rewrite Z.abs_mul; nia). lia.
Qed.

(** ** The value does not depend on the piece *)

Section piece_value.
Context (dots : list Dot) (x v : Z) (Hok : dots_ok dots) (Hv : piece_value dots x v).

Lemma dots_le i j d0 d1 : (i <= j)%nat -> dots !! i = Some d0 -> dots !! j = Some d1 -> dot_X d0 <= dot_X d1.
Proof.
  intros Hij H0 H1. destruct (decide (i = j)) as [->|]; [simplify_eq; lia|].
  pose proof (dots_mono dots i j d0 d1 Hok ltac:(lia) H0 H1). lia.
Qed.

Lemma piece_value_inside p d0 d1 :
  dots !! p = Some d0 -> dots !! S p = Some d1 -> dot_X d0 <= x <= dot_X d1 -> v = value_of d0 d1 x.
Proof.
  intros H0 H1 Hx. pose proof (dk_increasing _ Hok _ _ _ H0 H1) as Hlt.
  destruct Hv as [(d & Hd & Hxd & _)|[(d & Hd & Hxd & _)|(q & e0 & e1 & Hq0 & Hq1 & Hxq & ->)]].
  - pose proof (dots_le 0 p d d0 ltac:(lia) Hd H0). lia.
  - pose proof (lookup_lt_Some _ _ _ H1). pose proof (dots_le (S p) (length dots - 1) d1 d ltac:(lia) H1 Hd). lia.
  - pose proof (dk_increasing _ Hok _ _ _ Hq0 Hq1) as Hlt'. destruct (Nat.lt_trichotomy p q) as [Hpq|[->|Hpq]]; [|simplify_eq; done|].
    + pose proof (dots_le (S p) q d1 e0 Hpq H1 Hq0) as Hle. assert (x = dot_X d1 /\ x = dot_X e0) as [E1 E2] by lia.
      assert (q = S p) as -> by (destruct (decide (q = S p)); [done|]; pose proof (dots_mono dots (S p) q d1 e0 Hok ltac:(lia) H1 Hq0); lia).
      assert (e0 = d1) as -> by congruence. rewrite E1. by rewrite value_left, value_right.
    + pose proof (dots_le (S q) p e1 d0 Hpq Hq1 H0) as Hle. assert (x = dot_X d0 /\ x = dot_X e1) as [E1 E2] by lia.
      assert (p = S q) as -> by (destruct (decide (p = S q)); [done|]; pose proof (dots_mono dots (S q) p e1 d0 Hok ltac:(lia) Hq1 H0); lia).
      assert (e1 = d0) as -> by congruence. rewrite E1. by rewrite value_left, value_right.
Qed.

Lemma piece_value_at i d : dots !! i = Some d -> x = dot_X d -> v = dot_Y d.
Proof.
  intros Hi Hx. destruct (dots !! S i) as [d1|] eqn:Hs.
  - pose proof (dk_increasing _ Hok _ _ _ Hi Hs). rewrite (piece_value_inside i d d1) by (done || lia). rewrite Hx. by apply value_left.
  - destruct i as [|i]; [apply lookup_ge_None in Hs; pose proof (dk_length _ Hok); lia|].
    destruct (lookup_lt_is_Some_2 dots i) as [d0 H0]; [apply lookup_lt_Some in Hi; lia|].
    pose proof (dk_increasing _ Hok _ _ _ H0 Hi). rewrite (piece_value_inside i d0 d) by (done || lia). rewrite Hx. by apply value_right.
Qed.

Lemma piece_value_first d : dots !! 0%nat = Some d -> x <= dot_X d -> v = dot_Y d.
Proof.
  intros Hd Hle. destruct (decide (x = dot_X d)) as [E|]; [by apply (piece_value_at 0)|]. pose proof (dk_length _ Hok).
  destruct Hv as [(d' & Hd' & _ & ->)|[(d' & Hd' & Hxd & _)|(q & e0 & e1 & Hq0 & _ & Hxq & _)]]; [congruence| |].
  - pose proof (dots_le 0 (length dots - 1) d d' ltac:(lia) Hd Hd'). lia.
  - pose proof (dots_le 0 q d e0 ltac:(lia) Hd Hq0). lia.
Qed.

Lemma piece_value_last d : dots !! (length dots - 1)%nat = Some d -> dot_X d <= x -> v = dot_Y d.
Proof.
  intros Hd Hle. destruct (decide (x = dot_X d)) as [E|]; [by apply (piece_value_at (length dots - 1))|]. pose proof (dk_length _ Hok).
  destruct Hv as [(d' & Hd' & Hxd & _)|[(d' & Hd' & _ & ->)|(q & e0 & e1 & _ & Hq1 & Hxq & _)]]; [|congruence|].
  - pose proof (dots_le 0 (length dots - 1) d' d ltac:(lia) Hd' Hd). lia.
  - pose proof (lookup_lt_Some _ _ _ Hq1). pose proof (dots_le (S q) (length dots - 1) e1 d ltac:(lia) Hq1 Hd). lia.
Qed.

End piece_value.

(** ** Properties *)

(** [NewFunc] accepts exactly two or more dots of increasing abscissas
    within the bounds; the function it then returns never panics nor overflows,
    is exact at every dot and constant outside, and between two dots is at most
    one below the smaller and never above the greater of their values, and off
    the line through them by at most two plus a millionth of their distance. *)
Theorem piecefunc_interpolates (dots : list Dot) (x : Z) :
  Forall is_dot dots -> is_u64 x ->
  (NewFunc dots = Ok dots <-> dots_ok dots) /\
  (dots_ok dots -> exists v, Func_Get dots x = Ok v /\
    (forall d, dots !! 0%nat = Some d -> x <= dot_X d -> v = dot_Y d) /\
    (forall d, dots !! (length dots - 1)%nat = Some d -> dot_X d <= x -> v = dot_Y d) /\
    (forall d, d ∈ dots -> x = dot_X d -> v = dot_Y d) /\
    (forall p d0 d1, dots !! p = Some d0 -> dots !! S p = Some d1 -> dot_X d0 <= x <= dot_X d1 ->
      Z.min (dot_Y d0) (dot_Y d1) - 1 <= v <= Z.max (dot_Y d0) (dot_Y d1) /\
      Z.abs (v * (dot_X d1 - dot_X d0) - (dot_Y d0 * (dot_X d1 - x) + dot_Y d1 * (x - dot_X d0))) * DecimalUnit
        <= (2 * DecimalUnit + Z.abs (dot_Y d1 - dot_Y d0)) * (dot_X d1 - dot_X d0))).
Proof.
  intros Hdot Hx. split; [rewrite NewFunc_ok; naive_solver|]. intros Hok.
  destruct (Get_piece dots x Hdot Hok Hx) as (v & Hg & Hv). exists v. splits; [done| | | |].
  - by apply piece_value_first.
  - by apply piece_value_last.
  - intros d [i Hi]%list_elem_of_lookup. by apply (piece_value_at dots x v Hok Hv i).
  - intros p d0 d1 H0 H1 Hx01. rewrite (piece_value_inside dots x v Hok Hv p d0 d1 H0 H1 Hx01).
    pose proof (dk_increasing _ Hok _ _ _ H0 H1). rewrite Forall_lookup in Hdot. destruct (Hdot _ _ H0) as [_ [? _]], (Hdot _ _ H1) as [_ [? _]].
    split; [by apply value_bounds, ratio_range|by apply value_error].
Qed.

Lemma piecefunc_interpolates_witness :
  exists v, Func_Get (leveldb_adjustCache 1024 1048576) (30 * 1048576) = Ok v /\ 1048576 - 1 <= v <= 10 * 1048576.
Proof.
  destruct (proj2 (piecefunc_interpolates (leveldb_adjustCache 1024 1048576) (30 * 1048576)
    ltac:(apply (bool_decide_unpack _); vm_compute; exact I) ltac:(by split)))
    as (v & Hv & _ & _ & _ & Hp).
  - eapply proj2, NewFunc_ok. vm_compute. reflexivity.
  - exists v. split; [done|].
    exact (proj1 (Hp 2%nat _ _ eq_refl eq_refl ltac:(by split))).
Defined.

(** The dots of both back ends are accepted: the package variables that call
    [NewFunc] do not panic. *)
Lemma adjustCache_accepted :
  NewFunc (leveldb_adjustCache 1024 1048576) = Ok (leveldb_adjustCache 1024 1048576) /\
  NewFunc (pebble_adjustCache 1024 1048576) = Ok (pebble_adjustCache 1024 1048576).
Proof. by vm_compute. Qed.

(** The function of LevelDB is not monotone: a cache of 585 MiB is given more
    memory than one of 889 MiB. *)
Lemma leveldb_cache_not_monotone :
  Func_Get (leveldb_adjustCache 1024 1048576) (585 * 1048576) = Ok (437 * 1048576) /\
  Func_Get (leveldb_adjustCache 1024 1048576) (889 * 1048576) = Ok (300 * 1048576).
Proof. by vm_compute. Qed.
