(* ===== verification/Prque.v ===== *)
(** * common/prque: the priority queue

    [prque.Prque] is Go's [container/heap] over a stack kept in blocks.  The
    functions of [container/heap] are written against [heap.Interface], the
    class [HeapInterface], and proved against its laws; [sstack] is the
    instance.  A priority is an [int64] whose order may wrap around: the order
    is right when all the priorities lie within half the range. *)

From S2P Require Import Prelude.
Local Open Scope go_scope.

(** ** Go's container/heap *)

(** [heap.Interface]; indices are Go's [int]. *)
Class HeapInterface (S X : Type) := {
  h_Len : S -> Z;
  h_Less : S -> Z -> Z -> outcome bool;
  h_Swap : S -> Z -> Z -> outcome S;
  h_Push : S -> X -> outcome S;
  h_Pop : S -> outcome (X * S)
}.

Section container_heap.
Context {S X : Type} `{!HeapInterface S X}.

(** One unit of fuel per turn: [j] decreases, [i] grows. *)
Fixpoint heap_up (fuel : nat) (h : S) (j : Z) : outcome S :=
  match fuel with
  | O => Err "out of fuel"
  | Datatypes.S fuel =>
      let i := (j - 1) ÷ 2 in
      if i =? j then Ok h else
      let* less := h_Less h j i in
      if (less : bool) then let* h := h_Swap h i j in heap_up fuel h i else Ok h
  end.

Fixpoint down_loop (fuel : nat) (h : S) (i n : Z) : outcome (Z * S) :=
  match fuel with
  | O => Err "out of fuel"
  | Datatypes.S fuel =>
      let j1 := 2 * i + 1 in
      if (n <=? j1) || (j1 <? 0) then Ok (i, h) else
      let* right := if j1 + 1 <? n then h_Less h (j1 + 1) j1 else Ok false in
      let j := if (right : bool) then j1 + 1 else j1 in
      let* less := h_Less h j i in
      if (less : bool) then let* h := h_Swap h i j in down_loop fuel h j n else Ok (i, h)
  end.

Definition heap_fuel (h : S) : nat := Datatypes.S (Z.to_nat (h_Len h)).

Definition heap_down (h : S) (i0 n : Z) : outcome (bool * S) :=
  let* ' (i, h) := down_loop (heap_fuel h) h i0 n in Ok (i0 <? i, h).

Definition heap_Push (h : S) (x : X) : outcome S :=
  let* h := h_Push h x in heap_up (heap_fuel h) h (h_Len h - 1).

Definition heap_Pop (h : S) : outcome (X * S) :=
  let n := h_Len h - 1 in
  let* h := h_Swap h 0 n in
  let* ' (_, h) := heap_down h 0 n in
  h_Pop h.

Definition heap_Remove (h : S) (i : Z) : outcome (X * S) :=
  let n := h_Len h - 1 in
  let* h :=
    if n =? i then Ok h else
    let* h := h_Swap h i n in
    let* ' (moved, h) := heap_down h i n in
    if (moved : bool) then Ok h else heap_up (heap_fuel h) h i in
  h_Pop h.

End container_heap.

(** ** common/prque/sstack.go *)

(** A slice read or written at an [int]. *)
Definition at_int {A} (l : list A) (i : Z) : outcome A :=
  if i <? 0 then Panic "index out of range" else index l (Z.to_nat i).

Section sstack.
Context {V A : Type} (blockSize : Z).

Record item := mk_item { it_value : V; it_priority : Z }.

(** [active] is the block that the slice of that name is; [env] the state the
    callback [setIndex] changes. *)
Record sstack := mk_sstack {
  setIndex : option (A -> V -> Z -> A);
  size : Z;
  capacity : Z;
  offset : Z;
  blocks : list (list (option item));
  active : nat;
  env : A
}.

Definition new_block : list (option item) := replicate (Z.to_nat blockSize) None.

Definition newSstack (setIndex : option (A -> V -> Z -> A)) (a : A) : sstack :=
  mk_sstack setIndex 0 blockSize 0 [new_block] 0 a.

(** A slot of a block, and the write to it. *)
Definition slot (bs : list (list (option item))) (b o : Z) : outcome (option item) :=
  let* block := at_int bs b in at_int block o.
Definition set_slot (bs : list (list (option item))) (b o : Z) (x : option item) : outcome (list (list (option item))) :=
  let* block := at_int bs b in
  let* _ := at_int block o in
  Ok (<[Z.to_nat b := <[Z.to_nat o := x]> block]> bs).

Definition deref (x : option item) : outcome item :=
  match x with Some it => Ok it | None => Panic "nil pointer dereference" end.

(** A call of [setIndex], if it was given, with the value of an item. *)
Definition notify (s : sstack) (x : option item) (i : Z) : outcome A :=
  match setIndex s with Some f => let* it := deref x in Ok (f (env s) (it_value it) i) | None => Ok (env s) end.

(** The blocks, the capacity, the offset and the block of the next slot. *)
Definition push_room (s : sstack) : list (list (option item)) * Z * Z * nat :=
  if size s =? capacity s then (blocks s ++ [new_block], capacity s + blockSize, 0, length (blocks s))
  else if offset s =? blockSize then (blocks s, capacity s, 0, Z.to_nat (size s ÷ blockSize))
  else (blocks s, capacity s, offset s, active s).

Definition sstack_Push (s : sstack) (data : option item) : outcome sstack :=
  let '(bs, cap, off, act) := push_room s in
  let* a := notify s data (size s) in
  let* bs := set_slot bs (Z.of_nat act) off data in
  Ok (mk_sstack (setIndex s) (size s + 1) cap (off + 1) bs act a).

Definition sstack_Pop (s : sstack) : outcome (option item * sstack) :=
  let sz := size s - 1 in
  let off := offset s - 1 in
  let* ' (off, act) :=
    if off <? 0 then let* _ := at_int (blocks s) (sz ÷ blockSize) in Ok (blockSize - 1, Z.to_nat (sz ÷ blockSize))
    else Ok (off, active s) in
  let* res := slot (blocks s) (Z.of_nat act) off in
  let* bs := set_slot (blocks s) (Z.of_nat act) off None in
  let* a := notify s res (-1) in
  Ok (res, mk_sstack (setIndex s) sz (capacity s) off bs act a).

Definition item_at (s : sstack) (i : Z) : outcome (option item) :=
  slot (blocks s) (i ÷ blockSize) (Z.rem i blockSize).

(** The difference wraps around. *)
Definition comes_before (a b : item) : bool := 0 <? i64 (it_priority a - it_priority b).

Definition sstack_Less (s : sstack) (i j : Z) : outcome bool :=
  let* xi := item_at s i in
  let* a := deref xi in
  let* xj := item_at s j in
  let* b := deref xj in
  Ok (comes_before a b).

Definition sstack_Swap (s : sstack) (i j : Z) : outcome sstack :=
  let ib := i ÷ blockSize in let io := Z.rem i blockSize in
  let jb := j ÷ blockSize in let jo := Z.rem j blockSize in
  let* a := slot (blocks s) jb jo in
  let* b := slot (blocks s) ib io in
  let* e :=
    match setIndex s with
    | Some f => let* a := deref a in let* b := deref b in Ok (f (f (env s) (it_value a) i) (it_value b) j)
    | None => Ok (env s)
    end in
  let* bs := set_slot (blocks s) ib io a in
  let* bs := set_slot bs jb jo b in
  Ok (mk_sstack (setIndex s) (size s) (capacity s) (offset s) bs (active s) e).

Definition sstack_Reset (s : sstack) : sstack := newSstack (setIndex s) (env s).

#[local] Instance sstack_HeapInterface : HeapInterface sstack (option item) := {|
  h_Len := size;
  h_Less := sstack_Less;
  h_Swap := sstack_Swap;
  h_Push := sstack_Push;
  h_Pop := sstack_Pop
|}.

(** ** common/prque/prque.go *)

Definition Prque_New (setIndex : option (A -> V -> Z -> A)) (a : A) : sstack := newSstack setIndex a.
Definition Prque_Push (p : sstack) (data : V) (priority : Z) : outcome sstack := heap_Push p (Some (mk_item data priority)).
Definition Prque_Pop (p : sstack) : outcome (V * Z * sstack) :=
  let* ' (x, p) := heap_Pop p in let* it := deref x in Ok (it_value it, it_priority it, p).
Definition Prque_PopItem (p : sstack) : outcome (V * sstack) :=
  let* ' (x, p) := heap_Pop p in let* it := deref x in Ok (it_value it, p).
(** The result is nil for a negative index, and the pointer to the item, not
    its value, otherwise. *)
Definition Prque_Remove (p : sstack) (i : Z) : outcome (option (option item) * sstack) :=
  if i <? 0 then Ok (None, p) else let* ' (x, p) := heap_Remove p i in Ok (Some x, p).
Definition Prque_Empty (p : sstack) : bool := size p =? 0.
Definition Prque_Size (p : sstack) : Z := size p.
Definition Prque_Reset (p : sstack) : sstack := Prque_New (setIndex p) (env p).

End sstack.
Arguments item : clear implicits.
Arguments sstack : clear implicits.

(** ** What the heap functions rely on *)

Definition swap_list {X} (l : list X) (i j : nat) : list X :=
  match l !! i, l !! j with Some a, Some b => <[i := b]> (<[j := a]> l) | _, _ => l end.

(** A stack that holds [items]; [h_before] is the order that [Less] decides,
    [h_fresh] what an item must satisfy to be pushed, [h_popped] what is known
    of an item just popped. *)
Class HeapLaws (S X : Type) `{!HeapInterface S X} := {
  h_ok : S -> Prop;
  h_items : S -> list X;
  h_before : X -> X -> bool;
  h_fresh : S -> X -> Prop;
  h_popped : S -> X -> Prop;
  h_Len_law s : h_ok s -> h_Len s = Z.of_nat (length (h_items s));
  h_Less_law s i j a b : h_ok s -> h_items s !! i = Some a -> h_items s !! j = Some b ->
    h_Less s (Z.of_nat i) (Z.of_nat j) = Ok (h_before a b);
  h_Swap_law s i j : h_ok s -> (i < length (h_items s))%nat -> (j < length (h_items s))%nat ->
    exists s', h_Swap s (Z.of_nat i) (Z.of_nat j) = Ok s' /\ h_ok s' /\ h_items s' = swap_list (h_items s) i j;
  h_Push_law s x : h_ok s -> h_fresh s x -> exists s', h_Push s x = Ok s' /\ h_ok s' /\ h_items s' = h_items s ++ [x];
  h_Pop_law s l x : h_ok s -> h_items s = l ++ [x] -> exists s', h_Pop s = Ok (x, s') /\ h_ok s' /\ h_items s' = l /\ h_popped s' x
}.

Lemma swap_list_length {X} (l : list X) i j : length (swap_list l i j) = length l.
Proof. unfold swap_list. destruct (l !! i), (l !! j); rewrite ?length_insert; done. Qed.

Lemma swap_list_lookup {X} (l : list X) i j k : (i < length l)%nat -> (j < length l)%nat ->
  swap_list l i j !! k = if decide (k = i) then l !! j else if decide (k = j) then l !! i else l !! k.
Proof.
  intros [a Ha]%lookup_lt_is_Some_2 [b Hb]%lookup_lt_is_Some_2. unfold swap_list. rewrite Ha, Hb.
  pose proof (lookup_lt_Some _ _ _ Ha). pose proof (lookup_lt_Some _ _ _ Hb).
  repeat case_decide; subst.
  - by rewrite list_lookup_insert_eq by (rewrite length_insert; done).
  - rewrite list_lookup_insert_ne, list_lookup_insert_eq by done. done.
  - by rewrite !list_lookup_insert_ne by done.
Qed.

Lemma swap_list_perm {X} (l : list X) i j : swap_list l i j ≡ₚ l.
Proof.
  unfold swap_list. destruct (l !! i) as [a|] eqn:Ha; [|done]. destruct (l !! j) as [b|] eqn:Hb; [|done].
  by apply Permutation_insert_swap.
Qed.

(** ** The heap order *)

Section heap_order.
Context {X : Type} (rank : X -> Z).
Implicit Types (l : list X).

(** Ranks by position; the greatest is at the root. *)
Definition rk l (k : Z) : Z := default 0 (rank <$> l !! Z.to_nat k).
Definition parent_of (k : Z) : Z := (k - 1) / 2.
Definition edge_ok l (k : Z) : Prop := rk l k <= rk l (parent_of k).
Definition heap_to (n : Z) l : Prop := forall k, 0 < k < n -> edge_ok l k.

(** A heap but for the edge above [j]. *)
Definition heap_but_up (n j : Z) l : Prop :=
  (forall k, 0 < k < n -> k <> j -> edge_ok l k) /\
  (0 < j -> forall k, 0 < k < n -> parent_of k = j -> rk l k <= rk l (parent_of j)).

(** A heap but for the edges around [i]. *)
Definition heap_but_at (n i : Z) l : Prop :=
  (forall k, 0 < k < n -> k <> i -> parent_of k <> i -> edge_ok l k) /\
  (0 < i -> forall k, 0 < k < n -> parent_of k = i -> rk l k <= rk l (parent_of i)).

Lemma parent_range k : 0 < k -> 0 <= parent_of k < k.
Proof. unfold parent_of. intros. Z.to_euclidean_division_equations. lia. Qed.

Lemma children_of k i : 0 < k -> parent_of k = i -> k = 2 * i + 1 \/ k = 2 * i + 2.
Proof. unfold parent_of. intros. Z.to_euclidean_division_equations. lia. Qed.

Lemma parent_left i : parent_of (2 * i + 1) = i.
Proof. unfold parent_of. Z.to_euclidean_division_equations. lia. Qed.

Lemma parent_right i : parent_of (2 * i + 1 + 1) = i.
Proof. unfold parent_of. Z.to_euclidean_division_equations. lia. Qed.

Lemma rk_swap l i j k :
  0 <= i < Z.of_nat (length l) -> 0 <= j < Z.of_nat (length l) -> 0 <= k ->
  rk (swap_list l (Z.to_nat i) (Z.to_nat j)) k = if k =? i then rk l j else if k =? j then rk l i else rk l k.
Proof.
  intros Hi Hj Hk. unfold rk. rewrite swap_list_lookup by lia.
  destruct (k =? i) eqn:E1; bool_to_prop; [by rewrite decide_True by lia|rewrite decide_False by lia].
  destruct (k =? j) eqn:E2; bool_to_prop; [by rewrite decide_True by lia|by rewrite decide_False by lia].
Qed.

Lemma heap_but_up_done n j l : heap_but_up n j l -> edge_ok l j \/ j = 0 -> heap_to n l.
Proof. intros [H1 _] Hj k Hk. destruct (decide (k = j)) as [->|]; [destruct Hj; [done|lia]|auto]. Qed.

(** A swap with the parent moves the exception up. *)
Lemma swap_up n j l : let i := parent_of j in
  0 < j < n -> n <= Z.of_nat (length l) -> heap_but_up n j l -> rk l i < rk l j ->
  heap_but_up n i (swap_list l (Z.to_nat i) (Z.to_nat j)).
Proof.
  intros i Hj Hn [H1 H2] Hlt. pose proof (parent_range j ltac:(lia)) as Hi. fold i in Hi. split.
  - intros k Hk Hki. pose proof (parent_range k ltac:(lia)). unfold edge_ok. rewrite !rk_swap by lia.
    destruct (k =? i) eqn:E1; bool_to_prop; [lia|]. destruct (k =? j) eqn:E2; bool_to_prop.
    + subst k. fold i. rewrite Z.eqb_refl. lia.
    + specialize (H1 k Hk E2). unfold edge_ok in H1. destruct (parent_of k =? i) eqn:E3; bool_to_prop; [rewrite E3 in H1; lia|].
      destruct (parent_of k =? j) eqn:E4; bool_to_prop; [apply H2; done || lia|done].
  - intros Hi0 k Hk Hki. pose proof (parent_range i ltac:(lia)) as Hpi. rewrite !rk_swap by lia.
    assert (edge_ok l i) as Hei by (apply H1; lia). unfold edge_ok in Hei.
    assert (k <> i) by (pose proof (parent_range k ltac:(lia)); lia).
    destruct (k =? i) eqn:E1; bool_to_prop; [lia|]. destruct (parent_of i =? i) eqn:E3; bool_to_prop; [lia|].
    destruct (parent_of i =? j) eqn:E4; bool_to_prop; [lia|]. destruct (k =? j) eqn:E2; bool_to_prop; [done|].
    specialize (H1 k Hk E2). unfold edge_ok in H1. rewrite Hki in H1. lia.
Qed.

(** A swap with the greater child moves the exception down. *)
Lemma swap_down n i j l : parent_of j = i -> 0 <= i -> 0 < j < n -> n <= Z.of_nat (length l) ->
  heap_but_at n i l -> (forall k, 0 < k < n -> parent_of k = i -> rk l k <= rk l j) -> rk l i < rk l j ->
  let l' := swap_list l (Z.to_nat i) (Z.to_nat j) in
  heap_but_at n j l' /\ edge_ok l' j.
Proof.
  intros Hp Hi Hj Hn [H1 H2] Hmax Hlt l'. pose proof (parent_range j ltac:(lia)) as Hij. rewrite Hp in Hij.
  assert (forall k, 0 <= k -> rk l' k = if k =? i then rk l j else if k =? j then rk l i else rk l k) as Hrk.
  { intros k Hk. apply rk_swap; lia. }
  splits.
  - split.
    + intros k Hk Hkj Hpk. pose proof (parent_range k ltac:(lia)). unfold edge_ok. rewrite !Hrk by lia.
      destruct (k =? i) eqn:E1; bool_to_prop.
      * subst k. destruct (parent_of i =? i) eqn:E3; bool_to_prop; [lia|]. destruct (parent_of i =? j) eqn:E4; bool_to_prop; [lia|]. apply H2; lia.
      * destruct (k =? j) eqn:E2; bool_to_prop; [lia|]. destruct (parent_of k =? i) eqn:E3; bool_to_prop; [by apply Hmax|].
        destruct (parent_of k =? j) eqn:E4; bool_to_prop; [lia|]. by apply H1.
    + intros _ k Hk Hkj. pose proof (parent_range k ltac:(lia)) as Hpk. rewrite Hp, !Hrk by lia. rewrite Z.eqb_refl.
      destruct (k =? i) eqn:E1; bool_to_prop; [lia|]. destruct (k =? j) eqn:E2; bool_to_prop; [lia|].
      specialize (H1 k Hk ltac:(lia) ltac:(lia)). unfold edge_ok in H1. by rewrite Hkj in H1.
  - unfold edge_ok. rewrite Hp, !Hrk by lia. rewrite !Z.eqb_refl. destruct (j =? i) eqn:E; bool_to_prop; [lia|]. lia.
Qed.

Lemma heap_root n l k : heap_to n l -> 0 <= k < n -> rk l k <= rk l 0.
Proof.
  intros Hh. induction k as [k IH] using (well_founded_induction (Z.lt_wf 0)). intros Hk.
  destruct (decide (k = 0)) as [->|]; [lia|]. pose proof (parent_range k ltac:(lia)) as Hp.
  pose proof (Hh k ltac:(lia)) as He. unfold edge_ok in He. specialize (IH (parent_of k) ltac:(lia) ltac:(lia)). lia.
Qed.

End heap_order.

(** ** The functions of container/heap over the laws *)

Section heap_functions.
Context {S X : Type} `{!HeapInterface S X} `{!HeapLaws S X} (rank : X -> Z).
Implicit Types (s : S) (l : list X).

(** [Less] compares ranks on these items. *)
Definition ranked l : Prop := forall a b, a ∈ l -> b ∈ l -> h_before a b = (rank b <? rank a).

Lemma ranked_perm l l' : l' ≡ₚ l -> ranked l -> ranked l'.
Proof. intros Hp Hr a b. rewrite Hp. apply Hr. Qed.

Lemma rk_at l i x : l !! Z.to_nat i = Some x -> rk rank l i = rank x.
Proof. intros Hx. unfold rk. by rewrite Hx. Qed.

Lemma Less_rk s i j : h_ok s -> ranked (h_items s) -> 0 <= i < h_Len s -> 0 <= j < h_Len s ->
  h_Less s i j = Ok (rk rank (h_items s) j <? rk rank (h_items s) i).
Proof.
  intros Hok Hr Hi Hj. rewrite h_Len_law in Hi, Hj by done.
  destruct (lookup_lt_is_Some_2 (h_items s) (Z.to_nat i) ltac:(lia)) as [a Ha], (lookup_lt_is_Some_2 (h_items s) (Z.to_nat j) ltac:(lia)) as [b Hb].
  pose proof (h_Less_law s _ _ a b Hok Ha Hb) as Hl. rewrite !Z2Nat.id in Hl by lia. rewrite Hl. rewrite (rk_at _ _ _ Ha), (rk_at _ _ _ Hb).
  by rewrite (Hr a b (list_elem_of_lookup_2 _ _ _ Ha) (list_elem_of_lookup_2 _ _ _ Hb)).
Qed.

Lemma Swap_items s i j : h_ok s -> 0 <= i < h_Len s -> 0 <= j < h_Len s ->
  exists s', h_Swap s i j = Ok s' /\ h_ok s' /\ h_items s' = swap_list (h_items s) (Z.to_nat i) (Z.to_nat j) /\ h_Len s' = h_Len s.
Proof.
  intros Hok Hi Hj. rewrite h_Len_law in Hi, Hj by done.
  destruct (h_Swap_law s (Z.to_nat i) (Z.to_nat j) Hok ltac:(lia) ltac:(lia)) as (s' & Hs & Hok' & Hit).
  rewrite !Z2Nat.id in Hs by lia. exists s'. splits; try done. by rewrite !h_Len_law, Hit, swap_list_length.
Qed.

Lemma Len_perm s s' : h_ok s -> h_ok s' -> h_items s' ≡ₚ h_items s -> h_Len s' = h_Len s.
Proof. intros H1 H2 Hp. rewrite !h_Len_law by done. f_equal. by apply Permutation_length. Qed.

(** Same items, those from [n] on in place. *)
Definition permuted (n : Z) l l' : Prop := l' ≡ₚ l /\ forall k, n <= Z.of_nat k -> l' !! k = l !! k.

Lemma permuted_refl n l : permuted n l l.
Proof. by split. Qed.

Lemma permuted_trans n l1 l2 l3 : permuted n l1 l2 -> permuted n l2 l3 -> permuted n l1 l3.
Proof. intros [H1 H2] [H3 H4]. split; [by rewrite H3|]. intros k Hk. by rewrite H4, H2. Qed.

Lemma permuted_swap n l i j : 0 <= i < n -> 0 <= j < n -> n <= Z.of_nat (length l) -> permuted n l (swap_list l (Z.to_nat i) (Z.to_nat j)).
Proof.
  intros Hi Hj Hn. split; [apply swap_list_perm|]. intros k Hk. rewrite swap_list_lookup by lia. by rewrite !decide_False by lia.
Qed.

Lemma heap_up_spec n : forall fuel s j,
  h_ok s -> ranked (h_items s) -> 0 <= j < n -> n <= h_Len s -> j < Z.of_nat fuel -> heap_but_up rank n j (h_items s) ->
  exists s', heap_up fuel s j = Ok s' /\ h_ok s' /\ permuted n (h_items s) (h_items s') /\ heap_to rank n (h_items s').
Proof.
  induction fuel as [|fuel IH]; intros s j Hok Hr Hj Hn Hfuel Hb; [lia|]. cbn [heap_up].
  destruct (decide (j = 0)) as [->|Hj0].
  { change ((0 - 1) ÷ 2 =? 0) with true. exists s. splits; try done. eapply heap_but_up_done; [done|by right]. }
  pose proof (parent_range j ltac:(lia)) as Hp. replace ((j - 1) ÷ 2) with (parent_of j) by (unfold parent_of; rewrite Z.quot_div_nonneg by lia; done).
  destruct (parent_of j =? j) eqn:E; bool_to_prop; [lia|]. rewrite Less_rk by (done || lia). cbn [outcome_bind].
  destruct (rk rank (h_items s) (parent_of j) <? rk rank (h_items s) j) eqn:El; bool_to_prop.
  - destruct (Swap_items s (parent_of j) j Hok ltac:(lia) ltac:(lia)) as (s1 & -> & Hok1 & Hi1 & Hl1). cbn [outcome_bind].
    assert (permuted n (h_items s) (h_items s1)) as Hp1 by (rewrite Hi1; apply permuted_swap; rewrite <- ?h_Len_law by done; lia).
    destruct (IH s1 (parent_of j)) as (s2 & Hu & Hok2 & Hp2 & Hh); [done|by eapply ranked_perm; [apply Hp1|]|lia|lia|lia| |].
    + rewrite Hi1. apply swap_up; rewrite <- ?h_Len_law by done; done || lia.
    + exists s2. splits; try done. by eapply permuted_trans.
  - exists s. splits; try done. eapply heap_but_up_done; [done|by left].
Qed.

Lemma down_loop_spec n : forall fuel s i,
  h_ok s -> ranked (h_items s) -> 0 <= i -> n <= h_Len s -> n - i < Z.of_nat fuel -> (0 < fuel)%nat -> heap_but_at rank n i (h_items s) ->
  exists i' s', down_loop fuel s i n = Ok (i', s') /\ h_ok s' /\ permuted n (h_items s) (h_items s') /\ i <= i' /\ h_Len s' = h_Len s /\
    (i' = i -> s' = s /\ heap_but_up rank n i (h_items s)) /\ (i < i' -> heap_to rank n (h_items s')).
Proof.
  induction fuel as [|fuel IH]; intros s i Hok Hr Hi Hn Hfuel Hf0 Hb; [lia|]. cbn [down_loop].
  destruct (_ || _) eqn:E1; bool_to_prop.
  { exists i, s. splits; try done; [|lia]. intros _. split; [done|]. destruct Hb as [H1 H2]. split; [|done].
    intros k Hk Hne. apply H1; [done|done|]. intros Hpk. pose proof (children_of k i ltac:(lia) Hpk). lia. }
  assert (exists right, (if 2 * i + 1 + 1 <? n then h_Less s (2 * i + 1 + 1) (2 * i + 1) else Ok false) = Ok right /\
    let j := if right : bool then 2 * i + 1 + 1 else 2 * i + 1 in
    0 < j < n /\ parent_of j = i /\ forall k, 0 < k < n -> parent_of k = i -> rk rank (h_items s) k <= rk rank (h_items s) j) as (right & -> & Hj & Hpj & Hmax).
  { destruct (2 * i + 1 + 1 <? n) eqn:E2; bool_to_prop.
    - rewrite Less_rk by (done || lia). eexists. split; [reflexivity|]. cbv zeta. destruct (_ <? _) eqn:E3; bool_to_prop.
      + split; [lia|]. split; [apply parent_right|]. intros k Hk Hpk. destruct (children_of k i ltac:(lia) Hpk) as [-> | ->]; [lia|]. by replace (2 * i + 2) with (2 * i + 1 + 1) by lia.
      + split; [lia|]. split; [apply parent_left|]. intros k Hk Hpk. destruct (children_of k i ltac:(lia) Hpk) as [-> | ->]; [lia|]. by replace (2 * i + 2) with (2 * i + 1 + 1) by lia.
    - exists false. split; [done|]. split; [lia|]. split; [apply parent_left|]. intros k Hk Hpk. destruct (children_of k i ltac:(lia) Hpk) as [-> | ->]; lia. }
  cbn [outcome_bind]. set (j := if right then _ else _) in *. clearbody j. pose proof (parent_range j ltac:(lia)) as Hij. rewrite Hpj in Hij.
  rewrite Less_rk by (done || lia). cbn [outcome_bind]. destruct (rk rank (h_items s) i <? rk rank (h_items s) j) eqn:El; bool_to_prop.
  - destruct (Swap_items s i j Hok ltac:(lia) ltac:(lia)) as (s1 & -> & Hok1 & Hi1 & Hl1). cbn [outcome_bind].
    assert (permuted n (h_items s) (h_items s1)) as Hp1 by (rewrite Hi1; apply permuted_swap; rewrite <- ?h_Len_law by done; lia).
    destruct (swap_down rank n i j (h_items s)) as [Hb1 He1]; [done|lia|lia|rewrite <- h_Len_law by done; lia|done|done|done|]. rewrite <- Hi1 in Hb1, He1.
    destruct (IH s1 j) as (i' & s2 & Hd & Hok2 & Hp2 & Hle & Hl2 & Hsame & Hmoved); [done|by eapply ranked_perm; [apply Hp1|]|lia|lia|lia|lia|done|].
    exists i', s2. splits; try done; [by eapply permuted_trans|lia|congruence|lia|]. intros _.
    destruct (decide (i' = j)) as [E|]; [|apply Hmoved; lia]. destruct (Hsame E) as [-> Hbu]. eapply heap_but_up_done; [done|by left].
  - exists i, s. splits; try done; [|lia]. intros _. split; [done|]. destruct Hb as [H1 H2]. split; [|done].
    intros k Hk Hne. destruct (decide (parent_of k = i)) as [Hpk|]; [|by apply H1]. unfold edge_ok. rewrite Hpk. specialize (Hmax k Hk Hpk). lia.
Qed.

Lemma heap_fuel_ok s : h_ok s -> h_Len s < Z.of_nat (heap_fuel s) /\ (0 < heap_fuel s)%nat.
Proof. intros Hok. rewrite h_Len_law by done. unfold heap_fuel. rewrite h_Len_law by done. lia. Qed.

Lemma heap_down_spec s i n :
  h_ok s -> ranked (h_items s) -> 0 <= i -> n <= h_Len s -> heap_but_at rank n i (h_items s) ->
  exists moved s', heap_down s i n = Ok (moved, s') /\ h_ok s' /\ permuted n (h_items s) (h_items s') /\ h_Len s' = h_Len s /\
    if (moved : bool) then heap_to rank n (h_items s') else s' = s /\ heap_but_up rank n i (h_items s).
Proof.
  intros Hok Hr Hi Hn Hb. destruct (heap_fuel_ok s Hok) as [Hf1 Hf2]. unfold heap_down.
  destruct (down_loop_spec n (heap_fuel s) s i) as (i' & s' & -> & Hok' & Hp & Hle & Hl & Hsame & Hmoved); [done|done|done|done|lia|done|done|].
  cbn [outcome_bind]. exists (i <? i'), s'. splits; try done. destruct (i <? i') eqn:E; bool_to_prop; [auto|]. apply Hsame. lia.
Qed.

Lemma heap_to_app_one l x n : Z.of_nat (length l) = n -> heap_to rank n l -> heap_but_up rank (n + 1) n (l ++ [x]).
Proof.
  intros Hl Hh. assert (forall k, 0 <= k < n -> rk rank (l ++ [x]) k = rk rank l k) as Hrk.
  { intros k Hk. unfold rk. by rewrite lookup_app_l by lia. }
  split.
  - intros k Hk Hne. pose proof (parent_range k ltac:(lia)). unfold edge_ok. rewrite !Hrk by lia. apply Hh. lia.
  - intros _ k Hk Hpk. pose proof (parent_range k ltac:(lia)). lia.
Qed.

Lemma heap_to_take l l' x n : l = l' ++ [x] -> Z.of_nat (length l') = n -> heap_to rank n l -> heap_to rank n l'.
Proof.
  intros -> Hl Hh k Hk. pose proof (parent_range k ltac:(lia)). specialize (Hh k Hk). unfold edge_ok, rk in *. by rewrite !lookup_app_l in Hh by lia.
Qed.

(** A heap, whole. *)
Definition heap s : Prop := h_ok s /\ heap_to rank (h_Len s) (h_items s).

Lemma heap_Push_spec s x : heap s -> ranked (x :: h_items s) -> h_fresh s x ->
  exists s', heap_Push s x = Ok s' /\ heap s' /\ h_items s' ≡ₚ x :: h_items s.
Proof.
  intros [Hok Hh] Hr Hf. unfold heap_Push. destruct (h_Push_law s x Hok Hf) as (s1 & -> & Hok1 & Hi1). cbn [outcome_bind].
  assert (h_Len s1 = h_Len s + 1) as Hl1 by (rewrite !h_Len_law, Hi1, length_app by done; simpl; lia).
  assert (h_items s1 ≡ₚ x :: h_items s) as Hp1 by (rewrite Hi1; by rewrite Permutation_app_comm).
  assert (0 <= h_Len s) by (rewrite h_Len_law by done; lia).
  destruct (heap_up_spec (h_Len s1) (heap_fuel s1) s1 (h_Len s1 - 1)) as (s2 & Hu & Hok2 & [Hp2 _] & Hh2); [done|by eapply ranked_perm|lia|lia| | |].
  - destruct (heap_fuel_ok s1 Hok1). lia.
  - rewrite Hi1, Hl1. replace (h_Len s + 1 - 1) with (h_Len s) by lia. by apply heap_to_app_one; [rewrite h_Len_law|].
  - exists s2. split; [done|]. split; [split; [done|]|by rewrite Hp2]. by rewrite (Len_perm s1 s2).
Qed.

(** The last step of [Pop] and [Remove]. *)
Lemma pop_last s n x : h_ok s -> h_Len s = n + 1 -> heap_to rank n (h_items s) -> h_items s !! Z.to_nat n = Some x -> 0 <= n ->
  exists s', h_Pop s = Ok (x, s') /\ heap s' /\ h_items s ≡ₚ x :: h_items s' /\ h_popped s' x.
Proof.
  intros Hok Hl Hh Hx Hn. rewrite h_Len_law in Hl by done.
  assert (h_items s = take (Z.to_nat n) (h_items s) ++ [x]) as Hit.
  { rewrite <- (take_S_r _ _ _ Hx). symmetry. apply take_ge. lia. }
  destruct (h_Pop_law s _ x Hok Hit) as (s' & Hp & Hok' & Hi' & Hpo). exists s'. split; [done|].
  assert (Z.of_nat (length (h_items s')) = n) as Hl' by (rewrite Hi', length_take; lia).
  split; [split; [done|]|split; [|done]].
  - rewrite h_Len_law, Hl' by done. by eapply heap_to_take; [rewrite Hi'; exact Hit| |].
  - rewrite Hit, Hi' at 1. by rewrite Permutation_app_comm.
Qed.

Lemma heap_Pop_spec s : heap s -> ranked (h_items s) -> 0 < h_Len s ->
  exists x s', heap_Pop s = Ok (x, s') /\ heap s' /\ h_items s ≡ₚ x :: h_items s' /\ h_popped s' x /\ forall y, y ∈ h_items s -> rank y <= rank x.
Proof.
  intros [Hok Hh] Hr Hl. pose proof (h_Len_law s Hok) as Hlen. unfold heap_Pop. set (n := h_Len s - 1).
  destruct (lookup_lt_is_Some_2 (h_items s) 0) as [x Hx]; [rewrite h_Len_law in Hl by done; lia|].
  destruct (Swap_items s 0 n Hok ltac:(lia) ltac:(lia)) as (s1 & -> & Hok1 & Hi1 & Hl1). cbn [outcome_bind].
  assert (h_items s1 ≡ₚ h_items s) as Hp1 by (rewrite Hi1; apply swap_list_perm).
  destruct (heap_down_spec s1 0 n) as (moved & s2 & -> & Hok2 & [Hp2 Hk2] & Hl2 & Hres); [done|by eapply ranked_perm|lia|lia| |].
  - split; [|lia]. intros k Hk Hk0 Hpk. pose proof (parent_range k ltac:(lia)). unfold edge_ok. rewrite Hi1, !rk_swap by (rewrite <- ?h_Len_law by done; lia).
    destruct (k =? 0) eqn:E1; bool_to_prop; [lia|]. destruct (k =? n) eqn:E2; bool_to_prop; [lia|].
    destruct (parent_of k =? 0) eqn:E3; bool_to_prop; [lia|]. destruct (parent_of k =? n) eqn:E4; bool_to_prop; [lia|]. apply Hh. lia.
  - cbn [outcome_bind]. assert (heap_to rank n (h_items s2)) as Hh2.
    { destruct moved; [done|]. destruct Hres as [-> Hres]. eapply heap_but_up_done; [done|by right]. }
    assert (h_items s2 !! Z.to_nat n = Some x) as Hx2.
    { rewrite Hk2 by lia. rewrite Hi1, swap_list_lookup by lia.
      case_decide as E; [by rewrite E|]. by rewrite decide_True. }
    destruct (pop_last s2 n x Hok2 ltac:(lia) Hh2 Hx2 ltac:(lia)) as (s3 & -> & Hh3 & Hp3 & Hpo). exists x, s3. splits; try done.
    + by rewrite <- Hp3, Hp2, Hp1.
    + intros y [k Hk]%list_elem_of_lookup. pose proof (lookup_lt_Some _ _ _ Hk).
      rewrite <- (rk_at (h_items s) (Z.of_nat k) y) by (by rewrite Nat2Z.id). rewrite <- (rk_at (h_items s) 0 x) by done.
      eapply heap_root; [done|]. rewrite h_Len_law by done. lia.
Qed.

Lemma heap_Remove_spec s i x : heap s -> ranked (h_items s) -> 0 <= i -> h_items s !! Z.to_nat i = Some x ->
  exists s', heap_Remove s i = Ok (x, s') /\ heap s' /\ h_items s ≡ₚ x :: h_items s' /\ h_popped s' x.
Proof.
  intros [Hok Hh] Hr Hi Hx. pose proof (lookup_lt_Some _ _ _ Hx) as Hlt. pose proof (h_Len_law s Hok) as Hlen.
  unfold heap_Remove. set (n := h_Len s - 1). destruct (n =? i) eqn:E; bool_to_prop.
  - cbn [outcome_bind]. apply (pop_last s n x); [done|lia| |by rewrite E|lia]. intros k Hk. apply Hh. lia.
  - destruct (Swap_items s i n Hok ltac:(lia) ltac:(lia)) as (s1 & -> & Hok1 & Hi1 & Hl1). cbn [outcome_bind].
    assert (h_items s1 ≡ₚ h_items s) as Hp1 by (rewrite Hi1; apply swap_list_perm).
    assert (forall k, 0 <= k -> rk rank (h_items s1) k = if k =? i then rk rank (h_items s) n else if k =? n then rk rank (h_items s) i else rk rank (h_items s) k) as Hrk.
    { intros k Hk. rewrite Hi1. apply rk_swap; lia. }
    assert (h_items s1 !! Z.to_nat n = Some x) as Hx1 by (rewrite Hi1, swap_list_lookup by lia; rewrite decide_False by lia; by rewrite decide_True).
    assert (heap_but_at rank n i (h_items s1)) as Hb1.
    { split.
      - intros k Hk Hki Hpk. pose proof (parent_range k ltac:(lia)). unfold edge_ok. rewrite !Hrk by lia.
        destruct (k =? i) eqn:E1; bool_to_prop; [lia|]. destruct (k =? n) eqn:E2; bool_to_prop; [lia|].
        destruct (parent_of k =? i) eqn:E3; bool_to_prop; [lia|]. destruct (parent_of k =? n) eqn:E4; bool_to_prop; [lia|]. apply Hh. lia.
      - intros Hi0 k Hk Hpk. pose proof (parent_range k ltac:(lia)). pose proof (parent_range i ltac:(lia)). rewrite !Hrk by lia.
        destruct (k =? i) eqn:E1; bool_to_prop; [lia|]. destruct (k =? n) eqn:E2; bool_to_prop; [lia|].
        destruct (parent_of i =? i) eqn:E3; bool_to_prop; [lia|]. destruct (parent_of i =? n) eqn:E4; bool_to_prop; [lia|].
        pose proof (Hh k ltac:(lia)) as He1. pose proof (Hh i ltac:(lia)) as He2. unfold edge_ok in *. rewrite Hpk in He1. lia. }
    destruct (heap_down_spec s1 i n) as (moved & s2 & -> & Hok2 & [Hp2 Hk2] & Hl2 & Hres); [done|by eapply ranked_perm|lia|lia|done|]. cbn [outcome_bind].
    destruct moved; cbn [outcome_bind].
    + destruct (pop_last s2 n x Hok2 ltac:(lia) Hres) as (s3 & -> & Hh3 & Hp3 & Hpo); [by rewrite Hk2 by lia|lia|]. exists s3. splits; try done. by rewrite <- Hp3, Hp2.
    + destruct Hres as [-> Hbu]. destruct (heap_up_spec n (heap_fuel s1) s1 i) as (s3 & -> & Hok3 & [Hp3 Hk3] & Hh3); [done|by apply (ranked_perm (h_items s))|lia|lia| |done|].
      { destruct (heap_fuel_ok s1 Hok1). lia. }
      cbn [outcome_bind]. destruct (pop_last s3 n x Hok3) as (s4 & -> & Hh4 & Hp4 & Hpo); [|done|by rewrite Hk3 by lia|lia|].
      { rewrite (Len_perm s1 s3) by done. lia. }
      exists s4. splits; try done. by rewrite <- Hp4, Hp3.
Qed.

End heap_functions.

(** ** The stack in blocks *)

Section blocks.
Context {T : Type} (B : nat).
Implicit Types (bs : list (list T)).

Definition uniform bs : Prop := Forall (fun b => length b = B) bs.

Lemma uniform_length bs : uniform bs -> length (concat bs) = (length bs * B)%nat.
Proof. induction 1 as [|b bs Hb _ IH]; [done|]. simpl. rewrite length_app. lia. Qed.

Lemma concat_lookup bs b o : uniform bs -> (o < B)%nat -> concat bs !! (b * B + o)%nat = (bs !! b) ≫= (fun block => block !! o).
Proof.
  intros Hu Ho. revert b. induction Hu as [|block bs Hb _ IH]; intros b; [by destruct b|]. simpl. destruct b as [|b].
  - by rewrite lookup_app_l by (rewrite Hb; lia).
  - rewrite lookup_app_r by (rewrite Hb; lia). rewrite Hb. replace (S b * B + o - B)%nat with (b * B + o)%nat by lia. apply IH.
Qed.

Lemma concat_insert bs b o block x : uniform bs -> (o < B)%nat -> bs !! b = Some block ->
  concat (<[b := <[o := x]> block]> bs) = <[(b * B + o)%nat := x]> (concat bs).
Proof.
  intros Hu Ho. revert b. induction Hu as [|block0 bs Hb _ IH]; intros [|b] Hlk; simpl in *; [done|done| |].
  - injection Hlk as ->. by rewrite insert_app_l by lia.
  - rewrite (IH b Hlk). replace (B + b * B + o)%nat with (length block0 + (b * B + o))%nat by lia. by rewrite insert_app_r.
Qed.

Lemma uniform_insert bs b o block x : uniform bs -> bs !! b = Some block -> uniform (<[b := <[o := x]> block]> bs).
Proof. intros Hu Hb. apply Forall_insert; [done|]. rewrite length_insert. exact (Forall_lookup_1 _ _ _ _ Hu Hb). Qed.

End blocks.

(** The callback that keeps the position of each value, as the callers of
    [Remove] do. *)
Definition record_index {V : Type} `{Countable V} (m : gmap V Z) (v : V) (i : Z) : gmap V Z := <[v := i]> m.

Section sstack_laws.
Context {V : Type} `{Countable V} (blockSize : Z) (HB : 0 < blockSize) (tracking : bool).
Local Abbreviation stack := (sstack V (gmap V Z)).
Local Abbreviation B := (Z.to_nat blockSize).
Implicit Types (s : stack) (it : item V) (x : option (item V)).
Local Hint Extern 0 (HeapInterface _ _) => exact (sstack_HeapInterface blockSize) : typeclass_instances.

Definition items_of s : list (option (item V)) := take (Z.to_nat (size s)) (concat (blocks s)).

(** The values are at the positions last recorded, so they are distinct. *)
Definition tracked (e : gmap V Z) (l : list (option (item V))) : Prop :=
  forall i it, l !! i = Some (Some it) -> e !! it_value it = Some (Z.of_nat i).

(** The slots up to [size] hold items, the others nil; [offset] is the place in
    the block [active] where the next item goes. *)
Record sstack_ok s : Prop := {
  so_uniform : uniform B (blocks s);
  so_capacity : capacity s = Z.of_nat (length (blocks s)) * blockSize;
  so_size : 0 <= size s <= capacity s;
  so_slots : concat (blocks s) = items_of s ++ replicate (Z.to_nat (capacity s - size s)) None;
  so_items : Forall is_Some (items_of s);
  so_offset : Z.of_nat (active s) * blockSize + offset s = size s;
  so_active : 0 <= offset s <= blockSize /\ (active s < length (blocks s))%nat;
  so_callback : setIndex s = if tracking then Some record_index else None;
  so_tracked : tracking = true -> tracked (env s) (items_of s)
}.

Lemma items_length s : sstack_ok s -> length (items_of s) = Z.to_nat (size s).
Proof.
  intros [Hu Hc Hs _ _ _ _ _ _]. unfold items_of. rewrite length_take, (uniform_length B) by done. nia.
Qed.

(** Slots are the places of the concatenation. *)
Lemma slot_spec (bs : list (list (option (item V)))) b o x : uniform B bs -> 0 <= b -> 0 <= o < blockSize ->
  concat bs !! Z.to_nat (b * blockSize + o) = Some x -> slot bs b o = Ok x.
Proof.
  intros Hu Hb Ho. replace (Z.to_nat (b * blockSize + o)) with (Z.to_nat b * B + Z.to_nat o)%nat by nia.
  rewrite concat_lookup by (done || lia). unfold slot, at_int. rewrite (proj2 (Z.ltb_ge b 0)), (proj2 (Z.ltb_ge o 0)) by lia. unfold index.
  destruct (bs !! Z.to_nat b) as [block|]; [|done]. cbn [outcome_bind mbind option_bind]. by intros ->.
Qed.

Lemma set_slot_spec (bs : list (list (option (item V)))) b o x : uniform B bs -> 0 <= b < Z.of_nat (length bs) -> 0 <= o < blockSize ->
  exists bs', set_slot bs b o x = Ok bs' /\ uniform B bs' /\ length bs' = length bs /\ concat bs' = <[Z.to_nat (b * blockSize + o) := x]> (concat bs).
Proof.
  intros Hu Hb Ho. destruct (lookup_lt_is_Some_2 bs (Z.to_nat b) ltac:(lia)) as [block Hbl].
  pose proof (Forall_lookup_1 _ _ _ _ Hu Hbl) as Hlen. simpl in Hlen.
  destruct (lookup_lt_is_Some_2 block (Z.to_nat o) ltac:(lia)) as [y Hy].
  unfold set_slot, at_int. rewrite (proj2 (Z.ltb_ge b 0)), (proj2 (Z.ltb_ge o 0)) by lia. rewrite (index_lookup _ _ _ Hbl). cbn [outcome_bind].
  rewrite (index_lookup _ _ _ Hy). cbn [outcome_bind]. eexists. split; [reflexivity|].
  split; [by apply uniform_insert|]. split; [apply length_insert|]. rewrite (concat_insert B) by (done || lia).
  f_equal. nia.
Qed.

Lemma slot_index k : k / blockSize * blockSize + k mod blockSize = k.
Proof. rewrite Z.mul_comm. symmetry. apply Z_div_mod_eq_full. Qed.

Lemma item_at_spec s i x : sstack_ok s -> items_of s !! i = Some x -> item_at blockSize s (Z.of_nat i) = Ok x.
Proof.
  intros Hok Hx. pose proof (lookup_lt_Some _ _ _ Hx) as Hlt. unfold item_at. rewrite Z.quot_div_nonneg, Z.rem_mod_nonneg by lia.
  pose proof (Z.mod_pos_bound (Z.of_nat i) blockSize HB). apply slot_spec; [apply Hok|apply Z.div_pos; lia|done|].
  rewrite slot_index, Nat2Z.id. rewrite (so_slots _ Hok). by rewrite lookup_app_l.
Qed.

Lemma items_some s i x : sstack_ok s -> items_of s !! i = Some x -> exists it, x = Some it.
Proof. intros Hok Hx. destruct (Forall_lookup_1 _ _ _ _ (so_items _ Hok) Hx) as [it ->]. by exists it. Qed.

(** Pointers to items compare as the items. *)
Definition ptr_before x y : bool :=
  match x, y with Some a, Some b => comes_before a b | _, _ => false end.

Lemma sstack_Less_spec s i j a b : sstack_ok s -> items_of s !! i = Some a -> items_of s !! j = Some b ->
  sstack_Less blockSize s (Z.of_nat i) (Z.of_nat j) = Ok (ptr_before a b).
Proof.
  intros Hok Ha Hb. unfold sstack_Less. rewrite (item_at_spec s i a Hok Ha). destruct (items_some s i a Hok Ha) as [ita ->]. cbn [outcome_bind deref].
  rewrite (item_at_spec s j b Hok Hb). by destruct (items_some s j b Hok Hb) as [itb ->].
Qed.

(** Enough to be well formed again after a change of the slots. *)
Lemma sstack_ok_intro s l :
  uniform B (blocks s) -> capacity s = Z.of_nat (length (blocks s)) * blockSize -> size s = Z.of_nat (length l) -> size s <= capacity s ->
  concat (blocks s) = l ++ replicate (Z.to_nat (capacity s - size s)) None -> Forall is_Some l ->
  Z.of_nat (active s) * blockSize + offset s = size s -> 0 <= offset s <= blockSize -> (active s < length (blocks s))%nat ->
  setIndex s = (if tracking then Some record_index else None) -> (tracking = true -> tracked (env s) l) ->
  sstack_ok s /\ items_of s = l.
Proof.
  intros H1 H2 H3 H4 H5 H6 H7 H8 H9 H10 H11. assert (items_of s = l) as Hi.
  { unfold items_of. by rewrite H5, take_app_le, take_ge by lia. }
  split; [|done]. split; try done; rewrite ?Hi; try done; lia.
Qed.

Lemma tracked_position e (l : list (option (item V))) i j it it' :
  tracked e l -> l !! i = Some (Some it) -> l !! j = Some (Some it') -> it_value it = it_value it' -> i = j.
Proof. intros Ht Hi Hj Hv. apply Ht in Hi, Hj. rewrite Hv in Hi. rewrite Hi in Hj. injection Hj. lia. Qed.

Lemma tracked_swap e (l : list (option (item V))) i j a b :
  tracked e l -> l !! i = Some (Some b) -> l !! j = Some (Some a) ->
  tracked (record_index (record_index e (it_value a) (Z.of_nat i)) (it_value b) (Z.of_nat j)) (swap_list l i j).
Proof.
  intros Ht Hi Hj k it. pose proof (lookup_lt_Some _ _ _ Hi). pose proof (lookup_lt_Some _ _ _ Hj). rewrite swap_list_lookup by done. unfold record_index.
  case_decide as E1; [|case_decide as E2].
  - subst k. rewrite Hj. intros [= <-]. destruct (decide (it_value a = it_value b)) as [E|].
    + rewrite <- E, lookup_insert_eq. by rewrite (tracked_position e l i j b a Ht Hi Hj (eq_sym E)).
    + by rewrite lookup_insert_ne, lookup_insert_eq.
  - subst k. rewrite Hi. intros [= <-]. by rewrite lookup_insert_eq.
  - intros Hk. rewrite !lookup_insert_ne; [by apply Ht|intros E..].
    + by apply E2, (tracked_position e l k j it a Ht Hk Hj).
    + by apply E1, (tracked_position e l k i it b Ht Hk Hi).
Qed.

Lemma tracked_snoc e (l : list (option (item V))) it :
  tracked e l -> (forall it', Some it' ∈ l -> it_value it' <> it_value it) ->
  tracked (record_index e (it_value it) (Z.of_nat (length l))) (l ++ [Some it]).
Proof.
  intros Ht Hf k it'. unfold record_index. intros [Hk|[Hge Hk]]%lookup_app_Some.
  - rewrite lookup_insert_ne; [by apply Ht|]. intros E. by apply (Hf it' (list_elem_of_lookup_2 _ _ _ Hk)).
  - apply list_lookup_singleton_Some in Hk as [Hk [= <-]]. rewrite lookup_insert_eq. f_equal. lia.
Qed.

Lemma tracked_init e (l : list (option (item V))) it :
  tracked e (l ++ [Some it]) -> tracked (record_index e (it_value it) (-1)) l.
Proof.
  intros Ht k it' Hk. pose proof (lookup_lt_Some _ _ _ Hk). unfold record_index.
  assert ((l ++ [Some it]) !! k = Some (Some it')) as Hk' by (by rewrite lookup_app_l).
  rewrite lookup_insert_ne; [by apply Ht|]. intros E.
  assert ((l ++ [Some it]) !! length l = Some (Some it)) as Hl by (by rewrite lookup_app_r, Nat.sub_diag).
  pose proof (tracked_position _ _ _ _ _ _ Ht Hk' Hl (eq_sym E)). lia.
Qed.

Lemma insert_swap_list {X} (l : list X) i j a b : l !! i = Some b -> l !! j = Some a -> <[j := b]> (<[i := a]> l) = swap_list l i j.
Proof.
  intros Hi Hj. unfold swap_list. rewrite Hi, Hj. destruct (decide (i = j)) as [->|]; [congruence|by rewrite list_insert_insert_ne].
Qed.

Lemma Swap_spec s i j : sstack_ok s -> (i < length (items_of s))%nat -> (j < length (items_of s))%nat ->
  exists s', sstack_Swap blockSize s (Z.of_nat i) (Z.of_nat j) = Ok s' /\ sstack_ok s' /\ items_of s' = swap_list (items_of s) i j.
Proof.
  intros Hok [x Hi]%lookup_lt_is_Some_2 [y Hj]%lookup_lt_is_Some_2. destruct (items_some s i x Hok Hi) as [b ->], (items_some s j y Hok Hj) as [a ->].
  pose proof (item_at_spec s i _ Hok Hi) as Hsi. pose proof (item_at_spec s j _ Hok Hj) as Hsj. unfold item_at in Hsi, Hsj. unfold sstack_Swap. rewrite Hsi, Hsj. cbn [outcome_bind].
  rewrite (so_callback _ Hok). set (e := if tracking then record_index (record_index (env s) (it_value a) (Z.of_nat i)) (it_value b) (Z.of_nat j) else env s).
  assert (match (if tracking then Some record_index else None) with
    | Some f => let* a := deref (Some a) in let* b := deref (Some b) in Ok (f (f (env s) (it_value a) (Z.of_nat i)) (it_value b) (Z.of_nat j))
    | None => Ok (env s) end = Ok e) as -> by (by destruct tracking). cbn [outcome_bind].
  pose proof (lookup_lt_Some _ _ _ Hi) as Hli. pose proof (lookup_lt_Some _ _ _ Hj) as Hlj. rewrite items_length in Hli, Hlj by done.
  pose proof (so_size _ Hok) as Hsz. rewrite (so_capacity _ Hok) in Hsz.
  rewrite !Z.quot_div_nonneg, !Z.rem_mod_nonneg by lia.
  pose proof (Z.mod_pos_bound (Z.of_nat i) blockSize HB). pose proof (Z.mod_pos_bound (Z.of_nat j) blockSize HB).
  destruct (set_slot_spec (blocks s) (Z.of_nat i / blockSize) (Z.of_nat i mod blockSize) (Some a)) as (bs1 & -> & Hu1 & Hl1 & Hc1);
    [apply Hok|split; [apply Z.div_pos; lia|apply Z.div_lt_upper_bound; lia]|done|]. cbn [outcome_bind].
  destruct (set_slot_spec bs1 (Z.of_nat j / blockSize) (Z.of_nat j mod blockSize) (Some b)) as (bs2 & -> & Hu2 & Hl2 & Hc2);
    [done|rewrite Hl1; split; [apply Z.div_pos; lia|apply Z.div_lt_upper_bound; lia]|done|]. cbn [outcome_bind].
  rewrite slot_index, Nat2Z.id in Hc1, Hc2. rewrite Hc1, (so_slots _ Hok) in Hc2.
  rewrite insert_app_l in Hc2 by (rewrite items_length by done; lia). rewrite insert_app_l in Hc2 by (rewrite length_insert, items_length by done; lia).
  rewrite (insert_swap_list _ i j _ _ Hi Hj) in Hc2. eexists. split; [reflexivity|].
  apply sstack_ok_intro; simpl; try apply Hok; try done.
  - rewrite Hl2, Hl1. apply Hok.
  - rewrite swap_list_length, items_length by done. lia.
  - rewrite swap_list_perm. apply Hok.
  - rewrite Hl2, Hl1. apply Hok.
  - intros Htr. subst e. rewrite Htr. apply tracked_swap; [by apply (so_tracked _ Hok)|done|done].
Qed.

Lemma push_room_spec s : sstack_ok s ->
  let '(bs, cap, off, act) := push_room blockSize s in
  uniform B bs /\ cap = Z.of_nat (length bs) * blockSize /\ Z.of_nat act * blockSize + off = size s /\ 0 <= off < blockSize /\
  (act < length bs)%nat /\ concat bs = items_of s ++ replicate (Z.to_nat (cap - size s)) None /\ 0 <= size s < cap.
Proof.
  intros [Hu Hc Hs Hsl _ Ho [Ha1 Ha2] _ _]. unfold push_room. destruct (size s =? capacity s) eqn:E1; bool_to_prop.
  - assert (length (new_block (V := V) blockSize) = B) as Hn by apply length_replicate. rewrite length_app. simpl. splits; try lia.
    + apply Forall_app. split; [done|]. by constructor.
    + rewrite concat_app, Hsl. simpl. rewrite app_nil_r, <- app_assoc. unfold new_block. rewrite <- replicate_add. do 2 f_equal. lia.
  - destruct (offset s =? blockSize) eqn:E2; bool_to_prop; [|splits; try done; lia].
    rewrite Z.quot_div_nonneg by lia. assert (size s / blockSize = Z.of_nat (active s) + 1) as Hd.
    { symmetry. apply (Z.div_unique_exact); nia. }
    rewrite Hd. splits; try done; try lia; nia.
Qed.

Lemma notify_spec s it i : sstack_ok s -> exists e, notify s (Some it) i = Ok e /\
  (tracking = true -> e = record_index (env s) (it_value it) i).
Proof. intros Hok. unfold notify. rewrite (so_callback _ Hok). destruct tracking; by eexists. Qed.

Lemma replicate_cut {T} (x : T) n m : (0 < n)%nat -> m = (n - 1)%nat -> replicate n x = x :: replicate m x.
Proof. intros Hn ->. destruct n; [lia|]. simpl. by rewrite Nat.sub_0_r. Qed.

Lemma Push_spec s it : sstack_ok s -> (tracking = true -> forall it', Some it' ∈ items_of s -> it_value it' <> it_value it) ->
  exists s', sstack_Push blockSize s (Some it) = Ok s' /\ sstack_ok s' /\ items_of s' = items_of s ++ [Some it].
Proof.
  intros Hok Hf. pose proof (push_room_spec s Hok) as Hroom. unfold sstack_Push.
  destruct (push_room blockSize s) as [[[bs cap] off] act]. destruct Hroom as (Hu & Hc & Ho & Hoff & Hact & Hsl & Hsz).
  destruct (notify_spec s it (size s) Hok) as (e & -> & He). cbn [outcome_bind]. pose proof (items_length s Hok) as Hlen.
  destruct (set_slot_spec bs (Z.of_nat act) off (Some it) Hu ltac:(lia) Hoff) as (bs' & -> & Hu' & Hl' & Hc'). cbn [outcome_bind].
  eexists. split; [reflexivity|]. apply sstack_ok_intro; cbn [size capacity offset blocks active env setIndex]; try done; try lia.
  - rewrite length_app, Hlen. simpl. lia.
  - rewrite Hc', Ho, Hsl, <- Hlen. rewrite <- (Nat.add_0_r (length (items_of s))), insert_app_r.
    rewrite (replicate_cut None _ (Z.to_nat (cap - (size s + 1)))) by lia. by rewrite <- app_assoc.
  - apply Forall_app. split; [apply Hok|]. by repeat constructor.
  - apply Hok.
  - intros Htr. rewrite (He Htr). replace (size s) with (Z.of_nat (length (items_of s))) by lia.
    apply tracked_snoc; [by apply (so_tracked _ Hok)|by apply Hf].
Qed.

(** The place of the last item. *)
Lemma pop_place s : sstack_ok s -> 0 < size s -> exists off act,
  (if offset s - 1 <? 0 then let* _ := at_int (blocks s) ((size s - 1) ÷ blockSize) in Ok (blockSize - 1, Z.to_nat ((size s - 1) ÷ blockSize))
   else Ok (offset s - 1, active s)) = Ok (off, act) /\
  Z.of_nat act * blockSize + off = size s - 1 /\ 0 <= off < blockSize /\ (act < length (blocks s))%nat.
Proof.
  intros [Hu Hc Hs Hsl _ Ho [Ha1 Ha2] _ _] Hpos. destruct (offset s - 1 <? 0) eqn:E; bool_to_prop.
  - assert ((size s - 1) ÷ blockSize = Z.of_nat (active s) - 1) as ->.
    { rewrite Z.quot_div_nonneg by lia. symmetry. apply (Z.div_unique _ _ _ (blockSize - 1)); nia. }
    assert (0 < Z.of_nat (active s)) by (destruct (decide (active s = 0%nat)) as [E0|]; [rewrite E0 in Ho; lia|lia]). unfold at_int. rewrite (proj2 (Z.ltb_ge _ 0)) by lia.
    destruct (lookup_lt_is_Some_2 (blocks s) (Z.to_nat (Z.of_nat (active s) - 1)) ltac:(lia)) as [b Hb]. rewrite (index_lookup _ _ _ Hb).
    do 2 eexists. split; [reflexivity|]. rewrite Z2Nat.id by lia. splits; lia.
  - do 2 eexists. split; [reflexivity|]. splits; lia.
Qed.

Lemma Pop_spec s l x : sstack_ok s -> items_of s = l ++ [x] -> exists s', sstack_Pop blockSize s = Ok (x, s') /\ sstack_ok s' /\ items_of s' = l /\
  (tracking = true -> forall it, x = Some it -> env s' !! it_value it = Some (-1)).
Proof.
  intros Hok Hit. pose proof (items_length s Hok) as Hlen. rewrite Hit, length_app in Hlen. simpl in Hlen.
  destruct (items_some s (length l) x Hok) as [it ->]; [by rewrite Hit, lookup_app_r, Nat.sub_diag|].
  pose proof (so_size _ Hok) as Hsz. pose proof (so_slots _ Hok) as Hsl. rewrite Hit, <- app_assoc in Hsl.
  destruct (pop_place s Hok ltac:(lia)) as (off & act & Hplace & Ho & Hoff & Hact). unfold sstack_Pop. rewrite Hplace. cbn [outcome_bind].
  rewrite (slot_spec (blocks s) (Z.of_nat act) off (Some it)); [|apply Hok|lia|done|rewrite Ho, Hsl; replace (Z.to_nat (size s - 1)) with (length l) by lia; by rewrite lookup_app_r, Nat.sub_diag]. cbn [outcome_bind].
  destruct (set_slot_spec (blocks s) (Z.of_nat act) off None (so_uniform _ Hok) ltac:(lia) Hoff) as (bs' & -> & Hu' & Hl' & Hc'). cbn [outcome_bind].
  destruct (notify_spec s it (-1) Hok) as (e & -> & He). cbn [outcome_bind].
  eexists. split; [reflexivity|]. apply and_assoc. split.
  - apply sstack_ok_intro; cbn [size capacity offset blocks active env setIndex]; try apply Hok; try done; try lia.
    + rewrite Hl'. apply Hok.
    + rewrite Hc', Ho, Hsl. replace (Z.to_nat (size s - 1)) with (length l + 0)%nat by lia. rewrite insert_app_r. simpl. f_equal.
      by rewrite (replicate_cut None (Z.to_nat (capacity s - (size s - 1))) (Z.to_nat (capacity s - size s))) by lia.
    + pose proof (so_items _ Hok) as Hf. rewrite Hit in Hf. by apply Forall_app in Hf as [? _].
    + intros Htr. rewrite (He Htr). apply tracked_init. rewrite <- Hit. by apply (so_tracked _ Hok).
  - intros Htr it' [= <-]. cbn [env]. rewrite (He Htr). apply lookup_insert_eq.
Qed.

#[local, refine] Instance sstack_HeapLaws : HeapLaws stack (option (item V)) := {|
  h_ok := sstack_ok;
  h_items := items_of;
  h_before := ptr_before;
  h_fresh s x := exists it, x = Some it /\ (tracking = true -> forall it', Some it' ∈ items_of s -> it_value it' <> it_value it);
  h_popped s x := tracking = true -> forall it, x = Some it -> env s !! it_value it = Some (-1)
|}.
Proof.
  - intros s Hok. rewrite items_length by done. pose proof (so_size _ Hok). simpl. lia.
  - intros s i j a b. apply sstack_Less_spec.
  - intros s i j. apply Swap_spec.
  - intros s x Hok (it & -> & Hf). by apply Push_spec.
  - intros s l x Hok Hit. destruct (Pop_spec s l x Hok Hit) as (s' & Hp & Hok' & Hi & He). by exists s'.
Defined.

End sstack_laws.

(** ** Priorities that wrap around *)

(** The distance of a priority above [c], around the range of [int64]. *)
Definition above (c p : Z) : Z := u64 (p - c).
Definition in_window (c p : Z) : Prop := above c p < 2 ^ 63.

Lemma comes_before_above {V : Type} (c : Z) (a b : item V) :
  in_window c (it_priority a) -> in_window c (it_priority b) ->
  comes_before a b = (above c (it_priority b) <? above c (it_priority a)).
Proof.
  unfold in_window, comes_before, above. intros Ha Hb. apply eq_iff_eq_true. rewrite !Z.ltb_lt.
  assert (i64 (it_priority a - it_priority b) = u64 (it_priority a - c) - u64 (it_priority b - c)) as ->; [|lia].
  unfold i64, u64 in *. Z.to_euclidean_division_equations. lia.
Qed.

(** ** The states of a queue *)

Section prque.
Context {V : Type} `{Countable V} (blockSize : Z) (HB : 0 < blockSize) (tracking : bool) (c : Z).
Local Abbreviation queue := (sstack V (gmap V Z)).
Implicit Types (q : queue) (l : list (item V)).
Local Hint Extern 0 (HeapInterface _ _) => exact (sstack_HeapInterface blockSize) : typeclass_instances.
Local Hint Extern 0 (HeapLaws _ _) => exact (sstack_HeapLaws blockSize HB tracking) : typeclass_instances.

(** Values are distinct when their positions are kept; priorities are within
    half the range above [c]. *)
Definition push_ok l (v : V) (p : Z) : Prop := in_window c p /\ (tracking = true -> forall it, it ∈ l -> it_value it <> v).

Inductive prque_run : queue -> list (item V) -> Prop :=
| run_New a : prque_run (Prque_New blockSize (if tracking then Some record_index else None) a) []
| run_Push q l v p q' : prque_run q l -> push_ok l v p -> Prque_Push blockSize q v p = Ok q' -> prque_run q' (mk_item v p :: l)
| run_Pop q l v p q' l' : prque_run q l -> Prque_Pop blockSize q = Ok (v, p, q') -> l ≡ₚ mk_item v p :: l' -> prque_run q' l'
| run_Remove q l i it q' l' :
    prque_run q l -> 0 <= i < Prque_Size q -> Prque_Remove blockSize q i = Ok (Some (Some it), q') -> l ≡ₚ it :: l' -> prque_run q' l'
| run_Reset q l : prque_run q l -> prque_run (Prque_Reset blockSize q) [].

Definition rank_of (x : option (item V)) : Z := match x with Some it => above c (it_priority it) | None => 0 end.

(** The slots hold the items of [l], in heap order. *)
Record prque_inv q l : Prop := {
  pi_heap : heap (S := queue) rank_of q;
  pi_items : items_of q ≡ₚ Some <$> l;
  pi_window : Forall (fun it => in_window c (it_priority it)) l
}.

Lemma window_ranked l (xs : list (option (item V))) :
  xs ≡ₚ Some <$> l -> Forall (fun it => in_window c (it_priority it)) l -> ranked (S := queue) rank_of xs.
Proof.
  intros Hp Hw x y. rewrite !Hp, !list_elem_of_fmap. intros (a & -> & Ha) (b & -> & Hb). rewrite Forall_forall in Hw.
  by apply comes_before_above; apply Hw.
Qed.

Lemma inv_size q l : prque_inv q l -> size q = Z.of_nat (length l).
Proof.
  intros [[Hok _] Hp _]. change (size q) with (h_Len q). rewrite h_Len_law by done. f_equal. simpl.
  by rewrite (Permutation_length Hp), length_fmap.
Qed.

(** What is left once an item is taken. *)
Lemma inv_taken q q' l x : prque_inv q l -> heap (S := queue) rank_of q' -> items_of q ≡ₚ x :: items_of q' ->
  exists it l', x = Some it /\ l ≡ₚ it :: l' /\ prque_inv q' l'.
Proof.
  intros [Hh Hp Hw] Hh' Ht. rewrite Hp in Ht.
  assert (x ∈ Some <$> l) as (it & -> & Hin)%list_elem_of_fmap by (rewrite Ht; left).
  apply elem_of_Permutation in Hin as [l' Hl]. exists it, l'. split; [done|]. split; [done|]. split; [done| |].
  - apply (inj (cons (Some it))). rewrite <- Ht. by rewrite Hl.
  - rewrite Hl in Hw. by apply Forall_cons in Hw as [_ ?].
Qed.

Lemma inv_perm q l l' : prque_inv q l -> l' ≡ₚ l -> prque_inv q l'.
Proof. intros [H1 H2 H3] Hp. split; [done|by rewrite Hp|by rewrite Hp]. Qed.

Lemma inv_Push q l v p : prque_inv q l -> push_ok l v p ->
  exists q', Prque_Push blockSize q v p = Ok q' /\ prque_inv q' (mk_item v p :: l).
Proof.
  intros [Hh Hp Hw] [Hwin Hfr]. assert (Forall (fun it => in_window c (it_priority it)) (mk_item v p :: l)) as Hw' by (by constructor).
  destruct (heap_Push_spec (S := queue) rank_of q (Some (mk_item v p)) Hh) as (q' & Hq & Hh' & Hp').
  - apply (window_ranked (mk_item v p :: l)); [|done]. csimpl. by constructor.
  - exists (mk_item v p). split; [done|]. intros Htr it'. rewrite Hp, list_elem_of_fmap. intros (it & [= <-] & Hin). by apply Hfr.
  - exists q'. split; [done|]. split; [done| |done]. csimpl. rewrite <- Hp. exact Hp'.
Qed.

Lemma inv_Pop q l : prque_inv q l -> l <> [] ->
  exists it q' l', Prque_Pop blockSize q = Ok (it_value it, it_priority it, q') /\ l ≡ₚ it :: l' /\ prque_inv q' l' /\
    (forall it', it' ∈ l -> above c (it_priority it') <= above c (it_priority it)) /\
    (tracking = true -> env q' !! it_value it = Some (-1)).
Proof.
  intros Hi Hne. pose proof (inv_size q l Hi) as Hsz. pose proof Hi as [Hh Hp Hw].
  destruct (heap_Pop_spec (S := queue) rank_of q Hh) as (x & q' & Hpop & Hh' & Ht & Hpo & Hmax).
  - by apply (window_ranked l).
  - simpl. rewrite Hsz. destruct l; [done|simpl; lia].
  - destruct (inv_taken q q' l x Hi Hh' Ht) as (it & l' & -> & Hl & Hi'). exists it, q', l'. unfold Prque_Pop. rewrite Hpop.
    split; [done|]. split; [done|]. split; [done|]. split; [|intros Htr; by apply Hpo].
    intros it' Hin. apply (Hmax (Some it')). simpl. rewrite Hp. apply list_elem_of_fmap. by exists it'.
Qed.

Lemma inv_Remove q l i : prque_inv q l -> 0 <= i < Prque_Size q ->
  exists it q' l', Prque_Remove blockSize q i = Ok (Some (Some it), q') /\ l ≡ₚ it :: l' /\ prque_inv q' l' /\
    (tracking = true -> env q !! it_value it = Some i /\ env q' !! it_value it = Some (-1)).
Proof.
  intros Hi Hr. pose proof Hi as [Hh Hp Hw]. pose proof (items_length blockSize HB tracking q (proj1 Hh)) as Hlen. unfold Prque_Size in Hr.
  destruct (lookup_lt_is_Some_2 (items_of q) (Z.to_nat i) ltac:(lia)) as [x Hx].
  destruct (heap_Remove_spec (S := queue) rank_of q i x Hh (window_ranked l _ Hp Hw) ltac:(lia) Hx) as (q' & Hrm & Hh' & Ht & Hpo).
  destruct (inv_taken q q' l x Hi Hh' Ht) as (it & l' & -> & Hl & Hi'). exists it, q', l'. unfold Prque_Remove.
  rewrite (proj2 (Z.ltb_ge i 0)), Hrm by lia. split; [done|]. split; [done|]. split; [done|]. intros Htr. split; [|by apply Hpo].
  rewrite (so_tracked _ _ _ (proj1 Hh) Htr _ _ Hx). f_equal. lia.
Qed.

Lemma inv_New a : prque_inv (Prque_New blockSize (if tracking then Some record_index else None) a) [].
Proof.
  unfold Prque_New, newSstack.
  match goal with |- prque_inv ?q [] => destruct (sstack_ok_intro blockSize HB tracking q []) as [Hok Hit] end; simpl; try done; try lia.
  - apply Forall_singleton. apply length_replicate.
  - rewrite app_nil_r, Z.sub_0_r. done.
Qed.

Lemma prque_run_inv q l : prque_run q l -> prque_inv q l.
Proof.
  induction 1 as [a|q l v p q' _ IH Hok Hp|q l v p q' l' _ IH Hp Hl|q l i it q' l' _ IH Hi Hp Hl|q l _ IH].
  - apply inv_New.
  - destruct (inv_Push q l v p IH Hok) as (q2 & Hp2 & Hi2). congruence.
  - destruct (inv_Pop q l IH) as (it & q2 & l2 & Hp2 & Hl2 & Hi2 & _); [intros ->; by apply Permutation_nil_cons in Hl|].
    rewrite Hp2 in Hp. injection Hp as <- <- <-. apply (inv_perm q2 l2); [done|]. apply (inj (cons it)). rewrite <- Hl2. symmetry. by destruct it.
  - destruct (inv_Remove q l i IH Hi) as (it2 & q2 & l2 & Hp2 & Hl2 & Hi2 & _).
    rewrite Hp2 in Hp. injection Hp as <- <-. apply (inv_perm q2 l2); [done|]. apply (inj (cons it2)). by rewrite <- Hl2.
  - unfold Prque_Reset. rewrite (so_callback _ _ _ (proj1 (pi_heap _ _ IH))). apply inv_New.
Qed.

Lemma Pop_empty_panics q : prque_inv q [] -> exists msg, Prque_Pop blockSize q = Panic msg.
Proof.
  intros Hi. pose proof (inv_size q [] Hi) as Hsz. simpl in Hsz. unfold Prque_Pop, heap_Pop. cbn [h_Len h_Swap sstack_HeapInterface]. rewrite Hsz. unfold sstack_Swap.
  change (Z.of_nat 0 - 1) with (-1). assert (exists msg, slot (blocks q) (-1 ÷ blockSize) (Z.rem (-1) blockSize) = Panic msg) as [msg ->]; [|by exists msg].
  unfold slot, at_int. destruct (decide (blockSize = 1)) as [E1|]; [rewrite E1; by exists "index out of range"%string|].
  assert (-1 ÷ blockSize = 0 /\ Z.rem (-1) blockSize = -1) as [-> ->].
  { change (-1) with (- (1)). rewrite Z.quot_opp_l, Z.rem_opp_l, Z.quot_small, Z.rem_small by lia. done. }
  simpl. unfold index. destruct (blocks q !! Z.to_nat 0); simpl; by eexists.
Qed.

(** Taking items until the queue is empty. *)
Fixpoint prque_drain (fuel : nat) (q : queue) : outcome (list (item V)) :=
  match fuel with
  | O => Ok []
  | S fuel =>
      if Prque_Empty q then Ok [] else
      let* ' (v, p, q) := Prque_Pop blockSize q in
      let* l := prque_drain fuel q in
      Ok (mk_item v p :: l)
  end.

Definition push_all (q : queue) l : outcome queue := foldM (fun q it => Prque_Push blockSize q (it_value it) (it_priority it)) q l.

Lemma prque_drain_sorted fuel : forall q l, prque_inv q l -> (length l <= fuel)%nat ->
  exists out, prque_drain fuel q = Ok out /\ out ≡ₚ l /\ StronglySorted (fun a b => above c (it_priority b) <= above c (it_priority a)) out.
Proof.
  induction fuel as [|fuel IH]; intros q l Hi Hf; cbn [prque_drain].
  - destruct l; [|simpl in Hf; lia]. exists []. splits; try done. constructor.
  - unfold Prque_Empty. rewrite (inv_size q l Hi). destruct (Z.of_nat (length l) =? 0) eqn:E; bool_to_prop.
    { destruct l; [|done]. exists []. splits; try done. constructor. }
    destruct (inv_Pop q l Hi) as (it & q' & l' & -> & Hl & Hi' & Hmax & _); [by intros ->|]. cbn [outcome_bind].
    destruct (IH q' l' Hi') as (out & -> & Hp & Hs); [rewrite (Permutation_length Hl) in Hf; simpl in Hf; lia|]. cbn [outcome_bind].
    exists (it :: out). split; [by destruct it|]. split; [by rewrite Hp, Hl|]. constructor; [done|].
    apply Forall_forall. intros y Hy. apply Hmax. rewrite Hl, <- Hp. by right.
Qed.

Lemma push_all_inv l : forall q l0, prque_inv q l0 -> Forall (fun it => in_window c (it_priority it)) l ->
  (tracking = true -> NoDup (it_value <$> l ++ l0)) -> exists q', push_all q l = Ok q' /\ prque_inv q' (l ++ l0).
Proof.
  induction l as [|it l IH]; intros q l0 Hi Hw Hnd; [by exists q|]. apply Forall_cons in Hw as [Hw1 Hw]. unfold push_all. cbn [foldM].
  destruct (inv_Push q l0 (it_value it) (it_priority it) Hi) as (q1 & -> & Hi1).
  - split; [done|]. intros Htr it' Hin Heq. specialize (Hnd Htr). csimpl in Hnd. apply NoDup_cons in Hnd as [Hn _]. apply Hn.
    rewrite <- Heq. apply list_elem_of_fmap. exists it'. split; [done|]. apply elem_of_app. by right.
  - cbn [outcome_bind]. replace (mk_item (it_value it) (it_priority it)) with it in Hi1 by (by destruct it).
    destruct (IH q1 (it :: l0) Hi1 Hw) as (q2 & Hq2 & Hi2).
    + intros Htr. specialize (Hnd Htr). rewrite <- Permutation_middle. exact Hnd.
    + exists q2. split; [exact Hq2|]. eapply inv_perm; [exact Hi2|]. simpl. by rewrite Permutation_middle.
Qed.

End prque.

(** ** Properties *)

(** C36: a queue reached by any sequence of operations behaves as the multiset
    of the items pushed and not yet taken.  A push within the window succeeds;
    [Pop] of a queue that is not empty returns an item of the greatest priority
    in the order around [int64], of an empty one it panics; [Remove] takes the
    item at the index, and with positions kept that is the item recorded there.
    The positions recorded stay those of the items, and -1 once they are taken. *)
Theorem prque_refines_multiset {V : Type} `{Countable V} (blockSize : Z) (tracking : bool) (c : Z) (q : sstack V (gmap V Z)) (l : list (item V)) :
  0 < blockSize -> prque_run blockSize tracking c q l ->
  (forall v p, push_ok tracking c l v p -> exists q', Prque_Push blockSize q v p = Ok q' /\ prque_run blockSize tracking c q' (mk_item v p :: l)) /\
  (l <> [] -> exists it q' l', Prque_Pop blockSize q = Ok (it_value it, it_priority it, q') /\ l ≡ₚ it :: l' /\
    prque_run blockSize tracking c q' l' /\ (forall it', it' ∈ l -> above c (it_priority it') <= above c (it_priority it)) /\
    (tracking = true -> env q' !! it_value it = Some (-1))) /\
  (l = [] -> exists msg, Prque_Pop blockSize q = Panic msg) /\
  (forall i, 0 <= i < Prque_Size q -> exists it q' l', Prque_Remove blockSize q i = Ok (Some (Some it), q') /\ l ≡ₚ it :: l' /\
    prque_run blockSize tracking c q' l' /\ (tracking = true -> env q !! it_value it = Some i /\ env q' !! it_value it = Some (-1))) /\
  (tracking = true -> forall it, it ∈ l -> exists i, env q !! it_value it = Some i /\ 0 <= i < Prque_Size q) /\
  Prque_Size q = Z.of_nat (length l) /\ (Prque_Empty q = true <-> l = []).
Proof.
  intros HB Hr. pose proof (prque_run_inv blockSize HB tracking c q l Hr) as Hi. pose proof (inv_size blockSize HB tracking c q l Hi) as Hsz. splits.
  - intros v p Hok. destruct (inv_Push blockSize HB tracking c q l v p Hi Hok) as (q' & Hq & _). exists q'. split; [done|]. by eapply run_Push.
  - intros Hne. destruct (inv_Pop blockSize HB tracking c q l Hi Hne) as (it & q' & l' & Hq & Hl & _ & Hmax & Htr). exists it, q', l'. splits; try done.
    eapply run_Pop; [done|done|by destruct it].
  - intros ->. by eapply Pop_empty_panics.
  - intros i Hb. destruct (inv_Remove blockSize HB tracking c q l i Hi Hb) as (it & q' & l' & Hq & Hl & _ & Htr). exists it, q', l'. splits; try done. by eapply run_Remove.
  - intros Htr it Hin. destruct Hi as [[Hok _] Hp _].
    assert (Some it ∈ items_of q) as [i Hx]%list_elem_of_lookup by (rewrite Hp; apply list_elem_of_fmap; by exists it).
    exists (Z.of_nat i). split; [by apply (so_tracked _ _ _ Hok Htr)|]. pose proof (lookup_lt_Some _ _ _ Hx) as Hlt.
    rewrite (items_length _ HB tracking) in Hlt by done. unfold Prque_Size. lia.
  - exact Hsz.
  - unfold Prque_Empty. rewrite Hsz, Z.eqb_eq. destruct l; simpl; [done|]. split; [lia|done].
Qed.

(** Pushing any items of the window and taking them all returns them
    sorted by descending priority: the queue sorts. *)
Theorem prque_sorts {V : Type} `{Countable V} (blockSize c : Z) (l : list (item V)) :
  0 < blockSize -> Forall (fun it => in_window c (it_priority it)) l ->
  exists q out, push_all blockSize (Prque_New blockSize None ∅) l = Ok q /\ prque_drain blockSize (length l) q = Ok out /\ out ≡ₚ l /\
    StronglySorted (fun a b => above c (it_priority b) <= above c (it_priority a)) out.
Proof.
  intros HB Hw. destruct (push_all_inv blockSize HB false c l _ [] (inv_New blockSize HB false c ∅) Hw) as (q & Hq & Hi); [done|].
  rewrite app_nil_r in Hi. destruct (prque_drain_sorted blockSize HB false c (length l) q l Hi (le_n _)) as (out & Hd & Hp & Hs). by exists q, out.
Qed.

(** Blocks of two slots, priorities on both sides of the end of the range. *)
Definition near_end : list (item Z) :=
  [mk_item 1 (2 ^ 63 - 1); mk_item 2 (- 2 ^ 63 + 5); mk_item 3 (2 ^ 63 - 7); mk_item 4 (- 2 ^ 63); mk_item 5 (2 ^ 63 - 1)].

Lemma prque_sorts_witness :
  exists q out, push_all 2 (Prque_New 2 None ∅) near_end = Ok q /\ prque_drain 2 (length near_end) q = Ok out /\ out ≡ₚ near_end /\
    StronglySorted (fun a b => above (2 ^ 63 - 10) (it_priority b) <= above (2 ^ 63 - 10) (it_priority a)) out.
Proof. apply (prque_sorts 2 (2 ^ 63 - 10) near_end); [done|]. repeat constructor; by vm_compute. Defined.

Definition tracked_queue (n : nat) : sstack Z (gmap Z Z) :=
  match push_all 2 (Prque_New 2 (Some record_index) ∅) (take n near_end) with Ok q => q | _ => Prque_New 2 (Some record_index) ∅ end.

Lemma tracked_queue_run : prque_run 2 true (2 ^ 63 - 10) (tracked_queue 3) [mk_item 3 (2 ^ 63 - 7); mk_item 2 (- 2 ^ 63 + 5); mk_item 1 (2 ^ 63 - 1)].
Proof.
  assert (forall n l it, prque_run 2 true (2 ^ 63 - 10) (tracked_queue n) l -> push_ok true (2 ^ 63 - 10) l (it_value it) (it_priority it) ->
    Prque_Push 2 (tracked_queue n) (it_value it) (it_priority it) = Ok (tracked_queue (S n)) ->
    prque_run 2 true (2 ^ 63 - 10) (tracked_queue (S n)) (mk_item (it_value it) (it_priority it) :: l)) as Hstep by (intros; by eapply run_Push).
  apply (Hstep 2%nat _ (mk_item 3 (2 ^ 63 - 7))); [|split; [by vm_compute|]|by vm_compute].
  - apply (Hstep 1%nat _ (mk_item 2 (- 2 ^ 63 + 5))); [|split; [by vm_compute|]|by vm_compute].
    + apply (Hstep 0%nat _ (mk_item 1 (2 ^ 63 - 1))); [|split; [by vm_compute|]|by vm_compute].
      * apply (run_New 2 true (2 ^ 63 - 10) ∅).
      * by intros _ it ?%elem_of_nil.
    + intros _ it Hin. list_cases. by subst it.
  - intros _ it Hin. list_cases; by subst it.
Qed.

Lemma prque_refines_multiset_witness :
  exists it q' l', Prque_Pop 2 (tracked_queue 3) = Ok (it_value it, it_priority it, q') /\
    [mk_item 3 (2 ^ 63 - 7); mk_item 2 (- 2 ^ 63 + 5); mk_item 1 (2 ^ 63 - 1)] ≡ₚ it :: l' /\ env q' !! it_value it = Some (-1).
Proof.
  destruct (prque_refines_multiset 2 true (2 ^ 63 - 10) (tracked_queue 3) _ eq_refl tracked_queue_run) as (_ & Hpop & _).
  destruct Hpop as (it & q' & l' & H1 & H2 & _ & _ & H3); [done|]. exists it, q', l'. split; [exact H1|]. split; [exact H2|]. by apply H3.
Defined.
