(* ===== verification/Semaphore.v ===== *)
(** * utils/datasemaphore and utils/cachescale: bounding the work in progress

    A [DataSemaphore] counts the events that are being processed and their
    bytes.  A call holds the mutex from start to end, except that [Acquire]
    gives it up while it waits: what the other goroutines do until the next
    wake-up is an argument, and the list of wake-ups ends at the deadline. *)

From S2P Require Import Prelude Dag.

#[local] Open Scope go_scope.

(** ** utils/datasemaphore/semaphore.go *)

(** [sem_warned] are the calls of the [warning] callback, when it is set. *)
Record DataSemaphore := mk_DataSemaphore {
  sem_processing : Metric;
  sem_max : Metric;
  sem_warning : bool;
  sem_warned : list (Metric * Metric * Metric)
}.

Definition DataSemaphore_New (maxProcessing : Metric) (warning : bool) : DataSemaphore :=
  mk_DataSemaphore (mk_Metric 0 0) maxProcessing warning [].

Definition with_processing (s : DataSemaphore) (m : Metric) : DataSemaphore :=
  mk_DataSemaphore m (sem_max s) (sem_warning s) (sem_warned s).

Definition tryAcquire (metric : Metric) (s : DataSemaphore) : bool * DataSemaphore :=
  let tmp := mk_Metric (u32 (Num (sem_processing s) + Num metric)) (u64 (Size (sem_processing s) + Size metric)) in
  if (Num (sem_max s) <? Num tmp) || (Size (sem_max s) <? Size tmp) then (false, s)
  else (true, with_processing s tmp).

Definition TryAcquire : Metric -> DataSemaphore -> bool * DataSemaphore := tryAcquire.

Fixpoint Acquire (weight : Metric) (wakeups : list (DataSemaphore -> DataSemaphore)) (s : DataSemaphore) : bool * DataSemaphore :=
  let '(ok, s') := tryAcquire weight s in
  if ok then (true, s')
  else if (Size (sem_max s) <? Size weight) || (Num (sem_max s) <? Num weight) then (false, s)
  else match wakeups with
       | [] => (false, s)
       | others :: wakeups => Acquire weight wakeups (others s)
       end.

Definition Release (weight : Metric) (s : DataSemaphore) : DataSemaphore :=
  if (Num (sem_processing s) <? Num weight) || (Size (sem_processing s) <? Size weight) then
    mk_DataSemaphore (mk_Metric 0 0) (sem_max s) (sem_warning s)
      (if sem_warning s then sem_warned s ++ [(sem_processing s, sem_processing s, weight)] else sem_warned s)
  else with_processing s (mk_Metric (Num (sem_processing s) - Num weight) (Size (sem_processing s) - Size weight)).

Definition Terminate (s : DataSemaphore) : DataSemaphore :=
  mk_DataSemaphore (sem_processing s) (mk_Metric 0 0) (sem_warning s) (sem_warned s).

Definition Processing (s : DataSemaphore) : Metric := sem_processing s.

Definition Available (s : DataSemaphore) : Metric :=
  if (Num (sem_max s) =? 0) && (Size (sem_max s) =? 0) then mk_Metric 0 0
  else mk_Metric
    (if Num (sem_max s) <? Num (sem_processing s) then 0 else Num (sem_max s) - Num (sem_processing s))
    (if Size (sem_max s) <? Size (sem_processing s) then 0 else Size (sem_max s) - Size (sem_processing s)).

(** ** What it counts *)

Definition metric_le (m n : Metric) : Prop := Num m <= Num n /\ Size m <= Size n.
Definition metric_ok (m : Metric) : Prop := is_u32 (Num m) /\ is_u64 (Size m).
Definition metric_add (m n : Metric) : Metric := mk_Metric (Num m + Num n) (Size m + Size n).

(** The weight does not overflow the counters on top of a full semaphore. *)
Definition no_wrap (max weight : Metric) : Prop :=
  0 <= Num weight /\ 0 <= Size weight /\ Num max + Num weight < 2 ^ 32 /\ Size max + Size weight < 2 ^ 64.

Lemma metric_eq (m n : Metric) : Num m = Num n -> Size m = Size n -> m = n.
Proof. destruct m, n. simpl. by intros -> ->. Qed.

Lemma tryAcquire_true w s s' :
  0 <= Num (sem_processing s) -> 0 <= Size (sem_processing s) -> metric_le (sem_processing s) (sem_max s) -> no_wrap (sem_max s) w ->
  tryAcquire w s = (true, s') ->
  s' = with_processing s (metric_add (sem_processing s) w) /\ metric_le (metric_add (sem_processing s) w) (sem_max s).
Proof.
  intros H1 H2 [H3 H4] (H5 & H6 & H7 & H8). unfold tryAcquire, metric_add, metric_le.
  rewrite u32_small, u64_small by solve_width. simpl. case_match eqn:E; [done|]. intros [= <-]. bool_to_prop. split; [done|lia].
Qed.

Lemma tryAcquire_false w s s' : tryAcquire w s = (false, s') -> s' = s.
Proof. unfold tryAcquire. case_match; by intros [= <-]. Qed.

(** An [Acquire] that succeeds is a [tryAcquire] that succeeds at one of the
    wake-ups; one that fails leaves what the others have done. *)
Lemma Acquire_tries w wakeups s : exists pre, pre `prefix_of` wakeups /\
  let s0 := foldl (fun s others => others s) s pre in
  match Acquire w wakeups s with
  | (true, s') => tryAcquire w s0 = (true, s')
  | (false, s') => s' = s0
  end.
Proof.
  revert s. induction wakeups as [|others wakeups IH]; intros s; simpl; destruct (tryAcquire w s) as [[] s1] eqn:E.
  - exists []. split; [done|]. done.
  - exists []. split; [done|]. simpl. by destruct (_ || _).
  - exists []. split; [apply prefix_nil|]. done.
  - destruct (_ || _); [exists []; split; [apply prefix_nil|done]|].
    destruct (IH (others s)) as (pre & Hp & Ht). exists (others :: pre). split; [by apply prefix_cons|done].
Qed.

Lemma Release_covered w s : metric_le w (sem_processing s) ->
  Release w s = with_processing s (mk_Metric (Num (sem_processing s) - Num w) (Size (sem_processing s) - Size w)).
Proof. intros [? ?]. unfold Release. by rewrite !(proj2 (Z.ltb_ge _ _)). Qed.

(** What is available can be acquired at once, and nothing bigger. *)
Lemma Available_acquires s w :
  metric_ok (sem_processing s) -> metric_ok (sem_max s) -> metric_le (sem_processing s) (sem_max s) -> no_wrap (sem_max s) w ->
  (tryAcquire w s).1 = true <-> metric_le w (Available s).
Proof.
  intros ([? ?] & [? ?]) ([? ?] & [? ?]) [? ?] (? & ? & ? & ?). unfold tryAcquire, Available, metric_le in *.
  rewrite u32_small, u64_small by solve_width. rewrite (proj2 (Z.ltb_ge (Num (sem_max s)) (Num (sem_processing s)))), (proj2 (Z.ltb_ge (Size (sem_max s)) (Size (sem_processing s)))) by done. simpl.
  destruct (_ || _) eqn:E1; destruct (_ && _) eqn:E2; bool_to_prop; simpl; split; try done; lia.
Qed.

(** ** utils/cachescale/ratio.go *)

Record Ratio := mk_Ratio { Base : Z; Target : Z }.

Definition Ratio_Identity : Ratio := mk_Ratio 1 1.

(** The division by a zero [Base] panics. *)
Definition Ratio_U64 (r : Ratio) (v : Z) : outcome Z :=
  let muled := u64 (v * Target r) in
  if Base r =? 0 then Panic "integer divide by zero"
  else if muled mod Base r =? 0 then Ok (muled / Base r)
  else Ok (u64 (muled / Base r + 1)).

Definition Ratio_U32 (r : Ratio) (v : Z) : outcome Z := let* x := Ratio_U64 r v in Ok (u32 x).
Definition Ratio_U (r : Ratio) (v : Z) : outcome Z := Ratio_U64 r v.
Definition Ratio_Events (r : Ratio) (v : Z) : outcome Z := let* x := Ratio_U64 r v in Ok (u32 x).
Definition Ratio_Blocks (r : Ratio) (v : Z) : outcome Z := Ratio_U64 r v.
Definition Ratio_Frames (r : Ratio) (v : Z) : outcome Z := let* x := Ratio_U64 r v in Ok (u32 x).

(** A signed result is the bit pattern read with its sign. *)
Definition int_of (w z : Z) : Z := let m := z mod 2 ^ w in if m <? 2 ^ (w - 1) then m else m - 2 ^ w.
Definition Ratio_I (r : Ratio) (v : Z) : outcome Z := let* x := Ratio_U64 r (u64 v) in Ok (int_of 64 x).
Definition Ratio_I32 (r : Ratio) (v : Z) : outcome Z := let* x := Ratio_U64 r (u64 v) in Ok (int_of 32 x).
Definition Ratio_I64 (r : Ratio) (v : Z) : outcome Z := let* x := Ratio_U64 r (u64 v) in Ok (int_of 64 x).

(** Without overflow it is the ratio rounded up. *)
Lemma Ratio_U64_ceil r v :
  0 < Base r -> is_u64 (Base r) -> 0 <= v * Target r < 2 ^ 64 ->
  exists x, Ratio_U64 r v = Ok x /\ x * Base r - Base r < v * Target r <= x * Base r.
Proof.
  intros Hb Hu Hm. unfold Ratio_U64. rewrite u64_small by done. rewrite (proj2 (Z.eqb_neq _ _)) by lia.
  destruct (Z.eqb_spec ((v * Target r) mod Base r) 0) as [E|E]; eexists; (split; [done|]).
  - pose proof (Z.div_mod (v * Target r) (Base r) ltac:(lia)). lia.
  - pose proof (Z.div_mod (v * Target r) (Base r) ltac:(lia)). pose proof (Z.mod_pos_bound (v * Target r) (Base r) Hb).
    assert (v * Target r / Base r < 2 ^ 64 - 1) as Hlt.
    { destruct (decide (Base r = 1)) as [E1|]; [rewrite E1, Z.mod_1_r in E; done|].
      apply Z.div_lt_upper_bound; nia. }
    pose proof (Z.div_pos (v * Target r) (Base r) ltac:(lia) Hb). rewrite u64_small by solve_width. nia.
Qed.

Lemma Identity_U64 v : is_u64 v -> Ratio_U64 Ratio_Identity v = Ok v.
Proof. intros Hv. unfold Ratio_U64. simpl. rewrite Z.mul_1_r, u64_small by done. by rewrite Z.mod_1_r, Z.div_1_r. Qed.

(** [tryAcquire] adds before it compares: a weight near the width wraps around
    and is taken although it is far above the maximum. *)
Lemma tryAcquire_wraps :
  tryAcquire (mk_Metric (2 ^ 32 - 1) 0) (mk_DataSemaphore (mk_Metric 5 100) (mk_Metric 10 1000) true []) =
    (true, mk_DataSemaphore (mk_Metric 4 100) (mk_Metric 10 1000) true []).
Proof. reflexivity. Qed.
