(* ===== verification/Workers.v ===== *)
(** * utils/workers and utils/spin_lock.go: worker pools and the spin lock

    Goroutines are threads of a transition system: a step is one operation on a
    channel or one atomic instruction, and threads interleave in any order.
    When several cases of a [select] are ready, any of them is taken. *)

From S2P Require Import Prelude.
Local Open Scope go_scope.

(** ** utils/workers/workers.go *)

Section workers.
Context {T : Type}.

(** What a goroutine of [worker] does: it waits at its [select], runs a job, or
    has returned. *)
Inductive worker_state := Waiting | Running (job : T) | Returned.

(** [w_tasks] is the channel, the next task first; [w_max] its capacity.  The
    last three fields are for the statements only: the tasks that [Enqueue]
    accepted, the tasks received from the channel, with [true] for those
    received by a worker and [false] for those drained, and the jobs done. *)
Record Workers := mk_Workers {
  w_tasks : list T;
  w_max : nat;
  w_quit : bool;
  w_workers : list worker_state;
  w_accepted : list T;
  w_received : list (T * bool);
  w_done : list T
}.

Definition Workers_New (maxTasks : nat) : Workers := mk_Workers [] maxTasks false [] [] [] [].

Definition Workers_Start (w : Workers) (workersN : nat) : Workers :=
  mk_Workers (w_tasks w) (w_max w) (w_quit w) (w_workers w ++ replicate workersN Waiting) (w_accepted w) (w_received w) (w_done w).

Definition TasksCount (w : Workers) : nat := length (w_tasks w).

Definition close_quit (w : Workers) : Workers :=
  mk_Workers (w_tasks w) (w_max w) true (w_workers w) (w_accepted w) (w_received w) (w_done w).
Definition set_worker (w : Workers) (i : nat) (s : worker_state) : Workers :=
  mk_Workers (w_tasks w) (w_max w) (w_quit w) (<[i := s]> (w_workers w)) (w_accepted w) (w_received w) (w_done w).
Definition send (w : Workers) (t : T) : Workers :=
  mk_Workers (w_tasks w ++ [t]) (w_max w) (w_quit w) (w_workers w) (w_accepted w ++ [t]) (w_received w) (w_done w).
Definition receive (w : Workers) (t : T) (by_worker : bool) (tasks : list T) : Workers :=
  mk_Workers tasks (w_max w) (w_quit w) (w_workers w) (w_accepted w) (w_received w ++ [(t, by_worker)]) (w_done w).
Definition finish (w : Workers) (t : T) : Workers :=
  mk_Workers (w_tasks w) (w_max w) (w_quit w) (w_workers w) (w_accepted w) (w_received w) (w_done w ++ [t]).

(** [Enqueue]: [None] when it returns nil.  A channel without capacity passes
    the task to a waiting worker. *)
Inductive Workers_Enqueue (t : T) : Workers -> option string -> Workers -> Prop :=
| enqueue_buffer w : (length (w_tasks w) < w_max w)%nat -> Workers_Enqueue t w None (send w t)
| enqueue_handoff w i : w_max w = 0%nat -> w_workers w !! i = Some Waiting ->
    Workers_Enqueue t w None (set_worker (receive (send w t) t true (w_tasks w)) i (Running t))
| enqueue_quit w : w_quit w = true -> Workers_Enqueue t w (Some "terminated"%string) w.

(** One turn of [worker]: a [select], or the end of a job. *)
Inductive worker (i : nat) : Workers -> Workers -> Prop :=
| worker_quit w : w_workers w !! i = Some Waiting -> w_quit w = true -> worker i w (set_worker w i Returned)
| worker_job w t tasks : w_workers w !! i = Some Waiting -> w_tasks w = t :: tasks ->
    worker i w (set_worker (receive w t true tasks) i (Running t))
| worker_end w t : w_workers w !! i = Some (Running t) -> worker i w (set_worker (finish w t) i Waiting).

(** One turn of [Drain]; it returns when the channel is empty. *)
Inductive Drain_turn : Workers -> Workers -> Prop :=
| drain_one w t tasks : w_tasks w = t :: tasks -> Drain_turn w (receive w t false tasks).

Fixpoint Drain (n : nat) (w : Workers) : Workers :=
  match n, w_tasks w with
  | S n, t :: tasks => Drain n (receive w t false tasks)
  | _, _ => w
  end.

Inductive pool_step (w w' : Workers) : Prop :=
| pool_start n : w' = Workers_Start w n -> pool_step w w'
| pool_enqueue t err : Workers_Enqueue t w err w' -> pool_step w w'
| pool_worker i : worker i w w' -> pool_step w w'
| pool_drain : Drain_turn w w' -> pool_step w w'
| pool_close : w' = close_quit w -> pool_step w w'.

(** *** What the pool keeps *)

Definition running (w : Workers) : list T := omap (fun s => match s with Running t => Some t | _ => None end) (w_workers w).
Definition started (w : Workers) : list T := omap (fun x : T * bool => if x.2 then Some x.1 else None) (w_received w).

Record pool_inv (w : Workers) : Prop := {
  pi_fifo : w_accepted w = (w_received w).*1 ++ w_tasks w;
  pi_jobs : started w ≡ₚ running w ++ w_done w;
  pi_room : (length (w_tasks w) <= w_max w)%nat
}.

Local Abbreviation jobs := (omap (fun s => match s with Running t => Some t | _ => None end)).
Local Abbreviation by_workers := (omap (fun x : T * bool => if x.2 then Some x.1 else None)).

Lemma by_workers_snoc l t (b : bool) : by_workers (l ++ [(t, b)]) = by_workers l ++ (if b then [t] else []).
Proof. rewrite omap_app. by destruct b. Qed.

(** Replacing the state of one worker. *)
Lemma jobs_insert l i s s' : l !! i = Some s -> jobs l ++ jobs [s'] ≡ₚ jobs (<[i := s']> l) ++ jobs [s].
Proof.
  intros Hi. rewrite <- (take_drop_middle l i s Hi) at 1. rewrite (insert_take_drop l i s') by (by eapply lookup_lt_Some).
  rewrite !omap_app. change (?x :: drop (S i) l) with ([x] ++ drop (S i) l).
  change (s :: drop (S i) l) with ([s] ++ drop (S i) l). change (s' :: drop (S i) l) with ([s'] ++ drop (S i) l).
  rewrite !omap_app. rewrite <- !(assoc_L (++)). f_equiv.
  rewrite (Permutation_app_comm (jobs (drop (S i) l)) (jobs [s'])), (Permutation_app_comm (jobs (drop (S i) l)) (jobs [s])).
  rewrite !(assoc_L (++)). f_equiv. apply Permutation_app_comm.
Qed.

Lemma set_worker_jobs w i s s' : w_workers w !! i = Some s -> running w ++ jobs [s'] ≡ₚ running (set_worker w i s') ++ jobs [s].
Proof. apply jobs_insert. Qed.

Lemma pool_inv_new maxTasks : pool_inv (Workers_New maxTasks).
Proof. split; [done|done|simpl; lia]. Qed.

Lemma enqueue_inv t w err w' : Workers_Enqueue t w err w' -> pool_inv w -> pool_inv w'.
Proof.
  intros [w1 Hlt|w1 i Hmax Hi|w1 Hq] [Hf Hj Hr]; [| |done].
  - split; [simpl; by rewrite Hf, <- app_assoc|done|simpl; rewrite length_app; simpl; lia].
  - assert (w_tasks w1 = []) as Ht by (destruct (w_tasks w1); [done|simpl in *; lia]).
    split; [simpl; by rewrite Hf, Ht, fmap_app, !app_nil_r| |simpl; lia].
    unfold started. simpl w_received. rewrite by_workers_snoc.
    pose proof (set_worker_jobs w1 i _ (Running t) Hi) as Hs. cbn in Hs. rewrite app_nil_r in Hs.
    change (running (set_worker (receive (send w1 t) t true (w_tasks w1)) i (Running t))) with (running (set_worker w1 i (Running t))).
    rewrite <- Hs. unfold started in Hj. rewrite Hj. simpl. rewrite <- !app_assoc. f_equiv. apply Permutation_app_comm.
Qed.

Lemma worker_inv i w w' : worker i w w' -> pool_inv w -> pool_inv w'.
Proof.
  intros [w1 Hi Hq|w1 t tasks Hi Ht|w1 t Hi] [Hf Hj Hr].
  - split; [done| |done]. change (started (set_worker w1 i Returned)) with (started w1). rewrite Hj. apply Permutation_app; [|done].
    pose proof (set_worker_jobs w1 i _ Returned Hi) as Hs. cbn in Hs. by rewrite !app_nil_r in Hs.
  - split; [simpl; by rewrite Hf, Ht, fmap_app, <- app_assoc| |simpl in *; rewrite Ht in Hr; simpl in Hr; lia].
    unfold started. simpl w_received. rewrite by_workers_snoc.
    pose proof (set_worker_jobs w1 i _ (Running t) Hi) as Hs. cbn in Hs. rewrite app_nil_r in Hs.
    change (running (set_worker (receive w1 t true tasks) i (Running t))) with (running (set_worker w1 i (Running t))).
    rewrite <- Hs. unfold started in Hj. rewrite Hj. simpl. rewrite <- !app_assoc. f_equiv. apply Permutation_app_comm.
  - split; [done| |done]. change (started (set_worker (finish w1 t) i Waiting)) with (started w1). rewrite Hj.
    pose proof (set_worker_jobs w1 i _ Waiting Hi) as Hs. cbn in Hs. rewrite app_nil_r in Hs. rewrite Hs. simpl.
    change (running (set_worker (finish w1 t) i Waiting)) with (jobs (<[i := Waiting]> (w_workers w1))).
    rewrite <- !app_assoc. apply Permutation_app; [done|apply Permutation_app_comm].
Qed.

Lemma pool_step_inv w w' : pool_step w w' -> pool_inv w -> pool_inv w'.
Proof.
  intros [n Hn|t err Ht|i Hi|Hd|Hc] Hinv; [subst w'|by eapply enqueue_inv|by eapply worker_inv| |subst w'; by destruct Hinv].
  - destruct Hinv as [Hf Hj Hr]. split; [done| |done]. change (started (Workers_Start w n)) with (started w).
    rewrite Hj. apply Permutation_app; [|done]. unfold running. simpl. rewrite omap_app.
    assert (jobs (replicate n Waiting) = []) as -> by (induction n; done). by rewrite app_nil_r.
  - destruct Hd as [w1 t tasks Ht]. destruct Hinv as [Hf Hj Hr]. split; [simpl; by rewrite Hf, Ht, fmap_app, <- app_assoc| |].
    + unfold started. simpl w_received. rewrite by_workers_snoc, app_nil_r. exact Hj.
    + simpl in *. rewrite Ht in Hr. simpl in Hr. lia.
Qed.

(** Tasks are received in the order in which they were accepted, each once; the
    jobs begun are those that run now and those done; the channel never holds
    more than its capacity. *)
Theorem pool_fifo maxTasks w : rtc pool_step (Workers_New maxTasks) w ->
  w_accepted w = (w_received w).*1 ++ w_tasks w /\ started w ≡ₚ running w ++ w_done w /\
  (TasksCount w <= maxTasks)%nat /\ (length (running w) <= length (w_workers w))%nat.
Proof.
  intros Hr. assert (pool_inv w /\ w_max w = maxTasks) as [[Hf Hj Hroom] <-].
  { refine (rtc_ind_r (fun w => pool_inv w /\ w_max w = maxTasks) _ _ _ _ Hr); [split; [apply pool_inv_new|done]|].
    intros w1 w2 _ Hs [Hinv Hm]. split; [by eapply pool_step_inv|]. rewrite <- Hm.
    destruct Hs as [n Hn|t err He|i Hw|Hd|Hc]; [by subst|by destruct He|by destruct Hw|by destruct Hd|by subst]. }
  splits; [done|done|done|]. apply length_omap_le.
Qed.

(** Once the workers have returned no job is begun, whatever is enqueued. *)
Lemma returned_idle w w' : (forall s, s ∈ w_workers w -> s = Returned) -> (forall n, w' <> Workers_Start w n) ->
  pool_step w w' -> w_workers w' = w_workers w /\ started w' = started w.
Proof.
  intros Hall Hns. assert (forall i s, w_workers w !! i = Some s -> s = Returned) as Hi.
  { intros i s Hs. by apply Hall, list_elem_of_lookup_2 with i. }
  intros [n Hn|t err He|i Hw|Hd|Hc]; [by destruct (Hns n)| | | |by subst].
  - destruct He as [w1 _|w1 i _ Hx|w1 _]; [done|by apply Hi in Hx|done].
  - destruct Hw as [w1 Hx _|w1 t tasks Hx _|w1 t Hx]; by apply Hi in Hx.
  - destruct Hd as [w1 t tasks _]. split; [done|]. unfold started. simpl. by rewrite by_workers_snoc, app_nil_r.
Qed.

Lemma Drain_empties n : forall w, (length (w_tasks w) <= n)%nat ->
  w_tasks (Drain n w) = [] /\ rtc pool_step w (Drain n w).
Proof.
  induction n as [|n IH]; intros w Hn; destruct (w_tasks w) as [|t tasks] eqn:Ht; simpl in Hn; [by simpl; rewrite Ht|lia| |].
  - simpl. rewrite Ht. by split.
  - simpl. rewrite Ht. destruct (IH (receive w t false tasks)) as [H1 H2]; [simpl; lia|]. split; [done|].
    eapply rtc_l; [|exact H2]. by apply pool_drain, drain_one.
Qed.

End workers.
Arguments worker_state : clear implicits.
Arguments Workers : clear implicits.

(** A task may be accepted after [quit] is closed and every worker has returned:
    nobody will run it. *)
Example accepted_and_lost :
  exists w : Workers nat, rtc pool_step (Workers_New 1) w /\ w_accepted w = [7%nat] /\ w_quit w = true /\
    w_workers w = [Returned] /\ w_tasks w = [7%nat].
Proof.
  eexists. split; [|shelve].
  eapply rtc_l; [by apply (pool_start _ _ 1)|]. eapply rtc_l; [by apply pool_close|].
  eapply rtc_l; [by apply (pool_worker _ _ 0), worker_quit|].
  eapply rtc_l; [by apply (pool_enqueue _ _ 7%nat None), enqueue_buffer; simpl; lia|]. apply rtc_refl.
  Unshelve. done.
Qed.

(** ** utils/spin_lock.go *)

Record SpinLock := mk_SpinLock { sl_f : Z }.

Definition TryLock (sl : SpinLock) : bool * SpinLock :=
  if sl_f sl =? 0 then (true, mk_SpinLock 1) else (false, sl).
Definition Unlock (sl : SpinLock) : SpinLock := mk_SpinLock 0.
Definition SpinLock_String (sl : SpinLock) : string := if sl_f sl =? 1 then "Locked" else "Unlocked".

(** A goroutine is outside, in the loop of [Lock], or past it. *)
Inductive holder := Outside | Spinning | Inside.

(** [Unlock] is called by a holder, or on a lock that nobody holds. *)
Inductive lock_step : SpinLock * list holder -> SpinLock * list holder -> Prop :=
| lock_call sl ts i : ts !! i = Some Outside -> lock_step (sl, ts) (sl, <[i := Spinning]> ts)
| lock_turn sl ts i : ts !! i = Some Spinning ->
    lock_step (sl, ts) ((TryLock sl).2, if (TryLock sl).1 then <[i := Inside]> ts else ts)
| lock_unlock sl ts i : ts !! i = Some Inside -> lock_step (sl, ts) (Unlock sl, <[i := Outside]> ts)
| lock_stray sl ts : sl_f sl = 0 -> lock_step (sl, ts) (Unlock sl, ts).

Definition lock_inv (x : SpinLock * list holder) : Prop :=
  (sl_f x.1 = 0 \/ sl_f x.1 = 1) /\
  (forall i j, x.2 !! i = Some Inside -> x.2 !! j = Some Inside -> i = j) /\ (forall i, x.2 !! i = Some Inside -> sl_f x.1 = 1).

Lemma lock_step_inv x y : lock_step x y -> lock_inv x -> lock_inv y.
Proof.
  assert (forall (ts : list holder) i s j, s <> Inside -> <[i := s]> ts !! j = Some Inside -> i <> j /\ ts !! j = Some Inside) as Hins.
  { intros ts i s j Hs [(-> & ? & ?)|[? ?]]%list_lookup_insert_Some; [congruence|done]. }
  intros [sl ts i Hi|sl ts i Hi|sl ts i Hi|sl ts Hf] (Hb & Hu & Hl); unfold lock_inv; cbn in *.
  - split; [done|]. split; [intros a b [_ Ha]%Hins [_ Hb']%Hins; auto|intros a [_ Ha]%Hins; eauto]; done.
  - unfold TryLock. destruct (Z.eqb_spec (sl_f sl) 0) as [H0|H0]; cbn; [|done]. split; [by right|].
    assert (forall j, ts !! j <> Some Inside) as Hnone by (intros j Hj; apply Hl in Hj; lia).
    split; [|done]. intros a b Ha Hb'. apply list_lookup_insert_Some in Ha as [(-> & _ & _)|[_ Ha]]; [|by destruct (Hnone a)].
    apply list_lookup_insert_Some in Hb' as [(-> & _ & _)|[_ Hb']]; [done|by destruct (Hnone b)].
  - split; [by left|]. assert (forall a, <[i := Outside]> ts !! a <> Some Inside) as Hn.
    { intros a Ha. apply Hins in Ha as [Hne Ha]; [|done]. by apply Hne, Hu. }
    split; [intros a b Ha; by destruct (Hn a)|intros a Ha; by destruct (Hn a)].
  - split; [by left|]. split; [done|]. intros a Ha. apply Hl in Ha. lia.
Qed.

(** Mutual exclusion. *)
Theorem spin_lock_excludes n x : rtc lock_step (mk_SpinLock 0, replicate n Outside) x ->
  (forall i j, x.2 !! i = Some Inside -> x.2 !! j = Some Inside -> i = j) /\
  (forall i, x.2 !! i = Some Inside -> SpinLock_String x.1 = "Locked"%string).
Proof.
  intros Hr. assert (lock_inv x) as (_ & Hu & Hl).
  { refine (rtc_ind_r lock_inv _ _ _ _ Hr); [|intros; by eapply lock_step_inv].
    split; [by left|]. split; intros i; [intros j|]; intros [? _]%lookup_replicate; done. }
  split; [done|]. intros i Hi. unfold SpinLock_String. by rewrite (Hl i Hi).
Qed.
