(* ===== verification/Processor.v ===== *)
(** * gossip/dagprocessor: the events of the peers, from arrival to connection

    [Enqueue] takes a batch of events under the semaphore; a checker calls back
    with the result of each event at any moment and in any order; a single
    inserter takes the batches one by one and pushes their events into the
    ordering buffer of EventBuffer.v, in the order of the batch if that is asked
    for.  Whatever leaves the processor is released, and gives its share of the
    semaphore back.

    [system] is the processor with its queued jobs: every operation is one step
    of one goroutine, and a run is any sequence of steps.  An [Acquire] that
    waits is a sequence of other steps before it (lemma [Acquire_tries]). *)

From S2P Require Import Prelude Dag Wlru EventBuffer Semaphore.

#[local] Open Scope go_scope.

Definition ErrBusy : string := "failed to acquire events semaphore".

Record checkRes := mk_checkRes { cr_e : BaseEvent; cr_err : option string; cr_pos : nat }.

(** ** The ordered insertion of results, over any way to process one *)

Section ordered.
Context {S : Type} (process : checkRes -> S -> outcome S).

(** [for i := processed; processed < len && results[i] != nil; i++]: [i] and
    [processed] stay equal. *)
Fixpoint insert_ready (fuel : nat) (results : list (option checkRes)) (processed : nat) (s : S) :
    outcome (list (option checkRes) * nat * S) :=
  match fuel with
  | O => Ok (results, processed, s)
  | Datatypes.S fuel =>
      match results !! processed with
      | Some (Some res) =>
          let* s := process res s in
          insert_ready fuel (<[processed := None]> results) (Datatypes.S processed) s
      | _ => Ok (results, processed, s)
      end
  end.

(** One result received from the channel. *)
Definition receive_ordered (st : list (option checkRes) * nat * S) (res : checkRes) : outcome (list (option checkRes) * nat * S) :=
  let '(results, processed, s) := st in
  if (cr_pos res <? length results)%nat then
    let results := <[cr_pos res := Some res]> results in
    insert_ready (length results - processed) results processed s
  else Panic "index out of range".

Definition start_ordered (n : nat) (s : S) : list (option checkRes) * nat * S := (replicate n None, 0%nat, s).

End ordered.

(** ** The processor *)

Section processor.
Context {A : Type} (cb : Callback A) (HighestLamport : A -> Z).

Record Config := mk_Config { cfg_EventsBufferLimit : Metric; cfg_EventsSemaphoreTimeout : Z; cfg_MaxTasks : Z }.

(** [p_log] are the calls of the [Released] callback, when it is set. *)
Record Processor := mk_Processor {
  p_sem : DataSemaphore;
  p_buffer : EventsBuffer (A := A);
  p_log : list (BaseEvent * string * option string)
}.

(** The wrapped [Released] is always set. *)
Definition buffer_callback : Callback A :=
  mk_Callback (cb_Process cb) true (cb_Get cb) (cb_Exists cb) (cb_Check cb) (cb_IsImportant cb).

Definition Processor_New (cfg : Config) (eventsSemaphore : DataSemaphore) (app : A) : outcome Processor :=
  let* b := EventsBuffer_New (cfg_EventsBufferLimit cfg) app in
  Ok (mk_Processor eventsSemaphore b []).

Definition f_Released (p : Processor) (x : BaseEvent * string * option string) : Processor :=
  mk_Processor (Release (mk_Metric 1 (u64 (Event_Size x.1.1))) (p_sem p)) (p_buffer p)
    (if cb_Released cb then p_log p ++ [x] else p_log p).

(** A call on the buffer calls [Released] for what it adds to its log. *)
Definition with_released (p : Processor) (b : EventsBuffer) : Processor :=
  foldl f_Released (mk_Processor (p_sem p) b (p_log p)) (drop (length (b_log (p_buffer p))) (b_log b)).

Definition buffer_PushEvent (e : BaseEvent) (peer : string) (p : Processor) : outcome (bool * Processor) :=
  let* ' (complete, b) := PushEvent buffer_callback Event_Size e peer (p_buffer p) in
  Ok (complete, with_released p b).

Definition Processor_Clear (p : Processor) : outcome Processor :=
  let* b := EventsBuffer_Clear buffer_callback (p_buffer p) in Ok (with_released p b).

Definition Processor_IsBuffered (p : Processor) (id : Z) : bool := IsBuffered (p_buffer p) id.
Definition TotalBuffered (p : Processor) : Metric := EventsBuffer_Total (p_buffer p).

(** The parents to ask for are returned. *)
Definition Processor_process (cfg : Config) (peer : string) (event : BaseEvent) (resErr : option string) (p : Processor) :
    outcome (list Z * Processor) :=
  match resErr with
  | Some _ => Ok ([], f_Released p (event, peer, resErr))
  | None =>
      let highestLamport := HighestLamport (b_app (p_buffer p)) in
      let maxLamportDiff := u32 (1 + Num (cfg_EventsBufferLimit cfg)) in
      if u32 (highestLamport + maxLamportDiff) <? e_lamport event then
        Ok ([], f_Released p (event, peer, Some ErrSpilledEvent))
      else
        let* ' (complete, p) := buffer_PushEvent event peer p in
        if negb complete && (e_lamport event <=? u32 (highestLamport + maxLamportDiff / 10)) then Ok (e_parents event, p)
        else Ok ([], p)
  end.

(** ** A job: the closures that [Enqueue] queues for one batch

    [j_waiting] are the events whose check has not called back yet; [j_checked]
    is the channel [checkedC]; the rest are the variables of the inserter's
    closure. *)
Record job := mk_job {
  j_peer : string;
  j_ordered : bool;
  j_events : list BaseEvent;
  j_notify : bool;
  j_waiting : list (nat * BaseEvent);
  j_checked : list checkRes;
  j_results : list (option checkRes);
  j_processed : nat;
  j_toRequest : list Z
}.

Definition new_job (peer : string) (events : list BaseEvent) (ordered notify : bool) : job :=
  mk_job peer ordered events notify (imap pair events) [] (if ordered then replicate (length events) None else []) 0 [].

(** The check of the [i]-th waiting event calls back. *)
Definition job_checked (i : nat) (err : option string) (j : job) : job :=
  match j_waiting j !! i with
  | Some (pos, e) => mk_job (j_peer j) (j_ordered j) (j_events j) (j_notify j) (delete i (j_waiting j))
      (j_checked j ++ [mk_checkRes e err pos]) (j_results j) (j_processed j) (j_toRequest j)
  | None => j
  end.

Definition process_res (cfg : Config) (peer : string) (res : checkRes) (st : list Z * Processor) : outcome (list Z * Processor) :=
  let '(toRequest, p) := st in
  let* ' (req, p) := Processor_process cfg peer (cr_e res) (cr_err res) p in
  Ok (toRequest ++ req, p).

(** One turn of the inserter's loop; a channel with nothing in it makes it wait. *)
Definition job_receive (cfg : Config) (j : job) (p : Processor) : outcome (job * Processor) :=
  match j_checked j with
  | [] => Ok (j, p)
  | res :: checked =>
      if (j_processed j <? length (j_events j))%nat then
        let* ' (results, processed, (toRequest, p)) :=
          if j_ordered j then receive_ordered (process_res cfg (j_peer j)) (j_results j, j_processed j, (j_toRequest j, p)) res
          else let* st := process_res cfg (j_peer j) res (j_toRequest j, p) in Ok (j_results j, S (j_processed j), st) in
        Ok (mk_job (j_peer j) (j_ordered j) (j_events j) (j_notify j) (j_waiting j) checked results processed toRequest, p)
      else Ok (j, p)
  end.

Definition job_done (j : job) : bool := (length (j_events j) <=? j_processed j)%nat.

(** [case <-f.quit]: what is in the channel, then what has not been seen in it. *)
Definition drain (j : job) (p : Processor) : list bool * Processor :=
  foldl (fun '(seen, p) res =>
    match seen !! cr_pos res with
    | Some false => (<[cr_pos res := true]> seen, f_Released p (cr_e res, j_peer j, Some ErrBusy))
    | _ => (seen, p)
    end) (replicate (length (j_events j)) false, p) (j_checked j).

Definition job_quit (j : job) (p : Processor) : Processor :=
  let '(seen, p) := drain j p in
  foldl (fun p (x : bool * BaseEvent) => if x.1 then p else f_Released p (x.2, j_peer j, Some ErrBusy)) p (zip seen (j_events j)).

(** ** The processor with its queued jobs *)

(** [s_notified] are the calls of [notifyAnnounces]; the checker's tasks are
    in the jobs. *)
Record system := mk_system {
  s_proc : Processor;
  s_jobs : list job;
  s_notified : list (list Z)
}.

Inductive sys_op :=
| OpEnqueue (peer : string) (events : list BaseEvent) (ordered notify : bool)
| OpChecked (j i : nat) (err : option string)
| OpReceive
| OpFinish
| OpClearBuffer.

(** The result tells [ErrBusy]. *)
Definition Enqueue (peer : string) (events : list BaseEvent) (ordered notify : bool) (s : system) : bool * system :=
  let '(ok, sem) := Acquire (Events_Metric events) [] (p_sem (s_proc s)) in
  let p := mk_Processor sem (p_buffer (s_proc s)) (p_log (s_proc s)) in
  if ok then (true, mk_system p (s_jobs s ++ [new_job peer events ordered notify]) (s_notified s))
  else (false, mk_system p (s_jobs s) (s_notified s)).

(** The inserter works on the first job. *)
Definition sys_do (cfg : Config) (s : system) (op : sys_op) : outcome system :=
  match op with
  | OpEnqueue peer events ordered notify => Ok (Enqueue peer events ordered notify s).2
  | OpChecked j i err => Ok (mk_system (s_proc s) (alter (job_checked i err) j (s_jobs s)) (s_notified s))
  | OpReceive =>
      match s_jobs s with
      | [] => Ok s
      | j :: jobs => let* ' (j, p) := job_receive cfg j (s_proc s) in Ok (mk_system p (j :: jobs) (s_notified s))
      end
  | OpFinish =>
      match s_jobs s with
      | [] => Ok s
      | j :: jobs =>
          if job_done j then
            Ok (mk_system (s_proc s) jobs
              (if j_notify j && negb (length (j_toRequest j) =? 0)%nat then s_notified s ++ [j_toRequest j] else s_notified s))
          else Ok s
      end
  | OpClearBuffer => let* p := Processor_Clear (s_proc s) in Ok (mk_system p (s_jobs s) (s_notified s))
  end.

(** [Stop]: the inserter leaves its job, the queued ones are dropped. *)
Definition Processor_Stop (s : system) : outcome system :=
  let p := mk_Processor (Terminate (p_sem (s_proc s))) (p_buffer (s_proc s)) (p_log (s_proc s)) in
  let p := match s_jobs s with [] => p | j :: _ => job_quit j p end in
  let* p := Processor_Clear p in Ok (mk_system p [] (s_notified s)).

Definition sys_run (cfg : Config) (sem : DataSemaphore) (app : A) (ops : list sys_op) : outcome system :=
  let* p := Processor_New cfg sem app in
  foldM (sys_do cfg) (mk_system p [] []) ops.

Definition Processor_TasksCount (inserterTasks checkerTasks : Z) : Z := inserterTasks + checkerTasks.
Definition Processor_Overloaded (cfg : Config) (inserterTasks checkerTasks : Z) : bool :=
  (Z.quot (cfg_MaxTasks cfg * 3) 4 <? checkerTasks) || (Z.quot (cfg_MaxTasks cfg * 3) 4 <? inserterTasks).

Definition Processor_DefaultConfig (scale : Ratio) : outcome Config :=
  let* size := Ratio_U64 scale (10 * 1048576) in
  Ok (mk_Config (mk_Metric 3000 size) (10 * 10 ^ 9) 128).

End processor.

(** ** Ordered insertion is insertion in order *)

Section insert_in_order.
Context {S : Type} (process : checkRes -> S -> outcome S) (rs : list checkRes).
Hypothesis rs_pos : forall i r, rs !! i = Some r -> cr_pos r = i.
Implicit Types (ps : list nat) (k : nat) (s : S).

(** The slots when the positions [ps] have arrived and [k] are processed. *)
Definition held ps k : list (option checkRes) :=
  imap (fun i r => if (k <=? i)%nat && bool_decide (i ∈ ps) then Some r else None) rs.

Lemma held_lookup ps k i :
  held ps k !! i = (fun r => if (k <=? i)%nat && bool_decide (i ∈ ps) then Some r else None) <$> rs !! i.
Proof. unfold held. by rewrite list_lookup_imap. Qed.

Lemma length_held ps k : length (held ps k) = length rs.
Proof. apply length_imap. Qed.

Lemma held_done ps k : k ∈ ps -> <[k := None]> (held ps k) = held ps (Datatypes.S k).
Proof.
  intros Hk. apply list_eq. intros i. destruct (decide (i = k)) as [->|Hne].
  - rewrite held_lookup. destruct (decide (k < length rs)%nat) as [Hlt|Hge].
    + rewrite list_lookup_insert_eq by (by rewrite length_held). destruct (lookup_lt_is_Some_2 rs k Hlt) as [r ->]. cbn [fmap option_fmap option_map].
      by rewrite (proj2 (Nat.leb_gt (Datatypes.S k) k)) by lia.
    + rewrite (lookup_ge_None_2 rs) by lia. apply lookup_ge_None_2. rewrite length_insert, length_held. lia.
  - rewrite list_lookup_insert_ne by done. rewrite !held_lookup.
    assert (Nat.leb k i = Nat.leb (Datatypes.S k) i) as ->; [|done]. apply eq_true_iff_eq. rewrite !Nat.leb_le. lia.
Qed.

Lemma held_arrive ps k r : rs !! cr_pos r = Some r -> (k <= cr_pos r)%nat -> <[cr_pos r := Some r]> (held ps k) = held (cr_pos r :: ps) k.
Proof.
  intros Hr Hk. apply list_eq. intros i. destruct (decide (i = cr_pos r)) as [->|Hne].
  - rewrite held_lookup, list_lookup_insert_eq by (rewrite length_held; by eapply lookup_lt_Some). rewrite Hr. cbn [fmap option_fmap option_map].
    rewrite (proj2 (Nat.leb_le k (cr_pos r))) by done. by rewrite bool_decide_eq_true_2 by left.
  - rewrite list_lookup_insert_ne by done. rewrite !held_lookup. destruct (rs !! i); simpl; [|done].
    rewrite (bool_decide_ext (i ∈ cr_pos r :: ps) (i ∈ ps)); [done|]. rewrite elem_of_cons. tauto.
Qed.

(** The first position that has not arrived. *)
Definition frontier ps k : Prop := (forall i, (i < k)%nat -> i ∈ ps) /\ (k <= length rs)%nat /\ (k = length rs \/ k ∉ ps).

Lemma insert_ready_spec fuel ps k s :
  (forall i, (i < k)%nat -> i ∈ ps) -> (k <= length rs)%nat -> (length rs - k <= fuel)%nat ->
  exists k', frontier ps k' /\ (k <= k')%nat /\
    insert_ready process fuel (held ps k) k s =
      let* s' := foldM (fun s r => process r s) s (take (k' - k) (drop k rs)) in Ok (held ps k', k', s').
Proof.
  revert k s. induction fuel as [|fuel IH]; intros k s Hlow Hle Hfuel.
  { exists k. rewrite Nat.sub_diag. splits; [|done|done]. split; [done|]. split; [lia|left; lia]. }
  cbn [insert_ready]. rewrite held_lookup. destruct (rs !! k) as [r|] eqn:Hr; cbn [fmap option_fmap option_map].
  2: { exists k. rewrite Nat.sub_diag. splits; [|done|done]. apply lookup_ge_None in Hr. split; [done|]. split; [lia|left; lia]. }
  rewrite Nat.leb_refl. cbn [andb]. case_bool_decide as Hin.
  2: { exists k. rewrite Nat.sub_diag. splits; [|done|done]. split; [done|]. split; [lia|by right]. }
  pose proof (lookup_lt_Some _ _ _ Hr). rewrite held_done by done.
  destruct (process r s) as [s1|e|e] eqn:Hp; cbn [outcome_bind].
  1: destruct (IH (Datatypes.S k) s1) as (k' & Hf & Hge & ->); [|lia..|].
  1: { intros i Hi. destruct (decide (i = k)) as [->|]; [done|]. apply Hlow. lia. }
  2,3: destruct (IH (Datatypes.S k) s) as (k' & Hf & Hge & _); [|lia..|].
  2,4: intros i Hi; destruct (decide (i = k)) as [->|]; [done|]; apply Hlow; lia.
  all: exists k'; splits; [done|lia|]; rewrite (drop_S _ _ _ Hr); replace (k' - k)%nat with (Datatypes.S (k' - Datatypes.S k)) by lia;
    cbn [take foldM]; rewrite Hp; done.
Qed.

Lemma positions_NoDup arr : arr ≡ₚ rs -> NoDup (cr_pos <$> arr).
Proof.
  intros ->. apply NoDup_fmap_2_strong.
  - intros a b [x Ha]%list_elem_of_lookup [y Hb]%list_elem_of_lookup Hab. pose proof (rs_pos _ _ Ha). pose proof (rs_pos _ _ Hb). congruence.
  - apply NoDup_alt. intros a b x Ha Hb. pose proof (rs_pos _ _ Ha). pose proof (rs_pos _ _ Hb). congruence.
Qed.

Lemma held_ext ps ps' k : (forall i, i ∈ ps <-> i ∈ ps') -> held ps k = held ps' k.
Proof. intros H. apply imap_ext. intros j x _. by rewrite (bool_decide_ext (j ∈ ps) (j ∈ ps')). Qed.

Lemma frontier_ext ps ps' k : (forall i, i ∈ ps <-> i ∈ ps') -> frontier ps k -> frontier ps' k.
Proof. intros H (H1 & H2 & H3). split; [|split; [done|]]; [intros i Hi; by apply H, H1|]. destruct H3; [by left|right; by rewrite <- H]. Qed.

(** After the results [pre] the state is the fold over the first [k] of the batch. *)
Definition received s0 (pre : list checkRes) k s : Prop :=
  frontier (cr_pos <$> pre) k /\ foldM (fun s r => process r s) s0 (take k rs) = Ok s.

Lemma receive_step s0 s_end pre r suf k s :
  pre ++ r :: suf ≡ₚ rs -> foldM (fun s r => process r s) s0 rs = Ok s_end -> received s0 pre k s ->
  exists k' s', receive_ordered process (held (cr_pos <$> pre) k, k, s) r = Ok (held (cr_pos <$> (pre ++ [r])) k', k', s') /\
    received s0 (pre ++ [r]) k' s'.
Proof.
  intros Hperm Hend ((Hlow & Hle & Hk) & Hs).
  assert (r ∈ rs) as [i Hi]%list_elem_of_lookup by (rewrite <- Hperm; set_solver).
  pose proof (rs_pos _ _ Hi) as Hpos. pose proof (lookup_lt_Some _ _ _ Hi).
  assert (k <= cr_pos r)%nat as Hkr.
  { destruct (decide (cr_pos r < k)%nat) as [Hlt|]; [|lia]. exfalso. pose proof (Hlow _ Hlt) as Hin.
    pose proof (positions_NoDup _ Hperm) as Hnd. rewrite fmap_app in Hnd. apply NoDup_app in Hnd as (_ & Hd & _). apply (Hd _ Hin). csimpl. left. }
  unfold receive_ordered at 1. rewrite length_held, (proj2 (Nat.ltb_lt _ _)) by lia.
  rewrite held_arrive by (congruence || lia). rewrite length_held.
  destruct (insert_ready_spec (length rs - k) (cr_pos r :: (cr_pos <$> pre)) k s) as (k' & Hf' & Hge & ->); [|lia..|].
  { intros j Hj. right. by apply Hlow. }
  assert (take k' rs = take k rs ++ take (k' - k) (drop k rs)) as Ht.
  { rewrite <- (take_drop k (take k' rs)) at 1. rewrite take_take, Nat.min_l by done. f_equal. apply skipn_firstn_comm. }
  rewrite <- (take_drop k' rs), Ht, !foldM_app, Hs in Hend. cbn [outcome_bind] in Hend.
  destruct (foldM _ s (take (k' - k) (drop k rs))) as [s'| |] eqn:Hs1; [|done..]. exists k', s'. cbn [outcome_bind].
  assert (forall j, j ∈ cr_pos r :: (cr_pos <$> pre) <-> j ∈ cr_pos <$> (pre ++ [r])) as Hext.
  { intros j. rewrite fmap_app. csimpl. set_solver. }
  rewrite (held_ext _ _ k' Hext). splits; [done|]. split; [by eapply frontier_ext|]. by rewrite Ht, foldM_app, Hs.
Qed.

(** In whatever order the results arrive, they are processed in batch order. *)
Lemma receive_all_ordered s0 s_end arr :
  arr ≡ₚ rs -> foldM (fun s r => process r s) s0 rs = Ok s_end ->
  foldM (receive_ordered process) (start_ordered (length rs) s0) arr = Ok (replicate (length rs) None, length rs, s_end).
Proof.
  intros Hp Hend.
  assert (forall suf pre k s, arr = pre ++ suf -> received s0 pre k s ->
    exists k' s', foldM (receive_ordered process) (held (cr_pos <$> pre) k, k, s) suf = Ok (held (cr_pos <$> arr) k', k', s') /\
      received s0 arr k' s') as Hgen.
  { induction suf as [|r suf IH]; intros pre k s Hsuf Hr; cbn [foldM].
    { rewrite app_nil_r in Hsuf. subst pre. by exists k, s. }
    destruct (receive_step s0 s_end pre r suf k s) as (k' & s' & -> & Hr'); [by rewrite <- Hsuf|done..|]. cbn [outcome_bind].
    apply IH; [by rewrite Hsuf, <- app_assoc|done]. }
  assert (start_ordered (length rs) s0 = (held (cr_pos <$> []) 0, 0%nat, s0)) as ->.
  { unfold start_ordered, held. f_equal. f_equal. apply list_eq. intros i. rewrite list_lookup_imap.
    destruct (rs !! i) eqn:Hi; simpl; [|apply lookup_ge_None in Hi; apply lookup_ge_None_2; by rewrite length_replicate].
    apply lookup_replicate. split; [done|]. by eapply lookup_lt_Some. }
  destruct (Hgen arr [] 0%nat s0) as (k & s & -> & (_ & Hle & Hk) & Hs); [done| |].
  { split; [|done]. split; [lia|]. split; [lia|]. right. apply not_elem_of_nil. }
  assert (k = length rs) as ->.
  { destruct Hk as [|Hk]; [done|]. destruct (decide (k < length rs)%nat) as [Hlt|]; [|lia]. exfalso. apply Hk.
    destruct (lookup_lt_is_Some_2 rs k Hlt) as [r Hr]. rewrite Hp. apply list_elem_of_fmap. exists r. split; [symmetry; by apply rs_pos|].
    by eapply list_elem_of_lookup_2. }
  rewrite take_ge, Hend in Hs by lia. injection Hs as ->. f_equal. f_equal. f_equal.
  apply list_eq. intros i. rewrite held_lookup. destruct (rs !! i) eqn:Hi; cbn [fmap option_fmap option_map].
  - pose proof (lookup_lt_Some _ _ _ Hi). rewrite (proj2 (Nat.leb_gt (length rs) i)) by lia. simpl. symmetry. by apply lookup_replicate.
  - apply lookup_ge_None in Hi. symmetry. apply lookup_ge_None_2. by rewrite length_replicate.
Qed.
End insert_in_order.

(** ** The results that have arrived and wait for an earlier one *)

Definition stored (results : list (option checkRes)) : list checkRes := omap id results.

Lemma stored_take results i res : results !! i = Some (Some res) -> stored results ≡ₚ res :: stored (<[i := None]> results).
Proof.
  intros Hi. pose proof (lookup_lt_Some _ _ _ Hi). rewrite <- (take_drop_middle _ _ _ Hi) at 1. rewrite insert_take_drop by done.
  unfold stored. rewrite !omap_app. csimpl. by rewrite <- Permutation_middle.
Qed.

Lemma stored_put results i res : results !! i = Some None -> stored (<[i := Some res]> results) ≡ₚ res :: stored results.
Proof.
  intros Hi. pose proof (lookup_lt_Some _ _ _ Hi). rewrite (stored_take _ i res) by (by apply list_lookup_insert_eq).
  rewrite list_insert_insert_eq. by rewrite list_insert_id.
Qed.

(** What is processed or stored has been received. *)
Lemma insert_ready_count {S} (process : checkRes -> S -> outcome S) fuel results processed s results' processed' s' :
  insert_ready process fuel results processed s = Ok (results', processed', s') ->
  (processed' + length (stored results') = processed + length (stored results))%nat.
Proof.
  revert results processed s. induction fuel as [|fuel IH]; intros results processed s; cbn [insert_ready]; [by intros [= <- <- <-]|].
  destruct (results !! processed) as [[res|]|] eqn:Hi; [|by intros [= <- <- <-]..].
  destruct (process res s) as [s1| |]; cbn [outcome_bind]; [|done..]. intros Hrun. rewrite (IH _ _ _ Hrun), (stored_take _ _ _ Hi). simpl. lia.
Qed.

Lemma receive_ordered_count {S} (process : checkRes -> S -> outcome S) results processed s res results' processed' s' :
  receive_ordered process (results, processed, s) res = Ok (results', processed', s') ->
  (processed' + length (stored results') <= Datatypes.S (processed + length (stored results)))%nat.
Proof.
  unfold receive_ordered. case_match eqn:Hlt; [|done]. apply Nat.ltb_lt in Hlt. intros Hrun. rewrite (insert_ready_count _ _ _ _ _ _ _ _ Hrun).
  destruct (lookup_lt_is_Some_2 results _ Hlt) as [[old|] Hold].
  - rewrite (stored_take _ _ old Hold), (stored_take (<[_ := Some res]> results) (cr_pos res) res) by (by apply list_lookup_insert_eq).
    rewrite list_insert_insert_eq. simpl. lia.
  - rewrite (stored_put _ _ _ Hold). simpl. lia.
Qed.

(** ** The buffer's log only grows *)

Section logs.
Context {A : Type} (cb : Callback A) (size : BaseEvent -> Z).
Implicit Types b : EventsBuffer (A := A).

Lemma releaseEvent_log p b : b_log b `prefix_of` b_log (releaseEvent cb p b).
Proof. unfold releaseEvent. case_match; [|done]. simpl. case_match; [by apply prefix_app_r|done]. Qed.

Lemma remove_incomplete_log b id b' : remove_incomplete b id = Ok b' -> b_log b' = b_log b.
Proof. unfold remove_incomplete. destruct (Cache_Remove _ _) as [[]| |]; simpl; [|done..]. by intros [= <-]. Qed.

Lemma processCompleteEvent_log p e parents b : b_log (processCompleteEvent cb p e parents b).2 = b_log b.
Proof. unfold processCompleteEvent. case_match; [done|]. destruct (cb_Process _ _ _) as [[] ?]; done. Qed.

Lemma pushEvent_log fuel p list_ recheck b r b' :
  pushEvent cb size fuel p list_ recheck b = Ok (r, b') -> b_log b `prefix_of` b_log b'.
Proof.
  revert p list_ recheck b r b'. induction fuel as [|fuel IH]; intros p list_ recheck b r b'; cbn [pushEvent]; [done|].
  destruct (b_heap b !! p) as [o|]; [|done]. case_match.
  - destruct (remove_incomplete b _) as [b1| |] eqn:Hr; cbn [outcome_bind]; [|done..]. intros [= <- <-].
    rewrite <- (remove_incomplete_log _ _ _ Hr). destruct recheck; [apply releaseEvent_log|exact (releaseEvent_log p (dropEvent p _ b1))].
  - destruct (completeEventParents _ _ _) as [parents|].
    2: { destruct recheck; [by intros [= <- <-]|]. destruct (Cache_Add _ _ _ _) as [[]| |]; cbn [outcome_bind]; [|done..]. by intros [= <- <-]. }
    pose proof (processCompleteEvent_log p (ev_event o) parents b) as Hlog.
    destruct (processCompleteEvent _ _ _ _ _) as [ok b1]. simpl in Hlog. rewrite <- Hlog. intros Hrun.
    etrans; [apply (releaseEvent_log p)|]. revert Hrun. cbv zeta. generalize (releaseEvent cb p b1). clear b1 Hlog. intros b1.
    destruct ok; cbn [outcome_bind].
    2: { destruct (remove_incomplete _ _) as [b2| |] eqn:Hr; cbn [outcome_bind]; [|done..]. intros [= <- <-].
         by rewrite (remove_incomplete_log _ _ _ Hr). }
    destruct (foldM _ b1 _) as [b2| |] eqn:Hf; cbn [outcome_bind]; [|done..].
    assert (b_log b1 `prefix_of` b_log b2) as Hp.
    { eapply (foldM_ind _ (fun _ b => b_log b1 `prefix_of` b_log b)); [exact Hf|done|].
      intros pre c b3 b4 _ Hp. simpl. case_match; [|done]. case_match; [|by intros [= <-]].
      destruct (pushEvent _ _ _ _ _ _ _) as [[r1 b5]| |] eqn:Hpush; cbn [outcome_bind]; [|done..]. intros [= <-].
      etrans; [exact Hp|]. by eapply IH. }
    destruct (remove_incomplete _ _) as [b3| |] eqn:Hr; cbn [outcome_bind]; [|done..]. intros [= <- <-].
    by rewrite (remove_incomplete_log _ _ _ Hr).
Qed.

Lemma spill_oldest_log b b' : spill_oldest cb b = Ok (Some b') -> b_log b `prefix_of` b_log b'.
Proof.
  unfold spill_oldest. destruct (RemoveOldest _) as [[[[]|] c]| |]; cbn [outcome_bind]; [|done..]. intros [= <-].
  exact (releaseEvent_log _ (dropEvent _ _ (with_incompletes b c))).
Qed.

Lemma spill_one_log b b' : spill_one cb b = Ok (Some b') -> b_log b `prefix_of` b_log b'.
Proof.
  unfold spill_one. case_match; [|by apply spill_oldest_log]. case_match; [|by apply spill_oldest_log]. case_match.
  destruct (remove_incomplete _ _) as [b1| |] eqn:Hr; cbn [outcome_bind]; [|done..]. intros [= <-].
  rewrite <- (remove_incomplete_log _ _ _ Hr). exact (releaseEvent_log _ (dropEvent _ _ b1)).
Qed.

Lemma spill_loop_log fuel limit b b' : spill_loop cb fuel limit b = Ok b' -> b_log b `prefix_of` b_log b'.
Proof.
  revert b. induction fuel as [|fuel IH]; intros b; simpl; (case_match; [|by intros [= <-]]); [done|].
  destruct (spill_one cb b) as [[b1|]| |] eqn:Hs; simpl; try done; [|by intros [= <-]].
  intros Hl. etrans; [by eapply spill_one_log|by apply IH].
Qed.

Lemma PushEvent_log e peer b r b' : PushEvent cb size e peer b = Ok (r, b') -> b_log b `prefix_of` b_log b'.
Proof.
  unfold PushEvent. cbv zeta. set (b0 := with_heap b _). change (b_log b) with (b_log b0). case_match.
  - intros [= <- <-]. exact (releaseEvent_log _ (dropEvent _ _ b0)).
  - destruct (pushEvent _ _ _ _ _ _ b0) as [[r1 b1]| |] eqn:Hp; cbn [outcome_bind]; [|done..].
    destruct (spillIncompletes _ _ _) as [b2| |] eqn:Hs; cbn [outcome_bind]; [|done..]. intros [= <- <-].
    etrans; [by eapply pushEvent_log|by eapply spill_loop_log].
Qed.

End logs.

(** ** What is acquired is outstanding or given back *)

Section balance.
Context {A : Type} (cb : Callback A) (HighestLamport : A -> Z) `{!CallbackLaws cb}.
Implicit Types (p : Processor (A := A)) (out acc : list (BaseEvent * string)).

#[local] Instance buffer_callback_laws : CallbackLaws (buffer_callback cb).
Proof. split; [apply (cb_exists_get (cb := cb))|apply (cb_process_ok (cb := cb))|apply (cb_process_err (cb := cb))]. Qed.

Definition metric_of out : Metric := mk_Metric (Z.of_nat (length out)) (wsum (fun ep => Event_Size ep.1) out).

(** [acc] has been accepted, and [out] is not released yet. *)
Record balanced max acc out p : Prop := {
  bl_counted : sem_processing (p_sem p) = metric_of out;
  bl_max : sem_max (p_sem p) = max;
  bl_within : metric_le (metric_of out) max;
  bl_calm : sem_warned (p_sem p) = [];
  bl_log : cb_Released cb = true -> acc ≡ₚ ((fun x => (x.1.1, x.1.2)) <$> p_log p) ++ out
}.

Lemma Event_Size_pos e : 0 < Event_Size e.
Proof. unfold Event_Size. lia. Qed.

Lemma metric_of_perm out out' : out ≡ₚ out' -> metric_of out = metric_of out'.
Proof. intros Hp. apply metric_eq; simpl; [by rewrite Hp|by apply wsum_perm]. Qed.

Lemma balanced_perm max acc out out' p : out ≡ₚ out' -> balanced max acc out p -> balanced max acc out' p.
Proof. intros Hp [H1 H2 H3 H4 H5]. pose proof (metric_of_perm _ _ Hp) as Hm. split; [congruence|done|congruence|done|]. intros Hr. by rewrite <- Hp, H5. Qed.

Lemma released_balanced max acc out p e peer err :
  is_u64 (Size max) -> balanced max acc ((e, peer) :: out) p -> balanced max acc out (f_Released cb p (e, peer, err)).
Proof.
  intros Hmax [H1 H2 [H3 H3'] H4 H5]. pose proof (Event_Size_pos e). simpl in *.
  assert (0 <= wsum (fun ep => Event_Size ep.1) out) by (apply wsum_nonneg; intros ep _; pose proof (Event_Size_pos ep.1); lia).
  assert (Release (mk_Metric 1 (u64 (Event_Size e))) (p_sem p) = with_processing (p_sem p) (metric_of out)) as Hrel.
  { rewrite u64_small by solve_width. rewrite Release_covered; [|rewrite H1; split; simpl; lia].
    f_equal. apply metric_eq; rewrite H1; simpl; lia. }
  split; simpl; rewrite ?Hrel; simpl; try done.
  - split; simpl; lia.
  - intros Hr. rewrite Hr, (H5 Hr), fmap_app, <- app_assoc. done.
Qed.

Lemma released_all_balanced max acc out p l :
  is_u64 (Size max) -> balanced max acc (((fun x : BaseEvent * string * option string => (x.1.1, x.1.2)) <$> l) ++ out) p ->
  balanced max acc out (foldl (f_Released cb) p l).
Proof.
  intros Hmax. revert p. induction l as [|[[e peer] err] l IH]; intros p Hb; simpl; [done|]. apply IH. by apply released_balanced.
Qed.

Lemma foldl_released_buffer l p : p_buffer (foldl (f_Released cb) p l) = p_buffer p.
Proof. revert p. induction l as [|x l IH]; intros p; simpl; [done|]. by rewrite IH. Qed.

(** A call on the buffer that took [extra] in. *)
Lemma with_released_balanced max acc rest extra p b :
  is_u64 (Size max) -> calm (buffer_callback cb) Event_Size (p_buffer p) -> calm (buffer_callback cb) Event_Size b ->
  b_log (p_buffer p) `prefix_of` b_log b ->
  (fun o => (ev_event o, ev_peer o)) <$> b_heap b = ((fun o => (ev_event o, ev_peer o)) <$> b_heap (p_buffer p)) ++ extra ->
  balanced max acc (buffered (p_buffer p) ++ extra ++ rest) p -> balanced max acc (buffered b ++ rest) (with_released cb p b).
Proof.
  intros Hmax Hc Hc' [new Hnew] Hheap Hb. unfold with_released. rewrite Hnew, drop_app_length.
  apply released_all_balanced; [done|].
  assert (balanced max acc (buffered (p_buffer p) ++ extra ++ rest) (mk_Processor (p_sem p) b (p_log p))) as Hb0 by (destruct Hb; by split).
  eapply balanced_perm; [|exact Hb0]. rewrite !app_assoc. apply Permutation_app_tail.
  pose proof (calm_conserves (buffer_callback cb) Event_Size _ Hc eq_refl) as Hp.
  pose proof (calm_conserves (buffer_callback cb) Event_Size _ Hc' eq_refl) as Hp'.
  rewrite Hheap, Hp, Hnew, fmap_app, <- !app_assoc in Hp'. by apply Permutation_app_inv_l in Hp'.
Qed.

(** ** One event *)

Record ready (cfg : Config) p : Prop := {
  rd_quiet : quiet (buffer_callback cb) Event_Size (p_buffer p);
  rd_limit : b_limit (p_buffer p) = cfg_EventsBufferLimit cfg;
  rd_limits : limits_ok (cfg_EventsBufferLimit cfg)
}.

Definition event_fits (cfg : Config) (e : BaseEvent) : Prop := fits_size Event_Size (cfg_EventsBufferLimit cfg) e.

Lemma with_released_buffer p b : p_buffer (with_released cb p b) = b.
Proof. unfold with_released. by rewrite foldl_released_buffer. Qed.

Lemma buffer_PushEvent_balanced cfg max acc rest peer e p :
  ready cfg p -> is_u64 (Size max) -> event_fits cfg e -> balanced max acc (buffered (p_buffer p) ++ (e, peer) :: rest) p ->
  exists r p', buffer_PushEvent cb e peer p = Ok (r, p') /\ ready cfg p' /\ balanced max acc (buffered (p_buffer p') ++ rest) p'.
Proof.
  intros [Hq Hl Hlim] Hmax Hfit Hb.
  destruct (PushEvent_spec (buffer_callback cb) Event_Size (fun _ => True) (fun _ => True) (p_buffer p) e peer Hq) as (r & b & Hp & Hq' & _ & Hl' & Hheap & _); [by rewrite Hl..|].
  unfold buffer_PushEvent. rewrite Hp. cbn [outcome_bind]. eexists _, _. split; [done|]. rewrite with_released_buffer. split.
  - split; [|rewrite with_released_buffer; congruence|done]. by rewrite with_released_buffer.
  - eapply (with_released_balanced max acc rest [(e, peer)]); [done|apply Hq|apply Hq'|by eapply PushEvent_log|done|exact Hb].
Qed.

Lemma Processor_process_balanced cfg max acc rest peer e err p :
  ready cfg p -> is_u64 (Size max) -> event_fits cfg e -> balanced max acc (buffered (p_buffer p) ++ (e, peer) :: rest) p ->
  exists req p', Processor_process cb HighestLamport cfg peer e err p = Ok (req, p') /\ ready cfg p' /\
    balanced max acc (buffered (p_buffer p') ++ rest) p'.
Proof.
  intros Hr Hmax Hfit Hb.
  assert (forall er, ready cfg (f_Released cb p (e, peer, er)) /\ balanced max acc (buffered (p_buffer p) ++ rest) (f_Released cb p (e, peer, er))) as Hrel.
  { intros er. split; [destruct Hr; by split|]. apply released_balanced; [done|]. eapply balanced_perm; [|exact Hb]. by rewrite <- Permutation_middle. }
  unfold Processor_process. destruct err as [er|]; [eexists _, _; split; [done|apply Hrel]|]. cbv zeta.
  case_match; [eexists _, _; split; [done|apply Hrel]|].
  destruct (buffer_PushEvent_balanced cfg max acc rest peer e p Hr Hmax Hfit Hb) as (r & p' & -> & Hr' & Hb'). cbn [outcome_bind].
  destruct (_ && _); by eexists _, _.
Qed.

Lemma process_res_balanced cfg max acc rest peer res req p :
  ready cfg p -> is_u64 (Size max) -> event_fits cfg (cr_e res) -> balanced max acc (buffered (p_buffer p) ++ (cr_e res, peer) :: rest) p ->
  exists req' p', process_res cb HighestLamport cfg peer res (req, p) = Ok (req', p') /\ ready cfg p' /\
    balanced max acc (buffered (p_buffer p') ++ rest) p'.
Proof.
  intros Hr Hmax Hfit Hb. unfold process_res.
  destruct (Processor_process_balanced cfg max acc rest peer _ (cr_err res) p Hr Hmax Hfit Hb) as (r & p' & -> & ? & ?).
  cbn [outcome_bind]. eauto.
Qed.

Lemma Processor_Clear_balanced cfg max acc rest p :
  ready cfg p -> is_u64 (Size max) -> balanced max acc (buffered (p_buffer p) ++ rest) p ->
  exists p', Processor_Clear cb p = Ok p' /\ ready cfg p' /\ buffered (p_buffer p') = [] /\ balanced max acc rest p'.
Proof.
  intros [Hq Hl Hlim] Hmax Hb. destruct (Clear_spec (buffer_callback cb) Event_Size (p_buffer p) Hq) as (b & Hp & Hq' & _ & Hl' & Hs & Hheap); [by rewrite Hl|].
  unfold Processor_Clear. rewrite Hp. cbn [outcome_bind]. eexists. split; [done|]. rewrite with_released_buffer.
  assert (buffered b = []) as He by (unfold buffered; by rewrite Hs). splits; [|done|].
  - split; [|rewrite with_released_buffer; congruence|done]. by rewrite with_released_buffer.
  - change rest with ([] ++ rest). rewrite <- He. eapply (with_released_balanced max acc rest []); [done|apply Hq|apply Hq'| | |exact Hb].
    + by eapply spill_loop_log.
    + by rewrite app_nil_r.
Qed.

(** ** One job *)

Definition unprocessed (j : job) : list BaseEvent :=
  (snd <$> j_waiting j) ++ (cr_e <$> j_checked j) ++ (cr_e <$> stored (j_results j)).
Definition from (peer : string) (es : list BaseEvent) : list (BaseEvent * string) := (fun e => (e, peer)) <$> es.
Definition pending (j : job) : list (BaseEvent * string) := from (j_peer j) (unprocessed j).
Definition positions (j : job) : list nat := (fst <$> j_waiting j) ++ (cr_pos <$> j_checked j).

Record job_ok (cfg : Config) (j : job) : Prop := {
  jo_count : (j_processed j + length (unprocessed j) = length (j_events j))%nat;
  jo_nodup : NoDup (positions j);
  jo_slots : j_ordered j = true -> forall i, i ∈ positions j -> j_results j !! i = Some None;
  jo_fits : Forall (event_fits cfg) (unprocessed j)
}.

Lemma insert_ready_balanced cfg max acc rest peer fuel results processed req p :
  ready cfg p -> is_u64 (Size max) -> Forall (event_fits cfg) (cr_e <$> stored results) ->
  balanced max acc (buffered (p_buffer p) ++ from peer (cr_e <$> stored results) ++ rest) p ->
  exists results' processed' req' p',
    insert_ready (process_res cb HighestLamport cfg peer) fuel results processed (req, p) = Ok (results', processed', (req', p')) /\
    ready cfg p' /\ balanced max acc (buffered (p_buffer p') ++ from peer (cr_e <$> stored results') ++ rest) p' /\
    (processed' + length (stored results') = processed + length (stored results))%nat /\
    (forall i, results !! i = Some None -> results' !! i = Some None) /\
    Forall (event_fits cfg) (cr_e <$> stored results').
Proof.
  revert results processed req p. induction fuel as [|fuel IH]; intros results processed req p Hr Hmax Hfit Hb; cbn [insert_ready].
  { eexists _, _, _, _. splits; done. }
  destruct (results !! processed) as [[res|]|] eqn:Hi; [|eexists _, _, _, _; splits; done..].
  pose proof (stored_take _ _ _ Hi) as Hs. rewrite Hs in Hfit. csimpl in Hfit. apply Forall_cons in Hfit as [Hfit1 Hfit].
  destruct (process_res_balanced cfg max acc (from peer (cr_e <$> stored (<[processed := None]> results)) ++ rest) peer res req p Hr Hmax Hfit1)
    as (req1 & p1 & -> & Hr1 & Hb1).
  { eapply balanced_perm; [|exact Hb]. unfold from. rewrite Hs. done. }
  cbn [outcome_bind]. destruct (IH (<[processed := None]> results) (S processed) req1 p1 Hr1 Hmax Hfit Hb1)
    as (results' & processed' & req' & p' & -> & Hr' & Hb' & Hc & Hn & Hf).
  eexists _, _, _, _. splits; [done|done|done| | |done].
  - rewrite Hs. simpl. lia.
  - intros i Hn'. apply Hn. destruct (decide (i = processed)) as [->|]; [congruence|]. by rewrite list_lookup_insert_ne.
Qed.

Definition same_batch (j j' : job) : Prop :=
  j_peer j' = j_peer j /\ j_events j' = j_events j /\ j_ordered j' = j_ordered j /\ j_waiting j' = j_waiting j.

Lemma from_app peer l1 l2 : from peer (l1 ++ l2) = from peer l1 ++ from peer l2.
Proof. apply fmap_app. Qed.

Lemma from_cons peer e l : from peer (e :: l) = (e, peer) :: from peer l.
Proof. done. Qed.

#[local] Instance from_perm peer : Proper ((≡ₚ) ==> (≡ₚ)) (from peer).
Proof. intros l1 l2 Hl. by apply fmap_Permutation. Qed.

Lemma job_receive_balanced cfg max acc rest j p :
  ready cfg p -> is_u64 (Size max) -> job_ok cfg j -> balanced max acc (buffered (p_buffer p) ++ pending j ++ rest) p ->
  exists j' p', job_receive cb HighestLamport cfg j p = Ok (j', p') /\ ready cfg p' /\ job_ok cfg j' /\
    balanced max acc (buffered (p_buffer p') ++ pending j' ++ rest) p'.
Proof.
  intros Hr Hmax Hj Hb. destruct Hj as [Hcount Hnd Hslots Hfits]. unfold job_receive. unfold pending, unprocessed, positions in *.
  destruct (j_checked j) as [|res checked] eqn:Hch.
  { exists j, p. splits; try done; [split|]; unfold unprocessed, positions; by rewrite ?Hch. }
  case_match eqn:Hlt.
  2: { exists j, p. splits; try done; [split|]; unfold unprocessed, positions; by rewrite ?Hch. }
  csimpl in Hcount. csimpl in Hnd. csimpl in Hslots. csimpl in Hfits. csimpl in Hb. apply Forall_app in Hfits as [Hf1 [Hf2 [Hf3 Hf4]%Forall_app]%Forall_cons].
  assert (cr_pos res ∈ (fst <$> j_waiting j) ++ cr_pos res :: (cr_pos <$> checked)) as Hin by set_solver.
  assert (NoDup (cr_pos res :: ((fst <$> j_waiting j) ++ (cr_pos <$> checked)))) as [Hni Hnd']%NoDup_cons by (by rewrite Permutation_middle).
  rewrite !from_app, from_cons, !from_app in Hb. destruct (j_ordered j) eqn:Hord.
  - pose proof (Hslots eq_refl _ Hin) as Hslot. pose proof (lookup_lt_Some _ _ _ Hslot).
    unfold receive_ordered. rewrite (proj2 (Nat.ltb_lt _ _)) by done. pose proof (stored_put _ _ res Hslot) as Hput.
    destruct (insert_ready_balanced cfg max acc (from (j_peer j) (snd <$> j_waiting j) ++ from (j_peer j) (cr_e <$> checked) ++ rest)
      (j_peer j) (length (<[cr_pos res := Some res]> (j_results j)) - j_processed j)
      (<[cr_pos res := Some res]> (j_results j)) (j_processed j) (j_toRequest j) p Hr Hmax)
      as (results' & processed' & req' & p' & -> & Hr' & Hb' & Hc' & Hn' & Hf'); [rewrite Hput; by constructor| |].
    { eapply balanced_perm; [|exact Hb]. rewrite Hput, fmap_cons, from_cons. solve_Permutation. }
    rewrite Hput in Hc'. cbn [outcome_bind length] in *. eexists _, _. split; [done|]. split; [done|]. split; [split|].
    + unfold unprocessed. simpl. repeat (rewrite ?length_app, ?length_fmap in *; simpl in *). lia.
    + done.
    + simpl. intros _ i Hi. unfold positions in Hi. simpl in Hi. apply Hn'. rewrite list_lookup_insert_ne; [apply Hslots; [done|set_solver]|].
      intros <-. done.
    + unfold unprocessed. simpl. by rewrite !Forall_app.
    + eapply balanced_perm; [|exact Hb']. unfold pending, unprocessed. simpl. rewrite !from_app. solve_Permutation.
  - destruct (process_res_balanced cfg max acc (from (j_peer j) (snd <$> j_waiting j) ++ from (j_peer j) (cr_e <$> checked) ++
      from (j_peer j) (cr_e <$> stored (j_results j)) ++ rest) (j_peer j) res (j_toRequest j) p Hr Hmax Hf2) as (req' & p' & -> & Hr' & Hb').
    { eapply balanced_perm; [|exact Hb]. solve_Permutation. }
    cbn [outcome_bind]. eexists _, _. split; [done|]. split; [done|]. split; [split|].
    + unfold unprocessed. simpl. repeat (rewrite ?length_app, ?length_fmap in *; simpl in *). lia.
    + done.
    + simpl. done.
    + unfold unprocessed. simpl. by rewrite !Forall_app.
    + eapply balanced_perm; [|exact Hb']. unfold pending, unprocessed. simpl. rewrite !from_app. solve_Permutation.
Qed.

Lemma job_checked_ok cfg i err j : job_ok cfg j -> job_ok cfg (job_checked i err j) /\ pending (job_checked i err j) ≡ₚ pending j.
Proof.
  intros [Hcount Hnd Hslots Hfits]. unfold job_checked. destruct (j_waiting j !! i) as [[pos e]|] eqn:Hi; [|by split].
  assert (j_waiting j ≡ₚ (pos, e) :: delete i (j_waiting j)) as Hp by (by apply delete_Permutation).
  assert (unprocessed j ≡ₚ unprocessed (job_checked i err j)) as Hu.
  { unfold job_checked, unprocessed. rewrite Hi. simpl. rewrite Hp at 1. rewrite fmap_app. csimpl. solve_Permutation. }
  assert (positions j ≡ₚ positions (job_checked i err j)) as Hpos.
  { unfold job_checked, positions. rewrite Hi. simpl. rewrite Hp at 1. rewrite fmap_app. csimpl. solve_Permutation. }
  unfold job_checked in Hu, Hpos. rewrite Hi in Hu, Hpos. split; [split|].
  - by rewrite <- Hu.
  - by rewrite <- Hpos.
  - simpl. intros Ho k Hk. rewrite <- Hpos in Hk. by apply Hslots.
  - by rewrite <- Hu.
  - unfold pending, from. simpl. by rewrite Hu.
Qed.

Lemma positions_new peer events ordered notify : positions (new_job peer events ordered notify) = seq 0 (length events).
Proof.
  unfold positions, new_job. simpl. rewrite app_nil_r. apply list_eq. intros i. rewrite list_lookup_fmap, list_lookup_imap.
  destruct (events !! i) eqn:Hi; simpl; symmetry.
  - apply lookup_lt_Some in Hi. by rewrite lookup_seq_lt.
  - apply lookup_ge_None in Hi. by apply lookup_ge_None_2; rewrite length_seq.
Qed.

Lemma unprocessed_new peer events ordered notify : unprocessed (new_job peer events ordered notify) = events.
Proof.
  unfold unprocessed, new_job. simpl.
  assert (stored (if ordered then replicate (length events) None else []) = []) as ->.
  { destruct ordered; [|done]. generalize (length events). intros n. by induction n. }
  rewrite app_nil_r. apply list_eq. intros i. rewrite list_lookup_fmap, list_lookup_imap. by destruct (events !! i).
Qed.

Lemma new_job_ok cfg peer events ordered notify : Forall (event_fits cfg) events -> job_ok cfg (new_job peer events ordered notify).
Proof.
  intros Hf. split; rewrite ?unprocessed_new, ?positions_new; [done|apply NoDup_seq| |done].
  simpl. intros -> i Hi. apply elem_of_seq in Hi. apply lookup_replicate. split; [done|lia].
Qed.

(** ** The system *)

Definition outstanding (s : system (A := A)) : list (BaseEvent * string) := buffered (p_buffer (s_proc s)) ++ concat (pending <$> s_jobs s).

Record sys_ok (cfg : Config) max acc (s : system (A := A)) : Prop := {
  so_ready : ready cfg (s_proc s);
  so_balanced : balanced max acc (outstanding s) (s_proc s);
  so_jobs : Forall (job_ok cfg) (s_jobs s)
}.

(** A batch of events that fit the buffer and whose weight does not overflow
    the semaphore's counters. *)
Definition batch_ok (cfg : Config) max (events : list BaseEvent) : Prop :=
  Forall (event_fits cfg) events /\ no_wrap max (metric_of (from "" events)).

Definition op_ok (cfg : Config) max (op : sys_op) : Prop :=
  match op with OpEnqueue _ events _ _ => batch_ok cfg max events | _ => True end.

(** What a step lets in. *)
Definition taken (s : system (A := A)) (op : sys_op) : list (BaseEvent * string) :=
  match op with
  | OpEnqueue peer events ordered notify => if (Enqueue peer events ordered notify s).1 then from peer events else []
  | _ => []
  end.

Lemma sizes_sum events s0 :
  0 <= s0 -> s0 + wsum Event_Size events < 2 ^ 64 ->
  foldl (fun s e => u64 (s + u64 (Event_Size e))) s0 events = s0 + wsum Event_Size events.
Proof.
  revert s0. induction events as [|e events IH]; intros s0 H0 Hs; simpl in *; [lia|].
  pose proof (Event_Size_pos e). assert (0 <= wsum Event_Size events) by (apply wsum_nonneg; intros x _; pose proof (Event_Size_pos x); lia).
  rewrite (u64_small (Event_Size e)), u64_small by solve_width. rewrite IH by lia. lia.
Qed.

Lemma wsum_from peer events : wsum (fun ep => Event_Size ep.1) (from peer events) = wsum Event_Size events.
Proof. induction events as [|e events IH]; simpl; [done|]. f_equal. exact IH. Qed.

Lemma Events_Metric_from max peer events :
  metric_ok max -> no_wrap max (metric_of (from "" events)) -> Events_Metric events = metric_of (from peer events).
Proof.
  intros [Hm1 Hm2] (H1 & H2 & H3 & H4). unfold Events_Metric, metric_of in *. cbn [Num Size] in *. unfold from at 1 in H3. unfold from.
  rewrite !length_fmap in *. fold (from "" events) in H4. fold (from peer events). rewrite wsum_from in *.
  rewrite u32_small by solve_width. rewrite sizes_sum; [done|lia|solve_width].
Qed.

Lemma metric_of_app out out' : metric_add (metric_of out) (metric_of out') = metric_of (out ++ out').
Proof. apply metric_eq; simpl; [rewrite length_app; lia|by rewrite wsum_app]. Qed.

Lemma metric_of_nonneg out : 0 <= Num (metric_of out) /\ 0 <= Size (metric_of out).
Proof. simpl. split; [lia|]. apply wsum_nonneg. intros ep _. pose proof (Event_Size_pos ep.1). lia. Qed.

Lemma Enqueue_ok cfg max acc peer events ordered notify s :
  sys_ok cfg max acc s -> metric_ok max -> batch_ok cfg max events ->
  sys_ok cfg max (acc ++ taken s (OpEnqueue peer events ordered notify)) (Enqueue peer events ordered notify s).2.
Proof.
  intros [Hr [H1 H2 H3 H4 H5] Hj] Hmax [Hfit Hnw]. unfold taken, Enqueue, Acquire.
  destruct (tryAcquire _ _) as [ok sem] eqn:Ha. rewrite (Events_Metric_from max peer) in Ha by done.
  assert (metric_of (from "" events) = metric_of (from peer events)) as Hm.
  { unfold metric_of. rewrite !wsum_from. unfold from. by rewrite !length_fmap. }
  rewrite Hm in Hnw. pose proof (metric_of_nonneg (outstanding s)) as [? ?].
  destruct ok.
  - apply tryAcquire_true in Ha as [-> Hle]; try (rewrite ?H1, ?H2; done). rewrite H1, ?H2, metric_of_app in Hle. simpl.
    assert (outstanding (mk_system (mk_Processor (with_processing (p_sem (s_proc s)) (metric_add (sem_processing (p_sem (s_proc s))) (metric_of (from peer events))))
      (p_buffer (s_proc s)) (p_log (s_proc s))) (s_jobs s ++ [new_job peer events ordered notify]) (s_notified s)) = outstanding s ++ from peer events) as Ho.
    { unfold outstanding. simpl. rewrite fmap_app, concat_app. csimpl. unfold pending at 2. rewrite unprocessed_new, app_nil_r. by rewrite app_assoc. }
    split; [destruct Hr; by split| |simpl; apply Forall_app; split; [done|]; by constructor; [apply new_job_ok|]].
    rewrite Ho. split; simpl; rewrite ?H1, ?metric_of_app; try done. intros Hrel. rewrite (H5 Hrel). solve_Permutation.
  - apply tryAcquire_false in Ha as ->.
    destruct (_ || _); simpl; rewrite app_nil_r; (split; [destruct Hr; by split|by split|done]).
Qed.

Lemma sys_do_ok cfg max acc s op :
  metric_ok max -> op_ok cfg max op -> sys_ok cfg max acc s ->
  exists s', sys_do cb HighestLamport cfg s op = Ok s' /\ sys_ok cfg max (acc ++ taken s op) s'.
Proof.
  intros Hmax Hop Hs. pose proof Hs as [Hr Hb Hj]. destruct Hmax as [? Hmax].
  destruct op as [peer events ordered notify|j i err| | |]; cbn [sys_do taken]; rewrite ?app_nil_r.
  - eexists. split; [done|]. by apply Enqueue_ok.
  - eexists. split; [done|]. split; [done| |].
    + eapply balanced_perm; [|exact Hb]. unfold outstanding. simpl. apply Permutation_app_head.
      revert Hj. clear. revert j. induction (s_jobs s) as [|x l IH]; intros j Hj; [by destruct j|]. apply Forall_cons in Hj as [Hx Hl].
      destruct j as [|j]; simpl; [|by apply Permutation_app_head, IH].
      apply Permutation_app_tail. symmetry. by apply (job_checked_ok cfg).
    + simpl. apply Forall_alter; [done|]. intros x _ Hx. by apply job_checked_ok.
  - destruct (s_jobs s) as [|j jobs] eqn:Hjobs; [by eexists|]. apply Forall_cons in Hj as [Hj Hjs].
    destruct (job_receive_balanced cfg max acc (concat (pending <$> jobs)) j (s_proc s) Hr Hmax Hj) as (j' & p' & -> & Hr' & Hj' & Hb').
    { unfold outstanding in Hb. rewrite Hjobs in Hb. exact Hb. }
    cbn [outcome_bind]. eexists. split; [done|]. split; [done|exact Hb'|by constructor].
  - destruct (s_jobs s) as [|j jobs] eqn:Hjobs; [by eexists|]. apply Forall_cons in Hj as [Hj Hjs].
    destruct (job_done j) eqn:Hd; [|by eexists]. eexists. split; [done|]. split; [done| |done].
    unfold outstanding in *. rewrite Hjobs in Hb. csimpl in Hb. simpl.
    assert (unprocessed j = []) as Hu; [|unfold pending in Hb at 1; by rewrite Hu in Hb].
    apply nil_length_inv. pose proof (jo_count _ _ Hj). unfold job_done in Hd. apply Nat.leb_le in Hd. lia.
  - destruct (Processor_Clear_balanced cfg max acc (concat (pending <$> s_jobs s)) (s_proc s) Hr Hmax Hb) as (p' & -> & Hr' & He & Hb').
    cbn [outcome_bind]. eexists. split; [done|]. split; [done| |done]. unfold outstanding. simpl. by rewrite He.
Qed.

(** The events the run has accepted. *)
Fixpoint accepted (cfg : Config) (s : system (A := A)) (ops : list sys_op) : list (BaseEvent * string) :=
  match ops with
  | [] => []
  | op :: ops => taken s op ++ match sys_do cb HighestLamport cfg s op with Ok s => accepted cfg s ops | _ => [] end
  end.

Lemma sys_steps_ok cfg max acc s ops :
  metric_ok max -> Forall (op_ok cfg max) ops -> sys_ok cfg max acc s ->
  exists s', foldM (sys_do cb HighestLamport cfg) s ops = Ok s' /\ sys_ok cfg max (acc ++ accepted cfg s ops) s'.
Proof.
  intros Hmax Hops. revert acc s. induction ops as [|op ops IH]; intros acc s Hs; simpl; [rewrite app_nil_r; by exists s|].
  apply Forall_cons in Hops as [Hop Hops]. destruct (sys_do_ok cfg max acc s op Hmax Hop Hs) as (s1 & Hd & Hs1). rewrite Hd. cbn [outcome_bind].
  destruct (IH Hops _ _ Hs1) as (s' & Hf & Hs'). exists s'. split; [done|]. by rewrite app_assoc.
Qed.

Lemma sys_new_ok cfg max warning app :
  limits_ok (cfg_EventsBufferLimit cfg) -> metric_ok max ->
  exists p, Processor_New cfg (DataSemaphore_New max warning) app = Ok p /\ sys_ok cfg max [] (mk_system p [] []) /\
    b_app (p_buffer p) = app.
Proof.
  intros Hlim Hmax. destruct (buffer_new_quiet (buffer_callback cb) Event_Size (cfg_EventsBufferLimit cfg) app Hlim)
    as (b & Hb & Hq & Hl & Ha & Hs & _).
  unfold Processor_New. rewrite Hb. cbn [outcome_bind]. eexists. split; [done|]. split; [|done]. split; [by split| |done].
  assert (outstanding (mk_system (mk_Processor (DataSemaphore_New max warning) b []) [] []) = []) as ->.
  { unfold outstanding, buffered. simpl. by rewrite Hs. }
  destruct Hmax as [[? ?] [? ?]]. by split.
Qed.

(** The inserter over a channel that holds all the results. *)
Lemma job_receive_all cfg peer events notify arrivals : forall results processed req p results' processed' req' p',
  (processed + length (stored results) + length arrivals <= length events)%nat ->
  foldM (receive_ordered (process_res cb HighestLamport cfg peer)) (results, processed, (req, p)) arrivals = Ok (results', processed', (req', p')) ->
  foldM (fun jp _ => job_receive cb HighestLamport cfg jp.1 jp.2) (mk_job peer true events notify [] arrivals results processed req, p) arrivals =
    Ok (mk_job peer true events notify [] [] results' processed' req', p').
Proof.
  induction arrivals as [|res arrivals IH]; intros results processed req p results' processed' req' p' Hle Hrun; cbn [foldM] in *.
  { by injection Hrun as -> -> -> ->. }
  destruct (receive_ordered _ _ res) as [[[results1 processed1] [req1 p1]]| |] eqn:Hr; cbn [outcome_bind] in Hrun; [|done..].
  pose proof (receive_ordered_count _ _ _ _ _ _ _ _ Hr). simpl in Hle.
  unfold job_receive at 1. cbn [fst snd j_checked j_processed j_events j_ordered j_results j_toRequest j_peer j_notify j_waiting].
  rewrite (proj2 (Nat.ltb_lt _ _)) by lia. rewrite Hr. cbn [outcome_bind]. apply IH; [lia|done].
Qed.

End balance.

(** ** Properties *)

(** C23: whatever the peers enqueue, whenever and in whatever order the checks
    answer, and with clears in between, nothing fails; every accepted event is
    either still in a job or in the buffer or has been released exactly once;
    the semaphore counts exactly the former, stays within its maximum and is
    never released more than was acquired. *)
Theorem semaphore_balances {A} (cb : Callback A) (HighestLamport : A -> Z) `{!CallbackLaws cb} (cfg : Config) (max : Metric)
    (warning : bool) (app : A) (ops : list sys_op) :
  limits_ok (cfg_EventsBufferLimit cfg) -> metric_ok max -> Forall (op_ok cfg max) ops -> cb_Released cb = true ->
  exists p0 s, Processor_New cfg (DataSemaphore_New max warning) app = Ok p0 /\
    sys_run cb HighestLamport cfg (DataSemaphore_New max warning) app ops = Ok s /\
    accepted cb HighestLamport cfg (mk_system p0 [] []) ops ≡ₚ ((fun x => (x.1.1, x.1.2)) <$> p_log (s_proc s)) ++ outstanding s /\
    Processing (p_sem (s_proc s)) = metric_of (outstanding s) /\ metric_le (Processing (p_sem (s_proc s))) max /\
    sem_warned (p_sem (s_proc s)) = [].
Proof.
  intros Hlim Hmax Hops Hrel. destruct (sys_new_ok cb cfg max warning app Hlim Hmax) as (p0 & Hp & Hs0 & _).
  destruct (sys_steps_ok cb HighestLamport cfg max [] _ ops Hmax Hops Hs0) as (s & Hrun & [_ [H1 H2 H3 H4 H5] _]).
  exists p0, s. unfold sys_run. rewrite Hp. cbn [outcome_bind]. splits; [done|done|by apply H5|done|by unfold Processing; rewrite H1|done].
Qed.

(** C24: an ordered batch is processed in the order of the batch, whatever the
    order in which the checks of its events answer. *)
Theorem ordered_batch_any_arrival {A} (cb : Callback A) (HighestLamport : A -> Z) (cfg : Config) (peer : string)
    (events : list BaseEvent) (errs : list (option string)) (notify : bool) (arrivals : list checkRes) (p : Processor) req p' :
  length errs = length events ->
  let in_order := imap (fun i x => mk_checkRes x.1 x.2 i) (zip events errs) in
  arrivals ≡ₚ in_order ->
  foldM (fun st res => process_res cb HighestLamport cfg peer res st) ([], p) in_order = Ok (req, p') ->
  exists j', foldM (fun jp _ => job_receive cb HighestLamport cfg jp.1 jp.2)
      (mk_job peer true events notify [] arrivals (replicate (length events) None) 0 [], p) arrivals = Ok (j', p') /\
    j_toRequest j' = req /\ job_done j' = true.
Proof.
  intros Hlen in_order Hperm Hend.
  assert (length in_order = length events) as Hlo by (unfold in_order; rewrite length_imap, length_zip_with; lia).
  assert (forall i r, in_order !! i = Some r -> cr_pos r = i) as Hpos.
  { intros i r Hi. unfold in_order in Hi. rewrite list_lookup_imap in Hi. destruct (zip events errs !! i); [|done]. by simplify_eq/=. }
  pose proof (receive_all_ordered _ in_order Hpos _ _ arrivals Hperm Hend) as Hall. rewrite Hlo in Hall.
  assert (length arrivals = length events) as Hla by (by rewrite Hperm).
  exists (mk_job peer true events notify [] [] (replicate (length events) None) (length events) req).
  splits; [|done|by apply Nat.leb_refl]. apply job_receive_all; [|exact Hall].
  assert (stored (replicate (length events) None) = []) as ->; [|simpl; lia].
  generalize (length events). intros n. by induction n.
Qed.

(** ** A concrete processor over the application of EventBuffer.v *)

Definition sample_height (s : gmap Z BaseEvent) : Z := map_fold (fun _ e h => Z.max (e_lamport e) h) 0 s.
Definition sample_cfg : Config := mk_Config sample_limit 0 128.
Definition sample_max : Metric := mk_Metric 4 1000.
(** Two batches whose checks answer in reverse; the second is refused. *)
Definition sample_sys_ops : list sys_op :=
  [OpEnqueue "p" [sample_a; sample_b] true true; OpEnqueue "q" [sample_c; sample_d; sample_a] false false; OpChecked 0 1 None;
   OpReceive; OpChecked 0 0 None; OpReceive; OpFinish; OpEnqueue "q" [sample_d] false true; OpChecked 0 0 None; OpReceive; OpFinish].
Definition sample_arrivals : list checkRes := [mk_checkRes sample_b None 1; mk_checkRes sample_a None 0].

Definition sample_proc (ops : list sys_op) : outcome (list (Z * option string) * list Z * Metric * list (list Z)) :=
  let* s := sys_run store_callback sample_height sample_cfg (DataSemaphore_New sample_max true) ∅ ops in
  Ok ((fun x => (e_id x.1.1, x.2)) <$> p_log (s_proc s), elements (dom (b_app (p_buffer (s_proc s)))), Processing (p_sem (s_proc s)), s_notified s).

Example sample_sys_released : sample_proc sample_sys_ops = Ok ([(1, None); (2, None)], [2; 1], mk_Metric 1 84, []).
Proof. vm_compute. reflexivity. Qed.

(** [Stop] in the middle of a batch releases its connected events again. *)
Lemma quit_releases_again :
  exists s s', sys_run store_callback sample_height sample_cfg (DataSemaphore_New sample_max true) ∅
      [OpEnqueue "p" [sample_a; sample_b] true true; OpChecked 0 0 None; OpReceive] = Ok s /\
    Processor_Stop store_callback s = Ok s' /\
    (fun x => (e_id x.1.1, x.2)) <$> p_log (s_proc s') = [(1, None); (1, Some ErrBusy); (2, Some ErrBusy)] /\
    length (sem_warned (p_sem (s_proc s'))) = 1%nat.
Proof. eexists _, _. split; [vm_compute; reflexivity|]. split; [vm_compute; reflexivity|]. split; vm_compute; reflexivity. Qed.

Lemma sample_ops_ok : Forall (op_ok sample_cfg sample_max) sample_sys_ops.
Proof.
  assert (forall e, Event_Size e <= 500 -> event_fits sample_cfg e) as Hfit.
  { intros e He. pose proof (Event_Size_pos e). split; [lia|]. change (1000 + Event_Size e <= MaxInt32). solve_width. }
  repeat constructor; try done; try (apply Hfit; vm_compute; done).
Qed.

Lemma semaphore_balances_witness :
  exists p0 s, Processor_New sample_cfg (DataSemaphore_New sample_max true) ∅ = Ok p0 /\
    sys_run store_callback sample_height sample_cfg (DataSemaphore_New sample_max true) ∅ sample_sys_ops = Ok s /\
    accepted store_callback sample_height sample_cfg (mk_system p0 [] []) sample_sys_ops ≡ₚ
      ((fun x => (x.1.1, x.1.2)) <$> p_log (s_proc s)) ++ outstanding s /\
    Processing (p_sem (s_proc s)) = metric_of (outstanding s) /\ metric_le (Processing (p_sem (s_proc s))) sample_max /\
    sem_warned (p_sem (s_proc s)) = [].
Proof.
  apply (semaphore_balances store_callback sample_height sample_cfg sample_max true ∅ sample_sys_ops);
    [apply sample_limit_ok|by split|apply sample_ops_ok|done].
Defined.

Definition sample_processor : Processor (A := gmap Z BaseEvent) :=
  mk_Processor (DataSemaphore_New sample_max true) (mk_EventsBuffer (mk_Cache MaxInt32 0 MaxInt32 [] ∅ ∅) sample_limit [] ∅ []) [].
Definition sample_in_order : list checkRes := [mk_checkRes sample_a None 0; mk_checkRes sample_b None 1].

Lemma ordered_batch_any_arrival_witness :
  match foldM (fun st res => process_res store_callback sample_height sample_cfg "p" res st) ([], sample_processor) sample_in_order with
  | Ok (req, p') => exists j', foldM (fun jp _ => job_receive store_callback sample_height sample_cfg jp.1 jp.2)
      (mk_job "p" true [sample_a; sample_b] true [] sample_arrivals [None; None] 0 [], sample_processor) sample_arrivals = Ok (j', p') /\
      j_toRequest j' = req /\ job_done j' = true
  | _ => False
  end.
Proof.
  pose proof (ordered_batch_any_arrival store_callback sample_height sample_cfg "p" [sample_a; sample_b] [None; None] true
    sample_arrivals sample_processor) as H.
  destruct (foldM (fun st res => process_res _ _ _ _ res st) _ sample_in_order) as [[req p']|e|e] eqn:E.
  - apply H; [reflexivity|apply Permutation_swap|exact E].
  - vm_compute in E. discriminate.
  - vm_compute in E. discriminate.
Defined.
