(* ===== verification/Fetcher.v ===== *)
(** * gossip/itemsfetcher: which announced items to request, from whom and when

    The fetcher keeps, in a weighted cache, the announcements of every item it
    has heard of, and in [fetching] the items it has asked for.  The callback
    that the cache calls for an evicted item deletes it from [fetching].  The
    fetcher's goroutine handles one message or timer tick at a time: a run is
    any sequence of them.  An item is a number; a request function is a handle,
    and [f_sent] are its calls.  The current time, the answers of the callbacks,
    the random choices and the order in which Go ranges over a map are inputs
    of the step. *)

From S2P Require Import Prelude Wlru Semaphore.

#[local] Open Scope go_scope.

Record announceData := mk_announceData { an_time : Z; an_peer : string; an_fetchItems : nat }.
Record fetchingItem := mk_fetchingItem { fi_announce : announceData; fi_time : Z }.

Record FetcherConfig := mk_FetcherConfig {
  ForgetTimeout : Z; ArriveTimeout : Z; GatherSlack : Z; HashLimit : Z; MaxBatch : Z; MaxParallelRequests : Z; MaxQueuedBatches : Z
}.

(** [f_timer] is the moment the timer is set to, until it fires. *)
Record Fetcher := mk_Fetcher {
  f_announces : Cache Z (list announceData);
  f_fetching : gmap Z fetchingItem;
  f_sent : list (nat * list Z);
  f_timer : option Z
}.

Section fetcher.
Context (cfg : FetcherConfig).

(** [loop] starts with a timer that has already expired. *)
Definition Fetcher_New (now : Z) : outcome Fetcher :=
  let* c := Cache_New (HashLimit cfg) (HashLimit cfg) in Ok (mk_Fetcher c ∅ [] (Some now)).

Definition with_announces (f : Fetcher) (c : Cache Z (list announceData)) : Fetcher := mk_Fetcher c (f_fetching f) (f_sent f) (f_timer f).
Definition with_fetching (f : Fetcher) (m : gmap Z fetchingItem) : Fetcher := mk_Fetcher (f_announces f) m (f_sent f) (f_timer f).
Definition with_sent (f : Fetcher) (reqs : list (nat * list Z)) : Fetcher :=
  mk_Fetcher (f_announces f) (f_fetching f) (f_sent f ++ reqs) (f_timer f).
Definition with_timer (f : Fetcher) (t : option Z) : Fetcher := mk_Fetcher (f_announces f) (f_fetching f) (f_sent f) t.

Definition Fetcher_Overloaded (f : Fetcher) (receivedItems notifications : Z) : bool :=
  (Z.quot (MaxQueuedBatches cfg * 3) 4 <? receivedItems) || (Z.quot (MaxQueuedBatches cfg * 3) 4 <? notifications) ||
  (Z.quot (HashLimit cfg) 2 <? Cache_Len (f_announces f)).

(** The batches that [NotifyAnnounces] and [NotifyReceived] send on, while the
    fetcher is not terminated; [MaxBatch] is positive. *)
Fixpoint split_batches (fuel : nat) (ids : list Z) : list (list Z) :=
  match fuel with
  | O => []
  | S fuel =>
      match ids with
      | [] => []
      | _ => take (Z.to_nat (MaxBatch cfg)) ids :: split_batches fuel (drop (Z.to_nat (MaxBatch cfg)) ids)
      end
  end.
Definition batches (ids : list Z) : list (list Z) := split_batches (length ids) ids.

Definition getAnnounces (f : Fetcher) (id : Z) : list announceData * Fetcher :=
  let '(announces, c) := Cache_Get (f_announces f) id in (default [] announces, with_announces f c).

(** The eviction callback. *)
Definition onEvict {V} (ev : list (entry Z V)) (m : gmap Z fetchingItem) : gmap Z fetchingItem :=
  foldl (fun m e => delete (en_key e) m) m ev.

Definition forgetHash (f : Fetcher) (id : Z) : outcome Fetcher :=
  let* ' (present, c) := Cache_Remove (f_announces f) id in
  Ok (with_fetching (with_announces f c) (if present then delete id (f_fetching f) else f_fetching f)).

Definition maxDuration (a b : Z) : Z := if b <? a then a else b.

(** [range] is the order in which Go ranges over [fetching]. *)
Definition earliest_of (now : Z) (range : gmap Z fetchingItem -> list fetchingItem) (m : gmap Z fetchingItem) : Z :=
  foldl (fun earliest i => if fi_time i <? earliest then fi_time i else earliest) now
    (take (S (Z.to_nat (Z.quot (HashLimit cfg) 32))) (range m)).

Definition rescheduleFetch (now : Z) (range : gmap Z fetchingItem -> list fetchingItem) (f : Fetcher) : Fetcher :=
  if Cache_Len (f_announces f) =? 0 then f
  else with_timer f (Some (now + maxDuration (ArriveTimeout cfg - time_Sub now (earliest_of now range (f_fetching f)))
                                    (Z.quot (ArriveTimeout cfg) 8))).

(** ** An announcement arrives *)

(** The announcement is appended to the stored list twice; its length with one
    of the two is the weight. *)
Definition announce_one (noFetching : bool) (now : Z) (a : announceData) (st : Fetcher * list Z) (id : Z) : outcome (Fetcher * list Z) :=
  let '(f, toFetch) := st in
  let '(anns, f) := getAnnounces f id in
  let anns := anns ++ [a] in
  let* ' (ev, c) := Cache_Add (f_announces f) id (anns ++ [a]) (u64 (Z.of_nat (length anns))) in
  let f := with_fetching (with_announces f c) (onEvict ev (f_fetching f)) in
  if noFetching then Ok (f, toFetch)
  else match f_fetching f !! id with
       | Some _ => Ok (f, toFetch)
       | None => Ok (with_fetching f (<[id := mk_fetchingItem a now]> (f_fetching f)), toFetch ++ [id])
       end.

Definition processNotification (interested : list Z -> list Z) (suspended : bool) (now : Z)
    (range : gmap Z fetchingItem -> list fetchingItem) (a : announceData) (ids : list Z) (f : Fetcher) : outcome Fetcher :=
  let first := (size (f_fetching f) =? 0)%nat in
  let ids := interested ids in
  if (length ids =? 0)%nat then Ok f
  else
    let* ' (f, toFetch) := foldM (announce_one suspended now a) (f, []) ids in
    let f := if (length toFetch =? 0)%nat then f else with_sent f [(an_fetchItems a, toFetch)] in
    if first && negb (size (f_fetching f) =? 0)%nat then Ok (rescheduleFetch now range f) else Ok f.

(** ** The timer fires *)

(** [request] and [requestFns], by peer. *)
Record requests := mk_requests { rq_ids : gmap string (list Z); rq_fns : gmap string nat }.

Definition add_request (a : announceData) (id : Z) (rq : requests) : requests :=
  mk_requests (<[an_peer a := default [] (rq_ids rq !! an_peer a) ++ [id]]> (rq_ids rq)) (<[an_peer a := an_fetchItems a]> (rq_fns rq)).

(** [pick] is [rand.Intn]; a missing [fetching] entry has the zero time. *)
Definition refetch_one (now : Z) (pick : Z -> nat -> nat) (st : Fetcher * requests) (id : Z) : outcome (Fetcher * requests) :=
  let '(f, rq) := st in
  let '(announces, f) := getAnnounces f id in
  match announces with
  | [] => Ok (f, rq)
  | oldest :: _ =>
      if ForgetTimeout cfg <? time_Sub now (an_time oldest) then let* f := forgetHash f id in Ok (f, rq)
      else if ArriveTimeout cfg - GatherSlack cfg <? time_Sub now (default 0 (fi_time <$> f_fetching f !! id)) then
        let* announce := index announces (pick id (length announces)) in
        Ok (with_fetching f (<[id := mk_fetchingItem announce now]> (f_fetching f)), add_request announce id rq)
      else Ok (f, rq)
  end.

Definition forget_arrived (notArrived : list Z) (f : Fetcher) (id : Z) : outcome Fetcher :=
  if existsb (Z.eqb id) notArrived then Ok f else forgetHash f id.

(** In any order of the peers. *)
Definition requests_sent (rq : requests) : list (nat * list Z) :=
  omap (fun pr => (fun fn => (fn, pr.2)) <$> rq_fns rq !! pr.1) (map_to_list (rq_ids rq)).

Definition onTimer (interested : list Z -> list Z) (now : Z) (pick : Z -> nat -> nat)
    (range : gmap Z fetchingItem -> list fetchingItem) (f : Fetcher) : outcome Fetcher :=
  let all := Cache_Keys (f_announces f) in
  let notArrived := interested all in
  let* ' (f, rq) := foldM (refetch_one now pick) (f, mk_requests ∅ ∅) notArrived in
  let* f := foldM (forget_arrived notArrived) f all in
  Ok (rescheduleFetch now range (with_sent f (requests_sent rq))).

(** ** The loop *)

Inductive fetcher_op :=
| OpNotify (interested : list Z -> list Z) (suspended : bool) (now : Z) (range : gmap Z fetchingItem -> list fetchingItem)
    (a : announceData) (ids : list Z)
| OpReceived (ids : list Z)
| OpTimer (interested : list Z -> list Z) (now : Z) (pick : Z -> nat -> nat) (range : gmap Z fetchingItem -> list fetchingItem).

(** A timer that is not due does not fire. *)
Definition fetcher_do (f : Fetcher) (op : fetcher_op) : outcome Fetcher :=
  match op with
  | OpNotify interested suspended now range a ids => processNotification interested suspended now range a ids f
  | OpReceived ids => foldM forgetHash f ids
  | OpTimer interested now pick range =>
      match f_timer f with
      | Some t => if t <=? now then onTimer interested now pick range (with_timer f None) else Ok f
      | None => Ok f
      end
  end.

Definition fetcher_run (now : Z) (ops : list fetcher_op) : outcome Fetcher :=
  let* f := Fetcher_New now in foldM fetcher_do f ops.

End fetcher.

Definition Fetcher_DefaultConfig (scale : Ratio) : outcome FetcherConfig :=
  let* maxBatch := Ratio_I scale 512 in
  let* maxQueuedBatches := Ratio_I scale 32 in
  Ok (mk_FetcherConfig (60 * 10 ^ 9) (10 ^ 9) (100 * 10 ^ 6) 20000 maxBatch 256 maxQueuedBatches).

(** ** Batches *)

Lemma split_batches_spec cfg fuel ids :
  0 < MaxBatch cfg -> (length ids <= fuel)%nat ->
  concat (split_batches cfg fuel ids) = ids /\
  Forall (fun l => l <> [] /\ Z.of_nat (length l) <= MaxBatch cfg) (split_batches cfg fuel ids).
Proof.
  intros Hm. revert ids. induction fuel as [|fuel IH]; intros ids Hle; simpl.
  { destruct ids; [done|simpl in Hle; lia]. }
  destruct ids as [|id ids]; [done|]. destruct (Z.to_nat (MaxBatch cfg)) as [|n] eqn:En; [lia|]. simpl in *.
  destruct (IH (drop n ids)) as [IH1 IH2]; [rewrite length_drop; lia|]. rewrite IH1, take_drop. split; [done|].
  constructor; [|done]. split; [done|]. cbn [length]. rewrite length_take. lia.
Qed.

(** ** The state between two steps *)

Section invariant.
Context (cfg : FetcherConfig).
Implicit Types (f : Fetcher) (id : Z).

Definition announced f id : Prop := exists en, en ∈ contents (f_announces f) /\ en_key en = id.

(** [cnt] bounds the announcements of an item. *)
Record fetcher_ok (cnt : Z -> nat) f : Prop := {
  fo_cache : cache_wf (f_announces f);
  fo_caps : maxWeight (f_announces f) = HashLimit cfg /\ maxSize (f_announces f) = HashLimit cfg;
  fo_entry : forall en, en ∈ contents (f_announces f) ->
    en_weight en = Z.of_nat (length (en_value en)) - 1 /\ (2 <= length (en_value en) <= 2 * cnt (en_key en))%nat;
  fo_fit : wsum en_weight (contents (f_announces f)) <= HashLimit cfg /\ Z.of_nat (length (contents (f_announces f))) <= HashLimit cfg;
  fo_fetching : forall id, is_Some (f_fetching f !! id) -> announced f id
}.

Definition armed f : Prop := f_fetching f <> ∅ -> is_Some (f_timer f).

(** Few enough announcements of each item, and a limit at its width. *)
Definition limit_ok (cnt : Z -> nat) : Prop :=
  0 <= HashLimit cfg < 2 ^ 32 /\ forall id, 2 * Z.of_nat (cnt id) <= HashLimit cfg.

Lemma Peek_announced f id : cache_wf (f_announces f) -> announced f id <-> is_Some (Cache_Peek (f_announces f) id).
Proof.
  intros Hc. split.
  - intros (en & Hin & Hk). exists (en_value en). apply Peek_contents; [done|]. eauto.
  - intros [v (en & Hin & Hk & _)%Peek_contents]; [|done]. by exists en.
Qed.

Lemma getAnnounces_spec cnt f id :
  fetcher_ok cnt f ->
  exists c, getAnnounces f id = (default [] (Cache_Peek (f_announces f) id), with_announces f c) /\
    fetcher_ok cnt (with_announces f c) /\ (forall k, Cache_Peek c k = Cache_Peek (f_announces f) k) /\
    contents c ≡ₚ contents (f_announces f).
Proof.
  intros [H1 H2 H3 H4 H5]. destruct (Get_spec (f_announces f) id H1) as (Hg & Hwf & Hperm & Hpk).
  assert (maxWeight (Cache_Get (f_announces f) id).2 = maxWeight (f_announces f) /\
    maxSize (Cache_Get (f_announces f) id).2 = maxSize (f_announces f)) as [Hm1 Hm2].
  { unfold Cache_Get. by case_match. }
  unfold getAnnounces. destruct (Cache_Get (f_announces f) id) as [v c]. simpl in *. subst v. exists c. splits; try done.
  split; simpl; [done|rewrite Hm1, Hm2; done| |by rewrite Hperm|].
  - intros en Hin. apply H3. by rewrite <- Hperm.
  - intros k Hk. destruct (H5 k Hk) as (en & Hin & Hen). exists en. simpl. by rewrite Hperm.
Qed.

Lemma forgetHash_spec cnt f id :
  fetcher_ok cnt f ->
  exists f', forgetHash f id = Ok f' /\ fetcher_ok cnt f' /\ f_sent f' = f_sent f /\ f_timer f' = f_timer f /\
    contents (f_announces f') = filter (fun en => en_key en <> id) (contents (f_announces f)) /\
    f_fetching f' = delete id (f_fetching f).
Proof.
  intros [H1 H2 H3 H4 H5]. unfold forgetHash.
  destruct (Cache_Remove_spec (f_announces f) id H1) as (b & c & Hr & Hwf & Hcont & Hm1 & Hm2). rewrite Hr. cbn [outcome_bind].
  assert ((if b then delete id (f_fetching f) else f_fetching f) = delete id (f_fetching f)) as ->.
  { destruct b; [done|]. symmetry. apply delete_id. destruct (f_fetching f !! id) eqn:Hf; [|done]. exfalso.
    destruct (H5 id) as (en & Hin & Hk); [by eexists|]. revert Hr. unfold Cache_Remove.
    destruct (Peek_contents (f_announces f) id (en_value en) H1) as [_ Hp]. specialize (Hp ltac:(eauto)). unfold Cache_Peek in Hp.
    destruct (items (f_announces f) !! id); [|done]. by destruct (removeElement _ _) as [[]| |]. }
  eexists. split; [done|]. simpl. splits; try done. split; simpl; [done|by rewrite Hm1, Hm2| | |].
  - intros en Hin. rewrite Hcont in Hin. apply list_elem_of_filter in Hin as [_ Hin]. by apply H3.
  - rewrite Hcont. destruct H4 as [H4 H4']. split; [|etrans; [apply inj_le, length_filter|done]].
    etrans; [|exact H4]. apply wsum_filter_le. intros en Hin. destruct (H3 en Hin). lia.
  - intros k Hk. apply lookup_delete_is_Some in Hk as [Hne Hk]. destruct (H5 k Hk) as (en & Hin & Hen). exists en. simpl.
    rewrite Hcont, list_elem_of_filter. split; [|done]. split; [congruence|done].
Qed.

Lemma forget_all_ok cnt ids f :
  fetcher_ok cnt f -> exists f', foldM forgetHash f ids = Ok f' /\ fetcher_ok cnt f' /\ f_timer f' = f_timer f /\ f_fetching f' ⊆ f_fetching f.
Proof.
  revert f. induction ids as [|id ids IH]; intros f Hf; simpl; [by exists f|].
  destruct (forgetHash_spec cnt f id Hf) as (f1 & -> & Hf1 & _ & Ht & _ & Hd). cbn [outcome_bind].
  destruct (IH f1 Hf1) as (f2 & -> & Hf2 & Ht2 & Hd2). exists f2. splits; [done|done|congruence|].
  etrans; [exact Hd2|]. rewrite Hd. apply delete_subseteq.
Qed.

Lemma onEvict_lookup (ev : list (entry Z (list announceData))) m id :
  is_Some (onEvict ev m !! id) <-> is_Some (m !! id) /\ id ∉ en_key <$> ev.
Proof.
  unfold onEvict. revert m. induction ev as [|en ev IH]; intros m; simpl.
  - split; [intros ?; split; [done|apply not_elem_of_nil]|tauto].
  - rewrite IH, lookup_delete_is_Some, not_elem_of_cons. naive_solver.
Qed.

(** ** One announcement *)

Lemma onEvict_notin (ev : list (entry Z (list announceData))) m id : id ∉ en_key <$> ev -> onEvict ev m !! id = m !! id.
Proof.
  unfold onEvict. revert m. induction ev as [|en ev IH]; intros m Hn; simpl; [done|]. csimpl in Hn.
  apply not_elem_of_cons in Hn as [Hne Hn]. rewrite IH by done. by apply lookup_delete_ne.
Qed.

Lemma NoDup_fmap_filter {V} (l : list (entry Z V)) id : NoDup (en_key <$> l) -> NoDup (en_key <$> filter (fun x => en_key x <> id) l).
Proof.
  induction l as [|x l IH]; csimpl; [done|]. intros [Hn Hnd]%NoDup_cons. rewrite filter_cons. case_decide; [|by apply IH].
  csimpl. apply NoDup_cons. split; [|by apply IH]. intros (y & Hy & [_ Hin]%list_elem_of_filter)%list_elem_of_fmap.
  apply Hn. rewrite Hy. by apply list_elem_of_fmap_2.
Qed.

Definition bump (cnt : Z -> nat) (id : Z) : Z -> nat := fun k => if decide (k = id) then S (cnt k) else cnt k.

(** What is announced after a step and was being fetched still is. *)
Definition still_fetched f f' : Prop := forall k, announced f' k -> is_Some (f_fetching f !! k) -> is_Some (f_fetching f' !! k).

Lemma fetcher_ok_mono cnt cnt' f : (forall k, (cnt k <= cnt' k)%nat) -> fetcher_ok cnt f -> fetcher_ok cnt' f.
Proof.
  intros Hle [H1 H2 H3 H4 H5]. split; try done. intros en Hin. destruct (H3 en Hin) as (Hw & Hl & Hu). splits; [done|done|].
  pose proof (Hle (en_key en)). lia.
Qed.

Lemma added_front (l l' : list (entry Z (list announceData))) en ev :
  en :: l = l' ++ rev ev -> en_weight en <= HashLimit cfg -> 0 <= en_weight en -> 1 <= HashLimit cfg < 2 ^ 32 ->
  (forall n, (length l' < n <= length (en :: l))%nat -> too_big (HashLimit cfg) (HashLimit cfg) (take n (en :: l)) = true) ->
  exists l'', l' = en :: l''.
Proof.
  intros Heq Hw Hw0 Hlim Hmax. destruct l' as [|x l'']; [|injection Heq as <- _; by exists l''].
  assert (1 <= length (en :: l))%nat by (simpl; lia).
  specialize (Hmax 1%nat ltac:(simpl; lia)). unfold too_big in Hmax. simpl in Hmax. rewrite Z.add_0_r, u64_small in Hmax by solve_width.
  apply orb_true_iff in Hmax as [Hm|Hm]; bool_to_prop; lia.
Qed.

Lemma fits_sums (l l' : list (entry Z (list announceData))) ev :
  l = l' ++ rev ev -> (forall en, en ∈ l -> 0 <= en_weight en) -> wsum en_weight l < 2 ^ 64 ->
  too_big (HashLimit cfg) (HashLimit cfg) l' = false ->
  wsum en_weight l' <= HashLimit cfg /\ Z.of_nat (length l') <= HashLimit cfg.
Proof.
  intros -> Hpos Hlt Hfit. rewrite wsum_app in Hlt.
  assert (0 <= wsum en_weight l') by (apply wsum_nonneg; intros; apply Hpos; set_solver).
  assert (0 <= wsum en_weight (rev ev)) by (apply wsum_nonneg; intros; apply Hpos; set_solver).
  unfold too_big in Hfit. rewrite u64_small in Hfit by solve_width. bool_to_prop. lia.
Qed.

Lemma announce_one_spec cnt noFetching now a f toFetch id :
  fetcher_ok cnt f -> limit_ok (bump cnt id) ->
  exists f', announce_one noFetching now a (f, toFetch) id =
      Ok (f', if noFetching then toFetch else match f_fetching f !! id with Some _ => toFetch | None => toFetch ++ [id] end) /\
    fetcher_ok (bump cnt id) f' /\ f_sent f' = f_sent f /\ f_timer f' = f_timer f /\ still_fetched f f' /\
    (forall k, announced f' k -> k = id \/ announced f k) /\ (noFetching = false -> is_Some (f_fetching f' !! id)) /\
    (forall k, is_Some (f_fetching f' !! k) -> k = id \/ is_Some (f_fetching f !! k)).
Proof.
  intros Hf [Hlim Hcnt]. unfold announce_one.
  destruct (getAnnounces_spec cnt f id Hf) as (c & -> & Hf0 & Hpk & Hperm).
  set (anns := default [] (Cache_Peek (f_announces f) id)). cbv zeta. simpl.
  pose proof Hf0 as [H1 [H2 H2'] H3 [H4 H4'] H5]. simpl in *.
  assert (length anns <= 2 * cnt id)%nat as Hlen.
  { subst anns. destruct (Cache_Peek (f_announces f) id) as [v|] eqn:Hv; simpl; [|lia].
    apply Peek_contents in Hv as (en & Hin & <- & <-); [|apply Hf]. by apply (fo_entry _ _ Hf). }
  assert (cnt id < bump cnt id id)%nat by (unfold bump; rewrite decide_True by done; lia). pose proof (Hcnt id).
  rewrite length_app. simpl. rewrite u64_small by solve_width. set (w := Z.of_nat (length anns + 1)).
  destruct (Cache_Add_spec c id ((anns ++ [a]) ++ [a]) w H1 ltac:(lia)) as (ev & c' & -> & Hwf & Hm1 & Hm2 & Hl & Hfit & Hmax).
  cbn [outcome_bind]. rewrite H2, H2' in *.
  set (new := mk_entry id ((anns ++ [a]) ++ [a]) w) in *. set (old := filter (fun x => en_key x <> id) (contents c)) in *.
  assert (forall en, en ∈ old -> en ∈ contents c) as Hold by (intros en Hin; by apply list_elem_of_filter in Hin as [_ Hin]).
  assert (wsum en_weight old <= HashLimit cfg) as Hsum.
  { etrans; [|exact H4]. apply wsum_filter_le. intros en Hin. destruct (H3 en Hin). lia. }
  destruct (added_front old (contents c') new ev Hl) as [l'' Hc']; [subst new w; simpl; lia..|lia|exact Hmax|].
  destruct (fits_sums _ _ _ Hl) as [Hs1 Hs2]; [|subst new w; simpl; lia|done|].
  { intros en [->|Hin]%elem_of_cons; [subst new w; simpl; lia|]. destruct (H3 en (Hold _ Hin)). lia. }
  assert (NoDup (en_key <$> (contents c' ++ rev ev))) as Hnd.
  { rewrite <- Hl. csimpl. apply NoDup_cons. split.
    - intros (en & Hk & [Hne _]%list_elem_of_filter)%list_elem_of_fmap. done.
    - apply (NoDup_fmap_filter). apply contents_keys_NoDup. done. }
  rewrite fmap_app in Hnd. apply NoDup_app in Hnd as (_ & Hdisj & _).
  assert (forall k, k ∈ en_key <$> contents c' -> k ∉ en_key <$> ev) as Hev.
  { intros k Hk (en & -> & Hin)%list_elem_of_fmap. apply (Hdisj _ Hk). apply list_elem_of_fmap_2. by rewrite <- Permutation_rev. }
  assert (id ∈ en_key <$> contents c') as Hid by (rewrite Hc'; left).
  rewrite (onEvict_notin ev (f_fetching f) id (Hev id Hid)).
  assert (forall m, (forall k, is_Some (m !! k) -> k = id \/ is_Some (onEvict ev (f_fetching f) !! k)) ->
    fetcher_ok (bump cnt id) (with_fetching (with_announces f c') m)) as Hok.
  { intros m Hm. split; simpl; [done|done| |done|].
    - intros en Hin. assert (en ∈ new :: old) as [->|Hin']%elem_of_cons by (rewrite Hl, elem_of_app; by left).
      + subst new w. simpl. rewrite !length_app. simpl. unfold bump. rewrite decide_True by done. lia.
      + destruct (H3 en (Hold _ Hin')) as (? & ? & ?). splits; [done|done|]. unfold bump. case_decide; lia.
    - intros k Hk. destruct (Hm k Hk) as [->|Hk2].
      + exists new. simpl. rewrite Hc'. split; [left|done].
      + apply onEvict_lookup in Hk2 as [Hk1 Hk2]. destruct (H5 k Hk1) as (en & Hin & Hen). simpl in *.
        destruct (decide (k = id)) as [->|Hne]; [exists new; simpl; rewrite Hc'; split; [left|done]|].
        assert (en ∈ contents c' ++ rev ev) as Hin'.
        { rewrite <- Hl. right. apply list_elem_of_filter. split; [congruence|done]. }
        apply elem_of_app in Hin' as [Hin'|Hin']; [by exists en|]. exfalso. apply Hk2. rewrite <- Hen.
        apply list_elem_of_fmap_2. by rewrite <- Permutation_rev in Hin'. }
  assert (forall k, announced (with_announces f c') k -> is_Some (f_fetching f !! k) -> is_Some (onEvict ev (f_fetching f) !! k)) as Hstill.
  { intros k (en & Hin & <-) Hk. apply onEvict_lookup. split; [done|]. apply Hev. by apply list_elem_of_fmap_2. }
  assert (announced (with_announces f c') id) as Hann by (exists new; simpl; rewrite Hc'; split; [left|done]).
  assert (forall k, announced (with_announces f c') k -> k = id \/ announced f k) as Honly.
  { intros k (en & Hin & <-). assert (en ∈ new :: old) as [->|Hin']%elem_of_cons by (rewrite Hl, elem_of_app; by left); [by left|right].
    exists en. split; [|done]. rewrite <- Hperm. by apply Hold. }
  assert (forall k, is_Some (onEvict ev (f_fetching f) !! k) -> k = id \/ is_Some (f_fetching f !! k)) as Hfrom.
  { intros k [? _]%onEvict_lookup. by right. }
  destruct noFetching; [|destruct (f_fetching f !! id) eqn:Hfid].
  - eexists. split; [done|]. splits; [|done|done|done|done|done|done]. apply Hok. by right.
  - eexists. split; [done|]. splits; [|done|done|done|done| |done].
    + apply Hok. by right.
    + intros _. simpl. rewrite onEvict_notin by auto. by eexists.
  - eexists. split; [done|]. simpl. splits; [|done|done| |done| |].
    + apply Hok. intros k [->|Hk]%lookup_insert_is_Some'; [by left|by right].
    + intros k Hk Hs. simpl. apply lookup_insert_is_Some'. right. by apply Hstill.
    + intros _. rewrite lookup_insert_eq. by eexists.
    + intros k [->|Hk]%lookup_insert_is_Some'; [by left|]. by apply Hfrom.
Qed.

Definition cnt_all (cnt : Z -> nat) (ids : list Z) : Z -> nat := foldl bump cnt ids.
Definition count (id : Z) (ids : list Z) : nat := length (filter (fun x => x = id) ids).

Lemma cnt_all_count cnt ids id : cnt_all cnt ids id = (cnt id + count id ids)%nat.
Proof.
  unfold cnt_all, count. revert cnt. induction ids as [|x ids IH]; intros cnt; [simpl; lia|]. cbn [foldl]. rewrite IH, filter_cons. unfold bump.
  repeat case_decide; subst; simpl; try done; lia.
Qed.

Lemma count_submseteq id l l' : l ⊆+ l' -> (count id l <= count id l')%nat.
Proof. intros [k Hk]%submseteq_Permutation. unfold count. rewrite Hk, filter_app, length_app. lia. Qed.

Lemma limit_ok_mono cnt cnt' : (forall k, (cnt k <= cnt' k)%nat) -> limit_ok cnt' -> limit_ok cnt.
Proof. intros Hle [Hl Hc]. split; [done|]. intros id. pose proof (Hle id). pose proof (Hc id). lia. Qed.

Lemma announce_all_spec noFetching now a ids : forall cnt f toFetch,
  fetcher_ok cnt f -> limit_ok (cnt_all cnt ids) ->
  exists f' toFetch', foldM (announce_one noFetching now a) (f, toFetch) ids = Ok (f', toFetch') /\
    fetcher_ok (cnt_all cnt ids) f' /\ f_sent f' = f_sent f /\ f_timer f' = f_timer f /\
    (noFetching = false -> forall id, announced f' id -> id ∈ ids \/ is_Some (f_fetching f !! id) -> is_Some (f_fetching f' !! id)) /\
    (forall k, announced f' k -> k ∈ ids \/ announced f k) /\
    toFetch `prefix_of` toFetch' /\ (forall id, id ∈ toFetch' -> id ∈ toFetch \/ id ∈ ids) /\
    (noFetching = false -> forall id, id ∈ ids -> is_Some (f_fetching f !! id) \/ id ∈ toFetch').
Proof.
  induction ids as [|id ids IH]; intros cnt f toFetch Hf Hlim; cbn [foldM].
  { exists f, toFetch. splits; try done; [| |by left|].
    - intros _ id _ [?%not_elem_of_nil|?]; done.
    - by right.
    - by intros _ id ?%not_elem_of_nil. }
  destruct (announce_one_spec cnt noFetching now a f toFetch id Hf) as (f1 & -> & Hf1 & Hs1 & Ht1 & Hst1 & Hon1 & Hfe1 & Hfr1).
  { eapply limit_ok_mono; [|exact Hlim]. intros k. cbn [cnt_all foldl]. fold (cnt_all (bump cnt id) ids). rewrite cnt_all_count. lia. }
  cbn [outcome_bind]. set (toFetch1 := if noFetching then _ else _).
  destruct (IH (bump cnt id) f1 toFetch1 Hf1 Hlim) as (f' & toFetch' & -> & Hf' & Hs' & Ht' & Hst' & Hon' & Hp' & Hin' & Hfe').
  assert (toFetch `prefix_of` toFetch1) as Hp1.
  { subst toFetch1. destruct noFetching; [done|]. case_match; [done|by apply prefix_app_r]. }
  assert (noFetching = false -> f_fetching f !! id = None -> id ∈ toFetch') as Hsent.
  { intros -> E. subst toFetch1. rewrite E in Hp'. destruct Hp' as [l ->]. set_solver. }
  exists f', toFetch'. splits; [done|done|congruence|congruence| | |by etrans| |].
  - intros Hn k Hk Hor. apply (Hst' Hn); [done|]. destruct (decide (k ∈ ids)) as [|Hnin]; [by left|right].
    destruct (Hon' k Hk) as [|Hk1]; [done|]. destruct (Hon1 k Hk1) as [->|Hk0]; [by apply Hfe1|].
    destruct Hor as [[->|Hk'']%elem_of_cons|Hk'']; [by apply Hfe1|done|by apply Hst1].
  - intros k Hk. destruct (Hon' k Hk) as [?|Hk1]; [left; by right|]. destruct (Hon1 k Hk1) as [->|?]; [left; left|by right].
  - intros k Hk'. destruct (Hin' k Hk') as [Hk|Hk]; [|right; by right]. subst toFetch1. destruct noFetching; [by left|]. case_match; [by left|].
    apply elem_of_app in Hk as [?|Hk]; [by left|]. apply list_elem_of_singleton in Hk as ->. right. left.
  - intros Hn k [->|Hk]%elem_of_cons.
    + destruct (f_fetching f !! id) eqn:E; [left; by eexists|]. right. by apply Hsent.
    + destruct (Hfe' Hn k Hk) as [Hk1|?]; [|by right]. destruct (Hfr1 k Hk1) as [->|?]; [|by left].
      destruct (f_fetching f !! id) eqn:E; [left; by eexists|]. right. by apply Hsent.
Qed.
(** ** One timer tick *)

(** What becomes of an announced item the application still wants. *)
Inductive fate := Forgotten | Refetched | Kept.

Definition fate_of (now : Z) f id : fate :=
  match Cache_Peek (f_announces f) id with
  | Some (oldest :: _) =>
      if ForgetTimeout cfg <? time_Sub now (an_time oldest) then Forgotten
      else if ArriveTimeout cfg - GatherSlack cfg <? time_Sub now (default 0 (fi_time <$> f_fetching f !! id)) then Refetched
      else Kept
  | _ => Kept
  end.

Definition same_item f f' id : Prop :=
  Cache_Peek (f_announces f') id = Cache_Peek (f_announces f) id /\ f_fetching f' !! id = f_fetching f !! id.

Definition in_request (rq : requests) (a : announceData) id : Prop := id ∈ default [] (rq_ids rq !! an_peer a).
Definition rq_ok (rq : requests) : Prop := forall peer, is_Some (rq_ids rq !! peer) -> is_Some (rq_fns rq !! peer).

Definition treated (now : Z) f f' (rq : requests) id : Prop :=
  match fate_of now f id with
  | Forgotten => Cache_Peek (f_announces f') id = None
  | Refetched => exists a, a ∈ default [] (Cache_Peek (f_announces f) id) /\
      Cache_Peek (f_announces f') id = Cache_Peek (f_announces f) id /\ f_fetching f' !! id = Some (mk_fetchingItem a now) /\ in_request rq a id
  | Kept => same_item f f' id
  end.

Lemma Peek_filter (c c' : Cache Z (list announceData)) (P : Z -> Prop) `{!forall k, Decision (P k)} :
  cache_wf c -> cache_wf c' -> contents c' = filter (fun en => P (en_key en)) (contents c) ->
  forall k, Cache_Peek c' k = if decide (P k) then Cache_Peek c k else None.
Proof.
  intros Hc Hc' Hcont k. case_decide as HP.
  - apply option_eq. intros v. rewrite !Peek_contents by done. rewrite Hcont. setoid_rewrite list_elem_of_filter. naive_solver.
  - destruct (Cache_Peek c' k) as [v|] eqn:Hv; [|done]. apply Peek_contents in Hv as (en & Hin & Hk & _); [|done].
    rewrite Hcont in Hin. apply list_elem_of_filter in Hin as [? _]. by subst.
Qed.

Lemma forgetHash_Peek cnt f id f' :
  fetcher_ok cnt f -> forgetHash f id = Ok f' ->
  Cache_Peek (f_announces f') id = None /\ forall k, k <> id -> same_item f f' k.
Proof.
  intros Hf Hr. destruct (forgetHash_spec cnt f id Hf) as (f1 & Hr1 & Hf1 & _ & _ & Hcont & Hd). rewrite Hr in Hr1. injection Hr1 as <-.
  pose proof (Peek_filter _ _ (fun k => k <> id) (fo_cache _ _ Hf) (fo_cache _ _ Hf1) Hcont) as Hp. split.
  - rewrite Hp. by rewrite decide_False by tauto.
  - intros k Hk. split; [by rewrite Hp, decide_True|]. rewrite Hd. by apply lookup_delete_ne.
Qed.

Lemma add_request_in a id rq : in_request (add_request a id rq) a id.
Proof. unfold in_request, add_request. simpl. rewrite lookup_insert_eq. simpl. set_solver. Qed.

Lemma add_request_mono a id rq b k : in_request rq b k -> in_request (add_request a id rq) b k.
Proof.
  unfold in_request, add_request. simpl. destruct (decide (an_peer a = an_peer b)) as [->|]; [|by rewrite lookup_insert_ne].
  rewrite lookup_insert_eq. simpl. set_solver.
Qed.

Lemma add_request_ok a id rq : rq_ok rq -> rq_ok (add_request a id rq).
Proof. intros H p. unfold add_request. simpl. rewrite !lookup_insert_is_Some'. intros [?|?]; [by left|right; by apply H]. Qed.

Lemma refetch_one_spec cnt now pick f rq id :
  fetcher_ok cnt f -> (forall i n, (0 < n)%nat -> (pick i n < n)%nat) -> rq_ok rq ->
  exists f' rq', refetch_one cfg now pick (f, rq) id = Ok (f', rq') /\ fetcher_ok cnt f' /\ f_sent f' = f_sent f /\ f_timer f' = f_timer f /\
    rq_ok rq' /\ (forall k, k <> id -> same_item f f' k) /\ treated now f f' rq' id /\ (forall a k, in_request rq a k -> in_request rq' a k).
Proof.
  intros Hf Hpick Hrq. unfold refetch_one, treated, fate_of. destruct (getAnnounces_spec cnt f id Hf) as (c & -> & Hf0 & Hpk & Hperm).
  assert (forall k, same_item f (with_announces f c) k) as Hsame by (intros k; split; [apply Hpk|done]).
  destruct (Cache_Peek (f_announces f) id) as [[|oldest rest]|] eqn:Hp; cbn [default from_option Datatypes.id].
  1,3: eexists _, _; split; [reflexivity|]; splits; try done; intros; apply Hsame.
  destruct (ForgetTimeout cfg <? _).
  { destruct (forgetHash_spec cnt _ id Hf0) as (f1 & Hr & Hf1 & Hs & Ht & _). destruct (forgetHash_Peek cnt _ id _ Hf0 Hr) as [Hn Ho].
    rewrite Hr. cbn [outcome_bind]. eexists _, _. split; [reflexivity|]. splits; try done. intros k Hk.
    destruct (Ho k Hk) as [H1 H2]. destruct (Hsame k) as [H3 H4]. split; congruence. }
  cbn [f_fetching with_announces]. destruct (_ <? _).
  2: { eexists _, _. split; [reflexivity|]. splits; try done; intros; apply Hsame. }
  destruct (lookup_lt_is_Some_2 (oldest :: rest) (pick id (length (oldest :: rest)))) as [a Ha]; [apply Hpick; simpl; lia|].
  rewrite (index_lookup _ _ _ Ha). cbn [outcome_bind]. eexists _, _. split; [reflexivity|]. splits; try done.
  - destruct Hf0 as [H1 H2 H3 H4 H5]. split; try done. simpl. intros k [->|Hk]%lookup_insert_is_Some'; [|by apply H5].
    apply (Peek_announced (with_announces f c)); [done|]. simpl. rewrite Hpk, Hp. by eexists.
  - by apply add_request_ok.
  - intros k Hk. destruct (Hsame k) as [H1 H2]. split; [done|]. simpl. by rewrite lookup_insert_ne.
  - exists a. splits; [by eapply list_elem_of_lookup_2|by rewrite <- Hp; apply Hpk|simpl; by rewrite lookup_insert_eq|apply add_request_in].
  - intros b k. apply add_request_mono.
Qed.

Lemma treated_same now f f1 f' rq id : same_item f f1 id -> treated now f1 f' rq id -> treated now f f' rq id.
Proof. unfold treated, fate_of, same_item. intros [-> ->]. done. Qed.

Lemma treated_later now f f1 f' rq rq' id :
  same_item f1 f' id -> (forall a k, in_request rq a k -> in_request rq' a k) -> treated now f f1 rq id -> treated now f f' rq' id.
Proof.
  unfold treated, same_item. intros [-> ->] Hrq. case_match; [done| |done]. intros (a & ? & ? & ? & ?). exists a. splits; auto.
Qed.

Lemma refetch_all_spec cnt now pick ids : forall f rq,
  fetcher_ok cnt f -> (forall i n, (0 < n)%nat -> (pick i n < n)%nat) -> rq_ok rq -> NoDup ids ->
  exists f' rq', foldM (refetch_one cfg now pick) (f, rq) ids = Ok (f', rq') /\ fetcher_ok cnt f' /\ f_sent f' = f_sent f /\
    f_timer f' = f_timer f /\ rq_ok rq' /\ (forall k, k ∉ ids -> same_item f f' k) /\ (forall id, id ∈ ids -> treated now f f' rq' id) /\
    (forall a k, in_request rq a k -> in_request rq' a k).
Proof.
  induction ids as [|id ids IH]; intros f rq Hf Hpick Hrq Hnd; cbn [foldM].
  { exists f, rq. splits; try done. by intros ? ?%not_elem_of_nil. }
  apply NoDup_cons in Hnd as [Hn Hnd].
  destruct (refetch_one_spec cnt now pick f rq id Hf Hpick Hrq) as (f1 & rq1 & -> & Hf1 & Hs1 & Ht1 & Hrq1 & Ho1 & Htr1 & Hm1). cbn [outcome_bind].
  destruct (IH f1 rq1 Hf1 Hpick Hrq1 Hnd) as (f' & rq' & -> & Hf' & Hs' & Ht' & Hrq' & Ho' & Htr' & Hm').
  exists f', rq'. splits; [done|done|congruence|congruence|done| | |auto].
  - intros k [Hk1 Hk2]%not_elem_of_cons. destruct (Ho1 k Hk1), (Ho' k Hk2). split; congruence.
  - intros k [->|Hk]%elem_of_cons.
    + by apply (treated_later _ _ f1 _ rq1); [apply Ho'| |].
    + apply (treated_same _ _ f1); [apply Ho1|by apply Htr']. intros ->. done.
Qed.

Lemma forget_arrived_all cnt notArrived ids : forall f,
  fetcher_ok cnt f ->
  exists f', foldM (forget_arrived notArrived) f ids = Ok f' /\ fetcher_ok cnt f' /\ f_sent f' = f_sent f /\ f_timer f' = f_timer f /\
    (forall k, k ∈ notArrived \/ k ∉ ids -> same_item f f' k) /\
    (forall k, Cache_Peek (f_announces f) k = None \/ (k ∈ ids /\ k ∉ notArrived) -> Cache_Peek (f_announces f') k = None).
Proof.
  induction ids as [|id ids IH]; intros f Hf; cbn [foldM].
  { exists f. splits; try done. intros k [?|[?%not_elem_of_nil _]]; done. }
  unfold forget_arrived at 1. destruct (existsb (Z.eqb id) notArrived) eqn:Hex; cbn [outcome_bind].
  - apply existsb_exists in Hex as (x & Hx & ->%Z.eqb_eq). apply list_elem_of_In in Hx.
    destruct (IH f Hf) as (f' & -> & Hf' & Hs & Ht & Hsame & Hgone). exists f'. splits; try done.
    + intros k [?|[_ ?]%not_elem_of_cons]; apply Hsame; tauto.
    + intros k [?|[[->|?]%elem_of_cons ?]]; [apply Hgone; by left|done|apply Hgone; by right].
  - assert (id ∉ notArrived) as Hid.
    { intros Hin. enough (existsb (Z.eqb id) notArrived = true) by congruence. apply existsb_exists. exists id.
      split; [by apply list_elem_of_In|apply Z.eqb_refl]. }
    destruct (forgetHash_spec cnt f id Hf) as (f1 & Hr & Hf1 & Hs1 & Ht1 & _). destruct (forgetHash_Peek cnt f id f1 Hf Hr) as [Hn1 Ho1].
    rewrite Hr. cbn [outcome_bind]. destruct (IH f1 Hf1) as (f' & -> & Hf' & Hs & Ht & Hsame & Hgone). exists f'.
    splits; [done|done|congruence|congruence| |].
    + intros k Hk. assert (k <> id) as Hne by (intros ->; rewrite elem_of_cons in Hk; tauto).
      destruct (Ho1 k Hne). rewrite elem_of_cons in Hk. destruct (Hsame k ltac:(tauto)). split; congruence.
    + intros k Hk. apply Hgone. destruct (decide (k = id)) as [->|Hne]; [by left|]. rewrite elem_of_cons in Hk.
      destruct Hk as [Hk|[[?|?] ?]]; [|done|by right]. left. destruct (Ho1 k Hne). congruence.
Qed.

Lemma Keys_announced f k : k ∈ Cache_Keys (f_announces f) <-> announced f k.
Proof. rewrite Keys_contents, <- Permutation_rev, list_elem_of_fmap. unfold announced. naive_solver. Qed.

Lemma NoDup_Keys f : cache_wf (f_announces f) -> NoDup (Cache_Keys (f_announces f)).
Proof. intros Hc. rewrite Keys_contents, <- Permutation_rev. by apply contents_keys_NoDup. Qed.

Lemma rescheduleFetch_same now range f :
  f_announces (rescheduleFetch cfg now range f) = f_announces f /\ f_fetching (rescheduleFetch cfg now range f) = f_fetching f /\
  f_sent (rescheduleFetch cfg now range f) = f_sent f.
Proof. unfold rescheduleFetch. by case_match. Qed.

Lemma rescheduleFetch_ok cnt now range f : fetcher_ok cnt f -> fetcher_ok cnt (rescheduleFetch cfg now range f) /\ armed (rescheduleFetch cfg now range f).
Proof.
  intros Hf. destruct (rescheduleFetch_same now range f) as (H1 & H2 & H3). split.
  - destruct Hf as [? ? ? ? Hfe]. split; rewrite ?H1, ?H2; try done. intros id Hid. destruct (Hfe id Hid) as (en & ? & ?). exists en. by rewrite H1.
  - unfold armed. rewrite H2. unfold rescheduleFetch. case_match eqn:Hlen; [|by eexists]. intros Hne. exfalso.
    apply Z.eqb_eq in Hlen. rewrite (Len_contents _ (fo_cache _ _ Hf)) in Hlen.
    destruct (map_choose _ Hne) as (k & i & Hk). destruct (fo_fetching _ _ Hf k) as (en & Hin & _); [by eexists|].
    destruct (contents (f_announces f)); [by apply not_elem_of_nil in Hin|simpl in Hlen; lia].
Qed.

Lemma requests_sent_in rq a id : rq_ok rq -> in_request rq a id -> exists fn ids, (fn, ids) ∈ requests_sent rq /\ id ∈ ids.
Proof.
  intros Hok Hin. unfold in_request in Hin. destruct (rq_ids rq !! an_peer a) as [ids|] eqn:Hp; [|by apply not_elem_of_nil in Hin].
  destruct (Hok (an_peer a)) as [fn Hfn]; [by eexists|]. exists fn, ids. split; [|done]. unfold requests_sent. apply list_elem_of_omap.
  exists (an_peer a, ids). split; [by apply elem_of_map_to_list|]. simpl. by rewrite Hfn.
Qed.

(** A law of the callback: it only leaves items out. *)
Definition filters (interested : list Z -> list Z) : Prop := forall l, interested l ⊆+ l.

Lemma onTimer_spec cnt interested now pick range f :
  fetcher_ok cnt f -> filters interested -> (forall i n, (0 < n)%nat -> (pick i n < n)%nat) ->
  exists f' sent, onTimer cfg interested now pick range f = Ok f' /\ fetcher_ok cnt f' /\ armed f' /\ f_sent f' = f_sent f ++ sent /\
    forall id, announced f id ->
      (id ∉ interested (Cache_Keys (f_announces f)) -> ~ announced f' id) /\
      (id ∈ interested (Cache_Keys (f_announces f)) ->
        match fate_of now f id with
        | Forgotten => ~ announced f' id
        | Refetched => exists a fn ids, a ∈ default [] (Cache_Peek (f_announces f) id) /\ f_fetching f' !! id = Some (mk_fetchingItem a now) /\
            (fn, ids) ∈ sent /\ id ∈ ids
        | Kept => same_item f f' id
        end).
Proof.
  intros Hf Hint Hpick. unfold onTimer. set (notArrived := interested (Cache_Keys (f_announces f))).
  assert (NoDup notArrived) as Hnd.
  { pose proof (Hint (Cache_Keys (f_announces f))) as [l Hl]%submseteq_Permutation. pose proof (NoDup_Keys f (fo_cache _ _ Hf)) as Hk.
    rewrite Hl in Hk. by apply NoDup_app in Hk as [? _]. }
  destruct (refetch_all_spec cnt now pick notArrived f (mk_requests ∅ ∅) Hf Hpick) as (f1 & rq & -> & Hf1 & Hs1 & Ht1 & Hrq & Ho1 & Htr & _).
  { intros p [? Hp]. simpl in Hp. by rewrite lookup_empty in Hp. }
  { done. }
  cbn [outcome_bind].
  destruct (forget_arrived_all cnt notArrived (Cache_Keys (f_announces f)) f1 Hf1) as (f2 & -> & Hf2 & Hs2 & Ht2 & Hsame & Hgone). cbn [outcome_bind].
  assert (fetcher_ok cnt (with_sent f2 (requests_sent rq))) as Hf3 by (destruct Hf2; by split).
  destruct (rescheduleFetch_ok cnt now range _ Hf3) as [Hf' Harm]. destruct (rescheduleFetch_same now range (with_sent f2 (requests_sent rq))) as (E1 & E2 & E3).
  set (f' := rescheduleFetch cfg now range (with_sent f2 (requests_sent rq))) in *. exists f', (requests_sent rq).
  splits; [done|done|done|rewrite E3; simpl; congruence|].
  assert (forall k, announced f' k <-> is_Some (Cache_Peek (f_announces f2) k)) as Han.
  { intros k. rewrite (Peek_announced f') by apply Hf'. by rewrite E1. }
  intros id Hid. split.
  - intros Hn [v Hv]%Han. rewrite Hgone in Hv; [done|]. right. split; [by apply Keys_announced|done].
  - intros Hin. pose proof (Htr id Hin) as Ht. unfold treated in Ht. destruct (Hsame id) as [Hsa Hsb]; [by left|].
    destruct (fate_of now f id).
    + rewrite Han, Hsa, Ht. by intros [? ?].
    + destruct Ht as (a & Ha & _ & Hfe & Hreq). destruct (requests_sent_in rq a id Hrq Hreq) as (fn & ids & ? & ?).
      exists a, fn, ids. splits; [done| |done|done]. rewrite E2. simpl. by rewrite Hsb.
    + destruct Ht as [H1 H2]. split; rewrite ?E1, ?E2; simpl; congruence.
Qed.

(** ** Runs *)

Lemma fetching_empty f f' : f_fetching f' ⊆ f_fetching f -> f_fetching f' <> ∅ -> f_fetching f <> ∅.
Proof. intros Hs Hne He. apply Hne. rewrite He in Hs. apply map_empty. intros i.
  destruct (f_fetching f' !! i) as [x|] eqn:E; [|done]. pose proof (lookup_weaken _ _ _ _ E Hs) as Hx. by rewrite lookup_empty in Hx.
Qed.

Lemma processNotification_spec cnt interested suspended now range a ids f :
  fetcher_ok cnt f -> armed f -> filters interested -> limit_ok (cnt_all cnt ids) ->
  exists f' toFetch, processNotification cfg interested suspended now range a ids f = Ok f' /\ fetcher_ok (cnt_all cnt ids) f' /\ armed f' /\
    f_sent f' = f_sent f ++ (if (length toFetch =? 0)%nat then [] else [(an_fetchItems a, toFetch)]) /\
    (forall k, k ∈ toFetch -> k ∈ interested ids) /\
    (suspended = false -> forall k, k ∈ interested ids -> (is_Some (f_fetching f !! k) \/ k ∈ toFetch) /\
      (announced f' k -> is_Some (f_fetching f' !! k))).
Proof.
  intros Hf Harm Hint Hlim. unfold processNotification.
  assert (forall k, (cnt_all cnt (interested ids) k <= cnt_all cnt ids k)%nat) as Hle.
  { intros k. rewrite !cnt_all_count. pose proof (count_submseteq k _ _ (Hint ids)). lia. }
  destruct (length (interested ids) =? 0)%nat eqn:Hempty.
  { apply Nat.eqb_eq, nil_length_inv in Hempty. exists f, []. rewrite app_nil_r. splits; [done| |done|done|..].
    - eapply fetcher_ok_mono; [|exact Hf]. intros k. rewrite cnt_all_count. lia.
    - by intros k ?%not_elem_of_nil.
    - intros _ k Hk. rewrite Hempty in Hk. by apply not_elem_of_nil in Hk. }
  destruct (announce_all_spec suspended now a (interested ids) cnt f [] Hf) as (f1 & toFetch & -> & Hf1 & Hs1 & Ht1 & Hfe & _ & _ & Hin & Hto).
  { by eapply limit_ok_mono. }
  cbn [outcome_bind]. set (f2 := if (length toFetch =? 0)%nat then f1 else _).
  assert (f_announces f2 = f_announces f1 /\ f_fetching f2 = f_fetching f1 /\ f_timer f2 = f_timer f1 /\
    f_sent f2 = f_sent f ++ (if (length toFetch =? 0)%nat then [] else [(an_fetchItems a, toFetch)])) as (E1 & E2 & E3 & E4).
  { subst f2. rewrite <- Hs1. case_match; simpl; by rewrite ?app_nil_r. }
  assert (fetcher_ok (cnt_all cnt ids) f2) as Hf2.
  { eapply fetcher_ok_mono; [exact Hle|]. destruct Hf1 as [? ? ? ? H5]. split; rewrite ?E1, ?E2; try done. intros k Hk.
    destruct (H5 k Hk) as (en & ? & ?). exists en. by rewrite E1. }
  assert (forall f', f_announces f' = f_announces f2 -> f_fetching f' = f_fetching f2 -> suspended = false -> forall k, k ∈ interested ids ->
    (is_Some (f_fetching f !! k) \/ k ∈ toFetch) /\ (announced f' k -> is_Some (f_fetching f' !! k))) as Hlast.
  { intros f' E5 E6 Hn k Hk. split; [by apply Hto|]. intros (en & Hen & Hkey). rewrite E6, E2. apply (Hfe Hn); [|by left].
    exists en. by rewrite <- E1, <- E5. }
  assert (forall k, k ∈ toFetch -> k ∈ interested ids) as Hin'.
  { intros k Hk. destruct (Hin k Hk) as [?%not_elem_of_nil|?]; done. }
  destruct (_ && _) eqn:Hfirst.
  - destruct (rescheduleFetch_ok _ now range _ Hf2) as [? ?]. destruct (rescheduleFetch_same now range f2) as (F1 & F2 & F3).
    eexists _, toFetch. splits; [done|done|done|congruence|done|by apply Hlast].
  - eexists _, toFetch. splits; [done|done| |done|done|by apply Hlast]. intros Hne. rewrite E3, Ht1. apply Harm.
    apply andb_false_iff in Hfirst as [Hz|Hz].
    + apply Nat.eqb_neq in Hz. intros He. apply Hz. by rewrite He, map_size_empty.
    + exfalso. apply negb_false_iff, Nat.eqb_eq, map_size_empty_inv in Hz. done.
Qed.

Definition announcements (id : Z) (ops : list fetcher_op) : nat :=
  sum_list ((fun op => match op with OpNotify _ _ _ _ _ ids => count id ids | _ => 0%nat end) <$> ops).

Definition op_laws (op : fetcher_op) : Prop :=
  match op with
  | OpNotify interested _ _ _ _ _ => filters interested
  | OpReceived _ => True
  | OpTimer interested _ pick _ => filters interested /\ forall i n, (0 < n)%nat -> (pick i n < n)%nat
  end.

Lemma fetcher_do_ok cnt f op :
  fetcher_ok cnt f -> armed f -> op_laws op -> limit_ok (fun id => cnt id + announcements id [op])%nat ->
  exists f', fetcher_do cfg f op = Ok f' /\ fetcher_ok (fun id => cnt id + announcements id [op])%nat f' /\ armed f'.
Proof.
  intros Hf Harm Hop Hlim.
  assert (fetcher_ok (fun id => cnt id + announcements id [op])%nat f) as Hf' by (eapply fetcher_ok_mono; [|exact Hf]; simpl; lia).
  destruct op as [interested suspended now range a ids|ids|interested now pick range]; cbn [fetcher_do].
  - destruct (processNotification_spec cnt interested suspended now range a ids f Hf Harm Hop) as (f' & _ & -> & Hok & ? & _).
    { eapply limit_ok_mono; [|exact Hlim]. intros k. rewrite cnt_all_count. unfold announcements. simpl. lia. }
    exists f'. splits; try done. eapply fetcher_ok_mono; [|exact Hok]. intros k. rewrite cnt_all_count. unfold announcements. simpl. lia.
  - destruct (forget_all_ok _ ids f Hf') as (f' & -> & Hok & Ht & Hsub). exists f'. splits; try done. intros Hne. rewrite Ht. apply Harm.
    by eapply fetching_empty.
  - destruct (f_timer f) as [t|] eqn:Ht; [|by exists f]. case_match; [|by exists f].
    assert (fetcher_ok (fun id => cnt id + announcements id [OpTimer interested now pick range])%nat (with_timer f None)) as Hf0 by (destruct Hf'; by split).
    destruct Hop as [Hint Hpick]. destruct (onTimer_spec _ interested now pick range _ Hf0 Hint Hpick) as (f' & _ & -> & ? & ? & _). by exists f'.
Qed.

Lemma fetcher_run_ok now ops :
  Forall op_laws ops -> limit_ok (fun id => announcements id ops) ->
  exists f, fetcher_run cfg now ops = Ok f /\ fetcher_ok (fun id => announcements id ops) f /\ armed f.
Proof.
  intros Hops Hlim. unfold fetcher_run, Fetcher_New, Cache_New. rewrite !(proj2 (Z.ltb_ge _ _)) by (apply Hlim). cbn [outcome_bind].
  assert (forall cnt f, fetcher_ok cnt f -> armed f -> limit_ok (fun id => cnt id + announcements id ops)%nat ->
    exists f', foldM (fetcher_do cfg) f ops = Ok f' /\ fetcher_ok (fun id => cnt id + announcements id ops)%nat f' /\ armed f') as Hgen.
  { clear Hlim. induction ops as [|op ops IH]; intros cnt f Hf Harm Hlim; cbn [foldM].
    { exists f. splits; try done. eapply fetcher_ok_mono; [|exact Hf]. lia. }
    apply Forall_cons in Hops as [Hop Hops].
    assert (forall k, announcements k (op :: ops) = announcements k [op] + announcements k ops)%nat as Hsum.
    { intros k. unfold announcements. csimpl. lia. }
    destruct (fetcher_do_ok cnt f op Hf Harm Hop) as (f1 & -> & Hf1 & Harm1).
    { eapply limit_ok_mono; [|exact Hlim]. intros k. cbn beta. rewrite (Hsum k). lia. }
    cbn [outcome_bind]. destruct (IH Hops _ f1 Hf1 Harm1) as (f' & -> & Hf' & ?).
    { eapply limit_ok_mono; [|exact Hlim]. intros k. cbn beta. rewrite (Hsum k). lia. }
    exists f'. splits; try done. eapply fetcher_ok_mono; [|exact Hf']. intros k. cbn beta. rewrite (Hsum k). lia. }
  destruct (Hgen (fun _ => 0%nat) (mk_Fetcher (mk_Cache (HashLimit cfg) 0 (HashLimit cfg) [] ∅ ∅) ∅ [] (Some now))) as (f & Hrun & Hf & Harm); try done.
  { destruct Hlim as [[? ?] _]. split; simpl; try done; [by apply empty_cache_wf|by intros ? ?%not_elem_of_nil|].
    intros k [? Hk]. simpl in Hk. by rewrite lookup_empty in Hk. }
  { by eexists. }
  by exists f.
Qed.

End invariant.

(** ** Properties *)


(** When the timer fires, an announced item that the application does not
    want any more is forgotten, and so is one whose oldest announcement is
    older than [ForgetTimeout]; one that was asked for longer than
    [ArriveTimeout] - [GatherSlack] ago is asked for again, from one of the
    peers that announced it; and the others are left alone. *)
Theorem tick_refetches (cfg : FetcherConfig) (start now : Z) (ops : list fetcher_op) (interested : list Z -> list Z)
    (pick : Z -> nat -> nat) (range : gmap Z fetchingItem -> list fetchingItem) (f : Fetcher) :
  Forall op_laws ops -> 0 <= HashLimit cfg < 2 ^ 32 -> (forall id, 2 * Z.of_nat (announcements id ops) <= HashLimit cfg) ->
  fetcher_run cfg start ops = Ok f -> filters interested -> (forall i n, (0 < n)%nat -> (pick i n < n)%nat) ->
  exists f' sent, onTimer cfg interested now pick range f = Ok f' /\ f_sent f' = f_sent f ++ sent /\
    forall id, announced f id ->
      (id ∉ interested (Cache_Keys (f_announces f)) -> ~ announced f' id) /\
      (id ∈ interested (Cache_Keys (f_announces f)) ->
        match fate_of cfg now f id with
        | Forgotten => ~ announced f' id
        | Refetched => exists a fn ids, a ∈ default [] (Cache_Peek (f_announces f) id) /\ f_fetching f' !! id = Some (mk_fetchingItem a now) /\
            (fn, ids) ∈ sent /\ id ∈ ids
        | Kept => same_item f f' id
        end).
Proof.
  intros Hops Hl Hcnt Hrun Hint Hpick. destruct (fetcher_run_ok cfg start ops Hops) as (f0 & Hrun0 & Hf & _); [by split|]. rewrite Hrun in Hrun0.
  injection Hrun0 as <-. destruct (onTimer_spec cfg _ interested now pick range f Hf Hint Hpick) as (f' & sent & ? & _ & _ & ? & ?). by exists f', sent.
Qed.

(** ** A concrete fetcher *)

Definition sample_fcfg (limit : Z) : FetcherConfig := mk_FetcherConfig 1000 100 10 limit 2 1 1.
Definition all_of (l : list Z) : list Z := l.
Definition first_pick (_ : Z) (_ : nat) : nat := 0%nat.
Definition by_key (m : gmap Z fetchingItem) : list fetchingItem := (map_to_list m).*2.
Definition ann (t : Z) (peer : string) (fn : nat) : announceData := mk_announceData t peer fn.

(** Two peers announce; item 8 arrives; after a timeout item 7 is asked for
    again; in the end it is forgotten. *)
Definition sample_fetch_ops : list fetcher_op :=
  [OpTimer all_of 5 first_pick by_key; OpNotify all_of false 10 by_key (ann 10 "p" 1) [7; 8]; OpNotify all_of false 20 by_key (ann 20 "q" 2) [7; 9];
   OpReceived [8]; OpTimer all_of 115 first_pick by_key].

Definition sample_fetch (limit : Z) (ops : list fetcher_op) : outcome (list (nat * list Z) * list Z * list Z * option Z) :=
  let* f := fetcher_run (sample_fcfg limit) 0 ops in
  Ok (f_sent f, elements (dom (f_fetching f)), Cache_Keys (f_announces f), f_timer f).

Example sample_fetch_run :
  sample_fetch 8 sample_fetch_ops = Ok ([(1%nat, [7; 8]); (2%nat, [9]); (2%nat, [9]); (1%nat, [7])], [7; 9], [7; 9], Some 215).
Proof. vm_compute. reflexivity. Qed.

(** Announced while suspended, with nothing being fetched: no timer is set. *)
Example suspended_unarmed :
  sample_fetch 8 [OpTimer all_of 5 first_pick by_key; OpNotify all_of true 10 by_key (ann 10 "p" 1) [7]] = Ok ([], [], [7], None).
Proof. vm_compute. reflexivity. Qed.

Lemma all_of_filters : filters all_of.
Proof. intros l. done. Qed.

Lemma first_pick_lt : forall (i : Z) n, (0 < n)%nat -> (first_pick i n < n)%nat.
Proof. intros i n. done. Qed.

Lemma sample_fetch_laws : Forall op_laws sample_fetch_ops.
Proof. repeat constructor; try apply all_of_filters; by apply first_pick_lt. Qed.

Lemma sample_fetch_count id : 2 * Z.of_nat (announcements id sample_fetch_ops) <= HashLimit (sample_fcfg 8).
Proof.
  unfold announcements, count. csimpl. rewrite !filter_cons, !filter_nil. repeat case_decide; subst; simpl; lia.
Qed.


Lemma tick_refetches_witness :
  match fetcher_run (sample_fcfg 8) 0 sample_fetch_ops with
  | Ok f => exists f' sent, onTimer (sample_fcfg 8) all_of 1050 first_pick by_key f = Ok f' /\ f_sent f' = f_sent f ++ sent /\
      (announced f 7 -> 7 ∈ all_of (Cache_Keys (f_announces f)) ->
        match fate_of (sample_fcfg 8) 1050 f 7 with
        | Forgotten => ~ announced f' 7
        | Refetched => exists a fn ids, a ∈ default [] (Cache_Peek (f_announces f) 7) /\ f_fetching f' !! 7 = Some (mk_fetchingItem a 1050) /\
            (fn, ids) ∈ sent /\ 7 ∈ ids
        | Kept => same_item f f' 7
        end)
  | _ => False
  end.
Proof.
  destruct (fetcher_run (sample_fcfg 8) 0 sample_fetch_ops) as [f|e|e] eqn:E.
  - destruct (tick_refetches (sample_fcfg 8) 0 1050 sample_fetch_ops all_of first_pick by_key f) as (f' & sent & H1 & H2 & H3);
      [apply sample_fetch_laws|split; [discriminate|reflexivity]|apply sample_fetch_count|exact E|apply all_of_filters|apply first_pick_lt|].
    exists f', sent. split; [exact H1|]. split; [exact H2|]. intros Ha Hin. exact (proj2 (H3 7 Ha) Hin).
  - vm_compute in E. discriminate.
  - vm_compute in E. discriminate.
Defined.
