(* ===== verification/Seeder.v ===== *)
(** * gossip/basestream: serving streams of items to the peers

    types.go and basestreamseeder/.  A peer asks for the items between two
    locators in chunks; the seeder keeps a session per request stream, reads the
    chunks from the application, and hands them to one of its sender threads.
    The reader goroutine handles one message at a time; while too many bytes
    are pending it waits for the senders, and handles the peers that leave.
    What happens during its waits is an input of the step.

    Locators are a class with the laws of a total order with successors; the
    application's iteration [ForEachItem] is an argument, whose law says that
    it visits the stored items from a locator on, in order, until a callback
    tells it to stop. *)

From S2P Require Import Prelude.

#[local] Open Scope go_scope.

Definition ErrSelectorMismatch : string := "session selector mismatch".
Definition ErrTooManyChunks : string := "too many request chunks".
Definition ErrTooManySessions : string := "too many global sessions".

(** ** Locators, requests and responses *)

Class Locator (L : Type) := { loc_Compare : L -> L -> Z; loc_Inc : L -> L }.

Class LocatorLaws (L : Type) `{Locator L} : Prop := {
  loc_eq (a b : L) : loc_Compare a b = 0 <-> a = b;
  loc_anti (a b : L) : loc_Compare a b < 0 <-> 0 < loc_Compare b a;
  loc_trans (a b c : L) : loc_Compare a b < 0 -> loc_Compare b c < 0 -> loc_Compare a c < 0;
  loc_inc (a b : L) : loc_Compare a (loc_Inc b) < 0 <-> loc_Compare a b <= 0
}.

Record Session (L : Type) := mk_Session { ss_ID : Z; ss_Start : L; ss_Stop : L }.
Arguments mk_Session {L}.
Arguments ss_ID {L}.
Arguments ss_Start {L}.
Arguments ss_Stop {L}.

Record Request (L : Type) := mk_Request {
  rq_Session : Session L; rq_Type : Z; rq_MaxPayloadNum : Z; rq_MaxPayloadSize : Z; rq_MaxChunks : Z
}.
Arguments mk_Request {L}.
Arguments rq_Session {L}.
Arguments rq_Type {L}.
Arguments rq_MaxPayloadNum {L}.
Arguments rq_MaxPayloadSize {L}.
Arguments rq_MaxChunks {L}.

Record Response (I : Type) := mk_Response { rs_SessionID : Z; rs_Done : bool; rs_Payload : list I }.
Arguments mk_Response {I}.
Arguments rs_SessionID {I}.
Arguments rs_Done {I}.
Arguments rs_Payload {I}.

Record SeederConfig := mk_SeederConfig {
  SenderThreads : Z; MaxPendingResponsesSize : Z; MaxResponsePayloadNum : Z; MaxResponsePayloadSize : Z; MaxResponseChunks : Z;
  MaxGlobalSessions : Z
}.

Definition maxGlobalSessions (c : SeederConfig) : Z := if MaxGlobalSessions c <=? 0 then 1000 else MaxGlobalSessions c.

Section seeder.
Context {L I : Type} `{Locator L} (key : I -> L).
(** The payload's [Len], [TotalSize] and [TotalMemSize]. *)
Context (Len TotalSize TotalMemSize : list I -> Z).
Context (ForEachItem : forall S : Type, L -> Z -> (S -> L -> bool * S) -> (S -> list I -> bool * S) -> S -> list I * S).
Context (cfg : SeederConfig).

(** ** The state *)

(** [se_sendChunk] is the handle of the peer's function. *)
Record sessionState := mk_sessionState {
  se_origSelector : L; se_next : L; se_stop : L; se_done : bool; se_senderI : nat; se_sendChunk : nat
}.

Record task := mk_task { tk_sendChunk : nat; tk_resp : Response I; tk_memSize : Z }.

(** What the reader goroutine did: the trace of the sessions it created and of
    the responses it handed to a sender. *)
Inductive reader_event :=
| Opened (id : Z) (peer : string)
| Chunk (id : Z) (peer : string) (resp : Response I).

(** [sd_sent] are the calls of [sendChunk], [sd_bad] those of [Misbehaviour]. *)
Record BaseSeeder := mk_BaseSeeder {
  sd_peerSessions : gmap string (list Z);
  sd_sessions : gmap (Z * string) sessionState;
  sd_senders : list (list task);
  sd_pending : Z;
  sd_counter : Z;
  sd_sent : list (nat * Response I);
  sd_bad : list (string * string);
  sd_trace : list reader_event
}.

Definition Seeder_New : BaseSeeder := mk_BaseSeeder ∅ ∅ (replicate (Z.to_nat (SenderThreads cfg)) []) 0 0 [] [] [].

Definition with_sessions (s : BaseSeeder) (ps : gmap string (list Z)) (ss : gmap (Z * string) sessionState) : BaseSeeder :=
  mk_BaseSeeder ps ss (sd_senders s) (sd_pending s) (sd_counter s) (sd_sent s) (sd_bad s) (sd_trace s).

Definition misbehaviour (s : BaseSeeder) (peer err : string) : BaseSeeder :=
  mk_BaseSeeder (sd_peerSessions s) (sd_sessions s) (sd_senders s) (sd_pending s) (sd_counter s) (sd_sent s)
    (sd_bad s ++ [(peer, err)]) (sd_trace s).

Definition handleUnregister (peerID : string) (s : BaseSeeder) : BaseSeeder :=
  with_sessions s (delete peerID (sd_peerSessions s))
    (foldl (fun m sid => delete (sid, peerID) m) (sd_sessions s) (default [] (sd_peerSessions s !! peerID))).

(** A sender thread runs its first task. *)
Definition sender_step (i : nat) (s : BaseSeeder) : BaseSeeder :=
  match sd_senders s !! i with
  | Some (tk :: tasks) =>
      mk_BaseSeeder (sd_peerSessions s) (sd_sessions s) (<[i := tasks]> (sd_senders s)) (sd_pending s - tk_memSize tk) (sd_counter s)
        (sd_sent s ++ [(tk_sendChunk tk, tk_resp tk)]) (sd_bad s) (sd_trace s)
  | _ => s
  end.

(** What happens while the reader waits. *)
Inductive wake := WakeSent (i : nat) | WakeUnregistered (peerID : string).

Definition wake_do (s : BaseSeeder) (w : wake) : BaseSeeder :=
  match w with WakeSent i => sender_step i s | WakeUnregistered peerID => handleUnregister peerID s end.

(** [None]: still waiting when the schedule ends. *)
Fixpoint waitPendingResponsesBelowLimit (sched : list wake) (s : BaseSeeder) : option (list wake * BaseSeeder) :=
  if MaxPendingResponsesSize cfg <=? sd_pending s then
    match sched with
    | [] => None
    | w :: sched => waitPendingResponsesBelowLimit sched (wake_do s w)
    end
  else Some (sched, s).

(** ** A request *)

(** The two closures share [lastKey] and [allConsumed]. *)
Definition onKey (stop : L) (st : L * bool) (k : L) : bool * (L * bool) :=
  if 0 <=? loc_Compare k stop then (false, st) else (true, (k, st.2)).

Definition onAppended (rq : Request L) (st : L * bool) (items : list I) : bool * (L * bool) :=
  if (rq_MaxPayloadNum rq <=? u32 (Len items)) || (rq_MaxPayloadSize rq <=? TotalSize items) then (false, (st.1, false)) else (true, st).

(** One turn of the loop over the chunks: the response and the session after it. *)
Definition next_chunk (rq : Request L) (ses : sessionState) : Response I * sessionState :=
  let '(payload, (lastKey, allConsumed)) := ForEachItem _ (se_next ses) (rq_Type rq) (onKey (se_stop ses)) (onAppended rq) (se_next ses, true) in
  (mk_Response (ss_ID (rq_Session rq)) allConsumed payload,
   mk_sessionState (se_origSelector ses) (loc_Inc lastKey) (se_stop ses) allConsumed (se_senderI ses) (se_sendChunk ses)).

Definition enqueue_response (peer : string) (resp : Response I) (ses : sessionState) (s : BaseSeeder) : outcome BaseSeeder :=
  let memSize := TotalMemSize (rs_Payload resp) in
  let* tasks := index (sd_senders s) (se_senderI ses) in
  Ok (mk_BaseSeeder (sd_peerSessions s) (sd_sessions s) (<[se_senderI ses := tasks ++ [mk_task (se_sendChunk ses) resp memSize]]> (sd_senders s))
       (sd_pending s + memSize) (sd_counter s) (sd_sent s) (sd_bad s) (sd_trace s ++ [Chunk (rs_SessionID resp) peer resp])).

Fixpoint chunk_loop (n : nat) (peer : string) (rq : Request L) (ses : sessionState) (sched : list wake) (s : BaseSeeder) :
    outcome BaseSeeder :=
  match n with
  | O => Ok s
  | S n =>
      if se_done ses then Ok s
      else
        let '(resp, ses) := next_chunk rq ses in
        let s := with_sessions s (sd_peerSessions s) (<[(ss_ID (rq_Session rq), peer) := ses]> (sd_sessions s)) in
        match waitPendingResponsesBelowLimit sched s with
        | None => Err "waiting"
        | Some (sched, s) =>
            let* s := enqueue_response peer resp ses s in
            chunk_loop n peer rq ses sched s
        end
  end.

(** The session of a request: found, or new below the global cap. *)
Definition open_session (peer : string) (sendChunk : nat) (rq : Request L) (pruned : list Z) (s : BaseSeeder) : outcome (option sessionState * BaseSeeder) :=
  let k := (ss_ID (rq_Session rq), peer) in
  match sd_sessions s !! k with
  | Some ses => Ok (Some ses, s)
  | None =>
      if maxGlobalSessions cfg <=? Z.of_nat (size (sd_sessions s)) then Ok (None, misbehaviour s peer ErrTooManySessions)
      else if u32 (SenderThreads cfg) =? 0 then Panic "integer divide by zero"
      else
        let ses := mk_sessionState (ss_Start (rq_Session rq)) (ss_Start (rq_Session rq)) (ss_Stop (rq_Session rq)) false
                     (Z.to_nat (sd_counter s mod u32 (SenderThreads cfg))) sendChunk in
        Ok (Some ses, mk_BaseSeeder (<[peer := pruned ++ [ss_ID (rq_Session rq)]]> (sd_peerSessions s)) (sd_sessions s) (sd_senders s)
             (sd_pending s) (u32 (sd_counter s + 1)) (sd_sent s) (sd_bad s) (sd_trace s ++ [Opened (ss_ID (rq_Session rq)) peer]))
  end.

(** The oldest of three sessions of the peer goes, whatever the request is for. *)
Definition prune_oldest (peer : string) (s : BaseSeeder) : list Z * BaseSeeder :=
  match default [] (sd_peerSessions s !! peer) with
  | oldest :: (_ :: _ :: _) as ids => (tail ids, with_sessions s (sd_peerSessions s) (delete (oldest, peer) (sd_sessions s)))
  | ids => (ids, s)
  end.

Definition handle_request (peer : string) (sendChunk : nat) (rq : Request L) (sched : list wake) (s : BaseSeeder) : outcome BaseSeeder :=
  match waitPendingResponsesBelowLimit sched s with
  | None => Err "waiting"
  | Some (sched, s) =>
      let '(pruned, s) := prune_oldest peer s in
      let* ' (ses, s) := open_session peer sendChunk rq pruned s in
      match ses with
      | None => Ok s
      | Some ses =>
          if loc_Compare (se_origSelector ses) (ss_Start (rq_Session rq)) =? 0 then
            chunk_loop (Z.to_nat (rq_MaxChunks rq)) peer rq ses sched s
          else Ok (misbehaviour s peer ErrSelectorMismatch)
      end
  end.

(** The error is the peer's. *)
Definition NotifyRequestReceived (rq : Request L) : Request L + string :=
  if MaxResponseChunks cfg <? rq_MaxChunks rq then inr ErrTooManyChunks
  else inl (mk_Request (rq_Session rq) (rq_Type rq)
    (if MaxResponsePayloadNum cfg <? rq_MaxPayloadNum rq then MaxResponsePayloadNum cfg else rq_MaxPayloadNum rq)
    (if MaxResponsePayloadSize cfg <? rq_MaxPayloadSize rq then MaxResponsePayloadSize cfg else rq_MaxPayloadSize rq) (rq_MaxChunks rq)).

(** ** Runs *)

Inductive seeder_op :=
| OpRequest (peer : string) (sendChunk : nat) (rq : Request L) (sched : list wake)
| OpUnregister (peerID : string)
| OpSent (i : nat).

Definition seeder_do (s : BaseSeeder) (op : seeder_op) : outcome BaseSeeder :=
  match op with
  | OpRequest peer sendChunk rq sched =>
      match NotifyRequestReceived rq with
      | inl rq => handle_request peer sendChunk rq sched s
      | inr _ => Ok s
      end
  | OpUnregister peerID => Ok (handleUnregister peerID s)
  | OpSent i => Ok (sender_step i s)
  end.

Definition seeder_run (ops : list seeder_op) : outcome BaseSeeder := foldM seeder_do Seeder_New ops.

End seeder.

(** ** The application's items *)

Section streams.
Context {L I : Type} `{LocatorLaws L} (key : I -> L) (Len TotalSize TotalMemSize : list I -> Z).
Context (ForEachItem : forall S : Type, L -> Z -> (S -> L -> bool * S) -> (S -> list I -> bool * S) -> S -> list I * S).
Context (cfg : SeederConfig).

(** Visiting a list of items under the control of the two callbacks. *)
Fixpoint each_item {S} (on_key : S -> L -> bool * S) (on_appended : S -> list I -> bool * S) (items res : list I) (s : S) : list I * S :=
  match items with
  | [] => (res, s)
  | it :: items =>
      let '(go, s) := on_key s (key it) in
      if go then
        let '(go, s) := on_appended s (res ++ [it]) in
        if go then each_item on_key on_appended items (res ++ [it]) s else (res ++ [it], s)
      else (res, s)
  end.

Definition before (a b : L) : Prop := loc_Compare a b < 0.
#[local] Instance before_dec a b : Decision (before a b) := decide (loc_Compare a b < 0).

(** What the seeder relies on: [ForEachItem] visits the stored items of the
    type, in ascending order, from the start on. *)
Definition iterates (ty : Z) (store : list I) : Prop :=
  StronglySorted (fun a b => before (key a) (key b)) store /\
  forall S start (on_key : S -> L -> bool * S) on_appended s,
    ForEachItem S start ty on_key on_appended s = each_item on_key on_appended (filter (fun it => ~ before (key it) start) store) [] s.

Context (ty : Z) (store : list I) (Hstore : iterates ty store).

(** The stored items from [o] on, up to [n] and [stop]. *)
Definition range (o n stop : L) : list I := filter (fun it => ~ before (key it) o /\ before (key it) n /\ before (key it) stop) store.
Definition whole (o stop : L) : list I := filter (fun it => ~ before (key it) o /\ before (key it) stop) store.

Lemma before_irrefl a : ~ before a a.
Proof. unfold before. rewrite (proj2 (loc_eq a a)) by done. lia. Qed.

Lemma not_before a b : ~ before a b <-> loc_Compare b a <= 0.
Proof. unfold before. pose proof (loc_anti a b) as H1. pose proof (loc_anti b a) as H2. pose proof (loc_eq a b) as H3. pose proof (loc_eq b a) as H4.
  split; intros Hn; [|destruct (decide (loc_Compare a b < 0)) as [Hlt|]; [|done]; apply H1 in Hlt; lia].
  destruct (decide (0 < loc_Compare b a)) as [Hlt|]; [apply H1 in Hlt; done|lia].
Qed.

Lemma before_not a b c : before a b -> ~ before c b -> before a c.
Proof.
  intros Hab Hcb. apply not_before in Hcb. destruct (decide (loc_Compare b c = 0)) as [->%loc_eq|Hne]; [done|].
  apply (loc_trans a b c); [done|lia].
Qed.

Lemma before_trans a b c : before a b -> before b c -> before a c.
Proof. apply loc_trans. Qed.

Lemma not_before_trans a b c : ~ before b a -> ~ before c b -> ~ before c a.
Proof. intros H1 H2 H3. apply H2. by apply (before_not c a b). Qed.

Lemma before_inc a b : before a (loc_Inc b) <-> ~ before b a.
Proof. rewrite not_before. apply loc_inc. Qed.

(** ** One chunk *)

(** Where the visit of a sorted list stops. *)
Record visited (stop : L) (rq : Request L) (next : L) (res items payload : list I) (last : L) (all : bool) : Prop := {
  vi_split : exists l1 l2, items = l1 ++ l2 /\ payload = res ++ l1 /\ Forall (fun it => before (key it) stop) l1 /\
    (match l1 with [] => last = next | _ => exists l x, l1 = l ++ [x] /\ last = key x end) /\
    (if all then Forall (fun it => ~ before (key it) stop) l2 else l1 <> []);
  vi_within : forall pre x suf, payload = pre ++ x :: suf -> (length res < length pre)%nat ->
    u32 (Len pre) < rq_MaxPayloadNum rq /\ TotalSize pre < rq_MaxPayloadSize rq
}.

Lemma each_item_visits stop rq items : forall res next,
  StronglySorted (fun a b => before (key a) (key b)) items ->
  let '(payload, (last, all)) := each_item (onKey stop) (onAppended Len TotalSize rq) items res (next, true) in
  visited stop rq next res items payload last all.
Proof.
  induction items as [|it items IH]; intros res next Hs; cbn [each_item].
  { split; [exists [], []; rewrite !app_nil_r; splits; try done; constructor|]. intros pre x suf -> Hl. rewrite length_app in Hl. simpl in Hl. lia. }
  apply StronglySorted_inv in Hs as [Hs Hall]. unfold onKey at 1. destruct (Z.leb_spec 0 (loc_Compare (key it) stop)) as [Hge|Hlt].
  { split; [|intros pre x suf -> Hl; rewrite length_app in Hl; simpl in Hl; lia].
    exists [], (it :: items). rewrite !app_nil_r. splits; try done. constructor; [unfold before; lia|].
    eapply Forall_impl; [exact Hall|]. intros y Hy Hb. pose proof (before_trans _ _ _ Hy Hb) as Hx. unfold before in Hx. lia. }
  unfold onAppended at 1. destruct (_ || _) eqn:Hlim.
  { cbn [fst snd]. split.
    - exists [it], items. splits; try done; [by constructor|by exists [], it].
    - intros pre x suf Heq Hl. assert (length (res ++ [it]) = length (pre ++ x :: suf)) as Hle by (by rewrite Heq).
      rewrite !length_app in Hle. simpl in Hle. lia. }
  cbn [fst snd]. specialize (IH (res ++ [it]) (key it) Hs).
  destruct (each_item _ _ items (res ++ [it]) (key it, true)) as [payload [last all]] eqn:He.
  destruct IH as [(l1 & l2 & -> & -> & Hf & Hlast & Hall2) Hw]. split.
  - exists (it :: l1), l2. rewrite <- app_assoc. splits; try done; [by constructor| |].
    + destruct l1 as [|y l1]; [by exists [], it|]. destruct Hlast as (l & x & -> & ->). exists (it :: l), x. by split.
    + destruct all; done.
  - intros pre x suf Heq Hl. destruct (decide (length (res ++ [it]) < length pre)%nat) as [Hlt'|Hge']; [by eapply Hw|].
    rewrite length_app in Hge'. simpl in Hge'. assert (pre = res ++ [it]) as ->; [|bool_to_prop; lia].
    rewrite <- app_assoc in Heq. simpl in Heq. change (it :: l1) with ([it] ++ l1) in Heq. rewrite app_assoc in Heq.
    apply app_inj_1 in Heq as [? _]; [done|]. rewrite length_app. simpl. lia.
Qed.

Lemma filter_sorted {A} (R : A -> A -> Prop) (P : A -> Prop) `{!forall x, Decision (P x)} l : StronglySorted R l -> StronglySorted R (filter P l).
Proof.
  induction 1 as [|x l Hs IH Hall]; [constructor|]. rewrite filter_cons. case_decide; [|done]. constructor; [done|]. by apply Forall_filter_1.
Qed.

(** A sorted list splits at a locator. *)
Lemma range_split o n m stop : ~ before n o -> ~ before m n -> range o m stop = range o n stop ++ range n m stop.
Proof.
  intros Hno Hmn. destruct Hstore as [Hs _]. unfold range. revert Hs. clear Hstore. induction 1 as [|x l Hs IH Hall]; [done|].
  destruct (decide (before (key x) n)) as [Hxn|Hxn].
  - assert (before (key x) m) as Hxm by (by apply (before_not _ n)). rewrite !filter_cons. repeat case_decide; try tauto; simpl; by rewrite IH.
  - assert (~ before (key x) o) as Hxo by (by eapply not_before_trans).
    assert (filter (fun it => ~ before (key it) o /\ before (key it) n /\ before (key it) stop) l = []) as Hnil.
    { apply list_filter_none. eapply Forall_impl; [exact Hall|]. intros y Hy (_ & Hyn & _). exact (Hxn (before_trans _ _ _ Hy Hyn)). }
    rewrite !filter_cons, Hnil. rewrite Hnil in IH. repeat case_decide; try tauto; simpl; by rewrite IH.
Qed.

Lemma range_self o stop : range o o stop = [].
Proof. apply list_filter_none, Forall_forall. intros x _. tauto. Qed.

Lemma range_from n m stop l1 l2 :
  filter (fun it => ~ before (key it) n) store = l1 ++ l2 -> Forall (fun it => before (key it) m /\ before (key it) stop) l1 ->
  Forall (fun it => ~ (before (key it) m /\ before (key it) stop)) l2 -> range n m stop = l1.
Proof.
  intros Heq H1 H2. unfold range.
  assert (filter (fun it => ~ before (key it) n /\ before (key it) m /\ before (key it) stop) store =
    filter (fun it => before (key it) m /\ before (key it) stop) (filter (fun it => ~ before (key it) n) store)) as ->.
  { rewrite list_filter_filter. apply list_filter_iff. intros x. tauto. }
  rewrite Heq, filter_app, (list_filter_all _ l1), (list_filter_none _ l2) by done. apply app_nil_r.
Qed.

(** Nothing is left between [n] and [stop]. *)
Lemma range_whole o n stop :
  Forall (fun it => ~ before (key it) n -> ~ before (key it) stop) store -> range o n stop = whole o stop.
Proof.
  intros Hf. unfold range, whole. revert Hf. clear Hstore. induction 1 as [|x l Hx Hl IH]; [done|]. rewrite !filter_cons, IH.
  repeat case_decide; try done; exfalso; destruct (decide (before (key x) n)); tauto.
Qed.

Record session_ok (ses : sessionState) (streamed : list I) : Prop := {
  se_streamed : streamed = range (se_origSelector ses) (se_next ses) (se_stop ses);
  se_forward : ~ before (se_next ses) (se_origSelector ses);
  se_finished : se_done ses = true -> streamed = whole (se_origSelector ses) (se_stop ses)
}.

Lemma next_chunk_spec rq ses streamed :
  rq_Type rq = ty -> session_ok ses streamed ->
  let '(resp, ses') := next_chunk Len TotalSize ForEachItem rq ses in
  session_ok ses' (streamed ++ rs_Payload resp) /\ rs_Done resp = se_done ses' /\ rs_SessionID resp = ss_ID (rq_Session rq) /\
  se_origSelector ses' = se_origSelector ses /\ se_stop ses' = se_stop ses /\ se_senderI ses' = se_senderI ses /\
  (se_done ses' = false -> rs_Payload resp <> []) /\
  forall pre x suf, rs_Payload resp = pre ++ x :: suf -> pre <> [] ->
    u32 (Len pre) < rq_MaxPayloadNum rq /\ TotalSize pre < rq_MaxPayloadSize rq.
Proof.
  intros Hty [Hst Hfw _]. unfold next_chunk. rewrite Hty. pose proof Hstore as [Hs Heach]. rewrite Heach.
  set (items := filter (fun it => ~ before (key it) (se_next ses)) store).
  pose proof (each_item_visits (se_stop ses) rq items [] (se_next ses) ltac:(by apply filter_sorted)) as Hv.
  destruct (each_item _ _ items [] _) as [payload [last all]]. destruct Hv as [(l1 & l2 & Hitems & -> & Hf & Hlast & Hall) Hw]. cbn [app] in *.
  assert (Forall (fun it => ~ before (key it) (se_next ses)) items) as Hge.
  { apply Forall_forall. intros it Hin. by apply list_elem_of_filter in Hin as [? _]. }
  assert (StronglySorted (fun a b => before (key a) (key b)) items) as Hsi by (by apply filter_sorted).
  rewrite Hitems in Hge, Hsi. apply Forall_app in Hge as [Hge1 Hge2].
  assert (l1 = [] /\ last = se_next ses /\ all = true \/ exists l x, l1 = l ++ [x] /\ last = key x) as Hl.
  { destruct l1; [left; by destruct all|by right]. }
  clear Hlast. assert (~ before last (se_next ses)) as Hlast_ge.
  { destruct Hl as [(_ & -> & _)|(l & x & -> & ->)]; [apply before_irrefl|]. by apply Forall_app in Hge1 as [_ [? _]%Forall_cons]. }
  assert (Forall (fun it => before (key it) (loc_Inc last) /\ before (key it) (se_stop ses)) l1) as Hin1.
  { rewrite Forall_forall in Hf |- *. intros it Hit. split; [|by apply Hf]. apply before_inc.
    destruct Hl as [(-> & _)|(l & x & -> & ->)]; [by apply not_elem_of_nil in Hit|]. apply elem_of_app in Hit as [Hit|Hit].
    - intros Hb. apply (before_irrefl (key x)). apply (before_trans _ (key it)); [done|]. apply StronglySorted_app_1_l in Hsi.
      apply (StronglySorted_app_1_elem_of _ _ _ _ _ Hsi Hit). by left.
    - apply list_elem_of_singleton in Hit as ->. apply before_irrefl. }
  assert (Forall (fun it => ~ (before (key it) (loc_Inc last) /\ before (key it) (se_stop ses))) l2) as Hout.
  { apply Forall_forall. intros it Hit [Hb1 Hb2]. destruct Hl as [(-> & _ & ->)|(l & x & -> & ->)].
    - rewrite Forall_forall in Hall. by apply (Hall it).
    - apply before_inc in Hb1. apply Hb1. apply (StronglySorted_app_1_elem_of _ _ _ x it Hsi); [set_solver|done]. }
  assert (~ before (loc_Inc last) (se_next ses)) as Hfw2.
  { intros Hb. apply Hlast_ge. apply (before_trans _ (loc_Inc last)); [|done]. apply before_inc, before_irrefl. }
  simpl. splits; try done.
  - split; simpl.
    + rewrite (range_split _ (se_next ses)), <- Hst by done. f_equal. symmetry. by eapply range_from.
    + by eapply not_before_trans.
    + intros ->. rewrite Hst, <- (range_from (se_next ses) (loc_Inc last) (se_stop ses) l1 l2), <- range_split by done.
      apply range_whole. apply Forall_forall. intros it Hit Hb.
      assert (it ∈ l1 ++ l2) as [Hi|Hi]%elem_of_app.
      { rewrite <- Hitems. apply list_elem_of_filter. split; [|done]. by eapply not_before_trans. }
      * rewrite Forall_forall in Hin1. by destruct (Hin1 it Hi).
      * rewrite Forall_forall in Hall. by apply Hall.
  - intros ->. done.
  - intros pre x suf Heq Hne. eapply Hw; [exact Heq|]. destruct pre; [done|simpl; lia].
Qed.

(** ** The state between two messages *)

Abbreviation seeder := (BaseSeeder (L := L) (I := I)).
Implicit Types (s : seeder) (k : Z * string).

Definition since_open k (trace : list (reader_event (I := I))) : list I :=
  foldl (fun acc ev =>
    match ev with
    | Opened id peer => if decide ((id, peer) = k) then [] else acc
    | Chunk id peer resp => if decide ((id, peer) = k) then acc ++ rs_Payload resp else acc
    end) [] trace.

Definition queued s : list (task (I := I)) := concat (sd_senders s).

(** [ex] is the session the reader is working on. *)
Record seeder_ok (ex : option (Z * string)) s : Prop := {
  so_sessions : forall k ses, Some k <> ex -> sd_sessions s !! k = Some ses -> session_ok ses (since_open k (sd_trace s));
  so_workers : forall k ses, sd_sessions s !! k = Some ses -> (se_senderI ses < length (sd_senders s))%nat;
  so_threads : Z.of_nat (length (sd_senders s)) = SenderThreads cfg;
  so_cap : Z.of_nat (size (sd_sessions s)) <= maxGlobalSessions cfg;
  so_peers : forall peer, (length (default [] (sd_peerSessions s !! peer)) <= 3)%nat;
  so_mem : Forall (fun tk => 0 <= tk_memSize tk) (queued s);
  so_pending : sd_pending s = wsum tk_memSize (queued s);
  so_bound : sd_pending s < MaxPendingResponsesSize cfg \/
    exists tk, tk ∈ queued s /\ sd_pending s - tk_memSize tk < MaxPendingResponsesSize cfg
}.

Lemma deletes_subseteq (m : gmap (Z * string) (sessionState (L := L))) (ids : list Z) peer : foldl (fun m sid => delete (sid, peer) m) m ids ⊆ m.
Proof. revert m. induction ids as [|id ids IH]; intros m; simpl; [done|]. etrans; [apply IH|apply delete_subseteq]. Qed.

Lemma queued_alter (l : list (list (task (I := I)))) i tk tasks :
  l !! i = Some (tk :: tasks) -> concat l ≡ₚ tk :: concat (<[i := tasks]> l).
Proof.
  intros Hi. pose proof (lookup_lt_Some _ _ _ Hi). rewrite <- (take_drop_middle _ _ _ Hi) at 1. rewrite insert_take_drop by done.
  rewrite !concat_app. simpl. solve_Permutation.
Qed.

(** The session in hand is in the map, or was removed from it and has room. *)
Definition in_hand k (ses : sessionState (L := L)) s : Prop :=
  sd_sessions s !! k = Some ses \/ (sd_sessions s !! k = None /\ Z.of_nat (size (sd_sessions s)) < maxGlobalSessions cfg).

Lemma smaller_sessions s (m : gmap (Z * string) (sessionState (L := L))) ex :
  seeder_ok ex s -> m ⊆ sd_sessions s ->
  (forall k ses, Some k <> ex -> m !! k = Some ses -> session_ok ses (since_open k (sd_trace s))) /\
  (forall k ses, m !! k = Some ses -> (se_senderI ses < length (sd_senders s))%nat) /\
  Z.of_nat (size m) <= maxGlobalSessions cfg.
Proof.
  intros Hok Hm. splits.
  - intros k ses Hne Hk. apply (so_sessions _ _ Hok); [done|]. by eapply lookup_weaken.
  - intros k ses Hk. eapply (so_workers _ _ Hok). by eapply lookup_weaken.
  - pose proof (so_cap _ _ Hok). pose proof (map_subseteq_size _ _ Hm). lia.
Qed.

Lemma in_hand_smaller k ses s ps m :
  seeder_ok (Some k) s -> in_hand k ses s -> m ⊆ sd_sessions s -> in_hand k ses (with_sessions s ps m).
Proof.
  intros Hok Hin Hm. unfold in_hand. simpl. pose proof (map_subseteq_size _ _ Hm) as Hsz. pose proof (so_cap _ _ Hok).
  destruct Hin as [Hk|[Hk Hlt]].
  - destruct (m !! k) as [ses'|] eqn:Hmk; [left; by rewrite <- Hk, (lookup_weaken _ _ _ _ Hmk Hm)|]. right. split; [done|].
    assert (m ⊆ delete k (sd_sessions s)) as Hd .
    { apply map_subseteq_spec. intros i x Hi. apply lookup_delete_Some. split; [intros ->; congruence|by eapply lookup_weaken]. }
    apply map_subseteq_size in Hd. rewrite map_size_delete_Some in Hd by done. pose proof (map_size_ne_0_lookup_2 (sd_sessions s) k ltac:(by eexists)). lia.
  - right. split; [|lia]. destruct (m !! k) eqn:E; [|done]. by rewrite (lookup_weaken _ _ _ _ E Hm) in Hk.
Qed.

Lemma handleUnregister_ok ex peerID s : seeder_ok ex s -> seeder_ok ex (handleUnregister peerID s).
Proof.
  intros Hok. destruct (smaller_sessions s _ ex Hok (deletes_subseteq (sd_sessions s) (default [] (sd_peerSessions s !! peerID)) peerID)) as (H1 & H2 & H3).
  destruct Hok as [_ _ Ht _ Hp Hm Hpe Hb]. split; try done. intros peer. simpl.
  destruct (decide (peer = peerID)) as [->|Hne]; [rewrite lookup_delete_eq; simpl; lia|by rewrite lookup_delete_ne].
Qed.

Lemma sender_step_ok ex i s : seeder_ok ex s -> seeder_ok ex (sender_step i s).
Proof.
  intros Hok. unfold sender_step. destruct (sd_senders s !! i) as [[|tk tasks]|] eqn:Hi; try done.
  destruct Hok as [H1 H2 H3 H4 H5 H6 H7 H8]. pose proof (queued_alter _ _ _ _ Hi) as Hq.
  change (queued s) with (concat (sd_senders s)) in *. rewrite Hq in H6, H7. apply Forall_cons in H6 as [H6 H6']. simpl in H7.
  split; unfold queued; simpl; try done.
  - intros k ses Hk. rewrite length_insert. by apply (H2 k).
  - by rewrite length_insert.
  - lia.
  - destruct H8 as [H8|(tk' & Hin & H8)]; [left; lia|]. rewrite Hq in Hin. apply elem_of_cons in Hin as [->|Hin]; [left; lia|].
    right. exists tk'. split; [done|lia].
Qed.

Lemma wake_ok ex s w : seeder_ok ex s -> seeder_ok ex (wake_do s w) /\ sd_trace (wake_do s w) = sd_trace s /\ length (sd_senders (wake_do s w)) = length (sd_senders s).
Proof.
  intros Hok. destruct w as [i|peerID]; simpl; (split; [by apply sender_step_ok || by apply handleUnregister_ok|]); [|done].
  unfold sender_step. destruct (sd_senders s !! i) as [[|tk tasks]|]; simpl; by rewrite ?length_insert.
Qed.

Lemma wake_in_hand k ses s w : seeder_ok (Some k) s -> in_hand k ses s -> in_hand k ses (wake_do s w).
Proof.
  intros Hok Hin. destruct w as [i|peerID]; simpl.
  - unfold sender_step. by destruct (sd_senders s !! i) as [[|tk tasks]|].
  - apply in_hand_smaller; [done|done|apply deletes_subseteq].
Qed.

(** Whatever the wake-ups keep holds when the reader goes on, with room for one
    more response. *)
Lemma wait_ind (P : seeder -> Prop) sched s sched' s' :
  (forall s w, P s -> P (wake_do s w)) -> P s ->
  waitPendingResponsesBelowLimit cfg sched s = Some (sched', s') -> P s' /\ sd_pending s' < MaxPendingResponsesSize cfg.
Proof.
  intros Hw. revert s. induction sched as [|w sched IH]; intros s HP; simpl; destruct (Z.leb_spec (MaxPendingResponsesSize cfg) (sd_pending s)); try done;
    [by intros [= <- <-]|apply IH; by apply Hw|by intros [= <- <-]].
Qed.

Definition goes_on (m : outcome seeder) : Prop :=
  match m with Ok s => seeder_ok None s | Err e => e = "waiting"%string | Panic _ => False end.

Lemma since_open_snoc k trace ev : since_open k (trace ++ [ev]) =
  match ev with
  | Opened id peer => if decide ((id, peer) = k) then [] else since_open k trace
  | Chunk id peer resp => if decide ((id, peer) = k) then since_open k trace ++ rs_Payload resp else since_open k trace
  end.
Proof. unfold since_open. by rewrite foldl_app. Qed.

Context (Hmem : forall l, 0 <= TotalMemSize l).

Lemma enqueue_response_ok peer resp ses s :
  let k := (rs_SessionID resp, peer) in
  seeder_ok (Some k) s -> in_hand k ses s -> (se_senderI ses < length (sd_senders s))%nat ->
  session_ok ses (since_open k (sd_trace s) ++ rs_Payload resp) -> sd_pending s < MaxPendingResponsesSize cfg ->
  exists s', enqueue_response TotalMemSize peer resp ses s = Ok s' /\ seeder_ok None s' /\ in_hand k ses s' /\
    session_ok ses (since_open k (sd_trace s')) /\ length (sd_senders s') = length (sd_senders s).
Proof.
  intros k [H1 H2 H3 H4 H5 H6 H7 H8] Hin Hw Hses Hlt. unfold enqueue_response.
  destruct (lookup_lt_is_Some_2 _ _ Hw) as [tasks Ht]. rewrite (index_lookup _ _ _ Ht). cbn [outcome_bind].
  set (tk := mk_task (se_sendChunk ses) resp (TotalMemSize (rs_Payload resp))).
  assert (concat (<[se_senderI ses := tasks ++ [tk]]> (sd_senders s)) ≡ₚ tk :: queued s) as Hq.
  { unfold queued. rewrite <- (take_drop_middle _ _ _ Ht) at 2. rewrite insert_take_drop by done. rewrite !concat_app. simpl. solve_Permutation. }
  eexists. split; [done|]. simpl. rewrite length_insert, since_open_snoc, decide_True by done. splits; [|done|done|done].
  split; unfold queued; simpl; rewrite ?length_insert; try done.
  - intros k' ses' _ Hk'. rewrite since_open_snoc. case_decide as Hkk; [|by apply H1; [intros [= Hx]; by apply Hkk|]].
    rewrite <- Hkk in *. fold k in Hk' |- *. destruct Hin as [Hin|[Hin _]]; [|by rewrite Hk' in Hin]. rewrite Hk' in Hin. by injection Hin as ->.
  - rewrite Hq. constructor; [apply Hmem|done].
  - rewrite Hq. simpl. unfold queued in H7. rewrite H7. unfold queued. lia.
  - right. exists tk. split; [rewrite Hq; left|simpl; lia].
Qed.

Lemma chunk_loop_ok n peer rq : forall ses sched s,
  let k := (ss_ID (rq_Session rq), peer) in
  rq_Type rq = ty -> seeder_ok None s -> in_hand k ses s -> (se_senderI ses < length (sd_senders s))%nat ->
  session_ok ses (since_open k (sd_trace s)) -> goes_on (chunk_loop Len TotalSize TotalMemSize ForEachItem cfg n peer rq ses sched s).
Proof.
  induction n as [|n IH]; intros ses sched s k Hty Hok Hin Hw Hses; cbn [chunk_loop]; [done|]. destruct (se_done ses); [done|].
  pose proof (next_chunk_spec rq ses _ Hty Hses) as Hc. destruct (next_chunk _ _ _ rq ses) as [resp ses']. destruct Hc as (Hses' & _ & Hid & _ & _ & Hsi & _).
  set (s1 := with_sessions s _ _).
  assert (seeder_ok (Some k) s1 /\ in_hand k ses' s1) as [Hok1 Hin1].
  { split; [|left; simpl; apply lookup_insert_eq]. destruct Hok as [H1 H2 H3 H4 H5 H6 H7 H8]. split; simpl; try done.
    - intros k' x Hne Hx. apply H1; [done|]. rewrite lookup_insert_ne in Hx by (intros Heq; apply Hne; by rewrite <- Heq). done.
    - intros k' x. rewrite lookup_insert_Some. intros [[_ <-]|[_ Hx]]; [by rewrite Hsi|by apply (H2 k')].
    - fold k. rewrite map_size_insert. destruct Hin as [Hk|[Hk Hlt]]; rewrite Hk; cbn [Datatypes.id]; lia. }
  destruct (waitPendingResponsesBelowLimit cfg sched s1) as [[sched2 s2]|] eqn:Hwait; [|done].
  destruct (wait_ind (fun s => seeder_ok (Some k) s /\ in_hand k ses' s /\ sd_trace s = sd_trace s1 /\ length (sd_senders s) = length (sd_senders s1)) sched s1 sched2 s2)
    as [(Hok2 & Hin2 & Htr2 & Hlen2) Hlt]; [|done|done|].
  { intros s' w (Ha & Hb & Hc & Hd). destruct (wake_ok _ _ w Ha) as (Ha' & Hc' & Hd'). splits; [done|by apply wake_in_hand|congruence|congruence]. }
  destruct (enqueue_response_ok peer resp ses' s2) as (s3 & -> & Hok3 & Hin3 & Hses3 & Hlen3); rewrite ?Hid; try done.
  - by rewrite Hsi, Hlen2.
  - by rewrite Htr2.
  - cbn [outcome_bind]. rewrite Hid in Hin3, Hses3. apply IH; try done. by rewrite Hlen3, Hsi, Hlen2.
Qed.

(** ** A request *)

Definition short (ids : list Z) : Prop := (length ids <= 2)%nat.

Lemma prune_oldest_ok peer s : seeder_ok None s ->
  let '(pruned, s') := prune_oldest peer s in seeder_ok None s' /\ short pruned /\ sd_trace s' = sd_trace s /\ sd_senders s' = sd_senders s.
Proof.
  intros Hok. unfold prune_oldest, short. pose proof (so_peers _ _ Hok peer) as Hlen.
  destruct (default [] (sd_peerSessions s !! peer)) as [|oldest [|b [|c rest]]]; simpl in *; try (splits; [done|lia|done|done]).
  splits; [|lia|done|done].
  destruct (smaller_sessions s (delete (oldest, peer) (sd_sessions s)) None Hok) as (H1 & H2 & H3); [apply delete_subseteq|].
  destruct Hok. by split.
Qed.

Lemma open_session_ok peer sendChunk rq pruned s :
  seeder_ok None s -> short pruned -> 0 < SenderThreads cfg < 2 ^ 32 ->
  exists ses s', open_session cfg peer sendChunk rq pruned s = Ok (ses, s') /\ seeder_ok None s' /\
    match ses with
    | None => True
    | Some ses => let k := (ss_ID (rq_Session rq), peer) in
        in_hand k ses s' /\ (se_senderI ses < length (sd_senders s'))%nat /\ session_ok ses (since_open k (sd_trace s'))
    end.
Proof.
  intros Hok Hsh Hth. unfold open_session. set (k := (ss_ID (rq_Session rq), peer)).
  destruct (sd_sessions s !! k) as [ses|] eqn:Hk.
  { eexists (Some ses), s. splits; try done; [by left|by eapply (so_workers _ _ Hok)|by apply (so_sessions _ _ Hok)]. }
  destruct (Z.leb_spec (maxGlobalSessions cfg) (Z.of_nat (size (sd_sessions s)))) as [Hge|Hlt].
  { eexists None, _. splits; [done| |done]. destruct Hok. by split. }
  rewrite u32_small by solve_width. rewrite (proj2 (Z.eqb_neq _ _)) by lia. eexists (Some _), _. split; [done|]. split.
  - destruct Hok as [H1 H2 H3 H4 H5 H6 H7 H8]. split; simpl; try done.
    + intros k' ses Hne Hk'. rewrite since_open_snoc, decide_False; [by apply H1|]. fold k. intros <-. congruence.
    + intros p. destruct (decide (p = peer)) as [->|Hne]; [|by rewrite lookup_insert_ne].
      rewrite lookup_insert_eq. simpl. rewrite length_app. simpl. unfold short in Hsh. lia.
  - simpl. splits.
    + right. split; [exact Hk|done].
    + pose proof (so_threads _ _ Hok). pose proof (Z.mod_pos_bound (sd_counter s) (SenderThreads cfg) ltac:(lia)). lia.
    + rewrite since_open_snoc, decide_True by done. split; simpl; [by rewrite range_self|apply before_irrefl|done].
Qed.

Lemma handle_request_ok peer sendChunk rq sched s :
  seeder_ok None s -> 0 < SenderThreads cfg < 2 ^ 32 -> rq_Type rq = ty ->
  goes_on (handle_request Len TotalSize TotalMemSize ForEachItem cfg peer sendChunk rq sched s).
Proof.
  intros Hok Hth Hty. unfold handle_request. destruct (waitPendingResponsesBelowLimit cfg sched s) as [[sched1 s1]|] eqn:Hwait; [|done].
  destruct (wait_ind (seeder_ok None) sched s sched1 s1) as [Hok1 _]; [|done|done|].
  { intros s' w Hs'. by apply wake_ok. }
  pose proof (prune_oldest_ok peer s1 Hok1) as Hp. destruct (prune_oldest peer s1) as [pruned s2]. destruct Hp as (Hok2 & Hsh & _ & _).
  destruct (open_session_ok peer sendChunk rq pruned s2 Hok2 Hsh Hth) as (ses & s3 & -> & Hok3 & Hses). cbn [outcome_bind].
  destruct ses as [ses|]; [|done]. destruct Hses as (Hin & Hw & Hses). case_match.
  - by apply chunk_loop_ok.
  - destruct Hok3. by split.
Qed.

Definition op_ok (op : seeder_op (L := L)) : Prop := match op with OpRequest _ _ rq _ => rq_Type rq = ty | _ => True end.

Lemma seeder_run_ok ops :
  0 < SenderThreads cfg < 2 ^ 32 -> 0 < MaxPendingResponsesSize cfg -> Forall op_ok ops ->
  goes_on (seeder_run Len TotalSize TotalMemSize ForEachItem cfg ops).
Proof.
  intros Hth Hlim Hops. unfold seeder_run.
  assert (seeder_ok None (Seeder_New cfg)) as Hok.
  { assert (queued (Seeder_New cfg) = []) as Hq.
    { unfold queued. simpl. generalize (Z.to_nat (SenderThreads cfg)). intros n. by induction n. }
    split; rewrite ?Hq; simpl; try done.
    - rewrite length_replicate. lia.
    - rewrite map_size_empty. unfold maxGlobalSessions. case_match; lia.
    - intros p. rewrite lookup_empty. simpl. lia.
    - by left. }
  revert Hok. generalize (Seeder_New (L := L) (I := I) cfg). induction Hops as [|op ops Hop Hops IH]; intros s Hok; simpl; [done|].
  assert (goes_on (seeder_do Len TotalSize TotalMemSize ForEachItem cfg s op)) as Hgo.
  { destruct op as [peer sendChunk rq sched|peerID|i]; simpl.
    - unfold NotifyRequestReceived. destruct (_ <? rq_MaxChunks rq); [done|]. by apply handle_request_ok.
    - by apply handleUnregister_ok.
    - by apply sender_step_ok. }
  destruct (seeder_do _ _ _ _ _ s op) as [s'| |]; [by apply IH|done|done].
Qed.

End streams.

#[export] Existing Instance before_dec.

(** ** Properties *)


(** What the seeder keeps stays bounded: the sessions by the global cap,
    the listed sessions of a peer by three, and the bytes of the responses not
    sent yet, which it counts exactly, by the limit and one response. *)
Theorem seeder_bounded {L I : Type} `{LocatorLaws L} (key : I -> L) (Len TotalSize TotalMemSize : list I -> Z)
    (ForEachItem : forall S : Type, L -> Z -> (S -> L -> bool * S) -> (S -> list I -> bool * S) -> S -> list I * S)
    (cfg : SeederConfig) (ty : Z) (store : list I) (ops : list seeder_op) :
  iterates key ForEachItem ty store -> (forall l, 0 <= TotalMemSize l) ->
  0 < SenderThreads cfg < 2 ^ 32 -> 0 < MaxPendingResponsesSize cfg -> Forall (op_ok ty) ops ->
  match seeder_run Len TotalSize TotalMemSize ForEachItem cfg ops with
  | Ok s => Z.of_nat (size (sd_sessions s)) <= maxGlobalSessions cfg /\
      (forall peer, (length (default [] (sd_peerSessions s !! peer)) <= 3)%nat) /\
      sd_pending s = wsum tk_memSize (queued s) /\
      (sd_pending s < MaxPendingResponsesSize cfg \/
       exists tk, tk ∈ queued s /\ sd_pending s - tk_memSize tk < MaxPendingResponsesSize cfg)
  | Err e => e = "waiting"%string
  | Panic _ => False
  end.
Proof.
  intros Hit Hmem Hth Hlim Hops. pose proof (seeder_run_ok key Len TotalSize TotalMemSize ForEachItem cfg ty store Hit Hmem ops Hth Hlim Hops) as Hgo.
  destruct (seeder_run _ _ _ _ _ _) as [s| |]; [|done|done]. destruct Hgo. splits; done.
Qed.

(** ** A concrete seeder: numbers as items, their own locators *)

#[export] Instance Z_Locator : Locator Z := {| loc_Compare a b := a - b; loc_Inc a := a + 1 |}.

#[export] Instance Z_LocatorLaws : LocatorLaws Z.
Proof. split; unfold loc_Compare, loc_Inc, Z_Locator; lia. Qed.

Definition sample_store : list Z := [1; 3; 4; 7; 9].
Definition same_key (x : Z) : Z := x.
Definition list_Len (l : list Z) : Z := Z.of_nat (length l).
Definition sample_ForEach (S : Type) (start : Z) (ty : Z) (on_key : S -> Z -> bool * S) (on_appended : S -> list Z -> bool * S) (s : S) : list Z * S :=
  each_item same_key on_key on_appended (filter (fun it => ~ before it start) sample_store) [] s.
Definition sample_scfg : SeederConfig := mk_SeederConfig 2 10 100 100 5 2.
Definition ask (id start stop num chunks : Z) : Request Z := mk_Request (mk_Session id start stop) 0 num 100 chunks.

Definition sample_seeder (ops : list (seeder_op (L := Z))) : outcome (BaseSeeder (L := Z) (I := Z)) :=
  seeder_run list_Len list_Len list_Len sample_ForEach sample_scfg ops.
Definition shown (m : outcome (BaseSeeder (L := Z) (I := Z))) : outcome (list (list Z * bool) * list (Z * string) * list (string * string)) :=
  let* s := m in Ok ((fun x => (rs_Payload x.2, rs_Done x.2)) <$> sd_sent s, (map_to_list (sd_sessions s)).*1, sd_bad s).

Definition sample_seeder_ops : list (seeder_op (L := Z)) :=
  [OpRequest "p" 1 (ask 5 0 8 2 1) []; OpRequest "q" 2 (ask 5 3 9 1 2) []; OpSent 0; OpRequest "p" 1 (ask 5 0 8 2 3) [WakeSent 1];
   OpSent 0; OpSent 1; OpSent 0].

Example sample_seeder_shown :
  shown (sample_seeder sample_seeder_ops) =
    Ok ([([1; 3], false); ([4; 7], false); ([3], false); ([], true)], [(5, "q"%string); (5, "p"%string)], []).
Proof. vm_compute. reflexivity. Qed.

Lemma sample_iterates : iterates same_key sample_ForEach 0 sample_store.
Proof. split; [|done]. repeat constructor. Qed.

Lemma sample_seeder_ok : Forall (op_ok 0) sample_seeder_ops.
Proof. repeat constructor. Qed.


Lemma seeder_bounded_witness :
  match sample_seeder sample_seeder_ops with
  | Ok s => Z.of_nat (size (sd_sessions s)) <= maxGlobalSessions sample_scfg /\
      (forall peer, (length (default [] (sd_peerSessions s !! peer)) <= 3)%nat) /\
      sd_pending s = wsum tk_memSize (queued s) /\
      (sd_pending s < 10 \/ exists tk, tk ∈ queued s /\ sd_pending s - tk_memSize tk < 10)
  | Err e => e = "waiting"%string
  | Panic _ => False
  end.
Proof.
  apply (seeder_bounded same_key list_Len list_Len list_Len sample_ForEach sample_scfg 0 sample_store sample_seeder_ops);
    [apply sample_iterates|intros l; apply Nat2Z.is_nonneg|by split|done|apply sample_seeder_ok].
Defined.

(** A peer that leaves while the reader waits for room in the middle of its
    request: the next chunk puts its session back, and the peer's list does not
    hold it any more. *)
Lemma unregistered_session_returns :
  exists s, seeder_run list_Len list_Len list_Len sample_ForEach (mk_SeederConfig 1 1 100 100 5 2)
      [OpRequest "p" 1 (ask 5 0 8 1 3) [WakeUnregistered "p"; WakeSent 0; WakeSent 0]] = Ok s /\
    sd_peerSessions s = ∅ /\ is_Some (sd_sessions s !! (5, "p"%string)).
Proof. eexists. split; [vm_compute; reflexivity|]. split; [reflexivity|]. by eexists. Qed.

(** With three sessions, a further request of the oldest prunes that very
    session, which then starts again. *)
Lemma oldest_session_restarts :
  shown (seeder_run list_Len list_Len list_Len sample_ForEach (mk_SeederConfig 1 10 100 100 5 0)
    [OpRequest "p" 1 (ask 1 0 8 2 1) []; OpRequest "p" 1 (ask 2 0 8 2 1) []; OpRequest "p" 1 (ask 3 0 8 2 1) [];
     OpSent 0; OpSent 0; OpSent 0; OpRequest "p" 1 (ask 1 0 8 2 1) []; OpSent 0]) =
  Ok ([([1; 3], false); ([1; 3], false); ([1; 3], false); ([1; 3], false)], [(3, "p"%string); (1, "p"%string); (2, "p"%string)], []).
Proof. vm_compute. reflexivity. Qed.
