(* ===== verification/Leecher.v ===== *)
(** * gossip/basestream/basestreamleecher: downloading streams from the peers

    [BasePeerLeecher] (basepeerleecher/session.go) asks one peer for chunks,
    keeping a bounded number of them in flight; [BaseLeecher] (base_leecher.go)
    chooses the peers and starts and ends the sessions.  Both run their routine
    under one goroutine or lock: each message or tick is a step.  The state of
    the embedding application is threaded through its callbacks. *)

From S2P Require Import Prelude.

#[local] Open Scope go_scope.

(** ** basepeerleecher/session.go *)

Record EpochDownloaderConfig := mk_EpochDownloaderConfig {
  DefaultChunkItemsNum : Z; DefaultChunkItemsSize : Z; ParallelChunksDownload : Z
}.

(** [pl_sent] are the calls of [RequestChunks]. *)
Record BasePeerLeecher := mk_BasePeerLeecher {
  pl_totalRequested : Z;
  pl_totalProcessed : Z;
  pl_processingChunks : list Z;
  pl_done : bool;
  pl_sent : list (Z * Z * Z)
}.

Section peer_leecher.
Context (cfg : EpochDownloaderConfig).

Definition PeerLeecher_New : BasePeerLeecher := mk_BasePeerLeecher 0 0 [] false [].

Definition PeerLeecher_Terminate (d : BasePeerLeecher) : BasePeerLeecher :=
  mk_BasePeerLeecher (pl_totalRequested d) (pl_totalProcessed d) (pl_processingChunks d) true (pl_sent d).

Definition PeerLeecher_Stopped (d : BasePeerLeecher) : bool := pl_done d.

(** The counter and the slice that the loop leaves. *)
Definition sweepProcessedChunks (IsProcessed : Z -> bool) (d : BasePeerLeecher) : BasePeerLeecher :=
  let '(notProcessed, totalProcessed) :=
    foldl (fun '(np, tp) id => if IsProcessed id then (np, tp + 1) else (np ++ [id], tp)) ([], pl_totalProcessed d) (pl_processingChunks d) in
  mk_BasePeerLeecher (pl_totalRequested d) totalProcessed notProcessed (pl_done d) (pl_sent d).

Definition tryToSync (suspended : bool) (d : BasePeerLeecher) : BasePeerLeecher :=
  if suspended then d
  else if pl_totalRequested d <? pl_totalProcessed d + ParallelChunksDownload cfg then
    let requestsToSend := pl_totalProcessed d + ParallelChunksDownload cfg - pl_totalRequested d in
    mk_BasePeerLeecher (pl_totalRequested d + requestsToSend) (pl_totalProcessed d) (pl_processingChunks d) (pl_done d)
      (pl_sent d ++ [(DefaultChunkItemsNum cfg, DefaultChunkItemsSize cfg, u32 requestsToSend)])
  else d.

(** The answers of the callbacks [Done], [IsProcessed] and [Suspend] at the call. *)
Record answers := mk_answers { an_Done : bool; an_IsProcessed : Z -> bool; an_Suspend : bool }.

Definition PeerLeecher_routine (an : answers) (d : BasePeerLeecher) : BasePeerLeecher :=
  if an_Done an then PeerLeecher_Terminate d
  else tryToSync (an_Suspend an) (sweepProcessedChunks (an_IsProcessed an) d).

Inductive peer_leecher_op := OpChunkReceived (id : Z) (an : answers) | OpTick (an : answers) | OpTerminate.

(** After [quit] is closed the loop may still take a message or a tick before
    it returns. *)
Definition peer_leecher_do (d : BasePeerLeecher) (op : peer_leecher_op) : BasePeerLeecher :=
  match op with
  | OpChunkReceived id an =>
      if pl_done d then PeerLeecher_Terminate d
      else if Z.of_nat (length (pl_processingChunks d)) <? ParallelChunksDownload cfg * 2 then
        PeerLeecher_routine an (mk_BasePeerLeecher (pl_totalRequested d) (pl_totalProcessed d) (pl_processingChunks d ++ [id]) (pl_done d) (pl_sent d))
      else d
  | OpTick an => PeerLeecher_routine an d
  | OpTerminate => PeerLeecher_Terminate d
  end.

Definition peer_leecher_run (ops : list peer_leecher_op) : BasePeerLeecher := foldl peer_leecher_do PeerLeecher_New ops.

(** ** What is in flight *)

(** Chunks asked for by the calls of [RequestChunks]. *)
Definition asked (d : BasePeerLeecher) : Z := wsum (fun r => r.2) (pl_sent d).

Definition is_chunk (op : peer_leecher_op) : bool := match op with OpChunkReceived _ _ => true | _ => false end.
Definition received (ops : list peer_leecher_op) : Z := Z.of_nat (length (filter (fun op => is_chunk op = true) ops)).

Record leecher_ok (rcv : Z) (d : BasePeerLeecher) : Prop := {
  lo_asked : asked d = pl_totalRequested d;
  lo_window : 0 <= pl_totalRequested d <= pl_totalProcessed d + ParallelChunksDownload cfg;
  lo_processed : 0 <= pl_totalProcessed d /\ pl_totalProcessed d + Z.of_nat (length (pl_processingChunks d)) <= rcv;
  lo_chunks : Z.of_nat (length (pl_processingChunks d)) <= ParallelChunksDownload cfg * 2
}.

Lemma sweep_spec (IsProcessed : Z -> bool) (l : list Z) : forall (np : list Z) (tp : Z),
  foldl (fun '(np, tp) id => if IsProcessed id then (np, tp + 1) else (np ++ [id], tp)) (np, tp) l =
    (np ++ filter (fun id => IsProcessed id = false) l, tp + Z.of_nat (length (filter (fun id => IsProcessed id = true) l))).
Proof.
  induction l as [|id l IH]; intros np tp; [by rewrite app_nil_r, Z.add_0_r|]. cbn [foldl]. rewrite !filter_cons.
  destruct (IsProcessed id); rewrite IH; simpl; [f_equal; lia|by rewrite <- app_assoc].
Qed.

Lemma filter_split (f : Z -> bool) l :
  (length (filter (fun id => f id = false) l) + length (filter (fun id => f id = true) l) = length l)%nat.
Proof. induction l as [|id l IH]; [done|]. rewrite !filter_cons. destruct (f id); simpl; lia. Qed.

Lemma routine_ok rcv an d :
  0 <= ParallelChunksDownload cfg -> rcv + ParallelChunksDownload cfg < 2 ^ 32 -> leecher_ok rcv d -> leecher_ok rcv (PeerLeecher_routine an d).
Proof.
  intros Hp Hw [H1 [H2 H2'] [H3 H3'] H4]. unfold PeerLeecher_routine. destruct (an_Done an); [by split|].
  unfold sweepProcessedChunks. rewrite sweep_spec. pose proof (filter_split (an_IsProcessed an) (pl_processingChunks d)) as Hs.
  set (rest := [] ++ filter (fun id => an_IsProcessed an id = false) (pl_processingChunks d)).
  set (k := Z.of_nat (length (filter (fun id => an_IsProcessed an id = true) (pl_processingChunks d)))).
  assert (Z.of_nat (length rest) + k = Z.of_nat (length (pl_processingChunks d))) as Hk by (subst rest k; simpl; lia).
  unfold tryToSync. destruct (an_Suspend an); [split; simpl; try done; lia|]. cbn [pl_totalRequested pl_totalProcessed].
  destruct (Z.ltb_spec (pl_totalRequested d) (pl_totalProcessed d + k + ParallelChunksDownload cfg)); split; simpl; try lia; try done.
  unfold asked in *. simpl. rewrite wsum_app, H1. simpl. rewrite u32_small by solve_width. lia.
Qed.

Lemma peer_leecher_do_ok rcv d op :
  0 <= ParallelChunksDownload cfg -> rcv + received [op] + ParallelChunksDownload cfg < 2 ^ 32 -> leecher_ok rcv d ->
  leecher_ok (rcv + received [op]) (peer_leecher_do d op).
Proof.
  intros Hp Hw Hok.
  assert (leecher_ok (rcv + received [op]) d) as Hok' by (destruct Hok; split; try done; unfold received; lia).
  destruct op as [id an|an|]; simpl.
  - destruct (pl_done d); [by destruct Hok'; split|]. case_match eqn:Hlt; [|done]. apply Z.ltb_lt in Hlt.
    apply routine_ok; [done|done|]. destruct Hok as [H1 H2 H3 H4]. unfold received. split; simpl; try done; rewrite length_app; simpl; lia.
  - by apply routine_ok.
  - by destruct Hok'; split.
Qed.

Lemma peer_leecher_run_ok ops :
  0 <= ParallelChunksDownload cfg -> received ops + ParallelChunksDownload cfg < 2 ^ 32 -> leecher_ok (received ops) (peer_leecher_run ops).
Proof.
  intros Hp. unfold peer_leecher_run. induction ops as [|op ops IH] using rev_ind; intros Hw.
  - split; simpl; try done; lia.
  - rewrite foldl_app. simpl. assert (received (ops ++ [op]) = received ops + received [op]) as Hr.
    { unfold received. rewrite filter_app, length_app. lia. }
    rewrite Hr in *. apply peer_leecher_do_ok; [done|done|]. apply IH. assert (0 <= received [op]) by (unfold received; lia). lia.
Qed.

End peer_leecher.

(** ** base_leecher.go *)

Section base_leecher.
Context {A : Type}.

(** [SelectSessionPeerCandidates] reads the peers of the leecher. *)
Record LeecherCallbacks := mk_LeecherCallbacks {
  cb_Select : A -> gset string -> list string;
  cb_ShouldTerminate : A -> bool;
  cb_Start : list string -> A -> A;
  cb_TerminateSession : A -> A;
  cb_Ongoing : A -> bool;
  cb_OngoingPeer : A -> string
}.

Context (cb : LeecherCallbacks).

Record BaseLeecher := mk_BaseLeecher { bl_Peers : gset string; bl_Terminated : bool; bl_app : A }.

Definition Leecher_New (app : A) : BaseLeecher := mk_BaseLeecher ∅ false app.

Definition with_leecher_app (d : BaseLeecher) (app : A) : BaseLeecher := mk_BaseLeecher (bl_Peers d) (bl_Terminated d) app.

Definition Leecher_Routine (d : BaseLeecher) : BaseLeecher :=
  if bl_Terminated d then d
  else
    let app := bl_app d in
    let app := if cb_Ongoing cb app && cb_ShouldTerminate cb app then cb_TerminateSession cb app else app in
    if cb_Ongoing cb app then with_leecher_app d app
    else
      let candidates := cb_Select cb app (bl_Peers d) in
      with_leecher_app d (if (length candidates =? 0)%nat then app else cb_Start cb candidates app).

Definition RegisterPeer (peer : string) (d : BaseLeecher) : BaseLeecher :=
  if bl_Terminated d then d else mk_BaseLeecher ({[peer]} ∪ bl_Peers d) (bl_Terminated d) (bl_app d).

Definition PeersNum (d : BaseLeecher) : Z := Z.of_nat (size (bl_Peers d)).

Definition UnregisterPeer (peer : string) (d : BaseLeecher) : BaseLeecher :=
  let d := if bool_decide (cb_OngoingPeer cb (bl_app d) = peer) then Leecher_Routine (with_leecher_app d (cb_TerminateSession cb (bl_app d))) else d in
  mk_BaseLeecher (bl_Peers d ∖ {[peer]}) (bl_Terminated d) (bl_app d).

Definition Leecher_Terminate (d : BaseLeecher) : BaseLeecher :=
  mk_BaseLeecher (bl_Peers d) true (cb_TerminateSession cb (bl_app d)).

(** What the leecher relies on: sessions start and end as told. *)
Class LeecherLaws : Prop := {
  ll_start app l : l <> [] -> cb_Ongoing cb (cb_Start cb l app) = true;
  ll_terminate app : cb_Ongoing cb (cb_TerminateSession cb app) = false
}.

(** After a routine there is a session, or nobody to have one with. *)
Lemma Routine_starts `{!LeecherLaws} d :
  bl_Terminated d = false ->
  let d' := Leecher_Routine d in
  cb_Ongoing cb (bl_app d') = true \/ cb_Select cb (bl_app d') (bl_Peers d') = [].
Proof.
  intros Ht. unfold Leecher_Routine. rewrite Ht. cbv zeta. set (app := if _ && _ then _ else _).
  destruct (cb_Ongoing cb app) eqn:Ho; [by left|]. simpl. destruct (cb_Select cb app (bl_Peers d)) eqn:Hs; simpl; [by right|].
  left. by apply ll_start.
Qed.

Lemma Terminated_stays `{!LeecherLaws} d peer :
  let d' := Leecher_Terminate d in
  cb_Ongoing cb (bl_app d') = false /\ Leecher_Routine d' = d' /\ RegisterPeer peer d' = d'.
Proof. simpl. splits; [apply ll_terminate|done|done]. Qed.

End base_leecher.
Arguments LeecherCallbacks : clear implicits.
Arguments BaseLeecher : clear implicits.

(** ** Properties *)

(** C33: however chunks arrive, ticks fire and the application answers, the
    leecher has asked for exactly as many chunks as it counts, never for more
    than the processed ones and the allowed number in flight, counts no chunk
    as processed that it did not receive, and keeps a bounded list. *)
Theorem leecher_window (cfg : EpochDownloaderConfig) (ops : list peer_leecher_op) :
  0 <= ParallelChunksDownload cfg -> received ops + ParallelChunksDownload cfg < 2 ^ 32 ->
  let d := peer_leecher_run cfg ops in
  asked d = pl_totalRequested d /\ asked d <= pl_totalProcessed d + ParallelChunksDownload cfg /\
  pl_totalProcessed d + Z.of_nat (length (pl_processingChunks d)) <= received ops /\
  Z.of_nat (length (pl_processingChunks d)) <= 2 * ParallelChunksDownload cfg.
Proof. intros Hp Hw. destruct (peer_leecher_run_ok cfg ops Hp Hw) as [H1 H2 H3 H4]. simpl. rewrite H1. splits; [done|lia|lia|lia]. Qed.

Definition sample_lcfg : EpochDownloaderConfig := mk_EpochDownloaderConfig 500 100000 3.
Definition done_below (n : Z) : answers := mk_answers false (fun id => id <? n) false.
Definition sample_leecher_ops : list peer_leecher_op :=
  [OpTick (done_below 0); OpChunkReceived 1 (done_below 1); OpChunkReceived 2 (done_below 2); OpTick (done_below 3)].

Example sample_leecher_run : peer_leecher_run sample_lcfg sample_leecher_ops =
  mk_BasePeerLeecher 5 2 [] false [(500, 100000, 3); (500, 100000, 1); (500, 100000, 1)].
Proof. reflexivity. Qed.

Lemma leecher_window_witness :
  let d := peer_leecher_run sample_lcfg sample_leecher_ops in
  asked d = pl_totalRequested d /\ asked d <= pl_totalProcessed d + 3 /\
  pl_totalProcessed d + Z.of_nat (length (pl_processingChunks d)) <= received sample_leecher_ops /\
  Z.of_nat (length (pl_processingChunks d)) <= 2 * 3.
Proof. apply (leecher_window sample_lcfg sample_leecher_ops); [discriminate|reflexivity]. Defined.

(** [UnregisterPeer] runs the routine before it removes the peer: an
    application that takes any registered peer starts a session with the peer
    that is leaving. *)
Definition any_peer : LeecherCallbacks (option string) :=
  mk_LeecherCallbacks (fun _ peers => elements peers) (fun _ => false) (fun l _ => head l) (fun _ => None)
    (fun s => bool_decide (is_Some s)) (fun s => default "" s).

Lemma unregistered_peer_selected :
  let d := UnregisterPeer any_peer "p" (Leecher_Routine any_peer (RegisterPeer "p" (Leecher_New None))) in
  bl_Peers d = ∅ /\ bl_app d = Some "p"%string.
Proof. by vm_compute. Qed.
