(* ===== verification/Kvdb.v ===== *)
(** * kvdb: ordered key-value stores and prefixed tables

    The content of a store is a finite map from byte strings to byte strings;
    [NewIterator] lists the pairs of a prefix, from a start key on, in
    ascending order of the keys (kvdb/interface.go).  kvdb/table stores a table
    under a prefix of the keys of another store. *)

From S2P Require Import Prelude Bytes.
Local Open Scope go_scope.

Abbreviation kv := (gmap (list Z) (list Z)).

(** ** Order of the keys *)

Definition key_lt (a b : list Z) : Prop := bytes_Compare a b = Lt.
Definition key_le (a b : list Z) : Prop := bytes_Compare a b <> Gt.

#[export] Instance key_lt_dec a b : Decision (key_lt a b) := decide (bytes_Compare a b = Lt).
#[export] Instance key_le_dec a b : Decision (key_le a b).
Proof. unfold key_le. apply _. Defined.

Lemma bytes_Compare_refl a : bytes_Compare a a = Eq.
Proof. induction a as [|x a IH]; simpl; [done|]. by rewrite Z.compare_refl. Qed.

Lemma bytes_Compare_eq a : forall b, bytes_Compare a b = Eq -> a = b.
Proof.
  induction a as [|x a IH]; intros [|y b]; simpl; try done.
  destruct (Z.compare_spec x y); try done. intros Hab. f_equal; [done|by apply IH].
Qed.

Lemma bytes_Compare_antisym a : forall b, bytes_Compare b a = CompOpp (bytes_Compare a b).
Proof.
  induction a as [|x a IH]; intros [|y b]; simpl; try done.
  rewrite Z.compare_antisym. destruct (x ?= y); simpl; [apply IH|done|done].
Qed.

Lemma bytes_Compare_trans a : forall b c, bytes_Compare a b = Lt -> bytes_Compare b c = Lt -> bytes_Compare a c = Lt.
Proof.
  induction a as [|x a IH]; intros [|y b] [|z c]; simpl; try done.
  destruct (Z.compare_spec x y), (Z.compare_spec y z); try done; intros H1 H2;
    destruct (Z.compare_spec x z); try lia; try done. by apply (IH b).
Qed.

Lemma key_lt_irrefl a : ~ key_lt a a.
Proof. unfold key_lt. by rewrite bytes_Compare_refl. Qed.

#[export] Instance key_lt_trans : Transitive key_lt.
Proof. intros a b c. apply bytes_Compare_trans. Qed.

Lemma key_le_lt a b : key_le a b <-> key_lt a b \/ a = b.
Proof.
  unfold key_le, key_lt. split.
  - destruct (bytes_Compare a b) eqn:E; [right; by apply bytes_Compare_eq|by left|done].
  - intros [->| ->]; [done|]. by rewrite bytes_Compare_refl.
Qed.

Lemma key_lt_total a b : key_lt a b \/ a = b \/ key_lt b a.
Proof.
  unfold key_lt. destruct (bytes_Compare a b) eqn:E; [right; left; by apply bytes_Compare_eq|by left|].
  right. right. by rewrite bytes_Compare_antisym, E.
Qed.

Lemma key_le_not_lt a b : key_le a b <-> ~ key_lt b a.
Proof. unfold key_le, key_lt. rewrite bytes_Compare_antisym. destruct (bytes_Compare b a); naive_solver. Qed.

#[export] Instance key_le_trans : Transitive key_le.
Proof. intros a b c. rewrite !key_le_lt. intros [H1| ->] [H2| ->]; auto. left. by etrans. Qed.

#[export] Instance key_le_total : Total key_le.
Proof. intros a b. rewrite !key_le_lt. destruct (key_lt_total a b) as [?|[->|?]]; auto. Qed.

#[export] Instance key_le_antisymm : AntiSymm (=) key_le.
Proof.
  intros a b. rewrite !key_le_lt. intros [H1|?] [H2|?]; auto. exfalso. apply (key_lt_irrefl a). by etrans.
Qed.

(** ** Prefixes *)

Fixpoint HasPrefix (key prefix : list Z) : bool :=
  match prefix, key with
  | [], _ => true
  | _ :: _, [] => false
  | x :: prefix, y :: key => (x =? y) && HasPrefix key prefix
  end.

Lemma HasPrefix_spec key prefix : HasPrefix key prefix = true <-> prefix `prefix_of` key.
Proof.
  revert key. induction prefix as [|x prefix IH]; intros [|y key]; simpl.
  - split; [by exists []|done].
  - split; [by eexists|done].
  - split; [done|]. by intros [? ?].
  - rewrite andb_true_iff, Z.eqb_eq, IH. split.
    + intros [-> Hp]. by apply prefix_cons.
    + intros Hp. split; [by eapply prefix_cons_inv_1|by eapply prefix_cons_inv_2].
Qed.

Lemma prefix_key_le prefix key : HasPrefix key prefix = true -> key_le prefix key.
Proof.
  rewrite HasPrefix_spec. intros [k ->]. unfold key_le. induction prefix as [|x p IH]; simpl; [by destruct k|].
  by rewrite Z.compare_refl.
Qed.

(** The keys of a prefix are contiguous. *)
Lemma prefix_interval prefix k1 k2 :
  key_le prefix k1 -> key_le k1 k2 -> HasPrefix k2 prefix = true -> HasPrefix k1 prefix = true.
Proof.
  revert k1 k2. induction prefix as [|x p IH]; intros [|y k1] [|z k2]; unfold key_le in *; simpl; try done.
  destruct (Z.compare_spec x y) as [->|?|?], (Z.compare_spec y z) as [->|?|?]; simpl; try done;
    rewrite ?Z.eqb_refl, ?andb_true_iff, ?Z.eqb_eq; try (intros; lia).
  intros H1 H2 [_ H3]. split; [done|]. by apply (IH k1 k2).
Qed.

(** ** Iteration *)

Definition pair_le {A} (p q : list Z * A) : Prop := key_le p.1 q.1.
#[export] Instance pair_le_dec {A} (p q : list Z * A) : Decision (pair_le p q) := key_le_dec _ _.

Definition sorted_pairs {A} (m : gmap (list Z) A) : list (list Z * A) := merge_sort pair_le (map_to_list m).

(** [NewIterator(prefix, start)] of a store with content [m]. *)
Definition kv_iter {A} (m : gmap (list Z) A) (prefix start : list Z) : list (list Z * A) :=
  filter (fun p => HasPrefix p.1 prefix = true /\ key_le (prefix ++ start) p.1) (sorted_pairs m).

Section sorted_pairs.
Context {A : Type}.
Implicit Types (m : gmap (list Z) A).

#[local] Instance pair_le_total : Total (pair_le (A := A)).
Proof. intros p q. apply key_le_total. Qed.
#[local] Instance pair_le_trans : Transitive (pair_le (A := A)).
Proof. intros p q r. apply key_le_trans. Qed.

Lemma sorted_pairs_perm m : sorted_pairs m ≡ₚ map_to_list m.
Proof. apply merge_sort_Permutation. Qed.

Lemma elem_of_sorted_pairs m k v : (k, v) ∈ sorted_pairs m <-> m !! k = Some v.
Proof. rewrite sorted_pairs_perm. apply elem_of_map_to_list. Qed.

(** The keys are strictly increasing. *)
Lemma sorted_pairs_strict m : StronglySorted (fun p q => key_lt p.1 q.1) (sorted_pairs m).
Proof.
  assert (StronglySorted pair_le (sorted_pairs m)) as Hs by apply (StronglySorted_merge_sort _).
  assert (NoDup (sorted_pairs m).*1) as Hnd by (rewrite sorted_pairs_perm; apply NoDup_fst_map_to_list).
  induction Hs as [|p l Hs IH Hall]; [constructor|]. csimpl in Hnd. apply NoDup_cons in Hnd as [Hn Hnd].
  constructor; [by apply IH|]. rewrite Forall_forall in *. intros q Hq. specialize (Hall q Hq).
  unfold pair_le in Hall. apply key_le_lt in Hall as [|Heq]; [done|]. exfalso. apply Hn. rewrite Heq.
  by apply list_elem_of_fmap_2.
Qed.

(** Two strictly increasing lists with the same pairs are equal. *)
Lemma strict_sorted_unique (l1 l2 : list (list Z * A)) :
  StronglySorted (fun p q => key_lt p.1 q.1) l1 -> StronglySorted (fun p q => key_lt p.1 q.1) l2 ->
  (forall p, p ∈ l1 <-> p ∈ l2) -> l1 = l2.
Proof.
  intros H1. revert l2. induction H1 as [|p l1 H1 IH Hall1]; intros l2 H2 Heq.
  - destruct l2 as [|q l2]; [done|]. assert (q ∈ ([] : list (list Z * A))) as Hq by (apply Heq; left).
    by apply not_elem_of_nil in Hq.
  - inversion H2 as [|q l2' H2' Hall2]; subst.
    + assert (p ∈ ([] : list (list Z * A))) as Hp by (apply Heq; left). by apply not_elem_of_nil in Hp.
    + rewrite Forall_forall in Hall1, Hall2.
      assert (p = q) as ->.
      { assert (p ∈ q :: l2') as Hp by (apply Heq; left). assert (q ∈ p :: l1) as Hq by (apply Heq; left).
        apply elem_of_cons in Hp as [|Hp]; [done|]. apply elem_of_cons in Hq as [|Hq]; [done|].
        exfalso. apply (key_lt_irrefl p.1). etrans; [by apply Hall1|by apply Hall2]. }
      f_equal. apply IH; [done|]. intros x. specialize (Heq x). rewrite !elem_of_cons in Heq.
      split; intros Hx; (destruct Heq as [Ha Hb]).
      * destruct Ha as [->|]; [by right| |done]. exfalso. apply (key_lt_irrefl q.1). by apply Hall1.
      * destruct Hb as [->|]; [by right| |done]. exfalso. apply (key_lt_irrefl q.1). by apply Hall2.
Qed.

Lemma strict_sorted_filter (P : list Z * A -> Prop) `{!forall x, Decision (P x)} l :
  StronglySorted (fun p q => key_lt p.1 q.1) l -> StronglySorted (fun p q => key_lt p.1 q.1) (filter P l).
Proof.
  induction 1 as [|p l Hs IH Hall]; [constructor|]. rewrite filter_cons. destruct (decide (P p)); [|done].
  constructor; [done|]. rewrite Forall_forall in *. intros q [_ Hq]%list_elem_of_filter. by apply Hall.
Qed.

Lemma elem_of_kv_iter m prefix start k v :
  (k, v) ∈ kv_iter m prefix start <->
  m !! k = Some v /\ HasPrefix k prefix = true /\ key_le (prefix ++ start) k.
Proof. unfold kv_iter. rewrite list_elem_of_filter, elem_of_sorted_pairs. simpl. tauto. Qed.

Lemma kv_iter_strict m prefix start : StronglySorted (fun p q => key_lt p.1 q.1) (kv_iter m prefix start).
Proof. apply strict_sorted_filter, sorted_pairs_strict. Qed.

End sorted_pairs.

(** ** kvdb/table/table.go and readonly.go *)

(** The separator is empty. *)
Definition prefixed (key prefix : list Z) : list Z := prefix ++ key.
Definition noPrefix (key prefix : list Z) : list Z :=
  if (length key <? length prefix)%nat then key else drop (length prefix) key.

Definition Table_Put (prefix : list Z) (db : kv) (key value : list Z) : kv := <[prefixed key prefix := value]> db.
Definition Table_Delete (prefix : list Z) (db : kv) (key : list Z) : kv := delete (prefixed key prefix) db.
Definition Table_Get (prefix : list Z) (db : kv) (key : list Z) : option (list Z) := db !! prefixed key prefix.
Definition Table_Has (prefix : list Z) (db : kv) (key : list Z) : bool := bool_decide (is_Some (db !! prefixed key prefix)).

(** The iterator of the underlying store, with the prefix cut from the keys. *)
Definition Table_NewIterator (prefix : list Z) (db : kv) (itPrefix start : list Z) : list (list Z * list Z) :=
  prod_map (fun k => noPrefix k prefix) id <$> kv_iter db (prefixed itPrefix prefix) start.

(** math/big and go-ethereum's [TrimLeftZeroes], as [incPrefix] uses them. *)
Fixpoint TrimLeftZeroes (s : list Z) : list Z :=
  match s with
  | [] => []
  | x :: s' => if x =? 0 then TrimLeftZeroes s' else s
  end.

Definition incPrefix (prefix : list Z) : option (list Z) :=
  let trimmedPrefix := TrimLeftZeroes prefix in
  let endBn := be_value trimmedPrefix + 1 in
  if (length trimmedPrefix <? length (big_Bytes endBn))%nat then None
  else Some (replicate (length prefix - length trimmedPrefix) 0 ++ big_Bytes endBn).

(** The content of a table, read through its prefix. *)
Definition table_content (prefix : list Z) (db : kv) (key : list Z) : option (list Z) := Table_Get prefix db key.

Lemma noPrefix_prefixed key prefix : noPrefix (prefixed key prefix) prefix = key.
Proof.
  unfold noPrefix, prefixed. rewrite length_app.
  destruct (_ <? _)%nat eqn:E; bool_to_prop; [lia|]. apply drop_app_length.
Qed.

Lemma prefixed_inj prefix k1 k2 : prefixed k1 prefix = prefixed k2 prefix -> k1 = k2.
Proof. unfold prefixed. by apply app_inv_head. Qed.

Lemma key_le_app p a b : key_le (p ++ a) (p ++ b) <-> key_le a b.
Proof. unfold key_le. induction p as [|x p IH]; simpl; [done|]. by rewrite Z.compare_refl. Qed.

Lemma key_lt_app p a b : key_lt (p ++ a) (p ++ b) <-> key_lt a b.
Proof. unfold key_lt. induction p as [|x p IH]; simpl; [done|]. by rewrite Z.compare_refl. Qed.

Lemma HasPrefix_app p a b : HasPrefix (p ++ a) (p ++ b) = HasPrefix a b.
Proof. induction p as [|x p IH]; simpl; [done|]. by rewrite Z.eqb_refl. Qed.

Lemma strict_sorted_fmap {A B} (f : list Z * A -> list Z * B) l :
  (forall p q, p ∈ l -> q ∈ l -> key_lt p.1 q.1 -> key_lt (f p).1 (f q).1) ->
  StronglySorted (fun p q => key_lt p.1 q.1) l -> StronglySorted (fun p q => key_lt p.1 q.1) (f <$> l).
Proof.
  intros Hf Hs. induction Hs as [|p l Hs IH Hall]; csimpl; constructor.
  - apply IH. intros x y Hx Hy. apply Hf; by right.
  - apply Forall_forall. intros y (x & -> & Hx)%list_elem_of_fmap.
    apply Hf; [left|by right|by apply (proj1 (Forall_forall _ _) Hall)].
Qed.

Lemma kv_iter_prefixed (db : kv) prefix itPrefix start p :
  p ∈ kv_iter db (prefixed itPrefix prefix) start -> exists k, p.1 = prefixed k prefix /\ HasPrefix k itPrefix = true.
Proof.
  destruct p as [k v]. intros (_ & Hp & _)%elem_of_kv_iter. apply HasPrefix_spec in Hp as [k' Hk].
  exists (itPrefix ++ k'). unfold prefixed in *. simpl. split; [by rewrite Hk, <- app_assoc|].
  apply HasPrefix_spec. by exists k'.
Qed.

(** ** Properties *)

(** A table behaves as a store of its own under its prefix: what was put is
    read back, a deleted key is absent, other keys of the table and all keys
    that do not start with the prefix are untouched; its iterator lists, in
    strictly ascending order, exactly the pairs of the table with the asked
    prefix from the start key on. *)
Theorem Table_isolated (prefix key key' value foreign itPrefix start : list Z) (db : kv) :
  Table_Get prefix (Table_Put prefix db key value) key = Some value /\
  Table_Get prefix (Table_Delete prefix db key) key = None /\
  (key' <> key -> Table_Get prefix (Table_Put prefix db key value) key' = Table_Get prefix db key' /\
                  Table_Get prefix (Table_Delete prefix db key) key' = Table_Get prefix db key') /\
  (HasPrefix foreign prefix = false -> Table_Put prefix db key value !! foreign = db !! foreign /\
                                       Table_Delete prefix db key !! foreign = db !! foreign) /\
  StronglySorted (fun p q => key_lt p.1 q.1) (Table_NewIterator prefix db itPrefix start) /\
  (forall k v, (k, v) ∈ Table_NewIterator prefix db itPrefix start <->
     Table_Get prefix db k = Some v /\ HasPrefix k itPrefix = true /\ key_le (itPrefix ++ start) k).
Proof.
  unfold Table_Get, Table_Put, Table_Delete. splits.
  - apply lookup_insert_eq.
  - apply lookup_delete_eq.
  - intros Hne. assert (prefixed key prefix <> prefixed key' prefix) by (by intros ?%prefixed_inj).
    by rewrite lookup_insert_ne, lookup_delete_ne.
  - intros Hf. assert (prefixed key prefix <> foreign) as Hne.
    { intros <-. apply not_true_iff_false in Hf. apply Hf, HasPrefix_spec. by exists key. }
    by rewrite lookup_insert_ne, lookup_delete_ne.
  - apply strict_sorted_fmap; [|apply kv_iter_strict]. intros p q Hp Hq.
    destruct (kv_iter_prefixed db prefix itPrefix start p Hp) as (kp & Hkp & _).
    destruct (kv_iter_prefixed db prefix itPrefix start q Hq) as (kq & Hkq & _).
    destruct p as [p vp], q as [q vq]. simpl in *. subst. rewrite !noPrefix_prefixed.
    apply key_lt_app.
  - intros k v. unfold Table_NewIterator. rewrite list_elem_of_fmap. split.
    + intros ([k0 v0] & Heq & Hin). destruct (kv_iter_prefixed db prefix itPrefix start _ Hin) as (k' & Hk' & Hp).
      simpl in *. subst k0. injection Heq as -> ->. rewrite noPrefix_prefixed.
      apply elem_of_kv_iter in Hin as (Hl & _ & Hle). split; [done|]. split; [done|].
      unfold prefixed in Hle. by rewrite <- app_assoc, key_le_app in Hle.
    + intros (Hl & Hp & Hle). exists (prefixed k prefix, v). simpl. rewrite noPrefix_prefixed. split; [done|].
      apply elem_of_kv_iter. unfold prefixed in *. rewrite HasPrefix_app, <- app_assoc, key_le_app. done.
Qed.

(** ** The end of a prefix range *)

Lemma big_Bytes_length_of n k :
  (0 < k)%nat -> 256 ^ (Z.of_nat k - 1) <= n < 256 ^ Z.of_nat k -> length (big_Bytes n) = k.
Proof.
  intros Hk [Hlo Hhi]. assert (0 < n) by (pose proof (Z.pow_pos_nonneg 256 (Z.of_nat k - 1)); lia).
  unfold big_Bytes. destruct (n =? 0) eqn:E; bool_to_prop; [lia|]. rewrite be_split_length.
  change 256 with (2 ^ 8) in *. rewrite <- !Z.pow_mul_r in * by lia.
  apply Z.log2_le_pow2 in Hlo; [|lia]. apply Z.log2_lt_pow2 in Hhi; [|lia].
  assert (Z.log2 n / 8 = Z.of_nat k - 1); [|lia]. symmetry.
  apply (Z.div_unique _ _ _ (Z.log2 n - 8 * (Z.of_nat k - 1))); lia.
Qed.

(** [incPrefix] of a prefix that starts with a non-zero byte and is not
    all 0xff has the same length and the next value: together they delimit the
    keys of the prefix.  All 0xff has no such bound. *)
Theorem incPrefix_correct (b : Z) (prefix : list Z) :
  b <> 0 -> Forall is_byte (b :: prefix) ->
  if be_value (b :: prefix) + 1 =? 256 ^ Z.of_nat (S (length prefix))
  then incPrefix (b :: prefix) = None
  else exists limit, incPrefix (b :: prefix) = Some limit /\ length limit = S (length prefix) /\
         be_value limit = be_value (b :: prefix) + 1.
Proof.
  intros Hb Hall. pose proof (be_value_bound _ Hall) as Hbd. simpl length in Hbd.
  assert (256 ^ Z.of_nat (length prefix) <= be_value (b :: prefix)) as Hlo.
  { change (b :: prefix) with ([b] ++ prefix). rewrite be_value_app.
    apply Forall_cons in Hall as [Hbb Hp]. pose proof (be_value_bound _ Hp).
    unfold be_value at 1. simpl. unfold is_byte in Hbb. nia. }
  unfold incPrefix. simpl TrimLeftZeroes. destruct (b =? 0) eqn:E; bool_to_prop; [lia|].
  set (n := be_value (b :: prefix)) in *. set (k := length prefix) in *. simpl length.
  destruct (n + 1 =? _) eqn:E1; bool_to_prop.
  - rewrite (big_Bytes_length_of (n + 1) (S (S k))); [|lia|].
    + by rewrite (proj2 (Nat.ltb_lt _ _)) by lia.
    + rewrite E1. split; [apply Z.pow_le_mono_r; lia|]. apply Z.pow_lt_mono_r; lia.
  - assert (length (big_Bytes (n + 1)) = S k) as Hl.
    { apply big_Bytes_length_of; [lia|]. replace (Z.of_nat (S k) - 1) with (Z.of_nat k) by lia. lia. }
    rewrite Hl, Nat.ltb_irrefl, Nat.sub_diag. simpl. eexists. split; [reflexivity|].
    split; [done|]. apply big_Bytes_value. pose proof (Z.pow_pos_nonneg 256 (Z.of_nat k)). lia.
Qed.

Lemma incPrefix_correct_witness :
  exists limit, incPrefix [65; 255] = Some limit /\ length limit = 2%nat /\ be_value limit = be_value [65; 255] + 1.
Proof.
  exact (incPrefix_correct 65 [255] ltac:(lia) ltac:(repeat constructor; unfold is_byte; lia)).
Defined.

(** A prefix of zero bytes, or one whose last bytes after the zeros are
    all 0xff, gets no upper bound although one exists: [Compact] then runs to
    the end of the underlying store. *)
Theorem incPrefix_leading_zeros (n m : nat) :
  incPrefix (replicate (S n) 0 ++ replicate m 255) = None.
Proof.
  unfold incPrefix. assert (TrimLeftZeroes (replicate (S n) 0 ++ replicate m 255) = replicate m 255) as ->.
  { induction n as [|n IH]; [by destruct m|]. exact IH. }
  assert (be_value (replicate m 255) + 1 = 256 ^ Z.of_nat m) as Hv.
  { unfold be_value. rewrite reverse_replicate. induction m as [|m IH]; [done|]. simpl le_value.
    replace (Z.of_nat (S m)) with (Z.of_nat m + 1) by lia. rewrite Z.pow_add_r by lia. lia. }
  rewrite Hv, length_replicate, (big_Bytes_length_of _ (S m)).
  - by rewrite (proj2 (Nat.ltb_lt _ _)) by lia.
  - lia.
  - split; [apply Z.pow_le_mono_r; lia|apply Z.pow_lt_mono_r; lia].
Qed.
