(* ===== verification/MultiDb.v ===== *)
(** * kvdb/multidb: many tables routed to few databases

    A request such as "gossip/e" is routed to a database and to a table in it;
    what is left of the request after the longest known part names the database
    or extends the table.  Each database keeps the list of its tables, and a
    table whose prefix conflicts with one of them is refused.

    Strings are lists of bytes.  The list of records is stored RLP-encoded: the
    codec is go-ethereum's, the class [TablesRlp].  Compiled name filters
    (utils/fmtfilter) are functions of the request. *)

From S2P Require Import Prelude Bytes Kvdb.
Local Open Scope go_scope.

(** ** types.go and records.go *)

Record Route := mk_Route { ro_Type : list Z; ro_Name : list Z; ro_Table : list Z; ro_NoDrop : bool }.

Record scanfRoute := mk_scanfRoute {
  sr_Name : list Z -> option (list Z);
  sr_Type : list Z;
  sr_Table : list Z;
  sr_NoDrop : bool
}.

Record TableRecord := mk_TableRecord { tr_Req : list Z; tr_Table : list Z }.
#[export] Instance TableRecord_eq_dec : EqDecision TableRecord.
Proof. solve_decision. Defined.

Class TablesRlp := {
  tr_Encode : list TableRecord -> list Z;
  tr_Decode : list Z -> outcome (list TableRecord)
}.
Class TablesRlpLaws `{!TablesRlp} : Prop := tr_roundtrip rs : tr_Decode (tr_Encode rs) = Ok rs.

Section multidb.
Context `{!TablesRlp}.

Definition ReadTablesList (store : kv) (tableRecordsKey : list Z) : outcome (list TableRecord) :=
  match store !! tableRecordsKey with
  | None => Ok []
  | Some b => tr_Decode b
  end.

Definition WriteTablesList (store : kv) (tableRecordsKey : list Z) (records : list TableRecord) : kv :=
  <[tableRecordsKey := tr_Encode records]> store.

(** ** producer.go *)

Record Producer := mk_Producer {
  pr_routingTable : gmap (list Z) Route;
  pr_routingFmt : list scanfRoute;
  pr_tableRecordsKey : list Z
}.

(** The compiled part is an argument: the routes whose request or name has a
    '%', compiled. *)
Definition NewProducer (exact : gmap (list Z) Route) (compiled : list scanfRoute) (tableRecordsKey : list Z) : outcome Producer :=
  match exact !! [] with
  | None => Err "default route must always be defined"
  | Some _ => Ok (mk_Producer exact compiled tableRecordsKey)
  end.

(** The first filter that accepts the request. *)
Fixpoint scan_routes (fmts : list scanfRoute) (req : list Z) : option Route :=
  match fmts with
  | [] => None
  | f :: fmts =>
      match sr_Name f req with
      | Some name => Some (mk_Route (sr_Type f) name (sr_Table f) (sr_NoDrop f))
      | None => scan_routes fmts req
      end
  end.

Definition find_route (p : Producer) (req : list Z) : option Route :=
  match pr_routingTable p !! req with
  | Some dest => Some dest
  | None => scan_routes (pr_routingFmt p) req
  end.

(** [strings.LastIndexByte(req, '/')] with the two parts around it. *)
Fixpoint cut_last_slash (req : list Z) : option (list Z * list Z) :=
  match req with
  | [] => None
  | c :: req' =>
      match cut_last_slash req' with
      | Some (l, r) => Some (c :: l, r)
      | None => if c =? 47 then Some ([], req') else None
      end
  end.

Fixpoint RouteOf_loop (fuel : nat) (p : Producer) (req rightPartTable rightPartName : list Z) : outcome Route :=
  match find_route p req with
  | Some dest =>
      Ok (mk_Route (ro_Type dest) (ro_Name dest ++ rightPartName) (ro_Table dest ++ rightPartTable) (ro_NoDrop dest))
  | None =>
      match fuel with
      | O => Err "out of fuel"
      | S fuel =>
          match cut_last_slash req with
          | None => RouteOf_loop fuel p [] rightPartTable req
          | Some (l, r) => RouteOf_loop fuel p l (rightPartTable ++ r) rightPartName
          end
      end
  end.

Definition RouteOf (p : Producer) (req : list Z) : outcome Route := RouteOf_loop (S (length req)) p req [] [].

Definition tablesConflicting (a b : list Z) : bool := HasPrefix a b || HasPrefix b a.

(** The loop of [handleRoute]: a known record, an error, or nothing found. *)
Fixpoint check_records (records : list TableRecord) (req : list Z) (route : Route) : outcome bool :=
  match records with
  | [] => Ok false
  | old :: records =>
      if bool_decide (tr_Req old = req) && bool_decide (tr_Table old = ro_Table route) then Ok true
      else if bool_decide (tr_Req old = req) && negb (bool_decide (tr_Table old = ro_Table route)) then Err "re-assigning table"
      else if tablesConflicting (tr_Table old) (ro_Table route) then Err "conflicting tables"
      else check_records records req route
  end.

Definition handleRoute (p : Producer) (db : kv) (req : list Z) (route : Route) : outcome kv :=
  let* records := ReadTablesList db (pr_tableRecordsKey p) in
  let* known := check_records records req route in
  if (known : bool) then Ok db
  else Ok (WriteTablesList db (pr_tableRecordsKey p) (records ++ [mk_TableRecord req (ro_Table route)])).

(** The databases of the producers, by type and name; an absent one is created. *)
Definition MultiDb_OpenDB (p : Producer) (used : list Z -> bool) (dbs : gmap (list Z * list Z) kv) (req : list Z) :
    outcome (Route * gmap (list Z * list Z) kv) :=
  let* route := RouteOf p req in
  if negb (used (ro_Type route)) then Err "missing producer"
  else
    let db := default ∅ (dbs !! (ro_Type route, ro_Name route)) in
    let* db := handleRoute p db req route in
    Ok (route, <[(ro_Type route, ro_Name route) := db]> dbs).

(** ** verify.go *)

Fixpoint verify_db (p : Producer) (typ name : list Z) (records : list TableRecord) : outcome unit :=
  match records with
  | [] => Ok tt
  | old :: records =>
      let* newRoute := RouteOf p (tr_Req old) in
      if negb (bool_decide (typ = ro_Type newRoute)) then Err "DB type doesn't match"
      else if negb (bool_decide (name = ro_Name newRoute)) then Err "DB name doesn't match"
      else if negb (bool_decide (tr_Table old = ro_Table newRoute)) then Err "table doesn't match"
      else verify_db p typ name records
  end.

Fixpoint verifyRecords (p : Producer) (old : list ((list Z * list Z) * list TableRecord)) : outcome unit :=
  match old with
  | [] => Ok tt
  | ((typ, name), records) :: old =>
      let* _ := verify_db p typ name records in verifyRecords p old
  end.

(** The databases that the producers name, in the order of the walk over the map. *)
Definition getRecords (p : Producer) (dbs : list ((list Z * list Z) * kv)) : outcome (list ((list Z * list Z) * list TableRecord)) :=
  foldM (fun acc '(loc, db) => let* records := ReadTablesList db (pr_tableRecordsKey p) in Ok (acc ++ [(loc, records)])) [] dbs.

Definition Verify (p : Producer) (dbs : list ((list Z * list Z) * kv)) : outcome unit :=
  let* old := getRecords p dbs in verifyRecords p old.

End multidb.

(** types.go *)
Definition DBLocatorOf (r : Route) : list Z * list Z := (ro_Type r, ro_Name r).
Definition TableLocatorOf (r : Route) : list Z * list Z * list Z := (ro_Type r, ro_Name r, ro_Table r).

(** ** producer.go: the operations on all the producers

    A producer of databases is the interface [kvdb.FullDBProducer].  The maps of
    producers are walked in any order: each operation takes the order. *)

Class FullDBProducer (P : Type) := {
  fp_Names : P -> list (list Z);
  fp_NotFlushedSizeEst : P -> Z;
  fp_Flush : P -> list Z -> option string * P;
  fp_Initialize : P -> list (list Z) -> option (list Z) -> option string * option (list Z) * P;
  fp_Close : P -> option string * P
}.

Section producers.
Context {P : Type} `{!FullDBProducer P}.

(** [usedProducers] has an entry for each type of the routes: the producer of that
    type, or nil if there is none. *)
Definition used_types (table : gmap (list Z) Route) : gset (list Z) :=
  list_to_set ((fun kv : list Z * Route => ro_Type kv.2) <$> map_to_list table).

(** A walk that calls each producer and stops at the first error. *)
Definition each_producer (call : P -> option string * P) (order : list (list Z)) (all : gmap (list Z) P) :
    outcome (option string * gmap (list Z) P) :=
  foldM (fun '(err, all) typ =>
    match err with
    | Some _ => Ok (err, all)
    | None =>
        match all !! typ with
        | None => Panic "nil producer"
        | Some p => let '(err, p) := call p in Ok (err, <[typ := p]> all)
        end
    end) (None, all) order.

Definition MultiDb_Names (used : list (list Z)) (all : gmap (list Z) P) : outcome (list (list Z)) :=
  foldM (fun res typ => match all !! typ with None => Panic "nil producer" | Some p => Ok (res ++ fp_Names p) end) [] used.
Definition MultiDb_NotFlushedSizeEst (used : list (list Z)) (all : gmap (list Z) P) : outcome Z :=
  foldM (fun res typ => match all !! typ with None => Panic "nil producer" | Some p => Ok (res + fp_NotFlushedSizeEst p) end) 0 used.
Definition MultiDb_Flush (used : list (list Z)) (id : list Z) (all : gmap (list Z) P) : outcome (option string * gmap (list Z) P) :=
  each_producer (fun p => fp_Flush p id) used all.
Definition MultiDb_Close (order : list (list Z)) (all : gmap (list Z) P) : outcome (option string * gmap (list Z) P) :=
  each_producer fp_Close order all.

(** The id found by one producer is given to the next. *)
Fixpoint MultiDb_Initialize (order : list (list Z)) (dbNames : list (list Z)) (flushID : option (list Z)) (all : gmap (list Z) P) :
    outcome (option string * option (list Z) * gmap (list Z) P) :=
  match order with
  | [] => Ok (None, flushID, all)
  | typ :: order =>
      match all !! typ with
      | None => Panic "nil producer"
      | Some p =>
          let '(err, flushID, p) := fp_Initialize p dbNames flushID in
          match err with
          | Some _ => Ok (err, flushID, <[typ := p]> all)
          | None => MultiDb_Initialize order dbNames flushID (<[typ := p]> all)
          end
      end
  end.

End producers.

(** store.go *)
Definition closableTable_Close (close : kv -> option string * kv) (underlying : kv) : option string * kv := close underlying.
Definition closableTable_Drop (noDrop : bool) (drop : kv -> kv) (db : kv) : kv := if noDrop then db else drop db.

(** * Routing ends, and tables never overlap *)

Lemma cut_last_slash_shorter req l r : cut_last_slash req = Some (l, r) -> (length l < length req)%nat.
Proof.
  revert l r. induction req as [|c req IH]; intros l r; simpl; [done|].
  destruct (cut_last_slash req) as [[l0 r0]|]; [intros [= <- <-]; simpl; specialize (IH _ _ eq_refl); lia|].
  destruct (c =? 47); [|done]. intros [= <- <-]. simpl. lia.
Qed.

Lemma RouteOf_loop_total fuel p : forall req rt rn, is_Some (pr_routingTable p !! []) -> (length req < fuel)%nat ->
  exists r, RouteOf_loop fuel p req rt rn = Ok r.
Proof.
  induction fuel as [|fuel IH]; intros req rt rn [d Hd] Hf; [lia|]. cbn [RouteOf_loop].
  destruct (find_route p req) as [dest|] eqn:E; [by eexists|].
  destruct (cut_last_slash req) as [[l r]|] eqn:Hc.
  - apply cut_last_slash_shorter in Hc. apply IH; [by eexists|lia].
  - destruct req as [|c req]; [unfold find_route in E; by rewrite Hd in E|]. apply IH; [by eexists|simpl in *; lia].
Qed.

Lemma conflicting_spec a b : tablesConflicting a b = false -> forall k k', prefixed k a <> prefixed k' b.
Proof.
  unfold tablesConflicting. intros [Ha Hb]%orb_false_iff k k' Heq.
  apply not_true_iff_false in Ha, Hb. rewrite HasPrefix_spec in Ha, Hb.
  destruct (prefix_weak_total a b (a ++ k)) as [?|?]; try done; [by eexists|].
  unfold prefixed in Heq. rewrite Heq. by eexists.
Qed.

Lemma conflicting_sym a b : tablesConflicting a b = tablesConflicting b a.
Proof. unfold tablesConflicting. apply orb_comm. Qed.

(** One record for a request, and no two conflicting tables. *)
Definition records_ok (rs : list TableRecord) : Prop :=
  NoDup (tr_Req <$> rs) /\
  forall a b, a ∈ rs -> b ∈ rs -> a <> b -> tablesConflicting (tr_Table a) (tr_Table b) = false.

Lemma check_records_spec rs req route :
  match check_records rs req route with
  | Ok true => mk_TableRecord req (ro_Table route) ∈ rs
  | Ok false => forall r, r ∈ rs -> tr_Req r <> req /\ tablesConflicting (tr_Table r) (ro_Table route) = false
  | _ => True
  end.
Proof.
  induction rs as [|old rs IH]; cbn [check_records]; [by intros r ?%not_elem_of_nil|].
  destruct (decide (tr_Req old = req)) as [Hr|Hr]; destruct (decide (tr_Table old = ro_Table route)) as [Ht|Ht];
    rewrite ?(bool_decide_eq_true_2 (tr_Req old = req)), ?(bool_decide_eq_false_2 (tr_Req old = req)),
      ?(bool_decide_eq_true_2 (tr_Table old = ro_Table route)), ?(bool_decide_eq_false_2 (tr_Table old = ro_Table route)) by done;
    cbn [andb negb].
  - rewrite <- Hr, <- Ht. destruct old. left.
  - done.
  - destruct (tablesConflicting _ _) eqn:E; [done|]. destruct (check_records rs req route) as [[]| |]; [by right| |done..].
    intros r [->|Hin]%elem_of_cons; [done|by apply IH].
  - destruct (tablesConflicting _ _) eqn:E; [done|]. destruct (check_records rs req route) as [[]| |]; [by right| |done..].
    intros r [->|Hin]%elem_of_cons; [done|by apply IH].
Qed.

Lemma check_records_known rs req route :
  records_ok rs -> mk_TableRecord req (ro_Table route) ∈ rs -> check_records rs req route = Ok true.
Proof.
  intros [Hnd Hok] Hin. assert (forall r, r ∈ rs -> tr_Req r = req -> r = mk_TableRecord req (ro_Table route)) as Huniq.
  { intros r Hr Hq. apply list_elem_of_lookup in Hin as [i Hi], Hr as [j Hj].
    assert (i = j) as <-; [|congruence].
    apply (NoDup_lookup _ _ _ req Hnd); rewrite list_lookup_fmap, ?Hi, ?Hj; simpl; congruence. }
  clear Hnd. induction rs as [|old rs IH]; cbn [check_records]; [by apply not_elem_of_nil in Hin|].
  destruct (decide (old = mk_TableRecord req (ro_Table route))) as [->|Hne].
  - simpl. by rewrite !bool_decide_eq_true_2.
  - apply elem_of_cons in Hin as [|Hin]; [done|].
    assert (tr_Req old <> req) as Hr by (intros Hq; apply Hne, Huniq; [left|done]).
    rewrite (bool_decide_eq_false_2 _ Hr). cbn [andb].
    assert (tablesConflicting (tr_Table old) (ro_Table route) = false) as ->
      by (apply (Hok old (mk_TableRecord req (ro_Table route))); [left|by right|done]).
    apply IH; [|done|]; intros; [apply Hok|apply Huniq]; try done; by right.
Qed.

Section opened.
Context `{!TablesRlp} `{!TablesRlpLaws} (p : Producer).

Definition tables_of (db : kv) : list TableRecord :=
  match ReadTablesList db (pr_tableRecordsKey p) with Ok rs => rs | _ => [] end.

(** Every database lists its tables. *)
Definition dbs_ok (dbs : gmap (list Z * list Z) kv) : Prop :=
  forall loc db, dbs !! loc = Some db ->
    exists rs, ReadTablesList db (pr_tableRecordsKey p) = Ok rs /\ records_ok rs.

Lemma handleRoute_spec db req route db' rs :
  ReadTablesList db (pr_tableRecordsKey p) = Ok rs -> records_ok rs -> handleRoute p db req route = Ok db' ->
  exists rs', ReadTablesList db' (pr_tableRecordsKey p) = Ok rs' /\ records_ok rs' /\ rs `prefix_of` rs' /\
    mk_TableRecord req (ro_Table route) ∈ rs' /\
    (forall k, k <> pr_tableRecordsKey p -> db' !! k = db !! k).
Proof.
  intros Hrs Hok Hh. unfold handleRoute in Hh. rewrite Hrs in Hh. cbn [outcome_bind] in Hh.
  pose proof (check_records_spec rs req route) as Hc. destruct (check_records rs req route) as [[]| |]; cbn [outcome_bind] in Hh; [| |done..].
  - injection Hh as <-. by exists rs.
  - injection Hh as <-. eexists. split; [unfold ReadTablesList, WriteTablesList; rewrite lookup_insert_eq; apply tr_roundtrip|].
    destruct Hok as [Hnd Hconf]. split; [split|].
    + rewrite fmap_app. apply NoDup_app. split; [done|]. split; [|apply NoDup_singleton].
      intros x (r & -> & Hr)%list_elem_of_fmap Hx. csimpl in Hx. apply list_elem_of_singleton in Hx. by apply (Hc r Hr).
    + intros a b [Ha| ->%list_elem_of_singleton]%elem_of_app [Hb| ->%list_elem_of_singleton]%elem_of_app Hne; try done.
      * by apply Hconf.
      * by apply Hc.
      * rewrite conflicting_sym. by apply Hc.
    + split; [by eexists|]. split; [set_solver|]. intros k Hk. unfold WriteTablesList. by rewrite lookup_insert_ne.
Qed.

(** *** Verification *)

(** A record is routed to where it was found. *)
Definition routed (loc : list Z * list Z) (r : TableRecord) : Prop :=
  exists route, RouteOf p (tr_Req r) = Ok route /\ DBLocatorOf route = loc /\ ro_Table route = tr_Table r.

Lemma verify_db_spec typ name rs : is_Some (pr_routingTable p !! []) ->
  verify_db p typ name rs = Ok tt <-> forall r, r ∈ rs -> routed (typ, name) r.
Proof.
  intros Hd. induction rs as [|old rs IH]; cbn [verify_db]; [split; [by intros _ r ?%not_elem_of_nil|done]|].
  destruct (RouteOf_loop_total (S (length (tr_Req old))) p (tr_Req old) [] [] Hd ltac:(lia)) as [route Hr].
  change (RouteOf_loop _ p (tr_Req old) [] []) with (RouteOf p (tr_Req old)) in Hr. rewrite Hr. cbn [outcome_bind].
  assert (routed (typ, name) old <-> typ = ro_Type route /\ name = ro_Name route /\ tr_Table old = ro_Table route) as Ho.
  { unfold routed, DBLocatorOf. rewrite Hr. split; [|naive_solver]. by intros (? & [= <-] & [= -> ->] & ->). }
  setoid_rewrite elem_of_cons.
  destruct (decide (typ = ro_Type route)) as [Ht|Ht]; [rewrite (bool_decide_eq_true_2 _ Ht)|rewrite (bool_decide_eq_false_2 _ Ht); naive_solver].
  destruct (decide (name = ro_Name route)) as [Hn|Hn]; [rewrite (bool_decide_eq_true_2 _ Hn)|rewrite (bool_decide_eq_false_2 _ Hn); naive_solver].
  destruct (decide (tr_Table old = ro_Table route)) as [Hb|Hb]; [rewrite (bool_decide_eq_true_2 _ Hb)|rewrite (bool_decide_eq_false_2 _ Hb); naive_solver].
  cbn [negb]. rewrite IH. naive_solver.
Qed.

Lemma verifyRecords_spec old : is_Some (pr_routingTable p !! []) ->
  verifyRecords p old = Ok tt <-> forall loc rs r, (loc, rs) ∈ old -> r ∈ rs -> routed loc r.
Proof.
  intros Hd. induction old as [|[[typ name] rs] old IH]; cbn [verifyRecords]; [split; [by intros _ ? ? ? ?%not_elem_of_nil|done]|].
  pose proof (verify_db_spec typ name rs Hd) as Hv. setoid_rewrite elem_of_cons.
  destruct (verify_db p typ name rs) as [[]|?|?]; cbn [outcome_bind]; [rewrite IH; naive_solver|..];
    (split; [done|]; intros Hall; exfalso; by assert (Err "" = Ok tt) by (apply Hv; naive_solver)) ||
    (split; [done|]; intros Hall; exfalso; destruct Hv as [_ Hv]; discriminate Hv; naive_solver).
Qed.

Lemma getRecords_spec l : (forall loc db, (loc, db) ∈ l -> exists rs, ReadTablesList db (pr_tableRecordsKey p) = Ok rs) ->
  getRecords p l = Ok ((fun x => (x.1, tables_of x.2)) <$> l).
Proof.
  intros Hl. unfold getRecords.
  match goal with |- foldM ?f [] l = _ => enough (forall acc, foldM f acc l = Ok (acc ++ ((fun x => (x.1, tables_of x.2)) <$> l))) as Hacc by apply Hacc end.
  induction l as [|[loc db] l IH]; intros acc; cbn [foldM fmap list_fmap]; [by rewrite app_nil_r|].
  destruct (Hl loc db ltac:(left)) as [rs Hrs]. rewrite Hrs. cbn [outcome_bind].
  rewrite IH by (intros; apply (Hl loc0); by right). unfold tables_of at 2. cbn [fst snd]. rewrite Hrs. by rewrite <- app_assoc.
Qed.

Lemma Verify_spec dbs l : is_Some (pr_routingTable p !! []) -> dbs_ok dbs -> l ≡ₚ map_to_list dbs ->
  Verify p l = Ok tt <-> forall loc db r, dbs !! loc = Some db -> r ∈ tables_of db -> routed loc r.
Proof.
  intros Hd Hok Hl.
  assert (forall loc db, (loc, db) ∈ l <-> dbs !! loc = Some db) as Hin by (intros loc db; rewrite Hl; apply elem_of_map_to_list).
  unfold Verify. rewrite getRecords_spec by (intros loc db Hx%Hin; destruct (Hok _ _ Hx) as (rs & ? & _); by exists rs).
  cbn [outcome_bind]. rewrite verifyRecords_spec by done. split.
  - intros Hall loc db r Hx Hr. apply (Hall loc (tables_of db) r); [|done]. apply list_elem_of_fmap. exists (loc, db). split; [done|]. by apply Hin.
  - intros Hall loc rs r ([loc' db] & [= -> ->] & Hx%Hin)%list_elem_of_fmap Hr. by apply (Hall loc' db).
Qed.

(** A request whose record is routed to where it was found opens that table. *)
Lemma routed_opens used dbs loc db r : dbs_ok dbs -> dbs !! loc = Some db -> r ∈ tables_of db -> routed loc r -> used loc.1 = true ->
  exists route, MultiDb_OpenDB p used dbs (tr_Req r) = Ok (route, dbs) /\ TableLocatorOf route = (loc.1, loc.2, tr_Table r).
Proof.
  intros Hok Hdb Hr (route & Hroute & Hloc & Ht) Hu. exists route.
  destruct (Hok _ _ Hdb) as (rs & Hrs & Hrok). unfold tables_of in Hr. rewrite Hrs in Hr. subst loc. cbn in Hu |- *.
  unfold MultiDb_OpenDB. rewrite Hroute. cbn [outcome_bind]. rewrite Hu. cbn [negb]. unfold DBLocatorOf in Hdb. rewrite Hdb.
  cbn [default from_option id]. unfold handleRoute. rewrite Hrs. cbn [outcome_bind].
  rewrite check_records_known; [|done|rewrite Ht; by destruct r]. cbn [outcome_bind]. split; [|unfold TableLocatorOf; by rewrite Ht].
  by rewrite insert_id.
Qed.

End opened.

(** *** All the producers *)

Section each.
Context {P : Type} `{!FullDBProducer P}.

(** Without an error each producer has been called once. *)
Lemma each_producer_done (call : P -> option string * P) order : forall all err all',
  NoDup order -> each_producer call order all = Ok (err, all') ->
  (err = None -> forall typ, all' !! typ = if decide (typ ∈ order) then (fun p => (call p).2) <$> all !! typ else all !! typ) /\
  (forall typ, typ ∉ order -> all' !! typ = all !! typ).
Proof.
  unfold each_producer. induction order as [|t order IH]; intros all err all' Hnd He; cbn [foldM] in He.
  { injection He as <- <-. split; [|done]. intros _ typ. by rewrite decide_False by apply not_elem_of_nil. }
  apply NoDup_cons in Hnd as [Ht Hnd]. destruct (all !! t) as [p|] eqn:Hp; cbn [outcome_bind] in He; [|done].
  destruct (call p) as [e p'] eqn:Hc. cbn [outcome_bind] in He. destruct e as [e|].
  - assert (forall l, foldM (fun '(err, all) typ => match err with Some _ => Ok (err, all) | None =>
      match all !! typ with None => Panic "nil producer" | Some p => let '(err, p) := call p in Ok (err, <[typ := p]> all) end end)
      (Some e, <[t := p']> all) l = Ok (Some e, <[t := p']> all)) as Hstop by (induction l; [done|exact IHl]).
    rewrite Hstop in He. injection He as <- <-. split; [done|]. intros typ Hn. rewrite lookup_insert_ne; [done|set_solver].
  - destruct (IH _ _ _ Hnd He) as [H1 H2]. split.
    + intros Hn typ. rewrite (H1 Hn). destruct (decide (typ = t)) as [->|Hne].
      * rewrite decide_False by done. rewrite decide_True by left. by rewrite lookup_insert_eq, Hp; simpl; rewrite Hc.
      * rewrite lookup_insert_ne by done. destruct (decide (typ ∈ order)); [rewrite decide_True by (by right)|rewrite decide_False by set_solver]; done.
    + intros typ Hn. rewrite H2 by set_solver. apply lookup_insert_ne. set_solver.
Qed.

(** A flush of all the used producers flushes each of them with the id. *)
Lemma MultiDb_Flush_all (used : list (list Z)) (id : list Z) (all all' : gmap (list Z) P) : NoDup used -> MultiDb_Flush used id all = Ok (None, all') ->
  forall typ p, typ ∈ used -> all !! typ = Some p -> all' !! typ = Some (fp_Flush p id).2.
Proof.
  intros Hnd Hf typ p Ht Hp. destruct (each_producer_done _ _ _ _ _ Hnd Hf) as [H1 _].
  by rewrite (H1 eq_refl), decide_True, Hp.
Qed.

(** A route to a type without a producer is refused by [OpenDB], but a flush
    dereferences the nil producer. *)
Lemma MultiDb_Flush_missing (table : gmap (list Z) Route) (id : list Z) (all : gmap (list Z) P) typ used :
  typ ∈ used_types table -> all !! typ = None -> used = typ :: elements (used_types table ∖ {[typ]}) ->
  MultiDb_Flush used id all = Panic "nil producer".
Proof. intros _ Hn ->. unfold MultiDb_Flush, each_producer. cbn [foldM]. by rewrite Hn. Qed.

End each.

(** ** Properties *)

(** C30: once a database has been opened for a request, it lists the request with
    the table that was opened; opening again gives the same route and changes
    nothing; and no key of the table is a key of the table of another request
    of that database, so writes to one are never seen through the other. *)
Theorem OpenDB_isolates `{!TablesRlp} `{!TablesRlpLaws} (p : Producer) (used : list Z -> bool)
    (dbs dbs' : gmap (list Z * list Z) kv) (req : list Z) (route : Route) :
  is_Some (pr_routingTable p !! []) -> dbs_ok p dbs -> MultiDb_OpenDB p used dbs req = Ok (route, dbs') ->
  dbs_ok p dbs' /\ RouteOf p req = Ok route /\ MultiDb_OpenDB p used dbs' req = Ok (route, dbs') /\
  exists db, dbs' !! (ro_Type route, ro_Name route) = Some db /\ mk_TableRecord req (ro_Table route) ∈ tables_of p db /\
    forall other, other ∈ tables_of p db -> tr_Req other <> req ->
      (forall k k', prefixed k (tr_Table other) <> prefixed k' (ro_Table route)) /\
      forall k v k', Table_Get (ro_Table route) (Table_Put (tr_Table other) db k v) k' = Table_Get (ro_Table route) db k' /\
                     Table_Get (tr_Table other) (Table_Put (ro_Table route) db k v) k' = Table_Get (tr_Table other) db k'.
Proof.
  intros Hdef Hok Ho. unfold MultiDb_OpenDB in Ho. destruct (RouteOf p req) as [r| |] eqn:Hr; cbn [outcome_bind] in Ho; [|done..].
  destruct (used (ro_Type r)) eqn:Hu; cbn [negb] in Ho; [|done]. set (loc := (ro_Type r, ro_Name r)) in *.
  assert (exists rs, ReadTablesList (default ∅ (dbs !! loc)) (pr_tableRecordsKey p) = Ok rs /\ records_ok rs) as (rs & Hrs & Hrok).
  { destruct (dbs !! loc) as [db|] eqn:E; [by apply (Hok loc db)|]. exists []. split; [done|]. split; [constructor|].
    by intros a b ?%not_elem_of_nil. }
  destruct (handleRoute p _ req r) as [db'| |] eqn:Hh; cbn [outcome_bind] in Ho; [|done..]. injection Ho as <- <-.
  destruct (handleRoute_spec p _ req r db' rs Hrs Hrok Hh) as (rs' & Hrs' & Hrok' & _ & Hin & _).
  split; [|split; [done|split]].
  - intros loc' x [[<- <-]|[_ Hx]]%lookup_insert_Some; [by exists rs'|by apply (Hok loc' x)].
  - unfold MultiDb_OpenDB. rewrite Hr. cbn [outcome_bind]. rewrite Hu. cbn [negb]. fold loc. rewrite lookup_insert_eq. cbn [default].
    unfold handleRoute. cbn [from_option id]. rewrite Hrs'. cbn [outcome_bind]. rewrite (check_records_known rs' req r Hrok' Hin).
    cbn [outcome_bind]. by rewrite insert_insert_eq.
  - exists db'. split; [apply lookup_insert_eq|]. assert (tables_of p db' = rs') as Ht by (unfold tables_of; by rewrite Hrs').
    rewrite Ht. split; [done|]. intros other Hoth Hne.
    assert (tablesConflicting (tr_Table other) (ro_Table r) = false) as Hc.
    { apply (proj2 Hrok' other (mk_TableRecord req (ro_Table r))); try done. intros ->. by destruct Hne. }
    pose proof (conflicting_spec _ _ Hc) as Hk. split; [done|]. intros k v k'. unfold Table_Get, Table_Put.
    split; rewrite lookup_insert_ne; [done| |done|]; [apply Hk|by intros Heq; apply (Hk k' k)].
Qed.


Theorem RouteOf_total p req : is_Some (pr_routingTable p !! []) -> exists r, RouteOf p req = Ok r.
Proof. intros Hd. apply RouteOf_loop_total; [done|lia]. Qed.

(** ** Witness: two requests under one database *)

#[local] Instance sample_rlp : TablesRlp := {|
  tr_Encode rs := [Z.pos (encode ((fun r => (tr_Req r, tr_Table r)) <$> rs))];
  tr_Decode b :=
    match b with
    | [Z.pos q] => match decode q : option (list (list Z * list Z)) with
                   | Some l => Ok ((fun x => mk_TableRecord x.1 x.2) <$> l)
                   | None => Err "rlp"
                   end
    | _ => Err "rlp"
    end
|}.
#[local] Instance sample_rlp_laws : TablesRlpLaws.
Proof.
  intros rs. simpl. rewrite decode_encode. f_equal. rewrite <- list_fmap_compose. rewrite <- (list_fmap_id rs) at 2.
  apply list_fmap_ext. by intros i [].
Qed.

Definition sample_producer : Producer :=
  mk_Producer (<[[] := mk_Route [1] [2] [] false]> (<[[97] := mk_Route [1] [2] [65] false]> ∅)) [] [0].
Definition sample_dbs : gmap (list Z * list Z) kv :=
  match MultiDb_OpenDB sample_producer (fun _ => true) ∅ [97; 47; 98] with Ok (_, dbs) => dbs | _ => ∅ end.

Lemma sample_dbs_ok : dbs_ok sample_producer sample_dbs.
Proof.
  intros loc db Hdb. exists [mk_TableRecord [97; 47; 98] [65; 98]].
  assert (map_to_list sample_dbs = [(([1], [2]), <[[0] := tr_Encode [mk_TableRecord [97; 47; 98] [65; 98]]]> ∅)]) as Hl by (by vm_compute).
  apply elem_of_map_to_list in Hdb. rewrite Hl in Hdb. apply list_elem_of_singleton in Hdb as [= -> ->].
  split; [by vm_compute|].
  split; [apply NoDup_singleton|]. intros a b ->%list_elem_of_singleton ->%list_elem_of_singleton. done.
Qed.

(** "a/b" is table "Ab"; "a/c" gets table "Ac" of the same database, while "a"
    alone would conflict with both. *)
Lemma OpenDB_isolates_witness :
  exists route dbs', MultiDb_OpenDB sample_producer (fun _ => true) sample_dbs [97; 47; 99] = Ok (route, dbs') /\
    dbs_ok sample_producer dbs' /\ MultiDb_OpenDB sample_producer (fun _ => true) sample_dbs [97] = Err "conflicting tables".
Proof.
  destruct (MultiDb_OpenDB sample_producer (fun _ => true) sample_dbs [97; 47; 99]) as [[route dbs']| |] eqn:E;
    [|exfalso; revert E; by vm_compute..].
  exists route, dbs'. split; [done|]. split; [|by vm_compute].
  apply (OpenDB_isolates sample_producer (fun _ => true) sample_dbs dbs' [97; 47; 99] route); [by eexists|apply sample_dbs_ok|exact E].
Defined.

(** The same configuration is verified; one that routes "a" to table "B" is not. *)
Definition moved_producer : Producer :=
  mk_Producer (<[[] := mk_Route [1] [2] [] false]> (<[[97] := mk_Route [1] [2] [66] false]> ∅)) [] [0].

Example moved_refused : Verify moved_producer (map_to_list sample_dbs) = Err "table doesn't match".
Proof. vm_compute. reflexivity. Qed.

