(* ===== verification/KvStore.v ===== *)
(** * kvdb/interface.go: what a key-value store promises, and the small wrappers

    [KvReader] and [KvWriter] are the interfaces [kvdb.IteratedReader],
    [kvdb.Writer] and [kvdb.Batcher]; their laws tie a store to the finite map
    it holds.  A Go error is an [option string]; a nil value is [None].
    The wrappers of kvdb/ are instances over any store. *)

From S2P Require Import Prelude Bytes Kvdb.
Local Open Scope go_scope.

Definition IdealBatchSize : Z := 100 * 1024.

(** One write of a batch: [None] deletes. *)
Abbreviation write := (list Z * option (list Z))%type.

Definition apply_write (m : kv) (w : write) : kv :=
  match w.2 with Some v => <[w.1 := v]> m | None => delete w.1 m end.
Definition apply_writes (m : kv) (ws : list write) : kv := foldl apply_write m ws.

(** ** The interfaces *)

Class KvReader (S : Type) := {
  kv_Get : S -> list Z -> outcome (option (list Z));
  kv_Has : S -> list Z -> outcome bool;
  kv_NewIterator : S -> list Z -> list Z -> outcome (list (list Z * list Z));
  kv_content : S -> option kv
}.

(** An open store reads as the map it holds. *)
Class KvReaderLaws (S : Type) `{!KvReader S} : Prop := {
  kv_Get_law s m k : kv_content s = Some m -> kv_Get s k = Ok (m !! k);
  kv_Has_law s m k : kv_content s = Some m -> kv_Has s k = Ok (bool_decide (is_Some (m !! k)));
  kv_NewIterator_law s m p st : kv_content s = Some m -> kv_NewIterator s p st = Ok (kv_iter m p st)
}.

(** [kv_Write] is [NewBatch], the queued operations, then [Write];
    [kv_ValueSize] what [ValueSize] gives for the queued operations. *)
Class KvWriter (S : Type) := {
  kv_Put : S -> list Z -> list Z -> option string * S;
  kv_Delete : S -> list Z -> option string * S;
  kv_ValueSize : list write -> Z;
  kv_Write : S -> list write -> option string * S
}.

(** A failed batch may have been written in part, from its start. *)
Class KvWriterLaws (S : Type) `{!KvReader S} `{!KvWriter S} : Prop := {
  kv_Put_law s m k v : kv_content s = Some m ->
    kv_content (kv_Put s k v).2 = Some (if (kv_Put s k v).1 is Some _ then m else <[k := v]> m);
  kv_Delete_law s m k : kv_content s = Some m ->
    kv_content (kv_Delete s k).2 = Some (if (kv_Delete s k).1 is Some _ then m else delete k m);
  kv_Write_law s m ws : kv_content s = Some m ->
    exists done, done `prefix_of` ws /\ kv_content (kv_Write s ws).2 = Some (apply_writes m done) /\
      ((kv_Write s ws).1 = None -> done = ws)
}.

(** A finite map as a store, the reference. *)
#[export] Instance kv_KvReader : KvReader kv := {|
  kv_Get m k := Ok (m !! k);
  kv_Has m k := Ok (bool_decide (is_Some (m !! k)));
  kv_NewIterator m p st := Ok (kv_iter m p st);
  kv_content m := Some m
|}.
#[export] Instance kv_KvReaderLaws : KvReaderLaws kv.
Proof. by split; intros s m * [= ->]. Qed.

#[export] Instance kv_KvWriter : KvWriter kv := {|
  kv_Put m k v := (None, <[k := v]> m);
  kv_Delete m k := (None, delete k m);
  kv_ValueSize ws := wsum (fun w : write => Z.of_nat (length w.1 + length (default [] w.2))) ws;
  kv_Write m ws := (None, apply_writes m ws)
|}.
#[export] Instance kv_KvWriterLaws : KvWriterLaws kv.
Proof. split; intros s m * [= ->]; [done|done|]. by eexists. Qed.

(** The rest of [kvdb.Store]: snapshots of type [SN], statistics, compaction,
    closing and dropping. *)
Class KvFull (S SN : Type) := {
  kv_GetSnapshot : S -> outcome SN;
  kv_Stat : S -> string -> outcome string;
  kv_Compact : S -> option (list Z) -> option (list Z) -> option string * S;
  kv_Close : S -> option string * S;
  kv_Drop : S -> S
}.

(** A snapshot holds what the store held; a compaction changes no pair. *)
Class KvFullLaws (S SN : Type) `{!KvReader S} `{!KvReader SN} `{!KvFull S SN} : Prop := {
  kv_GetSnapshot_law s m sn : kv_content s = Some m -> kv_GetSnapshot s = Ok sn -> kv_content sn = Some m;
  kv_Compact_law s a b : kv_content (kv_Compact s a b).2 = kv_content s
}.

(** [Replay] of a batch into a writer: the queued operations in their order,
    until one fails. *)
Fixpoint batch_Replay {W : Type} `{!KvWriter W} (ws : list write) (w : W) : option string * W :=
  match ws with
  | [] => (None, w)
  | (k, v) :: ws =>
      let '(err, w) := match v with Some v => kv_Put w k v | None => kv_Delete w k end in
      match err with Some e => (Some e, w) | None => batch_Replay ws w end
  end.

#[export] Instance kv_KvFull : KvFull kv kv := {|
  kv_GetSnapshot m := Ok m;
  kv_Stat m _ := Ok ""%string;
  kv_Compact m _ _ := (None, m);
  kv_Close m := (None, m);
  kv_Drop _ := ∅
|}.
#[export] Instance kv_KvFullLaws : KvFullLaws kv kv.
Proof. split; [|done]. by intros s m sn [= ->] [= ->]. Qed.

(** ** kvdb/devnulldb/devnulldb.go: always empty; writes are discarded *)

Inductive devnull := Devnull.

(** Its iterator has no pair; its batch takes everything and writes nothing. *)
Definition devnull_iterator : list (list Z * list Z) := [].
Definition devnull_batch_Write (s : devnull) (ws : list write) : option string * devnull := (None, s).

#[export] Instance devnull_KvReader : KvReader devnull := {|
  kv_Get _ _ := Ok None;
  kv_Has _ _ := Ok false;
  kv_NewIterator _ _ _ := Ok devnull_iterator;
  kv_content _ := Some ∅
|}.
#[export] Instance devnull_KvReaderLaws : KvReaderLaws devnull.
Proof.
  by split; intros s m * [= <-].
Qed.
#[export] Instance devnull_KvWriter : KvWriter devnull := {|
  kv_Put s _ _ := (None, s);
  kv_Delete s _ := (None, s);
  kv_ValueSize _ := 0;
  kv_Write s ws := devnull_batch_Write s ws
|}.
#[export] Instance devnull_KvFull : KvFull devnull devnull := {|
  kv_GetSnapshot s := Ok s;
  kv_Stat _ _ := Ok ""%string;
  kv_Compact s _ _ := (None, s);
  kv_Close s := (None, s);
  kv_Drop s := s
|}.
#[export] Instance devnull_KvFullLaws : KvFullLaws devnull devnull.
Proof. by split. Qed.

(** ** Lemmas on writes *)

Lemma apply_writes_app m ws1 ws2 : apply_writes m (ws1 ++ ws2) = apply_writes (apply_writes m ws1) ws2.
Proof. apply foldl_app. Qed.

(** What a sequence of writes with distinct keys leaves. *)
Lemma apply_writes_lookup m ws k : NoDup ws.*1 ->
  apply_writes m ws !! k = match (list_to_map ws : gmap (list Z) (option (list Z))) !! k with Some v => v | None => m !! k end.
Proof.
  revert m. induction ws as [|[k0 v0] ws IH]; intros m Hnd; [done|]. csimpl in Hnd. apply NoDup_cons in Hnd as [Hn Hnd].
  unfold apply_writes in *. cbn [foldl list_to_map foldr fst snd]. rewrite IH by done. change (foldr _ _ ws) with (list_to_map (M := gmap (list Z) (option (list Z))) ws).
  destruct (decide (k = k0)) as [->|Hne].
  - rewrite lookup_insert_eq, (not_elem_of_list_to_map_1 ws k0 Hn). unfold apply_write. simpl.
    destruct v0; [by rewrite lookup_insert_eq|by rewrite lookup_delete_eq].
  - rewrite lookup_insert_ne by done. destruct (list_to_map ws !! k); [done|]. unfold apply_write. simpl.
    destruct v0; [by rewrite lookup_insert_ne|by rewrite lookup_delete_ne].
Qed.

(** A replay that meets no error applies the operations. *)
Lemma batch_Replay_content {W : Type} `{!KvReader W, !KvWriter W, !KvWriterLaws W} ws : forall (w : W) m, kv_content w = Some m ->
  exists done, done `prefix_of` ws /\ kv_content (batch_Replay ws w).2 = Some (apply_writes m done) /\
    ((batch_Replay ws w).1 = None -> done = ws).
Proof.
  induction ws as [|[k v] ws IH]; intros w m Hm; [by exists []|]. cbn [batch_Replay].
  set (r := match v with Some v => kv_Put w k v | None => kv_Delete w k end).
  assert (kv_content r.2 = Some (if r.1 is Some _ then m else apply_write m (k, v))) as Hr
    by (subst r; destruct v; [by apply kv_Put_law|by apply kv_Delete_law]).
  destruct r as [[e|] w']; cbn [fst snd] in *; [exists []; split; [apply prefix_nil|done]|].
  destruct (IH w' _ Hr) as (ops & Hp & Hc & Hall). exists ((k, v) :: ops). split; [by apply prefix_cons|]. split; [done|].
  intros H. by rewrite Hall.
Qed.

(** Writing a part from the start and then all is writing all. *)
Lemma apply_writes_last m m' ws : (forall k, k ∉ ws.*1 -> m !! k = m' !! k) -> apply_writes m ws = apply_writes m' ws.
Proof.
  revert m m'. induction ws as [|[k v] ws IH]; intros m m' Heq; [apply map_eq; intros k; apply Heq, not_elem_of_nil|].
  apply IH. intros k' Hk'. unfold apply_write. simpl. destruct (decide (k = k')) as [<-|Hne].
  - destruct v; by rewrite ?lookup_insert_eq, ?lookup_delete_eq.
  - destruct v; rewrite ?lookup_insert_ne, ?lookup_delete_ne by done; apply Heq; csimpl; by rewrite not_elem_of_cons.
Qed.

Lemma apply_writes_foreign m ws k : k ∉ ws.*1 -> apply_writes m ws !! k = m !! k.
Proof.
  revert m. induction ws as [|[k' v] ws IH]; intros m Hk; [done|]. csimpl in Hk. apply not_elem_of_cons in Hk as [Hne Hk].
  unfold apply_writes in *. simpl. rewrite IH by done. unfold apply_write. simpl. destruct v; by rewrite ?lookup_insert_ne, ?lookup_delete_ne by done.
Qed.

Lemma apply_writes_again m pre ws : pre `prefix_of` ws -> apply_writes (apply_writes m pre) ws = apply_writes m ws.
Proof.
  intros [rest ->]. apply apply_writes_last. intros k Hk. apply apply_writes_foreign. rewrite fmap_app, not_elem_of_app in Hk. tauto.
Qed.
