(* ===== verification/TableStore.v ===== *)
(** * kvdb/table: tables over any store

    Kvdb.v has the keys of a table; here is the whole of [Table] over a store
    that satisfies the interface of KvStore.v, with its batches, snapshots and
    compaction.  A table satisfies the interface again, so that tables of
    tables ([NewTable]) need no further proof. *)

From S2P Require Import Prelude Bytes Kvdb KvStore.
Local Open Scope go_scope.

(** ** The pairs of a table *)

Definition table_view (prefix : list Z) (m : kv) : kv :=
  list_to_map (prod_map (fun k => noPrefix k prefix) id <$> filter (fun p => HasPrefix p.1 prefix = true) (map_to_list m)).

Lemma HasPrefix_prefixed key prefix : HasPrefix (prefixed key prefix) prefix = true.
Proof. apply HasPrefix_spec. by exists key. Qed.

Lemma HasPrefix_elim key prefix : HasPrefix key prefix = true -> key = prefixed (noPrefix key prefix) prefix.
Proof.
  intros [k ->]%HasPrefix_spec. pose proof (noPrefix_prefixed k prefix) as Hk. unfold prefixed in *. by rewrite Hk.
Qed.

Lemma table_view_lookup prefix m k : table_view prefix m !! k = m !! prefixed k prefix.
Proof.
  set (l := prod_map (fun k => noPrefix k prefix) id <$> filter (fun p => HasPrefix p.1 prefix = true) (map_to_list m)).
  assert (forall v, (k, v) ∈ l <-> m !! prefixed k prefix = Some v) as Hl.
  { intros v. subst l. rewrite list_elem_of_fmap. split.
    - intros ([k0 v0] & [= -> ->] & [Hp Hin]%list_elem_of_filter). cbn [fst] in Hp.
      rewrite <- HasPrefix_elim by done. by apply elem_of_map_to_list.
    - intros Hm. exists (prefixed k prefix, v). cbn. split; [by rewrite noPrefix_prefixed|].
      apply list_elem_of_filter. split; [apply HasPrefix_prefixed|by apply elem_of_map_to_list]. }
  assert (NoDup l.*1) as Hnd.
  { clear Hl. subst l. pose proof (NoDup_fst_map_to_list m) as Hn. induction (map_to_list m) as [|[k0 v0] l0 IH]; [constructor|].
    csimpl in Hn. apply NoDup_cons in Hn as [Hn0 Hn]. rewrite filter_cons. destruct (decide _) as [Hp|]; [|by apply IH].
    csimpl. apply NoDup_cons. split; [|by apply IH]. intros (q & Hk & ([k1 v1] & -> & [Hp1 Hin]%list_elem_of_filter)%list_elem_of_fmap)%list_elem_of_fmap.
    cbn [fst prod_map] in *.
    assert (k0 = k1) as -> by (rewrite (HasPrefix_elim k0 prefix Hp), (HasPrefix_elim k1 prefix Hp1); by rewrite Hk).
    by apply Hn0, (list_elem_of_fmap_2 fst _ _ Hin). }
  apply option_eq. intros v. unfold table_view. fold l. rewrite <- elem_of_list_to_map by done. apply Hl.
Qed.

Lemma table_view_insert prefix m k v : table_view prefix (<[prefixed k prefix := v]> m) = <[k := v]> (table_view prefix m).
Proof.
  apply map_eq. intros k'. rewrite table_view_lookup. destruct (decide (k = k')) as [<-|Hne]; [by rewrite !lookup_insert_eq|].
  rewrite !lookup_insert_ne, table_view_lookup; [done|done|]. by intros ?%prefixed_inj.
Qed.

Lemma table_view_delete prefix m k : table_view prefix (delete (prefixed k prefix) m) = delete k (table_view prefix m).
Proof.
  apply map_eq. intros k'. rewrite table_view_lookup. destruct (decide (k = k')) as [<-|Hne]; [by rewrite !lookup_delete_eq|].
  rewrite !lookup_delete_ne, table_view_lookup; [done|done|]. by intros ?%prefixed_inj.
Qed.

(** The view of a view is that of the joined prefixes. *)
Lemma prefixed_twice k p1 p2 : prefixed (prefixed k p2) p1 = prefixed k (p1 ++ p2).
Proof. apply app_assoc. Qed.

Lemma table_view_nested p1 p2 m : table_view p2 (table_view p1 m) = table_view (p1 ++ p2) m.
Proof. apply map_eq. intros k. by rewrite !table_view_lookup, prefixed_twice. Qed.

(** A key of one of two prefixes neither of which begins the other is not in the
    other's table. *)
Lemma prefixed_foreign k k' p1 p2 : HasPrefix p1 p2 = false -> HasPrefix p2 p1 = false -> prefixed k p1 <> prefixed k' p2.
Proof.
  intros H12 H21 Heq. unfold prefixed in Heq. assert (p1 `prefix_of` p2 \/ p2 `prefix_of` p1) as [H|H].
  - apply (prefix_weak_total _ _ (p1 ++ k)); [by eexists|]. rewrite Heq. by eexists.
  - apply HasPrefix_spec in H. congruence.
  - apply HasPrefix_spec in H. congruence.
Qed.

Lemma kv_iter_view (prefix : list Z) (m : kv) (itPrefix start : list Z) : Table_NewIterator prefix m itPrefix start = kv_iter (table_view prefix m) itPrefix start.
Proof.
  destruct (Table_isolated prefix [] [] [] [] itPrefix start m) as (_ & _ & _ & _ & Hs & Hin).
  apply strict_sorted_unique; [exact Hs|apply kv_iter_strict|]. intros [k v]. by rewrite Hin, elem_of_kv_iter, table_view_lookup.
Qed.

(** ** The table *)

Record Table (prefix : list Z) (S : Type) := mk_Table { tb_underlying : S }.
Arguments mk_Table {prefix S}.
Arguments tb_underlying {prefix S}.

(** [snapshot] of readonly.go *)
Record table_snapshot (prefix : list Z) (SN : Type) := mk_table_snapshot { ts_snap : SN }.
Arguments mk_table_snapshot {prefix SN}.
Arguments ts_snap {prefix SN}.

(** [iterator]: that of the underlying store, with the prefix cut from the keys. *)
Definition table_iterator (prefix : list Z) (it : list (list Z * list Z)) : list (list Z * list Z) :=
  prod_map (fun k => noPrefix k prefix) id <$> it.

(** The operations that [batch] passes to the batch of the underlying store. *)
Definition table_batch (prefix : list Z) (ws : list write) : list write := prod_map (fun k => prefixed k prefix) id <$> ws.

(** The writer that [batch.Replay] gives to the underlying batch. *)
Record replayer (prefix : list Z) (W : Type) := mk_replayer { rp_writer : W }.
Arguments mk_replayer {prefix W}.
Arguments rp_writer {prefix W}.

Section reader.
Context {S : Type} `{!KvReader S} (prefix : list Z).

(** [IteratedReader] *)
#[export] Instance Table_KvReader : KvReader (Table prefix S) := {|
  kv_Get t key := kv_Get (tb_underlying t) (prefixed key prefix);
  kv_Has t key := kv_Has (tb_underlying t) (prefixed key prefix);
  kv_NewIterator t itPrefix start :=
    outcome_bind (kv_NewIterator (tb_underlying t) (prefixed itPrefix prefix) start) (fun it => Ok (table_iterator prefix it));
  kv_content t := table_view prefix <$> kv_content (tb_underlying t)
|}.

#[export] Instance table_snapshot_KvReader : KvReader (table_snapshot prefix S) := {|
  kv_Get t key := kv_Get (ts_snap t) (prefixed key prefix);
  kv_Has t key := kv_Has (ts_snap t) (prefixed key prefix);
  kv_NewIterator t itPrefix start :=
    outcome_bind (kv_NewIterator (ts_snap t) (prefixed itPrefix prefix) start) (fun it => Ok (table_iterator prefix it));
  kv_content t := table_view prefix <$> kv_content (ts_snap t)
|}.

Context `{!KvReaderLaws S}.

#[export] Instance Table_KvReaderLaws : KvReaderLaws (Table prefix S).
Proof.
  split; intros t v; cbn; destruct (kv_content (tb_underlying t)) as [m|] eqn:Hm; [|done| |done| |done]; cbn.
  - intros k [= <-]. by rewrite (kv_Get_law _ m), table_view_lookup.
  - intros k [= <-]. by rewrite (kv_Has_law _ m), table_view_lookup.
  - intros p st [= <-]. rewrite (kv_NewIterator_law _ m) by done. cbn. rewrite <- kv_iter_view. done.
Qed.

#[export] Instance table_snapshot_KvReaderLaws : KvReaderLaws (table_snapshot prefix S).
Proof.
  split; intros t v; cbn; destruct (kv_content (ts_snap t)) as [m|] eqn:Hm; [|done| |done| |done]; cbn.
  - intros k [= <-]. by rewrite (kv_Get_law _ m), table_view_lookup.
  - intros k [= <-]. by rewrite (kv_Has_law _ m), table_view_lookup.
  - intros p st [= <-]. rewrite (kv_NewIterator_law _ m) by done. cbn. rewrite <- kv_iter_view. done.
Qed.

End reader.

Section writer.
Context {S : Type} `{!KvWriter S} (prefix : list Z).

#[export] Instance Table_KvWriter : KvWriter (Table prefix S) := {|
  kv_Put t key value := prod_map id mk_Table (kv_Put (tb_underlying t) (prefixed key prefix) value);
  kv_Delete t key := prod_map id mk_Table (kv_Delete (tb_underlying t) (prefixed key prefix));
  kv_ValueSize ws := kv_ValueSize (S := S) (table_batch prefix ws);
  kv_Write t ws := prod_map id mk_Table (kv_Write (tb_underlying t) (table_batch prefix ws))
|}.

(** [replayer]; it is a [Writer] and no [Batcher], so the batch operations of
    the instance are those of its writer. *)
#[export] Instance replayer_KvWriter : KvWriter (replayer prefix S) := {|
  kv_Put r key value := prod_map id mk_replayer (kv_Put (rp_writer r) (noPrefix key prefix) value);
  kv_Delete r key := prod_map id mk_replayer (kv_Delete (rp_writer r) (noPrefix key prefix));
  kv_ValueSize ws := kv_ValueSize (S := S) ws;
  kv_Write r ws := prod_map id mk_replayer (kv_Write (rp_writer r) ws)
|}.

(** [batch.Replay]: the underlying batch, which holds prefixed keys, is replayed
    into the replayer. *)
Definition table_Replay (ws : list write) (w : S) : option string * S :=
  prod_map id rp_writer (batch_Replay (table_batch prefix ws) (mk_replayer (prefix := prefix) w)).

(** The replay of the table's batch sees the keys as they were given. *)
Lemma table_Replay_eq ws : forall w, table_Replay ws w = batch_Replay ws w.
Proof.
  unfold table_Replay. induction ws as [|[k v] ws IH]; intros w; [done|]. cbn [table_batch fmap list_fmap batch_Replay prod_map fst snd].
  destruct v as [v|]; cbn; rewrite noPrefix_prefixed; [destruct (kv_Put w k v) as [[e|] w']|destruct (kv_Delete w k) as [[e|] w']]; [done|apply IH|done|apply IH].
Qed.

Lemma table_view_writes ws : forall m, table_view prefix (apply_writes m (table_batch prefix ws)) = apply_writes (table_view prefix m) ws.
Proof.
  induction ws as [|[k v] ws IH]; intros m; [done|]. unfold apply_writes, table_batch in *. csimpl. rewrite IH. f_equal. unfold apply_write. cbn.
  destruct v; [apply table_view_insert|apply table_view_delete].
Qed.

Lemma table_batch_inj ws1 ws2 : table_batch prefix ws1 = table_batch prefix ws2 -> ws1 = ws2.
Proof.
  revert ws2. induction ws1 as [|[k1 v1] ws1 IH]; intros [|[k2 v2] ws2]; [done..|]. unfold table_batch. csimpl.
  unfold prod_map. cbn. intros [= ->%prefixed_inj -> Ht]. f_equal. by apply IH.
Qed.

Lemma table_batch_keys ws : (table_batch prefix ws).*1 = (fun k => prefixed k prefix) <$> ws.*1.
Proof. unfold table_batch. by rewrite <- !list_fmap_compose. Qed.

Lemma table_batch_prefix ws done : done `prefix_of` table_batch prefix ws -> exists done', done = table_batch prefix done' /\ done' `prefix_of` ws.
Proof.
  intros [rest Hr]. unfold table_batch in *. apply fmap_app_inv in Hr as (l1 & l2 & -> & -> & ->). exists l1. split; [done|]. by eexists.
Qed.

Context `{!KvReader S} `{!KvWriterLaws S}.

#[export] Instance Table_KvWriterLaws : KvWriterLaws (Table prefix S).
Proof.
  split; intros t v; cbn; destruct (kv_content (tb_underlying t)) as [m|] eqn:Hm; [|done| |done| |done]; cbn.
  - intros k x [= <-]. unfold prod_map. cbn. rewrite (kv_Put_law _ m) by done. cbn. destruct (kv_Put _ _ _).1; [done|]. by rewrite table_view_insert.
  - intros k [= <-]. unfold prod_map. cbn. rewrite (kv_Delete_law _ m) by done. cbn. destruct (kv_Delete _ _).1; [done|]. by rewrite table_view_delete.
  - intros ws [= <-]. destruct (kv_Write_law _ m (table_batch prefix ws) Hm) as (ops & Hp & Hc & Hall).
    apply table_batch_prefix in Hp as (done' & -> & Hp). exists done'. split; [done|]. unfold prod_map. cbn. rewrite Hc. cbn. split; [by rewrite table_view_writes|].
    intros He. by apply (table_batch_inj done' ws), Hall.
Qed.

End writer.

Section full.
Context {S SN : Type} `{!KvFull S SN} (prefix : list Z).

(** A nil limit is the end of the keys with the prefix; [prefixed] of a nil
    start is the prefix. *)
Definition table_limit (limit : option (list Z)) : option (list Z) :=
  match limit with Some l => Some (prefixed l prefix) | None => incPrefix prefix end.

#[export] Instance Table_KvFull : KvFull (Table prefix S) (table_snapshot prefix SN) := {|
  kv_GetSnapshot t := outcome_bind (kv_GetSnapshot (tb_underlying t)) (fun snap => Ok (mk_table_snapshot snap));
  kv_Stat t property := kv_Stat (tb_underlying t) property;
  kv_Compact t start limit :=
    prod_map id mk_Table (kv_Compact (tb_underlying t) (Some (prefixed (default [] start) prefix)) (table_limit limit));
  kv_Close t := (Some "operation is unsupported"%string, t);
  kv_Drop t := t
|}.

Context `{!KvReader S} `{!KvReader SN} `{!KvFullLaws S SN}.

#[export] Instance Table_KvFullLaws : KvFullLaws (Table prefix S) (table_snapshot prefix SN).
Proof.
  split.
  - intros t m sn Hm Hs. cbn in *. destruct (kv_content (tb_underlying t)) as [m0|] eqn:Hm0; [|done]. injection Hm as <-.
    destruct (kv_GetSnapshot (tb_underlying t)) as [sn0| |] eqn:Hs0; [|done..]. injection Hs as <-. cbn.
    by rewrite (kv_GetSnapshot_law _ _ _ Hm0 Hs0).
  - intros t a b. cbn. unfold prod_map. cbn. by rewrite kv_Compact_law.
Qed.

End full.

(** ** Many tables over one store *)

Inductive store_op :=
| StorePut (key value : list Z)
| StoreDelete (key : list Z)
| StoreBatch (ws : list write)
| StoreCompact (start limit : option (list Z)).

Definition store_do {S SN : Type} `{!KvWriter S} `{!KvFull S SN} (op : store_op) (s : S) : option string * S :=
  match op with
  | StorePut key value => kv_Put s key value
  | StoreDelete key => kv_Delete s key
  | StoreBatch ws => kv_Write s ws
  | StoreCompact start limit => kv_Compact s start limit
  end.

(** What an operation means for the pairs. *)
Definition store_op_writes (op : store_op) : list write :=
  match op with
  | StorePut key value => [(key, Some value)]
  | StoreDelete key => [(key, None)]
  | StoreBatch ws => ws
  | StoreCompact _ _ => []
  end.

Section tables.
Context {S SN : Type} `{!KvReader S, !KvReader SN, !KvWriter S, !KvFull S SN}.

(** Operations on tables over the same store, each with the prefix of its
    table; the errors do not stop the users of the other tables. *)
Definition table_do (p : list Z) (op : store_op) (s : S) : option string * S :=
  prod_map id tb_underlying (store_do op (mk_Table s : Table p S)).

Fixpoint tables_run (ops : list (list Z * store_op)) (s : S) : list (option string) * S :=
  match ops with
  | [] => ([], s)
  | (p, op) :: ops => let '(err, s) := table_do p op s in prod_map (cons err) id (tables_run ops s)
  end.

(** Neither prefix begins the other. *)
Definition apart (p1 p2 : list Z) : Prop := HasPrefix p1 p2 = false /\ HasPrefix p2 p1 = false.

Context `{!KvReaderLaws S, !KvWriterLaws S, !KvFullLaws S SN}.

Lemma store_do_content (op : store_op) (s : S) m : kv_content s = Some m ->
  exists ws, ws `prefix_of` store_op_writes op /\ kv_content (store_do op s).2 = Some (apply_writes m ws) /\
    ((store_do op s).1 = None -> ws = store_op_writes op).
Proof.
  intros Hm. destruct op as [k v|k|ws|a b]; cbn [store_do store_op_writes].
  - rewrite (kv_Put_law _ m) by done. destruct (kv_Put s k v).1; [exists []; split; [apply prefix_nil|done]|by eexists].
  - rewrite (kv_Delete_law _ m) by done. destruct (kv_Delete s k).1; [exists []; split; [apply prefix_nil|done]|by eexists].
  - by apply kv_Write_law.
  - rewrite kv_Compact_law, Hm. by exists [].
Qed.

Lemma table_view_foreign p p' m ws : apart p p' -> table_view p (apply_writes m (table_batch p' ws)) = table_view p m.
Proof.
  intros [H1 H2]. apply map_eq. intros k. rewrite !table_view_lookup. apply apply_writes_foreign.
  rewrite table_batch_keys. intros (k1 & Hk & _)%list_elem_of_fmap. by apply (prefixed_foreign k k1 p p').
Qed.

(** An operation of a table is one of the store, with the prefix. *)
Definition prefixed_op (p : list Z) (op : store_op) : store_op :=
  match op with
  | StorePut key value => StorePut (prefixed key p) value
  | StoreDelete key => StoreDelete (prefixed key p)
  | StoreBatch ws => StoreBatch (table_batch p ws)
  | StoreCompact start limit => StoreCompact (Some (prefixed (default [] start) p)) (table_limit p limit)
  end.

Lemma table_do_eq p op (s : S) : table_do p op s = store_do (prefixed_op p op) s.
Proof. unfold table_do. destruct op; cbn; unfold prod_map; cbn; symmetry; apply surjective_pairing. Qed.

Lemma table_do_content p op (s : S) m : kv_content s = Some m ->
  exists ws, kv_content (table_do p op s).2 = Some (apply_writes m (table_batch p ws)) /\
    ((table_do p op s).1 = None -> ws = store_op_writes op).
Proof.
  intros Hm. rewrite table_do_eq. destruct (store_do_content (prefixed_op p op) s m Hm) as (ws & Hp & Hc & Hall).
  assert (store_op_writes (prefixed_op p op) = table_batch p (store_op_writes op)) as He by (by destruct op).
  rewrite He in Hp, Hall. apply table_batch_prefix in Hp as (ws' & -> & Hp). exists ws'. split; [done|].
  intros Hn. by apply (table_batch_inj p), Hall.
Qed.

(** The writes of the operations of one table. *)
Definition table_writes (p : list Z) (ops : list (list Z * store_op)) : list write :=
  concat ((fun po => if decide (po.1 = p) then store_op_writes po.2 else []) <$> ops).

Lemma tables_run_content p ops : forall (s : S) m, kv_content s = Some m ->
  (forall p' op, (p', op) ∈ ops -> p' = p \/ apart p p') ->
  exists m', kv_content (tables_run ops s).2 = Some m' /\
    ((forall i e, (tables_run ops s).1 !! i = Some (Some e) -> (fst <$> ops) !! i <> Some p) ->
     table_view p m' = apply_writes (table_view p m) (table_writes p ops)).
Proof.
  induction ops as [|[p' op] ops IH]; intros s m Hm Hap; [by exists m|]. cbn [tables_run].
  destruct (table_do_content p' op s m Hm) as (ws & Hc & Hall). destruct (table_do p' op s) as [err s1]. cbn [fst snd] in *.
  destruct (IH s1 _ Hc) as (m' & Hm' & Hv); [intros; eapply Hap; by right|]. exists m'. unfold prod_map. cbn [fst snd]. split; [done|].
  intros Herr. rewrite Hv by (intros i e Hi; apply (Herr (Datatypes.S i) e Hi)). unfold table_writes. csimpl. rewrite apply_writes_app. f_equal.
  destruct (Hap p' op ltac:(left)) as [->|Hne].
  - rewrite decide_True by done. rewrite table_view_writes. f_equal. apply Hall. destruct err as [e|]; [|done]. by destruct (Herr 0%nat e).
  - rewrite table_view_foreign by done. case_decide as Hpp; [|done]. subst. destruct Hne as [Hn _].
    assert (HasPrefix p p = true) by (apply HasPrefix_spec; done). congruence.
Qed.

End tables.

(** ** Properties *)

(** C37: tables whose prefixes do not begin one another share a store without
    noticing: after any interleaving of puts, deletes, batches and compactions
    on the tables, a table none of whose own operations failed holds, reads
    and iterates as a store of its own to which only its operations were
    applied, in order, whatever failed in the other tables, and its snapshot
    holds the same pairs; replaying its batch gives a writer the operations
    with the keys of the table.  So does a table of a table, whose prefix is
    the two joined. *)
Theorem tables_isolated {S SN : Type} `{!KvReader S, !KvReader SN, !KvWriter S, !KvFull S SN, !KvReaderLaws S, !KvWriterLaws S, !KvFullLaws S SN}
    (ops : list (list Z * store_op)) (p p2 : list Z) (s : S) (m : kv) :
  kv_content s = Some m -> (forall p' op, (p', op) ∈ ops -> p' = p \/ apart p p') ->
  (forall i e, (tables_run ops s).1 !! i = Some (Some e) -> (fst <$> ops) !! i <> Some p) ->
  let t : Table p S := mk_Table (tables_run ops s).2 in
  let own := apply_writes (table_view p m) (table_writes p ops) in
  (forall k, kv_Get t k = Ok (own !! k) /\ kv_Has t k = Ok (bool_decide (is_Some (own !! k)))) /\
  (forall itPrefix start, kv_NewIterator t itPrefix start = Ok (kv_iter own itPrefix start)) /\
  (forall snap, kv_GetSnapshot (SN := table_snapshot p SN) t = Ok snap -> kv_content snap = Some own) /\
  (forall ws (w : S), table_Replay p ws w = batch_Replay ws w) /\
  (forall k, kv_Get (mk_Table t : Table p2 (Table p S)) k = kv_Get (mk_Table (tables_run ops s).2 : Table (p ++ p2) S) k).
Proof.
  intros Hm Hap Herr t own. destruct (tables_run_content p ops s m Hm Hap) as (m' & Hm' & Hv). specialize (Hv Herr).
  assert (kv_content t = Some own) as Ht by (cbn; rewrite Hm'; cbn; by rewrite Hv). splits.
  - intros k. split; [by apply kv_Get_law|by apply kv_Has_law].
  - intros ip st. by apply kv_NewIterator_law.
  - intros snap. by apply kv_GetSnapshot_law.
  - intros ws w. apply table_Replay_eq.
  - intros k. cbn. by rewrite prefixed_twice.
Qed.

(** Two tables over one map: the second sees nothing of the first. *)
Definition two_tables : list (list Z * store_op) :=
  [([65], StorePut [1] [10]); ([66], StoreBatch [([1], Some [20]); ([2], Some [21])]); ([65], StoreDelete [1]); ([66], StorePut [2] [22])].

Lemma tables_isolated_witness :
  kv_Get (mk_Table (tables_run two_tables (∅ : kv)).2 : Table [66] kv) [2] =
    Ok ((apply_writes (table_view [66] ∅) (table_writes [66] two_tables)) !! [2]).
Proof.
  refine (proj1 (proj1 (tables_isolated two_tables [66] [] (∅ : kv) ∅ eq_refl _ _) [2])).
  - intros p' op Hin. unfold two_tables in Hin. list_cases; injection Hin as -> ->; [by right|by left|by right|by left].
  - intros i e Hi. exfalso. assert ((tables_run two_tables (∅ : kv)).1 = [None; None; None; None]) as Hn by reflexivity.
    rewrite Hn in Hi. by do 4 (destruct i; [done|]).
Defined.

Example two_tables_read :
  kv_NewIterator (mk_Table (tables_run two_tables (∅ : kv)).2 : Table [66] kv) [] [] = Ok [([1], [20]); ([2], [22])].
Proof. by vm_compute. Qed.
