(* ===== verification/TableReflect.v ===== *)
(** * kvdb/table/reflect.go: the tables of a struct

    A struct is the list of its fields, each with its tag, empty if it has none,
    and its value, nil or not; prefixes and names are lists of bytes. *)

From S2P Require Import Prelude Bytes Kvdb KvStore TableStore.
Local Open Scope go_scope.

Record field (V : Type) := mk_field { fd_tag : list Z; fd_value : option V }.
Arguments mk_field {V}.
Arguments fd_tag {V}.
Arguments fd_value {V}.

(** [prefix != "" && prefix != "-"] *)
Definition is_table_tag (prefix : list Z) : bool := negb (bool_decide (prefix = [])) && negb (bool_decide (prefix = [45])).

(** ** uniqKeys *)

Record uniqKeys := mk_uniqKeys { uk_len : nat; uk_keys : list (list Z) }.
Definition no_keys : uniqKeys := mk_uniqKeys 0 [].

Definition uniqKeys_Add (u : uniqKeys) (key : list Z) : uniqKeys :=
  mk_uniqKeys (if (length (uk_keys u) =? 0)%nat || (length key <? uk_len u)%nat then length key else uk_len u) (uk_keys u ++ [key]).

Fixpoint check_pairs (len : nat) (keys : list (list Z)) : option string :=
  match keys with
  | [] => None
  | a :: keys =>
      if existsb (fun b => bool_decide (take len a = take len b)) keys then Some "the prefixes are the same"%string
      else check_pairs len keys
  end.
Definition uniqKeys_Check (u : uniqKeys) : option string := check_pairs (uk_len u) (uk_keys u).

(** ** The functions *)

Section reflect.
Context {S V P : Type}.

(** A table is its prefix and its store; the result of [keys.Check] is not used. *)
Definition MigrateTables (s : list (field (list Z * S))) (db : option S) : list (field (list Z * S)) :=
  (fun f => if is_table_tag (fd_tag f) then mk_field (fd_tag f) ((fun db => (fd_tag f, db)) <$> db) else f) <$> s.

(** The loop of [OpenTables]: an error leaves the fields after it as they were. *)
Fixpoint open_loop (OpenDB : P -> list Z -> outcome V * P) (baseName : list Z) (producer : P) (keys : uniqKeys) (s : list (field V)) :
    outcome uniqKeys * P * list (field V) :=
  match s with
  | [] => (Ok keys, producer, [])
  | f :: s =>
      if is_table_tag (fd_tag f) then
        let keys := uniqKeys_Add keys (fd_tag f) in
        let '(r, producer) := OpenDB producer (baseName ++ [47] ++ fd_tag f) in
        match r with
        | Ok db => let '(r, producer, s) := open_loop OpenDB baseName producer keys s in (r, producer, mk_field (fd_tag f) (Some db) :: s)
        | Err e => (Err e, producer, f :: s)
        | Panic e => (Panic e, producer, f :: s)
        end
      else let '(r, producer, s) := open_loop OpenDB baseName producer keys s in (r, producer, f :: s)
  end.

Definition OpenTables (OpenDB : P -> list Z -> outcome V * P) (s : list (field V)) (producer : P) (baseName : list Z) :
    outcome unit * P * list (field V) :=
  let '(r, producer, s) := open_loop OpenDB baseName producer no_keys s in
  (match r with
   | Ok keys => match uniqKeys_Check keys with None => Ok tt | Some e => Err e end
   | Err e => Err e
   | Panic e => Panic e
   end, producer, s).

(** Every field with a tag, until one fails to close. *)
Fixpoint CloseTables (close : V -> option string * V) (s : list (field V)) : option string * list (field V) :=
  match s with
  | [] => (None, [])
  | f :: s =>
      match (if bool_decide (fd_tag f = []) then None else fd_value f) with
      | None => let '(err, s) := CloseTables close s in (err, f :: s)
      | Some db =>
          let '(err, db) := close db in
          let f := mk_field (fd_tag f) (Some db) in
          match err with
          | Some e => (Some e, f :: s)
          | None => let '(err, s) := CloseTables close s in (err, f :: s)
          end
      end
  end.

(** [get] may be nil, and may give nil; it is called once per field. *)
Fixpoint MigrateCaches (get : option (P -> option V * P)) (p : P) (c : list (field V)) : P * list (field V) :=
  match c with
  | [] => (p, [])
  | f :: c =>
      if bool_decide (fd_tag f = []) then let '(p, c) := MigrateCaches get p c in (p, f :: c)
      else
        let '(cache, p) := match get with Some get => get p | None => (None, p) end in
        let '(p, c) := MigrateCaches get p c in (p, mk_field (fd_tag f) cache :: c)
  end.

(** ** What they do *)

Lemma MigrateTables_tags s db : fd_tag <$> MigrateTables s db = fd_tag <$> s.
Proof. unfold MigrateTables. rewrite <- list_fmap_compose. apply list_fmap_ext. intros i f _. cbn. by destruct (is_table_tag _). Qed.

(** The tagged fields are the tables of the store, the others stay; closing the
    store by a second migration, to nil, forgets the first. *)
Lemma MigrateTables_lookup s db i f : s !! i = Some f ->
  MigrateTables s db !! i = Some (if is_table_tag (fd_tag f) then mk_field (fd_tag f) ((fun db => (fd_tag f, db)) <$> db) else f) /\
  MigrateTables (MigrateTables s db) None = MigrateTables s None.
Proof.
  intros Hf. split; [unfold MigrateTables; by rewrite list_lookup_fmap, Hf|]. unfold MigrateTables. rewrite <- list_fmap_compose.
  apply list_fmap_ext. intros j g _. cbn. destruct (is_table_tag (fd_tag g)) eqn:E; cbn; by rewrite E.
Qed.

(** Without an error every table field holds the database of its name. *)
Lemma open_loop_ok OpenDB baseName s : forall producer keys keys' producer' s',
  open_loop OpenDB baseName producer keys s = (Ok keys', producer', s') ->
  length s' = length s /\ uk_keys keys' = uk_keys keys ++ filter (fun t => is_table_tag t = true) (fd_tag <$> s) /\
  forall i f, s !! i = Some f ->
    if is_table_tag (fd_tag f) then exists db p, s' !! i = Some (mk_field (fd_tag f) (Some db)) /\ (OpenDB p (baseName ++ [47] ++ fd_tag f)).1 = Ok db
    else s' !! i = Some f.
Proof.
  induction s as [|f s IH]; intros pr keys keys' pr' s' Hs; cbn [open_loop] in Hs.
  - injection Hs as <- <- <-. split; [done|]. split; [by rewrite app_nil_r|done].
  - cbn [fmap list_fmap]. destruct (is_table_tag (fd_tag f)) eqn:Et.
    + destruct (OpenDB pr _) as [[db|e|e] pr1] eqn:Ho; [|done..]. destruct (open_loop _ _ pr1 _ s) as [[r pr2] s2] eqn:El.
      injection Hs as -> <- <-. destruct (IH _ _ _ _ _ El) as (Hl & Hk & Hi). split; [cbn; by rewrite Hl|]. split.
      * rewrite filter_cons_True by done. rewrite Hk. cbn. by rewrite <- app_assoc.
      * intros [|i] g Hg; cbn in *; [|by apply Hi]. injection Hg as <-. rewrite Et. exists db, pr. by rewrite Ho.
    + destruct (open_loop _ _ pr _ s) as [[r pr2] s2] eqn:El. injection Hs as -> <- <-. destruct (IH _ _ _ _ _ El) as (Hl & Hk & Hi).
      split; [cbn; by rewrite Hl|]. split; [rewrite filter_cons_False by congruence; done|].
      intros [|i] g Hg; cbn in *; [|by apply Hi]. injection Hg as <-. by rewrite Et.
Qed.

End reflect.

(** ** Keys that pass the check do not collide *)

Lemma Add_keys l : forall u,
  uk_keys (foldl uniqKeys_Add u l) = uk_keys u ++ l /\
  ((forall k, k ∈ uk_keys u -> (uk_len u <= length k)%nat) -> forall k, k ∈ uk_keys u ++ l -> (uk_len (foldl uniqKeys_Add u l) <= length k)%nat).
Proof.
  induction l as [|a l IH]; intros u; cbn [foldl]; [rewrite app_nil_r; by split|].
  destruct (IH (uniqKeys_Add u a)) as [Hk Hl]. cbn [uniqKeys_Add uk_keys] in Hk, Hl. rewrite <- app_assoc in Hk, Hl. split; [done|].
  intros Hu. apply Hl. intros k [Hin|Hin]%elem_of_app; unfold uniqKeys_Add; cbn [uk_len].
  - specialize (Hu k Hin). destruct (uk_keys u) as [|x ks]; [by apply not_elem_of_nil in Hin|]. cbn [length Nat.eqb orb].
    destruct (Nat.ltb_spec (length a) (uk_len u)); lia.
  - apply list_elem_of_singleton in Hin as ->. destruct (_ || _) eqn:E; [done|]. bool_to_prop. lia.
Qed.

Lemma check_pairs_apart len keys : check_pairs len keys = None -> (forall k, k ∈ keys -> (len <= length k)%nat) ->
  forall i j a b, (i < j)%nat -> keys !! i = Some a -> keys !! j = Some b -> apart a b.
Proof.
  intros Hc Hlen. assert (forall i j a b, (i < j)%nat -> keys !! i = Some a -> keys !! j = Some b -> take len a <> take len b) as Hne.
  { clear Hlen. induction keys as [|k keys IH]; [done|]. cbn in Hc. destruct (existsb _ keys) eqn:E; [done|].
    intros [|i] [|j] a b Hij Ha Hb; try lia; cbn in Ha, Hb; [|apply (IH Hc i j); [lia|done..]].
    injection Ha as <-. intros Heq. apply not_true_iff_false in E. apply E. apply existsb_exists. exists b. split; [|by apply bool_decide_eq_true].
    apply list_elem_of_In. by apply (list_elem_of_lookup_2 _ j). }
  intros i j a b Hij Ha Hb. pose proof (Hne i j a b Hij Ha Hb) as Hn.
  pose proof (Hlen a (list_elem_of_lookup_2 _ _ _ Ha)). pose proof (Hlen b (list_elem_of_lookup_2 _ _ _ Hb)).
  split; apply not_true_iff_false; intros [k ->]%HasPrefix_spec; apply Hn; by rewrite take_app_le.
Qed.

(** Where the check of all the tables of a struct passes, none of its prefixes
    begins another, and the tables do not see each other ([tables_isolated]). *)
Lemma uniqKeys_apart l : uniqKeys_Check (foldl uniqKeys_Add no_keys l) = None ->
  forall i j a b, i <> j -> l !! i = Some a -> l !! j = Some b -> apart a b.
Proof.
  intros Hc. destruct (Add_keys l no_keys) as [Hk Hl]. unfold uniqKeys_Check in Hc. rewrite Hk in Hc.
  pose proof (check_pairs_apart _ _ Hc (Hl ltac:(by intros k ?%not_elem_of_nil))) as Ha.
  intros i j a b Hij Hi Hj. destruct (decide (i < j)%nat) as [Hlt|Hge]; [by apply (Ha i j)|].
  destruct (Ha j i b a ltac:(lia) Hj Hi) as [H1 H2]. by split.
Qed.
