(* ===== verification/Wrappers.v ===== *)
(** * The wrappers of kvdb/

    Each wrapper is over any store of the interface of KvStore.v:
    kvdb/nokeyiserr (an absent key is an error), kvdb/skipkeys (keys of a
    prefix are hidden), kvdb/readonlystore (no writes), kvdb/skiperrors (listed
    errors are ignored), kvdb/fallible (writes up to a count), kvdb/synced
    (methods under a mutex) and kvdb/batched (writes collected in a batch). *)

From S2P Require Import Prelude Bytes Kvdb KvStore.
Local Open Scope go_scope.

Definition ErrUnsupportedOp : string := "operation is unsupported".

(** ** kvdb/nokeyiserr/wrapper.go *)

Section nokeyiserr.
Context {S SN : Type} `{!KvReader S, !KvReader SN, !KvFull S SN}.

Definition errNotFound : string := "not found".

(** [Get] of [Wrapper] and of [Snapshot] *)
Definition nokeyiserr_Get {R : Type} `{!KvReader R} (w : R) (key : list Z) : outcome (list Z) :=
  match kv_Get w key with
  | Ok None => Err errNotFound
  | Ok (Some val) => Ok val
  | Err e => Err e
  | Panic e => Panic e
  end.

(** The snapshot is read through the same [Get]. *)
Definition nokeyiserr_GetSnapshot (w : S) : outcome SN := kv_GetSnapshot w.

Lemma nokeyiserr_Get_eq `{!KvReaderLaws S} (w : S) m key : kv_content w = Some m ->
  nokeyiserr_Get w key = match m !! key with Some v => Ok v | None => Err errNotFound end.
Proof. intros Hm. unfold nokeyiserr_Get. rewrite (kv_Get_law _ m) by done. by destruct (m !! key). Qed.

End nokeyiserr.

(** ** kvdb/skipkeys/store.go *)

Section skipkeys.
Context {S : Type} `{!KvReader S} `{!KvWriter S}.

Record skipkeys := mk_skipkeys { sk_Store : S; sk_skipPrefix : list Z }.

(** One call of [Next] of the iterator: the pairs left of the underlying
    iterator after it; [None] when it returns false. *)
Fixpoint skip_Next (skipPrefix : list Z) (l : list (list Z * list Z)) : option (list Z * list Z * list (list Z * list Z)) :=
  match l with
  | [] => None
  | p :: l => if HasPrefix p.1 skipPrefix then skip_Next skipPrefix l else Some (p, l)
  end.

(** The pairs that the iterator gives. *)
Fixpoint skip_all (fuel : nat) (skipPrefix : list Z) (l : list (list Z * list Z)) : list (list Z * list Z) :=
  match fuel with
  | O => []
  | Datatypes.S fuel => match skip_Next skipPrefix l with Some (p, l) => p :: skip_all fuel skipPrefix l | None => [] end
  end.

Lemma skip_all_filter prefix l : forall fuel, (length l <= fuel)%nat -> skip_all fuel prefix l = filter (fun p => HasPrefix p.1 prefix = false) l.
Proof.
  intros fuel. revert l. induction fuel as [|fuel IH]; intros l Hl; [by destruct l; cbn in *; [|lia]|].
  cbn [skip_all].
  induction l as [|p l IHl]; [done|]. rewrite filter_cons. cbn [skip_Next]. cbn in Hl.
  destruct (HasPrefix p.1 prefix) eqn:Hp.
  - rewrite decide_False by done. apply IHl. lia.
  - rewrite decide_True by done. by rewrite IH by lia.
Qed.

#[export] Instance skipkeys_KvReader : KvReader skipkeys := {|
  kv_Get s key := if HasPrefix key (sk_skipPrefix s) then Ok None else kv_Get (sk_Store s) key;
  kv_Has s key := if HasPrefix key (sk_skipPrefix s) then Ok false else kv_Has (sk_Store s) key;
  kv_NewIterator s prefix start :=
    outcome_bind (kv_NewIterator (sk_Store s) prefix start) (fun l => Ok (skip_all (length l) (sk_skipPrefix s) l));
  kv_content s := filter (fun p => HasPrefix p.1 (sk_skipPrefix s) = false) <$> kv_content (sk_Store s)
|}.

(** The other methods are those of the embedded store. *)
#[export] Instance skipkeys_KvWriter : KvWriter skipkeys := {|
  kv_Put s key value := prod_map id (fun db => mk_skipkeys db (sk_skipPrefix s)) (kv_Put (sk_Store s) key value);
  kv_Delete s key := prod_map id (fun db => mk_skipkeys db (sk_skipPrefix s)) (kv_Delete (sk_Store s) key);
  kv_ValueSize ws := kv_ValueSize (S := S) ws;
  kv_Write s ws := prod_map id (fun db => mk_skipkeys db (sk_skipPrefix s)) (kv_Write (sk_Store s) ws)
|}.

Lemma skip_lookup (m : kv) prefix k :
  filter (fun p => HasPrefix p.1 prefix = false) m !! k = if HasPrefix k prefix then None else m !! k.
Proof.
  destruct (HasPrefix k prefix) eqn:Hk.
  - apply map_lookup_filter_None. right. intros x _. cbn. by rewrite Hk.
  - apply option_eq. intros v. rewrite map_lookup_filter_Some. cbn. naive_solver.
Qed.

(** Reading through the wrapper is reading the map without the hidden keys. *)
#[export] Instance skipkeys_KvReaderLaws `{!KvReaderLaws S} : KvReaderLaws skipkeys.
Proof.
  split; intros [db prefix] v; cbn; destruct (kv_content db) as [m|] eqn:Hm; [|done| |done| |done]; cbn.
  - intros k [= <-]. rewrite skip_lookup, (kv_Get_law _ m) by done. by destruct (HasPrefix k prefix).
  - intros k [= <-]. rewrite skip_lookup, (kv_Has_law _ m) by done. by destruct (HasPrefix k prefix).
  - intros p st [= <-]. rewrite (kv_NewIterator_law _ m) by done. cbn. rewrite skip_all_filter by done. f_equal.
    apply strict_sorted_unique; [apply strict_sorted_filter, kv_iter_strict|apply kv_iter_strict|].
    intros [k x]. rewrite list_elem_of_filter, !elem_of_kv_iter, skip_lookup. cbn. destruct (HasPrefix k prefix); naive_solver.
Qed.

(** A write of a hidden key reaches the store and stays invisible. *)
Lemma skipkeys_Put_hidden `{!KvWriterLaws S} (s : skipkeys) k v m : kv_content s = Some m ->
  HasPrefix k (sk_skipPrefix s) = true -> kv_content (kv_Put s k v).2 = Some m.
Proof.
  destruct s as [db prefix]. cbn. destruct (kv_content db) as [m0|] eqn:Hm; [|done]. cbn. intros [= <-] Hk.
  unfold prod_map. cbn. rewrite (kv_Put_law _ m0) by done. cbn. f_equal. apply map_eq. intros k'. rewrite !skip_lookup.
  destruct (HasPrefix k' prefix) eqn:Hk'; [done|]. destruct (kv_Put db k v).1; [done|]. apply lookup_insert_ne. intros ->. congruence.
Qed.

(** producer.go: the opened store is wrapped. *)
Definition skipkeys_openDB (store : outcome S) (skipPrefix : list Z) : outcome skipkeys :=
  outcome_bind store (fun store => Ok (mk_skipkeys store skipPrefix)).

End skipkeys.
Arguments skipkeys : clear implicits.

(** The snapshot is that of the embedded store: it shows the hidden keys. *)
Example skipkeys_snapshot_shows :
  let s := mk_skipkeys ({[ [7; 1] := [10] ]} : kv) [7] in
  kv_Get s [7; 1] = Ok None /\
  outcome_bind (kv_GetSnapshot (SN := kv) (sk_Store s)) (fun snap => kv_Get snap [7; 1]) = Ok (Some [10]).
Proof. done. Qed.

(** ** kvdb/readonlystore/store.go *)

Section readonlystore.
Context {S : Type} `{!KvReader S} `{!KvWriter S}.

Record readonlystore := mk_readonlystore { ro_Store : S }.

(** [Put] and [Delete] of [Batch]: the embedded batch is never given anything. *)
Definition ro_batch_put (b : list write) (w : write) : option string * list write := (Some ErrUnsupportedOp, b).

Fixpoint ro_fill (ws : list write) (b : list write) : list (option string) * list write :=
  match ws with [] => ([], b) | w :: ws => let '(err, b) := ro_batch_put b w in prod_map (cons err) id (ro_fill ws b) end.

#[export] Instance readonlystore_KvReader : KvReader readonlystore := {|
  kv_Get s key := kv_Get (ro_Store s) key;
  kv_Has s key := kv_Has (ro_Store s) key;
  kv_NewIterator s prefix start := kv_NewIterator (ro_Store s) prefix start;
  kv_content s := kv_content (ro_Store s)
|}.
#[export] Instance readonlystore_KvReaderLaws `{!KvReaderLaws S} : KvReaderLaws readonlystore.
Proof. split; intros [s] m *; cbn; [apply kv_Get_law|apply kv_Has_law|apply kv_NewIterator_law]. Qed.

#[export] Instance readonlystore_KvWriter : KvWriter readonlystore := {|
  kv_Put s _ _ := (Some ErrUnsupportedOp, s);
  kv_Delete s _ := (Some ErrUnsupportedOp, s);
  kv_ValueSize ws := kv_ValueSize (S := S) (ro_fill ws []).2;
  kv_Write s ws := prod_map id mk_readonlystore (kv_Write (ro_Store s) (ro_fill ws []).2)
|}.

Lemma ro_fill_empty ws b : (ro_fill ws b).2 = b.
Proof. induction ws as [|w ws IH]; [done|]. exact IH. Qed.

(** No method changes the pairs, not even a batch that was written. *)
Lemma readonly_unchanged `{!KvWriterLaws S} (s : readonlystore) m k v ws : kv_content s = Some m ->
  kv_content (kv_Put s k v).2 = Some m /\ kv_content (kv_Delete s k).2 = Some m /\ kv_content (kv_Write s ws).2 = Some m.
Proof.
  intros Hm. split; [done|]. split; [done|]. cbn in *. unfold prod_map. cbn. rewrite ro_fill_empty.
  destruct (kv_Write_law (ro_Store s) m [] Hm) as (ops & ->%prefix_nil_inv & Hc & _). exact Hc.
Qed.

End readonlystore.
Arguments readonlystore : clear implicits.

(** ** kvdb/skiperrors/skiperrors.go *)

Section skiperrors.
Context {S SN : Type} `{!KvReader S, !KvReader SN, !KvWriter S, !KvFull S SN} (errs : list string).

(** [skip]: an error is known by its text. *)
Definition skip (got : option string) : bool :=
  match got with None => false | Some e => existsb (String.eqb e) errs end.

Definition skip_read {A} (zero : A) (r : outcome A) : outcome A :=
  match r with Err e => if skip (Some e) then Ok zero else Err e | _ => r end.
Definition skip_write {A} (r : option string * A) : option string * A := if skip r.1 then (None, r.2) else r.

Record skiperrors (R : Type) := mk_skiperrors { se_underlying : R }.
Arguments mk_skiperrors {R}.
Arguments se_underlying {R}.

(** [readWrapper]; iterators are not wrapped. *)
#[export] Instance skiperrors_KvReader {R : Type} `{!KvReader R} : KvReader (skiperrors R) := {|
  kv_Get f key := skip_read None (kv_Get (se_underlying f) key);
  kv_Has f key := skip_read false (kv_Has (se_underlying f) key);
  kv_NewIterator f prefix start := kv_NewIterator (se_underlying f) prefix start;
  kv_content f := kv_content (se_underlying f)
|}.
(** Batches are not wrapped. *)
#[export] Instance skiperrors_KvWriter : KvWriter (skiperrors S) := {|
  kv_Put f key value := prod_map id mk_skiperrors (skip_write (kv_Put (se_underlying f) key value));
  kv_Delete f key := prod_map id mk_skiperrors (skip_write (kv_Delete (se_underlying f) key));
  kv_ValueSize ws := kv_ValueSize (S := S) ws;
  kv_Write f ws := prod_map id mk_skiperrors (kv_Write (se_underlying f) ws)
|}.
#[export] Instance skiperrors_KvFull : KvFull (skiperrors S) (skiperrors SN) := {|
  kv_GetSnapshot f := outcome_bind (kv_GetSnapshot (se_underlying f)) (fun snap => Ok (mk_skiperrors snap));
  kv_Stat f property := skip_read ""%string (kv_Stat (se_underlying f) property);
  kv_Compact f start limit := prod_map id mk_skiperrors (skip_write (kv_Compact (se_underlying f) start limit));
  kv_Close f := prod_map id mk_skiperrors (skip_write (kv_Close (se_underlying f)));
  kv_Drop f := mk_skiperrors (kv_Drop (se_underlying f))
|}.

#[export] Instance skiperrors_KvReaderLaws {R : Type} `{!KvReader R} `{!KvReaderLaws R} : KvReaderLaws (skiperrors R).
Proof.
  split; intros [s] m *; cbn; intros Hm; [by rewrite (kv_Get_law _ m)|by rewrite (kv_Has_law _ m)|by apply kv_NewIterator_law].
Qed.

(** On a store that answers with listed errors only, as a closed or dropped one
    does, the wrapper reads as an empty store and ignores writes. *)
Lemma skiperrors_gone (s : S) e key value : e ∈ errs ->
  kv_Get s key = Err e -> kv_Has s key = Err e -> (kv_Put s key value).1 = Some e -> (kv_Delete s key).1 = Some e ->
  let f := mk_skiperrors s in
  kv_Get f key = Ok None /\ kv_Has f key = Ok false /\ (kv_Put f key value).1 = None /\ (kv_Delete f key).1 = None.
Proof.
  intros He Hg Hh Hp Hd f. assert (skip (Some e) = true) as Hs.
  { apply existsb_exists. exists e. split; [by apply list_elem_of_In|apply String.eqb_refl]. }
  subst f. cbn. unfold skip_write. rewrite Hg, Hh, Hp, Hd. cbn [skip_read]. by rewrite Hs.
Qed.

(** An error that is not listed is passed on. *)
Lemma skiperrors_passes (s : S) e key : e ∉ errs -> kv_Get s key = Err e -> kv_Get (mk_skiperrors s) key = Err e.
Proof.
  intros He Hg. cbn. rewrite Hg. cbn [skip_read]. destruct (skip (Some e)) eqn:Hs; [|done].
  apply existsb_exists in Hs as (e' & Hin & ->%String.eqb_eq). by apply list_elem_of_In in Hin.
Qed.

End skiperrors.
Arguments skiperrors : clear implicits.

(** ** kvdb/fallible/fallible.go *)

Section fallible.
Context {S : Type} `{!KvReader S} `{!KvWriter S}.

Definition errWriteLimit : string := "write limit is over".

Record fallible := mk_fallible { fa_Underlying : S; fa_writes : Z }.

Definition SetWriteCount (f : fallible) (n : Z) : fallible := mk_fallible (fa_Underlying f) (i32 n).

Definition GetWriteCount (f : fallible) : Z := fa_writes f.

(** Reads are not counted. *)
#[export] Instance fallible_KvReader : KvReader fallible := {|
  kv_Get f key := kv_Get (fa_Underlying f) key;
  kv_Has f key := kv_Has (fa_Underlying f) key;
  kv_NewIterator f prefix start := kv_NewIterator (fa_Underlying f) prefix start;
  kv_content f := kv_content (fa_Underlying f)
|}.
#[export] Instance fallible_KvReaderLaws `{!KvReaderLaws S} : KvReaderLaws fallible.
Proof. split; intros [s n] m *; cbn; [apply kv_Get_law|apply kv_Has_law|apply kv_NewIterator_law]. Qed.

(** The counter is decremented at its width, and what is left is looked at. *)
Definition fallible_count (f : fallible) : bool * fallible :=
  let count := i32 (fa_writes f - 1) in (0 <=? count, mk_fallible (fa_Underlying f) count).

Definition fallible_Put (f : fallible) (key value : list Z) : outcome (option string) * fallible :=
  let '(ok, f) := fallible_count f in
  if negb ok then (Panic errWriteLimit, f)
  else let '(err, db) := kv_Put (fa_Underlying f) key value in (Ok err, mk_fallible db (fa_writes f)).

(** [Delete] and batches are not counted. *)
Definition fallible_Delete (f : fallible) (key : list Z) : outcome (option string) * fallible :=
  let '(err, db) := kv_Delete (fa_Underlying f) key in (Ok err, mk_fallible db (fa_writes f)).
Definition fallible_Write (f : fallible) (ws : list write) : outcome (option string) * fallible :=
  let '(err, db) := kv_Write (fa_Underlying f) ws in (Ok err, mk_fallible db (fa_writes f)).

Definition fallible_Close {SN : Type} `{!KvFull S SN} (f : fallible) : outcome (option string) * fallible :=
  let '(ok, f) := fallible_count f in
  if negb ok then (Panic errWriteLimit, f)
  else let '(err, db) := kv_Close (fa_Underlying f) in (Ok err, mk_fallible db (fa_writes f)).
Definition fallible_Drop {SN : Type} `{!KvFull S SN} (f : fallible) : outcome unit * fallible :=
  let '(ok, f) := fallible_count f in
  if negb ok then (Panic errWriteLimit, f) else (Ok tt, mk_fallible (kv_Drop (fa_Underlying f)) (fa_writes f)).

(** Puts one after another, until one panics. *)
Fixpoint fallible_puts (f : fallible) (kvs : list (list Z * list Z)) : nat * fallible :=
  match kvs with
  | [] => (O, f)
  | (k, v) :: kvs =>
      let '(r, f) := fallible_Put f k v in
      match r with Ok _ => let '(n, f) := fallible_puts f kvs in (Datatypes.S n, f) | _ => (O, f) end
  end.

(** With the counter set to [n], exactly [n] puts reach the store. *)
Lemma fallible_budget (n : nat) (kvs : list (list Z * list Z)) : forall db, Z.of_nat n < 2 ^ 31 ->
  (fallible_puts (SetWriteCount (mk_fallible db 0) (Z.of_nat n)) kvs).1 = Nat.min n (length kvs).
Proof.
  unfold SetWriteCount. cbn. revert n. induction kvs as [|[k v] kvs IH]; intros n db Hn; [by rewrite Nat.min_0_r|].
  cbn [fallible_puts]. unfold fallible_Put, fallible_count. cbn [fa_writes fa_Underlying]. rewrite (i32_small (Z.of_nat n)) by (unfold is_i32; lia).
  rewrite i32_small by (unfold is_i32; lia). destruct n as [|n]; [done|].
  rewrite (proj2 (Z.leb_le _ _)) by lia. cbn [negb]. destruct (kv_Put db k v) as [err db'].
  specialize (IH n db' ltac:(lia)). rewrite (i32_small (Z.of_nat n)) in IH by (unfold is_i32; lia).
  replace (Z.of_nat (Datatypes.S n) - 1) with (Z.of_nat n) by lia. destruct (fallible_puts _ kvs) as [n' f']. cbn in *. by rewrite IH.
Qed.

End fallible.
Arguments fallible : clear implicits.

(** ** kvdb/synced: methods under a shared [sync.RWMutex] *)

Record rwmutex := mk_rwmutex { rw_readers : nat; rw_writer : bool }.

(** As one goroutine sees it: [None] when it would wait for itself. *)
Definition with_RLock {A} (mu : rwmutex) (body : rwmutex -> option (A * rwmutex)) : option (A * rwmutex) :=
  if rw_writer mu then None
  else '(a, mu') ← body (mk_rwmutex (Datatypes.S (rw_readers mu)) false); Some (a, mk_rwmutex (pred (rw_readers mu')) (rw_writer mu')).
Definition with_Lock {A} (mu : rwmutex) (body : rwmutex -> option (A * rwmutex)) : option (A * rwmutex) :=
  if rw_writer mu || (0 <? rw_readers mu)%nat then None
  else '(a, mu') ← body (mk_rwmutex 0 true); Some (a, mk_rwmutex (rw_readers mu') false).

Section synced.
Context {S SN : Type} `{!KvReader S, !KvReader SN, !KvWriter S, !KvFull S SN}.

Definition synced_Has (s : S) (key : list Z) (mu : rwmutex) := with_RLock mu (fun mu => Some (kv_Has s key, mu)).
Definition synced_Get (s : S) (key : list Z) (mu : rwmutex) := with_RLock mu (fun mu => Some (kv_Get s key, mu)).
(** Making the iterator; each [Next] then takes the lock for itself. *)
Definition synced_NewIterator (s : S) (prefix start : list Z) (mu : rwmutex) :=
  with_RLock mu (fun mu => Some (kv_NewIterator s prefix start, mu)).
Definition synced_Next (l : list (list Z * list Z)) (mu : rwmutex) :=
  with_RLock mu (fun mu => Some (tail l, mu)).
Definition synced_Stat (s : S) (property : string) (mu : rwmutex) := with_RLock mu (fun mu => Some (kv_Stat s property, mu)).
Definition synced_GetSnapshot (s : S) (mu : rwmutex) := with_RLock mu (fun mu => Some (kv_GetSnapshot s, mu)).
Definition synced_Put (s : S) (key value : list Z) (mu : rwmutex) := with_Lock mu (fun mu => Some (kv_Put s key value, mu)).
Definition synced_Delete (s : S) (key : list Z) (mu : rwmutex) := with_Lock mu (fun mu => Some (kv_Delete s key, mu)).
Definition synced_Compact (s : S) (start limit : option (list Z)) (mu : rwmutex) := with_Lock mu (fun mu => Some (kv_Compact s start limit, mu)).
Definition synced_Close (s : S) (mu : rwmutex) := with_Lock mu (fun mu => Some (kv_Close s, mu)).
Definition synced_Drop (s : S) (mu : rwmutex) := with_Lock mu (fun mu => Some (kv_Drop s, mu)).
Definition synced_batch_Write (s : S) (ws : list write) (mu : rwmutex) := with_Lock mu (fun mu => Some (kv_Write s ws, mu)).

(** [Replay] calls the writer while it holds the lock. *)
Fixpoint replay_calls {W} (put : write -> W -> rwmutex -> option ((option string * W) * rwmutex)) (ws : list write) (w : W) (mu : rwmutex) :
    option ((option string * W) * rwmutex) :=
  match ws with
  | [] => Some ((None, w), mu)
  | op :: ws => '(r, mu) ← put op w mu; match r.1 with Some e => Some (r, mu) | None => replay_calls put ws r.2 mu end
  end.
Definition synced_batch_Replay {W} (put : write -> W -> rwmutex -> option ((option string * W) * rwmutex)) (ws : list write) (w : W) (mu : rwmutex) :=
  with_Lock mu (fun mu => replay_calls put ws w mu).

Definition synced_put (op : write) (s : S) (mu : rwmutex) : option ((option string * S) * rwmutex) :=
  match op.2 with Some v => synced_Put s op.1 v mu | None => synced_Delete s op.1 mu end.

(** On a free mutex the methods answer as the store and leave the mutex free. *)
Lemma synced_transparent (s : S) key value ws :
  let free := mk_rwmutex 0 false in
  synced_Get s key free = Some (kv_Get s key, free) /\ synced_Has s key free = Some (kv_Has s key, free) /\
  synced_Put s key value free = Some (kv_Put s key value, free) /\ synced_Delete s key free = Some (kv_Delete s key, free) /\
  synced_batch_Write s ws free = Some (kv_Write s ws, free).
Proof. done. Qed.

(** While someone writes nobody enters; readers let readers in. *)
Lemma synced_exclusion (s : S) key value mu :
  (rw_writer mu = true -> synced_Get s key mu = None /\ synced_Put s key value mu = None) /\
  ((0 < rw_readers mu)%nat -> synced_Put s key value mu = None) /\
  (rw_writer mu = false -> synced_Get s key mu = Some (kv_Get s key, mu)).
Proof.
  destruct mu as [r w]. unfold synced_Get, synced_Put, with_RLock, with_Lock. cbn. splits.
  - by intros ->.
  - intros Hr. destruct r; [lia|]. by rewrite orb_true_r.
  - by intros ->.
Qed.

(** A batch replayed into a store under the same mutex waits for itself. *)
Lemma synced_replay_deadlock (s : S) op ws mu : synced_batch_Replay synced_put (op :: ws) s mu = None.
Proof.
  unfold synced_batch_Replay, with_Lock. destruct (_ || _); [done|]. cbn. unfold synced_put. by destruct op.2.
Qed.

End synced.

(** ** kvdb/batched/batched.go *)

Section batched.
Context {S : Type} `{!KvReader S} `{!KvWriter S}.

Record batched := mk_batched { ba_Store : S; ba_batch : list write }.

Definition batched_Wrap (s : S) : batched := mk_batched s [].

(** [Write] keeps the batch, [Reset] empties it. *)
Definition batched_Write (s : batched) : option string * batched :=
  let '(err, db) := kv_Write (ba_Store s) (ba_batch s) in (err, mk_batched db (ba_batch s)).
Definition batched_Reset (s : batched) : batched := mk_batched (ba_Store s) [].

Definition batched_Flush (s : batched) : option string * batched :=
  let '(err, s) := batched_Write s in
  match err with Some e => (Some e, s) | None => (None, batched_Reset s) end.

Definition batched_MayFlush (s : batched) : (bool * option string) * batched :=
  if kv_ValueSize (S := S) (ba_batch s) <=? IdealBatchSize then ((false, None), s)
  else let '(err, s) := batched_Flush s in ((true, err), s).

Definition batched_put (w : write) (s : batched) : option string * batched :=
  let '((_, err), s) := batched_MayFlush s in
  match err with
  | Some e => (Some e, s)
  | None => (None, mk_batched (ba_Store s) (ba_batch s ++ [w]))
  end.
Definition batched_Put (s : batched) (key value : list Z) : option string * batched := batched_put (key, Some value) s.
Definition batched_Delete (s : batched) (key : list Z) : option string * batched := batched_put (key, None) s.

Definition batched_Close {SN : Type} `{!KvFull S SN} (s : batched) : option string * batched :=
  let '(err, s) := batched_Flush s in
  match err with
  | Some e => (Some e, s)
  | None => let '(err, db) := kv_Close (ba_Store s) in (err, mk_batched db (ba_batch s))
  end.

Inductive batched_op := BPut (key value : list Z) | BDelete (key : list Z) | BMayFlush | BWrite | BFlush.

Definition batched_do (op : batched_op) (s : batched) : option string * batched :=
  match op with
  | BPut key value => batched_Put s key value
  | BDelete key => batched_Delete s key
  | BMayFlush => let '((_, err), s) := batched_MayFlush s in (err, s)
  | BWrite => batched_Write s
  | BFlush => batched_Flush s
  end.

(** What a caller asked for, if it was told that it is done. *)
Definition accepted (op : batched_op) (err : option string) : list write :=
  match op, err with BPut k v, None => [(k, Some v)] | BDelete k, None => [(k, None)] | _, _ => [] end.

(** The accepted writes of a run, and the state after it; errors do not stop the
    caller. *)
Fixpoint batched_run (ops : list batched_op) (s : batched) : list write * batched :=
  match ops with
  | [] => ([], s)
  | op :: ops => let '(err, s) := batched_do op s in prod_map (app (accepted op err)) id (batched_run ops s)
  end.

Context `{!KvWriterLaws S}.

(** What the store will hold once the batch has been written. *)
Definition pending (s : batched) (v : kv) : Prop := exists m, kv_content (ba_Store s) = Some m /\ v = apply_writes m (ba_batch s).

Lemma batched_Write_pending s v : pending s v ->
  pending (batched_Write s).2 v /\ ((batched_Write s).1 = None -> kv_content (ba_Store (batched_Write s).2) = Some v).
Proof.
  intros (m & Hm & ->). unfold batched_Write. destruct (kv_Write_law (ba_Store s) m (ba_batch s) Hm) as (ops & Hp & Hc & Hall).
  destruct (kv_Write (ba_Store s) (ba_batch s)) as [err db]. cbn in *. split; [|intros He; by rewrite Hc, Hall].
  eexists. split; [exact Hc|]. symmetry. by apply apply_writes_again.
Qed.

Lemma batched_Flush_pending s v : pending s v ->
  pending (batched_Flush s).2 v /\ ((batched_Flush s).1 = None -> kv_content (ba_Store (batched_Flush s).2) = Some v).
Proof.
  intros Hp. unfold batched_Flush. destruct (batched_Write_pending s v Hp) as [H1 H2].
  destruct (batched_Write s) as [[e|] s1]; cbn in *; [done|]. specialize (H2 eq_refl). split; [by exists v|done].
Qed.

Lemma batched_MayFlush_pending s v : pending s v -> pending (batched_MayFlush s).2 v.
Proof.
  intros Hp. unfold batched_MayFlush. destruct (_ <=? _); [done|]. destruct (batched_Flush_pending s v Hp) as [H1 _].
  by destruct (batched_Flush s) as [err s1].
Qed.

Lemma batched_put_pending w s v : pending s v ->
  pending (batched_put w s).2 (match (batched_put w s).1 with None => apply_write v w | Some _ => v end).
Proof.
  intros Hp. unfold batched_put. pose proof (batched_MayFlush_pending s v Hp) as Hf.
  destruct (batched_MayFlush s) as [[b [e|]] s1]; cbn in *; [done|]. destruct Hf as (m & Hm & ->). exists m. split; [done|]. cbn.
  by rewrite apply_writes_app.
Qed.

Lemma batched_do_pending op s v : pending s v ->
  pending (batched_do op s).2 (apply_writes v (accepted op (batched_do op s).1)).
Proof.
  intros Hp. destruct op as [k x|k| | |]; cbn [batched_do].
  - pose proof (batched_put_pending (k, Some x) s v Hp) as H. unfold batched_Put. by destruct (batched_put _ s) as [[e|] s1].
  - pose proof (batched_put_pending (k, None) s v Hp) as H. unfold batched_Delete. by destruct (batched_put _ s) as [[e|] s1].
  - pose proof (batched_MayFlush_pending s v Hp) as H. by destruct (batched_MayFlush s) as [[b [e|]] s1].
  - destruct (batched_Write_pending s v Hp) as [H _]. by destruct (batched_Write s) as [[e|] s1].
  - destruct (batched_Flush_pending s v Hp) as [H _]. by destruct (batched_Flush s) as [[e|] s1].
Qed.

Lemma batched_run_pending ops : forall s v, pending s v -> pending (batched_run ops s).2 (apply_writes v (batched_run ops s).1).
Proof.
  induction ops as [|op ops IH]; intros s v Hp; [done|]. cbn [batched_run]. pose proof (batched_do_pending op s v Hp) as H.
  destruct (batched_do op s) as [err s1]. unfold prod_map. cbn [fst snd] in *. rewrite apply_writes_app. by apply IH.
Qed.

End batched.
Arguments batched : clear implicits.

(** ** Properties *)

(** Writes given to a batched store, in any mix with flushes, any of which
    may fail after it has written a part of the batch: once a flush succeeds
    the store holds exactly what the accepted writes, in their order, make of
    what it held, each of them, and nothing of a refused one.  A store of
    which a flush failed is brought to that state by any later one. *)
Theorem batched_exact {S : Type} `{!KvReader S, !KvWriter S, !KvWriterLaws S} (ops : list batched_op) (s : S) (m : kv) (b : batched S) (ws : list write) :
  kv_content s = Some m -> batched_run ops (batched_Wrap s) = (ws, b) ->
  (batched_Flush b).1 = None -> kv_content (ba_Store (batched_Flush b).2) = Some (apply_writes m ws).
Proof.
  intros Hm Hr Hf. pose proof (batched_run_pending ops (batched_Wrap s) m ltac:(by exists m)) as Hp. rewrite Hr in Hp.
  by apply (batched_Flush_pending b _ Hp).
Qed.

(** A store whose every second batch fails after its first write. *)
Record flaky := mk_flaky { fk_map : kv; fk_fails : bool }.
#[local] Instance flaky_KvReader : KvReader flaky := {|
  kv_Get s k := Ok (fk_map s !! k);
  kv_Has s k := Ok (bool_decide (is_Some (fk_map s !! k)));
  kv_NewIterator s p st := Ok (kv_iter (fk_map s) p st);
  kv_content s := Some (fk_map s)
|}.
#[local] Instance flaky_KvWriter : KvWriter flaky := {|
  kv_Put s k v := (None, mk_flaky (<[k := v]> (fk_map s)) (fk_fails s));
  kv_Delete s k := (None, mk_flaky (delete k (fk_map s)) (fk_fails s));
  kv_ValueSize _ := 2 * IdealBatchSize;
  kv_Write s ws := if fk_fails s then (Some "full"%string, mk_flaky (apply_writes (fk_map s) (take 1 ws)) false)
                   else (None, mk_flaky (apply_writes (fk_map s) ws) true)
|}.
#[local] Instance flaky_KvWriterLaws : KvWriterLaws flaky.
Proof.
  split; intros s m *; cbn; intros [= <-]; [done|done|]. destruct (fk_fails s); cbn.
  - exists (take 1 ws). split; [by apply prefix_take|done].
  - by exists ws.
Qed.

Definition flaky_ops : list batched_op := [BPut [1] [10]; BPut [1] [11]; BPut [1] [12]; BDelete [2]; BPut [3] [13]].
Definition flaky_start : flaky := mk_flaky {[ [2] := [20] ]} true.
Definition flaky_end : list write * batched flaky := batched_run flaky_ops (batched_Wrap flaky_start).

Lemma batched_exact_witness :
  flaky_end.1 = [([1], Some [11]); ([2], None)] /\
  kv_content (ba_Store (batched_Flush flaky_end.2).2) = Some (apply_writes {[ [2] := [20] ]} flaky_end.1).
Proof.
  split; [by vm_compute|]. apply (batched_exact flaky_ops flaky_start {[ [2] := [20] ]} flaky_end.2 flaky_end.1); [done|exact (surjective_pairing flaky_end)|by vm_compute].
Defined.
