(* ===== verification/CachedProducer.v ===== *)
(** * kvdb/cachedproducer: one opened store for all who open the same name

    A store of the producer below is a handle, numbered in the order of the
    openings; what is asked of that producer and of its stores is the list of
    [real_call]s.  The sections of [openDB] under the mutex are separate
    definitions, since other calls may run between them. *)

From S2P Require Import Prelude Bytes.
Local Open Scope go_scope.

Inductive real_call := RealOpen (name : string) (h : nat) | RealClose (h : nat) | RealDrop (h : nat).
#[export] Instance real_call_eq_dec : EqDecision real_call.
Proof. solve_decision. Defined.

(** [refCounter] is a nil map if it was not made. *)
Record cacheState := mk_cacheState {
  cs_opened : gmap string nat;
  cs_refCounter : option (gmap string Z);
  cs_notDropped : gset string
}.

Definition WrapAll : cacheState := mk_cacheState ∅ (Some ∅) ∅.
Definition Wrap : cacheState := mk_cacheState ∅ None ∅.

(** [c.refCounter[name]++] *)
Definition inc_ref (name : string) (c : cacheState) : outcome cacheState :=
  match cs_refCounter c with
  | Some rc => Ok (mk_cacheState (cs_opened c) (Some (<[name := default 0 (rc !! name) + 1]> rc)) (cs_notDropped c))
  | None => Panic "assignment to entry in nil map"
  end.

(** The first section of [openDB]: the store, if it is opened already. *)
Definition open_lookup (name : string) (c : cacheState) : outcome (option nat * cacheState) :=
  let c := mk_cacheState (cs_opened c) (cs_refCounter c) ({[name]} ∪ cs_notDropped c) in
  match cs_opened c !! name with
  | Some h => outcome_bind (inc_ref name c) (fun c => Ok (Some h, c))
  | None => Ok (None, c)
  end.

(** The last section: the new store is registered. *)
Definition open_insert (name : string) (h : nat) (c : cacheState) : outcome cacheState :=
  inc_ref name (mk_cacheState (<[name := h]> (cs_opened c)) (cs_refCounter c) (cs_notDropped c)).

Section producer.
(** The errors of the producer below and of closing its stores. *)
Context (openErr : list real_call -> string -> option string) (closeErr : list real_call -> nat -> option string).

Definition opens (calls : list real_call) : nat := length (omap (fun c => match c with RealOpen _ h => Some h | _ => None end) calls).

Definition real_OpenDB (name : string) (calls : list real_call) : outcome nat * list real_call :=
  match openErr calls name with
  | Some e => (Err e, calls)
  | None => (Ok (opens calls), calls ++ [RealOpen name (opens calls)])
  end.

Definition openDB (name : string) (c : cacheState) (calls : list real_call) : outcome nat * cacheState * list real_call :=
  match open_lookup name c with
  | Ok (Some h, c) => (Ok h, c, calls)
  | Ok (None, c) =>
      let '(r, calls) := real_OpenDB name calls in
      match r with
      | Ok h => match open_insert name h c with Ok c => (Ok h, c, calls) | Err e => (Err e, c, calls) | Panic e => (Panic e, c, calls) end
      | _ => (r, c, calls)
      end
  | Err e => (Err e, c, calls)
  | Panic e => (Panic e, c, calls)
  end.

Definition errTooManyCloses : string := "called Close more times than OpenDB".

(** [CloseFn] of the store [h] opened as [name] *)
Definition CloseFn (name : string) (h : nat) (c : cacheState) (calls : list real_call) : option string * cacheState * list real_call :=
  let rc := default ∅ (cs_refCounter c) in
  let counter := default 0 (rc !! name) in
  if counter <=? 0 then (Some errTooManyCloses, c, calls)
  else if counter =? 1 then
    (closeErr calls h, mk_cacheState (delete name (cs_opened c)) (Some (delete name rc)) (cs_notDropped c), calls ++ [RealClose h])
  else (None, mk_cacheState (cs_opened c) (Some (<[name := counter - 1]> rc)) (cs_notDropped c), calls).

(** [DropFn] *)
Definition DropFn (name : string) (h : nat) (c : cacheState) (calls : list real_call) : cacheState * list real_call :=
  (mk_cacheState (cs_opened c) (cs_refCounter c) (cs_notDropped c ∖ {[name]}),
   if decide (name ∈ cs_notDropped c) then calls ++ [RealDrop h] else calls).

(** ** Users of the producer *)

(** They hold references, each closed once by its holder; a store may be dropped
    by anyone who had it. *)
Record users := mk_users {
  us_state : cacheState;
  us_calls : list real_call;
  us_refs : list (string * nat);
  us_seen : list (string * nat)
}.

Inductive user_op := UOpen (name : string) | UClose (i : nat) | UDrop (i : nat).

Definition user_do (op : user_op) (u : users) : outcome unit * users :=
  let c := us_state u in let calls := us_calls u in
  match op with
  | UOpen name =>
      let '(r, c, calls) := openDB name c calls in
      match r with
      | Ok h => (Ok tt, mk_users c calls ((name, h) :: us_refs u) ((name, h) :: us_seen u))
      | Err e => (Err e, mk_users c calls (us_refs u) (us_seen u))
      | Panic e => (Panic e, mk_users c calls (us_refs u) (us_seen u))
      end
  | UClose i =>
      match us_refs u !! i with
      | Some (name, h) =>
          let '(err, c, calls) := CloseFn name h c calls in
          (match err with Some e => Err e | None => Ok tt end, mk_users c calls (delete i (us_refs u)) (us_seen u))
      | None => (Ok tt, u)
      end
  | UDrop i =>
      match us_seen u !! i with
      | Some (name, h) => let '(c, calls) := DropFn name h c calls in (Ok tt, mk_users c calls (us_refs u) (us_seen u))
      | None => (Ok tt, u)
      end
  end.

Fixpoint users_run (ops : list user_op) (u : users) : list (outcome unit) * users :=
  match ops with
  | [] => ([], u)
  | op :: ops => let '(r, u) := user_do op u in prod_map (cons r) id (users_run ops u)
  end.

Definition users_start : users := mk_users WrapAll [] [] [].

(** ** The invariant *)

Definition closes (h : nat) (calls : list real_call) : nat := length (filter (fun c => c = RealClose h) calls).

(** How many references to [name] are out. *)
Definition refs_of (name : string) (refs : list (string * nat)) : Z := Z.of_nat (length (filter (fun r => r.1 = name) refs)).

Record counted (c : cacheState) (calls : list real_call) (refs : list (string * nat)) : Prop := {
  ct_counter : exists rc, cs_refCounter c = Some rc /\ forall name, default 0 (rc !! name) = refs_of name refs;
  ct_opened name h : cs_opened c !! name = Some h <-> (name, h) ∈ refs;
  ct_known name h : RealOpen name h ∈ calls -> (h < opens calls)%nat;
  ct_refs name h : (name, h) ∈ refs -> RealOpen name h ∈ calls;
  ct_name n1 n2 h : RealOpen n1 h ∈ calls -> RealOpen n2 h ∈ calls -> n1 = n2;
  ct_closed name h : RealOpen name h ∈ calls -> closes h calls = if decide ((name, h) ∈ refs) then 0%nat else 1%nat;
  ct_new h : (opens calls <= h)%nat -> closes h calls = 0%nat
}.

Lemma refs_of_pos name refs : 0 < refs_of name refs <-> exists h, (name, h) ∈ refs.
Proof.
  unfold refs_of. split.
  - destruct (filter _ refs) as [|[n h] l] eqn:E; cbn; [lia|]. intros _. exists h.
    assert ((n, h) ∈ filter (fun r => r.1 = name) refs) as Hin by (rewrite E; left). apply list_elem_of_filter in Hin as [<- Hin]. done.
  - intros (h & Hin). assert ((name, h) ∈ filter (fun r => r.1 = name) refs) as Hf by (by apply list_elem_of_filter).
    destruct (filter _ refs); [by apply not_elem_of_nil in Hf|]. cbn. lia.
Qed.

Lemma refs_of_cons name n h refs : refs_of name ((n, h) :: refs) = refs_of name refs + if decide (n = name) then 1 else 0.
Proof. unfold refs_of. rewrite filter_cons. cbn. case_decide; cbn; lia. Qed.

Lemma refs_of_perm name refs refs' : refs ≡ₚ refs' -> refs_of name refs = refs_of name refs'.
Proof. intros Hp. unfold refs_of. by rewrite Hp. Qed.

(** The state does not depend on the order of the references. *)
#[export] Instance counted_perm : Proper (eq ==> eq ==> (≡ₚ) ==> iff) counted.
Proof.
  assert (forall c calls r1 r2, r1 ≡ₚ r2 -> counted c calls r1 -> counted c calls r2) as Himp.
  { intros c calls r1 r2 Hp [(rc & Hrc & Hc) H2 H3 H4 H5 H6 H7]. split; try done.
    - exists rc. split; [done|]. intros n. rewrite Hc. by apply refs_of_perm.
    - intros n h. by rewrite H2, Hp.
    - intros n h. rewrite <- Hp. apply H4.
    - intros n h Hin. rewrite (H6 n h Hin). apply decide_ext. by rewrite Hp. }
  intros c _ <- calls _ <- r1 r2 Hp. split; apply Himp; done.
Qed.

Lemma closes_app h l1 l2 : closes h (l1 ++ l2) = (closes h l1 + closes h l2)%nat.
Proof. unfold closes. by rewrite filter_app, length_app. Qed.

Lemma opens_app l1 l2 : opens (l1 ++ l2) = (opens l1 + opens l2)%nat.
Proof. unfold opens. by rewrite omap_app, length_app. Qed.

(** What the steps need of [opened] and [refCounter]. *)
Lemma counted_fresh c calls refs name : counted c calls refs -> cs_opened c !! name = None -> refs_of name refs = 0.
Proof.
  intros Hc Hn. destruct (decide (0 < refs_of name refs)) as [Hp|Hp]; [|unfold refs_of in *; lia].
  apply refs_of_pos in Hp as [h Hin]. apply (ct_opened _ _ _ Hc) in Hin. congruence.
Qed.

Lemma counted_drop c calls refs d : counted c calls refs -> counted (mk_cacheState (cs_opened c) (cs_refCounter c) d) calls refs.
Proof. intros [H1 H2 H3 H4 H5 H6 H7]. by split. Qed.

(** One reference more to a store that is opened. *)
Lemma counted_again c calls refs name h c' : counted c calls refs -> cs_opened c !! name = Some h -> inc_ref name c = Ok c' ->
  counted c' calls ((name, h) :: refs).
Proof.
  intros Hc Ho Hi. pose proof (proj1 (ct_opened _ _ _ Hc name h) Ho) as Hin. destruct Hc as [(rc & Hrc & Hct) H2 H3 H4 H5 H6 H7].
  unfold inc_ref in Hi. rewrite Hrc in Hi. injection Hi as <-. split; cbn; try done.
  - eexists. split; [done|]. intros n. rewrite refs_of_cons. case_decide as Hn; [subst; rewrite lookup_insert_eq; cbn; by rewrite Hct|].
    rewrite lookup_insert_ne by done. rewrite Hct. lia.
  - intros n h'. rewrite H2, elem_of_cons. split; [by right|]. by intros [[= -> ->]|?].
  - intros n h' [[= -> ->]|Hr]%elem_of_cons; by apply H4.
  - intros n h' Hr. rewrite (H6 n h' Hr). apply decide_ext. rewrite elem_of_cons. split; [by right|]. by intros [[= -> ->]|?].
Qed.

(** A store opened below and registered. *)
Lemma counted_opened c calls refs name c' : counted c calls refs -> cs_opened c !! name = None ->
  open_insert name (opens calls) c = Ok c' -> counted c' (calls ++ [RealOpen name (opens calls)]) ((name, opens calls) :: refs).
Proof.
  intros Hc Ho Hi. pose proof (counted_fresh _ _ _ _ Hc Ho) as Hz. destruct Hc as [(rc & Hrc & Hct) H2 H3 H4 H5 H6 H7].
  unfold open_insert, inc_ref in Hi. cbn in Hi. rewrite Hrc in Hi. injection Hi as <-.
  assert (forall n, (n, opens calls) ∉ refs) as Hnew by (intros n Hin; apply H4, H3 in Hin; lia).
  assert (forall h', (name, h') ∉ refs) as Hnone.
  { intros h' Hin. assert (0 < refs_of name refs) by (apply refs_of_pos; by exists h'). lia. }
  split; cbn.
  - eexists. split; [done|]. intros n. rewrite refs_of_cons. case_decide as Hn; [subst; rewrite lookup_insert_eq; cbn; by rewrite Hct|].
    rewrite lookup_insert_ne by done. rewrite Hct. lia.
  - intros n h. rewrite elem_of_cons. destruct (decide (name = n)) as [<-|Hne].
    + rewrite lookup_insert_eq. split; [intros [= ->]; by left|]. intros [[= ->]|Hin]; [done|]. by apply Hnone in Hin.
    + rewrite lookup_insert_ne by done. rewrite H2. split; [by right|]. by intros [[= -> _]|?].
  - intros n h. rewrite elem_of_app, opens_app, list_elem_of_singleton. intros [Hin|[= -> ->]]; [apply H3 in Hin; lia|cbn; lia].
  - intros n h [[= -> ->]|Hin]%elem_of_cons; apply elem_of_app; [right; by left|left; by apply H4].
  - intros n1 n2 h. rewrite !elem_of_app, !list_elem_of_singleton. intros [Ha|Ea] [Hb|Eb]; [by apply (H5 n1 n2 h)| | |congruence].
    + injection Eb as -> ->. apply H3 in Ha. lia.
    + injection Ea as -> ->. apply H3 in Hb. lia.
  - intros n h. rewrite elem_of_app, list_elem_of_singleton, closes_app. intros [Hin|[= -> ->]].
    + rewrite (H6 n h Hin), Nat.add_0_r. apply decide_ext. rewrite elem_of_cons. split; [by right|]. intros [[= -> ->]|?]; [apply H3 in Hin; lia|done].
    + rewrite decide_True by left. by rewrite H7 by lia.
  - intros h. rewrite opens_app, closes_app. cbn. intros Hh. rewrite H7 by lia. done.
Qed.

(** One of several references given back. *)
Lemma counted_less c calls refs name h rc : counted c calls ((name, h) :: refs) -> cs_refCounter c = Some rc -> 0 < refs_of name refs ->
  counted (mk_cacheState (cs_opened c) (Some (<[name := refs_of name refs]> rc)) (cs_notDropped c)) calls refs.
Proof.
  intros [(rc' & Hrc & Hct) H2 H3 H4 H5 H6 H7] E Hp. rewrite E in Hrc. injection Hrc as <-.
  assert ((name, h) ∈ refs) as Hin.
  { apply refs_of_pos in Hp as [h' Hin]. assert (cs_opened c !! name = Some h') as Ho by (apply H2; by right).
    assert (cs_opened c !! name = Some h) as Ho' by (apply H2; left). congruence. }
  assert (forall r, r ∈ (name, h) :: refs <-> r ∈ refs) as Hsame by (intros r; rewrite elem_of_cons; split; [by intros [->|?]|by right]).
  split; cbn; try done.
  - eexists. split; [done|]. intros n. destruct (decide (name = n)) as [<-|Hne]; [by rewrite lookup_insert_eq|].
    rewrite lookup_insert_ne by done. rewrite Hct, refs_of_cons, decide_False by done. lia.
  - intros n h'. by rewrite H2, Hsame.
  - intros n h' Hr. apply H4. by right.
  - intros n h' Hr. rewrite (H6 n h' Hr). apply decide_ext. apply Hsame.
Qed.

(** The last reference given back. *)
Lemma counted_last c calls refs name h rc : counted c calls ((name, h) :: refs) -> cs_refCounter c = Some rc -> refs_of name refs = 0 ->
  counted (mk_cacheState (delete name (cs_opened c)) (Some (delete name rc)) (cs_notDropped c)) (calls ++ [RealClose h]) refs.
Proof.
  intros [(rc' & Hrc & Hct) H2 H3 H4 H5 H6 H7] E Hz. rewrite E in Hrc. injection Hrc as <-.
  assert (forall h', (name, h') ∉ refs) as Hnone.
  { intros h' Hin. assert (0 < refs_of name refs) by (apply refs_of_pos; by exists h'). lia. }
  assert (RealOpen name h ∈ calls) as Hop by (apply H4; left).
  assert (opens (calls ++ [RealClose h]) = opens calls) as Hops by (rewrite opens_app; cbn; lia).
  assert (forall n h', RealOpen n h' ∈ calls ++ [RealClose h] <-> RealOpen n h' ∈ calls) as Hmem.
  { intros n h'. rewrite elem_of_app, list_elem_of_singleton. split; [by intros [?|?]|by left]. }
  split; cbn.
  - eexists. split; [done|]. intros n. destruct (decide (name = n)) as [<-|Hne]; [by rewrite lookup_delete_eq|].
    rewrite lookup_delete_ne by done. rewrite Hct, refs_of_cons, decide_False by done. lia.
  - intros n h'. destruct (decide (name = n)) as [<-|Hne].
    + rewrite lookup_delete_eq. split; [done|]. by intros ?%Hnone.
    + rewrite lookup_delete_ne by done. rewrite H2, elem_of_cons. split; [by intros [[= -> _]|?]|by right].
  - intros n h'. rewrite Hmem, Hops. apply H3.
  - intros n h' Hr. apply Hmem, H4. by right.
  - intros n1 n2 h'. rewrite !Hmem. apply H5.
  - intros n h'. rewrite Hmem. intros Hin. rewrite closes_app, (H6 n h' Hin). unfold closes. rewrite filter_cons, filter_nil.
    destruct (decide (h = h')) as [<-|Hne].
    + assert (n = name) as -> by (by apply (H5 n name h)). rewrite !decide_True by (done || left). rewrite decide_False by apply Hnone. done.
    + rewrite (decide_False (P := RealClose h = RealClose h')) by congruence. cbn. rewrite Nat.add_0_r. apply decide_ext. rewrite elem_of_cons.
      split; [by intros [[= -> ->]|?]|by right].
  - intros h'. rewrite Hops, closes_app. intros Hh. rewrite H7 by done. unfold closes. rewrite filter_cons, filter_nil, decide_False; [done|].
    intros [= ->]. apply H3 in Hop. lia.
Qed.

(** ** The steps keep it *)

Lemma openDB_counted name c calls refs r c' calls' : counted c calls refs -> openDB name c calls = (r, c', calls') ->
  match r with Ok h => counted c' calls' ((name, h) :: refs) | Err _ => counted c' calls' refs | Panic _ => False end.
Proof.
  intros Hc Ho. unfold openDB, open_lookup in Ho. apply (counted_drop _ _ _ ({[name]} ∪ cs_notDropped c)) in Hc.
  set (c0 := mk_cacheState _ _ _) in *. clearbody c0. destruct (ct_counter _ _ _ Hc) as (rc & Hrc & _). unfold inc_ref at 1 in Ho. rewrite Hrc in Ho.
  destruct (cs_opened c0 !! name) as [h|] eqn:Hn; cbn [outcome_bind] in Ho.
  - injection Ho as <- <- <-. apply (counted_again c0 _ _ name h); [done|done|]. unfold inc_ref. by rewrite Hrc.
  - unfold real_OpenDB in Ho. destruct (openErr calls name); [by injection Ho as <- <- <-|].
    destruct (open_insert name (opens calls) c0) as [c1| |] eqn:Hi; [|unfold open_insert, inc_ref in Hi; cbn in Hi; by rewrite Hrc in Hi..].
    injection Ho as <- <- <-. by apply (counted_opened c0).
Qed.

Lemma CloseFn_counted name h c calls refs err c' calls' : counted c calls ((name, h) :: refs) -> CloseFn name h c calls = (err, c', calls') ->
  counted c' calls' refs /\ err = if refs_of name ((name, h) :: refs) =? 1 then closeErr calls h else None.
Proof.
  intros Hc Hf. destruct (ct_counter _ _ _ Hc) as (rc & Hrc & Hct). specialize (Hct name). unfold CloseFn in Hf.
  assert (refs_of name ((name, h) :: refs) = refs_of name refs + 1) as Hr by (by rewrite refs_of_cons, decide_True).
  assert (0 <= refs_of name refs) as Hnn by (unfold refs_of; lia). rewrite Hr in *. rewrite Hrc in Hf. simpl default in Hf. rewrite Hct in Hf.
  rewrite (proj2 (Z.leb_gt _ _)) in Hf by lia. destruct (_ =? 1) eqn:E1; bool_to_prop; injection Hf as <- <- <-; (split; [|done]).
  - apply counted_last; [done|done|lia].
  - replace (_ + 1 - 1) with (refs_of name refs) by lia. apply (counted_less c calls refs name h); [done|done|lia].
Qed.

Lemma closes_drop h h' calls : closes h (calls ++ [RealDrop h']) = closes h calls.
Proof. rewrite closes_app. unfold closes at 2. rewrite filter_cons, decide_False by done. apply Nat.add_0_r. Qed.

Lemma DropFn_counted name h c calls refs : counted c calls refs ->
  counted (DropFn name h c calls).1 (DropFn name h c calls).2 refs.
Proof.
  intros Hc. unfold DropFn. cbn. apply (counted_drop _ _ _ (cs_notDropped c ∖ {[name]})) in Hc. case_decide; [|done].
  destruct Hc as [H1 H2 H3 H4 H5 H6 H7].
  assert (forall n h', RealOpen n h' ∈ calls ++ [RealDrop h] <-> RealOpen n h' ∈ calls) as Hmem.
  { intros n h'. rewrite elem_of_app, list_elem_of_singleton. split; [by intros [?|?]|by left]. }
  assert (opens (calls ++ [RealDrop h]) = opens calls) as Hops by (rewrite opens_app; cbn; lia).
  split; [done|done|..]; intros *; rewrite ?Hmem, ?Hops, ?closes_drop; [apply H3|apply H4|apply H5|apply H6|apply H7].
Qed.

Definition users_ok (u : users) : Prop := counted (us_state u) (us_calls u) (us_refs u).

Lemma user_do_ok op u : users_ok u -> users_ok (user_do op u).2 /\ forall e, (user_do op u).1 <> Panic e.
Proof.
  unfold users_ok. intros Hu. destruct u as [c calls refs seen]. destruct op as [name|i|i]; cbn in *.
  - destruct (openDB name c calls) as [[r c'] calls'] eqn:Ho. pose proof (openDB_counted _ _ _ _ _ _ _ Hu Ho) as H. by destruct r.
  - destruct (refs !! i) as [[name h]|] eqn:Hi; [|done]. rewrite (delete_Permutation _ _ _ Hi) in Hu.
    destruct (CloseFn name h c calls) as [[err c'] calls'] eqn:Hf. destruct (CloseFn_counted _ _ _ _ _ _ _ _ Hu Hf) as [Hc _].
    split; [done|]. by destruct err.
  - destruct (seen !! i) as [[name h]|]; [|done]. pose proof (DropFn_counted name h c calls refs Hu) as H.
    unfold DropFn in *. cbn in *. by split.
Qed.

Lemma users_run_ok ops : forall u, users_ok u -> users_ok (users_run ops u).2 /\ forall e, Panic e ∉ (users_run ops u).1.
Proof.
  induction ops as [|op ops IH]; intros u Hu; cbn [users_run]; [split; [done|intros e; apply not_elem_of_nil]|].
  destruct (user_do_ok op u Hu) as [H1 H2]. destruct (user_do op u) as [r u1]. destruct (IH u1 H1) as [H3 H4]. unfold prod_map. cbn [fst snd] in *.
  split; [done|]. intros e. rewrite not_elem_of_cons. split; [by intros <-; apply (H2 e)|apply H4].
Qed.

Lemma users_start_ok : users_ok users_start.
Proof.
  split; cbn.
  - exists ∅. split; [done|]. by intros name.
  - intros name h. rewrite lookup_empty. split; [done|by intros ?%not_elem_of_nil].
  - by intros name h ?%not_elem_of_nil.
  - by intros name h ?%not_elem_of_nil.
  - by intros n1 n2 h ?%not_elem_of_nil.
  - by intros name h ?%not_elem_of_nil.
  - done.
Qed.

End producer.

(** ** Properties *)


Definition no_open_errors : list real_call -> string -> option string := fun _ _ => None.
Definition no_close_errors : list real_call -> nat -> option string := fun _ _ => None.

(** Two users share a store: the second closing closes it; the next opening opens
    another. *)
Example shared_store :
  us_calls (users_run no_open_errors no_close_errors [UOpen "a"; UOpen "a"; UClose 0; UClose 0; UOpen "a"] users_start).2 =
    [RealOpen "a" 0; RealClose 0; RealOpen "a" 1].
Proof. done. Qed.

(** [Wrap] does not make [refCounter]: the first store that is opened is really
    opened, and its registration panics. *)
Lemma Wrap_panics openErr name calls : openErr calls name = None ->
  exists c, openDB openErr name Wrap calls = (Panic "assignment to entry in nil map", c, calls ++ [RealOpen name (opens calls)]).
Proof. intros He. unfold openDB, open_lookup, real_OpenDB. cbn. rewrite He. eexists. reflexivity. Qed.

(** Two openings of one name at once: both find no store and open one below; the
    first of the two is never closed. *)
Example race_leaks_store :
  let m1 := open_lookup "a" WrapAll in
  let calls := [RealOpen "a" 0; RealOpen "a" 1] in
  let opened := outcome_bind m1 (fun '(_, c) => outcome_bind (open_lookup "a" c) (fun '(second, c) =>
    outcome_bind (open_insert "a" 0 c) (fun c => outcome_bind (open_insert "a" 1 c) (fun c => Ok (second, c))))) in
  match opened with
  | Ok (second, c) =>
      second = None /\
      let '(err0, c, calls) := CloseFn no_close_errors "a" 0 c calls in
      let '(err1, c, calls) := CloseFn no_close_errors "a" 1 c calls in
      err0 = None /\ err1 = None /\ calls = [RealOpen "a" 0; RealOpen "a" 1; RealClose 1] /\ cs_opened c !! "a"%string = None
  | _ => False
  end.
Proof. by vm_compute. Qed.

(** Opening a store again that is held allows a second real drop of it. *)
Example dropped_twice :
  us_calls (users_run no_open_errors no_close_errors [UOpen "a"; UDrop 0; UOpen "a"; UDrop 0] users_start).2 =
    [RealOpen "a" 0; RealDrop 0; RealDrop 0].
Proof. by vm_compute. Qed.
