(* ===== verification/DiskStore.v ===== *)
(** * kvdb/leveldb and kvdb/pebble: the stores on disk

    The two libraries are parameters: [OrderedReader] and [OrderedDB] state what
    their databases and snapshots promise.  What the packages add to them, the
    iterator ranges, the batches, the life cycle and the producers, is modelled
    as it is written, and both are stores of the interface of KvStore.v. *)

From S2P Require Import Prelude Bytes Kvdb KvStore PieceFunc.
Local Open Scope go_scope.

(** ** What the libraries promise *)

(** The pairs from [lo] on and before [hi]. *)
Definition in_range (lo hi : option (list Z)) (k : list Z) : Prop :=
  (match lo with Some lo => key_le lo k | None => True end) /\ (match hi with Some hi => key_lt k hi | None => True end).
#[export] Instance in_range_dec lo hi k : Decision (in_range lo hi k).
Proof. unfold in_range. destruct lo, hi; apply _. Defined.

(** [or_Get] of an absent key is the error [or_ErrNotFound]. *)
Class OrderedReader (R : Type) := {
  or_ErrNotFound : string;
  or_Get : R -> list Z -> outcome (list Z);
  or_Has : R -> list Z -> outcome bool;
  or_NewIter : R -> option (list Z) -> option (list Z) -> list (list Z * list Z);
  or_content : R -> kv
}.
Class OrderedReaderLaws (R : Type) `{!OrderedReader R} : Prop := {
  or_Get_law r k : or_Get r k = match or_content r !! k with Some v => Ok v | None => Err or_ErrNotFound end;
  or_Has_law r k : or_Has r k = Ok (bool_decide (is_Some (or_content r !! k)));
  or_NewIter_law r lo hi : or_NewIter r lo hi = filter (fun p => in_range lo hi p.1) (sorted_pairs (or_content r));
  or_bytes r k v : or_content r !! k = Some v -> Forall is_byte k
}.

Class OrderedDB (D SN : Type) := {
  od_Set : D -> list Z -> list Z -> option string * D;
  od_Delete : D -> list Z -> option string * D;
  od_Apply : D -> list write -> option string * D;
  od_NewSnapshot : D -> outcome SN;
  od_Compact : D -> option (list Z) -> option (list Z) -> option string * D;
  od_Stat : D -> string -> outcome string;
  od_Flush : D -> option string;
  od_Close : D -> option string * D
}.
(** A batch is applied whole or not at all. *)
Class OrderedDBLaws (D SN : Type) `{!OrderedReader D, !OrderedReader SN, !OrderedDB D SN} : Prop := {
  od_Set_law d k v : or_content (od_Set d k v).2 = if (od_Set d k v).1 is Some _ then or_content d else <[k := v]> (or_content d);
  od_Delete_law d k : or_content (od_Delete d k).2 = if (od_Delete d k).1 is Some _ then or_content d else delete k (or_content d);
  od_Apply_law d ws : or_content (od_Apply d ws).2 = if (od_Apply d ws).1 is Some _ then or_content d else apply_writes (or_content d) ws;
  od_NewSnapshot_law d sn : od_NewSnapshot d = Ok sn -> or_content sn = or_content d;
  od_Compact_law d a b : or_content (od_Compact d a b).2 = or_content d
}.

(** ** The range of an iterator *)

(** [bytesPrefix]: from the last byte down, the first that can be increased. *)
Fixpoint bytesPrefix_loop (prefix : list Z) (i : nat) : option (list Z) :=
  match i with
  | O => None
  | Datatypes.S i =>
      match prefix !! i with
      | Some c => if c <? 255 then Some (take i prefix ++ [c + 1]) else bytesPrefix_loop prefix i
      | None => None
      end
  end.
Definition bytesPrefix (prefix : list Z) : option (list Z) := bytesPrefix_loop prefix (length prefix).

(** goleveldb's [util.BytesPrefix], which pebble.go copies: the end of the keys
    with a prefix. *)
Class LevelUtil := {
  util_BytesPrefix : list Z -> option (list Z);
  util_BytesPrefix_law p k : Forall is_byte k -> HasPrefix k p = true <-> in_range (Some p) (util_BytesPrefix p) k
}.

Lemma bytesPrefix_loop_spec p : forall i, (i <= length p)%nat -> Forall (fun c => 255 <= c) (drop i p) ->
  match bytesPrefix_loop p i with
  | None => Forall (fun c => 255 <= c) p
  | Some l => exists q c r, p = q ++ c :: r /\ Forall (fun c => 255 <= c) r /\ l = q ++ [c + 1]
  end.
Proof.
  induction i as [|i IH]; intros Hi Hd; [done|]. cbn [bytesPrefix_loop].
  destruct (lookup_lt_is_Some_2 p i ltac:(lia)) as [c Hc]. rewrite Hc.
  destruct (c <? 255) eqn:E; bool_to_prop.
  - exists (take i p), c, (drop (S i) p). split; [by rewrite take_drop_middle|done].
  - apply IH; [lia|]. rewrite (drop_S p c i Hc). by constructor.
Qed.

(** A key of bytes from [r] on, all of whose bytes are the largest, begins with
    it. *)
Lemma last_prefix r : forall k, Forall (fun c => 255 <= c) r -> Forall is_byte k -> key_le r k -> HasPrefix k r = true.
Proof.
  induction r as [|x r IH]; intros [|y k] Hr Hk; [done|done|done|]. apply Forall_cons in Hr as [Hx Hr]. apply Forall_cons in Hk as [Hy Hk].
  unfold key_le, is_byte in *. cbn. destruct (Z.compare_spec x y) as [->|?|?]; [|lia|done]. intros Hle. by rewrite Z.eqb_refl, IH.
Qed.

Lemma limit_prefix q c r : forall k, Forall (fun c => 255 <= c) r -> Forall is_byte k -> key_le (q ++ c :: r) k -> key_lt k (q ++ [c + 1]) ->
  HasPrefix k (q ++ c :: r) = true.
Proof.
  induction q as [|x q IH]; intros [|y k] Hr Hk; unfold key_le, key_lt; cbn; [done| |done|]; apply Forall_cons in Hk as [Hy Hk].
  - destruct (Z.compare_spec c y) as [->|?|?]; [|destruct (Z.compare_spec y (c + 1)); [by destruct k|lia|done]|done].
    intros Hle _. rewrite Z.eqb_refl. by apply last_prefix.
  - destruct (Z.compare_spec x y) as [->|?|?]; [|destruct (Z.compare_spec y x); [lia|lia|done]|done].
    rewrite Z.compare_refl, Z.eqb_refl. intros H1 H2. by apply IH.
Qed.

Lemma bytesPrefix_spec p k : Forall is_byte k -> HasPrefix k p = true <-> in_range (Some p) (bytesPrefix p) k.
Proof.
  intros Hk. pose proof (bytesPrefix_loop_spec p (length p) ltac:(lia) ltac:(rewrite drop_all; constructor)) as Hs.
  unfold in_range, bytesPrefix. destruct (bytesPrefix_loop p (length p)) as [l|].
  - destruct Hs as (q & c & r & -> & Hr & ->). split; [|by intros [H1 H2]; apply limit_prefix].
    intros Hp. split; [by apply prefix_key_le|]. apply HasPrefix_spec in Hp as [k' ->]. rewrite <- app_assoc. apply key_lt_app.
    unfold key_lt. cbn. by rewrite (proj2 (Z.compare_lt_iff _ _)) by lia.
  - split; [intros Hp; split; [by apply prefix_key_le|done]|]. intros [H1 _]. by apply last_prefix.
Qed.

#[export] Instance copied_LevelUtil : LevelUtil := {| util_BytesPrefix := bytesPrefix; util_BytesPrefix_law := bytesPrefix_spec |}.

(** pebble.go: nil slices are [None]. *)
Definition pebble_bytesPrefixRange (prefix start : option (list Z)) : option (list Z) * option (list Z) :=
  match prefix, start with
  | None, None => (None, None)
  | _, _ =>
      let '(lower, upper) := match prefix with Some prefix => (prefix, bytesPrefix prefix) | None => ([], None) end in
      (Some (lower ++ default [] start), upper)
  end.

(** leveldb.go *)
Definition leveldb_bytesPrefixRange `{!LevelUtil} (prefix start : list Z) : option (list Z) * option (list Z) :=
  (Some (prefix ++ start), util_BytesPrefix prefix).

Lemma list_filter_ext_in {A} (P Q : A -> Prop) `{!forall x, Decision (P x), !forall x, Decision (Q x)} (l : list A) :
  (forall x, x ∈ l -> P x <-> Q x) -> filter P l = filter Q l.
Proof.
  induction l as [|x l IH]; intros Hpq; [done|]. rewrite !filter_cons, (decide_ext (P x) (Q x)) by (apply Hpq; left).
  rewrite IH; [done|]. intros y Hy. apply Hpq. by right.
Qed.

(** From a key of the prefix on, up to the end of the prefix: what [NewIterator]
    is asked for. *)
Lemma range_iter {R} `{!OrderedReader R, !OrderedReaderLaws R} (r : R) (p st : list Z) hi :
  (forall k, Forall is_byte k -> HasPrefix k p = true <-> in_range (Some p) hi k) ->
  or_NewIter r (Some (p ++ st)) hi = kv_iter (or_content r) p st.
Proof.
  intros Hhi. rewrite or_NewIter_law. unfold kv_iter. apply list_filter_ext_in. intros [k v] Hin. cbn [fst].
  apply elem_of_sorted_pairs, or_bytes in Hin. specialize (Hhi k Hin). unfold in_range in *. rewrite Hhi.
  assert (key_le (p ++ st) k -> key_le p k) by (intros; etrans; [apply prefix_key_le, HasPrefix_spec; by eexists|done]). tauto.
Qed.

Lemma pebble_range {R} `{!OrderedReader R, !OrderedReaderLaws R} (r : R) (prefix start : option (list Z)) :
  let '(lo, hi) := pebble_bytesPrefixRange prefix start in
  or_NewIter r lo hi = kv_iter (or_content r) (default [] prefix) (default [] start).
Proof.
  assert (forall st hi, hi = bytesPrefix [] \/ hi = None -> or_NewIter r (Some ([] ++ st)) hi = kv_iter (or_content r) [] st) as Hnil.
  { intros st hi Hhi. apply range_iter. intros k Hk. destruct Hhi as [-> | ->]; exact (bytesPrefix_spec [] k Hk). }
  destruct prefix as [p|], start as [st|]; cbn [pebble_bytesPrefixRange default from_option id].
  - apply range_iter. intros k. apply bytesPrefix_spec.
  - apply (range_iter r p []). intros k. apply bytesPrefix_spec.
  - apply (Hnil st). by right.
  - rewrite or_NewIter_law. unfold kv_iter. apply list_filter_ext_in. intros [k v] _. cbn. unfold in_range. split; [|done].
    intros _. by destruct k.
Qed.

(** pebble.go's [iterator]: the library's stands on one of its pairs, or on none
    before [First]; closing it twice is not allowed. *)
Record pebble_iterator := mk_pebble_iterator {
  pi_pairs : list (list Z * list Z);
  pi_at : option nat;
  pi_isStarted : bool;
  pi_isClosed : bool;
  pi_closes : nat
}.
Definition pebble_iter (pairs : list (list Z * list Z)) : pebble_iterator := mk_pebble_iterator pairs None false false 0.

Definition pebble_Next (it : pebble_iterator) : bool * pebble_iterator :=
  let pos := if pi_isStarted it then Datatypes.S (default 0%nat (pi_at it)) else 0%nat in
  ((pos <? length (pi_pairs it))%nat, mk_pebble_iterator (pi_pairs it) (Some pos) true (pi_isClosed it) (pi_closes it)).
Definition pebble_Release (it : pebble_iterator) : pebble_iterator :=
  if pi_isClosed it then it else mk_pebble_iterator (pi_pairs it) (pi_at it) (pi_isStarted it) true (S (pi_closes it)).

(** What a loop over [Next] reads. *)
Fixpoint pebble_collect (fuel : nat) (it : pebble_iterator) : list (list Z * list Z) :=
  match fuel with
  | O => []
  | Datatypes.S fuel =>
      let '(ok, it) := pebble_Next it in
      if ok then match i ← pi_at it; pi_pairs it !! i with Some p => p :: pebble_collect fuel it | None => [] end else []
  end.

Lemma pebble_collect_rest pairs c n : forall fuel i, (length pairs <= i + fuel)%nat ->
  pebble_collect fuel (mk_pebble_iterator pairs (Some i) true c n) = drop (S i) pairs.
Proof.
  induction fuel as [|fuel IH]; intros i Hi; [by rewrite drop_ge by lia|]. cbn [pebble_collect pebble_Next pi_isStarted pi_at default pi_pairs mbind option_bind].
  change (id i) with i. destruct (S i <? length pairs)%nat eqn:E; bool_to_prop; [|by rewrite drop_ge by lia].
  destruct (lookup_lt_is_Some_2 pairs (S i) E) as [p Hp]. rewrite Hp, (drop_S pairs p (S i) Hp), IH by lia. done.
Qed.

(** Every pair once, in order; the library's iterator is closed at most once. *)
Lemma pebble_collect_all pairs : pebble_collect (S (length pairs)) (pebble_iter pairs) = pairs.
Proof.
  cbn [pebble_collect pebble_Next pebble_iter pi_isStarted pi_at pi_pairs mbind option_bind]. destruct pairs as [|p pairs]; [done|].
  cbn [length Nat.ltb Nat.leb lookup list_lookup]. rewrite pebble_collect_rest by (cbn; lia). done.
Qed.
Lemma pebble_Release_once it : pi_isClosed it = false -> pi_closes (pebble_Release (pebble_Release it)) = S (pi_closes it).
Proof. intros Hc. unfold pebble_Release. by rewrite Hc. Qed.

(** ** Batches *)

(** [batch] of both packages: the library's batch and the size asked for by
    [ValueSize], which counts a deletion as one. *)
Record disk_batch := mk_disk_batch { db_ops : list write; db_size : Z }.

Definition disk_NewBatch : disk_batch := mk_disk_batch [] 0.
Definition batch_Put (b : disk_batch) (key value : list Z) : disk_batch :=
  mk_disk_batch (db_ops b ++ [(key, Some value)]) (db_size b + Z.of_nat (length value)).
Definition batch_Delete (b : disk_batch) (key : list Z) : disk_batch :=
  mk_disk_batch (db_ops b ++ [(key, None)]) (db_size b + 1).
Definition batch_Reset (b : disk_batch) : disk_batch := mk_disk_batch [] 0.

Definition batch_fill (ws : list write) : disk_batch :=
  foldl (fun b w => match w.2 with Some v => batch_Put b w.1 v | None => batch_Delete b w.1 end) disk_NewBatch ws.

Lemma batch_fill_ops ws : db_ops (batch_fill ws) = ws.
Proof.
  unfold batch_fill. assert (forall b, db_ops (foldl (fun b w => match w.2 with Some v => batch_Put b w.1 v | None => batch_Delete b w.1 end) b ws) = db_ops b ++ ws) as ->; [|done].
  induction ws as [|[k [v|]] ws IH]; intros b; cbn [foldl]; [by rewrite app_nil_r|rewrite IH; cbn; by rewrite <- app_assoc..].
Qed.

(** pebble.go: the loop over the batch's reader, whose records are the queued
    operations. *)
Definition pebble_Replay {W} `{!KvWriter W} (ws : list write) (w : W) : option string * W := batch_Replay ws w.

(** leveldb.go: the library calls the replayer for each operation and returns
    only its own errors, none for a batch made by these methods. *)
Record leveldb_replayer (W : Type) := mk_leveldb_replayer { lr_writer : W; lr_failure : option string }.
Arguments mk_leveldb_replayer {W}.
Arguments lr_writer {W}.
Arguments lr_failure {W}.

Definition leveldb_replayer_do {W} `{!KvWriter W} (r : leveldb_replayer W) (w : write) : leveldb_replayer W :=
  match lr_failure r with
  | Some _ => r
  | None =>
      let '(failure, writer) := match w.2 with Some v => kv_Put (lr_writer r) w.1 v | None => kv_Delete (lr_writer r) w.1 end in
      mk_leveldb_replayer writer failure
  end.
Definition leveldb_Replay {W} `{!KvWriter W} (ws : list write) (w : W) : option string * W :=
  (None, lr_writer (foldl leveldb_replayer_do (mk_leveldb_replayer w None) ws)).

Lemma leveldb_failed {W} `{!KvWriter W} ws (r : leveldb_replayer W) e : lr_failure r = Some e -> foldl leveldb_replayer_do r ws = r.
Proof. intros Hf. induction ws as [|w ws IH]; [done|]. cbn [foldl]. unfold leveldb_replayer_do at 2. by rewrite Hf. Qed.

(** It stops at the first failure, as the other replays do, but does not return
    it. *)
Lemma leveldb_Replay_swallows {W} `{!KvWriter W} ws (w : W) : leveldb_Replay ws w = (None, (batch_Replay ws w).2).
Proof.
  unfold leveldb_Replay. f_equal. revert w. induction ws as [|[k v] ws IH]; intros w; [done|]. cbn [foldl batch_Replay].
  unfold leveldb_replayer_do at 2. cbn [lr_failure lr_writer fst snd].
  destruct (match v with Some v => kv_Put w k v | None => kv_Delete w k end) as [[e|] w']; [by rewrite (leveldb_failed _ _ e)|apply IH].
Qed.

(** ** The databases *)

Inductive backend := LevelDB | Pebble.

(** [db_onClose] is the answer of the callback; [db_underlying] is nil once
    closed; [db_dropped] counts the calls of [onDrop]. *)
Record Database (b : backend) (D : Type) := mk_Database {
  db_underlying : option D;
  db_onClose : option (option string);
  db_onDrop : bool;
  db_dropped : nat
}.
Arguments mk_Database {b D}.
Arguments db_underlying {b D}.
Arguments db_onClose {b D}.
Arguments db_onDrop {b D}.
Arguments db_dropped {b D}.

Section database.
Context {D SN : Type} `{!OrderedReader D, !OrderedReader SN, !OrderedDB D SN, !LevelUtil}.

(** [Has] and [Get] of pebble.go, of the database and of a snapshot *)
Definition pebble_Has {R} `{!OrderedReader R} (r : R) (key : list Z) : outcome bool :=
  match or_Get r key with
  | Ok _ => Ok true
  | Err e => if String.eqb e (or_ErrNotFound (R := R)) then Ok false else Err e
  | Panic e => Panic e
  end.
Definition pebble_Get {R} `{!OrderedReader R} (r : R) (key : list Z) : outcome (option (list Z)) :=
  match or_Get r key with
  | Ok value => Ok (Some value)
  | Err e => if String.eqb e (or_ErrNotFound (R := R)) then Ok None else Err e
  | Panic e => Panic e
  end.
Definition pebble_NewIterator {R} `{!OrderedReader R} (r : R) (prefix start : option (list Z)) : list (list Z * list Z) :=
  let '(lower, upper) := pebble_bytesPrefixRange prefix start in or_NewIter r lower upper.

(** Those of leveldb.go *)
Definition leveldb_Has {R} `{!OrderedReader R} (r : R) (key : list Z) : outcome bool :=
  match or_Has r key with
  | Err e => if String.eqb e (or_ErrNotFound (R := R)) then Ok false else Err e
  | dat => dat
  end.
Definition leveldb_Get {R} `{!OrderedReader R} (r : R) (key : list Z) : outcome (option (list Z)) :=
  match or_Get r key with
  | Ok dat => Ok (Some dat)
  | Err e => if String.eqb e (or_ErrNotFound (R := R)) then Ok None else Err e
  | Panic e => Panic e
  end.
Definition leveldb_NewIterator {R} `{!OrderedReader R} (r : R) (prefix start : list Z) : list (list Z * list Z) :=
  let '(from, limit) := leveldb_bytesPrefixRange prefix start in or_NewIter r from limit.

(** [Close]: the callback first; the database below is forgotten before both. *)
Definition Database_Close {b} (db : Database b D) : outcome (option string) * Database b D :=
  match db_underlying db with
  | None => (Panic "already closed", db)
  | Some d =>
      match db_onClose db with
      | Some (Some e) => (Ok (Some e), mk_Database None (db_onClose db) (db_onDrop db) (db_dropped db))
      | _ => (Ok (od_Close d).1, mk_Database None None (db_onDrop db) (db_dropped db))
      end
  end.

Definition Database_Drop {b} (db : Database b D) : outcome (Database b D) :=
  match db_underlying db with
  | Some _ => Panic "Close database first!"
  | None => Ok (if db_onDrop db then mk_Database None (db_onClose db) true (S (db_dropped db)) else db)
  end.

(** A nil limit is the end of the keys, for pebble a key of eight bytes 0xff. *)
Definition pebble_Compact (d : D) (start limit : option (list Z)) : option string * D :=
  od_Compact d start (Some (default (replicate 8 255) limit)).

(** The properties that pebble.go knows; [shown] is the text it makes of the
    metrics. *)
Definition pebble_Stat (shown : D -> string -> string) (d : D) (property : string) : outcome string :=
  if existsb (String.eqb property) ["async_flush"; "sync_flush"]%string then
    match od_Flush d with Some e => Err e | None => Ok ""%string end
  else if existsb (String.eqb property) ["iostats"; "disk.size"; "stats"]%string then Ok (shown d property)
  else Err ("pebble stat property " +:+ property +:+ " does not exists").

(** A nil database is dereferenced. *)
Definition with_underlying {b A} (db : Database b D) (f : D -> outcome A) : outcome A :=
  match db_underlying db with Some d => f d | None => Panic "nil dereference" end.
Definition set_underlying {b} (db : Database b D) (d : D) : Database b D :=
  mk_Database (Some d) (db_onClose db) (db_onDrop db) (db_dropped db).
Definition change_underlying {b} (db : Database b D) (f : D -> option string * D) : option string * Database b D :=
  match db_underlying db with
  | Some d => let '(err, d) := f d in (err, set_underlying db d)
  | None => (Some "nil dereference"%string, db)
  end.

(** ** As stores *)

#[export] Instance Database_KvReader b : KvReader (Database b D) := {|
  kv_Get db key := with_underlying db (fun d => match b with LevelDB => leveldb_Get d key | Pebble => pebble_Get d key end);
  kv_Has db key := with_underlying db (fun d => match b with LevelDB => leveldb_Has d key | Pebble => pebble_Has d key end);
  kv_NewIterator db prefix start := with_underlying db (fun d =>
    Ok (match b with LevelDB => leveldb_NewIterator d prefix start | Pebble => pebble_NewIterator d (Some prefix) (Some start) end));
  kv_content db := or_content <$> db_underlying db
|}.

#[export] Instance Database_KvWriter b : KvWriter (Database b D) := {|
  kv_Put db key value := change_underlying db (fun d => od_Set d key value);
  kv_Delete db key := change_underlying db (fun d => od_Delete d key);
  kv_ValueSize ws := db_size (batch_fill ws);
  kv_Write db ws := change_underlying db (fun d => od_Apply d (db_ops (batch_fill ws)))
|}.

(** A snapshot of either library. *)
Record disk_snapshot (b : backend) := mk_disk_snapshot { sn_snap : SN }.

#[export] Instance disk_snapshot_KvReader b : KvReader (disk_snapshot b) := {|
  kv_Get s key := match b with LevelDB => leveldb_Get (sn_snap b s) key | Pebble => pebble_Get (sn_snap b s) key end;
  kv_Has s key := match b with LevelDB => leveldb_Has (sn_snap b s) key | Pebble => pebble_Has (sn_snap b s) key end;
  kv_NewIterator s prefix start :=
    Ok (match b with LevelDB => leveldb_NewIterator (sn_snap b s) prefix start | Pebble => pebble_NewIterator (sn_snap b s) (Some prefix) (Some start) end);
  kv_content s := Some (or_content (sn_snap b s))
|}.

Definition Database_GetSnapshot {b} (db : Database b D) : outcome (disk_snapshot b) :=
  with_underlying db (fun d => outcome_bind (od_NewSnapshot d) (fun snap => Ok (mk_disk_snapshot b snap))).

Context `{!OrderedReaderLaws D, !OrderedReaderLaws SN, !OrderedDBLaws D SN}.

Lemma pebble_Get_eq {R} `{!OrderedReader R, !OrderedReaderLaws R} (r : R) key : pebble_Get r key = Ok (or_content r !! key).
Proof. unfold pebble_Get. rewrite or_Get_law. destruct (or_content r !! key); [done|]. by rewrite String.eqb_refl. Qed.
Lemma pebble_Has_eq {R} `{!OrderedReader R, !OrderedReaderLaws R} (r : R) key : pebble_Has r key = Ok (bool_decide (is_Some (or_content r !! key))).
Proof. unfold pebble_Has. rewrite or_Get_law. destruct (or_content r !! key); [done|]. by rewrite String.eqb_refl. Qed.
Lemma leveldb_Has_eq {R} `{!OrderedReader R, !OrderedReaderLaws R} (r : R) key : leveldb_Has r key = Ok (bool_decide (is_Some (or_content r !! key))).
Proof. unfold leveldb_Has. by rewrite or_Has_law. Qed.
Lemma pebble_NewIterator_eq {R} `{!OrderedReader R, !OrderedReaderLaws R} (r : R) prefix start :
  pebble_NewIterator r prefix start = kv_iter (or_content r) (default [] prefix) (default [] start).
Proof. unfold pebble_NewIterator. pose proof (pebble_range r prefix start) as Hr. by destruct (pebble_bytesPrefixRange prefix start). Qed.
Lemma leveldb_NewIterator_eq {R} `{!OrderedReader R, !OrderedReaderLaws R} (r : R) prefix start :
  leveldb_NewIterator r prefix start = kv_iter (or_content r) prefix start.
Proof. apply range_iter. intros k. apply util_BytesPrefix_law. Qed.

#[export] Instance Database_KvReaderLaws b : KvReaderLaws (Database b D).
Proof.
  split; intros [[d|] c o n] m *; intros Hm; cbn in Hm |- *; [injection Hm as <-; destruct b|done| injection Hm as <-; destruct b|done|injection Hm as <-; destruct b|done].
  - apply pebble_Get_eq.
  - apply pebble_Get_eq.
  - apply leveldb_Has_eq.
  - apply pebble_Has_eq.
  - f_equal. apply leveldb_NewIterator_eq.
  - f_equal. apply (pebble_NewIterator_eq _ (Some p) (Some st)).
Qed.

#[export] Instance disk_snapshot_KvReaderLaws b : KvReaderLaws (disk_snapshot b).
Proof.
  split; intros [s] m *; intros Hm; cbn in Hm |- *; injection Hm as <-; destruct b.
  - apply pebble_Get_eq.
  - apply pebble_Get_eq.
  - apply leveldb_Has_eq.
  - apply pebble_Has_eq.
  - f_equal. apply leveldb_NewIterator_eq.
  - f_equal. apply (pebble_NewIterator_eq _ (Some p) (Some st)).
Qed.

Lemma change_content {b} (db : Database b D) m f : kv_content db = Some m ->
  exists d, db_underlying db = Some d /\ or_content d = m /\ (change_underlying db f).1 = (f d).1 /\
    kv_content (change_underlying db f).2 = Some (or_content (f d).2).
Proof.
  destruct db as [[d|] c o n]; [|done]. intros Hm. injection Hm as Hm. exists d. unfold change_underlying. cbn.
  destruct (f d) as [err d']. by split_and!.
Qed.

#[export] Instance Database_KvWriterLaws b : KvWriterLaws (Database b D).
Proof.
  split; intros db m *; intros Hm; cbn [kv_Put kv_Delete kv_Write Database_KvWriter].
  - destruct (change_content db m (fun d => od_Set d k v) Hm) as (d & _ & <- & -> & ->). by rewrite od_Set_law.
  - destruct (change_content db m (fun d => od_Delete d k) Hm) as (d & _ & <- & -> & ->). by rewrite od_Delete_law.
  - destruct (change_content db m (fun d => od_Apply d (db_ops (batch_fill ws))) Hm) as (d & _ & <- & -> & ->). rewrite batch_fill_ops, od_Apply_law.
    destruct (od_Apply d ws).1 as [e|]; [exists []; by split; [apply prefix_nil|]|by exists ws].
Qed.

End database.

(** ** Opening: leveldb.go, pebble.go and producer.go *)

Section opening.
Context {D : Type} (KiB MiB : Z).

Definition minHandles : Z := 16.

(** The options that [New] gives to the libraries. *)
Record level_options := mk_level_options { lo_OpenFilesCacheCapacity : Z; lo_BlockCacheCapacity : Z; lo_WriteBuffer : Z }.
Record pebble_options := mk_pebble_options { po_Cache : Z; po_MemTableSize : Z; po_MaxOpenFiles : Z }.

Definition new_Database {b} (db : D) (close : option (option string)) (drop : bool) : Database b D := mk_Database (Some db) close drop 0.

(** [is_corrupted] is the test for the error type of a corrupted database, which
    is recovered once. *)
Definition leveldb_New (OpenFile : string -> level_options -> outcome D) (RecoverFile : string -> outcome D) (is_corrupted : string -> bool)
    (path : string) (cache handles : Z) (close : option (option string)) (drop : bool) : outcome (Database LevelDB D) :=
  let handles := if handles <? minHandles then minHandles else handles in
  outcome_bind (Func_Get (leveldb_adjustCache KiB MiB) (u64 cache)) (fun cache =>
  let cache := i64 cache in
  let opened := OpenFile path (mk_level_options handles (aligned256kb KiB (cache ÷ 2)) (aligned256kb KiB (cache ÷ 4))) in
  let opened := match opened with Err e => if is_corrupted e then RecoverFile path else opened | _ => opened end in
  outcome_bind opened (fun db => Ok (new_Database db close drop))).

Definition pebble_New (Open : string -> pebble_options -> outcome D) (path : string) (cache handles : Z)
    (close : option (option string)) (drop : bool) : outcome (Database Pebble D) :=
  outcome_bind (Func_Get (pebble_adjustCache KiB MiB) (u64 cache)) (fun cache =>
  let cache := i64 cache in
  outcome_bind (Open path (mk_pebble_options (i64 (cache * 2) ÷ 3) (cache ÷ 3) handles)) (fun db => Ok (new_Database db close drop))).

(** Never fewer than [minHandles] handles are asked for. *)
Lemma leveldb_New_handles OpenFile RecoverFile is_corrupted path cache handles close drop cache' :
  Func_Get (leveldb_adjustCache KiB MiB) (u64 cache) = Ok cache' ->
  leveldb_New OpenFile RecoverFile is_corrupted path cache handles close drop =
    let opened := OpenFile path (mk_level_options (Z.max minHandles handles) (aligned256kb KiB (i64 cache' ÷ 2)) (aligned256kb KiB (i64 cache' ÷ 4))) in
    outcome_bind (match opened with Err e => if is_corrupted e then RecoverFile path else opened | _ => opened end)
      (fun db => Ok (new_Database db close drop)).
Proof.
  intros Hc. unfold leveldb_New. rewrite Hc. cbn [outcome_bind].
  replace (Z.max minHandles handles) with (if handles <? minHandles then minHandles else handles); [done|].
  destruct (handles <? minHandles) eqn:E; bool_to_prop; lia.
Qed.

(** The two producers: a database per directory of [datadir].  [mkdir] is the
    error of making the directory. *)
Definition resolvePath (datadir name : string) : string := datadir +:+ "/" +:+ name.

Definition producer_OpenDB {b} (New : string -> Z -> Z -> option (option string) -> bool -> outcome (Database b D))
    (getCacheFdLimit : string -> Z * Z) (mkdir : string -> option string) (datadir name : string) : outcome (Database b D) :=
  let path := resolvePath datadir name in
  match mkdir path with
  | Some e => Err e
  | None => let '(cache, fdlimit) := getCacheFdLimit name in New path cache fdlimit None true
  end.

(** [Names]: the directories among the files; a directory that cannot be read
    has none for leveldb and panics for pebble. *)
Definition dir_names (files : list (string * bool)) : list string := omap (fun f : string * bool => if f.2 then Some f.1 else None) files.
Definition leveldb_Names (files : outcome (list (string * bool))) : outcome (list string) :=
  match files with Ok files => Ok (dir_names files) | Err _ => Ok [] | Panic e => Panic e end.
Definition pebble_Names (files : outcome (list (string * bool))) : outcome (list string) :=
  match files with Ok files => Ok (dir_names files) | Err e => Panic e | Panic e => Panic e end.

End opening.

(** ** Life cycle *)

(** An error of the callback leaves the database of the library open for good:
    it is forgotten, and the next [Close] panics. *)
Lemma Close_error_leaks {D SN b} `{!OrderedDB D SN} (d : D) e drop :
  let '(r, db) := Database_Close (SN := SN) (mk_Database (b := b) (Some d) (Some (Some e)) drop 0) in
  r = Ok (Some e) /\ db_underlying db = None /\ (Database_Close (SN := SN) db).1 = Panic "already closed".
Proof. done. Qed.

(** Without a failing callback: closed once, then dropped, and not before. *)
Lemma Close_then_Drop {D SN b} `{!OrderedDB D SN} (d : D) :
  let db : Database b D := mk_Database (Some d) None true 0 in
  Database_Drop db = Panic "Close database first!" /\ (Database_Close (SN := SN) db).1 = Ok (od_Close (SN := SN) d).1 /\
  Database_Drop (Database_Close (SN := SN) db).2 = Ok (mk_Database None None true 1).
Proof. done. Qed.

(** The compaction of pebble up to the end stops at eight bytes 0xff: a key
    beyond them is not covered, although a nil limit is documented as the end of
    all keys. *)
Example beyond_compaction : key_lt (replicate 8 255) (replicate 9 255).
Proof. done. Qed.

(** ** Properties *)


(** A library that keeps a map in memory and refuses what is not bytes. *)
Record byte_map := mk_byte_map { bm_map : kv }.
Definition all_bytes (k : list Z) : bool := forallb (fun x => (0 <=? x) && (x <? 256)) k.
Definition bm_content (d : byte_map) : kv := filter (fun p => all_bytes p.1 = true) (bm_map d).

Lemma all_bytes_spec k : all_bytes k = true -> Forall is_byte k.
Proof.
  induction k as [|x k IH]; [constructor|]. cbn. intros [Hx Hk]%andb_true_iff. constructor; [|by apply IH]. bool_to_prop. unfold is_byte. lia.
Qed.

#[local] Instance bm_OrderedReader : OrderedReader byte_map := {|
  or_ErrNotFound := "not found";
  or_Get d k := match bm_content d !! k with Some v => Ok v | None => Err "not found" end;
  or_Has d k := Ok (bool_decide (is_Some (bm_content d !! k)));
  or_NewIter d lo hi := filter (fun p => in_range lo hi p.1) (sorted_pairs (bm_content d));
  or_content := bm_content
|}.
#[local] Instance bm_OrderedReaderLaws : OrderedReaderLaws byte_map.
Proof.
  split; try done. intros d k v. cbn. unfold bm_content. rewrite map_lookup_filter_Some. intros [_ Hk]. by apply all_bytes_spec.
Qed.

Definition bm_guard (ks : list (list Z)) (d : byte_map) (m : kv) : option string * byte_map :=
  if forallb all_bytes ks then (None, mk_byte_map m) else (Some "not bytes"%string, d).
#[local] Instance bm_OrderedDB : OrderedDB byte_map byte_map := {|
  od_Set d k v := bm_guard [k] d (<[k := v]> (bm_content d));
  od_Delete d k := bm_guard [k] d (delete k (bm_content d));
  od_Apply d ws := bm_guard ws.*1 d (apply_writes (bm_content d) ws);
  od_NewSnapshot d := Ok d;
  od_Compact d _ _ := (None, d);
  od_Stat _ _ := Ok ""%string;
  od_Flush _ := None;
  od_Close d := (None, d)
|}.

Lemma bm_content_idemp (m : kv) : (forall k v, m !! k = Some v -> all_bytes k = true) -> bm_content (mk_byte_map m) = m.
Proof.
  intros Hm. unfold bm_content. cbn. apply map_eq. intros k. apply option_eq. intros v. rewrite map_lookup_filter_Some. cbn.
  split; [by intros [? _]|]. intros H. split; [done|]. by apply (Hm k v).
Qed.

Lemma bm_written (d : byte_map) (ws : list write) : forallb all_bytes ws.*1 = true ->
  forall k v, apply_writes (bm_content d) ws !! k = Some v -> all_bytes k = true.
Proof.
  intros Hws. assert (forall k v, bm_content d !! k = Some v -> all_bytes k = true) as Hd.
  { intros k v. unfold bm_content. rewrite map_lookup_filter_Some. by intros [_ ?]. }
  generalize dependent (bm_content d). induction ws as [|[k0 v0] ws IH]; intros m Hm; [done|]. cbn in Hws. apply andb_true_iff in Hws as [H0 Hws].
  apply IH; [done|]. intros k v. unfold apply_write. cbn. destruct v0.
  - intros [[<- _]|[_ H]]%lookup_insert_Some; [done|by apply (Hm k v)].
  - intros [_ H]%lookup_delete_Some. by apply (Hm k v).
Qed.

Lemma bm_guard_content (d : byte_map) (ws : list write) :
  let r := bm_guard ws.*1 d (apply_writes (bm_content d) ws) in
  bm_content r.2 = if r.1 is Some _ then bm_content d else apply_writes (bm_content d) ws.
Proof.
  unfold bm_guard. destruct (forallb all_bytes ws.*1) eqn:E; [|done]. apply bm_content_idemp. by apply bm_written.
Qed.

#[local] Instance bm_OrderedDBLaws : OrderedDBLaws byte_map byte_map.
Proof.
  split.
  - intros d k v. exact (bm_guard_content d [(k, Some v)]).
  - intros d k. exact (bm_guard_content d [(k, None)]).
  - exact bm_guard_content.
  - by intros d sn [= ->].
  - done.
Qed.

Definition some_pairs : byte_map := mk_byte_map (<[[1; 255; 7] := [1]]> (<[[1; 255] := [2]]> (<[[2] := [3]]> ∅))).


Example range_of_a_prefix : pebble_bytesPrefixRange (Some [1; 255]) (Some [3]) = (Some [1; 255; 3], Some [2]).
Proof. done. Qed.
