(* ===== verification/RbTree.v ===== *)
(** * The ordered tree of modified pairs

    kvdb/flushable keeps its not flushed pairs in a red-black tree of
    github.com/emirpasic/gods.  The nodes are those of that package, without
    colours; a position in a tree is a node with the path to the root, which
    is what [Left], [Right] and [Parent] reach.  The operations of the package
    are the class [TreeOps], their documentation its laws.  [nextNode], which
    walks over the pointers, is the source's. *)

From S2P Require Import Prelude Bytes Kvdb.
Local Open Scope go_scope.

(** A value, nil for a deleted key. *)
Abbreviation tval := (option (list Z)).

Inductive tree := Leaf | Node (Left : tree) (Key : list Z) (Value : tval) (Right : tree).

Fixpoint inorder (t : tree) : list (list Z * tval) :=
  match t with
  | Leaf => []
  | Node l k v r => inorder l ++ (k, v) :: inorder r
  end.

(** A node is the left child of [k], or its right child. *)
Inductive crumb := InLeft (k : list Z) (v : tval) (r : tree) | InRight (l : tree) (k : list Z) (v : tval).

Record node := mk_node { n_Left : tree; n_Key : list Z; n_Value : tval; n_Right : tree; n_Parent : list crumb }.

Definition node_tree (n : node) : tree := Node (n_Left n) (n_Key n) (n_Value n) (n_Right n).

Fixpoint plug (t : tree) (path : list crumb) : tree :=
  match path with
  | [] => t
  | InLeft k v r :: path => plug (Node t k v r) path
  | InRight l k v :: path => plug (Node l k v t) path
  end.

Definition root_of (n : node) : tree := plug (node_tree n) (n_Parent n).

(** The pairs after a position, and before it, in order. *)
Fixpoint after_path (path : list crumb) : list (list Z * tval) :=
  match path with
  | [] => []
  | InLeft k v r :: path => (k, v) :: inorder r ++ after_path path
  | InRight l k v :: path => after_path path
  end.
Fixpoint before_path (path : list crumb) : list (list Z * tval) :=
  match path with
  | [] => []
  | InLeft k v r :: path => before_path path
  | InRight l k v :: path => before_path path ++ inorder l ++ [(k, v)]
  end.

Definition from_node (n : node) : list (list Z * tval) :=
  (n_Key n, n_Value n) :: inorder (n_Right n) ++ after_path (n_Parent n).

Definition tree_sorted (t : tree) : Prop := StronglySorted (fun p q => key_lt p.1 q.1) (inorder t).

(** ** kvdb/flushable/flushable.go: nextNode *)

Fixpoint leftmost (l : tree) (k : list Z) (v : tval) (r : tree) (path : list crumb) : node :=
  match l with
  | Leaf => mk_node Leaf k v r path
  | Node l' k' v' r' => leftmost l' k' v' r' (InLeft k v r :: path)
  end.

(** [for node.Parent != nil]: up until a key that is not below the origin's. *)
Fixpoint climb (origin : list Z) (t : tree) (path : list crumb) : option node :=
  match path with
  | [] => None
  | InLeft k v r :: path =>
      if decide (key_le origin k) then Some (mk_node t k v r path) else climb origin (Node t k v r) path
  | InRight l k v :: path =>
      if decide (key_le origin k) then Some (mk_node l k v t path) else climb origin (Node l k v t) path
  end.

Definition nextNode (n : node) : option node :=
  match n_Right n with
  | Node l k v r => Some (leftmost l k v r (InRight (n_Left n) (n_Key n) (n_Value n) :: n_Parent n))
  | Leaf => climb (n_Key n) (node_tree n) (n_Parent n)
  end.

(** ** The package's operations *)

Class TreeOps := {
  tree_Put : tree -> list Z -> tval -> tree;
  tree_Get : tree -> list Z -> option tval;
  tree_Ceiling : tree -> list Z -> option node;
  tree_Left : tree -> option node
}.

(** Pairs as a map. *)
Definition tree_map (t : tree) : gmap (list Z) tval := list_to_map (inorder t).

Class TreeLaws `{!TreeOps} : Prop := {
  tree_Put_sorted t k v : tree_sorted t -> tree_sorted (tree_Put t k v);
  tree_Put_map t k v : tree_sorted t -> tree_map (tree_Put t k v) = <[k := v]> (tree_map t);
  tree_Get_map t k : tree_sorted t -> tree_Get t k = tree_map t !! k;
  tree_Ceiling_spec t k : tree_sorted t ->
    match tree_Ceiling t k with
    | Some n => root_of n = t /\ from_node n = filter (fun p => key_le k p.1) (inorder t)
    | None => filter (fun p => key_le k p.1) (inorder t) = []
    end;
  tree_Left_spec t : tree_sorted t ->
    match tree_Left t with
    | Some n => root_of n = t /\ from_node n = inorder t
    | None => t = Leaf
    end
}.

(** ** nextNode is the successor *)

Lemma inorder_plug path : forall t, inorder (plug t path) = before_path path ++ inorder t ++ after_path path.
Proof.
  induction path as [|[k v r|l k v] path IH]; intros t; simpl; [by rewrite app_nil_r| |]; rewrite IH; simpl;
    by rewrite <- !app_assoc.
Qed.

Lemma leftmost_spec l : forall k v r path,
  root_of (leftmost l k v r path) = plug (Node l k v r) path /\
  from_node (leftmost l k v r path) = inorder l ++ (k, v) :: inorder r ++ after_path path.
Proof.
  induction l as [|l1 IH k1 v1 r1 _]; intros k v r path; simpl; [done|].
  destruct (IH k1 v1 r1 (InLeft k v r :: path)) as [-> ->]. split; [done|]. simpl. by rewrite <- app_assoc.
Qed.

Lemma sorted_node l k v r path : tree_sorted (plug (Node l k v r) path) ->
  (forall p, p ∈ inorder l -> key_lt p.1 k) /\ (forall p, p ∈ inorder r -> key_lt k p.1).
Proof.
  unfold tree_sorted. rewrite inorder_plug. intros Hs%StronglySorted_app_1_r%StronglySorted_app_1_l.
  cbn [inorder] in Hs. split; intros p Hp.
  - apply (StronglySorted_app_1_elem_of _ _ _ p (k, v) Hs Hp). left.
  - apply StronglySorted_app_1_r in Hs. inversion Hs as [|? ? _ Hall]; subst.
    by apply (proj1 (Forall_forall _ _) Hall).
Qed.

Lemma climb_spec origin path : forall t, tree_sorted (plug t path) -> (exists v, (origin, v) ∈ inorder t) ->
  match climb origin t path with
  | Some n => root_of n = plug t path /\ from_node n = after_path path
  | None => after_path path = []
  end.
Proof.
  induction path as [|[k v r|l k v] path IH]; intros t Hs [w Hw]; simpl; [done| |];
    destruct (sorted_node _ k v _ path Hs) as [Hl Hr].
  - rewrite decide_True by (apply key_le_lt; left; apply (Hl (origin, w) Hw)). done.
  - rewrite decide_False by (rewrite key_le_not_lt; intros Hn; apply Hn, (Hr (origin, w) Hw)).
    apply IH; [done|]. exists w. simpl. set_solver.
Qed.

Lemma nextNode_spec n : tree_sorted (root_of n) ->
  match nextNode n with
  | Some n' => root_of n' = root_of n /\ from_node n = (n_Key n, n_Value n) :: from_node n'
  | None => from_node n = [(n_Key n, n_Value n)]
  end.
Proof.
  intros Hs. unfold nextNode, from_node at 1 3. destruct (n_Right n) as [|l k v r] eqn:Hr.
  - pose proof (climb_spec (n_Key n) (n_Parent n) (node_tree n) Hs) as Hc.
    destruct (climb _ _ _) as [n'|]; simpl.
    + destruct Hc as [-> ->]; [exists (n_Value n); unfold node_tree; simpl; set_solver|done].
    + rewrite Hc; [done|]. exists (n_Value n). unfold node_tree. simpl. set_solver.
  - destruct (leftmost_spec l k v r (InRight (n_Left n) (n_Key n) (n_Value n) :: n_Parent n)) as [-> ->].
    unfold root_of, node_tree. rewrite Hr. split; [done|]. simpl. by rewrite <- app_assoc.
Qed.

(** ** An unbalanced tree with these operations *)

Fixpoint bst_Put (t : tree) (k : list Z) (v : tval) : tree :=
  match t with
  | Leaf => Node Leaf k v Leaf
  | Node l k' v' r =>
      match bytes_Compare k k' with
      | Eq => Node l k v r
      | Lt => Node (bst_Put l k v) k' v' r
      | Gt => Node l k' v' (bst_Put r k v)
      end
  end.

Fixpoint bst_Get (t : tree) (k : list Z) : option tval :=
  match t with
  | Leaf => None
  | Node l k' v' r => match bytes_Compare k k' with Eq => Some v' | Lt => bst_Get l k | Gt => bst_Get r k end
  end.

Fixpoint bst_Ceiling (t : tree) (k : list Z) (path : list crumb) : option node :=
  match t with
  | Leaf => None
  | Node l k' v' r =>
      if decide (key_le k k')
      then match bst_Ceiling l k (InLeft k' v' r :: path) with
           | Some n => Some n
           | None => Some (mk_node l k' v' r path)
           end
      else bst_Ceiling r k (InRight l k' v' :: path)
  end.

#[export] Instance bst_ops : TreeOps := {|
  tree_Put := bst_Put;
  tree_Get := bst_Get;
  tree_Ceiling t k := bst_Ceiling t k [];
  tree_Left t := match t with Leaf => None | Node l k v r => Some (leftmost l k v r []) end
|}.

Lemma tree_map_node l k v r : tree_map (Node l k v r) = tree_map l ∪ <[k := v]> (tree_map r).
Proof. unfold tree_map. cbn [inorder]. by rewrite list_to_map_app. Qed.

(** Strictly increasing pairs as a map. *)
Lemma strict_NoDup {A} (l : list (list Z * A)) : StronglySorted (fun p q => key_lt p.1 q.1) l -> NoDup l.*1.
Proof.
  induction 1 as [|p l _ IH Hall]; csimpl; constructor; [|done]. intros (q & Hq & Hin)%list_elem_of_fmap.
  apply (key_lt_irrefl p.1). rewrite Hq at 2. by apply (proj1 (Forall_forall _ _) Hall).
Qed.

Lemma strict_lookup {A} (l : list (list Z * A)) k v :
  StronglySorted (fun p q => key_lt p.1 q.1) l -> (list_to_map l : gmap (list Z) A) !! k = Some v <-> (k, v) ∈ l.
Proof. intros Hs%strict_NoDup. symmetry. by apply elem_of_list_to_map. Qed.

Lemma tree_sorted_node l k v r : tree_sorted (Node l k v r) <->
  tree_sorted l /\ tree_sorted r /\ (forall p, p ∈ inorder l -> key_lt p.1 k) /\ (forall p, p ∈ inorder r -> key_lt k p.1).
Proof.
  split.
  - intros Hs. destruct (sorted_node l k v r [] Hs) as [Hl Hr]. unfold tree_sorted in *. cbn [inorder] in Hs.
    split; [by eapply StronglySorted_app_1_l|]. apply StronglySorted_app_1_r in Hs. by inversion Hs.
  - intros (Hsl & Hsr & Hl & Hr). unfold tree_sorted in *. cbn [inorder]. apply StronglySorted_app_2; [|done|].
    + intros p q Hp [->|Hq]%elem_of_cons; [by apply Hl|]. etrans; [by apply Hl|by apply Hr].
    + constructor; [done|]. apply Forall_forall. intros q Hq. by apply Hr.
Qed.

Lemma elem_of_bst_Put t k v p : tree_sorted t ->
  p ∈ inorder (bst_Put t k v) <-> p = (k, v) \/ (p ∈ inorder t /\ p.1 <> k).
Proof.
  induction t as [|l IHl k' v' r IHr]; cbn [bst_Put].
  - intros _. simpl. rewrite list_elem_of_singleton. split; [by left|].
    by intros [?|[?%not_elem_of_nil _]].
  - intros (Hsl & Hsr & Hl & Hr)%tree_sorted_node.
    assert (forall x, x ∈ inorder l -> x.1 = k' -> False) as Hlk by (intros x Hx <-; by apply (key_lt_irrefl x.1), Hl).
    assert (forall x, x ∈ inorder r -> x.1 = k' -> False) as Hrk by (intros x Hx <-; by apply (key_lt_irrefl x.1), Hr).
    assert (forall x, x ∈ inorder l -> x ∈ inorder r -> False) as Hlr.
    { intros x Hx Hx'. apply (key_lt_irrefl x.1). etrans; [by apply Hl|by apply Hr]. }
    destruct (bytes_Compare k k') eqn:E; cbn [inorder]; rewrite !elem_of_app, !elem_of_cons.
    + apply bytes_Compare_eq in E as ->. naive_solver.
    + rewrite (IHl Hsl). assert (forall x, x ∈ inorder r -> x.1 <> k) as Hk.
      { intros x Hx <-. apply (key_lt_irrefl x.1). etrans; [exact E|by apply Hr]. }
      assert (k' <> k) by (intros ->; by apply (key_lt_irrefl k)). naive_solver.
    + assert (key_lt k' k) as E' by (unfold key_lt; by rewrite bytes_Compare_antisym, E).
      rewrite (IHr Hsr). assert (forall x, x ∈ inorder l -> x.1 <> k) as Hk.
      { intros x Hx <-. apply (key_lt_irrefl x.1). etrans; [by apply Hl|exact E']. }
      assert (k' <> k) by (intros ->; by apply (key_lt_irrefl k)). naive_solver.
Qed.

Lemma bst_Put_sorted t k v : tree_sorted t -> tree_sorted (bst_Put t k v).
Proof.
  induction t as [|l IHl k' v' r IHr]; cbn [bst_Put].
  - intros _. apply tree_sorted_node. split; [constructor|]. split; [constructor|]. by split; intros p ?%not_elem_of_nil.
  - intros (Hsl & Hsr & Hl & Hr)%tree_sorted_node. destruct (bytes_Compare k k') eqn:E; apply tree_sorted_node.
    + apply bytes_Compare_eq in E as ->. done.
    + split; [by apply IHl|]. split; [done|]. split; [|done]. intros p [->|[Hp _]]%elem_of_bst_Put; [done|by apply Hl|done].
    + split; [done|]. split; [by apply IHr|]. split; [done|]. intros p [->|[Hp _]]%elem_of_bst_Put; [|by apply Hr|done].
      unfold key_lt. cbn [fst]. by rewrite bytes_Compare_antisym, E.
Qed.

Lemma bst_Get_map t k : tree_sorted t -> bst_Get t k = tree_map t !! k.
Proof.
  intros Hs. apply option_eq. intros w. unfold tree_map. rewrite (strict_lookup _ _ _ Hs).
  induction t as [|l IHl k' v' r IHr]; cbn [bst_Get inorder]; [split; [done|by intros ?%not_elem_of_nil]|].
  apply tree_sorted_node in Hs as (Hsl & Hsr & Hl & Hr). rewrite elem_of_app, elem_of_cons.
  destruct (bytes_Compare k k') eqn:E.
  - apply bytes_Compare_eq in E as ->. split; [intros [= ->]; auto|].
    intros [Hin|[[= ->]|Hin]]; [|done|]; exfalso; apply (key_lt_irrefl k'); [by apply (Hl _ Hin)|by apply (Hr _ Hin)].
  - rewrite (IHl Hsl). split; [by left|]. intros [?|[[= -> _]|Hin]]; [done| |].
    + by apply key_lt_irrefl in E.
    + exfalso. apply (key_lt_irrefl k). etrans; [exact E|by apply (Hr _ Hin)].
  - assert (key_lt k' k) as E' by (unfold key_lt; by rewrite bytes_Compare_antisym, E).
    rewrite (IHr Hsr). split; [by right; right|]. intros [Hin|[[= -> _]|?]]; [| |done].
    + exfalso. apply (key_lt_irrefl k). etrans; [by apply (Hl _ Hin)|exact E'].
    + by apply key_lt_irrefl in E'.
Qed.

Lemma bst_Put_map t k v : tree_sorted t -> tree_map (bst_Put t k v) = <[k := v]> (tree_map t).
Proof.
  intros Hs. pose proof (bst_Put_sorted t k v Hs) as Hs'. apply map_eq. intros j. apply option_eq. intros w.
  unfold tree_map. rewrite (strict_lookup _ _ _ Hs'), (elem_of_bst_Put _ _ _ _ Hs), lookup_insert_Some.
  rewrite (strict_lookup _ _ _ Hs). naive_solver.
Qed.

Lemma filter_all {A} (P : A -> Prop) `{!forall x, Decision (P x)} (l : list A) : (forall x, x ∈ l -> P x) -> filter P l = l.
Proof.
  induction l as [|x l IH]; intros Hl; [done|]. rewrite filter_cons_True by (apply Hl; left). f_equal. apply IH.
  intros y Hy. apply Hl. by right.
Qed.

Lemma filter_none {A} (P : A -> Prop) `{!forall x, Decision (P x)} (l : list A) : (forall x, x ∈ l -> ~ P x) -> filter P l = [].
Proof.
  induction l as [|x l IH]; intros Hl; [done|]. rewrite filter_cons_False by (apply Hl; left). apply IH.
  intros y Hy. apply Hl. by right.
Qed.

Lemma bst_Ceiling_spec k t : forall path, tree_sorted t ->
  match bst_Ceiling t k path with
  | Some n => root_of n = plug t path /\ from_node n = filter (fun p => key_le k p.1) (inorder t) ++ after_path path
  | None => filter (fun p => key_le k p.1) (inorder t) = []
  end.
Proof.
  induction t as [|l IHl k' v' r IHr]; intros path Hs; cbn [bst_Ceiling inorder]; [done|].
  apply tree_sorted_node in Hs as (Hsl & Hsr & Hl & Hr). rewrite filter_app, filter_cons. cbn [fst].
  destruct (decide (key_le k k')) as [Hle|Hle].
  - specialize (IHl (InLeft k' v' r :: path) Hsl).
    rewrite (filter_all _ (inorder r)) by (intros p Hp; etrans; [exact Hle|apply key_le_lt; left; by apply Hr]).
    destruct (bst_Ceiling l k _) as [n|].
    + destruct IHl as [-> ->]. split; [done|]. simpl. by rewrite <- app_assoc.
    + rewrite IHl. done.
  - rewrite (filter_none _ (inorder l)).
    2:{ intros p Hp Hn. apply Hle. etrans; [exact Hn|apply key_le_lt; left; by apply Hl]. }
    specialize (IHr (InRight l k' v' :: path) Hsr). simpl. by destruct (bst_Ceiling r k _).
Qed.

#[export] Instance bst_laws : TreeLaws.
Proof.
  split; simpl.
  - apply bst_Put_sorted.
  - apply bst_Put_map.
  - apply bst_Get_map.
  - intros t k Hs. pose proof (bst_Ceiling_spec k t [] Hs) as Hc. destruct (bst_Ceiling t k []); [|done].
    destruct Hc as [-> ->]. simpl. by rewrite app_nil_r.
  - intros [|l k v r] Hs; [done|]. destruct (leftmost_spec l k v r []) as [-> ->]. simpl. by rewrite app_nil_r.
Qed.
