(* ===== verification/Flushable.v ===== *)
(** * kvdb/flushable/flushable.go: a store that keeps its writes until [Flush]

    [Flushable] keeps the pairs that differ from the underlying store in an
    ordered tree, with nil for a deleted key, and merges the two on every read
    and in its iterator.  It is a [KvReader] and a [KvWriter] over any
    underlying [KvReader], as memorydb uses it over the null store.

    Locks are not modelled: every operation is one step, and an iterator is
    read with no write in between. *)

From S2P Require Import Prelude Bytes Kvdb KvStore RbTree.
Local Open Scope go_scope.

Definition errClosed : string := "database closed".

(** ** State *)

Section flushable.
Context {S : Type} `{!TreeOps}.

(** [fl_modified] is nil once the store is closed. *)
Record Flushable := mk_Flushable {
  fl_underlying : S;
  fl_modified : option tree;
  fl_sizeEstimation : Z
}.

Definition Flushable_Wrap (parent : S) : Flushable := mk_Flushable parent (Some Leaf) 0.

Definition with_modified (w : Flushable) (t : tree) (size : Z) : Flushable :=
  mk_Flushable (fl_underlying w) (Some t) size.

(** ** Writes: on a closed store the nil tree is dereferenced *)

Definition Flushable_put (w : Flushable) (key value : list Z) : outcome Flushable :=
  match fl_modified w with
  | None => Panic "nil modified"
  | Some t => Ok (with_modified w (tree_Put t key (Some value))
                    (fl_sizeEstimation w + Z.of_nat (length key) + Z.of_nat (length value) + 128))
  end.

Definition Flushable_Put (w : Flushable) (key value : option (list Z)) : outcome Flushable :=
  match key, value with
  | Some key, Some value => Flushable_put w key value
  | _, _ => Err "flushable: key or value is nil"
  end.

Definition Flushable_delete (w : Flushable) (key : list Z) : outcome Flushable :=
  match fl_modified w with
  | None => Panic "nil modified"
  | Some t => Ok (with_modified w (tree_Put t key None) (fl_sizeEstimation w + Z.of_nat (length key) + 128))
  end.

Definition Flushable_Delete (w : Flushable) (key : list Z) : outcome Flushable := Flushable_delete w key.

Definition Flushable_DropNotFlushed (w : Flushable) : outcome Flushable :=
  match fl_modified w with
  | None => Panic "nil modified"
  | Some _ => Ok (with_modified w Leaf 0)
  end.

Definition NotFlushedPairs (w : Flushable) : outcome nat :=
  match fl_modified w with
  | None => Panic "nil modified"
  | Some t => Ok (length (inorder t))
  end.

Definition NotFlushedSizeEst (w : Flushable) : Z := fl_sizeEstimation w.

(** [Close] closes the underlying store, which may fail. *)
Definition Flushable_Close (close : S -> option string * S) (w : Flushable) : option string * Flushable :=
  match fl_modified w with
  | None => (Some errClosed, w)
  | Some _ =>
      let '(err, s) := close (fl_underlying w) in
      (err, mk_Flushable s None 0)
  end.

Definition Flushable_Drop (onDrop : option (S -> S)) (w : Flushable) : outcome Flushable :=
  match fl_modified w with
  | Some _ => Panic "close db first"
  | None =>
      Ok (match onDrop with
          | Some drop => mk_Flushable (drop (fl_underlying w)) None (fl_sizeEstimation w)
          | None => w
          end)
  end.

(** *** cacheBatch: a nil value deletes, as [Delete] does *)

Record cacheBatch := mk_cacheBatch { cb_writes : list write; cb_size : Z }.

Definition cacheBatch_Put (b : cacheBatch) (key : list Z) (value : option (list Z)) : cacheBatch :=
  mk_cacheBatch (cb_writes b ++ [(key, value)])
    (cb_size b + Z.of_nat (length (default [] value)) + Z.of_nat (length key)).
Definition cacheBatch_Delete (b : cacheBatch) (key : list Z) : cacheBatch :=
  mk_cacheBatch (cb_writes b ++ [(key, None)]) (cb_size b + Z.of_nat (length key)).
Definition cacheBatch_Reset (b : cacheBatch) : cacheBatch := mk_cacheBatch [] 0.

Definition write_one (w : Flushable) (op : write) : outcome Flushable :=
  match op.2 with
  | None => Flushable_delete w op.1
  | Some v => Flushable_put w op.1 v
  end.

Definition cacheBatch_Write (w : Flushable) (b : cacheBatch) : outcome Flushable :=
  match fl_modified w with
  | None => Err errClosed
  | Some _ => foldM write_one w (cb_writes b)
  end.

(** [Replay] stops at the first error of the writer. *)
Fixpoint cacheBatch_Replay {W} (put : W -> list Z -> list Z -> option string * W) (del : W -> list Z -> option string * W)
    (writes : list write) (w : W) : option string * W :=
  match writes with
  | [] => (None, w)
  | (k, v) :: writes =>
      let '(err, w) := match v with Some v => put w k v | None => del w k end in
      match err with
      | Some e => (Some e, w)
      | None => cacheBatch_Replay put del writes w
      end
  end.

(** ** Flush *)

Section flush.
Context `{!KvWriter S}.

Fixpoint flush_loop (s : S) (batch items : list write) : option string * S :=
  match items with
  | [] => kv_Write s batch
  | op :: items =>
      let batch := batch ++ [op] in
      if IdealBatchSize <? kv_ValueSize (S := S) batch then
        let '(err, s) := kv_Write s batch in
        match err with
        | Some e => (Some e, s)
        | None => flush_loop s [] items
        end
      else flush_loop s batch items
  end.

Definition Flushable_Flush (w : Flushable) : option string * Flushable :=
  match fl_modified w with
  | None => (Some errClosed, w)
  | Some t =>
      let '(err, s) := flush_loop (fl_underlying w) [] (inorder t) in
      match err with
      | Some e => (Some e, mk_Flushable s (Some t) (fl_sizeEstimation w))
      | None => (None, mk_Flushable s (Some Leaf) 0)
      end
  end.

End flush.

(** ** Reads *)

Section reads.
Context `{!KvReader S}.

Definition Flushable_Has (w : Flushable) (key : list Z) : outcome bool :=
  match fl_modified w with
  | None => Err errClosed
  | Some t =>
      match tree_Get t key with
      | Some val => Ok (bool_decide (is_Some val))
      | None => kv_Has (fl_underlying w) key
      end
  end.

Definition Flushable_Get (w : Flushable) (key : list Z) : outcome (option (list Z)) :=
  match fl_modified w with
  | None => Err errClosed
  | Some t =>
      match tree_Get t key with
      | Some entry => Ok entry
      | None => kv_Get (fl_underlying w) key
      end
  end.

End reads.
End flushable.
Arguments Flushable : clear implicits.

(** ** The iterator *)

(** The iterator of the underlying store: the current pair and what follows. *)
Record listIterator := mk_listIterator { li_cur : option (list Z * list Z); li_rest : list (list Z * list Z) }.

Definition li_Next (it : listIterator) : bool * listIterator :=
  match li_rest it with
  | [] => (false, mk_listIterator None [])
  | p :: rest => (true, mk_listIterator (Some p) rest)
  end.
Definition li_Key (it : listIterator) : list Z := default [] (fst <$> li_cur it).
Definition li_Value (it : listIterator) : list Z := default [] (snd <$> li_cur it).

Record flushableIterator := mk_flushableIterator {
  it_key : list Z;
  it_val : tval;
  it_prevKey : option (list Z);
  it_parentIt : listIterator;
  it_parentOk : bool;
  it_treeNode : option node;
  it_treeOk : bool;
  it_prefix : list Z
}.

Definition castToPair (n : option node) : list Z * tval :=
  match n with
  | None => ([], None)
  | Some n => (n_Key n, n_Value n)
  end.

Definition it_init `{!TreeOps} (t : tree) (start : list Z) (it : flushableIterator) : flushableIterator :=
  let '(parentOk, parentIt) := li_Next (it_parentIt it) in
  let treeNode := if (length start =? 0)%nat then tree_Left t else tree_Ceiling t start in
  mk_flushableIterator (it_key it) (it_val it) (it_prevKey it) parentIt parentOk
    treeNode (bool_decide (is_Some treeNode)) (it_prefix it).

(** (suitable, continue) *)
Definition isSuitable (prefix key : list Z) (prevKey : option (list Z)) : bool * bool :=
  if negb (HasPrefix key prefix) then (false, false)
  else (match prevKey with None => true | Some p => bool_decide (key_lt p key) end, true).

(** One turn of the inner loop: a deleted key is passed over, and whatever comes
    next must be above it. *)
Definition tree_step (it : flushableIterator) : bool * flushableIterator :=
  let '(treeKey, treeVal) := castToPair (it_treeNode it) in
  let '(ok, treeOk, prevKey) :=
    match treeVal with
    | Some _ => let '(ok, c) := isSuitable (it_prefix it) treeKey (it_prevKey it) in (ok, c, it_prevKey it)
    | None => (false, it_treeOk it, Some treeKey)
    end in
  let '(key, val, prevKey) :=
    if (ok : bool) then (treeKey, treeVal, Some treeKey) else (it_key it, it_val it, prevKey) in
  let '(treeNode, treeOk) :=
    if (treeOk : bool)
    then let next := it_treeNode it ≫= nextNode in (next, bool_decide (is_Some next))
    else (it_treeNode it, false) in
  (ok, mk_flushableIterator key val prevKey (it_parentIt it) (it_parentOk it) treeNode treeOk (it_prefix it)).

(** The inner loop, over the tree while its key is not above the parent's. *)
Fixpoint tree_loop (fuel : nat) (it : flushableIterator) : outcome (bool * flushableIterator) :=
  if it_treeOk it &&
     (negb (it_parentOk it) || bool_decide (key_le (castToPair (it_treeNode it)).1 (li_Key (it_parentIt it)))) then
    match fuel with
    | O => Err "out of fuel"
    | Datatypes.S fuel =>
        let '(ok, it) := tree_step it in
        if (ok : bool) then Ok (true, it) else tree_loop fuel it
    end
  else Ok (false, it).

(** The parent's pair. *)
Definition parent_step (it : flushableIterator) : bool * flushableIterator :=
  let parentKey := li_Key (it_parentIt it) in
  let '(ok, c) := isSuitable (it_prefix it) parentKey (it_prevKey it) in
  let '(key, val, prevKey) :=
    if (ok : bool) then (parentKey, Some (li_Value (it_parentIt it)), Some parentKey)
    else (it_key it, it_val it, it_prevKey it) in
  let '(parentOk, parentIt) := if (c : bool) then li_Next (it_parentIt it) else (false, it_parentIt it) in
  (ok, mk_flushableIterator key val prevKey parentIt parentOk (it_treeNode it) (it_treeOk it) (it_prefix it)).

(** [Next] *)
Fixpoint next_loop (fuel : nat) (it : flushableIterator) : outcome (bool * flushableIterator) :=
  if it_treeOk it || it_parentOk it then
    match fuel with
    | O => Err "out of fuel"
    | Datatypes.S fuel' =>
        let* ' (found, it) := if it_treeOk it then tree_loop fuel it else Ok (false, it) in
        if (found : bool) then Ok (true, it)
        else if it_parentOk it then
          let '(ok, it) := parent_step it in
          if (ok : bool) then Ok (true, it) else next_loop fuel' it
        else next_loop fuel' it
    end
  else Ok (false, it).

(** The pairs that a caller reads with [for it.Next()]. *)
Fixpoint it_collect (n fuel : nat) (it : flushableIterator) : outcome (list (list Z * list Z)) :=
  match n with
  | O => Err "out of fuel"
  | Datatypes.S n =>
      let* ' (ok, it) := next_loop fuel it in
      if (ok : bool) then
        let* l := it_collect n fuel it in
        Ok ((it_key it, default [] (it_val it)) :: l)
      else Ok []
  end.

Definition Flushable_NewIterator {S} `{!TreeOps} `{!KvReader S} (w : Flushable S) (prefix start : list Z) :
    outcome flushableIterator :=
  match fl_modified w with
  | None => Err errClosed
  | Some t =>
      let* parent := kv_NewIterator (fl_underlying w) prefix start in
      Ok (it_init t (prefix ++ start)
            (mk_flushableIterator [] None None (mk_listIterator None parent) false None false prefix))
  end.

(** * What the store holds *)

(** The modified pairs over the underlying ones. *)
Definition overlay (m : gmap (list Z) tval) (base : kv) : kv :=
  merge (fun t b => match t with Some v => v | None => b end) m base.

Lemma overlay_lookup m base k : overlay m base !! k = match m !! k with Some v => v | None => base !! k end.
Proof. unfold overlay. rewrite lookup_merge. by destruct (m !! k), (base !! k). Qed.

Lemma overlay_insert m base k v : overlay (<[k := v]> m) base = apply_write (overlay m base) (k, v).
Proof.
  apply map_eq. intros j. unfold apply_write. simpl. destruct (decide (k = j)) as [<-|Hne], v;
    rewrite ?overlay_lookup, ?lookup_insert_eq, ?lookup_delete_eq, ?lookup_insert_ne, ?lookup_delete_ne, ?overlay_lookup by done; done.
Qed.

Lemma overlay_empty base : overlay ∅ base = base.
Proof. apply map_eq. intros j. by rewrite overlay_lookup, lookup_empty. Qed.

(** The batch of [Flush]: writing some of the modified pairs changes nothing
    that is read through the tree, writing all of them makes the tree redundant. *)
Lemma overlay_written t base done rest :
  tree_sorted t -> inorder t = done ++ rest -> overlay (tree_map t) (apply_writes base done) = overlay (tree_map t) base.
Proof.
  intros Hs Ht. apply map_eq. intros k. rewrite !overlay_lookup. destruct (tree_map t !! k) eqn:E; [done|].
  pose proof (strict_NoDup _ Hs) as Hnd. rewrite Ht, fmap_app, NoDup_app in Hnd. destruct Hnd as (Hnd & _ & _).
  rewrite apply_writes_lookup by done. destruct (list_to_map done !! k) eqn:E2; [|done].
  apply elem_of_list_to_map_2 in E2. exfalso.
  assert ((k, o) ∈ inorder t) as Hin by (rewrite Ht; set_solver). apply (strict_lookup _ _ _ Hs) in Hin.
  unfold tree_map in E. congruence.
Qed.

Lemma overlay_written_all t base : tree_sorted t -> apply_writes base (inorder t) = overlay (tree_map t) base.
Proof.
  intros Hs. apply map_eq. intros k. rewrite overlay_lookup, apply_writes_lookup; [done|by apply strict_NoDup].
Qed.

(** ** The merged iteration *)

Section merge.
Context (prefix : list Z).
Implicit Types (T : list (list Z * tval)) (P : list (list Z * list Z)) (prev : option (list Z)).

Definition after (prev : option (list Z)) (k : list Z) : Prop :=
  match prev with None => True | Some p => key_lt p k end.
#[local] Instance after_dec prev k : Decision (after prev k).
Proof. destruct prev; apply _. Defined.

(** What is still to come: the tree's pairs [T] over the parent's pairs [P]. *)
Definition pairs prev T P : list (list Z * list Z) :=
  filter (fun p => HasPrefix p.1 prefix = true /\ after prev p.1)
    (sorted_pairs (overlay (list_to_map T) (list_to_map P))).

Lemma pairs_strict prev T P : StronglySorted (fun p q => key_lt p.1 q.1) (pairs prev T P).
Proof. apply strict_sorted_filter, sorted_pairs_strict. Qed.

Local Abbreviation strict := (StronglySorted (fun p q => key_lt p.1 q.1)).

Lemma elem_of_pairs prev T P k v : strict T -> strict P ->
  (k, v) ∈ pairs prev T P <-> HasPrefix k prefix = true /\ after prev k /\
    ((k, Some v) ∈ T \/ ((forall w, (k, w) ∉ T) /\ (k, v) ∈ P)).
Proof.
  intros HT HP. unfold pairs. rewrite list_elem_of_filter, elem_of_sorted_pairs, overlay_lookup. cbn [fst].
  rewrite <- (strict_lookup P k v HP), <- (strict_lookup T k (Some v) HT).
  assert ((forall w, (k, w) ∉ T) <-> (list_to_map T : gmap (list Z) tval) !! k = None) as ->.
  { rewrite eq_None_not_Some. unfold is_Some. setoid_rewrite (fun w => strict_lookup T k w HT). naive_solver. }
  destruct (list_to_map T !! k) as [[w|]|]; naive_solver.
Qed.

(** The next tree key [k], not above the parent's. *)
Section tree_first.
Context (prev : option (list Z)) (T : list (list Z * tval)) (P : list (list Z * list Z)) (k : list Z) (w : tval).
Context (HT : strict ((k, w) :: T)) (HP : strict P).
Context (Hprev : after prev k) (Hmin : forall p, p ∈ P -> key_le k p.1).

Lemma tree_first_after p : p ∈ T -> key_lt k p.1.
Proof. intros Hp. inversion HT as [|? ? _ Hall]; subst. by apply (proj1 (Forall_forall _ _) Hall). Qed.

Lemma tree_first_strict : strict T.
Proof. by inversion HT. Qed.

Lemma after_trans j : key_lt k j -> after prev j.
Proof. intros Hj. destruct prev as [p|]; [|done]. simpl in *. by etrans. Qed.

Lemma elem_of_pairs_rest j v : (j, v) ∈ pairs (Some k) T P <->
  HasPrefix j prefix = true /\ key_lt k j /\ ((j, Some v) ∈ T \/ ((forall w, (j, w) ∉ T) /\ (j, v) ∈ P)).
Proof. by rewrite elem_of_pairs by (done || apply tree_first_strict). Qed.

Lemma elem_of_pairs_first j v : (j, v) ∈ pairs prev ((k, w) :: T) P <->
  (j = k /\ w = Some v /\ HasPrefix k prefix = true) \/ (j, v) ∈ pairs (Some k) T P.
Proof.
  rewrite elem_of_pairs_rest, elem_of_pairs by done. setoid_rewrite elem_of_cons. split.
  - intros (Hpre & Hj & [[[= -> <-]|Hin]|[Hn Hin]]); [by left|right|right].
    + split; [done|]. split; [by apply (tree_first_after (j, Some v))|by left].
    + assert (j <> k) as Hne by (intros ->; apply (Hn w); by left).
      split; [done|]. split; [|right; naive_solver].
      destruct (proj1 (key_le_lt _ _) (Hmin _ Hin)) as [|Heq]; [done|]. by subst.
  - intros [(-> & -> & Hpre)|(Hpre & Hj & H)]; [split; [done|]; split; [done|]; left; by left|].
    split; [done|]. split; [by apply after_trans|]. destruct H as [Hin|[Hn Hin]]; [left; by right|right].
    split; [|done]. intros w' [[= -> _]|Hw']; [by apply key_lt_irrefl in Hj|by apply (Hn w')].
Qed.

Lemma pairs_deleted : w = None -> pairs prev ((k, w) :: T) P = pairs (Some k) T P.
Proof.
  intros Hw. apply strict_sorted_unique; [apply pairs_strict..|]. intros [j v]. rewrite elem_of_pairs_first. naive_solver.
Qed.

Lemma pairs_found v : w = Some v -> HasPrefix k prefix = true -> pairs prev ((k, w) :: T) P = (k, v) :: pairs (Some k) T P.
Proof.
  intros Hw Hpre. apply strict_sorted_unique; [apply pairs_strict| |].
  - constructor; [apply pairs_strict|]. apply Forall_forall. intros [j u] (_ & Hj & _)%elem_of_pairs_rest. done.
  - intros [j u]. rewrite elem_of_pairs_first, elem_of_cons. naive_solver.
Qed.

(** Nothing follows a tree key beyond the prefix. *)
Lemma pairs_beyond : HasPrefix k prefix = false -> key_le prefix k ->
  (forall p, p ∈ P -> HasPrefix p.1 prefix = true) -> P = [] /\ pairs prev ((k, w) :: T) P = [].
Proof.
  intros Hpre Hle HPp. assert (forall j, key_le k j -> HasPrefix j prefix = true -> False) as Hno.
  { intros j Hj Hpj. rewrite (prefix_interval prefix k j Hle Hj Hpj) in Hpre. done. }
  split.
  { destruct P as [|p P']; [done|]. exfalso. apply (Hno p.1); [apply Hmin; left|apply HPp; left]. }
  apply elem_of_nil_inv. intros [j v] [(_ & _ & Hp)|Hj]%elem_of_pairs_first; [congruence|].
  apply elem_of_pairs_rest in Hj as (Hp & Hlt & _). apply (Hno j); [apply key_le_lt; by left|done].
Qed.

End tree_first.

(** The next parent key, below the tree's. *)
Section parent_first.
Context (prev : option (list Z)) (T : list (list Z * tval)) (P : list (list Z * list Z)) (k v : list Z).
Context (HT : strict T) (HP : strict ((k, v) :: P)).
Context (Hmin : forall p, p ∈ T -> key_lt k p.1).

Lemma parent_first_after p : p ∈ P -> key_lt k p.1.
Proof. intros Hp. inversion HP as [|? ? _ Hall]; subst. by apply (proj1 (Forall_forall _ _) Hall). Qed.

Lemma parent_first_strict : strict P.
Proof. by inversion HP. Qed.

Lemma parent_first_not w : (k, w) ∉ T.
Proof. intros Hin. by apply (key_lt_irrefl k), (Hmin (k, w)). Qed.

Lemma pairs_skip : ~ after prev k -> pairs prev T ((k, v) :: P) = pairs prev T P.
Proof.
  intros Hn. apply strict_sorted_unique; [apply pairs_strict..|]. intros [j u].
  rewrite !elem_of_pairs by (done || apply parent_first_strict). rewrite elem_of_cons. naive_solver.
Qed.

Lemma pairs_parent : after prev k -> HasPrefix k prefix = true ->
  pairs prev T ((k, v) :: P) = (k, v) :: pairs (Some k) T P.
Proof.
  intros Hk Hpre. assert (forall j u, (j, u) ∈ pairs (Some k) T P <-> HasPrefix j prefix = true /\ key_lt k j /\
    ((j, Some u) ∈ T \/ ((forall w, (j, w) ∉ T) /\ (j, u) ∈ P))) as Hrest.
  { intros j u. by rewrite elem_of_pairs by (done || apply parent_first_strict). }
  apply strict_sorted_unique; [apply pairs_strict| |].
  - constructor; [apply pairs_strict|]. apply Forall_forall. intros [j u] (_ & ? & _)%Hrest. done.
  - intros [j u]. rewrite elem_of_cons, Hrest, elem_of_pairs, elem_of_cons by done. split.
    + intros (Hpj & Hj & [Hin|[Hn [[= -> ->]|Hin]]]); [|by left|]; right; (split; [done|]).
      * split; [by apply (Hmin (j, Some u))|by left].
      * split; [by apply (parent_first_after (j, u))|by right].
    + intros [[= -> ->]|(Hpj & Hj & Hin)]; [split; [done|]; split; [done|]; right; split; [apply parent_first_not|by left]|].
      split; [done|]. split; [destruct prev as [p|]; [simpl in *; by etrans|done]|].
      destruct Hin as [|[? ?]]; [by left|right; split; [done|by right]].
Qed.

End parent_first.
End merge.

(** ** The loops produce the merged pairs *)

Definition rem_tree (n : option node) (ok : bool) : list (list Z * tval) :=
  if ok then match n with Some n => from_node n | None => [] end else [].
Definition rem_parent (l : listIterator) (ok : bool) : list (list Z * list Z) :=
  if ok then match li_cur l with Some p => p :: li_rest l | None => [] end else [].

Definition it_tree (it : flushableIterator) := rem_tree (it_treeNode it) (it_treeOk it).
Definition it_parent (it : flushableIterator) := rem_parent (it_parentIt it) (it_parentOk it).
Definition it_rem (it : flushableIterator) := pairs (it_prefix it) (it_prevKey it) (it_tree it) (it_parent it).
Definition it_size (it : flushableIterator) : nat := length (it_tree it) + length (it_parent it).

Record it_ok (it : flushableIterator) : Prop := {
  io_node : it_treeOk it = true -> exists n, it_treeNode it = Some n /\ tree_sorted (root_of n);
  io_cur : it_parentOk it = true -> is_Some (li_cur (it_parentIt it));
  io_above : forall p, p ∈ it_tree it -> key_le (it_prefix it) p.1 /\ after (it_prevKey it) p.1;
  io_strict : StronglySorted (fun p q => key_lt p.1 q.1) (it_parent it);
  io_prefix : forall p, p ∈ it_parent it -> HasPrefix p.1 (it_prefix it) = true
}.

Lemma from_node_strict n : tree_sorted (root_of n) -> StronglySorted (fun p q => key_lt p.1 q.1) (from_node n).
Proof.
  unfold tree_sorted, root_of. rewrite inorder_plug. intros Hs%StronglySorted_app_1_r. unfold node_tree in Hs. cbn [inorder] in Hs.
  rewrite <- app_assoc in Hs. by apply StronglySorted_app_1_r in Hs.
Qed.

(** One step of the tree. *)
Lemma it_tree_next it : it_ok it -> it_treeOk it = true ->
  exists n T, it_treeNode it = Some n /\ it_tree it = (n_Key n, n_Value n) :: T /\
    StronglySorted (fun p q => key_lt p.1 q.1) ((n_Key n, n_Value n) :: T) /\
    rem_tree (nextNode n) (bool_decide (is_Some (nextNode n))) = T /\
    (bool_decide (is_Some (nextNode n)) = true -> exists n', nextNode n = Some n' /\ tree_sorted (root_of n')).
Proof.
  intros Hok Ht. destruct (io_node _ Hok Ht) as (n & Hn & Hs). unfold it_tree, rem_tree. rewrite Ht, Hn.
  pose proof (from_node_strict n Hs) as Hst. pose proof (nextNode_spec n Hs) as Hx.
  destruct (nextNode n) as [n'|] eqn:E.
  - destruct Hx as [Hr Hf]. exists n, (from_node n'). rewrite Hf in Hst. rewrite E. splits; try done.
    intros _. exists n'. by rewrite Hr.
  - rewrite Hx in Hst. exists n, []. rewrite E. by splits.
Qed.

Lemma strict_head_le {A} (p : list Z * A) l q :
  StronglySorted (fun p q => key_lt p.1 q.1) (p :: l) -> q ∈ p :: l -> key_le p.1 q.1.
Proof.
  intros Hs [->|Hq]%elem_of_cons; apply key_le_lt; [by right|left]. inversion Hs as [|? ? _ Hall]; subst.
  by apply (proj1 (Forall_forall _ _) Hall).
Qed.

(** The key the inner loop has reached is not above those of the parent. *)
Lemma tree_turn it n : it_ok it ->
  negb (it_parentOk it) || bool_decide (key_le n (li_Key (it_parentIt it))) = true ->
  forall p, p ∈ it_parent it -> key_le n p.1.
Proof.
  intros Hok Hc p Hp. pose proof (io_strict _ Hok) as Hs. unfold it_parent, rem_parent, li_Key in *.
  destruct (it_parentOk it); [|by apply not_elem_of_nil in Hp]. simpl in Hc. apply bool_decide_eq_true in Hc.
  destruct (li_cur _) as [q|]; [|by apply not_elem_of_nil in Hp]. simpl in Hc. etrans; [exact Hc|].
  by eapply strict_head_le.
Qed.

(** What a step does to the pairs to come. *)
Definition stepped (ok : bool) (it it' : flushableIterator) : Prop :=
  it_ok it' /\ it_prefix it' = it_prefix it /\
  if ok then exists v, it_val it' = Some v /\ it_rem it = (it_key it', v) :: it_rem it' else it_rem it' = it_rem it.

Lemma tree_step_spec it : it_ok it -> it_treeOk it = true ->
  (forall p, p ∈ it_parent it -> key_le (castToPair (it_treeNode it)).1 p.1) ->
  exists ok it', tree_step it = (ok, it') /\ stepped ok it it' /\ it_parentIt it' = it_parentIt it /\
    it_parentOk it' = it_parentOk it /\ (length (it_tree it') < length (it_tree it))%nat.
Proof.
  intros Hok Ht Hmin. destruct (it_tree_next it Hok Ht) as (n & T & Hn & HT & Hst & Hnext & Hnode).
  unfold tree_step. rewrite Hn in *. cbn [castToPair fst mbind option_bind] in *.
  pose proof (io_above _ Hok (n_Key n, n_Value n)) as Hab. rewrite HT in Hab. specialize (Hab ltac:(left)) as [Hpre Haft].
  cbn [fst] in Hpre, Haft. assert (forall p, p ∈ T -> key_le (it_prefix it) p.1 /\ key_lt (n_Key n) p.1) as HTab.
  { intros p Hp. split; [|by apply (tree_first_after T _ _ Hst)]. apply (io_above _ Hok). rewrite HT. by right. }
  assert (it_rem it = pairs (it_prefix it) (it_prevKey it) ((n_Key n, n_Value n) :: T) (it_parent it)) as Hrem
    by (unfold it_rem; by rewrite HT).
  assert (forall key val, let it' := mk_flushableIterator key val (Some (n_Key n)) (it_parentIt it) (it_parentOk it)
      (nextNode n) (bool_decide (is_Some (nextNode n))) (it_prefix it) in it_ok it' /\ it_tree it' = T) as Hnew.
  { intros key val it'. assert (it_tree it' = T) as HT' by (unfold it_tree; exact Hnext). split; [|done].
    split; cbn; try apply Hok; [done|]. rewrite HT'. apply HTab. }
  rewrite HT, Ht. destruct (n_Value n) as [v|] eqn:Hv.
  - unfold isSuitable. destruct (HasPrefix (n_Key n) (it_prefix it)) eqn:Hp; cbn [negb].
    + replace (match it_prevKey it with None => true | Some p => bool_decide (key_lt p (n_Key n)) end) with true
        by (destruct (it_prevKey it); [symmetry; by apply bool_decide_eq_true|done]).
      destruct (Hnew (n_Key n) (Some v)) as [Hok' HT']. do 2 eexists. split; [reflexivity|].
      splits; try done; [|rewrite HT'; simpl; lia]. split; [done|]. split; [done|].
      exists v. split; [done|]. rewrite Hrem. unfold it_rem. rewrite HT'. apply pairs_found; done || apply Hok.
    + destruct (pairs_beyond (it_prefix it) (it_prevKey it) T (it_parent it) _ _ Hst (io_strict _ Hok) Haft Hmin Hp Hpre
        (io_prefix _ Hok)) as [HP Hnil].
      do 2 eexists. split; [reflexivity|]. splits; try done; [|simpl; lia]. split; [|split; [done|]].
      * split; cbn; try done; try apply Hok. by intros p ?%not_elem_of_nil.
      * rewrite Hrem, Hnil. unfold it_rem, it_parent in *. cbn. by rewrite HP.
  - destruct (Hnew (it_key it) (it_val it)) as [Hok' HT']. do 2 eexists. split; [reflexivity|].
    splits; try done; [|rewrite HT'; simpl; lia]. split; [done|]. split; [done|].
    rewrite Hrem. unfold it_rem. rewrite HT'. symmetry. apply pairs_deleted; done || apply Hok.
Qed.

Lemma parent_step_spec it : it_ok it -> it_parentOk it = true ->
  (forall p, p ∈ it_tree it -> key_lt (li_Key (it_parentIt it)) p.1) ->
  exists ok it', parent_step it = (ok, it') /\ stepped ok it it' /\ (it_size it' < it_size it)%nat.
Proof.
  intros Hok Hp Hmin. destruct (io_cur _ Hok Hp) as [[k v] Hcur]. unfold li_Key in Hmin. rewrite Hcur in Hmin.
  set (P := li_rest (it_parentIt it)).
  assert (it_parent it = (k, v) :: P) as HP by (unfold it_parent, rem_parent; by rewrite Hp, Hcur).
  pose proof (io_prefix _ Hok) as Hpre. pose proof (io_strict _ Hok) as Hst. rewrite HP in Hpre, Hst.
  assert (StronglySorted (fun p q => key_lt p.1 q.1) (it_tree it)) as HT.
  { unfold it_tree, rem_tree. destruct (it_treeOk it) eqn:Ht; [|constructor].
    destruct (io_node _ Hok Ht) as (n & -> & Hs). by apply from_node_strict. }
  assert (it_rem it = pairs (it_prefix it) (it_prevKey it) (it_tree it) ((k, v) :: P)) as Hrem by (unfold it_rem; by rewrite HP).
  unfold parent_step, isSuitable, li_Key, li_Value. rewrite Hcur. cbn [default fmap option_fmap option_map from_option id fst snd].
  assert (HasPrefix k (it_prefix it) = true) as Hk by (apply (Hpre (k, v)); left). rewrite Hk. cbn [negb].
  assert (rem_parent (li_Next (it_parentIt it)).2 (li_Next (it_parentIt it)).1 = P /\
    ((li_Next (it_parentIt it)).1 = true -> is_Some (li_cur (li_Next (it_parentIt it)).2))) as [HP' Hcur'].
  { unfold li_Next. fold P. by destruct P. }
  destruct (li_Next (it_parentIt it)) as [pok pit]. cbn [fst snd] in HP', Hcur'.
  assert (forall key val prev, (forall p, p ∈ it_tree it -> after prev p.1) ->
    let it' := mk_flushableIterator key val prev pit pok (it_treeNode it) (it_treeOk it) (it_prefix it) in
    it_ok it' /\ it_tree it' = it_tree it /\ it_parent it' = P) as Hnew.
  { intros key val prev Hprev it'. assert (it_parent it' = P) as HPn by (unfold it_parent; exact HP').
    split; [|done]. split; cbn; try apply Hok; try rewrite HPn; [done| |by inversion Hst|].
    - intros p Hpin. split; [by apply (io_above _ Hok)|by apply Hprev].
    - intros p Hpin. apply Hpre. by right. }
  destruct (match it_prevKey it with None => true | Some p => bool_decide (key_lt p k) end) eqn:Hsuit.
  - assert (after (it_prevKey it) k) as Haft by (destruct (it_prevKey it); [by apply bool_decide_eq_true in Hsuit|done]).
    destruct (Hnew k (Some v) (Some k) Hmin) as (Hok' & HT' & HPn). do 2 eexists. split; [reflexivity|].
    split; [|unfold it_size; rewrite HT', HPn, HP; simpl; lia]. split; [done|]. split; [done|]. exists v. split; [done|].
    rewrite Hrem. unfold it_rem. rewrite HT', HPn. by apply pairs_parent.
  - assert (~ after (it_prevKey it) k) as Haft by (destruct (it_prevKey it); [by apply bool_decide_eq_false in Hsuit|done]).
    destruct (Hnew (it_key it) (it_val it) (it_prevKey it)) as (Hok' & HT' & HPn); [intros p Hpin; by apply (io_above _ Hok)|].
    do 2 eexists. split; [reflexivity|]. split; [|unfold it_size; rewrite HT', HPn, HP; simpl; lia].
    split; [done|]. split; [done|]. rewrite Hrem. unfold it_rem. rewrite HT', HPn. symmetry. by apply pairs_skip.
Qed.

(** The tree is behind the parent. *)
Definition tree_waits (it : flushableIterator) : Prop :=
  it_treeOk it = false \/ (it_parentOk it = true /\ forall p, p ∈ it_tree it -> key_lt (li_Key (it_parentIt it)) p.1).

Lemma stepped_trans ok it it1 it2 : stepped false it it1 -> stepped ok it1 it2 -> stepped ok it it2.
Proof.
  intros (_ & Hp1 & Hr1) (Hok & Hp2 & Hr2). split; [done|]. split; [congruence|]. destruct ok; [by rewrite <- Hr1|congruence].
Qed.

Lemma tree_loop_spec fuel : forall it, it_ok it -> (length (it_tree it) < fuel)%nat ->
  exists ok it', tree_loop fuel it = Ok (ok, it') /\ stepped ok it it' /\ it_parent it' = it_parent it /\
    (length (it_tree it') <= length (it_tree it))%nat /\
    if ok : bool then (length (it_tree it') < length (it_tree it))%nat else tree_waits it'.
Proof.
  induction fuel as [|fuel IH]; intros it Hok Hf; [lia|]. cbn [tree_loop].
  assert (stepped false it it) as Hrefl by (by split).
  destruct (it_treeOk it) eqn:Ht; cbn [andb]; [|exists false, it; splits; try done; by left].
  destruct (negb (it_parentOk it) || _) eqn:Hturn.
  - destruct (tree_step_spec it Hok Ht (tree_turn it _ Hok Hturn)) as (ok & it1 & -> & Hst & Hpi & Hpo & Hlt).
    assert (it_parent it1 = it_parent it) as HP by (unfold it_parent; by rewrite Hpi, Hpo).
    destruct ok; [exists true, it1; splits; try done; lia|].
    destruct (IH it1 (proj1 Hst) ltac:(lia)) as (ok & it2 & -> & Hst2 & HP2 & Hle & Hend).
    exists ok, it2. splits; [done|by eapply stepped_trans|congruence|lia|]. destruct ok; [lia|done].
  - apply orb_false_iff in Hturn as [Hp Hle]. apply negb_false_iff in Hp. apply bool_decide_eq_false in Hle.
    exists false, it. splits; try done. right. split; [done|]. intros p Hpin.
    destruct (it_tree_next it Hok Ht) as (n & T & Hn & HT & Hst & _). rewrite Hn in Hle. rewrite HT in Hpin.
    pose proof (strict_head_le _ _ _ Hst Hpin) as Hle'. cbn [castToPair fst] in Hle, Hle'.
    rewrite key_le_not_lt in Hle. destruct (decide (key_lt (li_Key (it_parentIt it)) (n_Key n))) as [Hlt|]; [|done].
    apply key_le_lt in Hle' as [?| <-]; [by etrans|done].
Qed.

Lemma next_loop_spec fuel : forall it, it_ok it -> (it_size it < fuel)%nat ->
  exists ok it', next_loop fuel it = Ok (ok, it') /\ stepped ok it it' /\
    if ok : bool then (it_size it' < it_size it)%nat else it_rem it = [].
Proof.
  induction fuel as [|fuel IH]; intros it Hok Hf; [lia|]. cbn [next_loop].
  assert (stepped false it it) as Hrefl by (by split).
  destruct (it_treeOk it || it_parentOk it) eqn:Hany.
  2:{ apply orb_false_iff in Hany as [Ht Hp]. exists false, it. splits; try done.
      unfold it_rem, it_tree, it_parent. by rewrite Ht, Hp. }
  assert (exists ok it1, (if it_treeOk it then tree_loop (S fuel) it else Ok (false, it)) = Ok (ok, it1) /\ stepped ok it it1 /\
    it_parent it1 = it_parent it /\ (length (it_tree it1) <= length (it_tree it))%nat /\
    if ok : bool then (it_size it1 < it_size it)%nat
    else tree_waits it1 /\ (it_parentOk it1 = false -> (length (it_tree it1) < length (it_tree it))%nat))
    as (ok & it1 & -> & Hst1 & HP1 & Hle1 & H1).
  { destruct (it_treeOk it) eqn:Ht.
    - destruct (tree_loop_spec (S fuel) it Hok) as (ok & it1 & -> & Hst & HP & Hle & Hend); [unfold it_size in Hf; lia|].
      exists ok, it1. splits; try done. destruct ok; [unfold it_size; rewrite HP; lia|]. split; [done|]. intros Hpf.
      destruct Hend as [Hw|[Hw _]]; [|congruence]. unfold it_tree, rem_tree. rewrite Hw, Ht.
      destruct (io_node _ Hok Ht) as (n & -> & _). simpl. lia.
    - exists false, it. splits; try done; [by left|]. intros Hp. by rewrite Hp in Hany. }
  cbn [outcome_bind]. destruct ok; [by exists true, it1|]. destruct H1 as [Hw Hnone].
  assert (exists ok it2, (if it_parentOk it1 then let '(ok, it) := parent_step it1 in if ok : bool then Ok (true, it) else next_loop fuel it
      else next_loop fuel it1) = Ok (ok, it2) /\ stepped ok it1 it2 /\
    if ok : bool then (it_size it2 < it_size it)%nat else it_rem it1 = []) as (ok & it2 & -> & Hst2 & H2).
  { assert (it_size it1 <= it_size it)%nat by (unfold it_size; rewrite HP1; lia). destruct (it_parentOk it1) eqn:Hp.
    - destruct (parent_step_spec it1 (proj1 Hst1) Hp) as (ok & it2 & -> & Hst2 & Hlt).
      { destruct Hw as [Hw|[_ Hw]]; [|done]. unfold it_tree, rem_tree. rewrite Hw. by intros p ?%not_elem_of_nil. }
      destruct ok; [exists true, it2; splits; try done; lia|].
      destruct (IH it2 (proj1 Hst2) ltac:(lia)) as (ok & it3 & -> & Hst3 & H3). exists ok, it3.
      split; [done|]. split; [by eapply stepped_trans|]. destruct ok; [lia|]. destruct Hst2 as (_ & _ & <-). done.
    - specialize (Hnone eq_refl). destruct (IH it1 (proj1 Hst1)) as (ok & it2 & -> & Hst2 & H2).
      { unfold it_size in *. rewrite HP1. lia. }
      exists ok, it2. splits; try done. destruct ok; [lia|done]. }
  exists ok, it2. split; [done|]. split; [by eapply stepped_trans|]. destruct ok; [done|]. destruct Hst1 as (_ & _ & <-). done.
Qed.

Lemma it_collect_spec n : forall fuel it, it_ok it -> (it_size it < n)%nat -> (it_size it < fuel)%nat ->
  it_collect n fuel it = Ok (it_rem it).
Proof.
  induction n as [|n IH]; intros fuel it Hok Hn Hf; [lia|]. cbn [it_collect].
  destruct (next_loop_spec fuel it Hok Hf) as (ok & it' & -> & (Hok' & _ & Hr) & H'). cbn [outcome_bind]. destruct ok; [|by rewrite H'].
  destruct Hr as (v & Hv & ->). rewrite IH by (done || lia). cbn [outcome_bind]. by rewrite Hv.
Qed.

(** * The store of a Flushable *)

#[local] Instance tree_sorted_dec t : Decision (tree_sorted t).
Proof. unfold tree_sorted. apply _. Defined.

Section store.
Context {S : Type} `{!TreeOps} `{!TreeLaws} `{!KvReader S} `{!KvReaderLaws S}.
Implicit Types (w : Flushable S).

(** What an open store holds: its modified pairs over the underlying content. *)
Definition Flushable_content w : option kv :=
  match fl_modified w with
  | Some t => if decide (tree_sorted t) then overlay (tree_map t) <$> kv_content (fl_underlying w) else None
  | None => None
  end.

Lemma Flushable_content_Some w m : Flushable_content w = Some m <->
  exists t base, fl_modified w = Some t /\ tree_sorted t /\ kv_content (fl_underlying w) = Some base /\ m = overlay (tree_map t) base.
Proof.
  unfold Flushable_content. destruct (fl_modified w) as [t|]; [|naive_solver].
  case_decide; [|naive_solver]. rewrite fmap_Some. naive_solver.
Qed.

Lemma Leaf_sorted : tree_sorted Leaf.
Proof. constructor. Qed.

Lemma Flushable_Wrap_content s base : kv_content s = Some base -> Flushable_content (Flushable_Wrap s) = Some base.
Proof.
  intros Hs. apply Flushable_content_Some. exists Leaf, base. split; [done|]. split; [apply Leaf_sorted|]. split; [done|].
  symmetry. apply overlay_empty.
Qed.

(** A modified pair. *)
Lemma content_modified w m t size k v : fl_modified w = Some t -> Flushable_content w = Some m ->
  Flushable_content (with_modified w (tree_Put t k v) size) = Some (apply_write m (k, v)).
Proof.
  intros Ht (t' & base & Ht' & Hs & Hb & ->)%Flushable_content_Some. simplify_eq. apply Flushable_content_Some.
  exists (tree_Put t k v), base. split; [done|]. split; [by apply tree_Put_sorted|]. split; [done|].
  by rewrite tree_Put_map, overlay_insert.
Qed.

Lemma write_one_content w m op : Flushable_content w = Some m ->
  exists w', write_one w op = Ok w' /\ Flushable_content w' = Some (apply_write m op) /\ fl_underlying w' = fl_underlying w.
Proof.
  intros Hm. pose proof Hm as (t & base & Ht & _)%Flushable_content_Some. destruct op as [k [v|]];
    unfold write_one, Flushable_put, Flushable_delete; cbn [fst snd]; rewrite Ht; eexists; (split; [reflexivity|]);
    (split; [by apply content_modified|done]).
Qed.

Lemma cacheBatch_Write_content w m b : Flushable_content w = Some m ->
  exists w', cacheBatch_Write w b = Ok w' /\ Flushable_content w' = Some (apply_writes m (cb_writes b)) /\
    fl_underlying w' = fl_underlying w.
Proof.
  intros Hm. pose proof Hm as (t & base & Ht & _)%Flushable_content_Some. unfold cacheBatch_Write. rewrite Ht. clear t base Ht.
  revert w m Hm. induction (cb_writes b) as [|op ws IH]; intros w m Hm; [by exists w|]. cbn [foldM].
  destruct (write_one_content w m op Hm) as (w1 & -> & Hm1 & Hu1). cbn [outcome_bind].
  destruct (IH w1 _ Hm1) as (w2 & -> & Hm2 & Hu2). exists w2. split; [done|]. split; [done|congruence].
Qed.

Lemma Get_content w m k : Flushable_content w = Some m -> Flushable_Get w k = Ok (m !! k).
Proof.
  intros (t & base & Ht & Hs & Hb & ->)%Flushable_content_Some. unfold Flushable_Get.
  rewrite Ht, tree_Get_map, overlay_lookup by done. destruct (tree_map t !! k); [done|]. by apply kv_Get_law.
Qed.

Lemma Has_content w m k : Flushable_content w = Some m -> Flushable_Has w k = Ok (bool_decide (is_Some (m !! k))).
Proof.
  intros (t & base & Ht & Hs & Hb & ->)%Flushable_content_Some. unfold Flushable_Has.
  rewrite Ht, tree_Get_map, overlay_lookup by done. destruct (tree_map t !! k); [done|]. by apply kv_Has_law.
Qed.

Lemma key_le_nil k : key_le [] k.
Proof. by destruct k. Qed.

Lemma key_le_app_l prefix start k : key_le (prefix ++ start) k -> key_le prefix k.
Proof. apply transitivity. rewrite <- (app_nil_r prefix) at 1. apply key_le_app, key_le_nil. Qed.

(** The tree's side of a fresh iterator. *)
Lemma init_tree t start : tree_sorted t ->
  let n := if (length start =? 0)%nat then tree_Left t else tree_Ceiling t start in
  (bool_decide (is_Some n) = true -> exists n', n = Some n' /\ tree_sorted (root_of n')) /\
  rem_tree n (bool_decide (is_Some n)) = filter (fun p => key_le start p.1) (inorder t).
Proof.
  intros Hs n. subst n. destruct (length start =? 0)%nat eqn:E; bool_to_prop.
  - apply nil_length_inv in E as ->. rewrite filter_all by (intros; apply key_le_nil).
    pose proof (tree_Left_spec t Hs) as Hl. destruct (tree_Left t) as [n|]; [|by rewrite Hl].
    destruct Hl as [Hr Hf]. split; [intros _; exists n; by rewrite Hr|done].
  - pose proof (tree_Ceiling_spec t start Hs) as Hl. destruct (tree_Ceiling t start) as [n|]; [|by rewrite Hl].
    destruct Hl as [Hr Hf]. split; [intros _; exists n; by rewrite Hr|done].
Qed.

Lemma NewIterator_content w m prefix start : Flushable_content w = Some m ->
  exists it, Flushable_NewIterator w prefix start = Ok it /\ it_ok it /\ it_rem it = kv_iter m prefix start.
Proof.
  intros (t & base & Ht & Hs & Hb & ->)%Flushable_content_Some. unfold Flushable_NewIterator.
  rewrite Ht, (kv_NewIterator_law _ _ _ _ Hb). cbn [outcome_bind]. set (P := kv_iter base prefix start).
  eexists. split; [reflexivity|]. destruct (init_tree t (prefix ++ start) Hs) as [Hn HT].
  set (n := if (length (prefix ++ start) =? 0)%nat then _ else _) in *.
  set (T := filter (fun p => key_le (prefix ++ start) p.1) (inorder t)) in *.
  unfold it_init. cbn [it_parentIt it_key it_val it_prevKey it_prefix].
  assert (rem_parent (li_Next (mk_listIterator None P)).2 (li_Next (mk_listIterator None P)).1 = P /\
    ((li_Next (mk_listIterator None P)).1 = true -> is_Some (li_cur (li_Next (mk_listIterator None P)).2))) as [HP HPc].
  { unfold li_Next. cbn [li_rest]. by destruct P. }
  destruct (li_Next _) as [pok pit]. cbn [fst snd] in HP, HPc. fold n.
  assert (StronglySorted (fun p q => key_lt p.1 q.1) P) as HPs by apply kv_iter_strict.
  assert (StronglySorted (fun p q => key_lt p.1 q.1) T) as HTs by (by apply strict_sorted_filter). split.
  - split; cbn; try done; unfold it_tree, it_parent; cbn; rewrite ?HT, ?HP; [|done|].
    + intros p [Hp _]%list_elem_of_filter. split; [by eapply key_le_app_l|done].
    + intros [k v] (_ & ? & _)%elem_of_kv_iter. done.
  - unfold it_rem, it_tree, it_parent. cbn. rewrite HT, HP.
    apply strict_sorted_unique; [apply pairs_strict|apply kv_iter_strict|]. intros [k v].
    rewrite elem_of_pairs, elem_of_kv_iter, overlay_lookup by done. unfold P, T.
    rewrite elem_of_kv_iter, list_elem_of_filter. setoid_rewrite list_elem_of_filter. cbn [fst after].
    assert (forall u, (k, u) ∈ inorder t <-> tree_map t !! k = Some u) as Hin by (intros u; symmetry; by apply strict_lookup).
    setoid_rewrite Hin. destruct (tree_map t !! k) as [u|]; naive_solver.
Qed.

End store.

(** ** A Flushable is a store again *)

#[export] Instance Flushable_KvReader {S} `{!TreeOps} `{!KvReader S} : KvReader (Flushable S) := {|
  kv_Get := Flushable_Get;
  kv_Has := Flushable_Has;
  kv_NewIterator w prefix start :=
    let* it := Flushable_NewIterator w prefix start in
    it_collect (Datatypes.S (it_size it)) (Datatypes.S (it_size it)) it;
  kv_content := Flushable_content
|}.

#[export] Instance Flushable_KvReaderLaws {S} `{!TreeOps} `{!TreeLaws} `{!KvReader S} `{!KvReaderLaws S} :
  KvReaderLaws (Flushable S).
Proof.
  split; unfold kv_content, kv_Get, kv_Has, kv_NewIterator, Flushable_KvReader; intros w m *;
    [apply Get_content|apply Has_content|]. intros Hm.
  destruct (NewIterator_content w m p st Hm) as (it & -> & Hok & <-). cbn [outcome_bind].
  apply it_collect_spec; [done|lia|lia].
Qed.

(** A nil dereference of a closed store is kept as an error here. *)
Definition as_error {A} (w : A) (r : outcome A) : option string * A :=
  match r with
  | Ok w' => (None, w')
  | Err e => (Some e, w)
  | Panic e => (Some e, w)
  end.

#[export] Instance Flushable_KvWriter {S} `{!TreeOps} : KvWriter (Flushable S) := {|
  kv_Put w k v := as_error w (Flushable_Put w (Some k) (Some v));
  kv_Delete w k := as_error w (Flushable_Delete w k);
  kv_ValueSize ws := wsum (fun op : write => Z.of_nat (length (default [] op.2)) + Z.of_nat (length op.1)) ws;
  kv_Write w ws := as_error w (cacheBatch_Write w (mk_cacheBatch ws 0))
|}.

#[export] Instance Flushable_KvWriterLaws {S} `{!TreeOps} `{!TreeLaws} `{!KvReader S} `{!KvReaderLaws S} :
  KvWriterLaws (Flushable S).
Proof.
  split; simpl.
  - intros w m k v Hm. destruct (write_one_content w m (k, Some v) Hm) as (w' & Hw & Hc & _).
    unfold write_one in Hw. simpl in Hw. by rewrite Hw.
  - intros w m k Hm. destruct (write_one_content w m (k, None) Hm) as (w' & Hw & Hc & _).
    unfold write_one in Hw. simpl in Hw. unfold Flushable_Delete. by rewrite Hw.
  - intros w m ws Hm. destruct (cacheBatch_Write_content w m (mk_cacheBatch ws 0) Hm) as (w' & Hw & Hc & _).
    rewrite Hw. by exists ws.
Qed.

(** kvdb/memorydb/memorydb.go *)
Definition memorydb `{!TreeOps} : Flushable devnull := Flushable_Wrap Devnull.

Lemma memorydb_content `{!TreeOps} : kv_content memorydb = Some ∅.
Proof. by apply Flushable_Wrap_content. Qed.

Section flush.
Context {S : Type} `{!TreeOps} `{!TreeLaws} `{!KvReader S} `{!KvReaderLaws S} `{!KvWriter S} `{!KvWriterLaws S}.

(** The batches of [Flush] write the items in order, up to an error. *)
Lemma flush_loop_spec items : forall s batch m, kv_content s = Some m ->
  exists done, done `prefix_of` (batch ++ items) /\
    kv_content (flush_loop s batch items).2 = Some (apply_writes m done) /\
    ((flush_loop s batch items).1 = None -> done = batch ++ items).
Proof.
  induction items as [|op items IH]; intros s batch m Hm; cbn [flush_loop].
  - rewrite app_nil_r. by apply kv_Write_law.
  - replace (batch ++ op :: items) with ((batch ++ [op]) ++ items) by (by rewrite <- app_assoc).
    destruct (_ <? _); [|by apply IH].
    destruct (kv_Write_law s m (batch ++ [op]) Hm) as (ws & Hpre & Hc & Hall).
    destruct (kv_Write s (batch ++ [op])) as [[e|] s1]; cbn [fst snd] in *.
    + exists ws. split; [by apply prefix_app_r|]. split; [done|]. done.
    + rewrite (Hall eq_refl) in Hc. destruct (IH s1 [] _ Hc) as (ws2 & Hpre2 & Hc2 & Hall2).
      exists ((batch ++ [op]) ++ ws2). split; [by apply prefix_app|]. split; [by rewrite apply_writes_app|].
      intros He. by rewrite (Hall2 He).
Qed.

End flush.

(** ** Properties *)

(** C20: a Flushable over any store behaves as one store of its own: it reads and
    iterates the underlying content with its not flushed writes applied, in
    ascending order without repetition; writes and batches change that content
    and not the underlying store; dropping them restores the underlying
    content. *)
Theorem Flushable_refines {S} `{!TreeOps} `{!TreeLaws} `{!KvReader S} `{!KvReaderLaws S} (w : Flushable S) (m : kv)
    (key value prefix start : list Z) (b : cacheBatch) :
  Flushable_content w = Some m ->
  Flushable_Get w key = Ok (m !! key) /\ Flushable_Has w key = Ok (bool_decide (is_Some (m !! key))) /\
  (exists it, Flushable_NewIterator w prefix start = Ok it /\
     forall n fuel, (it_size it < n)%nat -> (it_size it < fuel)%nat -> it_collect n fuel it = Ok (kv_iter m prefix start)) /\
  (exists w', Flushable_Put w (Some key) (Some value) = Ok w' /\ Flushable_content w' = Some (<[key := value]> m) /\
     fl_underlying w' = fl_underlying w) /\
  (exists w', Flushable_Delete w key = Ok w' /\ Flushable_content w' = Some (delete key m) /\
     fl_underlying w' = fl_underlying w) /\
  (exists w', cacheBatch_Write w b = Ok w' /\ Flushable_content w' = Some (apply_writes m (cb_writes b)) /\
     fl_underlying w' = fl_underlying w) /\
  (exists w', Flushable_DropNotFlushed w = Ok w' /\ Flushable_content w' = kv_content (fl_underlying w) /\
     fl_underlying w' = fl_underlying w).
Proof.
  intros Hm. splits.
  - by apply Get_content.
  - by apply Has_content.
  - destruct (NewIterator_content w m prefix start Hm) as (it & Hit & Hok & <-). exists it. split; [done|].
    intros n fuel Hn Hf. by apply it_collect_spec.
  - apply (write_one_content w m (key, Some value) Hm).
  - apply (write_one_content w m (key, None) Hm).
  - by apply cacheBatch_Write_content.
  - apply Flushable_content_Some in Hm as (t & base & Ht & Hs & Hb & ->). unfold Flushable_DropNotFlushed. rewrite Ht.
    eexists. split; [reflexivity|]. split; [|done]. rewrite Hb. apply Flushable_content_Some. exists Leaf, base.
    split; [done|]. split; [apply Leaf_sorted|]. split; [done|]. symmetry. apply overlay_empty.
Qed.

(** C27: [Flush] never changes what the store holds.  When it succeeds the
    underlying store holds it all and nothing is left to flush; when a batch
    fails part-way the pairs stay in the cache, so nothing is lost. *)
Theorem Flush_correct {S} `{!TreeOps} `{!TreeLaws} `{!KvReader S} `{!KvReaderLaws S} `{!KvWriter S} `{!KvWriterLaws S}
    (w : Flushable S) (m : kv) :
  Flushable_content w = Some m ->
  Flushable_content (Flushable_Flush w).2 = Some m /\
  match (Flushable_Flush w).1 with
  | None => kv_content (fl_underlying (Flushable_Flush w).2) = Some m /\
            NotFlushedPairs (Flushable_Flush w).2 = Ok 0%nat /\ NotFlushedSizeEst (Flushable_Flush w).2 = 0
  | Some _ => fl_modified (Flushable_Flush w).2 = fl_modified w /\
              NotFlushedSizeEst (Flushable_Flush w).2 = NotFlushedSizeEst w
  end.
Proof.
  intros (t & base & Ht & Hs & Hb & ->)%Flushable_content_Some. unfold Flushable_Flush. rewrite Ht.
  destruct (flush_loop_spec (inorder t) (fl_underlying w) [] base Hb) as (done & [rest Hpre] & Hc & Hall). cbn [app] in *.
  destruct (flush_loop _ _ _) as [[e|] s]; cbn [fst snd] in *; (split; [|done || idtac]).
  - apply Flushable_content_Some. exists t, (apply_writes base done). split; [done|]. split; [done|]. split; [done|].
    by rewrite (overlay_written t base done rest).
  - apply Flushable_content_Some. exists Leaf, (apply_writes base done). split; [done|]. split; [apply Leaf_sorted|].
    split; [done|]. rewrite (Hall eq_refl), overlay_written_all by done. symmetry. apply overlay_empty.
  - split; [|done]. cbn [fl_underlying]. by rewrite Hc, (Hall eq_refl), overlay_written_all.
Qed.

(** ** Witnesses: a deletion and an insertion over two stored pairs *)

Definition sample_base : kv := <[[1] := [10]]> (<[[2] := [20]]> ∅).
Definition sample : Flushable kv :=
  mk_Flushable sample_base (Some (tree_Put (tree_Put Leaf [2] None) [3] (Some [30]))) 0.

Lemma sample_content : Flushable_content sample = Some (<[[3] := [30]]> (delete [2] sample_base)).
Proof. vm_compute. reflexivity. Qed.

Lemma Flushable_refines_witness :
  Flushable_Get sample [3] = Ok ((<[[3] := [30]]> (delete [2] sample_base)) !! [3]) /\
  exists it, Flushable_NewIterator sample [] [] = Ok it /\
    forall n fuel, (it_size it < n)%nat -> (it_size it < fuel)%nat ->
      it_collect n fuel it = Ok (kv_iter (<[[3] := [30]]> (delete [2] sample_base)) [] []).
Proof.
  destruct (Flushable_refines sample _ [3] [4] [] [] (mk_cacheBatch [] 0) sample_content) as (H1 & _ & H2 & _). by split.
Defined.

Lemma Flush_correct_witness :
  Flushable_content (Flushable_Flush sample).2 = Some (<[[3] := [30]]> (delete [2] sample_base)) /\
  kv_content (fl_underlying (Flushable_Flush sample).2) = Some (<[[3] := [30]]> (delete [2] sample_base)).
Proof. destruct (Flush_correct sample _ sample_content) as (H1 & H2 & _). by split. Defined.
