(* ===== verification/Snapshots.v ===== *)
(** * Snapshots of flushable stores, and the in-memory file system

    kvdb/flushable/flushable.go [GetSnapshot] and [Snapshot], with the rest of
    [kvdb.Store] for a [Flushable]: it is a [KvFull] over any [KvFull].
    kvdb/memorydb/fake_fs.go and producer.go: named in-memory stores. *)

From S2P Require Import Prelude Bytes Kvdb KvStore RbTree Flushable.
Local Open Scope go_scope.

(** ** Snapshots *)

Section snapshot.
Context `{!TreeOps} {S SN : Type}.

(** It embeds the reader of [Flushable]; [sn_modified] is nil once released. *)
Record Snapshot := mk_Snapshot { sn_parentSnap : SN; sn_modified : option tree }.

Definition snapshot_reader (sn : Snapshot) : Flushable SN := mk_Flushable (sn_parentSnap sn) (sn_modified sn) 0.

(** A new tree, filled by an iteration over the old one. *)
Definition copy_tree (t : tree) : tree := foldl (fun c p => tree_Put c p.1 p.2) Leaf (inorder t).

Definition Flushable_GetSnapshot `{!KvFull S SN} (w : Flushable S) : outcome Snapshot :=
  let* parentSnap := kv_GetSnapshot (fl_underlying w) in
  match fl_modified w with
  | None => Panic "nil modified"
  | Some t => Ok (mk_Snapshot parentSnap (Some (copy_tree t)))
  end.

Definition Snapshot_Release (release : SN -> SN) (sn : Snapshot) : Snapshot := mk_Snapshot (release (sn_parentSnap sn)) None.

#[export] Instance Snapshot_KvReader `{!KvReader SN} : KvReader Snapshot := {|
  kv_Get sn k := Flushable_Get (snapshot_reader sn) k;
  kv_Has sn k := Flushable_Has (snapshot_reader sn) k;
  kv_NewIterator sn prefix start := kv_NewIterator (snapshot_reader sn) prefix start;
  kv_content sn := kv_content (snapshot_reader sn)
|}.

#[export] Instance Snapshot_KvReaderLaws `{!TreeLaws} `{!KvReader SN} `{!KvReaderLaws SN} : KvReaderLaws Snapshot.
Proof.
  split; intros sn m *; [exact (kv_Get_law (snapshot_reader sn) m k)|exact (kv_Has_law (snapshot_reader sn) m k)|].
  exact (kv_NewIterator_law (snapshot_reader sn) m p st).
Qed.

(** [Drop] of a store made by [Wrap] drops the underlying one; of an open one it
    panics, which is left out of this interface. *)
Definition Flushable_Stat `{!KvFull S SN} (w : Flushable S) (property : string) : outcome string := kv_Stat (fl_underlying w) property.
Definition Flushable_Compact `{!KvFull S SN} (w : Flushable S) (start limit : option (list Z)) : option string * Flushable S :=
  let '(err, s) := kv_Compact (fl_underlying w) start limit in (err, mk_Flushable s (fl_modified w) (fl_sizeEstimation w)).

#[export] Instance Flushable_KvFull `{!KvFull S SN} : KvFull (Flushable S) Snapshot := {|
  kv_GetSnapshot := Flushable_GetSnapshot;
  kv_Stat := Flushable_Stat;
  kv_Compact := Flushable_Compact;
  kv_Close := Flushable_Close kv_Close;
  kv_Drop w := match Flushable_Drop (Some kv_Drop) w with Ok w => w | _ => w end
|}.

Section laws.
Context `{!TreeLaws}.

Lemma copy_loop l : forall c, tree_sorted c -> NoDup l.*1 -> (forall k, k ∈ l.*1 -> tree_map c !! k = None) ->
  tree_sorted (foldl (fun c p => tree_Put c p.1 p.2) c l) /\
  tree_map (foldl (fun c p => tree_Put c p.1 p.2) c l) = list_to_map l ∪ tree_map c.
Proof.
  induction l as [|[k v] l IH]; intros c Hc Hnd Hnew; cbn [foldl list_to_map fst snd]; [split; [done|]; symmetry; apply (left_id_L ∅ (∪))|].
  cbn in Hnd. apply NoDup_cons in Hnd as [Hk Hnd].
  destruct (IH (tree_Put c k v)) as [Hs Hm]; [by apply tree_Put_sorted|done| |].
  - intros j Hj. rewrite tree_Put_map, lookup_insert_ne by (done || by intros ->). apply Hnew. by right.
  - split; [done|]. rewrite Hm, tree_Put_map by done. cbn. rewrite <- insert_union_l.
    symmetry. apply insert_union_r. by apply not_elem_of_list_to_map_1.
Qed.

Lemma copy_tree_same t : tree_sorted t -> tree_sorted (copy_tree t) /\ tree_map (copy_tree t) = tree_map t.
Proof.
  intros Hs. destruct (copy_loop (inorder t) Leaf Leaf_sorted (strict_NoDup _ Hs)) as [H1 H2]; [done|].
  split; [done|]. unfold copy_tree. rewrite H2. apply (right_id_L ∅ (∪)).
Qed.

Context `{!KvReader S} `{!KvReader SN} `{!KvFull S SN} `{!KvFullLaws S SN}.

(** A snapshot holds what the store holds when it is taken. *)
Lemma GetSnapshot_content (w : Flushable S) sn m :
  kv_content w = Some m -> Flushable_GetSnapshot w = Ok sn -> kv_content sn = Some m.
Proof.
  intros Hm Hsn. apply Flushable_content_Some in Hm as (t & base & Ht & Hs & Hb & ->). unfold Flushable_GetSnapshot in Hsn.
  destruct (kv_GetSnapshot (fl_underlying w)) as [ps|?|?] eqn:Hps; cbn [outcome_bind] in Hsn; [|done..].
  rewrite Ht in Hsn. injection Hsn as <-. destruct (copy_tree_same t Hs) as [Hc Hmap]. apply Flushable_content_Some.
  exists (copy_tree t), base. rewrite Hmap. split; [done|]. split; [done|]. split; [|done]. by eapply kv_GetSnapshot_law.
Qed.

#[export] Instance Flushable_KvFullLaws : KvFullLaws (Flushable S) Snapshot.
Proof.
  split; [intros w m sn; apply GetSnapshot_content|]. intros w a b. cbn. unfold Flushable_Compact.
  pose proof (kv_Compact_law (SN := SN) (fl_underlying w) a b) as Hc. destruct (kv_Compact _ a b) as [err s]. cbn in *.
  unfold Flushable_content. cbn. by rewrite Hc.
Qed.

(** A released snapshot answers nothing. *)
Lemma released_closed (sn : Snapshot) release k :
  kv_Get (Snapshot_Release release sn) k = Err errClosed /\ kv_Has (Snapshot_Release release sn) k = Err errClosed.
Proof. done. Qed.

End laws.
End snapshot.
Arguments Snapshot : clear implicits.

(** ** kvdb/memorydb/fake_fs.go *)

Section fake_fs.
Context `{!TreeOps}.

(** The files are shared stores: a handle is the name of the file. *)
Record fakeFS := mk_fakeFS { fs_Namespace : string; fs_Files : gmap string (Flushable devnull) }.

(** All the file systems of the program, by namespace; [uniq] is a random name. *)
Definition newFakeFS (uniq namespace : string) (all : gmap string fakeFS) : fakeFS * gmap string fakeFS :=
  let namespace := if decide (namespace = ""%string) then uniq else namespace in
  match all !! namespace with
  | Some fs => (fs, all)
  | None => let fs := mk_fakeFS namespace ∅ in (fs, <[namespace := fs]> all)
  end.

(** In the order of the walk over the map. *)
Definition ListFakeDBs (fs : fakeFS) (ls : list string) : Prop := ls ≡ₚ (map_to_list (fs_Files fs)).*1.

Definition OpenFakeDB (fs : fakeFS) (name : string) : fakeFS :=
  match fs_Files fs !! name with
  | Some _ => fs
  | None => mk_fakeFS (fs_Namespace fs) (<[name := memorydb]> (fs_Files fs))
  end.

(** An operation of the store through a handle. *)
Definition file_op {R} (op : Flushable devnull -> R * Flushable devnull) (fs : fakeFS) (name : string) : option R * fakeFS :=
  match fs_Files fs !! name with
  | None => (None, fs)
  | Some w => let '(r, w) := op w in (Some r, mk_fakeFS (fs_Namespace fs) (<[name := w]> (fs_Files fs)))
  end.

Definition memory_Close (w : Flushable devnull) : option string * Flushable devnull := Flushable_Close kv_Close w.

(** [NewWithDrop]: dropping a closed store removes its file. *)
Definition memory_Drop (fs : fakeFS) (name : string) : outcome fakeFS :=
  match fs_Files fs !! name with
  | None => Ok fs
  | Some w => let* _ := Flushable_Drop None w in Ok (mk_fakeFS (fs_Namespace fs) (delete name (fs_Files fs)))
  end.

(** producer.go: each opened store goes through the [mods], the first innermost. *)
Record MemProducer (H : Type) := mk_MemProducer { mp_fs : fakeFS; mp_mods : list (H -> H) }.
Definition MemProducer_New {H} (uniq namespace : string) (mods : list (H -> H)) (all : gmap string fakeFS) :
    MemProducer H * gmap string fakeFS :=
  let '(fs, all) := newFakeFS uniq namespace all in (mk_MemProducer H fs mods, all).
Definition MemProducer_Names {H} (p : MemProducer H) : list string -> Prop := ListFakeDBs (mp_fs H p).
Definition MemProducer_OpenDB {H} (handle : string -> H) (p : MemProducer H) (name : string) : H * MemProducer H :=
  (foldl (fun db md => md db) (handle name) (mp_mods H p), mk_MemProducer H (OpenFakeDB (mp_fs H p) name) (mp_mods H p)).

(** Opening creates a missing file and touches no other; what was put is found
    by whoever opens the file. *)
Lemma OpenFakeDB_spec fs name :
  is_Some (fs_Files (OpenFakeDB fs name) !! name) /\
  (forall n w, fs_Files fs !! n = Some w -> fs_Files (OpenFakeDB fs name) !! n = Some w) /\
  (forall n, n <> name -> fs_Files (OpenFakeDB fs name) !! n = fs_Files fs !! n) /\
  OpenFakeDB (OpenFakeDB fs name) name = OpenFakeDB fs name.
Proof.
  unfold OpenFakeDB. destruct (fs_Files fs !! name) as [w|] eqn:E; cbn [fs_Files].
  - rewrite !E. splits; [by eexists|done|done|done].
  - rewrite lookup_insert_eq. splits; [by eexists| |intros; by rewrite lookup_insert_ne|done].
    intros n w Hn. rewrite lookup_insert_ne; [done|congruence].
Qed.

(** A file that was closed is opened closed: writing to it panics. *)
Lemma reopened_closed fs name w k v :
  fs_Files fs !! name = Some w -> is_Some (fl_modified w) ->
  let fs1 := (file_op memory_Close fs name).2 in
  exists w', fs_Files (OpenFakeDB fs1 name) !! name = Some w' /\ Flushable_Put w' (Some k) (Some v) = Panic "nil modified".
Proof.
  intros Hw [t Ht]. unfold file_op, memory_Close, Flushable_Close. rewrite Hw, Ht. cbn.
  unfold OpenFakeDB. cbn. rewrite lookup_insert_eq. cbn. rewrite lookup_insert_eq. by eexists.
Qed.

End fake_fs.
