(* ===== verification/FlushPool.v ===== *)
(** * kvdb/flushable: lazy stores and the pool that flushes many databases as one

    lazy_flushable.go, close_drop_wrapper.go and synced_pool.go.  The disk is
    shared by the databases of the pool: [apply_op] is one atomic operation on
    it, and the trace of the operations is kept, so that a crash is a prefix of
    it.  Any operation may fail, as the oracle [io] says.  The orders of the
    loops over Go maps are arguments. *)

From S2P Require Import Prelude Bytes Kvdb KvStore RbTree Flushable.
Local Open Scope go_scope.

(** ** The disk *)

Inductive disk_op :=
| OpOpen (name : string)
| OpDrop (name : string)
| OpWrite (name : string) (ws : list write).

Abbreviation disk := (gmap string kv).

Definition db_content (d : disk) (name : string) : kv := default ∅ (d !! name).

(** Opening creates a missing database; a batch is written whole. *)
Definition apply_op (d : disk) (op : disk_op) : disk :=
  match op with
  | OpOpen n => match d !! n with Some _ => d | None => <[n := ∅]> d end
  | OpDrop n => delete n d
  | OpWrite n ws => <[n := apply_writes (db_content d n) ws]> d
  end.
Definition apply_ops (d : disk) (ops : list disk_op) : disk := foldl apply_op d ops.

(** The disk as it was at the start, and what was done since. *)
Record machine := mk_machine { ma_start : disk; ma_trace : list disk_op }.
Definition ma_disk (m : machine) : disk := apply_ops (ma_start m) (ma_trace m).

Section pool.
Context `{!TreeOps}.
(** The error, if any, of the next operation after a trace. *)
Context (io : list disk_op -> disk_op -> option string).

Definition perform (m : machine) (op : disk_op) : outcome unit * machine :=
  match io (ma_trace m) op with
  | Some e => (Err e, m)
  | None => (Ok tt, mk_machine (ma_start m) (ma_trace m ++ [op]))
  end.

(** One database of the disk, as the underlying store of a Flushable. *)
Record located := mk_located { lo_name : string; lo_machine : machine }.

Definition lo_perform (l : located) (op : disk_op) : option string * located :=
  let '(r, m) := perform (lo_machine l) op in
  (match r with Ok _ => None | Err e => Some e | Panic e => Some e end, mk_located (lo_name l) m).

Definition lo_content (l : located) : kv := db_content (ma_disk (lo_machine l)) (lo_name l).

#[local] Instance located_KvReader : KvReader located := {|
  kv_Get l k := Ok (lo_content l !! k);
  kv_Has l k := Ok (bool_decide (is_Some (lo_content l !! k)));
  kv_NewIterator l p st := Ok (kv_iter (lo_content l) p st);
  kv_content l := Some (lo_content l)
|}.
#[local] Instance located_KvWriter : KvWriter located := {|
  kv_Put l k v := lo_perform l (OpWrite (lo_name l) [(k, Some v)]);
  kv_Delete l k := lo_perform l (OpWrite (lo_name l) [(k, None)]);
  kv_ValueSize ws := wsum (fun op : write => Z.of_nat (length (default [] op.2)) + Z.of_nat (length op.1)) ws;
  kv_Write l ws := lo_perform l (OpWrite (lo_name l) ws)
|}.

(** ** lazy_flushable.go *)

(** The underlying store: the null store at first, the produced one, or nil once
    the producer has failed. *)
Inductive lazy_store := NullStore | NilStore | RealStore.
#[local] Instance lazy_store_eq_dec : EqDecision lazy_store.
Proof. solve_decision. Defined.

Record LazyFlushable := mk_LazyFlushable {
  lz_modified : option tree;
  lz_sizeEstimation : Z;
  lz_underlying : lazy_store
}.

Definition NewLazy : LazyFlushable := mk_LazyFlushable (Some Leaf) 0 NullStore.

(** [w.underlying, err = w.producer()]: an error leaves a nil store behind, and
    the next call returns it with no error. *)
Definition initUnderlyingDb (name : string) (w : LazyFlushable) (m : machine) : outcome unit * LazyFlushable * machine :=
  match lz_underlying w with
  | NullStore =>
      let '(r, m) := perform m (OpOpen name) in
      (r, mk_LazyFlushable (lz_modified w) (lz_sizeEstimation w) (match r with Ok _ => RealStore | _ => NilStore end), m)
  | _ => (Ok tt, w, m)
  end.

Definition Lazy_Flush (name : string) (w : LazyFlushable) (m : machine) : outcome unit * LazyFlushable * machine :=
  let '(r, w, m) := initUnderlyingDb name w m in
  match r with
  | Ok _ =>
      match lz_underlying w with
      | RealStore =>
          let '(err, f) := Flushable_Flush (mk_Flushable (mk_located name m) (lz_modified w) (lz_sizeEstimation w)) in
          (match err with None => Ok tt | Some e => Err e end,
           mk_LazyFlushable (fl_modified f) (fl_sizeEstimation f) RealStore, lo_machine (fl_underlying f))
      | _ => (match lz_modified w with None => Err errClosed | Some _ => Panic "nil underlying" end, w, m)
      end
  | _ => (r, w, m)
  end.

(** [RealClose]; closing the underlying store does not change the disk. *)
Definition RealClose (w : LazyFlushable) : outcome unit * LazyFlushable :=
  match lz_modified w with
  | None => (Err errClosed, w)
  | Some _ =>
      (match lz_underlying w with NilStore => Panic "nil underlying" | _ => Ok tt end,
       mk_LazyFlushable None 0 (lz_underlying w))
  end.

(** ** synced_pool.go *)

Definition DirtyPrefix : Z := 222.
Definition CleanPrefix : Z := 0.

Record SyncedPool := mk_SyncedPool {
  sp_wrappers : gmap string LazyFlushable;
  sp_queuedDrops : gset string
}.

Definition set_wrapper (p : SyncedPool) (name : string) (w : LazyFlushable) : SyncedPool :=
  mk_SyncedPool (<[name := w]> (sp_wrappers p)) (sp_queuedDrops p).

Definition NewSyncedPool : SyncedPool := mk_SyncedPool ∅ ∅.

(** What [Drop] of a database of the pool does; [Close] of one does nothing. *)
Definition enqueueDropDb (p : SyncedPool) (name : string) : SyncedPool :=
  mk_SyncedPool (sp_wrappers p) ({[name]} ∪ sp_queuedDrops p).

Definition getDB (p : SyncedPool) (name : string) : LazyFlushable * SyncedPool :=
  match sp_wrappers p !! name with
  | Some w => (w, p)
  | None => (NewLazy, set_wrapper p name NewLazy)
  end.

Abbreviation pool_result := (outcome unit * SyncedPool * machine)%type.

Definition GetUnderlying (name : string) (p : SyncedPool) (m : machine) : pool_result :=
  let '(w, p) := getDB p name in
  let '(r, w, m) := initUnderlyingDb name w m in
  (r, set_wrapper p name w, m).

(** A loop, over names for instance, that stops at the first error. *)
Fixpoint for_names {A P} (body : A -> P -> machine -> outcome unit * P * machine)
    (names : list A) (p : P) (m : machine) : outcome unit * P * machine :=
  match names with
  | [] => (Ok tt, p, m)
  | n :: names =>
      let '(r, p, m) := body n p m in
      match r with
      | Ok _ => for_names body names p m
      | _ => (r, p, m)
      end
  end.

Definition drop_one (n : string) (p : SyncedPool) (m : machine) : pool_result :=
  let w := sp_wrappers p !! n in
  let p := mk_SyncedPool (delete n (sp_wrappers p)) (sp_queuedDrops p) in
  match w with
  | None => (Ok tt, p, m)
  | Some w =>
      let '(r, w) := RealClose w in
      match r, lz_underlying w with
      | Ok _, RealStore => let '(_, m) := perform m (OpDrop n) in (Ok tt, p, m)
      | _, _ => (r, p, m)
      end
  end.

(** [InitUnderlyingDb], then one write to the store it returned. *)
Definition mark_one (key : list Z) (prefix : Z) (id : list Z) (n : string) (p : SyncedPool) (m : machine) : pool_result :=
  match sp_wrappers p !! n with
  | None => (Ok tt, p, m)
  | Some w =>
      let '(r, w, m) := initUnderlyingDb n w m in
      let p := set_wrapper p n w in
      match r, lz_underlying w with
      | Ok _, RealStore => let '(r, m) := perform m (OpWrite n [(key, Some (prefix :: id))]) in (r, p, m)
      | Ok _, _ => (Panic "nil underlying", p, m)
      | _, _ => (r, p, m)
      end
  end.

Definition flush_one (n : string) (p : SyncedPool) (m : machine) : pool_result :=
  match sp_wrappers p !! n with
  | None => (Ok tt, p, m)
  | Some w => let '(r, w, m) := Lazy_Flush n w m in (r, set_wrapper p n w, m)
  end.

Definition and_then (r : pool_result) (k : SyncedPool -> machine -> pool_result) : pool_result :=
  let '(e, p, m) := r in match e with Ok _ => k p m | _ => r end.

(** [drops], [o1], [o2] and [o3] are the orders of the four loops. *)
Definition SyncedPool_flush (key id : list Z) (drops o1 o2 o3 : list string) (p : SyncedPool) (m : machine) : pool_result :=
  and_then (for_names drop_one drops (mk_SyncedPool (sp_wrappers p) ∅) m) (fun p m =>
  and_then (for_names (mark_one key DirtyPrefix id) o1 p m) (fun p m =>
  and_then (for_names flush_one o2 p m) (fun p m =>
  for_names (mark_one key CleanPrefix id) o3 p m))).

Definition pool_NotFlushedSizeEst (p : SyncedPool) : Z :=
  wsum (fun kw => lz_sizeEstimation kw.2) (map_to_list (sp_wrappers p)).

Definition pool_Names (p : SyncedPool) : list string := (map_to_list (sp_wrappers p)).*1.

(** The loop of [CheckDBsSynced]; a nil store is dereferenced. *)
Fixpoint check_loop (key : list Z) (dbs : list (option kv)) (flushID : option (list Z)) (nonInit : bool) :
    outcome (option (list Z) * bool) :=
  match dbs with
  | [] => Ok (flushID, nonInit)
  | None :: _ => Panic "nil store"
  | Some db :: dbs =>
      match db !! key with
      | None => check_loop key dbs flushID true
      | Some mark =>
          if HasPrefix mark [DirtyPrefix] then Err "dirty state"
          else
            let flushID := match flushID with None => mark | Some id => id end in
            if bool_decide (mark = flushID) then check_loop key dbs (Some flushID) nonInit
            else Err "not synced"
      end
  end.

Definition CheckDBsSynced (dbs : list (option kv)) (key : list Z) (flushID : option (list Z)) : outcome (option (list Z)) :=
  let* ' (flushID, nonInit) := check_loop key dbs flushID false in
  match flushID with
  | Some _ => if (nonInit : bool) then Err "non-initialized DB state" else Ok flushID
  | None => Ok flushID
  end.

(** The databases are registered and opened, then all are compared, in the order [o]. *)
Definition Initialize (key : list Z) (flushID : option (list Z)) (dbNames o : list string) (p : SyncedPool) (m : machine) :
    outcome (option (list Z)) * SyncedPool * machine :=
  let '(r, p, m) := and_then (for_names GetUnderlying dbNames p m) (for_names GetUnderlying o) in
  match r with
  | Ok _ =>
      (CheckDBsSynced ((fun n => match lz_underlying <$> sp_wrappers p !! n with
                                 | Some NilStore => None
                                 | _ => Some (db_content (ma_disk m) n)
                                 end) <$> o) key flushID, p, m)
  | Err e => (Err e, p, m)
  | Panic e => (Panic e, p, m)
  end.

Definition close_one (n : string) (p : SyncedPool) (m : machine) : pool_result :=
  match sp_wrappers p !! n with
  | None => (Ok tt, p, m)
  | Some w => let '(r, w) := RealClose w in (r, set_wrapper p n w, m)
  end.

Definition SyncedPool_Close (o : list string) (p : SyncedPool) (m : machine) : pool_result :=
  and_then (for_names close_one o p m) (fun _ m => (Ok tt, NewSyncedPool, m)).

End pool.

Local Abbreviation pool_result := (outcome unit * SyncedPool * machine)%type.

(** * Every disk that a crash may leave *)

Lemma apply_ops_app d l1 l2 : apply_ops d (l1 ++ l2) = apply_ops (apply_ops d l1) l2.
Proof. apply foldl_app. Qed.

Lemma content_open d n n' : db_content (apply_op d (OpOpen n)) n' = db_content d n'.
Proof.
  simpl. destruct (d !! n) eqn:E; [done|]. unfold db_content. rewrite lookup_insert.
  case_decide; [|done]. subst. by rewrite E.
Qed.

Lemma content_write d n ws n' : db_content (apply_op d (OpWrite n ws)) n' = if decide (n = n') then apply_writes (db_content d n) ws else db_content d n'.
Proof. simpl. unfold db_content at 1. rewrite lookup_insert. by case_decide. Qed.

Lemma content_drop d n n' : n <> n' -> db_content (apply_op d (OpDrop n)) n' = db_content d n'.
Proof. intros Hne. simpl. unfold db_content. by rewrite lookup_delete_ne. Qed.

Lemma prefix_app_or {A} (pre l1 l2 : list A) :
  pre `prefix_of` l1 ++ l2 -> pre `prefix_of` l1 \/ exists k, pre = l1 ++ k /\ k `prefix_of` l2.
Proof.
  intros [rest Heq]. symmetry in Heq. apply app_eq_inv in Heq as [(k & -> & ->)|(k & -> & ->)]; [right|left].
  - exists k. split; [done|]. by eexists.
  - by eexists.
Qed.

(** [Q] holds of all the disks from [m] to [m']. *)
Definition along (Q : disk -> Prop) (m m' : machine) : Prop :=
  exists ext, ma_start m' = ma_start m /\ ma_trace m' = ma_trace m ++ ext /\
    forall pre, pre `prefix_of` ext -> Q (apply_ops (ma_disk m) pre).

Lemma along_refl Q m : Q (ma_disk m) -> along Q m m.
Proof.
  intros HQ. exists []. split; [done|]. split; [by rewrite app_nil_r|]. intros pre ->%prefix_nil_inv. done.
Qed.

Lemma along_disk (m m' : machine) ext :
  ma_start m' = ma_start m -> ma_trace m' = ma_trace m ++ ext -> ma_disk m' = apply_ops (ma_disk m) ext.
Proof. intros Hs Ht. unfold ma_disk. by rewrite Hs, Ht, apply_ops_app. Qed.

Lemma along_end Q m m' : along Q m m' -> Q (ma_disk m').
Proof. intros (ext & Hs & Ht & HQ). rewrite (along_disk m m' ext Hs Ht). by apply HQ. Qed.

Lemma along_trans Q m m1 m2 : along Q m m1 -> along Q m1 m2 -> along Q m m2.
Proof.
  intros (e1 & Hs1 & Ht1 & H1) (e2 & Hs2 & Ht2 & H2). exists (e1 ++ e2). split; [congruence|].
  split; [by rewrite Ht2, Ht1, app_assoc|]. intros pre Hpre.
  apply prefix_app_or in Hpre as [?|(k & -> & Hk)]; [by apply H1|].
  rewrite apply_ops_app, <- (along_disk m m1 e1 Hs1 Ht1). by apply H2.
Qed.

Lemma along_mono (Q1 Q2 : disk -> Prop) m m' : (forall d, Q1 d -> Q2 d) -> along Q1 m m' -> along Q2 m m'.
Proof. intros HQ (ext & ? & ? & ?). exists ext. eauto. Qed.

Lemma along_perform io Q m op r m' :
  perform io m op = (r, m') -> Q (ma_disk m) -> (r = Ok tt -> Q (apply_op (ma_disk m) op)) ->
  along Q m m' /\ (r = Ok tt -> ma_disk m' = apply_op (ma_disk m) op).
Proof.
  unfold perform. destruct (io _ _); intros [= <- <-] H0 H1; [split; [by apply along_refl|done]|].
  assert (ma_disk (mk_machine (ma_start m) (ma_trace m ++ [op])) = apply_op (ma_disk m) op) as Hd.
  { unfold ma_disk. simpl. by rewrite apply_ops_app. }
  split; [|done]. exists [op]. split; [done|]. split; [done|]. intros pre Hpre.
  destruct pre as [|x pre]; [done|]. apply prefix_cons_inv_2 in Hpre as Hp'. apply prefix_nil_inv in Hp' as ->.
  apply prefix_cons_inv_1 in Hpre as ->. by apply H1.
Qed.

(** A loop whose invariant [I] is on the items done. *)
Lemma for_names_along {A P} Q (I : list A -> P -> machine -> Prop) body names p m r p' m' :
  (forall pre p m, I pre p m -> Q (ma_disk m)) ->
  (forall pre n p m r p' m', pre ++ [n] `prefix_of` names -> I pre p m -> body n p m = (r, p', m') ->
     along Q m m' /\ (r = Ok tt -> I (pre ++ [n]) p' m')) ->
  I [] p m -> for_names body names p m = (r, p', m') ->
  along Q m m' /\ (r = Ok tt -> I names p' m').
Proof.
  intros HQ Hstep. assert (forall suf pre p m, names = pre ++ suf -> I pre p m -> for_names body suf p m = (r, p', m') ->
    along Q m m' /\ (r = Ok tt -> I names p' m')) as Hgen; [|by apply (Hgen names [])].
  induction suf as [|n suf IH]; intros pre p0 m0 Hn HI Hf; cbn [for_names] in Hf.
  - injection Hf as <- <- <-. split; [apply along_refl; by eapply HQ|]. intros _. by rewrite Hn, app_nil_r.
  - destruct (body n p0 m0) as [[r1 p1] m1] eqn:Hb.
    assert (pre ++ [n] `prefix_of` names) as Hpre by (exists suf; by rewrite Hn, <- app_assoc).
    destruct (Hstep pre n p0 m0 r1 p1 m1 Hpre HI Hb) as [Hal HI1]. destruct r1 as [[]|e|e].
    + destruct (IH (pre ++ [n]) p1 m1) as [Hal2 HI2]; [by rewrite Hn, <- app_assoc|by apply HI1|done|].
      split; [by eapply along_trans|done].
    + by injection Hf as <- <- <-.
    + by injection Hf as <- <- <-.
Qed.

(** What a prefix of an order of [W] says of its last name. *)
Lemma order_fresh {W} (o pre : list string) n : o ≡ₚ W -> NoDup W -> pre ++ [n] `prefix_of` o -> n ∈ W /\ n ∉ pre.
Proof.
  intros Ho Hnd [rest Hpre]. rewrite <- Ho in Hnd |- *. rewrite Hpre in Hnd |- *. split; [set_solver|].
  rewrite !NoDup_app in Hnd. intros Hin. destruct Hnd as ((_ & Hd & _) & _). by apply (Hd n Hin); left.
Qed.


Section crash.
Context `{!TreeOps} `{!TreeLaws} (io : list disk_op -> disk_op -> option string).
#[local] Existing Instance located_KvReader.
#[local] Existing Instance located_KvWriter.

#[local] Instance located_KvReaderLaws : KvReaderLaws located.
Proof. by split; intros s m * [= <-]. Qed.

(** One database moves through the writes of [items], the others stay. *)
Definition one_moves (n : string) (d0 : disk) (items : list write) (d : disk) : Prop :=
  (forall n', n' <> n -> db_content d n' = db_content d0 n') /\
  exists ws, ws `prefix_of` items /\ db_content d n = apply_writes (db_content d0 n) ws.

Lemma lo_write_along n d0 items l ws done r :
  let l' := (kv_Write (KvWriter := located_KvWriter io) l ws).2 in
  lo_name l = n -> one_moves n d0 items (ma_disk (lo_machine l)) ->
  db_content (ma_disk (lo_machine l)) n = apply_writes (db_content d0 n) done ->
  done ++ ws `prefix_of` items -> (kv_Write (KvWriter := located_KvWriter io) l ws).1 = r ->
  lo_name l' = n /\ along (one_moves n d0 items) (lo_machine l) (lo_machine l') /\
  (r = None -> db_content (ma_disk (lo_machine l')) n = apply_writes (db_content d0 n) (done ++ ws)).
Proof.
  intros l' Hn Hm Hd Hpre Hr. subst l' r n. simpl. unfold lo_perform.
  destruct (perform io (lo_machine l) (OpWrite (lo_name l) ws)) as [r m] eqn:Hp. cbn [fst snd lo_name lo_machine].
  assert (db_content (apply_op (ma_disk (lo_machine l)) (OpWrite (lo_name l) ws)) (lo_name l) =
    apply_writes (db_content d0 (lo_name l)) (done ++ ws)) as Hnew.
  { by rewrite content_write, decide_True, Hd, apply_writes_app. }
  destruct (along_perform io (one_moves (lo_name l) d0 items) _ _ _ _ Hp Hm) as [Hal Hend].
  - intros _. split; [|by exists (done ++ ws)]. intros n' Hne. rewrite content_write, decide_False by done. by apply Hm.
  - split; [done|]. split; [done|]. destruct r as [[]|e|e]; try done. intros _. by rewrite Hend.
Qed.

Lemma flush_loop_along n d0 all items : forall l batch done,
  lo_name l = n -> one_moves n d0 all (ma_disk (lo_machine l)) ->
  db_content (ma_disk (lo_machine l)) n = apply_writes (db_content d0 n) done -> done ++ batch ++ items = all ->
  let res := flush_loop (KvWriter0 := located_KvWriter io) l batch items in
  along (one_moves n d0 all) (lo_machine l) (lo_machine res.2) /\
  (res.1 = None -> db_content (ma_disk (lo_machine res.2)) n = apply_writes (db_content d0 n) all).
Proof.
  induction items as [|op items IH]; intros l batch done Hn Hm Hd Hall; cbn [flush_loop].
  - rewrite app_nil_r in Hall. assert (done ++ batch `prefix_of` all) as Hpre by (by rewrite Hall).
    destruct (lo_write_along n d0 all l batch done _ Hn Hm Hd Hpre eq_refl) as (_ & Hal & Hend).
    rewrite Hall in Hend. done.
  - assert (done ++ (batch ++ [op]) ++ items = all) as Hall' by (by rewrite <- Hall, <- app_assoc).
    destruct (_ <? _); [|by apply (IH l (batch ++ [op]) done)].
    assert (done ++ batch ++ [op] `prefix_of` all) as Hpre by (exists items; by rewrite <- Hall', !app_assoc).
    destruct (lo_write_along n d0 all l (batch ++ [op]) done _ Hn Hm Hd Hpre eq_refl) as (Hn1 & Hal & Hend).
    destruct (kv_Write l (batch ++ [op])) as [[e|] l1]; cbn [fst snd] in *; [done|]. specialize (Hend eq_refl).
    destruct (IH l1 [] (done ++ batch ++ [op]) Hn1 (along_end _ _ _ Hal) Hend) as [Hal2 Hend2];
      [rewrite <- Hall'; cbn [app]; by rewrite !app_assoc|].
    split; [by eapply along_trans|done].
Qed.

(** ** The steps of the loops *)

Definition same_content (d0 d : disk) : Prop := forall n, db_content d n = db_content d0 n.

Lemma init_along n w m r w' m' : initUnderlyingDb io n w m = (r, w', m') ->
  along (same_content (ma_disk m)) m m' /\ lz_modified w' = lz_modified w.
Proof.
  unfold initUnderlyingDb. destruct (lz_underlying w).
  - destruct (perform io m (OpOpen n)) as [r1 m1] eqn:Hp. intros [= <- <- <-]. split; [|done].
    apply (along_perform io (same_content (ma_disk m)) _ _ _ _ Hp); [done|]. intros _ n'. apply content_open.
  - intros [= <- <- <-]. split; [by apply along_refl|done].
  - intros [= <- <- <-]. split; [by apply along_refl|done].
Qed.

Definition mods (p : SyncedPool) (n : string) : option (option tree) := lz_modified <$> sp_wrappers p !! n.

Lemma mods_set p n w n' : mods (set_wrapper p n w) n' = if decide (n = n') then Some (lz_modified w) else mods p n'.
Proof. unfold mods, set_wrapper. simpl. rewrite lookup_insert. by case_decide. Qed.

(** A mark: until it is written the contents stay. *)
Definition marks_one (key : list Z) (prefix : Z) (id : list Z) (n : string) (d0 d : disk) : Prop :=
  forall n', db_content d n' = if decide (n = n') then <[key := prefix :: id]> (db_content d0 n) else db_content d0 n'.

Lemma marks_one_write key prefix id n d0 d :
  same_content d0 d -> marks_one key prefix id n d0 (apply_op d (OpWrite n [(key, Some (prefix :: id))])).
Proof. intros Hs n'. rewrite content_write. case_decide; [|apply Hs]. by rewrite (Hs n). Qed.

Lemma mark_one_along key prefix id n p m r p' m' :
  mark_one io key prefix id n p m = (r, p', m') -> is_Some (mods p n) ->
  along (fun d => same_content (ma_disk m) d \/ marks_one key prefix id n (ma_disk m) d) m m' /\
  (forall n', mods p' n' = mods p n') /\ (r = Ok tt -> marks_one key prefix id n (ma_disk m) (ma_disk m')).
Proof.
  unfold mark_one. intros Hm [mw Hw]. unfold mods in Hw. apply fmap_Some in Hw as (w & Hw & ->). rewrite Hw in Hm.
  destruct (initUnderlyingDb io n w m) as [[r1 w1] m1] eqn:Hi. destruct (init_along _ _ _ _ _ _ Hi) as [Hal Hmod].
  assert (forall n', mods (set_wrapper p n w1) n' = mods p n') as Hmods.
  { intros n'. rewrite mods_set. case_decide as Hn; [|done]. subst. unfold mods. by rewrite Hw, Hmod. }
  assert (along (fun d => same_content (ma_disk m) d \/ marks_one key prefix id n (ma_disk m) d) m m1) as Hal1
    by (eapply along_mono; [|exact Hal]; by left).
  destruct r1 as [[]|e|e], (lz_underlying w1); try (by injection Hm as <- <- <-).
  destruct (perform io m1 _) as [r2 m2] eqn:Hp. injection Hm as <- <- <-.
  pose proof (marks_one_write key prefix id n _ _ (along_end _ _ _ Hal)) as Hw2.
  destruct (along_perform io (fun d => same_content (ma_disk m) d \/ marks_one key prefix id n (ma_disk m) d) _ _ _ _ Hp)
    as [Hal2 Hend]; [left; exact (along_end _ _ _ Hal)|by right|].
  split; [by eapply along_trans|]. split; [done|]. intros Hr. by rewrite (Hend Hr).
Qed.

Lemma flush_one_along n p m r p' m' t :
  flush_one io n p m = (r, p', m') -> mods p n = Some (Some t) -> tree_sorted t ->
  along (one_moves n (ma_disk m) (inorder t)) m m' /\
  (forall n', n' <> n -> mods p' n' = mods p n') /\
  (r = Ok tt -> db_content (ma_disk m') n = overlay (tree_map t) (db_content (ma_disk m) n) /\ mods p' n = Some (Some Leaf)).
Proof.
  unfold flush_one. intros Hf Hmn Hs. pose proof Hmn as Hw. unfold mods in Hw. apply fmap_Some in Hw as (w & Hw & Hwt). rewrite Hw in Hf.
  destruct (Lazy_Flush io n w m) as [[r1 w1] m1] eqn:Hl. injection Hf as <- <- <-.
  assert (forall n', n' <> n -> mods (set_wrapper p n w1) n' = mods p n') as Hmods
    by (intros n' Hne; rewrite mods_set; by rewrite decide_False).
  unfold Lazy_Flush in Hl. destruct (initUnderlyingDb io n w m) as [[r2 w2] m2] eqn:Hi.
  destruct (init_along _ _ _ _ _ _ Hi) as [Hal Hmod].
  assert (forall d, same_content (ma_disk m) d -> one_moves n (ma_disk m) (inorder t) d) as Hone.
  { intros d Hd. split; [intros n' _; apply Hd|]. exists []. split; [apply prefix_nil|]. apply Hd. }
  pose proof (along_mono _ _ _ _ Hone Hal) as Hal1. rewrite Hmod, <- Hwt in Hl.
  destruct r2 as [[]|e|e]; [|by injection Hl as <- <- <-..].
  destruct (lz_underlying w2); [by injection Hl as <- <- <-..|].
  unfold Flushable_Flush in Hl. cbn [fl_modified fl_underlying fl_sizeEstimation] in Hl.
  destruct (flush_loop_along n (ma_disk m) (inorder t) (inorder t) (mk_located n m2) [] [] eq_refl (along_end _ _ _ Hal1))
    as [Hal2 Hend]; [by rewrite (along_end _ _ _ Hal)|done|].
  cbn [lo_machine] in Hal2. destruct (flush_loop _ [] (inorder t)) as [[e|] l]; cbn [fst snd] in *;
    injection Hl as <- <- <-; (split; [by eapply along_trans|]); (split; [done|]); [done|].
  intros _. split; [|by rewrite mods_set, decide_True]. cbn. rewrite Hend by done. by apply overlay_written_all.
Qed.

Lemma flush_one_closed n p m r p' m' :
  flush_one io n p m = (r, p', m') -> mods p n = Some None -> along (same_content (ma_disk m)) m m' /\ r <> Ok tt.
Proof.
  unfold flush_one. intros Hf Hmn. unfold mods in Hmn. apply fmap_Some in Hmn as (w & Hw & Hwt). rewrite Hw in Hf.
  destruct (Lazy_Flush io n w m) as [[r1 w1] m1] eqn:Hl. injection Hf as <- <- <-. unfold Lazy_Flush in Hl.
  destruct (initUnderlyingDb io n w m) as [[r2 w2] m2] eqn:Hi. destruct (init_along _ _ _ _ _ _ Hi) as [Hal Hmod].
  rewrite Hmod, <- Hwt in Hl. destruct r2 as [[]|e|e]; [|by injection Hl as <- <- <-..].
  destruct (lz_underlying w2); try (by injection Hl as <- <- <-).
Qed.

Lemma drop_one_along n p m r p' m' : drop_one io n p m = (r, p', m') ->
  along (fun d => forall n', n' <> n -> db_content d n' = db_content (ma_disk m) n') m m' /\
  (forall n', n' <> n -> mods p' n' = mods p n').
Proof.
  unfold drop_one. intros Hd. set (p1 := mk_SyncedPool (delete n (sp_wrappers p)) (sp_queuedDrops p)) in *.
  assert (forall n', n' <> n -> mods p1 n' = mods p n') as Hmods.
  { intros n' Hne. unfold mods. simpl. by rewrite lookup_delete_ne. }
  assert (along (fun d => forall n', n' <> n -> db_content d n' = db_content (ma_disk m) n') m m) as Hrefl by (by apply along_refl).
  destruct (sp_wrappers p !! n) as [w|]; [|by injection Hd as <- <- <-].
  destruct (RealClose w) as [[[]|e|e] w1]; [|by injection Hd as <- <- <-..].
  destruct (lz_underlying w1); try (by injection Hd as <- <- <-).
  destruct (perform io m (OpDrop n)) as [r2 m2] eqn:Hp. injection Hd as <- <- <-. split; [|done].
  apply (along_perform io _ _ _ _ _ Hp); [done|]. intros _ n' Hne. by apply content_drop.
Qed.

(** ** The phases of a flush *)

Section phases.
Context (key id : list Z) (d0 : disk) (p0 : SyncedPool) (W : list string).

Definition pool_content (n : string) : kv :=
  match mods p0 n with
  | Some (Some t) => overlay (tree_map t) (db_content d0 n)
  | _ => db_content d0 n
  end.

(** Nothing flushed, flushed in part and marked so, all flushed. *)
Definition is_old (d : disk) : Prop := forall n, n ∈ W -> db_content d n = db_content d0 n.
Definition is_dirty (d : disk) : Prop := exists n, n ∈ W /\ db_content d n !! key = Some (DirtyPrefix :: id).
Definition is_new (d : disk) : Prop := forall n, n ∈ W -> db_content d n = <[key := CleanPrefix :: id]> (pool_content n).
Definition recoverable (d : disk) : Prop := is_old d \/ is_dirty d \/ is_new d.

Context (Hpresent : forall n, n ∈ W -> is_Some (mods p0 n)).
Context (Htrees : forall n t, n ∈ W -> mods p0 n = Some (Some t) -> tree_sorted t /\ tree_map t !! key = None).

Definition dropped (pre : list string) (p : SyncedPool) (m : machine) : Prop :=
  is_old (ma_disk m) /\ forall n, n ∈ W -> mods p n = mods p0 n.

Definition dirtied (pre : list string) (p : SyncedPool) (m : machine) : Prop :=
  (forall n, n ∈ W -> db_content (ma_disk m) n =
     if decide (n ∈ pre) then <[key := DirtyPrefix :: id]> (db_content d0 n) else db_content d0 n) /\
  (forall n, n ∈ W -> mods p n = mods p0 n) /\ (forall n, n ∈ pre -> n ∈ W).

Definition flushed (pre : list string) (p : SyncedPool) (m : machine) : Prop :=
  (forall n, n ∈ W -> db_content (ma_disk m) n =
     <[key := DirtyPrefix :: id]> (if decide (n ∈ pre) then pool_content n else db_content d0 n)) /\
  (forall n, n ∈ W -> mods p n = if decide (n ∈ pre) then Some (Some Leaf) else mods p0 n).

Definition cleaned (pre : list string) (p : SyncedPool) (m : machine) : Prop :=
  (forall n, n ∈ W -> db_content (ma_disk m) n =
     <[key := (if decide (n ∈ pre) then CleanPrefix else DirtyPrefix) :: id]> (pool_content n)) /\
  (forall n, n ∈ W -> mods p n = Some (Some Leaf)).

Lemma dropped_step drops pre n p m r p' m' : (forall x, x ∈ drops -> x ∉ W) -> pre ++ [n] `prefix_of` drops ->
  dropped pre p m -> drop_one io n p m = (r, p', m') -> along is_old m m' /\ (r = Ok tt -> dropped (pre ++ [n]) p' m').
Proof.
  intros Hout [rest Hdr] [Hold Hm] Hd. destruct (drop_one_along n p m r p' m' Hd) as [Hal Hmods].
  assert (forall x, x ∈ W -> x <> n) as Hne by (intros x Hx ->; apply (Hout n); [rewrite Hdr; set_solver|done]).
  assert (along is_old m m') as Hal'.
  { eapply along_mono; [|exact Hal]. intros d Hd' x Hx. rewrite Hd' by auto. by apply Hold. }
  split; [done|]. intros _. split; [by apply (along_end _ _ _ Hal')|]. intros x Hx. rewrite Hmods by auto. by apply Hm.
Qed.

Lemma dirtied_recoverable pre p m : dirtied pre p m -> recoverable (ma_disk m).
Proof.
  intros (Hd & _ & Hin). destruct pre as [|n pre]; [left; intros n Hn; by rewrite (Hd n Hn)|]. right. left. exists n.
  assert (n ∈ W) as Hn by (apply Hin; left). split; [done|]. rewrite (Hd n Hn), decide_True by left. apply lookup_insert_eq.
Qed.

Lemma dirtied_step pre n p m r p' m' : n ∈ W -> n ∉ pre -> dirtied pre p m ->
  mark_one io key DirtyPrefix id n p m = (r, p', m') ->
  along recoverable m m' /\ (r = Ok tt -> dirtied (pre ++ [n]) p' m').
Proof.
  intros Hn Hnp Hinv Hb. pose proof Hinv as (Hd & Hm & Hin).
  destruct (mark_one_along _ _ _ _ _ _ _ _ _ Hb) as (Hal & Hmods & Hend); [rewrite Hm by done; by apply Hpresent|]. split.
  - eapply along_mono; [|exact Hal]. intros d [Hs|Hs].
    + destruct (dirtied_recoverable _ _ _ Hinv) as [Hq|[(x & Hx & Hq)|Hq]]; [left|right; left; exists x|right; right];
        unfold is_old, is_new in *; intros; try split; rewrite ?Hs; auto.
    + right. left. exists n. split; [done|]. rewrite Hs, decide_True by done. apply lookup_insert_eq.
  - intros Hr. specialize (Hend Hr). split; [|split].
    + intros x Hx. rewrite Hend. case_decide as Hxn; [subst x|].
      * rewrite decide_True by set_solver. by rewrite (Hd n Hn), decide_False.
      * rewrite (Hd x Hx). assert (x ∈ pre ++ [n] <-> x ∈ pre) as Hiff by set_solver. by rewrite (decide_ext _ _ _ _ Hiff).
    + intros x Hx. by rewrite Hmods, Hm.
    + intros x [Hx| ->%list_elem_of_singleton]%elem_of_app; auto.
Qed.

Lemma flushed_recoverable pre p m : flushed pre p m -> recoverable (ma_disk m).
Proof.
  intros [Hd _]. destruct W as [|n W'] eqn:HW; [left; unfold is_old; rewrite HW; by intros n ?%not_elem_of_nil|].
  right. left. exists n. rewrite HW. split; [left|]. rewrite Hd by left. apply lookup_insert_eq.
Qed.

(** A batch that does not write the mark leaves it. *)
Lemma one_moves_mark n d1 t d : one_moves n d1 (inorder t) d -> tree_sorted t -> tree_map t !! key = None ->
  db_content d n !! key = db_content d1 n !! key.
Proof.
  intros (_ & ws & [rest Hpre] & ->) Hs Hk. pose proof (strict_NoDup _ Hs) as Hnd. rewrite Hpre, fmap_app, NoDup_app in Hnd.
  rewrite apply_writes_lookup by apply Hnd. destruct (list_to_map ws !! key) as [v|] eqn:E; [|done].
  apply elem_of_list_to_map_2 in E. assert ((key, v) ∈ inorder t) as Hin by (rewrite Hpre; set_solver).
  apply (strict_lookup _ _ _ Hs) in Hin. unfold tree_map in Hk. congruence.
Qed.

Lemma flushed_step pre n p m r p' m' : n ∈ W -> n ∉ pre -> flushed pre p m -> flush_one io n p m = (r, p', m') ->
  along recoverable m m' /\ (r = Ok tt -> flushed (pre ++ [n]) p' m').
Proof.
  intros Hn Hnp [Hd Hm] Hb. assert (mods p n = mods p0 n) as Hmn by (rewrite Hm, decide_False by done; done).
  assert (db_content (ma_disk m) n = <[key := DirtyPrefix :: id]> (db_content d0 n)) as Hdn by (rewrite Hd, decide_False by done; done).
  destruct (Hpresent n Hn) as [[t|] Ht].
  - destruct (Htrees n t Hn Ht) as [Hs Hk]. rewrite Ht in Hmn.
    destruct (flush_one_along _ _ _ _ _ _ _ Hb Hmn Hs) as (Hal & Hmods & Hend). split.
    + eapply along_mono; [|exact Hal]. intros d Hone. right. left. exists n. split; [done|].
      rewrite (one_moves_mark n _ t d Hone Hs Hk), Hdn. apply lookup_insert_eq.
    + intros Hr. destruct (Hend Hr) as [Hc Hl]. destruct (along_end _ _ _ Hal) as [Hoth _]. split.
      * intros x Hx. destruct (decide (x = n)) as [->|Hne].
        -- rewrite decide_True by set_solver. rewrite Hc, Hdn. unfold pool_content. rewrite Ht. apply map_eq. intros k.
           rewrite overlay_lookup. destruct (decide (k = key)) as [->|Hkk]; [by rewrite Hk, !lookup_insert_eq|].
           by rewrite !lookup_insert_ne, overlay_lookup by done.
        -- rewrite Hoth, (Hd x Hx) by done. assert (x ∈ pre ++ [n] <-> x ∈ pre) as Hiff by set_solver. by rewrite (decide_ext _ _ _ _ Hiff).
      * intros x Hx. destruct (decide (x = n)) as [->|Hne]; [rewrite decide_True by set_solver; done|].
        rewrite Hmods, Hm by done. assert (x ∈ pre ++ [n] <-> x ∈ pre) as Hiff by set_solver. by rewrite (decide_ext _ _ _ _ Hiff).
  - rewrite Ht in Hmn. destruct (flush_one_closed _ _ _ _ _ _ Hb Hmn) as [Hal Hr]. split; [|done].
    eapply along_mono; [|exact Hal]. intros d Hs. right. left. exists n. split; [done|]. rewrite Hs, Hdn. apply lookup_insert_eq.
Qed.

Lemma cleaned_recoverable pre p m : cleaned pre p m -> recoverable (ma_disk m).
Proof.
  intros [Hd _]. destruct (decide (Forall (fun n => n ∈ pre) W)) as [Hall|Hnot].
  - right. right. intros n Hn. by rewrite (Hd n Hn), decide_True by (by apply (proj1 (Forall_forall _ _) Hall)).
  - right. left. apply not_Forall_Exists in Hnot; [|apply _]. apply Exists_exists in Hnot as (n & Hn & Hnp).
    exists n. split; [done|]. rewrite (Hd n Hn), decide_False by done. apply lookup_insert_eq.
Qed.

Lemma cleaned_step pre n p m r p' m' : n ∈ W -> n ∉ pre -> cleaned pre p m ->
  mark_one io key CleanPrefix id n p m = (r, p', m') ->
  along recoverable m m' /\ (r = Ok tt -> cleaned (pre ++ [n]) p' m').
Proof.
  intros Hn Hnp Hinv Hb. pose proof Hinv as [Hd Hm].
  destruct (mark_one_along _ _ _ _ _ _ _ _ _ Hb) as (Hal & Hmods & Hend); [rewrite Hm by done; by eexists|].
  assert (forall d p1, marks_one key CleanPrefix id n (ma_disk m) d -> (forall x, mods p1 x = mods p x) ->
    forall m1, ma_disk m1 = d -> cleaned (pre ++ [n]) p1 m1) as Hnew.
  { intros d p1 Hmark Hp1 m1 <-. split; [|intros x Hx; by rewrite Hp1, Hm]. intros x Hx. rewrite Hmark. case_decide as Hxn; [subst x|].
    - rewrite (decide_True (P := n ∈ pre ++ [n])) by set_solver. by rewrite (Hd n Hn), insert_insert_eq.
    - rewrite (Hd x Hx). assert (x ∈ pre ++ [n] <-> x ∈ pre) as Hiff by set_solver. by rewrite (decide_ext _ _ _ _ Hiff). }
  split; [|intros Hr; by apply (Hnew _ p' (Hend Hr))].
  eapply along_mono; [|exact Hal]. intros d [Hs|Hs].
  - destruct (cleaned_recoverable _ _ _ Hinv) as [Hq|[(x & Hx & Hq)|Hq]]; [left|right; left; exists x|right; right];
      unfold is_old, is_new in *; intros; try split; rewrite ?Hs; auto.
  - eapply (cleaned_recoverable (pre ++ [n]) p (mk_machine d [])). by apply (Hnew d p Hs).
Qed.

(** The order of a loop over the wrappers. *)
Lemma and_then_inv (r : pool_result) k res : and_then r k = res ->
  (exists p m, r = (Ok tt, p, m) /\ k p m = res) \/ (exists e p m, r = (e, p, m) /\ e <> Ok tt /\ res = r).
Proof.
  destruct r as [[[[]|e|e] p] m]; simpl; intros <-; [left; by exists p, m|right; by do 3 eexists..].
Qed.

Lemma flush_along drops o1 o2 o3 m r p' m' :
  NoDup W -> (forall n, n ∈ drops -> n ∉ W) -> o1 ≡ₚ W -> o2 ≡ₚ W -> o3 ≡ₚ W -> ma_disk m = d0 ->
  SyncedPool_flush io key id drops o1 o2 o3 p0 m = (r, p', m') ->
  along recoverable m m' /\ (r = Ok tt -> is_new (ma_disk m') /\ forall n, n ∈ W -> mods p' n = Some (Some Leaf)).
Proof.
  intros Hnd Hout Ho1 Ho2 Ho3 Hm0 Hf. unfold SyncedPool_flush in Hf.
  assert (forall d, is_old d -> recoverable d) as Hold by (intros d; by left).
  assert (dropped [] (mk_SyncedPool (sp_wrappers p0) ∅) m) as Hd0 by (split; intros x Hx; [by rewrite Hm0|done]).
  apply and_then_inv in Hf as [(p1 & m1 & Hl1 & Hf)|(e & p1 & m1 & Hl1 & He & Hf)].
  2:{ rewrite Hl1 in Hf. injection Hf as -> -> ->. split; [|done]. eapply along_mono; [exact Hold|].
      eapply (for_names_along is_old dropped); [| | |exact Hl1]; [by intros ? ? ? []|intros; by eapply dropped_step|exact Hd0]. }
  destruct (for_names_along is_old dropped _ _ _ _ _ _ _ ltac:(by intros ? ? ? []) ltac:(intros; by eapply dropped_step)
    Hd0 Hl1) as [Hal1 Hd1]. apply (along_mono _ _ _ _ Hold) in Hal1. destruct (Hd1 eq_refl) as [Hc1 Hm1].
  assert (dirtied [] p1 m1) as Hdirt by (split; [by intros n Hn; apply Hc1|]; split; [done|]; by intros n ?%not_elem_of_nil).
  assert (forall pre n p m r p' m', pre ++ [n] `prefix_of` o1 -> dirtied pre p m ->
    mark_one io key DirtyPrefix id n p m = (r, p', m') -> along recoverable m m' /\ (r = Ok tt -> dirtied (pre ++ [n]) p' m')) as Hs2.
  { intros pre n p mm rr pp mm' Hpre. destruct (order_fresh o1 pre n Ho1 Hnd Hpre). by apply dirtied_step. }
  apply and_then_inv in Hf as [(p2 & m2 & Hl2 & Hf)|(e & p2 & m2 & Hl2 & He & Hf)].
  2:{ rewrite Hl2 in Hf. injection Hf as -> -> ->. split; [|done]. eapply along_trans; [exact Hal1|].
      eapply (for_names_along recoverable dirtied); [apply dirtied_recoverable|exact Hs2|exact Hdirt|exact Hl2]. }
  destruct (for_names_along recoverable dirtied _ _ _ _ _ _ _ dirtied_recoverable Hs2 Hdirt Hl2) as [Hal2 Hd2].
  destruct (Hd2 eq_refl) as (Hc2 & Hm2 & _). pose proof (along_trans _ _ _ _ Hal1 Hal2) as Hal12.
  assert (flushed [] p2 m2) as Hfl.
  { split; [|done]. intros n Hn. rewrite (Hc2 n Hn), decide_True by (by rewrite Ho1). done. }
  assert (forall pre n p m r p' m', pre ++ [n] `prefix_of` o2 -> flushed pre p m ->
    flush_one io n p m = (r, p', m') -> along recoverable m m' /\ (r = Ok tt -> flushed (pre ++ [n]) p' m')) as Hs3.
  { intros pre n p mm rr pp mm' Hpre. destruct (order_fresh o2 pre n Ho2 Hnd Hpre). by apply flushed_step. }
  apply and_then_inv in Hf as [(p3 & m3 & Hl3 & Hf)|(e & p3 & m3 & Hl3 & He & Hf)].
  2:{ rewrite Hl3 in Hf. injection Hf as -> -> ->. split; [|done]. eapply along_trans; [exact Hal12|].
      eapply (for_names_along recoverable flushed); [apply flushed_recoverable|exact Hs3|exact Hfl|exact Hl3]. }
  destruct (for_names_along recoverable flushed _ _ _ _ _ _ _ flushed_recoverable Hs3 Hfl Hl3) as [Hal3 Hd3].
  destruct (Hd3 eq_refl) as [Hc3 Hm3]. pose proof (along_trans _ _ _ _ Hal12 Hal3) as Hal13.
  assert (cleaned [] p3 m3) as Hcl.
  { split; intros n Hn; [rewrite (Hc3 n Hn), decide_True by (by rewrite Ho2); done|].
    by rewrite (Hm3 n Hn), decide_True by (by rewrite Ho2). }
  destruct (for_names_along recoverable cleaned _ _ _ _ _ _ _ cleaned_recoverable
    ltac:(intros pre n p mm rr pp mm' Hpre; destruct (order_fresh o3 pre n Ho3 Hnd Hpre); by apply cleaned_step) Hcl Hf) as [Hal4 Hd4].
  split; [by eapply along_trans|]. intros Hr. destruct (Hd4 Hr) as [Hc4 Hm4]. split; [|done].
  intros n Hn. by rewrite (Hc4 n Hn), decide_True by (by rewrite Ho3).
Qed.

End phases.

End crash.

(** ** What the check at startup accepts *)

Lemma check_loop_clean key dbs : forall flushID ni res, check_loop key dbs flushID ni = Ok res ->
  forall db mark, Some db ∈ dbs -> db !! key = Some mark -> HasPrefix mark [DirtyPrefix] = false.
Proof.
  induction dbs as [|[db|] dbs IH]; intros flushID ni res Hc x mark Hx Hm; cbn [check_loop] in Hc;
    [by apply not_elem_of_nil in Hx| |done].
  apply elem_of_cons in Hx as [[= <-]|Hx].
  - rewrite Hm in Hc. by destruct (HasPrefix mark [DirtyPrefix]).
  - destruct (db !! key) as [mk|]; [|by eapply IH]. destruct (HasPrefix mk _); [done|]. case_bool_decide; [|done]. by eapply IH.
Qed.

Lemma dirty_rejected key id d W o flushID res : o ≡ₚ W ->
  CheckDBsSynced ((fun n => Some (db_content d n)) <$> o) key flushID = Ok res -> ~ is_dirty key id W d.
Proof.
  intros Ho Hc (n & Hn & Hm). unfold CheckDBsSynced in Hc.
  destruct (check_loop _ _ _ _) as [[f ni]| |] eqn:E; [|done..].
  assert (Some (db_content d n) ∈ (fun n => Some (db_content d n)) <$> o) as Hin by (apply list_elem_of_fmap; exists n; by rewrite Ho).
  pose proof (check_loop_clean _ _ _ _ _ E _ _ Hin Hm) as Hc'.
  assert (HasPrefix (DirtyPrefix :: id) [DirtyPrefix] = true) as Hd by (apply HasPrefix_spec; by exists id). congruence.
Qed.

(** ** Properties *)

(** The pool's databases survive a crash at any point of [Flush], and any
    failing write: if the check at the next start finds them in sync, then
    either none of them has changed or all of them hold exactly what the pool
    held, with the new flush ID.  The orders of the loops over the maps do not
    matter.  The data must leave the key of the flush ID alone. *)
Theorem flush_crash_consistent `{!TreeOps} `{!TreeLaws} (io : list disk_op -> disk_op -> option string)
    (key id : list Z) (W drops o1 o2 o3 o : list string) (p p' : SyncedPool) (m m' : machine) (r : outcome unit)
    (pre rest : list disk_op) (flushID res : option (list Z)) :
  NoDup W -> (forall n, n ∈ W -> is_Some (mods p n)) -> (forall n, n ∈ drops -> n ∉ W) ->
  (forall n t, n ∈ W -> mods p n = Some (Some t) -> tree_sorted t /\ tree_map t !! key = None) ->
  o1 ≡ₚ W -> o2 ≡ₚ W -> o3 ≡ₚ W -> o ≡ₚ W ->
  SyncedPool_flush io key id drops o1 o2 o3 p m = (r, p', m') -> ma_trace m' = ma_trace m ++ pre ++ rest ->
  let d := apply_ops (ma_disk m) pre in
  CheckDBsSynced ((fun n => Some (db_content d n)) <$> o) key flushID = Ok res ->
  (forall n, n ∈ W -> db_content d n = db_content (ma_disk m) n) \/
  (forall n, n ∈ W -> db_content d n = <[key := CleanPrefix :: id]> (pool_content (ma_disk m) p n)).
Proof.
  intros Hnd Hp Hout Ht Ho1 Ho2 Ho3 Ho Hf Htr d Hc.
  destruct (flush_along io key id (ma_disk m) p W Hp Ht drops o1 o2 o3 m r p' m' Hnd Hout Ho1 Ho2 Ho3 eq_refl Hf)
    as [(ext & _ & Htr' & Hall) _].
  assert (ext = pre ++ rest) as -> by (rewrite Htr in Htr'; by apply app_inv_head in Htr').
  destruct (Hall pre ltac:(by eexists)) as [|[Hd|]]; [by left| |by right]. by apply (dirty_rejected key id d W o flushID res Ho Hc) in Hd.
Qed.

(** A [Flush] that returns no error has written everything: every database of
    the pool holds what the pool held, marked with the flush ID, the caches are
    empty, and the check of the next start accepts the result. *)
Theorem flush_complete `{!TreeOps} `{!TreeLaws} (io : list disk_op -> disk_op -> option string)
    (key id : list Z) (W drops o1 o2 o3 o : list string) (p p' : SyncedPool) (m m' : machine) :
  NoDup W -> (forall n, n ∈ W -> is_Some (mods p n)) -> (forall n, n ∈ drops -> n ∉ W) ->
  (forall n t, n ∈ W -> mods p n = Some (Some t) -> tree_sorted t /\ tree_map t !! key = None) ->
  o1 ≡ₚ W -> o2 ≡ₚ W -> o3 ≡ₚ W -> o ≡ₚ W -> W <> [] ->
  SyncedPool_flush io key id drops o1 o2 o3 p m = (Ok tt, p', m') ->
  (forall n, n ∈ W -> db_content (ma_disk m') n = <[key := CleanPrefix :: id]> (pool_content (ma_disk m) p n) /\
     mods p' n = Some (Some Leaf)) /\
  CheckDBsSynced ((fun n => Some (db_content (ma_disk m') n)) <$> o) key None = Ok (Some (CleanPrefix :: id)).
Proof.
  intros Hnd Hp Hout Ht Ho1 Ho2 Ho3 Ho Hne Hf.
  destruct (flush_along io key id (ma_disk m) p W Hp Ht drops o1 o2 o3 m _ p' m' Hnd Hout Ho1 Ho2 Ho3 eq_refl Hf) as [_ Hend].
  destruct (Hend eq_refl) as [Hnew Hleaf]. split; [intros n Hn; split; [by apply Hnew|by apply Hleaf]|].
  assert (forall l flushID, (forall n, n ∈ l -> n ∈ W) -> (flushID = None \/ flushID = Some (CleanPrefix :: id)) ->
    check_loop key ((fun n => Some (db_content (ma_disk m') n)) <$> l) flushID false =
      Ok (match l with [] => flushID | _ => Some (CleanPrefix :: id) end, false)) as Hloop.
  { induction l as [|n l IH]; intros f Hl Hfl; [done|]. csimpl. rewrite Hnew by (apply Hl; left). rewrite lookup_insert_eq. cbn [HasPrefix].
    change (DirtyPrefix =? CleanPrefix) with false. cbn [andb]. rewrite bool_decide_eq_true_2 by (by destruct Hfl as [-> | ->]).
    rewrite IH; [destruct l; destruct Hfl as [-> | ->]; done|intros; apply Hl; by right|right; by destruct Hfl as [-> | ->]]. }
  unfold CheckDBsSynced. rewrite Hloop; [|intros n; by rewrite Ho|by left]. destruct o; [|done].
  by apply Permutation_nil_l in Ho.
Qed.

(** ** Witnesses: two databases, one write cached in each *)

Definition two_trees (v : Z) : LazyFlushable := mk_LazyFlushable (Some (tree_Put Leaf [1] (Some [v]))) 0 NullStore.
Definition two_pool : SyncedPool := mk_SyncedPool (<["a"%string := two_trees 10]> (<["b"%string := two_trees 20]> ∅)) ∅.
Definition two_machine : machine := mk_machine ∅ [].
Definition no_errors (_ : list disk_op) (_ : disk_op) : option string := None.
Definition two_names : list string := ["a"; "b"]%string.
Definition two_flushed : pool_result := SyncedPool_flush no_errors [0] [7] [] two_names two_names two_names two_pool two_machine.

Lemma two_present n : n ∈ two_names -> is_Some (mods two_pool n).
Proof. intros [->|[->|?%not_elem_of_nil]%elem_of_cons]%elem_of_cons; [by eexists|by eexists|done]. Qed.

Lemma two_sorted n t : n ∈ two_names -> mods two_pool n = Some (Some t) -> tree_sorted t /\ tree_map t !! [0] = None.
Proof.
  assert (forall v, tree_sorted (tree_Put Leaf [1] (Some [v]))) as Hs by (intros v; by repeat constructor).
  intros [->|[->|?%not_elem_of_nil]%elem_of_cons]%elem_of_cons Ht; [..|done]; injection Ht as <-; (split; [apply Hs|done]).
Qed.

(** A crash after the second database was marked dirty is refused, one at the
    start is accepted. *)
Example crash_points :
  let crash n := CheckDBsSynced ((fun x => Some (db_content (apply_ops ∅ (take n (ma_trace two_flushed.2))) x)) <$> two_names) [0] None in
  crash 0%nat = Ok None /\ crash 4%nat = Err "dirty state" /\ crash 7%nat = Err "dirty state" /\
  crash 8%nat = Ok (Some [0; 7]).
Proof. by vm_compute. Qed.

Lemma flush_crash_consistent_witness :
  (forall n, n ∈ two_names -> db_content (apply_ops ∅ []) n = db_content ∅ n) \/
  (forall n, n ∈ two_names -> db_content (apply_ops ∅ []) n = <[[0] := CleanPrefix :: [7]]> (pool_content ∅ two_pool n)).
Proof.
  apply (flush_crash_consistent no_errors [0] [7] two_names [] two_names two_names two_names two_names
    two_pool two_flushed.1.2 two_machine two_flushed.2 (Ok tt) [] (ma_trace two_flushed.2) None None); try done.
  - apply (bool_decide_unpack _). by vm_compute.
  - apply two_present.
  - by intros n ?%not_elem_of_nil.
  - apply two_sorted.
Defined.

Lemma flush_complete_witness :
  (forall n, n ∈ two_names -> db_content (ma_disk two_flushed.2) n = <[[0] := CleanPrefix :: [7]]> (pool_content ∅ two_pool n) /\
     mods two_flushed.1.2 n = Some (Some Leaf)) /\
  CheckDBsSynced ((fun n => Some (db_content (ma_disk two_flushed.2) n)) <$> two_names) [0] None = Ok (Some (CleanPrefix :: [7])).
Proof.
  apply (flush_complete no_errors [0] [7] two_names [] two_names two_names two_names two_names two_pool two_flushed.1.2
    two_machine two_flushed.2); try done.
  - apply (bool_decide_unpack _). by vm_compute.
  - apply two_present.
  - by intros n ?%not_elem_of_nil.
  - apply two_sorted.
Defined.
