(* ===== verification/PoolSession.v ===== *)
(** * Sessions with the synced pool

    The users of a [SyncedPool] open databases, write to them and drop them
    through their handles, and flush the pool; the methods of
    kvdb/flushable/synced_pool.go that FlushPool.v leaves out are here.  A
    session is compared with its specification, a map from names to contents:
    reads see it, a flush makes it durable, and a crash in the middle of a
    flush goes back to the last one or gets to the new one
    ([pool_session_durable]). *)

From S2P Require Import Prelude Bytes Kvdb KvStore RbTree Flushable FlushPool.
Local Open Scope go_scope.

Local Abbreviation pool_result := (outcome unit * SyncedPool * machine)%type.

(** ** The methods *)

(** The queue is emptied; [res] holds its names in the order of the walk. *)
Definition popQueuedDrops (p : SyncedPool) (res : list string) (p' : SyncedPool) : Prop :=
  res ≡ₚ elements (sp_queuedDrops p) /\ p' = mk_SyncedPool (sp_wrappers p) ∅.

Definition SyncedPool_OpenDB `{!TreeOps} (p : SyncedPool) (name : string) : LazyFlushable * SyncedPool := getDB p name.

(** [closeDropWrapped]: the handles do not close or drop anything yet. *)
Definition handle_Close (p : SyncedPool) (name : string) : option string * SyncedPool := (None, p).
Definition handle_Drop (p : SyncedPool) (name : string) : SyncedPool := enqueueDropDb p name.

Section session.
Context `{!TreeOps} (io : list disk_op -> disk_op -> option string) (key : list Z).

(** What a handle reads from under its cached pairs. *)
Definition handle_base (w : LazyFlushable) (name : string) (m : machine) : kv :=
  match lz_underlying w with RealStore => db_content (ma_disk m) name | _ => ∅ end.

Definition handle_Get (p : SyncedPool) (m : machine) (name : string) (k : list Z) : outcome (option (list Z)) :=
  match sp_wrappers p !! name with
  | None => Err "not in the pool"
  | Some w => Flushable_Get (mk_Flushable (handle_base w name m) (lz_modified w) (lz_sizeEstimation w)) k
  end.

(** [OpenDB], then [Put] or [Delete]. *)
Definition handle_write (p : SyncedPool) (name : string) (op : write) : outcome SyncedPool :=
  let '(w, p) := SyncedPool_OpenDB p name in
  let f := mk_Flushable tt (lz_modified w) (lz_sizeEstimation w) in
  let* f := match op.2 with Some v => Flushable_Put f (Some op.1) (Some v) | None => Flushable_Delete f op.1 end in
  Ok (set_wrapper p name (mk_LazyFlushable (fl_modified f) (fl_sizeEstimation f) (lz_underlying w))).

(** [Flush], under the lock of the pool; the maps are walked in any order. *)
Definition SyncedPool_Flush (id : list Z) (p : SyncedPool) (m : machine) (res : pool_result) : Prop :=
  exists drops o1 o2 o3 p1, popQueuedDrops p drops p1 /\
    (forall o, o ∈ [o1; o2; o3] -> NoDup o /\ forall n, n ∈ o <-> is_Some (sp_wrappers p !! n) /\ n ∉ drops) /\
    SyncedPool_flush io key id drops o1 o2 o3 p m = res.

(** At the start, after all are registered; [o] is the order of the walk. *)
Definition pool_checkDBsSynced (flushID : option (list Z)) (o : list string) (p : SyncedPool) (m : machine) :
    outcome (option (list Z)) * SyncedPool * machine :=
  let '(r, p, m) := for_names (GetUnderlying io) o p m in
  match r with
  | Ok _ =>
      (CheckDBsSynced ((fun n => match lz_underlying <$> sp_wrappers p !! n with
                                 | Some NilStore => None
                                 | _ => Some (db_content (ma_disk m) n)
                                 end) <$> o) key flushID, p, m)
  | Err e => (Err e, p, m)
  | Panic e => (Panic e, p, m)
  end.

Lemma Initialize_checks flushID names o p m : Initialize io key flushID names o p m =
  let '(r, p, m) := for_names (GetUnderlying io) names p m in
  match r with
  | Ok _ => pool_checkDBsSynced flushID o p m
  | Err e => (Err e, p, m)
  | Panic e => (Panic e, p, m)
  end.
Proof. unfold Initialize, pool_checkDBsSynced. by destruct (for_names _ names p m) as [[[[]|e|e] p1] m1]. Qed.

(** ** Sessions and their specification *)

Inductive pool_op :=
| PoOpen (name : string)
| PoWrite (name : string) (op : write)
| PoDrop (name : string)
| PoFlush (id : list Z).

Inductive pool_step : SyncedPool * machine -> pool_op -> SyncedPool * machine -> Prop :=
| step_open p m n : pool_step (p, m) (PoOpen n) ((SyncedPool_OpenDB p n).2, m)
| step_write p m n op p' : handle_write p n op = Ok p' -> pool_step (p, m) (PoWrite n op) (p', m)
| step_drop p m n : pool_step (p, m) (PoDrop n) (handle_Drop p n, m)
| step_flush p m id p' m' : SyncedPool_Flush id p m (Ok tt, p', m') -> pool_step (p, m) (PoFlush id) (p', m').

Inductive pool_run : SyncedPool * machine -> list pool_op -> SyncedPool * machine -> Prop :=
| run_nil x : pool_run x [] x
| run_snoc x ops y op z : pool_run x ops y -> pool_step y op z -> pool_run x (ops ++ [op]) z.

(** The databases as their users see them, those to drop, and what the last
    flush saved. *)
Record pool_spec := mk_pool_spec { ps_view : gmap string kv; ps_queued : gset string; ps_saved : gmap string kv }.

Definition spec_flush (id : list Z) (s : pool_spec) : gmap string kv :=
  (fun v => <[key := CleanPrefix :: id]> v) <$> filter (fun nv : string * kv => nv.1 ∉ ps_queued s) (ps_view s).

Definition spec_do (s : pool_spec) (op : pool_op) : pool_spec :=
  match op with
  | PoOpen n => mk_pool_spec (<[n := default ∅ (ps_view s !! n)]> (ps_view s)) (ps_queued s) (ps_saved s)
  | PoWrite n op => mk_pool_spec (<[n := apply_write (default ∅ (ps_view s !! n)) op]> (ps_view s)) (ps_queued s) (ps_saved s)
  | PoDrop n => mk_pool_spec (ps_view s) ({[n]} ∪ ps_queued s) (ps_saved s)
  | PoFlush id => mk_pool_spec (spec_flush id s) ∅ (spec_flush id s)
  end.

Definition spec_run (ops : list pool_op) : pool_spec := foldl spec_do (mk_pool_spec ∅ ∅ ∅) ops.

(** The users leave the key of the flush ID alone. *)
Definition pool_op_ok (op : pool_op) : Prop := match op with PoWrite _ op => op.1 <> key | _ => True end.

(** ** A database of the pool that is seen as [v] *)

Definition db_at (v : option kv) (p : SyncedPool) (m : machine) (n : string) : Prop :=
  match sp_wrappers p !! n with
  | Some w => exists t, lz_modified w = Some t /\ tree_sorted t /\ tree_map t !! key = None /\ lz_underlying w <> NilStore /\
      (lz_underlying w = NullStore -> db_content (ma_disk m) n = ∅) /\ v = Some (overlay (tree_map t) (db_content (ma_disk m) n))
  | None => v = None /\ db_content (ma_disk m) n = ∅
  end.

Definition session_inv (s : pool_spec) (p : SyncedPool) (m : machine) : Prop :=
  sp_queuedDrops p = ps_queued s /\ (forall n, db_at (ps_view s !! n) p m n) /\
  (forall n, db_content (ma_disk m) n = default ∅ (ps_saved s !! n)).

Lemma db_at_ext v p m n p' m' : db_at v p m n -> sp_wrappers p' !! n = sp_wrappers p !! n ->
  db_content (ma_disk m') n = db_content (ma_disk m) n -> db_at v p' m' n.
Proof. unfold db_at. by intros ? -> ->. Qed.

Lemma for_names_ok {A P} (I : list A -> P -> machine -> Prop) body names p m p' m' :
  (forall pre n p m p' m', pre ++ [n] `prefix_of` names -> I pre p m -> body n p m = (Ok tt, p', m') -> I (pre ++ [n]) p' m') ->
  I [] p m -> for_names body names p m = (Ok tt, p', m') -> I names p' m'.
Proof.
  intros Hstep. assert (forall suf pre p m, names = pre ++ suf -> I pre p m -> for_names body suf p m = (Ok tt, p', m') ->
    I names p' m') as Hgen; [|by apply (Hgen names [])].
  induction suf as [|n suf IH]; intros pre p0 m0 Hn HI Hf; cbn [for_names] in Hf.
  - injection Hf as <- <-. by rewrite Hn, app_nil_r.
  - destruct (body n p0 m0) as [[[[]|e|e] p1] m1] eqn:Hb; [|done..].
    apply (IH (pre ++ [n]) p1 m1); [by rewrite Hn, <- app_assoc| |done].
    eapply Hstep; [|done..]. exists suf. by rewrite Hn, <- app_assoc.
Qed.

Context `{!TreeLaws}.

Lemma overlay_key (t : gmap (list Z) tval) (b : kv) x : t !! key = None -> overlay t (<[key := x]> b) = <[key := x]> (overlay t b).
Proof.
  intros Ht. apply map_eq. intros k. rewrite overlay_lookup. destruct (decide (k = key)) as [->|Hne].
  - by rewrite Ht, !lookup_insert_eq.
  - by rewrite !lookup_insert_ne, overlay_lookup by done.
Qed.

Lemma init_real n w m w' m' : initUnderlyingDb io n w m = (Ok tt, w', m') -> lz_underlying w <> NilStore ->
  lz_underlying w' = RealStore /\ lz_modified w' = lz_modified w /\ same_content (ma_disk m) (ma_disk m').
Proof.
  intros Hi Hn. destruct (init_along io n w m _ w' m' Hi) as [Hal Hm]. split; [|split; [done|exact (along_end _ _ _ Hal)]].
  unfold initUnderlyingDb in Hi. destruct (lz_underlying w) eqn:E; [|done|by injection Hi as <- <-].
  destruct (perform io m (OpOpen n)) as [r1 m1]. by injection Hi as -> <- <-.
Qed.

(** A mark. *)
Lemma mark_one_at (prefix : Z) (id : list Z) (n : string) (p p' : SyncedPool) (m m' : machine) (v : string -> option kv) :
  mark_one io key prefix id n p m = (Ok tt, p', m') -> (forall x, db_at (v x) p m x) ->
  sp_queuedDrops p' = sp_queuedDrops p /\ (forall x, mods p' x = mods p x) /\
  (forall x, db_at (if decide (x = n) then <[key := prefix :: id]> <$> v x else v x : option kv) p' m' x).
Proof.
  intros Hm Hv. destruct (sp_wrappers p !! n) as [w|] eqn:Hw.
  2:{ unfold mark_one in Hm. rewrite Hw in Hm. injection Hm as <- <-. split; [done|]. split; [done|]. intros x. case_decide as Hx; [|apply Hv].
      subst x. specialize (Hv n). unfold db_at in *. rewrite Hw in *. by destruct Hv as [-> Hv]. }
  assert (is_Some (mods p n)) as Hmn by (unfold mods; rewrite Hw; by eexists).
  destruct (mark_one_along io key prefix id n p m _ p' m' Hm Hmn) as (_ & Hmods & Hc). specialize (Hc eq_refl).
  unfold mark_one in Hm. rewrite Hw in Hm. destruct (initUnderlyingDb io n w m) as [[[[]|e|e] w1] m1] eqn:Hi; [|done..].
  pose proof (Hv n) as Hvn. unfold db_at in Hvn. rewrite Hw in Hvn. destruct Hvn as (t & Ht & Hs & Hk & Hnil & Hnull & Hvn).
  destruct (init_real _ _ _ _ _ Hi Hnil) as (Hr & Hm1 & _). rewrite Hr in Hm. destruct (perform io m1 _) as [r2 m2].
  injection Hm as -> <- <-. split; [done|]. split; [done|]. intros x. case_decide as Hx.
  - subst x. unfold db_at, set_wrapper. cbn. rewrite lookup_insert_eq. exists t. rewrite Hm1, Hr, (Hc n), decide_True, Hvn by done.
    splits; [done..|]. cbn. by rewrite overlay_key.
  - apply (db_at_ext _ p m); [apply Hv|cbn; by rewrite lookup_insert_ne|]. by rewrite (Hc x), decide_False by done.
Qed.

(** The flush of one database: seen the same, its cache empty. *)
Lemma flush_one_at (n : string) (p p' : SyncedPool) (m m' : machine) (v : string -> option kv) :
  flush_one io n p m = (Ok tt, p', m') -> (forall x, db_at (v x) p m x) ->
  sp_queuedDrops p' = sp_queuedDrops p /\ (forall x, x <> n -> mods p' x = mods p x) /\
  (is_Some (mods p n) -> mods p' n = Some (Some Leaf)) /\ (forall x, db_at (v x) p' m' x).
Proof.
  intros Hf Hv. destruct (sp_wrappers p !! n) as [w|] eqn:Hw.
  2:{ unfold flush_one in Hf. rewrite Hw in Hf. injection Hf as <- <-. splits; try done. unfold mods. rewrite Hw. by intros [? ?]. }
  pose proof (Hv n) as Hvn. unfold db_at in Hvn. rewrite Hw in Hvn. destruct Hvn as (t & Ht & Hs & Hk & Hnil & Hnull & Hvn).
  assert (mods p n = Some (Some t)) as Hmn by (unfold mods; rewrite Hw; cbn; by rewrite Ht).
  destruct (flush_one_along io n p m _ p' m' t Hf Hmn Hs) as (Hal & Hoth & Hc). specialize (Hc eq_refl) as [Hc Hleaf].
  destruct (along_end _ _ _ Hal) as [Hcont _]. unfold flush_one in Hf. rewrite Hw in Hf.
  destruct (Lazy_Flush io n w m) as [[r1 w1] m1] eqn:Hl. injection Hf as -> <- <-.
  assert (lz_underlying w1 = RealStore) as Hr.
  { unfold Lazy_Flush in Hl. destruct (initUnderlyingDb io n w m) as [[[[]|e|e] w2] m2] eqn:Hi; [|done..].
    destruct (init_real _ _ _ _ _ Hi Hnil) as (Hr & _ & _). rewrite Hr in Hl. destruct (Flushable_Flush _) as [err f]. by injection Hl as _ <- _. }
  splits; [done..|]. intros x. destruct (decide (x = n)) as [->|Hne].
  - unfold db_at, set_wrapper. cbn. rewrite lookup_insert_eq. rewrite mods_set, decide_True in Hleaf by done. injection Hleaf as Hleaf.
    exists Leaf. rewrite Hleaf, Hr, Hc, Hvn. splits; try done; [apply Leaf_sorted|]. by rewrite overlay_empty.
  - apply (db_at_ext _ p m); [apply Hv|cbn; by rewrite lookup_insert_ne|]. by apply Hcont.
Qed.

Context (Hio : forall l n, io l (OpDrop n) = None).

Lemma drop_one_at (n : string) (p p' : SyncedPool) (m m' : machine) (v : string -> option kv) :
  drop_one io n p m = (Ok tt, p', m') -> (forall x, db_at (v x) p m x) ->
  sp_queuedDrops p' = sp_queuedDrops p /\ (forall x, db_at (if decide (x = n) then None else v x) p' m' x).
Proof.
  intros Hd Hv. unfold drop_one in Hd. set (p1 := mk_SyncedPool (delete n (sp_wrappers p)) (sp_queuedDrops p)) in *.
  assert (forall m2, db_content (ma_disk m2) n = ∅ -> (forall x, x <> n -> db_content (ma_disk m2) x = db_content (ma_disk m) x) ->
    forall x, db_at (if decide (x = n) then None else v x) p1 m2 x) as Hgen.
  { intros m2 Hn Hoth x. case_decide as Hx; [subst x|].
    - unfold db_at. cbn. by rewrite lookup_delete_eq.
    - apply (db_at_ext _ p m); [apply Hv|cbn; by rewrite lookup_delete_ne|by apply Hoth]. }
  pose proof (Hv n) as Hvn. unfold db_at in Hvn. destruct (sp_wrappers p !! n) as [w|] eqn:Hw.
  2:{ injection Hd as <- <-. split; [done|]. apply Hgen; [apply Hvn|done]. }
  destruct Hvn as (t & Ht & _ & _ & Hnil & Hnull & _). unfold RealClose in Hd. rewrite Ht in Hd. destruct (lz_underlying w) eqn:Hu; cbn in Hd; [|done|].
  - injection Hd as <- <-. split; [done|]. apply Hgen; [by apply Hnull|done].
  - unfold perform in Hd. rewrite Hio in Hd. injection Hd as <- <-. split; [done|].
    assert (ma_disk (mk_machine (ma_start m) (ma_trace m ++ [OpDrop n])) = apply_op (ma_disk m) (OpDrop n)) as Hdk.
    { unfold ma_disk. cbn. by rewrite apply_ops_app. }
    apply Hgen; rewrite Hdk; [|intros x Hne; by apply content_drop]. cbn. unfold db_content. by rewrite lookup_delete_eq.
Qed.

(** ** A flush that succeeds *)

Definition seen_after (id : list Z) (drops : list string) (v : string -> option kv) (x : string) : option kv :=
  if decide (x ∈ drops) then None else <[key := CleanPrefix :: id]> <$> v x.

(** Marks in any order, over all the databases that are present. *)
Lemma marks_at (prefix : Z) (id : list Z) (o : list string) (p p' : SyncedPool) (m m' : machine) (v : string -> option kv) :
  NoDup o -> for_names (mark_one io key prefix id) o p m = (Ok tt, p', m') -> (forall x, db_at (v x) p m x) ->
  sp_queuedDrops p' = sp_queuedDrops p /\ (forall x, mods p' x = mods p x) /\
  (forall x, db_at (if decide (x ∈ o) then <[key := prefix :: id]> <$> v x else v x : option kv) p' m' x).
Proof.
  intros Hnd Hf Hv. apply (for_names_ok (fun pre q mm => sp_queuedDrops q = sp_queuedDrops p /\ (forall x, mods q x = mods p x) /\
    (forall x, db_at (if decide (x ∈ pre) then <[key := prefix :: id]> <$> v x else v x : option kv) q mm x))) in Hf; [done| |].
  - intros pre n q mm q' mm' [rest Hpre] (Hq & Hm & Hat) Hb.
    destruct (mark_one_at prefix id n q q' mm mm' _ Hb Hat) as (Hq' & Hm' & Hat'). split; [congruence|]. split; [intros x; by rewrite Hm'|].
    assert (n ∉ pre) as Hn. { rewrite Hpre, <- app_assoc, NoDup_app in Hnd. intros Hin. destruct Hnd as (_ & Hd & _). apply (Hd n Hin). by left. }
    intros x. specialize (Hat' x). destruct (decide (x = n)) as [->|Hne].
    + rewrite (decide_False (P := n ∈ pre)) in Hat' by done. by rewrite decide_True by set_solver.
    + destruct (decide (x ∈ pre)); [by rewrite decide_True by set_solver|by rewrite decide_False by set_solver].
  - split; [done|]. split; [done|]. intros x. by rewrite decide_False by apply not_elem_of_nil.
Qed.

Lemma flushes_at (o : list string) (p p' : SyncedPool) (m m' : machine) (v : string -> option kv) :
  for_names (flush_one io) o p m = (Ok tt, p', m') -> (forall x, db_at (v x) p m x) ->
  sp_queuedDrops p' = sp_queuedDrops p /\ (forall x, x ∈ o -> is_Some (mods p' x) -> mods p' x = Some (Some Leaf)) /\
  (forall x, db_at (v x) p' m' x).
Proof.
  intros Hf Hv. apply (for_names_ok (fun pre q mm => sp_queuedDrops q = sp_queuedDrops p /\
    (forall x, x ∈ pre -> is_Some (mods q x) -> mods q x = Some (Some Leaf)) /\ (forall x, db_at (v x) q mm x))) in Hf; [done| |].
  - intros pre n q mm q' mm' _ (Hq & Hl & Hat) Hb.
    destruct (flush_one_at n q q' mm mm' _ Hb Hat) as (Hq' & Hoth & Hn & Hat'). split; [congruence|]. split; [|done].
    intros x Hx Hm. destruct (decide (x = n)) as [->|Hne].
    + apply Hn. destruct (sp_wrappers q !! n) as [w|] eqn:E; [unfold mods; rewrite E; by eexists|].
      unfold flush_one in Hb. rewrite E in Hb. by injection Hb as <- <-.
    + rewrite Hoth in Hm |- * by done. apply Hl; [set_solver|done].
  - split; [done|]. split; [by intros x ?%not_elem_of_nil|done].
Qed.

Lemma drops_at (o : list string) (p p' : SyncedPool) (m m' : machine) (v : string -> option kv) :
  for_names (drop_one io) o p m = (Ok tt, p', m') -> (forall x, db_at (v x) p m x) ->
  sp_queuedDrops p' = sp_queuedDrops p /\ (forall x, db_at (if decide (x ∈ o) then None else v x) p' m' x).
Proof.
  intros Hf Hv. apply (for_names_ok (fun pre q mm => sp_queuedDrops q = sp_queuedDrops p /\
    (forall x, db_at (if decide (x ∈ pre) then None else v x) q mm x))) in Hf; [done| |].
  - intros pre n q mm q' mm' _ (Hq & Hat) Hb. destruct (drop_one_at n q q' mm mm' _ Hb Hat) as (Hq' & Hat'). split; [congruence|].
    intros x. specialize (Hat' x). destruct (decide (x = n)) as [->|Hne]; [by rewrite decide_True by set_solver|].
    destruct (decide (x ∈ pre)); [by rewrite decide_True by set_solver|by rewrite decide_False by set_solver].
  - split; [done|]. intros x. by rewrite decide_False by apply not_elem_of_nil.
Qed.

Lemma db_at_present v p m n : db_at v p m n -> is_Some v <-> is_Some (mods p n).
Proof.
  unfold db_at, mods. destruct (sp_wrappers p !! n) as [w|]; cbn.
  - intros (t & _ & _ & _ & _ & _ & ->). split; by eexists.
  - intros [-> _]. split; by intros [? ?].
Qed.

Lemma flush_at (id : list Z) (p p' : SyncedPool) (m m' : machine) (v : string -> option kv) :
  SyncedPool_Flush id p m (Ok tt, p', m') -> (forall x, db_at (v x) p m x) ->
  sp_queuedDrops p' = ∅ /\
  (forall x, db_at (seen_after id (elements (sp_queuedDrops p)) v x) p' m' x) /\
  (forall x, db_content (ma_disk m') x = default ∅ (seen_after id (elements (sp_queuedDrops p)) v x)).
Proof.
  intros (drops & o1 & o2 & o3 & p0 & [Hdr _] & Ho & Hf) Hv. unfold SyncedPool_flush in Hf.
  destruct (Ho o1) as [Hn1 Hi1]; [by left|]. destruct (Ho o2) as [_ Hi2]; [by right; left|]. destruct (Ho o3) as [Hn3 Hi3]; [by right; right; left|].
  apply and_then_inv in Hf as [(p1 & m1 & Hl1 & Hf)|(e & ? & ? & -> & He & Hf)]; [|congruence].
  apply and_then_inv in Hf as [(p2 & m2 & Hl2 & Hf)|(e & ? & ? & -> & He & Hf)]; [|congruence].
  apply and_then_inv in Hf as [(p3 & m3 & Hl3 & Hl4)|(e & ? & ? & -> & He & Hf)]; [|congruence].
  destruct (drops_at drops _ _ _ _ v Hl1 Hv) as [Hq1 Hv1]. set (v1 x := if decide (x ∈ drops) then None else v x) in *.
  assert (forall (o : list string) x, (forall n, n ∈ o <-> is_Some (sp_wrappers p !! n) /\ n ∉ drops) -> x ∉ o -> v1 x = None) as Hout.
  { intros o x Hi Hx. unfold v1. case_decide as Hxd; [done|]. destruct (v x) eqn:E; [|done]. destruct Hx. apply Hi. split; [|done].
    assert (is_Some (mods p x)) as Hm by (apply (db_at_present _ _ _ _ (Hv x)); by rewrite E). unfold mods in Hm. by apply fmap_is_Some in Hm. }
  destruct (marks_at DirtyPrefix id o1 _ _ _ _ v1 Hn1 Hl2 Hv1) as (Hq2 & Hm2 & Hv2).
  assert (forall x, db_at (<[key := DirtyPrefix :: id]> <$> v1 x) p2 m2 x) as Hv2'.
  { intros x. specialize (Hv2 x). case_decide as Hx; [done|]. by rewrite (Hout o1 x Hi1 Hx) in *. }
  destruct (flushes_at o2 _ _ _ _ _ Hl3 Hv2') as (Hq3 & Hleaf & Hv3).
  destruct (marks_at CleanPrefix id o3 _ _ _ _ _ Hn3 Hl4 Hv3) as (Hq4 & Hm4 & Hv4).
  assert (forall x, seen_after id (elements (sp_queuedDrops p)) v x = <[key := CleanPrefix :: id]> <$> v1 x) as Hseen.
  { intros x. unfold seen_after, v1. rewrite (decide_ext _ (x ∈ drops)) by (by rewrite Hdr). by case_decide. }
  assert (forall x, db_at (<[key := CleanPrefix :: id]> <$> v1 x) p' m' x) as Hv'.
  { intros x. specialize (Hv4 x). case_decide as Hx; [|by rewrite (Hout o3 x Hi3 Hx) in *].
    destruct (v1 x) as [c|]; cbn in *; [|done]. by rewrite insert_insert_eq in Hv4. }
  split; [rewrite Hq4, Hq3, Hq2; done|]. split; intros x; rewrite Hseen; [done|].
  specialize (Hv' x). pose proof (db_at_present _ _ _ _ Hv') as Hpres. unfold db_at in Hv'.
  destruct (sp_wrappers p' !! x) as [w|] eqn:Hw; [|by destruct Hv' as [-> ->]].
  destruct Hv' as (t & Ht & _ & _ & _ & _ & Hc). rewrite Hc. cbn. enough (t = Leaf) as -> by (by rewrite overlay_empty).
  assert (mods p' x = Some (Some Leaf)) as Hlf.
  { rewrite Hm4. apply Hleaf; [|rewrite <- Hm4; apply Hpres; by rewrite Hc].
    destruct (decide (x ∈ o2)) as [|Hx]; [done|]. by rewrite (Hout o2 x Hi2 Hx) in Hc. }
  unfold mods in Hlf. rewrite Hw in Hlf. cbn in Hlf. congruence.
Qed.

(** ** Sessions follow their specification *)

Lemma spec_flush_lookup id s x : spec_flush id s !! x = seen_after id (elements (ps_queued s)) (fun n => ps_view s !! n) x.
Proof.
  unfold spec_flush, seen_after. rewrite lookup_fmap, map_lookup_filter. destruct (ps_view s !! x) as [v|] eqn:E; cbn.
  - case_guard as H1; cbn; case_decide as H2; cbn; try done; exfalso; set_solver.
  - by case_decide.
Qed.

Lemma getDB_at (p : SyncedPool) (m : machine) (n : string) (v : option kv) : db_at v p m n ->
  let q := (getDB p n).2 in
  sp_queuedDrops q = sp_queuedDrops p /\ sp_wrappers q !! n = Some (getDB p n).1 /\
  (forall x, x <> n -> sp_wrappers q !! x = sp_wrappers p !! x) /\ db_at (Some (default ∅ v)) q m n.
Proof.
  unfold db_at, getDB. destruct (sp_wrappers p !! n) as [w|] eqn:Hw; cbn.
  - intros (t & Ht & Hs & Hk & Hn & Hnull & ->). splits; try done. rewrite Hw. exists t. by splits.
  - intros [-> Hc]. rewrite lookup_insert_eq. splits; [done..|by intros x Hx; rewrite lookup_insert_ne|].
    exists Leaf. rewrite Hc, overlay_empty. splits; try done. apply Leaf_sorted.
Qed.

Lemma write_at (p p' : SyncedPool) (m : machine) (n : string) (op : write) (v : string -> option kv) :
  handle_write p n op = Ok p' -> op.1 <> key -> (forall x, db_at (v x) p m x) ->
  sp_queuedDrops p' = sp_queuedDrops p /\
  (forall x, db_at (if decide (x = n) then Some (apply_write (default ∅ (v n)) op) else v x) p' m x).
Proof.
  unfold handle_write, SyncedPool_OpenDB. intros Hw Hk Hv. destruct (getDB_at p m n _ (Hv n)) as (Hq & Hl & Hoth & Hat).
  destruct (getDB p n) as [w q]. cbn [fst snd] in *. unfold db_at in Hat. rewrite Hl in Hat.
  destruct Hat as (t & Ht & Hs & Htk & Hn & Hnull & [= Hd]). rewrite Hd. destruct op as [k ov]. cbn [fst snd] in *.
  assert (exists size, p' = set_wrapper q n (mk_LazyFlushable (Some (tree_Put t k ov)) size (lz_underlying w))) as [size ->].
  { destruct ov as [b|]; cbn in Hw; [unfold Flushable_put in Hw|unfold Flushable_Delete, Flushable_delete in Hw];
      cbn [fl_modified] in Hw; rewrite Ht in Hw; cbn in Hw; injection Hw as <-; by eexists. }
  split; [done|]. intros x. case_decide as Hx.
  - subst x. unfold db_at, set_wrapper. cbn. rewrite lookup_insert_eq. exists (tree_Put t k ov). cbn.
    rewrite tree_Put_map, overlay_insert, lookup_insert_ne by done. splits; try done. by apply tree_Put_sorted.
  - apply (db_at_ext _ p m); [apply Hv| |done]. cbn. by rewrite lookup_insert_ne, Hoth by done.
Qed.

Lemma session_step s p m op p' m' : session_inv s p m -> pool_op_ok op -> pool_step (p, m) op (p', m') -> session_inv (spec_do s op) p' m'.
Proof.
  intros (Hq & Hv & Hs) Hok Hst. inversion Hst; subst; clear Hst.
  - destruct (getDB_at p m' n _ (Hv n)) as (Hq' & _ & Hoth & Hat). unfold session_inv. cbn. splits; [exact (eq_trans Hq' Hq)| |done].
    intros x. destruct (decide (x = n)) as [->|Hne]; [by rewrite lookup_insert_eq|]. rewrite lookup_insert_ne by done.
    apply (db_at_ext _ p m'); [apply Hv|by apply Hoth|done].
  - destruct (write_at p p' m' n _ (fun n => ps_view s !! n) ltac:(eassumption) Hok Hv) as [Hq' Hat]. unfold session_inv. cbn. splits; [congruence| |done].
    intros x. specialize (Hat x). case_decide as Hx; [subst x; by rewrite lookup_insert_eq|by rewrite lookup_insert_ne].
  - unfold session_inv. cbn. splits; [by rewrite Hq|exact Hv|exact Hs].
  - match goal with H : SyncedPool_Flush _ _ _ _ |- _ => destruct (flush_at id p p' m m' (fun n => ps_view s !! n) H Hv) as (Hq' & Hat & Hc) end.
    rewrite Hq in Hat, Hc. unfold session_inv. cbn. split; [done|]. split; intros x; rewrite spec_flush_lookup; [apply Hat|apply Hc].
Qed.

Lemma session_run ops p m : Forall pool_op_ok ops -> pool_run (NewSyncedPool, mk_machine ∅ []) ops (p, m) -> session_inv (spec_run ops) p m.
Proof.
  intros Hok Hrun. remember (p, m) as z eqn:Hz. revert p m Hz. remember (NewSyncedPool, mk_machine ∅ []) as z0 eqn:Hz0.
  induction Hrun as [x|x ops y op z Hrun IH Hst]; intros p m Hz.
  - rewrite Hz0 in Hz. injection Hz as <- <-. split; [done|]. split; intros x0; [by split|done].
  - rewrite Hz in Hst. apply Forall_app in Hok as [Hok1 [Hok2 _]%Forall_cons]. destruct y as [p1 m1]. unfold spec_run. rewrite foldl_app. cbn.
    by apply (session_step _ p1 m1); [apply IH|..].
Qed.

Lemma session_Get s p m n v k : session_inv s p m -> ps_view s !! n = Some v -> handle_Get p m n k = Ok (v !! k).
Proof.
  intros (_ & Hv & _) Hn. specialize (Hv n). unfold db_at in Hv. unfold handle_Get, handle_base. rewrite Hn in Hv.
  destruct (sp_wrappers p !! n) as [w|]; [|by destruct Hv]. destruct Hv as (t & Ht & Hs & _ & Hnil & Hnull & [= ->]).
  apply Get_content. apply Flushable_content_Some. exists t, (db_content (ma_disk m) n). splits; [done..| |done].
  cbn. destruct (lz_underlying w); [|done|done]. by rewrite Hnull.
Qed.

(** What a flush that is cut short leaves. *)
Lemma session_crash s id p m r p' m' pre rest o flushID res : session_inv s p m ->
  SyncedPool_Flush id p m (r, p', m') -> ma_trace m' = ma_trace m ++ pre ++ rest ->
  NoDup o -> (forall n, n ∈ o <-> is_Some (ps_view s !! n) /\ n ∉ ps_queued s) ->
  CheckDBsSynced ((fun n => Some (db_content (apply_ops (ma_disk m) pre) n)) <$> o) key flushID = Ok res ->
  (forall n, n ∈ o -> db_content (apply_ops (ma_disk m) pre) n = default ∅ (ps_saved s !! n)) \/
  (forall n, n ∈ o -> Some (db_content (apply_ops (ma_disk m) pre) n) = spec_flush id s !! n).
Proof.
  intros (Hq & Hv & Hs) (drops & o1 & o2 & o3 & p0 & [Hdr _] & Ho & Hf) Htr Hnd Hin Hc.
  assert (forall x, x ∈ drops <-> x ∈ ps_queued s) as Hdq by (intros x; by rewrite Hdr, elem_of_elements, Hq).
  assert (forall ox, ox ∈ [o1; o2; o3] -> ox ≡ₚ o) as Hp.
  { intros ox Hox. destruct (Ho ox Hox) as [Hnx Hix]. apply NoDup_Permutation; [done..|]. intros x. rewrite Hix, Hin, Hdq, (db_at_present _ _ _ _ (Hv x)).
    unfold mods. by rewrite fmap_is_Some. }
  assert (forall n, n ∈ o -> exists t, mods p n = Some (Some t) /\ tree_sorted t /\ tree_map t !! key = None /\
    ps_view s !! n = Some (overlay (tree_map t) (db_content (ma_disk m) n))) as Hat.
  { intros n Hn. apply Hin in Hn as [[v Hn] _]. specialize (Hv n). unfold db_at in Hv. unfold mods. destruct (sp_wrappers p !! n) as [w|]; [|by destruct Hv; congruence].
    destruct Hv as (t & Ht & Hst & Hk & _ & _ & Hvw). exists t. splits; try done. cbn. by rewrite Ht. }
  destruct (flush_along io key id (ma_disk m) p o) with (drops := drops) (o1 := o1) (o2 := o2) (o3 := o3) (m := m) (r := r) (p' := p') (m' := m')
    as [(ext & _ & Htr' & Hall) _]; try done.
  - intros n Hn. destruct (Hat n Hn) as (t & -> & _). by eexists.
  - intros n t Hn Ht. destruct (Hat n Hn) as (t' & Ht' & Hst & Hk & _). rewrite Ht' in Ht. by injection Ht as <-.
  - intros n Hn [_ Hno]%Hin. by apply Hno, Hdq.
  - apply Hp. by left.
  - apply Hp. by right; left.
  - apply Hp. by right; right; left.
  - assert (ext = pre ++ rest) as -> by (rewrite Htr in Htr'; by apply app_inv_head in Htr').
    destruct (Hall pre ltac:(by eexists)) as [Hold|[Hd|Hnew]].
    + left. intros n Hn. by rewrite Hold, Hs.
    + by destruct (dirty_rejected key id (apply_ops (ma_disk m) pre) o o flushID res ltac:(done) Hc).
    + right. intros n Hn. rewrite (Hnew n Hn), spec_flush_lookup. unfold seen_after, pool_content. destruct (Hat n Hn) as (t & -> & _ & _ & ->).
      rewrite decide_False; [done|]. rewrite elem_of_elements. by apply Hin in Hn as [_ ?].
Qed.

End session.

(** ** The property *)


(** Two databases, a flush, a drop, a write to the one that is left. *)
Definition sample_session : list pool_op :=
  [PoWrite "a" ([1], Some [10]); PoWrite "b" ([2], Some [20]); PoFlush [7]; PoDrop "b"; PoWrite "a" ([1], None); PoOpen "c"]%string.

Definition sample_write (p : SyncedPool) (n : string) (op : write) : SyncedPool := match handle_write p n op with Ok p => p | _ => p end.
Definition sample_written : SyncedPool := sample_write (sample_write NewSyncedPool "a" ([1], Some [10])) "b" ([2], Some [20]).
Definition sample_flushed : pool_result := SyncedPool_flush no_errors [0] [7] [] two_names two_names two_names sample_written two_machine.
Definition sample_final : SyncedPool := (SyncedPool_OpenDB (sample_write (handle_Drop sample_flushed.1.2 "b") "a" ([1], None)) "c").2.

Lemma sample_flush : SyncedPool_Flush no_errors [0] [7] sample_written two_machine (Ok tt, sample_flushed.1.2, sample_flushed.2).
Proof.
  exists [], two_names, two_names, two_names, (mk_SyncedPool (sp_wrappers sample_written) ∅). split; [by split|]. split; [|by vm_compute].
  assert (NoDup two_names /\ forall n, n ∈ two_names <-> is_Some (sp_wrappers sample_written !! n) /\ n ∉ @nil string) as Hnames.
  { split; [apply (bool_decide_unpack _); by vm_compute|]. intros n. unfold two_names. rewrite !elem_of_cons. split.
    - intros [->|[->|?%not_elem_of_nil]]; [..|done]; (split; [by eexists|apply not_elem_of_nil]).
    - intros [Hn _]. change (sp_wrappers sample_written) with
        (<["b"%string := default NewLazy (sp_wrappers sample_written !! "b"%string)]>
          (<["a"%string := default NewLazy (sp_wrappers sample_written !! "a"%string)]> (∅ : gmap string LazyFlushable))) in Hn.
      destruct (decide (n = "b"%string)) as [->|Hb]; [by right; left|]. rewrite lookup_insert_ne in Hn by done.
      destruct (decide (n = "a"%string)) as [->|Ha]; [by left|]. rewrite lookup_insert_ne, lookup_empty in Hn by done. by destruct Hn. }
  intros o Ho. repeat (apply elem_of_cons in Ho as [->|Ho]; [done|]). by apply not_elem_of_nil in Ho.
Qed.

Lemma sample_run : pool_run no_errors [0] (NewSyncedPool, two_machine) sample_session (sample_final, sample_flushed.2).
Proof.
  apply (run_snoc _ _ _ [_; _; _; _; _] (sample_write (handle_Drop sample_flushed.1.2 "b") "a" ([1], None), sample_flushed.2)); [|constructor].
  apply (run_snoc _ _ _ [_; _; _; _] (handle_Drop sample_flushed.1.2 "b", sample_flushed.2)); [|constructor; by vm_compute].
  apply (run_snoc _ _ _ [_; _; _] (sample_flushed.1.2, sample_flushed.2)); [|constructor].
  apply (run_snoc _ _ _ [_; _] (sample_written, two_machine)); [|constructor; apply sample_flush].
  apply (run_snoc _ _ _ [_] (sample_write NewSyncedPool "a" ([1], Some [10]), two_machine)); [|constructor; by vm_compute].
  apply (run_snoc _ _ _ [] (NewSyncedPool, two_machine)); [constructor|constructor; by vm_compute].
Qed.

