(* ===== verification/Flagged.v ===== *)
(** * kvdb/flaggedproducer: databases written directly, under a dirty mark

    Unlike the pool of FlushPool.v, this producer keeps nothing in memory: a
    database is marked dirty before the first write after a flush, and [Flush]
    marks all the databases clean with its identifier.  Disks, traces and the
    check at startup are those of FlushPool.v. *)

From S2P Require Import Prelude Bytes Kvdb KvStore RbTree Flushable FlushPool.

(** ** store.go *)

Section flagged.
(** The error, if any, of the next operation after a trace. *)
Context (io : list disk_op -> disk_op -> option string) (flushIDKey : list Z).

(** A [flaggedStore]: whether [Dirty] is set.  The flag is set before the mark
    is written. *)
Definition flagged_modified (name : string) (dirty : bool) (m : machine) : outcome unit * bool * machine :=
  if dirty then (Ok tt, true, m)
  else let '(r, m) := perform io m (OpWrite name [(flushIDKey, Some [DirtyPrefix])]) in (r, true, m).

(** [Put], [Delete] and [Write] of a batch. *)
Definition flagged_write (name : string) (ws : list write) (dirty : bool) (m : machine) : outcome unit * bool * machine :=
  let '(r, dirty, m) := flagged_modified name dirty m in
  match r with
  | Ok _ => let '(r, m) := perform io m (OpWrite name ws) in (r, dirty, m)
  | _ => (r, dirty, m)
  end.

Definition flagged_Put (name : string) (k v : list Z) : bool -> machine -> outcome unit * bool * machine := flagged_write name [(k, Some v)].
Definition flagged_Delete (name : string) (k : list Z) : bool -> machine -> outcome unit * bool * machine := flagged_write name [(k, None)].

(** ** producer.go *)

(** The opened databases and their flags. *)
Record FlaggedProducer := mk_FlaggedProducer { fg_dbs : gmap string bool }.

Definition flagged_OpenDB (name : string) (p : FlaggedProducer) (m : machine) : outcome unit * FlaggedProducer * machine :=
  match fg_dbs p !! name with
  | Some _ => (Ok tt, p, m)
  | None =>
      let '(r, m) := perform io m (OpOpen name) in
      (r, match r with Ok _ => mk_FlaggedProducer (<[name := false]> (fg_dbs p)) | _ => p end, m)
  end.

(** [DropFn]: the database is closed and dropped; errors are ignored. *)
Definition flagged_Drop (name : string) (p : FlaggedProducer) (m : machine) : FlaggedProducer * machine :=
  (mk_FlaggedProducer (delete name (fg_dbs p)), (perform io m (OpDrop name)).2).

(** An operation on an opened database. *)
Definition on_db (name : string) (f : bool -> machine -> outcome unit * bool * machine) (p : FlaggedProducer) (m : machine) :
    outcome unit * FlaggedProducer * machine :=
  match fg_dbs p !! name with
  | Some dirty => let '(r, dirty, m) := f dirty m in (r, mk_FlaggedProducer (<[name := dirty]> (fg_dbs p)), m)
  | None => (Err "not opened", p, m)
  end.

(** One turn of the loop of [Flush]: [MarkFlushID] goes through [Put]. *)
Definition flush_flagged (id : list Z) (name : string) : FlaggedProducer -> machine -> outcome unit * FlaggedProducer * machine :=
  on_db name (fun dirty m =>
    let '(r, dirty, m) := flagged_Put name flushIDKey (CleanPrefix :: id) dirty m in
    (r, match r with Ok _ => false | _ => dirty end, m)).

(** [order] is the order of the loop over the map. *)
Definition flagged_Flush (id : list Z) (order : list string) (p : FlaggedProducer) (m : machine) : outcome unit * FlaggedProducer * machine :=
  for_names (flush_flagged id) order p m.

Definition flagged_Initialize (flushID : option (list Z)) (dbNames o : list string) (p : FlaggedProducer) (m : machine) :
    outcome (option (list Z)) * FlaggedProducer * machine :=
  let '(r, p, m) := for_names flagged_OpenDB dbNames p m in
  match r with
  | Ok _ => (CheckDBsSynced ((fun n => Some (db_content (ma_disk m) n)) <$> o) flushIDKey flushID, p, m)
  | Err e => (Err e, p, m)
  | Panic e => (Panic e, p, m)
  end.

(** What an application does between two flushes: writes to the databases, until
    one of them fails. *)
Definition do_write (nw : string * list write) : FlaggedProducer -> machine -> outcome unit * FlaggedProducer * machine :=
  on_db nw.1 (flagged_write nw.1 nw.2).

Definition flagged_session (ops : list (string * list write)) (id : list Z) (order : list string) (p : FlaggedProducer) (m : machine) :
    outcome unit * FlaggedProducer * machine :=
  let '(r, p, m) := for_names do_write ops p m in
  match r with Ok _ => flagged_Flush id order p m | _ => (r, p, m) end.

(** The disk that the writes mean. *)
Definition written (d : disk) (ops : list (string * list write)) : disk := apply_ops d ((fun nw => OpWrite nw.1 nw.2) <$> ops).

(** ** What a crash may leave *)

Section session.
Context (id0 id : list Z) (W : list string) (d0 : disk) (ops : list (string * list write)).
Context (Hids : id0 <> id).
Context (Hd0 : forall n, n ∈ W -> db_content d0 n !! flushIDKey = Some (CleanPrefix :: id0)).

Definition flagged_old (d : disk) : Prop := forall n, n ∈ W -> db_content d n = db_content d0 n.
Definition flagged_new (d : disk) : Prop :=
  forall n, n ∈ W -> db_content d n = <[flushIDKey := CleanPrefix :: id]> (db_content (written d0 ops) n).
Definition mixed (d : disk) : Prop := exists n n', n ∈ W /\ n' ∈ W /\
  db_content d n !! flushIDKey = Some (CleanPrefix :: id) /\ db_content d n' !! flushIDKey = Some (CleanPrefix :: id0).
Definition survivable (d : disk) : Prop := flagged_old d \/ is_dirty flushIDKey [] W d \/ mixed d \/ flagged_new d.

(** After the writes [pre]: a database that is not dirty has not changed, and
    but for the mark all hold what was written. *)
Definition writing (pre : list (string * list write)) (p : FlaggedProducer) (d : disk) : Prop := forall n, n ∈ W ->
  delete flushIDKey (db_content d n) = delete flushIDKey (db_content (written d0 pre) n) /\
  exists b, fg_dbs p !! n = Some b /\
    if (b : bool) then db_content d n !! flushIDKey = Some [DirtyPrefix] else db_content d n = db_content d0 n.

(** Either one of [l] is dirty, or none has changed. *)
Lemma writing_cases pre p d (l : list string) : (forall n, n ∈ l -> n ∈ W) -> writing pre p d ->
  (exists n, n ∈ l /\ db_content d n !! flushIDKey = Some [DirtyPrefix]) \/
  forall n, n ∈ l -> db_content d n = db_content d0 n.
Proof.
  intros Hl Hw. induction l as [|n l IH]; [right; by intros n ?%not_elem_of_nil|].
  destruct IH as [(n' & ? & ?)|IH]; [intros; apply Hl; by right|left; exists n'; split; [by right|done]|].
  destruct (Hw n) as (_ & b & Hb & Hc); [apply Hl; by left|].
  destruct b; [left; exists n; split; [by left|done]|]. right. intros n' [->|?]%elem_of_cons; [done|by apply IH].
Qed.

Lemma writing_survivable pre p d : writing pre p d -> survivable d.
Proof.
  intros Hw. destruct (writing_cases pre p d W (fun n H => H) Hw) as [?|Hc]; [by right; left|]. left. intros n Hn. by apply Hc.
Qed.

Lemma delete_writes (m1 m2 : kv) (ws : list write) : flushIDKey ∉ ws.*1 ->
  delete flushIDKey m1 = delete flushIDKey m2 -> delete flushIDKey (apply_writes m1 ws) = delete flushIDKey (apply_writes m2 ws).
Proof.
  revert m1 m2. induction ws as [|[k v] ws IH]; intros m1 m2 Hk Hd; [done|]. csimpl in Hk. apply not_elem_of_cons in Hk as [Hk Hks].
  apply IH; [done|]. unfold apply_write. simpl. destruct v; [rewrite !delete_insert_ne by done; by rewrite Hd|].
  by rewrite !(delete_delete _ flushIDKey k), Hd.
Qed.

(** The first write of a clean database: its mark. *)
Lemma modified_step n b m r b' m' : n ∈ W -> flagged_modified n b m = (r, b', m') -> survivable (ma_disk m) ->
  (b = true -> db_content (ma_disk m) n !! flushIDKey = Some [DirtyPrefix]) ->
  along survivable m m' /\ b' = true /\ (r = Ok tt -> db_content (ma_disk m') n !! flushIDKey = Some [DirtyPrefix] /\
    delete flushIDKey (db_content (ma_disk m') n) = delete flushIDKey (db_content (ma_disk m) n) /\
    forall n', n' <> n -> db_content (ma_disk m') n' = db_content (ma_disk m) n').
Proof.
  intros Hn Hm Hs Hb. unfold flagged_modified in Hm. destruct b; [injection Hm as <- <- <-; split; [by apply along_refl|]; auto|].
  destruct (perform io m _) as [r1 m1] eqn:Hp. injection Hm as <- <- <-.
  assert (forall n', db_content (apply_op (ma_disk m) (OpWrite n [(flushIDKey, Some [DirtyPrefix])])) n' =
    if decide (n = n') then <[flushIDKey := [DirtyPrefix]]> (db_content (ma_disk m) n) else db_content (ma_disk m) n') as Hc by apply content_write.
  destruct (along_perform io survivable m _ r1 m1 Hp Hs) as [Hal Hend].
  - intros _. right; left. exists n. split; [done|]. by rewrite Hc, decide_True, lookup_insert_eq.
  - split; [done|]. split; [done|]. intros Hr. rewrite (Hend Hr). split; [by rewrite Hc, decide_True, lookup_insert_eq|]. split.
    + by rewrite Hc, decide_True, delete_insert_eq.
    + intros n' Hne. by rewrite Hc, decide_False.
Qed.

Lemma written_snoc pre n ws n' : db_content (written d0 (pre ++ [(n, ws)])) n' =
  if decide (n = n') then apply_writes (db_content (written d0 pre) n) ws else db_content (written d0 pre) n'.
Proof. unfold written. rewrite fmap_app, apply_ops_app. apply content_write. Qed.

Lemma write_step pre n ws p m r p' m' : n ∈ W -> flushIDKey ∉ ws.*1 -> writing pre p (ma_disk m) -> do_write (n, ws) p m = (r, p', m') ->
  along survivable m m' /\ (r = Ok tt -> writing (pre ++ [(n, ws)]) p' (ma_disk m')).
Proof.
  intros Hn Hk Hw Hd. unfold do_write, on_db in Hd. cbn [fst snd] in Hd. destruct (Hw n Hn) as (Hdel & b & Hb & Hc). rewrite Hb in Hd. unfold flagged_write in Hd.
  destruct (flagged_modified n b m) as [[r1 b1] m1] eqn:Hm.
  destruct (modified_step n b m r1 b1 m1 Hn Hm (writing_survivable _ _ _ Hw)) as (Hal1 & -> & Hend1); [by intros ->|].
  destruct r1 as [[]|e|e]; [|by injection Hd as <- <- <-..]. destruct (Hend1 eq_refl) as (Hmk & Hdel1 & Hoth). clear Hend1.
  destruct (perform io m1 (OpWrite n ws)) as [r2 m2] eqn:Hp. injection Hd as <- <- <-.
  destruct (along_perform io survivable m1 _ r2 m2 Hp (along_end _ _ _ Hal1)) as [Hal2 Hend2].
  - intros _. right; left. exists n. split; [done|]. by rewrite content_write, decide_True, apply_writes_foreign.
  - split; [by eapply along_trans|]. intros Hr n' Hn'. rewrite (Hend2 Hr), content_write, written_snoc. cbn [fg_dbs].
    destruct (decide (n = n')) as [<-|Hne].
    + split; [apply delete_writes; [done|by rewrite Hdel1]|]. exists true. split; [apply lookup_insert_eq|]. by rewrite apply_writes_foreign.
    + rewrite lookup_insert_ne, Hoth by done. by apply Hw.
Qed.

(** During the flush, the databases [pre] done. *)
Section flushing.
Context (pf : FlaggedProducer) (df : disk) (Hwf : writing ops pf df).

Definition flushing (pre : list string) (p : FlaggedProducer) (d : disk) : Prop := forall n, n ∈ W ->
  db_content d n = (if decide (n ∈ pre) then <[flushIDKey := CleanPrefix :: id]> (db_content df n) else db_content df n) /\
  fg_dbs p !! n = if decide (n ∈ pre) then Some false else fg_dbs pf !! n.

Lemma marked_written n : n ∈ W ->
  <[flushIDKey := CleanPrefix :: id]> (db_content df n) = <[flushIDKey := CleanPrefix :: id]> (db_content (written d0 ops) n).
Proof. intros Hn. rewrite <- insert_delete_eq, (proj1 (Hwf n Hn)). apply insert_delete_eq. Qed.

Lemma flushing_survivable pre p d : flushing pre p d -> survivable d.
Proof.
  intros Hf. set (todo := filter (fun n => n ∉ pre) W).
  assert (forall n, n ∈ todo -> n ∈ W /\ n ∉ pre) as Htodo by (intros n [? ?]%list_elem_of_filter; done).
  destruct (writing_cases ops pf df todo) as [(n & Hn & Hm)|Hold]; [intros n Hn; by apply Htodo|done| |].
  - right; left. exists n. destruct (Htodo n Hn). split; [done|]. rewrite (proj1 (Hf n ltac:(done))), decide_False by done. done.
  - destruct todo as [|n' l] eqn:Et.
    + right; right; right. intros n Hn. rewrite (proj1 (Hf n Hn)). rewrite decide_True; [by apply marked_written|].
      destruct (decide (n ∈ pre)); [done|]. exfalso. assert (n ∈ todo) as Hin by (by apply list_elem_of_filter). rewrite Et in Hin. by apply not_elem_of_nil in Hin.
    + destruct (Htodo n' ltac:(left)) as [Hn' Hp'].
      assert ((forall n, n ∈ W -> n ∉ pre) \/ exists n, n ∈ W /\ n ∈ pre) as [Hnone|(n & Hn & Hpre)].
      { destruct (decide (Exists (fun n => n ∈ pre) W)) as [He|He]; [right; by apply Exists_exists|].
        left. intros n Hn Hin. apply He, Exists_exists. by exists n. }
      * left. intros n Hn. rewrite (proj1 (Hf n Hn)), decide_False by auto. apply Hold. rewrite <- Et. apply list_elem_of_filter. auto.
      * right; right; left. exists n, n'. split; [done|]. split; [done|]. rewrite (proj1 (Hf n Hn)), (proj1 (Hf n' Hn')).
        rewrite decide_True, lookup_insert_eq, decide_False by done. split; [done|]. rewrite Hold by left. by apply Hd0.
Qed.

Lemma flush_step pre n p m r p' m' : n ∈ W -> n ∉ pre -> flushing pre p (ma_disk m) -> flush_flagged id n p m = (r, p', m') ->
  along survivable m m' /\ (r = Ok tt -> flushing (pre ++ [n]) p' (ma_disk m')).
Proof.
  intros Hn Hpre Hf Hd. unfold flush_flagged, on_db in Hd. destruct (Hf n Hn) as [Hcn Hbn]. rewrite decide_False in Hcn by done. rewrite decide_False in Hbn by done.
  destruct (Hwf n Hn) as (_ & b & Hb & Hc). rewrite Hbn, Hb in Hd. unfold flagged_Put, flagged_write in Hd.
  destruct (flagged_modified n b m) as [[r1 b1] m1] eqn:Hm.
  destruct (modified_step n b m r1 b1 m1 Hn Hm (flushing_survivable _ _ _ Hf)) as (Hal1 & -> & Hend1); [intros ->; by rewrite Hcn|].
  destruct r1 as [[]|e|e]; [|by injection Hd as <- <- <-..]. destruct (Hend1 eq_refl) as (Hmk & Hdel1 & Hoth). clear Hend1.
  destruct (perform io m1 (OpWrite n _)) as [r2 m2] eqn:Hp.
  assert (flushing (pre ++ [n]) (mk_FlaggedProducer (<[n := false]> (fg_dbs p))) (apply_op (ma_disk m1) (OpWrite n [(flushIDKey, Some (CleanPrefix :: id))]))) as Hfl.
  { intros n' Hn'. rewrite content_write. cbn [fg_dbs]. destruct (decide (n = n')) as [<-|Hne].
    - rewrite !decide_True by set_solver. split; [|apply lookup_insert_eq]. unfold apply_writes, apply_write. simpl.
      rewrite <- insert_delete_eq, Hdel1, Hcn. apply insert_delete_eq.
    - rewrite lookup_insert_ne, Hoth by done. destruct (Hf n' Hn') as [-> ->].
      destruct (decide (n' ∈ pre)); [rewrite !decide_True by set_solver|rewrite !decide_False by set_solver]; done. }
  destruct (along_perform io survivable m1 _ r2 m2 Hp (along_end _ _ _ Hal1)) as [Hal2 Hend2].
  - intros _. by eapply flushing_survivable.
  - destruct r2 as [[]|e|e]; injection Hd as <- <- <-; (split; [by eapply along_trans|]); try done. intros _. by rewrite (Hend2 eq_refl).
Qed.

End flushing.

Lemma writing_start p : (forall n, n ∈ W -> fg_dbs p !! n = Some false) -> writing [] p d0.
Proof. intros Hp n Hn. split; [done|]. exists false. by rewrite Hp. Qed.

Lemma session_along order p m r p' m' :
  NoDup W -> order ≡ₚ W -> ma_disk m = d0 -> (forall n, n ∈ W -> fg_dbs p !! n = Some false) ->
  (forall n ws, (n, ws) ∈ ops -> n ∈ W /\ flushIDKey ∉ ws.*1) -> flagged_session ops id order p m = (r, p', m') ->
  along survivable m m' /\ (r = Ok tt -> flagged_new (ma_disk m') /\ forall n, n ∈ W -> fg_dbs p' !! n = Some false).
Proof.
  intros Hnd Hord Hm Hp Hops Hs. unfold flagged_session in Hs. destruct (for_names do_write ops p m) as [[r1 p1] m1] eqn:Hw.
  destruct (for_names_along survivable (fun pre p m => writing pre p (ma_disk m)) do_write ops p m r1 p1 m1) as [Hal1 Hend1]; [| | |done|].
  - intros pre p0 m0. apply writing_survivable.
  - intros pre [n ws] p0 m0 r0 p0' m0' Hpre. destruct (Hops n ws) as [Hn Hk]; [|by apply write_step].
    eapply elem_of_prefix; [|exact Hpre]. set_solver.
  - rewrite Hm. by apply writing_start.
  - destruct r1 as [[]|e|e]; [|by injection Hs as <- <- <-..]. specialize (Hend1 eq_refl).
    destruct (for_names_along survivable (fun pre p m => flushing p1 (ma_disk m1) pre p (ma_disk m)) (flush_flagged id) order p1 m1 r p' m') as [Hal2 Hend2]; [| | |done|].
    + intros pre p0 m0. by apply flushing_survivable.
    + intros pre n p0 m0 r0 p0' m0' Hpre. destruct (order_fresh order pre n Hord Hnd Hpre). by apply flush_step.
    + intros n Hn. rewrite !decide_False by (apply not_elem_of_nil). done.
    + split; [by eapply along_trans|]. intros Hr. specialize (Hend2 Hr). split; intros n Hn; destruct (Hend2 n Hn) as [Hc Hb].
      * rewrite Hc, decide_True by (by rewrite Hord). by apply (marked_written p1).
      * by rewrite Hb, decide_True by (by rewrite Hord).
Qed.

End session.
End flagged.

(** Databases that the check accepts carry one mark, the one it returns. *)
Lemma check_loop_agree key dbs : forall flushID ni f ni', check_loop key dbs flushID ni = Ok (f, ni') ->
  (forall x, flushID = Some x -> f = Some x) /\ forall db mark, Some db ∈ dbs -> db !! key = Some mark -> f = Some mark.
Proof.
  induction dbs as [|[db|] dbs IH]; intros flushID ni f ni' Hc; cbn [check_loop] in Hc; [| |done].
  - injection Hc as -> ->. split; [done|]. by intros db mark ?%not_elem_of_nil.
  - destruct (db !! key) as [mk|] eqn:Hk.
    + destruct (HasPrefix mk _); [done|]. case_bool_decide as E; [|done]. destruct (IH _ _ _ _ Hc) as [H1 H2]. specialize (H1 _ eq_refl). subst f.
      split; [by intros x ->|]. intros db' mark [[= <-]|Hin]%elem_of_cons Hm; [|by apply (H2 db')]. rewrite Hk in Hm. injection Hm as <-. by rewrite <- E.
    + destruct (IH _ _ _ _ Hc) as [H1 H2]. split; [done|]. intros db' mark [[= <-]|Hin]%elem_of_cons Hm; [congruence|by apply (H2 db')].
Qed.

Lemma accepted_mark key dbs flushID res db mark :
  CheckDBsSynced dbs key flushID = Ok res -> Some db ∈ dbs -> db !! key = Some mark -> res = Some mark.
Proof.
  unfold CheckDBsSynced. destruct (check_loop _ _ _ _) as [[f ni]| |] eqn:E; [|done..]. cbn [outcome_bind]. intros Hc Hin Hm.
  destruct (check_loop_agree _ _ _ _ _ _ E) as [_ Ha]. rewrite (Ha db mark Hin Hm) in Hc. destruct ni; [done|]. by injection Hc as <-.
Qed.

(** ** Properties *)

(** C28: from databases left clean by a flush, let an application write to them
    in any order and then flush, every write to disk being possibly the last
    (an error stops it).  Whatever prefix of the writes a crash leaves, if the
    check of the next start finds the databases in sync then they hold what
    they held at the last flush and its mark is found, or all that was written
    and the new mark is found.  A session without error ends in the latter,
    with every flag cleared, so that the next session starts the same way. *)
Theorem flagged_crash_consistent (io : list disk_op -> disk_op -> option string) (key id0 id : list Z) (W order o : list string)
    (ops : list (string * list write)) (p p' : FlaggedProducer) (m m' : machine) (r : outcome unit)
    (pre rest : list disk_op) (flushID res : option (list Z)) :
  NoDup W -> id0 <> id -> order ≡ₚ W -> o ≡ₚ W ->
  (forall n, n ∈ W -> fg_dbs p !! n = Some false /\ db_content (ma_disk m) n !! key = Some (CleanPrefix :: id0)) ->
  (forall n ws, (n, ws) ∈ ops -> n ∈ W /\ key ∉ ws.*1) ->
  flagged_session io key ops id order p m = (r, p', m') -> ma_trace m' = ma_trace m ++ pre ++ rest ->
  let d := apply_ops (ma_disk m) pre in
  (CheckDBsSynced ((fun n => Some (db_content d n)) <$> o) key flushID = Ok res ->
    (forall n, n ∈ W -> db_content d n = db_content (ma_disk m) n /\ res = Some (CleanPrefix :: id0)) \/
    (forall n, n ∈ W -> db_content d n = <[key := CleanPrefix :: id]> (db_content (written (ma_disk m) ops) n) /\ res = Some (CleanPrefix :: id))) /\
  (r = Ok tt -> forall n, n ∈ W -> fg_dbs p' !! n = Some false /\
    db_content (ma_disk m') n = <[key := CleanPrefix :: id]> (db_content (written (ma_disk m) ops) n)).
Proof.
  intros Hnd Hids Hord Ho Hp Hops Hs Htr d.
  destruct (session_along io key id0 id W (ma_disk m) ops Hids (fun n Hn => proj2 (Hp n Hn)) order p m r p' m' Hnd Hord eq_refl
    (fun n Hn => proj1 (Hp n Hn)) Hops Hs) as [(ext & _ & Htr' & Hall) Hend].
  split; [|intros Hr n Hn; destruct (Hend Hr) as [Hnew Hfl]; split; [by apply Hfl|by apply Hnew]].
  assert (ext = pre ++ rest) as -> by (rewrite Htr in Htr'; by apply app_inv_head in Htr'). intros Hc.
  assert (forall n mark, n ∈ W -> db_content d n !! key = Some mark -> res = Some mark) as Hmark.
  { intros n mark Hn Hm. eapply accepted_mark; [exact Hc| |exact Hm]. apply list_elem_of_fmap. exists n. by rewrite Ho. }
  destruct (Hall pre ltac:(by eexists)) as [Hold|[Hd|[(n & n' & Hn & Hn' & Hm1 & Hm2)|Hnew]]].
  - left. intros n Hn. split; [by apply Hold|]. apply (Hmark n); [done|]. etrans; [exact (f_equal (fun c => c !! key) (Hold n Hn))|]. by apply Hp.
  - by apply (dirty_rejected key [] d W o flushID res Ho Hc) in Hd.
  - apply (Hmark n _ Hn) in Hm1. apply (Hmark n' _ Hn') in Hm2. congruence.
  - right. intros n Hn. split; [by apply Hnew|]. apply (Hmark n); [done|]. etrans; [exact (f_equal (fun c => c !! key) (Hnew n Hn))|]. apply lookup_insert_eq.
Qed.

(** Two databases flushed with the mark 5, written and flushed with the mark 7:
    a crash before the last write of the flush is refused. *)
Definition marked_disk : disk := <["a"%string := {[ [0] := [0; 5] ]}]> (<["b"%string := {[ [0] := [0; 5] ]}]> ∅).
Definition two_flags : FlaggedProducer := mk_FlaggedProducer (<["a"%string := false]> (<["b"%string := false]> ∅)).
Definition two_writes : list (string * list write) := [("a"%string, [([1], Some [10])]); ("a"%string, [([2], Some [20])])].
Definition two_session : outcome unit * FlaggedProducer * machine :=
  flagged_session no_errors [0] two_writes [7] two_names two_flags (mk_machine marked_disk []).

Definition flagged_crash (k : nat) : disk := apply_ops marked_disk (take k (ma_trace two_session.2)).

Example flagged_crash_points :
  let crash n := CheckDBsSynced ((fun x => Some (db_content (flagged_crash n) x)) <$> two_names) [0] None in
  crash 0%nat = Ok (Some [0; 5]) /\ crash 1%nat = Err "dirty state" /\ crash 4%nat = Err "not synced" /\
  crash 5%nat = Err "dirty state" /\ crash 6%nat = Ok (Some [0; 7]).
Proof. by vm_compute. Qed.

Lemma flagged_crash_consistent_witness :
  (forall n, n ∈ two_names -> db_content (flagged_crash 6) n = db_content marked_disk n /\ Some [0; 7] = Some [0; 5]) \/
  (forall n, n ∈ two_names -> db_content (flagged_crash 6) n = <[[0] := [0; 7]]> (db_content (written marked_disk two_writes) n) /\ Some [0; 7] = Some [0; 7]).
Proof.
  apply (flagged_crash_consistent no_errors [0] [5] [7] two_names two_names two_names two_writes two_flags two_session.1.2
    (mk_machine marked_disk []) two_session.2 (Ok tt) (take 6 (ma_trace two_session.2)) [] None (Some [0; 7])); try done.
  - apply (bool_decide_unpack _). by vm_compute.
  - intros n Hn. unfold two_names in Hn. list_cases; subst n; by vm_compute.
  - intros n ws Hin. unfold two_writes in Hin. list_cases; injection Hin as -> ->; (split; [by left|]); apply (bool_decide_unpack _); by vm_compute.
Defined.

(** The flag is set even if the mark could not be written: an application that
    goes on after the error writes to a database marked clean, and the check of
    the next start accepts the half-written data. *)
Example failed_mark_accepted :
  let m := mk_machine marked_disk [] in
  let '(r1, b1, m1) := flagged_Put (fun _ _ => Some "disk full"%string) [0] "a" [1] [10] false m in
  let '(r2, b2, m2) := flagged_Put no_errors [0] "a" [2] [20] b1 m1 in
  r1 = Err "disk full" /\ r2 = Ok tt /\ db_content (ma_disk m2) "a" !! [2] = Some [20] /\
  CheckDBsSynced ((fun x => Some (db_content (ma_disk m2) x)) <$> two_names) [0] None = Ok (Some [0; 5]).
Proof. by vm_compute. Qed.
