(* ===== verification/VecFC.v ===== *)
(** * vecengine/vector.go and vecfc/vector.go, vector_ops.go: vector clocks

    The engine works on two kinds of vectors through the interfaces of
    vecengine/vector.go, here the classes [HighestBeforeI] and [LowestAfterI].
    vecfc implements them as byte slices of little-endian cells.  The laws of
    [HighestBeforeLaws] and [LowestAfterLaws] say what the engine relies on,
    cell by cell; the byte implementation is proved to satisfy them.

    Index arithmetic on the slices is not reduced to 32 bits: a vector of
    fewer than 2^32 bytes is never indexed past that. *)

From S2P Require Import Prelude Bytes Pos Dag.
Local Open Scope go_scope.

(** ** vecfc/vector.go *)

Record BranchSeq := mk_BranchSeq { bs_Seq : Z; bs_MinSeq : Z }.

#[export] Instance BranchSeq_eq_dec : EqDecision BranchSeq.
Proof. solve_decision. Defined.

Definition zeroSeq : BranchSeq := mk_BranchSeq 0 0.
Definition forkDetectedSeq : BranchSeq := mk_BranchSeq 0 MaxInt32.

Definition BranchSeq_IsForkDetected (s : BranchSeq) : bool := bool_decide (s = forkDetectedSeq).

(** A vector is a byte slice; [i*n : i*n+4] is read as a little-endian word. *)
Definition word_at (b : list Z) (off : nat) : Z := le_value (take 4 (drop off b)).
Definition put_word (b : list Z) (off : nat) (v : Z) : list Z :=
  take off b ++ le_split 4 v ++ drop (off + 4) b.

Definition LowestAfterSeq := list Z.
Definition HighestBeforeSeq := list Z.

Definition NewLowestAfterSeq (size : nat) : LowestAfterSeq := replicate (size * 4) 0.
Definition NewHighestBeforeSeq (size : nat) : HighestBeforeSeq := replicate (size * 8) 0.

Definition LA_Size (b : LowestAfterSeq) : nat := (length b / 4)%nat.
Definition HB_Size (b : HighestBeforeSeq) : nat := (length b / 8)%nat.

Definition LA_Get (b : LowestAfterSeq) (i : nat) : Z :=
  if (LA_Size b <=? i)%nat then 0 else word_at b (i * 4).

(** [for i >= b.Size() { append zeros }]: the loop runs [i + 1 - Size] times. *)
Definition LA_extend (b : LowestAfterSeq) (i : nat) : LowestAfterSeq :=
  b ++ replicate ((i + 1 - LA_Size b) * 4) 0.

Definition LA_Set (b : LowestAfterSeq) (i : nat) (seq : Z) : LowestAfterSeq :=
  put_word (LA_extend b i) (i * 4) (u32 seq).

Definition HB_Get (b : HighestBeforeSeq) (i : nat) : BranchSeq :=
  if (HB_Size b <=? i)%nat then zeroSeq
  else mk_BranchSeq (word_at b (i * 8)) (word_at b (i * 8 + 4)).

Definition HB_extend (b : HighestBeforeSeq) (i : nat) : HighestBeforeSeq :=
  b ++ replicate ((i + 1 - HB_Size b) * 8) 0.

Definition HB_Set (b : HighestBeforeSeq) (i : nat) (seq : BranchSeq) : HighestBeforeSeq :=
  put_word (put_word (HB_extend b i) (i * 8) (u32 (bs_Seq seq))) (i * 8 + 4) (u32 (bs_MinSeq seq)).

(** ** vecfc/vector_ops.go *)

Definition LA_InitWithEvent (b : LowestAfterSeq) (i : nat) (e : BaseEvent) : LowestAfterSeq :=
  LA_Set b i (e_seq e).

Definition LA_Visit (b : LowestAfterSeq) (i : nat) (e : BaseEvent) : bool * LowestAfterSeq :=
  if negb (LA_Get b i =? 0) then (false, b) else (true, LA_Set b i (e_seq e)).

Definition HB_InitWithEvent (b : HighestBeforeSeq) (i : nat) (e : BaseEvent) : HighestBeforeSeq :=
  HB_Set b i (mk_BranchSeq (e_seq e) (e_seq e)).

Definition HB_IsForkDetected (b : HighestBeforeSeq) (i : nat) : bool :=
  BranchSeq_IsForkDetected (HB_Get b i).

Definition HB_IsEmpty (b : HighestBeforeSeq) (i : nat) : bool :=
  let seq := HB_Get b i in negb (BranchSeq_IsForkDetected seq) && (bs_Seq seq =? 0).

Definition HB_Seq (b : HighestBeforeSeq) (i : nat) : Z := bs_Seq (HB_Get b i).
Definition HB_MinSeq (b : HighestBeforeSeq) (i : nat) : Z := bs_MinSeq (HB_Get b i).

Definition HB_SetForkDetected (b : HighestBeforeSeq) (i : nat) : HighestBeforeSeq :=
  HB_Set b i forkDetectedSeq.

(** One turn of the loop of [CollectFrom]. *)
Definition HB_CollectFrom_step (other self : HighestBeforeSeq) (branchID : nat) : HighestBeforeSeq :=
  let hisSeq := HB_Get other branchID in
  if (bs_Seq hisSeq =? 0) && negb (BranchSeq_IsForkDetected hisSeq) then self
  else
    let mySeq := HB_Get self branchID in
    if BranchSeq_IsForkDetected mySeq then self
    else if BranchSeq_IsForkDetected hisSeq then HB_SetForkDetected self branchID
    else
      let '(mySeq, self) :=
        if (bs_Seq mySeq =? 0) || (bs_MinSeq hisSeq <? bs_MinSeq mySeq)
        then let m := mk_BranchSeq (bs_Seq mySeq) (bs_MinSeq hisSeq) in (m, HB_Set self branchID m)
        else (mySeq, self) in
      if bs_Seq mySeq <? bs_Seq hisSeq
      then HB_Set self branchID (mk_BranchSeq (bs_Seq hisSeq) (bs_MinSeq mySeq))
      else self.

Definition HB_CollectFrom (self other : HighestBeforeSeq) (num : nat) : HighestBeforeSeq :=
  foldl (HB_CollectFrom_step other) self (seq 0 num).

(** The loop of [GatherFrom], with its [break]. *)
Fixpoint HB_Gather_loop (other : HighestBeforeSeq) (highest : BranchSeq) (from : list nat) : BranchSeq :=
  match from with
  | [] => highest
  | branchID :: from' =>
      let branch := HB_Get other branchID in
      if BranchSeq_IsForkDetected branch then branch
      else HB_Gather_loop other (if bs_Seq highest <? bs_Seq branch then branch else highest) from'
  end.

Definition HB_GatherFrom (self : HighestBeforeSeq) (to : nat) (other : HighestBeforeSeq)
    (from : list nat) : HighestBeforeSeq :=
  HB_Set self to (HB_Gather_loop other zeroSeq from).

(** ** vecengine/vector.go: the interfaces of the engine *)

Class HighestBeforeI (T : Type) := {
  hb_New : nat -> T;
  hb_InitWithEvent : T -> nat -> BaseEvent -> T;
  hb_IsEmpty : T -> nat -> bool;
  hb_IsForkDetected : T -> nat -> bool;
  hb_Seq : T -> nat -> Z;
  hb_MinSeq : T -> nat -> Z;
  hb_SetForkDetected : T -> nat -> T;
  hb_CollectFrom : T -> T -> nat -> T;
  hb_GatherFrom : T -> nat -> T -> list nat -> T
}.

Class LowestAfterI (T : Type) := {
  la_New : nat -> T;
  la_InitWithEvent : T -> nat -> BaseEvent -> T;
  la_Visit : T -> nat -> BaseEvent -> bool * T
}.

#[export] Instance vecfc_HighestBefore : HighestBeforeI HighestBeforeSeq := {
  hb_New := NewHighestBeforeSeq;
  hb_InitWithEvent := HB_InitWithEvent;
  hb_IsEmpty := HB_IsEmpty;
  hb_IsForkDetected := HB_IsForkDetected;
  hb_Seq := HB_Seq;
  hb_MinSeq := HB_MinSeq;
  hb_SetForkDetected := HB_SetForkDetected;
  hb_CollectFrom := HB_CollectFrom;
  hb_GatherFrom := HB_GatherFrom
}.

#[export] Instance vecfc_LowestAfter : LowestAfterI LowestAfterSeq := {
  la_New := NewLowestAfterSeq;
  la_InitWithEvent := LA_InitWithEvent;
  la_Visit := LA_Visit
}.

(** ** The laws the engine relies on *)

Definition cell_u32 (s : BranchSeq) : Prop := is_u32 (bs_Seq s) /\ is_u32 (bs_MinSeq s).

(** Merge of an observed cell into one's own. *)
Definition merge_cell (my his : BranchSeq) : BranchSeq :=
  if (bs_Seq his =? 0) && negb (BranchSeq_IsForkDetected his) then my
  else if BranchSeq_IsForkDetected my then my
  else if BranchSeq_IsForkDetected his then forkDetectedSeq
  else mk_BranchSeq (Z.max (bs_Seq my) (bs_Seq his))
         (if (bs_Seq my =? 0) || (bs_MinSeq his <? bs_MinSeq my) then bs_MinSeq his else bs_MinSeq my).

Class HighestBeforeLaws (T : Type) `{!HighestBeforeI T} := {
  hb_wf : T -> Prop;
  hb_get : T -> nat -> BranchSeq;
  hb_get_u32 v i : hb_wf v -> cell_u32 (hb_get v i);
  hb_New_wf n : hb_wf (hb_New n);
  hb_New_get n i : hb_get (hb_New n) i = zeroSeq;
  hb_Init_wf v i e : hb_wf v -> is_u32 (e_seq e) -> hb_wf (hb_InitWithEvent v i e);
  hb_Init_get v i j e : hb_wf v -> is_u32 (e_seq e) ->
    hb_get (hb_InitWithEvent v i e) j =
    if decide (i = j) then mk_BranchSeq (e_seq e) (e_seq e) else hb_get v j;
  hb_Fork_wf v i : hb_wf v -> hb_wf (hb_SetForkDetected v i);
  hb_Fork_get v i j : hb_wf v ->
    hb_get (hb_SetForkDetected v i) j = if decide (i = j) then forkDetectedSeq else hb_get v j;
  hb_Collect_wf v w n : hb_wf v -> hb_wf w -> hb_wf (hb_CollectFrom v w n);
  hb_Collect_get v w n j : hb_wf v -> hb_wf w ->
    hb_get (hb_CollectFrom v w n) j =
    if decide (j < n)%nat then merge_cell (hb_get v j) (hb_get w j) else hb_get v j;
  hb_IsFork_get v i : hb_wf v -> hb_IsForkDetected v i = BranchSeq_IsForkDetected (hb_get v i);
  hb_IsEmpty_get v i : hb_wf v ->
    hb_IsEmpty v i = negb (BranchSeq_IsForkDetected (hb_get v i)) && (bs_Seq (hb_get v i) =? 0);
  hb_Seq_get v i : hb_wf v -> hb_Seq v i = bs_Seq (hb_get v i);
  hb_MinSeq_get v i : hb_wf v -> hb_MinSeq v i = bs_MinSeq (hb_get v i)
}.

Class LowestAfterLaws (T : Type) `{!LowestAfterI T} := {
  la_wf : T -> Prop;
  la_get : T -> nat -> Z;
  la_New_wf n : la_wf (la_New n);
  la_New_get n i : la_get (la_New n) i = 0;
  la_Init_wf v i e : la_wf v -> is_u32 (e_seq e) -> la_wf (la_InitWithEvent v i e);
  la_Init_get v i j e : la_wf v -> is_u32 (e_seq e) ->
    la_get (la_InitWithEvent v i e) j = if decide (i = j) then e_seq e else la_get v j;
  la_Visit_wf v i e : la_wf v -> is_u32 (e_seq e) -> la_wf (la_Visit v i e).2;
  la_Visit_fst v i e : la_wf v -> (la_Visit v i e).1 = (la_get v i =? 0);
  la_Visit_get v i j e : la_wf v -> is_u32 (e_seq e) ->
    la_get (la_Visit v i e).2 j =
    if decide (i = j /\ la_get v i = 0) then e_seq e else la_get v j
}.

(** * The byte vectors satisfy the laws *)

Definition vec_wf (cell : nat) (b : list Z) : Prop :=
  Forall is_byte b /\ (length b mod cell = 0)%nat.

Lemma is_byte_0 : is_byte 0.
Proof. unfold is_byte. lia. Qed.

Lemma zeros_wf cell n : vec_wf cell (replicate (n * cell) 0).
Proof.
  split; [apply Forall_replicate, is_byte_0|]. rewrite length_replicate. apply Nat.Div0.mod_mul.
Qed.

Lemma le_value_zeros n : le_value (replicate n 0) = 0.
Proof. induction n as [|n IH]; simpl; lia. Qed.

Lemma word_at_u32 b off : Forall is_byte b -> is_u32 (word_at b off).
Proof.
  intros Hb. unfold word_at. assert (Forall is_byte (take 4 (drop off b))) as Hw by auto using Forall_take, Forall_drop.
  pose proof (le_value_bound _ Hw) as Hv. rewrite length_take in Hv.
  assert (256 ^ Z.of_nat (4 `min` length (drop off b)) <= 256 ^ 4) by (apply Z.pow_le_mono_r; lia).
  unfold is_u32. lia.
Qed.

Lemma put_word_length b off v : (off + 4 <= length b)%nat -> length (put_word b off v) = length b.
Proof.
  intros Hle. unfold put_word. rewrite !length_app, le_split_length, length_take, length_drop. lia.
Qed.

Lemma put_word_bytes b off v : Forall is_byte b -> Forall is_byte (put_word b off v).
Proof.
  intros Hb. unfold put_word. rewrite !Forall_app.
  auto using Forall_take, Forall_drop, le_split_bytes.
Qed.

Lemma word_at_put_eq b off v :
  (off + 4 <= length b)%nat -> is_u32 v -> word_at (put_word b off v) off = v.
Proof.
  intros Hle Hv. unfold word_at, put_word.
  rewrite drop_app_length' by (rewrite length_take; lia).
  rewrite take_app_length' by (by rewrite le_split_length).
  rewrite le_value_split. by apply Z.mod_small.
Qed.

Lemma word_at_put_ne b off off' v :
  (off + 4 <= length b)%nat -> (off' + 4 <= off \/ off + 4 <= off')%nat ->
  word_at (put_word b off v) off' = word_at b off'.
Proof.
  intros Hle Hd. unfold word_at. f_equal. apply list_eq. intros k.
  destruct (decide (k < 4)%nat) as [Hk|Hk].
  - rewrite !lookup_take_lt, !lookup_drop by done. unfold put_word.
    destruct (decide (off' + k < off)%nat) as [Hlo|Hhi].
    + rewrite lookup_app_l by (rewrite length_take; lia). by rewrite lookup_take_lt.
    + rewrite lookup_app_r by (rewrite length_take; lia).
      rewrite lookup_app_r by (rewrite length_take, le_split_length; lia).
      rewrite lookup_drop, length_take, le_split_length. f_equal. lia.
  - rewrite !lookup_take_ge by lia. done.
Qed.

Lemma word_at_app_l b c off : (off + 4 <= length b)%nat -> word_at (b ++ c) off = word_at b off.
Proof.
  intros Hle. unfold word_at. f_equal. rewrite drop_app_le by lia.
  by rewrite take_app_le by (rewrite length_drop; lia).
Qed.

Lemma word_at_app_zeros b n off : (length b <= off)%nat -> word_at (b ++ replicate n 0) off = 0.
Proof.
  intros Hle. unfold word_at. rewrite drop_app_ge by done. rewrite drop_replicate, take_replicate.
  apply le_value_zeros.
Qed.

(** Slicing by cells of [c] bytes. *)
Lemma cells_length c (b : list Z) : (0 < c)%nat -> (length b mod c = 0)%nat -> length b = ((length b / c) * c)%nat.
Proof. intros Hc Hm. pose proof (Nat.div_mod_eq (length b) c). lia. Qed.

Lemma cells_extend c (b : list Z) i :
  (0 < c)%nat -> (length b mod c = 0)%nat ->
  length (b ++ replicate ((i + 1 - length b / c) * c) 0) = (Nat.max (i + 1) (length b / c) * c)%nat.
Proof.
  intros Hc Hm. rewrite length_app, length_replicate, (cells_length c b) at 1 by done. nia.
Qed.

Lemma extend_wf c (b : list Z) n : vec_wf c b -> vec_wf c (b ++ replicate (n * c) 0).
Proof.
  intros [Hb Hm]. split.
  - apply Forall_app. split; [done|]. apply Forall_replicate, is_byte_0.
  - rewrite length_app, length_replicate, Nat.Div0.mod_add. done.
Qed.

Lemma put_word_wf c b off v : vec_wf c b -> (off + 4 <= length b)%nat -> vec_wf c (put_word b off v).
Proof. intros [Hb Hm] Hle. split; [by apply put_word_bytes|by rewrite put_word_length]. Qed.

(** Extension by zero cells. *)
Lemma extend_size c (b : list Z) i :
  (0 < c)%nat -> (length b mod c = 0)%nat ->
  (length (b ++ replicate ((i + 1 - length b / c) * c) 0%Z) / c = Nat.max (i + 1) (length b / c))%nat.
Proof. intros Hc Hm. rewrite cells_extend by done. apply Nat.div_mul. lia. Qed.

Lemma cell_in_range c (b : list Z) j off :
  (0 < c)%nat -> (length b mod c = 0)%nat -> (j < length b / c)%nat -> (off + 4 <= c)%nat ->
  (j * c + off + 4 <= length b)%nat.
Proof. intros Hc Hm Hj Ho. pose proof (cells_length c b Hc Hm). nia. Qed.

(** A word of a cell after extension: what it was, or zero. *)
Lemma word_at_extend c (b : list Z) i j off :
  (0 < c)%nat -> (length b mod c = 0)%nat -> (off + 4 <= c)%nat ->
  word_at (b ++ replicate ((i + 1 - length b / c) * c) 0) (j * c + off) =
  if (length b / c <=? j)%nat then 0 else word_at b (j * c + off).
Proof.
  intros Hc Hm Ho. destruct (_ <=? _)%nat eqn:E; bool_to_prop.
  - apply word_at_app_zeros. pose proof (cells_length c b Hc Hm). nia.
  - apply word_at_app_l. by apply cell_in_range.
Qed.

(** *** LowestAfterSeq *)

Lemma LA_Set_length b i v :
  vec_wf 4 b -> length (LA_Set b i v) = (Nat.max (i + 1) (LA_Size b) * 4)%nat.
Proof.
  intros [_ Hm]. unfold LA_Set, LA_extend, LA_Size.
  rewrite put_word_length; rewrite cells_extend by (done || lia); [done|nia].
Qed.

Lemma LA_Set_wf b i v : vec_wf 4 b -> vec_wf 4 (LA_Set b i v).
Proof.
  intros Hb. unfold LA_Set, LA_extend. apply put_word_wf; [by apply extend_wf|].
  unfold LA_Size. destruct Hb. rewrite cells_extend by (done || lia). nia.
Qed.

Lemma LA_Get_Set b i j v :
  vec_wf 4 b -> is_u32 v -> LA_Get (LA_Set b i v) j = if decide (i = j) then v else LA_Get b j.
Proof.
  intros Hb Hv. pose proof (LA_Set_length b i v Hb) as Hlen. unfold LA_Get at 1.
  replace (LA_Size (LA_Set b i v)) with (Nat.max (i + 1) (LA_Size b))
    by (unfold LA_Size at 2; rewrite Hlen, Nat.div_mul; lia).
  destruct Hb as [Hb Hm].
  assert (length (LA_extend b i) = (Nat.max (i + 1) (LA_Size b) * 4)%nat) as Hle
    by (apply cells_extend; [lia|done]).
  unfold LA_Set. rewrite u32_small by done. destruct (decide (i = j)) as [<-|Hne].
  - destruct (_ <=? i)%nat eqn:E; bool_to_prop; [lia|]. rewrite word_at_put_eq; [done|lia|done].
  - destruct (_ <=? j)%nat eqn:E; bool_to_prop.
    + unfold LA_Get. destruct (LA_Size b <=? j)%nat eqn:E2; bool_to_prop; [done|lia].
    + rewrite word_at_put_ne by lia. unfold LA_extend, LA_Size, LA_Get.
      pose proof (word_at_extend 4 b i j 0 ltac:(lia) Hm ltac:(lia)) as H.
      rewrite Nat.add_0_r in H. exact H.
Qed.

Lemma LA_Get_New n i : LA_Get (NewLowestAfterSeq n) i = 0.
Proof.
  unfold LA_Get. destruct (_ <=? _)%nat; [done|].
  apply (word_at_app_zeros [] (n * 4)). simpl. lia.
Qed.

(** *** HighestBeforeSeq *)

Lemma HB_extend_length b i :
  vec_wf 8 b -> length (HB_extend b i) = (Nat.max (i + 1) (HB_Size b) * 8)%nat.
Proof. intros [_ Hm]. apply cells_extend; [lia|done]. Qed.

Lemma HB_Set_length b i s :
  vec_wf 8 b -> length (HB_Set b i s) = (Nat.max (i + 1) (HB_Size b) * 8)%nat.
Proof.
  intros Hb. unfold HB_Set. pose proof (HB_extend_length b i Hb) as Hl.
  assert (i * 8 + 4 + 4 <= length (HB_extend b i))%nat by lia.
  rewrite put_word_length; rewrite put_word_length; lia.
Qed.

Lemma HB_Set_wf b i s : vec_wf 8 b -> vec_wf 8 (HB_Set b i s).
Proof.
  intros Hb. pose proof (HB_extend_length b i Hb) as Hl. unfold HB_Set.
  apply put_word_wf; [apply put_word_wf; [by apply extend_wf|lia]|].
  rewrite put_word_length; lia.
Qed.

Lemma HB_Get_Set b i j s :
  vec_wf 8 b -> cell_u32 s -> HB_Get (HB_Set b i s) j = if decide (i = j) then s else HB_Get b j.
Proof.
  intros Hb [Hs Hm]. pose proof (HB_Set_length b i s Hb) as Hlen. unfold HB_Get at 1.
  replace (HB_Size (HB_Set b i s)) with (Nat.max (i + 1) (HB_Size b))
    by (unfold HB_Size at 2; rewrite Hlen, Nat.div_mul; lia).
  pose proof (HB_extend_length b i Hb) as Hl. destruct Hb as [Hb Hmod].
  unfold HB_Set. rewrite !u32_small by done. destruct (decide (i = j)) as [<-|Hne].
  - destruct (_ <=? i)%nat eqn:E; bool_to_prop; [lia|].
    rewrite word_at_put_ne, word_at_put_eq by (rewrite ?put_word_length; done || lia).
    rewrite word_at_put_eq by (rewrite ?put_word_length; done || lia). by destruct s.
  - destruct (_ <=? j)%nat eqn:E; bool_to_prop.
    + unfold HB_Get. destruct (HB_Size b <=? j)%nat eqn:E2; bool_to_prop; [done|lia].
    + rewrite !word_at_put_ne by (rewrite ?put_word_length; lia). unfold HB_extend, HB_Size, HB_Get.
      pose proof (word_at_extend 8 b i j 0 ltac:(lia) Hmod ltac:(lia)) as H0.
      pose proof (word_at_extend 8 b i j 4 ltac:(lia) Hmod ltac:(lia)) as H4.
      rewrite Nat.add_0_r in H0. rewrite H0, H4. unfold HB_Size. by destruct (_ <=? _)%nat.
Qed.

Lemma HB_Get_New n i : HB_Get (NewHighestBeforeSeq n) i = zeroSeq.
Proof.
  unfold HB_Get. destruct (_ <=? _)%nat; [done|].
  rewrite !(word_at_app_zeros [] (n * 8)) by (simpl; lia). done.
Qed.

Lemma HB_Get_u32 b i : vec_wf 8 b -> cell_u32 (HB_Get b i).
Proof.
  intros [Hb _]. unfold HB_Get. destruct (_ <=? _)%nat; [split; simpl; solve_width|].
  split; simpl; by apply word_at_u32.
Qed.

Lemma cell_u32_fork : cell_u32 forkDetectedSeq.
Proof. split; simpl; solve_width. Qed.

#[export] Hint Resolve LA_Set_wf HB_Set_wf HB_Get_u32 cell_u32_fork : lachesis.

Lemma HB_Collect_step_wf other self i :
  vec_wf 8 self -> vec_wf 8 (HB_CollectFrom_step other self i).
Proof.
  intros Hs. unfold HB_CollectFrom_step. destruct (_ && _); [done|].
  destruct (BranchSeq_IsForkDetected _); [done|].
  destruct (BranchSeq_IsForkDetected _); [by apply HB_Set_wf|].
  destruct (_ || _); destruct (_ <? _); auto using HB_Set_wf.
Qed.

Lemma HB_Collect_step_get other self i j :
  vec_wf 8 self -> vec_wf 8 other ->
  HB_Get (HB_CollectFrom_step other self i) j =
  if decide (i = j) then merge_cell (HB_Get self j) (HB_Get other j) else HB_Get self j.
Proof.
  intros Hs Ho. pose proof (HB_Get_u32 self i Hs) as [Hm1 Hm2]. pose proof (HB_Get_u32 other i Ho) as [Hh1 Hh2].
  unfold HB_CollectFrom_step, merge_cell.
  destruct (decide (i = j)) as [<-|Hne].
  2:{ repeat case_match; simplify_eq/=; unfold HB_SetForkDetected;
      rewrite ?HB_Get_Set by (auto using HB_Set_wf; try done; split; simpl; done); by rewrite ?decide_False. }
  destruct (HB_Get self i) as [my mymin] eqn:Hmy. destruct (HB_Get other i) as [his hismin] eqn:Hhis. simpl in *.
  destruct ((his =? 0) && _) eqn:E1; [done|].
  destruct (BranchSeq_IsForkDetected (mk_BranchSeq my _)) eqn:E2; [done|].
  destruct (BranchSeq_IsForkDetected (mk_BranchSeq his _)) eqn:E3.
  { unfold HB_SetForkDetected. rewrite HB_Get_Set by auto with lachesis. by rewrite decide_True. }
  destruct ((my =? 0) || _) eqn:E4; simpl.
  - destruct (my <? his) eqn:E5; rewrite HB_Get_Set, decide_True by (auto with lachesis; try done; split; simpl; done);
      bool_to_prop; f_equal; lia.
  - destruct (my <? his) eqn:E5; [rewrite HB_Get_Set, decide_True by (auto with lachesis; try done; split; simpl; done)|];
      rewrite ?Hmy; bool_to_prop; f_equal; lia.
Qed.

Lemma HB_Collect_wf self other n : vec_wf 8 self -> vec_wf 8 (HB_CollectFrom self other n).
Proof.
  unfold HB_CollectFrom. generalize (seq 0 n). intros l. revert self.
  induction l as [|i l IH]; intros self Hs; simpl; [done|]. apply IH. by apply HB_Collect_step_wf.
Qed.

Lemma HB_Collect_get self other n j :
  vec_wf 8 self -> vec_wf 8 other ->
  HB_Get (HB_CollectFrom self other n) j =
  if decide (j < n)%nat then merge_cell (HB_Get self j) (HB_Get other j) else HB_Get self j.
Proof.
  intros Hs Ho. induction n as [|n IH]; [done|].
  unfold HB_CollectFrom in *. rewrite seq_S, foldl_app. simpl.
  rewrite HB_Collect_step_get by (done || by apply HB_Collect_wf).
  rewrite IH. destruct (decide (n = j)) as [<-|Hne].
  - rewrite decide_False, decide_True by lia. done.
  - destruct (decide (j < n)%nat), (decide (j < S n)%nat); done || lia.
Qed.

#[export] Instance vecfc_HighestBeforeLaws : HighestBeforeLaws HighestBeforeSeq.
Proof.
  refine {| hb_wf := vec_wf 8; hb_get := HB_Get |}; simpl; try done.
  - apply HB_Get_u32.
  - intros n. apply zeros_wf.
  - apply HB_Get_New.
  - intros v i e Hv _. by apply HB_Set_wf.
  - intros v i j e Hv He. by apply HB_Get_Set.
  - intros v i Hv. by apply HB_Set_wf.
  - intros v i j Hv. apply HB_Get_Set; auto with lachesis.
  - intros v w n Hv _. by apply HB_Collect_wf.
  - intros v w n j Hv Hw. by apply HB_Collect_get.
Defined.

#[export] Instance vecfc_LowestAfterLaws : LowestAfterLaws LowestAfterSeq.
Proof.
  refine {| la_wf := vec_wf 4; la_get := LA_Get |}; simpl.
  - intros n. apply zeros_wf.
  - apply LA_Get_New.
  - intros v i e Hv _. by apply LA_Set_wf.
  - intros v i j e Hv He. by apply LA_Get_Set.
  - intros v i e Hv _. unfold LA_Visit. destruct (negb _); [done|by apply LA_Set_wf].
  - intros v i e Hv. unfold LA_Visit. by destruct (LA_Get v i =? 0).
  - intros v i j e Hv He. unfold LA_Visit. destruct (LA_Get v i =? 0) eqn:E; bool_to_prop; simpl.
    + rewrite LA_Get_Set by done. by destruct (decide (i = j)), (decide (i = j /\ _)); naive_solver.
    + rewrite decide_False; naive_solver.
Defined.

Lemma foldr_max_ge (f : nat -> Z) l z i : i ∈ l -> f i <= foldr (fun i m => Z.max (f i) m) z l.
Proof. induction 1; simpl; lia. Qed.

(** The loop of [GatherFrom] with its [break]: a flagged branch wins. *)
Lemma Gather_loop_flagged other from highest :
  Exists (fun i => HB_IsForkDetected other i) from ->
  HB_Gather_loop other highest from = forkDetectedSeq.
Proof.
  revert highest. induction from as [|i from IH]; intros highest; [by inversion 1|].
  rewrite Exists_cons. simpl. unfold HB_IsForkDetected.
  destruct (BranchSeq_IsForkDetected (HB_Get other i)) eqn:E.
  - intros _. by apply bool_decide_eq_true in E.
  - intros [[]|H]. by apply IH.
Qed.

Lemma Gather_loop_max other from highest :
  Forall (fun i => HB_IsForkDetected other i = false) from ->
  bs_Seq (HB_Gather_loop other highest from) =
    foldr (fun i m => Z.max (HB_Seq other i) m) (bs_Seq highest) from /\
  (HB_Gather_loop other highest from = highest \/
   exists i, i ∈ from /\ HB_Gather_loop other highest from = HB_Get other i).
Proof.
  revert highest. induction from as [|i from IH]; intros highest Hf; [naive_solver|].
  apply Forall_cons in Hf as [Hi Hf]. unfold HB_IsForkDetected in Hi. simpl. rewrite Hi.
  destruct (IH (if bs_Seq highest <? bs_Seq (HB_Get other i) then HB_Get other i else highest) Hf) as [Hs Hc].
  assert (forall a b l, foldr (fun i m => Z.max (HB_Seq other i) m) (Z.max a b) l =
            Z.max a (foldr (fun i m => Z.max (HB_Seq other i) m) b l)) as Hmax.
  { intros a b l. induction l as [|k l IHl]; simpl; lia. }
  split.
  - rewrite Hs, <- Hmax. f_equal. unfold HB_Seq. destruct (_ <? _) eqn:E; bool_to_prop; lia.
  - destruct Hc as [Hc|(k & Hk & Hc)]; [|right; exists k; split; [by right|done]].
    rewrite Hc. destruct (_ <? _); [right; exists i; split; [by left|done]|by left].
Qed.

Lemma Gather_loop_u32 other from :
  vec_wf 8 other -> cell_u32 (HB_Gather_loop other zeroSeq from).
Proof.
  intros Ho. destruct (decide (Exists (fun i => HB_IsForkDetected other i) from)) as [He|He].
  - rewrite Gather_loop_flagged by done. auto with lachesis.
  - apply not_Exists_Forall in He; [|intros; apply _].
    destruct (Gather_loop_max other from zeroSeq) as [_ [->|(i & _ & ->)]]; auto with lachesis.
    + eapply Forall_impl; [done|]. simpl. intros i. by destruct (HB_IsForkDetected other i).
    + split; simpl; solve_width.
Qed.

Lemma GatherFrom_get self to other from j :
  vec_wf 8 self -> vec_wf 8 other ->
  HB_Get (HB_GatherFrom self to other from) j =
  if decide (to = j) then HB_Gather_loop other zeroSeq from else HB_Get self j.
Proof. intros Hs Ho. apply HB_Get_Set; [done|by apply Gather_loop_u32]. Qed.

(** ** Properties *)

(** [CollectFrom] on the byte vectors is the cell-wise merge: a fork
    detected on either side is detected in the result, an empty cell of the
    other vector changes nothing, otherwise the highest sequence number and
    the lowest first one are kept; the cells from [num] on are untouched. *)
Theorem CollectFrom_pointwise (self other : HighestBeforeSeq) (num j : nat) :
  vec_wf 8 self -> vec_wf 8 other ->
  vec_wf 8 (HB_CollectFrom self other num) /\
  HB_Get (HB_CollectFrom self other num) j =
    if decide (j < num)%nat then merge_cell (HB_Get self j) (HB_Get other j) else HB_Get self j.
Proof. intros Hs Ho. split; [by apply HB_Collect_wf|by apply HB_Collect_get]. Qed.

(** [GatherFrom] merges the branches of one validator into one cell: fork
    detected when any of them is flagged, otherwise a cell with the highest
    sequence number among them. *)
Theorem GatherFrom_cell (self other : HighestBeforeSeq) (to : nat) (from : list nat) (j : nat) :
  vec_wf 8 self -> vec_wf 8 other ->
  (j <> to -> HB_Get (HB_GatherFrom self to other from) j = HB_Get self j) /\
  (Exists (fun i => HB_IsForkDetected other i) from ->
     HB_Get (HB_GatherFrom self to other from) to = forkDetectedSeq) /\
  (Forall (fun i => HB_IsForkDetected other i = false) from ->
     HB_Seq (HB_GatherFrom self to other from) to = foldr (fun i m => Z.max (HB_Seq other i) m) 0 from).
Proof.
  intros Hs Ho. unfold HB_Seq at 1.
  rewrite !GatherFrom_get, (decide_True _ _ (eq_refl to)) by done. repeat split.
  - intros Hj. by rewrite decide_False.
  - apply Gather_loop_flagged.
  - apply Gather_loop_max.
Qed.

