(* ===== verification/ForklessCause.v ===== *)
(** * vecfc/forkless_cause.go: what "forkless cause" means on the event graph

    [fc vv D a b] is the relation the vector clocks are meant to decide: [a]
    observes no fork of the creator of [b], and observes, for a quorum of
    validators it has not seen fork, an event of theirs that observes [b].
    VecEngine.v proves that [Index.forklessCause] computes it.  Here are the
    facts the consensus rests on, stated of the graph alone. *)

From S2P Require Import Prelude Bytes Pos Dag.

(** A validator [c], not seen to fork, through which [a] observes [b]. *)
Definition observes_via (D : gmap Z BaseEvent) (a b c : Z) : Prop :=
  ~ sees_fork D a c /\
  exists x ex, D !! x = Some ex /\ e_creator ex = c /\ anc D a x /\ anc D x b.

Definition fc (vv : Validators) (D : gmap Z BaseEvent) (a b : Z) : Prop :=
  exists eb, D !! b = Some eb /\ ~ sees_fork D a (e_creator eb) /\
  exists Q : Z -> bool, is_quorum vv Q /\
    forall c, c ∈ SortedIDs vv -> Q c = true -> observes_via D a b c.

(** The chain of self-parents. *)
Definition self_parent_of (D : gmap Z BaseEvent) (y x : Z) : Prop :=
  exists e, D !! y = Some e /\ SelfParent e = Some x.
Definition self_anc (D : gmap Z BaseEvent) : Z -> Z -> Prop := rtc (self_parent_of D).

(** Two events of one creator on different branches. *)
Definition conflict (D : gmap Z BaseEvent) (x y : Z) : Prop :=
  (exists ex ey, D !! x = Some ex /\ D !! y = Some ey /\ e_creator ex = e_creator ey) /\
  ~ self_anc D x y /\ ~ self_anc D y x.

Section facts.
Context (vv : Validators) (epoch : Z) (Hwf : wf vv).
Implicit Types (D : gmap Z BaseEvent).

Lemma self_parent_event D y x :
  dag vv epoch D -> self_parent_of D y x ->
  exists ey ex, D !! y = Some ey /\ D !! x = Some ex /\ e_creator ex = e_creator ey /\
    e_seq ey = e_seq ex + 1 /\ parent D y x.
Proof.
  intros HD (e & He & Hsp).
  destruct (eo_next _ _ _ (dag_event_ok _ _ _ _ _ HD He) _ Hsp) as (Hin & pe & Hpe & Hc & Hs).
  exists e, pe. repeat split; try done. by exists e.
Qed.

Lemma self_anc_anc D y x : dag vv epoch D -> self_anc D y x -> anc D y x.
Proof.
  intros HD Hr. induction Hr as [|y z x Hyz _ IH]; [constructor|].
  destruct (self_parent_event D y z HD Hyz) as (? & ? & _ & _ & _ & _ & Hp). by eapply rtc_l.
Qed.

Lemma self_anc_event D y x ey :
  dag vv epoch D -> self_anc D y x -> D !! y = Some ey ->
  exists ex, D !! x = Some ex /\ e_creator ex = e_creator ey /\ e_seq ex <= e_seq ey /\
    (e_seq ex = e_seq ey -> x = y).
Proof.
  intros HD Hr. revert ey. induction Hr as [y|y z x Hyz _ IH]; intros ey Hy.
  - exists ey. repeat split; try done; lia.
  - destruct (self_parent_event D y z HD Hyz) as (ey' & ez & Hy' & Hz & Hc & Hs & _). simplify_eq.
    destruct (IH ez Hz) as (ex & Hx & Hcx & Hle & _). exists ex. repeat split; [done|congruence|lia|lia].
Qed.

(** Every lower sequence number occurs among the self-ancestors. *)
Lemma self_anc_at D y ey s :
  dag vv epoch D -> D !! y = Some ey -> 1 <= s <= e_seq ey ->
  exists x ex, self_anc D y x /\ D !! x = Some ex /\ e_seq ex = s.
Proof.
  intros HD. remember (Z.to_nat (e_seq ey - s)) as n eqn:Hn. revert y ey Hn.
  induction n as [|n IH]; intros y ey Hn Hy Hs.
  - exists y, ey. split; [constructor|]. split; [done|lia].
  - pose proof (dag_event_ok _ _ _ _ _ HD Hy) as Hok.
    destruct (SelfParent ey) as [sp|] eqn:Hsp.
    + destruct (eo_next _ _ _ Hok _ Hsp) as (_ & pe & Hpe & _ & Hseq).
      destruct (IH sp pe ltac:(lia) Hpe ltac:(lia)) as (x & ex & Hx & Hex & Hsx).
      exists x, ex. split; [|done]. eapply rtc_l; [|done]. by exists ey.
    + apply (eo_first _ _ _ Hok) in Hsp. lia.
Qed.

(** Observing two branches of a creator is observing its fork. *)
Lemma conflict_sees_fork D a x y ex :
  dag vv epoch D -> anc D a x -> anc D a y -> conflict D x y -> D !! x = Some ex ->
  sees_fork D a (e_creator ex).
Proof.
  intros HD. revert x y ex.
  assert (forall x y ex ey, anc D a x -> anc D a y -> D !! x = Some ex -> D !! y = Some ey ->
    e_creator ex = e_creator ey -> ~ self_anc D y x -> e_seq ex <= e_seq ey ->
    sees_fork D a (e_creator ex)) as Hle.
  { intros x y ex ey Hax Hay Hx Hy Hc Hn Hs.
    pose proof (eo_ranges _ _ _ (dag_event_ok _ _ _ _ _ HD Hx)) as [? _].
    destruct (self_anc_at D y ey (e_seq ex) HD Hy ltac:(lia)) as (z & ez & Hyz & Hz & Hsz).
    destruct (self_anc_event D y z ey HD Hyz Hy) as (ez' & Hz' & Hcz & _). simplify_eq.
    exists x, z, ex, ez. repeat split; try done; [|congruence|congruence].
    etrans; [done|]. by apply self_anc_anc. }
  intros x y ex Hax Hay [(ex' & ey & Hx' & Hy & Hc) [Hn1 Hn2]] Hx.
  assert (ex' = ex) as -> by congruence. destruct (Z.le_ge_cases (e_seq ex) (e_seq ey)).
  - by apply (Hle x y ex ey).
  - rewrite Hc. by apply (Hle y x ey ex).
Qed.

Lemma quorum_nonempty Q : is_quorum vv Q -> exists c, c ∈ SortedIDs vv /\ Q c = true.
Proof.
  intros HQ. destruct (weight_of_exceeds vv Hwf Q (fun _ => false)) as (c & Hc & Hq & _); [|by exists c].
  unfold is_quorum in HQ. pose proof (Quorum_bounds vv Hwf). pose proof (Total_nonneg vv Hwf).
  unfold weight_of at 1. rewrite wsum_zero. lia.
Qed.

Lemma fc_anc D a b : fc vv D a b -> anc D a b.
Proof.
  intros (eb & _ & _ & Q & HQ & Hc). destruct (quorum_nonempty Q HQ) as (c & Hin & Hq).
  destruct (Hc c Hin Hq) as (_ & x & ex & _ & _ & Hax & Hxb). by etrans.
Qed.

(** The common part of two quorums through which two events on different
    branches are observed has only forking validators. *)
Lemma via_conflict_cheater D a1 a2 b1 b2 e1 e2 c :
  dag vv epoch D -> conflict D b1 b2 -> D !! b1 = Some e1 -> D !! b2 = Some e2 ->
  ~ sees_fork D a1 (e_creator e1) -> ~ sees_fork D a2 (e_creator e2) ->
  observes_via D a1 b1 c -> observes_via D a2 b2 c -> is_cheater D c.
Proof.
  intros HD Hcf Hb1 Hb2 Hn1 Hn2 (_ & x1 & ex1 & Hx1 & Hc1 & Ha1 & Hxb1)
    (_ & x2 & ex2 & Hx2 & Hc2 & Ha2 & Hxb2).
  destruct (decide (is_cheater D c)) as [|Hh]; [done|exfalso].
  destruct (Z.le_ge_cases (e_seq ex1) (e_seq ex2)) as [Hle|Hle].
  - assert (anc D x2 x1) as Hx by (by apply (honest_chain vv epoch D x1 x2 ex1 ex2 c)).
    apply Hn2. replace (e_creator e2) with (e_creator e1).
    + apply (conflict_sees_fork D a2 b1 b2 e1 HD); [by do 2 (etrans; [done|])|by etrans|done|done].
    + destruct Hcf as [(? & ? & ? & ? & ?) _]. congruence.
  - assert (anc D x1 x2) as Hx by (by apply (honest_chain vv epoch D x2 x1 ex2 ex1 c)).
    apply Hn1. apply (conflict_sees_fork D a1 b1 b2 e1 HD); [by etrans|by do 2 (etrans; [done|])|done|done].
Qed.

(** ** Stability under new events *)

Section extension.
Context (D D' : gmap Z BaseEvent) (HD : dag vv epoch D) (Hsub : D ⊆ D').

Lemma anc_old_lookup a x : is_Some (D !! a) -> anc D a x -> D' !! x = D !! x.
Proof.
  intros Ha Hx. destruct (anc_dom _ _ _ _ _ HD Ha Hx) as [ex Hex].
  rewrite Hex. by eapply lookup_weaken.
Qed.

Lemma sees_fork_sub a c : is_Some (D !! a) -> sees_fork D' a c <-> sees_fork D a c.
Proof.
  intros Ha. unfold sees_fork.
  split; intros (x1 & x2 & e1 & e2 & H1 & H2 & Hx1 & Hx2 & Hr); exists x1, x2, e1, e2.
  - apply (anc_sub vv epoch D D') in H1, H2; try done.
    rewrite (anc_old_lookup a) in Hx1, Hx2 by done. done.
  - rewrite !(anc_old_lookup a) by done. rewrite !(anc_sub vv epoch D D') by done. done.
Qed.

Lemma observes_via_sub a b c : is_Some (D !! a) -> observes_via D' a b c <-> observes_via D a b c.
Proof.
  intros Ha. unfold observes_via. rewrite sees_fork_sub by done.
  split; intros (Hn & x & ex & Hx & Hc & Hax & Hxb); (split; [done|]); exists x, ex.
  - apply (anc_sub vv epoch D D') in Hax; try done.
    pose proof (anc_dom _ _ _ _ _ HD Ha Hax). apply (anc_sub vv epoch D D') in Hxb; try done.
    rewrite (anc_old_lookup a) in Hx by done. done.
  - pose proof (anc_dom _ _ _ _ _ HD Ha Hax). rewrite (anc_old_lookup a) by done.
    rewrite !(anc_sub vv epoch D D') by done. done.
Qed.

Lemma fc_sub a b : is_Some (D !! a) -> fc vv D' a b <-> fc vv D a b.
Proof.
  intros Ha. split; intros Hfc.
  - pose proof (fc_anc _ _ _ Hfc) as Hab. apply (anc_sub vv epoch D D') in Hab; try done.
    destruct Hfc as (eb & Hb & Hn & Q & HQ & Hc). rewrite (anc_old_lookup a b Ha Hab) in Hb.
    exists eb. split; [done|]. rewrite sees_fork_sub in Hn by done. split; [done|].
    exists Q. split; [done|]. intros c Hin Hq. apply observes_via_sub; auto.
  - pose proof (fc_anc _ _ _ Hfc) as Hab. destruct Hfc as (eb & Hb & Hn & Q & HQ & Hc).
    exists eb. rewrite (anc_old_lookup a b) by done. rewrite sees_fork_sub by done.
    split; [done|]. split; [done|]. exists Q. split; [done|].
    intros c Hin Hq. apply observes_via_sub; auto.
Qed.

End extension.

Lemma sees_fork_insert D e a c :
  dag vv epoch D -> D !! e_id e = None -> is_Some (D !! a) ->
  sees_fork (<[e_id e := e]> D) a c <-> sees_fork D a c.
Proof. intros HD Hf. apply sees_fork_sub; [done|by apply insert_subseteq]. Qed.

End facts.

(** ** Properties *)

(** C9: two events of one creator on different branches never both
    forkless-cause one event; and if they forkless-cause two events, then the
    validators with a fork in the graph hold more than a third of the weight. *)
Theorem forks_need_third (vv : Validators) (epoch : Z) (D : gmap Z BaseEvent) (a1 a2 b1 b2 : Z) :
  wf vv -> dag vv epoch D -> conflict D b1 b2 -> fc vv D a1 b1 -> fc vv D a2 b2 ->
  a1 <> a2 /\
  TotalWeight vv < 3 * weight_of vv (fun c => bool_decide (is_cheater D c)).
Proof.
  intros Hwf HD Hcf H1 H2. split.
  - intros ->. pose proof (fc_anc vv Hwf _ _ _ H1). pose proof (fc_anc vv Hwf _ _ _ H2).
    destruct H1 as (e1 & Hb1 & Hn1 & _). apply Hn1. by apply (conflict_sees_fork vv epoch D a2 b1 b2).
  - destruct H1 as (e1 & Hb1 & Hn1 & Q1 & HQ1 & Hc1), H2 as (e2 & Hb2 & Hn2 & Q2 & HQ2 & Hc2).
    pose proof (quorum_overlap vv Hwf Q1 Q2 HQ1 HQ2).
    assert (weight_of vv (fun c => Q1 c && Q2 c) <= weight_of vv (fun c => bool_decide (is_cheater D c)));
      [|lia].
    apply weight_of_mono; [done|]. intros c Hin [Hq1 Hq2]%andb_true_iff. apply bool_decide_eq_true.
    apply (via_conflict_cheater vv epoch D a1 a2 b1 b2 e1 e2 c); auto.
Qed.

(** Whether a connected event is forkless-caused by another never changes
    as the graph grows, so answers may be cached for good, and two nodes that
    know the event agree on them. *)
Theorem fc_stable (vv : Validators) (epoch : Z) (D D' : gmap Z BaseEvent) (a b : Z) :
  wf vv -> dag vv epoch D -> D ⊆ D' -> is_Some (D !! a) -> fc vv D' a b <-> fc vv D a b.
Proof. intros Hwf HD Hsub Ha. by apply (fc_sub vv epoch). Qed.

(** ** Witnesses: a single validator with two first events *)

Definition solo_first (id : Z) : BaseEvent := mk_BaseEvent 1 1 1 1 [] 1 id.
Definition solo_one : gmap Z BaseEvent := <[101 := solo_first 101]> ∅.
Definition solo_fork : gmap Z BaseEvent := <[102 := solo_first 102]> solo_one.

Lemma solo_one_dag : dag solo 1 solo_one.
Proof.
  apply (dag_connect solo 1 ∅ (solo_first 101)); [constructor|]. split; [done|]. by exists [].
Qed.

Lemma solo_second : connectable solo 1 solo_one (solo_first 102).
Proof. split; [done|]. by exists []. Qed.

Lemma solo_fork_dag : dag solo 1 solo_fork.
Proof. apply (dag_connect solo 1 solo_one (solo_first 102)); [apply solo_one_dag|apply solo_second]. Qed.

Lemma no_parents_anc D a e x : D !! a = Some e -> e_parents e = [] -> anc D a x -> x = a.
Proof. intros Ha Hp Hx. inversion Hx as [|? y ? (e' & He' & Hin)]; subst; [done|].
  assert (e' = e) as -> by congruence. rewrite Hp in Hin. by apply not_elem_of_nil in Hin. Qed.

Lemma solo_fc D a :
  D !! a = Some (solo_first a) -> fc solo D a a.
Proof.
  intros Ha.
  assert (forall c, ~ sees_fork D a c) as Hn.
  { intros c (x1 & x2 & e1 & e2 & H1 & H2 & _ & _ & Hne & _). apply Hne.
    by rewrite (no_parents_anc D a _ x1 Ha eq_refl H1), (no_parents_anc D a _ x2 Ha eq_refl H2). }
  exists (solo_first a). split; [done|]. split; [apply Hn|]. exists (fun _ => true). split.
  - vm_compute. done.
  - intros c Hc _. change (SortedIDs solo) with [1] in Hc. apply list_elem_of_singleton in Hc as ->.
    split; [apply Hn|]. exists a, (solo_first a). repeat split; [done|constructor|constructor].
Qed.

Lemma solo_conflict : conflict solo_fork 101 102.
Proof.
  assert (forall y x, y = 101 \/ y = 102 -> self_anc solo_fork y x -> x = y) as Hs.
  { intros y x Hy Hx. inversion Hx as [|? z ? (e & He & Hsp)]; subst; [done|].
    exfalso. destruct Hy as [->| ->]; vm_compute in He; simplify_eq; by vm_compute in Hsp. }
  split; [by exists (solo_first 101), (solo_first 102)|].
  split; intros Hx%Hs; auto; done.
Qed.

Lemma forks_need_third_witness :
  TotalWeight solo < 3 * weight_of solo (fun c => bool_decide (is_cheater solo_fork c)).
Proof.
  apply (forks_need_third solo 1 solo_fork 101 102 101 102 solo_wf solo_fork_dag solo_conflict);
    apply solo_fc; reflexivity.
Defined.

Lemma fc_stable_witness : fc solo solo_fork 101 101.
Proof.
  apply (fc_stable solo 1 solo_one solo_fork 101 101 solo_wf solo_one_dag).
  - by apply insert_subseteq.
  - by exists (solo_first 101).
  - by apply solo_fc.
Defined.
