(* ===== verification/VecEngine.v ===== *)
(** * vecengine: the vector-clock index, and vecfc: forkless cause

    The engine keeps, for every connected event, the global branch it belongs
    to, its HighestBefore vector and its LowestAfter vector, in tables behind a
    flushable store; [BranchesInfo] is kept in memory and written on [Flush].
    A failed event is undone by [DropNotFlushed].

    The event source [getEvent] is an argument.  [BranchesInfo] is stored
    RLP-encoded: the codec is go-ethereum's, the class [BranchesInfoRlp]. *)

From S2P Require Import Prelude Bytes Pos Dag VecFC.
Local Open Scope go_scope.

(** ** vecengine/branches_info.go *)

Record BranchesInfo := mk_BranchesInfo {
  BranchIDLastSeq : list Z;
  BranchIDCreatorIdxs : list nat;
  BranchIDByCreators : list (list nat)
}.

Class BranchesInfoRlp (bytes : Type) := {
  bi_EncodeToBytes : BranchesInfo -> bytes;
  bi_DecodeBytes : bytes -> outcome BranchesInfo
}.

Class BranchesInfoRlpLaws (bytes : Type) `{!BranchesInfoRlp bytes} : Prop :=
  bi_roundtrip : forall info, bi_DecodeBytes (bi_EncodeToBytes info) = Ok info.

Definition newInitialBranchesInfo (validators : Validators) : BranchesInfo :=
  let n := length (SortedIDs validators) in
  mk_BranchesInfo (replicate n 0) (seq 0 n) ((fun i => [i]) <$> seq 0 (Validators_Len validators)).

Definition AtLeastOneFork (validators : Validators) (bi : BranchesInfo) : bool :=
  (Validators_Len validators <? length (BranchIDCreatorIdxs bi))%nat.

Definition with_LastSeq (bi : BranchesInfo) (b : nat) (s : Z) : BranchesInfo :=
  mk_BranchesInfo (<[b := s]> (BranchIDLastSeq bi)) (BranchIDCreatorIdxs bi) (BranchIDByCreators bi).

(** ** vecengine/index.go: branch IDs *)

Definition maxBranchesPerValidator : nat := 1024.
Arguments maxBranchesPerValidator : simpl never.

(** The read is fatal when the event has no branch. *)
Definition GetEventBranchID (table : gmap Z nat) (id : Z) : outcome nat :=
  match table !! id with
  | Some b => Ok b
  | None => Panic "failed to read event's branch ID (inconsistent DB)"
  end.

(** The end of [fillGlobalBranchID]: a new fork is observed globally. *)
Definition newForkBranch (bi : BranchesInfo) (e : BaseEvent) (meIdx : nat) : outcome (nat * BranchesInfo) :=
  let* mine := index (BranchIDByCreators bi) meIdx in
  if (maxBranchesPerValidator <=? length mine)%nat then
    let* lastBranch := index mine (length mine - 1) in
    let* last := index (BranchIDLastSeq bi) lastBranch in
    Ok (lastBranch, if last <? e_seq e then with_LastSeq bi lastBranch (e_seq e) else bi)
  else
    let lastSeq := BranchIDLastSeq bi ++ [e_seq e] in
    let newBranchID := (length lastSeq - 1)%nat in
    Ok (newBranchID,
        mk_BranchesInfo lastSeq (BranchIDCreatorIdxs bi ++ [meIdx])
          (<[meIdx := mine ++ [newBranchID]]> (BranchIDByCreators bi))).

Definition fillGlobalBranchID (validators : Validators) (table : gmap Z nat) (bi : BranchesInfo)
    (e : BaseEvent) (meIdx : nat) : outcome (nat * BranchesInfo) :=
  if negb (length (BranchIDCreatorIdxs bi) =? length (BranchIDLastSeq bi))%nat
  then Err "inconsistent BranchIDCreators len (inconsistent DB)"
  else if (length (BranchIDCreatorIdxs bi) <? Validators_Len validators)%nat
  then Err "inconsistent BranchIDCreators len (inconsistent DB)"
  else match SelfParent e with
  | None =>
      let* last := index (BranchIDLastSeq bi) meIdx in
      if last =? 0 then Ok (meIdx, with_LastSeq bi meIdx (e_seq e)) else newForkBranch bi e meIdx
  | Some sp =>
      let* selfParentBranchID := GetEventBranchID table sp in
      let* last := index (BranchIDLastSeq bi) selfParentBranchID in
      if u32 (last + 1) =? e_seq e
      then Ok (selfParentBranchID, with_LastSeq bi selfParentBranchID (e_seq e))
      else newForkBranch bi e meIdx
  end.

(** ** vecengine/traversal.go *)

(** The loop of [DfsSubgraph] over an explicit stack; [walk] threads the state
    it updates.  One unit of fuel is used per popped event. *)
Fixpoint dfs_loop {S} (fuel : nat) (getEvent : Z -> option BaseEvent)
    (walk : S -> Z -> outcome (bool * S)) (s : S) (stack : list Z) : outcome S :=
  match fuel with
  | O => Err "out of fuel"
  | Datatypes.S fuel =>
      match Stack_Pop stack with
      | None => Ok s
      | Some (curr, stack) =>
          let* ' (godeeper, s) := walk s curr in
          if (godeeper : bool) then
            match getEvent curr with
            | None => Err "event not found"
            | Some event => dfs_loop fuel getEvent walk s (Stack_PushAll stack (e_parents event))
            end
          else dfs_loop fuel getEvent walk s stack
      end
  end.

Definition vec_DfsSubgraph {S} (fuel : nat) (getEvent : Z -> option BaseEvent) (head : BaseEvent)
    (walk : S -> Z -> outcome (bool * S)) (s : S) : outcome S :=
  dfs_loop fuel getEvent walk s (Stack_PushAll [] (e_parents head)).

(** ** vecengine/index.go: the engine *)

Section engine.
Context {HB LA bytes : Type} `{!HighestBeforeI HB} `{!LowestAfterI LA} `{!BranchesInfoRlp bytes}.

Record VecDb := mk_VecDb {
  t_EventBranch : gmap Z nat;
  t_BranchesInfo : option bytes;
  t_HighestBefore : gmap Z HB;
  t_LowestAfter : gmap Z LA
}.

(** [en_db] is the content seen through the flushable store, [en_flushed] the
    content below it, [en_dirty] whether [NotFlushedPairs] is not 0. *)
Record Engine := mk_Engine {
  en_validators : Validators;
  en_bi : option BranchesInfo;
  en_flushed : VecDb;
  en_db : VecDb;
  en_dirty : bool
}.

Definition en_validatorIdxs (vi : Engine) : gmap Z nat := Idxs (en_validators vi).

Definition getBranchesInfo (db : VecDb) : outcome (option BranchesInfo) :=
  match t_BranchesInfo db with
  | None => Ok None
  | Some buf => match bi_DecodeBytes buf with
                | Ok w => Ok (Some w)
                | Err e => Panic e
                | Panic e => Panic e
                end
  end.

Definition setBranchesInfo (db : VecDb) (info : BranchesInfo) : VecDb :=
  mk_VecDb (t_EventBranch db) (Some (bi_EncodeToBytes info)) (t_HighestBefore db) (t_LowestAfter db).

Definition with_bi (vi : Engine) (bi : BranchesInfo) : Engine :=
  mk_Engine (en_validators vi) (Some bi) (en_flushed vi) (en_db vi) (en_dirty vi).

(** The engine after the call, and the information it then holds. *)
Definition InitBranchesInfo (vi : Engine) : outcome (Engine * BranchesInfo) :=
  match en_bi vi with
  | Some bi => Ok (vi, bi)
  | None =>
      let* loaded := getBranchesInfo (en_db vi) in
      let bi := match loaded with
                | Some bi => bi
                | None => newInitialBranchesInfo (en_validators vi)
                end in
      Ok (with_bi vi bi, bi)
  end.

Definition Engine_DropNotFlushed (vi : Engine) : Engine :=
  if en_dirty vi
  then mk_Engine (en_validators vi) None (en_flushed vi) (en_flushed vi) false
  else mk_Engine (en_validators vi) None (en_flushed vi) (en_db vi) false.

(** A new flushable wrapper over [db]. *)
Definition Engine_Reset (validators : Validators) (db : VecDb) : Engine :=
  Engine_DropNotFlushed (mk_Engine validators None db db false).

Definition Engine_Flush (vi : Engine) : Engine :=
  let db := match en_bi vi with
            | Some bi => setBranchesInfo (en_db vi) bi
            | None => en_db vi
            end in
  mk_Engine (en_validators vi) (en_bi vi) db db false.

Definition setForkDetected (bi : BranchesInfo) (before : HB) (branchID : nat) : outcome HB :=
  let* creatorIdx := index (BranchIDCreatorIdxs bi) branchID in
  let* branches := index (BranchIDByCreators bi) creatorIdx in
  Ok (foldl hb_SetForkDetected before branches).

(** First loop: a fork a parent observes on one branch is marked on all. *)
Definition markObserved (bi : BranchesInfo) (before : HB) (n : nat) : outcome HB :=
  let* branches := index (BranchIDByCreators bi) n in
  if (length branches <=? 1)%nat then Ok before
  else if existsb (hb_IsForkDetected before) branches then setForkDetected bi before n
  else Ok before.

Definition overlapping (before : HB) (a b : nat) : bool :=
  negb (a =? b)%nat && negb (hb_IsEmpty before a || hb_IsEmpty before b)
  && (hb_MinSeq before a <=? hb_Seq before b) && (hb_MinSeq before b <=? hb_Seq before a).

(** Second loop: a fork that no parent observes, two branches that overlap. *)
Definition markNew (bi : BranchesInfo) (before : HB) (n : nat) : outcome HB :=
  if hb_IsForkDetected before n then Ok before
  else
    let* branches := index (BranchIDByCreators bi) n in
    if existsb (fun a => existsb (overlapping before a) branches) branches
    then setForkDetected bi before n
    else Ok before.

Definition detectForks (validators : Validators) (bi : BranchesInfo) (before : HB) : outcome HB :=
  if AtLeastOneFork validators bi then
    let* before := foldM (markObserved bi) before (seq 0 (Validators_Len validators)) in
    foldM (markNew bi) before (seq 0 (Validators_Len validators))
  else Ok before.

(** The vectors of the parents: reading a branch ID that is missing is fatal,
    a vector that is missing is an error. *)
Definition loadParent (db : VecDb) (vecs : list HB) (p : Z) : outcome (list HB) :=
  let* _ := GetEventBranchID (t_EventBranch db) p in
  match t_HighestBefore db !! p with
  | None => Err "processed out of order, parent not found (inconsistent DB)"
  | Some v => Ok (vecs ++ [v])
  end.

(** [onWalk]: a nil vector is dereferenced. *)
Definition onWalk (meBranchID : nat) (e : BaseEvent) (la : gmap Z LA) (walk : Z) : outcome (bool * gmap Z LA) :=
  match la !! walk with
  | None => Panic "nil LowestAfter"
  | Some v =>
      let '(visited, v) := la_Visit v meBranchID e in
      Ok (visited, if visited then <[walk := v]> la else la)
  end.

Definition fillEventVectors (fuel : nat) (getEvent : Z -> option BaseEvent) (vi : Engine) (bi : BranchesInfo)
    (e : BaseEvent) : outcome Engine :=
  let db := en_db vi in
  let meIdx := default 0%nat (en_validatorIdxs vi !! e_creator e) in
  let size := length (BranchIDCreatorIdxs bi) in
  let before := hb_New size in
  let after := la_New size in
  let filled := fillGlobalBranchID (en_validators vi) (t_EventBranch db) bi e meIdx in
  (* the returned error is overwritten below without being read *)
  let* ' (meBranchID, bi) := match filled with
                            | Err _ => Ok (0%nat, bi)
                            | r => r
                            end in
  let* parentsVecs := foldM (loadParent db) [] (e_parents e) in
  let after := la_InitWithEvent after meBranchID e in
  let before := hb_InitWithEvent before meBranchID e in
  let before := foldl (fun v pVec => hb_CollectFrom v pVec (length (BranchIDCreatorIdxs bi)))
                  before parentsVecs in
  let* before := detectForks (en_validators vi) bi before in
  let* la := match vec_DfsSubgraph fuel getEvent e (onWalk meBranchID e) (t_LowestAfter db) with
             | Err err => Panic err
             | r => r
             end in
  Ok (mk_Engine (en_validators vi) (Some bi) (en_flushed vi)
        (mk_VecDb (<[e_id e := meBranchID]> (t_EventBranch db)) (t_BranchesInfo db)
           (<[e_id e := before]> (t_HighestBefore db)) (<[e_id e := after]> la)) true).

Definition Engine_Add (fuel : nat) (getEvent : Z -> option BaseEvent) (vi : Engine) (e : BaseEvent) : outcome Engine :=
  let* ' (vi, bi) := InitBranchesInfo vi in
  fillEventVectors fuel getEvent vi bi e.

Definition GetMergedHighestBefore (vi : Engine) (id : Z) : outcome (Engine * option HB) :=
  let* ' (vi, bi) := InitBranchesInfo vi in
  if AtLeastOneFork (en_validators vi) bi then
    match t_HighestBefore (en_db vi) !! id with
    | None => Panic "nil HighestBefore"
    | Some scatteredBefore =>
        Ok (vi, Some (foldl (fun m cb => hb_GatherFrom m cb.1 scatteredBefore cb.2)
                  (hb_New (Validators_Len (en_validators vi))) (imap pair (BranchIDByCreators bi))))
    end
  else Ok (vi, t_HighestBefore (en_db vi) !! id).

End engine.
Arguments VecDb : clear implicits.
Arguments Engine : clear implicits.

(** Enough fuel for the traversal from [e] over the events [D]: every event is
    expanded at most once, and each expansion pushes its parents. *)
Definition dfs_fuel (D : gmap Z BaseEvent) (e : BaseEvent) : nat :=
  S (length (e_parents e) + sum_list ((fun kv => length (e_parents kv.2)) <$> map_to_list D)).

(** ** vecfc/forkless_cause.go *)

Section forkless_cause.
Context {bytes : Type} `{!BranchesInfoRlp bytes}.

Definition vecfc_Engine : Type := Engine HighestBeforeSeq LowestAfterSeq bytes.

(** One turn of the loop over the branches. *)
Definition countBranch (a : HighestBeforeSeq) (b : LowestAfterSeq) (yes : WeightCounter)
    (bc : nat * nat) : outcome WeightCounter :=
  let '(branchID, creatorIdx) := bc in
  let bLowestAfter := LA_Get b branchID in
  let aHighestBefore := HB_Get a branchID in
  if (bLowestAfter <=? bs_Seq aHighestBefore) && negb (bLowestAfter =? 0)
     && negb (BranchSeq_IsForkDetected aHighestBefore)
  then let* r := CountByIdx yes creatorIdx in Ok r.2
  else Ok yes.

Definition forklessCause (vi : vecfc_Engine) (bi : BranchesInfo) (aID bID : Z) : outcome bool :=
  match t_HighestBefore (en_db vi) !! aID with
  | None => Panic "Event A not found"
  | Some a =>
      let* forked :=
        if AtLeastOneFork (en_validators vi) bi then
          let* bBranchID := GetEventBranchID (t_EventBranch (en_db vi)) bID in
          Ok (BranchSeq_IsForkDetected (HB_Get a bBranchID))
        else Ok false in
      if (forked : bool) then Ok false
      else match t_LowestAfter (en_db vi) !! bID with
           | None => Panic "Event B not found"
           | Some b =>
               let* yes := foldM (countBranch a b) (NewCounter (en_validators vi))
                             (imap pair (BranchIDCreatorIdxs bi)) in
               Ok (HasQuorum yes)
           end
  end.

(** [ForklessCause] without its result cache. *)
Definition ForklessCause_uncached (vi : vecfc_Engine) (aID bID : Z) : outcome (vecfc_Engine * bool) :=
  let* ' (vi, bi) := InitBranchesInfo vi in
  let* r := forklessCause vi bi aID bID in
  Ok (vi, r).

End forkless_cause.
