(* ===== verification/VecBranches.v ===== *)
(** * vecengine: global branches

    The invariant of [BranchesInfo] and of the event-branch table over the
    connected events: every event is on a branch of its creator, a branch is a
    chain of self-parents without two events of one sequence number, and
    [fillGlobalBranchID] keeps it so while no validator has reached
    [maxBranchesPerValidator]. *)

From S2P Require Import Prelude Bytes Pos Dag VecFC VecEngine ForklessCause.
Local Open Scope go_scope.

(** Branch [i] belongs to the validator [c]. *)
Definition branch_by (vv : Validators) (bi : BranchesInfo) (i : nat) (c : Z) : Prop :=
  exists k, BranchIDCreatorIdxs bi !! i = Some k /\ SortedIDs vv !! k = Some c.

Record bi_shape (vv : Validators) (bi : BranchesInfo) : Prop := {
  bi_len : length (BranchIDLastSeq bi) = length (BranchIDCreatorIdxs bi);
  bi_first : forall i, (i < Validators_Len vv)%nat -> BranchIDCreatorIdxs bi !! i = Some i;
  bi_creators : forall b c, BranchIDCreatorIdxs bi !! b = Some c -> (c < Validators_Len vv)%nat;
  bi_by_len : length (BranchIDByCreators bi) = Validators_Len vv;
  bi_by : forall c l, BranchIDByCreators bi !! c = Some l ->
            forall b, b ∈ l <-> BranchIDCreatorIdxs bi !! b = Some c
}.

(** The branches over the graph [D], [br] giving each event its branch. *)
Record branch_inv (vv : Validators) (D : gmap Z BaseEvent) (bi : BranchesInfo) (br : gmap Z nat) : Prop := {
  br_shape : bi_shape vv bi;
  br_dom : forall h, is_Some (br !! h) <-> is_Some (D !! h);
  br_creator : forall h b e, br !! h = Some b -> D !! h = Some e ->
                 BranchIDCreatorIdxs bi !! b = Some (GetIdx vv (e_creator e));
  br_uniq : forall h1 h2 b e1 e2, br !! h1 = Some b -> br !! h2 = Some b ->
              D !! h1 = Some e1 -> D !! h2 = Some e2 -> e_seq e1 = e_seq e2 -> h1 = h2;
  br_last_le : forall h b e l, br !! h = Some b -> D !! h = Some e ->
                 BranchIDLastSeq bi !! b = Some l -> e_seq e <= l;
  br_last_ex : forall b l, BranchIDLastSeq bi !! b = Some l ->
                 l = 0 \/ exists h e, br !! h = Some b /\ D !! h = Some e /\ e_seq e = l;
  br_chain : forall h h' b e e', br !! h = Some b -> br !! h' = Some b ->
               D !! h = Some e -> D !! h' = Some e' -> e_seq e' < e_seq e ->
               exists sp, SelfParent e = Some sp /\ br !! sp = Some b;
  br_nodup : forall c l, BranchIDByCreators bi !! c = Some l -> NoDup l;
  br_extra : forall b, (Validators_Len vv <= b < length (BranchIDCreatorIdxs bi))%nat ->
               exists h e, br !! h = Some b /\ D !! h = Some e /\ is_cheater D (e_creator e)
}.

(** No validator has used up its branches. *)
Definition uncapped (bi : BranchesInfo) : Prop :=
  Forall (fun l => length l < maxBranchesPerValidator)%nat (BranchIDByCreators bi).

#[export] Instance uncapped_dec bi : Decision (uncapped bi) := _.

Section branches.
Context (vv : Validators) (epoch : Z) (Hwf : wf vv).
Implicit Types (D : gmap Z BaseEvent) (bi : BranchesInfo) (br : gmap Z nat).

Lemma creator_idx c : is_Some (values vv !! c) ->
  (GetIdx vv c < Validators_Len vv)%nat /\ SortedIDs vv !! GetIdx vv c = Some c.
Proof.
  intros Hc. apply (wf_ids_elem _ Hwf) in Hc. pose proof (GetIdx_in vv Hwf c Hc) as Hi.
  split; [|done]. rewrite <- (wf_ids_len _ Hwf). by eapply lookup_lt_Some.
Qed.

Lemma branch_by_event D bi br h b e :
  dag vv epoch D -> branch_inv vv D bi br -> br !! h = Some b -> D !! h = Some e ->
  branch_by vv bi b (e_creator e).
Proof.
  intros HD Hinv Hb He. exists (GetIdx vv (e_creator e)).
  split; [by eapply br_creator|]. apply creator_idx, (eo_creator _ _ _ (dag_event_ok _ _ _ _ _ HD He)).
Qed.

Lemma branch_by_inj bi i c c' : branch_by vv bi i c -> branch_by vv bi i c' -> c = c'.
Proof. intros (k & Hk & Hc) (k' & Hk' & Hc'). congruence. Qed.

(** ** Branches are chains *)

Lemma branch_chain D bi br b y x ey ex :
  dag vv epoch D -> branch_inv vv D bi br ->
  br !! y = Some b -> br !! x = Some b -> D !! y = Some ey -> D !! x = Some ex ->
  e_seq ex <= e_seq ey -> self_anc D y x.
Proof.
  intros HD Hinv. remember (Z.to_nat (e_seq ey - e_seq ex)) as n eqn:Hn. revert y ey Hn.
  induction n as [|n IH]; intros y ey Hn Hby Hbx Hy Hx Hle.
  - assert (x = y) as ->; [|constructor].
    apply (br_uniq _ _ _ _ Hinv x y b ex ey); try done. lia.
  - destruct (br_chain _ _ _ _ Hinv y x b ey ex) as (sp & Hsp & Hbsp); try done; [lia|].
    destruct (eo_next _ _ _ (dag_event_ok _ _ _ _ _ HD Hy) _ Hsp) as (_ & pe & Hpe & _ & Hseq).
    eapply rtc_l; [by exists ey|]. apply (IH sp pe); try done; lia.
Qed.

(** The observed part of a branch is an interval of sequence numbers. *)
Lemma branch_interval D bi br b a lo hi elo ehi s :
  dag vv epoch D -> branch_inv vv D bi br ->
  br !! lo = Some b -> br !! hi = Some b -> D !! lo = Some elo -> D !! hi = Some ehi ->
  anc D a hi -> e_seq elo <= s <= e_seq ehi ->
  exists x ex, br !! x = Some b /\ D !! x = Some ex /\ e_seq ex = s /\ anc D a x.
Proof.
  intros HD Hinv Hblo. remember (Z.to_nat (e_seq ehi - s)) as n eqn:Hn. revert hi ehi Hn.
  induction n as [|n IH]; intros hi ehi Hn Hbhi Hlo Hhi Ha Hs.
  - exists hi, ehi. repeat split; try done. lia.
  - destruct (br_chain _ _ _ _ Hinv hi lo b ehi elo) as (sp & Hsp & Hbsp); try done; [lia|].
    destruct (eo_next _ _ _ (dag_event_ok _ _ _ _ _ HD Hhi) _ Hsp) as (Hin & pe & Hpe & _ & Hseq).
    apply (IH sp pe); try done; [lia| |lia].
    etrans; [done|]. apply rtc_once. by exists ehi.
Qed.

(** ** Adding an event to the branches *)

Lemma branch_inv_insert D bi bi' br e me :
  branch_inv vv D bi br -> event_ok vv D e -> D !! e_id e = None -> bi_shape vv bi' ->
  BranchIDCreatorIdxs bi `prefix_of` BranchIDCreatorIdxs bi' ->
  BranchIDCreatorIdxs bi' !! me = Some (GetIdx vv (e_creator e)) ->
  BranchIDLastSeq bi' !! me = Some (e_seq e) ->
  (forall b l, b <> me -> BranchIDLastSeq bi' !! b = Some l -> BranchIDLastSeq bi !! b = Some l) ->
  (forall h e', br !! h = Some me -> D !! h = Some e' -> e_seq e' < e_seq e) ->
  ((exists h, br !! h = Some me) -> exists sp, SelfParent e = Some sp /\ br !! sp = Some me) ->
  (forall c l, BranchIDByCreators bi' !! c = Some l -> NoDup l) ->
  (forall b, (length (BranchIDCreatorIdxs bi) <= b < length (BranchIDCreatorIdxs bi'))%nat ->
    b = me /\ is_cheater (<[e_id e := e]> D) (e_creator e)) ->
  branch_inv vv (<[e_id e := e]> D) bi' (<[e_id e := me]> br).
Proof.
  intros Hinv Hok Hf Hsh Hpre Hme Hlme Hlo Hlt Hch Hnd Hex.
  assert (br !! e_id e = None) as Hbf.
  { destruct (br !! e_id e) eqn:E; [|done]. exfalso.
    assert (is_Some (D !! e_id e)) as [? ?] by (apply (br_dom _ _ _ _ Hinv); eauto). congruence. }
  split.
  - done.
  - intros h. rewrite !lookup_insert_is_Some. pose proof (br_dom _ _ _ _ Hinv h). tauto.
  - intros h b e' [[<- <-]|[Hne Hb]]%lookup_insert_Some.
    + rewrite lookup_insert_eq. by intros [= <-].
    + rewrite lookup_insert_ne by done. intros He'.
      eapply prefix_lookup_Some; [|done]. by eapply br_creator.
  - intros h1 h2 b e1 e2 [[<- <-]|[Hn1 Hb1]]%lookup_insert_Some
      [[<- Hb2]|[Hn2 Hb2]]%lookup_insert_Some; rewrite ?lookup_insert_eq, ?lookup_insert_ne by done.
    + done.
    + intros [= <-] He2 Hs. specialize (Hlt _ _ Hb2 He2). lia.
    + subst b. intros He1 [= <-] Hs. specialize (Hlt _ _ Hb1 He1). lia.
    + intros. by eapply br_uniq.
  - intros h b e' l [[<- <-]|[Hne Hb]]%lookup_insert_Some.
    + rewrite lookup_insert_eq, Hlme. intros. simplify_eq. lia.
    + rewrite lookup_insert_ne by done. intros He' Hl. destruct (decide (b = me)) as [->|Hbm].
      * specialize (Hlt _ _ Hb He'). simplify_eq. lia.
      * eapply br_last_le; eauto.
  - intros b l Hl. destruct (decide (b = me)) as [->|Hbm].
    + right. exists (e_id e), e. rewrite !lookup_insert_eq. simplify_eq. done.
    + apply Hlo in Hl; [|done]. apply (br_last_ex _ _ _ _ Hinv) in Hl as [?|(h & e' & Hb & He' & Hs)];
        [by left|right]. exists h, e'. rewrite !lookup_insert_ne by congruence. done.
  - intros h h' b e1 e2 [[<- <-]|[Hn1 Hb1]]%lookup_insert_Some
      [[<- Hb2]|[Hn2 Hb2]]%lookup_insert_Some; rewrite ?lookup_insert_eq, ?lookup_insert_ne by done.
    + intros [= <-] [= <-]. lia.
    + intros [= <-] He2 Hs. destruct Hch as (sp & Hsp & Hbsp); [by exists h'|]. exists sp. split; [done|].
      rewrite lookup_insert_ne; [done|congruence].
    + subst b. intros He1 [= <-] Hs. specialize (Hlt _ _ Hb1 He1). lia.
    + intros He1 He2 Hs. destruct (br_chain _ _ _ _ Hinv h h' b e1 e2) as (sp & Hsp & Hbsp); try done.
      exists sp. split; [done|]. rewrite lookup_insert_ne; [done|congruence].
  - done.
  - intros b [Hb1 Hb2]. destruct (decide (b < length (BranchIDCreatorIdxs bi))%nat) as [Hlb|Hlb].
    + destruct (br_extra _ _ _ _ Hinv b) as (h & e' & Hb & He' & Hch'); [done|]. exists h, e'.
      rewrite !lookup_insert_ne by congruence. split; [done|]. split; [done|]. by eapply cheater_mono; [|apply insert_subseteq].
    + destruct (Hex b) as [-> Hch']; [lia|]. exists (e_id e), e. by rewrite !lookup_insert_eq.
Qed.

Lemma with_LastSeq_shape bi b s : bi_shape vv bi -> bi_shape vv (with_LastSeq bi b s).
Proof. intros [H1 H2 H3 H4 H5]. split; simpl; try done. by rewrite length_insert. Qed.

Lemma with_LastSeq_lookup bi b s :
  (b < length (BranchIDLastSeq bi))%nat ->
  BranchIDLastSeq (with_LastSeq bi b s) !! b = Some s /\
  forall b' l, b' <> b -> BranchIDLastSeq (with_LastSeq bi b s) !! b' = Some l -> BranchIDLastSeq bi !! b' = Some l.
Proof.
  intros Hlt. split; simpl; [by apply list_lookup_insert_eq|].
  intros b' l Hne. by rewrite list_lookup_insert_ne.
Qed.

(** The branch of an event is allocated. *)
Lemma br_bound D bi br h b :
  branch_inv vv D bi br -> br !! h = Some b -> (b < length (BranchIDCreatorIdxs bi))%nat.
Proof.
  intros Hinv Hb. assert (is_Some (D !! h)) as [e He] by (apply (br_dom _ _ _ _ Hinv); eauto).
  eapply lookup_lt_Some. by eapply br_creator.
Qed.

Lemma nb_ge bi : bi_shape vv bi -> (Validators_Len vv <= length (BranchIDCreatorIdxs bi))%nat.
Proof.
  intros Hsh. destruct (decide (Validators_Len vv = 0)%nat) as [|Hn]; [lia|].
  pose proof (bi_first _ _ Hsh (Validators_Len vv - 1)%nat ltac:(lia)) as Hl%lookup_lt_Some. lia.
Qed.

(** What an extension of the branches must satisfy for the event [e]. *)
Definition fills (D : gmap Z BaseEvent) (bi : BranchesInfo) (br : gmap Z nat) (e : BaseEvent)
    (me : nat) (bi' : BranchesInfo) : Prop :=
  branch_inv vv (<[e_id e := e]> D) bi' (<[e_id e := me]> br) /\
  BranchIDCreatorIdxs bi `prefix_of` BranchIDCreatorIdxs bi' /\
  (forall h e', br !! h = Some me -> D !! h = Some e' -> e_seq e' < e_seq e).

Lemma newForkBranch_shape bi e l :
  bi_shape vv bi -> is_Some (values vv !! e_creator e) ->
  BranchIDByCreators bi !! GetIdx vv (e_creator e) = Some l ->
  bi_shape vv (mk_BranchesInfo (BranchIDLastSeq bi ++ [e_seq e])
    (BranchIDCreatorIdxs bi ++ [GetIdx vv (e_creator e)])
    (<[GetIdx vv (e_creator e) := l ++ [length (BranchIDCreatorIdxs bi)]]> (BranchIDByCreators bi))).
Proof.
  intros Hsh Hc Hl. pose proof (creator_idx _ Hc) as [Hme _]. split; simpl.
  - rewrite !length_app, (bi_len _ _ Hsh). done.
  - intros i Hi. apply lookup_app_l_Some. by apply (bi_first _ _ Hsh).
  - intros b c [Hb|[_ Hb]]%lookup_app_Some; [by eapply bi_creators|].
    apply list_lookup_singleton_Some in Hb as [_ <-]. done.
  - rewrite length_insert. apply Hsh.
  - intros c l' Hl' b. rewrite lookup_app_Some, list_lookup_singleton_Some.
    apply list_lookup_insert_Some in Hl' as [(<- & <- & _)|(Hne & Hl')].
    + rewrite elem_of_app, list_elem_of_singleton, (bi_by _ _ Hsh _ _ Hl b).
      split; [intros [?| ->]; [by left|right; split; [lia|split; [lia|done]]]|].
      intros [?|(Hle & Hb & _)]; [by left|right; lia].
    + rewrite (bi_by _ _ Hsh _ _ Hl' b). naive_solver.
Qed.

(** An event of a validator no later than another of its events is a fork. *)
Lemma late_event_cheats D e h e' :
  dag vv epoch D -> connectable vv epoch D e -> D !! h = Some e' -> e_creator e' = e_creator e -> e_seq e <= e_seq e' ->
  is_cheater (<[e_id e := e]> D) (e_creator e).
Proof.
  intros HD Hcon Hh Hc Hle. assert (dag vv epoch (<[e_id e := e]> D)) as HD' by (by constructor).
  pose proof (con_fresh _ _ _ _ Hcon) as Hf. assert (e_id e <> h) as Hne by congruence.
  destruct (decide (is_cheater (<[e_id e := e]> D) (e_creator e))) as [|Hn]; [done|]. exfalso.
  assert (anc (<[e_id e := e]> D) h (e_id e)) as Ha.
  { apply (honest_chain vv epoch _ (e_id e) h e e' (e_creator e)); try done; [apply lookup_insert_eq|by rewrite lookup_insert_ne]. }
  apply (anc_insert_old vv epoch D e h) in Ha; [|done|done|by eexists].
  destruct (anc_dom vv epoch D h (e_id e)) as [x Hx]; [done|by eexists|done|]. congruence.
Qed.

Lemma newForkBranch_fills D bi br e :
  dag vv epoch D -> connectable vv epoch D e -> branch_inv vv D bi br -> uncapped bi ->
  is_cheater (<[e_id e := e]> D) (e_creator e) ->
  exists me bi', newForkBranch bi e (GetIdx vv (e_creator e)) = Ok (me, bi') /\ fills D bi br e me bi'.
Proof.
  intros HD Hcon Hinv Hcap Hcheat. pose proof (dag_connectable_ok _ _ _ _ HD Hcon) as Hok.
  pose proof (br_shape _ _ _ _ Hinv) as Hsh.
  pose proof (creator_idx _ (eo_creator _ _ _ Hok)) as [Hme Hid].
  destruct (lookup_lt_is_Some_2 (BranchIDByCreators bi) (GetIdx vv (e_creator e))) as [l Hl];
    [by rewrite (bi_by_len _ _ Hsh)|].
  pose proof (Forall_lookup_1 _ _ _ _ Hcap Hl) as Hcl. simpl in Hcl.
  unfold newForkBranch. rewrite (index_lookup _ _ _ Hl). cbn [outcome_bind].
  destruct (_ <=? _)%nat eqn:E; bool_to_prop; [lia|].
  rewrite length_app. simpl. rewrite Nat.add_sub, (bi_len _ _ Hsh).
  do 2 eexists. split; [reflexivity|].
  assert (forall h, br !! h <> Some (length (BranchIDCreatorIdxs bi))) as Hnone.
  { intros h Hb. pose proof (br_bound D bi br h _ Hinv Hb). lia. }
  split; [|split; [by exists [GetIdx vv (e_creator e)]|by intros h e' Hb%Hnone]].
  apply (branch_inv_insert D bi); simpl; try done.
  - apply Hcon.
  - apply newForkBranch_shape; [done|apply Hok|done].
  - by exists [GetIdx vv (e_creator e)].
  - by rewrite lookup_app_r, Nat.sub_diag by lia.
  - rewrite lookup_app_r, (bi_len _ _ Hsh), Nat.sub_diag by (rewrite (bi_len _ _ Hsh); lia). done.
  - intros b s Hne [Hb|[Hge Hb]]%lookup_app_Some; [done|].
    apply list_lookup_singleton_Some in Hb as [Hb _]. rewrite (bi_len _ _ Hsh) in Hb, Hge. lia.
  - by intros h e' Hb%Hnone.
  - by intros [h Hb%Hnone].
  - intros c l' [(<- & <- & _)|(_ & Hl')]%list_lookup_insert_Some; [|by apply (br_nodup _ _ _ _ Hinv c)].
    apply NoDup_app. split; [by apply (br_nodup _ _ _ _ Hinv _ _ Hl)|]. split; [|apply NoDup_singleton].
    intros b Hb ->%list_elem_of_singleton. apply (bi_by _ _ Hsh _ _ Hl), lookup_lt_Some in Hb. lia.
  - rewrite length_app. simpl. intros b Hb. split; [lia|done].
Qed.

(** Case of an event that continues a branch, or starts its creator's first. *)
Lemma continue_fills D bi br e me :
  dag vv epoch D -> connectable vv epoch D e -> branch_inv vv D bi br ->
  BranchIDCreatorIdxs bi !! me = Some (GetIdx vv (e_creator e)) ->
  (forall h e', br !! h = Some me -> D !! h = Some e' -> e_seq e' < e_seq e) ->
  ((exists h, br !! h = Some me) -> exists sp, SelfParent e = Some sp /\ br !! sp = Some me) ->
  fills D bi br e me (with_LastSeq bi me (e_seq e)).
Proof.
  intros HD Hcon Hinv Hme Hlt Hch. pose proof (dag_connectable_ok _ _ _ _ HD Hcon) as Hok.
  pose proof (br_shape _ _ _ _ Hinv) as Hsh.
  destruct (with_LastSeq_lookup bi me (e_seq e)) as [Hl1 Hl2].
  { rewrite (bi_len _ _ Hsh). by eapply lookup_lt_Some. }
  split; [|split; [done|done]].
  apply (branch_inv_insert D bi); try done.
  - apply Hcon.
  - by apply with_LastSeq_shape.
  - apply (br_nodup _ _ _ _ Hinv).
  - simpl. lia.
Qed.

Lemma fillGlobalBranchID_fills D bi br e :
  dag vv epoch D -> connectable vv epoch D e -> branch_inv vv D bi br -> uncapped bi ->
  exists me bi', fillGlobalBranchID vv br bi e (GetIdx vv (e_creator e)) = Ok (me, bi') /\
    fills D bi br e me bi'.
Proof.
  intros HD Hcon Hinv Hcap. pose proof (dag_connectable_ok _ _ _ _ HD Hcon) as Hok.
  pose proof (br_shape _ _ _ _ Hinv) as Hsh.
  pose proof (creator_idx _ (eo_creator _ _ _ Hok)) as [Hme _].
  pose proof (newForkBranch_fills D bi br e HD Hcon Hinv Hcap) as Hnew.
  unfold fillGlobalBranchID. rewrite (bi_len _ _ Hsh), Nat.eqb_refl. simpl.
  pose proof (nb_ge bi Hsh). destruct (_ <? _)%nat eqn:E; bool_to_prop; [lia|].
  destruct (SelfParent e) as [sp|] eqn:Hsp.
  - destruct (eo_next _ _ _ Hok _ Hsp) as (Hin & pe & Hpe & Hpc & Hps).
    destruct (proj2 (br_dom _ _ _ _ Hinv sp)) as [b Hb]; [by eexists|].
    unfold GetEventBranchID. rewrite Hb. simpl.
    pose proof (br_bound D bi br sp b Hinv Hb) as Hbb. rewrite <- (bi_len _ _ Hsh) in Hbb.
    destruct (lookup_lt_is_Some_2 _ _ Hbb) as [l Hl]. rewrite (index_lookup _ _ _ Hl). simpl.
    destruct (_ =? _) eqn:E1; bool_to_prop.
    2: { apply Hnew. destruct (br_last_ex _ _ _ _ Hinv _ _ Hl) as [->|(h & e' & Hbe & He' & <-)].
         - pose proof (br_last_le _ _ _ _ Hinv _ _ _ _ Hb Hpe Hl). pose proof (eo_ranges _ _ _ (dag_event_ok _ _ _ _ _ HD Hpe)). lia.
         - pose proof (br_last_le _ _ _ _ Hinv _ _ _ _ Hb Hpe Hl). pose proof (eo_ranges _ _ _ (dag_event_ok _ _ _ _ _ HD He')).
           rewrite u32_small in E1 by solve_width. apply (late_event_cheats D e h e'); try done; [|lia]. rewrite <- Hpc.
           apply (branch_by_inj bi b); [by apply (branch_by_event D bi br h)|by apply (branch_by_event D bi br sp)]. }
    assert (l + 1 = e_seq e) as Hle.
    { pose proof (br_last_le _ _ _ _ Hinv _ _ _ _ Hb Hpe Hl).
      destruct (br_last_ex _ _ _ _ Hinv _ _ Hl) as [->|(h & e' & _ & He' & <-)].
      - pose proof (eo_ranges _ _ _ (dag_event_ok _ _ _ _ _ HD Hpe)). lia.
      - pose proof (eo_ranges _ _ _ (dag_event_ok _ _ _ _ _ HD He')).
        rewrite u32_small in E1 by solve_width. done. }
    do 2 eexists. split; [reflexivity|]. apply continue_fills; try done.
    + rewrite <- Hpc. by eapply br_creator.
    + intros h e' Hh He'. pose proof (br_last_le _ _ _ _ Hinv _ _ _ _ Hh He' Hl). lia.
    + intros _. by exists sp.
  - destruct (lookup_lt_is_Some_2 (BranchIDLastSeq bi) (GetIdx vv (e_creator e))) as [l Hl];
      [rewrite (bi_len _ _ Hsh); lia|].
    rewrite (index_lookup _ _ _ Hl). simpl. destruct (l =? 0) eqn:E1; bool_to_prop.
    2: { apply Hnew. destruct (br_last_ex _ _ _ _ Hinv _ _ Hl) as [->|(h & e' & Hbe & He' & <-)]; [done|].
         pose proof (eo_ranges _ _ _ (dag_event_ok _ _ _ _ _ HD He')). apply (eo_first _ _ _ Hok) in Hsp.
         apply (late_event_cheats D e h e'); try done; [|lia]. destruct (branch_by_event D bi br h _ e' HD Hinv Hbe He') as (k & Hk & Hc').
         rewrite (bi_first _ _ Hsh _ Hme) in Hk. injection Hk as <-. pose proof (creator_idx _ (eo_creator _ _ _ Hok)) as [_ Hc]. congruence. }
    subst l.
    assert (forall h, br !! h <> Some (GetIdx vv (e_creator e))) as Hnone.
    { intros h Hh. destruct (proj1 (br_dom _ _ _ _ Hinv h)) as [e' He']; [by eexists|].
      pose proof (br_last_le _ _ _ _ Hinv _ _ _ _ Hh He' Hl).
      pose proof (eo_ranges _ _ _ (dag_event_ok _ _ _ _ _ HD He')). lia. }
    do 2 eexists. split; [reflexivity|]. apply continue_fills; try done.
    + by apply (bi_first _ _ Hsh).
    + by intros h e' Hh%Hnone.
    + by intros [h Hh%Hnone].
Qed.

Lemma newInitial_inv : branch_inv vv ∅ (newInitialBranchesInfo vv) ∅.
Proof.
  unfold newInitialBranchesInfo. rewrite (wf_ids_len _ Hwf).
  assert (forall b c, seq 0 (Validators_Len vv) !! b = Some c <-> (b = c /\ (c < Validators_Len vv)%nat)) as Hseq.
  { intros b c. rewrite lookup_seq. lia. }
  split; simpl; try (intros *; by rewrite ?lookup_empty).
  2:{ intros b l [-> _]%lookup_replicate. by left. }
  2:{ intros c l. rewrite list_lookup_fmap_Some. intros (i & -> & _). apply NoDup_singleton. }
  2:{ intros b. rewrite length_seq. lia. }
  split; simpl.
  - by rewrite length_replicate, length_seq.
  - intros i Hi. by apply Hseq.
  - intros b c [_ ?]%Hseq. done.
  - by rewrite length_fmap, length_seq.
  - intros c l. rewrite list_lookup_fmap_Some. intros (i & -> & [-> Hi]%Hseq) b.
    rewrite list_elem_of_singleton, Hseq. lia.
Qed.

(** The events of the validators that have forked. *)
Definition cheater_events D : nat := size (filter (fun p : Z * BaseEvent => is_cheater D (e_creator p.2)) D).

Lemma cheater_events_mono D D' : D ⊆ D' -> (cheater_events D <= cheater_events D')%nat.
Proof.
  intros Hsub. unfold cheater_events. apply map_subseteq_size. apply map_subseteq_spec. intros h e.
  rewrite !map_lookup_filter_Some. intros [He Hc]. split; [by eapply lookup_weaken|by eapply cheater_mono].
Qed.

(** Every branch but the first of a validator holds events of a validator that
    has forked: the limit is not reached while they are few. *)
Lemma few_uncapped D bi br :
  branch_inv vv D bi br -> (S (cheater_events D) < maxBranchesPerValidator)%nat -> uncapped bi.
Proof.
  intros Hinv Hfew. pose proof (br_shape _ _ _ _ Hinv) as Hsh. apply Forall_lookup_2. intros c l Hl.
  set (k := omap (fun p : Z * BaseEvent => br !! p.1) (map_to_list (filter (fun p : Z * BaseEvent => is_cheater D (e_creator p.2)) D))).
  assert (length k <= cheater_events D)%nat as Hk.
  { unfold cheater_events. rewrite <- length_map_to_list. apply length_omap_le. }
  assert (l ⊆+ c :: k) as Hlen%submseteq_length; [|cbn in Hlen; lia].
  apply NoDup_submseteq; [by apply (br_nodup _ _ _ _ Hinv c)|]. intros b Hb. apply (bi_by _ _ Hsh _ _ Hl) in Hb.
  destruct (decide (b < Validators_Len vv)%nat) as [Hlt|Hge].
  - rewrite (bi_first _ _ Hsh b Hlt) in Hb. injection Hb as ->. left.
  - apply lookup_lt_Some in Hb as Hlt. destruct (br_extra _ _ _ _ Hinv b ltac:(lia)) as (h & e & Hbr & He & Hch). right.
    apply list_elem_of_omap. exists (h, e). split; [|done]. apply elem_of_map_to_list, map_lookup_filter_Some. done.
Qed.

(** Without a fork every validator has one branch, its own. *)
Lemma no_fork_single D bi br i c :
  branch_inv vv D bi br -> AtLeastOneFork vv bi = false ->
  BranchIDCreatorIdxs bi !! i = Some c -> i = c.
Proof.
  intros Hinv Hf Hi. unfold AtLeastOneFork in Hf. bool_to_prop.
  pose proof (lookup_lt_Some _ _ _ Hi). pose proof (br_shape _ _ _ _ Hinv) as Hsh.
  pose proof (bi_first _ _ Hsh i ltac:(lia)). congruence.
Qed.

(** A fork lies on two branches of its creator. *)
Lemma fork_branches D bi br a c :
  dag vv epoch D -> branch_inv vv D bi br -> sees_fork D a c ->
  exists b1 b2 x1 x2 e1 e2, b1 <> b2 /\ branch_by vv bi b1 c /\ branch_by vv bi b2 c /\
    br !! x1 = Some b1 /\ br !! x2 = Some b2 /\ D !! x1 = Some e1 /\ D !! x2 = Some e2 /\
    anc D a x1 /\ anc D a x2 /\ e_seq e1 = e_seq e2.
Proof.
  intros HD Hinv (x1 & x2 & e1 & e2 & Ha1 & Ha2 & H1 & H2 & Hne & Hc1 & Hc2 & Hs).
  destruct (proj2 (br_dom _ _ _ _ Hinv x1) ltac:(by eexists)) as [b1 Hb1].
  destruct (proj2 (br_dom _ _ _ _ Hinv x2) ltac:(by eexists)) as [b2 Hb2].
  exists b1, b2, x1, x2, e1, e2. repeat split; try done.
  - intros ->. apply Hne. by apply (br_uniq _ _ _ _ Hinv x1 x2 b2 e1 e2).
  - rewrite <- Hc1. by apply (branch_by_event D bi br x1).
  - rewrite <- Hc2. by apply (branch_by_event D bi br x2).
Qed.

Lemma no_fork_seen D bi br a c :
  dag vv epoch D -> branch_inv vv D bi br -> AtLeastOneFork vv bi = false -> ~ sees_fork D a c.
Proof.
  intros HD Hinv Hf Hsf.
  destruct (fork_branches D bi br a c HD Hinv Hsf) as (b1 & b2 & _ & _ & _ & _ & Hne & H1 & H2 & _).
  destruct H1 as (k1 & Hk1 & Hc1), H2 as (k2 & Hk2 & Hc2).
  assert (k1 = k2) as -> by (eapply NoDup_lookup; [apply (wf_ids_NoDup _ Hwf)|done..]).
  apply Hne. by rewrite (no_fork_single D bi br b1 k2), (no_fork_single D bi br b2 k2).
Qed.

End branches.
