(* ===== verification/VecBefore.v ===== *)
(** * vecengine: the HighestBefore vectors

    [hb_spec] says what the vector of an event means on the graph: a branch is
    flagged when a fork of its creator is observed, and otherwise holds the
    highest and the lowest sequence number observed on it.  The vector that
    [fillEventVectors] computes for a new event satisfies it.  The proofs use
    only the laws of [HighestBeforeLaws]. *)

From S2P Require Import Prelude Bytes Pos Dag VecFC VecEngine ForklessCause VecBranches.
Local Open Scope go_scope.

Abbreviation flagged := BranchSeq_IsForkDetected.

(** The cell [s] summarises the events of branch [i] that satisfy [O]. *)
Definition describes (D : gmap Z BaseEvent) (br : gmap Z nat) (O : Z -> Prop) (i : nat) (s : BranchSeq) : Prop :=
  (bs_Seq s = 0 /\ forall x, O x -> br !! x <> Some i) \/
  ((exists x e, O x /\ br !! x = Some i /\ D !! x = Some e /\ e_seq e = bs_Seq s) /\
   (exists x e, O x /\ br !! x = Some i /\ D !! x = Some e /\ e_seq e = bs_MinSeq s) /\
   (forall x e, O x -> br !! x = Some i -> D !! x = Some e -> bs_MinSeq s <= e_seq e <= bs_Seq s)).

Section before.
Context (vv : Validators) (epoch : Z) (Hwf : wf vv).
Context {HB : Type} `{!HighestBeforeI HB} `{!HighestBeforeLaws HB}.
Implicit Types (D : gmap Z BaseEvent) (bi : BranchesInfo) (br : gmap Z nat) (v : HB).

Record hb_spec D bi br (a : Z) v : Prop := {
  hs_wf : hb_wf v;
  hs_out : forall i, (length (BranchIDCreatorIdxs bi) <= i)%nat -> hb_get v i = zeroSeq;
  hs_sound : forall i c, branch_by vv bi i c -> flagged (hb_get v i) = true -> sees_fork D a c;
  hs_complete : forall i c x, branch_by vv bi i c -> sees_fork D a c ->
                  anc D a x -> br !! x = Some i -> flagged (hb_get v i) = true;
  hs_cell : forall i, flagged (hb_get v i) = false -> describes D br (anc D a) i (hb_get v i)
}.

(** ** Merging cells *)

Lemma flagged_spec s : flagged s = true <-> s = forkDetectedSeq.
Proof. apply bool_decide_eq_true. Qed.

Lemma flagged_seq s : bs_Seq s <> 0 -> flagged s = false.
Proof. intros Hs. apply bool_decide_eq_false. by intros ->. Qed.

Lemma flagged_min s : 0 < bs_MinSeq s < MaxInt32 -> flagged s = false.
Proof. intros Hs. apply bool_decide_eq_false. intros ->. simpl in Hs. lia. Qed.

Lemma merge_flagged my his :
  cell_u32 his -> flagged (merge_cell my his) = flagged my || flagged his.
Proof.
  intros [Hh _]. unfold merge_cell. destruct (flagged his) eqn:E1.
  - rewrite andb_false_r, orb_true_r. by destruct (flagged my) eqn:E2.
  - rewrite andb_true_r, orb_false_r. destruct (bs_Seq his =? 0) eqn:E2; [done|].
    destruct (flagged my) eqn:E3; [by rewrite E3|]. apply flagged_seq. simpl.
    bool_to_prop. unfold is_u32 in Hh. lia.
Qed.

Lemma describes_ext D br O1 O2 i s :
  (forall x, br !! x = Some i -> O1 x <-> O2 x) -> describes D br O1 i s -> describes D br O2 i s.
Proof.
  intros HO [[Hs Hn]|((x & e & Hx & Hb & ?) & (y & ey & Hy & Hyb & ?) & Hb3)].
  - left. split; [done|]. intros x Hx Hb. by apply (Hn x); [apply HO|].
  - right. split; [exists x, e; by rewrite <- HO|]. split; [exists y, ey; by rewrite <- HO|].
    intros z ez Hz Hzb. apply Hb3; [by apply HO|done].
Qed.

Lemma describes_merge D br O1 O2 i my his :
  (forall x e, D !! x = Some e -> 0 < e_seq e) -> (forall x, is_Some (br !! x) -> is_Some (D !! x)) ->
  flagged my = false -> flagged his = false ->
  describes D br O1 i my -> describes D br O2 i his ->
  describes D br (fun x => O1 x \/ O2 x) i (merge_cell my his).
Proof.
  intros Hpos Hdom Hf1 Hf2 H1 H2. unfold merge_cell. rewrite Hf1, Hf2, andb_true_r.
  destruct H2 as [[Hs2 Hn2]|((x2 & e2 & Hx2 & Hb2 & Hd2 & Hs2) & (y2 & f2 & Hy2 & Hc2 & Hg2 & Hm2) & Hall2)].
  { apply Z.eqb_eq in Hs2 as ->. eapply describes_ext; [|exact H1]. intros x Hx.
    split; [by left|]. intros [?|Ho]; [done|]. by apply Hn2 in Ho. }
  pose proof (Hpos _ _ Hd2). pose proof (Hpos _ _ Hg2).
  destruct (bs_Seq his =? 0) eqn:E; bool_to_prop; [lia|].
  destruct H1 as [[Hs1 Hn1]|((x1 & e1 & Hx1 & Hb1 & Hd1 & Hs1) & (y1 & f1 & Hy1 & Hc1 & Hg1 & Hm1) & Hall1)].
  - rewrite Hs1. simpl. rewrite Z.max_r by lia. right. simpl. split; [by exists x2, e2; auto|].
    split; [by exists y2, f2; auto|]. intros x e [Ho|Ho] Hb Hd; [by apply Hn1 in Ho|eauto].
  - pose proof (Hpos _ _ Hd1). destruct (bs_Seq my =? 0) eqn:E1; bool_to_prop; [lia|]. simpl.
    right. simpl. split; [|split].
    + destruct (Z.max_spec (bs_Seq my) (bs_Seq his)) as [[_ ->]|[_ ->]]; [exists x2, e2|exists x1, e1]; auto.
    + destruct (_ <? _); [exists y2, f2|exists y1, f1]; auto.
    + intros x e Ho Hb Hd. destruct Ho as [Ho|Ho]; [specialize (Hall1 x e Ho Hb Hd)|specialize (Hall2 x e Ho Hb Hd)];
        destruct (_ <? _) eqn:E2; bool_to_prop; lia.
Qed.

(** ** The collected vector *)

Section collect.
Context (D : gmap Z BaseEvent) (br : gmap Z nat) (nb : nat) (O0 : Z -> Prop).
Context (Hpos : forall x e, D !! x = Some e -> 0 < e_seq e)
  (Hdom : forall x, is_Some (br !! x) -> is_Some (D !! x)).

(** [pv] pairs each parent with its vector. *)
Lemma collect_all (Op : Z -> Z -> Prop) (pv : list (Z * HB)) v :
  hb_wf v ->
  (forall j, flagged (hb_get v j) = false) ->
  (forall j, (j < nb)%nat -> describes D br O0 j (hb_get v j)) ->
  (forall p w, (p, w) ∈ pv -> hb_wf w /\
     forall j, flagged (hb_get w j) = false -> describes D br (Op p) j (hb_get w j)) ->
  let v' := foldl (fun v pVec => hb_CollectFrom v pVec nb) v pv.*2 in
  hb_wf v' /\
  (forall j, (nb <= j)%nat -> hb_get v' j = hb_get v j) /\
  (forall j, (j < nb)%nat -> flagged (hb_get v' j) = true <->
     exists p w, (p, w) ∈ pv /\ flagged (hb_get w j) = true) /\
  (forall j, (j < nb)%nat -> flagged (hb_get v' j) = false ->
     describes D br (fun x => O0 x \/ exists p w, (p, w) ∈ pv /\ Op p x) j (hb_get v' j)).
Proof.
  intros Hv Hf Hd. induction pv as [|[p w] pv IH] using rev_ind; intros Hpv; simpl.
  - split; [done|]. split; [done|]. split.
    + intros j _. rewrite Hf. split; [done|]. intros (p & w & Hin & _). by apply not_elem_of_nil in Hin.
    + intros j Hj _. eapply describes_ext; [|by apply Hd]. intros x _. split; [by left|].
      intros [?|(p & w & Hin & _)]; [done|]. by apply not_elem_of_nil in Hin.
  - destruct IH as (IHw & IHo & IHf & IHd); [intros; apply Hpv; set_solver|].
    destruct (Hpv p w ltac:(set_solver)) as [Hw Hwd].
    rewrite fmap_app, foldl_app. simpl in *.
    set (u := foldl (fun v pVec => hb_CollectFrom v pVec nb) v pv.*2) in *.
    split; [by apply hb_Collect_wf|].
    split. { intros j Hj. rewrite hb_Collect_get, decide_False by (done || lia). by apply IHo. }
    split; intros j Hj; rewrite hb_Collect_get, decide_True by done;
      rewrite merge_flagged by (by apply hb_get_u32).
    + rewrite orb_true_iff, (IHf j Hj). set_solver.
    + intros [Hf1 Hf2]%orb_false_iff.
      pose proof (describes_merge _ _ _ _ _ _ _ Hpos Hdom Hf1 Hf2 (IHd j Hj Hf1) (Hwd j Hf2)) as Hm.
      eapply describes_ext; [|exact Hm].
      intros x _. simpl. set_solver.
Qed.

End collect.

(** ** Marking forks *)

Section mark.
Context (bi : BranchesInfo) (Hsh : bi_shape vv bi).

Lemma setForks_get v (l : list nat) :
  hb_wf v ->
  hb_wf (foldl hb_SetForkDetected v l) /\
  forall j, hb_get (foldl hb_SetForkDetected v l) j = if decide (j ∈ l) then forkDetectedSeq else hb_get v j.
Proof.
  revert v. induction l as [|i l IH]; intros v Hv; simpl; [done|].
  destruct (IH (hb_SetForkDetected v i)) as [Hw Hg]; [by apply hb_Fork_wf|]. split; [done|].
  intros j. rewrite Hg, hb_Fork_get by done.
  destruct (decide (j ∈ l)), (decide (i = j)), (decide (j ∈ i :: l)); set_solver.
Qed.

Lemma setForkDetected_get v n :
  hb_wf v -> (n < Validators_Len vv)%nat ->
  exists v', setForkDetected bi v n = Ok v' /\ hb_wf v' /\
    forall j, hb_get v' j = if decide (BranchIDCreatorIdxs bi !! j = Some n) then forkDetectedSeq else hb_get v j.
Proof.
  intros Hv Hn. unfold setForkDetected. rewrite (index_lookup _ _ _ (bi_first _ _ Hsh _ Hn)). simpl.
  destruct (lookup_lt_is_Some_2 (BranchIDByCreators bi) n) as [l Hl]; [by rewrite (bi_by_len _ _ Hsh)|].
  rewrite (index_lookup _ _ _ Hl). simpl. destruct (setForks_get v l Hv) as [Hw Hg].
  eexists. split; [reflexivity|]. split; [done|]. intros j. rewrite Hg.
  pose proof (bi_by _ _ Hsh _ _ Hl j) as Hj.
  destruct (decide (j ∈ l)), (decide (_ = Some n)); naive_solver.
Qed.

(** A loop over the creators that marks all the branches of those that satisfy
    [P], a condition on the cells of the creator. *)
Lemma mark_loop (F : HB -> nat -> outcome HB) (P : nat -> HB -> bool) :
  (forall v n, hb_wf v -> (n < Validators_Len vv)%nat ->
     F v n = if P n v then setForkDetected bi v n else Ok v) ->
  (forall n v w, hb_wf v -> hb_wf w -> (n < Validators_Len vv)%nat ->
     (forall j, BranchIDCreatorIdxs bi !! j = Some n -> hb_get v j = hb_get w j) -> P n v = P n w) ->
  forall v, hb_wf v ->
  exists v', foldM F v (seq 0 (Validators_Len vv)) = Ok v' /\ hb_wf v' /\
    (forall j n, BranchIDCreatorIdxs bi !! j = Some n ->
       hb_get v' j = if P n v then forkDetectedSeq else hb_get v j) /\
    (forall j, (length (BranchIDCreatorIdxs bi) <= j)%nat -> hb_get v' j = hb_get v j).
Proof.
  intros HF HP v Hv.
  assert (forall k, (k <= Validators_Len vv)%nat ->
    exists v', foldM F v (seq 0 k) = Ok v' /\ hb_wf v' /\
      (forall j n, BranchIDCreatorIdxs bi !! j = Some n ->
         hb_get v' j = if (n <? k)%nat && P n v then forkDetectedSeq else hb_get v j) /\
      (forall j, (length (BranchIDCreatorIdxs bi) <= j)%nat -> hb_get v' j = hb_get v j)) as Hk.
  { induction k as [|k IH]; intros Hk; [by exists v|].
    destruct IH as (u & Hu & Hwu & Hg & Ho); [lia|].
    rewrite seq_S, foldM_app, Hu. simpl. rewrite HF by (done || lia).
    assert (P k u = P k v) as ->.
    { apply HP; [done..|lia|]. intros j Hj. rewrite (Hg j k Hj), Nat.ltb_irrefl. done. }
    destruct (P k v) eqn:HPk.
    - destruct (setForkDetected_get u k Hwu ltac:(lia)) as (u' & -> & Hwu' & Hg'). simpl.
      exists u'. split; [done|]. split; [done|]. split.
      + intros j n Hj. rewrite Hg', (Hg j n Hj). destruct (decide (_ = Some k)) as [Hjk|Hjk].
        * assert (n = k) as -> by congruence. rewrite HPk.
          by rewrite (proj2 (Nat.ltb_lt k (S k)) ltac:(lia)).
        * assert (n <> k) by congruence. replace (n <? S k)%nat with (n <? k)%nat; [done|].
          apply eq_bool_prop_intro. rewrite !Is_true_true, !Nat.ltb_lt. lia.
      + intros j Hj. rewrite Hg', decide_False; [by apply Ho|].
        rewrite lookup_ge_None_2 by done. done.
    - simpl. exists u. split; [done|]. split; [done|]. split; [|done].
      intros j n Hj. rewrite (Hg j n Hj). destruct (decide (n = k)) as [->|Hne].
      * by rewrite HPk, !andb_false_r.
      * replace (n <? S k)%nat with (n <? k)%nat; [done|].
        apply eq_bool_prop_intro. rewrite !Is_true_true, !Nat.ltb_lt. lia. }
  destruct (Hk (Validators_Len vv) ltac:(lia)) as (v' & Hf & Hw & Hg & Ho). exists v'.
  split; [done|]. split; [done|]. split; [|done].
  intros j n Hj. rewrite (Hg j n Hj). pose proof (bi_creators _ _ Hsh _ _ Hj) as Hn.
  by rewrite (proj2 (Nat.ltb_lt _ _) Hn).
Qed.

Definition branches_of (n : nat) : list nat := default [] (BranchIDByCreators bi !! n).

Lemma branches_of_spec n :
  (n < Validators_Len vv)%nat ->
  BranchIDByCreators bi !! n = Some (branches_of n) /\
  forall b, b ∈ branches_of n <-> BranchIDCreatorIdxs bi !! b = Some n.
Proof.
  intros Hn. destruct (lookup_lt_is_Some_2 (BranchIDByCreators bi) n) as [l Hl]; [by rewrite (bi_by_len _ _ Hsh)|].
  unfold branches_of. rewrite Hl. split; [done|]. by apply (bi_by _ _ Hsh).
Qed.

Definition observedP (n : nat) (v : HB) : bool :=
  (1 <? length (branches_of n))%nat && existsb (hb_IsForkDetected v) (branches_of n).
Definition newP (n : nat) (v : HB) : bool :=
  negb (hb_IsForkDetected v n) &&
  existsb (fun a => existsb (overlapping v a) (branches_of n)) (branches_of n).

Lemma existsb_ext_in {A} (f g : A -> bool) l : (forall x, x ∈ l -> f x = g x) -> existsb f l = existsb g l.
Proof. induction l as [|x l IH]; intros Hfg; simpl; [done|]. rewrite (Hfg x), IH; [done|set_solver|set_solver]. Qed.

Lemma existsb_elem {A} (f : A -> bool) l : existsb f l = true <-> exists x, x ∈ l /\ f x = true.
Proof. rewrite existsb_exists. by setoid_rewrite <- list_elem_of_In. Qed.

(** Both loops, on a well-formed vector. *)
Lemma mark_both v :
  hb_wf v -> AtLeastOneFork vv bi = true ->
  exists u w, detectForks vv bi v = Ok w /\ hb_wf u /\ hb_wf w /\
    (forall j, (length (BranchIDCreatorIdxs bi) <= j)%nat -> hb_get w j = hb_get v j) /\
    (forall j n, BranchIDCreatorIdxs bi !! j = Some n ->
       hb_get u j = if observedP n v then forkDetectedSeq else hb_get v j) /\
    (forall j n, BranchIDCreatorIdxs bi !! j = Some n ->
       hb_get w j = if newP n u then forkDetectedSeq else hb_get u j).
Proof.
  intros Hv Hf. unfold detectForks. rewrite Hf.
  destruct (mark_loop (markObserved bi) observedP) with (v := v) as (u & Hu & Hwu & Hgu & Hou); [| |done|].
  - intros v0 n Hv0 Hn. unfold markObserved, observedP. destruct (branches_of_spec n Hn) as [Hl _].
    rewrite (index_lookup _ _ _ Hl). simpl. rewrite Nat.leb_antisym.
    destruct (1 <? _)%nat; simpl; [|done]. by destruct (existsb _ _).
  - intros n v0 w0 Hv0 Hw0 Hn Heq. unfold observedP. f_equal. apply existsb_ext_in.
    intros j Hj%(branches_of_spec n Hn). by rewrite !hb_IsFork_get, (Heq j Hj) by done.
  - rewrite Hu. simpl.
    destruct (mark_loop (markNew bi) newP) with (v := u) as (w & Hw & Hww & Hgw & Ho); [| |done|].
    + intros v0 n Hv0 Hn. unfold markNew, newP. destruct (branches_of_spec n Hn) as [Hl _].
      rewrite (index_lookup _ _ _ Hl). destruct (hb_IsForkDetected v0 n); simpl; [done|].
      by destruct (existsb _ _).
    + intros n v0 w0 Hv0 Hw0 Hn Heq. unfold newP. f_equal.
      * by rewrite !hb_IsFork_get, (Heq n (bi_first _ _ Hsh n Hn)) by done.
      * apply existsb_ext_in. intros a Ha%(branches_of_spec n Hn).
        apply existsb_ext_in. intros b Hb%(branches_of_spec n Hn). unfold overlapping.
        by rewrite !hb_IsEmpty_get, !hb_Seq_get, !hb_MinSeq_get, (Heq a Ha), (Heq b Hb) by done.
    + exists u, w. repeat split; try done. intros j Hj. by rewrite Ho, Hou.
Qed.

End mark.

(** ** Vectors of old events after an insertion *)

Section insert.
Context (D : gmap Z BaseEvent) (e : BaseEvent) (HD : dag vv epoch D) (Hcon : connectable vv epoch D e).
Context (bi bi' : BranchesInfo) (br : gmap Z nat) (me : nat).
Context (Hinv : branch_inv vv D bi br) (Hfill : fills vv D bi br e me bi').
Local Abbreviation D' := (<[e_id e := e]> D).
Local Abbreviation br' := (<[e_id e := me]> br).

Lemma branch_by_old i c :
  (i < length (BranchIDCreatorIdxs bi))%nat -> branch_by vv bi' i c -> branch_by vv bi i c.
Proof.
  intros Hi (k & Hk & Hc). exists k. split; [|done]. destruct Hfill as (_ & [l Hl] & _).
  rewrite Hl, lookup_app_l in Hk by done. done.
Qed.

Lemma hb_spec_insert a v : is_Some (D !! a) -> hb_spec D bi br a v -> hb_spec D' bi' br' a v.
Proof.
  intros Ha [Hw Ho Hs Hc Hd]. pose proof (con_fresh _ _ _ _ Hcon) as Hf.
  assert (forall x, anc D' a x <-> anc D a x) as Hanc by (intros x; by apply (anc_insert_old vv epoch)).
  assert (forall x, anc D a x -> x <> e_id e) as Hold.
  { intros x Hx ->. destruct (anc_dom _ _ _ _ _ HD Ha Hx). congruence. }
  split; [done| | | |].
  - intros i Hi. apply Ho. destruct Hfill as (_ & Hpre%prefix_length & _). lia.
  - intros i c Hb Hfl. apply (sees_fork_insert vv epoch); try done. apply (Hs i); [|done].
    apply branch_by_old; [|done]. destruct (decide (i < length (BranchIDCreatorIdxs bi))%nat) as [|Hn]; [done|].
    rewrite Ho in Hfl by lia. done.
  - intros i c x Hb Hsf Hx%Hanc Hbx. rewrite lookup_insert_ne in Hbx by (symmetry; by apply Hold).
    apply (sees_fork_insert vv epoch) in Hsf; try done.
    apply (Hc i c x); try done. apply branch_by_old; [|done].
    by apply (br_bound vv D bi br x).
  - intros i Hfl. destruct (Hd i Hfl) as [[Hz Hn]|((x & ex & Hx & Hbx & Hdx & Hsx) & (y & ey & Hy & Hby & Hdy & Hsy) & Hall)].
    + left. split; [done|]. intros x Hx%Hanc. rewrite lookup_insert_ne by (symmetry; by apply Hold). by apply Hn.
    + right. split; [|split].
      * exists x, ex. rewrite !lookup_insert_ne by (symmetry; by apply Hold). by rewrite Hanc.
      * exists y, ey. rewrite !lookup_insert_ne by (symmetry; by apply Hold). by rewrite Hanc.
      * intros z ez Hz%Hanc. rewrite !lookup_insert_ne by (symmetry; by apply Hold). by apply Hall.
Qed.

(** ** The vector of the new event *)

Lemma anc_new x : anc D' (e_id e) x <-> x = e_id e \/ exists p, p ∈ e_parents e /\ anc D' p x.
Proof.
  rewrite (anc_insert_new vv epoch) by done. pose proof (dag_connectable_ok _ _ _ _ HD Hcon) as Hok.
  split; (intros [?|(p & Hp & Hx)]; [by left|right; exists p; split; [done|]]).
  - destruct (eo_parents _ _ _ Hok p Hp) as (pe & Hpe & _).
    apply (anc_insert_old vv epoch); [done|apply Hcon|by eexists|done].
  - destruct (eo_parents _ _ _ Hok p Hp) as (pe & Hpe & _).
    apply (anc_insert_old vv epoch) in Hx; [done|done|apply Hcon|by eexists].
Qed.

Let HD' : dag vv epoch D'. Proof. by constructor. Qed.
Let Hinv' : branch_inv vv D' bi' br'. Proof. apply Hfill. Qed.

Lemma pos_seq x ex : D' !! x = Some ex -> 0 < e_seq ex < MaxInt32 - 1.
Proof. intros Hx. apply (eo_ranges _ _ _ (dag_event_ok _ _ _ _ _ HD' Hx)). Qed.

(** Two branches of one creator whose observed parts overlap show a fork. *)
Lemma overlap_fork a c b1 b2 s1 s2 :
  b1 <> b2 -> branch_by vv bi' b1 c -> branch_by vv bi' b2 c ->
  describes D' br' (anc D' a) b1 s1 -> describes D' br' (anc D' a) b2 s2 ->
  bs_Seq s1 <> 0 -> bs_Seq s2 <> 0 -> bs_MinSeq s1 <= bs_Seq s2 -> bs_MinSeq s2 <= bs_Seq s1 ->
  sees_fork D' a c.
Proof.
  intros Hne Hc1 Hc2 [[? _]|((h1 & eh1 & Hh1 & Hbh1 & Hdh1 & Hsh1) & (l1 & el1 & Hl1 & Hbl1 & Hdl1 & Hsl1) & Ha1)]; [done|].
  intros [[? _]|((h2 & eh2 & Hh2 & Hbh2 & Hdh2 & Hsh2) & (l2 & el2 & Hl2 & Hbl2 & Hdl2 & Hsl2) & Ha2)]; [done|].
  intros _ _ Ho1 Ho2. pose proof (Ha1 l1 el1 Hl1 Hbl1 Hdl1). pose proof (Ha2 l2 el2 Hl2 Hbl2 Hdl2).
  set (s := Z.max (bs_MinSeq s1) (bs_MinSeq s2)).
  destruct (branch_interval vv epoch D' bi' br' b1 a l1 h1 el1 eh1 s) as (x1 & e1 & Hb1 & Hd1 & Hs1 & Hx1); try done; [lia|].
  destruct (branch_interval vv epoch D' bi' br' b2 a l2 h2 el2 eh2 s) as (x2 & e2 & Hb2 & Hd2 & Hs2 & Hx2); try done; [lia|].
  exists x1, x2, e1, e2. repeat split; try done; [congruence| | |congruence].
  - eapply branch_by_inj; [|exact Hc1]. by apply (branch_by_event vv epoch Hwf D' bi' br' x1).
  - eapply branch_by_inj; [|exact Hc2]. by apply (branch_by_event vv epoch Hwf D' bi' br' x2).
Qed.

(** What collecting the parents' vectors establishes. *)
Record collected (v : HB) : Prop := {
  co_wf : hb_wf v;
  co_out : forall j, (length (BranchIDCreatorIdxs bi') <= j)%nat -> hb_get v j = zeroSeq;
  co_sound : forall j c, branch_by vv bi' j c -> flagged (hb_get v j) = true -> sees_fork D' (e_id e) c;
  co_cell : forall j, flagged (hb_get v j) = false -> describes D' br' (anc D' (e_id e)) j (hb_get v j)
}.

Lemma collect_parents (vecs : list HB) (n : nat) :
  Forall2 (hb_spec D bi br) (e_parents e) vecs ->
  collected (foldl (fun v pVec => hb_CollectFrom v pVec (length (BranchIDCreatorIdxs bi')))
               (hb_InitWithEvent (hb_New n) me e) vecs).
Proof.
  intros Hvecs. pose proof (dag_connectable_ok _ _ _ _ HD Hcon) as Hok.
  assert (is_u32 (e_seq e)) as Hu by (pose proof (eo_ranges _ _ _ Hok); solve_width).
  assert (br' !! e_id e = Some me) as Hbe by apply lookup_insert_eq.
  pose proof (br_bound vv D' bi' br' _ _ Hinv' Hbe) as Hme.
  assert (vecs = (zip (e_parents e) vecs).*2) as Hz.
  { symmetry. apply snd_zip. by rewrite (Forall2_length _ _ _ Hvecs). }
  assert (forall p w, (p, w) ∈ zip (e_parents e) vecs -> p ∈ e_parents e /\ hb_spec D' bi' br' p w) as Hpv.
  { intros p w Hin. apply list_elem_of_lookup in Hin as [i Hi].
    apply lookup_zip_with_Some in Hi as (p' & w' & [= -> ->] & Hp & Hw). split; [by eapply list_elem_of_lookup_2|].
    apply hb_spec_insert; [|by eapply Forall2_lookup_lr].
    destruct (eo_parents _ _ _ Hok p') as (pe & Hpe & _); [by eapply list_elem_of_lookup_2|]. by eexists. }
  destruct (collect_all D' br' (length (BranchIDCreatorIdxs bi')) (fun x => x = e_id e)) with
    (Op := fun p x => anc D' p x) (pv := zip (e_parents e) vecs)
    (v := hb_InitWithEvent (hb_New n) me e) as (Hw & Ho & Hfl & Hd).
  - intros x ex Hx. pose proof (pos_seq x ex Hx). lia.
  - intros x. by apply (br_dom _ _ _ _ Hinv').
  - apply hb_Init_wf; [apply hb_New_wf|done].
  - intros j. rewrite hb_Init_get by (apply hb_New_wf || done). destruct (decide (me = j)).
    + apply flagged_seq. simpl. pose proof (eo_ranges _ _ _ Hok). lia.
    + by rewrite hb_New_get.
  - intros j Hj. rewrite hb_Init_get by (apply hb_New_wf || done). destruct (decide (me = j)) as [<-|Hne].
    + right. simpl. split; [|split]; [exists (e_id e), e; by rewrite !lookup_insert_eq..|].
      intros x ex ->. rewrite !lookup_insert_eq. intros _ [= <-]. lia.
    + rewrite hb_New_get. left. split; [done|]. intros x ->. rewrite lookup_insert_eq. congruence.
  - intros p w [_ Hs]%Hpv. split; [apply Hs|]. apply Hs.
  - rewrite <- Hz in *. split; [done| | |].
    + intros j Hj. rewrite Ho, hb_Init_get by (done || apply hb_New_wf).
      rewrite decide_False by lia. apply hb_New_get.
    + intros j c Hb. pose proof Hb as (k & Hk%lookup_lt_Some & _). rewrite (Hfl j Hk).
      intros (p & w & [Hp Hs]%Hpv & Hf). apply (sees_fork_mono D' _ p).
      * apply anc_new. right. exists p. split; [done|constructor].
      * by apply (hs_sound _ _ _ _ _ Hs j).
    + intros j Hf. destruct (decide (j < length (BranchIDCreatorIdxs bi'))%nat) as [Hj|Hj].
      * eapply describes_ext; [|by apply Hd]. intros x _. simpl. rewrite anc_new.
        split; (intros [?|Hr]; [by left|right]).
        -- destruct Hr as (p & w & [Hp _]%Hpv & Hx). by exists p.
        -- destruct Hr as (p & Hp & Hx). apply list_elem_of_lookup in Hp as [i Hi].
           destruct (Forall2_lookup_l _ _ _ _ _ Hvecs Hi) as (w & Hw' & _).
           exists p, w. split; [|done]. eapply (list_elem_of_lookup_2 _ i). by apply lookup_zip_with_Some; eauto.
      * rewrite Ho, hb_Init_get by (lia || apply hb_New_wf || done). rewrite decide_False by lia.
        rewrite hb_New_get. left. split; [done|]. intros x _ Hx%(br_bound vv D' bi' br' _ _ Hinv'). lia.
Qed.

Section detect.
Context (v u w : HB) (Hcol : collected v).
Let Hsh : bi_shape vv bi'. Proof. apply (br_shape _ _ _ _ Hinv'). Qed.
Context (Hwu : hb_wf u) (Hww : hb_wf w)
  (Hgu : forall j n, BranchIDCreatorIdxs bi' !! j = Some n ->
           hb_get u j = if observedP bi' n v then forkDetectedSeq else hb_get v j)
  (Hgw : forall j n, BranchIDCreatorIdxs bi' !! j = Some n ->
           hb_get w j = if newP bi' n u then forkDetectedSeq else hb_get u j).

Lemma two_branches n b1 b2 :
  b1 <> b2 -> b1 ∈ branches_of bi' n -> b2 ∈ branches_of bi' n -> (1 <? length (branches_of bi' n))%nat = true.
Proof.
  intros Hne H1 H2. apply Nat.ltb_lt. destruct (branches_of bi' n) as [|x [|y l]]; simpl; [set_solver| |lia].
  apply list_elem_of_singleton in H1, H2. congruence.
Qed.

(** With two branches and nothing marked by the first loop, no branch is flagged. *)
Lemma unobserved_cells n b1 b2 j :
  (n < Validators_Len vv)%nat -> b1 <> b2 -> b1 ∈ branches_of bi' n -> b2 ∈ branches_of bi' n ->
  observedP bi' n v = false -> BranchIDCreatorIdxs bi' !! j = Some n ->
  hb_get u j = hb_get v j /\ flagged (hb_get v j) = false.
Proof.
  intros Hn Hne H1 H2 HO Hj. rewrite (Hgu j n Hj), HO. split; [done|].
  unfold observedP in HO. rewrite (two_branches n b1 b2 Hne H1 H2) in HO. simpl in HO.
  apply not_true_iff_false. intros Hfl. apply not_true_iff_false in HO. apply HO.
  apply existsb_elem. exists j.
  rewrite (proj2 (branches_of_spec bi' Hsh n Hn)), hb_IsFork_get by apply Hcol. done.
Qed.

(** The second loop acts on a creator only when its cells are untouched. *)
Lemma newP_cells n a b :
  (n < Validators_Len vv)%nat -> newP bi' n u = true -> a ∈ branches_of bi' n -> b ∈ branches_of bi' n ->
  overlapping u a b = true -> observedP bi' n v = false.
Proof.
  intros Hn HP Ha Hb Ho. destruct (observedP bi' n v) eqn:HO; [exfalso|done].
  unfold newP in HP. apply andb_true_iff in HP as [HP _].
  rewrite hb_IsFork_get, (Hgu n n (bi_first _ _ Hsh _ Hn)), HO in HP by done. done.
Qed.

Lemma detect_sound i c :
  branch_by vv bi' i c -> flagged (hb_get w i) = true -> sees_fork D' (e_id e) c.
Proof.
  intros Hb. pose proof Hb as (n & Hn & Hc). pose proof (bi_creators _ _ Hsh _ _ Hn) as Hlt. rewrite (Hgw i n Hn).
  destruct (newP bi' n u) eqn:HP.
  - intros _. pose proof HP as HP0. unfold newP in HP. apply andb_true_iff in HP as [_ HP].
    apply existsb_elem in HP as (a & Ha & HP). apply existsb_elem in HP as (b & Hb' & HP).
    pose proof (newP_cells n a b Hlt HP0 Ha Hb' HP) as HO.
    unfold overlapping in HP. rewrite !andb_true_iff, !negb_true_iff, Nat.eqb_neq, orb_false_iff in HP.
    destruct HP as [[[Hab Hemp] Hm1] Hm2].
    pose proof (proj1 (proj2 (branches_of_spec bi' Hsh n Hlt) a) Ha) as Hca.
    pose proof (proj1 (proj2 (branches_of_spec bi' Hsh n Hlt) b) Hb') as Hcb.
    destruct (unobserved_cells n a b a Hlt Hab Ha Hb' HO Hca) as [Hua Hfa].
    destruct (unobserved_cells n a b b Hlt Hab Ha Hb' HO Hcb) as [Hub Hfb].
    rewrite !hb_IsEmpty_get, Hua, Hub, Hfa, Hfb in Hemp by done. simpl in Hemp.
    rewrite !hb_Seq_get, !hb_MinSeq_get, Hua, Hub in * by done. bool_to_prop.
    apply (overlap_fork _ c a b (hb_get v a) (hb_get v b)); try done; try (by exists n);
      try (by apply Hcol); tauto.
  - rewrite (Hgu i n Hn). destruct (observedP bi' n v) eqn:HO; [|by apply Hcol].
    intros _. unfold observedP in HO. apply andb_true_iff in HO as [_ HO].
    apply existsb_elem in HO as (b & Hb' & HO). apply (branches_of_spec bi' Hsh n Hlt) in Hb'.
    rewrite hb_IsFork_get in HO by apply Hcol. apply (co_sound v Hcol b); [by exists n|done].
Qed.

Lemma detect_complete i c :
  branch_by vv bi' i c -> sees_fork D' (e_id e) c -> flagged (hb_get w i) = true.
Proof.
  intros (n & Hn & Hc) Hsf. pose proof (bi_creators _ _ Hsh _ _ Hn) as Hlt.
  rewrite (Hgw i n Hn). destruct (newP bi' n u) eqn:HP; [done|].
  apply (fork_branches vv epoch Hwf D' bi' br' _ _ HD' Hinv') in Hsf as
    (b1 & b2 & x1 & x2 & e1 & e2 & Hne & (n1 & Hn1 & Hc1) & (n2 & Hn2 & Hc2) & Hb1 & Hb2 & Hd1 & Hd2 & Ha1 & Ha2 & Hse).
  assert (n1 = n /\ n2 = n) as [-> ->].
  { split; eapply NoDup_lookup; try apply (wf_ids_NoDup _ Hwf); done. }
  rewrite (Hgu i n Hn). destruct (observedP bi' n v) eqn:HO; [done|exfalso].
  apply (branches_of_spec bi' Hsh n Hlt) in Hn1 as Hin1. apply (branches_of_spec bi' Hsh n Hlt) in Hn2 as Hin2.
  pose proof (fun j => unobserved_cells n b1 b2 j Hlt Hne Hin1 Hin2 HO) as Hun.
  destruct (Hun n (bi_first _ _ Hsh _ Hlt)) as [Hu0 Hf0].
  unfold newP in HP. rewrite hb_IsFork_get, Hu0, Hf0 in HP by done. simpl in HP.
  apply not_true_iff_false in HP. apply HP. apply existsb_elem. exists b1. split; [done|].
  apply existsb_elem. exists b2. split; [done|].
  destruct (Hun b1 Hn1) as [Hu1 Hf1], (Hun b2 Hn2) as [Hu2 Hf2].
  unfold overlapping. rewrite !hb_IsEmpty_get, !hb_Seq_get, !hb_MinSeq_get, Hu1, Hu2, Hf1, Hf2 by done. simpl.
  destruct (co_cell v Hcol b1 Hf1) as [[_ Hno]|(_ & _ & Hall1)]; [by apply Hno in Ha1|].
  destruct (co_cell v Hcol b2 Hf2) as [[_ Hno]|(_ & _ & Hall2)]; [by apply Hno in Ha2|].
  specialize (Hall1 _ _ Ha1 Hb1 Hd1). specialize (Hall2 _ _ Ha2 Hb2 Hd2).
  pose proof (pos_seq _ _ Hd1). pose proof (pos_seq _ _ Hd2).
  rewrite !andb_true_iff, !negb_true_iff, orb_false_iff, Nat.eqb_neq, !Z.eqb_neq, !Z.leb_le.
  repeat split; try done; lia.
Qed.

End detect.

Lemma detectForks_spec v :
  collected v -> exists w, detectForks vv bi' v = Ok w /\ hb_spec D' bi' br' (e_id e) w.
Proof.
  intros Hcol. pose proof Hcol as [Hw Ho Hs Hd]. pose proof (br_shape _ _ _ _ Hinv') as Hsh.
  destruct (AtLeastOneFork vv bi') eqn:Hfork.
  - destruct (mark_both bi' Hsh v Hw Hfork) as (u & w & Hdf & Hwu & Hww & Hout & Hgu & Hgw).
    exists w. split; [done|]. split; [done|by intros i Hi; rewrite Hout, Ho by done| | |].
    + intros i c. by apply (detect_sound v u w).
    + intros i c x Hb Hsf _ _. by apply (detect_complete v u w) with (c := c).
    + intros i Hfl. destruct (BranchIDCreatorIdxs bi' !! i) as [n|] eqn:Hn.
      * rewrite (Hgw i n Hn) in *. destruct (newP bi' n u); [done|].
        rewrite (Hgu i n Hn) in *. destruct (observedP bi' n v); [done|]. by apply Hd.
      * apply lookup_ge_None in Hn. rewrite Hout in * by done. by apply Hd.
  - unfold detectForks. rewrite Hfork. exists v. split; [done|]. split; try done.
    intros i c x Hb Hsf. by apply (no_fork_seen vv epoch Hwf D' bi' br') in Hsf.
Qed.

End insert.
End before.
