(* ===== verification/VecAfter.v ===== *)
(** * vecengine: the LowestAfter vectors

    [la_spec] says what the vector of an event means: on every branch, the
    lowest sequence number of an event of the branch that observes it, 0 when
    there is none.  The traversal of [DfsSubgraph] terminates within
    [dfs_fuel], updates exactly the events the new event observes, and stops
    early only where the ancestors are known to be up to date. *)

From S2P Require Import Prelude Bytes Pos Dag VecFC VecEngine ForklessCause VecBranches.
Local Open Scope go_scope.

Section after.
Context (vv : Validators) (epoch : Z) (Hwf : wf vv).
Context {LA : Type} `{!LowestAfterI LA} `{!LowestAfterLaws LA}.
Implicit Types (D : gmap Z BaseEvent) (bi : BranchesInfo) (br : gmap Z nat) (v : LA).

(** [x] is an event of branch [i] that observes [w]. *)
Definition observer D br (w : Z) (i : nat) (x : Z) (e : BaseEvent) : Prop :=
  br !! x = Some i /\ D !! x = Some e /\ anc D x w.

Definition lowest D br (w : Z) (i : nat) (s : Z) : Prop :=
  (s = 0 /\ forall x e, ~ observer D br w i x e) \/
  ((exists x e, observer D br w i x e /\ s = e_seq e) /\
   forall x e, observer D br w i x e -> s <= e_seq e).

Definition la_spec D br (w : Z) v : Prop := la_wf v /\ forall i, lowest D br w i (la_get v i).

(** ** The traversal *)

Section walk.
Context (D : gmap Z BaseEvent) (HD : dag vv epoch D) (e : BaseEvent) (Hcon : connectable vv epoch D e).
Context (getEvent : Z -> option BaseEvent) (Hsrc : forall h x, D !! h = Some x -> getEvent h = Some x).
Context (me : nat) (la : gmap Z LA).
Context (Hdom : forall w, is_Some (la !! w) <-> is_Some (D !! w))
  (Hlawf : forall w v, la !! w = Some v -> la_wf v).

(** The cell [me] of an event in the table [s]. *)
Definition cell (s : gmap Z LA) (w : Z) : Z := default 0 ((fun v => la_get v me) <$> s !! w).

Context (Hclosed : forall w p, cell la w <> 0 -> parent D w p -> cell la p <> 0).

Definition reached (x : Z) : Prop := exists p, p ∈ e_parents e /\ anc D p x.

Record walk_inv (s : gmap Z LA) (stack : list Z) : Prop := {
  wi_dom : forall w, is_Some (s !! w) <-> is_Some (D !! w);
  wi_cells : forall w v v', la !! w = Some v -> s !! w = Some v' ->
               la_wf v' /\ (forall j, j <> me -> la_get v' j = la_get v j) /\
               (la_get v' me = la_get v me \/ la_get v me = 0 /\ la_get v' me = e_seq e /\ reached w);
  wi_stack : forall x, x ∈ stack -> reached x;
  wi_parents : forall w p, cell s w <> 0 -> parent D w p -> cell s p <> 0 \/ p ∈ stack;
  wi_head : forall p, p ∈ e_parents e -> cell s p <> 0 \/ p ∈ stack
}.

Lemma reached_dom x : reached x -> is_Some (D !! x).
Proof.
  intros (p & Hp & Hx). destruct (eo_parents _ _ _ (dag_connectable_ok _ _ _ _ HD Hcon) p Hp) as (pe & Hpe & _).
  apply (anc_dom vv epoch D p); [done|by eexists|done].
Qed.

Lemma e_seq_pos : 0 < e_seq e /\ is_u32 (e_seq e).
Proof. pose proof (eo_ranges _ _ _ (dag_connectable_ok _ _ _ _ HD Hcon)). split; solve_width. Qed.

(** Parents still to be expanded. *)
Definition pending (s : gmap Z LA) : nat :=
  sum_list ((fun kv => if cell s kv.1 =? 0 then length (e_parents kv.2) else 0%nat) <$> map_to_list D).

Lemma cell_insert s w v w' :
  cell (<[w := v]> s) w' = if decide (w = w') then la_get v me else cell s w'.
Proof. unfold cell. rewrite lookup_insert. by destruct (decide (w = w')). Qed.

(** Visiting an event that is not yet marked. *)
Lemma visit_inv s stack x v :
  walk_inv s (stack ++ [x]) -> s !! x = Some v -> la_get v me = 0 ->
  forall ex, D !! x = Some ex ->
  let s' := <[x := (la_Visit v me e).2]> s in
  walk_inv s' (Stack_PushAll stack (e_parents ex)) /\ (pending s' + length (e_parents ex) = pending s)%nat.
Proof.
  intros [H1 H2 H3 H4 H5] Hv Hz ex Hex s'. pose proof e_seq_pos as [Hpos Hu].
  destruct (proj2 (Hdom x)) as [v0 Hv0]; [by eexists|].
  destruct (H2 x v0 v Hv0 Hv) as (Hvw & Hvo & Hvm).
  assert (la_get (la_Visit v me e).2 me = e_seq e) as Hme.
  { rewrite la_Visit_get by done. by rewrite decide_True. }
  assert (reached x) as Hrx by (apply H3; set_solver).
  assert (forall w', cell s w' <> 0 -> cell s' w' <> 0) as Hmono.
  { intros w' Hw'. unfold s'. rewrite cell_insert. destruct (decide _); [lia|done]. }
  assert (forall p, p ∈ stack ++ [x] -> cell s' p <> 0 \/ p ∈ stack) as Hpop.
  { intros p [Hp| ->%list_elem_of_singleton]%elem_of_app; [by right|left].
    unfold s'. rewrite cell_insert, decide_True by done. lia. }
  split; [split|].
  - intros w. unfold s'. rewrite lookup_insert_is_Some', H1. naive_solver.
  - intros w u u' Hu0. unfold s'. rewrite lookup_insert_Some. intros [[<- <-]|[Hne Hu']]; [|by eapply H2].
    simplify_eq. split; [by apply la_Visit_wf|]. split.
    + intros j Hj. rewrite la_Visit_get by done. rewrite decide_False by naive_solver. by apply Hvo.
    + right. split; [|done]. destruct Hvm as [<-|(? & ? & _)]; [done|lia].
  - intros y [Hy|Hy]%elem_of_app; [apply H3; set_solver|]. destruct Hrx as (p & Hp & Hpx). exists p.
    split; [done|]. eapply rtc_r; [done|]. by exists ex.
  - intros w p Hw Hp. unfold s' in Hw. rewrite cell_insert in Hw.
    unfold Stack_PushAll. rewrite elem_of_app. destruct (decide (x = w)) as [<-|Hne].
    + destruct Hp as (ex' & Hex' & Hp). simplify_eq. auto.
    + destruct (H4 w p Hw Hp) as [?|Hs]; [auto|]. apply Hpop in Hs. tauto.
  - intros p Hp. unfold Stack_PushAll. rewrite elem_of_app.
    destruct (H5 p Hp) as [?|Hs]; [auto|]. apply Hpop in Hs. tauto.
  - pose proof (sum_list_one
      (fun kv => if cell s' kv.1 =? 0 then length (e_parents kv.2) else 0%nat)
      (fun kv => if cell s kv.1 =? 0 then length (e_parents kv.2) else 0%nat)
      (map_to_list D) x ex (NoDup_fst_map_to_list _) (proj2 (elem_of_map_to_list _ _ _) Hex)) as Hsum.
    unfold pending. simpl in Hsum. unfold s' in *. rewrite cell_insert, decide_True, Hme in Hsum by done.
    assert (cell s x = 0) as Hcx by (unfold cell; by rewrite Hv). rewrite Hcx in Hsum. simpl in Hsum.
    destruct (e_seq e =? 0) eqn:E; bool_to_prop; [lia|].
    rewrite Nat.add_0_r in Hsum. apply Hsum. intros k' x' Hne. simpl. by rewrite cell_insert, decide_False.
Qed.

(** Skipping an event that is already marked. *)
Lemma skip_inv s stack x : walk_inv s (stack ++ [x]) -> cell s x <> 0 -> walk_inv s stack.
Proof.
  intros [H1 H2 H3 H4 H5] Hx. split; try done.
  - intros y Hy. apply H3. set_solver.
  - intros w p Hw Hp. destruct (H4 w p Hw Hp) as [?|[?| ->%list_elem_of_singleton]%elem_of_app]; auto.
  - intros p Hp. destruct (H5 p Hp) as [?|[?| ->%list_elem_of_singleton]%elem_of_app]; auto.
Qed.

Lemma dfs_terminates fuel : forall s stack,
  walk_inv s stack -> (length stack + pending s < fuel)%nat ->
  exists s', dfs_loop fuel getEvent (onWalk me e) s stack = Ok s' /\ walk_inv s' [].
Proof.
  induction fuel as [|fuel IH]; intros s stack Hinv Hf; [lia|].
  destruct stack as [|x stack _] using rev_ind; [by exists s|].
  cbn [dfs_loop]. rewrite Stack_Pop_snoc. cbn. unfold onWalk.
  assert (reached x) as Hrx by (apply (wi_stack _ _ Hinv); set_solver).
  destruct (reached_dom x Hrx) as [ex Hex].
  destruct (proj2 (wi_dom _ _ Hinv x)) as [v Hv]; [by eexists|]. rewrite Hv.
  destruct (proj2 (Hdom x)) as [v0 Hv0]; [by eexists|].
  destruct (wi_cells _ _ Hinv x v0 v Hv0 Hv) as (Hvw & _). rewrite length_app in Hf. simpl in Hf.
  pose proof (la_Visit_fst v me e Hvw) as Hvf.
  destruct (la_Visit v me e) as [vis v'] eqn:Hvis. simpl in Hvf. subst vis.
  destruct (la_get v me =? 0) eqn:E; bool_to_prop; simpl.
  - rewrite (Hsrc _ _ Hex). destruct (visit_inv s stack x v Hinv Hv E ex Hex) as [Hinv' Hp]. rewrite Hvis in *. simpl in *.
    apply IH; [done|]. unfold Stack_PushAll. rewrite length_app. lia.
  - apply IH; [|lia]. apply (skip_inv s stack x Hinv). unfold cell. by rewrite Hv.
Qed.

Lemma pending_le : (pending la <= sum_list ((fun kv : Z * BaseEvent => length (e_parents kv.2)) <$> map_to_list D))%nat.
Proof.
  unfold pending. induction (map_to_list D) as [|[k x] l IHl]; csimpl; [lia|]. destruct (_ =? _); simpl; lia.
Qed.

(** The whole traversal: it terminates, changes only the cell [me] of reached
    events, from 0 to the new sequence number, and leaves none of them at 0. *)
Lemma DfsSubgraph_spec fuel :
  (dfs_fuel D e <= fuel)%nat ->
  exists s, vec_DfsSubgraph fuel getEvent e (onWalk me e) la = Ok s /\
    (forall w, is_Some (s !! w) <-> is_Some (D !! w)) /\
    (forall w v v', la !! w = Some v -> s !! w = Some v' ->
       la_wf v' /\ (forall j, j <> me -> la_get v' j = la_get v j) /\
       (la_get v' me = la_get v me \/ la_get v me = 0 /\ la_get v' me = e_seq e /\ reached w)) /\
    (forall w, reached w -> cell s w <> 0).
Proof.
  intros Hfuel. destruct (dfs_terminates fuel la (Stack_PushAll [] (e_parents e))) as (s & Hs & Hinv).
  - split.
    + done.
    + intros w v v' Hv Hv'. simplify_eq. eauto 6.
    + intros x Hx. exists x. split; [done|constructor].
    + intros w p Hw Hp. left. by eapply Hclosed.
    + intros p Hp. by right.
  - unfold dfs_fuel in Hfuel. simpl. pose proof pending_le. lia.
  - exists s. split; [done|]. destruct Hinv as [H1 H2 _ H4 H5]. split; [done|]. split; [done|].
    intros w (p & Hp & Hx). destruct (H5 p Hp) as [Hc|Hn]; [|by apply not_elem_of_nil in Hn].
    clear Hp. induction Hx as [|p q w Hpq _ IH]; [done|]. apply IH.
    destruct (H4 p q Hc Hpq) as [|Hn]; [done|by apply not_elem_of_nil in Hn].
Qed.

End walk.

(** ** The vectors after an insertion *)

Section insert.
Context (D : gmap Z BaseEvent) (e : BaseEvent) (HD : dag vv epoch D) (Hcon : connectable vv epoch D e).
Context (bi bi' : BranchesInfo) (br : gmap Z nat) (me : nat).
Context (Hinv : branch_inv vv D bi br) (Hfill : fills vv D bi br e me bi').
Local Abbreviation D' := (<[e_id e := e]> D).
Local Abbreviation br' := (<[e_id e := me]> br).

Lemma observer_insert w i x ex :
  is_Some (D !! w) ->
  observer D' br' w i x ex <->
  observer D br w i x ex \/ (x = e_id e /\ ex = e /\ i = me /\ reached D e w).
Proof.
  intros [ew Hw]. pose proof (con_fresh _ _ _ _ Hcon) as Hf. unfold observer.
  assert (br !! e_id e = None) as Hbf.
  { destruct (br !! e_id e) eqn:E; [|done].
    destruct (proj1 (br_dom _ _ _ _ Hinv (e_id e))) as [? ?]; [by eexists|]. congruence. }
  destruct (decide (x = e_id e)) as [->|Hne].
  - rewrite !lookup_insert_eq, Hbf, (anc_insert_new vv epoch) by done. unfold reached.
    split.
    + intros ([= <-] & [= <-] & [->|Hr]); [congruence|]. right. done.
    + intros [(? & _)|(_ & -> & -> & Hr)]; [done|]. auto.
  - rewrite !lookup_insert_ne by done. split.
    + intros (Hb & Hd & Ha). left. split; [done|]. split; [done|].
      apply (anc_insert_old vv epoch) in Ha; [done|done|done|by eexists].
    + intros [(Hb & Hd & Ha)|(? & _)]; [|done]. split; [done|]. split; [done|].
      apply (anc_insert_old vv epoch); [done|done|by eexists|done].
Qed.

Lemma la_spec_insert w v v' :
  is_Some (D !! w) -> la_spec D br w v -> la_wf v' ->
  (forall j, j <> me -> la_get v' j = la_get v j) ->
  (la_get v' me = la_get v me \/ la_get v me = 0 /\ la_get v' me = e_seq e /\ reached D e w) ->
  (reached D e w -> la_get v' me <> 0) ->
  la_spec D' br' w v'.
Proof.
  intros Hw [Hv Hlow] Hv' Hoth Hme Hr. split; [done|]. intros i. unfold lowest.
  assert (forall x ex, observer D' br' w i x ex <->
    observer D br w i x ex \/ (x = e_id e /\ ex = e /\ i = me /\ reached D e w)) as HO
    by (intros; by apply observer_insert).
  setoid_rewrite HO. clear HO. destruct (decide (i = me)) as [->|Hne].
  - destruct Hfill as (_ & _ & Hlt). destruct (Hlow me) as [[Hz Hno]|[(x & ex & Hx & Hs) Hall]].
    + destruct Hme as [Hme|(_ & Hme & Hre)].
      * left. split; [congruence|]. intros x ex [Hx|(-> & -> & _ & Hre)]; [by eapply Hno|].
        apply (Hr Hre). congruence.
      * right. split; [exists (e_id e), e; split; [by right|done]|].
        intros x ex [Hx|(-> & -> & _)]; [by apply Hno in Hx|lia].
    + pose proof Hx as (_ & Hd & _).
      pose proof (eo_ranges _ _ _ (dag_event_ok _ _ _ _ _ HD Hd)). destruct Hme as [->|(Hz & _)]; [|lia].
      right. split; [exists x, ex; auto|]. intros y ey [Hy|(-> & -> & _)]; [eauto|].
      destruct Hx as (Hb & _ & _). specialize (Hlt _ _ Hb Hd). lia.
  - rewrite Hoth by done. destruct (Hlow i) as [[Hz Hno]|[(x & ex & Hx & Hs) Hall]].
    + left. split; [done|]. intros x ex [Hx|(_ & _ & ? & _)]; [by eapply Hno|done].
    + right. split; [exists x, ex; auto|]. intros y ey [Hy|(_ & _ & ? & _)]; [eauto|done].
Qed.

Lemma la_spec_new n : la_spec D' br' (e_id e) (la_InitWithEvent (la_New n) me e).
Proof.
  pose proof (dag_connectable_ok _ _ _ _ HD Hcon) as Hok. pose proof (con_fresh _ _ _ _ Hcon) as Hf.
  assert (is_u32 (e_seq e)) as Hu by (pose proof (eo_ranges _ _ _ Hok); solve_width).
  assert (forall i x ex, observer D' br' (e_id e) i x ex -> x = e_id e /\ ex = e /\ i = me) as Hobs.
  { intros i x ex (Hb & Hd & Ha). destruct (decide (x = e_id e)) as [->|Hne].
    - rewrite !lookup_insert_eq in *. by simplify_eq.
    - rewrite lookup_insert_ne in Hd by done.
      by apply (anc_insert_not_old vv epoch) in Ha. }
  split; [apply la_Init_wf; [apply la_New_wf|done]|]. intros i.
  rewrite la_Init_get by (done || apply la_New_wf). destruct (decide (me = i)) as [<-|Hne].
  - right. split.
    + exists (e_id e), e. split; [|done]. repeat split; [by rewrite lookup_insert_eq..|constructor].
    + intros x ex (-> & -> & _)%Hobs. lia.
  - rewrite la_New_get. left. split; [done|]. intros x ex (_ & _ & ->)%Hobs. done.
Qed.

End insert.
End after.
