(* ===== verification/VecCorrect.v ===== *)
(** * vecengine and vecfc: the index decides forkless cause

    [db_inv] ties the tables to the event graph; every operation of the engine
    keeps it.  In every state the engine can reach, [forklessCause] answers the
    relation [fc] of ForklessCause.v, and the merged vector of an event flags
    exactly the validators whose fork the event observes. *)

From S2P Require Import Prelude Bytes Pos Dag VecFC VecEngine ForklessCause VecBranches VecBefore VecAfter.
Local Open Scope go_scope.

Section engine_inv.
Context (vv : Validators) (epoch : Z) (Hwf : wf vv).
Context {HB LA bytes : Type} `{!HighestBeforeI HB} `{!LowestAfterI LA} `{!BranchesInfoRlp bytes}.
Context `{!HighestBeforeLaws HB} `{!LowestAfterLaws LA} `{!BranchesInfoRlpLaws bytes}.
Implicit Types (D : gmap Z BaseEvent) (bi : BranchesInfo) (db : VecDb HB LA bytes) (vi : Engine HB LA bytes).

Record db_inv D bi db : Prop := {
  di_branch : branch_inv vv D bi (t_EventBranch db);
  di_hb_dom : forall a, is_Some (t_HighestBefore db !! a) <-> is_Some (D !! a);
  di_hb : forall a v, t_HighestBefore db !! a = Some v -> hb_spec vv D bi (t_EventBranch db) a v;
  di_la_dom : forall a, is_Some (t_LowestAfter db !! a) <-> is_Some (D !! a);
  di_la : forall a v, t_LowestAfter db !! a = Some v -> la_spec D (t_EventBranch db) a v
}.

(** The branches stored in a table, or those of the first run. *)
Definition stored_bi db bi : Prop :=
  getBranchesInfo db = Ok (Some bi) \/ (getBranchesInfo db = Ok None /\ bi = newInitialBranchesInfo vv).

Definition current_bi vi bi : Prop :=
  en_bi vi = Some bi \/ (en_bi vi = None /\ stored_bi (en_db vi) bi).

(** [Df] are the flushed events, [D] all the connected ones. *)
Record engine_inv (Df D : gmap Z BaseEvent) vi : Prop := {
  ei_validators : en_validators vi = vv;
  ei_dag_f : dag vv epoch Df;
  ei_dag : dag vv epoch D;
  ei_flushed : exists bi, stored_bi (en_flushed vi) bi /\ db_inv Df bi (en_flushed vi);
  ei_db : exists bi, current_bi vi bi /\ db_inv D bi (en_db vi);
  ei_clean : en_dirty vi = false -> en_db vi = en_flushed vi /\ D = Df
}.

(** ** Adding an event *)

Lemma loadParents_spec db (ps : list Z) : forall acc,
  (forall p, p ∈ ps -> is_Some (t_EventBranch db !! p) /\ is_Some (t_HighestBefore db !! p)) ->
  exists vecs, foldM (loadParent db) acc ps = Ok (acc ++ vecs) /\
    Forall2 (fun p v => t_HighestBefore db !! p = Some v) ps vecs.
Proof.
  induction ps as [|p ps IH]; intros acc Hps; simpl.
  - exists []. by rewrite app_nil_r.
  - destruct (Hps p ltac:(left)) as [[b Hb] [v Hv]].
    unfold loadParent at 1, GetEventBranchID. rewrite Hb, Hv. simpl.
    destruct (IH (acc ++ [v])) as (vecs & Hf & Hall); [intros; apply Hps; by right|].
    exists (v :: vecs). rewrite Hf, <- app_assoc. split; [done|]. by constructor.
Qed.

Lemma cells_closed D bi db me w p :
  dag vv epoch D -> db_inv D bi db ->
  cell me (t_LowestAfter db) w <> 0 -> parent D w p -> cell me (t_LowestAfter db) p <> 0.
Proof.
  intros HD Hdb Hw Hp. unfold cell in Hw.
  destruct (t_LowestAfter db !! w) as [vw|] eqn:Hvw; simpl in Hw; [|done].
  destruct (di_la _ _ _ Hdb _ _ Hvw) as [_ Hlow]. destruct (Hlow me) as [[? _]|[(x & e & (Hb & Hd & Ha) & Hs) _]]; [done|].
  assert (is_Some (D !! p)) as Hdp.
  { pose proof Hp as (ew & Hew & _). apply (anc_dom vv epoch D w); [done|by eexists|by apply rtc_once]. }
  apply (di_la_dom _ _ _ Hdb) in Hdp as [vp Hvp]. unfold cell. rewrite Hvp. simpl.
  destruct (di_la _ _ _ Hdb _ _ Hvp) as [_ Hlp]. destruct (Hlp me) as [[_ Hno]|[(y & ey & (_ & Hy & _) & Hsy) _]].
  - exfalso. apply (Hno x e). split; [done|]. split; [done|]. by eapply rtc_r.
  - pose proof (eo_ranges _ _ _ (dag_event_ok _ _ _ _ _ HD Hy)). lia.
Qed.

Lemma fillEventVectors_inv D bi vi e getEvent fuel :
  (forall h x, D !! h = Some x -> getEvent h = Some x) -> (dfs_fuel D e <= fuel)%nat ->
  en_validators vi = vv -> dag vv epoch D -> connectable vv epoch D e -> db_inv D bi (en_db vi) -> uncapped bi ->
  exists bi' db', fillEventVectors fuel getEvent vi bi e =
      Ok (mk_Engine vv (Some bi') (en_flushed vi) db' true) /\
    db_inv (<[e_id e := e]> D) bi' db'.
Proof.
  intros Hsrc Hfuel Hvv HD Hcon Hdb Hcap. pose proof (dag_connectable_ok _ _ _ _ HD Hcon) as Hok.
  pose proof Hdb as [Hbr Hhd Hhb Hld Hla].
  destruct (fillGlobalBranchID_fills vv epoch Hwf D bi _ e HD Hcon Hbr Hcap) as (me & bi' & Hfg & Hfill).
  unfold fillEventVectors, en_validatorIdxs. rewrite Hvv.
  change (default 0%nat (Idxs vv !! e_creator e)) with (GetIdx vv (e_creator e)). rewrite Hfg. cbn [outcome_bind].
  destruct (loadParents_spec (en_db vi) (e_parents e) []) as (vecs & Hload & Hvecs).
  { intros p Hp. destruct (eo_parents _ _ _ Hok p Hp) as (pe & Hpe & _).
    split; [apply (br_dom _ _ _ _ Hbr); by eexists|apply Hhd; by eexists]. }
  rewrite Hload. cbn [outcome_bind app].
  assert (Forall2 (hb_spec vv D bi (t_EventBranch (en_db vi))) (e_parents e) vecs) as Hspecs.
  { eapply Forall2_impl; [exact Hvecs|]. intros p v. apply Hhb. }
  pose proof (collect_parents vv epoch Hwf D e HD Hcon bi bi' _ me Hbr Hfill vecs
    (length (BranchIDCreatorIdxs bi)) Hspecs) as Hcol.
  destruct (detectForks_spec vv epoch Hwf D e HD Hcon bi bi' _ me Hbr Hfill _ Hcol) as (w & Hdet & Hw).
  rewrite Hdet. cbn [outcome_bind].
  destruct (DfsSubgraph_spec vv epoch Hwf D HD e Hcon getEvent Hsrc me (t_LowestAfter (en_db vi)) Hld ltac:(by intros x v [? _]%Hla)
    ltac:(intros x p; by apply (cells_closed D bi)) fuel Hfuel) as (la & Hdfs & Hdom & Hcells & Hreach).
  rewrite Hdfs. cbn [outcome_bind]. do 2 eexists. split; [reflexivity|].
  split; simpl.
  - apply Hfill.
  - intros a. rewrite !lookup_insert_is_Some', Hhd. done.
  - intros a v [[<- <-]|[Hne Hv]]%lookup_insert_Some; [done|].
    apply (hb_spec_insert vv epoch D e HD Hcon bi bi' _ me Hbr Hfill); [|by apply Hhb].
    apply Hhd. by eexists.
  - intros a. rewrite !lookup_insert_is_Some', Hdom. done.
  - intros a v [[<- <-]|[Hne Hv]]%lookup_insert_Some; [by apply (la_spec_new vv epoch D e HD Hcon bi bi')|].
    assert (is_Some (D !! a)) as Ha by (apply Hdom; by eexists).
    pose proof Ha as Ha2. apply Hld in Ha2 as [v0 Hv0]. destruct (Hcells a v0 v Hv0 Hv) as (Hvw & Hoth & Hme).
    eapply (la_spec_insert vv epoch D e HD Hcon bi bi' _ me Hbr Hfill); try done; [by apply Hla|].
    intros Hr%Hreach. unfold cell in Hr. by rewrite Hv in Hr.
Qed.

(** ** The other operations *)

Lemma Init_spec vi bi :
  current_bi vi bi -> en_validators vi = vv ->
  exists vi', InitBranchesInfo vi = Ok (vi', bi) /\ en_bi vi' = Some bi /\
    en_validators vi' = en_validators vi /\ en_db vi' = en_db vi /\
    en_flushed vi' = en_flushed vi /\ en_dirty vi' = en_dirty vi.
Proof.
  intros Hc Hvv. unfold InitBranchesInfo. destruct Hc as [Hc|[Hn Hs]].
  - rewrite Hc. by exists vi.
  - rewrite Hn. destruct Hs as [->|[-> ->]]; simpl; rewrite ?Hvv; eexists; (split; [reflexivity|done]).
Qed.

Lemma Init_inv Df D vi :
  engine_inv Df D vi ->
  exists vi' bi, InitBranchesInfo vi = Ok (vi', bi) /\ engine_inv Df D vi' /\ en_bi vi' = Some bi /\
    db_inv D bi (en_db vi') /\ en_validators vi' = vv.
Proof.
  intros [Hv Hdf Hd Hf (bi & Hc & Hdb) Hcl].
  destruct (Init_spec vi bi Hc Hv) as (vi' & Hi & Hbi & Hv' & He1 & He2 & He3).
  exists vi', bi. split; [done|]. rewrite He1, Hv'. split; [|done].
  split; rewrite ?He1, ?He2, ?He3, ?Hv'; try done. exists bi. split; [by left|done].
Qed.

Lemma Add_inv Df D vi e vi0 bi getEvent fuel :
  (forall h x, D !! h = Some x -> getEvent h = Some x) -> (dfs_fuel D e <= fuel)%nat ->
  engine_inv Df D vi -> connectable vv epoch D e -> InitBranchesInfo vi = Ok (vi0, bi) -> uncapped bi ->
  exists vi', Engine_Add fuel getEvent vi e = Ok vi' /\ engine_inv Df (<[e_id e := e]> D) vi'.
Proof.
  intros Hsrc Hfuel Hinv Hcon Hi Hcap. destruct (Init_inv _ _ _ Hinv) as (vi1 & bi1 & Hi1 & Hinv1 & Hbi & Hdb & Hv).
  rewrite Hi in Hi1. injection Hi1 as <- <-. unfold Engine_Add. rewrite Hi. simpl.
  destruct (fillEventVectors_inv D bi vi0 e getEvent fuel Hsrc Hfuel Hv (ei_dag _ _ _ Hinv) Hcon Hdb Hcap) as (bi' & db' & Hf & Hdb').
  exists (mk_Engine vv (Some bi') (en_flushed vi0) db' true). split; [exact Hf|].
  destruct Hinv1 as [_ Hdf Hd Hfl _ _].
  split; simpl; [done|done|by constructor|done| |done].
  exists bi'. split; [by left|done].
Qed.

Lemma db_inv_set D bi db info : db_inv D bi db -> db_inv D bi (setBranchesInfo db info).
Proof. by intros [? ? ? ? ?]. Qed.

Lemma Flush_inv Df D vi : engine_inv Df D vi -> engine_inv D D (Engine_Flush vi).
Proof.
  intros [Hv Hdf Hd Hf (bi & Hc & Hdb) Hcl]. unfold Engine_Flush.
  destruct (en_bi vi) as [bi0|] eqn:Hbi.
  - assert (bi0 = bi) as -> by (destruct Hc as [?|[? _]]; congruence).
    assert (stored_bi (setBranchesInfo (en_db vi) bi) bi) as Hst.
    { left. unfold getBranchesInfo, setBranchesInfo. simpl. by rewrite bi_roundtrip. }
    split; simpl; try done; exists bi; (split; [|by apply db_inv_set]); [done|by left].
  - assert (stored_bi (en_db vi) bi) as Hst by (destruct Hc as [?|[_ ?]]; [congruence|done]).
    split; simpl; try done; exists bi; (split; [|done]); [done|]. right. by split.
Qed.

Lemma Drop_inv Df D vi : engine_inv Df D vi -> engine_inv Df Df (Engine_DropNotFlushed vi).
Proof.
  intros [Hv Hdf Hd (bi & Hst & Hdb) _ Hcl]. unfold Engine_DropNotFlushed.
  destruct (en_dirty vi); [|destruct Hcl as [Hcl _]; [done|]; rewrite Hcl];
    split; simpl; try done; exists bi; (split; [|done]); try done; right; by split.
Qed.

Definition empty_db : VecDb HB LA bytes := mk_VecDb ∅ None ∅ ∅.

Lemma empty_db_inv : db_inv ∅ (newInitialBranchesInfo vv) empty_db.
Proof.
  split; simpl; [by apply newInitial_inv| | | |]; intros a;
    try (rewrite !lookup_empty; split; by intros [? ?]); intros v; by rewrite lookup_empty.
Qed.

Lemma Reset_inv : engine_inv ∅ ∅ (Engine_Reset vv empty_db).
Proof.
  assert (stored_bi empty_db (newInitialBranchesInfo vv)) as Hst by (right; done).
  split; simpl; try done; try constructor; exists (newInitialBranchesInfo vv);
    (split; [|apply empty_db_inv]); try done. right. by split.
Qed.

End engine_inv.

(** ** Reachable engines *)

(** The states an engine passes through: reset on an empty store, events added
    after they are checked and before any validator has used up its branches,
    flushes, drops of what is not flushed, and the loading of the branches by a
    query.  [Df] are the flushed events, [D] all the connected ones. *)
Inductive engine_reach {HB LA bytes : Type} `{!HighestBeforeI HB} `{!LowestAfterI LA} `{!BranchesInfoRlp bytes}
    (vv : Validators) (epoch : Z) : gmap Z BaseEvent -> gmap Z BaseEvent -> Engine HB LA bytes -> Prop :=
| reach_reset : engine_reach vv epoch ∅ ∅ (Engine_Reset vv empty_db)
| reach_add Df D vi e vi0 bi getEvent fuel vi' :
    engine_reach vv epoch Df D vi -> connectable vv epoch D e ->
    (forall h x, D !! h = Some x -> getEvent h = Some x) -> (dfs_fuel D e <= fuel)%nat ->
    InitBranchesInfo vi = Ok (vi0, bi) -> uncapped bi ->
    Engine_Add fuel getEvent vi e = Ok vi' ->
    engine_reach vv epoch Df (<[e_id e := e]> D) vi'
| reach_flush Df D vi : engine_reach vv epoch Df D vi -> engine_reach vv epoch D D (Engine_Flush vi)
| reach_drop Df D vi : engine_reach vv epoch Df D vi -> engine_reach vv epoch Df Df (Engine_DropNotFlushed vi)
| reach_query Df D vi vi' bi :
    engine_reach vv epoch Df D vi -> InitBranchesInfo vi = Ok (vi', bi) -> engine_reach vv epoch Df D vi'.

Lemma engine_reach_inv {HB LA bytes : Type} `{!HighestBeforeI HB} `{!LowestAfterI LA} `{!BranchesInfoRlp bytes}
    `{!HighestBeforeLaws HB} `{!LowestAfterLaws LA} `{!BranchesInfoRlpLaws bytes} vv epoch Df D (vi : Engine HB LA bytes) :
  wf vv -> engine_reach vv epoch Df D vi -> engine_inv vv epoch Df D vi.
Proof.
  intros Hwf. induction 1 as [|Df D vi e vi0 bi getEvent fuel vi' _ IH Hcon Hsrc Hfuel Hi Hcap Ha|Df D vi _ IH|Df D vi _ IH|Df D vi vi' bi _ IH Hi].
  - by apply Reset_inv.
  - destruct (Add_inv vv epoch Hwf Df D vi e vi0 bi getEvent fuel Hsrc Hfuel IH Hcon Hi Hcap) as (vi2 & Ha2 & Hinv). congruence.
  - by eapply Flush_inv.
  - by eapply Drop_inv.
  - destruct (Init_inv vv epoch Df D vi IH) as (vi2 & bi2 & Hi2 & Hinv & _). congruence.
Qed.

(** ** Forkless cause *)

Section decide.
Context (vv : Validators) (epoch : Z) (Hwf : wf vv).
Context {bytes : Type} `{!BranchesInfoRlp bytes} `{!BranchesInfoRlpLaws bytes}.
Context (D : gmap Z BaseEvent) (HD : dag vv epoch D) (bi : BranchesInfo)
  (db : VecDb HighestBeforeSeq LowestAfterSeq bytes) (Hdb : db_inv vv D bi db).
Local Abbreviation br := (t_EventBranch db).

(** The condition under which a branch is counted. *)
Definition counted (a : HighestBeforeSeq) (b : LowestAfterSeq) (i : nat) : bool :=
  (LA_Get b i <=? bs_Seq (HB_Get a i)) && negb (LA_Get b i =? 0) && negb (BranchSeq_IsForkDetected (HB_Get a i)).

Lemma count_loop a b (l : list (nat * nat)) : forall wc S,
  counter_inv vv S wc -> (forall i k, (i, k) ∈ l -> (k < Validators_Len vv)%nat) ->
  exists wc' S', foldM (countBranch a b) wc l = Ok wc' /\ counter_inv vv S' wc' /\
    forall c, c ∈ S' <-> c ∈ S \/ exists i k, (i, k) ∈ l /\ counted a b i = true /\ SortedIDs vv !! k = Some c.
Proof.
  induction l as [|[i k] l IH]; intros wc S Hc Hl.
  - exists wc, S. split; [done|]. split; [done|]. intros c. split; [by left|].
    intros [?|(i & k & Hin & _)]; [done|by apply not_elem_of_nil in Hin].
  - cbn [foldM]. unfold countBranch at 1. change (_ && _) with (counted a b i) at 1.
    assert (k < Validators_Len vv)%nat as Hk by (apply (Hl i); left).
    rewrite <- (wf_ids_len _ Hwf) in Hk. destruct (lookup_lt_is_Some_2 _ _ Hk) as [id Hid].
    destruct (counted a b i) eqn:Hcnt.
    + destruct (CountByIdx_inv vv Hwf S wc k id Hc Hid) as (wc1 & -> & Hc1). cbn [outcome_bind snd].
      destruct (IH wc1 _ Hc1) as (wc' & S' & Hf & Hc' & HS'); [intros; eapply Hl; by right|].
      exists wc', S'. split; [done|]. split; [done|]. intros c. rewrite HS'. set_unfold. naive_solver congruence.
    + cbn [outcome_bind]. destruct (IH wc S Hc) as (wc' & S' & Hf & Hc' & HS'); [intros; eapply Hl; by right|].
      exists wc', S'. split; [done|]. split; [done|]. intros c. rewrite HS'. set_unfold. naive_solver congruence.
Qed.

(** A branch of [c] is counted exactly when [a] observes [b] through [c]. *)
Lemma counted_observes_via a b va vb c :
  t_HighestBefore db !! a = Some va -> t_LowestAfter db !! b = Some vb -> c ∈ SortedIDs vv ->
  (exists i, branch_by vv bi i c /\ counted va vb i = true) <-> observes_via D a b c.
Proof.
  intros Ha Hb Hc. pose proof (di_branch _ _ _ _ Hdb) as Hbr.
  pose proof (di_hb _ _ _ _ Hdb _ _ Ha) as Hspec. destruct (di_la _ _ _ _ Hdb _ _ Hb) as [_ Hlow]. split.
  - intros (i & Hi & Hcnt). unfold counted in Hcnt. rewrite !andb_true_iff, !negb_true_iff, Z.leb_le, Z.eqb_neq in Hcnt.
    destruct Hcnt as [[Hle Hnz] Hfl].
    destruct (Hlow i) as [[Hz _]|[(x & ex & (Hbx & Hx & Hxb) & Hsx) _]]; [done|]. simpl in Hsx.
    pose proof (eo_ranges _ _ _ (dag_event_ok _ _ _ _ _ HD Hx)) as [Hpos _].
    destruct (hs_cell _ _ _ _ _ _ Hspec i Hfl) as [[Hz _]|((h & eh & Hah & Hbh & Hh & Hsh) & _ & _)];
      simpl in *; [lia|].
    assert (anc D h x) as Hhx.
    { apply (self_anc_anc vv epoch D h x HD). apply (branch_chain vv epoch D bi br i h x eh ex); try done. lia. }
    split.
    + intros Hsf. pose proof (hs_complete _ _ _ _ _ _ Hspec i c h Hi Hsf Hah Hbh) as Hf. simpl in Hf. congruence.
    + exists x, ex. split; [done|]. split; [|split; [by etrans|done]].
      eapply branch_by_inj; [|exact Hi]. by apply (branch_by_event vv epoch Hwf D bi br x).
  - intros (Hn & x & ex & Hx & Hcx & Hax & Hxb).
    destruct (proj2 (br_dom _ _ _ _ Hbr x)) as [i Hi]; [by eexists|].
    assert (branch_by vv bi i c) as Hby by (rewrite <- Hcx; by apply (branch_by_event vv epoch Hwf D bi br x)).
    exists i. split; [done|].
    destruct (BranchSeq_IsForkDetected (HB_Get va i)) eqn:Hfl.
    { exfalso. apply Hn. by apply (hs_sound _ _ _ _ _ _ Hspec i). }
    unfold counted. rewrite Hfl, !andb_true_iff, negb_true_iff, Z.leb_le, Z.eqb_neq.
    destruct (hs_cell _ _ _ _ _ _ Hspec i Hfl) as [[_ Hno]|(_ & _ & Hall)]; [by apply Hno in Hax|].
    destruct (Hlow i) as [[_ Hno]|[(y & ey & (_ & Hy & _) & Hsy) Hmin]]; [by destruct (Hno x ex)|].
    specialize (Hall x ex Hax Hi Hx). specialize (Hmin x ex ltac:(done)). simpl in *.
    pose proof (eo_ranges _ _ _ (dag_event_ok _ _ _ _ _ HD Hy)). repeat split; try done; lia.
Qed.

Lemma forklessCause_spec (vi : vecfc_Engine) a b :
  en_validators vi = vv -> en_db vi = db -> is_Some (D !! a) -> is_Some (D !! b) ->
  exists r, forklessCause vi bi a b = Ok r /\ (r = true <-> fc vv D a b).
Proof.
  intros Hvv Hvdb Ha [eb Heb]. pose proof (di_branch _ _ _ _ Hdb) as Hbr. pose proof (br_shape _ _ _ _ Hbr) as Hsh.
  destruct (proj2 (di_hb_dom _ _ _ _ Hdb a) Ha) as [va Hva].
  destruct (proj2 (di_la_dom _ _ _ _ Hdb b)) as [vb Hvb]; [by eexists|].
  destruct (proj2 (br_dom _ _ _ _ Hbr b)) as [ib Hib]; [by eexists|].
  pose proof (di_hb _ _ _ _ Hdb _ _ Hva) as Hspec.
  unfold forklessCause. rewrite Hvdb, Hvv, Hva. unfold GetEventBranchID. rewrite Hib, Hvb. cbn [outcome_bind].
  assert (branch_by vv bi ib (e_creator eb)) as Hbyb by (by apply (branch_by_event vv epoch Hwf D bi br b)).
  assert (anc D a b -> AtLeastOneFork vv bi && BranchSeq_IsForkDetected (HB_Get va ib) = false ->
          ~ sees_fork D a (e_creator eb)) as Hnf.
  { intros Hab Hf Hsf. apply andb_false_iff in Hf as [Hf|Hf]; [by apply (no_fork_seen vv epoch Hwf D bi br) in Hsf|].
    pose proof (hs_complete _ _ _ _ _ _ Hspec ib _ b Hbyb Hsf Hab Hib) as Hf'. simpl in Hf'. congruence. }
  assert ((if AtLeastOneFork vv bi then Ok (BranchSeq_IsForkDetected (HB_Get va ib)) else Ok false) =
          Ok (AtLeastOneFork vv bi && BranchSeq_IsForkDetected (HB_Get va ib))) as ->
    by (by destruct (AtLeastOneFork vv bi)). cbn [outcome_bind].
  destruct (AtLeastOneFork vv bi && _) eqn:Hfk.
  - exists false. split; [done|]. split; [done|]. intros (eb' & Heb' & Hn & _). exfalso. simplify_eq. apply Hn.
    apply andb_true_iff in Hfk as [_ Hfk]. by apply (hs_sound _ _ _ _ _ _ Hspec ib).
  - assert (forall i k, (i, k) ∈ imap pair (BranchIDCreatorIdxs bi) <-> BranchIDCreatorIdxs bi !! i = Some k) as Himap.
    { intros i k. rewrite elem_of_lookup_imap. split; [by intros (j & y & [= -> ->] & ?)|by exists i, k]. }
    destruct (count_loop va vb (imap pair (BranchIDCreatorIdxs bi)) (NewCounter vv) ∅) as (wc & S & -> & Hwc & HS).
    { by apply NewCounter_inv. }
    { intros i k Hin%Himap. by eapply bi_creators. }
    cbn [outcome_bind]. eexists. split; [reflexivity|]. rewrite (HasQuorum_inv vv S wc Hwc), bool_decide_eq_true.
    assert (forall c, c ∈ SortedIDs vv -> in_set S c = true <-> observes_via D a b c) as HSc.
    { intros c Hc. unfold in_set. rewrite bool_decide_eq_true, HS, <- (counted_observes_via a b va vb c Hva Hvb Hc).
      unfold branch_by. setoid_rewrite Himap. set_solver. }
    split.
    + intros HQ. exists eb. split; [done|]. assert (anc D a b) as Hab.
      { destruct (quorum_nonempty vv Hwf _ HQ) as (c & Hc & Hin).
        apply HSc in Hin as (_ & x & ex & _ & _ & ? & ?); [|done]. by etrans. }
      split; [by apply Hnf|]. exists (in_set S). split; [done|]. intros c Hc Hin. by apply HSc.
    + intros (eb' & _ & _ & Q & HQ & Hvia). unfold is_quorum in *.
      etrans; [exact HQ|]. apply weight_of_mono; [done|]. intros c Hc Hq. apply HSc; auto.
Qed.

End decide.

(** ** Properties *)

Lemma ForklessCause_decides {bytes : Type} `{!BranchesInfoRlp bytes} `{!BranchesInfoRlpLaws bytes}
    (vv : Validators) (epoch : Z) (Df D : gmap Z BaseEvent) (vi : vecfc_Engine (bytes := bytes)) (a b : Z) :
  wf vv -> engine_reach vv epoch Df D vi -> is_Some (D !! a) -> is_Some (D !! b) ->
  exists vi' r, ForklessCause_uncached vi a b = Ok (vi', r) /\ (r = true <-> fc vv D a b).
Proof.
  intros Hwf Hr Ha Hb. pose proof (engine_reach_inv vv epoch Df D vi Hwf Hr) as Hinv.
  destruct (Init_inv vv epoch Df D vi Hinv) as (vi' & bi & Hi & Hinv' & Hbi & Hdb & Hv).
  destruct (forklessCause_spec vv epoch Hwf D (ei_dag _ _ _ _ _ Hinv) bi (en_db vi') Hdb vi' a b Hv eq_refl Ha Hb)
    as (r & Hfc & Hiff).
  exists vi', r. unfold ForklessCause_uncached. rewrite Hi. simpl. by rewrite Hfc.
Qed.


Lemma Engine_Add_reach {bytes : Type} `{!BranchesInfoRlp bytes} `{!BranchesInfoRlpLaws bytes}
    (vv : Validators) (epoch : Z) (Df D : gmap Z BaseEvent) (vi vi0 : vecfc_Engine (bytes := bytes))
    (bi : BranchesInfo) (e : BaseEvent) (getEvent : Z -> option BaseEvent) (fuel : nat) :
  wf vv -> engine_reach vv epoch Df D vi -> connectable vv epoch D e ->
  (forall h x, D !! h = Some x -> getEvent h = Some x) -> (dfs_fuel D e <= fuel)%nat ->
  InitBranchesInfo vi = Ok (vi0, bi) -> uncapped bi ->
  exists vi', Engine_Add fuel getEvent vi e = Ok vi' /\
    engine_reach vv epoch Df (<[e_id e := e]> D) vi'.
Proof.
  intros Hwf Hr Hcon Hsrc Hfuel Hi Hcap. pose proof (engine_reach_inv vv epoch Df D vi Hwf Hr) as Hinv.
  destruct (Add_inv vv epoch Hwf Df D vi e vi0 bi getEvent fuel Hsrc Hfuel Hinv Hcon Hi Hcap) as (vi' & Ha & _).
  exists vi'. split; [done|]. by eapply reach_add.
Qed.

(** Adding a checked event to a reachable engine always succeeds while no
    validator has used up its branches: the traversal ends within its fuel, no
    vector or branch is missing, and the new state is reachable. *)
Theorem Add_succeeds {bytes : Type} `{!BranchesInfoRlp bytes} `{!BranchesInfoRlpLaws bytes}
    (vv : Validators) (epoch : Z) (Df D : gmap Z BaseEvent) (vi vi0 : vecfc_Engine (bytes := bytes))
    (bi : BranchesInfo) (e : BaseEvent) (getEvent : Z -> option BaseEvent) (fuel : nat) :
  wf vv -> engine_reach vv epoch Df D vi -> connectable vv epoch D e ->
  (forall h x, D !! h = Some x -> getEvent h = Some x) -> (dfs_fuel D e <= fuel)%nat ->
  InitBranchesInfo vi = Ok (vi0, bi) -> uncapped bi ->
  exists vi', Engine_Add fuel getEvent vi e = Ok vi' /\
    engine_reach vv epoch Df (<[e_id e := e]> D) vi'.
Proof. apply Engine_Add_reach. Qed.

(** ** The merged vector *)

(** The highest sequence number of [c] that [a] observes, 0 when it observes none. *)
Definition highest_of (D : gmap Z BaseEvent) (a c s : Z) : Prop :=
  (s = 0 /\ forall x e, anc D a x -> D !! x = Some e -> e_creator e <> c) \/
  ((exists x e, anc D a x /\ D !! x = Some e /\ e_creator e = c /\ e_seq e = s) /\
   forall x e, anc D a x -> D !! x = Some e -> e_creator e = c -> e_seq e <= s).

Section merged.
Context (vv : Validators) (epoch : Z) (Hwf : wf vv).
Context (D : gmap Z BaseEvent) (HD : dag vv epoch D) (bi : BranchesInfo) (br : gmap Z nat)
  (Hbr : branch_inv vv D bi br).

Lemma gather_all (scattered m : HighestBeforeSeq) (l : list (list nat)) :
  vec_wf 8 scattered -> vec_wf 8 m ->
  let m' := foldl (fun m cb => HB_GatherFrom m cb.1 scattered cb.2) m (imap pair l) in
  vec_wf 8 m' /\ forall i bs, l !! i = Some bs -> HB_Get m' i = HB_Gather_loop scattered zeroSeq bs.
Proof.
  intros Hs Hm. induction l as [|bs l IH] using rev_ind; simpl; [by split|].
  destruct IH as [IHw IHg]. rewrite imap_app, foldl_app. simpl. rewrite Nat.add_0_r.
  split; [by apply HB_Set_wf|]. intros i bs' Hi. rewrite GatherFrom_get by done.
  apply lookup_app_Some in Hi as [Hi|[Hge Hi]].
  - rewrite decide_False; [by apply IHg|]. apply lookup_lt_Some in Hi. lia.
  - apply list_lookup_singleton_Some in Hi as [Hi <-]. by rewrite decide_True by lia.
Qed.

(** The branches of a validator, gathered from the vector of [a]. *)
Lemma gather_cell a v c n bs :
  hb_spec vv D bi br a v -> SortedIDs vv !! n = Some c -> BranchIDByCreators bi !! n = Some bs ->
  (flagged (HB_Gather_loop v zeroSeq bs) = true <-> sees_fork D a c) /\
  (~ sees_fork D a c -> highest_of D a c (bs_Seq (HB_Gather_loop v zeroSeq bs))).
Proof.
  intros Hspec Hn Hbs. pose proof (br_shape _ _ _ _ Hbr) as Hsh.
  assert (forall i, i ∈ bs <-> branch_by vv bi i c) as Hin.
  { intros i. rewrite (bi_by _ _ Hsh _ _ Hbs). split; [intros Hi; by exists n|].
    intros (k & Hk & Hc). assert (k = n) as -> by (eapply NoDup_lookup; [apply (wf_ids_NoDup _ Hwf)|done..]). done. }
  assert (sees_fork D a c -> Exists (fun i => HB_IsForkDetected v i) bs) as Hsf.
  { intros Hsf. destruct (fork_branches vv epoch Hwf D bi br a c HD Hbr Hsf) as
      (b1 & _ & x1 & _ & _ & _ & _ & Hb1 & _ & Hx1 & _ & _ & _ & Ha1 & _ & _).
    apply Exists_exists. exists b1. split; [by apply Hin|]. apply Is_true_true.
    exact (hs_complete _ _ _ _ _ _ Hspec b1 c x1 Hb1 Hsf Ha1 Hx1). }
  assert (Exists (fun i => HB_IsForkDetected v i) bs -> sees_fork D a c) as Hfs.
  { intros (i & Hi & Hf)%Exists_exists. apply (hs_sound _ _ _ _ _ _ Hspec i); [by apply Hin|by apply Is_true_true in Hf]. }
  assert (~ sees_fork D a c -> Forall (fun i => HB_IsForkDetected v i = false) bs) as Hun.
  { intros Hns. apply Forall_forall. intros i Hi. apply not_true_iff_false. intros Hf.
    apply Hns, Hfs, Exists_exists. exists i. by rewrite Hf. }
  destruct (decide (Exists (fun i => HB_IsForkDetected v i) bs)) as [He|He].
  { rewrite Gather_loop_flagged by done. split; [split; [by intros _; apply Hfs|done]|]. intros Hns. by apply Hfs in He. }
  assert (~ sees_fork D a c) as Hns by tauto. specialize (Hun Hns).
  destruct (Gather_loop_max v bs zeroSeq Hun) as [Hmax Hcell].
  assert (flagged (HB_Gather_loop v zeroSeq bs) = false) as Hfl.
  { destruct Hcell as [->|(i & Hi & ->)]; [done|]. by apply (proj1 (Forall_forall _ _) Hun). }
  split; [rewrite Hfl; split; [done|intros; contradiction]|]. intros _.
  assert (forall x e, anc D a x -> D !! x = Some e -> e_creator e = c ->
    exists i, i ∈ bs /\ br !! x = Some i /\ e_seq e <= HB_Seq v i) as Hobs.
  { intros x e Ha He' Hc. destruct (proj2 (br_dom _ _ _ _ Hbr x)) as [i Hi]; [by eexists|].
    assert (i ∈ bs) as Hib by (apply Hin; rewrite <- Hc; by apply (branch_by_event vv epoch Hwf D bi br x)).
    exists i. split; [done|]. split; [done|].
    destruct (hs_cell _ _ _ _ _ _ Hspec i) as [[_ Hno]|(_ & _ & Hall)];
      [by apply (proj1 (Forall_forall _ _) Hun)|by apply Hno in Ha|]. by apply (Hall x e). }
  rewrite Hmax. destruct Hcell as [Hz|(i & Hi & Hg)].
  - assert (foldr (fun i m => Z.max (HB_Seq v i) m) (bs_Seq zeroSeq) bs = 0) as Hz0 by (rewrite <- Hmax, Hz; done).
    left. split; [done|]. intros x e Ha He' Hc. destruct (Hobs x e Ha He' Hc) as (i & Hi & _ & Hle).
    pose proof (eo_ranges _ _ _ (dag_event_ok _ _ _ _ _ HD He')).
    pose proof (foldr_max_ge (HB_Seq v) bs 0 i Hi). simpl in Hz0. lia.
  - rewrite <- Hmax, Hg. destruct (hs_cell _ _ _ _ _ _ Hspec i) as [[Hs0 Hno]|((x & e & Ha & Hb & He' & Hs) & _ & _)];
      [by apply (proj1 (Forall_forall _ _) Hun)| |].
    + left. split; [done|]. intros x e Ha He' Hc. destruct (Hobs x e Ha He' Hc) as (j & Hj & _ & Hle).
      pose proof (eo_ranges _ _ _ (dag_event_ok _ _ _ _ _ HD He')). simpl in Hs0.
      pose proof (foldr_max_ge (HB_Seq v) bs 0 j Hj). rewrite Hg in Hmax. simpl in Hmax. lia.
    + right. split.
      * exists x, e. repeat split; try done. eapply branch_by_inj; [|by apply Hin].
        by apply (branch_by_event vv epoch Hwf D bi br x).
      * intros y ey Hay Hey Hc. destruct (Hobs y ey Hay Hey Hc) as (j & Hj & _ & Hle).
        pose proof (foldr_max_ge (HB_Seq v) bs 0 j Hj). rewrite Hg in Hmax. simpl in Hmax. lia.
Qed.

End merged.

Lemma GetMergedHighestBefore_spec {bytes : Type} `{!BranchesInfoRlp bytes} `{!BranchesInfoRlpLaws bytes}
    (vv : Validators) (epoch : Z) (Df D : gmap Z BaseEvent) (vi : vecfc_Engine (bytes := bytes)) (a : Z) :
  wf vv -> engine_reach vv epoch Df D vi -> is_Some (D !! a) ->
  exists vi' m, GetMergedHighestBefore vi a = Ok (vi', Some m) /\
    forall i c, SortedIDs vv !! i = Some c ->
      (HB_IsForkDetected m i = true <-> sees_fork D a c) /\
      (~ sees_fork D a c -> highest_of D a c (HB_Seq m i)).
Proof.
  intros Hwf Hr Ha. pose proof (engine_reach_inv vv epoch Df D vi Hwf Hr) as Hinv.
  destruct (Init_inv vv epoch Df D vi Hinv) as (vi' & bi & Hi & Hinv' & Hbi & Hdb & Hv).
  pose proof (di_branch _ _ _ _ Hdb) as Hbr. pose proof (br_shape _ _ _ _ Hbr) as Hsh.
  destruct (proj2 (di_hb_dom _ _ _ _ Hdb a) Ha) as [v Hva].
  pose proof (di_hb _ _ _ _ Hdb _ _ Hva) as Hspec. pose proof (ei_dag _ _ _ _ _ Hinv) as HD.
  assert (forall i c, SortedIDs vv !! i = Some c -> (i < Validators_Len vv)%nat) as Hlt.
  { intros i c Hic%lookup_lt_Some. by rewrite (wf_ids_len _ Hwf) in Hic. }
  assert (forall i c, SortedIDs vv !! i = Some c -> exists bs, BranchIDByCreators bi !! i = Some bs) as Hby.
  { intros i c Hic%Hlt. apply lookup_lt_is_Some_2. by rewrite (bi_by_len _ _ Hsh). }
  unfold GetMergedHighestBefore. rewrite Hi. cbn [outcome_bind]. rewrite Hv, Hva.
  destruct (AtLeastOneFork vv bi) eqn:Hf.
  - destruct (gather_all v (NewHighestBeforeSeq (Validators_Len vv)) (BranchIDByCreators bi))
      as [_ Hg]; [apply Hspec|apply zeros_wf|].
    do 2 eexists. split; [reflexivity|]. intros i c Hic. destruct (Hby i c Hic) as [bs Hbs].
    unfold HB_IsForkDetected, HB_Seq. simpl in *. rewrite (Hg i bs Hbs).
    by apply (gather_cell vv epoch Hwf D HD bi (t_EventBranch (en_db vi')) Hbr a v c i bs).
  - do 2 eexists. split; [reflexivity|]. intros i c Hic. destruct (Hby i c Hic) as [bs Hbs].
    assert (forall b, b ∈ bs <-> b = i) as Hone.
    { intros b. rewrite (bi_by _ _ Hsh _ _ Hbs). split.
      - by apply (no_fork_single vv D bi (t_EventBranch (en_db vi')) b i Hbr Hf).
      - intros ->. apply (bi_first _ _ Hsh). by eapply Hlt. }
    destruct (gather_cell vv epoch Hwf D HD bi (t_EventBranch (en_db vi')) Hbr a v c i bs Hspec Hic Hbs) as [_ Hh].
    assert (~ sees_fork D a c) as Hns by (by apply (no_fork_seen vv epoch Hwf D bi (t_EventBranch (en_db vi')))).
    assert (branch_by vv bi i c) as Hbc by (exists i; split; [apply (bi_first _ _ Hsh); by eapply Hlt|done]).
    assert (HB_IsForkDetected v i = false) as Hnf.
    { apply not_true_iff_false. intros Hfl. apply Hns. by apply (hs_sound _ _ _ _ _ _ Hspec i). }
    split; [rewrite Hnf; split; [done|intros; contradiction]|]. intros _. specialize (Hh Hns).
    rewrite (proj1 (Gather_loop_max v bs zeroSeq ltac:(apply Forall_forall; by intros b ->%Hone))) in Hh.
    replace (HB_Seq v i) with (foldr (fun i m => Z.max (HB_Seq v i) m) (bs_Seq zeroSeq) bs); [done|].
    pose proof (foldr_max_ge (HB_Seq v) bs 0 i ltac:(by apply Hone)).
    assert (foldr (fun i m => Z.max (HB_Seq v i) m) 0 bs <= HB_Seq v i); [|simpl; lia].
    assert (0 <= HB_Seq v i) by (apply (HB_Get_u32 v i), Hspec).
    clear -Hone H0. assert (forall b, b ∈ bs -> b = i) as Hall by (intros; by apply Hone). clear Hone.
    induction bs as [|b bs IH]; simpl; [lia|]. rewrite (Hall b) by left.
    specialize (IH ltac:(intros; apply Hall; by right)). lia.
Qed.


(** ** Witnesses: one validator, two first events *)

#[export] Instance identity_rlp : BranchesInfoRlp BranchesInfo :=
  {| bi_EncodeToBytes := id; bi_DecodeBytes := Ok |}.
#[export] Instance identity_rlp_laws : BranchesInfoRlpLaws BranchesInfo.
Proof. done. Qed.

Definition run_add (D : gmap Z BaseEvent) (vi : vecfc_Engine (bytes := BranchesInfo)) (e : BaseEvent) :
    vecfc_Engine (bytes := BranchesInfo) :=
  match Engine_Add (dfs_fuel D e) (fun h => D !! h) vi e with Ok vi' => vi' | _ => vi end.

Definition solo_engine0 : vecfc_Engine (bytes := BranchesInfo) := Engine_Reset solo empty_db.
Definition solo_engine1 : vecfc_Engine (bytes := BranchesInfo) := run_add ∅ solo_engine0 (solo_first 101).
Definition solo_engine2 : vecfc_Engine (bytes := BranchesInfo) := run_add solo_one solo_engine1 (solo_first 102).

Lemma solo_reach1 : engine_reach solo 1 ∅ solo_one solo_engine1.
Proof.
  eapply (reach_add solo 1 ∅ ∅ solo_engine0 (solo_first 101) _ _ (fun h => ∅ !! h)).
  - constructor.
  - split; [done|]. by exists [].
  - done.
  - reflexivity.
  - reflexivity.
  - apply Forall_singleton. vm_compute. lia.
  - vm_compute. reflexivity.
Qed.

Lemma solo_reach2 : engine_reach solo 1 ∅ solo_fork solo_engine2.
Proof.
  eapply (reach_add solo 1 ∅ solo_one solo_engine1 (solo_first 102) _ _ (fun h => solo_one !! h)).
  - apply solo_reach1.
  - apply solo_second.
  - done.
  - reflexivity.
  - reflexivity.
  - apply Forall_singleton. vm_compute. lia.
  - vm_compute. reflexivity.
Qed.


Lemma Add_succeeds_witness :
  exists vi', Engine_Add (dfs_fuel solo_one (solo_first 102)) (fun h => solo_one !! h) solo_engine1 (solo_first 102) = Ok vi' /\
    engine_reach solo 1 ∅ (<[102 := solo_first 102]> solo_one) vi'.
Proof.
  eapply (Add_succeeds solo 1 ∅ solo_one solo_engine1 _ _ (solo_first 102) _ _ solo_wf solo_reach1 solo_second).
  - done.
  - done.
  - reflexivity.
  - apply Forall_singleton. vm_compute. lia.
Defined.

