(* ===== verification/VecIndex.v ===== *)
(** * vecfc/index.go, store_vectors.go: the index behind its caches

    [vecfc.Index] reads and writes the vectors of the engine through two LRU
    caches and remembers the answers of [ForklessCause] in a third one, keyed by
    the pair of events.  The engine of VecEngine.v works on the tables alone;
    here are its operations as they run, every read and write of a vector going
    through the caches, over any caches that satisfy the interface
    [LossyCache] (the source's are the ones of Wlru.v, see [initCaches]).

    A vector is shared between the cache and the caller, who changes it in place
    ([Visit]) and at once stores it again: a value per read is enough. *)

From S2P Require Import Prelude Bytes Pos Dag VecFC VecEngine VecBranches VecCorrect Wlru ForklessCause.
Local Open Scope go_scope.

Section index.
Context {bytes : Type} `{!BranchesInfoRlp bytes}.
Context {CH CL CF : Type} `{!LossyCache CH Z HighestBeforeSeq} `{!LossyCache CL Z LowestAfterSeq} `{!LossyCache CF (Z * Z) bool}.

Record VecIndex := mk_VecIndex {
  ix_Engine : vecfc_Engine (bytes := bytes);
  ix_HighestBeforeSeq : CH;
  ix_LowestAfterSeq : CL;
  ix_ForklessCause : CF
}.

Definition with_Engine (vi : VecIndex) (en : vecfc_Engine) : VecIndex :=
  mk_VecIndex en (ix_HighestBeforeSeq vi) (ix_LowestAfterSeq vi) (ix_ForklessCause vi).
Definition with_hb (vi : VecIndex) (c : CH) : VecIndex :=
  mk_VecIndex (ix_Engine vi) c (ix_LowestAfterSeq vi) (ix_ForklessCause vi).
Definition with_la (vi : VecIndex) (c : CL) : VecIndex :=
  mk_VecIndex (ix_Engine vi) (ix_HighestBeforeSeq vi) c (ix_ForklessCause vi).
Definition with_fc (vi : VecIndex) (c : CF) : VecIndex :=
  mk_VecIndex (ix_Engine vi) (ix_HighestBeforeSeq vi) (ix_LowestAfterSeq vi) c.

(** ** vecfc/store_vectors.go *)

(** A write to the flushable store leaves a pair that is not flushed. *)
Definition put_db (en : vecfc_Engine) (db : VecDb HighestBeforeSeq LowestAfterSeq bytes) : vecfc_Engine :=
  mk_Engine (en_validators en) (en_bi en) (en_flushed en) db true.

Definition put_LowestAfter (en : vecfc_Engine) (id : Z) (b : LowestAfterSeq) : vecfc_Engine :=
  let db := en_db en in
  put_db en (mk_VecDb (t_EventBranch db) (t_BranchesInfo db) (t_HighestBefore db) (<[id := b]> (t_LowestAfter db))).
Definition put_HighestBefore (en : vecfc_Engine) (id : Z) (b : HighestBeforeSeq) : vecfc_Engine :=
  let db := en_db en in
  put_db en (mk_VecDb (t_EventBranch db) (t_BranchesInfo db) (<[id := b]> (t_HighestBefore db)) (t_LowestAfter db)).
Definition put_EventBranch (en : vecfc_Engine) (id : Z) (branchID : nat) : vecfc_Engine :=
  let db := en_db en in
  put_db en (mk_VecDb (<[id := branchID]> (t_EventBranch db)) (t_BranchesInfo db) (t_HighestBefore db) (t_LowestAfter db)).

Definition Index_GetLowestAfter (vi : VecIndex) (id : Z) : option LowestAfterSeq * VecIndex :=
  match cache_get (ix_LowestAfterSeq vi) id with
  | (Some bVal, c) => (Some bVal, with_la vi c)
  | (None, c) =>
      match t_LowestAfter (en_db (ix_Engine vi)) !! id with
      | None => (None, with_la vi c)
      | Some b => (Some b, with_la vi (cache_add c id b (Z.of_nat (length b))))
      end
  end.

Definition Index_GetHighestBefore (vi : VecIndex) (id : Z) : option HighestBeforeSeq * VecIndex :=
  match cache_get (ix_HighestBeforeSeq vi) id with
  | (Some bVal, c) => (Some bVal, with_hb vi c)
  | (None, c) =>
      match t_HighestBefore (en_db (ix_Engine vi)) !! id with
      | None => (None, with_hb vi c)
      | Some b => (Some b, with_hb vi (cache_add c id b (Z.of_nat (length b))))
      end
  end.

Definition Index_SetLowestAfter (vi : VecIndex) (id : Z) (seq : LowestAfterSeq) : VecIndex :=
  with_la (with_Engine vi (put_LowestAfter (ix_Engine vi) id seq))
    (cache_add (ix_LowestAfterSeq vi) id seq (Z.of_nat (length seq))).

Definition Index_SetHighestBefore (vi : VecIndex) (id : Z) (seq : HighestBeforeSeq) : VecIndex :=
  with_hb (with_Engine vi (put_HighestBefore (ix_Engine vi) id seq))
    (cache_add (ix_HighestBeforeSeq vi) id seq (Z.of_nat (length seq))).

(** ** vecfc/index.go *)

Definition onDropNotFlushed (vi : VecIndex) : VecIndex :=
  with_la (with_hb vi (cache_purge (ix_HighestBeforeSeq vi))) (cache_purge (ix_LowestAfterSeq vi)).

(** The engine resets a new wrapper, in which nothing is to be dropped. *)
Definition Index_Reset (validators : Validators) (db : VecDb HighestBeforeSeq LowestAfterSeq bytes) (vi : VecIndex) : VecIndex :=
  let vi := with_Engine vi (Engine_Reset validators db) in
  onDropNotFlushed (with_fc vi (cache_purge (ix_ForklessCause vi))).

(** ** The engine's operations through the callbacks of the index *)

Definition Index_DropNotFlushed (vi : VecIndex) : VecIndex :=
  let vi' := with_Engine vi (Engine_DropNotFlushed (ix_Engine vi)) in
  if en_dirty (ix_Engine vi) then onDropNotFlushed vi' else vi'.

Definition Index_Flush (vi : VecIndex) : VecIndex := with_Engine vi (Engine_Flush (ix_Engine vi)).

(** The callback returns a [*HighestBeforeSeq] as an interface: a nil pointer
    makes an interface that is not nil, so that the test of the engine for a
    parent that is not found does not see it. *)
Definition Index_loadParent (s : VecIndex * list (option HighestBeforeSeq)) (p : Z) : outcome (VecIndex * list (option HighestBeforeSeq)) :=
  let '(vi, parentsVecs) := s in
  let* _ := GetEventBranchID (t_EventBranch (en_db (ix_Engine vi))) p in
  let '(v, vi) := Index_GetHighestBefore vi p in
  Ok (vi, parentsVecs ++ [v]).

(** [CollectFrom] reads through the pointer for each branch. *)
Definition collect_parent (num : nat) (before : HighestBeforeSeq) (pVec : option HighestBeforeSeq) : outcome HighestBeforeSeq :=
  match pVec with
  | Some v => Ok (HB_CollectFrom before v num)
  | None => if (num =? 0)%nat then Ok before else Panic "nil HighestBefore"
  end.

Definition Index_onWalk (meBranchID : nat) (e : BaseEvent) (vi : VecIndex) (walk : Z) : outcome (bool * VecIndex) :=
  match Index_GetLowestAfter vi walk with
  | (None, _) => Panic "nil LowestAfter"
  | (Some wLowestAfterSeq, vi) =>
      let '(visited, wLowestAfterSeq) := la_Visit wLowestAfterSeq meBranchID e in
      Ok (visited, if visited then Index_SetLowestAfter vi walk wLowestAfterSeq else vi)
  end.

Definition Index_fillEventVectors (fuel : nat) (getEvent : Z -> option BaseEvent) (vi : VecIndex) (bi : BranchesInfo)
    (e : BaseEvent) : outcome VecIndex :=
  let validators := en_validators (ix_Engine vi) in
  let meIdx := default 0%nat (en_validatorIdxs (ix_Engine vi) !! e_creator e) in
  let before := NewHighestBeforeSeq (length (BranchIDCreatorIdxs bi)) in
  let after := NewLowestAfterSeq (length (BranchIDCreatorIdxs bi)) in
  let filled := fillGlobalBranchID validators (t_EventBranch (en_db (ix_Engine vi))) bi e meIdx in
  let* ' (meBranchID, bi) := match filled with
                            | Err _ => Ok (0%nat, bi)
                            | r => r
                            end in
  let* ' (vi, parentsVecs) := foldM Index_loadParent (vi, []) (e_parents e) in
  let after := LA_InitWithEvent after meBranchID e in
  let before := HB_InitWithEvent before meBranchID e in
  let* before := foldM (collect_parent (length (BranchIDCreatorIdxs bi))) before parentsVecs in
  let* before := detectForks validators bi before in
  let* vi := match vec_DfsSubgraph fuel getEvent e (Index_onWalk meBranchID e) vi with
             | Err err => Panic err
             | r => r
             end in
  let vi := Index_SetHighestBefore vi (e_id e) before in
  let vi := Index_SetLowestAfter vi (e_id e) after in
  Ok (with_Engine vi (with_bi (put_EventBranch (ix_Engine vi) (e_id e) meBranchID) bi)).

Definition Index_Add (fuel : nat) (getEvent : Z -> option BaseEvent) (vi : VecIndex) (e : BaseEvent) : outcome VecIndex :=
  let* ' (en, bi) := InitBranchesInfo (ix_Engine vi) in
  Index_fillEventVectors fuel getEvent (with_Engine vi en) bi e.

Definition Index_GetMergedHighestBefore (vi : VecIndex) (id : Z) : outcome (VecIndex * option HighestBeforeSeq) :=
  let* ' (en, bi) := InitBranchesInfo (ix_Engine vi) in
  let '(scatteredBefore, vi') := Index_GetHighestBefore (with_Engine vi en) id in
  if AtLeastOneFork (en_validators en) bi then
    match scatteredBefore with
    | None => Panic "nil HighestBefore"
    | Some scatteredBefore =>
        Ok (vi', Some (foldl (fun m cb => HB_GatherFrom m cb.1 scatteredBefore cb.2)
                   (NewHighestBeforeSeq (Validators_Len (en_validators en))) (imap pair (BranchIDByCreators bi))))
    end
  else Ok (vi', scatteredBefore).

(** ** vecfc/forkless_cause.go *)

Definition Index_forklessCause (vi : VecIndex) (bi : BranchesInfo) (aID bID : Z) : outcome (VecIndex * bool) :=
  match Index_GetHighestBefore vi aID with
  | (None, _) => Panic "Event A not found"
  | (Some a, vi) =>
      let validators := en_validators (ix_Engine vi) in
      let* forked :=
        if AtLeastOneFork validators bi then
          let* bBranchID := GetEventBranchID (t_EventBranch (en_db (ix_Engine vi))) bID in
          Ok (BranchSeq_IsForkDetected (HB_Get a bBranchID))
        else Ok false in
      if (forked : bool) then Ok (vi, false)
      else match Index_GetLowestAfter vi bID with
           | (None, _) => Panic "Event B not found"
           | (Some b, vi) =>
               let* yes := foldM (countBranch a b) (NewCounter validators) (imap pair (BranchIDCreatorIdxs bi)) in
               Ok (vi, HasQuorum yes)
           end
  end.

Definition Index_ForklessCause (vi : VecIndex) (aID bID : Z) : outcome (VecIndex * bool) :=
  match cache_get (ix_ForklessCause vi) (aID, bID) with
  | (Some res, c) => Ok (with_fc vi c, res)
  | (None, c) =>
      let vi := with_fc vi c in
      let* ' (en, bi) := InitBranchesInfo (ix_Engine vi) in
      let* ' (vi, res) := Index_forklessCause (with_Engine vi en) bi aID bID in
      Ok (with_fc vi (cache_add (ix_ForklessCause vi) (aID, bID) res 1), res)
  end.

End index.
Arguments VecIndex : clear implicits.

(** ** The caches show what the tables hold *)

Section coherent.
Context {bytes : Type} `{!BranchesInfoRlp bytes}.
Context {CH CL CF : Type} `{!LossyCache CH Z HighestBeforeSeq} `{!LossyCacheLaws CH Z HighestBeforeSeq}
  `{!LossyCache CL Z LowestAfterSeq} `{!LossyCacheLaws CL Z LowestAfterSeq} `{!LossyCache CF (Z * Z) bool} `{!LossyCacheLaws CF (Z * Z) bool}.
Local Abbreviation Index := (VecIndex bytes CH CL CF).
Implicit Types (vi : Index) (en : vecfc_Engine (bytes := bytes)).

Record coherent vi : Prop := {
  co_hb_ok : cache_ok (ix_HighestBeforeSeq vi);
  co_la_ok : cache_ok (ix_LowestAfterSeq vi);
  co_hb id v : cache_peek (ix_HighestBeforeSeq vi) id = Some v -> t_HighestBefore (en_db (ix_Engine vi)) !! id = Some v;
  co_la id v : cache_peek (ix_LowestAfterSeq vi) id = Some v -> t_LowestAfter (en_db (ix_Engine vi)) !! id = Some v
}.

(** Same tables and coherent caches: what the operations preserve. *)
Definition mirrors vi en : Prop := coherent vi /\ ix_Engine vi = en.

Lemma coherent_engine vi en :
  coherent vi -> t_HighestBefore (en_db en) = t_HighestBefore (en_db (ix_Engine vi)) ->
  t_LowestAfter (en_db en) = t_LowestAfter (en_db (ix_Engine vi)) -> coherent (with_Engine vi en).
Proof. intros [H1 H2 H3 H4] E1 E2. split; simpl; try done; rewrite ?E1, ?E2; auto. Qed.

Lemma coherent_fc vi c : coherent vi -> coherent (with_fc vi c).
Proof. intros [H1 H2 H3 H4]. by split. Qed.

(** What a table holds may be read into a cache. *)
Lemma cache_read {C V} `{!LossyCache C Z V} `{!LossyCacheLaws C Z V} (c : C) (t : gmap Z V) id v w :
  cache_ok c -> (forall k v, cache_peek c k = Some v -> t !! k = Some v) -> 0 <= w ->
  cache_ok (cache_add c id v w) /\ forall k v', cache_peek (cache_add c id v w) k = Some v' -> (<[id := v]> t) !! k = Some v'.
Proof.
  intros Hc Ht Hw. split; [by apply cache_add_ok|]. intros k v' Hk. apply (cache_add_peek c id v w) in Hk as [[-> ->]|[Hne Hk]]; try done.
  - apply lookup_insert_eq.
  - rewrite lookup_insert_ne by done. auto.
Qed.

(** A read through a cache is the read of the table. *)
Lemma cached_lookup {C V} `{!LossyCache C Z V} `{!LossyCacheLaws C Z V} (c : C) (t : gmap Z V) id (w : V -> Z) :
  cache_ok c -> (forall k v, cache_peek c k = Some v -> t !! k = Some v) -> (forall v, 0 <= w v) ->
  exists c', match cache_get c id with
             | (Some v, c1) => (Some v, c1)
             | (None, c1) => match t !! id with None => (None, c1) | Some b => (Some b, cache_add c1 id b (w b)) end
             end = (t !! id, c') /\ cache_ok c' /\ forall k v, cache_peek c' k = Some v -> t !! k = Some v.
Proof.
  intros Hc Ht Hw. pose proof (cache_get_fst c id Hc) as Hf. pose proof (cache_get_ok c id Hc) as Hok.
  assert (forall k v, cache_peek (cache_get c id).2 k = Some v -> t !! k = Some v) as Hp.
  { intros k v. rewrite cache_get_peek by done. apply Ht. }
  destruct (cache_get c id) as [[v|] c1]; simpl in *.
  - exists c1. by rewrite (Ht id v).
  - destruct (t !! id) as [b|] eqn:Hb; [|by exists c1]. destruct (cache_read c1 t id b (w b) Hok Hp (Hw b)) as [H1 H2].
    exists (cache_add c1 id b (w b)). split; [done|]. split; [done|]. by rewrite insert_id in H2.
Qed.

Lemma GetHighestBefore_spec vi en id :
  mirrors vi en -> exists vi', Index_GetHighestBefore vi id = (t_HighestBefore (en_db en) !! id, vi') /\ mirrors vi' en /\
    ix_ForklessCause vi' = ix_ForklessCause vi.
Proof.
  intros [[H1 H2 H3 H4] <-]. unfold Index_GetHighestBefore.
  destruct (cached_lookup (V := HighestBeforeSeq) _ _ id (fun b => Z.of_nat (length b)) H1 H3 ltac:(intros; simpl; lia)) as (c' & Hg & Hc' & Hp').
  exists (with_hb vi c'). split; [|by split].
  destruct (cache_get _ id) as [[v|] c1]; [by injection Hg as Hv <-; f_equal|].
  destruct (t_HighestBefore (en_db (ix_Engine vi)) !! id); by injection Hg as <-.
Qed.

Lemma GetLowestAfter_spec vi en id :
  mirrors vi en -> exists vi', Index_GetLowestAfter vi id = (t_LowestAfter (en_db en) !! id, vi') /\ mirrors vi' en /\
    ix_ForklessCause vi' = ix_ForklessCause vi.
Proof.
  intros [[H1 H2 H3 H4] <-]. unfold Index_GetLowestAfter.
  destruct (cached_lookup (V := LowestAfterSeq) _ _ id (fun b => Z.of_nat (length b)) H2 H4 ltac:(intros; simpl; lia)) as (c' & Hg & Hc' & Hp').
  exists (with_la vi c'). split; [|by split].
  destruct (cache_get _ id) as [[v|] c1]; [by injection Hg as Hv <-; f_equal|].
  destruct (t_LowestAfter (en_db (ix_Engine vi)) !! id); by injection Hg as <-.
Qed.

Lemma SetHighestBefore_spec vi en id v : mirrors vi en -> mirrors (Index_SetHighestBefore vi id v) (put_HighestBefore en id v).
Proof.
  intros [[H1 H2 H3 H4] <-]. destruct (cache_read _ _ id v (Z.of_nat (length v)) H1 H3 ltac:(lia)) as [H5 H6]. split; [|done]. by split.
Qed.

Lemma SetLowestAfter_spec vi en id v : mirrors vi en -> mirrors (Index_SetLowestAfter vi id v) (put_LowestAfter en id v).
Proof.
  intros [[H1 H2 H3 H4] <-]. destruct (cache_read _ _ id v (Z.of_nat (length v)) H2 H4 ltac:(lia)) as [H5 H6]. split; [|done]. by split.
Qed.

Lemma onDropNotFlushed_coherent vi : cache_ok (ix_HighestBeforeSeq vi) -> cache_ok (ix_LowestAfterSeq vi) -> coherent (onDropNotFlushed vi).
Proof.
  intros H1 H2. split; simpl; [by apply cache_purge_ok|by apply cache_purge_ok| |]; intros id v; by rewrite cache_purge_peek.
Qed.

(** ** Each operation is the one of the engine *)

Lemma Init_db en en' bi : InitBranchesInfo en = Ok (en', bi) -> en_db en' = en_db en.
Proof.
  unfold InitBranchesInfo. intros Hi. destruct (en_bi en); [by injection Hi as <- <-|].
  destruct (getBranchesInfo (en_db en)) as [w| |]; try done; by injection Hi as <- <-.
Qed.

Lemma Init_mirrors vi en : mirrors vi en -> forall en' bi, InitBranchesInfo en = Ok (en', bi) -> mirrors (with_Engine vi en') en'.
Proof.
  intros [Hc Heq] en' bi Hi. split; [|done]. by apply coherent_engine; rewrite ?(Init_db en en' bi Hi), ?Heq.
Qed.

(** Every event that has a branch has a vector. *)
Definition complete en : Prop := forall p, is_Some (t_EventBranch (en_db en) !! p) -> is_Some (t_HighestBefore (en_db en) !! p).

Lemma loadParents_mirrors vi en ps :
  mirrors vi en -> complete en ->
  outcome_rel (fun s vecs => mirrors s.1 en /\ ix_ForklessCause s.1 = ix_ForklessCause vi /\ s.2 = Some <$> vecs)
    (foldM Index_loadParent (vi, []) ps) (foldM (loadParent (en_db en)) [] ps).
Proof.
  intros Hm Hcom. apply outcome_rel_foldM; [done|]. intros [vi1 l] vecs p (Hm1 & Hf1 & Hl). simpl in *. subst l. unfold loadParent.
  destruct Hm1 as [Hc1 Heq]. rewrite Heq. apply outcome_rel_same. intros b Hb.
  destruct (GetHighestBefore_spec vi1 en p (conj Hc1 Heq)) as (vi2 & -> & Hm2 & Hf2).
  destruct (Hcom p) as [v ->]; [unfold GetEventBranchID in Hb; destruct (t_EventBranch _ !! p); [by eexists|done]|].
  simpl. split; [done|]. split; [congruence|]. by rewrite fmap_app.
Qed.

Lemma collect_parents_present num before (vecs : list HighestBeforeSeq) :
  foldM (collect_parent num) before (Some <$> vecs) = Ok (foldl (fun v pVec => HB_CollectFrom v pVec num) before vecs).
Proof. revert before. induction vecs as [|v vecs IH]; intros before; csimpl; [done|]. apply IH. Qed.

(** Traversals with related states. *)
Lemma dfs_loop_rel {S T} (R : S -> T -> Prop) fuel getEvent (w1 : S -> Z -> outcome (bool * S)) (w2 : T -> Z -> outcome (bool * T)) :
  (forall s t x, R s t -> outcome_rel (fun r1 r2 => r1.1 = r2.1 /\ R r1.2 r2.2) (w1 s x) (w2 t x)) ->
  forall s t stack, R s t -> outcome_rel R (dfs_loop fuel getEvent w1 s stack) (dfs_loop fuel getEvent w2 t stack).
Proof.
  intros Hw. induction fuel as [|fuel IH]; intros s t stack HR; simpl; [done|].
  destruct (Stack_Pop stack) as [[curr stack']|]; [|done]. eapply outcome_rel_bind; [by apply Hw|].
  intros [g s'] [g' t'] [Hg HR']. simpl in *. subst g'. destruct g; [|by apply IH]. destruct (getEvent curr); [by apply IH|done].
Qed.

(** The engine in the middle of the traversal, [la] written so far. *)
Definition walking en (la : gmap Z LowestAfterSeq) vi : Prop :=
  coherent vi /\ exists dirty, ix_Engine vi = mk_Engine (en_validators en) (en_bi en) (en_flushed en)
    (mk_VecDb (t_EventBranch (en_db en)) (t_BranchesInfo (en_db en)) (t_HighestBefore (en_db en)) la) dirty.

Lemma walk_mirrors en fc0 meBranchID e vi la walk :
  walking en la vi /\ ix_ForklessCause vi = fc0 ->
  outcome_rel (fun r1 r2 => r1.1 = r2.1 /\ walking en r2.2 r1.2 /\ ix_ForklessCause r1.2 = fc0)
    (Index_onWalk meBranchID e vi walk) (onWalk meBranchID e la walk).
Proof.
  intros [[Hc (d & Heq)] Hf]. unfold Index_onWalk, onWalk.
  destruct (GetLowestAfter_spec vi (ix_Engine vi) walk (conj Hc eq_refl)) as (vi2 & Hg & [Hc2 Heq2] & Hf2).
  assert (t_LowestAfter (en_db (ix_Engine vi)) = la) as Hla by (by rewrite Heq). unfold LowestAfterSeq in *. rewrite Hg, Hla.
  destruct (la !! walk) as [v|]; simpl; [|done]. destruct (LA_Visit v meBranchID e) as [visited v'].
  split; [done|]. destruct visited; simpl; rewrite ?Hf2; (split; [|done]).
  - destruct (SetLowestAfter_spec vi2 (ix_Engine vi2) walk v' (conj Hc2 eq_refl)) as [Hc3 Heq3]. split; [done|]. exists true. by rewrite Heq3, Heq2, Heq.
  - split; [done|]. exists d. by rewrite Heq2.
Qed.

Lemma fill_mirrors fuel getEvent vi en bi e :
  mirrors vi en -> complete en -> outcome_rel (fun vi' en' => mirrors vi' en' /\ ix_ForklessCause vi' = ix_ForklessCause vi)
    (Index_fillEventVectors fuel getEvent vi bi e) (fillEventVectors fuel getEvent en bi e).
Proof.
  intros Hm Hcom. unfold Index_fillEventVectors, fillEventVectors. pose proof (proj2 Hm) as Heq. rewrite Heq.
  apply outcome_rel_same. intros [me bi'] _. eapply outcome_rel_bind; [by apply loadParents_mirrors|].
  intros [vi1 vecs] vecs' (Hm1 & Hf1 & Hv). simpl in *. subst vecs. rewrite collect_parents_present. cbn [outcome_bind]. apply outcome_rel_same. intros before _.
  eapply (outcome_rel_bind (fun vi2 la => walking en la vi2 /\ ix_ForklessCause vi2 = ix_ForklessCause vi)).
  - assert (outcome_rel (fun vi2 la => walking en la vi2 /\ ix_ForklessCause vi2 = ix_ForklessCause vi)
      (vec_DfsSubgraph fuel getEvent e (Index_onWalk me e) vi1) (vec_DfsSubgraph fuel getEvent e (onWalk me e) (t_LowestAfter (en_db en)))) as Hd.
    { apply dfs_loop_rel; [intros s t x Hst; by apply walk_mirrors|]. split; [|done]. destruct Hm1 as [Hc1 Heq1]. split; [done|]. exists (en_dirty en).
      rewrite Heq1. by destruct en as [? ? ? [] ?]. }
    destruct (vec_DfsSubgraph _ _ _ (Index_onWalk me e) vi1), (vec_DfsSubgraph _ _ _ (onWalk me e) _); simpl in *; try done.
  - intros vi2 la [[Hc2 (d & Heq2)] Hf2]. simpl. split; [|done].
    destruct (SetLowestAfter_spec _ _ (e_id e) (LA_InitWithEvent (NewLowestAfterSeq (length (BranchIDCreatorIdxs bi))) me e)
      (SetHighestBefore_spec vi2 _ (e_id e) before (conj Hc2 eq_refl))) as [Hc3 Heq3].
    split; [|by cbn; rewrite Heq2]. by apply coherent_engine.
Qed.

Lemma Add_mirrors fuel getEvent vi en e :
  mirrors vi en -> complete en -> outcome_rel (fun vi' en' => mirrors vi' en' /\ ix_ForklessCause vi' = ix_ForklessCause vi)
    (Index_Add fuel getEvent vi e) (Engine_Add fuel getEvent en e).
Proof.
  intros Hm Hcom. unfold Index_Add, Engine_Add. rewrite (proj2 Hm). apply outcome_rel_same. intros [en' bi] Hi.
  apply (fill_mirrors fuel getEvent (with_Engine vi en')); [by apply (Init_mirrors vi en Hm en' bi)|].
  unfold complete. by rewrite (Init_db en en' bi Hi).
Qed.

Lemma Flush_mirrors vi en : mirrors vi en -> mirrors (Index_Flush vi) (Engine_Flush en).
Proof. intros [Hc <-]. split; [|done]. apply coherent_engine; [done|..]; unfold Engine_Flush; by destruct (en_bi _). Qed.

Lemma Drop_mirrors vi en : mirrors vi en -> mirrors (Index_DropNotFlushed vi) (Engine_DropNotFlushed en).
Proof.
  intros [Hc <-]. unfold Index_DropNotFlushed, Engine_DropNotFlushed. destruct (en_dirty _) eqn:Hd; (split; [|done]).
  - apply onDropNotFlushed_coherent; apply Hc.
  - by apply coherent_engine.
Qed.

Lemma Merged_mirrors vi en id :
  mirrors vi en -> outcome_rel (fun r1 r2 => mirrors r1.1 r2.1 /\ r1.2 = r2.2 /\ ix_ForklessCause r1.1 = ix_ForklessCause vi)
    (Index_GetMergedHighestBefore vi id) (GetMergedHighestBefore en id).
Proof.
  intros Hm. unfold Index_GetMergedHighestBefore, GetMergedHighestBefore. rewrite (proj2 Hm). apply outcome_rel_same. intros [en' bi] Hi.
  pose proof (Init_mirrors vi en Hm en' bi Hi) as Hm'. destruct (GetHighestBefore_spec _ en' id Hm') as (vi2 & -> & Hm2 & Hf2).
  destruct (AtLeastOneFork _ _); [|done]. by destruct (t_HighestBefore (en_db en') !! id).
Qed.

Lemma forklessCause_mirrors vi en bi a b :
  mirrors vi en -> outcome_rel (fun r1 r => mirrors r1.1 en /\ r1.2 = r /\ ix_ForklessCause r1.1 = ix_ForklessCause vi)
    (Index_forklessCause vi bi a b) (forklessCause en bi a b).
Proof.
  intros Hm. unfold Index_forklessCause, forklessCause. destruct (GetHighestBefore_spec vi en a Hm) as (vi2 & -> & Hm2 & Hf2).
  destruct (t_HighestBefore (en_db en) !! a) as [va|]; [|done]. pose proof (proj2 Hm2) as Heq. rewrite Heq. apply outcome_rel_same. intros [] _; [done|].
  destruct (GetLowestAfter_spec vi2 en b Hm2) as (vi3 & -> & Hm3 & Hf3). destruct (t_LowestAfter (en_db en) !! b) as [vb|]; [|done].
  apply outcome_rel_same. intros yes _. split; [done|]. split; [done|]. simpl. congruence.
Qed.

End coherent.

(** ** The answers remembered are still right *)

Section forkless_cause_cache.
Context (vv : Validators) (epoch : Z) (Hwf : wf vv).
Context {bytes : Type} `{!BranchesInfoRlp bytes} `{!BranchesInfoRlpLaws bytes}.
Context {CH CL CF : Type} `{!LossyCache CH Z HighestBeforeSeq} `{!LossyCacheLaws CH Z HighestBeforeSeq}
  `{!LossyCache CL Z LowestAfterSeq} `{!LossyCacheLaws CL Z LowestAfterSeq} `{!LossyCache CF (Z * Z) bool} `{!LossyCacheLaws CF (Z * Z) bool}.
Local Abbreviation Index := (VecIndex bytes CH CL CF).
(** An identifier is a hash: [event_of] is the one event that has it. *)
Context (event_of : Z -> option BaseEvent).
Implicit Types (vi : Index) (D : gmap Z BaseEvent).

Definition hashed D : Prop := forall h e, D !! h = Some e -> event_of h = Some e.

Lemma connectable_union D1 D2 e :
  connectable vv epoch D2 e -> hashed D1 -> hashed D2 -> D1 !! e_id e = None -> connectable vv epoch (D1 ∪ D2) e.
Proof.
  intros [Hf (ps & Hps & Hv)] H1 H2 Hn. split; [by apply lookup_union_None|]. exists ps. split; [|done].
  apply mapM_Some in Hps. apply mapM_Some. eapply Forall2_impl; [exact Hps|]. intros p e' Hp. simpl in *.
  destruct (D1 !! p) as [e1|] eqn:Hp1; [|by rewrite lookup_union_r].
  assert (e1 = e') as -> by (apply H1 in Hp1; apply H2 in Hp; congruence). by apply lookup_union_Some_l.
Qed.

(** Two graphs of one epoch that name the same events lie in one graph. *)
Lemma dag_union D1 D2 : dag vv epoch D1 -> dag vv epoch D2 -> hashed D1 -> hashed D2 -> dag vv epoch (D1 ∪ D2).
Proof.
  intros HD1 HD2 H1. induction HD2 as [|D2 e HD2 IH Hcon]; intros H2; [by rewrite (right_id ∅ _)|].
  assert (hashed D2) as H2'.
  { intros h e' Hh. apply H2. rewrite lookup_insert_ne; [done|]. intros <-. rewrite (con_fresh _ _ _ _ Hcon) in Hh. done. }
  destruct (D1 !! e_id e) as [e1|] eqn:He.
  - assert (e1 = e) as ->.
    { apply H1 in He. pose proof (H2 (e_id e) e (lookup_insert_eq _ _ _)). congruence. }
    assert (D1 ∪ <[e_id e:=e]> D2 = D1 ∪ D2) as ->; [|by apply IH].
    apply map_eq. intros h. destruct (D1 !! h) as [x|] eqn:Hx; [by rewrite !(lookup_union_Some_l _ _ _ x)|].
    rewrite !lookup_union_r by done. rewrite lookup_insert_ne; [done|]. by intros <-; rewrite He in Hx.
  - rewrite <- insert_union_r by done. apply dag_connect; [by apply IH|]. by apply connectable_union.
Qed.

Lemma fc_hashed D1 D2 a b :
  dag vv epoch D1 -> dag vv epoch D2 -> hashed D1 -> hashed D2 -> is_Some (D1 !! a) -> is_Some (D2 !! a) ->
  fc vv D1 a b <-> fc vv D2 a b.
Proof.
  intros HD1 HD2 H1 H2 Ha1 Ha2. assert (D2 ⊆ D1 ∪ D2) as Hsub.
  { apply map_subseteq_spec. intros h e Hh. destruct (D1 !! h) as [e1|] eqn:Hh1; [|by rewrite lookup_union_r].
    assert (e1 = e) as -> by (apply H1 in Hh1; apply H2 in Hh; congruence). by apply lookup_union_Some_l. }
  rewrite <- (fc_sub vv epoch Hwf D1 (D1 ∪ D2) HD1 (map_union_subseteq_l D1 D2) a b Ha1).
  by apply (fc_sub vv epoch Hwf D2 (D1 ∪ D2)).
Qed.

(** What the third cache remembers was true when it was stored. *)
Record remembered vi : Prop := {
  rm_ok : cache_ok (ix_ForklessCause vi);
  rm_answer a b r : cache_peek (ix_ForklessCause vi) (a, b) = Some r ->
    exists D0, dag vv epoch D0 /\ hashed D0 /\ is_Some (D0 !! a) /\ (r = true <-> fc vv D0 a b)
}.

Lemma remembered_same vi vi' : ix_ForklessCause vi' = ix_ForklessCause vi -> remembered vi -> remembered vi'.
Proof. intros E [H1 H2]. by split; rewrite E. Qed.

(** ** The states of an index within an epoch *)

Inductive index_run : gmap Z BaseEvent -> gmap Z BaseEvent -> Index -> Prop :=
| run_reset vi :
    cache_ok (ix_HighestBeforeSeq vi) -> cache_ok (ix_LowestAfterSeq vi) -> cache_ok (ix_ForklessCause vi) ->
    index_run ∅ ∅ (Index_Reset vv empty_db vi)
| run_add Df D vi e en bi getEvent fuel vi' :
    index_run Df D vi -> connectable vv epoch D e -> event_of (e_id e) = Some e ->
    (forall h x, D !! h = Some x -> getEvent h = Some x) -> (dfs_fuel D e <= fuel)%nat ->
    InitBranchesInfo (ix_Engine vi) = Ok (en, bi) -> uncapped bi ->
    Index_Add fuel getEvent vi e = Ok vi' -> index_run Df (<[e_id e := e]> D) vi'
| run_flush Df D vi : index_run Df D vi -> index_run D D (Index_Flush vi)
| run_drop Df D vi : index_run Df D vi -> index_run Df Df (Index_DropNotFlushed vi)
| run_cause Df D vi a b vi' r :
    index_run Df D vi -> is_Some (D !! a) -> is_Some (D !! b) -> Index_ForklessCause vi a b = Ok (vi', r) -> index_run Df D vi'
| run_merged Df D vi a vi' m :
    index_run Df D vi -> Index_GetMergedHighestBefore vi a = Ok (vi', m) -> index_run Df D vi'
| run_highest Df D vi a : index_run Df D vi -> index_run Df D (Index_GetHighestBefore vi a).2
| run_lowest Df D vi a : index_run Df D vi -> index_run Df D (Index_GetLowestAfter vi a).2.

Record index_inv Df D vi : Prop := {
  ii_coherent : coherent vi;
  ii_remembered : remembered vi;
  ii_engine : engine_reach vv epoch Df D (ix_Engine vi);
  ii_hashed : hashed D;
  ii_hashed_f : hashed Df
}.

Lemma reach_dag Df D (en : vecfc_Engine (bytes := bytes)) : engine_reach vv epoch Df D en -> dag vv epoch D.
Proof. intros Hr. by apply (engine_reach_inv vv epoch Df D en Hwf Hr). Qed.

Lemma reach_complete Df D (en : vecfc_Engine (bytes := bytes)) : engine_reach vv epoch Df D en -> complete en.
Proof.
  intros Hr p Hp. destruct (ei_db _ _ _ _ _ (engine_reach_inv vv epoch Df D en Hwf Hr)) as (bi & _ & Hdb).
  apply (di_hb_dom _ _ _ _ Hdb), (br_dom _ _ _ _ (di_branch _ _ _ _ Hdb)), Hp.
Qed.

(** A question about connected events is answered, with the answer of the
    graph, whether it is remembered or computed. *)
Lemma ForklessCause_inv Df D vi a b :
  index_inv Df D vi -> is_Some (D !! a) -> is_Some (D !! b) ->
  exists vi' r, Index_ForklessCause vi a b = Ok (vi', r) /\ (r = true <-> fc vv D a b) /\ index_inv Df D vi'.
Proof.
  intros [Hc [Hok Hrm] He Hh Hhf] Ha Hb. pose proof (reach_dag _ _ _ He) as HD. unfold Index_ForklessCause.
  pose proof (cache_get_fst _ (a, b) Hok) as Hfst. pose proof (cache_get_ok _ (a, b) Hok) as Hok'.
  pose proof (fun k => cache_get_peek _ (a, b) k Hok) as Hpk. destruct (cache_get _ (a, b)) as [[r|] c]; simpl in *.
  - exists (with_fc vi c), r. split; [done|]. destruct (Hrm a b r (eq_sym Hfst)) as (D0 & HD0 & Hh0 & Ha0 & Hr).
    split; [rewrite Hr; by apply fc_hashed|]. split; [by apply coherent_fc| |done|done|done].
    split; [done|]. intros a' b' r'. simpl. rewrite Hpk. apply Hrm.
  - destruct (ForklessCause_decides vv epoch Df D _ a b Hwf He Ha Hb) as (en' & r & Hf & Hr). unfold ForklessCause_uncached in Hf.
    destruct (InitBranchesInfo (ix_Engine vi)) as [[en bi]| |] eqn:Hi; try done. cbn [outcome_bind] in *.
    destruct (forklessCause en bi a b) as [r'| |] eqn:Hfc; try done. injection Hf as <- <-.
    pose proof (forklessCause_mirrors (with_Engine (with_fc vi c) en) en bi a b
      (Init_mirrors (with_fc vi c) _ (conj (coherent_fc vi c Hc) eq_refl) en bi Hi)) as Hm.
    rewrite Hfc in Hm. apply outcome_rel_Ok in Hm as ([vi2 r2] & Hv2 & (Hc2 & He2) & Hr2 & Hf2). simpl in *. subst r2.
    rewrite Hv2. cbn [outcome_bind]. eexists _, r'. split; [done|]. split; [done|]. split; simpl; [by apply coherent_fc| |by rewrite He2; eapply reach_query|done|done].
    split; simpl; rewrite Hf2; [by apply cache_add_ok|]. intros a' b' r0 Hp.
    apply cache_add_peek in Hp as [[[= -> ->] ->]|[_ Hp]]; [|by apply (Hrm a' b'); rewrite <- Hpk|done|done]. by exists D.
Qed.

Lemma hashed_insert D e : hashed D -> event_of (e_id e) = Some e -> hashed (<[e_id e := e]> D).
Proof. intros Hh He h x [[<- <-]|[_ Hx]]%lookup_insert_Some; auto. Qed.

Lemma index_run_inv Df D vi : index_run Df D vi -> index_inv Df D vi.
Proof.
  assert (hashed ∅) as H0 by (intros h e; by rewrite lookup_empty).
  induction 1 as [vi H1 H2 H3|Df D vi e en bi getEvent fuel vi' _ [Hc Hr He Hh Hhf] Hcon Hev Hsrc Hfuel Hi Hcap Ha
    |Df D vi _ [Hc Hr He Hh Hhf]|Df D vi _ [Hc Hr He Hh Hhf]|Df D vi a b vi' r _ IH Ha Hb Hf
    |Df D vi a vi' m _ [Hc Hr He Hh Hhf] Hm|Df D vi a _ [Hc Hr He Hh Hhf]|Df D vi a _ [Hc Hr He Hh Hhf]].
  - split; [by apply onDropNotFlushed_coherent| |constructor|done|done]. split; simpl; [by apply cache_purge_ok|].
    intros a b r. by rewrite cache_purge_peek.
  - pose proof (Add_mirrors fuel getEvent vi _ e (conj Hc eq_refl) (reach_complete Df D _ He)) as Hm. rewrite Ha in Hm.
    apply outcome_rel_Ok_l in Hm as (en' & Ha' & [Hc' He'] & Hf'). subst en'.
    split; [done|by apply (remembered_same vi)|by eapply reach_add|by apply hashed_insert|done].
  - destruct (Flush_mirrors vi _ (conj Hc eq_refl)) as [Hc' He']. split; [done|by apply (remembered_same vi)| |done|done]. rewrite He'. by eapply reach_flush.
  - destruct (Drop_mirrors vi _ (conj Hc eq_refl)) as [Hc' He']. split; [done| | |done|done].
    + apply (remembered_same vi); [|done]. unfold Index_DropNotFlushed. by destruct (en_dirty _).
    + rewrite He'. by eapply reach_drop.
  - destruct (ForklessCause_inv Df D vi a b IH Ha Hb) as (vi2 & r2 & Hf2 & _ & Hinv). congruence.
  - pose proof (Merged_mirrors vi _ a (conj Hc eq_refl)) as Hm'. rewrite Hm in Hm'.
    apply outcome_rel_Ok_l in Hm' as ([en' m'] & Hg & [Hc' He'] & _ & Hf'). simpl in *. subst en'.
    split; [done|by apply (remembered_same vi)| |done|done]. unfold GetMergedHighestBefore in Hg.
    destruct (InitBranchesInfo (ix_Engine vi)) as [[en1 bi1]| |] eqn:Hi; try done. cbn [outcome_bind] in Hg.
    assert (en1 = ix_Engine vi') as <-; [|by eapply reach_query].
    destruct (AtLeastOneFork _ _); [destruct (t_HighestBefore _ !! a); [|done]|]; by injection Hg.
  - destruct (GetHighestBefore_spec vi _ a (conj Hc eq_refl)) as (vi' & -> & [Hc' He'] & Hf'). simpl.
    split; [done|by apply (remembered_same vi)|by rewrite He'|done|done].
  - destruct (GetLowestAfter_spec vi _ a (conj Hc eq_refl)) as (vi' & -> & [Hc' He'] & Hf'). simpl.
    split; [done|by apply (remembered_same vi)|by rewrite He'|done|done].
Qed.

End forkless_cause_cache.

(** ** The caches of the source *)

(** [IndexCacheConfig]: pairs and bytes to remember. *)
Record IndexCacheConfig := mk_IndexCacheConfig { ForklessCausePairs : Z; HighestBeforeSeqSize : Z; LowestAfterSeqSize : Z }.

Definition lru_index (bytes : Type) `{!BranchesInfoRlp bytes} : Type :=
  VecIndex bytes (Cache Z HighestBeforeSeq) (Cache Z LowestAfterSeq) (Cache (Z * Z) bool).

(** [NewIndex]: the error of [New] is ignored; it is returned for a size that
    is negative once converted to [int], and the cache is then nil. *)
Definition initCaches {bytes : Type} `{!BranchesInfoRlp bytes} (en : vecfc_Engine (bytes := bytes)) (cfg : IndexCacheConfig) :
    outcome (lru_index bytes) :=
  let* fc := Cache_New (u64 (ForklessCausePairs cfg)) (ForklessCausePairs cfg) in
  let* hb := Cache_New (HighestBeforeSeqSize cfg) (i64 (HighestBeforeSeqSize cfg)) in
  let* la := Cache_New (LowestAfterSeqSize cfg) (i64 (LowestAfterSeqSize cfg)) in
  Ok (mk_VecIndex en hb la fc).

Lemma initCaches_ok {bytes : Type} `{!BranchesInfoRlp bytes} (en : vecfc_Engine (bytes := bytes)) cfg :
  0 <= ForklessCausePairs cfg < 2 ^ 63 -> 0 <= HighestBeforeSeqSize cfg < 2 ^ 63 -> 0 <= LowestAfterSeqSize cfg < 2 ^ 63 ->
  exists vi : lru_index bytes, initCaches en cfg = Ok vi /\ ix_Engine vi = en /\ cache_ok (ix_HighestBeforeSeq vi) /\
    cache_ok (ix_LowestAfterSeq vi) /\ cache_ok (ix_ForklessCause vi).
Proof.
  intros H1 H2 H3. unfold initCaches, Cache_New. rewrite !i64_small, u64_small by solve_width.
  rewrite !(proj2 (Z.ltb_ge _ 0)) by lia. cbn [outcome_bind]. eexists. split; [reflexivity|]. split; [done|].
  split; [|split]; apply empty_cache_wf; lia.
Qed.

(** ** Properties *)


Lemma fill_keeps_branches validators table bi e meIdx :
  BranchIDCreatorIdxs bi <> [] -> forall me bi', fillGlobalBranchID validators table bi e meIdx = Ok (me, bi') -> BranchIDCreatorIdxs bi' <> [].
Proof.
  intros Hbi me bi' Hf.
  assert (forall i r, newForkBranch bi e i = Ok r -> BranchIDCreatorIdxs r.2 <> []) as Hnew.
  { intros i r. unfold newForkBranch. destruct (index (BranchIDByCreators bi) i) as [mine| |]; try done. cbn [outcome_bind].
    destruct (_ <=? _)%nat; [|intros [= <-]; by destruct (BranchIDCreatorIdxs bi)].
    destruct (index mine _) as [b| |]; try done. cbn [outcome_bind]. destruct (index _ b) as [last| |]; try done. cbn [outcome_bind].
    intros [= <-]. by destruct (last <? e_seq e). }
  unfold fillGlobalBranchID in Hf. destruct (negb _); [done|]. destruct (_ <? _)%nat; [done|].
  destruct (SelfParent e) as [sp|]; [destruct (GetEventBranchID table sp) as [b| |]; try done; cbn [outcome_bind] in Hf; set (k := b) in Hf|set (k := meIdx) in Hf];
    destruct (index (BranchIDLastSeq bi) k) as [last| |]; try done; cbn [outcome_bind] in Hf;
    (destruct (_ =? _); [by injection Hf as <- <-|by apply Hnew in Hf]).
Qed.

(** Were the vector of a parent missing, the index would not return the error
    of [fillEventVectors] ("processed out of order"), but dereference nil. *)
Lemma missing_parent_panics {bytes : Type} `{!BranchesInfoRlp bytes} (fuel : nat) (getEvent : Z -> option BaseEvent)
    (vi : lru_index bytes) (bi : BranchesInfo) (e : BaseEvent) (p : Z) (b : nat) :
  coherent vi -> e_parents e = [p] -> t_EventBranch (en_db (ix_Engine vi)) !! p = Some b ->
  t_HighestBefore (en_db (ix_Engine vi)) !! p = None -> BranchIDCreatorIdxs bi <> [] ->
  exists msg, Index_fillEventVectors fuel getEvent vi bi e = Panic msg.
Proof.
  intros Hc Hp Hb Hn Hbi. unfold Index_fillEventVectors. rewrite Hp. cbn [foldM Index_loadParent]. unfold GetEventBranchID at 1. rewrite Hb. cbn [outcome_bind].
  destruct (GetHighestBefore_spec vi _ p (conj Hc eq_refl)) as (vi' & -> & _). rewrite Hn. cbn [outcome_bind app].
  match goal with |- context [fillGlobalBranchID ?a ?t ?i ?e ?m] => pose proof (fill_keeps_branches a t i e m Hbi) as Hne; destruct (fillGlobalBranchID a t i e m) as [[me bi']|msg|msg] end.
  3: by exists msg.
  all: cbn [outcome_bind foldM collect_parent].
  - specialize (Hne me bi' eq_refl). destruct (BranchIDCreatorIdxs bi'); [done|]. by eexists.
  - destruct (BranchIDCreatorIdxs bi); [done|]. by eexists.
Qed.

(** An index with caches for one pair and two short vectors, over the forking
    events of ForklessCause.v: the first answer is remembered, a dropped event
    is added again. *)
Definition tiny_caches : IndexCacheConfig := mk_IndexCacheConfig 1 16 8.

Definition ok_or {A} (d : A) (m : outcome A) : A := match m with Ok a => a | _ => d end.

Definition tiny_index : lru_index BranchesInfo :=
  ok_or (mk_VecIndex solo_engine0 (mk_Cache 0 0 0 [] ∅ ∅) (mk_Cache 0 0 0 [] ∅ ∅) (mk_Cache 0 0 0 [] ∅ ∅)) (initCaches solo_engine0 tiny_caches).
Definition index_add (D : gmap Z BaseEvent) (vi : lru_index BranchesInfo) (e : BaseEvent) : lru_index BranchesInfo :=
  ok_or vi (Index_Add (dfs_fuel D e) (fun h => D !! h) vi e).
Definition index_ask (vi : lru_index BranchesInfo) (a b : Z) : lru_index BranchesInfo := 
  ok_or vi (let* r := Index_ForklessCause vi a b in Ok r.1).

Definition index1 : lru_index BranchesInfo := index_add ∅ (Index_Reset solo empty_db tiny_index) (solo_first 101).
Definition index2 : lru_index BranchesInfo := Index_Flush (index_ask index1 101 101).
Definition index3 : lru_index BranchesInfo := Index_DropNotFlushed (index_add solo_one index2 (solo_first 102)).
Definition index4 : lru_index BranchesInfo := index_add solo_one index3 (solo_first 102).

Definition solo_hash (h : Z) : option BaseEvent := if bool_decide (101 <= h <= 102) then Some (solo_first h) else None.

Lemma tiny_add Df D vi e bi : index_run solo 1 solo_hash Df D vi -> connectable solo 1 D e -> solo_hash (e_id e) = Some e ->
  (exists en, InitBranchesInfo (ix_Engine vi) = Ok (en, bi)) -> uncapped bi -> (exists vi', Index_Add (dfs_fuel D e) (fun h => D !! h) vi e = Ok vi') ->
  index_run solo 1 solo_hash Df (<[e_id e := e]> D) (index_add D vi e).
Proof.
  intros Hr Hcon Hev [en Hi] Hcap [vi' Ha]. unfold index_add. rewrite Ha. by eapply (run_add _ _ _ Df D vi e en bi (fun h => D !! h) (dfs_fuel D e)).
Qed.

Lemma index1_run : index_run solo 1 solo_hash ∅ solo_one index1.
Proof.
  eapply (tiny_add ∅ ∅ _ (solo_first 101)).
  - apply run_reset; apply empty_cache_wf; done.
  - split; [done|]. by exists [].
  - done.
  - eexists. vm_compute. reflexivity.
  - apply Forall_singleton. vm_compute. lia.
  - eexists. vm_compute. reflexivity.
Qed.

Lemma index3_run : index_run solo 1 solo_hash solo_one solo_one index3.
Proof.
  apply run_drop with (D := solo_fork). eapply (tiny_add solo_one solo_one index2 (solo_first 102)).
  - apply run_flush with (Df := ∅). apply run_cause with (vi := index1) (a := 101) (b := 101) (r := true).
    + apply index1_run.
    + by eexists.
    + by eexists.
    + vm_compute. reflexivity.
  - apply solo_second.
  - done.
  - eexists. vm_compute. reflexivity.
  - apply Forall_singleton. vm_compute. lia.
  - eexists. vm_compute. reflexivity.
Qed.

Lemma index4_run : index_run solo 1 solo_hash solo_one solo_fork index4.
Proof.
  eapply (tiny_add solo_one solo_one index3 (solo_first 102)).
  - apply index3_run.
  - apply solo_second.
  - done.
  - eexists. vm_compute. reflexivity.
  - apply Forall_singleton. vm_compute. lia.
  - eexists. vm_compute. reflexivity.
Qed.

