(* ===== verification/Emitter.v ===== *)
(** * emitter/: parent selection and the double-sign guard

    [QuorumIndexer] keeps, for every pair of validators, up to which event the
    last event of the one observes the other, and takes weighted medians;
    [MetricStrategy] and [ChooseParents] pick parents by it.  The state of the
    index, of the indexer and of the metric caches is threaded through the
    calls.  A [time.Time] is a number of nanoseconds, zero being the zero time. *)

From S2P Require Import Prelude Bytes Pos Dag Wlru VecFC ForklessCause VecEngine VecCorrect.
Local Open Scope go_scope.

(** ** utils/wmedian/median.go *)

Fixpoint wmedian_Of {V} (Weight : V -> Z) (values : list V) (stop curWeight : Z) : outcome V :=
  match values with
  | [] => Panic "invalid median"
  | value :: values =>
      let curWeight := u32 (curWeight + Weight value) in
      if stop <=? curWeight then Ok value else wmedian_Of Weight values stop curWeight
  end.

(** ** abft/dagidx/dag_indexer.go: what the indexer needs of the DAG index *)

Class VectorClock (S : Type) := {
  vc_GetMergedHighestBefore : S -> Z -> outcome (S * (nat -> BranchSeq));
  vc_ok : S -> Prop;
  vc_known : S -> Z -> Prop
}.

Definition seqOf (seq : BranchSeq) : Z :=
  if BranchSeq_IsForkDetected seq then MaxUint32 / 2 - 1 else bs_Seq seq.

Definition vc_seq {S} `{!VectorClock S} (s : S) (id : Z) (i : nat) : Z :=
  match vc_GetMergedHighestBefore s id with Ok (_, f) => seqOf (f i) | _ => 0 end.

(** Reading the clock of a known event succeeds and changes no clock. *)
Class VectorClockLaws (S : Type) `{!VectorClock S} : Prop := {
  vc_get s id : vc_ok s -> vc_known s id ->
    exists s' f, vc_GetMergedHighestBefore s id = Ok (s', f) /\ vc_ok s' /\
      (forall x, vc_known s' x <-> vc_known s x) /\ (forall x i, vc_seq s' x i = vc_seq s x i)
}.

(** utils/adapters/vector_to_dagidx.go: the vector index as a clock. *)
#[export] Instance VectorToDagIndexer {bytes : Type} `{!BranchesInfoRlp bytes} : VectorClock (vecfc_Engine (bytes := bytes)) := {|
  vc_GetMergedHighestBefore vi id :=
    let* ' (vi, m) := GetMergedHighestBefore vi id in
    match m with Some v => Ok (vi, HB_Get v) | None => Panic "nil vector" end;
  vc_ok vi := exists vv epoch Df D, wf vv /\ engine_inv vv epoch Df D vi;
  vc_known vi id := is_Some (t_HighestBefore (en_db vi) !! id)
|}.

(** ** emitter/ancestor/quorum_indexer.go *)

Record Matrix := mk_Matrix { ma_buffer : list Z; ma_columns : Z }.

Definition NewMatrix (rows cols : Z) : Matrix := mk_Matrix (replicate (Z.to_nat (u32 (rows * cols))) 0) cols.

(** [Row(i)] is the slice from the first to the second offset. *)
Definition Row_bounds (m : Matrix) (i : nat) : nat * nat :=
  (Z.to_nat (u32 (Z.of_nat i * ma_columns m)), Z.to_nat (u32 (u32 (Z.of_nat i + 1) * ma_columns m))).

Definition Row_Get (m : Matrix) (i j : nat) : outcome Z :=
  let '(lo, hi) := Row_bounds m i in
  if ((lo <=? hi) && (hi <=? length (ma_buffer m)))%nat
  then if (lo + j <? hi)%nat then index (ma_buffer m) (lo + j) else Panic "index out of range"
  else Panic "slice bounds out of range".

Definition Row_Set (m : Matrix) (i j : nat) (v : Z) : outcome Matrix :=
  let* _ := Row_Get m i j in
  Ok (mk_Matrix (<[(Row_bounds m i).1 + j := v]> (ma_buffer m))%nat (ma_columns m)).

Definition Matrix_Clone (m : Matrix) : Matrix := mk_Matrix (ma_buffer m) (ma_columns m).

Record weightedSeq := mk_weightedSeq { ws_seq : Z; ws_weight : Z }.

(** [sort.Slice] by decreasing sequence number; the median does not depend on
    the order of equal ones ([wmedian_any_order]). *)
Definition seq_ge (a b : weightedSeq) : Prop := ws_seq b <= ws_seq a.
#[export] Instance seq_ge_dec : RelDecision seq_ge := fun a b => Z_le_dec _ _.
#[export] Instance seq_ge_trans : Transitive seq_ge.
Proof. unfold seq_ge. intros a b c. lia. Qed.
#[export] Instance seq_ge_total : Total seq_ge.
Proof. unfold seq_ge. intros a b. lia. Qed.

Section indexer.
Context {S : Type} `{!VectorClock S} (validators : Validators) (diffMetricFn : Z -> Z -> Z -> nat -> Z).

(** [qi_caches] holds the metric cache of each search strategy made so far; the
    current strategy is the last one. *)
Record QuorumIndexer := mk_QuorumIndexer {
  qi_dagi : S;
  qi_globalMatrix : Matrix;
  qi_selfParentSeqs : list Z;
  qi_globalMedianSeqs : list Z;
  qi_dirty : bool;
  qi_caches : list (Cache Z Z)
}.

Definition val_len : nat := Validators_Len validators.

Definition NewQuorumIndexer (dagi : S) : QuorumIndexer :=
  mk_QuorumIndexer dagi (NewMatrix (Z.of_nat val_len) (Z.of_nat val_len)) (replicate val_len 0) (replicate val_len 0) true [].

(** One turn of the loop of [ProcessEvent]. *)
Definition process_cell (clock : nat -> BranchSeq) (creatorIdx : nat) (selfEvent : bool) (h : Matrix * list Z) (v : nat) : outcome (Matrix * list Z) :=
  let seq := seqOf (clock v) in
  let* m := Row_Set h.1 v creatorIdx seq in
  if selfEvent then
    if (v <? length h.2)%nat then Ok (m, <[v := seq]> h.2) else Panic "index out of range"
  else Ok (m, h.2).

Definition qi_ProcessEvent (h : QuorumIndexer) (event : BaseEvent) (selfEvent : bool) : outcome QuorumIndexer :=
  let* ' (d, clock) := vc_GetMergedHighestBefore (qi_dagi h) (e_id event) in
  let* ' (m, sp) := foldM (process_cell clock (GetIdx validators (e_creator event)) selfEvent)
                     (qi_globalMatrix h, qi_selfParentSeqs h) (seq 0 val_len) in
  Ok (mk_QuorumIndexer d m sp (qi_globalMedianSeqs h) true (qi_caches h)).

Definition row_pairs (m : Matrix) (v : nat) : outcome (list weightedSeq) :=
  foldM (fun pairs i =>
    let* s := Row_Get m v i in
    let* w := GetWeightByIdx validators i in
    Ok (pairs ++ [mk_weightedSeq s w])) [] (seq 0 val_len).

Definition row_median (m : Matrix) (v : nat) : outcome Z :=
  let* pairs := row_pairs m v in
  let* median := wmedian_Of ws_weight (merge_sort seq_ge pairs) (Quorum validators) 0 in
  Ok (ws_seq median).

Definition recacheState (h : QuorumIndexer) : outcome QuorumIndexer :=
  let* medians := foldM (fun medians v =>
    let* x := row_median (qi_globalMatrix h) v in
    if (v <? length medians)%nat then Ok (<[v := x]> medians) else Panic "index out of range")
    (qi_globalMedianSeqs h) (seq 0 val_len) in
  let* cache := Cache_New 128 128 in
  Ok (mk_QuorumIndexer (qi_dagi h) (qi_globalMatrix h) (qi_selfParentSeqs h) medians false (qi_caches h ++ [cache])).

Definition fresh_state (h : QuorumIndexer) : outcome QuorumIndexer := if qi_dirty h then recacheState h else Ok h.

Definition qi_GetMetricOf (h : QuorumIndexer) (id : Z) : outcome (Z * QuorumIndexer) :=
  let* h := fresh_state h in
  let* ' (d, clock) := vc_GetMergedHighestBefore (qi_dagi h) id in
  let* metric := foldM (fun metric v =>
    let* current := index (qi_selfParentSeqs h) v in
    let* median := index (qi_globalMedianSeqs h) v in
    Ok (u64 (metric + diffMetricFn median current (seqOf (clock v)) v))) 0 (seq 0 val_len) in
  Ok (metric, mk_QuorumIndexer d (qi_globalMatrix h) (qi_selfParentSeqs h) (qi_globalMedianSeqs h) (qi_dirty h) (qi_caches h)).

(** The strategy returned is the number of its cache. *)
Definition SearchStrategy (h : QuorumIndexer) : outcome (nat * QuorumIndexer) :=
  let* h := fresh_state h in Ok (pred (length (qi_caches h)), h).

Definition GetGlobalMedianSeqs (h : QuorumIndexer) : outcome (list Z * QuorumIndexer) :=
  let* h := fresh_state h in Ok (qi_globalMedianSeqs h, h).

(** emitter/ancestor/metric_cache.go, on the cache of strategy [g]. *)
Definition cached_GetMetricOf (g : nat) (h : QuorumIndexer) (id : Z) : outcome (Z * QuorumIndexer) :=
  let* c := index (qi_caches h) g in
  let '(m, c) := Cache_Get c id in
  let h := mk_QuorumIndexer (qi_dagi h) (qi_globalMatrix h) (qi_selfParentSeqs h) (qi_globalMedianSeqs h) (qi_dirty h) (<[g := c]> (qi_caches h)) in
  match m with
  | Some m => Ok (m, h)
  | None =>
      let* ' (m, h) := qi_GetMetricOf h id in
      let* c := index (qi_caches h) g in
      let* ' (_, c) := Cache_Add c id m 1 in
      Ok (m, mk_QuorumIndexer (qi_dagi h) (qi_globalMatrix h) (qi_selfParentSeqs h) (qi_globalMedianSeqs h) (qi_dirty h) (<[g := c]> (qi_caches h)))
  end.
End indexer.
Arguments QuorumIndexer S : clear implicits.

(** ** emitter/ancestor/weighted.go *)

(** The index and weight of the best option so far. *)
Definition choose_step {St} (metricFn : St -> Z -> outcome (Z * St)) (a : nat * Z * St) (io : nat * Z) : outcome (nat * Z * St) :=
  let '(maxI, maxWeight, st) := a in
  let* ' (weight, st) := metricFn st io.2 in
  if (maxWeight =? 0) || (maxWeight <? weight) then Ok (io.1, weight, st) else Ok (maxI, maxWeight, st).

Definition MetricStrategy_Choose {St} (metricFn : St -> Z -> outcome (Z * St)) (st : St) (existingParents options : list Z) : outcome (nat * St) :=
  let* ' (maxI, _, st) := foldM (choose_step metricFn) (0%nat, 0, st) (imap pair options) in
  Ok (maxI, st).

(** emitter/ancestor/rand.go: the generator is a parameter. *)
Definition RandomStrategy_Choose {R} (Intn : R -> nat -> nat * R) (r : R) (existingParents options : list Z) : outcome (nat * R) :=
  Ok (Intn r (length options)).

(** ** emitter/ancestor/search.go *)

Section choose.
Context {St : Type} (Slice : gset Z -> list Z).
Abbreviation strategy := (St -> list Z -> list Z -> outcome (nat * St)).

(** [Slice] lists the set in the order of a Go map. *)
Fixpoint choose_loop (strategies : list strategy) (st : St) (optionsSet : gset Z) (parents : list Z) : outcome (list Z * St) :=
  match strategies with
  | [] => Ok (parents, st)
  | choose :: strategies =>
      if bool_decide (optionsSet = ∅) then Ok (parents, st)
      else
        let curOptions := Slice optionsSet in
        let* ' (best, st) := choose st parents curOptions in
        let* p := index curOptions best in
        choose_loop strategies st (EventsSet_Erase optionsSet [p]) (parents ++ [p])
  end.

Definition ChooseParents (st : St) (existingParents options : list Z) (strategies : list strategy) : outcome (list Z * St) :=
  choose_loop strategies st (foldl (fun s p => EventsSet_Erase s [p]) (Events_Set options) existingParents) existingParents.
End choose.

(** ** emitter/ancestor/payload_indexer.go *)

Definition payload_GetMetricOf (h : Cache Z Z) (id : Z) : Z * Cache Z Z :=
  let '(m, h) := Cache_Get h id in (default 0 m, h).

Definition payload_max (a : Z * Cache Z Z) (p : Z) : Z * Cache Z Z :=
  let '(m, h) := payload_GetMetricOf a.2 p in (if a.1 <? m then m else a.1, h).

Definition payload_ProcessEvent (h : Cache Z Z) (event : BaseEvent) (payloadMetric : Z) : outcome (Cache Z Z) :=
  let '(maxParents, h) := foldl payload_max (0, h) (e_parents event) in
  if negb (maxParents =? 0) || negb (payloadMetric =? 0) then
    let* ' (_, h) := Cache_Add h (e_id event) (u64 (maxParents + payloadMetric)) 1 in Ok h
  else Ok h.

(** ** emitter/doublesign *)

Definition ErrNoConnections : string := "no connections".
Definition ErrP2PSyncOngoing : string := "P2P synchronization isn't finished".
Definition ErrSelfEventsOngoing : string := "not downloaded all the self-events".
Definition ErrJustBecameValidator : string := "just joined the validators group".
Definition ErrJustConnected : string := "recently connected".
Definition ErrJustP2PSynced : string := "waiting additional time".

Record SyncStatus := mk_SyncStatus {
  PeersNum : Z; Now : Z; Startup : Z; LastConnected : Z; P2PSynced : Z; BecameValidator : Z;
  ExternalSelfEventCreated : Z; ExternalSelfEventDetected : Z
}.

Definition Since (s : SyncStatus) (t : Z) : Z := time_Sub (Now s) t.

Definition maxWait_apply (m : Z * option string) (wait : Z) (waitErr : string) : Z * option string :=
  if m.1 <? wait then (wait, Some waitErr) else m.

Definition wait_since (s : SyncStatus) (threshold : Z) (t : Z) (err : string) (m : Z * option string) : Z * option string :=
  if Since s t <? threshold then maxWait_apply m (i64 (threshold - Since s t)) err else m.

Definition SyncedToEmit (s : SyncStatus) (threshold : Z) : Z * option string :=
  if PeersNum s =? 0 then (0, Some ErrNoConnections)
  else if P2PSynced s =? 0 then (0, Some ErrP2PSyncOngoing)
  else
    wait_since s threshold (P2PSynced s) ErrJustP2PSynced
      (wait_since s threshold (LastConnected s) ErrJustConnected
        (wait_since s threshold (BecameValidator s) ErrJustBecameValidator
          (wait_since s threshold (ExternalSelfEventCreated s) ErrSelfEventsOngoing
            (wait_since s threshold (ExternalSelfEventDetected s) ErrSelfEventsOngoing (0, None))))).

Definition DetectParallelInstance (s : SyncStatus) (threshold : Z) : bool :=
  if ExternalSelfEventCreated s <? Startup s then false
  else Since s (ExternalSelfEventCreated s) <? threshold.

(** ** Weighted medians *)

Lemma wmedian_Of_split {V} (Weight : V -> Z) stop l : forall cur,
  Forall (fun x => 0 <= Weight x) l -> 0 <= cur < stop -> stop <= cur + wsum Weight l -> cur + wsum Weight l <= MaxUint32 ->
  exists pre x post, l = pre ++ x :: post /\ wmedian_Of Weight l stop cur = Ok x /\
    cur + wsum Weight pre < stop <= cur + wsum Weight pre + Weight x.
Proof.
  induction l as [|y l IH]; intros cur Hf Hc Hs Hm; simpl in *; [lia|]. apply Forall_cons in Hf as [Hy Hf].
  assert (0 <= wsum Weight l) by (apply wsum_nonneg; by apply Forall_forall).
  rewrite u32_small by solve_width. destruct (stop <=? cur + Weight y) eqn:E.
  - exists [], y, l. simpl. split; [done|]. split; [done|]. lia.
  - destruct (IH (cur + Weight y)) as (pre & x & post & -> & Hw & Hb); [done|lia..|].
    exists (y :: pre), x, post. simpl. split; [done|]. split; [done|]. lia.
Qed.

(** The median of weighted numbers, whatever the order of equal ones. *)
Definition weighted_median {V} (Weight value : V -> Z) (l : list V) (stop m : Z) : Prop :=
  stop <= wsum (fun x => if m <=? value x then Weight x else 0) l /\
  wsum (fun x => if m <? value x then Weight x else 0) l < stop.

#[global] Instance weighted_median_perm {V} (Weight value : V -> Z) : Proper ((≡ₚ) ==> (=) ==> (=) ==> iff) (weighted_median Weight value).
Proof. intros l1 l2 Hl ? ? <- ? ? <-. unfold weighted_median. by rewrite !Hl. Qed.

Lemma weighted_median_unique {V} (Weight value : V -> Z) l stop m1 m2 :
  (forall x, x ∈ l -> 0 <= Weight x) -> weighted_median Weight value l stop m1 -> weighted_median Weight value l stop m2 -> m1 = m2.
Proof.
  intros Hw. assert (forall a b, a < b -> weighted_median Weight value l stop a -> weighted_median Weight value l stop b -> False) as Hlt.
  { intros a b Hab [_ Ha] [Hb _].
    assert (wsum (fun x => if b <=? value x then Weight x else 0) l <= wsum (fun x => if a <? value x then Weight x else 0) l); [|lia].
    apply wsum_mono. intros x Hx. specialize (Hw x Hx). destruct (b <=? value x) eqn:E1, (a <? value x) eqn:E2; bool_to_prop; lia. }
  intros H1 H2. destruct (Z.lt_total m1 m2) as [?|[?|?]]; [|done|]; exfalso; eauto.
Qed.

Lemma wmedian_sorted (l : list weightedSeq) stop :
  StronglySorted seq_ge l -> Forall (fun x => 0 <= ws_weight x) l -> 0 < stop -> stop <= wsum ws_weight l <= MaxUint32 ->
  exists x, wmedian_Of ws_weight l stop 0 = Ok x /\ weighted_median ws_weight ws_seq l stop (ws_seq x).
Proof.
  intros Hs Hf H0 Hw. destruct (wmedian_Of_split ws_weight stop l 0) as (pre & x & post & -> & Hm & Hb); [done|lia..|].
  exists x. split; [done|]. apply StronglySorted_app in Hs as (Hpre & _ & Hs).
  apply StronglySorted_cons in Hs as [Hpost _]. apply Forall_app in Hf as [Hf1 Hf2]. apply Forall_cons in Hf2 as [Hx Hf2].
  rewrite Forall_forall in Hpost, Hf1, Hf2.
  unfold weighted_median. rewrite !wsum_app. simpl. rewrite Z.leb_refl, Z.ltb_irrefl. split.
  - rewrite (wsum_ext _ ws_weight pre).
    + assert (0 <= wsum (fun y => if ws_seq x <=? ws_seq y then ws_weight y else 0) post); [|lia].
      apply wsum_nonneg. intros y Hy. specialize (Hf2 y Hy). by destruct (_ <=? _).
    + intros y Hy. assert (ws_seq x <= ws_seq y) as ->%Z.leb_le by (apply Hpre; [done|left]). done.
  - rewrite (wsum_ext _ (fun _ => 0) post).
    + rewrite wsum_zero. assert (wsum (fun y => if ws_seq x <? ws_seq y then ws_weight y else 0) pre <= wsum ws_weight pre); [|lia].
      apply wsum_mono. intros y Hy. specialize (Hf1 y Hy). destruct (_ <? _); lia.
    + intros y Hy. specialize (Hpost y Hy). unfold seq_ge in Hpost. by assert (ws_seq x <? ws_seq y = false) as -> by (apply Z.ltb_ge; lia).
Qed.

(** ** The matrix *)

Definition matrix_ok (n : nat) (m : Matrix) : Prop :=
  ma_columns m = Z.of_nat n /\ length (ma_buffer m) = (n * n)%nat /\ Z.of_nat (n * n) <= MaxUint32.

Definition cell (n : nat) (m : Matrix) (i j : nat) : Z := default 0 (ma_buffer m !! (i * n + j)%nat).

Lemma Row_bounds_ok n m i : matrix_ok n m -> (i < n)%nat -> Row_bounds m i = ((i * n)%nat, (S i * n)%nat).
Proof.
  intros (Hc & Hl & Hn) Hi. unfold Row_bounds. rewrite Hc. assert (i * n <= n * n)%nat by nia. assert (S i * n <= n * n)%nat by nia.
  assert (S i <= n * n)%nat by nia. rewrite (u32_small (Z.of_nat i * Z.of_nat n)) by solve_width.
  rewrite (u32_small (Z.of_nat i + 1)) by solve_width. rewrite u32_small by solve_width. f_equal; lia.
Qed.

Lemma Row_Get_cell n m i j : matrix_ok n m -> (i < n)%nat -> (j < n)%nat -> Row_Get m i j = Ok (cell n m i j).
Proof.
  intros Hm Hi Hj. unfold Row_Get. rewrite (Row_bounds_ok n) by done. destruct Hm as (_ & Hl & _). rewrite Hl.
  assert (S i * n <= n * n)%nat by nia. rewrite (proj2 (Nat.leb_le (i * n) (S i * n))) by lia.
  rewrite (proj2 (Nat.leb_le (S i * n) (n * n))) by lia. rewrite (proj2 (Nat.ltb_lt (i * n + j) (S i * n))) by lia. simpl.
  unfold cell, index. destruct (ma_buffer m !! (i * n + j)%nat) eqn:E; [done|]. apply lookup_ge_None_1 in E. lia.
Qed.

Lemma cell_index_inj (n i j i' j' : nat) : (j < n -> j' < n -> i * n + j = i' * n + j' -> i = i' /\ j = j')%nat.
Proof.
  intros Hj Hj' Heq. destruct (Nat.lt_trichotomy i i') as [Hlt|[->|Hlt]]; [exfalso|lia|exfalso].
  - pose proof (Nat.mul_le_mono_r (S i) i' n ltac:(lia)). lia.
  - pose proof (Nat.mul_le_mono_r (S i') i n ltac:(lia)). lia.
Qed.

Lemma Row_Set_cell n m i j v : matrix_ok n m -> (i < n)%nat -> (j < n)%nat ->
  exists m', Row_Set m i j v = Ok m' /\ matrix_ok n m' /\
    forall i' j', (i' < n)%nat -> (j' < n)%nat -> cell n m' i' j' = if decide (i' = i /\ j' = j) then v else cell n m i' j'.
Proof.
  intros Hm Hi Hj. unfold Row_Set. rewrite (Row_Get_cell n) by done. cbn [outcome_bind]. rewrite (Row_bounds_ok n) by done. simpl.
  eexists. split; [done|]. destruct Hm as (Hc & Hl & Hn). split; [split; [done|split; [simpl; by rewrite length_insert|done]]|].
  intros i' j' Hi' Hj'. unfold cell. simpl. destruct (decide (i' = i /\ j' = j)) as [[-> ->]|Hne].
  - rewrite list_lookup_insert_eq; [done|]. rewrite Hl. pose proof (Nat.mul_le_mono_r (S i) n n ltac:(lia)). lia.
  - rewrite list_lookup_insert_ne; [done|]. intros Heq. apply Hne. destruct (cell_index_inj n i j i' j'); auto.
Qed.

Lemma foldM_snoc {X Y} (body : list Y -> X -> outcome (list Y)) (g : X -> Y) l : forall acc,
  (forall acc x, x ∈ l -> body acc x = Ok (acc ++ [g x])) -> foldM body acc l = Ok (acc ++ (g <$> l)).
Proof.
  induction l as [|x l IH]; intros acc Hb; csimpl; [by rewrite app_nil_r|]. rewrite Hb by left. simpl.
  rewrite IH; [by rewrite <- app_assoc|]. intros a y Hy. apply Hb. by right.
Qed.

(** A loop that fills a slice index by index. *)
Lemma foldM_fill {Y} (body : list Y -> nat -> outcome (list Y)) (g : nat -> Y) n : forall l,
  length l = n -> (forall l v, (v < n)%nat -> length l = n -> body l v = Ok (<[v := g v]> l)) ->
  exists r, foldM body l (seq 0 n) = Ok r /\ length r = n /\ forall v, (v < n)%nat -> r !! v = Some (g v).
Proof.
  intros l Hl Hb. assert (forall k, (k <= n)%nat -> exists r, foldM body l (seq 0 k) = Ok r /\ length r = n /\ forall v, (v < k)%nat -> r !! v = Some (g v)) as Hk;
    [|by apply Hk]. induction k as [|k IH]; intros Hk; [exists l; split; [done|]; split; [done|]; lia|].
  destruct IH as (r & Hr & Hlr & Hv); [lia|]. rewrite seq_S, foldM_app, Hr. simpl. rewrite Hb by (done || lia). simpl.
  eexists. split; [done|]. split; [by rewrite length_insert|]. intros v Hvk. destruct (decide (v = k)) as [->|Hne].
  - apply list_lookup_insert_eq. lia.
  - rewrite list_lookup_insert_ne by done. apply Hv. lia.
Qed.

(** ** The indexer over a clock *)

Section indexer_correct.
Context {S : Type} `{!VectorClock S} `{!VectorClockLaws S} (vv : Validators) (Hwf : wf vv) (diff : Z -> Z -> Z -> nat -> Z).
Hypothesis Hsmall : Z.of_nat (Validators_Len vv * Validators_Len vv) <= MaxUint32.
Abbreviation n := (Validators_Len vv).
Abbreviation weight_at i := (default 0 (SortedWeights vv !! i)).

Lemma GetIdx_all : GetIdx vv <$> SortedIDs vv = seq 0 n.
Proof.
  apply list_eq. intros i. rewrite list_lookup_fmap. destruct (SortedIDs vv !! i) as [id|] eqn:Hi; simpl.
  - rewrite (GetIdx_lookup vv Hwf id i Hi). symmetry. apply lookup_seq. apply lookup_lt_Some in Hi. rewrite (wf_ids_len _ Hwf) in Hi. lia.
  - symmetry. apply lookup_ge_None. apply lookup_ge_None in Hi. by rewrite length_seq, <- (wf_ids_len _ Hwf).
Qed.

Lemma GetIdx_lt id : id ∈ SortedIDs vv -> (GetIdx vv id < n)%nat.
Proof using Hwf. intros Hid%(GetIdx_in vv Hwf). apply lookup_lt_Some in Hid. by rewrite (wf_ids_len _ Hwf) in Hid. Qed.

Lemma weight_at_Get id : id ∈ SortedIDs vv -> weight_at (GetIdx vv id) = Validators_Get vv id.
Proof using Hwf. intros Hid%(GetIdx_in vv Hwf). by rewrite (wf_weights _ Hwf), list_lookup_fmap, Hid. Qed.

Lemma weight_at_ok i : (i < n)%nat -> GetWeightByIdx vv i = Ok (weight_at i).
Proof.
  intros Hi. rewrite <- (wf_ids_len _ Hwf) in Hi. apply lookup_lt_is_Some_2 in Hi as [id Hid].
  rewrite (GetWeightByIdx_lookup vv Hwf id i Hid), (wf_weights _ Hwf), list_lookup_fmap, Hid. done.
Qed.

(** A sum over positions is a sum over validators. *)
Lemma wsum_positions (P : nat -> bool) :
  wsum (fun i => if P i then weight_at i else 0) (seq 0 n) = weight_of vv (fun id => P (GetIdx vv id)).
Proof.
  rewrite <- GetIdx_all, wsum_fmap. unfold weight_of. apply wsum_ext. intros id Hid. by rewrite (weight_at_Get id Hid).
Qed.

Definition quorum_median (f : Z -> Z) (m : Z) : Prop :=
  Quorum vv <= weight_of vv (fun c => m <=? f c) /\ weight_of vv (fun c => m <? f c) < Quorum vv.

Lemma row_median_spec m v : matrix_ok n m -> (v < n)%nat ->
  exists x, row_median vv m v = Ok x /\ quorum_median (fun c => cell n m v (GetIdx vv c)) x.
Proof.
  intros Hm Hv. unfold row_median, row_pairs. change (val_len vv) with n.
  set (g := fun i => mk_weightedSeq (cell n m v i) (weight_at i)).
  rewrite (foldM_snoc _ g (seq 0 n) []).
  2: { intros acc i Hi%elem_of_seq. rewrite (Row_Get_cell n) by (done || lia). simpl. rewrite weight_at_ok by lia. done. }
  simpl. set (l := merge_sort seq_ge (g <$> seq 0 n)).
  assert (l ≡ₚ g <$> seq 0 n) as Hperm by apply merge_sort_Permutation.
  assert (Forall (fun x => 0 <= ws_weight x) (g <$> seq 0 n)) as Hpos.
  { apply Forall_fmap, Forall_forall. intros i Hi. simpl. rewrite (wf_weights _ Hwf), list_lookup_fmap.
    destruct (SortedIDs vv !! i) as [id|]; simpl; [|done]. by apply Get_nonneg. }
  assert (wsum ws_weight l = TotalWeight vv) as Hsum.
  { rewrite Hperm, wsum_fmap, (wf_total _ Hwf). exact (wsum_positions (fun _ => true)). }
  pose proof (Quorum_bounds vv Hwf). pose proof (wf_total_le _ Hwf) as Htot.
  assert (0 < TotalWeight vv) as H0.
  { rewrite (wf_total _ Hwf). destruct (SortedIDs vv) as [|id ids] eqn:E.
    - pose proof (wf_ids_len _ Hwf) as Hlen. rewrite E in Hlen. simpl in Hlen. lia.
    - assert (id ∈ SortedIDs vv) as Hid by (rewrite E; left). pose proof (Get_pos vv Hwf id Hid).
      simpl. assert (0 <= wsum (Validators_Get vv) ids); [|lia]. apply wsum_nonneg. intros x _. by apply Get_nonneg. }
  change (MaxUint32 / 2) with (2 ^ 31 - 1) in Htot.
  destruct (wmedian_sorted l (Quorum vv)) as (x & -> & Hx).
  - apply (StronglySorted_merge_sort seq_ge).
  - by rewrite Hperm.
  - lia.
  - rewrite Hsum. solve_width.
  - simpl. exists (ws_seq x). split; [done|]. rewrite Hperm in Hx. destruct Hx as [H1 H2].
    rewrite wsum_fmap in H1, H2. simpl in H1, H2.
    rewrite (wsum_positions (fun i => ws_seq x <=? cell n m v i)) in H1.
    rewrite (wsum_positions (fun i => ws_seq x <? cell n m v i)) in H2. done.
Qed.

(** ** The state of the indexer *)

Record qi_ok (h : QuorumIndexer S) : Prop := {
  qo_clock : vc_ok (qi_dagi h);
  qo_matrix : matrix_ok n (qi_globalMatrix h);
  qo_self : length (qi_selfParentSeqs h) = n;
  qo_medians : length (qi_globalMedianSeqs h) = n;
  qo_fresh : qi_dirty h = false -> forall v, (v < n)%nat -> exists x, qi_globalMedianSeqs h !! v = Some x /\
    quorum_median (fun c => cell n (qi_globalMatrix h) v (GetIdx vv c)) x
}.

Lemma recacheState_spec h : qi_ok h ->
  exists h', recacheState vv h = Ok h' /\ qi_ok h' /\ qi_dirty h' = false /\ qi_globalMatrix h' = qi_globalMatrix h /\
    qi_dagi h' = qi_dagi h /\ qi_selfParentSeqs h' = qi_selfParentSeqs h.
Proof.
  intros Hh. set (g := fun v => match row_median vv (qi_globalMatrix h) v with Ok x => x | _ => 0 end).
  assert (forall v, (v < n)%nat -> row_median vv (qi_globalMatrix h) v = Ok (g v) /\
    quorum_median (fun c => cell n (qi_globalMatrix h) v (GetIdx vv c)) (g v)) as Hg.
  { intros v Hv. destruct (row_median_spec _ v (qo_matrix _ Hh) Hv) as (x & Hx & Hm). unfold g. by rewrite Hx. }
  unfold recacheState. change (val_len vv) with n.
  destruct (foldM_fill (fun medians v => let* x := row_median vv (qi_globalMatrix h) v in
    if (v <? length medians)%nat then Ok (<[v:=x]> medians) else Panic "index out of range") g n (qi_globalMedianSeqs h))
    as (r & -> & Hlr & Hr); [apply Hh| |].
  { intros l v Hv Hl. rewrite (proj1 (Hg v Hv)). simpl. by rewrite (proj2 (Nat.ltb_lt v (length l))) by lia. }
  cbn [outcome_bind]. change (Cache_New 128 128) with (Ok (mk_Cache (K := Z) (V := Z) 128 0 128 [] ∅ ∅)). cbn [outcome_bind].
  eexists. split; [done|]. split; [|done]. split; try apply Hh; [done|].
  intros _ v Hv. exists (g v). split; [by apply Hr|by apply Hg].
Qed.

Lemma fresh_state_spec h : qi_ok h ->
  exists h', fresh_state vv h = Ok h' /\ qi_ok h' /\ qi_dirty h' = false /\ qi_globalMatrix h' = qi_globalMatrix h /\
    qi_dagi h' = qi_dagi h /\ qi_selfParentSeqs h' = qi_selfParentSeqs h.
Proof.
  intros Hh. unfold fresh_state. destruct (qi_dirty h) eqn:Hd; [by apply recacheState_spec|]. by exists h.
Qed.

(** The column of the creator takes the clock of the event. *)
Lemma process_cells clock c self : (c < n)%nat -> forall k m sp, (k <= n)%nat -> matrix_ok n m -> length sp = n ->
  exists m' sp', foldM (process_cell clock c self) (m, sp) (seq 0 k) = Ok (m', sp') /\ matrix_ok n m' /\ length sp' = n /\
    (forall v j, (v < n)%nat -> (j < n)%nat -> cell n m' v j = if decide (v < k /\ j = c)%nat then seqOf (clock v) else cell n m v j) /\
    (forall v, sp' !! v = if decide (v < k)%nat then if self then Some (seqOf (clock v)) else sp !! v else sp !! v).
Proof.
  intros Hc. induction k as [|k IH]; intros m sp Hk Hm Hsp.
  { exists m, sp. splits; try done; intros; by rewrite decide_False by lia. }
  destruct (IH m sp ltac:(lia) Hm Hsp) as (m1 & sp1 & Hf & Hm1 & Hsp1 & Hcell & Hself).
  rewrite seq_S, foldM_app, Hf, Nat.add_0_l. cbn [outcome_bind foldM].
  unfold process_cell at 1. cbn [fst snd].
  destruct (Row_Set_cell n m1 k c (seqOf (clock k)) Hm1 ltac:(lia) Hc) as (m2 & -> & Hm2 & Hcell2). cbn [outcome_bind].
  assert (forall v j, (v < n)%nat -> (j < n)%nat ->
    cell n m2 v j = if decide (v < Datatypes.S k /\ j = c)%nat then seqOf (clock v) else cell n m v j) as Hcells.
  { intros v j Hv Hj. rewrite Hcell2, Hcell by done. destruct (decide (v = k /\ j = c)) as [[-> ->]|Hne].
    - by rewrite decide_True by lia.
    - destruct (decide (v < k /\ j = c)%nat); [rewrite decide_True by lia|rewrite decide_False by lia]; done. }
  destruct self.
  - rewrite (proj2 (Nat.ltb_lt k (length sp1))) by lia. eexists _, _. split; [done|].
    splits; [done|by rewrite length_insert|done|]. intros v. destruct (decide (v = k)) as [->|Hne].
    + rewrite list_lookup_insert_eq by lia. by rewrite decide_True by lia.
    + rewrite list_lookup_insert_ne, Hself by done. destruct (decide (v < k)%nat); [rewrite decide_True by lia|rewrite decide_False by lia]; done.
  - eexists _, _. split; [done|]. splits; try done. intros v. rewrite Hself. by repeat case_decide.
Qed.

Lemma qi_ProcessEvent_spec h e self :
  qi_ok h -> vc_known (qi_dagi h) (e_id e) -> e_creator e ∈ SortedIDs vv ->
  exists h', qi_ProcessEvent vv h e self = Ok h' /\ qi_ok h' /\
    (forall x, vc_known (qi_dagi h') x <-> vc_known (qi_dagi h) x) /\ (forall x i, vc_seq (qi_dagi h') x i = vc_seq (qi_dagi h) x i) /\
    (forall v c, (v < n)%nat -> c ∈ SortedIDs vv ->
       cell n (qi_globalMatrix h') v (GetIdx vv c) =
       if decide (c = e_creator e) then vc_seq (qi_dagi h) (e_id e) v else cell n (qi_globalMatrix h) v (GetIdx vv c)) /\
    (self = true -> forall v, (v < n)%nat -> qi_selfParentSeqs h' !! v = Some (vc_seq (qi_dagi h) (e_id e) v)).
Proof.
  intros Hh Hk Hc. destruct (vc_get _ _ (qo_clock _ Hh) Hk) as (d & clock & Hget & Hd & Hkn & Hsq).
  assert (forall v, seqOf (clock v) = vc_seq (qi_dagi h) (e_id e) v) as Hclk by (intros v; unfold vc_seq; by rewrite Hget).
  unfold qi_ProcessEvent. rewrite Hget. cbn [outcome_bind]. change (val_len vv) with n.
  destruct (process_cells clock (GetIdx vv (e_creator e)) self (GetIdx_lt _ Hc) n (qi_globalMatrix h) (qi_selfParentSeqs h))
    as (m & sp & -> & Hm & Hsp & Hcell & Hself); [done|apply Hh..|].
  simpl. eexists. split; [done|]. split; [|splits; simpl; [done|done| |]].
  - split; simpl; [done|done|done|apply Hh|done].
  - intros v c Hv Hcin. rewrite Hcell by (done || by apply GetIdx_lt).
    destruct (decide (c = e_creator e)) as [->|Hne]; [rewrite decide_True by done; apply Hclk|].
    rewrite decide_False; [done|]. intros [_ Heq]. apply Hne.
    apply (GetIdx_in vv Hwf) in Hcin, Hc. rewrite Heq in Hcin. congruence.
  - intros -> v Hv. rewrite Hself, decide_True by done. by rewrite Hclk.
Qed.

Lemma NewQuorumIndexer_ok d : vc_ok d -> qi_ok (NewQuorumIndexer vv d) /\
  forall v c, (v < n)%nat -> c ∈ SortedIDs vv -> cell n (qi_globalMatrix (NewQuorumIndexer vv d)) v (GetIdx vv c) = 0.
Proof.
  intros Hd. assert (u32 (Z.of_nat n * Z.of_nat n) = Z.of_nat (n * n)) as Hn by (rewrite <- Nat2Z.inj_mul; apply u32_small; solve_width).
  split.
  - split; simpl; [done| |by rewrite length_replicate..|done]. unfold matrix_ok, NewMatrix. simpl.
    change (val_len vv) with n. rewrite length_replicate, Hn. splits; [done|lia|done].
  - intros v c _ _. unfold cell. simpl. change (val_len vv) with n. rewrite Hn, Nat2Z.id.
    destruct (replicate (n * n) 0 !! _) as [x|] eqn:E; [|done]. by apply lookup_replicate in E as [-> _].
Qed.

(** The clock of the last event of a validator, zero before its first. *)
Definition observed_by (d : S) (es : list (BaseEvent * bool)) (v : nat) (c : Z) : Z :=
  match last (filter (fun es => e_creator es.1 = c) es) with Some e => vc_seq d (e_id e.1) v | None => 0 end.

Definition process_all (h : QuorumIndexer S) (es : list (BaseEvent * bool)) : outcome (QuorumIndexer S) :=
  foldM (fun h e => qi_ProcessEvent vv h e.1 e.2) h es.

Lemma process_all_spec d es :
  vc_ok d -> Forall (fun e => vc_known d (e_id e.1) /\ e_creator e.1 ∈ SortedIDs vv) es ->
  exists h, process_all (NewQuorumIndexer vv d) es = Ok h /\ qi_ok h /\
    (forall x, vc_known (qi_dagi h) x <-> vc_known d x) /\ (forall x i, vc_seq (qi_dagi h) x i = vc_seq d x i) /\
    forall v c, (v < n)%nat -> c ∈ SortedIDs vv -> cell n (qi_globalMatrix h) v (GetIdx vv c) = observed_by d es v c.
Proof.
  intros Hd. induction es as [|[e self] es IH] using rev_ind; intros Hes.
  { exists (NewQuorumIndexer vv d). destruct (NewQuorumIndexer_ok d Hd) as [? ?]. by splits. }
  apply Forall_app in Hes as [Hes He]. apply Forall_cons in He as [[Hk Hc] _]. simpl in Hk, Hc.
  destruct (IH Hes) as (h & Hr & Hh & Hkn & Hsq & Hcell). unfold process_all in *. rewrite foldM_app, Hr. simpl.
  destruct (qi_ProcessEvent_spec h e self Hh) as (h' & -> & Hh' & Hkn' & Hsq' & Hcell' & _); [by apply Hkn|done|].
  simpl. exists h'. splits; [done|done|intros x; by rewrite Hkn', Hkn|intros x i; by rewrite Hsq', Hsq|].
  intros v c Hv Hcin. rewrite Hcell', Hcell, Hsq by done. unfold observed_by. rewrite filter_app, filter_cons, filter_nil. simpl.
  destruct (decide (c = e_creator e)) as [->|Hne].
  - rewrite decide_True by done. by rewrite last_snoc.
  - rewrite decide_False by done. by rewrite app_nil_r.
Qed.
End indexer_correct.

(** ** The vector index is such a clock *)

Section engine_clock.
Context {bytes : Type} `{!BranchesInfoRlp bytes} `{!BranchesInfoRlpLaws bytes}.
Implicit Types vi : vecfc_Engine (bytes := bytes).

Lemma GetMerged_again vi vi' bi x :
  InitBranchesInfo vi = Ok (vi', bi) -> en_bi vi' = Some bi -> GetMergedHighestBefore vi' x = GetMergedHighestBefore vi x.
Proof. intros Hi Hb. unfold GetMergedHighestBefore. rewrite Hi. unfold InitBranchesInfo at 1. by rewrite Hb. Qed.

#[export] Instance VectorToDagIndexer_laws : VectorClockLaws (vecfc_Engine (bytes := bytes)).
Proof.
  split. intros vi id (vv & epoch & Df & D & Hwf & Hinv) [v Hv].
  destruct (Init_inv vv epoch Df D vi Hinv) as (vi' & bi & Hi & Hinv' & Hbi & _ & _).
  assert (en_db vi' = en_db vi) as Hdb.
  { revert Hi. unfold InitBranchesInfo. destruct (en_bi vi); [by intros [= -> _]|].
    destruct (getBranchesInfo (en_db vi)); simpl; [|done..]. by intros [= <- _]. }
  assert (exists m, GetMergedHighestBefore vi id = Ok (vi', Some m)) as [m Hm].
  { unfold GetMergedHighestBefore. rewrite Hi. cbn [outcome_bind]. rewrite Hdb, Hv. destruct (AtLeastOneFork _ _); eauto. }
  exists vi', (HB_Get m). simpl. rewrite Hm. split; [done|]. split; [by exists vv, epoch, Df, D|]. split; [by rewrite Hdb|].
  intros x i. unfold vc_seq. simpl. by rewrite (GetMerged_again vi vi' bi x Hi Hbi).
Qed.
End engine_clock.

(** ** Choosing parents *)

Lemma imap_pair_app {A} (l1 l2 : list A) : imap pair (l1 ++ l2) = imap pair l1 ++ imap (fun i => pair (length l1 + i)%nat) l2.
Proof. apply imap_app. Qed.

(** The metric strategy takes an option of the greatest metric. *)
Lemma MetricStrategy_best {St} (metricFn : St -> Z -> outcome (Z * St)) (inv : St -> Prop) (f : Z -> Z) (options ps : list Z) st :
  (forall st id, inv st -> id ∈ options -> exists st', metricFn st id = Ok (f id, st') /\ inv st') ->
  inv st -> options <> [] -> (forall q, 0 <= f q) ->
  exists i st' p, MetricStrategy_Choose metricFn st ps options = Ok (i, st') /\ inv st' /\ options !! i = Some p /\
    forall q, q ∈ options -> f q <= f p.
Proof.
  intros Hm Hst Hne Hf. unfold MetricStrategy_Choose.
  assert (forall l, l `prefix_of` options -> exists i w st', foldM (choose_step metricFn) (0%nat, 0, st) (imap pair l) = Ok (i, w, st') /\ inv st' /\
    (l = [] /\ w = 0 \/ exists p, l !! i = Some p /\ w = f p /\ forall q, q ∈ l -> f q <= w)) as Hl.
  { induction l as [|x l IH] using rev_ind; intros Hpre; [exists 0%nat, 0, st; auto|].
    destruct IH as (i & w & st1 & Hr & Hst1 & Hc); [etrans; [by apply prefix_app_r|done]|].
    rewrite imap_pair_app, foldM_app, Hr. simpl. rewrite Nat.add_0_r.
    destruct (Hm st1 x Hst1) as (st2 & -> & Hst2); [eapply elem_of_prefix; [|done]; set_solver|]. simpl.
    assert ((l ++ [x]) !! length l = Some x) as Hlast by (by rewrite lookup_app_r, Nat.sub_diag).
    destruct ((w =? 0) || (w <? f x)) eqn:E; (eexists _, _, _; split; [done|]; split; [done|]; right).
    - exists x. split; [done|]. split; [done|]. intros q [Hq| ->%list_elem_of_singleton]%elem_of_app; [|done].
      destruct Hc as [[-> _]|(p & _ & _ & Hc)]; [by apply not_elem_of_nil in Hq|]. specialize (Hc q Hq). specialize (Hf x).
      bool_to_prop. lia.
    - bool_to_prop. destruct Hc as [[-> ->]|(p & Hp & -> & Hc)]; [lia|]. exists p. split; [by apply lookup_app_l_Some|]. split; [done|].
      intros q [Hq| ->%list_elem_of_singleton]%elem_of_app; [by apply Hc|lia]. }
  destruct (Hl options) as (i & w & st' & -> & Hst' & Hc); [done|]. destruct Hc as [[? _]|(p & Hp & -> & Hc)]; [done|].
  simpl. by exists i, st', p.
Qed.

Section choose_correct.
Context {St : Type} (Slice : gset Z -> list Z) (HSlice : forall s, Slice s ≡ₚ elements s).
Context (inv : St -> Prop) (best : list Z -> Z -> Prop).
Abbreviation strategy := (St -> list Z -> list Z -> outcome (nat * St)).

(** A strategy that succeeds on non-empty options with a best one of them. *)
Definition chooses (c : strategy) (all : gset Z) : Prop := forall st ps options,
  inv st -> options <> [] -> (forall q, q ∈ options -> q ∈ all) ->
  exists i st' p, c st ps options = Ok (i, st') /\ inv st' /\ options !! i = Some p /\ best options p.

Lemma choose_loop_spec all (strategies : list strategy) : forall st (s : gset Z) parents,
  Forall (fun c => chooses c all) strategies -> inv st -> s ⊆ all ->
  exists chosen st', choose_loop Slice strategies st s parents = Ok (parents ++ chosen, st') /\ inv st' /\
    NoDup chosen /\ (forall p, p ∈ chosen -> p ∈ s) /\ length chosen = Nat.min (length strategies) (size s) /\
    forall k p, chosen !! k = Some p -> exists options, options ≡ₚ elements (s ∖ list_to_set (take k chosen)) /\ best options p.
Proof.
  induction strategies as [|c strategies IH]; intros st s parents Hc Hst Hs; simpl.
  { exists [], st. rewrite app_nil_r. splits; try done; [constructor|]. by intros p ?%not_elem_of_nil. }
  apply Forall_cons in Hc as [Hc Hcs]. case_bool_decide as He.
  { exists [], st. rewrite app_nil_r, He, size_empty. splits; try done; [constructor|]. by intros p ?%not_elem_of_nil. }
  destruct (Hc st parents (Slice s) Hst) as (i & st1 & p & -> & Hst1 & Hp & Hbest).
  { intros Hnil. pose proof (HSlice s) as Hperm. rewrite Hnil in Hperm. apply Permutation_nil_l in Hperm.
    apply He, set_eq. intros q. rewrite <- elem_of_elements, <- Hperm. set_solver. }
  { intros q. rewrite (HSlice s), elem_of_elements. by apply Hs. }
  simpl. rewrite (index_lookup _ _ _ Hp). simpl.
  assert (p ∈ s) as Hps by (apply elem_of_elements; rewrite <- (HSlice s); by eapply list_elem_of_lookup_2).
  destruct (IH st1 (s ∖ {[p]}) (parents ++ [p]) Hcs Hst1 ltac:(set_solver)) as (chosen & st2 & Hr & Hst2 & Hnd & Hin & Hlen & Hb).
  unfold EventsSet_Erase. simpl. rewrite Hr. exists (p :: chosen), st2. rewrite <- app_assoc. splits; [done|done| | | |].
  - constructor; [|done]. intros Hpc. apply Hin in Hpc. set_solver.
  - intros q [->|Hq]%elem_of_cons; [done|]. apply Hin in Hq. set_solver.
  - change (Datatypes.S (length chosen) = Nat.min (Datatypes.S (length strategies)) (size s)).
    rewrite Hlen, size_difference, size_singleton by set_solver. assert (0 < size s)%nat; [|lia].
    apply Nat.neq_0_lt_0. intros Hz%size_empty_inv. set_solver.
  - intros [|k] q Hq; simpl in *.
    + injection Hq as <-. exists (Slice s). split; [|done]. rewrite HSlice. f_equiv. set_solver.
    + destruct (Hb k q Hq) as (options & Hperm & Hbst). exists options. split; [|done]. rewrite Hperm. f_equiv. set_solver.
Qed.
End choose_correct.

(** ** The metric of the indexer *)

Section metric_correct.
Context {S : Type} `{!VectorClock S} `{!VectorClockLaws S} (vv : Validators) (Hwf : wf vv) (diff : Z -> Z -> Z -> nat -> Z).
Hypothesis Hsmall : Z.of_nat (Validators_Len vv * Validators_Len vv) <= MaxUint32.
Abbreviation n := (Validators_Len vv).

(** What [GetMetricOf] computes from the medians, the self-parent and the clock. *)
Definition metric (h : QuorumIndexer S) (id : Z) : Z :=
  foldl (fun m v => u64 (m + diff (default 0 (qi_globalMedianSeqs h !! v)) (default 0 (qi_selfParentSeqs h !! v)) (vc_seq (qi_dagi h) id v) v))
    0 (seq 0 n).

Lemma metric_nonneg h id : 0 <= metric h id.
Proof. unfold metric. induction (seq 0 n) as [|v l IH] using rev_ind; [done|]. rewrite foldl_app. apply u64_range. Qed.

(** The indexer [h0] with other metric caches. *)
Record settled (g : nat) (h0 h : QuorumIndexer S) : Prop := {
  se_ok : qi_ok vv h;
  se_fresh : qi_dirty h = false;
  se_medians : qi_globalMedianSeqs h = qi_globalMedianSeqs h0;
  se_self : qi_selfParentSeqs h = qi_selfParentSeqs h0;
  se_clock : forall x i, vc_seq (qi_dagi h) x i = vc_seq (qi_dagi h0) x i;
  se_known : forall x, vc_known (qi_dagi h) x <-> vc_known (qi_dagi h0) x;
  se_cache : exists c, qi_caches h !! g = Some c /\ cache_wf c /\ forall id m, Cache_Peek c id = Some m -> m = metric h0 id
}.

Lemma metric_settled g h0 h id : settled g h0 h -> metric h id = metric h0 id.
Proof.
  intros Hs. unfold metric. rewrite (se_medians _ _ _ Hs), (se_self _ _ _ Hs). apply foldl_ext_all.
  intros z v. by rewrite (se_clock _ _ _ Hs).
Qed.

Lemma foldM_metric (h : QuorumIndexer S) clock l : forall z,
  (forall v, v ∈ l -> (v < n)%nat) -> length (qi_selfParentSeqs h) = n -> length (qi_globalMedianSeqs h) = n ->
  foldM (fun metric v =>
    let* current := index (qi_selfParentSeqs h) v in
    let* median := index (qi_globalMedianSeqs h) v in
    Ok (u64 (metric + diff median current (seqOf (clock v)) v))) z l =
  Ok (foldl (fun m v => u64 (m + diff (default 0 (qi_globalMedianSeqs h !! v)) (default 0 (qi_selfParentSeqs h !! v)) (seqOf (clock v)) v)) z l).
Proof.
  induction l as [|v l IH]; intros z Hl Hs Hm; [done|]. simpl. assert (v < n)%nat as Hv by (apply Hl; left).
  destruct (lookup_lt_is_Some_2 (qi_selfParentSeqs h) v) as [a Ha]; [by rewrite Hs|].
  destruct (lookup_lt_is_Some_2 (qi_globalMedianSeqs h) v) as [b Hb]; [by rewrite Hm|].
  rewrite (index_lookup _ _ _ Ha), (index_lookup _ _ _ Hb), Ha, Hb. simpl. apply IH; [|done..]. intros x Hx. apply Hl. by right.
Qed.

Lemma qi_GetMetricOf_spec g h0 h id : settled g h0 h -> vc_known (qi_dagi h) id ->
  exists h', qi_GetMetricOf vv diff h id = Ok (metric h0 id, h') /\ settled g h0 h' /\ qi_caches h' = qi_caches h.
Proof.
  intros Hs Hk. destruct (vc_get _ _ (qo_clock _ _ (se_ok _ _ _ Hs)) Hk) as (d & clock & Hget & Hd & Hkn & Hsq).
  unfold qi_GetMetricOf, fresh_state. rewrite (se_fresh _ _ _ Hs). cbn [outcome_bind]. rewrite Hget. cbn [outcome_bind].
  change (val_len vv) with n. rewrite foldM_metric; [|intros v Hv%elem_of_seq; lia|apply Hs..]. simpl. eexists. split; [|split].
  - do 2 f_equal. rewrite <- (metric_settled g h0 h id Hs). apply foldl_ext_all. intros z v.
    unfold vc_seq. by rewrite Hget.
  - destruct Hs as [Hok Hf Hm Hsp Hc Hkw Hca]. split; simpl; try done.
    + split; simpl; [done|apply Hok..].
    + intros x i. by rewrite Hsq, Hc.
    + intros x. by rewrite Hkn.
  - done.
Qed.

Lemma cached_GetMetricOf_spec g h0 h id : settled g h0 h -> vc_known (qi_dagi h0) id ->
  exists h', cached_GetMetricOf vv diff g h id = Ok (metric h0 id, h') /\ settled g h0 h'.
Proof.
  intros Hs Hk. destruct (se_cache _ _ _ Hs) as (c & Hc & Hcwf & Hpeek). assert (g < length (qi_caches h))%nat as Hg by (by eapply lookup_lt_Some).
  unfold cached_GetMetricOf. rewrite (index_lookup _ _ _ Hc). cbn [outcome_bind].
  destruct (Get_spec c id Hcwf) as (Hget & Hcwf' & _ & Hpeek'). destruct (Cache_Get c id) as [m c'] eqn:E. simpl in Hget, Hcwf', Hpeek'.
  set (h1 := mk_QuorumIndexer _ _ _ _ _ _). assert (settled g h0 h1) as Hs1.
  { destruct Hs as [Hok Hf Hm Hsp Hcl Hkw Hca]. split; simpl; try done; [by split; apply Hok|].
    exists c'. rewrite list_lookup_insert_eq by done. split; [done|]. split; [done|]. intros x y. rewrite Hpeek'. apply Hpeek. }
  destruct m as [m|].
  - exists h1. split; [|done]. do 2 f_equal. apply Hpeek. by symmetry.
  - destruct (qi_GetMetricOf_spec g h0 h1 id Hs1) as (h2 & -> & Hs2 & Hc2); [by apply (se_known _ _ _ Hs1)|]. cbn [outcome_bind].
    rewrite Hc2. simpl. rewrite (index_lookup _ g c') by (by apply list_lookup_insert_eq). cbn [outcome_bind].
    destruct (Cache_Add_spec c' id (metric h0 id) 1 Hcwf' ltac:(lia)) as (ev & c3 & Ha & Hwf3 & _). rewrite Ha. cbn [outcome_bind].
    eexists. split; [done|]. destruct Hs2 as [Hok Hf Hm Hsp Hcl Hkw Hca]. split; simpl; try done; [by split; apply Hok|].
    exists c3. rewrite list_lookup_insert_eq by (rewrite ?Hc2; simpl; by rewrite ?length_insert). split; [done|]. split; [done|].
    intros x y Hp. destruct (Add_Peek c' id (metric h0 id) 1 ev c3 x y Hcwf' ltac:(lia) Ha Hp) as [[-> ->]|[_ Hp']]; [done|].
    apply Hpeek. by rewrite <- Hpeek'.
Qed.

Lemma SearchStrategy_settled h : qi_ok vv h -> qi_dirty h = true ->
  exists g h1, SearchStrategy vv h = Ok (g, h1) /\ settled g h1 h1 /\ (forall x, vc_known (qi_dagi h1) x <-> vc_known (qi_dagi h) x).
Proof.
  intros Hh Hd. unfold SearchStrategy, fresh_state. rewrite Hd.
  destruct (recacheState_spec vv Hwf Hsmall h Hh) as (h1 & Hr & Hh1 & Hd1 & _ & Hdag & _). rewrite Hr. simpl.
  exists (pred (length (qi_caches h1))), h1. split; [done|]. split; [|by rewrite Hdag]. split; try done.
  assert (exists cs, qi_caches h1 = cs ++ [mk_Cache 128 0 128 [] ∅ ∅]) as [cs Hcs].
  { revert Hr. unfold recacheState. destruct (foldM _ _ _); simpl; [|done..]. intros [= <-]. simpl. eauto. }
  exists (mk_Cache 128 0 128 [] ∅ ∅). rewrite Hcs, length_app. simpl. replace (pred (length cs + 1)) with (length cs) by lia.
  split; [by rewrite lookup_app_r, Nat.sub_diag|]. split; [by apply empty_cache_wf|]. done.
Qed.

Lemma metric_chooses g h0 (options : gset Z) : (forall p, p ∈ options -> vc_known (qi_dagi h0) p) ->
  chooses (settled g h0) (fun l p => forall q, q ∈ l -> metric h0 q <= metric h0 p)
    (MetricStrategy_Choose (cached_GetMetricOf vv diff g)) options.
Proof.
  intros Hk st ps l Hst Hne Hl. apply (MetricStrategy_best _ (settled g h0) (metric h0)); [|done|done|apply metric_nonneg].
  intros st1 id Hst1 Hid. apply cached_GetMetricOf_spec; [done|]. by apply Hk, Hl.
Qed.
End metric_correct.

Lemma erase_all (s : gset Z) (l : list Z) : foldl (fun s p => EventsSet_Erase s [p]) s l = s ∖ list_to_set l.
Proof.
  revert s. induction l as [|p l IH]; intros s; simpl; [set_solver|]. rewrite IH. unfold EventsSet_Erase. simpl. set_solver.
Qed.

(** ** The waiting times *)

Definition waits (r : Z * option string) : Prop := 0 <= r.1 /\ (r.1 = 0 <-> r.2 = None).

Lemma wait_since_spec s threshold t err m :
  0 < threshold <= 2 ^ 62 -> 0 <= t <= Now s -> Now s < 2 ^ 62 -> waits m ->
  waits (wait_since s threshold t err m) /\ (wait_since s threshold t err m).1 = Z.max m.1 (threshold - (Now s - t)).
Proof.
  intros Hth Ht Hnow [Hm0 Hm]. assert (Since s t = Now s - t) as Hs by (unfold Since, time_Sub, min_duration, max_duration; lia).
  unfold wait_since. rewrite Hs. destruct (Now s - t <? threshold) eqn:E; bool_to_prop; [|split; [done|lia]].
  assert (i64 (threshold - (Now s - t)) = threshold - (Now s - t)) as ->.
  { unfold i64. rewrite Z.mod_small by lia. lia. }
  unfold maxWait_apply. destruct (m.1 <? _) eqn:E2; bool_to_prop; simpl; (split; [|lia]); [|done]. split; simpl; [lia|]. split; [lia|done].
Qed.

(** The latest of the moments that matter. *)
Definition last_moment (s : SyncStatus) : Z :=
  Z.max (P2PSynced s) (Z.max (LastConnected s) (Z.max (BecameValidator s) (Z.max (ExternalSelfEventCreated s) (ExternalSelfEventDetected s)))).

Lemma SyncedToEmit_spec s threshold :
  0 < threshold <= 2 ^ 62 -> Now s < 2 ^ 62 ->
  Forall (fun t => 0 <= t <= Now s) [P2PSynced s; LastConnected s; BecameValidator s; ExternalSelfEventCreated s; ExternalSelfEventDetected s] ->
  PeersNum s <> 0 -> P2PSynced s <> 0 ->
  waits (SyncedToEmit s threshold) /\ (SyncedToEmit s threshold).1 = Z.max 0 (threshold - (Now s - last_moment s)).
Proof.
  intros Hth Hnow Ht Hp Hs. do 5 (apply Forall_cons in Ht as [? Ht]). unfold SyncedToEmit.
  rewrite (proj2 (Z.eqb_neq _ _) Hp), (proj2 (Z.eqb_neq _ _) Hs).
  assert (waits (0, None)) as Hw0 by done.
  repeat match goal with
  | Hm : waits ?m |- context [wait_since s threshold ?t ?err ?m] =>
      let H1 := fresh in let H2 := fresh in
      destruct (wait_since_spec s threshold t err m Hth ltac:(lia) Hnow Hm) as [H1 H2];
      generalize dependent (wait_since s threshold t err m); intros
  end.
  split; [done|]. unfold last_moment. simpl in *. lia.
Qed.

(** ** Properties *)

(** C34: after any sequence of processed events the indexer answers, for every
    validator, the weighted median of what the last events of the validators
    observe of it: a quorum observes it up to there, no quorum further. *)
Theorem medians_correct {S : Type} `{!VectorClock S} `{!VectorClockLaws S} (vv : Validators) (d : S) (es : list (BaseEvent * bool)) :
  wf vv -> Z.of_nat (Validators_Len vv * Validators_Len vv) <= MaxUint32 -> vc_ok d ->
  Forall (fun e => vc_known d (e_id e.1) /\ e_creator e.1 ∈ SortedIDs vv) es ->
  exists h ms h', process_all vv (NewQuorumIndexer vv d) es = Ok h /\ GetGlobalMedianSeqs vv h = Ok (ms, h') /\
    forall v, (v < Validators_Len vv)%nat -> exists m, ms !! v = Some m /\
      is_quorum vv (fun c => m <=? observed_by d es v c) /\ ~ is_quorum vv (fun c => m <? observed_by d es v c).
Proof.
  intros Hwf Hn Hd Hes. destruct (process_all_spec vv Hwf Hn d es Hd Hes) as (h & Hr & Hh & _ & _ & Hcell).
  destruct (fresh_state_spec vv Hwf Hn h Hh) as (h' & Hf & Hh' & Hdirty & Hmat & _).
  exists h, (qi_globalMedianSeqs h'), h'. split; [done|]. unfold GetGlobalMedianSeqs. rewrite Hf. split; [done|].
  intros v Hv. destruct (qo_fresh _ _ Hh' Hdirty v Hv) as (m & Hm & H1 & H2). exists m. split; [done|].
  rewrite Hmat in H1, H2. unfold is_quorum.
  assert (forall P : Z -> bool, weight_of vv (fun c => P (observed_by d es v c)) =
    weight_of vv (fun c => P (cell (Validators_Len vv) (qi_globalMatrix h) v (GetIdx vv c)))) as Hw.
  { intros P. apply weight_of_ext. intros c Hc. by rewrite Hcell. }
  rewrite (Hw (fun x => m <=? x)), (Hw (fun x => m <? x)).
  split; [done|lia].
Qed.

(** C35: with the strategy of the indexer, taken several times, the chosen parents
    are the given ones followed by distinct other options, as many as there are
    strategies or options left, and each is the best by the metric of those left. *)
Theorem ChooseParents_by_metric {S : Type} `{!VectorClock S} `{!VectorClockLaws S} (vv : Validators) (diff : Z -> Z -> Z -> nat -> Z)
    (Slice : gset Z -> list Z) (d : S) (es : list (BaseEvent * bool)) (existingParents options : list Z) (k : nat) :
  wf vv -> Z.of_nat (Validators_Len vv * Validators_Len vv) <= MaxUint32 -> vc_ok d -> (forall s, Slice s ≡ₚ elements s) -> es <> [] ->
  Forall (fun e => vc_known d (e_id e.1) /\ e_creator e.1 ∈ SortedIDs vv) es -> (forall p, p ∈ options -> vc_known d p) ->
  exists h g h1 chosen h2, process_all vv (NewQuorumIndexer vv d) es = Ok h /\ SearchStrategy vv h = Ok (g, h1) /\
    ChooseParents Slice h1 existingParents options (replicate k (MetricStrategy_Choose (cached_GetMetricOf vv diff g))) =
      Ok (existingParents ++ chosen, h2) /\
    NoDup chosen /\ (forall p, p ∈ chosen -> p ∈ options /\ p ∉ existingParents) /\
    length chosen = Nat.min k (size (list_to_set options ∖ list_to_set existingParents : gset Z)) /\
    forall i p, chosen !! i = Some p -> forall q, q ∈ options -> q ∉ existingParents -> q ∉ take i chosen ->
      metric vv diff h1 q <= metric vv diff h1 p.
Proof.
  intros Hwf Hn Hd HSlice Hne Hes Hopt. destruct (process_all_spec vv Hwf Hn d es Hd Hes) as (h & Hr & Hh & Hkn & _ & _).
  assert (qi_dirty h = true) as Hdirty.
  { revert Hr. destruct es as [|e es _] using rev_ind; [done|]. unfold process_all. rewrite foldM_app.
    destruct (foldM _ _ es) as [h0| |]; simpl; [|done..]. unfold qi_ProcessEvent.
    destruct (vc_GetMergedHighestBefore _ _) as [[d0 c0]| |]; simpl; [|done..]. destruct (foldM _ _ _) as [[m sp]| |]; simpl; [|done..]. by intros [= <-]. }
  destruct (SearchStrategy_settled vv Hwf diff Hn h Hh Hdirty) as (g & h1 & Hs & Hset & Hkn1).
  set (all := list_to_set options ∖ list_to_set existingParents : gset Z).
  destruct (choose_loop_spec Slice HSlice (settled vv diff g h1) (fun l p => forall q, q ∈ l -> metric vv diff h1 q <= metric vv diff h1 p)
    all (replicate k (MetricStrategy_Choose (cached_GetMetricOf vv diff g))) h1 all existingParents) as (chosen & h2 & Hc & _ & Hnd & Hin & Hlen & Hbest);
    [|done|done|].
  { apply Forall_replicate, metric_chooses; [done..|]. intros p Hp. apply Hkn1, Hkn, Hopt. set_solver. }
  exists h, g, h1, chosen, h2. splits; [done|done| |done| |by rewrite Hlen, length_replicate|].
  - unfold ChooseParents. by rewrite erase_all, list_to_set_Events_Set.
  - intros p Hp%Hin. unfold all in Hp. set_solver.
  - intros i p Hp q Hq1 Hq2 Hq3. destruct (Hbest i p Hp) as (l & Hl & Hb). apply Hb. rewrite Hl, elem_of_elements. unfold all. set_solver.
Qed.

(** A node that is told to wait is told the least duration: after it, other
    things being equal, it may emit, and not before. *)
Theorem SyncedToEmit_waits (s : SyncStatus) (threshold wait : Z) (err : string) :
  0 < threshold <= 2 ^ 62 -> Now s < 2 ^ 62 ->
  Forall (fun t => 0 <= t <= Now s) [P2PSynced s; LastConnected s; BecameValidator s; ExternalSelfEventCreated s; ExternalSelfEventDetected s] ->
  PeersNum s <> 0 -> P2PSynced s <> 0 -> SyncedToEmit s threshold = (wait, Some err) ->
  0 < wait <= threshold /\
  forall later, 0 <= later -> Now s + later < 2 ^ 62 ->
    let s' := mk_SyncStatus (PeersNum s) (Now s + later) (Startup s) (LastConnected s) (P2PSynced s) (BecameValidator s)
                (ExternalSelfEventCreated s) (ExternalSelfEventDetected s) in
    (SyncedToEmit s' threshold = (0, None) <-> wait <= later).
Proof.
  intros Hth Hnow Ht Hp Hs Hr. destruct (SyncedToEmit_spec s threshold Hth Hnow Ht Hp Hs) as [[Hw1 Hw2] Hw3]. rewrite Hr in Hw1, Hw2, Hw3. simpl in Hw1, Hw2, Hw3.
  assert (wait <> 0) as Hne by (intros ->; discriminate (proj1 Hw2 eq_refl)).
  assert (last_moment s <= Now s) as Hlast by (do 5 (apply Forall_cons in Ht as [? Ht]); unfold last_moment; lia).
  split; [lia|]. intros later Hl Hl2 s'.
  destruct (SyncedToEmit_spec s' threshold) as [[H1 H2] H3]; try done.
  { do 5 (apply Forall_cons in Ht as [? Ht]). repeat constructor; simpl; lia. }
  simpl in H3. change (last_moment s') with (last_moment s) in H3. split.
  - intros Heq. rewrite Heq in H3. simpl in H3. lia.
  - intros Hge. destruct (SyncedToEmit s' threshold) as [w e]. simpl in *. assert (w = 0) as -> by lia. by rewrite (proj1 H2 eq_refl).
Qed.

(** ** Witnesses: the engine of one validator with two first events *)

Definition solo_events : list (BaseEvent * bool) := [(solo_first 101, true); (solo_first 102, false)].
Definition progress_metric (median current update : Z) (_ : nat) : Z := if update <=? Z.max median current then 0 else update - Z.max median current.

Lemma solo_clock_ok : vc_ok solo_engine2.
Proof.
  exists solo, 1, ∅, solo_fork. split; [apply solo_wf|]. apply (engine_reach_inv solo 1 ∅ solo_fork solo_engine2 solo_wf solo_reach2).
Qed.

Lemma solo_known (x : Z) : x ∈ [101; 102] -> vc_known solo_engine2 x.
Proof. intros Hx. list_cases; subst; vm_compute; by eexists. Qed.

Lemma solo_events_known : Forall (fun e : BaseEvent * bool => vc_known solo_engine2 (e_id e.1) /\ e_creator e.1 ∈ SortedIDs solo) solo_events.
Proof. repeat constructor; simpl; try (apply solo_known; set_solver); vm_compute; left. Qed.

(** The second event completes a fork: the clock of the last event is the mark
    of a fork, and so is the median. *)
Lemma medians_correct_witness :
  exists h ms h', process_all solo (NewQuorumIndexer solo solo_engine2) solo_events = Ok h /\ GetGlobalMedianSeqs solo h = Ok (ms, h') /\
    forall v, (v < Validators_Len solo)%nat -> exists m, ms !! v = Some m /\
      is_quorum solo (fun c => m <=? observed_by solo_engine2 solo_events v c) /\
      ~ is_quorum solo (fun c => m <? observed_by solo_engine2 solo_events v c).
Proof.
  apply (medians_correct solo solo_engine2 solo_events solo_wf ltac:(vm_compute; congruence) solo_clock_ok solo_events_known).
Defined.

Lemma ChooseParents_by_metric_witness :
  exists h g h1 chosen h2, process_all solo (NewQuorumIndexer solo solo_engine2) solo_events = Ok h /\ SearchStrategy solo h = Ok (g, h1) /\
    ChooseParents elements h1 [101] [101; 102] (replicate 2 (MetricStrategy_Choose (cached_GetMetricOf solo progress_metric g))) =
      Ok ([101] ++ chosen, h2) /\
    NoDup chosen /\ (forall p, p ∈ chosen -> p ∈ [101; 102] /\ p ∉ [101]) /\
    length chosen = Nat.min 2 (size (list_to_set [101; 102] ∖ list_to_set [101] : gset Z)) /\
    forall i p, chosen !! i = Some p -> forall q, q ∈ [101; 102] -> q ∉ [101] -> q ∉ take i chosen ->
      metric solo progress_metric h1 q <= metric solo progress_metric h1 p.
Proof.
  apply (ChooseParents_by_metric solo progress_metric elements solo_engine2 solo_events [101] [101; 102] 2 solo_wf
    ltac:(vm_compute; congruence) solo_clock_ok (fun s => Permutation_refl _) ltac:(done) solo_events_known solo_known).
Defined.

Lemma SyncedToEmit_waits_witness :
  let s := mk_SyncStatus 3 1000 10 400 900 20 30 950 in
  0 < 50 <= 100 /\
  forall later, 0 <= later -> 1000 + later < 2 ^ 62 ->
    let s' := mk_SyncStatus 3 (1000 + later) 10 400 900 20 30 950 in
    (SyncedToEmit s' 100 = (0, None) <-> 50 <= later).
Proof.
  apply (SyncedToEmit_waits (mk_SyncStatus 3 1000 10 400 900 20 30 950) 100 50 ErrSelfEventsOngoing);
    [lia|done|repeat constructor; simpl; lia|done|done|reflexivity].
Defined.
