(* ===== verification/Election.v ===== *)
(** * abft/election: the Atropos election

    [ProcessRoot] computes the votes of one root and decides subjects when a
    quorum of the roots it observes agree.  The event graph is seen through the
    two functions of the source, [observe] (forkless cause) and
    [getFrameRoots]. *)

From S2P Require Import Prelude Bytes Pos.
Local Open Scope go_scope.

(** ** abft/election/election.go *)

Record Slot := mk_Slot { s_Frame : Z; s_Validator : Z }.
Record RootAndSlot := mk_RootAndSlot { r_ID : Z; r_Slot : Slot }.

#[export] Instance Slot_eq_dec : EqDecision Slot.
Proof. solve_decision. Defined.
#[export] Instance RootAndSlot_eq_dec : EqDecision RootAndSlot.
Proof. solve_decision. Defined.
#[export] Instance RootAndSlot_countable : Countable RootAndSlot.
Proof.
  refine (inj_countable' (fun r => (r_ID r, s_Frame (r_Slot r), s_Validator (r_Slot r)))
    (fun t => mk_RootAndSlot t.1.1 (mk_Slot t.1.2 t.2)) _).
  by intros [id [f v]].
Defined.

Definition r_Frame (r : RootAndSlot) : Z := s_Frame (r_Slot r).
Definition r_Validator (r : RootAndSlot) : Z := s_Validator (r_Slot r).

Record voteValue := mk_voteValue { vote_decided : bool; vote_yes : bool; vote_observedRoot : Z }.

(** [hash.Event{}]: the zero value of a vote's root. *)
Definition zero_vote : voteValue := mk_voteValue false false 0.

Record Res := mk_Res { res_Frame : Z; res_Atropos : Z }.

Record Election := mk_Election {
  frameToDecide : Z;
  el_validators : Validators;
  decidedRoots : gmap Z voteValue;
  votes : gmap (RootAndSlot * Z) voteValue
}.

Definition Election_Reset (validators : Validators) (frame : Z) : Election :=
  mk_Election frame validators ∅ ∅.

Definition Election_New (validators : Validators) (frame : Z) : Election :=
  Election_Reset validators frame.

Definition notDecidedRoots (el : Election) : outcome (list Z) :=
  let l := filter (fun v => decidedRoots el !! v = None) (IDs (el_validators el)) in
  if negb (length l + size (decidedRoots el) =? Validators_Len (el_validators el))%nat
  then Panic "Mismatch of roots" else Ok l.

Section election.
Context (observe : Z -> Z -> bool) (getFrameRoots : Z -> list RootAndSlot).

Definition observedRoots (root frame : Z) : list RootAndSlot :=
  filter (fun r => observe root (r_ID r) = true) (getFrameRoots frame).

Definition observedRootsMap (root frame : Z) : gmap Z RootAndSlot :=
  foldl (fun m r => if observe root (r_ID r) then <[r_Validator r := r]> m else m) ∅ (getFrameRoots frame).

(** ** abft/election/sort_roots.go *)

Fixpoint chooseAtropos_loop (el : Election) (l : list Z) : outcome (option Res) :=
  match l with
  | [] => Err "all the roots are decided as 'no', which is possible only if more than 1/3W are Byzantine"
  | validator :: l =>
      match decidedRoots el !! validator with
      | None => Ok None
      | Some vote =>
          if vote_yes vote then Ok (Some (mk_Res (frameToDecide el) (vote_observedRoot vote)))
          else chooseAtropos_loop el l
      end
  end.

Definition chooseAtropos (el : Election) : outcome (option Res) :=
  chooseAtropos_loop el (SortedIDs (el_validators el)).

(** ** abft/election/election_math.go *)

Record tally := mk_tally {
  yesVotes : WeightCounter;
  noVotes : WeightCounter;
  allVotes : WeightCounter;
  subjectHash : option Z
}.

(** One turn of the loop over the observed roots. *)
Definition tally_step (el : Election) (validatorSubject : Z) (t : tally) (observedRoot : RootAndSlot) : outcome tally :=
  match votes el !! (observedRoot, validatorSubject) with
  | None => Err "every root must vote for every not decided subject. possibly roots are processed out of order"
  | Some vote =>
      if vote_yes vote &&
         match subjectHash t with Some h => negb (h =? vote_observedRoot vote) | None => false end
      then Err "forkless caused by 2 fork roots => more than 1/3W are Byzantine"
      else
      let* t :=
        if vote_yes vote then
          let* ' (_, c) := Counter_Count (yesVotes t) (r_Validator observedRoot) in
          Ok (mk_tally c (noVotes t) (allVotes t) (Some (vote_observedRoot vote)))
        else
          let* ' (_, c) := Counter_Count (noVotes t) (r_Validator observedRoot) in
          Ok (mk_tally (yesVotes t) c (allVotes t) (subjectHash t)) in
      let* ' (counted, c) := Counter_Count (allVotes t) (r_Validator observedRoot) in
      if (counted : bool) then Ok (mk_tally (yesVotes t) (noVotes t) c (subjectHash t))
      else Err "forkless caused by 2 fork roots => more than 1/3W are Byzantine"
  end.

(** The vote of a root of a round after the first. *)
Definition laterVote (el : Election) (observed : list RootAndSlot) (validatorSubject : Z) : outcome voteValue :=
  let c := NewCounter (el_validators el) in
  let* t := foldM (tally_step el validatorSubject) (mk_tally c c c None) observed in
  if negb (HasQuorum (allVotes t))
  then Err "root must be forkless caused by at least 2/3W of prev roots. possibly roots are processed out of order"
  else
  let yes := Counter_Sum (noVotes t) <=? Counter_Sum (yesVotes t) in
  let root := match subjectHash t with
              | Some h => if yes then h else 0
              | None => 0
              end in
  Ok (mk_voteValue (HasQuorum (yesVotes t) || HasQuorum (noVotes t)) yes root).

Definition firstVote (observed : gmap Z RootAndSlot) (validatorSubject : Z) : voteValue :=
  match observed !! validatorSubject with
  | Some r => mk_voteValue false true (r_ID r)
  | None => zero_vote
  end.

(** One turn of the loop over the subjects. *)
Definition vote_step (newRoot : RootAndSlot) (round : Z) (el : Election) (validatorSubject : Z) : outcome Election :=
  let* vote :=
    if round =? 1 then Ok (firstVote (observedRootsMap (r_ID newRoot) (r_Frame newRoot - 1)) validatorSubject)
    else laterVote el (observedRoots (r_ID newRoot) (r_Frame newRoot - 1)) validatorSubject in
  let decided := if negb (round =? 1) && vote_decided vote
                 then <[validatorSubject := vote]> (decidedRoots el) else decidedRoots el in
  Ok (mk_Election (frameToDecide el) (el_validators el) decided
        (<[(newRoot, validatorSubject) := vote]> (votes el))).

Definition ProcessRoot (el : Election) (newRoot : RootAndSlot) : outcome (option Res * Election) :=
  let* res := chooseAtropos el in
  match res with
  | Some _ => Ok (res, el)
  | None =>
      if r_Frame newRoot <=? frameToDecide el then Ok (None, el)
      else
      let round := u32 (r_Frame newRoot - frameToDecide el) in
      if round =? 0 then Ok (None, el)
      else
      let* subjects := notDecidedRoots el in
      let* el := foldM (vote_step newRoot round) el subjects in
      let* res := chooseAtropos el in
      Ok (res, el)
  end.

End election.
