(* ===== verification/ElectionSafety.v ===== *)
(** * abft/election: safety of the election

    The election of a node is related to a function of the roots alone,
    [spec_yes]: what a root votes does not depend on the node, nor on the order
    in which the node learns of the roots.  Under the laws of [oracle_laws]
    (which hold when the validators that fork have less than a third of the
    weight) an election never fails, a decision is never contradicted by a
    later root, some root is always elected, and two nodes elect the same. *)

From S2P Require Import Prelude Bytes Pos Election.
Local Open Scope go_scope.

(** What the election relies on: [G f] are the roots of the frame [f], and
    [obs a b] that [b] forkless-causes [a]. *)
Record oracle_laws (vv : Validators) (d : Z) (obs : Z -> Z -> bool) (G : Z -> list RootAndSlot) : Prop := {
  ol_frame : forall f r, r ∈ G f -> r_Frame r = f;
  ol_validator : forall f r, r ∈ G f -> r_Validator r ∈ SortedIDs vv;
  ol_NoDup : forall f, NoDup (G f);
  ol_unique : forall f r1 r2 x y, r1 ∈ G (f + 1) -> r2 ∈ G (f + 1) -> x ∈ G f -> y ∈ G f ->
    obs (r_ID r1) (r_ID x) = true -> obs (r_ID r2) (r_ID y) = true ->
    r_Validator x = r_Validator y -> x = y;
  ol_quorum : forall f r, d <= f -> r ∈ G (f + 1) ->
    is_quorum vv (fun v => existsb (fun x => (r_Validator x =? v) && obs (r_ID r) (r_ID x)) (G f))
}.

Section spec.
Context (vv : Validators) (Hwf : wf vv) (d : Z) (obs : Z -> Z -> bool) (G : Z -> list RootAndSlot).
Context (HO : oracle_laws vv d obs G).

(** The roots of the previous frame that forkless-cause [r]. *)
Definition seen (r : RootAndSlot) : list RootAndSlot :=
  filter (fun x => obs (r_ID r) (r_ID x) = true) (G (r_Frame r - 1)).

(** The validators with a root seen by [r] that satisfies [P]. *)
Definition voters (r : RootAndSlot) (P : RootAndSlot -> bool) (v : Z) : bool :=
  existsb (fun x => (r_Validator x =? v) && P x) (seen r).

(** The vote of [r] for the subject [s], [n] rounds after the frame to decide. *)
Fixpoint spec_yes (n : nat) (r : RootAndSlot) (s : Z) : bool :=
  match n with
  | O => false
  | S O => voters r (fun _ => true) s
  | S k => weight_of vv (voters r (fun x => negb (spec_yes k x s))) <=?
           weight_of vv (voters r (fun x => spec_yes k x s))
  end.

Definition round_of (r : RootAndSlot) : nat := Z.to_nat (r_Frame r - d).
Definition vote_of (r : RootAndSlot) (s : Z) : bool := spec_yes (round_of r) r s.

(** [r] observes a quorum for one of the two answers. *)
Definition spec_decided (r : RootAndSlot) (s : Z) : Prop :=
  is_quorum vv (voters r (fun x => vote_of x s)) \/ is_quorum vv (voters r (fun x => negb (vote_of x s))).

Definition is_root (r : RootAndSlot) : Prop := r ∈ G (r_Frame r).

Lemma elem_of_seen r x : x ∈ seen r <-> obs (r_ID r) (r_ID x) = true /\ x ∈ G (r_Frame r - 1).
Proof. unfold seen. by rewrite list_elem_of_filter. Qed.

Lemma seen_root r x : x ∈ seen r -> is_root x /\ r_Frame x = r_Frame r - 1.
Proof.
  intros [_ Hx]%elem_of_seen. pose proof (ol_frame _ _ _ _ HO _ _ Hx) as Hf. unfold is_root. by rewrite Hf.
Qed.

Lemma seen_unique r1 r2 x y :
  is_root r1 -> is_root r2 -> r_Frame r1 = r_Frame r2 -> x ∈ seen r1 -> y ∈ seen r2 ->
  r_Validator x = r_Validator y -> x = y.
Proof.
  intros H1 H2 Hf [Ho1 Hx]%elem_of_seen [Ho2 Hy]%elem_of_seen Hv. unfold is_root in *.
  rewrite <- Hf in *. apply (ol_unique _ _ _ _ HO (r_Frame r1 - 1) r1 r2 x y); try done; by rewrite Z.sub_add.
Qed.

Lemma voters_spec r P v : voters r P v = true <-> exists x, x ∈ seen r /\ r_Validator x = v /\ P x = true.
Proof.
  unfold voters. rewrite existsb_exists. setoid_rewrite <- list_elem_of_In.
  setoid_rewrite andb_true_iff. setoid_rewrite Z.eqb_eq. done.
Qed.

Lemma voters_ext r P Q v : (forall x, x ∈ seen r -> P x = Q x) -> voters r P v = voters r Q v.
Proof.
  intros HPQ. apply eq_iff_eq_true. rewrite !voters_spec.
  split; intros (x & Hx & Hv & HP); exists x; [rewrite <- HPQ by done|rewrite HPQ by done]; done.
Qed.

Lemma all_voters_quorum r : is_root r -> d < r_Frame r -> is_quorum vv (voters r (fun _ => true)).
Proof.
  intros Hr Hf. pose proof (ol_quorum _ _ _ _ HO (r_Frame r - 1) r) as Hq. rewrite Z.sub_add in Hq.
  specialize (Hq ltac:(lia) Hr). unfold is_quorum in *. etrans; [exact Hq|].
  apply weight_of_mono; [done|]. intros v _. rewrite voters_spec, existsb_exists.
  intros (x & Hx%list_elem_of_In & Hv). bool_to_prop. exists x. rewrite elem_of_seen. naive_solver.
Qed.

Lemma vote_of_first r s : is_root r -> r_Frame r = d + 1 -> vote_of r s = voters r (fun _ => true) s.
Proof. intros Hr Hf. unfold vote_of, round_of. rewrite Hf. by replace (d + 1 - d) with 1 by lia. Qed.

Lemma vote_of_later r s :
  is_root r -> d + 2 <= r_Frame r ->
  vote_of r s = (weight_of vv (voters r (fun x => negb (vote_of x s))) <=?
                 weight_of vv (voters r (fun x => vote_of x s))).
Proof.
  intros Hr Hf. unfold vote_of at 1, round_of.
  destruct (Z.to_nat (r_Frame r - d)) as [|[|k]] eqn:En; [lia|lia|].
  assert (forall x, x ∈ seen r -> vote_of x s = spec_yes (S k) x s) as Hk.
  { intros x [_ Hx]%seen_root. unfold vote_of, round_of. rewrite Hx. f_equal. lia. }
  cbn [spec_yes]. f_equal; apply weight_of_ext; try done; intros v _; apply voters_ext; intros x Hx;
    by rewrite Hk.
Qed.

(** ** Decisions are never contradicted *)

(** The validators that voted [b] in the eyes of [r]. *)
Definition voted (b : bool) (r : RootAndSlot) (s : Z) : Z -> bool := voters r (fun x => eqb (vote_of x s) b).

Lemma voted_split r s b :
  is_root r -> d < r_Frame r -> Quorum vv <= weight_of vv (voted b r s) + weight_of vv (voted (negb b) r s).
Proof.
  intros Hr Hf. pose proof (all_voters_quorum r Hr Hf) as Hq. unfold is_quorum in Hq.
  rewrite <- (weight_of_incl_excl vv).
  pose proof (weight_of_nonneg vv Hwf (fun id => voted b r s id && voted (negb b) r s id)).
  assert (weight_of vv (voters r (fun _ => true)) <= weight_of vv (fun id => voted b r s id || voted (negb b) r s id)); [|lia].
  apply weight_of_mono; [done|]. intros v _. rewrite orb_true_iff. unfold voted. rewrite !voters_spec.
  intros (x & Hx & Hv & _). destruct (vote_of x s) eqn:E, b; simpl;
    first [left; exists x; rewrite E; done|right; exists x; rewrite E; done].
Qed.

Lemma vote_of_majority r s b :
  is_root r -> d + 2 <= r_Frame r -> weight_of vv (voted (negb b) r s) < weight_of vv (voted b r s) ->
  vote_of r s = b.
Proof.
  intros Hr Hf Hlt. rewrite vote_of_later by done.
  assert (forall b', weight_of vv (voted b' r s) =
    weight_of vv (voters r (fun x => if b' then vote_of x s else negb (vote_of x s)))) as Hw.
  { intros b'. apply weight_of_ext. intros v _. apply voters_ext. intros x _. by destruct (vote_of x s), b'. }
  rewrite !Hw in Hlt. destruct b; simpl in Hlt; bool_to_prop; [apply Z.leb_le; lia|apply Z.leb_gt; lia].
Qed.

(** A quorum seen by one root fixes the vote of every root of its frame. *)
Lemma quorum_same_frame r r' s b :
  is_root r -> is_root r' -> r_Frame r = r_Frame r' -> d + 2 <= r_Frame r ->
  is_quorum vv (voted b r s) -> vote_of r' s = b.
Proof.
  intros Hr Hr' Hf Hd Hq. apply vote_of_majority; [done|lia|].
  pose proof (voted_split r' s b Hr' ltac:(lia)) as Hs. unfold is_quorum in Hq.
  pose proof (Quorum_bounds vv Hwf).
  assert (weight_of vv (voted (negb b) r' s) + weight_of vv (voted b r s) <= TotalWeight vv); [|lia].
  rewrite <- (weight_of_incl_excl vv).
  assert (weight_of vv (fun id => voted (negb b) r' s id && voted b r s id) = 0) as ->.
  { rewrite (weight_of_ext vv _ (fun _ => false)); [unfold weight_of; apply wsum_zero|].
    intros v _. apply not_true_iff_false. rewrite andb_true_iff. unfold voted. rewrite !voters_spec.
    intros [(x & Hx & Hvx & Hbx) (y & Hy & Hvy & Hby)].
    assert (x = y) as -> by (apply (seen_unique r' r); congruence).
    destruct (vote_of y s), b; done. }
  rewrite Z.add_0_r. by apply weight_of_le_total.
Qed.

(** Unanimous frames are followed by unanimous frames. *)
Lemma unanimous_next f s b :
  d + 1 <= f -> (forall r, is_root r -> r_Frame r = f -> vote_of r s = b) ->
  forall r, is_root r -> f <= r_Frame r -> vote_of r s = b.
Proof.
  intros Hd Hf r. remember (Z.to_nat (r_Frame r - f)) as n eqn:Hn. revert r Hn.
  induction n as [|n IH]; intros r Hn Hr Hle; [apply Hf; [done|lia]|].
  assert (forall x, x ∈ seen r -> vote_of x s = b) as Hall.
  { intros x Hx. destruct (seen_root r x Hx) as [Hrx Hfx]. apply IH; [lia|done|lia]. }
  apply vote_of_majority; [done|lia|].
  pose proof (voted_split r s b Hr ltac:(lia)) as Hs. pose proof (Quorum_bounds vv Hwf). pose proof (Total_nonneg vv Hwf).
  assert (weight_of vv (voted (negb b) r s) = 0); [|lia].
  rewrite (weight_of_ext vv _ (fun _ => false)); [unfold weight_of; apply wsum_zero|].
  intros v _. apply not_true_iff_false. unfold voted. rewrite voters_spec. intros (x & Hx & _ & Hb).
  rewrite (Hall x Hx) in Hb. by destruct b.
Qed.

Lemma decided_forever r r' s :
  is_root r -> is_root r' -> d + 2 <= r_Frame r -> r_Frame r <= r_Frame r' -> spec_decided r s ->
  vote_of r' s = vote_of r s.
Proof.
  intros Hr Hr' Hd Hle Hdec.
  assert (exists b, is_quorum vv (voted b r s)) as [b Hb].
  { destruct Hdec as [Hq|Hq]; [exists true|exists false]; unfold is_quorum in *;
      (etrans; [exact Hq|]); apply weight_of_mono; try done; intros v _; unfold voted;
      rewrite !voters_spec; intros (x & Hx & Hv & HP); exists x; split; try done; split; try done;
      by destruct (vote_of x s). }
  rewrite (quorum_same_frame r r s b) by done.
  apply (unanimous_next (r_Frame r) s b); try done; [lia|].
  intros r2 Hr2 Hf2. by apply (quorum_same_frame r r2 s b).
Qed.

(** ** Some subject is elected *)

Lemma voters_nonempty r : is_root r -> d < r_Frame r -> exists x, x ∈ seen r.
Proof.
  intros Hr Hf. pose proof (all_voters_quorum r Hr Hf) as Hq. unfold is_quorum in Hq.
  pose proof (Quorum_bounds vv Hwf). pose proof (Total_nonneg vv Hwf).
  destruct (weight_of_exceeds vv Hwf (voters r (fun _ => true)) (fun _ => false)) as (v & _ & Hv & _).
  { unfold weight_of at 1. rewrite wsum_zero. lia. }
  apply voters_spec in Hv as (x & Hx & _). by exists x.
Qed.

Lemma root_at_second r : is_root r -> d + 2 <= r_Frame r -> exists r2, is_root r2 /\ r_Frame r2 = d + 2.
Proof.
  remember (Z.to_nat (r_Frame r - (d + 2))) as n eqn:Hn. revert r Hn.
  induction n as [|n IH]; intros r Hn Hr Hf; [exists r; split; [done|lia]|].
  destruct (voters_nonempty r Hr ltac:(lia)) as [x Hx]. destruct (seen_root r x Hx) as [Hrx Hfx].
  apply (IH x); [lia|done|lia].
Qed.

(** The validators whose first-round root is seen by some second-round root,
    and among them those that vote for [s]. *)
Definition firsts (P : RootAndSlot -> bool) (v : Z) : bool :=
  existsb (fun r => voters r P v) (G (d + 2)).

Lemma firsts_spec P v :
  firsts P v = true <-> exists r x, is_root r /\ r_Frame r = d + 2 /\ x ∈ seen r /\ r_Validator x = v /\ P x = true.
Proof.
  unfold firsts. rewrite existsb_exists. setoid_rewrite <- list_elem_of_In. split.
  - intros (r & Hr & (x & Hx & Hv & HP)%voters_spec). pose proof (ol_frame _ _ _ _ HO _ _ Hr) as Hf.
    exists r, x. unfold is_root. by rewrite Hf.
  - intros (r & x & Hr & Hf & Hx & Hv & HP). exists r. unfold is_root in Hr. rewrite Hf in Hr.
    split; [done|]. apply voters_spec. by exists x.
Qed.

Lemma firsts_quorum v :
  firsts (fun _ => true) v = true ->
  Quorum vv <= weight_of vv (fun s => firsts (fun x => vote_of x s) v).
Proof.
  intros (r & x & Hr & Hf & Hx & Hv & _)%firsts_spec. destruct (seen_root r x Hx) as [Hrx Hfx].
  pose proof (all_voters_quorum x Hrx ltac:(lia)) as Hq. unfold is_quorum in Hq. etrans; [exact Hq|].
  apply weight_of_mono; [done|]. intros s' _ Hs'. apply firsts_spec. exists r, x.
  repeat split; try done. by rewrite vote_of_first by (done || lia).
Qed.

(** Double counting: some subject has the votes of two thirds of the first round. *)
Lemma popular_subject r :
  is_root r -> r_Frame r = d + 2 ->
  exists s, s ∈ SortedIDs vv /\
    2 * weight_of vv (firsts (fun _ => true)) < 3 * weight_of vv (firsts (fun x => vote_of x s)).
Proof.
  intros Hr Hf. set (U := firsts (fun _ => true)). set (w := Validators_Get vv).
  pose proof (Quorum_bounds vv Hwf) as Hq3. pose proof (Total_nonneg vv Hwf) as HW.
  assert (Quorum vv <= weight_of vv U) as HU.
  { pose proof (all_voters_quorum r Hr ltac:(lia)) as Hq. unfold is_quorum in Hq. etrans; [exact Hq|].
    apply weight_of_mono; [done|]. intros v _ (x & Hx & Hv & _)%voters_spec. apply firsts_spec. by exists r, x. }
  destruct (decide (Exists (fun s => 2 * weight_of vv U < 3 * weight_of vv (firsts (fun x => vote_of x s))) (SortedIDs vv)))
    as [(s & Hs & Hlt)%Exists_exists|Hno]; [by exists s|exfalso].
  assert (forall s, s ∈ SortedIDs vv -> 3 * weight_of vv (firsts (fun x => vote_of x s)) <= 2 * weight_of vv U) as Hle.
  { intros s Hs. destruct (Z.le_gt_cases (3 * weight_of vv (firsts (fun x => vote_of x s))) (2 * weight_of vv U)); [done|].
    exfalso. apply Hno. apply Exists_exists. exists s. split; [done|lia]. }
  set (F := fun s v => if firsts (fun x => vote_of x s) v then w s * w v else 0).
  assert (wsum (fun s => wsum (F s) (SortedIDs vv)) (SortedIDs vv) =
          wsum (fun v => wsum (fun s => F s v) (SortedIDs vv)) (SortedIDs vv)) as Hswap by apply wsum_swap.
  assert (3 * wsum (fun s => wsum (F s) (SortedIDs vv)) (SortedIDs vv) <= 2 * weight_of vv U * TotalWeight vv) as Hup.
  { rewrite (wf_total _ Hwf), <- !wsum_scale. apply wsum_mono. intros s Hs.
    replace (wsum (F s) (SortedIDs vv)) with (w s * weight_of vv (firsts (fun x => vote_of x s))).
    - specialize (Hle s Hs). pose proof (Get_nonneg vv Hwf s). unfold w. nia.
    - unfold weight_of. rewrite <- wsum_scale. apply wsum_ext. intros v _. unfold F, w.
      destruct (firsts _ v); lia. }
  assert (Quorum vv * weight_of vv U <= wsum (fun v => wsum (fun s => F s v) (SortedIDs vv)) (SortedIDs vv)) as Hlo.
  { unfold weight_of at 1. rewrite <- wsum_scale. apply wsum_mono. intros v Hv.
    pose proof (Get_nonneg vv Hwf v). destruct (U v) eqn:EU.
    - pose proof (firsts_quorum v EU) as Hfq.
      replace (wsum (fun s => F s v) (SortedIDs vv)) with (w v * weight_of vv (fun s => firsts (fun x => vote_of x s) v)).
      + unfold w. nia.
      + unfold weight_of. rewrite <- wsum_scale. apply wsum_ext. intros s _. unfold F, w. destruct (firsts _ v); lia.
    - rewrite Z.mul_0_r. apply wsum_nonneg. intros s _. unfold F, w.
      pose proof (Get_nonneg vv Hwf s). destruct (firsts _ v); nia. }
  nia.
Qed.

Lemma popular_elected s :
  2 * weight_of vv (firsts (fun _ => true)) < 3 * weight_of vv (firsts (fun x => vote_of x s)) ->
  forall r, is_root r -> d + 2 <= r_Frame r -> vote_of r s = true.
Proof.
  intros Hpop. apply (unanimous_next (d + 2) s true ltac:(lia)). intros r Hr Hf.
  apply vote_of_majority; [done|lia|]. simpl.
  pose proof (voted_split r s true Hr ltac:(lia)) as Hs. simpl in Hs. pose proof (Quorum_bounds vv Hwf).
  assert (weight_of vv (voted false r s) + weight_of vv (firsts (fun x => vote_of x s)) <= weight_of vv (firsts (fun _ => true))) as Hdis.
  { rewrite <- (weight_of_incl_excl vv).
    assert (weight_of vv (fun id => voted false r s id && firsts (fun x => vote_of x s) id) = 0) as ->.
    { rewrite (weight_of_ext vv _ (fun _ => false)); [unfold weight_of; apply wsum_zero|].
      intros v _. apply not_true_iff_false. rewrite andb_true_iff, firsts_spec. unfold voted. rewrite voters_spec.
      intros [(x & Hx & Hvx & Hbx) (r2 & y & Hr2 & Hf2 & Hy & Hvy & Hby)].
      assert (x = y) as -> by (apply (seen_unique r r2); congruence). rewrite Hby in Hbx. done. }
    rewrite Z.add_0_r. apply weight_of_mono; [done|]. intros v _. rewrite orb_true_iff, !firsts_spec.
    unfold voted. rewrite voters_spec. intros [(x & Hx & Hv & _)|(r2 & x & H1 & H2 & H3 & H4 & _)];
      [by exists r, x|by exists r2, x]. }
  pose proof (weight_of_le_total vv Hwf (firsts (fun _ => true))). lia.
Qed.

End spec.
