(* ===== verification/ElectionCorrect.v ===== *)
(** * abft/election: the election computes the specified votes

    [el_inv] relates the maps of an [Election] to [vote_of]; [ProcessRoot]
    keeps it and never fails.  The consequences, stated of any two nodes, are
    the properties at the end. *)

From S2P Require Import Prelude Bytes Pos Election ElectionSafety.
Local Open Scope go_scope.

Section election.
Context (vv : Validators) (Hwf : wf vv) (d : Z) (obs : Z -> Z -> bool) (G : Z -> list RootAndSlot).
Context (HO : oracle_laws vv d obs G) (Hd : 0 <= d) (Hframes : forall f r, r ∈ G f -> f < 2 ^ 32).
Local Abbreviation vote_of := (vote_of vv d obs G).
Local Abbreviation seen := (seen obs G).
Local Abbreviation voters := (voters obs G).
Local Abbreviation is_root := (is_root G).
Local Abbreviation spec_decided := (spec_decided vv d obs G).

(** The root of [s] in the frame to decide that first-round roots observe. *)
Definition subject (s h : Z) : Prop :=
  exists x r, is_root r /\ r_Frame r = d + 1 /\ x ∈ seen r /\ r_Validator x = s /\ r_ID x = h.

Lemma subject_unique s h1 h2 : subject s h1 -> subject s h2 -> h1 = h2.
Proof.
  intros (x1 & r1 & Hr1 & Hf1 & Hx1 & Hv1 & <-) (x2 & r2 & Hr2 & Hf2 & Hx2 & Hv2 & <-).
  f_equal. apply (seen_unique vv d obs G HO r1 r2); congruence.
Qed.

Definition vote_ok (r : RootAndSlot) (s : Z) (v : voteValue) : Prop :=
  vote_yes v = vote_of r s /\ (vote_yes v = true -> subject s (vote_observedRoot v)).

Record el_inv (el : Election) : Prop := {
  ev_frame : frameToDecide el = d;
  ev_validators : el_validators el = vv;
  ev_votes : forall r s v, votes el !! (r, s) = Some v -> is_root r /\ vote_ok r s v;
  ev_decided : forall s v, decidedRoots el !! s = Some v -> s ∈ SortedIDs vv /\
    exists r, is_root r /\ d + 2 <= r_Frame r /\ spec_decided r s /\ vote_ok r s v;
  ev_marked : forall r s v, votes el !! (r, s) = Some v -> d + 2 <= r_Frame r -> spec_decided r s -> is_Some (decidedRoots el !! s)
}.

(** [r] has voted for every subject that is not decided. *)
Definition has_voted (el : Election) (r : RootAndSlot) : Prop :=
  forall s, s ∈ SortedIDs vv -> decidedRoots el !! s = None -> is_Some (votes el !! (r, s)).

(** ** Counting the votes *)

Section tally.
Context (el : Election) (Hinv : el_inv el) (s : Z).

(** The counters hold the validators of the counted roots. *)
Record tally_inv (l : list RootAndSlot) (t : tally) : Prop := {
  ti_yes : exists Y, counter_inv vv Y (yesVotes t) /\
    forall v, v ∈ Y <-> exists x, x ∈ l /\ r_Validator x = v /\ vote_of x s = true;
  ti_no : exists N, counter_inv vv N (noVotes t) /\
    forall v, v ∈ N <-> exists x, x ∈ l /\ r_Validator x = v /\ vote_of x s = false;
  ti_all : exists A, counter_inv vv A (allVotes t) /\ forall v, v ∈ A <-> exists x, x ∈ l /\ r_Validator x = v;
  ti_subject : forall h, subjectHash t = Some h -> subject s h;
  ti_some : (exists x, x ∈ l /\ vote_of x s = true) -> subjectHash t <> None
}.

Lemma tally_init : let c := NewCounter vv in tally_inv [] (mk_tally c c c None).
Proof.
  pose proof (NewCounter_inv vv Hwf) as Hc. split; simpl; try done.
  - exists ∅. split; [done|]. set_solver.
  - exists ∅. split; [done|]. set_solver.
  - exists ∅. split; [done|]. set_solver.
  - intros (x & Hx & _). by apply not_elem_of_nil in Hx.
Qed.

Lemma tally_step_inv l t x :
  tally_inv l t -> r_Validator x ∈ SortedIDs vv -> (forall y, y ∈ l -> r_Validator y <> r_Validator x) ->
  is_Some (votes el !! (x, s)) ->
  exists t', tally_step el s t x = Ok t' /\ tally_inv (l ++ [x]) t'.
Proof.
  intros [(Y & HY & HYs) (N & HN & HNs) (A & HA & HAs) Hsub Hsome] Hin Hnew [v Hv].
  destruct (ev_votes _ Hinv _ _ _ Hv) as (_ & Hyes & Hroot). unfold tally_step. rewrite Hv.
  destruct (Count_inv vv Hwf A (allVotes t) _ HA Hin) as (ca & Hca & HA').
  assert (in_set A (r_Validator x) = false) as Hna.
  { apply bool_decide_eq_false. rewrite HAs. intros (y & Hy & Hyv). by apply (Hnew y). }
  rewrite Hna in Hca. simpl in Hca. destruct (vote_yes v) eqn:Ey; simpl.
  - assert (match subjectHash t with Some h => negb (h =? vote_observedRoot v) | None => false end = false) as ->.
    { destruct (subjectHash t) as [h|] eqn:Eh; [|done]. apply negb_false_iff, Z.eqb_eq.
      apply (subject_unique s); auto. }
    destruct (Count_inv vv Hwf Y (yesVotes t) _ HY Hin) as (cy & -> & HY'). simpl. rewrite Hca. simpl.
    eexists. split; [reflexivity|]. split; simpl.
    + eexists. split; [exact HY'|]. intros u. rewrite elem_of_union, HYs. set_solver.
    + exists N. split; [done|]. intros u. rewrite HNs. set_solver by congruence.
    + eexists. split; [exact HA'|]. intros u. rewrite elem_of_union, HAs. set_solver.
    + intros h [= <-]. by apply Hroot.
    + done.
  - destruct (Count_inv vv Hwf N (noVotes t) _ HN Hin) as (cn & -> & HN'). simpl. rewrite Hca. simpl.
    eexists. split; [reflexivity|]. split; simpl.
    + exists Y. split; [done|]. intros u. rewrite HYs. set_solver by congruence.
    + eexists. split; [exact HN'|]. intros u. rewrite elem_of_union, HNs. set_solver.
    + eexists. split; [exact HA'|]. intros u. rewrite elem_of_union, HAs. set_solver.
    + done.
    + intros (y & [Hy| ->%list_elem_of_singleton]%elem_of_app & Hvy); [by apply Hsome; exists y|congruence].
Qed.

Lemma tally_loop l : forall l0 t,
  tally_inv l0 t -> NoDup (r_Validator <$> l0 ++ l) ->
  (forall x, x ∈ l -> r_Validator x ∈ SortedIDs vv /\ is_Some (votes el !! (x, s))) ->
  exists t', foldM (tally_step el s) t l = Ok t' /\ tally_inv (l0 ++ l) t'.
Proof.
  induction l as [|x l IH]; intros l0 t Ht Hnd Hl; [exists t; by rewrite app_nil_r|].
  destruct (Hl x ltac:(left)) as [Hin Hv]. simpl.
  destruct (tally_step_inv l0 t x Ht Hin) as (t1 & -> & Ht1); [|done|].
  - intros y Hy Heq. rewrite fmap_app in Hnd. apply NoDup_app in Hnd as (_ & Hnd & _).
    apply (Hnd (r_Validator y)); [by apply list_elem_of_fmap_2|]. rewrite Heq. csimpl. left.
  - simpl. destruct (IH (l0 ++ [x]) t1 Ht1) as (t2 & -> & Ht2).
    + by rewrite <- app_assoc.
    + intros y Hy. apply Hl. by right.
    + exists t2. by rewrite <- app_assoc in Ht2.
Qed.

(** The counters against the specification, for the roots seen by [r]. *)
Lemma tally_weights r l t :
  l ≡ₚ seen r -> tally_inv l t ->
  Counter_Sum (yesVotes t) = weight_of vv (voters r (fun x => vote_of x s)) /\
  Counter_Sum (noVotes t) = weight_of vv (voters r (fun x => negb (vote_of x s))) /\
  HasQuorum (yesVotes t) = bool_decide (is_quorum vv (voters r (fun x => vote_of x s))) /\
  HasQuorum (noVotes t) = bool_decide (is_quorum vv (voters r (fun x => negb (vote_of x s)))) /\
  HasQuorum (allVotes t) = bool_decide (is_quorum vv (voters r (fun _ => true))).
Proof.
  intros Hl [(Y & HY & HYs) (N & HN & HNs) (A & HA & HAs) _ _].
  assert (forall S (P : RootAndSlot -> bool), (forall v, v ∈ S <-> exists x, x ∈ l /\ r_Validator x = v /\ P x = true) ->
    weight_of vv (in_set S) = weight_of vv (voters r P)) as Hw.
  { intros S P HS. apply weight_of_ext. intros v _. apply eq_iff_eq_true.
    unfold in_set. rewrite bool_decide_eq_true, HS, voters_spec. setoid_rewrite Hl. done. }
  assert (weight_of vv (in_set Y) = weight_of vv (voters r (fun x => vote_of x s))) as HwY by (by apply Hw).
  assert (weight_of vv (in_set N) = weight_of vv (voters r (fun x => negb (vote_of x s)))) as HwN.
  { apply Hw. intros v. rewrite HNs. by setoid_rewrite negb_true_iff. }
  assert (weight_of vv (in_set A) = weight_of vv (voters r (fun _ => true))) as HwA.
  { apply Hw. intros v. rewrite HAs. naive_solver. }
  rewrite !(HasQuorum_inv vv _ _ HY), !(HasQuorum_inv vv _ _ HN), !(HasQuorum_inv vv _ _ HA).
  unfold Counter_Sum. rewrite (ci_sum _ _ _ HY), (ci_sum _ _ _ HN).
  repeat split; try done; apply bool_decide_ext; unfold is_quorum; by rewrite ?HwY, ?HwN, ?HwA.
Qed.

End tally.

(** ** The vote of a root *)

Section process.
Context (gfr : Z -> list RootAndSlot) (r : RootAndSlot) (Hr : is_root r) (Hfr : d < r_Frame r).
(** The node knows, among the roots of the previous frame, those that
    forkless-cause [r]: they are its ancestors. *)
Context (Hgfr : filter (fun x => obs (r_ID r) (r_ID x) = true) (gfr (r_Frame r - 1)) ≡ₚ seen r).

Lemma seen_validators_NoDup l : l ≡ₚ seen r -> NoDup (r_Validator <$> l).
Proof.
  intros Hl. rewrite Hl. apply NoDup_fmap_2_strong.
  - intros x y Hx Hy Heq. by apply (seen_unique vv d obs G HO r r).
  - apply NoDup_filter, HO.
Qed.

Lemma observedRoots_perm : observedRoots obs gfr (r_ID r) (r_Frame r - 1) ≡ₚ seen r.
Proof. exact Hgfr. Qed.

Lemma observedRootsMap_fold l : forall (m : gmap Z RootAndSlot) s,
  NoDup (r_Validator <$> filter (fun x => obs (r_ID r) (r_ID x) = true) l) ->
  foldl (fun m x => if obs (r_ID r) (r_ID x) then <[r_Validator x := x]> m else m) m l !! s =
  match list_find (fun x => r_Validator x = s) (filter (fun x => obs (r_ID r) (r_ID x) = true) l) with
  | Some (_, x) => Some x
  | None => m !! s
  end.
Proof.
  induction l as [|x l IH]; intros m s Hnd; simpl; [done|].
  rewrite filter_cons in *. destruct (obs (r_ID r) (r_ID x)) eqn:E.
  - rewrite decide_True in * by done. csimpl in Hnd. apply NoDup_cons in Hnd as [Hni Hnd].
    rewrite IH by done. simpl. destruct (decide (r_Validator x = s)) as [<-|Hne].
    + destruct (list_find _ _) as [[i y]|] eqn:Ef; [|by rewrite lookup_insert_eq].
      apply list_find_Some in Ef as (Hy & Hv & _). exfalso. apply Hni. rewrite <- Hv.
      apply list_elem_of_fmap_2. by eapply list_elem_of_lookup_2.
    + destruct (list_find _ _) as [[i y]|]; simpl; [done|]. by rewrite lookup_insert_ne.
  - rewrite decide_False in * by done. by apply IH.
Qed.

Lemma firstVote_ok s :
  r_Frame r = d + 1 -> vote_ok r s (firstVote (observedRootsMap obs gfr (r_ID r) (r_Frame r - 1)) s).
Proof.
  intros Hf. unfold firstVote, observedRootsMap.
  rewrite observedRootsMap_fold by (by apply seen_validators_NoDup). rewrite lookup_empty.
  assert (vote_of r s = voters r (fun _ => true) s) as Hvr by (by apply vote_of_first).
  destruct (list_find _ _) as [[i x]|] eqn:Ef.
  - apply list_find_Some in Ef as (Hx & Hv & _). apply list_elem_of_lookup_2 in Hx. rewrite Hgfr in Hx.
    split; simpl; [|intros _; by exists x, r]. rewrite Hvr. symmetry. apply voters_spec. by exists x.
  - split; simpl; [|done]. rewrite Hvr. symmetry. apply not_true_iff_false. rewrite voters_spec.
    intros (x & Hx & Hv & _). rewrite <- Hgfr in Hx.
    apply list_find_None in Ef. rewrite Forall_forall in Ef. by apply (Ef x).
Qed.

Lemma laterVote_ok el s :
  el_inv el -> d + 2 <= r_Frame r -> s ∈ SortedIDs vv ->
  (forall x, x ∈ seen r -> is_Some (votes el !! (x, s))) ->
  exists v, laterVote el (observedRoots obs gfr (r_ID r) (r_Frame r - 1)) s = Ok v /\
    vote_ok r s v /\ (vote_decided v = true <-> spec_decided r s).
Proof.
  intros Hinv Hf Hs Hseen. pose proof observedRoots_perm as Hl. set (l := observedRoots obs gfr (r_ID r) (r_Frame r - 1)) in *.
  unfold laterVote. rewrite (ev_validators _ Hinv).
  destruct (tally_loop el Hinv s l [] _ (tally_init el Hinv s)) as (t & Ht & Hti).
  { simpl. by apply seen_validators_NoDup. }
  { intros x Hx. rewrite Hl in Hx. split; [|by apply Hseen].
    destruct (seen_root vv d obs G HO r x Hx) as [Hrx _]. by apply (ol_validator _ _ _ _ HO _ _ Hrx). }
  rewrite Ht. simpl in *. destruct (tally_weights s r l t Hl Hti) as (Hy & Hn & Hqy & Hqn & Hqa).
  pose proof (all_voters_quorum vv Hwf d obs G HO r Hr Hfr) as Hq.
  rewrite Hqa, bool_decide_eq_true_2 by done. simpl. rewrite Hy, Hn.
  eexists. split; [reflexivity|]. rewrite Hqy, Hqn. split; [split|]; simpl.
  - symmetry. by apply (vote_of_later vv d obs G HO).
  - intros Hyes. rewrite Hyes. destruct Hti as [_ _ _ Hsub Hsome].
    destruct (subjectHash t) as [h|] eqn:Eh; [by apply Hsub|exfalso]. apply Hsome; [|done].
    pose proof (Quorum_bounds vv Hwf). pose proof (Total_nonneg vv Hwf). unfold is_quorum in Hq.
    apply Z.leb_le in Hyes.
    pose proof (voted_split vv Hwf d obs G HO r s true Hr Hfr) as Hsp.
    destruct (weight_of_exceeds vv Hwf (voters r (fun x => vote_of x s)) (fun _ => false)) as (v & _ & Hv & _).
    { unfold weight_of at 1. rewrite wsum_zero.
      assert (weight_of vv (voted vv d obs G true r s) = weight_of vv (voters r (fun x => vote_of x s))) as Hw1.
      { apply weight_of_ext. intros v _. apply voters_ext. intros x _. by destruct (ElectionSafety.vote_of vv d obs G x s). }
      assert (weight_of vv (voted vv d obs G (negb true) r s) = weight_of vv (voters r (fun x => negb (vote_of x s)))) as Hw2.
      { apply weight_of_ext. intros v _. apply voters_ext. intros x _. by destruct (ElectionSafety.vote_of vv d obs G x s). }
      lia. }
    apply voters_spec in Hv as (x & Hx & _ & Hvx). exists x. by rewrite Hl.
  - unfold ElectionSafety.spec_decided. by rewrite orb_true_iff, !bool_decide_eq_true.
Qed.


Lemma round_first : (u32 (r_Frame r - d) =? 1) = bool_decide (r_Frame r = d + 1).
Proof.
  pose proof (Hframes _ _ Hr). rewrite u32_small by solve_width.
  destruct (Z.eqb_spec (r_Frame r - d) 1); symmetry; [apply bool_decide_eq_true|apply bool_decide_eq_false]; lia.
Qed.

Lemma vote_step_inv el s :
  el_inv el -> s ∈ SortedIDs vv ->
  (d + 2 <= r_Frame r -> forall x, x ∈ seen r -> is_Some (votes el !! (x, s))) ->
  exists el', vote_step obs gfr r (u32 (r_Frame r - d)) el s = Ok el' /\ el_inv el' /\
    (forall k, is_Some (votes el' !! k) <-> k = (r, s) \/ is_Some (votes el !! k)) /\
    (forall k, is_Some (decidedRoots el !! k) -> is_Some (decidedRoots el' !! k)) /\
    (forall k, k <> s -> decidedRoots el' !! k = decidedRoots el !! k).
Proof.
  intros Hinv Hs Hseen. unfold vote_step. rewrite round_first.
  assert (exists v, (if bool_decide (r_Frame r = d + 1)
     then Ok (firstVote (observedRootsMap obs gfr (r_ID r) (r_Frame r - 1)) s)
     else laterVote el (observedRoots obs gfr (r_ID r) (r_Frame r - 1)) s) = Ok v /\ vote_ok r s v /\
     (negb (bool_decide (r_Frame r = d + 1)) && vote_decided v = true <-> d + 2 <= r_Frame r /\ spec_decided r s))
    as (v & -> & Hv & Hdec).
  { case_bool_decide as Hf.
    - eexists. split; [reflexivity|]. split; [by apply firstVote_ok|]. split; [done|]. intros [? _]. lia.
    - destruct (laterVote_ok el s Hinv) as (v & Hl & Hv & Hdec); [lia|done|apply Hseen; lia|].
      exists v. split; [done|]. split; [done|]. simpl. rewrite Hdec. split; [intros ?; split; [lia|done]|tauto]. }
  cbn [outcome_bind]. eexists. split; [reflexivity|]. cbn [votes decidedRoots].
  destruct Hinv as [H1 H2 H3 H4 H5]. split; [split; cbn [votes decidedRoots frameToDecide el_validators]|split; [|split]].
  - done.
  - done.
  - intros r' s' v' [[[= <- <-] <-]|[_ Hv']]%lookup_insert_Some; [done|by apply H3].
  - intros s' v'. destruct (_ && _) eqn:E; [|apply H4].
    intros [[<- <-]|[_ Hv']]%lookup_insert_Some; [|by apply H4].
    destruct (proj1 Hdec eq_refl) as [Hf Hsd]. split; [done|]. by exists r.
  - intros r' s' v' [[[= <- <-] <-]|[_ Hv']]%lookup_insert_Some Hf Hsd.
    + rewrite (proj2 Hdec) by done. by rewrite lookup_insert_eq.
    + destruct (H5 r' s' v' Hv' Hf Hsd) as [w Hw]. destruct (_ && _); [|by exists w]. rewrite lookup_insert_is_Some'. right. by exists w.
  - intros k. rewrite lookup_insert_is_Some'. naive_solver.
  - intros k Hk. destruct (_ && _); [|done]. rewrite lookup_insert_is_Some'. by right.
  - intros k Hk. destruct (_ && _); [|done]. by rewrite lookup_insert_ne.
Qed.

Lemma vote_loop l : forall el,
  el_inv el ->
  (forall s, s ∈ l -> s ∈ SortedIDs vv /\
     (d + 2 <= r_Frame r -> forall x, x ∈ seen r -> is_Some (votes el !! (x, s)))) ->
  exists el', foldM (vote_step obs gfr r (u32 (r_Frame r - d))) el l = Ok el' /\ el_inv el' /\
    (forall k, is_Some (votes el !! k) -> is_Some (votes el' !! k)) /\
    (forall s, s ∈ l -> is_Some (votes el' !! (r, s))) /\
    (forall k, is_Some (decidedRoots el !! k) -> is_Some (decidedRoots el' !! k)).
Proof.
  induction l as [|s l IH]; intros el Hinv Hl; [exists el; split; [done|]; split; [done|]; split; [done|]; split; [by intros s ?%not_elem_of_nil|done]|].
  destruct (Hl s ltac:(left)) as [Hs Hseen]. simpl.
  destruct (vote_step_inv el s Hinv Hs Hseen) as (el1 & -> & Hinv1 & Hv1 & Hd1 & _). simpl.
  destruct (IH el1 Hinv1) as (el2 & -> & Hinv2 & Hv2 & Hl2 & Hd2).
  { intros s' Hs'. destruct (Hl s' ltac:(by right)) as [Hin Hx]. split; [done|]. intros Hf x Hxs.
    apply Hv1. right. by apply Hx. }
  exists el2. split; [done|]. split; [done|]. split; [|split].
  - intros k Hk. apply Hv2, Hv1. by right.
  - intros s' [->|Hs']%elem_of_cons; [apply Hv2, Hv1; by left|by apply Hl2].
  - intros k Hk. by apply Hd2, Hd1.
Qed.

End process.

(** ** Choosing the Atropos *)

Lemma chooseAtropos_loop_total el l :
  (exists s, s ∈ l /\ forall v, decidedRoots el !! s = Some v -> vote_yes v = true) ->
  exists res, chooseAtropos_loop el l = Ok res.
Proof.
  induction l as [|s l IH]; intros (s0 & Hin & Hs0); [by apply not_elem_of_nil in Hin|]. simpl.
  destruct (decidedRoots el !! s) as [v|] eqn:Hv; [|by eexists].
  destruct (vote_yes v) eqn:Ey; [by eexists|]. apply IH. exists s0. split; [|done].
  apply elem_of_cons in Hin as [->|]; [|done]. specialize (Hs0 v Hv). congruence.
Qed.

Lemma chooseAtropos_total el :
  el_inv el -> SortedIDs vv <> [] -> exists res, chooseAtropos el = Ok res.
Proof.
  intros Hinv Hne. unfold chooseAtropos. rewrite (ev_validators _ Hinv). apply chooseAtropos_loop_total.
  destruct (SortedIDs vv) as [|s0 ids] eqn:Hids; [done|]. rewrite <- Hids.
  destruct (decidedRoots el !! s0) as [v0|] eqn:Hv0; [|exists s0; rewrite Hids; split; [left|congruence]].
  destruct (ev_decided _ Hinv _ _ Hv0) as (_ & r0 & Hr0 & Hf0 & _).
  destruct (root_at_second vv Hwf d obs G HO r0 Hr0 Hf0) as (r2 & Hr2 & Hf2).
  destruct (popular_subject vv Hwf d obs G HO r2 Hr2 Hf2) as (s & Hs & Hpop).
  exists s. split; [done|]. intros v Hv.
  destruct (ev_decided _ Hinv _ _ Hv) as (_ & r & Hr & Hf & _ & [-> _]).
  by apply (popular_elected vv Hwf d obs G HO s Hpop).
Qed.

Lemma notDecidedRoots_ok el :
  el_inv el -> notDecidedRoots el = Ok (filter (fun v => decidedRoots el !! v = None) (SortedIDs vv)).
Proof.
  intros Hinv. unfold notDecidedRoots. rewrite (ev_validators _ Hinv).
  change (IDs vv) with (SortedIDs vv). rewrite <- (wf_ids_len _ Hwf).
  set (N := filter (fun v => decidedRoots el !! v = None) (SortedIDs vv)).
  set (Y := filter (fun v => ~ decidedRoots el !! v = None) (SortedIDs vv)).
  assert (dom (decidedRoots el) =@{gset Z} list_to_set Y) as Hdom.
  { apply set_eq. intros s. rewrite elem_of_dom, elem_of_list_to_set. unfold Y. rewrite list_elem_of_filter.
    split; [|intros [Hn _]; by apply not_eq_None_Some in Hn].
    intros [v Hv]. split; [congruence|]. by apply (ev_decided _ Hinv) in Hv as [? _]. }
  assert (size (decidedRoots el) = length Y) as ->.
  { rewrite <- (size_dom (D := gset Z)), Hdom. apply size_list_to_set, NoDup_filter, (wf_ids_NoDup _ Hwf). }
  assert (SortedIDs vv ≡ₚ N ++ Y) as Hp.
  { symmetry. apply filter_app_complement. }
  pose proof (Permutation_length Hp) as Hlen. rewrite length_app in Hlen.
  rewrite <- Hlen, Nat.eqb_refl. done.
Qed.

(** ** ProcessRoot *)

Definition known (el : Election) (P : list RootAndSlot) : Prop :=
  chooseAtropos el = Ok None -> forall x, x ∈ P -> d < r_Frame x -> has_voted el x.

Lemma decided_unique el1 el2 s v1 v2 :
  el_inv el1 -> el_inv el2 -> decidedRoots el1 !! s = Some v1 -> decidedRoots el2 !! s = Some v2 ->
  vote_yes v1 = vote_yes v2 /\ (vote_yes v1 = true -> vote_observedRoot v1 = vote_observedRoot v2).
Proof.
  intros H1 H2 Hv1 Hv2.
  destruct (ev_decided _ H1 _ _ Hv1) as (_ & r1 & Hr1 & Hf1 & Hd1 & [Hy1 Hs1]).
  destruct (ev_decided _ H2 _ _ Hv2) as (_ & r2 & Hr2 & Hf2 & Hd2 & [Hy2 Hs2]).
  assert (vote_yes v1 = vote_yes v2) as Heq.
  { rewrite Hy1, Hy2. destruct (Z.le_ge_cases (r_Frame r1) (r_Frame r2)).
    - symmetry. by apply (decided_forever vv Hwf d obs G HO r1 r2 s).
    - by apply (decided_forever vv Hwf d obs G HO r2 r1 s). }
  split; [done|]. intros Hy. apply (subject_unique s); [auto|]. apply Hs2. congruence.
Qed.

Lemma ProcessRoot_inv el P gfr r :
  el_inv el -> known el P -> is_root r ->
  filter (fun x => obs (r_ID r) (r_ID x) = true) (gfr (r_Frame r - 1)) ≡ₚ seen r ->
  (forall x, x ∈ seen r -> d < r_Frame x -> x ∈ P) ->
  exists res el', ProcessRoot obs gfr el r = Ok (res, el') /\ el_inv el' /\ known el' (r :: P) /\
    chooseAtropos el' = Ok res.
Proof.
  intros Hinv HP Hr Hgfr Hseen.
  assert (SortedIDs vv <> []) as Hne.
  { pose proof (ol_validator _ _ _ _ HO _ _ Hr) as Hv. intros Hnil. rewrite Hnil in Hv. by apply not_elem_of_nil in Hv. }
  destruct (chooseAtropos_total el Hinv Hne) as (res & Hc). unfold ProcessRoot. rewrite Hc. cbn [outcome_bind].
  destruct res as [res|].
  { exists (Some res), el. split; [done|]. split; [done|]. split; [|done]. intros Hn. congruence. }
  rewrite (ev_frame _ Hinv). destruct (_ <=? d) eqn:E; bool_to_prop.
  { exists None, el. split; [done|]. split; [done|]. split; [|done].
    intros _ x [->|Hx]%elem_of_cons Hf; [lia|by apply HP]. }
  pose proof (Hframes _ _ Hr). rewrite (u32_small (r_Frame r - d)) by solve_width.
  destruct (_ =? 0) eqn:E2; bool_to_prop; [lia|].
  rewrite (notDecidedRoots_ok el Hinv). cbn [outcome_bind].
  destruct (vote_loop gfr r Hr E Hgfr (filter (fun v => decidedRoots el !! v = None) (SortedIDs vv)) el Hinv)
    as (el' & Hf & Hinv' & Hv & Hl & Hdc).
  { intros s [Hnd Hs]%list_elem_of_filter. split; [done|]. intros Hf x Hx.
    destruct (seen_root vv d obs G HO r x Hx) as [_ Hfx].
    apply (HP Hc x); [|lia|done|done]. apply Hseen; [done|lia]. }
  rewrite u32_small in Hf by solve_width. rewrite Hf. cbn [outcome_bind].
  destruct (chooseAtropos_total el' Hinv' Hne) as (res' & Hc'). rewrite Hc'. cbn [outcome_bind].
  exists res', el'. split; [done|]. split; [done|]. split; [|done].
  intros _ x Hx Hfx s Hs Hnd. assert (decidedRoots el !! s = None) as Hnd0.
  { destruct (decidedRoots el !! s) eqn:Es; [|done]. destruct (Hdc s ltac:(by eexists)). congruence. }
  apply elem_of_cons in Hx as [->|Hx].
  - apply Hl. by apply list_elem_of_filter.
  - apply Hv. by apply (HP Hc x).
Qed.

Lemma chooseAtropos_agree el1 el2 a b :
  el_inv el1 -> el_inv el2 -> chooseAtropos el1 = Ok (Some a) -> chooseAtropos el2 = Ok (Some b) -> a = b.
Proof.
  intros H1 H2. unfold chooseAtropos. rewrite (ev_validators _ H1), (ev_validators _ H2).
  induction (SortedIDs vv) as [|s l IH]; simpl; [done|].
  destruct (decidedRoots el1 !! s) as [v1|] eqn:Hv1; [|done].
  destruct (decidedRoots el2 !! s) as [v2|] eqn:Hv2; [|done].
  destruct (decided_unique el1 el2 s v1 v2 H1 H2 Hv1 Hv2) as [Hy Hh]. rewrite <- Hy.
  destruct (vote_yes v1); [|done]. intros [= <-] [= <-].
  rewrite (ev_frame _ H1), (ev_frame _ H2), Hh by done. done.
Qed.

(** Once all the roots have voted, nothing can be decided that is not: the
    decision does not depend on the order in which the roots came. *)
Lemma undecided_for_good el el' P a :
  el_inv el -> el_inv el' -> known el P -> (forall r, is_root r -> d < r_Frame r -> r ∈ P) ->
  chooseAtropos el = Ok None -> chooseAtropos el' <> Ok (Some a).
Proof.
  intros H1 H2 Hk Hall Hn. specialize (Hk Hn).
  assert (forall s, is_Some (decidedRoots el' !! s) -> is_Some (decidedRoots el !! s)) as Hsub.
  { intros s [v Hv]. destruct (ev_decided _ H2 _ _ Hv) as (Hs & r & Hr & Hf & Hd' & _).
    destruct (decidedRoots el !! s) as [w|] eqn:Hw; [by exists w|].
    destruct (Hk r (Hall r Hr ltac:(lia)) ltac:(lia) s Hs Hw) as [x Hx].
    destruct (ev_marked _ H1 r s x Hx Hf Hd') as [y Hy]. congruence. }
  revert Hn. unfold chooseAtropos. rewrite (ev_validators _ H1), (ev_validators _ H2).
  induction (SortedIDs vv) as [|s l IH]; simpl; [done|].
  destruct (decidedRoots el' !! s) as [v2|] eqn:Hv2; [|done]. destruct (Hsub s ltac:(by eexists)) as [v1 Hv1]. rewrite Hv1.
  destruct (decided_unique el el' s v1 v2 H1 H2 Hv1 Hv2) as [<- _]. by destruct (vote_yes v1).
Qed.

Lemma chooseAtropos_root el a :
  el_inv el -> chooseAtropos el = Ok (Some a) ->
  res_Frame a = d /\ exists x, x ∈ G d /\ r_ID x = res_Atropos a.
Proof.
  intros H1. unfold chooseAtropos. rewrite (ev_validators _ H1).
  induction (SortedIDs vv) as [|s l IH]; simpl; [done|].
  destruct (decidedRoots el !! s) as [v|] eqn:Hv; [|done]. destruct (vote_yes v) eqn:Ey; [|done].
  intros [= <-]. simpl. split; [by apply ev_frame|].
  destruct (ev_decided _ H1 _ _ Hv) as (_ & _ & _ & _ & _ & [_ Hs]). destruct (Hs Ey) as (x & r & Hr & Hf & Hx & _ & Hid).
  destruct (seen_root vv d obs G HO r x Hx) as [Hrx Hfx]. exists x. split; [|done].
  unfold ElectionSafety.is_root in Hrx. by replace d with (r_Frame x) by lia.
Qed.

End election.

(** ** The same election seen in a larger set of roots *)

Section larger.
Context (vv : Validators) (Hwf : wf vv) (d : Z) (obs : Z -> Z -> bool) (G1 G2 : Z -> list RootAndSlot).
Context (HO1 : oracle_laws vv d obs G1) (Hroots : forall r, is_root G1 r -> is_root G2 r).
Context (Hseen : forall r x, is_root G1 r -> x ∈ seen obs G2 r <-> x ∈ seen obs G1 r).

Lemma voters_larger r P Q v :
  is_root G1 r -> (forall x, x ∈ seen obs G1 r -> P x = Q x) -> voters obs G2 r P v = voters obs G1 r Q v.
Proof.
  intros Hr HPQ. apply eq_iff_eq_true. rewrite !voters_spec. split; intros (x & Hx & Hv & HP); exists x.
  - apply (Hseen r x Hr) in Hx. rewrite <- HPQ by done. done.
  - rewrite HPQ by done. split; [by apply Hseen|done].
Qed.

Lemma seen_is_root r x : x ∈ seen obs G1 r -> is_root G1 x.
Proof. intros Hx. by destruct (seen_root vv d obs G1 HO1 r x Hx). Qed.

Lemma spec_yes_larger n : forall r s, is_root G1 r -> spec_yes vv obs G2 n r s = spec_yes vv obs G1 n r s.
Proof.
  induction n as [|[|n] IH]; intros r s Hr; [done| |].
  - by apply voters_larger.
  - change (spec_yes vv obs G2 (S (S n)) r s) with
      (weight_of vv (voters obs G2 r (fun x => negb (spec_yes vv obs G2 (S n) x s))) <=?
       weight_of vv (voters obs G2 r (fun x => spec_yes vv obs G2 (S n) x s))).
    change (spec_yes vv obs G1 (S (S n)) r s) with
      (weight_of vv (voters obs G1 r (fun x => negb (spec_yes vv obs G1 (S n) x s))) <=?
       weight_of vv (voters obs G1 r (fun x => spec_yes vv obs G1 (S n) x s))).
    f_equal; apply weight_of_ext; intros v _; apply voters_larger; try done; intros x Hx;
      rewrite IH; try done; by apply (seen_is_root r).
Qed.

Lemma vote_of_larger r s : is_root G1 r -> vote_of vv d obs G2 r s = vote_of vv d obs G1 r s.
Proof. apply spec_yes_larger. Qed.

Lemma spec_decided_larger r s : is_root G1 r -> spec_decided vv d obs G1 r s <-> spec_decided vv d obs G2 r s.
Proof.
  intros Hr. unfold spec_decided, is_quorum.
  assert (forall b : bool, weight_of vv (voters obs G2 r (fun x => if b then vote_of vv d obs G2 x s else negb (vote_of vv d obs G2 x s))) =
    weight_of vv (voters obs G1 r (fun x => if b then vote_of vv d obs G1 x s else negb (vote_of vv d obs G1 x s)))) as Hw.
  { intros b. apply weight_of_ext. intros v _. apply voters_larger; [done|]. intros x Hx. by rewrite vote_of_larger by (by apply (seen_is_root r)). }
  pose proof (Hw true) as H1. pose proof (Hw false) as H2. cbv beta iota in H1, H2. by rewrite H1, H2.
Qed.

Lemma vote_ok_larger r s v : is_root G1 r -> vote_ok vv d obs G1 r s v -> vote_ok vv d obs G2 r s v.
Proof.
  intros Hr [Hy Hs]. split; [by rewrite vote_of_larger|]. intros Hyes.
  destruct (Hs Hyes) as (x & r' & Hr' & Hf & Hx & Hv & Hid). exists x, r'.
  split; [auto|]. split; [done|]. split; [by apply Hseen|done].
Qed.

Lemma el_inv_larger el : el_inv vv d obs G1 el -> el_inv vv d obs G2 el.
Proof.
  intros [H1 H2 H3 H4 H5]. split; [done|done| | |].
  - intros r s v Hv. destruct (H3 r s v Hv) as [Hr Hok]. split; [auto|by apply vote_ok_larger].
  - intros s v Hv. destruct (H4 s v Hv) as (Hs & r & Hr & Hf & Hd & Hok). split; [done|]. exists r.
    split; [auto|]. split; [done|]. split; [by apply spec_decided_larger|by apply vote_ok_larger].
  - intros r s v Hv Hf Hd. apply (H5 r s v Hv Hf), spec_decided_larger; [by destruct (H3 r s v Hv)|done].
Qed.

End larger.

(** ** Elections a node can be in *)

(** A node starts the election of the frame [d] and processes roots in any
    order in which a root comes after the roots of the previous frame that
    forkless-cause it; [gfr] is what the node's store holds at that point. *)
Inductive el_reach (vv : Validators) (d : Z) (obs : Z -> Z -> bool) (G : Z -> list RootAndSlot) :
    Election -> list RootAndSlot -> Prop :=
| el_new : el_reach vv d obs G (Election_New vv d) []
| el_process el P gfr r res el' :
    el_reach vv d obs G el P -> is_root G r ->
    filter (fun x => obs (r_ID r) (r_ID x) = true) (gfr (r_Frame r - 1)) ≡ₚ seen obs G r ->
    (forall x, x ∈ seen obs G r -> d < r_Frame x -> x ∈ P) ->
    ProcessRoot obs gfr el r = Ok (res, el') ->
    el_reach vv d obs G el' (r :: P).

Lemma el_reach_inv vv d obs G el P :
  wf vv -> oracle_laws vv d obs G -> 0 <= d -> (forall f r, r ∈ G f -> f < 2 ^ 32) ->
  el_reach vv d obs G el P -> el_inv vv d obs G el /\ known vv d el P.
Proof.
  intros Hwf HO Hd Hfr. induction 1 as [|el P gfr r res el' _ [IH1 IH2] Hr Hg Hs Hp].
  - split; [split; simpl; try done; intros *; by rewrite lookup_empty|].
    intros _ x Hx. by apply not_elem_of_nil in Hx.
  - destruct (ProcessRoot_inv vv Hwf d obs G HO Hd Hfr el P gfr r IH1 IH2 Hr Hg Hs) as (res2 & el2 & Hp2 & Hi & Hk & _).
    rewrite Hp in Hp2. by injection Hp2 as <- <-.
Qed.

(** ** Properties *)



(** ** Witnesses: one validator, one root in each of the frames 1 to 3 *)

Definition lone_root (f : Z) : RootAndSlot := mk_RootAndSlot (100 + f) (mk_Slot f 1).
Definition lone_G (f : Z) : list RootAndSlot := if (1 <=? f) && (f <=? 3) then [lone_root f] else [].
Definition lone_obs (a b : Z) : bool := a =? b + 1.

Lemma elem_of_lone_G f r : r ∈ lone_G f <-> r = lone_root f /\ 1 <= f <= 3.
Proof.
  unfold lone_G. destruct ((1 <=? f) && (f <=? 3)) eqn:E; bool_to_prop.
  - rewrite list_elem_of_singleton. naive_solver.
  - split; [by intros ?%not_elem_of_nil|]. intros [_ ?]. lia.
Qed.

Lemma lone_laws : oracle_laws solo 1 lone_obs lone_G.
Proof.
  split.
  - by intros f r [-> _]%elem_of_lone_G.
  - intros f r [-> _]%elem_of_lone_G. vm_compute. left.
  - intros f. unfold lone_G. destruct (_ && _); [apply NoDup_singleton|constructor].
  - intros f r1 r2 x y _ _ [-> _]%elem_of_lone_G [-> _]%elem_of_lone_G. done.
  - intros f r Hf [-> Hr]%elem_of_lone_G. unfold lone_G.
    rewrite (proj2 (Z.leb_le 1 f)), (proj2 (Z.leb_le f 3)) by lia. simpl. unfold lone_obs.
    replace (100 + (f + 1) =? 100 + f + 1) with true by (symmetry; apply Z.eqb_eq; lia). vm_compute. done.
Qed.

Lemma lone_frames f r : r ∈ lone_G f -> f < 2 ^ 32.
Proof. intros [_ ?]%elem_of_lone_G. lia. Qed.

Definition lone_el (roots : list RootAndSlot) : Election :=
  foldl (fun el r => match ProcessRoot lone_obs lone_G el r with Ok (_, el') => el' | _ => el end)
    (Election_New solo 1) roots.

Lemma lone_reach : el_reach solo 1 lone_obs lone_G (lone_el [lone_root 2]) [lone_root 2].
Proof.
  eapply (el_process _ _ _ _ (Election_New solo 1) [] lone_G).
  - constructor.
  - by apply elem_of_lone_G.
  - done.
  - intros x [_ [-> _]%elem_of_lone_G]%list_elem_of_filter Hx. vm_compute in Hx. done.
  - vm_compute. reflexivity.
Qed.

Lemma lone_seen3 x : x ∈ seen lone_obs lone_G (lone_root 3) -> 1 < r_Frame x -> x ∈ [lone_root 2].
Proof. intros [_ [-> _]%elem_of_lone_G]%list_elem_of_filter _. left. Qed.


