(* ===== verification/AbftStore.v ===== *)
(** * abft: the store of the consensus

    abft/store*.go and apply_genesis.go: the last decided frame and the epoch
    state in the main database (each with its one-value cache), and, in a
    database per epoch, the roots by frame and the events confirmed by a block.
    The roots of a frame are cached; the cache is any [LossyCache].

    RLP values are kept decoded, the databases are finite maps, and a database
    error, fatal in the source, does not occur in this model; StoreBytes.v has
    the store over the bytes of its databases. *)

From S2P Require Import Prelude Bytes Pos Dag Wlru Kvdb Election.
Local Open Scope go_scope.

(** ** State *)

Record EpochState := mk_EpochState { es_Epoch : Z; es_Validators : Validators }.

(** The tables of an epoch database; [ConfirmedEvent] maps an event to the frame
    of the block that confirms it. *)
Record EpochDB := mk_EpochDB { t_Roots : kv; t_ConfirmedEvent : gmap Z Z }.

Definition empty_EpochDB : EpochDB := mk_EpochDB ∅ ∅.

Definition FirstFrame : Z := 1.
Definition FirstEpoch : Z := 1.

(** abft/store_roots.go: the key of a root. *)
Definition rootRecordKey (r : RootAndSlot) : list Z :=
  Frame_Bytes (r_Frame r) ++ ValidatorID_Bytes (r_Validator r) ++ Event_Bytes (r_ID r).

Section store.
Context {C : Type} `{!LossyCache C Z (list RootAndSlot)}.

(** [st_dbs] are the epoch databases on disk, [st_open] the opened one. *)
Record Store := mk_Store {
  st_LastDecidedState : option Z;
  st_EpochState : option EpochState;
  st_cacheLastDecided : option Z;
  st_cacheEpoch : option EpochState;
  st_FrameRoots : C;
  st_dbs : gmap Z EpochDB;
  st_open : Z
}.

Definition epochTable (s : Store) : EpochDB := default empty_EpochDB (st_dbs s !! st_open s).

Definition set_epochTable (s : Store) (t : EpochDB) : Store :=
  mk_Store (st_LastDecidedState s) (st_EpochState s) (st_cacheLastDecided s) (st_cacheEpoch s)
    (st_FrameRoots s) (<[st_open s := t]> (st_dbs s)) (st_open s).

Definition set_FrameRoots (s : Store) (c : C) : Store :=
  mk_Store (st_LastDecidedState s) (st_EpochState s) (st_cacheLastDecided s) (st_cacheEpoch s)
    c (st_dbs s) (st_open s).

(** *** abft/store_last_decided_state.go *)

Definition SetLastDecidedState (s : Store) (v : Z) : Store :=
  mk_Store (Some v) (st_EpochState s) (Some v) (st_cacheEpoch s) (st_FrameRoots s) (st_dbs s) (st_open s).

Definition GetLastDecidedState (s : Store) : outcome (Z * Store) :=
  match st_cacheLastDecided s with
  | Some v => Ok (v, s)
  | None =>
      match st_LastDecidedState s with
      | None => Panic "genesis not applied"
      | Some w => Ok (w, mk_Store (st_LastDecidedState s) (st_EpochState s) (Some w) (st_cacheEpoch s)
                           (st_FrameRoots s) (st_dbs s) (st_open s))
      end
  end.

(** *** abft/store_epoch_state.go *)

Definition SetEpochState (s : Store) (e : EpochState) : Store :=
  mk_Store (st_LastDecidedState s) (Some e) (st_cacheLastDecided s) (Some e) (st_FrameRoots s) (st_dbs s) (st_open s).

Definition GetEpochState (s : Store) : outcome (EpochState * Store) :=
  match st_cacheEpoch s with
  | Some e => Ok (e, s)
  | None =>
      match st_EpochState s with
      | None => Panic "genesis not applied"
      | Some e => Ok (e, mk_Store (st_LastDecidedState s) (st_EpochState s) (st_cacheLastDecided s) (Some e)
                           (st_FrameRoots s) (st_dbs s) (st_open s))
      end
  end.

(** *** abft/apply_genesis.go *)

Definition applyGenesis_ (s : Store) (epoch : Z) (validators : Validators) : Store :=
  SetLastDecidedState (SetEpochState s (mk_EpochState epoch validators)) (FirstFrame - 1).

Definition ApplyGenesis (s : Store) (g : option EpochState) : outcome Store :=
  match g with
  | None => Err "genesis config shouldn't be nil"
  | Some g =>
      if (Validators_Len (es_Validators g) =? 0)%nat then Err "genesis validators shouldn't be empty"
      else match st_LastDecidedState s with
           | Some _ => Err "genesis already applied"
           | None => Ok (applyGenesis_ s (es_Epoch g) (es_Validators g))
           end
  end.

(** *** abft/store.go: epoch databases *)

Definition dropEpochDB (s : Store) : Store :=
  mk_Store (st_LastDecidedState s) (st_EpochState s) (st_cacheLastDecided s) (st_cacheEpoch s)
    (st_FrameRoots s) (delete (st_open s) (st_dbs s)) (st_open s).

Definition openEpochDB (s : Store) (n : Z) : Store :=
  mk_Store (st_LastDecidedState s) (st_EpochState s) (st_cacheLastDecided s) (st_cacheEpoch s)
    (cache_purge (st_FrameRoots s)) (st_dbs s) n.

(** *** abft/store_event_confirmed.go *)

Definition SetEventConfirmedOn (s : Store) (e on : Z) : Store :=
  let t := epochTable s in set_epochTable s (mk_EpochDB (t_Roots t) (<[e := on]> (t_ConfirmedEvent t))).

Definition GetEventConfirmedOn (s : Store) (e : Z) : Z := default 0 (t_ConfirmedEvent (epochTable s) !! e).

(** *** abft/store_roots.go *)

Definition addRoot (s : Store) (root : BaseEvent) (frame : Z) : Store :=
  let r := mk_RootAndSlot (e_id root) (mk_Slot frame (e_creator root)) in
  let t := epochTable s in
  let s := set_epochTable s (mk_EpochDB (<[rootRecordKey r := []]> (t_Roots t)) (t_ConfirmedEvent t)) in
  let '(c, cache) := cache_get (st_FrameRoots s) frame in
  match c with
  | Some rr => let rr := rr ++ [r] in set_FrameRoots s (cache_add cache frame rr (Z.of_nat (length rr)))
  | None => set_FrameRoots s cache
  end.

(** The frames [from + 1 .. to] of the loops over frames. *)
Definition frames_between (from to : Z) : list Z := (fun i => from + 1 + Z.of_nat i) <$> seq 0 (Z.to_nat (to - from)).

Definition AddRoot (s : Store) (selfParentFrame : Z) (root : BaseEvent) : Store :=
  foldl (fun s f => addRoot s root f) s (frames_between selfParentFrame (e_frame root)).

(** One record of the iterator. *)
Definition decode_root (f : Z) (rr : list RootAndSlot) (kv : list Z * list Z) : outcome (list RootAndSlot) :=
  let key := kv.1 in
  if negb (length key =? 4 + 4 + 32)%nat then Panic "roots table: incorrect key len"
  else
  let* frame := BytesToFrame (slice key 0 4) in
  let* validator := BytesToValidatorID (slice key 4 8) in
  let id := BytesToEvent (drop 8 key) in
  if negb (frame =? f) then Panic "roots table: invalid frame"
  else Ok (rr ++ [mk_RootAndSlot id (mk_Slot frame validator)]).

Definition GetFrameRoots (s : Store) (f : Z) : outcome (list RootAndSlot * Store) :=
  let '(c, cache) := cache_get (st_FrameRoots s) f in
  match c with
  | Some rr => Ok (rr, set_FrameRoots s cache)
  | None =>
      let* rr := foldM (decode_root f) [] (kv_iter (t_Roots (epochTable s)) (Frame_Bytes f) []) in
      Ok (rr, set_FrameRoots s (cache_add cache f rr (Z.of_nat (length rr))))
  end.

End store.
Arguments Store : clear implicits.

(** * What the roots table holds *)

Definition root_ok (r : RootAndSlot) : Prop := is_u32 (r_Frame r) /\ is_u32 (r_Validator r) /\ is_hash (r_ID r).

Lemma Frame_Bytes_length f : length (Frame_Bytes f) = 4%nat.
Proof. apply be_split_length. Qed.
Lemma ValidatorID_Bytes_length v : length (ValidatorID_Bytes v) = 4%nat.
Proof. apply be_split_length. Qed.
Lemma Event_Bytes_length h : length (Event_Bytes h) = 32%nat.
Proof. apply be_split_length. Qed.

Lemma decode_rootRecordKey r v rr :
  root_ok r -> decode_root (r_Frame r) rr (rootRecordKey r, v) = Ok (rr ++ [r]).
Proof.
  intros (Hf & Hv & Hh). unfold decode_root. cbn [fst].
  assert (length (rootRecordKey r) = 40%nat) as Hlen.
  { unfold rootRecordKey. by rewrite !length_app, Frame_Bytes_length, ValidatorID_Bytes_length, Event_Bytes_length. }
  rewrite Hlen. cbn [Nat.eqb Nat.add negb].
  assert (slice (rootRecordKey r) 0 4 = Frame_Bytes (r_Frame r)) as ->.
  { unfold slice, rootRecordKey. rewrite drop_0. by apply take_app_length'. }
  assert (slice (rootRecordKey r) 4 8 = ValidatorID_Bytes (r_Validator r)) as ->.
  { unfold slice, rootRecordKey. rewrite (drop_app_length' (Frame_Bytes _)) by done. by apply take_app_length'. }
  assert (drop 8 (rootRecordKey r) = Event_Bytes (r_ID r)) as ->.
  { unfold rootRecordKey. rewrite app_assoc. by apply drop_app_length'. }
  unfold BytesToFrame, BytesToValidatorID, BE_BytesToUint32, Frame_Bytes, ValidatorID_Bytes, BE_Uint32ToBytes.
  rewrite !read_be_split by (unfold is_u32 in *; change (256 ^ Z.of_nat 4) with (2 ^ 32); done).
  cbn [outcome_bind]. rewrite Z.eqb_refl. cbn [negb].
  rewrite BytesToEvent_Bytes by done. by destruct r as [id [f w]].
Qed.

Lemma rootRecordKey_prefix r f :
  root_ok r -> is_u32 f -> HasPrefix (rootRecordKey r) (Frame_Bytes f) = true <-> r_Frame r = f.
Proof.
  intros (Hr & _ & _) Hf. rewrite HasPrefix_spec. unfold rootRecordKey. split.
  - intros [k Hk]. apply app_inj_1 in Hk as [Hk _]; [|by rewrite !Frame_Bytes_length].
    assert (BE_BytesToUint32 (Frame_Bytes (r_Frame r)) = BE_BytesToUint32 (Frame_Bytes f)) as Hd by (by rewrite Hk).
    unfold BE_BytesToUint32, Frame_Bytes, BE_Uint32ToBytes in Hd.
    rewrite !read_be_split in Hd by (unfold is_u32 in *; change (256 ^ Z.of_nat 4) with (2 ^ 32); done). congruence.
  - intros <-. by eexists.
Qed.

Lemma rootRecordKey_inj r1 r2 : root_ok r1 -> root_ok r2 -> rootRecordKey r1 = rootRecordKey r2 -> r1 = r2.
Proof.
  intros H1 H2 Hk. assert (r_Frame r1 = r_Frame r2) as Hf.
  { symmetry. apply rootRecordKey_prefix; [done|apply H1|]. rewrite <- Hk. apply rootRecordKey_prefix; [done|apply H1|done]. }
  pose proof (decode_rootRecordKey r1 [] [] H1) as E1. pose proof (decode_rootRecordKey r2 [] [] H2) as E2.
  rewrite Hk, Hf, E2 in E1. by injection E1.
Qed.

Section roots.
Context {C : Type} `{!LossyCache C Z (list RootAndSlot)} `{!LossyCacheLaws C Z (list RootAndSlot)}.
Implicit Types (s : Store C) (R : gset RootAndSlot).

(** [R] are the roots in the table; the cache holds, in some order, exactly the
    roots of the frames it knows. *)
Record roots_inv R s : Prop := {
  ri_ok : forall r, r ∈ R -> root_ok r;
  ri_keys : forall k, is_Some (t_Roots (epochTable s) !! k) <-> exists r, r ∈ R /\ rootRecordKey r = k;
  ri_cache_ok : cache_ok (st_FrameRoots s);
  ri_cache : forall f rr, cache_peek (st_FrameRoots s) f = Some rr ->
    rr ≡ₚ elements (filter (fun r => r_Frame r = f) R)
}.

Lemma decode_all l : forall rr f,
  (forall kv, kv ∈ l -> exists r, root_ok r /\ r_Frame r = f /\ kv.1 = rootRecordKey r) ->
  exists rs, foldM (decode_root f) rr l = Ok (rr ++ rs) /\
    Forall2 (fun kv r => root_ok r /\ r_Frame r = f /\ kv.1 = rootRecordKey r) l rs.
Proof.
  induction l as [|[k v] l IH]; intros rr f Hl; [exists []; by rewrite app_nil_r|].
  destruct (Hl (k, v) ltac:(left)) as (r & Hr & <- & Hk). simpl in Hk. subst k.
  cbn [foldM]. rewrite decode_rootRecordKey by done. cbn [outcome_bind].
  destruct (IH (rr ++ [r]) (r_Frame r)) as (rs & -> & Hrs); [intros; apply Hl; by right|].
  exists (r :: rs). rewrite <- app_assoc. split; [done|]. by constructor.
Qed.

Lemma set_FrameRoots_inv R s c :
  roots_inv R s -> cache_ok c ->
  (forall f rr, cache_peek c f = Some rr -> rr ≡ₚ elements (filter (fun r => r_Frame r = f) R)) ->
  roots_inv R (set_FrameRoots s c).
Proof. intros [? ? ? ?] Hc Hp. by split. Qed.

Lemma GetFrameRoots_spec R s f :
  roots_inv R s -> is_u32 f ->
  exists rr c, GetFrameRoots s f = Ok (rr, set_FrameRoots s c) /\
    rr ≡ₚ elements (filter (fun r => r_Frame r = f) R) /\ roots_inv R (set_FrameRoots s c).
Proof.
  intros Hinv Hf. pose proof Hinv as [Hok Hkeys Hcok Hcache]. unfold GetFrameRoots.
  pose proof (cache_get_fst _ f Hcok) as Hfst. pose proof (cache_get_ok _ f Hcok) as Hok'.
  pose proof (fun f' => cache_get_peek _ f f' Hcok) as Hpeek.
  destruct (cache_get (st_FrameRoots s) f) as [c cache]. simpl in *.
  destruct c as [rr|].
  { exists rr, cache. split; [done|]. split; [by apply Hcache|].
    apply set_FrameRoots_inv; [done..|]. intros f' rr'. rewrite Hpeek. apply Hcache. }
  set (l := kv_iter (t_Roots (epochTable s)) (Frame_Bytes f) []).
  assert (forall k v, (k, v) ∈ l -> exists r, r ∈ R /\ r_Frame r = f /\ k = rootRecordKey r) as Hl.
  { intros k v (Hk & Hp & _)%elem_of_kv_iter.
    destruct (proj1 (Hkeys k)) as (r & Hr & <-); [by eexists|]. exists r. split; [done|]. split; [|done].
    apply rootRecordKey_prefix; auto. }
  destruct (decode_all l [] f) as (rs & Hdec & Hrs).
  { intros [k v] (r & Hr & Hfr & Hk)%Hl. exists r. split; [by apply Hok|done]. }
  rewrite Hdec. simpl. exists rs, (cache_add cache f rs (Z.of_nat (length rs))). split; [done|].
  assert (rs ≡ₚ elements (filter (fun r => r_Frame r = f) R)) as Hperm.
  { assert (NoDup l.*1) as Hnd.
    { pose proof (kv_iter_strict (t_Roots (epochTable s)) (Frame_Bytes f) []) as Hs. fold l in Hs.
      clear -Hs. induction Hs as [|p l Hs IH Hall]; csimpl; constructor; [|done].
      intros (q & Hq & Hin)%list_elem_of_fmap. rewrite Forall_forall in Hall. specialize (Hall q Hin).
      rewrite Hq in Hall. by apply key_lt_irrefl in Hall. }
    assert (l.*1 = rootRecordKey <$> rs) as Heq.
    { clear -Hrs. induction Hrs as [|kv r l rs (_ & _ & Hk) _ IH]; csimpl; [done|]. by rewrite Hk, IH. }
    apply NoDup_Permutation.
    - rewrite Heq in Hnd. by apply NoDup_fmap_1 in Hnd.
    - apply NoDup_elements.
    - intros r. rewrite elem_of_elements, elem_of_filter. split.
      + intros [i Hi]%list_elem_of_lookup. destruct (Forall2_lookup_r _ _ _ _ _ Hrs Hi) as ([k v] & Hkv & Hr & Hfr & Hk).
        apply list_elem_of_lookup_2, Hl in Hkv as (r' & Hr' & _ & Hk'). simpl in Hk.
        split; [done|]. replace r with r'; [done|]. apply rootRecordKey_inj; [by apply Hok|done|congruence].
      + intros [Hfr Hr]. destruct (proj2 (Hkeys (rootRecordKey r))) as [v Hv]; [by exists r|].
        assert ((rootRecordKey r, v) ∈ l) as Hin.
        { apply elem_of_kv_iter. split; [done|].
          assert (HasPrefix (rootRecordKey r) (Frame_Bytes f) = true) as Hp by (apply rootRecordKey_prefix; auto).
          split; [done|]. rewrite app_nil_r. by apply prefix_key_le. }
        assert (rootRecordKey r ∈ rootRecordKey <$> rs) as Hin2.
        { rewrite <- Heq. apply list_elem_of_fmap. by exists (rootRecordKey r, v). }
        apply list_elem_of_fmap in Hin2 as (r' & Hk' & Hr'). apply rootRecordKey_inj in Hk' as ->; [done|by apply Hok|].
        apply list_elem_of_lookup in Hr' as [i Hi].
        by destruct (Forall2_lookup_r _ _ _ _ _ Hrs Hi) as (? & _ & ? & _). }
  split; [done|]. apply set_FrameRoots_inv; [done|apply cache_add_ok; [done|lia]|].
  intros f' rr' Hp. apply cache_add_peek in Hp as [[-> ->]|[_ Hp]]; [done|..|done|lia].
  rewrite Hpeek in Hp. by apply Hcache.
Qed.

Lemma epochTable_set s t : epochTable (set_epochTable s t) = t.
Proof. unfold epochTable, set_epochTable. simpl. by rewrite lookup_insert_eq. Qed.

Definition root_at (e : BaseEvent) (f : Z) : RootAndSlot := mk_RootAndSlot (e_id e) (mk_Slot f (e_creator e)).

Lemma addRoot_spec R s e f :
  roots_inv R s -> root_ok (root_at e f) -> root_at e f ∉ R -> roots_inv ({[root_at e f]} ∪ R) (addRoot s e f).
Proof.
  intros Hinv Hr Hnew. pose proof Hinv as [Hok Hkeys Hcok Hcache]. unfold addRoot.
  change (mk_RootAndSlot (e_id e) (mk_Slot f (e_creator e))) with (root_at e f).
  set (s1 := set_epochTable s _). change (st_FrameRoots s1) with (st_FrameRoots s).
  pose proof (cache_get_fst _ f Hcok) as Hfst. pose proof (cache_get_ok _ f Hcok) as Hok'.
  pose proof (fun f' => cache_get_peek _ f f' Hcok) as Hpeek.
  destruct (cache_get (st_FrameRoots s) f) as [c cache]. simpl in *.
  assert (forall k, is_Some (t_Roots (epochTable s1) !! k) <-> exists r, r ∈ {[root_at e f]} ∪ R /\ rootRecordKey r = k) as Hkeys'.
  { intros k. unfold s1. rewrite epochTable_set. simpl. rewrite lookup_insert_is_Some', Hkeys. set_solver. }
  assert (forall f', f' <> f -> filter (fun r => r_Frame r = f') ({[root_at e f]} ∪ R) = filter (fun r => r_Frame r = f') R) as Hoth.
  { intros f' Hne. apply set_eq. intros r. rewrite !elem_of_filter, elem_of_union, elem_of_singleton.
    split; [|tauto]. intros [Hf [->|?]]; [|done]. by rewrite <- Hf in Hne. }
  assert (forall r, r ∈ {[root_at e f]} ∪ R -> root_ok r) as Hok2.
  { intros r [->%elem_of_singleton|]%elem_of_union; auto. }
  assert (elements (filter (fun r => r_Frame r = f) ({[root_at e f]} ∪ R)) ≡ₚ
          elements (filter (fun r => r_Frame r = f) R) ++ [root_at e f]) as Hself.
  { rewrite Permutation_app_comm. simpl. rewrite <- elements_union_singleton.
    - apply reflexive_eq. f_equal. apply set_eq. intros r.
      rewrite elem_of_union, elem_of_singleton, !elem_of_filter, elem_of_union, elem_of_singleton. naive_solver.
    - rewrite elem_of_filter. tauto. }
  destruct c as [rr|]; (split; [done|done| |]); simpl.
  - apply cache_add_ok; [done|lia].
  - intros f' rr' Hp. apply cache_add_peek in Hp as [[-> ->]|[Hne Hp]]; [| |done|lia].
    + rewrite Hself, (Hcache f rr) by done. done.
    + rewrite Hpeek in Hp. rewrite Hoth by done. by apply Hcache.
  - done.
  - intros f' rr' Hp. rewrite Hpeek in Hp. destruct (decide (f' = f)) as [->|Hne]; [congruence|].
    rewrite Hoth by done. by apply Hcache.
Qed.

Lemma elem_of_frames_between f a b : f ∈ frames_between a b <-> a < f <= b.
Proof.
  unfold frames_between. rewrite list_elem_of_fmap. setoid_rewrite elem_of_seq. split.
  - intros (i & -> & Hi). lia.
  - intros Hf. exists (Z.to_nat (f - (a + 1))). lia.
Qed.

Lemma frames_between_NoDup a b : NoDup (frames_between a b).
Proof. unfold frames_between. apply NoDup_fmap_2; [intros x y; lia|apply NoDup_seq]. Qed.

(** The slots an event occupies as a root. *)
Definition root_slots (selfParentFrame : Z) (e : BaseEvent) : gset RootAndSlot :=
  list_to_set (root_at e <$> frames_between selfParentFrame (e_frame e)).

Lemma elem_of_root_slots r spf e :
  r ∈ root_slots spf e <-> exists f, r = root_at e f /\ spf < f <= e_frame e.
Proof.
  unfold root_slots. rewrite elem_of_list_to_set, list_elem_of_fmap. by setoid_rewrite elem_of_frames_between.
Qed.

Lemma AddRoot_spec R s spf e :
  roots_inv R s -> (forall f, spf < f <= e_frame e -> root_ok (root_at e f) /\ root_at e f ∉ R) ->
  roots_inv (root_slots spf e ∪ R) (AddRoot s spf e).
Proof.
  intros Hinv Hall. unfold AddRoot, root_slots.
  assert (forall l R s, NoDup l -> roots_inv R s -> (forall f, f ∈ l -> root_ok (root_at e f) /\ root_at e f ∉ R) ->
    roots_inv (list_to_set (root_at e <$> l) ∪ R) (foldl (fun s f => addRoot s e f) s l)) as Hgen.
  { clear. induction l as [|f l IH]; intros R s Hnd Hinv Hl; csimpl.
    - by rewrite (left_id_L ∅ _).
    - apply NoDup_cons in Hnd as [Hn Hnd]. destruct (Hl f ltac:(left)) as [Hok Hnew].
      replace ({[root_at e f]} ∪ list_to_set (root_at e <$> l) ∪ R) with
        (list_to_set (root_at e <$> l) ∪ ({[root_at e f]} ∪ R)) by set_solver.
      apply IH; [done|by apply addRoot_spec|]. intros f' Hf'. destruct (Hl f' ltac:(by right)) as [Hok' Hnew'].
      split; [done|]. rewrite elem_of_union, elem_of_singleton. intros [Heq|]; [|done].
      injection Heq as ->. done. }
  apply Hgen; [apply frames_between_NoDup|done|]. intros f Hf%elem_of_frames_between. by apply Hall.
Qed.

(** ** Properties *)

(** The roots read for a frame are, whatever the cache has kept or evicted
    and in some order, the roots added for that frame: after [AddRoot] of a new
    root, those read before and, in the frames after its self-parent's up to
    its own, the new root. *)
Theorem GetFrameRoots_AddRoot (R : gset RootAndSlot) (s : Store C) (spf f : Z) (e : BaseEvent) :
  roots_inv R s -> is_u32 f ->
  (forall f, spf < f <= e_frame e -> root_ok (root_at e f) /\ root_at e f ∉ R) ->
  exists before after s' s'',
    GetFrameRoots s f = Ok (before, s') /\ GetFrameRoots (AddRoot s spf e) f = Ok (after, s'') /\
    after ≡ₚ before ++ (if decide (spf < f <= e_frame e) then [root_at e f] else []).
Proof.
  intros Hinv Hf Hall. destruct (GetFrameRoots_spec R s f Hinv Hf) as (before & c & Hb & Hbp & _).
  destruct (GetFrameRoots_spec _ _ f (AddRoot_spec R s spf e Hinv Hall) Hf) as (after & c' & Ha & Hap & _).
  exists before, after. do 2 eexists. split; [exact Hb|]. split; [exact Ha|]. rewrite Hbp, Hap.
  destruct (decide (spf < f <= e_frame e)) as [Hin|Hout].
  - destruct (Hall f Hin) as [_ Hnew]. rewrite Permutation_app_comm. simpl. rewrite <- elements_union_singleton.
    + apply reflexive_eq. f_equal. apply set_eq. intros r.
      rewrite elem_of_union, elem_of_singleton, !elem_of_filter, elem_of_union, elem_of_root_slots. split.
      * intros [Hfr [(f' & -> & Hf')|Hr]]; [left|by right]. by rewrite <- Hfr.
      * intros [->|[Hfr Hr]]; [split; [done|left; by exists f]|by split; [|right]].
    + rewrite elem_of_filter. tauto.
  - rewrite app_nil_r. apply reflexive_eq. f_equal. apply set_eq. intros r.
    rewrite !elem_of_filter, elem_of_union, elem_of_root_slots. split; [|tauto].
    intros [Hfr [(f' & -> & Hf')|Hr]]; [|done]. unfold r_Frame in Hfr. simpl in Hfr. by subst.
Qed.

End roots.

(** A store over the LRU cache, before any root. *)
Definition new_Store : Store (Cache Z (list RootAndSlot)) :=
  mk_Store None None None None (mk_Cache 100 0 1000 [] ∅ ∅) ∅ 1.

Lemma new_Store_inv : roots_inv ∅ new_Store.
Proof.
  split; simpl.
  - set_solver.
  - intros k. change (t_Roots (epochTable new_Store)) with (∅ : kv). rewrite lookup_empty.
    split; [by intros [? ?]|set_solver].
  - by apply empty_cache_wf.
  - intros f rr. done.
Qed.

Lemma GetFrameRoots_AddRoot_witness :
  exists before after s' s'',
    GetFrameRoots new_Store 2 = Ok (before, s') /\
    GetFrameRoots (AddRoot new_Store 0 (mk_BaseEvent 1 1 3 7 [] 1 55)) 2 = Ok (after, s'') /\
    after ≡ₚ before ++ (if decide (0 < 2 <= 3) then [mk_RootAndSlot 55 (mk_Slot 2 7)] else []).
Proof.
  apply (GetFrameRoots_AddRoot ∅ new_Store 0 2 (mk_BaseEvent 1 1 3 7 [] 1 55) new_Store_inv).
  - unfold is_u32. lia.
  - simpl. intros f Hf. split; [|set_solver]. unfold root_ok, r_Frame, r_Validator. simpl.
    split; [solve_width|]. split; [solve_width|]. vm_compute. split; done.
Defined.
