(* ===== verification/StoreBytes.v ===== *)
(** * abft: the store over its databases

    abft/store.go and the files that use it, as they are: the values are
    RLP-encoded in the tables of the main database and of the database of an
    epoch, behind their caches, and an error of a database is fatal.  It
    refines the store of AbftStore.v ([store_refines]), over which the
    consensus is proved. *)

From S2P Require Import Prelude Bytes Semaphore Pos Dag Wlru Kvdb KvStore TableStore TableReflect Election AbftStore.
Local Open Scope go_scope.

(** RLP of the two values that the store keeps: [LastDecidedState], which is a
    frame, and [EpochState], whose validators encode themselves. *)
Class StoreRlp := {
  rlp_LastDecidedState : Z -> outcome (list Z);
  unrlp_LastDecidedState : list Z -> outcome Z;
  rlp_EpochState : Z * list validator -> outcome (list Z);
  unrlp_EpochState : list Z -> outcome (Z * list validator)
}.

(** Decoding gives back what was encoded. *)
Class StoreRlpLaws `{!StoreRlp} : Prop := {
  unrlp_frame_law f b : rlp_LastDecidedState f = Ok b -> unrlp_LastDecidedState b = Ok f;
  unrlp_epoch_law p b : rlp_EpochState p = Ok b -> unrlp_EpochState b = Ok p
}.

Definition es_encode `{!StoreRlp} (e : EpochState) : outcome (list Z) :=
  rlp_EpochState (es_Epoch e, EncodeRLP id (es_Validators e)).

Definition es_decode `{!StoreRlp} (b : list Z) : outcome EpochState :=
  let* ' (epoch, l) := unrlp_EpochState b in
  let* vv := DecodeRLP (fun l : list validator => Ok l) l in
  Ok (mk_EpochState epoch vv).

(** The keys and the prefixes of the tables, as bytes. *)
Definition dsKey : list Z := [100].
Definition esKey : list Z := [101].
Definition tb_LastDecidedState : list Z := [99].
Definition tb_EpochState : list Z := [101].
Definition tb_Roots : list Z := [114].
Definition tb_VectorIndex : list Z := [118].
Definition tb_ConfirmedEvent : list Z := [67].

Section store_bytes.
Context {C : Type} `{!LossyCache C Z (list RootAndSlot)} `{!StoreRlp}.
Context {S SN : Type} `{!KvReader S, !KvWriter S, !KvFull S SN}.

(** [crit] does not return. *)
Definition crit {A} (o : outcome A) : outcome A := match o with Err e => Panic e | _ => o end.
Definition crit_put (r : option string * S) : outcome S := match r.1 with Some e => Panic e | None => Ok r.2 end.

(** ** Values in a table *)

Definition table_put (p : list Z) (s : S) (key value : list Z) : option string * S :=
  prod_map id tb_underlying (kv_Put (mk_Table s : Table p S) key value).

Definition store_set (p : list Z) (s : S) (key : list Z) (val : outcome (list Z)) : outcome S :=
  let* buf := crit val in
  crit_put (table_put p s key buf).

Definition store_get {A} (p : list Z) (s : S) (key : list Z) (decode : list Z -> outcome A) : outcome (option A) :=
  let* buf := crit (kv_Get (mk_Table s : Table p S) key) in
  match buf with
  | None => Ok None
  | Some buf => let* to := crit (decode buf) in Ok (Some to)
  end.

Definition store_has (p : list Z) (s : S) (key : list Z) : outcome bool := crit (kv_Has (mk_Table s : Table p S) key).

(** ** The store *)

(** [ds_epochs] are the databases of [getEpochDB], and [ds_epochDB] the number
    of the opened one, nil before the first [openEpochDB]. *)
Record DbStore := mk_DbStore {
  ds_mainDB : S;
  ds_cacheLastDecided : option Z;
  ds_cacheEpoch : option EpochState;
  ds_FrameRoots : C;
  ds_epochs : gmap Z S;
  ds_epochDB : option Z
}.

(** A database that [getEpochDB] has to create. *)
Context (new_db : S).

(** [makeCache] is [simplewlru.New], an error of which is fatal. *)
Definition NewStore (mainDB : S) (makeCache : outcome C) : outcome DbStore :=
  let* cache := crit makeCache in
  Ok (mk_DbStore mainDB None None cache ∅ None).

Definition set_main (b : DbStore) (s : S) (last : option Z) (ep : option EpochState) : DbStore :=
  mk_DbStore s last ep (ds_FrameRoots b) (ds_epochs b) (ds_epochDB b).
Definition set_cache (b : DbStore) (c : C) : DbStore :=
  mk_DbStore (ds_mainDB b) (ds_cacheLastDecided b) (ds_cacheEpoch b) c (ds_epochs b) (ds_epochDB b).
Definition set_epochs (b : DbStore) (dbs : gmap Z S) (n : option Z) : DbStore :=
  mk_DbStore (ds_mainDB b) (ds_cacheLastDecided b) (ds_cacheEpoch b) (ds_FrameRoots b) dbs n.

Definition getEpochDB (b : DbStore) (n : Z) : S := default new_db (ds_epochs b !! n).

(** The tables of the opened database; they are nil before. *)
Definition epoch_db (b : DbStore) : outcome (Z * S) :=
  match ds_epochDB b with None => Panic "nil table" | Some n => Ok (n, getEpochDB b n) end.

(** *** store_last_decided_state.go, store_epoch_state.go *)

Definition db_SetLastDecidedState (b : DbStore) (v : Z) : outcome DbStore :=
  let* s := store_set tb_LastDecidedState (ds_mainDB b) dsKey (rlp_LastDecidedState v) in
  Ok (set_main b s (Some v) (ds_cacheEpoch b)).

Definition db_GetLastDecidedState (b : DbStore) : outcome (Z * DbStore) :=
  match ds_cacheLastDecided b with
  | Some v => Ok (v, b)
  | None =>
      let* w := store_get tb_LastDecidedState (ds_mainDB b) dsKey unrlp_LastDecidedState in
      match w with
      | None => Panic "genesis not applied"
      | Some w => Ok (w, set_main b (ds_mainDB b) (Some w) (ds_cacheEpoch b))
      end
  end.

Definition db_SetEpochState (b : DbStore) (e : EpochState) : outcome DbStore :=
  let* s := store_set tb_EpochState (ds_mainDB b) esKey (es_encode e) in
  Ok (set_main b s (ds_cacheLastDecided b) (Some e)).

Definition db_GetEpochState (b : DbStore) : outcome (EpochState * DbStore) :=
  match ds_cacheEpoch b with
  | Some e => Ok (e, b)
  | None =>
      let* e := store_get tb_EpochState (ds_mainDB b) esKey es_decode in
      match e with
      | None => Panic "genesis not applied"
      | Some e => Ok (e, set_main b (ds_mainDB b) (ds_cacheLastDecided b) (Some e))
      end
  end.

Definition db_GetLastDecidedFrame (b : DbStore) : outcome (Z * DbStore) := db_GetLastDecidedState b.
Definition db_GetEpoch (b : DbStore) : outcome (Z * DbStore) := let* ' (e, b) := db_GetEpochState b in Ok (es_Epoch e, b).
Definition db_GetValidators (b : DbStore) : outcome (Validators * DbStore) := let* ' (e, b) := db_GetEpochState b in Ok (es_Validators e, b).

(** *** apply_genesis.go *)

(** The error of [Has] is ignored. *)
Definition db_ApplyGenesis (b : DbStore) (g : option EpochState) : outcome DbStore :=
  match g with
  | None => Err "genesis config shouldn't be nil"
  | Some g =>
      if (Validators_Len (es_Validators g) =? 0)%nat then Err "genesis validators shouldn't be empty"
      else if match kv_Has (mk_Table (ds_mainDB b) : Table tb_LastDecidedState S) dsKey with Ok ok => ok | _ => false end
      then Err "genesis already applied"
      else
        let* b := db_SetEpochState b (mk_EpochState (es_Epoch g) (es_Validators g)) in
        db_SetLastDecidedState b (FirstFrame - 1)
  end.

(** *** store.go *)

Definition db_dropEpochDB (b : DbStore) : outcome DbStore :=
  match ds_epochDB b with
  | None => Ok b
  | Some n =>
      let '(err, _) := kv_Close (getEpochDB b n) in
      match err with
      | Some e => Err e
      | None => Ok (set_epochs b (delete n (ds_epochs b)) (Some n))
      end
  end.

Definition db_openEpochDB (b : DbStore) (n : Z) : DbStore :=
  let b := set_cache b (cache_purge (ds_FrameRoots b)) in
  set_epochs b (<[n := getEpochDB b n]> (ds_epochs b)) (Some n).

(** The tables and [FrameRoots] become nil, the two other caches stay. *)
Definition db_Close (b : DbStore) : option string * DbStore :=
  let '(err, s) := kv_Close (ds_mainDB b) in
  let b := set_main b s (ds_cacheLastDecided b) (ds_cacheEpoch b) in
  match err, ds_epochDB b with
  | Some e, _ => (Some e, b)
  | None, None => (None, b)
  | None, Some n => let '(err, s) := kv_Close (getEpochDB b n) in (err, set_epochs b (<[n := s]> (ds_epochs b)) (Some n))
  end.

(** *** store_event_confirmed.go *)

Definition db_SetEventConfirmedOn (b : DbStore) (e on : Z) : outcome DbStore :=
  let* ' (n, db) := epoch_db b in
  let* s := crit_put (table_put tb_ConfirmedEvent db (Event_Bytes e) (Frame_Bytes on)) in
  Ok (set_epochs b (<[n := s]> (ds_epochs b)) (Some n)).

Definition db_GetEventConfirmedOn (b : DbStore) (e : Z) : outcome Z :=
  let* ' (_, db) := epoch_db b in
  let* buf := crit (kv_Get (mk_Table db : Table tb_ConfirmedEvent S) (Event_Bytes e)) in
  match buf with
  | None => Ok 0
  | Some buf => BytesToFrame buf
  end.

(** *** store_roots.go *)

Definition db_addRoot (b : DbStore) (root : BaseEvent) (frame : Z) : outcome DbStore :=
  let r := mk_RootAndSlot (e_id root) (mk_Slot frame (e_creator root)) in
  let* ' (n, db) := epoch_db b in
  let* s := crit_put (table_put tb_Roots db (rootRecordKey r) []) in
  let b := set_epochs b (<[n := s]> (ds_epochs b)) (Some n) in
  let '(c, cache) := cache_get (ds_FrameRoots b) frame in
  Ok (match c with
      | Some rr => let rr := rr ++ [r] in set_cache b (cache_add cache frame rr (Z.of_nat (length rr)))
      | None => set_cache b cache
      end).

Definition db_AddRoot (b : DbStore) (selfParentFrame : Z) (root : BaseEvent) : outcome DbStore :=
  foldM (fun b f => db_addRoot b root f) b (frames_between selfParentFrame (e_frame root)).

Definition db_GetFrameRoots (b : DbStore) (f : Z) : outcome (list RootAndSlot * DbStore) :=
  let '(c, cache) := cache_get (ds_FrameRoots b) f in
  match c with
  | Some rr => Ok (rr, set_cache b cache)
  | None =>
      let* ' (_, db) := epoch_db b in
      let* it := crit (kv_NewIterator (mk_Table db : Table tb_Roots S) (Frame_Bytes f) []) in
      let* rr := foldM (decode_root f) [] it in
      Ok (rr, set_cache b (cache_add cache f rr (Z.of_nat (length rr))))
  end.

(** [MigrateTables] finds these tables apart. *)
Example tables_apart : uniqKeys_Check (foldl uniqKeys_Add no_keys [tb_LastDecidedState; tb_EpochState]) = None /\
  uniqKeys_Check (foldl uniqKeys_Add no_keys [tb_Roots; tb_VectorIndex; tb_ConfirmedEvent]) = None.
Proof. by split. Qed.

(** ** What the bytes stand for *)

Context `{!KvReaderLaws S, !KvWriterLaws S, !StoreRlpLaws}.

Lemma put_content p (s : S) m k v : kv_content s = Some m -> (kv_Put s (prefixed k p) v).1 = None ->
  (table_put p s k v).1 = None /\ kv_content (table_put p s k v).2 = Some (<[prefixed k p := v]> m).
Proof. intros Hm Hp. unfold table_put. cbn. unfold prod_map. cbn. split; [done|]. rewrite (kv_Put_law s m) by done. by rewrite Hp. Qed.

Lemma view_apart (p p' k v : list Z) (m : kv) : apart p p' -> table_view p (<[prefixed k p' := v]> m) = table_view p m.
Proof.
  intros [H1 H2]. apply map_eq. intros x. rewrite !table_view_lookup. apply lookup_insert_ne. intros Hx. by apply (prefixed_foreign k x p' p).
Qed.

(** The tables of an epoch. *)
Definition epoch_rel (t : EpochDB) (s : S) : Prop :=
  exists m, kv_content s = Some m /\ table_view tb_Roots m = t_Roots t /\
    (forall e, is_hash e -> table_view tb_ConfirmedEvent m !! Event_Bytes e = Frame_Bytes <$> t_ConfirmedEvent t !! e) /\
    (forall e f, t_ConfirmedEvent t !! e = Some f -> is_u32 f).

(** A value and its encoding in a table. *)
Definition coded {A} (encode : A -> outcome (list Z)) (v : option A) (b : option (list Z)) : Prop :=
  match v with Some v => exists buf, encode v = Ok buf /\ b = Some buf | None => b = None end.

(** Encoded states decode to themselves: their validators come from a builder. *)
Definition es_ok (e : EpochState) : Prop := exists g, weights_u32 g /\ Builder_Build g = Ok (es_Validators e).

Lemma es_decode_encode e b : es_ok e -> es_encode e = Ok b -> es_decode b = Ok e.
Proof.
  intros (g & Hg & HB) He. unfold es_decode. rewrite (unrlp_epoch_law _ _ He). cbn [outcome_bind].
  destruct e as [n vv]. cbn in *. destruct (Build_wf g _ Hg HB) as (_ & Hval & _). unfold DecodeRLP, EncodeRLP. cbn [outcome_bind id].
  rewrite Hval, decoded_values, nonzero_idemp. assert (Builder_Build (nonzero g) = Ok vv) as ->; [|done].
  rewrite <- HB, !Build_exact, nonzero_idemp; [done|done|]. intros k w [Hk _]%nonzero_lookup. by apply Hg in Hk.
Qed.

Context {Hput : forall (s : S) k v, (kv_Put s k v).1 = None} {Hclose : forall s : S, (kv_Close s).1 = None}.
Context {Hnew : kv_content new_db = Some ∅}.

Record store_rel (a : Store C) (b : DbStore) : Prop := {
  sr_main : exists m, kv_content (ds_mainDB b) = Some m /\
    coded rlp_LastDecidedState (st_LastDecidedState a) (table_view tb_LastDecidedState m !! dsKey) /\
    coded es_encode (st_EpochState a) (table_view tb_EpochState m !! esKey);
  sr_es : forall e, st_EpochState a = Some e -> es_ok e;
  sr_last : ds_cacheLastDecided b = st_cacheLastDecided a;
  sr_epoch : ds_cacheEpoch b = st_cacheEpoch a;
  sr_roots : ds_FrameRoots b = st_FrameRoots a;
  sr_dbs : forall n, epoch_rel (default empty_EpochDB (st_dbs a !! n)) (getEpochDB b n)
}.

(** An empty cache, for a store that is made again over the same databases. *)
Context (new_cache : C).

(** The calls that need an opened epoch database come between an opening and the
    next dropping. *)
Inductive store_call :=
| CallGenesis (g : option EpochState) | CallSetLast (v : Z) | CallGetLast | CallSetEpoch (e : EpochState) | CallGetEpoch
| CallDropEpochDB | CallOpenEpochDB (n : Z) | CallConfirm (e on : Z) | CallConfirmedOn (e : Z)
| CallAddRoot (spf : Z) (e : BaseEvent) | CallFrameRoots (f : Z) | CallRestart.

Inductive store_reply :=
| RepUnit | RepFrame (f : Z) | RepEpoch (e : EpochState) | RepRoots (l : list RootAndSlot) | RepErr (e : string).

Definition reply_unit {A} (s : A) (o : outcome A) : outcome (store_reply * A) :=
  match o with Ok s => Ok (RepUnit, s) | Err e => Ok (RepErr e, s) | Panic e => Panic e end.

Definition consensus_do (a : Store C) (c : store_call) : outcome (store_reply * Store C) :=
  match c with
  | CallGenesis g => reply_unit a (ApplyGenesis a g)
  | CallSetLast v => Ok (RepUnit, SetLastDecidedState a v)
  | CallGetLast => let* ' (v, a) := GetLastDecidedState a in Ok (RepFrame v, a)
  | CallSetEpoch e => Ok (RepUnit, SetEpochState a e)
  | CallGetEpoch => let* ' (e, a) := GetEpochState a in Ok (RepEpoch e, a)
  | CallDropEpochDB => Ok (RepUnit, dropEpochDB a)
  | CallOpenEpochDB n => Ok (RepUnit, openEpochDB a n)
  | CallConfirm e on => Ok (RepUnit, SetEventConfirmedOn a e on)
  | CallConfirmedOn e => Ok (RepFrame (GetEventConfirmedOn a e), a)
  | CallAddRoot spf e => Ok (RepUnit, AddRoot a spf e)
  | CallFrameRoots f => let* ' (l, a) := GetFrameRoots a f in Ok (RepRoots l, a)
  | CallRestart => Ok (RepUnit, mk_Store (st_LastDecidedState a) (st_EpochState a) None None new_cache (st_dbs a) (st_open a))
  end.

Definition db_do (b : DbStore) (c : store_call) : outcome (store_reply * DbStore) :=
  match c with
  | CallGenesis g => reply_unit b (db_ApplyGenesis b g)
  | CallSetLast v => reply_unit b (db_SetLastDecidedState b v)
  | CallGetLast => let* ' (v, b) := db_GetLastDecidedState b in Ok (RepFrame v, b)
  | CallSetEpoch e => reply_unit b (db_SetEpochState b e)
  | CallGetEpoch => let* ' (e, b) := db_GetEpochState b in Ok (RepEpoch e, b)
  | CallDropEpochDB => reply_unit b (db_dropEpochDB b)
  | CallOpenEpochDB n => Ok (RepUnit, db_openEpochDB b n)
  | CallConfirm e on => reply_unit b (db_SetEventConfirmedOn b e on)
  | CallConfirmedOn e => let* f := db_GetEventConfirmedOn b e in Ok (RepFrame f, b)
  | CallAddRoot spf e => reply_unit b (db_AddRoot b spf e)
  | CallFrameRoots f => let* ' (l, b) := db_GetFrameRoots b f in Ok (RepRoots l, b)
  | CallRestart => let* b' := NewStore (ds_mainDB b) (Ok new_cache) in Ok (RepUnit, set_epochs b' (ds_epochs b) None)
  end.

(** What the callers give, and what they may call, [opened] being the number of
    the opened database. *)
Definition call_ok (opened : option Z) (c : store_call) : Prop :=
  match c with
  | CallGenesis (Some e) | CallSetEpoch e => es_ok e /\ exists b, es_encode e = Ok b
  | CallSetLast v => exists b, rlp_LastDecidedState v = Ok b
  | CallConfirm e on => is_Some opened /\ is_hash e /\ is_u32 on
  | CallConfirmedOn e => is_Some opened /\ is_hash e
  | CallDropEpochDB | CallAddRoot _ _ | CallFrameRoots _ => is_Some opened
  | _ => True
  end.
Definition call_opened (opened : option Z) (c : store_call) : option Z :=
  match c with CallOpenEpochDB n => Some n | CallDropEpochDB | CallRestart => None | _ => opened end.

Fixpoint calls_ok (opened : option Z) (cs : list store_call) : Prop :=
  match cs with [] => True | c :: cs => call_ok opened c /\ calls_ok (call_opened opened c) cs end.

Definition opened_rel (opened : option Z) (a : Store C) (b : DbStore) : Prop :=
  forall n, opened = Some n -> st_open a = n /\ ds_epochDB b = Some n.

Definition same_reply (opened : option Z) (x : outcome (store_reply * Store C)) (y : outcome (store_reply * DbStore)) : Prop :=
  match x, y with
  | Ok (r1, a), Ok (r2, b) => r1 = r2 /\ store_rel a b /\ opened_rel opened a b
  | Panic e1, Panic e2 | Err e1, Err e2 => e1 = e2
  | _, _ => False
  end.

(** *** The main database *)

Lemma set_main_last a b v m buf : store_rel a b -> kv_content (ds_mainDB b) = Some m -> rlp_LastDecidedState v = Ok buf ->
  exists b', db_SetLastDecidedState b v = Ok b' /\ store_rel (SetLastDecidedState a v) b' /\ ds_epochDB b' = ds_epochDB b.
Proof.
  intros [Hm Hes Hl He Hr Hd] Hc Hb. destruct Hm as (m0 & Hm0 & Hlast & Hep). rewrite Hc in Hm0. injection Hm0 as <-.
  unfold db_SetLastDecidedState, store_set. rewrite Hb. cbn [crit outcome_bind]. unfold crit_put.
  destruct (put_content tb_LastDecidedState _ m dsKey buf Hc (Hput _ _ _)) as [-> Hn]. cbn [outcome_bind]. eexists. split; [done|]. split; [|done].
  split; cbn; try done. eexists. split; [exact Hn|]. split.
  - exists buf. split; [done|]. by rewrite table_view_insert, lookup_insert_eq.
  - by rewrite view_apart by done.
Qed.

Lemma set_main_epoch a b e m buf : store_rel a b -> kv_content (ds_mainDB b) = Some m -> es_encode e = Ok buf -> es_ok e ->
  exists b', db_SetEpochState b e = Ok b' /\ store_rel (SetEpochState a e) b' /\ ds_epochDB b' = ds_epochDB b.
Proof.
  intros [Hm Hes Hl He Hr Hd] Hc Hb Hok. destruct Hm as (m0 & Hm0 & Hlast & Hep). rewrite Hc in Hm0. injection Hm0 as <-.
  unfold db_SetEpochState, store_set. rewrite Hb. cbn [crit outcome_bind]. unfold crit_put.
  destruct (put_content tb_EpochState _ m esKey buf Hc (Hput _ _ _)) as [-> Hn]. cbn [outcome_bind]. eexists. split; [done|]. split; [|done].
  split; cbn; try done; [|by intros e0 [= <-]]. eexists. split; [exact Hn|]. split.
  - by rewrite view_apart by done.
  - exists buf. split; [done|]. by rewrite table_view_insert, lookup_insert_eq.
Qed.

Lemma get_main {A} p (s : S) m key (enc : A -> outcome (list Z)) dec (v : option A) : kv_content s = Some m ->
  coded enc v (table_view p m !! key) -> (forall x b, v = Some x -> enc x = Ok b -> dec b = Ok x) -> store_get p s key dec = Ok v.
Proof.
  intros Hm Hv Hd. unfold store_get. assert (kv_content (mk_Table s : Table p S) = Some (table_view p m)) as Ht by (cbn; by rewrite Hm).
  rewrite (kv_Get_law _ _ key Ht). cbn [crit outcome_bind]. destruct v as [v|]; cbn in Hv; [|by rewrite Hv].
  destruct Hv as (buf & Hb & ->). by rewrite (Hd v buf).
Qed.

Lemma genesis_refines a b e buf l0 : store_rel a b -> es_encode e = Ok buf -> es_ok e -> rlp_LastDecidedState (FirstFrame - 1) = Ok l0 ->
  exists b', (let* b := db_SetEpochState b (mk_EpochState (es_Epoch e) (es_Validators e)) in db_SetLastDecidedState b (FirstFrame - 1)) = Ok b' /\
    store_rel (applyGenesis_ a (es_Epoch e) (es_Validators e)) b' /\ ds_epochDB b' = ds_epochDB b.
Proof.
  intros Hr Hb Hok Hl0. assert (mk_EpochState (es_Epoch e) (es_Validators e) = e) as -> by (by destruct e).
  destruct (sr_main _ _ Hr) as (m & Hm & _). destruct (set_main_epoch a b e m buf Hr Hm Hb Hok) as (b1 & -> & Hr1 & Ho1). cbn [outcome_bind].
  destruct (sr_main _ _ Hr1) as (m1 & Hm1 & _). destruct (set_main_last _ b1 (FirstFrame - 1) m1 l0 Hr1 Hm1 Hl0) as (b2 & -> & Hr2 & Ho2).
  exists b2. split; [done|]. unfold applyGenesis_. assert (mk_EpochState (es_Epoch e) (es_Validators e) = e) as -> by (by destruct e).
  split; [done|congruence].
Qed.

Context {Hfirst : exists buf, rlp_LastDecidedState (FirstFrame - 1) = Ok buf}.

Lemma has_main a b : store_rel a b ->
  kv_Has (mk_Table (ds_mainDB b) : Table tb_LastDecidedState S) dsKey = Ok (bool_decide (is_Some (st_LastDecidedState a))).
Proof.
  intros Hr. destruct (sr_main _ _ Hr) as (m & Hm & Hl & _).
  assert (kv_content (mk_Table (ds_mainDB b) : Table tb_LastDecidedState S) = Some (table_view tb_LastDecidedState m)) as Ht by (cbn; by rewrite Hm).
  rewrite (kv_Has_law _ _ dsKey Ht). f_equal. apply bool_decide_ext. destruct (st_LastDecidedState a) as [v|]; cbn in Hl.
  - destruct Hl as (buf & _ & ->). split; by eexists.
  - rewrite Hl. by split; intros [? ?].
Qed.

Lemma opened_main opened a a' b b' : opened_rel opened a b -> st_open a' = st_open a -> ds_epochDB b' = ds_epochDB b -> opened_rel opened a' b'.
Proof. intros Ho Ha Hb n Hn. rewrite Ha, Hb. by apply Ho. Qed.

(** The calls on the main database. *)
Definition main_call (c : store_call) : bool :=
  match c with CallGenesis _ | CallSetLast _ | CallGetLast | CallSetEpoch _ | CallGetEpoch => true | _ => false end.

Lemma main_refines opened a b c : store_rel a b -> opened_rel opened a b -> call_ok opened c -> main_call c = true ->
  same_reply opened (consensus_do a c) (db_do b c).
Proof.
  intros Hr Ho Hok Hc. pose proof Hr as [(m & Hm & Hl & He) Hes Hcl Hce _ _]. destruct c as [g|v| |e| | |n0|e0 o0|e0|s0 e0|f0|]; try done; cbn [consensus_do db_do].
  - unfold ApplyGenesis, db_ApplyGenesis. destruct g as [e|]; [|by splits]. destruct (Validators_Len _ =? 0)%nat; [by splits|].
    rewrite (has_main a b Hr). destruct (st_LastDecidedState a) as [v|] eqn:Hv; [by splits|]. destruct Hok as (Hok & buf & Hb). destruct Hfirst as [l0 Hl0].
    destruct (genesis_refines a b e buf l0 Hr Hb Hok Hl0) as (b' & Hb' & Hr' & Ho'). cbn [bool_decide]. rewrite bool_decide_eq_false_2 by (by intros [? ?]).
    rewrite Hb'. cbn. split; [done|]. split; [done|]. by eapply opened_main.
  - destruct Hok as [buf Hb]. destruct (set_main_last a b v m buf Hr Hm Hb) as (b' & -> & Hr' & Ho'). cbn. split; [done|]. split; [done|]. by eapply opened_main.
  - unfold GetLastDecidedState, db_GetLastDecidedState. rewrite Hcl. destruct (st_cacheLastDecided a) as [v|]; [by splits|].
    rewrite (get_main _ _ m _ rlp_LastDecidedState _ _ Hm Hl) by (intros x b0 _; apply unrlp_frame_law). cbn [outcome_bind].
    destruct (st_LastDecidedState a) as [w|] eqn:Hw; [|done]. cbn. split; [done|]. split; [|by eapply opened_main].
    destruct Hr as [? ? ? ? ? ?]. split; cbn; try done. exists m. by rewrite Hw in *.
  - destruct Hok as (Hok & buf & Hb). destruct (set_main_epoch a b e m buf Hr Hm Hb Hok) as (b' & -> & Hr' & Ho'). cbn. split; [done|]. split; [done|].
    by eapply opened_main.
  - unfold GetEpochState, db_GetEpochState. rewrite Hce. destruct (st_cacheEpoch a) as [e|]; [by splits|].
    rewrite (get_main _ _ m _ es_encode _ _ Hm He) by (intros x b0 Hx; apply es_decode_encode; by apply Hes). cbn [outcome_bind].
    destruct (st_EpochState a) as [e|] eqn:Hw; [|done]. cbn. split; [done|]. split; [|by eapply opened_main].
    destruct Hr as [? ? ? ? ? ?]. split; cbn; try done. exists m. by rewrite Hw in *.
Qed.

(** *** The databases of the epochs *)

Lemma empty_epoch_rel : epoch_rel empty_EpochDB new_db.
Proof.
  exists ∅. split; [exact Hnew|]. assert (forall p k, table_view p ∅ !! k = None) as Hv by (intros p k; by rewrite table_view_lookup, lookup_empty).
  split; [apply map_eq; intros k; by rewrite Hv|]. split; [intros e _; by rewrite Hv|done].
Qed.

Lemma set_epoch_rel a b n t s : store_rel a b -> st_open a = n -> epoch_rel t s ->
  store_rel (set_epochTable a t) (set_epochs b (<[n := s]> (ds_epochs b)) (Some n)).
Proof.
  intros [? ? ? ? ? Hd] Hn Ht. split; cbn; try done. intros x. unfold getEpochDB. cbn. rewrite Hn. destruct (decide (n = x)) as [->|Hne].
  - by rewrite !lookup_insert_eq.
  - rewrite !lookup_insert_ne by done. apply Hd.
Qed.

Lemma set_cache_rel a b c : store_rel a b -> store_rel (set_FrameRoots a c) (set_cache b c).
Proof. intros [? ? ? ? ? Hd]. by split. Qed.

Lemma open_db a b n : store_rel a b -> opened_rel (Some n) a b ->
  epoch_db b = Ok (n, getEpochDB b n) /\ epoch_rel (epochTable a) (getEpochDB b n) /\ st_open a = n.
Proof.
  intros Hr Ho. destruct (Ho n eq_refl) as [Ha Hb]. unfold epoch_db. rewrite Hb. split; [done|]. split; [|done].
  unfold epochTable. rewrite Ha. apply Hr.
Qed.

Lemma opened_set a b n t s : opened_rel (Some n) a b -> opened_rel (Some n) (set_epochTable a t) (set_epochs b s (Some n)).
Proof. intros Ho x [= <-]. by destruct (Ho n eq_refl). Qed.

Lemma drop_refines a b n : store_rel a b -> opened_rel (Some n) a b -> same_reply None (consensus_do a CallDropEpochDB) (db_do b CallDropEpochDB).
Proof.
  intros Hr Ho. destruct (Ho n eq_refl) as [Ha Hb]. cbn. unfold db_dropEpochDB. rewrite Hb. pose proof (Hclose (getEpochDB b n)) as Hc.
  destruct (kv_Close (getEpochDB b n)) as [err s]. cbn in Hc. subst err. cbn. split; [done|]. split; [|by intros x].
  destruct Hr as [? ? ? ? ? Hd]. split; cbn; try done. intros x. unfold getEpochDB. cbn. rewrite Ha. destruct (decide (n = x)) as [->|Hne].
  - rewrite !lookup_delete_eq. apply empty_epoch_rel.
  - rewrite !lookup_delete_ne by done. apply Hd.
Qed.

Lemma open_refines a b n : store_rel a b -> same_reply (Some n) (consensus_do a (CallOpenEpochDB n)) (db_do b (CallOpenEpochDB n)).
Proof.
  intros [? ? ? ? Hc Hd]. cbn. split; [done|]. split; [|by intros x [= <-]]. split; cbn; try done; [by rewrite Hc|].
  intros x. specialize (Hd x). unfold getEpochDB in *. cbn. destruct (decide (n = x)) as [->|Hne].
  - rewrite lookup_insert_eq. cbn. exact Hd.
  - by rewrite lookup_insert_ne.
Qed.

Lemma BytesToFrame_Bytes f : is_u32 f -> BytesToFrame (Frame_Bytes f) = Ok f.
Proof.
  intros Hf. unfold BytesToFrame, BE_BytesToUint32, Frame_Bytes, BE_Uint32ToBytes.
  by rewrite read_be_split by (unfold is_u32 in *; change (256 ^ Z.of_nat 4) with (2 ^ 32); done).
Qed.

Lemma Event_Bytes_inj a b : is_hash a -> is_hash b -> Event_Bytes a = Event_Bytes b -> a = b.
Proof. intros Ha Hb He. rewrite <- (BytesToEvent_Bytes a), <- (BytesToEvent_Bytes b) by done. by rewrite He. Qed.

Lemma confirm_refines a b n e on : store_rel a b -> opened_rel (Some n) a b -> is_hash e -> is_u32 on ->
  same_reply (Some n) (consensus_do a (CallConfirm e on)) (db_do b (CallConfirm e on)).
Proof.
  intros Hr Ho He Hon. destruct (open_db a b n Hr Ho) as (Hdb & (m & Hm & Hroots & Hcf & Hu) & Hn). cbn. unfold db_SetEventConfirmedOn.
  rewrite Hdb. cbn [outcome_bind]. unfold crit_put. destruct (put_content tb_ConfirmedEvent _ m (Event_Bytes e) (Frame_Bytes on) Hm (Hput _ _ _)) as [-> Hc].
  cbn. split; [done|]. split; [|by apply opened_set]. apply set_epoch_rel; [done..|]. eexists. split; [exact Hc|]. cbn [t_Roots t_ConfirmedEvent]. split; [by rewrite view_apart|].
  rewrite table_view_insert. split.
  - intros e0 He0. destruct (decide (e0 = e)) as [->|Hne]; [by rewrite !lookup_insert_eq|]. rewrite !lookup_insert_ne; [by apply Hcf|done|].
    intros Heq. by apply Hne, Event_Bytes_inj.
  - intros e0 f [(-> & <-)|[_ Hf]]%lookup_insert_Some; [done|by eapply Hu].
Qed.

Lemma confirmed_refines a b n e : store_rel a b -> opened_rel (Some n) a b -> is_hash e ->
  same_reply (Some n) (consensus_do a (CallConfirmedOn e)) (db_do b (CallConfirmedOn e)).
Proof.
  intros Hr Ho He. destruct (open_db a b n Hr Ho) as (Hdb & (m & Hm & Hroots & Hcf & Hu) & Hn). cbn. unfold db_GetEventConfirmedOn.
  rewrite Hdb. cbn [outcome_bind].
  assert (kv_content (mk_Table (getEpochDB b n) : Table tb_ConfirmedEvent S) = Some (table_view tb_ConfirmedEvent m)) as Ht by (cbn; by rewrite Hm).
  rewrite (kv_Get_law _ _ _ Ht), Hcf by done. unfold GetEventConfirmedOn. destruct (t_ConfirmedEvent (epochTable a) !! e) as [f|] eqn:Hf; cbn [fmap option_fmap option_map crit outcome_bind default].
  - by rewrite BytesToFrame_Bytes by (by eapply Hu).
  - done.
Qed.

Lemma add_one_refines a b n e f : store_rel a b -> opened_rel (Some n) a b ->
  exists b', db_addRoot b e f = Ok b' /\ store_rel (addRoot a e f) b' /\ opened_rel (Some n) (addRoot a e f) b'.
Proof.
  intros Hr Ho. destruct (open_db a b n Hr Ho) as (Hdb & (m & Hm & Hroots & Hcf & Hu) & Hn). unfold db_addRoot, addRoot.
  rewrite Hdb. cbn [outcome_bind]. unfold crit_put. set (r := mk_RootAndSlot _ _).
  destruct (put_content tb_Roots _ m (rootRecordKey r) [] Hm (Hput _ _ _)) as [-> Hc]. cbn [outcome_bind].
  set (t := mk_EpochDB _ _). set (s := (table_put _ _ _ _).2) in *.
  assert (epoch_rel t s) as Ht.
  { eexists. split; [exact Hc|]. subst t. cbn [t_Roots t_ConfirmedEvent]. split; [by rewrite table_view_insert, Hroots|]. split; [|done].
    intros e0 He0. rewrite view_apart by done. by apply Hcf. }
  pose proof (set_epoch_rel a b n t s Hr Hn Ht) as Hr'. pose proof (opened_set a b n t (<[n := s]> (ds_epochs b)) Ho) as Ho'.
  assert (ds_FrameRoots (set_epochs b (<[n := s]> (ds_epochs b)) (Some n)) = st_FrameRoots a) as -> by apply (sr_roots _ _ Hr). change (st_FrameRoots (set_epochTable a t)) with (st_FrameRoots a).
  destruct (cache_get (st_FrameRoots a) f) as [[rr|] cache]; (eexists; split; [done|]); (split; [by apply set_cache_rel|exact Ho']).
Qed.

Lemma roots_refines a b n f : store_rel a b -> opened_rel (Some n) a b ->
  same_reply (Some n) (consensus_do a (CallFrameRoots f)) (db_do b (CallFrameRoots f)).
Proof.
  intros Hr Ho. destruct (open_db a b n Hr Ho) as (Hdb & (m & Hm & Hroots & _) & Hn). cbn. unfold db_GetFrameRoots, GetFrameRoots.
  rewrite (sr_roots _ _ Hr). destruct (cache_get (st_FrameRoots a) f) as [[rr|] cache].
  - cbn. split; [done|]. split; [by apply set_cache_rel|exact Ho].
  - rewrite Hdb. cbn [outcome_bind].
    assert (kv_content (mk_Table (getEpochDB b n) : Table tb_Roots S) = Some (t_Roots (epochTable a))) as Ht by (cbn; by rewrite Hm, <- Hroots).
    rewrite (kv_NewIterator_law _ _ _ _ Ht). cbn [crit outcome_bind].
    destruct (foldM _ _ _) as [rr|e|e]; cbn; [|done..].
    split; [done|]. split; [by apply set_cache_rel|exact Ho].
Qed.

Lemma add_refines a b n spf e : store_rel a b -> opened_rel (Some n) a b ->
  same_reply (Some n) (consensus_do a (CallAddRoot spf e)) (db_do b (CallAddRoot spf e)).
Proof.
  intros Hr Ho. assert (exists b', db_AddRoot b spf e = Ok b' /\ store_rel (AddRoot a spf e) b' /\ opened_rel (Some n) (AddRoot a spf e) b') as (b' & Hb & Hr' & Ho').
  { unfold AddRoot, db_AddRoot. revert a b Hr Ho. induction (frames_between spf (e_frame e)) as [|f fs IH]; intros a b Hr Ho; [by exists b|].
    cbn [foldM foldl]. destruct (add_one_refines a b n e f Hr Ho) as (b1 & -> & Hr1 & Ho1). exact (IH _ _ Hr1 Ho1). }
  cbn. rewrite Hb. by splits.
Qed.

Lemma call_refines opened a b c : store_rel a b -> opened_rel opened a b -> call_ok opened c ->
  same_reply (call_opened opened c) (consensus_do a c) (db_do b c).
Proof.
  intros Hr Ho Hok. destruct (main_call c) eqn:Hc.
  { assert (call_opened opened c = opened) as -> by (by destruct c). by apply main_refines. }
  destruct c as [g|v| |e| | |n|e on|e|spf e|f|]; try done; cbn [call_opened].
  - destruct Hok as [n ->]. by eapply drop_refines.
  - by apply open_refines.
  - destruct Hok as ([n ->] & He & Hon). by apply confirm_refines.
  - destruct Hok as ([n ->] & He). by apply confirmed_refines.
  - destruct Hok as [n ->]. by apply add_refines.
  - destruct Hok as [n ->]. by apply roots_refines.
  - cbn. split; [done|]. split; [|by intros n]. destruct Hr as [Hm Hes _ _ _ Hd]. by split.
Qed.

Fixpoint calls_run {A} (do_call : A -> store_call -> outcome (store_reply * A)) (s : A) (cs : list store_call) : outcome (list store_reply * A) :=
  match cs with
  | [] => Ok ([], s)
  | c :: cs =>
      let* ' (r, s) := do_call s c in
      let* ' (rs, s) := calls_run do_call s cs in
      Ok (r :: rs, s)
  end.

Lemma calls_refine cs : forall opened a b, store_rel a b -> opened_rel opened a b -> calls_ok opened cs ->
  match calls_run consensus_do a cs, calls_run db_do b cs with
  | Ok (r1, a'), Ok (r2, b') => r1 = r2 /\ store_rel a' b'
  | Panic e1, Panic e2 | Err e1, Err e2 => e1 = e2
  | _, _ => False
  end.
Proof.
  induction cs as [|c cs IH]; intros opened a b Hr Ho Hok; [by split|]. destruct Hok as [Hc Hcs]. cbn [calls_run].
  pose proof (call_refines opened a b c Hr Ho Hc) as Hs. destruct (consensus_do a c) as [[r1 a1]|e1|e1], (db_do b c) as [[r2 b2]|e2|e2]; try done.
  destruct Hs as (-> & Hr1 & Ho1). cbn [outcome_bind]. specialize (IH _ _ _ Hr1 Ho1 Hcs).
  destruct (calls_run consensus_do a1 cs) as [[rs1 a2]|e1|e1], (calls_run db_do b2 cs) as [[rs2 b3]|e2|e2]; try done.
  cbn. destruct IH as [-> IH]. by split.
Qed.

(** The blank stores. *)
Lemma new_store_rel (mainDB : S) (c : C) : kv_content mainDB = Some ∅ ->
  store_rel (mk_Store None None None None c ∅ 0) (mk_DbStore mainDB None None c ∅ None).
Proof.
  intros Hm. split; cbn; try done.
  - exists ∅. split; [done|]. by rewrite !table_view_lookup, !lookup_empty.
  - intros n. unfold getEpochDB. cbn. rewrite !lookup_empty. apply empty_epoch_rel.
Qed.

End store_bytes.

Arguments DbStore : clear implicits.

(** ** The configuration *)

Record StoreConfig := mk_StoreConfig { RootsNum : Z; RootsFrames : Z }.

Definition DefaultStoreConfig (scale : Ratio) : outcome StoreConfig :=
  let* num := Ratio_U scale 1000 in
  let* frames := Ratio_I scale 100 in
  Ok (mk_StoreConfig num frames).

Definition LiteStoreConfig : outcome StoreConfig := DefaultStoreConfig (mk_Ratio 20 1).

Definition makeCache (cfg : StoreConfig) : outcome (Cache Z (list RootAndSlot)) := Cache_New (RootsNum cfg) (RootsFrames cfg).

(** [NewMemStore], over blank databases. *)
Definition NewMemStore {S : Type} (memorydb : S) : outcome (DbStore (Cache Z (list RootAndSlot)) S) :=
  let* cfg := LiteStoreConfig in NewStore memorydb (makeCache cfg).

(** ** The property *)


(** A codec over lists of numbers. *)
#[local] Instance sample_store_rlp : StoreRlp := {|
  rlp_LastDecidedState f := Ok [f];
  unrlp_LastDecidedState b := match b with [f] => Ok f | _ => Err "rlp" end;
  rlp_EpochState p := Ok (p.1 :: concat ((fun v => [v_ID v; v_Weight v]) <$> p.2));
  unrlp_EpochState b :=
    match b with
    | e :: b => Ok (e, (fix vals (b : list Z) : list validator :=
                          match b with i :: w :: b => mk_validator i w :: vals b | _ => [] end) b)
    | [] => Err "rlp"
    end
|}.
#[local] Instance sample_store_rlp_laws : StoreRlpLaws.
Proof.
  split; [by intros f b [= <-]|]. intros [e l] b [= <-]. cbn. f_equal. f_equal. induction l as [|[i w] l IH]; [done|]. cbn. by rewrite IH.
Qed.

Definition sample_calls : list store_call :=
  [CallGenesis (Some (mk_EpochState 1 validators4)); CallOpenEpochDB 1; CallAddRoot 0 (mk_BaseEvent 1 1 3 7 [] 1 55); CallFrameRoots 2;
   CallConfirm 55 2; CallSetLast 3; CallRestart; CallGetLast; CallOpenEpochDB 1; CallFrameRoots 2; CallConfirmedOn 55; CallDropEpochDB;
   CallOpenEpochDB 1; CallConfirmedOn 55].
Definition sample_replies : list store_reply :=
  [RepUnit; RepUnit; RepUnit; RepRoots [mk_RootAndSlot 55 (mk_Slot 2 7)]; RepUnit; RepUnit; RepUnit; RepFrame 3; RepUnit;
   RepRoots [mk_RootAndSlot 55 (mk_Slot 2 7)]; RepFrame 2; RepUnit; RepUnit; RepFrame 0].
Definition roots_cache : Cache Z (list RootAndSlot) := mk_Cache 5 0 50 [] ∅ ∅.

