(* ===== verification/VecBytes.v ===== *)
(** * vecengine and vecfc: the index over the bytes of its database

    vecengine/store_branches_info.go and vecfc/store_vectors.go as they are:
    the branch IDs, the vectors and the branches information are values of
    prefixed tables over a flushable store, which is over the database of the
    epoch; an error of a table is fatal.  They refine the engine of VecEngine.v
    ([vec_store_refines]), whose tables are finite maps.  At the end, the
    configuration of the index. *)

From S2P Require Import Prelude Bytes Semaphore Pos Dag Kvdb KvStore TableStore RbTree Flushable TableReflect Wlru VecFC VecEngine VecBranches VecCorrect VecIndex StoreBytes.
Local Open Scope go_scope.

(** The prefixes of the tables, and the only key of [BranchesInfo]. *)
Definition tb_EventBranch : list Z := [98].
Definition tb_BranchesInfo : list Z := [66].
Definition tb_HighestBeforeSeq : list Z := [83].
Definition tb_LowestAfterSeq : list Z := [115].
Definition biKey : list Z := [99].

(** [MigrateTables] of the engine and of the index finds these tables apart. *)
Example vec_tables_apart :
  uniqKeys_Check (foldl uniqKeys_Add no_keys [tb_EventBranch; tb_BranchesInfo; tb_HighestBeforeSeq; tb_LowestAfterSeq]) = None.
Proof. done. Qed.

Section vec_bytes.
Context `{!BranchesInfoRlp (list Z)}.
Context {S : Type} `{!KvReader S, !KvWriter S} `{!TreeOps}.

(** ** The engine and its tables *)

(** [de_vecDb] is the flushable store that [Reset] wraps around the database. *)
Record DbEngine := mk_DbEngine {
  de_validators : Validators;
  de_bi : option BranchesInfo;
  de_vecDb : Flushable S
}.

Definition set_vecDb (vi : DbEngine) (w : Flushable S) : DbEngine := mk_DbEngine (de_validators vi) (de_bi vi) w.
Definition set_bi (vi : DbEngine) (bi : option BranchesInfo) : DbEngine := mk_DbEngine (de_validators vi) bi (de_vecDb vi).

Definition vec_getBytes (p : list Z) (vi : DbEngine) (id : Z) : outcome (option (list Z)) :=
  crit (kv_Get (mk_Table (de_vecDb vi) : Table p (Flushable S)) (Event_Bytes id)).

Definition vec_setBytes (p : list Z) (vi : DbEngine) (id : Z) (b : list Z) : outcome DbEngine :=
  let* w := crit_put (table_put p (de_vecDb vi) (Event_Bytes id) b) in
  Ok (set_vecDb vi w).

Definition vec_setRlp (p : list Z) (vi : DbEngine) (key : list Z) (val : outcome (list Z)) : outcome DbEngine :=
  let* w := store_set p (de_vecDb vi) key val in
  Ok (set_vecDb vi w).

Definition vec_getRlp {A} (p : list Z) (vi : DbEngine) (key : list Z) (decode : list Z -> outcome A) : outcome (option A) :=
  store_get p (de_vecDb vi) key decode.

Definition db_setBranchesInfo (vi : DbEngine) (info : BranchesInfo) : outcome DbEngine :=
  vec_setRlp tb_BranchesInfo vi biKey (Ok (bi_EncodeToBytes info)).

Definition db_getBranchesInfo (vi : DbEngine) : outcome (option BranchesInfo) :=
  vec_getRlp tb_BranchesInfo vi biKey bi_DecodeBytes.

Definition db_SetEventBranchID (vi : DbEngine) (id : Z) (branchID : nat) : outcome DbEngine :=
  vec_setBytes tb_EventBranch vi id (Validator_Bytes (Z.of_nat branchID)).

Definition db_GetEventBranchID (vi : DbEngine) (id : Z) : outcome nat :=
  let* b := vec_getBytes tb_EventBranch vi id in
  match b with
  | None => Panic "failed to read event's branch ID (inconsistent DB)"
  | Some b => let* branchID := BytesToValidator b in Ok (Z.to_nat branchID)
  end.

(** The vectors are stored as the bytes that they are. *)
Definition db_GetLowestAfter (vi : DbEngine) (id : Z) : outcome (option LowestAfterSeq) := vec_getBytes tb_LowestAfterSeq vi id.
Definition db_GetHighestBefore (vi : DbEngine) (id : Z) : outcome (option HighestBeforeSeq) := vec_getBytes tb_HighestBeforeSeq vi id.
Definition db_SetLowestAfter (vi : DbEngine) (id : Z) (seq : LowestAfterSeq) : outcome DbEngine := vec_setBytes tb_LowestAfterSeq vi id seq.
Definition db_SetHighestBefore (vi : DbEngine) (id : Z) (seq : HighestBeforeSeq) : outcome DbEngine := vec_setBytes tb_HighestBeforeSeq vi id seq.

(** ** The life cycle *)

Definition db_InitBranchesInfo (vi : DbEngine) : outcome (BranchesInfo * DbEngine) :=
  match de_bi vi with
  | Some bi => Ok (bi, vi)
  | None =>
      let* loaded := db_getBranchesInfo vi in
      let bi := default (newInitialBranchesInfo (de_validators vi)) loaded in
      Ok (bi, set_bi vi (Some bi))
  end.

(** Whether the callback [OnDropNotFlushed] is called, and the engine then. *)
Definition db_DropNotFlushed (vi : DbEngine) : outcome (bool * DbEngine) :=
  let vi := set_bi vi None in
  let* n := NotFlushedPairs (de_vecDb vi) in
  if (n =? 0)%nat then Ok (false, vi)
  else let* w := Flushable_DropNotFlushed (de_vecDb vi) in Ok (true, set_vecDb vi w).

Definition db_Reset (validators : Validators) (db : S) (vi : DbEngine) : outcome DbEngine :=
  let vi := mk_DbEngine validators (de_bi vi) (Flushable_Wrap db) in
  let* ' (_, vi) := db_DropNotFlushed vi in Ok vi.

Definition db_Flush (vi : DbEngine) : outcome DbEngine :=
  let* vi := match de_bi vi with Some bi => db_setBranchesInfo vi bi | None => Ok vi end in
  let '(err, w) := Flushable_Flush (de_vecDb vi) in
  match err with Some e => Panic e | None => Ok (set_vecDb vi w) end.

(** ** The calls that Add, Flush, DropNotFlushed and the queries make *)

(** [VReset] is over a new database, [VReopen] over what is left of the last one
    by a restart; [VKeep] is the update of the information in memory. *)
Inductive vec_call :=
| VReset (vv : Validators) | VReopen (vv : Validators) | VFlush | VDrop | VInit | VKeep (bi : BranchesInfo)
| VGetBranch (id : Z) | VSetBranch (id : Z) (b : nat) | VGetHB (id : Z) | VSetHB (id : Z) (v : HighestBeforeSeq)
| VGetLA (id : Z) | VSetLA (id : Z) (v : LowestAfterSeq).

Inductive vec_reply :=
| RUnit | RDropped (d : bool) | RInfo (bi : BranchesInfo) | RBranch (b : nat) | RVec (v : option (list Z)).

Abbreviation engine := (vecfc_Engine (bytes := list Z)).

(** On the engine of VecEngine.v. *)
Definition engine_do (en : engine) (c : vec_call) : outcome (vec_reply * engine) :=
  match c with
  | VReset vv => Ok (RUnit, Engine_Reset vv empty_db)
  | VReopen vv => Ok (RUnit, Engine_Reset vv (en_flushed en))
  | VFlush => Ok (RUnit, Engine_Flush en)
  | VDrop => Ok (RDropped (en_dirty en), Engine_DropNotFlushed en)
  | VInit => let* ' (en, bi) := InitBranchesInfo en in Ok (RInfo bi, en)
  | VKeep bi => Ok (RUnit, with_bi en bi)
  | VGetBranch id => let* b := GetEventBranchID (t_EventBranch (en_db en)) id in Ok (RBranch b, en)
  | VSetBranch id b => Ok (RUnit, put_EventBranch en id b)
  | VGetHB id => Ok (RVec (t_HighestBefore (en_db en) !! id), en)
  | VSetHB id v => Ok (RUnit, put_HighestBefore en id v)
  | VGetLA id => Ok (RVec (t_LowestAfter (en_db en) !! id), en)
  | VSetLA id v => Ok (RUnit, put_LowestAfter en id v)
  end.

Context (new_db : S).

Definition unit_reply {A} (o : outcome A) : outcome (vec_reply * A) := let* s := o in Ok (RUnit, s).

Definition dbengine_do (vi : DbEngine) (c : vec_call) : outcome (vec_reply * DbEngine) :=
  match c with
  | VReset vv => unit_reply (db_Reset vv new_db vi)
  | VReopen vv => unit_reply (db_Reset vv (fl_underlying (de_vecDb vi)) vi)
  | VFlush => unit_reply (db_Flush vi)
  | VDrop => let* ' (d, vi) := db_DropNotFlushed vi in Ok (RDropped d, vi)
  | VInit => let* ' (bi, vi) := db_InitBranchesInfo vi in Ok (RInfo bi, vi)
  | VKeep bi => Ok (RUnit, set_bi vi (Some bi))
  | VGetBranch id => let* b := db_GetEventBranchID vi id in Ok (RBranch b, vi)
  | VSetBranch id b => unit_reply (db_SetEventBranchID vi id b)
  | VGetHB id => let* v := db_GetHighestBefore vi id in Ok (RVec v, vi)
  | VSetHB id v => unit_reply (db_SetHighestBefore vi id v)
  | VGetLA id => let* v := db_GetLowestAfter vi id in Ok (RVec v, vi)
  | VSetLA id v => unit_reply (db_SetLowestAfter vi id v)
  end.

Definition vec_call_ok (c : vec_call) : Prop :=
  match c with
  | VGetBranch id | VGetHB id | VSetHB id _ | VGetLA id | VSetLA id _ => is_hash id
  | VSetBranch id b => is_hash id /\ is_u32 (Z.of_nat b)
  | _ => True
  end.

Fixpoint vec_run {A} (call : A -> vec_call -> outcome (vec_reply * A)) (s : A) (cs : list vec_call) : outcome (list vec_reply * A) :=
  match cs with
  | [] => Ok ([], s)
  | c :: cs => let* ' (r, s) := call s c in let* ' (rs, s) := vec_run call s cs in Ok (r :: rs, s)
  end.

(** ** What the bytes stand for *)

Context `{!TreeLaws, !KvReaderLaws S, !KvWriterLaws S}.
Context {Hwrite : forall (s : S) ws, (kv_Write s ws).1 = None} {Hnew : kv_content new_db = Some ∅}.

Record vec_rel (d : VecDb HighestBeforeSeq LowestAfterSeq (list Z)) (m : kv) : Prop := {
  vr_branch : forall e, is_hash e -> table_view tb_EventBranch m !! Event_Bytes e = (fun b => Validator_Bytes (Z.of_nat b)) <$> t_EventBranch d !! e;
  vr_u32 : forall e b, t_EventBranch d !! e = Some b -> is_u32 (Z.of_nat b);
  vr_info : table_view tb_BranchesInfo m !! biKey = t_BranchesInfo d;
  vr_hb : forall e, is_hash e -> table_view tb_HighestBeforeSeq m !! Event_Bytes e = t_HighestBefore d !! e;
  vr_la : forall e, is_hash e -> table_view tb_LowestAfterSeq m !! Event_Bytes e = t_LowestAfter d !! e
}.

Record engine_rel (en : engine) (vi : DbEngine) : Prop := {
  er_validators : de_validators vi = en_validators en;
  er_bi : de_bi vi = en_bi en;
  er_db : exists m, Flushable_content (de_vecDb vi) = Some m /\ vec_rel (en_db en) m;
  er_flushed : exists base, kv_content (fl_underlying (de_vecDb vi)) = Some base /\ vec_rel (en_flushed en) base;
  er_dirty : exists n, NotFlushedPairs (de_vecDb vi) = Ok n /\ en_dirty en = negb (n =? 0)%nat
}.

Lemma empty_vec_rel : vec_rel empty_db ∅.
Proof. split; intros; rewrite ?table_view_lookup, ?lookup_empty; cbn; rewrite ?lookup_empty; done. Qed.

Lemma hash_lookup_insert {A} (m : gmap (list Z) A) e e' (v : A) : is_hash e -> is_hash e' ->
  <[Event_Bytes e := v]> m !! Event_Bytes e' = if decide (e = e') then Some v else m !! Event_Bytes e'.
Proof.
  intros He He'. destruct (decide (e = e')) as [<-|Hne]; [by rewrite lookup_insert_eq|].
  rewrite lookup_insert_ne; [done|]. intros Heq. by apply Hne, Event_Bytes_inj.
Qed.

(** A write to one table is not seen in the others. *)
Ltac other_tables :=
  cbn [setBranchesInfo t_EventBranch t_BranchesInfo t_HighestBefore t_LowestAfter]; rewrite ?view_apart by done; try done;
  unfold HighestBeforeSeq, LowestAfterSeq in *.

Lemma put_branch_rel d m id b : vec_rel d m -> is_hash id -> is_u32 (Z.of_nat b) ->
  vec_rel (mk_VecDb (<[id := b]> (t_EventBranch d)) (t_BranchesInfo d) (t_HighestBefore d) (t_LowestAfter d))
    (<[prefixed (Event_Bytes id) tb_EventBranch := Validator_Bytes (Z.of_nat b)]> m).
Proof.
  intros [Hb Hu Hi Hh Hl] Hid Hu32. split; other_tables.
  - intros e He. rewrite table_view_insert, hash_lookup_insert, lookup_insert by done. case_decide; [done|by apply Hb].
  - intros e x [[_ <-]|[_ Hx]]%lookup_insert_Some; [done|by eapply Hu].
Qed.

Lemma put_hb_rel d m id (v : list Z) : vec_rel d m -> is_hash id ->
  vec_rel (mk_VecDb (t_EventBranch d) (t_BranchesInfo d) (<[id := v]> (t_HighestBefore d)) (t_LowestAfter d))
    (<[prefixed (Event_Bytes id) tb_HighestBeforeSeq := v]> m).
Proof.
  intros [Hb Hu Hi Hh Hl] Hid. split; other_tables.
  intros e He. rewrite table_view_insert, hash_lookup_insert, lookup_insert by done. case_decide; [done|by apply Hh].
Qed.

Lemma put_la_rel d m id (v : list Z) : vec_rel d m -> is_hash id ->
  vec_rel (mk_VecDb (t_EventBranch d) (t_BranchesInfo d) (t_HighestBefore d) (<[id := v]> (t_LowestAfter d)))
    (<[prefixed (Event_Bytes id) tb_LowestAfterSeq := v]> m).
Proof.
  intros [Hb Hu Hi Hh Hl] Hid. split; other_tables.
  intros e He. rewrite table_view_insert, hash_lookup_insert, lookup_insert by done. case_decide; [done|by apply Hl].
Qed.

Lemma put_info_rel d m info : vec_rel d m ->
  vec_rel (setBranchesInfo d info) (<[prefixed biKey tb_BranchesInfo := bi_EncodeToBytes info]> m).
Proof.
  intros [Hb Hu Hi Hh Hl]. split; other_tables. by rewrite table_view_insert, lookup_insert_eq.
Qed.

(** *** Writes, reads, and the whole of the flushable store *)

Lemma put_engine_rel en vi p k v d' : engine_rel en vi -> (forall m, vec_rel (en_db en) m -> vec_rel d' (<[prefixed k p := v]> m)) ->
  exists w, crit_put (table_put p (de_vecDb vi) k v) = Ok w /\ engine_rel (put_db en d') (set_vecDb vi w).
Proof.
  intros [Hv Hbi (m & Hm & Hr) Hf _] Hput. pose proof Hm as (t & base & Ht & Hs & Hb & _)%Flushable_content_Some.
  destruct (write_one_content (de_vecDb vi) m (prefixed k p, Some v) Hm) as (w & Hw & Hc & Hu). cbn [write_one fst snd] in Hw.
  exists w. unfold table_put, crit_put. cbn. rewrite Hw. split; [done|]. split; cbn; try done.
  - eexists. split; [exact Hc|]. by apply Hput.
  - by rewrite Hu.
  - unfold Flushable_put in Hw. rewrite Ht in Hw. injection Hw as <-. eexists. split; [done|]. cbn [with_modified fl_modified].
    set (t' := tree_Put t _ _). destruct (inorder t') as [|x l] eqn:Hl; [|done].
    assert (tree_map t' !! prefixed k p = Some (Some v)) as Hx by (subst t'; by rewrite tree_Put_map, lookup_insert_eq).
    unfold tree_map in Hx. by rewrite Hl in Hx.
Qed.

Lemma get_engine en vi p k : engine_rel en vi ->
  exists m, vec_rel (en_db en) m /\ kv_content (mk_Table (de_vecDb vi) : Table p (Flushable S)) = Some (table_view p m) /\
    crit (kv_Get (mk_Table (de_vecDb vi) : Table p (Flushable S)) k) = Ok (table_view p m !! k).
Proof.
  intros [_ _ (m & Hm & Hr) _ _]. exists m. split; [done|].
  assert (kv_content (mk_Table (de_vecDb vi) : Table p (Flushable S)) = Some (table_view p m)) as Ht by (cbn; by rewrite Hm).
  split; [done|]. by rewrite (kv_Get_law _ _ k Ht).
Qed.

Lemma drop_engine en vi : engine_rel en vi ->
  exists vi', db_DropNotFlushed vi = Ok (en_dirty en, vi') /\ engine_rel (Engine_DropNotFlushed en) vi'.
Proof.
  intros [Hv Hbi (m & Hm & Hr) (base & Hb & Hf) (n & Hn & Hd)]. unfold db_DropNotFlushed, Engine_DropNotFlushed. cbn [de_vecDb set_bi].
  rewrite Hn. cbn [outcome_bind]. rewrite Hd. destruct (n =? 0)%nat eqn:Hz; cbn [negb].
  - eexists. split; [done|]. split; cbn; try done; [by exists m|by exists base|]. exists n. by rewrite Hz.
  - pose proof Hm as (t & base' & Ht & Hs & Hb' & _)%Flushable_content_Some. simplify_eq. unfold Flushable_DropNotFlushed. rewrite Ht. cbn [outcome_bind].
    eexists. split; [done|]. split; cbn; try done.
    + exists base. split; [exact (Flushable_Wrap_content _ _ Hb)|done].
    + by exists base.
    + by exists 0%nat.
Qed.

Lemma reset_engine vv d (db : S) base vi : kv_content db = Some base -> vec_rel d base ->
  exists vi', db_Reset vv db vi = Ok vi' /\ engine_rel (Engine_Reset vv d) vi'.
Proof.
  intros Hb Hd. unfold db_Reset, db_DropNotFlushed. cbn. eexists. split; [done|]. split; cbn; try done.
  - exists base. split; [by apply Flushable_Wrap_content|done].
  - by exists base.
  - by exists 0%nat.
Qed.

Lemma flush_loop_succeeds items : forall (s : S) batch, (flush_loop s batch items).1 = None.
Proof.
  induction items as [|op items IH]; intros s batch; cbn [flush_loop]; [apply Hwrite|].
  destruct (_ <? _); [|apply IH]. pose proof (Hwrite s (batch ++ [op])) as Hw. destruct (kv_Write _ _) as [err s']. cbn in Hw. subst err. apply IH.
Qed.

Lemma flush_engine en vi : engine_rel en vi -> exists vi', db_Flush vi = Ok vi' /\ engine_rel (Engine_Flush en) vi'.
Proof.
  intros Hr.
  assert (exists vi1 d, match de_bi vi with Some bi => db_setBranchesInfo vi bi | None => Ok vi end = Ok vi1 /\
    Engine_Flush en = mk_Engine (en_validators en) (en_bi en) d d false /\ (exists f, engine_rel (mk_Engine (en_validators en) (en_bi en) (en_flushed en) d f) vi1))
    as (vi1 & d & Hvi1 & -> & f & [Hv Hbi (m & Hm & Hd) _ _]).
  { unfold Engine_Flush. rewrite (er_bi _ _ Hr). destruct (en_bi en) as [bi|] eqn:Hbi.
    - destruct (put_engine_rel en vi tb_BranchesInfo biKey (bi_EncodeToBytes bi) (setBranchesInfo (en_db en) bi) Hr) as (w & Hw & Hr'); [intros m; apply put_info_rel|].
      unfold db_setBranchesInfo, vec_setRlp, store_set. cbn [crit outcome_bind]. rewrite Hw. cbn [outcome_bind]. do 2 eexists. split; [done|]. split; [done|].
      exists true. unfold put_db in Hr'. by rewrite Hbi in Hr'.
    - exists vi, (en_db en). split; [done|]. split; [done|]. exists (en_dirty en). rewrite <- Hbi. by destruct en. }
  unfold db_Flush. rewrite Hvi1. cbn [outcome_bind]. pose proof Hm as (t & base & Ht & Hs & Hb & ->)%Flushable_content_Some.
  pose proof (flush_loop_succeeds (inorder t) (fl_underlying (de_vecDb vi1)) []) as Hok.
  destruct (flush_loop_spec (inorder t) (fl_underlying (de_vecDb vi1)) [] base Hb) as (ws & _ & Hc & Hall). rewrite (Hall Hok) in Hc. cbn [app] in Hc.
  unfold Flushable_Flush. rewrite Ht. destruct (flush_loop _ _ _) as [err s]. cbn in Hok, Hc. subst err. rewrite overlay_written_all in Hc by done.
  eexists. split; [done|]. split; cbn; try done.
  - eexists. split; [by apply Flushable_Wrap_content|done].
  - by eexists.
  - by exists 0%nat.
Qed.

Definition same_vec {R} : outcome (R * engine) -> outcome (R * DbEngine) -> Prop :=
  outcome_rel (fun x y => x.1 = y.1 /\ engine_rel x.2 y.2).

Lemma set_refines p en vi k v d' : engine_rel en vi -> (forall m, vec_rel (en_db en) m -> vec_rel d' (<[prefixed (Event_Bytes k) p := v]> m)) ->
  same_vec (Ok (RUnit, put_db en d')) (unit_reply (vec_setBytes p vi k v)).
Proof.
  intros Hr Hput. destruct (put_engine_rel en vi p (Event_Bytes k) v d' Hr Hput) as (w & Hw & Hr'). unfold unit_reply, vec_setBytes. by rewrite Hw.
Qed.

Lemma init_refines en vi : engine_rel en vi -> same_vec (engine_do en VInit) (dbengine_do vi VInit).
Proof.
  intros Hr. cbn. unfold InitBranchesInfo, db_InitBranchesInfo. rewrite (er_bi _ _ Hr). destruct (en_bi en) as [bi|] eqn:Hbi; [by split|].
  unfold db_getBranchesInfo, vec_getRlp, getBranchesInfo, store_get. destruct (get_engine en vi tb_BranchesInfo biKey Hr) as (m & Hm & _ & ->). cbn [outcome_bind].
  rewrite (vr_info _ _ Hm). pose proof Hr as [Hv Hb Hd Hf Hn]. destruct (t_BranchesInfo (en_db en)) as [buf|]; cbn.
  - destruct (bi_DecodeBytes buf) as [bi|e|e]; cbn; [|done..]. by split.
  - rewrite Hv. by split.
Qed.

Lemma get_branch_refines en vi id : engine_rel en vi -> is_hash id -> same_vec (engine_do en (VGetBranch id)) (dbengine_do vi (VGetBranch id)).
Proof.
  intros Hr Hid. cbn. unfold db_GetEventBranchID, GetEventBranchID, vec_getBytes.
  destruct (get_engine en vi tb_EventBranch (Event_Bytes id) Hr) as (m & Hm & _ & ->). cbn [outcome_bind]. rewrite (vr_branch _ _ Hm) by done.
  destruct (t_EventBranch (en_db en) !! id) as [b|] eqn:Hb; cbn [fmap option_fmap option_map outcome_bind]; [|done].
  assert (BytesToValidator (Validator_Bytes (Z.of_nat b)) = Ok (Z.of_nat b)) as -> by (apply BytesToFrame_Bytes; by eapply (vr_u32 _ _ Hm)).
  cbn. by rewrite Nat2Z.id.
Qed.

Lemma vec_call_refines en vi c : engine_rel en vi -> vec_call_ok c -> same_vec (engine_do en c) (dbengine_do vi c).
Proof.
  intros Hr Hok. destruct c as [vv|vv| | | |bi|id|id b|id|id v|id|id v]; cbn [engine_do dbengine_do vec_call_ok] in *.
  - destruct (reset_engine vv empty_db new_db ∅ vi Hnew empty_vec_rel) as (vi' & Hvi & Hr'). unfold unit_reply. by rewrite Hvi.
  - destruct (er_flushed _ _ Hr) as (base & Hb & Hd). destruct (reset_engine vv _ _ base vi Hb Hd) as (vi' & Hvi & Hr'). unfold unit_reply. by rewrite Hvi.
  - destruct (flush_engine en vi Hr) as (vi' & Hvi & Hr'). unfold unit_reply. by rewrite Hvi.
  - destruct (drop_engine en vi Hr) as (vi' & -> & Hr'). by split.
  - by apply init_refines.
  - split; [done|]. destruct Hr as [Hv Hb Hd Hf Hn]. by split.
  - by apply get_branch_refines.
  - destruct Hok. apply set_refines; [done|]. intros m Hm. by apply put_branch_rel.
  - unfold db_GetHighestBefore, vec_getBytes. destruct (get_engine en vi tb_HighestBeforeSeq (Event_Bytes id) Hr) as (m & Hm & _ & ->). cbn.
    split; [|done]. f_equal. symmetry. exact (vr_hb _ _ Hm id Hok).
  - apply set_refines; [done|]. intros m Hm. by apply put_hb_rel.
  - unfold db_GetLowestAfter, vec_getBytes. destruct (get_engine en vi tb_LowestAfterSeq (Event_Bytes id) Hr) as (m & Hm & _ & ->). cbn.
    split; [|done]. f_equal. symmetry. exact (vr_la _ _ Hm id Hok).
  - apply set_refines; [done|]. intros m Hm. by apply put_la_rel.
Qed.

Lemma vec_runs_refine cs : forall en vi, engine_rel en vi -> Forall vec_call_ok cs -> same_vec (vec_run engine_do en cs) (vec_run dbengine_do vi cs).
Proof.
  induction cs as [|c cs IH]; intros en vi Hr Hok; [by split|]. apply Forall_cons in Hok as [Hc Hcs]. cbn [vec_run].
  eapply outcome_rel_bind; [exact (vec_call_refines en vi c Hr Hc)|]. intros [r1 en1] [r2 vi1] [Hr12 Hr1]. cbn in Hr12, Hr1. subst r2.
  eapply outcome_rel_bind; [exact (IH en1 vi1 Hr1 Hcs)|]. intros [rs1 en2] [rs2 vi2] [Hrs Hr2]. cbn in *. by subst.
Qed.

End vec_bytes.

Arguments DbEngine : clear implicits.

(** ** The configuration of the index *)

Record IndexConfig := mk_IndexConfig { Caches : IndexCacheConfig }.

Definition DefaultConfig (scale : Ratio) : outcome IndexConfig :=
  let* pairs := Ratio_I scale 20000 in
  let* hb := Ratio_U scale (160 * 1024) in
  let* la := Ratio_U scale (160 * 1024) in
  Ok (mk_IndexConfig (mk_IndexCacheConfig pairs hb la)).

Definition LiteConfig : outcome IndexConfig := DefaultConfig (mk_Ratio 100 1).

Definition NewIndex {bytes : Type} `{!BranchesInfoRlp bytes} (en : vecfc_Engine (bytes := bytes)) (config : IndexConfig) : outcome (lru_index bytes) :=
  initCaches en (Caches config).

(** Both configurations make an index. *)
Lemma configs_make_index {bytes : Type} `{!BranchesInfoRlp bytes} (en : vecfc_Engine (bytes := bytes)) config :
  DefaultConfig Ratio_Identity = Ok config \/ LiteConfig = Ok config ->
  exists vi : lru_index bytes, NewIndex en config = Ok vi /\ ix_Engine vi = en.
Proof.
  intros H. assert (0 <= ForklessCausePairs (Caches config) < 2 ^ 63 /\ 0 <= HighestBeforeSeqSize (Caches config) < 2 ^ 63 /\
    0 <= LowestAfterSeqSize (Caches config) < 2 ^ 63) as (H1 & H2 & H3) by (destruct H as [H|H]; vm_compute in H; injection H as <-; cbn; lia).
  destruct (initCaches_ok en (Caches config) H1 H2 H3) as (vi & Hvi & He & _). by exists vi.
Qed.

(** ** The property *)

(** C15: the storage of the index is what the engine takes it for: from a
    [Reset] over an empty database, whatever is then read, written, flushed,
    dropped, restarted or reset, in any order, the tables of bytes over the
    flushable store over any database whose writes do not fail answer as the
    finite maps of the engine do, and panic when it does, with the same
    message. *)
Theorem vec_store_refines `{!BranchesInfoRlp (list Z)} {S : Type} `{!TreeOps, !TreeLaws} `{!KvReader S, !KvWriter S, !KvReaderLaws S, !KvWriterLaws S}
    (new_db : S) (vi0 : DbEngine S) (vv : Validators) (cs : list vec_call) :
  (forall (s : S) ws, (kv_Write s ws).1 = None) -> kv_content new_db = Some ∅ -> Forall vec_call_ok cs ->
  exists vi, db_Reset vv new_db vi0 = Ok vi /\
    outcome_rel (fun x y => x.1 = y.1) (vec_run engine_do (Engine_Reset vv empty_db) cs) (vec_run (dbengine_do new_db) vi cs).
Proof.
  intros Hwrite Hnew Hok. destruct (reset_engine vv empty_db new_db ∅ vi0 Hnew empty_vec_rel) as (vi & Hvi & Hr). exists vi. split; [done|].
  pose proof (vec_runs_refine (Hwrite := Hwrite) (Hnew := Hnew) new_db cs _ vi Hr Hok) as Hs. unfold same_vec in Hs.
  destruct (vec_run engine_do _ cs), (vec_run (dbengine_do new_db) vi cs); cbn in *; try done. by destruct Hs.
Qed.

(** A codec of the information without forks. *)
#[local] Instance sample_bi_rlp : BranchesInfoRlp (list Z) := {|
  bi_EncodeToBytes := BranchIDLastSeq;
  bi_DecodeBytes l := Ok (mk_BranchesInfo l (seq 0 (length l)) ((fun i => [i]) <$> seq 0 (length l)))
|}.

Definition sample_info : BranchesInfo := mk_BranchesInfo [5; 0] [0; 1]%nat [[0]; [1]]%nat.
Definition sample_vec_calls : list vec_call :=
  [VInit; VSetBranch 55 1; VSetHB 55 [1; 2]; VGetHB 55; VDrop; VGetHB 55; VSetBranch 55 1; VSetHB 55 [3; 4]; VSetLA 55 []; VKeep sample_info; VFlush;
   VSetHB 55 [9]; VReopen solo; VInit; VGetBranch 55; VGetHB 55; VGetLA 55; VDrop; VReset solo; VGetHB 55].

Definition sample_vec_replies : list vec_reply :=
  [RInfo (newInitialBranchesInfo solo); RUnit; RUnit; RVec (Some [1; 2]); RDropped true; RVec None; RUnit; RUnit; RUnit; RUnit; RUnit;
   RUnit; RUnit; RInfo sample_info; RBranch 1; RVec (Some [3; 4]); RVec (Some []); RDropped false; RUnit; RVec None].

Lemma vec_store_refines_witness :
  exists vi, db_Reset solo (∅ : kv) (mk_DbEngine solo None (Flushable_Wrap (∅ : kv))) = Ok vi /\
    exists vi', vec_run (dbengine_do (∅ : kv)) vi sample_vec_calls = Ok (sample_vec_replies, vi').
Proof.
  destruct (vec_store_refines (∅ : kv) (mk_DbEngine solo None (Flushable_Wrap (∅ : kv))) solo sample_vec_calls) as (vi & Hvi & Hr); [done|done| |].
  { repeat constructor; vm_compute; done. }
  exists vi. split; [done|].
  assert (exists en', vec_run engine_do (Engine_Reset solo empty_db) sample_vec_calls = Ok (sample_vec_replies, en')) as [en' He] by (eexists; vm_compute; reflexivity).
  rewrite He in Hr. destruct (vec_run (dbengine_do _) vi sample_vec_calls) as [[rs vi']|e|e]; [|done..]. cbn in Hr. subst rs. by exists vi'.
Defined.
