(* ===== verification/Frames.v ===== *)
(** * abft: frames and roots of the event graph

    The roots of a graph, the frames an event may claim, and the proof that a
    graph whose events claim correct frames satisfies the laws the election
    relies on ([oracle_laws]) while the validators with a fork hold no more
    than a third of the weight. *)

From S2P Require Import Prelude Bytes Pos Dag ForklessCause Election ElectionSafety AbftStore.

(** The frame of the self-parent of [e], 0 when it has none. *)
Definition spf (D : gmap Z BaseEvent) (e : BaseEvent) : Z :=
  match SelfParent e with
  | Some sp => default 0 (e_frame <$> D !! sp)
  | None => 0
  end.

(** The slots that the events of a graph take as roots. *)
Definition slots (D : gmap Z BaseEvent) : gset RootAndSlot :=
  ⋃ ((fun he => root_slots (spf D he.2) he.2) <$> map_to_list D).

Definition frame_roots (R : gset RootAndSlot) (f : Z) : list RootAndSlot := elements (filter (fun r => r_Frame r = f) R).

(** A quorum of validators has, in the frame [f] of [R], a root that
    forkless-causes [a]. *)
Definition quorum_on (vv : Validators) (obs : Z -> Z -> bool) (R : gset RootAndSlot) (a f : Z) : Prop :=
  is_quorum vv (fun v => existsb (fun x => (r_Validator x =? v) && obs a (r_ID x)) (frame_roots R f)).

#[export] Instance quorum_on_dec vv obs R a f : Decision (quorum_on vv obs R a f).
Proof. apply is_quorum_dec. Defined.

(** The frames that [e] may claim when its self-parent is in the frame [s]. *)
Definition frame_ok (vv : Validators) (obs : Z -> Z -> bool) (R : gset RootAndSlot) (e : BaseEvent) (s : Z) : Prop :=
  (e_frame e = 1 /\ 0 <= s <= 1) \/
  (1 <= s <= e_frame e /\ forall f, s <= f < e_frame e -> quorum_on vv obs R (e_id e) f).

(** Every event claims a correct frame, judged by the roots of other events. *)
Definition framed (vv : Validators) (obs : Z -> Z -> bool) (D : gmap Z BaseEvent) : Prop :=
  forall h e, D !! h = Some e ->
    frame_ok vv obs (filter (fun r => r_ID r <> h) (slots D)) e (spf D e).

Lemma slots_empty : slots ∅ = ∅.
Proof. unfold slots. by rewrite map_to_list_empty. Qed.

Lemma elem_of_frame_roots R f r : r ∈ frame_roots R f <-> r_Frame r = f /\ r ∈ R.
Proof. unfold frame_roots. by rewrite elem_of_elements, elem_of_filter. Qed.

Lemma frame_roots_NoDup R f : NoDup (frame_roots R f).
Proof. apply NoDup_elements. Qed.

Lemma quorum_on_mono vv obs obs' R R' a a' f :
  wf vv -> (forall r, r ∈ R -> r_Frame r = f -> obs a (r_ID r) = true -> r ∈ R' /\ obs' a' (r_ID r) = true) ->
  quorum_on vv obs R a f -> quorum_on vv obs' R' a' f.
Proof.
  intros Hwf Hsub HQ. unfold quorum_on, is_quorum in *. etrans; [exact HQ|]. apply weight_of_mono; [done|].
  intros v _. rewrite !existsb_exists. intros (x & Hx & Hvx). apply list_elem_of_In, elem_of_frame_roots in Hx as [Hf Hx].
  apply andb_true_iff in Hvx as [Hv Ho]. destruct (Hsub x Hx Hf Ho) as [Hx' Ho']. exists x.
  rewrite <- list_elem_of_In, elem_of_frame_roots. by rewrite Hv, Ho'.
Qed.

Section graph.
Context (vv : Validators) (epoch : Z) (Hwf : wf vv).
Implicit Types (D : gmap Z BaseEvent).

Lemma elem_of_slots D r :
  dag vv epoch D ->
  r ∈ slots D <-> exists e, D !! r_ID r = Some e /\ r = root_at e (r_Frame r) /\ spf D e < r_Frame r <= e_frame e.
Proof.
  intros HD. unfold slots. rewrite elem_of_union_list. split.
  - intros (X & HX & Hr). apply list_elem_of_fmap in HX as ([h e] & -> & Hin).
    apply elem_of_map_to_list in Hin. apply elem_of_root_slots in Hr as (f & -> & Hf). simpl in *.
    pose proof (dag_id _ _ _ _ _ HD Hin) as <-. by exists e.
  - intros (e & He & Hr & Hf). exists (root_slots (spf D e) e). split.
    + apply list_elem_of_fmap. exists (r_ID r, e). split; [done|]. by apply elem_of_map_to_list.
    + apply elem_of_root_slots. by exists (r_Frame r).
Qed.

Lemma spf_sub D D' h e : dag vv epoch D -> D ⊆ D' -> D !! h = Some e -> spf D' e = spf D e.
Proof.
  intros HD Hsub He. unfold spf. destruct (SelfParent e) as [sp|] eqn:Hsp; [|done].
  destruct (eo_next _ _ _ (dag_event_ok _ _ _ _ _ HD He) _ Hsp) as (_ & pe & Hpe & _).
  by rewrite Hpe, (lookup_weaken _ _ _ _ Hpe Hsub).
Qed.

Lemma spf_nonneg D h e : dag vv epoch D -> D !! h = Some e -> 0 <= spf D e.
Proof.
  intros HD He. unfold spf. destruct (SelfParent e) as [sp|]; [|done]. destruct (D !! sp) as [pe|] eqn:Hpe; [|done].
  simpl. pose proof (eo_ranges _ _ _ (dag_event_ok _ _ _ _ _ HD Hpe)). lia.
Qed.

(** The slots of a smaller graph are those of its events. *)
Lemma elem_of_slots_sub D D' r :
  dag vv epoch D -> dag vv epoch D' -> D ⊆ D' -> r ∈ slots D <-> r ∈ slots D' /\ is_Some (D !! r_ID r).
Proof.
  intros HD HD' Hsub. rewrite !elem_of_slots by done. split.
  - intros (e & He & Hr & Hf). split; [|by eexists]. exists e.
    rewrite (spf_sub D D' _ e HD Hsub He). split; [by eapply lookup_weaken|done].
  - intros [(e & He & Hr & Hf) [e' He']]. pose proof (lookup_weaken _ _ _ _ He' Hsub) as Heq. simplify_eq.
    rewrite (spf_sub D D' _ e HD Hsub He') in Hf. by exists e.
Qed.

Lemma spf_insert D e :
  dag vv epoch D -> connectable vv epoch D e -> spf (<[e_id e := e]> D) e = spf D e.
Proof.
  intros HD Hcon. unfold spf. destruct (SelfParent e) as [sp|] eqn:Hsp; [|done].
  destruct (eo_next _ _ _ (dag_connectable_ok _ _ _ _ HD Hcon) _ Hsp) as (_ & pe & Hpe & _).
  rewrite lookup_insert_ne; [done|]. pose proof (con_fresh _ _ _ _ Hcon). congruence.
Qed.

Lemma slots_insert D e :
  dag vv epoch D -> connectable vv epoch D e -> slots (<[e_id e := e]> D) = root_slots (spf D e) e ∪ slots D.
Proof.
  intros HD Hcon. assert (dag vv epoch (<[e_id e := e]> D)) as HD' by (by constructor).
  pose proof (con_fresh _ _ _ _ Hcon) as Hf. pose proof (spf_insert D e HD Hcon) as Hs.
  apply set_eq. intros r. rewrite elem_of_union, elem_of_root_slots.
  rewrite (elem_of_slots_sub D (<[e_id e := e]> D) r HD HD' ltac:(by apply insert_subseteq)).
  rewrite elem_of_slots by done. split.
  - intros (e' & He' & Hr & Hfr). apply lookup_insert_Some in He' as [[Hid <-]|[Hne He']].
    + left. exists (r_Frame r). by rewrite <- Hs.
    + right. split; [|by eexists]. exists e'. split; [by rewrite lookup_insert_ne|done].
  - intros [(f & -> & Hfr)|[Hr _]]; [|done]. exists e. simpl. rewrite lookup_insert_eq, Hs. done.
Qed.

(** Frames do not decrease along self-parents. *)
Lemma frame_self_anc D y x ex ey :
  dag vv epoch D -> (forall h e, D !! h = Some e -> spf D e <= e_frame e) ->
  self_anc D y x -> x <> y -> D !! x = Some ex -> D !! y = Some ey -> e_frame ex <= spf D ey.
Proof.
  intros HD Hfr Hr. revert ey. induction Hr as [y|y z x Hyz Hzx IH]; intros ey Hne Hx Hy; [done|].
  pose proof Hyz as (ey' & Hy' & Hsp). simplify_eq.
  destruct (self_parent_event vv epoch D y z HD Hyz) as (? & ez & ? & Hz & _). simplify_eq.
  assert (spf D ey = e_frame ez) as -> by (unfold spf; by rewrite Hsp, Hz).
  destruct (decide (x = z)) as [->|Hxz]; [by simplify_eq|]. etrans; [by apply (IH ez)|]. by eapply Hfr.
Qed.

(** Two roots of one validator in one slot are on different branches. *)
Lemma same_slot_conflict D x y :
  dag vv epoch D -> (forall h e, D !! h = Some e -> spf D e <= e_frame e) ->
  x ∈ slots D -> y ∈ slots D -> r_Frame x = r_Frame y -> r_Validator x = r_Validator y -> x <> y ->
  conflict D (r_ID x) (r_ID y).
Proof.
  intros HD Hfr Hx Hy Hf Hv Hne. apply elem_of_slots in Hx as (ex & Hex & Hrx & Hfx); [|done].
  apply elem_of_slots in Hy as (ey & Hey & Hry & Hfy); [|done].
  assert (r_Validator x = e_creator ex) as Hcx by (rewrite Hrx; done).
  assert (r_Validator y = e_creator ey) as Hcy by (rewrite Hry; done).
  assert (r_ID x <> r_ID y) as Hid.
  { intros Hid. apply Hne. rewrite Hid in Hex. assert (ex = ey) as -> by congruence. by rewrite Hrx, Hry, Hf. }
  split; [exists ex, ey; split; [done|]; split; [done|congruence]|]. split; intros Hsa.
  - pose proof (frame_self_anc D _ _ _ _ HD Hfr Hsa ltac:(done) Hey Hex). lia.
  - pose proof (frame_self_anc D _ _ _ _ HD Hfr Hsa ltac:(done) Hex Hey). lia.
Qed.

End graph.

(** ** The laws of the election *)

(** The validators with a fork hold no more than a third of the weight. *)
Definition few_cheaters (vv : Validators) (D : gmap Z BaseEvent) : Prop :=
  3 * weight_of vv (fun c => bool_decide (is_cheater D c)) <= TotalWeight vv.

(** [obs] answers forkless cause on the events of [D]. *)
Definition decides_fc (vv : Validators) (D : gmap Z BaseEvent) (obs : Z -> Z -> bool) : Prop :=
  forall a b, is_Some (D !! a) -> is_Some (D !! b) -> obs a b = true <-> fc vv D a b.

Section laws.
Context (vv : Validators) (epoch : Z) (Hwf : wf vv) (D : gmap Z BaseEvent) (HD : dag vv epoch D).
Context (obs : Z -> Z -> bool) (Hobs : decides_fc vv D obs).

Lemma slot_event r : r ∈ slots D -> is_Some (D !! r_ID r).
Proof. intros (e & He & _)%(elem_of_slots vv epoch); [by eexists|done]. Qed.

Lemma framed_le h e : framed vv obs D -> D !! h = Some e -> spf D e <= e_frame e.
Proof. intros Hfr He. destruct (Hfr h e He) as [[-> ?]|[? _]]; lia. Qed.

Lemma conflict_not_obs a1 a2 b1 b2 :
  few_cheaters vv D -> conflict D b1 b2 -> is_Some (D !! a1) -> is_Some (D !! a2) ->
  obs a1 b1 = true -> obs a2 b2 = true -> False.
Proof.
  intros Hfew Hcf Ha1 Ha2 Ho1 Ho2. pose proof Hcf as [(e1 & e2 & Hb1 & Hb2 & _) _].
  apply Hobs in Ho1; [|done|by eexists]. apply Hobs in Ho2; [|done|by eexists].
  destruct Ho1 as (e1' & Hb1' & Hn1 & Q1 & HQ1 & Hc1), Ho2 as (e2' & Hb2' & Hn2 & Q2 & HQ2 & Hc2).
  assert (e1' = e1) as -> by congruence. assert (e2' = e2) as -> by congruence.
  pose proof (quorum_overlap vv Hwf Q1 Q2 HQ1 HQ2). unfold few_cheaters in Hfew.
  assert (weight_of vv (fun c => Q1 c && Q2 c) <= weight_of vv (fun c => bool_decide (is_cheater D c))); [|lia].
  apply weight_of_mono; [done|]. intros c Hin [Hq1 Hq2]%andb_true_iff. apply bool_decide_eq_true.
  apply (via_conflict_cheater vv epoch D a1 a2 b1 b2 e1 e2 c); auto.
Qed.

Lemma framed_oracle_laws d :
  1 <= d -> framed vv obs D -> few_cheaters vv D -> oracle_laws vv d obs (frame_roots (slots D)).
Proof.
  intros Hd Hfr Hfew. split.
  - by intros f r [? _]%elem_of_frame_roots.
  - intros f r [_ Hr]%elem_of_frame_roots. apply (elem_of_slots vv epoch) in Hr as (e & He & -> & _); [|done].
    apply (wf_ids_elem vv Hwf). apply (eo_creator _ _ _ (dag_event_ok _ _ _ _ _ HD He)).
  - intros f. apply frame_roots_NoDup.
  - intros f r1 r2 x y [_ H1]%elem_of_frame_roots [_ H2]%elem_of_frame_roots
      [Hfx Hx]%elem_of_frame_roots [Hfy Hy]%elem_of_frame_roots Ho1 Ho2 Hv.
    destruct (decide (x = y)) as [|Hne]; [done|]. exfalso.
    apply (conflict_not_obs (r_ID r1) (r_ID r2) (r_ID x) (r_ID y)); try done; try by apply slot_event.
    apply (same_slot_conflict vv epoch); try done; [by intros; eapply framed_le|congruence].
  - intros f r Hle [Hf Hr]%elem_of_frame_roots. apply (elem_of_slots vv epoch) in Hr as (e & He & Hr & Hs); [|done].
    destruct (Hfr _ _ He) as [[He1 _]|[Hb HQ]]; [lia|]. specialize (HQ f ltac:(lia)).
    assert (e_id e = r_ID r) as Hid by (rewrite Hr; done). rewrite Hid in HQ.
    apply (quorum_on_mono vv obs obs _ (slots D) _ (r_ID r)) in HQ; [done|done|].
    intros x [_ Hx]%elem_of_filter _ Ho. done.
Qed.

End laws.
