(* ===== verification/Abft.v ===== *)
(** * abft: Orderer, Lachesis and IndexedLachesis

    abft/event_processing.go, frame_decide.go, bootstrap.go, traversal.go,
    lachesis.go and indexed_lachesis.go.  [Orderer] assigns frames to events,
    runs the elections and moves from frame to frame and epoch to epoch;
    [Lachesis] turns a decided frame into a block; [IndexedLachesis] keeps the
    vector-clock index next to it.

    A fatal [crit] and a nil dereference are [Panic], a returned error is [Err].
    The roots of the previous frame are read before [ProcessRoot] is entered,
    once, as the source does inside it.  Loops without a structural bound take
    fuel. *)

From S2P Require Import Prelude Bytes Pos Dag VecFC VecEngine Wlru Kvdb Election AbftStore.
Local Open Scope go_scope.

Definition ErrWrongFrame : string := "claimed frame mismatched with calculated".

Section orderer.
Context {U C : Type} `{!LossyCache C Z (list RootAndSlot)}.

(** [o_user] is the state of the callbacks: the index and the application. *)
Record Orderer := mk_Orderer {
  o_store : Store C;
  o_election : option Election;
  o_user : U
}.

Definition with_store (o : Orderer) (s : Store C) : Orderer := mk_Orderer s (o_election o) (o_user o).
Definition with_election (o : Orderer) (el : Election) : Orderer := mk_Orderer (o_store o) (Some el) (o_user o).
Definition with_user (o : Orderer) (u : U) : Orderer := mk_Orderer (o_store o) (o_election o) u.

(** abft/orderer.go: the callbacks, which may be nil. *)
Record OrdererCallbacks := mk_OrdererCallbacks {
  ApplyAtropos : option (Orderer -> Z -> Z -> outcome (Orderer * option Validators));
  EpochDBLoaded : option (Orderer -> Z -> outcome Orderer)
}.

Context (getEvent : Z -> option BaseEvent) (ForklessCause : U -> Z -> Z -> bool).

(** ** abft/event_processing.go: frames *)

(** The loop over the roots, with its [break]. *)
Fixpoint count_roots (observes : Z -> bool) (c : WeightCounter) (roots : list RootAndSlot) : outcome WeightCounter :=
  match roots with
  | [] => Ok c
  | it :: roots =>
      let* c := if observes (r_ID it)
                then let* ' (_, c) := Counter_Count c (r_Validator it) in Ok c
                else Ok c in
      if HasQuorum c then Ok c else count_roots observes c roots
  end.

Definition forklessCausedByQuorumOn (o : Orderer) (e : BaseEvent) (f : Z) : outcome (bool * Orderer) :=
  let* ' (es, s) := GetEpochState (o_store o) in
  let* ' (roots, s) := GetFrameRoots s f in
  let* c := count_roots (ForklessCause (o_user o) (e_id e)) (NewCounter (es_Validators es)) roots in
  Ok (HasQuorum c, with_store o s).

(** [for f < maxFrameToCheck && forklessCausedByQuorumOn(e, f) { f++ }]: at
    most [n] turns. *)
Fixpoint calcFrame_loop (n : nat) (o : Orderer) (e : BaseEvent) (f max : Z) : outcome (Z * Orderer) :=
  if f <? max then
    let* ' (q, o) := forklessCausedByQuorumOn o e f in
    if (q : bool) then
      match n with
      | O => Err "out of fuel"
      | S n => calcFrame_loop n o e (u32 (f + 1)) max
      end
    else Ok (f, o)
  else Ok (f, o).

Definition calcFrameIdx (o : Orderer) (e : BaseEvent) (checkOnly : bool) : outcome (Z * Z * Orderer) :=
  let* selfParentFrame :=
    match SelfParent e with
    | None => Ok 0
    | Some sp => match getEvent sp with
                 | None => Panic "nil self-parent"
                 | Some p => Ok (e_frame p)
                 end
    end in
  let max := if checkOnly then e_frame e else u32 (selfParentFrame + 100) in
  let* ' (f, o) := calcFrame_loop (Z.to_nat (max - selfParentFrame)) o e selfParentFrame max in
  Ok (selfParentFrame, if f =? 0 then 1 else f, o).

Definition Orderer_Build (o : Orderer) (e : BaseEvent) : outcome (BaseEvent * Orderer) :=
  let* ' (es, s) := GetEpochState (o_store o) in
  if negb (e_epoch e =? es_Epoch es) then Panic "event has wrong epoch"
  else if negb (Validators_Exists (es_Validators es) (e_creator e))
  then Panic "event wasn't created by an existing validator"
  else
  let* ' (_, frame, o) := calcFrameIdx (with_store o s) e false in
  Ok (SetFrame e frame, o).

Definition checkAndSaveEvent (o : Orderer) (e : BaseEvent) : outcome (Z * Orderer) :=
  let* ' (selfParentFrame, frameIdx, o) := calcFrameIdx o e true in
  if negb (e_frame e =? frameIdx) then Err ErrWrongFrame
  else
  let o := if negb (selfParentFrame =? frameIdx)
           then with_store o (AddRoot (o_store o) selfParentFrame e) else o in
  Ok (selfParentFrame, o).

(** ** abft/frame_decide.go *)

Context (callback : OrdererCallbacks).

Definition resetEpochStore (o : Orderer) (newEpoch : Z) : outcome Orderer :=
  let o := with_store o (openEpochDB (dropEpochDB (o_store o)) newEpoch) in
  match EpochDBLoaded callback with
  | Some loaded => loaded o newEpoch
  | None => Ok o
  end.

Definition sealEpoch (o : Orderer) (newValidators : Validators) : outcome Orderer :=
  let* ' (es, s) := GetEpochState (o_store o) in
  let epoch := u32 (es_Epoch es + 1) in
  resetEpochStore (with_store o (SetEpochState s (mk_EpochState epoch newValidators))) epoch.

Definition onFrameDecided (o : Orderer) (frame atropos : Z) : outcome (bool * Orderer) :=
  let* ' (o, newValidators) :=
    match ApplyAtropos callback with
    | Some apply => apply o frame atropos
    | None => Ok (o, None)
    end in
  let* ' (_, s) := GetLastDecidedState (o_store o) in
  let o := with_store o s in
  match newValidators with
  | Some nv =>
      let* o := sealEpoch o nv in
      let o := with_election o (Election_Reset nv FirstFrame) in
      Ok (true, with_store o (SetLastDecidedState (o_store o) (FirstFrame - 1)))
  | None =>
      let* ' (es, s) := GetEpochState (o_store o) in
      let o := with_election (with_store o s) (Election_Reset (es_Validators es) (u32 (frame + 1))) in
      Ok (false, with_store o (SetLastDecidedState (o_store o) frame))
  end.

(** ** abft/event_processing.go: elections *)

Definition processRoot (o : Orderer) (r : RootAndSlot) : outcome (option Res * Orderer) :=
  match o_election o with
  | None => Panic "nil election"
  | Some el =>
      let f := u32 (r_Frame r - 1) in
      let* ' (roots, s) := GetFrameRoots (o_store o) f in
      let* ' (res, el) := ProcessRoot (ForklessCause (o_user o)) (fun g => if g =? f then roots else []) el r in
      Ok (res, with_election (with_store o s) el)
  end.

(** The roots of one frame, until one of them decides. *)
Fixpoint process_roots (o : Orderer) (roots : list RootAndSlot) : outcome (option Res * Orderer) :=
  match roots with
  | [] => Ok (None, o)
  | it :: roots =>
      let* ' (decided, o) := processRoot o it in
      match decided with
      | Some d => Ok (Some d, o)
      | None => process_roots o roots
      end
  end.

(** [for f := lastDecidedFrame + 1; ; f++]: one unit of fuel per frame. *)
Fixpoint known_roots_loop (fuel : nat) (o : Orderer) (f : Z) : outcome (option Res * Orderer) :=
  match fuel with
  | O => Err "out of fuel"
  | S fuel =>
      let* ' (frameRoots, s) := GetFrameRoots (o_store o) f in
      let* ' (decided, o) := process_roots (with_store o s) frameRoots in
      match decided with
      | Some d => Ok (Some d, o)
      | None => if (length frameRoots =? 0)%nat then Ok (None, o) else known_roots_loop fuel o (u32 (f + 1))
      end
  end.

Definition processKnownRoots (fuel : nat) (o : Orderer) : outcome (option Res * Orderer) :=
  let* ' (lastDecidedFrame, s) := GetLastDecidedState (o_store o) in
  known_roots_loop fuel (with_store o s) (u32 (lastDecidedFrame + 1)).

(** One unit of fuel per decided frame; the result says whether the epoch was
    sealed. *)
Fixpoint bootstrapElection (fuel : nat) (o : Orderer) : outcome (bool * Orderer) :=
  match fuel with
  | O => Err "out of fuel"
  | S fuel' =>
      let* ' (decided, o) := processKnownRoots fuel o in
      match decided with
      | None => Ok (false, o)
      | Some d =>
          let* ' (sealed, o) := onFrameDecided o (res_Frame d) (res_Atropos d) in
          if (sealed : bool) then Ok (true, o) else bootstrapElection fuel' o
      end
  end.

(** The loop of [handleElection] over the frames of the root. *)
Fixpoint handle_frames (fuel : nat) (o : Orderer) (root : BaseEvent) (frames : list Z) : outcome Orderer :=
  match frames with
  | [] => Ok o
  | f :: frames =>
      let* ' (decided, o) := processRoot o (mk_RootAndSlot (e_id root) (mk_Slot f (e_creator root))) in
      match decided with
      | None => handle_frames fuel o root frames
      | Some d =>
          let* ' (sealed, o) := onFrameDecided o (res_Frame d) (res_Atropos d) in
          if (sealed : bool) then Ok o
          else
          let* ' (sealed, o) := bootstrapElection fuel o in
          if (sealed : bool) then Ok o else handle_frames fuel o root frames
      end
  end.

Definition handleElection (fuel : nat) (o : Orderer) (selfParentFrame : Z) (root : BaseEvent) : outcome Orderer :=
  handle_frames fuel o root (frames_between selfParentFrame (e_frame root)).

(** An error of the election is fatal. *)
Definition Orderer_Process (fuel : nat) (o : Orderer) (e : BaseEvent) : outcome Orderer :=
  let* ' (selfParentFrame, o) := checkAndSaveEvent o e in
  match handleElection fuel o selfParentFrame e with
  | Err err => Panic err
  | r => r
  end.

(** ** abft/bootstrap.go *)

Definition Orderer_Bootstrap (fuel : nat) (o : Orderer) : outcome Orderer :=
  match o_election o with
  | Some _ => Err "already bootstrapped"
  | None =>
      let* ' (es, s) := GetEpochState (o_store o) in
      let o := with_store o (openEpochDB s (es_Epoch es)) in
      let* o := match EpochDBLoaded callback with
                | Some loaded => loaded o (es_Epoch es)
                | None => Ok o
                end in
      let* ' (lastDecidedFrame, s) := GetLastDecidedState (o_store o) in
      let o := with_election (with_store o s) (Election_New (es_Validators es) (u32 (lastDecidedFrame + 1))) in
      let* ' (_, o) := bootstrapElection fuel o in
      Ok o
  end.

Definition Orderer_Reset (o : Orderer) (epoch : Z) (validators : Validators) : outcome Orderer :=
  let* o := resetEpochStore (with_store o (applyGenesis_ (o_store o) epoch validators)) epoch in
  match o_election o with
  | None => Panic "nil election"
  | Some _ => Ok (with_election o (Election_Reset validators FirstFrame))
  end.

(** ** abft/traversal.go *)

(** The stack starts with the head; the event is fetched before the filter. *)
Fixpoint abft_dfs {S} (fuel : nat) (filter : S -> BaseEvent -> bool * S) (s : S) (stack : list Z) : outcome S :=
  match fuel with
  | O => Err "out of fuel"
  | Datatypes.S fuel =>
      match Stack_Pop stack with
      | None => Ok s
      | Some (walk, stack) =>
          match getEvent walk with
          | None => Err "event not found"
          | Some event =>
              let '(deeper, s) := filter s event in
              abft_dfs fuel filter s (if deeper then foldl Stack_Push stack (e_parents event) else stack)
          end
      end
  end.

Definition abft_dfsSubgraph {S} (fuel : nat) (head : Z) (filter : S -> BaseEvent -> bool * S) (s : S) : outcome S :=
  abft_dfs fuel filter s [head].

End orderer.
Arguments Orderer : clear implicits.
Arguments OrdererCallbacks : clear implicits.

(** ** lachesis/ and abft/lachesis.go *)

Record Block := mk_Block { bl_Atropos : Z; bl_Cheaters : list Z }.

(** lachesis/cheaters_list.go *)
Definition Cheaters_Set (s : list Z) : gset Z := foldl (fun set element => {[element]} ∪ set) ∅ s.

Definition Cheaters_Validate (s : list Z) (maxValidatorID : Z) : outcome unit :=
  let* _ := foldM (fun (seen : gset Z) id =>
      if id =? 0 then Err "cheaters list contains zero validator ID"
      else if (0 <? maxValidatorID) && (maxValidatorID <? id) then Err "cheaters list contains out-of-range validator ID"
      else if bool_decide (id ∈ seen) then Err "cheaters list contains duplicate validator ID"
      else Ok ({[id]} ∪ seen)) ∅ s in
  Ok tt.

(** lachesis/consensus.go: the callbacks act on the application's state. *)
Record ConsensusCallbacks (App : Type) := mk_ConsensusCallbacks {
  BeginBlock : option (App -> Block -> App);
  ApplyEvent : option (App -> BaseEvent -> App);
  EndBlock : option (App -> App * option Validators)
}.
Arguments BeginBlock {App} _.
Arguments ApplyEvent {App} _.
Arguments EndBlock {App} _.

Section lachesis.
Context {I App C : Type} `{!LossyCache C Z (list RootAndSlot)}.
Local Abbreviation L := (Orderer (I * App) C).

Context (getEvent : Z -> option BaseEvent) (callback : ConsensusCallbacks App).
(** [dagIndex.GetMergedHighestBefore(atropos).Get(i).IsForkDetected()] *)
Context (mergedForks : I -> Z -> outcome (nat -> bool)).

(** The filter of [confirmEvents]: the store, and the application's state. *)
Definition confirm_filter (frame : Z) (st : Store C * App) (e : BaseEvent) : bool * (Store C * App) :=
  let '(s, app) := st in
  if negb (GetEventConfirmedOn s (e_id e) =? 0) then (false, st)
  else
    (true, (SetEventConfirmedOn s (e_id e) frame,
            match ApplyEvent callback with Some f => f app e | None => app end)).

Definition confirmEvents (fuel : nat) (o : L) (frame atropos : Z) : outcome L :=
  let* ' (s, app) := abft_dfsSubgraph getEvent fuel atropos (confirm_filter frame) (o_store o, (o_user o).2) in
  Ok (with_user (with_store o s) ((o_user o).1, app)).

Definition applyAtropos (fuel : nat) (o : L) (decidedFrame atropos : Z) : outcome (L * option Validators) :=
  let* forkDetected := mergedForks (o_user o).1 atropos in
  let* ' (es, s) := GetEpochState (o_store o) in
  let o := with_store o s in
  let cheaters := omap (fun ic => if forkDetected ic.1 : bool then Some ic.2 else None)
                    (imap pair (SortedIDs (es_Validators es))) in
  match BeginBlock callback with
  | None => Ok (o, None)
  | Some begin =>
      let o := with_user o ((o_user o).1, begin (o_user o).2 (mk_Block atropos cheaters)) in
      let* o := match confirmEvents fuel o decidedFrame atropos with
                | Err err => Panic err
                | r => r
                end in
      match EndBlock callback with
      | Some endBlock => let '(app, nv) := endBlock (o_user o).2 in Ok (with_user o ((o_user o).1, app), nv)
      | None => Ok (o, None)
      end
  end.

End lachesis.

(** ** abft/indexed_lachesis.go *)

Section indexed.
Context {App C bytes : Type} `{!LossyCache C Z (list RootAndSlot)} `{!BranchesInfoRlp bytes}.
Local Abbreviation Index := (vecfc_Engine (bytes := bytes)).
Local Abbreviation IL := (Orderer (Index * App) C).

Context (callback : ConsensusCallbacks App).

(** The answers of the index; a fatal error of it does not happen on connected
    events ([forklessCause_correct]). *)
Definition index_ForklessCause (u : Index * App) (a b : Z) : bool :=
  match ForklessCause_uncached u.1 a b with
  | Ok (_, r) => r
  | _ => false
  end.

Definition index_mergedForks (vi : Index) (atropos : Z) : outcome (nat -> bool) :=
  let* ' (_, m) := GetMergedHighestBefore vi atropos in
  match m with
  | None => Panic "nil HighestBefore"
  | Some m => Ok (HB_IsForkDetected m)
  end.

(** The callbacks given to the orderer by [Bootstrap]: a new epoch resets the
    index over the vector table of the new epoch's database. *)
Definition indexed_callbacks (fuel : nat) (getEvent : Z -> option BaseEvent) (vectorIndex : Z -> VecDb HighestBeforeSeq LowestAfterSeq bytes) :
    OrdererCallbacks (Index * App) C :=
  mk_OrdererCallbacks
    (Some (applyAtropos getEvent callback index_mergedForks fuel))
    (Some (fun o epoch =>
       let* ' (es, s) := GetEpochState (o_store o) in
       Ok (with_user (with_store o s) (Engine_Reset (es_Validators es) (vectorIndex epoch), (o_user o).2)))).

Definition with_index (o : IL) (vi : Index) : IL := with_user o (vi, (o_user o).2).

Definition drop_index (o : IL) : IL := with_index o (Engine_DropNotFlushed (o_user o).1).

(** [uniqueDirtyID] is threaded as its counter. *)
Definition Indexed_Build (fuel : nat) (getEvent : Z -> option BaseEvent) (counter : Z) (o : IL) (e : BaseEvent) :
    outcome (BaseEvent * Z * IL) :=
  let '(counter, id) := uniqueID_sample counter in
  let e := SetID e id in
  let* vi := Engine_Add fuel getEvent (o_user o).1 e in
  let* ' (e, o) := Orderer_Build getEvent index_ForklessCause (with_index o vi) e in
  Ok (e, counter, drop_index o).

(** The index is flushed when the event was accepted; what is not flushed is
    dropped in every case. *)
Definition Indexed_Process (fuel efuel : nat) (getEvent : Z -> option BaseEvent)
    (vectorIndex : Z -> VecDb HighestBeforeSeq LowestAfterSeq bytes) (o : IL) (e : BaseEvent) :
    outcome (option string * IL) :=
  match Engine_Add fuel getEvent (o_user o).1 e with
  | Panic err => Panic err
  | Err err => Ok (Some err, drop_index o)
  | Ok vi =>
      let o := with_index o vi in
      match Orderer_Process getEvent index_ForklessCause (indexed_callbacks fuel getEvent vectorIndex) efuel o e with
      | Panic err => Panic err
      | Err err => Ok (Some err, drop_index o)
      | Ok o => Ok (None, drop_index (with_index o (Engine_Flush (o_user o).1)))
      end
  end.

End indexed.

(** [IndexedLachesis.Bootstrap]: [p.callback] is set when the orderer has been
    started, so what [Bootstrap] itself decides finds no callbacks. *)
Definition no_callbacks {App : Type} : ConsensusCallbacks App := mk_ConsensusCallbacks _ None None None.

Definition Indexed_Bootstrap {App C bytes : Type} `{!LossyCache C Z (list RootAndSlot)} `{!BranchesInfoRlp bytes} (fuel efuel : nat)
    (getEvent : Z -> option BaseEvent) (vectorIndex : Z -> VecDb HighestBeforeSeq LowestAfterSeq bytes)
    (o : Orderer (vecfc_Engine (bytes := bytes) * App) C) : outcome (Orderer (vecfc_Engine (bytes := bytes) * App) C) :=
  Orderer_Bootstrap index_ForklessCause (indexed_callbacks no_callbacks fuel getEvent vectorIndex) efuel o.
