(* ===== verification/AbftFrames.v ===== *)
(** * abft: Build and Process compute the same frames

    [calcFrameIdx] on a store that holds the roots [R]: the frame it returns,
    that [Process] accepts exactly the frames of [frame_ok] and registers the
    roots, and that it accepts what [Build] chose. *)

From S2P Require Import Prelude Bytes Pos Dag VecFC VecEngine Wlru Kvdb ForklessCause Election ElectionSafety AbftStore Frames Abft.
Local Open Scope go_scope.

(** ** The store as the orderer sees it *)

Section store.
Context {C : Type} `{!LossyCache C Z (list RootAndSlot)} `{!LossyCacheLaws C Z (list RootAndSlot)}.
Implicit Types (s : Store C) (R : gset RootAndSlot).

(** A value of the main database and its one-value cache. *)
Definition stored {A} (db cache : option A) (v : A) : Prop := db = Some v /\ (cache = None \/ cache = Some v).

Record store_inv (vv : Validators) (epoch ld : Z) R s : Prop := {
  si_roots : roots_inv R s;
  si_epoch : stored (st_EpochState s) (st_cacheEpoch s) (mk_EpochState epoch vv);
  si_ld : stored (st_LastDecidedState s) (st_cacheLastDecided s) ld;
  si_validators : forall r, r ∈ R -> r_Validator r ∈ SortedIDs vv;
  si_frames : forall r, r ∈ R -> 0 < r_Frame r;
  si_open : st_open s = epoch
}.

(** Two stores that differ in their caches only. *)
Definition same_db s s' : Prop :=
  st_LastDecidedState s' = st_LastDecidedState s /\ st_EpochState s' = st_EpochState s /\
  st_dbs s' = st_dbs s /\ st_open s' = st_open s.

#[export] Instance same_db_preorder : PreOrder same_db.
Proof. split; [done|]. unfold same_db. intros s1 s2 s3. naive_solver congruence. Qed.

Lemma same_db_table s s' : same_db s s' -> epochTable s' = epochTable s.
Proof. unfold same_db, epochTable. by intros (_ & _ & -> & ->). Qed.

(** What the application's callbacks change or see of the store: the confirmation
    marks and the databases of other epochs. *)
Definition epoch_view s : gmap Z Z * gmap Z EpochDB := (t_ConfirmedEvent (epochTable s), delete (st_open s) (st_dbs s)).

Lemma same_db_view s s' : same_db s s' -> epoch_view s' = epoch_view s.
Proof. intros Hd. unfold epoch_view. rewrite (same_db_table _ _ Hd). by destruct Hd as (_ & _ & -> & ->). Qed.

Section facts.
Context (vv : Validators) (Hwf : wf vv) (epoch ld : Z).

Lemma roots_inv_caches R s1 s2 :
  t_Roots (epochTable s2) = t_Roots (epochTable s1) -> st_FrameRoots s2 = st_FrameRoots s1 -> roots_inv R s1 -> roots_inv R s2.
Proof. intros Ht Hc [H1 H2 H3 H4]. split; rewrite ?Ht, ?Hc; done. Qed.

Lemma GetEpochState_spec R s :
  store_inv vv epoch ld R s ->
  exists s', GetEpochState s = Ok (mk_EpochState epoch vv, s') /\ store_inv vv epoch ld R s' /\ same_db s s'.
Proof.
  intros [Hr [He Hce] Hl Hv Hf Ho]. unfold GetEpochState. destruct Hce as [Hce|Hce]; rewrite Hce.
  - rewrite He. eexists. split; [done|]. split; [|by rewrite <- He]. split; [|by split; [|right]|done..].
    by eapply roots_inv_caches; [..|exact Hr].
  - eexists. split; [done|]. split; [|done]. split; try done. by split; [|right].
Qed.

Lemma GetLastDecidedState_spec R s :
  store_inv vv epoch ld R s ->
  exists s', GetLastDecidedState s = Ok (ld, s') /\ store_inv vv epoch ld R s' /\ same_db s s'.
Proof.
  intros [Hr He [Hl Hcl] Hv Hf Ho]. unfold GetLastDecidedState. destruct Hcl as [Hcl|Hcl]; rewrite Hcl.
  - rewrite Hl. eexists. split; [done|]. split; [|by rewrite <- Hl].
    split; [by eapply roots_inv_caches; [..|exact Hr]|done|by split; [|right]|done..].
  - eexists. split; [done|]. split; [|done]. split; try done. by split; [|right].
Qed.

Lemma GetFrameRoots_store R s f :
  store_inv vv epoch ld R s -> is_u32 f ->
  exists rr s', GetFrameRoots s f = Ok (rr, s') /\ rr ≡ₚ frame_roots R f /\
    store_inv vv epoch ld R s' /\ same_db s s'.
Proof.
  intros [Hr He Hl Hv Hfr Ho] Hf. destruct (GetFrameRoots_spec R s f Hr Hf) as (rr & c & Hg & Hp & Hr').
  exists rr, (set_FrameRoots s c). split; [done|]. split; [done|].
  split; [by split|]. unfold same_db. done.
Qed.

Lemma AddRoot_same s sp e :
  st_LastDecidedState (AddRoot s sp e) = st_LastDecidedState s /\ st_EpochState (AddRoot s sp e) = st_EpochState s /\
  st_cacheLastDecided (AddRoot s sp e) = st_cacheLastDecided s /\ st_cacheEpoch (AddRoot s sp e) = st_cacheEpoch s /\
  epoch_view (AddRoot s sp e) = epoch_view s /\ st_open (AddRoot s sp e) = st_open s.
Proof.
  unfold AddRoot. revert s. induction (frames_between sp (e_frame e)) as [|f l IH]; intros s; simpl; [done|].
  destruct (IH (addRoot s e f)) as (-> & -> & -> & -> & -> & ->). unfold addRoot.
  destruct (cache_get _ _) as [[rr|] c]; (split; [done|]; split; [done|]; split; [done|]; split; [done|]);
    unfold epoch_view, epochTable; simpl; by rewrite lookup_insert_eq, delete_insert_eq.
Qed.

Lemma AddRoot_store R s sp e :
  store_inv vv epoch ld R s -> e_creator e ∈ SortedIDs vv -> 0 <= sp ->
  (forall f, sp < f <= e_frame e -> root_ok (root_at e f) /\ root_at e f ∉ R) ->
  store_inv vv epoch ld (root_slots sp e ∪ R) (AddRoot s sp e).
Proof.
  intros [Hr [He1 He2] [Hl1 Hl2] Hv Hfr Ho] Hc Hsp Hnew. destruct (AddRoot_same s sp e) as (E1 & E2 & E3 & E4 & _ & E5).
  split; [by apply AddRoot_spec|by split; rewrite ?E2, ?E4|by split; rewrite ?E1, ?E3| | |by rewrite E5].
  - intros r [(f & -> & _)%elem_of_root_slots|]%elem_of_union; [done|auto].
  - intros r [(f & -> & Hf)%elem_of_root_slots|]%elem_of_union; [unfold r_Frame; simpl; lia|auto].
Qed.

End facts.
End store.

(** ** Frames *)

Section frames.
Context {U C : Type} `{!LossyCache C Z (list RootAndSlot)} `{!LossyCacheLaws C Z (list RootAndSlot)}.
Context (vv : Validators) (Hwf : wf vv) (epoch ld : Z) (R : gset RootAndSlot).
Context (getEvent : Z -> option BaseEvent) (FC : U -> Z -> Z -> bool).
Implicit Types (o : Orderer U C) (e : BaseEvent).

Lemma is_quorum_ext p q : (forall c, c ∈ SortedIDs vv -> p c = q c) -> is_quorum vv p <-> is_quorum vv q.
Proof. intros Hpq. unfold is_quorum. by rewrite (weight_of_ext vv p q Hpq). Qed.

Lemma is_quorum_sub p q : (forall c, c ∈ SortedIDs vv -> p c = true -> q c = true) -> is_quorum vv p -> is_quorum vv q.
Proof. intros Hpq Hp. unfold is_quorum in *. etrans; [exact Hp|]. by apply weight_of_mono. Qed.

(** The loop over the roots answers whether the validators of the counted roots
    are a quorum, its early exit included. *)
Lemma count_roots_spec observes l : forall S c,
  counter_inv vv S c -> (forall r, r ∈ l -> r_Validator r ∈ SortedIDs vv) -> ~ is_quorum vv (in_set S) ->
  exists c', count_roots observes c l = Ok c' /\
    HasQuorum c' = bool_decide (is_quorum vv (fun v => in_set S v ||
      existsb (fun x => (r_Validator x =? v) && observes (r_ID x)) l)).
Proof.
  induction l as [|x l IH]; intros S c Hc Hl Hn; cbn [count_roots existsb].
  - exists c. split; [done|]. rewrite (HasQuorum_inv _ _ _ Hc). apply bool_decide_ext.
    apply is_quorum_ext. intros v _. by rewrite orb_false_r.
  - assert (exists S' c', (if observes (r_ID x) then let* ' (_, c) := Counter_Count c (r_Validator x) in Ok c else Ok c) = Ok c' /\
      counter_inv vv S' c' /\ forall v, in_set S' v = in_set S v || ((r_Validator x =? v) && observes (r_ID x))) as (S' & c' & -> & Hc' & HS').
    { destruct (observes (r_ID x)).
      - destruct (Count_inv vv Hwf S c _ Hc (Hl x ltac:(left))) as (c' & -> & Hc'). do 2 eexists. split; [done|].
        split; [done|]. intros v. rewrite andb_true_r, orb_comm. unfold in_set.
        destruct (Z.eqb_spec (r_Validator x) v) as [->|Hne]; simpl; apply bool_decide_ext || idtac; [|set_solver].
        apply bool_decide_eq_true. set_solver.
      - exists S, c. split; [done|]. split; [done|]. intros v. by rewrite andb_false_r, orb_false_r. }
    cbn [outcome_bind]. pose proof (HasQuorum_inv _ _ _ Hc') as Hq. destruct (HasQuorum c') eqn:E.
    + exists c'. split; [done|]. rewrite E. symmetry in Hq |- *. apply bool_decide_eq_true in Hq.
      apply bool_decide_eq_true. revert Hq. apply is_quorum_sub. intros v _. rewrite HS'.
      rewrite !orb_true_iff. tauto.
    + symmetry in Hq. apply bool_decide_eq_false in Hq.
      destruct (IH S' c' Hc') as (c2 & -> & Hc2); [intros; apply Hl; by right|done|].
      exists c2. split; [done|]. rewrite Hc2. apply bool_decide_ext, is_quorum_ext. intros v _.
      by rewrite HS', orb_assoc.
Qed.

Lemma quorum_nothing : ~ is_quorum vv (fun _ => false).
Proof. intros HQ. by destruct (quorum_nonempty vv Hwf _ HQ) as (c & _ & ?). Qed.

Lemma quorum_on_zero obs a : (forall r, r ∈ R -> 0 < r_Frame r) -> ~ quorum_on vv obs R a 0.
Proof.
  intros Hfr HQ. apply quorum_nothing. revert HQ. apply is_quorum_sub. intros c _.
  rewrite existsb_exists. intros (x & Hx & _). apply list_elem_of_In, elem_of_frame_roots in Hx as [Hx Hin].
  specialize (Hfr x Hin). lia.
Qed.

Lemma quorum_by_perm obs a f rr :
  rr ≡ₚ frame_roots R f ->
  is_quorum vv (fun v => existsb (fun x => (r_Validator x =? v) && obs a (r_ID x)) rr) <-> quorum_on vv obs R a f.
Proof.
  intros Hp. apply is_quorum_ext. intros c _. apply eq_iff_eq_true. rewrite !existsb_exists.
  by setoid_rewrite <- list_elem_of_In; setoid_rewrite Hp.
Qed.

Lemma forklessCausedByQuorumOn_spec o e f :
  store_inv vv epoch ld R (o_store o) -> is_u32 f ->
  exists s', forklessCausedByQuorumOn FC o e f =
      Ok (bool_decide (quorum_on vv (FC (o_user o)) R (e_id e) f), with_store o s') /\
    store_inv vv epoch ld R s' /\ same_db (o_store o) s'.
Proof.
  intros Hs Hf. unfold forklessCausedByQuorumOn.
  destruct (GetEpochState_spec vv epoch ld R _ Hs) as (s1 & -> & Hs1 & Hd1). cbn [outcome_bind es_Validators].
  destruct (GetFrameRoots_store vv epoch ld R s1 f Hs1 Hf) as (rr & s2 & -> & Hp & Hs2 & Hd2). cbn [outcome_bind].
  destruct (count_roots_spec (FC (o_user o) (e_id e)) rr ∅ _ (NewCounter_inv vv Hwf)) as (c & -> & Hc).
  - intros r Hr. rewrite Hp in Hr. apply elem_of_frame_roots in Hr as [_ Hr]. by eapply si_validators.
  - intros HQ. apply quorum_nothing. revert HQ. apply is_quorum_sub. intros c _. by rewrite (in_set_empty vv Hwf).
  - cbn [outcome_bind]. exists s2. rewrite Hc. split; [|by split; [|etrans]]. do 2 f_equal.
    apply bool_decide_ext. rewrite <- (quorum_by_perm _ _ _ _ Hp). apply is_quorum_ext.
    intros v _. by rewrite (in_set_empty vv Hwf).
Qed.

(** The frame reached from [f]: every frame passed has a quorum, and it is the
    limit or has none. *)
Definition climbs (obs : Z -> Z -> bool) (a f max g : Z) : Prop :=
  f <= g /\ (f <= max -> g <= max) /\ (forall i, f <= i < g -> quorum_on vv obs R a i) /\
  (max <= g \/ ~ quorum_on vv obs R a g).

Lemma climbs_unique obs a f max g1 g2 : f <= max -> climbs obs a f max g1 -> climbs obs a f max g2 -> g1 = g2.
Proof.
  intros Hm (Hf1 & Hl1 & HQ1 & He1) (Hf2 & Hl2 & HQ2 & He2). specialize (Hl1 Hm). specialize (Hl2 Hm).
  destruct (Z.lt_trichotomy g1 g2) as [Hlt|[->|Hlt]]; [|done|].
  - destruct He1 as [|Hn]; [lia|]. destruct Hn. apply HQ2. lia.
  - destruct He2 as [|Hn]; [lia|]. destruct Hn. apply HQ1. lia.
Qed.

Lemma calcFrame_loop_spec n : forall o e f max,
  store_inv vv epoch ld R (o_store o) -> 0 <= f -> is_u32 max -> max - f <= Z.of_nat n ->
  exists g s', calcFrame_loop FC n o e f max = Ok (g, with_store o s') /\
    climbs (FC (o_user o)) (e_id e) f max g /\ store_inv vv epoch ld R s' /\ same_db (o_store o) s'.
Proof.
  induction n as [|n IH]; intros o e f max Hs H0 Hmax Hn;
    cbn [calcFrame_loop]; destruct (f <? max) eqn:E; bool_to_prop; try lia.
  1,3: exists f, (o_store o); split; [by destruct o|]; split; [|done]; split; [lia|]; split; [done|]; split; [lia|by left].
  destruct (forklessCausedByQuorumOn_spec o e f Hs) as (s1 & -> & Hs1 & Hd1); [solve_width|]. cbn [outcome_bind].
  destruct (bool_decide _) eqn:Hq.
  - apply bool_decide_eq_true in Hq. rewrite u32_small by solve_width.
    destruct (IH (with_store o s1) e (f + 1) max) as (g & s2 & -> & (Hg1 & Hg2 & Hg3 & Hg4) & Hs2 & Hd2); try done; try lia.
    exists g, s2. split; [done|]. split; [|split; [done|by etrans]]. split; [lia|]. split; [intros; apply Hg2; lia|].
    split; [|done]. intros i Hi. destruct (decide (i = f)) as [->|]; [done|]. apply Hg3. lia.
  - apply bool_decide_eq_false in Hq. exists f, s1. split; [done|]. split; [|done].
    split; [lia|]. split; [done|]. split; [lia|by right].
Qed.

(** The frame of the self-parent, looked up in the event source. *)
Definition has_spf e (s : Z) : Prop :=
  match SelfParent e with
  | None => s = 0
  | Some sp => exists p, getEvent sp = Some p /\ e_frame p = s
  end.

Lemma calcFrameIdx_spec o e checkOnly s :
  store_inv vv epoch ld R (o_store o) -> has_spf e s -> 0 <= s < 2 ^ 31 -> is_u32 (e_frame e) ->
  let max := if checkOnly : bool then e_frame e else s + 100 in
  exists g s', calcFrameIdx getEvent FC o e checkOnly = Ok (s, if g =? 0 then 1 else g, with_store o s') /\
    climbs (FC (o_user o)) (e_id e) s max g /\ store_inv vv epoch ld R s' /\ same_db (o_store o) s'.
Proof.
  intros Hs Hsp Hb He max. unfold calcFrameIdx.
  assert (match SelfParent e with None => Ok 0 | Some sp => match getEvent sp with None => Panic "nil self-parent" | Some p => Ok (e_frame p) end end = Ok s) as ->.
  { unfold has_spf in Hsp. destruct (SelfParent e); [|by subst]. destruct Hsp as (p & -> & ->). done. }
  cbn [outcome_bind]. replace (if checkOnly then e_frame e else u32 (s + 100)) with max.
  2:{ unfold max. destruct checkOnly; [done|]. symmetry. apply u32_small. solve_width. }
  destruct (calcFrame_loop_spec (Z.to_nat (max - s)) o e s max Hs) as (g & s' & -> & Hg & Hs' & Hd);
    [lia|unfold max; destruct checkOnly; solve_width|lia|].
  exists g, s'. done.
Qed.

(** A frame is accepted exactly when [frame_ok] holds of it. *)
Lemma climbs_frame_ok obs e s g :
  (forall r, r ∈ R -> 0 < r_Frame r) -> 0 <= s -> 0 < e_frame e -> climbs obs (e_id e) s (e_frame e) g ->
  e_frame e = (if g =? 0 then 1 else g) <-> frame_ok vv obs R e s.
Proof.
  intros Hfr Hs He (Hg1 & Hg2 & HQ & Hg4). unfold frame_ok. destruct (g =? 0) eqn:E; bool_to_prop; split.
  - intros Hf. left. lia.
  - intros [[Hf _]|[Hf _]]; [done|lia].
  - intros <-. destruct (decide (s = 0)) as [->|]; [|by right; split; [lia|]].
    destruct (decide (e_frame e = 1)) as [|Hne]; [left; lia|]. exfalso.
    apply (quorum_on_zero obs (e_id e) Hfr), HQ. lia.
  - intros [[Hf Hle]|[Hle Hall]].
    + rewrite Hf in *. destruct (decide (s = 0)) as [->|]; [|lia].
      specialize (Hg2 ltac:(lia)). lia.
    + specialize (Hg2 ltac:(lia)). destruct Hg4 as [|Hn]; [lia|]. destruct (decide (g = e_frame e)) as [|Hne]; [done|].
      destruct Hn. apply Hall. lia.
Qed.

End frames.

(** ** Properties *)

(** The part of an event that its roots are keyed by, in its Go ranges. *)
Record event_typed (vv : Validators) (e : BaseEvent) : Prop := {
  et_frame : 0 < e_frame e < 2 ^ 31;
  et_creator : is_u32 (e_creator e) /\ e_creator e ∈ SortedIDs vv;
  et_id : is_hash (e_id e)
}.

Section check_and_save.
Context {U C : Type} `{!LossyCache C Z (list RootAndSlot)} `{!LossyCacheLaws C Z (list RootAndSlot)}.
Context (vv : Validators) (Hwf : wf vv) (epoch ld : Z) (R : gset RootAndSlot).
Context (getEvent : Z -> option BaseEvent) (FC : U -> Z -> Z -> bool) (o : Orderer U C).
Context (Hs : store_inv vv epoch ld R (o_store o)).

Lemma new_root e sp f :
  event_typed vv e -> (forall r, r ∈ R -> r_ID r <> e_id e) -> 0 <= sp -> sp < f <= e_frame e ->
  root_ok (root_at e f) /\ root_at e f ∉ R.
Proof.
  intros [? [? ?] ?] Hnew Hsp Hf. split; [|by intros Hr%Hnew].
  unfold root_ok, r_Frame, r_Validator. simpl. split; [solve_width|done].
Qed.

Lemma checkAndSave_accepts e sp :
  has_spf getEvent e sp -> 0 <= sp < 2 ^ 31 -> event_typed vv e -> (forall r, r ∈ R -> r_ID r <> e_id e) ->
  frame_ok vv (FC (o_user o)) R e sp ->
  exists s', checkAndSaveEvent getEvent FC o e = Ok (sp, with_store o s') /\
    store_inv vv epoch ld (root_slots sp e ∪ R) s' /\
    epoch_view s' = epoch_view (o_store o).
Proof.
  intros Hsp Hb He Hnew Hok. unfold checkAndSaveEvent.
  destruct (calcFrameIdx_spec vv Hwf epoch ld R getEvent FC o e true sp Hs Hsp Hb) as (g & s1 & -> & Hg & Hs1 & Hd1).
  { pose proof (et_frame _ _ He). solve_width. }
  cbn [outcome_bind]. pose proof (et_frame _ _ He) as Hf.
  pose proof (climbs_frame_ok vv Hwf R (FC (o_user o)) e sp g (si_frames _ _ _ _ _ Hs) ltac:(lia) ltac:(lia) Hg) as Hiff.
  rewrite <- (proj2 Hiff Hok), Z.eqb_refl. cbn [negb].
  pose proof (same_db_view _ _ Hd1) as Ht. destruct (sp =? e_frame e) eqn:Esp; cbn [negb]; bool_to_prop.
  - exists s1. split; [done|]. split; [|by rewrite Ht]. replace (root_slots sp e ∪ R) with R; [done|].
    apply set_eq. intros r. rewrite elem_of_union, elem_of_root_slots. split; [by right|].
    intros [(f & _ & ?)|]; [lia|done].
  - exists (AddRoot s1 sp e). split; [done|]. destruct (AddRoot_same s1 sp e) as (_ & _ & _ & _ & -> & _).
    split; [|by rewrite Ht]. apply AddRoot_store; [done|apply He|lia|]. intros f. apply new_root; [done|done|lia].
Qed.

Lemma checkAndSave_rejects e sp :
  has_spf getEvent e sp -> 0 <= sp < 2 ^ 31 -> 0 < e_frame e < 2 ^ 31 ->
  ~ frame_ok vv (FC (o_user o)) R e sp -> checkAndSaveEvent getEvent FC o e = Err ErrWrongFrame.
Proof.
  intros Hsp Hb Hf Hno. unfold checkAndSaveEvent.
  destruct (calcFrameIdx_spec vv Hwf epoch ld R getEvent FC o e true sp Hs Hsp Hb) as (g & s1 & -> & Hg & _);
    [solve_width|].
  cbn [outcome_bind].
  pose proof (climbs_frame_ok vv Hwf R (FC (o_user o)) e sp g (si_frames _ _ _ _ _ Hs) ltac:(lia) ltac:(lia) Hg) as Hiff.
  destruct (e_frame e =? _) eqn:E; [|done]. apply Z.eqb_eq in E. by apply Hiff in E.
Qed.

End check_and_save.

(** C10: [Process] saves an event exactly when the frame it claims is right:
    1 for a creator's first frame, otherwise at least its self-parent's, with a
    forkless-causing quorum of roots in every frame from the self-parent's to
    the one before it.  A right frame adds the event to the roots of each frame
    after its self-parent's; any other is [ErrWrongFrame]. *)
Theorem checkAndSaveEvent_correct {U C : Type} `{!LossyCache C Z (list RootAndSlot)} `{!LossyCacheLaws C Z (list RootAndSlot)}
    (vv : Validators) (epoch ld : Z) (R : gset RootAndSlot) (getEvent : Z -> option BaseEvent) (FC : U -> Z -> Z -> bool)
    (o : Orderer U C) (e : BaseEvent) (sp : Z) :
  wf vv -> store_inv vv epoch ld R (o_store o) -> has_spf getEvent e sp -> 0 <= sp < 2 ^ 31 ->
  event_typed vv e -> (forall r, r ∈ R -> r_ID r <> e_id e) ->
  (frame_ok vv (FC (o_user o)) R e sp /\ exists s', checkAndSaveEvent getEvent FC o e = Ok (sp, with_store o s') /\
     store_inv vv epoch ld (root_slots sp e ∪ R) s') \/
  (~ frame_ok vv (FC (o_user o)) R e sp /\ checkAndSaveEvent getEvent FC o e = Err ErrWrongFrame).
Proof.
  intros Hwf Hs Hsp Hb He Hnew.
  destruct (checkAndSaveEvent getEvent FC o e) as [[sp' o']|err|err] eqn:E.
  - left. assert (frame_ok vv (FC (o_user o)) R e sp) as Hok.
    { destruct (calcFrameIdx_spec vv Hwf epoch ld R getEvent FC o e true sp Hs Hsp Hb) as (g & s1 & Hc & Hg & _).
      { pose proof (et_frame _ _ He). solve_width. }
      apply (climbs_frame_ok vv Hwf R (FC (o_user o)) e sp g (si_frames _ _ _ _ _ Hs));
        [lia|apply He|exact Hg|]. unfold checkAndSaveEvent in E. rewrite Hc in E. cbn [outcome_bind] in E.
      destruct (e_frame e =? _) eqn:Ef; [by apply Z.eqb_eq in Ef|done]. }
    split; [done|]. destruct (checkAndSave_accepts vv Hwf epoch ld R getEvent FC o Hs e sp) as (s' & Hc & Hs' & _); try done.
    exists s'. rewrite E in Hc. by injection Hc as -> ->.
  - right. assert (~ frame_ok vv (FC (o_user o)) R e sp) as Hno.
    { intros Hok. destruct (checkAndSave_accepts vv Hwf epoch ld R getEvent FC o Hs e sp) as (s' & Hc & _); try done. congruence. }
    split; [done|]. rewrite <- E. apply (checkAndSave_rejects vv Hwf epoch ld R getEvent FC o Hs e sp); try done. apply He.
  - exfalso. destruct (calcFrameIdx_spec vv Hwf epoch ld R getEvent FC o e true sp Hs Hsp Hb) as (g & s1 & Hc & _).
    { pose proof (et_frame _ _ He). solve_width. }
    unfold checkAndSaveEvent in E. rewrite Hc in E. cbn [outcome_bind] in E. by destruct (e_frame e =? _).
Qed.

(** C11: [Build] never fails on an event of a validator of the epoch, chooses the
    highest frame (at most 100 above the self-parent's) that the roots allow,
    and [Process] in the same state accepts an event with that frame, the same
    self-parent and the same observations, whatever its identifier. *)
Theorem Build_frame_accepted {U C : Type} `{!LossyCache C Z (list RootAndSlot)} `{!LossyCacheLaws C Z (list RootAndSlot)}
    (vv : Validators) (epoch ld : Z) (R : gset RootAndSlot) (getEvent : Z -> option BaseEvent) (FC : U -> Z -> Z -> bool)
    (o : Orderer U C) (e : BaseEvent) (sp : Z) :
  wf vv -> store_inv vv epoch ld R (o_store o) -> has_spf getEvent e sp -> 0 <= sp < 2 ^ 31 - 100 ->
  is_u32 (e_frame e) -> e_epoch e = epoch -> e_creator e ∈ SortedIDs vv ->
  exists F o', Orderer_Build getEvent FC o e = Ok (SetFrame e F, o') /\
    (sp = 0 /\ F = 1 \/ F = sp + 100 \/ ~ quorum_on vv (FC (o_user o)) R (e_id e) F) /\
    forall e', event_typed vv e' -> e_frame e' = F -> SelfParent e' = SelfParent e ->
      (forall r, r ∈ R -> r_ID r <> e_id e') ->
      (forall r, r ∈ R -> FC (o_user o) (e_id e') (r_ID r) = FC (o_user o) (e_id e) (r_ID r)) ->
      exists o'', checkAndSaveEvent getEvent FC o' e' = Ok (sp, o'').
Proof.
  intros Hwf Hs Hsp Hb Hf He Hc. unfold Orderer_Build.
  destruct (GetEpochState_spec vv epoch ld R _ Hs) as (s1 & -> & Hs1 & _). cbn [outcome_bind es_Epoch es_Validators].
  rewrite He, Z.eqb_refl, (proj2 (Exists_elem vv Hwf _) Hc). cbn [negb].
  destruct (calcFrameIdx_spec vv Hwf epoch ld R getEvent FC (with_store o s1) e false sp Hs1 Hsp ltac:(lia) Hf)
    as (g & s2 & -> & (Hg1 & Hg2 & HQ & Hg4) & Hs2 & _). cbn [outcome_bind]. specialize (Hg2 ltac:(lia)).
  assert (sp = 0 -> g = 0) as Hz.
  { intros ->. destruct (decide (g = 0)) as [|Hne]; [done|]. exfalso.
    apply (quorum_on_zero vv Hwf R (FC (o_user o)) (e_id e) (si_frames _ _ _ _ _ Hs)), HQ. lia. }
  do 2 eexists. split; [reflexivity|]. split.
  - destruct (g =? 0) eqn:E; bool_to_prop; [left; lia|]. right. destruct Hg4 as [Hle|Hn]; [left; cbn in Hle; lia|by right].
  - intros e' He' Hfe Hspe Hnew Hobs.
    destruct (checkAndSave_accepts vv Hwf epoch ld R getEvent FC (with_store (with_store o s1) s2) Hs2 e' sp)
      as (s3 & Hsave & _); [|lia|exact He'|exact Hnew| |by eexists].
    + unfold has_spf. by rewrite Hspe.
    + unfold frame_ok. rewrite Hfe. destruct (g =? 0) eqn:E; bool_to_prop; [left; lia|]. right.
      split; [destruct (decide (sp = 0)) as [Hsp0|]; [by apply Hz in Hsp0|lia]|]. intros i Hi. apply HQ in Hi. revert Hi. apply quorum_on_mono; [done|].
      intros r Hr _ Ho. split; [done|]. simpl. by rewrite Hobs.
Qed.

(** ** Witnesses: the first event of the only validator *)

Definition genesis_Store : Store (Cache Z (list RootAndSlot)) := openEpochDB (applyGenesis_ new_Store 1 solo) 1.

Lemma genesis_inv : store_inv solo 1 0 ∅ genesis_Store.
Proof.
  split; [|by split; [|right]|by split; [|right]|by intros r ?%elem_of_empty..|done].
  eapply (roots_inv_caches ∅ new_Store); [done|done|apply new_Store_inv].
Qed.

Definition genesis_Orderer : Orderer unit (Cache Z (list RootAndSlot)) := mk_Orderer genesis_Store None tt.
Definition observes_all (_ : unit) (_ _ : Z) : bool := true.

Lemma solo_typed id : is_hash id -> event_typed solo (solo_first id).
Proof. intros Hid. split; [done|split; [done|vm_compute; left]|done]. Qed.

Lemma checkAndSaveEvent_correct_witness :
  (frame_ok solo (observes_all tt) ∅ (SetFrame (solo_first 101) 2) 0 /\
     exists s', checkAndSaveEvent (fun _ => None) observes_all genesis_Orderer (SetFrame (solo_first 101) 2) =
       Ok (0, with_store genesis_Orderer s') /\ store_inv solo 1 0 (root_slots 0 (SetFrame (solo_first 101) 2) ∪ ∅) s') \/
  (~ frame_ok solo (observes_all tt) ∅ (SetFrame (solo_first 101) 2) 0 /\
     checkAndSaveEvent (fun _ => None) observes_all genesis_Orderer (SetFrame (solo_first 101) 2) = Err ErrWrongFrame).
Proof.
  apply (checkAndSaveEvent_correct solo 1 0 ∅ (fun _ => None) observes_all genesis_Orderer _ 0 solo_wf genesis_inv);
    [done|done| |by intros r ?%elem_of_empty].
  split; [done|split; [done|vm_compute; left]|done].
Defined.

Lemma Build_frame_accepted_witness :
  exists F o', Orderer_Build (fun _ => None) observes_all genesis_Orderer (solo_first 101) = Ok (SetFrame (solo_first 101) F, o') /\
    (0 = 0 /\ F = 1 \/ F = 0 + 100 \/ ~ quorum_on solo (observes_all tt) ∅ 101 F) /\
    forall e', event_typed solo e' -> e_frame e' = F -> SelfParent e' = None ->
      (forall r, r ∈ (∅ : gset RootAndSlot) -> r_ID r <> e_id e') ->
      (forall r, r ∈ (∅ : gset RootAndSlot) -> observes_all tt (e_id e') (r_ID r) = observes_all tt 101 (r_ID r)) ->
      exists o'', checkAndSaveEvent (fun _ => None) observes_all o' e' = Ok (0, o'').
Proof.
  apply (Build_frame_accepted solo 1 0 ∅ (fun _ => None) observes_all genesis_Orderer (solo_first 101) 0 solo_wf genesis_inv);
    try done. vm_compute. left.
Defined.
