(* ===== verification/Consensus.v ===== *)
(** * abft: a node over a growing event graph

    [node_inv] relates the orderer of a node to the graph [D] of the events it
    has processed: its store holds the roots of [D], its election the votes of
    [D].  [Process] of a further event keeps it, never fails, and calls
    [ApplyAtropos] only with the Atropos that the graph elects, frame after
    frame.  Elections are stable as the graph grows, so two nodes whose events
    fit in one graph decide the same blocks. *)

From S2P Require Import Prelude Bytes Pos Dag VecFC VecEngine Wlru Kvdb ForklessCause Election ElectionSafety ElectionCorrect AbftStore Frames Abft AbftFrames.
Local Open Scope go_scope.

(** The election reads the graph only through the roots of the previous frame. *)
Lemma ProcessRoot_ext obs1 obs2 gfr el r :
  (forall x, x ∈ gfr (r_Frame r - 1) -> obs1 (r_ID r) (r_ID x) = obs2 (r_ID r) (r_ID x)) ->
  ProcessRoot obs1 gfr el r = ProcessRoot obs2 gfr el r.
Proof.
  intros Hobs. assert (observedRoots obs1 gfr (r_ID r) (r_Frame r - 1) = observedRoots obs2 gfr (r_ID r) (r_Frame r - 1)) as Ho.
  { unfold observedRoots. revert Hobs. induction (gfr (r_Frame r - 1)) as [|x l IH]; intros Hl; [done|].
    rewrite !filter_cons, (Hl x), IH by (left || (intros y Hy; apply Hl; by right)). done. }
  assert (observedRootsMap obs1 gfr (r_ID r) (r_Frame r - 1) = observedRootsMap obs2 gfr (r_ID r) (r_Frame r - 1)) as Hm.
  { unfold observedRootsMap. revert Hobs. generalize (∅ : gmap Z RootAndSlot).
    induction (gfr (r_Frame r - 1)) as [|x l IH]; intros m Hl; simpl; [done|].
    rewrite (Hl x) by left. apply IH. intros y Hy. apply Hl. by right. }
  unfold ProcessRoot. destruct (chooseAtropos el) as [[res|]| |]; simpl; try done.
  destruct (_ <=? _); [done|]. destruct (_ =? 0); [done|]. destruct (notDecidedRoots el) as [l| |]; simpl; try done.
  rewrite (foldM_ext (vote_step obs1 gfr r (u32 (r_Frame r - frameToDecide el)))
                     (vote_step obs2 gfr r (u32 (r_Frame r - frameToDecide el)))); [done|].
  intros el' s. unfold vote_step. by rewrite Ho, Hm.
Qed.

Lemma slot_is_root D r : is_root (frame_roots (slots D)) r <-> r ∈ slots D.
Proof. unfold is_root. rewrite elem_of_frame_roots. naive_solver. Qed.

Lemma elem_of_seen_slots obs D r x :
  x ∈ seen obs (frame_roots (slots D)) r <-> obs (r_ID r) (r_ID x) = true /\ x ∈ slots D /\ r_Frame x = r_Frame r - 1.
Proof. rewrite elem_of_seen, elem_of_frame_roots. naive_solver. Qed.

Section graph.
Context (vv : Validators) (epoch : Z) (Hwf : wf vv) (obs : Z -> Z -> bool).

(** A graph with correct frames, few cheaters, and [obs] its forkless cause. *)
Record sound_graph (D : gmap Z BaseEvent) : Prop := {
  sg_dag : dag vv epoch D;
  sg_obs : decides_fc vv D obs;
  sg_framed : framed vv obs D;
  sg_few : few_cheaters vv D;
  sg_typed : forall h e, D !! h = Some e -> event_typed vv e
}.

Implicit Types (D : gmap Z BaseEvent).
Local Abbreviation G D := (frame_roots (slots D)).

Lemma laws D d : sound_graph D -> 1 <= d -> oracle_laws vv d obs (G D).
Proof. intros [? ? ? ? ?] Hd. by apply (framed_oracle_laws vv epoch Hwf). Qed.

Lemma slot_typed D r : sound_graph D -> r ∈ slots D -> 0 < r_Frame r < 2 ^ 31 /\ is_Some (D !! r_ID r).
Proof.
  intros [HD _ _ _ Ht] Hr. apply (elem_of_slots vv epoch) in Hr as (e & He & _ & Hf); [|done].
  pose proof (et_frame _ _ (Ht _ _ He)). pose proof (spf_nonneg vv epoch D _ e HD He).
  split; [lia|by exists e].
Qed.

Lemma G_small D f r : sound_graph D -> r ∈ G D f -> f < 2 ^ 32.
Proof. intros HD [<- Hr]%elem_of_frame_roots. pose proof (slot_typed D r HD Hr). lia. Qed.

(** Every frame below that of a root has roots. *)
Lemma roots_below D r f : sound_graph D -> r ∈ slots D -> 1 <= f <= r_Frame r -> G D f <> [].
Proof.
  intros HD Hr Hf. remember (Z.to_nat (r_Frame r - f)) as n eqn:Hn. revert r Hr Hf Hn.
  induction n as [|n IH]; intros r Hr Hf Hn.
  - intros Hnil. assert (r ∈ G D f) as Hin by (apply elem_of_frame_roots; split; [lia|done]).
    rewrite Hnil in Hin. by apply not_elem_of_nil in Hin.
  - pose proof (all_voters_quorum vv Hwf 1 obs (G D) (laws D 1 HD ltac:(lia)) r
      (proj2 (slot_is_root D r) Hr) ltac:(lia)) as HQ.
    destruct (quorum_nonempty vv Hwf _ HQ) as (c & _ & (x & Hx & _)%(voters_spec obs (G D))).
    apply elem_of_seen_slots in Hx as (_ & Hx & Hfx). apply (IH x Hx); lia.
Qed.

(** The blocks: what any election of the graph decides for the frame [d]. *)
Definition elected D (d : Z) (a : Res) : Prop :=
  exists el, el_inv vv d obs (G D) el /\ chooseAtropos el = Ok (Some a).

Lemma elected_unique D d a b : sound_graph D -> 1 <= d -> elected D d a -> elected D d b -> a = b.
Proof.
  intros HD Hd (el1 & H1 & Ha) (el2 & H2 & Hb).
  by apply (chooseAtropos_agree vv Hwf d obs (G D) (laws D d HD Hd) el1 el2).
Qed.

Lemma elected_root D d a :
  sound_graph D -> 1 <= d -> elected D d a ->
  res_Frame a = d /\ exists x, x ∈ slots D /\ r_Frame x = d /\ r_ID x = res_Atropos a.
Proof.
  intros HD Hd (el & H1 & Ha).
  destruct (chooseAtropos_root vv d obs (G D) (laws D d HD Hd) el a H1 Ha) as (Hf & x & Hx & Hid).
  apply elem_of_frame_roots in Hx as [Hfx Hx]. split; [done|]. by exists x.
Qed.

(** ** Growth of the graph *)

(** A smaller graph of a sound one is sound. *)
Lemma cheaters_sub D D' : D ⊆ D' -> few_cheaters vv D' -> few_cheaters vv D.
Proof.
  intros Hsub Hfew. unfold few_cheaters in *.
  assert (weight_of vv (fun c => bool_decide (is_cheater D c)) <= weight_of vv (fun c => bool_decide (is_cheater D' c))); [|lia].
  apply weight_of_mono; [done|]. intros c _. rewrite !bool_decide_eq_true.
  intros Hc. by eapply cheater_mono.
Qed.

Lemma sound_sub D D' : dag vv epoch D -> D ⊆ D' -> sound_graph D' -> sound_graph D.
Proof.
  intros HD Hsub [HD' Hobs Hfr Hfew Htyped].
  assert (forall a b, is_Some (D !! a) -> is_Some (D' !! b) -> obs a b = true -> is_Some (D !! b)) as Hknown.
  { intros a b Ha Hb Ho. apply Hobs in Ho; [|destruct Ha as [? Ha]; by exists x; eapply lookup_weaken|done].
    apply (fc_anc vv Hwf), (anc_sub vv epoch D D') in Ho; [|done..]. by apply (anc_dom vv epoch D a). }
  split; [done| | |by eapply cheaters_sub|intros h e He; eapply Htyped; by eapply lookup_weaken].
  - intros a b Ha [eb Hb]. rewrite <- (fc_sub vv epoch Hwf D D' HD Hsub a b Ha). apply Hobs.
    + destruct Ha as [ea Ha]. exists ea. by eapply lookup_weaken.
    + exists eb. by eapply lookup_weaken.
  - intros h e He. specialize (Hfr h e ltac:(by eapply lookup_weaken)).
    rewrite (spf_sub vv epoch D D' h e HD Hsub He) in Hfr. destruct Hfr as [?|[? HQ]]; [by left|right].
    split; [done|]. intros f Hf. specialize (HQ f Hf). revert HQ. apply quorum_on_mono; [done|].
    intros r [Hne Hr]%elem_of_filter _ Ho. split; [|done]. apply elem_of_filter. split; [done|].
    apply (elem_of_slots_sub vv epoch D D' r HD HD' Hsub). split; [done|].
    apply (Hknown (e_id e)); [|by apply (slot_event vv epoch)|done].
    rewrite (dag_id vv epoch D h e HD He). by exists e.
Qed.

Section growth.
Context (D D' : gmap Z BaseEvent) (HD : sound_graph D) (HD' : sound_graph D') (Hsub : D ⊆ D').

Lemma slots_known r : r ∈ slots D <-> r ∈ slots D' /\ is_Some (D !! r_ID r).
Proof. apply (elem_of_slots_sub vv epoch); [apply HD|apply HD'|done]. Qed.

(** What a known root sees is known. *)
Lemma seen_known r x : r ∈ slots D -> x ∈ seen obs (G D') r <-> x ∈ seen obs (G D) r.
Proof.
  intros Hr. rewrite !elem_of_seen_slots. split; [|intros (? & [? _]%slots_known & ?); done].
  intros (Ho & Hx & Hf). split; [done|]. split; [|done]. apply slots_known. split; [done|].
  pose proof (slot_typed D r HD Hr) as [_ Hd]. pose proof Hr as [Hr' _]%slots_known.
  apply (sg_obs _ HD') in Ho; [|by apply slot_typed|by apply slot_typed].
  apply (fc_anc vv Hwf), (anc_sub vv epoch D D') in Ho; [|apply HD|done|done].
  apply (anc_dom vv epoch D (r_ID r)); [apply HD|done|done].
Qed.

Lemma el_inv_growth d el : 1 <= d -> el_inv vv d obs (G D) el -> el_inv vv d obs (G D') el.
Proof.
  intros Hd. apply (el_inv_larger vv d obs (G D) (G D') (laws D d HD Hd)).
  - intros r [Hr _]%slot_is_root%slots_known. by apply slot_is_root.
  - intros r x Hr%slot_is_root. by apply seen_known.
Qed.

Lemma elected_growth d a : 1 <= d -> elected D d a -> elected D' d a.
Proof. intros Hd (el & Hel & Ha). exists el. split; [by apply el_inv_growth|done]. Qed.

End growth.
End graph.

(** ** The orderer of a node *)

Section orderer.
Context (vv : Validators) (epoch : Z) (Hwf : wf vv) (obs : Z -> Z -> bool).
Context {U C : Type} `{!LossyCache C Z (list RootAndSlot)} `{!LossyCacheLaws C Z (list RootAndSlot)}.
Context (FC : U -> Z -> Z -> bool) (callback : OrdererCallbacks U C).
Implicit Types (o : Orderer U C).
Local Abbreviation sound := (sound_graph vv epoch obs).
Local Abbreviation elected := (elected vv obs).

Definition agrees (u : U) (D : gmap Z BaseEvent) : Prop :=
  forall a b, is_Some (D !! a) -> is_Some (D !! b) -> FC u a b = obs a b.

(** [o'] is [o] after calls that touch its caches and its election only. *)
Definition same_node o o' : Prop := same_db (o_store o) (o_store o') /\ o_user o' = o_user o.

#[local] Instance same_node_preorder : PreOrder same_node.
Proof. split; [done|]. intros o1 o2 o3 [? ?] [? ?]. split; [by etrans|congruence]. Qed.

Section voting.
Context (D : gmap Z BaseEvent) (HD : sound D).
Local Abbreviation G := (frame_roots (slots D)).

(** The node has decided the frames up to [ld], and has processed the roots [P]
    in the election of the next one. *)
Record voting (ld : Z) (P : list RootAndSlot) o : Prop := {
  vo_ld : 0 <= ld < 2 ^ 31;
  vo_store : store_inv vv epoch ld (slots D) (o_store o);
  vo_agrees : agrees (o_user o) D;
  vo_election : exists el, o_election o = Some el /\ el_inv vv (ld + 1) obs G el /\
    known vv (ld + 1) el P /\ chooseAtropos el = Ok None
}.

Lemma voting_mono ld P P' o : (forall x, x ∈ P' -> ld + 1 < r_Frame x -> x ∈ P) -> voting ld P o -> voting ld P' o.
Proof.
  intros Hsub [? ? ? (el & ? & ? & Hk & ?)]. split; try done. exists el. split; [done|].
  split; [done|]. split; [|done]. intros Hn x Hx Hf. apply Hk; auto.
Qed.

(** The next frame is not decided in the whole graph once all its roots have
    voted. *)
Lemma voting_undecided ld o a : voting ld (elements (slots D)) o -> ~ elected D (ld + 1) a.
Proof.
  intros [Hld _ _ (el & _ & Hinv & Hk & Hn)] (el' & Hinv' & Ha).
  refine (undecided_for_good vv Hwf (ld + 1) obs G _ el el' (elements (slots D)) a Hinv Hinv' Hk _ Hn Ha); [apply (laws vv epoch); [done..|lia]|].
  intros r Hr _. unfold is_root in Hr. apply elem_of_frame_roots in Hr as [_ Hr]. by apply elem_of_elements.
Qed.

(** A decision of the frame [ld + 1]. *)
Definition decides (ld : Z) o (r : RootAndSlot) (a : Res) o' : Prop :=
  elected D (ld + 1) a /\ ld + 1 < r_Frame r /\ store_inv vv epoch ld (slots D) (o_store o') /\ same_node o o'.

Lemma seen_of_store r rr :
  rr ≡ₚ G (r_Frame r - 1) -> filter (fun x => obs (r_ID r) (r_ID x) = true) rr ≡ₚ seen obs G r.
Proof. intros Hp. unfold seen. by rewrite Hp. Qed.

Lemma processRoot_voting ld P o r :
  voting ld P o -> r ∈ slots D -> (forall x, x ∈ seen obs G r -> ld + 1 < r_Frame x -> x ∈ P) ->
  exists res o', processRoot FC o r = Ok (res, o') /\
    match res with
    | None => voting ld (r :: P) o' /\ same_node o o'
    | Some a => decides ld o r a o'
    end.
Proof.
  intros [Hld Hs Hag (el & Hel & Hinv & Hk & Hch)] Hr Hseen.
  destruct (slot_typed vv epoch obs D r HD Hr) as [Hf _].
  unfold processRoot. rewrite Hel, u32_small by solve_width.
  destruct (GetFrameRoots_store vv epoch ld (slots D) _ (r_Frame r - 1) Hs) as (rr & s' & -> & Hp & Hs' & Hd);
    [solve_width|]. cbn [outcome_bind].
  rewrite (ProcessRoot_ext _ obs).
  2:{ rewrite Z.eqb_refl. intros x Hx. rewrite Hp in Hx. apply elem_of_frame_roots in Hx as [_ Hx].
      apply Hag; by apply (slot_typed vv epoch obs). }
  destruct (ProcessRoot_inv vv Hwf (ld + 1) obs G (laws vv epoch Hwf obs D (ld + 1) HD ltac:(lia)) ltac:(lia)
    (fun f x => G_small vv epoch obs D f x HD) el P (fun g => if g =? r_Frame r - 1 then rr else []) r Hinv Hk
    (proj2 (slot_is_root D r) Hr)) as (res & el' & Hpr & Hinv' & Hk' & Hch');
    [rewrite Z.eqb_refl; by apply seen_of_store|done|].
  rewrite Hpr. cbn [outcome_bind]. do 2 eexists. split; [reflexivity|]. destruct res as [a|].
  - split; [by exists el'|]. split; [|by split; [|split]].
    unfold ProcessRoot in Hpr. rewrite Hch in Hpr. cbn [outcome_bind] in Hpr. rewrite (ev_frame _ _ _ _ _ Hinv) in Hpr.
    destruct (r_Frame r <=? ld + 1) eqn:E; [done|]. bool_to_prop. lia.
  - split; [|by split]. split; try done. by exists el'.
Qed.

Lemma process_roots_voting ld f l : forall P o,
  voting ld P o -> (forall r, r ∈ l -> r ∈ slots D /\ r_Frame r = f) ->
  (forall x, x ∈ slots D -> r_Frame x = f - 1 -> ld + 1 < r_Frame x -> x ∈ P) ->
  exists res o', process_roots FC o l = Ok (res, o') /\
    match res with
    | None => voting ld (l ++ P) o' /\ same_node o o'
    | Some a => exists r, r ∈ l /\ decides ld o r a o'
    end.
Proof.
  induction l as [|r l IH]; intros P o Hv Hl HP; cbn [process_roots].
  - exists None, o. split; [done|]. by split.
  - destruct (Hl r ltac:(left)) as [Hr Hf].
    destruct (processRoot_voting ld P o r Hv Hr) as (res & o1 & -> & H1).
    { intros x (_ & Hx & Hfx)%elem_of_seen_slots Hlx. apply HP; [done|lia|done]. }
    cbn [outcome_bind]. destruct res as [a|].
    { do 2 eexists. split; [reflexivity|]. exists r. split; [left|done]. }
    destruct H1 as [Hv1 Hn1]. destruct (IH (r :: P) o1 Hv1) as (res & o2 & -> & H2).
    + intros x Hx. apply Hl. by right.
    + intros x Hx ? ?. right. auto.
    + exists res, o2. split; [done|]. destruct res as [a|].
      * destruct H2 as (x & Hx & He & Hfx & Hst & Hnn). exists x. split; [by right|].
        split; [done|]. split; [done|]. split; [done|by etrans].
      * destruct H2 as [Hv2 Hn2]. split; [|by etrans]. eapply voting_mono; [|exact Hv2]. set_solver.
Qed.

(** The loop over the frames ends before its fuel: every frame up to the last
    one with roots has roots. *)
Lemma known_roots_loop_voting ld fuel : forall f o P,
  voting ld P o -> ld + 1 <= f <= 2 ^ 31 -> (0 < fuel)%nat ->
  (forall r, r ∈ slots D -> r_Frame r < f + Z.of_nat fuel - 1) ->
  (forall x, x ∈ slots D -> ld + 1 < r_Frame x < f -> x ∈ P) ->
  exists res o', known_roots_loop FC fuel o f = Ok (res, o') /\
    match res with
    | None => voting ld (elements (slots D)) o' /\ same_node o o'
    | Some a => exists r, r ∈ slots D /\ decides ld o r a o'
    end.
Proof.
  induction fuel as [|fuel IH]; intros f o P Hv Hf Hfuel Htop HP; [lia|]. cbn [known_roots_loop].
  pose proof Hv as [Hld Hs Hag Hel].
  destruct (GetFrameRoots_store vv epoch ld (slots D) _ f Hs) as (rr & s' & -> & Hp & Hs' & Hd); [solve_width|].
  cbn [outcome_bind]. assert (voting ld P (with_store o s')) as Hv' by (by split).
  assert (same_node o (with_store o s')) as Hn' by (by split).
  assert (forall r, r ∈ rr -> r ∈ slots D /\ r_Frame r = f) as Hrr.
  { intros r Hr. rewrite Hp in Hr. by apply elem_of_frame_roots in Hr as [? ?]. }
  destruct (process_roots_voting ld f rr P _ Hv' Hrr) as (res & o1 & -> & H1).
  { intros x Hx Hfx Hlx. apply HP; [done|lia]. }
  cbn [outcome_bind]. destruct res as [a|].
  { do 2 eexists. split; [reflexivity|]. destruct H1 as (r & Hr & He & Hfr & Hst & Hnn).
    exists r. split; [by apply Hrr|]. split; [done|]. split; [done|]. split; [done|by etrans]. }
  destruct H1 as [Hv1 Hn1]. destruct (length rr =? 0)%nat eqn:El; bool_to_prop.
  - do 2 eexists. split; [reflexivity|]. split; [|by etrans]. eapply voting_mono; [|exact Hv1].
    intros x Hx Hlx. apply elem_of_elements in Hx. apply nil_length_inv in El. subst rr.
    destruct (decide (r_Frame x < f)) as [Hin|Hout]; [by apply HP|]. exfalso.
    apply (roots_below vv epoch Hwf obs D x f HD Hx ltac:(lia)). by apply Permutation_nil_l in Hp.
  - assert (exists r, r ∈ slots D /\ r_Frame r = f) as (r0 & Hr0 & Hf0).
    { destruct rr as [|r rr]; [done|]. exists r. apply Hrr. left. }
    pose proof (Htop r0 Hr0) as Htop0. destruct (slot_typed vv epoch obs D r0 HD Hr0) as [Hb0 _].
    rewrite u32_small by solve_width.
    destruct (IH (f + 1) o1 (rr ++ P) Hv1) as (res & o2 & -> & H2); [lia|lia| | |].
    + intros r Hr. specialize (Htop r Hr). lia.
    + intros x Hx Hfx. apply elem_of_app. destruct (decide (r_Frame x = f)) as [Hxf|]; [left|right; apply HP; [done|lia]].
      rewrite Hp. by apply elem_of_frame_roots.
    + assert (same_node o o1) as Hn by (by etrans).
      do 2 eexists. split; [reflexivity|]. destruct res as [a|]; [|split; [apply H2|etrans; [exact Hn|apply H2]]].
      destruct H2 as (r & Hr & He & Hfr & Hst & Hnn). exists r. split; [done|]. split; [done|]. split; [done|].
      split; [done|by etrans].
Qed.

(** ** Decided frames *)

(** [app ld u v]: what the application's state [u] and the view [v] of the store
    are after [ld] decided frames; [seal ld nv u v]: what they are when the block
    after these returned the validators [nv]. *)
Context (app : Z -> U -> gmap Z Z * gmap Z EpochDB -> Prop) (seal : Z -> Validators -> U -> gmap Z Z * gmap Z EpochDB -> Prop).

Definition app_ok (ld : Z) o : Prop := app ld (o_user o) (epoch_view (o_store o)).

Definition block_ok (ld : Z) (nv : option Validators) o : Prop :=
  match nv with
  | None => app_ok (ld + 1) o
  | Some nv => seal ld nv (o_user o) (epoch_view (o_store o))
  end.

(** The contract of the callbacks: [ApplyAtropos] has to succeed for the elected
    Atropos only. *)
Record callbacks_ok : Prop := {
  cb_apply apply ld o a : ApplyAtropos callback = Some apply -> 0 <= ld < 2 ^ 31 - 1 ->
    store_inv vv epoch ld (slots D) (o_store o) -> agrees (o_user o) D -> elected D (ld + 1) a -> app_ok ld o ->
    exists o' nv, apply o (res_Frame a) (res_Atropos a) = Ok (o', nv) /\
      store_inv vv epoch ld (slots D) (o_store o') /\ agrees (o_user o') D /\ block_ok ld nv o';
  cb_none ld u v : ApplyAtropos callback = None -> app ld u v -> app (ld + 1) u v;
  cb_loaded loaded o n es : EpochDBLoaded callback = Some loaded ->
    stored (st_EpochState (o_store o)) (st_cacheEpoch (o_store o)) es ->
    exists o', loaded o n = Ok o' /\ same_db (o_store o) (o_store o') /\ st_FrameRoots (o_store o') = st_FrameRoots (o_store o) /\
      stored (st_EpochState (o_store o')) (st_cacheEpoch (o_store o')) es
}.

Context (Hcb : callbacks_ok).

(** The first state of the epoch [n], with the validators [nv] and the databases
    [dbs]. *)
Record epoch_start (n : Z) (nv : Validators) (dbs : gmap Z EpochDB) o : Prop := {
  ne_epoch : stored (st_EpochState (o_store o)) (st_cacheEpoch (o_store o)) (mk_EpochState n nv);
  ne_ld : stored (st_LastDecidedState (o_store o)) (st_cacheLastDecided (o_store o)) 0;
  ne_open : st_open (o_store o) = n;
  ne_dbs : st_dbs (o_store o) = dbs;
  ne_cache : cache_ok (st_FrameRoots (o_store o));
  ne_purged f : cache_peek (st_FrameRoots (o_store o)) f = None;
  ne_election : o_election o = Some (Election_Reset nv FirstFrame)
}.

Definition epoch_loaded o o' : Prop :=
  match EpochDBLoaded callback with
  | Some loaded => loaded o (u32 (epoch + 1)) = Ok o'
  | None => o' = o
  end.

(** The epoch has ended with a block that returned new validators. *)
Definition sealed_state o : Prop :=
  exists ld nv o1 o2 o3, 0 <= ld /\ seal ld nv (o_user o1) (epoch_view (o_store o1)) /\
    epoch_start (u32 (epoch + 1)) nv (epoch_view (o_store o1)).2 o /\ o_user o2 = o_user o1 /\
    stored (st_EpochState (o_store o2)) (st_cacheEpoch (o_store o2)) (mk_EpochState (u32 (epoch + 1)) nv) /\
    epoch_loaded o2 o3 /\ o_user o = o_user o3.

Lemma election_reset_inv d : el_inv vv d obs G (Election_Reset vv d).
Proof. split; simpl; try done; intros *; by rewrite lookup_empty. Qed.

Lemma election_reset_open d : SortedIDs vv <> [] -> chooseAtropos (Election_Reset vv d) = Ok None.
Proof. intros Hne. unfold chooseAtropos. simpl. by destruct (SortedIDs vv). Qed.

Lemma onFrameDecided_sealed ld o o' apply nv a :
  0 <= ld -> ApplyAtropos callback = Some apply -> apply o (res_Frame a) (res_Atropos a) = Ok (o', Some nv) ->
  store_inv vv epoch ld (slots D) (o_store o') -> seal ld nv (o_user o') (epoch_view (o_store o')) ->
  exists o'', onFrameDecided callback o (res_Frame a) (res_Atropos a) = Ok (true, o'') /\ sealed_state o''.
Proof.
  intros Hld Hap Happ Hs' Hseal. unfold onFrameDecided. rewrite Hap, Happ. cbn [outcome_bind].
  destruct (GetLastDecidedState_spec vv epoch ld (slots D) _ Hs') as (s1 & -> & Hs1 & Hd1). cbn [outcome_bind].
  unfold sealEpoch. cbn [o_store with_store].
  destruct (GetEpochState_spec vv epoch ld (slots D) _ Hs1) as (s2 & -> & Hs2 & Hd2). cbn [outcome_bind es_Epoch].
  unfold resetEpochStore. set (o3 := with_store _ (openEpochDB _ _)).
  assert (stored (st_EpochState (o_store o3)) (st_cacheEpoch (o_store o3)) (mk_EpochState (u32 (epoch + 1)) nv)) as Hst3
    by (split; [done|by right]).
  assert (exists o4, match EpochDBLoaded callback with Some loaded => loaded o3 (u32 (epoch + 1)) | None => Ok o3 end = Ok o4 /\
    epoch_loaded o3 o4 /\ same_db (o_store o3) (o_store o4) /\ st_FrameRoots (o_store o4) = st_FrameRoots (o_store o3) /\
    stored (st_EpochState (o_store o4)) (st_cacheEpoch (o_store o4)) (mk_EpochState (u32 (epoch + 1)) nv))
    as (o4 & -> & Hload & Hd4 & Hc4 & Hst4).
  { unfold epoch_loaded. destruct (EpochDBLoaded callback) as [loaded|] eqn:El; [|by exists o3].
    destruct (cb_loaded Hcb loaded o3 (u32 (epoch + 1)) (mk_EpochState (u32 (epoch + 1)) nv) El Hst3) as (o4 & Ho4 & Hres).
    by exists o4. }
  cbn [outcome_bind]. eexists. split; [reflexivity|].
  exists ld, nv, o', o3, o4. split; [done|]. split; [done|]. split; [|done].
  pose proof (ri_cache_ok _ _ (si_roots _ _ _ _ _ Hs2)) as Hok. destruct Hd4 as (_ & _ & Hdb4 & Hop4).
  split; cbn.
  - done.
  - by split; [|right].
  - by rewrite Hop4.
  - rewrite Hdb4. cbn. unfold epoch_view. cbn [snd]. assert (same_db (o_store o') s2) as (_ & _ & -> & ->) by (by etrans). done.
  - rewrite Hc4. by apply cache_purge_ok.
  - intros f. rewrite Hc4. by apply cache_purge_peek.
  - done.
Qed.

Lemma store_decided ld s :
  store_inv vv epoch ld (slots D) s -> store_inv vv epoch (ld + 1) (slots D) (SetLastDecidedState s (ld + 1)).
Proof.
  intros [Hr He Hl Hv Hf Ho]. split; [by eapply roots_inv_caches; [..|exact Hr]|done|by split; [|right]|done..].
Qed.

Lemma onFrameDecided_next ld o o' a :
  elected D (ld + 1) a -> SortedIDs vv <> [] -> 0 <= ld < 2 ^ 31 - 1 ->
  match ApplyAtropos callback with
  | Some apply => apply o (res_Frame a) (res_Atropos a)
  | None => Ok (o, None)
  end = Ok (o', None) ->
  store_inv vv epoch ld (slots D) (o_store o') -> agrees (o_user o') D -> app_ok (ld + 1) o' ->
  exists o'', onFrameDecided callback o (res_Frame a) (res_Atropos a) = Ok (false, o'') /\
    voting (ld + 1) [] o'' /\ app_ok (ld + 1) o''.
Proof.
  intros Hel Hne Hb Happ Hs' Hag Hao. unfold onFrameDecided. rewrite Happ. cbn [outcome_bind].
  destruct (GetLastDecidedState_spec vv epoch ld (slots D) _ Hs') as (s1 & -> & Hs1 & Hd1). cbn [outcome_bind].
  cbn [o_store with_store]. destruct (GetEpochState_spec vv epoch ld (slots D) _ Hs1) as (s2 & -> & Hs2 & Hd2).
  cbn [outcome_bind es_Validators]. eexists. split; [reflexivity|].
  destruct (elected_root vv epoch Hwf obs D (ld + 1) a HD ltac:(lia) Hel) as [Hfr _].
  rewrite Hfr, (u32_small (ld + 1 + 1)) by solve_width. split; [split|].
  - lia.
  - by apply store_decided.
  - done.
  - exists (Election_Reset vv (ld + 1 + 1)). split; [done|]. split; [apply election_reset_inv|].
    split; [|by apply election_reset_open]. intros _ x Hx. by apply not_elem_of_nil in Hx.
  - unfold app_ok in *. cbn. change (epoch_view (SetLastDecidedState s2 (ld + 1))) with (epoch_view s2).
    rewrite (same_db_view (o_store o') s2) by (by etrans). done.
Qed.

Lemma onFrameDecided_spec ld o r a :
  store_inv vv epoch ld (slots D) (o_store o) -> agrees (o_user o) D -> app_ok ld o -> 0 <= ld ->
  elected D (ld + 1) a -> r ∈ slots D -> ld + 1 < r_Frame r ->
  exists sealed o', onFrameDecided callback o (res_Frame a) (res_Atropos a) = Ok (sealed, o') /\
    if sealed : bool then sealed_state o' else voting (ld + 1) [] o' /\ app_ok (ld + 1) o'.
Proof.
  intros Hs Hag Hao Hld Hel Hr Hfr. destruct (slot_typed vv epoch obs D r HD Hr) as [Hbr _].
  assert (SortedIDs vv <> []) as Hne.
  { pose proof (si_validators _ _ _ _ _ Hs r Hr) as Hv. intros Hnil. rewrite Hnil in Hv. by apply not_elem_of_nil in Hv. }
  destruct (ApplyAtropos callback) as [apply|] eqn:Hap.
  - destruct (cb_apply Hcb apply ld o a Hap ltac:(lia) Hs Hag Hel Hao) as (o1 & [nv|] & Happ & Hs1 & Hag1 & Hao1).
    + destruct (onFrameDecided_sealed ld o o1 apply nv a Hld Hap Happ Hs1 Hao1) as (o2 & Ho2 & Hsl). by exists true, o2.
    + destruct (onFrameDecided_next ld o o1 a) as (o2 & Ho2 & Hsl); try done; [lia|by rewrite Hap|]. by exists false, o2.
  - destruct (onFrameDecided_next ld o o a) as (o2 & Ho2 & Hsl); try done; [lia|by rewrite Hap|by apply (cb_none Hcb)|].
    by exists false, o2.
Qed.

Lemma app_ok_same ld o o' : same_node o o' -> app_ok ld o -> app_ok ld o'.
Proof. intros [Hd Hu]. unfold app_ok. by rewrite Hu, (same_db_view _ _ Hd). Qed.

Definition settled (ld : Z) o : Prop :=
  exists ld', ld <= ld' /\ voting ld' (elements (slots D)) o /\ app_ok ld' o.

(** The elections that follow a decision or a restart: one unit of fuel per
    decided frame, and the inner loop one per frame. *)
Lemma bootstrapElection_spec fuel : forall ld o P,
  voting ld P o -> app_ok ld o -> (0 < fuel)%nat -> (forall r, r ∈ slots D -> r_Frame r < ld + Z.of_nat fuel) ->
  exists sealed o', bootstrapElection FC callback fuel o = Ok (sealed, o') /\
    if sealed : bool then sealed_state o' else settled ld o'.
Proof.
  induction fuel as [|fuel IH]; intros ld o P Hv Hao Hfuel Htop; [lia|]. cbn [bootstrapElection].
  unfold processKnownRoots. pose proof Hv as [Hld Hs Hag Hel].
  destruct (GetLastDecidedState_spec vv epoch ld (slots D) _ Hs) as (s1 & -> & Hs1 & Hd1). cbn [outcome_bind].
  rewrite u32_small by solve_width. assert (voting ld P (with_store o s1)) as Hv1 by (by split).
  assert (same_node o (with_store o s1)) as Hn1 by (by split).
  destruct (known_roots_loop_voting ld (S fuel) (ld + 1) (with_store o s1) P Hv1) as (res & o2 & -> & H2); [lia|lia| |lia|].
  { intros r Hr. specialize (Htop r Hr). lia. }
  cbn [outcome_bind]. destruct res as [a|].
  - destruct H2 as (r & Hr & He & Hfr & Hst & Hnn). assert (same_node o o2) as Hno by (by etrans).
    assert (agrees (o_user o2) D) as Hag2 by (destruct Hno as [_ ->]; done).
    destruct (onFrameDecided_spec ld o2 r a Hst Hag2 ltac:(by eapply app_ok_same) ltac:(lia) He Hr Hfr) as (sealed & o3 & -> & H3).
    cbn [outcome_bind]. destruct sealed; [by do 2 eexists|]. destruct H3 as [Hv3 Hao3].
    pose proof (Htop r Hr). destruct (IH (ld + 1) o3 [] Hv3 Hao3) as (sealed & o4 & Ho4 & H4); [lia| |].
    { intros x Hx. specialize (Htop x Hx). lia. }
    exists sealed, o4. split; [done|]. destruct sealed; [done|]. destruct H4 as (ld' & Hle & H4).
    exists ld'. split; [lia|done].
  - destruct H2 as [Hv2 Hn2]. do 2 eexists. split; [reflexivity|]. exists ld. split; [lia|]. split; [done|].
    eapply app_ok_same; [|exact Hao]. by etrans.
Qed.

(** ** The roots of one event *)

Lemma frames_between_nil a b : b <= a -> frames_between a b = [].
Proof. intros Hab. unfold frames_between. by replace (Z.to_nat (b - a)) with 0%nat by lia. Qed.

Lemma frames_between_cons a b : a < b -> frames_between a b = (a + 1) :: frames_between (a + 1) b.
Proof.
  intros Hab. unfold frames_between. replace (Z.to_nat (b - a)) with (S (Z.to_nat (b - (a + 1)))) by lia.
  cbn [seq fmap list_fmap]. f_equal; [lia|]. rewrite <- fmap_S_seq, <- list_fmap_compose.
  apply list_fmap_ext. intros i x _. simpl. lia.
Qed.

Lemma handle_frames_spec fuel e n : forall sp ld o P,
  Z.to_nat (e_frame e - sp) = n -> voting ld P o -> app_ok ld o -> (0 < fuel)%nat ->
  (forall r, r ∈ slots D -> r_Frame r < Z.of_nat fuel) ->
  (forall f, sp < f <= e_frame e -> root_at e f ∈ slots D) ->
  (forall x, x ∈ slots D -> ld + 1 < r_Frame x -> x ∈ P \/ exists f, x = root_at e f /\ sp < f <= e_frame e) ->
  exists o', handle_frames FC callback fuel o e (frames_between sp (e_frame e)) = Ok o' /\
    (settled ld o' \/ sealed_state o').
Proof.
  induction n as [|n IH]; intros sp ld o P Hn Hv Hao Hfuel Htop Hroots HP.
  - rewrite frames_between_nil by lia. exists o. split; [done|]. left. exists ld. split; [lia|]. split; [|done].
    eapply voting_mono; [|exact Hv]. intros x Hx%elem_of_elements Hlx. destruct (HP x Hx Hlx) as [|(f & _ & ?)]; [done|lia].
  - rewrite frames_between_cons by lia. cbn [handle_frames]. change (mk_RootAndSlot _ _) with (root_at e (sp + 1)).
    assert (root_at e (sp + 1) ∈ slots D) as Hr by (apply Hroots; lia).
    destruct (processRoot_voting ld P o _ Hv Hr) as (res & o1 & -> & H1).
    { intros x (_ & Hx & Hfx)%elem_of_seen_slots Hlx. destruct (HP x Hx Hlx) as [|(f & -> & ?)]; [done|].
      unfold r_Frame in Hfx. simpl in Hfx. lia. }
    cbn [outcome_bind]. destruct res as [a|].
    + destruct H1 as (He & Hfr & Hst & Hnn). assert (agrees (o_user o1) D) as Hag1 by (destruct Hnn as [_ ->]; apply Hv).
      destruct (onFrameDecided_spec ld o1 _ a Hst Hag1 ltac:(by eapply app_ok_same) ltac:(apply Hv) He Hr Hfr) as (sealed & o2 & -> & H2).
      cbn [outcome_bind]. destruct sealed; [exists o2; split; [done|by right]|]. destruct H2 as [Hv2 Hao2].
      destruct (bootstrapElection_spec fuel (ld + 1) o2 [] Hv2 Hao2 Hfuel) as (sealed & o3 & -> & H3).
      { intros r Hr'. specialize (Htop r Hr'). pose proof (vo_ld _ _ _ Hv). lia. }
      cbn [outcome_bind]. destruct sealed; [exists o3; split; [done|by right]|]. destruct H3 as (ld' & Hle & Hv3 & Hao3).
      destruct (IH (sp + 1) ld' o3 (elements (slots D))) as (o4 & Ho4 & H4); [lia|done|done|done|done| | |].
      * intros f Hf. apply Hroots. lia.
      * intros x Hx _. left. by apply elem_of_elements.
      * exists o4. split; [done|]. destruct H4 as [(ld2 & Hle2 & H4)|H4]; [left; exists ld2; split; [lia|done]|by right].
    + destruct H1 as [Hv1 Hn1]. apply (IH (sp + 1) ld o1 (root_at e (sp + 1) :: P)); try done; [lia|by eapply app_ok_same| |].
      * intros f Hf. apply Hroots. lia.
      * intros x Hx Hlx. destruct (HP x Hx Hlx) as [|(f & -> & Hf)]; [left; by right|].
        destruct (decide (f = sp + 1)) as [->|]; [left; left|right; exists f; split; [done|lia]].
Qed.

End voting.

(** ** Processing an event *)

Context (getEvent : Z -> option BaseEvent) (app : Z -> U -> gmap Z Z * gmap Z EpochDB -> Prop) (seal : Z -> Validators -> U -> gmap Z Z * gmap Z EpochDB -> Prop).

(** Between two calls every known root has voted. *)
Definition node_inv (D : gmap Z BaseEvent) (ld : Z) o : Prop := voting D ld (elements (slots D)) o /\ app_ok app ld o.

Lemma voting_growth D e ld o s' :
  sound (<[e_id e := e]> D) -> dag vv epoch D -> connectable vv epoch D e -> voting D ld (elements (slots D)) o ->
  agrees (o_user o) (<[e_id e := e]> D) -> store_inv vv epoch ld (root_slots (spf D e) e ∪ slots D) s' ->
  voting (<[e_id e := e]> D) ld (elements (slots D)) (with_store o s').
Proof.
  intros HD' HD Hcon [Hld Hs _ (el & Hel & Hinv & Hk & Hch)] Hag Hs'.
  assert (D ⊆ <[e_id e := e]> D) as Hsub by (apply insert_subseteq, Hcon).
  split; [done|by rewrite (slots_insert vv epoch)|done|]. exists el. split; [done|]. split; [|done].
  apply (el_inv_growth vv epoch Hwf obs D (<[e_id e := e]> D)); try done; [|lia].
  by eapply (sound_sub vv epoch Hwf obs).
Qed.

(** The new event's frame, as the graph judges it, is right for the roots known
    before it. *)
Lemma new_event_frame D e (u : U) :
  sound (<[e_id e := e]> D) -> dag vv epoch D -> connectable vv epoch D e -> agrees u (<[e_id e := e]> D) ->
  frame_ok vv (FC u) (slots D) e (spf D e) /\ 0 <= spf D e < 2 ^ 31.
Proof.
  intros HD' HD Hcon Hag. pose proof (lookup_insert_eq D (e_id e) e) as He.
  pose proof (sg_framed _ _ _ _ HD' _ _ He) as Hfr. rewrite (spf_insert vv epoch D e HD Hcon) in Hfr. split.
  - destruct Hfr as [?|[? HQ]]; [by left|right]. split; [done|]. intros f Hf. specialize (HQ f Hf). revert HQ.
    apply quorum_on_mono; [done|]. intros r [Hne Hr]%elem_of_filter _ Ho.
    rewrite (slots_insert vv epoch D e HD Hcon) in Hr.
    apply elem_of_union in Hr as [(f' & -> & _)%elem_of_root_slots|Hr]; [done|]. split; [done|].
    rewrite Hag; [done|by eexists|]. rewrite lookup_insert_ne by done. by apply (slot_event vv epoch D HD).
  - pose proof (et_frame _ _ (sg_typed _ _ _ _ HD' _ _ He)).
    pose proof (spf_nonneg vv epoch _ (e_id e) e (sg_dag _ _ _ _ HD') He) as Hn.
    rewrite (spf_insert vv epoch D e HD Hcon) in Hn. destruct Hfr as [[? ?]|[? _]]; lia.
Qed.

Lemma new_event_source D e :
  dag vv epoch D -> connectable vv epoch D e -> (forall h p, D !! h = Some p -> getEvent h = Some p) ->
  has_spf getEvent e (spf D e) /\ forall r, r ∈ slots D -> r_ID r <> e_id e.
Proof.
  intros HD Hcon Hsrc. split.
  - unfold has_spf, spf. destruct (SelfParent e) as [h|] eqn:Hsp; [|done].
    destruct (eo_next _ _ _ (dag_connectable_ok _ _ _ _ HD Hcon) _ Hsp) as (_ & pe & Hpe & _).
    exists pe. rewrite Hpe. by split; [apply Hsrc|].
  - intros r Hr Hid. apply (slot_event vv epoch D HD) in Hr as [x Hx]. rewrite Hid in Hx.
    pose proof (con_fresh _ _ _ _ Hcon). congruence.
Qed.

Lemma Process_spec D e ld fuel o :
  sound (<[e_id e := e]> D) -> dag vv epoch D -> connectable vv epoch D e -> node_inv D ld o ->
  agrees (o_user o) (<[e_id e := e]> D) -> (forall h p, D !! h = Some p -> getEvent h = Some p) ->
  callbacks_ok (<[e_id e := e]> D) app seal ->
  (forall h e', (<[e_id e := e]> D) !! h = Some e' -> e_frame e' < Z.of_nat fuel) ->
  exists o', Orderer_Process getEvent FC callback fuel o e = Ok o' /\
    ((exists ld', ld <= ld' /\ node_inv (<[e_id e := e]> D) ld' o') \/ sealed_state seal o').
Proof.
  intros HD' HD Hcon [Hv Hao] Hag Hsrc Hcb Hfuel. pose proof (lookup_insert_eq D (e_id e) e) as He.
  pose proof (sg_typed _ _ _ _ HD' _ _ He) as Het.
  destruct (new_event_frame D e (o_user o) HD' HD Hcon Hag) as [Hfr Hb].
  destruct (new_event_source D e HD Hcon Hsrc) as [Hhs Hnew].
  destruct (checkAndSave_accepts vv Hwf epoch ld (slots D) getEvent FC o (vo_store _ _ _ _ Hv) e _ Hhs Hb Het Hnew Hfr)
    as (s' & Hcs & Hs' & Hview).
  unfold Orderer_Process. rewrite Hcs. cbn [outcome_bind]. unfold handleElection.
  pose proof (voting_growth D e ld o s' HD' HD Hcon Hv Hag Hs') as Hv'.
  destruct (handle_frames_spec (<[e_id e := e]> D) HD' app seal Hcb fuel e _ (spf D e) ld (with_store o s') (elements (slots D)) eq_refl Hv')
    as (o' & -> & Hres).
  - unfold app_ok in *. cbn. by rewrite Hview.
  - pose proof (et_frame _ _ Het). specialize (Hfuel _ _ He). lia.
  - intros r (e' & He' & _ & Hf)%(elem_of_slots vv epoch); [|apply HD']. specialize (Hfuel _ _ He'). lia.
  - intros f Hf. rewrite (slots_insert vv epoch D e HD Hcon). apply elem_of_union_l, elem_of_root_slots. by exists f.
  - intros x Hx _. rewrite (slots_insert vv epoch D e HD Hcon) in Hx.
    apply elem_of_union in Hx as [Hx|Hx]; [right; by apply elem_of_root_slots|left; by apply elem_of_elements].
  - exists o'. split; [done|]. destruct Hres as [(ld' & Hle & Hv2 & Hao2)|]; [left|by right]. by exists ld'.
Qed.

(** ** Restart *)

(** [Bootstrap] rebuilds the election from the store alone. *)
Lemma Bootstrap_spec D ld fuel o o1 :
  sound D -> o_election o = None -> SortedIDs vv <> [] ->
  stored (st_EpochState (o_store o)) (st_cacheEpoch (o_store o)) (mk_EpochState epoch vv) ->
  (forall s1, GetEpochState (o_store o) = Ok (mk_EpochState epoch vv, s1) ->
     let o0 := with_store o (openEpochDB s1 epoch) in
     match EpochDBLoaded callback with Some loaded => loaded o0 epoch | None => Ok o0 end = Ok o1) ->
  store_inv vv epoch ld (slots D) (o_store o1) -> agrees (o_user o1) D -> app_ok app ld o1 ->
  callbacks_ok D app seal -> 0 <= ld < 2 ^ 31 -> (0 < fuel)%nat ->
  (forall r, r ∈ slots D -> r_Frame r < ld + Z.of_nat fuel) ->
  exists o', Orderer_Bootstrap FC callback fuel o = Ok o' /\ (settled D app ld o' \/ sealed_state seal o').
Proof.
  intros HD Hnone Hne [He Hce] Hloaded Hs Hag Hao Hcb Hld Hfuel Htop.
  unfold Orderer_Bootstrap. rewrite Hnone.
  assert (exists s1, GetEpochState (o_store o) = Ok (mk_EpochState epoch vv, s1)) as [s1 Hg].
  { unfold GetEpochState. destruct Hce as [->| ->]; [rewrite He|]; by eexists. }
  rewrite Hg. cbn [outcome_bind es_Epoch es_Validators]. specialize (Hloaded s1 Hg). cbn in Hloaded. rewrite Hloaded.
  cbn [outcome_bind]. destruct (GetLastDecidedState_spec vv epoch ld (slots D) _ Hs) as (s2 & -> & Hs2 & Hd2).
  cbn [outcome_bind]. rewrite u32_small by solve_width. set (o2 := with_election _ _).
  assert (voting D ld [] o2) as Hv.
  { split; [done|done|done|]. exists (Election_Reset vv (ld + 1)). split; [done|].
    split; [apply election_reset_inv|]. split; [|by apply election_reset_open].
    intros _ x Hx. by apply not_elem_of_nil in Hx. }
  destruct (bootstrapElection_spec D HD app seal Hcb fuel ld o2 [] Hv) as (sealed & o3 & -> & H3); try done.
  - unfold app_ok in *. cbn. by rewrite (same_db_view _ _ Hd2).
  - cbn [outcome_bind]. exists o3. split; [done|]. destruct sealed; [by right|by left].
Qed.

End orderer.
