(* ===== verification/Agreement.v ===== *)
(** * Agreement of nodes

    A node is an orderer whose application records the blocks it is given.
    [node_run] are the states such a node reaches from an empty epoch: started,
    fed with connected events, its index growing with them.  Whatever the order
    and the moment, two nodes whose events fit in one sound graph record blocks
    one list of which is a prefix of the other, and no node is ever stuck. *)

From S2P Require Import Prelude Bytes Pos Dag VecFC VecEngine Wlru Kvdb ForklessCause Election ElectionSafety ElectionCorrect AbftStore Frames Abft AbftFrames Consensus.
Local Open Scope go_scope.

Section log.
Context {I C : Type} `{!LossyCache C Z (list RootAndSlot)} `{!LossyCacheLaws C Z (list RootAndSlot)}.
Local Abbreviation Node := (Orderer (I * list Res) C).

(** The recording application. *)
Definition log_callbacks : OrdererCallbacks (I * list Res) C :=
  mk_OrdererCallbacks
    (Some (fun o frame atropos => Ok (with_user o ((o_user o).1, (o_user o).2 ++ [mk_Res frame atropos]), None)))
    None.

Definition node_log (o : Node) : list Res := (o_user o).2.

Context (vv : Validators) (epoch : Z) (Hwf : wf vv) (Hne : SortedIDs vv <> []) (obs : Z -> Z -> bool).
Context (FC : I -> Z -> Z -> bool).
Local Abbreviation FCu := (fun u : I * list Res => FC u.1).

(** A store whose epoch database has no root yet. *)
Definition empty_epoch (s : Store C) : Prop := roots_inv ∅ (openEpochDB s epoch).

Inductive node_run : gmap Z BaseEvent -> Node -> Prop :=
| run_start s i fuel o :
    empty_epoch s -> (0 < fuel)%nat ->
    Orderer_Bootstrap FCu log_callbacks fuel (mk_Orderer (applyGenesis_ s epoch vv) None (i, [])) = Ok o ->
    node_run ∅ o
| run_process D o e i getEvent fuel o' :
    node_run D o -> connectable vv epoch D e -> agrees obs FC i (<[e_id e := e]> D) ->
    (forall h p, D !! h = Some p -> getEvent h = Some p) ->
    (forall h e', (<[e_id e := e]> D) !! h = Some e' -> e_frame e' < Z.of_nat fuel) ->
    Orderer_Process getEvent FCu log_callbacks fuel (with_user o (i, node_log o)) e = Ok o' ->
    node_run (<[e_id e := e]> D) o'.

Local Abbreviation sound := (sound_graph vv epoch obs).

(** The log holds what the graph elects for the frames [1 .. ld]. *)
Definition log_app (D : gmap Z BaseEvent) (ld : Z) (u : I * list Res) (_ : gmap Z Z * gmap Z EpochDB) : Prop :=
  Z.of_nat (length u.2) = ld /\ forall i a, u.2 !! i = Some a -> elected vv obs D (Z.of_nat i + 1) a.

(** No block of this application returns validators. *)
Definition log_seal (_ : Z) (_ : Validators) (_ : I * list Res) (_ : gmap Z Z * gmap Z EpochDB) : Prop := False.

Lemma log_callbacks_ok D : callbacks_ok vv epoch obs FCu log_callbacks D (log_app D) log_seal.
Proof.
  split; [|done|done]. intros apply ld o a [= <-] Hld Hs Hag Hel [Hlen Hlog].
  do 2 eexists. split; [reflexivity|]. split; [done|]. split; [done|]. unfold block_ok, app_ok, log_app. simpl.
  rewrite length_app. simpl. split; [lia|]. intros i b [Hb|[Hge Hb]]%lookup_app_Some; [auto|].
  apply list_lookup_singleton_Some in Hb as [Hi <-]. destruct a as [f h].
  replace (Z.of_nat i + 1) with (ld + 1) by lia. done.
Qed.

Lemma log_app_growth D D' ld u m : sound D -> sound D' -> D ⊆ D' -> log_app D ld u m -> log_app D' ld u m.
Proof.
  intros HD HD' Hsub [Hlen Hlog]. split; [done|]. intros i a Ha.
  apply (elected_growth vv epoch Hwf obs D D' HD HD' Hsub); [lia|auto].
Qed.

Lemma elected_prefix D (l1 l2 : list Res) :
  sound D -> (length l1 <= length l2)%nat ->
  (forall i a, l1 !! i = Some a -> elected vv obs D (Z.of_nat i + 1) a) ->
  (forall i a, l2 !! i = Some a -> elected vv obs D (Z.of_nat i + 1) a) -> l1 `prefix_of` l2.
Proof.
  intros HD Hlen H1 H2. apply prefix_by_lookup; [done|]. intros i Hi.
  destruct (lookup_lt_is_Some_2 l1 i Hi) as [a Ha], (lookup_lt_is_Some_2 l2 i ltac:(lia)) as [b Hb].
  rewrite Ha, Hb. f_equal. apply (elected_unique vv epoch Hwf obs D (Z.of_nat i + 1)); auto. lia.
Qed.

(** A node with this application never leaves the epoch. *)
Lemma log_never_seals o : ~ sealed_state epoch log_callbacks log_seal o.
Proof. by intros (ld & nv & o1 & o2 & o3 & _ & [] & _). Qed.

Definition run_inv (D : gmap Z BaseEvent) (o : Node) : Prop :=
  dag vv epoch D /\ exists ld, node_inv vv epoch obs FCu (log_app D) D ld o.

Lemma genesis_run_inv s i fuel :
  empty_epoch s -> (0 < fuel)%nat -> sound ∅ ->
  exists o, Orderer_Bootstrap FCu log_callbacks fuel (mk_Orderer (applyGenesis_ s epoch vv) None (i, [])) = Ok o /\ run_inv ∅ o.
Proof.
  intros Hs Hfuel H0. set (s1 := applyGenesis_ s epoch vv).
  assert (store_inv vv epoch 0 (slots ∅) (openEpochDB s1 epoch)) as Hinv.
  { rewrite slots_empty. split; [|by split; [|right]|by split; [|right]|by intros r ?%elem_of_empty..|done].
    eapply roots_inv_caches; [..|exact Hs]; done. }
  destruct (Bootstrap_spec vv epoch Hwf obs FCu log_callbacks (log_app ∅) log_seal ∅ 0 fuel
    (mk_Orderer s1 None (i, [])) (mk_Orderer (openEpochDB s1 epoch) None (i, []))) as (o & Ho & Hset); try done.
  - by split; [|right].
  - by intros s2 [= <-].
  - intros a b [ea Ha]. by rewrite lookup_empty in Ha.
  - apply log_callbacks_ok.
  - exists o. split; [done|]. split; [constructor|]. destruct Hset as [(ld & _ & Hv)|Hsl]; [by exists ld|by apply log_never_seals in Hsl].
Qed.

Lemma process_run_inv D o e i getEvent fuel :
  run_inv D o -> sound (<[e_id e := e]> D) -> connectable vv epoch D e -> agrees obs FC i (<[e_id e := e]> D) ->
  (forall h p, D !! h = Some p -> getEvent h = Some p) ->
  (forall h e', (<[e_id e := e]> D) !! h = Some e' -> e_frame e' < Z.of_nat fuel) ->
  exists o', Orderer_Process getEvent FCu log_callbacks fuel (with_user o (i, node_log o)) e = Ok o' /\
    run_inv (<[e_id e := e]> D) o' /\ node_log o `prefix_of` node_log o'.
Proof.
  intros (HD & ld & [Hld Hs _ Hel] & Hao) HD' Hcon Hag Hsrc Hfuel.
  assert (D ⊆ <[e_id e := e]> D) as Hsub by (apply insert_subseteq, Hcon).
  assert (sound D) as HsD by (by eapply sound_sub).
  destruct (Process_spec vv epoch Hwf obs FCu log_callbacks getEvent (log_app (<[e_id e := e]> D)) log_seal D e ld fuel
    (with_user o (i, node_log o))) as (o' & Ho & Hres); try done.
  - split; [split|]; [done|done| |done|].
    + intros a b Ha Hb. apply Hag; apply lookup_insert_is_Some'; by right.
    + unfold app_ok. cbn. destruct o as [st el [i0 l]]. by eapply log_app_growth.
  - apply log_callbacks_ok.
  - exists o'. split; [done|]. destruct Hres as [(ld' & Hle & Hn)|Hsl]; [|by apply log_never_seals in Hsl].
    split; [split; [by constructor|by exists ld']|].
    destruct Hn as [_ [Hlen' Hlog']], (log_app_growth D _ ld _ (epoch_view (o_store o)) HsD HD' Hsub Hao) as [Hlen Hlog].
    apply (elected_prefix (<[e_id e := e]> D)); try done. unfold node_log. lia.
Qed.

Lemma node_run_inv D o : node_run D o -> sound D -> run_inv D o.
Proof.
  induction 1 as [s i fuel o Hs Hfuel Hb|D o e i getEvent fuel o' Hrun IH Hcon Hag Hsrc Hfuel Hp]; intros HD.
  - destruct (genesis_run_inv s i fuel Hs Hfuel HD) as (o' & Ho & Hinv). congruence.
  - assert (D ⊆ <[e_id e := e]> D) as Hsub by (apply insert_subseteq, Hcon).
    assert (dag vv epoch D) as Hdag by (clear -Hrun; induction Hrun; by constructor).
    destruct (process_run_inv D o e i getEvent fuel) as (o2 & Ho2 & Hinv & _); try done; [|congruence].
    apply IH. by eapply sound_sub.
Qed.

End log.

(** ** Properties *)

(** C3: two nodes of one epoch never decide different blocks: if the events they
    have processed, in any order that respects parents, belong to one graph in
    which frames are right and the validators that fork hold at most a third of
    the weight, then the blocks one has decided are a prefix of the other's. *)
Theorem nodes_agree {I C : Type} `{!LossyCache C Z (list RootAndSlot)} `{!LossyCacheLaws C Z (list RootAndSlot)}
    (vv : Validators) (epoch : Z) (obs : Z -> Z -> bool) (FC : I -> Z -> Z -> bool) (D D1 D2 : gmap Z BaseEvent)
    (o1 o2 : Orderer (I * list Res) C) :
  wf vv -> SortedIDs vv <> [] -> sound_graph vv epoch obs D -> D1 ⊆ D -> D2 ⊆ D ->
  node_run vv epoch obs FC D1 o1 -> node_run vv epoch obs FC D2 o2 ->
  node_log o1 `prefix_of` node_log o2 \/ node_log o2 `prefix_of` node_log o1.
Proof.
  intros Hwf Hne HD Hs1 Hs2 Hr1 Hr2.
  assert (forall Di o, Di ⊆ D -> node_run vv epoch obs FC Di o ->
    forall i a, node_log o !! i = Some a -> elected vv obs D (Z.of_nat i + 1) a) as Hlog.
  { intros Di o Hsub Hr i a Ha. assert (dag vv epoch Di) as Hdag by (clear -Hr; induction Hr; by constructor).
    assert (sound_graph vv epoch obs Di) as Hsi by (by eapply sound_sub).
    destruct (node_run_inv vv epoch Hwf Hne obs FC Di o Hr Hsi) as (_ & ld & _ & _ & Hl).
    apply (elected_growth vv epoch Hwf obs Di D Hsi HD Hsub); [lia|by apply Hl]. }
  destruct (Nat.le_ge_cases (length (node_log o1)) (length (node_log o2))); [left|right];
    apply (elected_prefix vv epoch Hwf obs D); eauto.
Qed.

(** A running node is never stuck: [Process] of any connected event whose
    frame the graph allows succeeds, election included, with any fuel above the
    highest frame, and leads to a running node that keeps its decided blocks. *)
Theorem node_never_stuck {I C : Type} `{!LossyCache C Z (list RootAndSlot)} `{!LossyCacheLaws C Z (list RootAndSlot)}
    (vv : Validators) (epoch : Z) (obs : Z -> Z -> bool) (FC : I -> Z -> Z -> bool) (D : gmap Z BaseEvent)
    (o : Orderer (I * list Res) C) (e : BaseEvent) (i : I) (getEvent : Z -> option BaseEvent) (fuel : nat) :
  wf vv -> SortedIDs vv <> [] -> node_run vv epoch obs FC D o ->
  sound_graph vv epoch obs (<[e_id e := e]> D) -> connectable vv epoch D e -> agrees obs FC i (<[e_id e := e]> D) ->
  (forall h p, D !! h = Some p -> getEvent h = Some p) ->
  (forall h e', (<[e_id e := e]> D) !! h = Some e' -> e_frame e' < Z.of_nat fuel) ->
  exists o', Orderer_Process getEvent (fun u => FC u.1) log_callbacks fuel (with_user o (i, node_log o)) e = Ok o' /\
    node_run vv epoch obs FC (<[e_id e := e]> D) o' /\ node_log o `prefix_of` node_log o'.
Proof.
  intros Hwf Hne Hr HD' Hcon Hag Hsrc Hfuel.
  assert (D ⊆ <[e_id e := e]> D) as Hsub by (apply insert_subseteq, Hcon).
  assert (dag vv epoch D) as Hdag by (clear -Hr; induction Hr; by constructor).
  assert (sound_graph vv epoch obs D) as HsD by (by eapply sound_sub).
  pose proof (node_run_inv vv epoch Hwf Hne obs FC D o Hr HsD) as Hinv.
  destruct (process_run_inv vv epoch Hwf obs FC D o e i getEvent fuel Hinv HD' Hcon Hag Hsrc Hfuel) as (o' & Ho & _ & Hp).
  exists o'. split; [done|]. split; [by eapply run_process|done].
Qed.

(** ** Witnesses: one validator with a chain of three events

    Event [n] is in frame [n]; the third decides the first frame. *)

Definition chain_event (n : Z) : BaseEvent :=
  mk_BaseEvent 1 n n 1 (if n =? 1 then [] else [100 + n - 1]) n (100 + n).

Definition chain1 : gmap Z BaseEvent := <[101 := chain_event 1]> ∅.
Definition chain2 : gmap Z BaseEvent := <[102 := chain_event 2]> chain1.
Definition chain3 : gmap Z BaseEvent := <[103 := chain_event 3]> chain2.
Definition chain_obs (a b : Z) : bool := b <=? a.

Lemma chain_lookup h e : chain3 !! h = Some e -> exists n, (n = 1 \/ n = 2 \/ n = 3) /\ h = 100 + n /\ e = chain_event n.
Proof.
  unfold chain3, chain2, chain1. rewrite !lookup_insert_Some, lookup_empty.
  intros [[<- <-]|[_ [[<- <-]|[_ [[<- <-]|[_ ?]]]]]]; [exists 3|exists 2|exists 1|done]; auto.
Qed.

Lemma chain_sub12 : chain1 ⊆ chain2.
Proof. by apply insert_subseteq. Qed.
Lemma chain_sub23 : chain2 ⊆ chain3.
Proof. by apply insert_subseteq. Qed.

Lemma chain_con1 : connectable solo 1 ∅ (chain_event 1).
Proof. split; [done|]. by exists []. Qed.
Lemma chain_con2 : connectable solo 1 chain1 (chain_event 2).
Proof. split; [done|]. exists [chain_event 1]. split; vm_compute; reflexivity. Qed.
Lemma chain_con3 : connectable solo 1 chain2 (chain_event 3).
Proof. split; [done|]. exists [chain_event 2]. split; vm_compute; reflexivity. Qed.

Lemma chain1_dag : dag solo 1 chain1.
Proof. apply (dag_connect solo 1 ∅ (chain_event 1)); [constructor|apply chain_con1]. Qed.
Lemma chain2_dag : dag solo 1 chain2.
Proof. apply (dag_connect solo 1 chain1 (chain_event 2)); [apply chain1_dag|apply chain_con2]. Qed.
Lemma chain3_dag : dag solo 1 chain3.
Proof. apply (dag_connect solo 1 chain2 (chain_event 3)); [apply chain2_dag|apply chain_con3]. Qed.

Lemma chain_no_cheater c : ~ is_cheater chain3 c.
Proof.
  intros (x1 & x2 & e1 & e2 & H1 & H2 & Hne & _ & _ & Hs).
  apply chain_lookup in H1 as (n1 & _ & -> & ->), H2 as (n2 & _ & -> & ->). simpl in Hs. lia.
Qed.

Lemma chain_anc a b : is_Some (chain3 !! a) -> is_Some (chain3 !! b) -> anc chain3 a b <-> b <= a.
Proof.
  intros [ea Ha] [eb Hb]. split.
  - intros Hab. destruct (anc_lamport _ _ _ _ _ _ _ chain3_dag Hab Ha Hb) as [->|Hl]; [lia|].
    apply chain_lookup in Ha as (n & _ & -> & ->), Hb as (m & _ & -> & ->). simpl in Hl. lia.
  - intros Hle. assert (anc chain3 103 102) as H32 by (apply rtc_once; exists (chain_event 3); split; [done|left]).
    assert (anc chain3 102 101) as H21 by (apply rtc_once; exists (chain_event 2); split; [done|left]).
    apply chain_lookup in Ha as (n & [->|[->| ->]] & -> & _), Hb as (m & [->|[->| ->]] & -> & _);
      simpl in *; try lia; try constructor; try done. by etrans.
Qed.

Lemma chain_fc : decides_fc solo chain3 chain_obs.
Proof.
  intros a b Ha Hb. unfold chain_obs. rewrite Z.leb_le, <- (chain_anc a b Ha Hb).
  assert (forall x c, ~ sees_fork chain3 x c) as Hn by (intros x c Hs; by apply sees_fork_cheater, chain_no_cheater in Hs).
  split; [|by apply (fc_anc solo solo_wf)]. intros Hab. destruct Hb as [eb Hb]. exists eb.
  split; [done|]. split; [apply Hn|]. exists (fun _ => true). split; [by vm_compute|].
  intros c Hc _. split; [apply Hn|]. exists b, eb. split; [done|]. split; [|by split; [|constructor]].
  change (SortedIDs solo) with [1] in Hc. apply list_elem_of_singleton in Hc as ->.
  by apply chain_lookup in Hb as (n & _ & _ & ->).
Qed.

Lemma chain_sound : sound_graph solo 1 chain_obs chain3.
Proof.
  split; [apply chain3_dag|apply chain_fc| | |].
  - intros h e He. apply chain_lookup in He as (n & [->|[->| ->]] & -> & ->).
    + left. by vm_compute.
    + right. split; [by vm_compute|]. simpl. intros f Hf. assert (f = 1) as ->; [|by vm_compute].
      change (spf chain3 (chain_event 2)) with 1 in Hf. lia.
    + right. split; [by vm_compute|]. simpl. intros f Hf. assert (f = 2) as ->; [|by vm_compute].
      change (spf chain3 (chain_event 3)) with 2 in Hf. lia.
  - unfold few_cheaters. rewrite (weight_of_ext solo _ (fun _ => false)); [by vm_compute|].
    intros c _. by apply bool_decide_eq_false, chain_no_cheater.
  - intros h e He. apply chain_lookup in He as (n & [->|[->| ->]] & -> & ->);
      (split; [done|split; [done|vm_compute; left]|done]).
Qed.

Definition chain_source (h : Z) : option BaseEvent := chain3 !! h.
Definition chain_FC (_ : unit) : Z -> Z -> bool := chain_obs.
Local Abbreviation ChainNode := (Orderer (unit * list Res) (Cache Z (list RootAndSlot))).

Definition chain_start : ChainNode :=
  default (mk_Orderer new_Store None (tt, []))
    (match Orderer_Bootstrap (fun u => chain_FC u.1) log_callbacks 5 (mk_Orderer (applyGenesis_ new_Store 1 solo) None (tt, [])) with
     | Ok o => Some o
     | _ => None
     end).
Definition chain_process (o : ChainNode) (e : BaseEvent) : ChainNode :=
  match Orderer_Process chain_source (fun u => chain_FC u.1) log_callbacks 5 (with_user o (tt, node_log o)) e with
  | Ok o' => o'
  | _ => o
  end.
Definition chain_node (n : nat) : ChainNode := foldl chain_process chain_start (chain_event <$> (Z.of_nat <$> seq 1 n)).

Example chain_decides : node_log (chain_node 3) = [mk_Res 1 101] /\ node_log (chain_node 2) = [].
Proof. split; vm_compute; reflexivity. Qed.

Lemma chain_agrees D : agrees chain_obs chain_FC tt D.
Proof. by intros a b _ _. Qed.

Lemma chain_run_process D n :
  node_run solo 1 chain_obs chain_FC D (chain_node n) -> connectable solo 1 D (chain_event (Z.of_nat (S n))) ->
  <[e_id (chain_event (Z.of_nat (S n))) := chain_event (Z.of_nat (S n))]> D ⊆ chain3 ->
  Orderer_Process chain_source (fun u => chain_FC u.1) log_callbacks 5
    (with_user (chain_node n) (tt, node_log (chain_node n))) (chain_event (Z.of_nat (S n))) = Ok (chain_node (S n)) ->
  node_run solo 1 chain_obs chain_FC (<[e_id (chain_event (Z.of_nat (S n))) := chain_event (Z.of_nat (S n))]> D) (chain_node (S n)).
Proof.
  intros Hr Hcon Hsub Hp. eapply (run_process _ _ _ _ D (chain_node n) _ tt chain_source 5); try done.
  - intros h p Hh. eapply lookup_weaken; [|done]. eapply lookup_weaken; [exact Hh|]. apply insert_subseteq, Hcon.
  - intros h e He. eapply lookup_weaken in He; [|exact Hsub].
    apply chain_lookup in He as (m & Hm & _ & ->). simpl. lia.
Qed.

Lemma chain_run0 : node_run solo 1 chain_obs chain_FC ∅ (chain_node 0).
Proof.
  apply (run_start solo 1 chain_obs chain_FC new_Store tt 5); [|lia|vm_compute; reflexivity].
  eapply (roots_inv_caches ∅ new_Store); [done|done|apply new_Store_inv].
Qed.

Lemma chain_run1 : node_run solo 1 chain_obs chain_FC chain1 (chain_node 1).
Proof.
  apply (chain_run_process ∅ 0 chain_run0 chain_con1); [|vm_compute; reflexivity].
  etrans; [apply chain_sub12|apply chain_sub23].
Qed.

Lemma chain_run2 : node_run solo 1 chain_obs chain_FC chain2 (chain_node 2).
Proof. apply (chain_run_process chain1 1 chain_run1 chain_con2); [apply chain_sub23|vm_compute; reflexivity]. Qed.

Lemma chain_run3 : node_run solo 1 chain_obs chain_FC chain3 (chain_node 3).
Proof. apply (chain_run_process chain2 2 chain_run2 chain_con3); [done|vm_compute; reflexivity]. Qed.

Lemma nodes_agree_witness :
  node_log (chain_node 2) `prefix_of` node_log (chain_node 3) \/ node_log (chain_node 3) `prefix_of` node_log (chain_node 2).
Proof.
  apply (nodes_agree solo 1 chain_obs chain_FC chain3 chain2 chain3 _ _ solo_wf ltac:(done) chain_sound chain_sub23
    ltac:(done) chain_run2 chain_run3).
Defined.

Lemma node_never_stuck_witness :
  exists o', Orderer_Process chain_source (fun u => chain_FC u.1) log_callbacks 5
      (with_user (chain_node 2) (tt, node_log (chain_node 2))) (chain_event 3) = Ok o' /\
    node_run solo 1 chain_obs chain_FC chain3 o' /\ node_log (chain_node 2) `prefix_of` node_log o'.
Proof.
  apply (node_never_stuck solo 1 chain_obs chain_FC chain2 (chain_node 2) (chain_event 3) tt chain_source 5 solo_wf
    ltac:(done) chain_run2 chain_sound chain_con3 (chain_agrees _)).
  - intros h p Hh. by eapply lookup_weaken, chain_sub23.
  - intros h e He. apply chain_lookup in He as (m & Hm & _ & ->). simpl. lia.
Defined.
