(* ===== verification/Blocks.v ===== *)
(** * abft/lachesis.go: blocks

    [confirmEvents] walks from the Atropos over the events not yet confirmed.
    It ends, gives every newly observed event to the application exactly once,
    marks it with the frame, and what is confirmed stays closed under parents.
    The marks and the application's state are a function of the decided
    Atroposes, so equal on all nodes. *)

From S2P Require Import Prelude Bytes Pos Dag VecFC VecEngine Wlru Kvdb ForklessCause Election ElectionSafety ElectionCorrect AbftStore Frames Abft AbftFrames Consensus Agreement.
Local Open Scope go_scope.

Lemma foldl_Push l : forall s, foldl Stack_Push s l = s ++ l.
Proof. induction l as [|x l IH]; intros s; simpl; [by rewrite app_nil_r|]. rewrite IH. unfold Stack_Push. by rewrite <- app_assoc. Qed.

(** Two traversals whose filters agree end alike, in related states. *)
Lemma abft_dfs_rel {S1 S2} (R : S1 -> S2 -> Prop) getEvent f1 f2 fuel :
  (forall s1 s2 e, R s1 s2 -> (f1 s1 e).1 = (f2 s2 e).1 /\ R (f1 s1 e).2 (f2 s2 e).2) ->
  forall s1 s2 stack, R s1 s2 ->
    match abft_dfs getEvent fuel f1 s1 stack, abft_dfs getEvent fuel f2 s2 stack with
    | Ok a, Ok b => R a b
    | Err x, Err y => x = y
    | Panic x, Panic y => x = y
    | _, _ => False
    end.
Proof.
  intros Hf. induction fuel as [|fuel IH]; intros s1 s2 stack HR; cbn [abft_dfs]; [done|].
  destruct (Stack_Pop stack) as [[w stack']|]; [|done]. destruct (getEvent w) as [e|]; [|done].
  destruct (Hf s1 s2 e HR) as [Hd HR']. destruct (f1 s1 e) as [d1 s1'], (f2 s2 e) as [d2 s2']. simpl in *. subst d2.
  by apply IH.
Qed.

(** ** The traversal on the marks alone *)

Definition mark (m : gmap Z Z) (x : Z) : Z := default 0 (m !! x).

Section marks.
Context {App : Type} (applyEvent : App -> BaseEvent -> App).

Definition mark_filter (frame : Z) (st : gmap Z Z * App) (e : BaseEvent) : bool * (gmap Z Z * App) :=
  if negb (mark st.1 (e_id e) =? 0) then (false, st)
  else (true, (<[e_id e := frame]> st.1, applyEvent st.2 e)).

(** Enough fuel for the traversal of [D]. *)
Definition confirm_fuel (D : gmap Z BaseEvent) : nat :=
  S (S (sum_list ((fun kv => length (e_parents kv.2)) <$> map_to_list D))).

Definition closed_marks (D : gmap Z BaseEvent) (m : gmap Z Z) : Prop :=
  forall x p, mark m x <> 0 -> parent D x p -> mark m p <> 0.

Section walk.
Context (vv : Validators) (epoch : Z) (D : gmap Z BaseEvent) (HD : dag vv epoch D).
Context (getEvent : Z -> option BaseEvent) (Hsrc : forall h e, D !! h = Some e -> getEvent h = Some e).
Context (frame atropos : Z) (Hframe : frame <> 0) (Hatropos : is_Some (D !! atropos)).
Context (m0 : gmap Z Z) (a0 : App) (Hclosed : closed_marks D m0).

Record confirm_inv (l : list BaseEvent) (st : gmap Z Z * App) (stack : list Z) : Prop := {
  cf_app : st.2 = foldl applyEvent a0 l;
  cf_NoDup : NoDup (e_id <$> l);
  cf_events : forall e, e ∈ l -> D !! e_id e = Some e /\ anc D atropos (e_id e) /\ mark m0 (e_id e) = 0;
  cf_marks : forall x, mark st.1 x = if bool_decide (x ∈ e_id <$> l) then frame else mark m0 x;
  cf_stack : forall x, x ∈ stack -> anc D atropos x;
  cf_parents : forall x p, mark st.1 x <> 0 -> parent D x p -> mark st.1 p <> 0 \/ p ∈ stack;
  cf_head : mark st.1 atropos <> 0 \/ atropos ∈ stack
}.

Definition unmarked (m : gmap Z Z) : nat :=
  sum_list ((fun kv => if mark m kv.1 =? 0 then length (e_parents kv.2) else 0%nat) <$> map_to_list D).

Lemma mark_insert m x v y : mark (<[x := v]> m) y = if decide (x = y) then v else mark m y.
Proof. unfold mark. rewrite lookup_insert. by destruct (decide (x = y)). Qed.

Lemma unmarked_visit m x e :
  D !! x = Some e -> mark m x = 0 -> (unmarked (<[x := frame]> m) + length (e_parents e) = unmarked m)%nat.
Proof.
  intros Hx Hm. pose proof (sum_list_one
    (fun kv => if mark (<[x := frame]> m) kv.1 =? 0 then length (e_parents kv.2) else 0%nat)
    (fun kv => if mark m kv.1 =? 0 then length (e_parents kv.2) else 0%nat)
    (map_to_list D) x e (NoDup_fst_map_to_list _) (proj2 (elem_of_map_to_list _ _ _) Hx)) as Hsum.
  simpl in Hsum. rewrite Hm, mark_insert, decide_True in Hsum by done.
  destruct (frame =? 0) eqn:E; bool_to_prop; [done|]. simpl in Hsum. rewrite Nat.add_0_r in Hsum.
  apply Hsum. intros k e' Hne. by rewrite mark_insert, decide_False.
Qed.

Lemma confirm_visit l st stack x e :
  confirm_inv l st (stack ++ [x]) -> D !! x = Some e -> mark st.1 x = 0 ->
  confirm_inv (l ++ [e]) (<[e_id e := frame]> st.1, applyEvent st.2 e) (stack ++ e_parents e).
Proof.
  intros [H1 H2 H3 H4 H5 H6 H7] Hx Hm. assert (e_id e = x) as Hid by (by apply (dag_id vv epoch D)).
  assert (x ∉ e_id <$> l) as Hnew.
  { intros Hin. rewrite H4, bool_decide_eq_true_2 in Hm by done. done. }
  assert (mark m0 x = 0) as Hm0 by (by rewrite H4, bool_decide_eq_false_2 in Hm).
  assert (forall p, p ∈ stack ++ [x] -> mark (<[e_id e := frame]> st.1) p <> 0 \/ p ∈ stack ++ e_parents e) as Hpop.
  { intros p [Hp| ->%list_elem_of_singleton]%elem_of_app; [right; set_solver|left].
    by rewrite mark_insert, decide_True. }
  assert (forall p, mark st.1 p <> 0 -> mark (<[e_id e := frame]> st.1) p <> 0) as Hmono.
  { intros p Hp. rewrite mark_insert. by destruct (decide _). }
  split; simpl.
  - by rewrite foldl_app, H1.
  - rewrite fmap_app. apply NoDup_app. split; [done|]. split; [|apply NoDup_singleton].
    intros y Hy Hyx. csimpl in Hyx. apply list_elem_of_singleton in Hyx. congruence.
  - intros e' [He'| ->%list_elem_of_singleton]%elem_of_app; [by apply H3|]. rewrite Hid.
    split; [done|]. split; [|done]. apply H5. set_solver.
  - intros y. rewrite mark_insert, fmap_app, Hid. csimpl. rewrite Hid. destruct (decide (x = y)) as [->|Hne].
    + rewrite bool_decide_eq_true_2; [done|set_solver].
    + rewrite H4. assert (y ∈ (e_id <$> l) ++ [x] <-> y ∈ e_id <$> l) as Hiff by set_solver.
      by rewrite (bool_decide_ext _ _ Hiff).
  - intros y [Hy|Hy]%elem_of_app; [apply H5; set_solver|]. eapply rtc_r; [apply (H5 x); set_solver|]. by exists e.
  - intros y p Hy Hp. rewrite mark_insert, Hid in Hy. destruct (decide (x = y)) as [<-|Hne].
    + destruct Hp as (e' & He' & Hp). simplify_eq. right. set_solver.
    + destruct (H6 y p Hy Hp) as [|Hs]; [left; by apply Hmono|by apply Hpop].
  - destruct H7 as [|Hs]; [left; by apply Hmono|by apply Hpop].
Qed.

Lemma confirm_skip l st stack x : confirm_inv l st (stack ++ [x]) -> mark st.1 x <> 0 -> confirm_inv l st stack.
Proof.
  intros [H1 H2 H3 H4 H5 H6 H7] Hx. split; try done.
  - intros y Hy. apply H5. set_solver.
  - intros y p Hy Hp. destruct (H6 y p Hy Hp) as [?|[?| ->%list_elem_of_singleton]%elem_of_app]; auto.
  - destruct H7 as [?|[?| ->%list_elem_of_singleton]%elem_of_app]; auto.
Qed.

Lemma confirm_dfs fuel : forall l st stack,
  confirm_inv l st stack -> (length stack + unmarked st.1 < fuel)%nat ->
  exists l' st', abft_dfs getEvent fuel (mark_filter frame) st stack = Ok st' /\ confirm_inv l' st' [].
Proof.
  induction fuel as [|fuel IH]; intros l st stack Hinv Hf; [lia|].
  destruct stack as [|x stack _] using rev_ind; [by exists l, st|].
  cbn [abft_dfs]. rewrite Stack_Pop_snoc. rewrite length_app in Hf. simpl in Hf.
  assert (anc D atropos x) as Hx by (apply (cf_stack _ _ _ Hinv); set_solver).
  destruct (anc_dom vv epoch D atropos x HD Hatropos Hx) as [e He]. rewrite (Hsrc _ _ He).
  assert (e_id e = x) as Hid by (by apply (dag_id vv epoch D)).
  unfold mark_filter at 1. rewrite Hid. destruct (mark st.1 x =? 0) eqn:E; bool_to_prop; cbn [negb].
  - rewrite foldl_Push. eapply (IH (l ++ [e])).
    + rewrite <- Hid. by apply (confirm_visit l st stack x e).
    + simpl. rewrite length_app. pose proof (unmarked_visit st.1 x e He E). lia.
  - eapply (IH l); [|simpl; lia]. by eapply confirm_skip.
Qed.

Lemma unmarked_le m : (unmarked m <= sum_list ((fun kv : Z * BaseEvent => length (e_parents kv.2)) <$> map_to_list D))%nat.
Proof.
  unfold unmarked. induction (map_to_list D) as [|[k x] l IHl]; csimpl; [lia|]. destruct (_ =? _); simpl; lia.
Qed.

(** The whole traversal. *)
Lemma confirm_spec :
  exists l m a, abft_dfsSubgraph getEvent (confirm_fuel D) atropos (mark_filter frame) (m0, a0) = Ok (m, a) /\
    a = foldl applyEvent a0 l /\ NoDup (e_id <$> l) /\
    (forall e, e ∈ l <-> D !! e_id e = Some e /\ anc D atropos (e_id e) /\ mark m0 (e_id e) = 0) /\
    (forall x, mark m x = if bool_decide (x ∈ e_id <$> l) then frame else mark m0 x) /\
    (forall x, mark m x <> 0 <-> mark m0 x <> 0 \/ anc D atropos x) /\
    closed_marks D m.
Proof.
  unfold abft_dfsSubgraph. destruct (confirm_dfs (confirm_fuel D) [] (m0, a0) [atropos]) as (l & [m a] & -> & Hinv).
  - split; simpl; try done.
    + constructor.
    + by intros e ?%not_elem_of_nil.
    + intros x ->%list_elem_of_singleton. constructor.
    + intros x p Hx Hp. left. by apply (Hclosed x).
    + right. left.
  - simpl. unfold confirm_fuel. pose proof (unmarked_le m0). lia.
  - destruct Hinv as [H1 H2 H3 H4 _ H6 H7]. simpl in *.
    assert (closed_marks D m) as Hcl.
    { intros x p Hx Hp. destruct (H6 x p Hx Hp) as [|Hn]; [done|by apply not_elem_of_nil in Hn]. }
    assert (forall x, anc D atropos x -> mark m x <> 0) as Hall.
    { intros x Hx. assert (mark m atropos <> 0) as Ha by (destruct H7 as [|Hn]; [done|by apply not_elem_of_nil in Hn]).
      clear -Hx Ha Hcl. induction Hx as [|y z x Hyz _ IH]; [done|]. apply IH. by eapply Hcl. }
    exists l, m, a. split; [done|]. split; [done|]. split; [done|]. split; [|split; [done|split; [|done]]].
    + intros e. split; [apply H3|]. intros (He & Hax & Hm0). pose proof (Hall _ Hax) as Hm. rewrite H4 in Hm.
      case_bool_decide as Hin; [|done]. apply list_elem_of_fmap in Hin as (e' & Hid & Hin).
      destruct (H3 e' Hin) as (He' & _). rewrite <- Hid in He'. by assert (e = e') as -> by congruence.
    + intros x. split.
      * rewrite H4. case_bool_decide as Hin; [|by left]. intros _. right.
        apply list_elem_of_fmap in Hin as (e & -> & Hin). by apply H3.
      * intros [Hx|Hx]; [|by apply Hall]. rewrite H4. by case_bool_decide.
Qed.

End walk.
End marks.

(** ** The same traversal on the store *)

Section store.
Context {I App C : Type} `{!LossyCache C Z (list RootAndSlot)}.
Implicit Types (s : Store C) (o : Orderer (I * App) C) (callback : ConsensusCallbacks App).

Definition marks s : gmap Z Z := t_ConfirmedEvent (epochTable s).

(** [s'] differs from [s] in the marks of the open database only. *)
Record same_but_marks s s' : Prop := {
  sm_ld : st_LastDecidedState s' = st_LastDecidedState s;
  sm_es : st_EpochState s' = st_EpochState s;
  sm_cld : st_cacheLastDecided s' = st_cacheLastDecided s;
  sm_ces : st_cacheEpoch s' = st_cacheEpoch s;
  sm_cache : st_FrameRoots s' = st_FrameRoots s;
  sm_open : st_open s' = st_open s;
  sm_roots : t_Roots (epochTable s') = t_Roots (epochTable s);
  sm_other : forall n, n <> st_open s -> st_dbs s' !! n = st_dbs s !! n
}.

Lemma SetEventConfirmedOn_marks s x f :
  marks (SetEventConfirmedOn s x f) = <[x := f]> (marks s) /\ same_but_marks s (SetEventConfirmedOn s x f).
Proof.
  unfold marks, SetEventConfirmedOn. rewrite epochTable_set. split; [done|].
  split; rewrite ?epochTable_set; try done. intros n Hn. simpl. by rewrite lookup_insert_ne.
Qed.

Lemma same_but_marks_trans s1 s2 s3 : same_but_marks s1 s2 -> same_but_marks s2 s3 -> same_but_marks s1 s3.
Proof. intros [] []. split; try congruence. intros n Hn. rewrite sm_other1 by congruence. by apply sm_other0. Qed.

Definition apply_event callback : App -> BaseEvent -> App :=
  fun app e => match ApplyEvent callback with Some f => f app e | None => app end.

Lemma confirmEvents_marks getEvent callback fuel o frame atropos m a :
  abft_dfsSubgraph getEvent fuel atropos (mark_filter (apply_event callback) frame) (marks (o_store o), (o_user o).2) = Ok (m, a) ->
  exists s', confirmEvents getEvent callback fuel o frame atropos = Ok (with_user (with_store o s') ((o_user o).1, a)) /\
    marks s' = m /\ same_but_marks (o_store o) s'.
Proof.
  intros Hdfs. unfold confirmEvents, abft_dfsSubgraph in *.
  pose proof (abft_dfs_rel (fun (sa : Store C * App) (ma : gmap Z Z * App) =>
      marks sa.1 = ma.1 /\ sa.2 = ma.2 /\ same_but_marks (o_store o) sa.1) getEvent
    (confirm_filter callback frame) (mark_filter (apply_event callback) frame) fuel) as Hrel.
  specialize (Hrel ltac:(
    intros [s b] [m' b'] e (Hm1 & Hb1 & Hsm); simpl in Hm1, Hb1, Hsm; subst m' b'; unfold confirm_filter, mark_filter, mark, GetEventConfirmedOn; simpl;
    fold (marks s); destruct (negb _); simpl; [done|]; split; [done|];
    destruct (SetEventConfirmedOn_marks s (e_id e) frame) as [-> Hsm']; split; [done|]; split; [done|];
    by eapply same_but_marks_trans)).
  specialize (Hrel (o_store o, (o_user o).2) (marks (o_store o), (o_user o).2) [atropos]). rewrite Hdfs in Hrel.
  destruct (abft_dfs getEvent fuel (confirm_filter callback frame) _ _) as [[s' b]| |]; [|by destruct Hrel..].
  destruct Hrel as (Hm & Ha & Hsm); [done|]. simpl in *. subst. cbn [outcome_bind]. by exists s'.
Qed.

End store.

(** ** Properties *)

(** C12: confirming a block always ends and hands to the application every event
    that the Atropos observes and no earlier block confirmed, each exactly
    once; those events are marked with the frame, no other mark and nothing
    else in the store changes, and the confirmed events stay closed under
    parents. *)
Theorem confirmEvents_correct {I App C : Type} `{!LossyCache C Z (list RootAndSlot)}
    (vv : Validators) (epoch : Z) (D : gmap Z BaseEvent) (getEvent : Z -> option BaseEvent)
    (callback : ConsensusCallbacks App) (o : Orderer (I * App) C) (frame atropos : Z) :
  dag vv epoch D -> (forall h e, D !! h = Some e -> getEvent h = Some e) -> frame <> 0 -> is_Some (D !! atropos) ->
  closed_marks D (marks (o_store o)) ->
  exists l s', confirmEvents getEvent callback (confirm_fuel D) o frame atropos =
      Ok (with_user (with_store o s') ((o_user o).1, foldl (apply_event callback) (o_user o).2 l)) /\
    NoDup (e_id <$> l) /\
    (forall e, e ∈ l <-> D !! e_id e = Some e /\ anc D atropos (e_id e) /\ GetEventConfirmedOn (o_store o) (e_id e) = 0) /\
    (forall x, GetEventConfirmedOn s' x = if bool_decide (x ∈ e_id <$> l) then frame else GetEventConfirmedOn (o_store o) x) /\
    same_but_marks (o_store o) s' /\ closed_marks D (marks s').
Proof.
  intros HD Hsrc Hfr Hat Hcl.
  destruct (confirm_spec (apply_event callback) vv epoch D HD getEvent Hsrc frame atropos Hfr Hat
    (marks (o_store o)) (o_user o).2 Hcl) as (l & m & a & Hdfs & Ha & Hnd & Hl & Hm & _ & Hcl').
  destruct (confirmEvents_marks getEvent callback _ o frame atropos m a Hdfs) as (s' & Hc & Hms & Hsm).
  exists l, s'. rewrite Hc, Ha. split; [done|]. split; [done|]. split; [done|]. split; [|split; [done|by rewrite Hms]].
  intros x. unfold GetEventConfirmedOn. fold (marks s') (marks (o_store o)). rewrite Hms. apply Hm.
Qed.

(** ** Witness: the chain of three events, confirmed from the second *)

Definition chain_record : ConsensusCallbacks (list Z) :=
  mk_ConsensusCallbacks _ (Some (fun l _ => l)) (Some (fun l e => l ++ [e_id e])) None.
Definition chain_orderer : Orderer (unit * list Z) (Cache Z (list RootAndSlot)) := mk_Orderer new_Store None (tt, []).

Lemma confirmEvents_correct_witness :
  exists l s', confirmEvents chain_source chain_record (confirm_fuel chain3) chain_orderer 2 102 =
      Ok (with_user (with_store chain_orderer s') (tt, foldl (apply_event chain_record) [] l)) /\
    NoDup (e_id <$> l) /\
    (forall e, e ∈ l <-> chain3 !! e_id e = Some e /\ anc chain3 102 (e_id e) /\
      GetEventConfirmedOn (o_store chain_orderer) (e_id e) = 0) /\
    (forall x, GetEventConfirmedOn s' x =
      if bool_decide (x ∈ e_id <$> l) then 2 else GetEventConfirmedOn (o_store chain_orderer) x) /\
    same_but_marks (o_store chain_orderer) s' /\ closed_marks chain3 (marks s').
Proof.
  apply (confirmEvents_correct solo 1 chain3 chain_source chain_record chain_orderer 2 102 chain3_dag); try done.
  intros x p Hx. exfalso. apply Hx. change (marks (o_store chain_orderer)) with (∅ : gmap Z Z). unfold mark. by rewrite lookup_empty.
Defined.
