(* ===== verification/Node.v ===== *)
(** * abft/indexed_lachesis.go: a whole node

    [IndexedLachesis] is the orderer, the blocks and the vector index together.
    [indexed_run] are the states it reaches within an epoch.  In each of them
    the index agrees with the event graph, so [Process] accepts every event
    whose frame the graph allows, and the application's state is the replay of
    the decided blocks: equal on all nodes that decided as many. *)

From S2P Require Import Prelude Bytes Pos Dag VecFC VecEngine VecCorrect Wlru Kvdb ForklessCause Election ElectionSafety ElectionCorrect AbftStore Frames Abft AbftFrames Consensus Agreement Blocks.
From S2P Require Import VecBranches.
Local Open Scope go_scope.

(** More fuel and more events do not change a traversal that ended. *)
Lemma abft_dfs_more {S} (filter : S -> BaseEvent -> bool * S) g1 g2 :
  (forall h e, g1 h = Some e -> g2 h = Some e) ->
  forall f1 f2 s stack r, (f1 <= f2)%nat -> abft_dfs g1 f1 filter s stack = Ok r -> abft_dfs g2 f2 filter s stack = Ok r.
Proof.
  intros Hg f1. induction f1 as [|f1 IH]; intros f2 s stack r Hle Hr; [done|].
  destruct f2 as [|f2]; [lia|]. cbn [abft_dfs] in *. destruct (Stack_Pop stack) as [[w stack']|]; [|done].
  destruct (g1 w) as [e|] eqn:He; [|done]. rewrite (Hg _ _ He). destruct (filter s e) as [deeper s'].
  apply (IH f2); [lia|done].
Qed.

(** ** The state of the application as a function of the blocks *)

Section replay.
Context (vv : Validators) (epoch : Z) {App : Type} (callback : ConsensusCallbacks App).
Context (begin : App -> Block -> App) (a0 : App).
Implicit Types (D : gmap Z BaseEvent).

(** The validators flagged by [f], in the order of the group. *)
Definition flagged_ids (f : nat -> bool) : list Z :=
  omap (fun ic => if f ic.1 : bool then Some ic.2 else None) (imap pair (SortedIDs vv)).

Definition flags_forks D (x : Z) (f : nat -> bool) : Prop :=
  forall k c, SortedIDs vv !! k = Some c -> f k = true <-> sees_fork D x c.

Definition block_end (a : App) : App * option Validators := match EndBlock callback with Some f => f a | None => (a, None) end.

(** The application may return new validators for a block. *)
Definition seals : Prop := exists f a nv, EndBlock callback = Some f /\ (f a).2 = Some nv.

Lemma block_end_seals a a' nv : block_end a = (a', Some nv) -> seals.
Proof. unfold block_end. destruct (EndBlock callback) as [f|] eqn:Hf; [|done]. intros Ha. exists f, a, nv. by rewrite Hf, Ha. Qed.

(** One block: the marks [m] and the application [a] become [m'] and [a'], and the
    application returns [nv]. *)
Definition block_replay D (r : Res) (m : gmap Z Z) (a : App) (m' : gmap Z Z) (a' : App) (nv : option Validators) : Prop :=
  exists f fuel b, flags_forks D (res_Atropos r) f /\
    abft_dfsSubgraph (fun h => D !! h) fuel (res_Atropos r) (mark_filter (apply_event callback) (res_Frame r))
      (m, begin a (mk_Block (res_Atropos r) (flagged_ids f))) = Ok (m', b) /\ block_end b = (a', nv).

(** The marks and the application after the blocks [l], none of which returns
    validators. *)
Inductive replayed D : list Res -> gmap Z Z -> App -> Prop :=
| replayed_nil : replayed D [] ∅ a0
| replayed_block l r m a m' a' : replayed D l m a -> block_replay D r m a m' a' None -> replayed D (l ++ [r]) m' a'.

Lemma flagged_ids_ext f1 f2 :
  (forall k c, SortedIDs vv !! k = Some c -> f1 k = f2 k) -> flagged_ids f1 = flagged_ids f2.
Proof. intros Hf. apply omap_ext_in. intros [k c] Hkc%elem_of_imap_pair. simpl. by rewrite (Hf k c). Qed.

Lemma flags_forks_unique D x f1 f2 : flags_forks D x f1 -> flags_forks D x f2 -> flagged_ids f1 = flagged_ids f2.
Proof.
  intros H1 H2. apply flagged_ids_ext. intros k c Hk. apply eq_iff_eq_true. by rewrite (H1 k c Hk), (H2 k c Hk).
Qed.

Lemma elem_of_flagged_ids D x f c : flags_forks D x f -> c ∈ flagged_ids f <-> c ∈ SortedIDs vv /\ sees_fork D x c.
Proof.
  intros Hf. unfold flagged_ids. rewrite list_elem_of_omap. split.
  - intros ([k c'] & Hk%elem_of_imap_pair & Hc). simpl in Hc. destruct (f k) eqn:E; [|done]. injection Hc as <-.
    split; [by eapply list_elem_of_lookup_2|]. by apply (Hf k).
  - intros [[k Hk]%list_elem_of_lookup Hs]. exists (k, c). split; [by apply elem_of_imap_pair|]. simpl.
    by rewrite (proj2 (Hf k c Hk)).
Qed.

Lemma dfs_head {S} getEvent fuel x (filter : S -> BaseEvent -> bool * S) s r :
  abft_dfsSubgraph getEvent fuel x filter s = Ok r -> is_Some (getEvent x).
Proof. unfold abft_dfsSubgraph. destruct fuel as [|fuel]; [done|]. cbn. destruct (getEvent x); [by eexists|done]. Qed.

Lemma block_replay_growth D D' r m a m' a' nv :
  dag vv epoch D -> D ⊆ D' -> block_replay D r m a m' a' nv -> block_replay D' r m a m' a' nv.
Proof.
  intros HD Hsub (f & fuel & b & Hf & Hdfs & Hb). exists f, fuel, b. split; [|split; [|done]].
  - intros k c Hk. rewrite (Hf k c Hk). symmetry. apply (sees_fork_sub vv epoch D D' HD Hsub). by apply dfs_head in Hdfs.
  - unfold abft_dfsSubgraph in *. refine (abft_dfs_more _ _ _ _ fuel fuel _ _ _ (le_n _) Hdfs).
    intros h e He. exact (lookup_weaken _ _ _ _ He Hsub).
Qed.

Lemma block_replay_unique D r m a m1 a1 nv1 m2 a2 nv2 :
  block_replay D r m a m1 a1 nv1 -> block_replay D r m a m2 a2 nv2 -> m1 = m2 /\ a1 = a2 /\ nv1 = nv2.
Proof.
  intros (f & fuel & b & Hf & Hdfs & Hb) (f' & fuel' & b' & Hf' & Hdfs' & Hb').
  rewrite (flags_forks_unique D (res_Atropos r) f f' Hf Hf') in Hdfs. unfold abft_dfsSubgraph in *.
  apply (abft_dfs_more _ _ _ (fun h e He => He) fuel (fuel + fuel')) in Hdfs; [|lia].
  apply (abft_dfs_more _ _ _ (fun h e He => He) fuel' (fuel + fuel')) in Hdfs'; [|lia].
  rewrite Hdfs in Hdfs'. injection Hdfs' as -> ->. rewrite Hb in Hb'. by injection Hb' as -> ->.
Qed.

Lemma replayed_growth D D' l m a : dag vv epoch D -> D ⊆ D' -> replayed D l m a -> replayed D' l m a.
Proof.
  intros HD Hsub. induction 1 as [|l r m a m' a' _ IH Hb]; [constructor|].
  eapply replayed_block; [done|by eapply block_replay_growth].
Qed.

Lemma replayed_inv D l m a : replayed D l m a ->
  l = [] /\ m = ∅ /\ a = a0 \/ exists l' r m' a', l = l' ++ [r] /\ replayed D l' m' a' /\ block_replay D r m' a' m a None.
Proof. destruct 1 as [|l r m0 a1 m a H1 H2]; [by left|right]. by exists l, r, m0, a1. Qed.

Lemma replayed_snoc D l r m a : replayed D (l ++ [r]) m a ->
  exists m' a', replayed D l m' a' /\ block_replay D r m' a' m a None.
Proof.
  intros [(? & _)|(l' & r' & m' & a' & Hl & H1 & H2)]%replayed_inv; [by destruct l|].
  apply app_inj_2 in Hl as [-> [= ->]]; [|done]. by exists m', a'.
Qed.

Lemma replayed_unique D l m1 a1 : replayed D l m1 a1 -> forall m2 a2, replayed D l m2 a2 -> m1 = m2 /\ a1 = a2.
Proof.
  induction 1 as [|l r m a m' a' _ IH Hb]; intros m2 a2 H2.
  - apply replayed_inv in H2 as [(_ & -> & ->)|(l' & r' & ? & ? & Hl & _)]; [done|by destruct l'].
  - apply replayed_snoc in H2 as (m3 & a3 & H3 & Hb'). destruct (IH _ _ H3) as [-> ->].
    destruct (block_replay_unique _ _ _ _ _ _ _ _ _ _ Hb Hb') as (-> & -> & _). done.
Qed.

(** What is confirmed after the blocks: the events their Atroposes observe. *)
Lemma replayed_marks D l m a :
  dag vv epoch D -> (forall r, r ∈ l -> res_Frame r <> 0) -> replayed D l m a ->
  closed_marks D m /\ forall x, mark m x <> 0 <-> exists r, r ∈ l /\ anc D (res_Atropos r) x.
Proof.
  intros HD Hfr. induction 1 as [|l r m a m' a' Hrep IH (f & fuel & b & Hf & Hdfs & _)].
  - assert (forall x, mark ∅ x = 0) as H0 by (intros x; unfold mark; by rewrite lookup_empty).
    split; [intros x p Hx; by rewrite H0 in Hx|]. intros x. rewrite H0. split.
    + intros H. by destruct H.
    + by intros (r & ?%elem_of_nil & _).
  - destruct IH as [Hcl Hm]; [intros; apply Hfr; set_solver|].
    destruct (dfs_head _ _ _ _ _ _ Hdfs) as [e He].
    assert (res_Frame r <> 0) as Hr by (apply Hfr; set_solver).
    destruct (confirm_spec (apply_event callback) vv epoch D HD (fun h => D !! h) (fun h e He => He) (res_Frame r) (res_Atropos r)
      Hr (mk_is_Some _ _ He) m (begin a (mk_Block (res_Atropos r) (flagged_ids f))) Hcl)
      as (ls & m2 & a2 & Hdfs2 & _ & _ & _ & _ & Hm2 & Hcl2).
    unfold abft_dfsSubgraph in *.
    apply (abft_dfs_more _ _ _ (fun h e He => He) fuel (fuel + confirm_fuel D)) in Hdfs; [|lia].
    apply (abft_dfs_more _ _ _ (fun h e He => He) (confirm_fuel D) (fuel + confirm_fuel D)) in Hdfs2; [|lia].
    rewrite Hdfs in Hdfs2. injection Hdfs2 as -> ->. split; [done|]. intros x. rewrite Hm2, Hm. split.
    + intros [(r0 & ? & ?)|?]; [exists r0|exists r]; set_solver.
    + intros (r0 & [?| ->%list_elem_of_singleton]%elem_of_app & ?); [left; by exists r0|by right].
Qed.

End replay.

(** ** The orderer over the vector index *)

Lemma next_epoch_other epoch : u32 (epoch + 1) <> epoch.
Proof. unfold u32. intros He. Z.to_euclidean_division_equations. lia. Qed.

Section node.
Context (vv : Validators) (epoch : Z) (Hwf : wf vv) (Hne : SortedIDs vv <> []) (obs : Z -> Z -> bool).
Context {App C bytes : Type} `{!LossyCache C Z (list RootAndSlot)} `{!LossyCacheLaws C Z (list RootAndSlot)}.
Context `{!BranchesInfoRlp bytes} `{!BranchesInfoRlpLaws bytes}.
Context (callback : ConsensusCallbacks App) (begin : App -> Block -> App) (Hbegin : BeginBlock callback = Some begin) (a0 : App).
Local Abbreviation Index := (vecfc_Engine (bytes := bytes)).
Local Abbreviation IL := (Orderer (Index * App) C).
Local Abbreviation sound := (sound_graph vv epoch obs).
Implicit Types (D : gmap Z BaseEvent) (o : IL).

Definition blocks_of D (ld : Z) (a : App) (m : gmap Z Z) : Prop :=
  exists l, Z.of_nat (length l) = ld /\ replayed vv callback begin a0 D l m a /\
    forall i b, l !! i = Some b -> elected vv obs D (Z.of_nat i + 1) b.

(** The block after [ld] others ends the epoch: the application, now in the state
    [a], returned the validators [nv]. *)
Definition sealed_blocks D (ld : Z) (nv : Validators) (a : App) : Prop :=
  exists r m a1 m', blocks_of D ld a1 m /\ elected vv obs D (ld + 1) r /\ block_replay vv callback begin D r m a1 m' a (Some nv).

(** [others] are the databases of other epochs. *)
Definition node_app D (others : gmap Z EpochDB) (ld : Z) (u : Index * App) (v : gmap Z Z * gmap Z EpochDB) : Prop :=
  v.2 = others /\ (exists Df, engine_reach vv epoch Df D u.1) /\ blocks_of D ld u.2 v.1.

Definition node_seal D (others : gmap Z EpochDB) (ld : Z) (nv : Validators) (u : Index * App) (v : gmap Z Z * gmap Z EpochDB) : Prop :=
  v.2 = others /\ sealed_blocks D ld nv u.2.

Lemma reach_agrees D Df (u : Index * App) : sound D -> engine_reach vv epoch Df D u.1 -> agrees obs index_ForklessCause u D.
Proof.
  intros HD Hr a b Ha Hb. destruct (ForklessCause_decides vv epoch Df D u.1 a b Hwf Hr Ha Hb) as (vi' & r & Hf & Hiff).
  unfold index_ForklessCause. rewrite Hf. apply eq_iff_eq_true. rewrite Hiff. symmetry. by apply (sg_obs _ _ _ _ HD).
Qed.

Lemma elected_frames D (l : list Res) : sound D ->
  (forall i b, l !! i = Some b -> elected vv obs D (Z.of_nat i + 1) b) -> forall r, r ∈ l -> res_Frame r <> 0.
Proof.
  intros HD Hl r [i Hi]%list_elem_of_lookup. destruct (elected_root vv epoch Hwf obs D (Z.of_nat i + 1) r HD) as [Hf _];
    [lia|by apply Hl|lia].
Qed.

Lemma store_inv_marks ld R s s' : same_but_marks s s' -> store_inv vv epoch ld R s -> store_inv vv epoch ld R s'.
Proof.
  intros [E1 E2 E3 E4 E5 E6 E7 E8] [Hr [He1 He2] [Hl1 Hl2] Hv Hf Ho].
  split; [by eapply roots_inv_caches; [..|exact Hr]|by split; rewrite ?E2, ?E4|by split; rewrite ?E1, ?E3|done|done|congruence].
Qed.

Lemma same_but_marks_others (s s' : Store C) : same_but_marks s s' -> (epoch_view s').2 = (epoch_view s).2.
Proof.
  intros Hs. simpl. rewrite (sm_open _ _ Hs). apply map_eq. intros n. rewrite !lookup_delete.
  destruct (decide _); [done|]. apply (sm_other _ _ Hs). congruence.
Qed.

(** One block: [applyAtropos] of the elected Atropos. *)
Lemma applyAtropos_spec D others getEvent fuel ld o a :
  sound D -> (forall h e, D !! h = Some e -> getEvent h = Some e) -> (confirm_fuel D <= fuel)%nat ->
  store_inv vv epoch ld (slots D) (o_store o) -> 0 <= ld -> elected vv obs D (ld + 1) a ->
  node_app D others ld (o_user o) (epoch_view (o_store o)) ->
  exists o' nv, applyAtropos getEvent callback index_mergedForks fuel o (res_Frame a) (res_Atropos a) = Ok (o', nv) /\
    store_inv vv epoch ld (slots D) (o_store o') /\ (o_user o').1 = (o_user o).1 /\
    block_ok (node_app D others) (node_seal D others) ld nv o'.
Proof.
  intros HD Hsrc Hfuel Hs Hld Hel (Hoth & [Df Hr] & l & Hlen & Hrep & Hl). pose proof (sg_dag _ _ _ _ HD) as Hdag.
  destruct (elected_root vv epoch Hwf obs D (ld + 1) a HD ltac:(lia) Hel) as (Hfr & x & Hx & _ & Hxa).
  assert (is_Some (D !! res_Atropos a)) as Ha by (rewrite <- Hxa; by apply (slot_event vv epoch D Hdag)).
  destruct (GetMergedHighestBefore_spec vv epoch Df D (o_user o).1 _ Hwf Hr Ha) as (vi' & mv & Hmv & Hforks).
  unfold applyAtropos, index_mergedForks. rewrite Hmv. cbn [outcome_bind].
  destruct (GetEpochState_spec vv epoch ld (slots D) _ Hs) as (s1 & -> & Hs1 & Hd1). cbn [outcome_bind]. rewrite Hbegin.
  cbn [es_Validators]. fold (flagged_ids vv (HB_IsForkDetected mv)).
  assert (flags_forks vv D (res_Atropos a) (HB_IsForkDetected mv)) as Hfl by (intros k c Hk; by apply Hforks).
  destruct (replayed_marks vv epoch callback begin a0 D l _ _ Hdag (elected_frames D l HD Hl) Hrep) as [Hcl _].
  set (o1 := with_user _ _).
  destruct (confirm_spec (apply_event callback) vv epoch D Hdag (fun h => D !! h) (fun h e He => He) (res_Frame a) (res_Atropos a)
    ltac:(lia) Ha (marks (o_store o)) (o_user o1).2 Hcl) as (ls & m & ap & Hdfs & _).
  pose proof (same_db_view _ _ Hd1) as Hview.
  assert (marks (o_store o1) = marks (o_store o)) as Hm1 by (by injection Hview).
  destruct (confirmEvents_marks getEvent callback fuel o1 (res_Frame a) (res_Atropos a) m ap) as (s2 & -> & Hm2 & Hsm2).
  { rewrite Hm1. unfold abft_dfsSubgraph in *. refine (abft_dfs_more _ _ _ Hsrc (confirm_fuel D) fuel _ _ _ Hfuel Hdfs). }
  cbn [outcome_bind]. assert (store_inv vv epoch ld (slots D) s2) as Hs2 by (by eapply store_inv_marks).
  assert ((epoch_view s2).2 = others) as Ho2.
  { rewrite (same_but_marks_others _ _ Hsm2). change (o_store o1) with s1. by rewrite Hview. }
  assert (forall nv a', block_end callback ap = (a', nv) -> block_ok (node_app D others) (node_seal D others) ld nv
    (mk_Orderer s2 (o_election o) ((o_user o).1, a'))) as Hend.
  { intros nv a' Hb. assert (block_replay vv callback begin D a (marks (o_store o)) (o_user o).2 m a' nv) as Hbr
      by (by exists (HB_IsForkDetected mv), (confirm_fuel D), ap).
    destruct nv as [nv|].
    - split; [done|]. exists a, (marks (o_store o)), (o_user o).2, m. split; [by exists l|done].
    - split; [done|]. split; [by exists Df|]. exists (l ++ [a]). split; [rewrite length_app; simpl; lia|]. split.
      + unfold marks in Hm2. cbn. rewrite Hm2. by eapply replayed_block.
      + intros i b [Hi|[Hge Hi]]%lookup_app_Some; [auto|]. apply list_lookup_singleton_Some in Hi as [Hi <-].
        by replace (Z.of_nat i + 1) with (ld + 1) by lia. }
  unfold block_end in Hend. destruct (EndBlock callback) as [f|]; [destruct (f _) as [ap' nv] eqn:Hf|];
    do 2 eexists; (split; [reflexivity|]); (split; [done|]); (split; [done|]); by apply Hend.
Qed.

Lemma indexed_loaded fuel getEvent vectorIndex cb (o : IL) n es :
  stored (st_EpochState (o_store o)) (st_cacheEpoch (o_store o)) es ->
  exists loaded s', EpochDBLoaded (indexed_callbacks (C := C) (bytes := bytes) cb fuel getEvent vectorIndex) = Some loaded /\
    loaded o n = Ok (with_user (with_store o s') (Engine_Reset (es_Validators es) (vectorIndex n), (o_user o).2)) /\
    same_db (o_store o) s' /\ st_FrameRoots s' = st_FrameRoots (o_store o) /\ st_cacheLastDecided s' = st_cacheLastDecided (o_store o) /\
    stored (st_EpochState s') (st_cacheEpoch s') es.
Proof.
  intros [He Hce]. eexists.
  assert (exists s', GetEpochState (o_store o) = Ok (es, s') /\ same_db (o_store o) s' /\ st_FrameRoots s' = st_FrameRoots (o_store o) /\
    st_cacheLastDecided s' = st_cacheLastDecided (o_store o) /\ stored (st_EpochState s') (st_cacheEpoch s') es) as (s' & Hg & Hs').
  { unfold GetEpochState. destruct Hce as [Hc|Hc]; rewrite Hc; [rewrite He|]; eexists; (split; [reflexivity|]);
      (split; [by unfold same_db; rewrite ?He|]); (split; [done|]); (split; [done|]); cbn; split; rewrite ?He, ?Hc; auto. }
  exists s'. split; [reflexivity|]. unfold vecfc_Engine in *. by rewrite Hg.
Qed.

Lemma indexed_callbacks_ok D others getEvent fuel vectorIndex :
  sound D -> (forall h e, D !! h = Some e -> getEvent h = Some e) -> (confirm_fuel D <= fuel)%nat ->
  callbacks_ok vv epoch obs index_ForklessCause (indexed_callbacks (C := C) callback fuel getEvent vectorIndex) D
    (node_app D others) (node_seal D others).
Proof.
  intros HD Hsrc Hfuel. split; [|done|].
  - intros apply ld o a [= <-] Hld Hs Hag Hel Hao.
    destruct (applyAtropos_spec D others getEvent fuel ld o a HD Hsrc Hfuel Hs ltac:(lia) Hel Hao) as (o' & nv & Ho & Hs' & Hu & Hok).
    exists o', nv. split; [done|]. split; [done|]. split; [|done].
    intros x y Hx Hy. unfold index_ForklessCause. rewrite Hu. by apply (Hag x y).
  - intros loaded o n es Hl Hst. destruct (indexed_loaded fuel getEvent vectorIndex callback o n es Hst) as (ld2 & s' & Hl2 & Ho & ?).
    rewrite Hl in Hl2. injection Hl2 as ->. eexists. split; [exact Ho|]. cbn. tauto.
Qed.

(** While the frame after [ld] is not elected, a start decides nothing and leaves
    the application and the databases as they are. *)
Definition resumes D (ld : Z) (u0 : Index * App) (v0 : gmap Z Z * gmap Z EpochDB)
    (n : Z) (u : Index * App) (v : gmap Z Z * gmap Z EpochDB) : Prop :=
  n = ld /\ (forall r, ~ elected vv obs D (ld + 1) r) /\ u = u0 /\ v = v0.

Definition never_seals (_ : Z) (_ : Validators) (_ : Index * App) (_ : gmap Z Z * gmap Z EpochDB) : Prop := False.

Lemma resume_callbacks_ok D ld u0 v0 getEvent fuel vectorIndex :
  callbacks_ok vv epoch obs index_ForklessCause (indexed_callbacks (C := C) no_callbacks fuel getEvent vectorIndex) D
    (resumes D ld u0 v0) never_seals.
Proof.
  split; [|done|].
  - intros apply n o a [= <-] Hn Hs Hag Hel (-> & Hnone & _). by destruct (Hnone a).
  - intros loaded o n es Hl Hst. destruct (indexed_loaded fuel getEvent vectorIndex no_callbacks o n es Hst) as (ld2 & s' & Hl2 & Ho & ?).
    rewrite Hl in Hl2. injection Hl2 as ->. eexists. split; [exact Ho|]. cbn. tauto.
Qed.

(** ** The states of a node in the epoch *)

Inductive indexed_run : gmap Z BaseEvent -> IL -> Prop :=
| indexed_start s vi0 getEvent vectorIndex fuel efuel o :
    empty_epoch epoch s -> st_dbs s !! epoch = None -> vectorIndex epoch = empty_db -> (0 < efuel)%nat ->
    Indexed_Bootstrap fuel efuel getEvent vectorIndex (mk_Orderer (applyGenesis_ s epoch vv) None (vi0, a0)) = Ok o ->
    indexed_run ∅ o
| indexed_process D o e getEvent vectorIndex fuel efuel o' :
    indexed_run D o -> connectable vv epoch D e ->
    (forall h x, (<[e_id e := e]> D) !! h = Some x -> getEvent h = Some x) ->
    (dfs_fuel D e + confirm_fuel (<[e_id e := e]> D) <= fuel)%nat ->
    (forall h x, (<[e_id e := e]> D) !! h = Some x -> e_frame x < Z.of_nat efuel) ->
    (forall vi bi, InitBranchesInfo (o_user o).1 = Ok (vi, bi) -> uncapped bi) ->
    Indexed_Process callback fuel efuel getEvent vectorIndex o e = Ok (None, o') -> st_open (o_store o') = epoch ->
    indexed_run (<[e_id e := e]> D) o'.

Definition indexed_inv D o : Prop :=
  dag vv epoch D /\ engine_reach vv epoch D D (o_user o).1 /\
  exists ld, node_inv vv epoch obs index_ForklessCause (node_app D (epoch_view (o_store o)).2) D ld o.

(** Once its graph is settled, the index may be flushed and cut. *)
Lemma settled_index D others ld o vi :
  sound D -> node_inv vv epoch obs index_ForklessCause (node_app D others) D ld o -> engine_reach vv epoch D D vi ->
  indexed_inv D (with_index o vi) /\ (epoch_view (o_store o)).2 = others.
Proof.
  intros HD [[Hld Hs _ Hel] (Hoth & _ & Hb)] Hr. split; [|done]. split; [apply HD|]. split; [done|]. exists ld. split.
  - split; [done|done| |done]. by eapply reach_agrees.
  - split; [done|]. split; [by exists D|done].
Qed.

Lemma with_index_same o : with_index o (o_user o).1 = o.
Proof. by destruct o as [st el [vi a]]. Qed.

(** A start over a store that holds [D] and [ld] decided frames, with nothing left
    to decide. *)
Lemma Indexed_Bootstrap_spec D ld getEvent vectorIndex fuel efuel s vi0 a :
  sound D -> store_inv vv epoch ld (slots D) (openEpochDB s epoch) -> (forall r, ~ elected vv obs D (ld + 1) r) ->
  engine_reach vv epoch D D (Engine_Reset vv (vectorIndex epoch)) -> blocks_of D ld a (marks (openEpochDB s epoch)) ->
  0 <= ld < 2 ^ 31 -> (0 < efuel)%nat -> (forall r, r ∈ slots D -> r_Frame r < ld + Z.of_nat efuel) ->
  exists o, Indexed_Bootstrap fuel efuel getEvent vectorIndex (mk_Orderer s None (vi0, a)) = Ok o /\
    indexed_inv D o /\ (o_user o).2 = a /\ epoch_view (o_store o) = epoch_view (openEpochDB s epoch) /\
    st_LastDecidedState (o_store o) = Some ld.
Proof.
  intros HD Hs Hnone Hr Hb Hld Hef Htop. set (v := epoch_view (openEpochDB s epoch)). set (vi := Engine_Reset vv (vectorIndex epoch)).
  set (es := mk_EpochState epoch vv).
  destruct (si_epoch _ _ _ _ _ Hs) as [Hes Hces]. cbn in Hes, Hces.
  assert (exists s1, GetEpochState s = Ok (es, s1) /\ openEpochDB s1 epoch = mk_Store (st_LastDecidedState s) (Some es) (st_cacheLastDecided s) (Some es)
    (cache_purge (st_FrameRoots s)) (st_dbs s) epoch) as (s1 & Hg & Hs1).
  { unfold GetEpochState. destruct Hces as [Hc|Hc]; rewrite Hc; [rewrite Hes|]; eexists; (split; [reflexivity|]); unfold openEpochDB; by rewrite ?Hes, ?Hc. }
  set (s2 := mk_Store _ _ _ _ _ _ _) in Hs1.
  assert (store_inv vv epoch ld (slots D) s2) as Hs2.
  { destruct Hs as [H1 H2 H3 H4 H5 H6]. split; [by eapply roots_inv_caches; [..|exact H1]|by split; [|right]|done..]. }
  assert (epoch_view s2 = v) as Hv by done.
  assert (agrees obs index_ForklessCause (vi, a) D) as Hag by (by eapply reach_agrees).
  destruct (Bootstrap_spec vv epoch Hwf obs index_ForklessCause (indexed_callbacks no_callbacks fuel getEvent vectorIndex)
    (resumes D ld (vi, a) v) never_seals D ld efuel (mk_Orderer s None (vi0, a)) (mk_Orderer s2 None (vi, a))) as (o & Ho & Hset); try done.
  - intros s1' Hg'. cbn [o_store] in Hg'. rewrite Hg in Hg'. injection Hg' as <-. cbn. by rewrite Hs1.
  - apply resume_callbacks_ok.
  - exists o. split; [done|]. destruct Hset as [(ld' & _ & Hvo & -> & _ & Hu & Hvw)|(? & ? & ? & ? & ? & _ & [] & _)].
    split; [|split; [by rewrite Hu|split; [done|apply Hvo]]]. rewrite <- (with_index_same o), Hu.
    apply (settled_index D v.2 ld); [done| |done]. split; [done|]. unfold app_ok. rewrite Hu, Hvw. split; [done|].
    split; [by exists D|done].
Qed.

Lemma nothing_elected r : sound ∅ -> ~ elected vv obs ∅ (0 + 1) r.
Proof.
  intros H0 Hel. destruct (elected_root vv epoch Hwf obs ∅ (0 + 1) r H0 ltac:(lia) Hel) as (_ & x & Hx & _).
  rewrite slots_empty in Hx. by apply elem_of_empty in Hx.
Qed.

Lemma indexed_genesis s vi0 getEvent vectorIndex fuel efuel :
  empty_epoch epoch s -> st_dbs s !! epoch = None -> vectorIndex epoch = empty_db -> (0 < efuel)%nat -> sound ∅ ->
  exists o, Indexed_Bootstrap fuel efuel getEvent vectorIndex (mk_Orderer (applyGenesis_ s epoch vv) None (vi0, a0)) = Ok o /\
    indexed_inv ∅ o /\ (o_user o).2 = a0 /\ (epoch_view (o_store o)).2 = st_dbs s.
Proof.
  intros Hs Hdb Hvi Hef H0. set (s1 := applyGenesis_ s epoch vv).
  destruct (Indexed_Bootstrap_spec ∅ 0 getEvent vectorIndex fuel efuel s1 vi0 a0) as (o & Ho & Hinv & Ha & Hv & _); try done.
  - rewrite slots_empty. split; [|by split; [|right]|by split; [|right]|by intros r ?%elem_of_empty..|done].
    eapply roots_inv_caches; [..|exact Hs]; done.
  - intros r. by apply nothing_elected.
  - rewrite Hvi. constructor.
  - exists []. split; [done|]. split; [|done]. unfold marks, epochTable. cbn. rewrite Hdb. constructor.
  - exists o. split; [done|]. split; [done|]. split; [done|]. rewrite Hv. cbn. by apply delete_id.
Qed.

(** The epoch has ended: the first state of the next one. *)
Definition opened D (others : gmap Z EpochDB) (vectorIndex : Z -> VecDb HighestBeforeSeq LowestAfterSeq bytes) o : Prop :=
  exists ld nv, 0 <= ld /\ sealed_blocks D ld nv (o_user o).2 /\ epoch_start (u32 (epoch + 1)) nv others o /\
    (o_user o).1 = Engine_DropNotFlushed (Engine_Flush (Engine_Reset nv (vectorIndex (u32 (epoch + 1))))).

Lemma opened_seals D others vectorIndex o : opened D others vectorIndex o -> seals callback /\ st_open (o_store o) = u32 (epoch + 1).
Proof.
  intros (ld & nv & _ & (r & m & a1 & m' & _ & _ & (f & fuel & b & _ & _ & Hb)) & Hn & _).
  split; [by eapply block_end_seals|apply Hn].
Qed.

Lemma indexed_step D o e getEvent vectorIndex fuel efuel :
  indexed_inv D o -> sound (<[e_id e := e]> D) -> connectable vv epoch D e ->
  (forall h x, (<[e_id e := e]> D) !! h = Some x -> getEvent h = Some x) ->
  (dfs_fuel D e + confirm_fuel (<[e_id e := e]> D) <= fuel)%nat ->
  (forall h x, (<[e_id e := e]> D) !! h = Some x -> e_frame x < Z.of_nat efuel) ->
  (forall vi bi, InitBranchesInfo (o_user o).1 = Ok (vi, bi) -> uncapped bi) ->
  exists o', Indexed_Process callback fuel efuel getEvent vectorIndex o e = Ok (None, o') /\
    (indexed_inv (<[e_id e := e]> D) o' /\ (epoch_view (o_store o')).2 = (epoch_view (o_store o)).2 \/
     opened (<[e_id e := e]> D) (epoch_view (o_store o)).2 vectorIndex o').
Proof.
  intros (Hdag & Hr & ld & [Hld Hs Hag Hel] & _ & _ & l & Hlen & Hrep & Hl) HD' Hcon Hsrc Hfuel Hef Hcap.
  set (others := (epoch_view (o_store o)).2).
  assert (D ⊆ <[e_id e := e]> D) as Hsub by (apply insert_subseteq, Hcon).
  assert (sound D) as HsD by (by eapply sound_sub).
  assert (forall h x, D !! h = Some x -> getEvent h = Some x) as Hsrc' by (intros; apply Hsrc; by eapply lookup_weaken).
  destruct (Init_inv vv epoch D D (o_user o).1 (engine_reach_inv vv epoch D D _ Hwf Hr)) as (vi0 & bi & Hi & _).
  destruct (Engine_Add_reach vv epoch D D (o_user o).1 vi0 bi e getEvent fuel Hwf Hr Hcon Hsrc' ltac:(lia) Hi (Hcap _ _ Hi))
    as (vi' & Hadd & Hr').
  destruct (Process_spec vv epoch Hwf obs index_ForklessCause (indexed_callbacks callback fuel getEvent vectorIndex) getEvent
    (node_app (<[e_id e := e]> D) others) (node_seal (<[e_id e := e]> D) others) D e ld efuel (with_index o vi')) as (o2 & Ho2 & Hres); try done.
  - split; [split; [done|done| |done]|].
    + intros a b [ea Ha] [eb Hb]. apply (reach_agrees _ _ (vi', (o_user o).2) HD' Hr'); [exists ea|exists eb]; by eapply lookup_weaken.
    + split; [done|]. split; [by exists D|]. exists l. split; [done|]. split; [by eapply replayed_growth|].
      intros i b Hb. apply (elected_growth vv epoch Hwf obs D _ HsD HD' Hsub); [lia|by apply Hl].
  - by eapply reach_agrees.
  - apply indexed_callbacks_ok; [done|done|lia].
  - unfold Indexed_Process. rewrite Hadd, Ho2. eexists. split; [reflexivity|].
    change (drop_index _) with (with_index o2 (Engine_DropNotFlushed (Engine_Flush (o_user o2).1))).
    destruct Hres as [(ld' & _ & Hn)|(ld' & nv & o3 & o4 & o5 & Hld' & [Hoth Hsb] & [N1 N2 N3 N4 N5 N6 N7] & Hu4 & Hst4 & Hload & Hu)]; [left|right].
    + pose proof Hn as [_ (_ & [Df Hrf] & _)].
      apply (settled_index _ others ld' o2 (Engine_DropNotFlushed (Engine_Flush (o_user o2).1)) HD' Hn).
      eapply reach_drop, reach_flush, Hrf.
    + destruct (indexed_loaded fuel getEvent vectorIndex callback o4 (u32 (epoch + 1)) _ Hst4) as (loaded & s' & Hl2 & Ho5 & _).
      unfold epoch_loaded in Hload. rewrite Hl2, Ho5 in Hload. injection Hload as <-. cbn in Hu.
      exists ld', nv. rewrite Hu4 in Hu. cbn. rewrite Hu. split; [done|]. split; [done|]. split; [|done]. split; try done. cbn. by rewrite N4.
Qed.

Lemma indexed_run_inv D o : indexed_run D o -> sound D -> indexed_inv D o.
Proof.
  induction 1 as [s vi0 getEvent vectorIndex fuel efuel o Hs Hdb Hvi Hef Hb
    |D o e getEvent vectorIndex fuel efuel o' Hrun IH Hcon Hsrc Hfuel Hef Hcap Hp Hop]; intros HD.
  - destruct (indexed_genesis s vi0 getEvent vectorIndex fuel efuel) as (o2 & Ho2 & ? & _); try done. congruence.
  - assert (dag vv epoch D) as Hdag by (clear -Hrun; induction Hrun; by constructor).
    assert (sound D) as HsD by (by eapply sound_sub; [| |apply insert_subseteq, Hcon|exact HD]).
    destruct (indexed_step D o e getEvent vectorIndex fuel efuel) as (o2 & Ho2 & [[? _]|[_ Hn]%opened_seals]); try done; [by apply IH|congruence|].
    exfalso. apply (next_epoch_other epoch). congruence.
Qed.

(** The blocks of a node, in the whole graph. *)
Lemma blocks_growth D D' ld a m : sound D -> sound D' -> D ⊆ D' -> blocks_of D ld a m -> blocks_of D' ld a m.
Proof.
  intros HD HD' Hsub (l & Hlen & Hrep & Hl). exists l. split; [done|].
  split; [eapply replayed_growth; [apply HD|done|done]|].
  intros i b Hi. apply (elected_growth vv epoch Hwf obs D D' HD HD' Hsub); [lia|by apply Hl].
Qed.

Lemma sealed_growth D D' ld nv a : sound D -> sound D' -> D ⊆ D' -> 0 <= ld -> sealed_blocks D ld nv a -> sealed_blocks D' ld nv a.
Proof.
  intros HD HD' Hsub Hld (r & m & a1 & m' & Hb & Hel & Hr). exists r, m, a1, m'. split; [exact (blocks_growth D D' ld a1 m HD HD' Hsub Hb)|].
  split; [apply (elected_growth vv epoch Hwf obs D D' HD HD' Hsub); [lia|done]|]. by apply (block_replay_growth vv epoch callback begin D D'); [apply HD| |].
Qed.

Lemma inv_blocks D Di o : sound D -> Di ⊆ D -> indexed_inv Di o ->
  exists ld, st_LastDecidedState (o_store o) = Some ld /\ blocks_of D ld (o_user o).2 (marks (o_store o)).
Proof.
  intros HD Hsub (Hdag & _ & ld & Hv & _ & _ & Hb). exists ld. split; [apply Hv|].
  eapply blocks_growth; [| |exact Hsub|done]; [by eapply sound_sub|done].
Qed.

Lemma run_blocks D Di o : sound D -> Di ⊆ D -> indexed_run Di o ->
  exists ld, st_LastDecidedState (o_store o) = Some ld /\ blocks_of D ld (o_user o).2 (marks (o_store o)).
Proof.
  intros HD Hsub Hr. assert (dag vv epoch Di) as Hdag by (clear -Hr; induction Hr; by constructor).
  apply (inv_blocks D Di); [done|done|]. apply indexed_run_inv; [done|by eapply sound_sub].
Qed.

Lemma same_blocks D ld a1 a2 m1 m2 : sound D -> blocks_of D ld a1 m1 -> blocks_of D ld a2 m2 -> a1 = a2 /\ m1 = m2.
Proof.
  intros HD (l1 & Hn1 & Hp1 & Hl1) (l2 & Hn2 & Hp2 & Hl2). assert (l1 = l2) as <-.
  { apply (prefix_length_eq l1 l2); [|lia]. apply (elected_prefix vv epoch Hwf obs D); [done|lia|done|done]. }
  destruct (replayed_unique _ _ _ _ _ _ _ _ Hp1 _ _ Hp2) as [Hm Ha]. by split.
Qed.

(** The branches of a run are not used up while validators that have forked have
    few events. *)
Lemma run_uncapped D o : sound D -> indexed_run D o -> (S (cheater_events D) < maxBranchesPerValidator)%nat ->
  forall vi bi, InitBranchesInfo (o_user o).1 = Ok (vi, bi) -> uncapped bi.
Proof.
  intros HD Hr Hfew vi bi Hi. destruct (indexed_run_inv D o Hr HD) as (_ & Her & _).
  destruct (Init_inv vv epoch D D (o_user o).1 (engine_reach_inv vv epoch D D _ Hwf Her)) as (vi' & bi' & Hi' & _ & _ & Hdb & _).
  rewrite Hi in Hi'. injection Hi' as <- <-. exact (few_uncapped vv D bi _ (di_branch _ _ _ _ Hdb) Hfew).
Qed.

(** A node whose application returns no validators stays in the epoch. *)
Lemma indexed_run_process D o e getEvent vectorIndex fuel efuel :
  ~ seals callback -> indexed_run D o -> sound (<[e_id e := e]> D) -> connectable vv epoch D e ->
  (forall h x, (<[e_id e := e]> D) !! h = Some x -> getEvent h = Some x) ->
  (dfs_fuel D e + confirm_fuel (<[e_id e := e]> D) <= fuel)%nat ->
  (forall h x, (<[e_id e := e]> D) !! h = Some x -> e_frame x < Z.of_nat efuel) ->
  (forall vi bi, InitBranchesInfo (o_user o).1 = Ok (vi, bi) -> uncapped bi) ->
  exists o', Indexed_Process callback fuel efuel getEvent vectorIndex o e = Ok (None, o') /\ indexed_run (<[e_id e := e]> D) o'.
Proof.
  intros Hseal Hrun HD' Hcon Hsrc Hfuel Hef Hcap.
  assert (dag vv epoch D) as Hdag by (clear -Hrun; induction Hrun; by constructor).
  assert (sound D) as HsD by (by eapply sound_sub; [| |apply insert_subseteq, Hcon|exact HD']).
  destruct (indexed_step D o e getEvent vectorIndex fuel efuel (indexed_run_inv D o Hrun HsD)) as (o' & Ho & [[Hinv _]|[? _]%opened_seals]); try done.
  exists o'. split; [done|]. eapply indexed_process; try done. destruct Hinv as (_ & _ & ld & [_ Hst _ _] & _). apply Hst.
Qed.

(** What a node has decided, applied and confirmed is a function of the events it
    has processed: it has decided all the frames that its graph decides. *)
Lemma same_events_same_state D o1 o2 : sound D -> indexed_run D o1 -> indexed_run D o2 ->
  st_LastDecidedState (o_store o1) = st_LastDecidedState (o_store o2) /\ (o_user o1).2 = (o_user o2).2 /\
  forall x, GetEventConfirmedOn (o_store o1) x = GetEventConfirmedOn (o_store o2) x.
Proof.
  intros HD H1 H2.
  assert (forall oa ob lda ldb, indexed_run D oa -> indexed_run D ob -> st_LastDecidedState (o_store oa) = Some lda ->
    st_LastDecidedState (o_store ob) = Some ldb -> ldb <= lda) as Hle.
  { intros oa ob lda ldb Ha Hb Ea Eb. destruct (indexed_run_inv D oa Ha HD) as (_ & _ & la & [Hv _]).
    assert (la = lda) as -> by (destruct (si_ld _ _ _ _ _ (vo_store _ _ _ _ _ _ _ _ Hv)); congruence).
    destruct (run_blocks D D ob HD (reflexivity D) Hb) as (lb & Eb' & lst & Hlen & _ & Hl). assert (lb = ldb) as -> by congruence.
    destruct (decide (ldb <= lda)) as [|Hgt]; [done|]. exfalso. pose proof (vo_ld _ _ _ _ _ _ _ _ Hv).
    destruct (lookup_lt_is_Some_2 lst (Z.to_nat lda) ltac:(lia)) as [b Hb0]. apply Hl in Hb0.
    rewrite Z2Nat.id in Hb0 by lia. by apply (voting_undecided vv epoch Hwf obs index_ForklessCause D HD lda oa b) in Hv. }
  destruct (run_blocks D D o1 HD (reflexivity D) H1) as (ld1 & E1 & B1), (run_blocks D D o2 HD (reflexivity D) H2) as (ld2 & E2 & B2).
  assert (ld1 = ld2) as <- by (pose proof (Hle o1 o2 ld1 ld2 H1 H2 E1 E2); pose proof (Hle o2 o1 ld2 ld1 H2 H1 E2 E1); lia).
  destruct (same_blocks D ld1 _ _ _ _ HD B1 B2) as [Ha Hm]. splits; [congruence|done|].
  intros x. unfold GetEventConfirmedOn. unfold marks in Hm. by rewrite Hm.
Qed.

End node.

(** ** Properties *)

(** A whole node is never stuck within an epoch: [IndexedLachesis.Process] of
    a connected event whose frame the graph allows adds it to the vector index,
    runs the elections and the blocks they decide, and returns no error; the
    node then is in the same epoch and running, or has opened the next one. *)
Theorem indexed_never_stuck {App C bytes : Type} `{!LossyCache C Z (list RootAndSlot)} `{!LossyCacheLaws C Z (list RootAndSlot)}
    `{!BranchesInfoRlp bytes} `{!BranchesInfoRlpLaws bytes} (vv : Validators) (epoch : Z) (obs : Z -> Z -> bool)
    (callback : ConsensusCallbacks App) (begin : App -> Block -> App) (a0 : App) (D : gmap Z BaseEvent)
    (o : Orderer (vecfc_Engine (bytes := bytes) * App) C) (e : BaseEvent) (getEvent : Z -> option BaseEvent)
    (vectorIndex : Z -> VecDb HighestBeforeSeq LowestAfterSeq bytes) (fuel efuel : nat) :
  wf vv -> SortedIDs vv <> [] -> BeginBlock callback = Some begin ->
  indexed_run vv epoch callback a0 D o -> sound_graph vv epoch obs (<[e_id e := e]> D) -> connectable vv epoch D e ->
  (forall h x, (<[e_id e := e]> D) !! h = Some x -> getEvent h = Some x) ->
  (dfs_fuel D e + confirm_fuel (<[e_id e := e]> D) <= fuel)%nat ->
  (forall h x, (<[e_id e := e]> D) !! h = Some x -> e_frame x < Z.of_nat efuel) ->
  (forall vi bi, InitBranchesInfo (o_user o).1 = Ok (vi, bi) -> uncapped bi) ->
  exists o', Indexed_Process callback fuel efuel getEvent vectorIndex o e = Ok (None, o') /\
    (indexed_run vv epoch callback a0 (<[e_id e := e]> D) o' \/ st_open (o_store o') = u32 (epoch + 1)).
Proof.
  intros Hwf Hne Hb Hrun HD' Hcon Hsrc Hfuel Hef Hcap.
  assert (dag vv epoch D) as Hdag by (clear -Hrun; induction Hrun; by constructor).
  assert (sound_graph vv epoch obs D) as HsD by (by eapply sound_sub; [| |apply insert_subseteq, Hcon|exact HD']).
  pose proof (indexed_run_inv vv epoch Hwf Hne obs callback begin Hb a0 D o Hrun HsD) as Hinv.
  destruct (indexed_step vv epoch Hwf obs callback begin Hb a0 D o e getEvent vectorIndex fuel efuel Hinv)
    as (o' & Ho & Hres); try done.
  exists o'. split; [done|]. destruct (decide (st_open (o_store o') = epoch)) as [Hop|Hop]; [left; by eapply indexed_process|].
  right. destruct Hres as [[(_ & _ & ld & [_ Hst _ _] & _) _]|[_ ?]%opened_seals]; [|done].
  by destruct Hop; apply Hst.
Qed.

(** Replication: two nodes of one epoch, fed with any parts of one sound
    graph in any order that respects parents, that have decided the same frame
    have the same application state and confirm the same events.  The state
    does not depend on what either has received beyond that. *)
Theorem replicas_agree {App C bytes : Type} `{!LossyCache C Z (list RootAndSlot)} `{!LossyCacheLaws C Z (list RootAndSlot)}
    `{!BranchesInfoRlp bytes} `{!BranchesInfoRlpLaws bytes} (vv : Validators) (epoch : Z) (obs : Z -> Z -> bool)
    (callback : ConsensusCallbacks App) (begin : App -> Block -> App) (a0 : App) (D D1 D2 : gmap Z BaseEvent)
    (o1 o2 : Orderer (vecfc_Engine (bytes := bytes) * App) C) :
  wf vv -> SortedIDs vv <> [] -> BeginBlock callback = Some begin ->
  sound_graph vv epoch obs D -> D1 ⊆ D -> D2 ⊆ D ->
  indexed_run vv epoch callback a0 D1 o1 -> indexed_run vv epoch callback a0 D2 o2 ->
  st_LastDecidedState (o_store o1) = st_LastDecidedState (o_store o2) ->
  (o_user o1).2 = (o_user o2).2 /\ forall x, GetEventConfirmedOn (o_store o1) x = GetEventConfirmedOn (o_store o2) x.
Proof.
  intros Hwf Hne Hb HD Hs1 Hs2 Hr1 Hr2 Hld.
  destruct (run_blocks vv epoch Hwf Hne obs callback begin Hb a0 D D1 o1 HD Hs1 Hr1) as (ld1 & E1 & B1).
  destruct (run_blocks vv epoch Hwf Hne obs callback begin Hb a0 D D2 o2 HD Hs2 Hr2) as (ld2 & E2 & B2).
  assert (ld1 = ld2) as <- by congruence.
  destruct (same_blocks vv epoch Hwf obs callback begin a0 D ld1 _ _ _ _ HD B1 B2) as [Ha Hm].
  split; [done|]. intros x. unfold GetEventConfirmedOn. unfold marks in Hm. by rewrite Hm.
Qed.


(** ** Witnesses: the chain of three events *)

Local Abbreviation ChainIL := (Orderer (vecfc_Engine (bytes := BranchesInfo) * list Z) (Cache Z (list RootAndSlot))).
Definition no_vectors (_ : Z) : VecDb HighestBeforeSeq LowestAfterSeq BranchesInfo := empty_db.

Definition chainIL_start : ChainIL :=
  let o := mk_Orderer (applyGenesis_ new_Store 1 solo) None (Engine_Reset solo empty_db, []) in
  match Indexed_Bootstrap 20 5 chain_source no_vectors o with
  | Ok o => o
  | _ => o
  end.
Definition chainIL_process (o : ChainIL) (e : BaseEvent) : ChainIL :=
  match Indexed_Process chain_record 20 5 chain_source no_vectors o e with
  | Ok (None, o') => o'
  | _ => o
  end.
Definition chainIL (n : nat) : ChainIL := foldl chainIL_process chainIL_start (chain_event <$> (Z.of_nat <$> seq 1 n)).

Example chainIL_confirms : (o_user (chainIL 3)).2 = [101] /\ (o_user (chainIL 2)).2 = [].
Proof. split; vm_compute; reflexivity. Qed.

Lemma chain_uncapped (n : nat) : (n < 3)%nat ->
  forall vi bi, InitBranchesInfo (o_user (chainIL n)).1 = Ok (vi, bi) -> uncapped bi.
Proof.
  intros Hn vi bi Hi.
  assert (match InitBranchesInfo (o_user (chainIL n)).1 with Ok (_, b) => bool_decide (uncapped b) | _ => true end = true) as Hb.
  { destruct n as [|[|[|n]]]; [vm_compute; reflexivity..|lia]. }
  rewrite Hi in Hb. by apply bool_decide_eq_true in Hb.
Qed.

Lemma chainIL_run_process D (n : nat) :
  (n < 3)%nat -> indexed_run solo 1 chain_record [] D (chainIL n) -> connectable solo 1 D (chain_event (Z.of_nat (S n))) ->
  <[e_id (chain_event (Z.of_nat (S n))) := chain_event (Z.of_nat (S n))]> D ⊆ chain3 ->
  (dfs_fuel D (chain_event (Z.of_nat (S n))) +
    confirm_fuel (<[e_id (chain_event (Z.of_nat (S n))) := chain_event (Z.of_nat (S n))]> D) <= 20)%nat ->
  Indexed_Process chain_record 20 5 chain_source no_vectors (chainIL n) (chain_event (Z.of_nat (S n))) = Ok (None, chainIL (S n)) ->
  st_open (o_store (chainIL (S n))) = 1 ->
  indexed_run solo 1 chain_record [] (<[e_id (chain_event (Z.of_nat (S n))) := chain_event (Z.of_nat (S n))]> D) (chainIL (S n)).
Proof.
  intros Hn Hr Hcon Hsub Hfuel Hp Hop.
  eapply (indexed_process _ _ _ _ D (chainIL n) _ chain_source no_vectors 20 5); try done.
  - intros h e He. by eapply lookup_weaken.
  - intros h e He. eapply lookup_weaken in He; [|exact Hsub].
    apply chain_lookup in He as (m & Hm & _ & ->). simpl. lia.
  - by apply chain_uncapped.
Qed.

Lemma chainIL_run0 : indexed_run solo 1 chain_record [] ∅ (chainIL 0).
Proof.
  apply (indexed_start solo 1 chain_record [] new_Store (Engine_Reset solo empty_db) chain_source no_vectors 20 5);
    [|done|done|lia|vm_compute; reflexivity].
  eapply (roots_inv_caches ∅ new_Store); [done|done|apply new_Store_inv].
Qed.

Lemma chainIL_run1 : indexed_run solo 1 chain_record [] chain1 (chainIL 1).
Proof.
  apply (chainIL_run_process ∅ 0 ltac:(lia) chainIL_run0 chain_con1);
    [|vm_compute; lia|vm_compute; reflexivity|vm_compute; reflexivity].
  etrans; [apply chain_sub12|apply chain_sub23].
Qed.

Lemma chainIL_run2 : indexed_run solo 1 chain_record [] chain2 (chainIL 2).
Proof.
  apply (chainIL_run_process chain1 1 ltac:(lia) chainIL_run1 chain_con2);
    [apply chain_sub23|vm_compute; lia|vm_compute; reflexivity|vm_compute; reflexivity].
Qed.

Lemma chainIL_run3 : indexed_run solo 1 chain_record [] chain3 (chainIL 3).
Proof.
  apply (chainIL_run_process chain2 2 ltac:(lia) chainIL_run2 chain_con3);
    [done|vm_compute; lia|vm_compute; reflexivity|vm_compute; reflexivity].
Qed.

Lemma indexed_never_stuck_witness :
  exists o', Indexed_Process chain_record 20 5 chain_source no_vectors (chainIL 2) (chain_event 3) = Ok (None, o') /\
    (indexed_run solo 1 chain_record [] chain3 o' \/ st_open (o_store o') = u32 (1 + 1)).
Proof.
  apply (indexed_never_stuck solo 1 chain_obs chain_record (fun l _ => l) [] chain2 (chainIL 2) (chain_event 3)
    chain_source no_vectors 20 5 solo_wf ltac:(done) eq_refl chainIL_run2 chain_sound chain_con3).
  - done.
  - vm_compute. lia.
  - intros h e He. apply chain_lookup in He as (m & Hm & _ & ->). simpl. lia.
  - apply chain_uncapped. lia.
Defined.

Lemma replicas_agree_witness :
  (o_user (chainIL 2)).2 = (o_user (chainIL 1)).2 /\
  forall x, GetEventConfirmedOn (o_store (chainIL 2)) x = GetEventConfirmedOn (o_store (chainIL 1)) x.
Proof.
  apply (replicas_agree solo 1 chain_obs chain_record (fun l _ => l) [] chain3 chain2 chain1 (chainIL 2) (chainIL 1)
    solo_wf ltac:(done) eq_refl chain_sound chain_sub23 (transitivity chain_sub12 chain_sub23) chainIL_run2 chainIL_run1).
  vm_compute. reflexivity.
Defined.

