(* ===== verification/Epochs.v ===== *)
(** * abft: a node through epochs, restarts and resets

    [epochs_run] are the states a node reaches from a genesis: it processes
    events, enters the next epoch when the application returns validators for a
    block, is stopped and started again over what it has stored, and is reset to
    an epoch that another node has opened.  In every such state the invariant of
    Node.v holds for the epoch the node is in, so the epochs, their validators
    and the application's state at their start are the same on all nodes
    ([epochs_agree]). *)

From S2P Require Import Prelude Bytes Pos Dag VecFC VecEngine VecCorrect Wlru Kvdb ForklessCause Election ElectionSafety ElectionCorrect AbftStore Frames Abft AbftFrames Consensus Agreement Blocks Node.
From S2P Require Import VecBranches.
Local Open Scope go_scope.

(** ** The block that ends an epoch *)

Section sealing.
Context (vv : Validators) (epoch : Z) (Hwf : wf vv) (obs : Z -> Z -> bool).
Context {App : Type} (callback : ConsensusCallbacks App) (begin : App -> Block -> App) (a0 : App).
Implicit Types (D : gmap Z BaseEvent).

Lemma replayed_prefix D l1 l2 m a : replayed vv callback begin a0 D (l1 ++ l2) m a -> exists m1 a1, replayed vv callback begin a0 D l1 m1 a1.
Proof.
  revert m a. induction l2 as [|r l2 IH] using rev_ind; intros m a Hr; [rewrite app_nil_r in Hr; by exists m, a|].
  rewrite app_assoc in Hr. apply replayed_snoc in Hr as (m' & a' & Hr & _). by eapply IH.
Qed.

(** A node that has decided more frames has met the block that ends the epoch. *)
Lemma sealed_bounds D ld ld' nv a a' m :
  sound_graph vv epoch obs D -> 0 <= ld -> sealed_blocks vv obs callback begin a0 D ld nv a ->
  blocks_of vv obs callback begin a0 D ld' a' m -> ld' <= ld.
Proof.
  intros HD Hld (r & m1 & a1 & m1' & (l1 & Hlen1 & Hrep1 & Hl1) & Hel & Hblk) (l2 & Hlen2 & Hrep2 & Hl2).
  destruct (decide (ld' <= ld)) as [|Hgt]; [done|exfalso].
  assert (l1 `prefix_of` l2) as [l3 ->] by (apply (elected_prefix vv epoch Hwf obs D); [done|lia|done|done]).
  rewrite length_app in Hlen2. destruct l3 as [|r' l3]; [simpl in Hlen2; lia|].
  assert (r' = r) as ->.
  { apply (elected_unique vv epoch Hwf obs D (ld + 1)); [done|lia| |done]. rewrite <- Hlen1.
    apply Hl2. rewrite lookup_app_r, Nat.sub_diag by done. done. }
  rewrite (cons_middle r), app_assoc in Hrep2. apply replayed_prefix in Hrep2 as (m2 & a2 & Hrep2).
  apply replayed_snoc in Hrep2 as (m3 & a3 & Hrep3 & Hblk').
  destruct (replayed_unique _ _ _ _ _ _ _ _ Hrep1 _ _ Hrep3) as [<- <-].
  by destruct (block_replay_unique _ _ _ _ _ _ _ _ _ _ _ _ _ Hblk Hblk') as (_ & _ & ?).
Qed.

Lemma sealed_unique D ld1 nv1 b1 ld2 nv2 b2 :
  sound_graph vv epoch obs D -> 0 <= ld1 -> 0 <= ld2 -> sealed_blocks vv obs callback begin a0 D ld1 nv1 b1 ->
  sealed_blocks vv obs callback begin a0 D ld2 nv2 b2 -> nv1 = nv2 /\ b1 = b2.
Proof.
  intros HD H1 H2 Hs1 Hs2. pose proof Hs1 as (r1 & m1 & a1 & m1' & Hb1 & Hel1 & Hblk1).
  pose proof Hs2 as (r2 & m2 & a2 & m2' & Hb2 & Hel2 & Hblk2).
  pose proof (sealed_bounds D ld1 ld2 _ _ _ _ HD H1 Hs1 Hb2). pose proof (sealed_bounds D ld2 ld1 _ _ _ _ HD H2 Hs2 Hb1).
  assert (ld2 = ld1) as -> by lia.
  destruct (same_blocks vv epoch Hwf obs callback begin a0 D ld1 _ _ _ _ HD Hb1 Hb2) as [<- <-].
  rewrite (elected_unique vv epoch Hwf obs D (ld1 + 1) r2 r1 HD ltac:(lia) Hel2 Hel1) in Hblk2.
  destruct (block_replay_unique _ _ _ _ _ _ _ _ _ _ _ _ _ Hblk1 Hblk2) as (_ & ? & [= ?]). done.
Qed.

End sealing.

(** ** Starts *)

Section starts.
Context (vv : Validators) (epoch : Z) (Hwf : wf vv) (Hne : SortedIDs vv <> []) (obs : Z -> Z -> bool).
Context {App C bytes : Type} `{!LossyCache C Z (list RootAndSlot)} `{!LossyCacheLaws C Z (list RootAndSlot)}.
Context `{!BranchesInfoRlp bytes} `{!BranchesInfoRlpLaws bytes}.
Context (callback : ConsensusCallbacks App) (begin : App -> Block -> App) (Hbegin : BeginBlock callback = Some begin) (a0 : App).
Local Abbreviation Index := (vecfc_Engine (bytes := bytes)).
Local Abbreviation IL := (Orderer (Index * App) C).
Local Abbreviation inv := (indexed_inv vv epoch obs callback begin a0).
Implicit Types (D : gmap Z BaseEvent) (o : IL).

(** The first state of an epoch, however it was entered. *)
Lemma epoch_start_inv o vi :
  sound_graph vv epoch obs ∅ -> epoch_start epoch vv ∅ o -> o_user o = (vi, a0) -> engine_reach vv epoch ∅ ∅ vi ->
  inv ∅ o /\ (epoch_view (o_store o)).2 = ∅.
Proof.
  intros H0 [Hes Hld Hop Hdb Hc Hp Hel] Hu Hr.
  assert ((epoch_view (o_store o)).2 = ∅) as Hoth by (simpl; by rewrite Hdb, delete_empty). split; [|done].
  assert (epochTable (o_store o) = empty_EpochDB) as Ht by (unfold epochTable; by rewrite Hdb, lookup_empty).
  split; [constructor|]. rewrite Hu. split; [done|]. exists 0. split.
  - split; [lia| | |].
    + rewrite slots_empty. split; [|done|done|by intros r ?%elem_of_empty..|done].
      split; [by intros r ?%elem_of_empty| |done|intros f rr; by rewrite Hp].
      intros k. rewrite Ht. simpl. rewrite lookup_empty. split; [by intros [? ?]|by intros (r & ?%elem_of_empty & _)].
    + intros a b [ea Ha]. by rewrite lookup_empty in Ha.
    + exists (Election_Reset vv (0 + 1)). split; [done|]. split; [by apply election_reset_inv|].
      split; [|by apply election_reset_open]. intros _ x Hx. rewrite slots_empty in Hx. by apply elem_of_elements, elem_of_empty in Hx.
  - split; [done|]. rewrite Hu. split; [by exists ∅|]. exists []. split; [done|]. split; [|done]. simpl. rewrite Ht. constructor.
Qed.

(** What a process finds when it is started again: the databases, and caches that
    know nothing of them. *)
Record restarted (s s' : Store C) : Prop := {
  rs_LastDecided : st_LastDecidedState s' = st_LastDecidedState s;
  rs_EpochState : st_EpochState s' = st_EpochState s;
  rs_dbs : st_dbs s' = st_dbs s;
  rs_cacheLastDecided : st_cacheLastDecided s' = None;
  rs_cacheEpoch : st_cacheEpoch s' = None;
  rs_cache_ok : cache_ok (st_FrameRoots s')
}.

Lemma restart_inv D o s' vi0 getEvent vectorIndex fuel efuel :
  sound_graph vv epoch obs D -> inv D o -> restarted (o_store o) s' -> vectorIndex epoch = en_flushed (o_user o).1 ->
  (0 < efuel)%nat -> (forall h x, D !! h = Some x -> e_frame x < Z.of_nat efuel) ->
  exists o', Indexed_Bootstrap fuel efuel getEvent vectorIndex (mk_Orderer s' None (vi0, (o_user o).2)) = Ok o' /\
    inv D o' /\ (o_user o').2 = (o_user o).2 /\ epoch_view (o_store o') = epoch_view (o_store o) /\
    st_LastDecidedState (o_store o') = st_LastDecidedState (o_store o).
Proof.
  intros HD (Hdag & Hr & ld & [Hld Hs Hag Hel] & _ & _ & Hb) [R1 R2 R3 R4 R5 R6] Hvi Hef Htop.
  pose proof Hs as [Hroots [Hes _] [Hl _] Hv Hf Hop].
  assert (epochTable (openEpochDB s' epoch) = epochTable (o_store o)) as Ht by (unfold epochTable; simpl; by rewrite R3, Hop).
  assert (epoch_view (openEpochDB s' epoch) = epoch_view (o_store o)) as Hview by (unfold epoch_view; rewrite Ht; simpl; by rewrite R3, Hop).
  destruct (Indexed_Bootstrap_spec vv epoch Hwf Hne obs callback begin a0 D ld getEvent vectorIndex fuel efuel s' vi0 (o_user o).2)
    as (o' & Ho & Hinv & Ha & Hv' & Hl'); try done.
  - destruct Hroots as [Q1 Q2 Q3 Q4].
    split; [split|by split; [rewrite <- Hes|left]|by split; [rewrite <- Hl|left]|done..].
    + done.
    + intros k. by rewrite Ht.
    + by apply cache_purge_ok.
    + intros f rr. cbn. by rewrite cache_purge_peek.
  - intros r. eapply (voting_undecided vv epoch Hwf obs index_ForklessCause D HD ld o). by split.
  - rewrite Hvi. pose proof (engine_reach_inv vv epoch D D _ Hwf Hr) as Hei.
    replace (Engine_Reset vv (en_flushed (o_user o).1)) with (Engine_DropNotFlushed (o_user o).1); [by eapply reach_drop|].
    pose proof (ei_validators _ _ _ _ _ Hei) as Hvv. pose proof (ei_clean _ _ _ _ _ Hei) as Hclean.
    unfold Engine_Reset, Engine_DropNotFlushed. cbn. destruct (en_dirty (o_user o).1); [by rewrite Hvv|].
    destruct (Hclean eq_refl) as [-> _]. by rewrite Hvv.
  - unfold marks. by rewrite Ht.
  - intros r (x & Hx & _ & Hfx)%(elem_of_slots vv epoch); [|done]. specialize (Htop _ _ Hx). lia.
  - exists o'. split; [done|]. split; [done|]. split; [done|]. split; [congruence|]. by rewrite Hl'.
Qed.

(** [Reset] enters an epoch with an application that knows its start. *)
Lemma reset_start o fuel getEvent vectorIndex :
  o_election o <> None -> (epoch_view (o_store o)).2 = ∅ -> cache_ok (st_FrameRoots (o_store o)) ->
  exists o', Orderer_Reset (indexed_callbacks callback fuel getEvent vectorIndex) o epoch vv = Ok o' /\
    epoch_start epoch vv ∅ o' /\ o_user o' = (Engine_Reset vv (vectorIndex epoch), (o_user o).2).
Proof.
  intros Hel Hoth Hc. unfold Orderer_Reset, resetEpochStore. set (o1 := with_store _ (openEpochDB _ _)).
  destruct (indexed_loaded fuel getEvent vectorIndex callback o1 epoch (mk_EpochState epoch vv)) as
    (loaded & s' & Hl & Ho & (E1 & E2 & E3 & E4) & Hfr & Hcl & Hst); [by split; [|right]|].
  rewrite Hl, Ho. cbn [outcome_bind o_election with_store with_user]. change (o_election o1) with (o_election o).
  destruct (o_election o); [|done]. eexists. split; [reflexivity|]. split; [|done].
  split; cbn; [done| |done| | | |done].
  - split; [by rewrite E1|right; by rewrite Hcl].
  - by rewrite E3.
  - rewrite Hfr. by apply cache_purge_ok.
  - intros f. rewrite Hfr. by apply cache_purge_peek.
Qed.

End starts.

(** ** Runs *)

Section epochs.
Context {App C bytes : Type} `{!LossyCache C Z (list RootAndSlot)} `{!LossyCacheLaws C Z (list RootAndSlot)}.
Context `{!BranchesInfoRlp bytes} `{!BranchesInfoRlpLaws bytes}.
Local Abbreviation Index := (vecfc_Engine (bytes := bytes)).
Local Abbreviation IL := (Orderer (Index * App) C).
(** The events of the epochs, counted from the genesis, and the genesis. *)
Context (callback : ConsensusCallbacks App) (G : nat -> gmap Z BaseEvent) (vv0 : Validators) (epoch0 : Z) (a0 : App).
Implicit Types (D : gmap Z BaseEvent) (o : IL).

(** [Process] of an event whose parents the node knows, with enough fuel, and
    with room for branches; the tables of the next epoch are new. *)
Record fed (k : nat) (vv : Validators) (epoch : Z) D o (e : BaseEvent) (getEvent : Z -> option BaseEvent)
    (vectorIndex : Z -> VecDb HighestBeforeSeq LowestAfterSeq bytes) (fuel efuel : nat) : Prop := {
  fd_connectable : connectable vv epoch D e;
  fd_known : G k !! e_id e = Some e;
  fd_getEvent h x : (<[e_id e := e]> D) !! h = Some x -> getEvent h = Some x;
  fd_fuel : (dfs_fuel D e + confirm_fuel (<[e_id e := e]> D) <= fuel)%nat;
  fd_efuel h x : (<[e_id e := e]> D) !! h = Some x -> e_frame x < Z.of_nat efuel;
  fd_uncapped vi bi : InitBranchesInfo (o_user o).1 = Ok (vi, bi) -> uncapped bi;
  fd_next : vectorIndex (u32 (epoch + 1)) = empty_db
}.

(** [epochs_run k vv epoch a D o]: the node [o] is in the [k]-th epoch, which has
    the number [epoch] and the validators [vv] and began with the application in
    the state [a], and has processed the events [D] of it. *)
Inductive epochs_run : nat -> Validators -> Z -> App -> gmap Z BaseEvent -> IL -> Prop :=
| epochs_genesis s vi0 getEvent vectorIndex fuel efuel o :
    empty_epoch epoch0 s -> st_dbs s = ∅ -> vectorIndex epoch0 = empty_db -> (0 < efuel)%nat ->
    Indexed_Bootstrap fuel efuel getEvent vectorIndex (mk_Orderer (applyGenesis_ s epoch0 vv0) None (vi0, a0)) = Ok o ->
    epochs_run 0 vv0 epoch0 a0 ∅ o
| epochs_process k vv epoch a D o e getEvent vectorIndex fuel efuel o' :
    epochs_run k vv epoch a D o -> fed k vv epoch D o e getEvent vectorIndex fuel efuel ->
    Indexed_Process callback fuel efuel getEvent vectorIndex o e = Ok (None, o') -> st_open (o_store o') = epoch ->
    epochs_run k vv epoch a (<[e_id e := e]> D) o'
| epochs_seal k vv epoch a D o e getEvent vectorIndex fuel efuel o' s nv n :
    epochs_run k vv epoch a D o -> fed k vv epoch D o e getEvent vectorIndex fuel efuel ->
    Indexed_Process callback fuel efuel getEvent vectorIndex o e = Ok (None, o') -> st_open (o_store o') <> epoch ->
    GetEpochState (o_store o') = Ok (mk_EpochState n nv, s) ->
    epochs_run (S k) nv n (o_user o').2 ∅ o'
| epochs_restart k vv epoch a D o s' vi0 getEvent vectorIndex fuel efuel o' :
    epochs_run k vv epoch a D o -> restarted (o_store o) s' -> vectorIndex epoch = en_flushed (o_user o).1 ->
    (0 < efuel)%nat -> (forall h x, D !! h = Some x -> e_frame x < Z.of_nat efuel) ->
    Indexed_Bootstrap fuel efuel getEvent vectorIndex (mk_Orderer s' None (vi0, (o_user o).2)) = Ok o' ->
    epochs_run k vv epoch a D o'
| epochs_reset k vv epoch a D o k' vv' epoch' a' D' o1 getEvent vectorIndex fuel o' :
    epochs_run k vv epoch a D o -> epochs_run k' vv' epoch' a' D' o1 -> vectorIndex epoch' = empty_db ->
    Orderer_Reset (indexed_callbacks callback fuel getEvent vectorIndex) (with_user o ((o_user o).1, a')) epoch' vv' = Ok o' ->
    epochs_run k' vv' epoch' a' ∅ o'.

Context (begin : App -> Block -> App) (Hbegin : BeginBlock callback = Some begin) (obs : nat -> Z -> Z -> bool).

(** How an epoch begins: with the genesis, or after the block that sealed the one
    before, in the graph of all its events. *)
Inductive opens : nat -> Validators -> Z -> App -> Prop :=
| opens_genesis : opens 0 vv0 epoch0 a0
| opens_next k vv epoch a ld nv a' :
    opens k vv epoch a -> 0 <= ld -> sealed_blocks vv (obs k) callback begin a (G k) ld nv a' -> opens (S k) nv (u32 (epoch + 1)) a'.

(** In every epoch the validators are a group, and the events are a sound graph
    for them. *)
Definition sound_epochs : Prop := forall k vv epoch a, opens k vv epoch a ->
  wf vv /\ SortedIDs vv <> [] /\ sound_graph vv epoch (obs k) (G k).
Context (Hsound : sound_epochs).

Lemma opens_unique k vv1 e1 a1 : opens k vv1 e1 a1 -> forall vv2 e2 a2, opens k vv2 e2 a2 -> vv1 = vv2 /\ e1 = e2 /\ a1 = a2.
Proof.
  induction 1 as [|k vv epoch a ld nv a' Ho IH Hld Hb]; intros vv2 e2 a2 H2; inversion H2 as [|? vv' ? ? ld' ? ? H2' Hld' Hb']; subst; [done|].
  destruct (IH _ _ _ H2') as (-> & -> & ->). destruct (Hsound _ _ _ _ Ho) as (Hwf & _ & Hs).
  by destruct (sealed_unique vv' _ Hwf (obs k) callback begin _ (G k) ld nv a' ld' vv2 a2 Hs Hld Hld' Hb Hb') as [-> ->].
Qed.

(** What holds of a node in any state of a run. *)
Record run_ok (k : nat) (vv : Validators) (epoch : Z) (a : App) D o : Prop := {
  rk_opens : opens k vv epoch a;
  rk_sub : D ⊆ G k;
  rk_inv : indexed_inv vv epoch (obs k) callback begin a D o;
  rk_others : (epoch_view (o_store o)).2 = ∅
}.

Lemma opens_sound k vv epoch a D : opens k vv epoch a -> dag vv epoch D -> D ⊆ G k -> sound_graph vv epoch (obs k) D.
Proof. intros Ho HD Hsub. destruct (Hsound _ _ _ _ Ho) as (Hwf & _ & HG). by eapply (sound_sub vv epoch Hwf (obs k) D (G k)). Qed.

(** One call of [Process]. *)
Lemma fed_step k vv epoch a D o e getEvent vectorIndex fuel efuel :
  run_ok k vv epoch a D o -> fed k vv epoch D o e getEvent vectorIndex fuel efuel ->
  exists o', Indexed_Process callback fuel efuel getEvent vectorIndex o e = Ok (None, o') /\
    (st_open (o_store o') = epoch /\ run_ok k vv epoch a (<[e_id e := e]> D) o' \/
     exists s nv, st_open (o_store o') = u32 (epoch + 1) /\ GetEpochState (o_store o') = Ok (mk_EpochState (u32 (epoch + 1)) nv, s) /\
       opens (S k) nv (u32 (epoch + 1)) (o_user o').2 /\ epoch_start (u32 (epoch + 1)) nv ∅ o' /\
       engine_reach nv (u32 (epoch + 1)) ∅ ∅ (o_user o').1).
Proof.
  intros [Hop Hsub Hinv Hoth] [F1 F2 F3 F4 F5 F6 F7]. destruct (Hsound _ _ _ _ Hop) as (Hwf & Hne & HG).
  assert (<[e_id e := e]> D ⊆ G k) as Hsub' by (by apply insert_subseteq_l).
  assert (sound_graph vv epoch (obs k) (<[e_id e := e]> D)) as HD'.
  { apply (opens_sound k vv epoch a); [done|constructor; [apply Hinv|done]|done]. }
  destruct (indexed_step vv epoch Hwf (obs k) callback begin Hbegin a D o e getEvent vectorIndex fuel efuel Hinv HD' F1 F3 F4 F5 F6)
    as (o' & Ho & [[Hinv' Hoth']|(ld & nv & Hld & Hsb & Hst & Hvi)]); exists o'; (split; [done|]); [left|right].
  - assert (st_open (o_store o') = epoch) as Hopn by (destruct Hinv' as (_ & _ & ld & [_ Hst _ _] & _); apply Hst).
    split; [done|]. split; [done|done|done|congruence].
  - rewrite Hoth in Hst. pose proof Hst as [[E1 E2] _ E3 _ _ _ _].
    assert (exists s, GetEpochState (o_store o') = Ok (mk_EpochState (u32 (epoch + 1)) nv, s)) as [s Hs].
    { unfold GetEpochState. destruct E2 as [->| ->]; [rewrite E1|]; by eexists. }
    exists s, nv. split; [done|]. split; [done|]. split; [|split; [done|]].
    + apply (opens_next k vv epoch a ld); try done. by apply (sealed_growth vv epoch Hwf (obs k) callback begin a (<[e_id e := e]> D)).
    + rewrite Hvi, F7. eapply reach_drop, reach_flush, reach_reset.
Qed.

Lemma empty_sound k vv epoch a : opens k vv epoch a -> sound_graph vv epoch (obs k) ∅.
Proof. intros Ho. by apply (opens_sound k vv epoch a); [|constructor|apply map_empty_subseteq]. Qed.

(** An epoch that has just been entered. *)
Lemma started_ok k vv epoch a o : opens k vv epoch a ->
  epoch_start epoch vv ∅ o -> (o_user o).2 = a -> engine_reach vv epoch ∅ ∅ (o_user o).1 -> run_ok k vv epoch a ∅ o.
Proof.
  intros Hop Hst Ha Hr. destruct (Hsound _ _ _ _ Hop) as (_ & Hne & _).
  destruct (epoch_start_inv vv epoch Hne (obs k) callback begin a o (o_user o).1 (empty_sound _ _ _ _ Hop) Hst) as [Hinv Hoth];
    [by rewrite <- Ha, <- surjective_pairing|done|]. split; [done|apply map_empty_subseteq|done|done].
Qed.

Lemma epochs_run_ok k vv epoch a D o : epochs_run k vv epoch a D o -> run_ok k vv epoch a D o.
Proof.
  induction 1 as [s vi0 getEvent vectorIndex fuel efuel o Hs Hdb Hvi Hef Hb
    |k vv epoch a D o e getEvent vectorIndex fuel efuel o' Hrun IH Hfed Hp Hop
    |k vv epoch a D o e getEvent vectorIndex fuel efuel o' s nv n Hrun IH Hfed Hp Hop Hg
    |k vv epoch a D o s' vi0 getEvent vectorIndex fuel efuel o' Hrun IH Hrs Hvi Hef Htop Hb
    |k vv epoch a D o k' vv' epoch' a' D' o1 getEvent vectorIndex fuel o' Hrun IH Hrun1 IH1 Hvi Hr].
  - pose proof opens_genesis as Hop. destruct (Hsound _ _ _ _ Hop) as (Hwf & Hne & _).
    destruct (indexed_genesis vv0 epoch0 Hwf Hne (obs 0%nat) callback begin a0 s vi0 getEvent vectorIndex fuel efuel Hs)
      as (o2 & Ho2 & Hinv & _ & Hoth); [by rewrite Hdb|done|done|by eapply empty_sound|].
    rewrite Hb in Ho2. injection Ho2 as <-. split; [done|apply map_empty_subseteq|done|by rewrite Hoth].
  - destruct (fed_step _ _ _ _ _ _ _ _ _ _ _ IH Hfed) as (o2 & Ho2 & [[_ Hok]|(? & ? & Hn & _)]); [congruence|].
    rewrite Hp in Ho2. injection Ho2 as <-. exfalso. rewrite Hn in Hop. exact (next_epoch_other _ Hop).
  - destruct (fed_step _ _ _ _ _ _ _ _ _ _ _ IH Hfed) as (o2 & Ho2 & [[? _]|(s2 & nv2 & Hn & Hg2 & Hopn & Hst & Hr)]); [congruence|].
    rewrite Hp in Ho2. injection Ho2 as <-. rewrite Hg in Hg2. injection Hg2 as -> -> _.
    by apply started_ok.
  - destruct IH as [H1 H2 H3 H4]. destruct (Hsound _ _ _ _ H1) as (Hwf & Hne & _).
    destruct (restart_inv vv epoch Hwf Hne (obs k) callback begin a D o s' vi0 getEvent vectorIndex fuel efuel) as (o2 & Ho2 & Hinv & _ & Hv & _);
      try done; [eapply opens_sound; [exact H1|apply H3|done]|].
    rewrite Hb in Ho2. injection Ho2 as <-. split; [done|done|done|congruence].
  - destruct IH as [_ _ (_ & _ & ld & [_ Hst _ (el & Hel & _)] & _) Hoth].
    destruct (reset_start vv' epoch' callback (with_user o ((o_user o).1, a')) fuel getEvent vectorIndex) as (o2 & Ho2 & Hst2 & Hu); try done.
    { cbn. by rewrite Hel. }
    { apply (si_roots _ _ _ _ _ Hst). }
    rewrite Hr in Ho2. injection Ho2 as <-. apply started_ok; [apply IH1|done|by rewrite Hu|].
    rewrite Hu, Hvi. constructor.
Qed.

(** Two nodes in the same epoch: all they know was decided by the same blocks. *)
Lemma epochs_same k vv1 e1 a1 D1 o1 vv2 e2 a2 D2 o2 :
  epochs_run k vv1 e1 a1 D1 o1 -> epochs_run k vv2 e2 a2 D2 o2 ->
  vv1 = vv2 /\ e1 = e2 /\ a1 = a2 /\
  (st_LastDecidedState (o_store o1) = st_LastDecidedState (o_store o2) ->
   (o_user o1).2 = (o_user o2).2 /\ forall x, GetEventConfirmedOn (o_store o1) x = GetEventConfirmedOn (o_store o2) x).
Proof.
  intros H1 H2. destruct (epochs_run_ok _ _ _ _ _ _ H1) as [Op1 S1 I1 _], (epochs_run_ok _ _ _ _ _ _ H2) as [Op2 S2 I2 _].
  destruct (opens_unique _ _ _ _ Op1 _ _ _ Op2) as (<- & <- & <-). splits; try done.
  intros Hld. destruct (Hsound _ _ _ _ Op1) as (Hwf & Hne & HG).
  destruct (inv_blocks vv1 e1 Hwf (obs k) callback begin a1 (G k) D1 o1 HG S1 I1) as (ld1 & E1 & B1).
  destruct (inv_blocks vv1 e1 Hwf (obs k) callback begin a1 (G k) D2 o2 HG S2 I2) as (ld2 & E2 & B2).
  assert (ld2 = ld1) as -> by congruence.
  destruct (same_blocks vv1 e1 Hwf (obs k) callback begin a1 (G k) ld1 _ _ _ _ HG B1 B2) as [Ha Hm].
  split; [done|]. intros x. unfold GetEventConfirmedOn. unfold marks in Hm. by rewrite Hm.
Qed.

Lemma epochs_fed k vv epoch a D o e getEvent vectorIndex fuel efuel :
  epochs_run k vv epoch a D o -> fed k vv epoch D o e getEvent vectorIndex fuel efuel ->
  exists o', Indexed_Process callback fuel efuel getEvent vectorIndex o e = Ok (None, o') /\
    (epochs_run k vv epoch a (<[e_id e := e]> D) o' \/
     exists nv, epochs_run (S k) nv (u32 (epoch + 1)) (o_user o').2 ∅ o').
Proof.
  intros Hrun Hfed. destruct (fed_step _ _ _ _ _ _ _ _ _ _ _ (epochs_run_ok _ _ _ _ _ _ Hrun) Hfed)
    as (o' & Ho & [[Hop _]|(s & nv & Hop & Hg & _)]); exists o'; (split; [done|]); [left; by eapply epochs_process|right].
  exists nv. eapply epochs_seal; try done. rewrite Hop. apply next_epoch_other.
Qed.

Lemma epochs_restarted k vv epoch a D o s' vi0 getEvent vectorIndex fuel efuel :
  epochs_run k vv epoch a D o -> restarted (o_store o) s' -> vectorIndex epoch = en_flushed (o_user o).1 ->
  (0 < efuel)%nat -> (forall h x, D !! h = Some x -> e_frame x < Z.of_nat efuel) ->
  exists o', Indexed_Bootstrap fuel efuel getEvent vectorIndex (mk_Orderer s' None (vi0, (o_user o).2)) = Ok o' /\
    epochs_run k vv epoch a D o' /\ (o_user o').2 = (o_user o).2 /\
    st_LastDecidedState (o_store o') = st_LastDecidedState (o_store o) /\
    forall x, GetEventConfirmedOn (o_store o') x = GetEventConfirmedOn (o_store o) x.
Proof.
  intros Hrun Hrs Hvi Hef Htop. destruct (epochs_run_ok _ _ _ _ _ _ Hrun) as [Hop Hsub Hinv _].
  destruct (Hsound _ _ _ _ Hop) as (Hwf & Hne & _).
  destruct (restart_inv vv epoch Hwf Hne (obs k) callback begin a D o s' vi0 getEvent vectorIndex fuel efuel) as (o' & Ho & _ & Ha & Hv & Hl);
    try done; [eapply opens_sound; [exact Hop|apply Hinv|done]|].
  exists o'. split; [done|]. split; [by eapply epochs_restart|]. split; [done|]. split; [done|].
  intros x. unfold GetEventConfirmedOn. by injection Hv as -> _.
Qed.

End epochs.

(** ** Properties *)



(** ** Witnesses: the chain of three events, the block of which ends the epoch *)

Local Abbreviation ChainIL := (Orderer (vecfc_Engine (bytes := BranchesInfo) * list Z) (Cache Z (list RootAndSlot))).

Definition chain_seal : ConsensusCallbacks (list Z) :=
  mk_ConsensusCallbacks _ (Some (fun l _ => l)) (Some (fun l e => l ++ [e_id e])) (Some (fun l => (l, Some solo))).

Definition seal_process (o : ChainIL) (e : BaseEvent) : ChainIL :=
  match Indexed_Process chain_seal 20 5 chain_source no_vectors o e with
  | Ok (None, o') => o'
  | _ => o
  end.
Definition seal_node (n : nat) : ChainIL := foldl seal_process chainIL_start (chain_event <$> (Z.of_nat <$> seq 1 n)).

(** A process started over the databases of another. *)
Definition restart_store (s : Store (Cache Z (list RootAndSlot))) : Store (Cache Z (list RootAndSlot)) :=
  mk_Store (st_LastDecidedState s) (st_EpochState s) None None (mk_Cache 100 0 1000 [] ∅ ∅) (st_dbs s) 0.
Definition seal_vectors (_ : Z) : VecDb HighestBeforeSeq LowestAfterSeq BranchesInfo := en_flushed (o_user (seal_node 2)).1.
Definition seal_restarted : ChainIL :=
  match Indexed_Bootstrap 20 5 chain_source seal_vectors (mk_Orderer (restart_store (o_store (seal_node 2))) None (Engine_Reset solo empty_db, [])) with
  | Ok o => o
  | _ => seal_node 2
  end.

(** The third event decides the first frame and ends the epoch. *)
Example seal_opens : st_EpochState (o_store (seal_node 3)) = Some (mk_EpochState 2 solo) /\ (o_user (seal_node 3)).2 = [101].
Proof. split; vm_compute; reflexivity. Qed.

Definition seal_graph (k : nat) : gmap Z BaseEvent := if (k =? 0)%nat then chain3 else ∅.

Lemma empty_graph_sound n : sound_graph solo n chain_obs ∅.
Proof.
  split; [constructor|by intros a b [ea Ha]; rewrite lookup_empty in Ha|by intros h e; rewrite lookup_empty| |by intros h e; rewrite lookup_empty].
  unfold few_cheaters. rewrite (weight_of_ext solo _ (fun _ => false)); [by vm_compute|].
  intros c _. apply bool_decide_eq_false. by intros (x1 & x2 & e1 & e2 & H1 & _); rewrite lookup_empty in H1.
Qed.

Lemma seal_sound : sound_epochs chain_seal seal_graph solo 1 [] (fun l _ => l) (fun _ => chain_obs).
Proof.
  intros k vv epoch a Ho. assert (vv = solo /\ (k = 0%nat -> epoch = 1)) as [-> He].
  { destruct Ho as [|k vv epoch a ld nv a' _ _ (r & m & a1 & m' & _ & _ & (f & fuel & b & _ & _ & Hb))]; [done|]. by injection Hb as _ <-. }
  split; [apply solo_wf|]. split; [done|]. unfold seal_graph. destruct (k =? 0)%nat eqn:Hk; [|apply empty_graph_sound].
  apply Nat.eqb_eq in Hk. rewrite He by done. apply chain_sound.
Qed.

Lemma seal_fed D (o : ChainIL) (n : nat) : connectable solo 1 D (chain_event (Z.of_nat n)) ->
  <[e_id (chain_event (Z.of_nat n)) := chain_event (Z.of_nat n)]> D ⊆ chain3 ->
  (dfs_fuel D (chain_event (Z.of_nat n)) + confirm_fuel (<[e_id (chain_event (Z.of_nat n)) := chain_event (Z.of_nat n)]> D) <= 20)%nat ->
  match InitBranchesInfo (o_user o).1 with Ok (_, b) => bool_decide (uncapped b) | _ => true end = true ->
  fed seal_graph 0 solo 1 D o (chain_event (Z.of_nat n)) chain_source no_vectors 20 5.
Proof.
  intros Hcon Hsub Hfuel Hcap. split; [done| |intros h x Hx; by eapply lookup_weaken|done| | |done].
  - eapply lookup_weaken; [apply lookup_insert_eq|done].
  - intros h x Hx. eapply lookup_weaken in Hx; [|exact Hsub]. apply chain_lookup in Hx as (m & Hm & _ & ->). simpl. lia.
  - intros vi bi Hi. rewrite Hi in Hcap. by apply bool_decide_eq_true in Hcap.
Qed.

Local Abbreviation seal_run := (epochs_run chain_seal seal_graph solo 1 []).

Lemma seal_run0 : seal_run 0 solo 1 [] ∅ (seal_node 0).
Proof.
  apply (epochs_genesis chain_seal seal_graph solo 1 [] new_Store (Engine_Reset solo empty_db) chain_source no_vectors 20 5);
    [|done|done|lia|vm_compute; reflexivity].
  eapply (roots_inv_caches ∅ new_Store); [done|done|apply new_Store_inv].
Qed.

Lemma seal_fed1 : fed seal_graph 0 solo 1 ∅ (seal_node 0) (chain_event 1) chain_source no_vectors 20 5.
Proof.
  apply (seal_fed ∅ _ 1 chain_con1); [etrans; [apply chain_sub12|apply chain_sub23]|vm_compute; lia|vm_compute; reflexivity].
Qed.
Lemma seal_run1 : seal_run 0 solo 1 [] chain1 (seal_node 1).
Proof. eapply (epochs_process _ _ _ _ _ _ _ _ _ _ _ _ _ _ _ _ _ seal_run0 seal_fed1); vm_compute; reflexivity. Qed.

Lemma seal_fed2 : fed seal_graph 0 solo 1 chain1 (seal_node 1) (chain_event 2) chain_source no_vectors 20 5.
Proof. apply (seal_fed chain1 _ 2 chain_con2); [apply chain_sub23|vm_compute; lia|vm_compute; reflexivity]. Qed.
Lemma seal_run2 : seal_run 0 solo 1 [] chain2 (seal_node 2).
Proof. eapply (epochs_process _ _ _ _ _ _ _ _ _ _ _ _ _ _ _ _ _ seal_run1 seal_fed2); vm_compute; reflexivity. Qed.

Lemma seal_restarts s : restarted s (restart_store s).
Proof. split; try done. by apply empty_cache_wf. Qed.

Lemma chain2_frames h x : chain2 !! h = Some x -> e_frame x < 5.
Proof. intros Hx. eapply lookup_weaken in Hx; [|exact chain_sub23]. apply chain_lookup in Hx as (m & Hm & _ & ->). simpl. lia. Qed.

Lemma seal_run_restarted : seal_run 0 solo 1 [] chain2 seal_restarted.
Proof.
  apply (epochs_restart chain_seal seal_graph solo 1 [] 0 solo 1 [] chain2 (seal_node 2) (restart_store (o_store (seal_node 2)))
    (Engine_Reset solo empty_db) chain_source seal_vectors 20 5 _ seal_run2 (seal_restarts _)); [reflexivity|lia|apply chain2_frames|].
  vm_compute. reflexivity.
Qed.

Lemma seal_fed3 (o : ChainIL) : match InitBranchesInfo (o_user o).1 with Ok (_, b) => bool_decide (uncapped b) | _ => true end = true ->
  fed seal_graph 0 solo 1 chain2 o (chain_event 3) chain_source no_vectors 20 5.
Proof. intros Hcap. apply (seal_fed chain2 o 3 chain_con3); [done|vm_compute; lia|done]. Qed.

Lemma seal_run3 : seal_run 1 solo 2 [101] ∅ (seal_node 3).
Proof.
  refine (epochs_seal chain_seal seal_graph solo 1 [] 0 solo 1 [] chain2 (seal_node 2) (chain_event 3) chain_source no_vectors 20 5
    (seal_node 3) _ solo 2 seal_run2 (seal_fed3 _ _) _ _ _); vm_compute; try reflexivity. done.
Qed.

Lemma seal_run3_restarted : seal_run 1 solo 2 [101] ∅ (seal_process seal_restarted (chain_event 3)).
Proof.
  refine (epochs_seal chain_seal seal_graph solo 1 [] 0 solo 1 [] chain2 seal_restarted (chain_event 3) chain_source no_vectors 20 5
    (seal_process seal_restarted (chain_event 3)) _ solo 2 seal_run_restarted (seal_fed3 _ _) _ _ _); vm_compute; try reflexivity. done.
Qed.



(** ** A start that does decide *)

(** [BootstrapWithOrderer] gives the callbacks to the node when the orderer's
    [Bootstrap] has ended.  Over a store that lacks a decided frame (here the
    state after the third event, with the last decided frame lost) the orderer
    decides it, and the application never hears of the block. *)
Definition undecided_store (s : Store (Cache Z (list RootAndSlot))) : Store (Cache Z (list RootAndSlot)) :=
  mk_Store (Some 0) (st_EpochState s) None None (mk_Cache 100 0 1000 [] ∅ ∅)
    (<[st_open s := mk_EpochDB (t_Roots (epochTable s)) ∅]> (st_dbs s)) 0.

Lemma bootstrap_loses_block :
  match Indexed_Bootstrap 20 5 chain_source (fun _ => en_flushed (o_user (chainIL 3)).1)
      (mk_Orderer (undecided_store (o_store (chainIL 3))) None (Engine_Reset solo empty_db, [] : list Z)) with
  | Ok o => st_LastDecidedState (o_store o) = Some 1 /\ (o_user o).2 = [] /\ GetEventConfirmedOn (o_store o) 101 = 0
  | _ => False
  end.
Proof. vm_compute. done. Qed.
