(* ===== verification/Delivery.v ===== *)
(** * Delivery: the ordering buffer in front of the consensus

    A node of a network is gossip/dagordering/event_buffer.go in front of
    abft/indexed_lachesis.go: [PushEvent] gives the events whose parents are
    known to eventcheck/all.go and then to [IndexedLachesis.Process].  Here the
    two models are put together with the wiring that the repository's callbacks
    are made for: [Get] and [Exists] read the store of events, [Check] runs the
    checkers, [Process] stores the event and gives it to the consensus. *)

From S2P Require Import Prelude Bytes Pos Dag Wlru EventBuffer VecFC VecEngine VecCorrect VecBranches Kvdb ForklessCause Election ElectionSafety.
From S2P Require Import AbftStore Frames Abft AbftFrames Consensus Agreement Blocks Node.
Local Open Scope go_scope.

Lemma mapM_lookup_weaken (D D' : gmap Z BaseEvent) (l : list Z) (ps : list BaseEvent) :
  D ⊆ D' -> mapM (fun h => D !! h) l = Some ps -> mapM (fun h => D' !! h) l = Some ps.
Proof.
  intros Hsub Hm. apply mapM_Some in Hm. apply mapM_Some. eapply Forall2_impl; [exact Hm|].
  simpl. intros h e He. by eapply lookup_weaken.
Qed.

(** The checks that an event of a graph passed hold when its parents are found
    in any part of the graph. *)
Lemma dag_checked vv epoch G : dag vv epoch G -> forall D e ps,
  D ⊆ G -> G !! e_id e = Some e -> mapM (fun h => D !! h) (e_parents e) = Some ps -> Checkers_Validate vv epoch e ps = Ok tt.
Proof.
  intros HG D e ps Hsub He Hps. eapply mapM_lookup_weaken in Hps; [|exact Hsub]. clear D Hsub. revert e ps He Hps.
  induction HG as [|G a HG IH [Hf (qs & Hqs & Hc)]]; intros e ps He Hps; [by rewrite lookup_empty in He|].
  assert (G ⊆ <[e_id a := a]> G) as Hsub by by apply insert_subseteq.
  apply lookup_insert_Some in He as [[Hid <-]|[Hne He]].
  - eapply mapM_lookup_weaken in Hqs; [|exact Hsub]. congruence.
  - destruct (dag_event_ok vv epoch G _ e HG He) as [_ _ Hpar _ _ _].
    assert (is_Some (mapM (fun h => G !! h) (e_parents e))) as [rs Hrs].
    { apply mapM_is_Some, Forall_forall. intros p Hp. destruct (Hpar p Hp) as (pe & Hpe & _). by exists pe. }
    pose proof Hrs as Hrs'. eapply mapM_lookup_weaken in Hrs'; [|exact Hsub]. assert (rs = ps) as -> by congruence. by apply IH.
Qed.

Section delivery.
Context (vv : Validators) (epoch : Z).
Context {App C bytes : Type} `{!LossyCache C Z (list RootAndSlot)} `{!LossyCacheLaws C Z (list RootAndSlot)}.
Context `{!BranchesInfoRlp bytes} `{!BranchesInfoRlpLaws bytes}.
Context (callback : ConsensusCallbacks App) (efuel : nat).
Context (vectorIndex : Z -> VecDb HighestBeforeSeq LowestAfterSeq bytes).
Local Abbreviation IL := (Orderer (vecfc_Engine (bytes := bytes) * App) C).
Implicit Types (D G : gmap Z BaseEvent) (o : IL) (ps : list (BaseEvent * string)).

(** ** The node *)

(** The events connected so far and the consensus. *)
Definition node_state : Type := gmap Z BaseEvent * IL.

(** An event that the consensus refuses is not kept. *)
Definition node_Process (u : node_state) (e : BaseEvent) : option string * node_state :=
  let D := <[e_id e := e]> u.1 in
  match Indexed_Process callback (dfs_fuel u.1 e + confirm_fuel D) efuel (fun h => D !! h) vectorIndex u.2 e with
  | Ok (None, o) => (None, (D, o))
  | Ok (Some err, o) => (Some err, (u.1, o))
  | Err err | Panic err => (Some err, u)
  end.

Definition node_Check (u : node_state) (e : BaseEvent) (parents : list BaseEvent) : option string :=
  match Checkers_Validate vv epoch e parents with Ok _ => None | Err err | Panic err => Some err end.

Definition node_callback : Callback node_state := {|
  cb_Process := node_Process;
  cb_Released := true;
  cb_Get u id := u.1 !! id;
  cb_Exists u id := bool_decide (is_Some (u.1 !! id));
  cb_Check := Some node_Check;
  cb_IsImportant := None
|}.

#[export] Instance node_callback_laws : CallbackLaws node_callback.
Proof.
  split; simpl; [done| |]; intros u e.
  - intros s' id. unfold node_Process. destruct (Indexed_Process _ _ _ _ _ _ _) as [[[?|] o]|?|?]; [done| |done..].
    intros [= <-]. cbn. rewrite lookup_insert_is_Some'. naive_solver.
  - intros err s' id. unfold node_Process. by destruct (Indexed_Process _ _ _ _ _ _ _) as [[[?|] o]|?|?]; [intros [= _ <-]|done|intros [= _ <-]..].
Qed.

(** ** The events of a list *)

Definition events_map ps : gmap Z BaseEvent := list_to_map ((fun ep : BaseEvent * string => (e_id ep.1, ep.1)) <$> ps).

Lemma events_map_Some ps id e : events_map ps !! id = Some e -> e_id e = id /\ e ∈ ps.*1.
Proof.
  intros Hl%elem_of_list_to_map_2. apply list_elem_of_fmap in Hl as ([e' peer] & [= -> ->] & Hin). split; [done|].
  apply list_elem_of_fmap. by exists (e', peer).
Qed.

Lemma events_map_in G ps e :
  (forall e, e ∈ ps.*1 -> G !! e_id e = Some e) -> e ∈ ps.*1 -> events_map ps !! e_id e = Some e.
Proof.
  intros Hps He. assert (is_Some (events_map ps !! e_id e)) as [x Hx].
  { apply list_elem_of_fmap in He as ([e' peer] & -> & Hin). destruct (events_map ps !! e_id e') eqn:Hn; [by eexists|].
    apply not_elem_of_list_to_map in Hn. destruct Hn. apply list_elem_of_fmap. exists (e_id e', e'). split; [done|].
    apply list_elem_of_fmap. by exists (e', peer). }
  apply events_map_Some in Hx as Hx2. destruct Hx2 as [Hid Hin]. apply Hps in Hin as H1. apply Hps in He as H2.
  rewrite Hid in H1. congruence.
Qed.

Lemma events_map_sub G ps : (forall e, e ∈ ps.*1 -> G !! e_id e = Some e) -> events_map ps ⊆ G.
Proof.
  intros Hps. apply map_subseteq_spec. intros id e He. apply events_map_Some in He as [<- Hin]. by apply Hps.
Qed.

Lemma events_map_same G ps1 ps2 :
  (forall e, e ∈ ps1.*1 -> G !! e_id e = Some e) -> (forall e, e ∈ ps1.*1 <-> e ∈ ps2.*1) -> events_map ps1 = events_map ps2.
Proof.
  intros Hps Heq. assert (forall e, e ∈ ps2.*1 -> G !! e_id e = Some e) as Hps2 by (intros e ?; by apply Hps, Heq).
  apply map_eq. intros id. apply option_eq. intros e.
  split; intros He; apply events_map_Some in He as [<- Hin]; apply (events_map_in G); try done; by apply Heq.
Qed.

(** ** What a node has after the events of a list *)

Context (Hwf : wf vv) (Hne : SortedIDs vv <> []) (obs : Z -> Z -> bool) (begin : App -> Block -> App).
Context (Hbegin : BeginBlock callback = Some begin) (Hseal : ~ seals callback) (a0 : App).

(** A graph that the validators may build: sound, with few events of validators
    that fork, and frames below the bound of the elections. *)
Record deliverable G : Prop := {
  dl_sound : sound_graph vv epoch obs G;
  dl_forks : (S (cheater_events G) < maxBranchesPerValidator)%nat;
  dl_frames : forall h e, G !! h = Some e -> e_frame e < Z.of_nat efuel
}.

(** The events of [ps] are in the graph and their parents are among them. *)
Record delivered_set G ps : Prop := {
  ds_graph : forall e, e ∈ ps.*1 -> G !! e_id e = Some e;
  ds_parents : forall e p, e ∈ ps.*1 -> p ∈ e_parents e -> exists e', e' ∈ ps.*1 /\ e_id e' = p
}.

Definition node_ok (H : gmap Z BaseEvent) (u : node_state) : Prop := indexed_run vv epoch callback a0 u.1 u.2 /\ u.1 ⊆ H.

Lemma node_accepts G H : deliverable G -> H ⊆ G -> no_refusal node_callback (node_ok H) (fun e => H !! e_id e = Some e).
Proof.
  intros [HG Hfew Hfr] HH [D o] e parents [Hrun Hsub] He Hk Hps. cbn in Hrun, Hsub, Hps.
  assert (D !! e_id e = None) as Hfresh by (destruct (D !! e_id e) eqn:E; [destruct Hk; by eexists|done]).
  assert (D ⊆ G) as HDG by (by etrans). assert (G !! e_id e = Some e) as HGe by (by eapply lookup_weaken).
  assert (Checkers_Validate vv epoch e parents = Ok tt) as Hc by (eapply dag_checked; [apply HG|exact HDG|done|done]).
  assert (connectable vv epoch D e) as Hcon by (split; [exact Hfresh|by exists parents]).
  assert (dag vv epoch D) as Hdag by (clear -Hrun; induction Hrun; by constructor).
  assert (<[e_id e := e]> D ⊆ H) as Hsub' by (by apply insert_subseteq_l).
  assert (<[e_id e := e]> D ⊆ G) as HDG' by (by etrans).
  assert (sound_graph vv epoch obs (<[e_id e := e]> D)) as HD' by (by eapply sound_sub; [done|by apply dag_connect|exact HDG'|done]).
  assert (sound_graph vv epoch obs D) as HD by (by eapply sound_sub; [done|done|exact HDG|done]).
  pose proof (cheater_events_mono D G HDG) as Hce.
  destruct (indexed_run_process vv epoch Hwf Hne obs callback begin Hbegin a0 D o e (fun h => (<[e_id e := e]> D) !! h) vectorIndex
    (dfs_fuel D e + confirm_fuel (<[e_id e := e]> D)) efuel Hseal Hrun HD' Hcon) as (o' & Ho & Hrun'); [done|done| | |].
  - intros h x Hx. apply (Hfr h). by eapply lookup_weaken.
  - apply (run_uncapped vv epoch Hwf Hne obs callback begin Hbegin a0 D o HD Hrun). lia.
  - cbn. unfold node_Check, node_Process. cbn [fst snd]. rewrite Hc, Ho. split; [done|]. by split.
Qed.

(** Whatever the order of [ps], the node ends with these events. *)
Lemma node_delivers G (size : BaseEvent -> Z) (limit : Metric) o ps :
  deliverable G -> indexed_run vv epoch callback a0 ∅ o -> delivered_set G ps ->
  limits_ok limit -> Forall (fun ep => fits_size size limit ep.1) ps ->
  Z.of_nat (length ps) <= Num limit -> wsum (fun ep => size ep.1) ps <= Size limit ->
  exists b, buffer_run node_callback size limit (∅, o) ((fun ep => OpPush ep.1 ep.2) <$> ps) = Ok b /\
    (b_app b).1 = events_map ps /\ indexed_run vv epoch callback a0 (events_map ps) (b_app b).2.
Proof.
  intros HG Hrun [Hps Hpar] Hlim Hsz Hnum Hw. pose proof (events_map_sub G ps Hps) as Hsub.
  pose proof (events_map_in G ps) as Hmap. pose proof (sg_dag _ _ _ _ (dl_sound _ HG)) as Hdag.
  destruct (closed_set_connects node_callback size (node_ok (events_map ps)) (fun e => events_map ps !! e_id e = Some e) limit (∅, o) ps)
    as (b & Hb & [Hr Hs] & _ & Hk); try done.
  - by eapply node_accepts.
  - split; [done|apply map_empty_subseteq].
  - apply Forall_forall. intros [e peer] Hin. apply Hmap; [done|]. apply list_elem_of_fmap. by exists (e, peer).
  - assert (forall e peer, (e, peer) ∈ ps -> e ∈ ps.*1) as Hin1 by (intros e peer ?; apply list_elem_of_fmap; by exists (e, peer)).
    split.
    + intros e peer p Hin Hp. right. destruct (Hpar e p (Hin1 _ _ Hin) Hp) as (e' & ([? peer'] & -> & He')%list_elem_of_fmap & <-). eauto.
    + intros e peer e' peer' Hin Hin' Hp. destruct (dag_event_ok vv epoch G _ e Hdag (Hps e (Hin1 _ _ Hin))) as [_ _ Hpe _ _ _].
      destruct (Hpe _ Hp) as (x & Hx & Hl). rewrite (Hps e' (Hin1 _ _ Hin')) in Hx. injection Hx as <-.
      destruct (dag_event_ok vv epoch G _ e' Hdag (Hps e' (Hin1 _ _ Hin'))) as [(_ & _ & ?) _ _ _ _ _]. lia.
    + intros e peer e' peer' Hin Hin' Hid. pose proof (Hps e (Hin1 _ _ Hin)) as H1. rewrite Hid, (Hps e' (Hin1 _ _ Hin')) in H1. congruence.
  - exists b. split; [done|]. assert ((b_app b).1 = events_map ps) as Heq; [|by rewrite <- Heq].
    apply (anti_symm (⊆)); [done|]. apply map_subseteq_spec. intros id e He. apply events_map_Some in He as He2.
    destruct He2 as [<- ([x peer] & -> & Hin)%list_elem_of_fmap]. destruct (Hk _ _ Hin) as [y Hy]. cbn in Hy, He |- *.
    eapply lookup_weaken in Hs as Hy2; [|exact Hy]. congruence.
Qed.

End delivery.

(** ** Property *)


(** ** Witness: the chain of three events, forwards and backwards *)

Definition chain_pushes : list (BaseEvent * string) :=
  [(chain_event 1, "p"%string); (chain_event 2, "q"%string); (chain_event 2, "p"%string); (chain_event 3, "p"%string)].
Definition chain_pushes_back : list (BaseEvent * string) :=
  [(chain_event 3, "q"%string); (chain_event 2, "p"%string); (chain_event 1, "q"%string)].
Definition chain_limit : Metric := mk_Metric 10 10000.
Definition chain_callback := node_callback solo 1 chain_record 5 no_vectors.

(** The state of the application once the events pushed backwards are connected. *)
Example chain_delivered :
  match buffer_run chain_callback Event_Size chain_limit (∅, chainIL 0) ((fun ep => OpPush ep.1 ep.2) <$> chain_pushes_back) with
  | Ok b => (o_user (b_app b).2).2 = [101]
  | _ => False
  end.
Proof. vm_compute. reflexivity. Qed.

Lemma chain_deliverable : deliverable solo 1 5 chain_obs chain3.
Proof.
  split; [apply chain_sound|vm_compute; lia|]. intros h e He. apply chain_lookup in He as (m & Hm & _ & ->). simpl. lia.
Qed.

Lemma chain_delivered_set : delivered_set chain3 chain_pushes.
Proof.
  split.
  - intros e Hin. cbn in Hin. list_cases; subst; vm_compute; reflexivity.
  - intros e p Hin Hp. cbn in Hin. list_cases; subst; cbn in Hp; list_cases; subst;
      [exists (chain_event 1)|exists (chain_event 1)|exists (chain_event 2)]; (split; [cbn; set_solver|done]).
Qed.

