(* ===== verification/TestDag.v ===== *)
(** * inter/dag/tdag: sorted and random graphs of events

    events.go, event.go, serialization.go and test_common.go: the topological
    order of a list of events and the generator of random events with forks,
    from which the tests of the consensus are made.  SHA-256, RLP and the
    source of random numbers are parameters. *)

From S2P Require Import Prelude Bytes Pos Dag.
Local Open Scope go_scope.

(** ** events.go *)

(** The first event whose parents, where they are among the events, are ready,
    and the others in their order. *)
Fixpoint find_ready (exists_ ready : gset Z) (unsorted : list BaseEvent) : option (BaseEvent * list BaseEvent) :=
  match unsorted with
  | [] => None
  | e :: l =>
      if forallb (fun p => negb (bool_decide (p ∈ exists_) && negb (bool_decide (p ∈ ready)))) (e_parents e) then Some (e, l)
      else match find_ready exists_ ready l with
           | Some (e', l') => Some (e', e :: l')
           | None => None
           end
  end.

(** A turn that finds no event changes nothing, so that the loop does not end:
    it has no result then, as when the fuel, a unit per event, is short. *)
Fixpoint ByParents_loop (fuel : nat) (exists_ ready : gset Z) (unsorted res : list BaseEvent) : option (list BaseEvent) :=
  match unsorted, fuel with
  | [], _ => Some res
  | _, O => None
  | _, S fuel =>
      match find_ready exists_ ready unsorted with
      | None => None
      | Some (e, l) => ByParents_loop fuel exists_ ({[e_id e]} ∪ ready) l (res ++ [e])
      end
  end.

Definition ByParents (ee : list BaseEvent) : option (list BaseEvent) :=
  ByParents_loop (length ee) (list_to_set (e_id <$> ee)) ∅ ee [].

(** Parents before children. *)
Definition parents_first (ee res : list BaseEvent) : Prop :=
  forall pre e post p, res = pre ++ e :: post -> p ∈ e_parents e -> p ∈ e_id <$> ee -> p ∈ e_id <$> pre.

Lemma find_ready_spec ex rd l e l' : find_ready ex rd l = Some (e, l') ->
  l ≡ₚ e :: l' /\ forall p, p ∈ e_parents e -> p ∈ ex -> p ∈ rd.
Proof.
  revert l'. induction l as [|x l IH]; intros l' Hf; [done|]. cbn [find_ready] in Hf.
  destruct (forallb _ (e_parents x)) eqn:Hx.
  - injection Hf as <- <-. split; [done|]. intros p Hp Hex. rewrite forallb_forall in Hx. specialize (Hx p (proj1 (list_elem_of_In _ _) Hp)).
    apply negb_true_iff, andb_false_iff in Hx as [Hx|Hx]; [by apply bool_decide_eq_false in Hx|].
    by apply negb_false_iff, bool_decide_eq_true in Hx.
  - destruct (find_ready ex rd l) as [[e' l2]|]; [|done]. injection Hf as <- <-. destruct (IH l2 eq_refl) as [Hp Hr]. split; [|done].
    rewrite Hp. apply Permutation_swap.
Qed.

Lemma find_ready_some ex rd l e : e ∈ l -> (forall p, p ∈ e_parents e -> p ∈ ex -> p ∈ rd) -> find_ready ex rd l <> None.
Proof.
  intros He Hr. induction l as [|x l IH]; [by apply not_elem_of_nil in He|]. cbn [find_ready].
  destruct (forallb _ (e_parents x)) eqn:Hx; [done|]. apply elem_of_cons in He as [<-|He].
  - exfalso. apply not_true_iff_false in Hx. apply Hx. apply forallb_forall. intros p Hp%list_elem_of_In. apply negb_true_iff, andb_false_iff.
    destruct (decide (p ∈ ex)) as [Hex|Hex]; [right|left]; [|by apply bool_decide_eq_false].
    apply negb_false_iff, bool_decide_eq_true. by apply Hr.
  - specialize (IH He). by destruct (find_ready ex rd l) as [[? ?]|].
Qed.

(** What the loop has put in order so far. *)
Lemma ByParents_loop_spec ee fuel : forall ready unsorted res out,
  ready = list_to_set (e_id <$> res) -> res ++ unsorted ≡ₚ ee -> parents_first ee res ->
  ByParents_loop fuel (list_to_set (e_id <$> ee)) ready unsorted res = Some out -> out ≡ₚ ee /\ parents_first ee out.
Proof.
  induction fuel as [|fuel IH]; intros ready unsorted res out Hrd Hp Hf Hl.
  - destruct unsorted; [|done]. injection Hl as <-. by rewrite app_nil_r in Hp.
  - destruct unsorted as [|u us]; [injection Hl as <-; by rewrite app_nil_r in Hp|]. cbn [ByParents_loop] in Hl.
    destruct (find_ready _ ready (u :: us)) as [[e l]|] eqn:He; [|done]. destruct (find_ready_spec _ _ _ _ _ He) as [Hperm Hr].
    apply (IH _ _ _ _) in Hl; [done| | |].
    + rewrite Hrd, fmap_app, list_to_set_app_L. cbn. set_solver.
    + by rewrite <- app_assoc, <- Hp, Hperm.
    + intros pre x post p Heq Hpx Hpe. destruct (decide (post = [])) as [->|Hpost].
      * apply app_inj_2 in Heq as [<- [= ->]]; [|done]. specialize (Hr p Hpx). rewrite Hrd in Hr. set_solver.
      * destruct (exists_last Hpost) as (post' & y & ->). rewrite app_comm_cons, app_assoc in Heq.
        apply app_inj_2 in Heq as [-> _]; [|done]. by apply (Hf pre x post').
Qed.

(** With a rank that parents decrease, a turn always finds an event. *)
Lemma ByParents_loop_ends ee (rank : BaseEvent -> nat) fuel :
  (forall e p e', e ∈ ee -> p ∈ e_parents e -> e' ∈ ee -> e_id e' = p -> (rank e' < rank e)%nat) ->
  forall ready unsorted res, ready = list_to_set (e_id <$> res) -> res ++ unsorted ≡ₚ ee -> (length unsorted <= fuel)%nat ->
  ByParents_loop fuel (list_to_set (e_id <$> ee)) ready unsorted res <> None.
Proof.
  intros Hrank. induction fuel as [|fuel IH]; intros ready unsorted res Hrd Hp Hlen; [by destruct unsorted; [|cbn in Hlen; lia]|].
  destruct unsorted as [|u us]; [done|]. cbn [ByParents_loop].
  assert (exists m, m ∈ u :: us /\ forall x, x ∈ u :: us -> (rank m <= rank x)%nat) as (m & Hm & Hmin).
  { clear. revert u. induction us as [|y us IH]; intros u; [exists u; split; [by left|]; intros x Hx; list_cases; by subst|].
    destruct (IH y) as (m & Hm & Hmin). destruct (decide (rank u <= rank m)%nat).
    - exists u. split; [by left|]. intros x [->|Hx]%elem_of_cons; [done|]. specialize (Hmin x Hx). lia.
    - exists m. split; [by right|]. intros x [->|Hx]%elem_of_cons; [lia|by apply Hmin]. }
  destruct (find_ready _ ready (u :: us)) as [[e l]|] eqn:He.
  - destruct (find_ready_spec _ _ _ _ _ He) as [Hperm _]. apply IH.
    + rewrite Hrd, fmap_app, list_to_set_app_L. cbn. set_solver.
    + by rewrite <- app_assoc, <- Hp, Hperm.
    + apply Permutation_length in Hperm. cbn in *. lia.
  - exfalso. apply (find_ready_some (list_to_set (e_id <$> ee)) ready (u :: us) m Hm); [|done].
    intros p Hpm Hex. apply elem_of_list_to_set, list_elem_of_fmap in Hex as (e' & -> & Hin).
    assert (m ∈ ee) as Hme by (rewrite <- Hp; set_solver). pose proof (Hrank m _ e' Hme Hpm Hin eq_refl) as Hlt.
    rewrite <- Hp in Hin. apply elem_of_app in Hin as [Hin|Hin]; [|specialize (Hmin e' Hin); lia]. rewrite Hrd. apply elem_of_list_to_set. by apply list_elem_of_fmap_2.
Qed.

(** A list of events, no two of which are each other's ancestors, is put in
    an order with parents before children, and all of it; what [ByParents]
    returns is such an order in any case. *)
Theorem ByParents_correct (ee : list BaseEvent) (rank : BaseEvent -> nat) :
  (forall e p e', e ∈ ee -> p ∈ e_parents e -> e' ∈ ee -> e_id e' = p -> (rank e' < rank e)%nat) ->
  exists res, ByParents ee = Some res /\ res ≡ₚ ee /\ parents_first ee res.
Proof.
  intros Hrank. destruct (ByParents ee) as [res|] eqn:Hb.
  - exists res. split; [done|]. apply (ByParents_loop_spec ee (length ee) ∅ ee []); [done|done| |done]. by intros [] ? ? ? [=].
  - by destruct (ByParents_loop_ends ee rank (length ee) Hrank ∅ ee []).
Qed.

(** ** event.go, serialization.go, test_common.go *)

(** A [TestEvent] is an event and its name, a list of runes. *)
Record TestEvent := mk_TestEvent { te_event : BaseEvent; te_Name : list Z }.

Definition AddParent (e : BaseEvent) (id : Z) : BaseEvent := SetParents e (e_parents e ++ [id]).

(** serialization.go: what is encoded, all of it; an error of the encoding leaves
    nothing. *)
Record TestEventMarshaling := mk_TestEventMarshaling {
  tm_Epoch : Z; tm_Seq : Z; tm_Frame : Z; tm_Creator : Z; tm_Parents : list Z; tm_Lamport : Z; tm_ID : Z; tm_Name : list Z
}.
Definition marshaled (e : TestEvent) : TestEventMarshaling :=
  let b := te_event e in
  mk_TestEventMarshaling (e_epoch b) (e_seq b) (e_frame b) (e_creator b) (e_parents b) (e_lamport b) (e_id b) (te_Name e).
Definition TestEvent_Bytes (EncodeToBytes : TestEventMarshaling -> outcome (list Z)) (e : TestEvent) : list Z :=
  match EncodeToBytes (marshaled e) with Ok b => b | _ => [] end.

Lemma TestEvent_Bytes_inj EncodeToBytes e1 e2 :
  (forall m, exists b, EncodeToBytes m = Ok b) -> (forall m1 m2 b, EncodeToBytes m1 = Ok b -> EncodeToBytes m2 = Ok b -> m1 = m2) ->
  TestEvent_Bytes EncodeToBytes e1 = TestEvent_Bytes EncodeToBytes e2 -> e1 = e2.
Proof.
  intros Hok Hinj He. unfold TestEvent_Bytes in He. destruct (Hok (marshaled e1)) as [b1 H1], (Hok (marshaled e2)) as [b2 H2].
  rewrite H1, H2 in He. subst b2. pose proof (Hinj _ _ _ H1 H2) as Hm. destruct e1 as [[] n1], e2 as [[] n2]. by injection Hm as ????????; subst.
Qed.

(** [ByParents] of test events, by their names in the result. *)
Definition TestEvents_ByParents (ee : list TestEvent) : option (list BaseEvent) := ByParents (te_event <$> ee).

(** [fmt.Sprintf("%03d", n)] *)
Fixpoint digits (fuel : nat) (n : Z) : list Z :=
  match fuel with
  | O => []
  | S fuel => if n <? 10 then [48 + n] else digits fuel (n / 10) ++ [48 + n mod 10]
  end.
Definition pad3 (n : Z) : list Z := let d := digits (S (Z.to_nat n)) n in replicate (3 - length d) 48 ++ d.

(** [fmt.Sprintf("%s%03d", string('a'+rune(self)), n)] *)
Definition event_name (self n : nat) : list Z := (97 + Z.of_nat self) :: pad3 (Z.of_nat n).

Section generator.
(** math/rand, the bytes of a test event and the digest of bytes. *)
Context {R : Type} (Perm : R -> nat -> list nat * R) (Intn : R -> Z -> Z * R).
Context (Bytes : TestEvent -> list Z) (Sum : list Z -> list Z).
(** The callbacks, on a state of their user; an error of [Build] is [None]. *)
Context {App : Type} (Build : option (App -> BaseEvent -> list Z -> option BaseEvent * App)).
Context (Process : App -> BaseEvent -> list Z -> App).

(** The id from the digest of the event without one. *)
Definition with_hash (e : BaseEvent) (name : list Z) : BaseEvent := SetID e (take 24 (Sum (Bytes (mk_TestEvent e name)))).

Record gen := mk_gen {
  g_rand : R;
  g_app : App;
  g_events : gmap Z (list BaseEvent);
  g_cheaters : gmap Z Z
}.

Fixpoint remove_first (n : nat) (l : list nat) : list nat :=
  match l with [] => [] | x :: l => if (x =? n)%nat then l else x :: remove_first n l end.

(** [parents[:parentCount-1]] after the removal of [self]: the array behind the
    slice keeps its length, and its last element. *)
Definition other_columns (perm : list nat) (self : nat) (parentCount : Z) : outcome (list nat) :=
  let l := remove_first self perm in
  let backing := l ++ drop (length l) perm in
  if (0 <=? parentCount - 1) && (parentCount - 1 <=? Z.of_nat (length backing)) then Ok (take (Z.to_nat (parentCount - 1)) backing)
  else Panic "slice bounds out of range".

(** The event before, with the chance of a fork. *)
Definition choose_parent (eventCount forksCount : Z) (nodeCount i : nat) (creator : Z) (g : gen) : outcome (option BaseEvent * gen) :=
  let ee := default [] (g_events g !! creator) in
  match last ee with
  | None => Ok (None, g)
  | Some parent =>
      let forksAlready := default 0 (g_cheaters g !! creator) in
      let isCheater := bool_decide (is_Some (g_cheaters g !! creator)) in
      let len := Z.of_nat (length ee) in
      let '(flip, r) := Intn (g_rand g) eventCount in
      let forkFlipped := (flip <=? forksCount) || (Z.of_nat i <? (Z.of_nat nodeCount - 1) * eventCount) in
      if isCheater && (1 <? len) && (forksAlready <? forksCount) && forkFlipped then
        let '(k, r) := Intn r (len - 1) in
        let* parent := index ee (Z.to_nat k) in
        let '(z, r) := Intn r len in
        Ok (if z =? 0 then None else Some parent, mk_gen r (g_app g) (g_events g) (<[creator := forksAlready + 1]> (g_cheaters g)))
      else Ok (Some parent, mk_gen r (g_app g) (g_events g) (g_cheaters g))
  end.

Definition first_parent (e : BaseEvent) (parent : option BaseEvent) : BaseEvent :=
  match parent with
  | None => SetLamport (SetSeq e 1) 1
  | Some p => SetLamport (AddParent (SetSeq e (u32 (e_seq p + 1))) (e_id p)) (u32 (e_lamport p + 1))
  end.

(** The last event of another node. *)
Definition other_parent (nodes : list Z) (events : gmap Z (list BaseEvent)) (e : BaseEvent) (other : nat) : outcome BaseEvent :=
  let* node := index nodes other in
  Ok (match last (default [] (events !! node)) with
      | None => e
      | Some p =>
          let e := AddParent e (e_id p) in
          if e_lamport e <=? e_lamport p then SetLamport e (u32 (e_lamport p + 1)) else e
      end).

Definition new_event (creator : Z) : BaseEvent := mk_BaseEvent 0 0 0 creator [] 0 0.

Definition rand_event (nodes : list Z) (eventCount parentCount forksCount : Z) (g : gen) (i : nat) : outcome gen :=
  let nodeCount := length nodes in
  let self := (i mod nodeCount)%nat in
  let* creator := index nodes self in
  let '(perm, r) := Perm (g_rand g) nodeCount in
  let* parents := other_columns perm self parentCount in
  let* ' (parent, g) := choose_parent eventCount forksCount nodeCount i creator (mk_gen r (g_app g) (g_events g) (g_cheaters g)) in
  let* e := foldM (other_parent nodes (g_events g)) (first_parent (new_event creator) parent) parents in
  let ee := default [] (g_events g !! creator) in
  let name := event_name self (length ee) in
  let '(built, app) := match Build with None => (Some e, g_app g) | Some build => build (g_app g) e name end in
  match built with
  | None => Ok (mk_gen (g_rand g) app (g_events g) (g_cheaters g))
  | Some e =>
      let e := with_hash e name in
      Ok (mk_gen (g_rand g) (Process app e name) (<[creator := ee ++ [e]]> (g_events g)) (g_cheaters g))
  end.

Definition ForEachRandFork (nodes cheatersArr : list Z) (eventCount parentCount forksCount : Z) (r : R) (app : App) : outcome gen :=
  foldM (rand_event nodes eventCount parentCount forksCount)
    (mk_gen r app ∅ (list_to_map ((fun c => (c, 0)) <$> cheatersArr)))
    (seq 0 (Z.to_nat (Z.of_nat (length nodes) * eventCount))).

Definition ForEachRandEvent (nodes : list Z) (eventCount parentCount : Z) (r : R) (app : App) : outcome gen :=
  ForEachRandFork nodes [] eventCount parentCount 0 r app.

Definition delPeerIndex (events : gmap Z (list BaseEvent)) (order : list Z) : list BaseEvent := concat ((fun n => default [] (events !! n)) <$> order).

End generator.

(** ** The generated events are a graph that the checks accept *)

Section generated.
Context {R : Type} (Perm : R -> nat -> list nat * R) (Intn : R -> Z -> Z * R).
Context (Bytes : TestEvent -> list Z) (Sum : list Z -> list Z).
Context {App : Type} (build : App -> BaseEvent -> list Z -> option BaseEvent * App) (Process : App -> BaseEvent -> list Z -> App).
Context (vv : Validators) (epoch : Z) (nodes cheatersArr : list Z) (eventCount parentCount forksCount : Z).

(** The random numbers are in range, the 24 bytes taken of the digests tell the
    generated names apart, and [Build] fills in the epoch and the frame. *)
Record generator_ok : Prop := {
  go_Perm r n : (Perm r n).1 ≡ₚ seq 0 n;
  go_Intn r n : 0 < n -> 0 <= (Intn r n).1 < n;
  go_bytes b : length (take 24 (Sum b)) = 24%nat /\ Forall is_byte (take 24 (Sum b));
  go_names s1 n1 s2 n2 e1 e2 : (s1 < length nodes)%nat -> (s2 < length nodes)%nat ->
    Z.of_nat n1 < Z.of_nat (length nodes) * eventCount -> Z.of_nat n2 < Z.of_nat (length nodes) * eventCount ->
    take 24 (Sum (Bytes (mk_TestEvent e1 (event_name s1 n1)))) = take 24 (Sum (Bytes (mk_TestEvent e2 (event_name s2 n2)))) -> s1 = s2 /\ n1 = n2;
  go_Build a e name e' : (build a e name).1 = Some e' -> exists f, 0 < f < MaxInt32 - 1 /\ e' = SetFrame (SetEpoch e epoch) f
}.

Record setting_ok : Prop := {
  so_nodes : NoDup nodes;
  so_group c : c ∈ nodes -> is_Some (values vv !! c);
  so_epoch : 0 < epoch < MaxInt32 - 1;
  so_parents : 1 <= parentCount <= Z.of_nat (length nodes);
  so_count : Z.of_nat (length nodes) * eventCount < MaxInt32 - 2
}.

Context (Hgen : generator_ok) (Hset : setting_ok).

Abbreviation evs g c := (default [] (g_events g !! c)).

Record gen_inv (D : gmap Z BaseEvent) (g : gen (R := R) (App := App)) (n : nat) : Prop := {
  gi_dag : dag vv epoch D;
  gi_events c e : e ∈ evs g c -> D !! e_id e = Some e /\ e_creator e = c /\ c ∈ nodes;
  gi_graph h e : D !! h = Some e -> e ∈ evs g (e_creator e);
  gi_names s c k e : nodes !! s = Some c -> evs g c !! k = Some e ->
    exists e0, e_id e = make_id epoch (e_lamport e) (take 24 (Sum (Bytes (mk_TestEvent e0 (event_name s k)))));
  gi_bounds c e : e ∈ evs g c -> 0 < e_lamport e <= Z.of_nat n /\ 0 < e_seq e <= Z.of_nat n;
  gi_length c : (length (evs g c) <= n)%nat;
  gi_honest c k e : c ∉ cheatersArr -> evs g c !! k = Some e -> e_seq e = Z.of_nat k + 1;
  gi_cheaters c : is_Some (g_cheaters g !! c) -> c ∈ cheatersArr
}.

(** *** The parents of a new event *)

Definition other_event (events : gmap Z (list BaseEvent)) (other : nat) : option BaseEvent :=
  node ← nodes !! other; last (default [] (events !! node)).

Lemma others_fold events cols (b : Z) : b + 1 < 2 ^ 32 ->
  (forall o p, o ∈ cols -> other_event events o = Some p -> 0 < e_lamport p <= b) -> (forall o, o ∈ cols -> (o < length nodes)%nat) ->
  forall e, exists e', foldM (other_parent nodes events) e cols = Ok e' /\
    e' = SetLamport (SetParents e (e_parents e ++ (e_id <$> omap (other_event events) cols)))
           (foldr (fun p m => Z.max (e_lamport p + 1) m) (e_lamport e) (reverse (omap (other_event events) cols))).
Proof.
  intros Hb Hev Hcols. induction cols as [|o cols IH]; intros e.
  - exists e. split; [done|]. cbn. rewrite app_nil_r. by destruct e.
  - destruct (lookup_lt_is_Some_2 nodes o ltac:(apply Hcols; left)) as [node Hnode]. cbn [foldM]. unfold other_parent at 1, index. rewrite Hnode. cbn [outcome_bind].
    assert (other_event events o = last (default [] (events !! node))) as Ho by (unfold other_event; by rewrite Hnode).
    rewrite <- Ho. cbn [omap list_omap]. destruct (other_event events o) as [p|] eqn:Hp; cbn [outcome_bind].
    + destruct (Hev o p ltac:(left) Hp) as [Hp0 Hpb].
      destruct (IH ltac:(intros o' p' Hin; apply Hev; by right) ltac:(intros o' Hin; apply Hcols; by right)
        (let e := AddParent e (e_id p) in if e_lamport e <=? e_lamport p then SetLamport e (u32 (e_lamport p + 1)) else e)) as (e' & He' & Heq).
      exists e'. split; [exact He'|]. rewrite Heq. rewrite u32_small by (unfold is_u32; lia). clear. cbn [AddParent e_lamport SetParents].
      rewrite reverse_cons, foldr_app. cbn [foldr fmap list_fmap]. destruct (Z.leb_spec (e_lamport e) (e_lamport p)).
      * rewrite Z.max_l by lia. unfold SetLamport, SetParents, AddParent. cbn. by rewrite <- app_assoc.
      * rewrite Z.max_r by lia. unfold SetLamport, SetParents, AddParent. cbn. by rewrite <- app_assoc.
    + apply IH; [intros o' p' Hin; apply Hev; by right|intros o' Hin; apply Hcols; by right].
Qed.

Lemma foldr_max_next l : forall b, 0 <= b ->
  foldr (fun p m => Z.max (e_lamport p + 1) m) (b + 1) (reverse l) = Z.max b (foldr (fun p m => Z.max (e_lamport p) m) 0 l) + 1.
Proof.
  induction l as [|p l IH]; intros b Hb; [cbn; lia|]. rewrite reverse_cons, foldr_app. cbn [foldr].
  replace (Z.max (e_lamport p + 1) (b + 1)) with (Z.max (e_lamport p) b + 1) by lia. rewrite IH by lia. lia.
Qed.

Lemma foldr_max_nonneg (l : list BaseEvent) : 0 <= foldr (fun p m => Z.max (e_lamport p) m) 0 l.
Proof. induction l as [|p l IH]; cbn [foldr]; [done|]. etrans; [exact IH|apply Z.le_max_r]. Qed.

(** The last events of other nodes are by different creators. *)
Lemma others_creators D g n cols : gen_inv D g n -> NoDup cols ->
  NoDup (e_creator <$> omap (other_event (g_events g)) cols) /\
  (forall x, x ∈ omap (other_event (g_events g)) cols -> exists o, o ∈ cols /\ nodes !! o = Some (e_creator x) /\ x ∈ evs g (e_creator x)).
Proof.
  intros Hg. assert (forall o x, other_event (g_events g) o = Some x -> nodes !! o = Some (e_creator x) /\ x ∈ evs g (e_creator x)) as Ho.
  { intros o x Hx. unfold other_event in Hx. destruct (nodes !! o) as [node|]; [|done]. cbn in Hx.
    assert (x ∈ evs g node) as Hin by (apply last_Some in Hx as [l ->]; set_solver).
    destruct (gi_events _ _ _ Hg node x Hin) as (_ & <- & _). done. }
  induction 1 as [|o cols Hno Hnd [IH1 IH2]]; [split; [constructor|by intros x ?%not_elem_of_nil]|]. cbn [omap list_omap].
  destruct (other_event (g_events g) o) as [p|] eqn:Hp.
  - destruct (Ho o p Hp) as [Hn Hin]. split.
    + cbn. apply NoDup_cons. split; [|done]. intros (x & Hc & Hx)%list_elem_of_fmap. destruct (IH2 x Hx) as (o' & Ho' & Hn' & _).
      rewrite Hc in Hn. apply Hno. by rewrite (NoDup_lookup nodes o o' (e_creator x) (so_nodes Hset) Hn Hn').
    + intros x [->|Hx]%elem_of_cons; [exists o; split; [by left|done]|]. destruct (IH2 x Hx) as (o' & ? & ?). exists o'. split; [by right|done].
  - split; [done|]. intros x Hx. destruct (IH2 x Hx) as (o' & ? & ?). exists o'. split; [by right|done].
Qed.

(** *** The event before it *)

Lemma choose_parent_ok D g n (creator : Z) (nodeCount i : nat) : gen_inv D g n ->
  exists parent r ch, choose_parent Intn eventCount forksCount nodeCount i creator g = Ok (parent, mk_gen r (g_app g) (g_events g) ch) /\
    (forall p, parent = Some p -> p ∈ evs g creator) /\ (forall c, is_Some (ch !! c) -> c ∈ cheatersArr) /\
    (creator ∉ cheatersArr -> parent = last (evs g creator)).
Proof.
  intros Hg. unfold choose_parent. destruct (last (evs g creator)) as [p|] eqn:Hl.
  2:{ exists None, (g_rand g), (g_cheaters g). split; [by destruct g|]. split; [done|]. split; [apply Hg|done]. }
  assert (p ∈ evs g creator) as Hp by (apply last_Some in Hl as [l ->]; set_solver).
  destruct (Intn (g_rand g) eventCount) as [flip r]. destruct (_ && _ && _ && _) eqn:Hc.
  2:{ exists (Some p), r, (g_cheaters g). split; [done|]. split; [by intros ? [= <-]|]. split; [apply Hg|done]. }
  bool_to_prop. destruct Hc as (((Hch & Hlen) & _) & _). apply bool_decide_eq_true in Hch. pose proof (gi_cheaters _ _ _ Hg _ Hch) as Hin.
  assert (0 < Z.of_nat (length (evs g creator)) - 1) as Hpos by (by apply Z.lt_0_sub). pose proof (go_Intn Hgen r _ Hpos) as Hk.
  destruct (Intn r _) as [k r2]. cbn [fst] in Hk. destruct (lookup_lt_is_Some_2 (evs g creator) (Z.to_nat k) ltac:(lia)) as [q Hq].
  unfold index. rewrite Hq. cbn [outcome_bind]. destruct (Intn r2 _) as [z r3]. do 3 eexists. split; [done|]. split; [|split; [|done]].
  - intros x Hx. destruct (z =? 0); [done|]. injection Hx as <-. by eapply list_elem_of_lookup_2.
  - intros c [x [(<- & _)|[_ Hc]]%lookup_insert_Some]; [done|]. apply Hg. by eexists.
Qed.

Lemma remove_first_perm self l : self ∈ l -> l ≡ₚ self :: remove_first self l.
Proof.
  induction l as [|x l IH]; intros Hs; [by apply not_elem_of_nil in Hs|]. cbn. destruct (Nat.eqb_spec x self) as [->|Hne]; [done|].
  apply elem_of_cons in Hs as [->|Hs]; [done|]. rewrite (IH Hs) at 1. apply Permutation_swap.
Qed.

Lemma other_columns_ok perm self : perm ≡ₚ seq 0 (length nodes) -> (self < length nodes)%nat ->
  exists cols, other_columns perm self parentCount = Ok cols /\ NoDup cols /\ forall o, o ∈ cols -> (o < length nodes)%nat /\ o <> self.
Proof.
  intros Hp Hself. assert (NoDup perm) as Hnd by (rewrite Hp; apply NoDup_seq).
  assert (forall o, o ∈ perm <-> (o < length nodes)%nat) as Hin by (intros o; rewrite Hp, elem_of_seq; lia).
  pose proof (remove_first_perm self perm (proj2 (Hin self) Hself)) as Hrm. pose proof (Permutation_length Hp) as Hlen. rewrite length_seq in Hlen.
  pose proof (Permutation_length Hrm) as Hlen2. cbn [length] in Hlen2. pose proof (so_parents Hset) as Hpc.
  rewrite Hrm in Hnd. apply NoDup_cons in Hnd as [Hno Hnd]. unfold other_columns.
  set (backing := remove_first self perm ++ drop (length (remove_first self perm)) perm).
  assert (length backing = length perm) as Hb by (unfold backing; rewrite length_app, length_drop; lia).
  rewrite (proj2 (andb_true_iff _ _)) by (rewrite Hb; split; apply Z.leb_le; lia). eexists. split; [done|].
  assert (take (Z.to_nat (parentCount - 1)) backing = take (Z.to_nat (parentCount - 1)) (remove_first self perm)) as ->.
  { unfold backing. apply take_app_le. lia. }
  split; [exact (sublist_NoDup _ _ Hnd (sublist_take _ _))|]. intros o Ho. assert (o ∈ remove_first self perm) as Ho' by (apply elem_of_take in Ho as (i & Ho & _); by eapply list_elem_of_lookup_2).
  split; [apply Hin; rewrite Hrm; by right|by intros ->].
Qed.

(** *** The new event passes the checks *)

Section new_event.
Context (D : gmap Z BaseEvent) (g : gen (R := R) (App := App)) (n s : nat) (creator : Z) (parent : option BaseEvent) (cols : list nat).
Context (Hg : gen_inv D g n) (Hs : nodes !! s = Some creator) (Hn : Z.of_nat n < Z.of_nat (length nodes) * eventCount).
Context (Hparent : forall p, parent = Some p -> p ∈ evs g creator) (Hcols : NoDup cols) (Hout : forall o, o ∈ cols -> (o < length nodes)%nat /\ o <> s).

Definition new_parents : list BaseEvent := option_list parent ++ omap (other_event (g_events g)) cols.
Definition new_seq : Z := match parent with Some p => e_seq p + 1 | None => 1 end.
Definition new_lamport : Z := foldr (fun p m => Z.max (e_lamport p) m) 0 new_parents + 1.

Lemma others_foreign x : x ∈ omap (other_event (g_events g)) cols -> e_creator x <> creator.
Proof.
  intros Hx Hc. destruct (others_creators D g n cols Hg Hcols) as [_ Hin]. destruct (Hin x Hx) as (o & Ho & Hno & _). rewrite Hc in Hno.
  destruct (Hout o Ho) as [_ Hne]. apply Hne. apply (NoDup_lookup nodes o s creator); [apply Hset|done|done].
Qed.

Lemma new_parents_in x : x ∈ new_parents -> x ∈ evs g (e_creator x) /\ D !! e_id x = Some x /\ 0 < e_lamport x <= Z.of_nat n /\ 0 < e_seq x <= Z.of_nat n.
Proof.
  intros Hx. assert (x ∈ evs g (e_creator x)) as Hin.
  { unfold new_parents in Hx. apply elem_of_app in Hx as [Hx|Hx].
    - destruct parent as [p|]; [|by apply not_elem_of_nil in Hx]. apply list_elem_of_singleton in Hx as ->.
      pose proof (Hparent p eq_refl) as Hp. by destruct (gi_events _ _ _ Hg _ _ Hp) as (_ & -> & _).
    - destruct (others_creators D g n cols Hg Hcols) as [_ Hin]. destruct (Hin x Hx) as (o & _ & _ & ?). done. }
  split; [done|]. split; [by apply (gi_events _ _ _ Hg _ _ Hin)|]. by apply (gi_bounds _ _ _ Hg _ _ Hin).
Qed.

Lemma new_creators : NoDup (e_creator <$> new_parents).
Proof.
  unfold new_parents. rewrite fmap_app. destruct (others_creators D g n cols Hg Hcols) as [Hnd _]. destruct parent as [p|] eqn:Hp; [|done]. cbn.
  apply NoDup_cons. split; [|done]. intros (x & Hc & Hx)%list_elem_of_fmap. apply (others_foreign x Hx). rewrite <- Hc.
  pose proof (Hparent p eq_refl) as Hin. by destruct (gi_events _ _ _ Hg _ _ Hin) as (_ & ? & _).
Qed.

Lemma new_ids_inj x y : x ∈ new_parents -> y ∈ new_parents -> e_id x = e_id y -> x = y.
Proof. intros Hx Hy He. destruct (new_parents_in x Hx) as (_ & H1 & _). destruct (new_parents_in y Hy) as (_ & H2 & _). congruence. Qed.

Lemma new_lamport_bound : 0 < new_lamport <= Z.of_nat n + 1.
Proof.
  unfold new_lamport. assert (forall l, (forall x, x ∈ l -> 0 < e_lamport x <= Z.of_nat n) -> 0 <= foldr (fun p m => Z.max (e_lamport p) m) 0 l <= Z.of_nat n) as Hb.
  { induction l as [|x l IH]; intros Hl; cbn; [lia|]. specialize (IH ltac:(intros y Hy; apply Hl; by right)). specialize (Hl x ltac:(left)). lia. }
  specialize (Hb new_parents ltac:(intros x Hx; by apply new_parents_in)). lia.
Qed.

Lemma new_seq_bound : 0 < new_seq <= Z.of_nat n + 1.
Proof.
  unfold new_seq. destruct parent as [p|] eqn:Hp; [|lia]. pose proof (gi_bounds _ _ _ Hg _ _ (Hparent p eq_refl)). lia.
Qed.

Definition new_checked (f id : Z) : BaseEvent := mk_BaseEvent epoch new_seq f creator (e_id <$> new_parents) new_lamport id.

Lemma new_SelfParent f id : SelfParent (new_checked f id) = e_id <$> parent.
Proof.
  unfold SelfParent, new_checked, new_seq, new_parents. cbn [e_seq e_parents]. destruct parent as [p|] eqn:Hp; cbn; [|done].
  pose proof (gi_bounds _ _ _ Hg _ _ (Hparent p eq_refl)). rewrite (proj2 (Z.leb_gt _ _)) by lia. done.
Qed.

Lemma new_checked_event f id : 0 < f < MaxInt32 - 1 -> checked_event vv epoch (new_checked f id) new_parents.
Proof.
  intros Hf. pose proof new_lamport_bound. pose proof new_seq_bound. pose proof (so_count Hset) as Hcount. pose proof (so_epoch Hset).
  pose proof new_ids_inj as Hinj. pose proof others_foreign as Hfor.
  split; rewrite ?new_SelfParent; cbn [new_checked e_seq e_frame e_lamport e_epoch e_creator e_parents].
  - by rewrite length_fmap.
  - lia.
  - done.
  - apply (so_group Hset). by eapply list_elem_of_lookup_2.
  - apply NoDup_fmap_2_strong; [apply new_ids_inj|]. apply (NoDup_fmap_1 e_creator), new_creators.
  - done.
  - intros i p h Hp Hh. rewrite list_lookup_fmap, Hp in Hh. cbn in Hh. injection Hh as <-.
    pose proof (list_elem_of_lookup_2 _ _ _ Hp) as Hin. split.
    + intros Hc. unfold new_parents in Hin. apply elem_of_app in Hin as [Hin|Hin]; [|by apply Hfor in Hin].
      destruct parent as [q|]; [|by apply not_elem_of_nil in Hin]. by apply list_elem_of_singleton in Hin as ->.
    + intros Heq. destruct parent as [q|] eqn:Hq; [|done]. cbn in Heq. injection Heq as Heq.
      assert (q ∈ new_parents) as Hqin by (unfold new_parents; rewrite Hq; by left). rewrite <- (Hinj q p Hqin Hin Heq).
      pose proof (Hparent q eq_refl) as Hqe. by destruct (gi_events _ _ _ Hg _ _ Hqe) as (_ & ? & _).
  - unfold new_seq. destruct parent as [p|] eqn:Hp; cbn; [|done]. pose proof (gi_bounds _ _ _ Hg _ _ (Hparent p eq_refl)). split; [done|lia].
  - unfold new_seq, new_parents. destruct parent as [p|] eqn:Hp; [|done]. intros _. exists p. split; [done|]. split; [done|].
    pose proof (gi_bounds _ _ _ Hg _ _ (Hparent p eq_refl)). rewrite u32_small; [done|]. unfold is_u32, MaxInt32 in *. lia.
Qed.

Lemma new_connectable f id : 0 < f < MaxInt32 - 1 -> D !! id = None -> connectable vv epoch D (new_checked f id).
Proof.
  intros Hf Hid. split; [done|]. exists new_parents. split.
  - apply mapM_Some. cbn. apply Forall2_fmap_l, Forall_Forall2_diag, Forall_forall. intros x Hx. by apply new_parents_in.
  - apply Validate_checked; [|by apply new_checked_event]. apply Forall_forall. intros x Hx. destruct (new_parents_in x Hx) as (_ & _ & Hl & _).
    pose proof (so_count Hset). lia.
Qed.

End new_event.

(** *** One turn *)

Lemma gen_inv_rand D g n r app ch : gen_inv D g n -> (forall c, is_Some (ch !! c) -> c ∈ cheatersArr) ->
  gen_inv D (mk_gen r app (g_events g) ch) n.
Proof. intros [? ? ? ? ? ? ? ?] Hch. by split. Qed.

(** The event as it is made is the one that was checked above. *)
Lemma made_event D g n s creator parent cols f name :
  gen_inv D g n -> nodes !! s = Some creator -> Z.of_nat n < Z.of_nat (length nodes) * eventCount ->
  (forall p, parent = Some p -> p ∈ evs g creator) -> NoDup cols -> (forall o, o ∈ cols -> (o < length nodes)%nat /\ o <> s) ->
  exists e, foldM (other_parent nodes (g_events g)) (first_parent (new_event creator) parent) cols = Ok e /\
    let built := SetFrame (SetEpoch e epoch) f in
    with_hash Bytes Sum built name = new_checked g creator parent cols f
      (make_id epoch (new_lamport g parent cols) (take 24 (Sum (Bytes (mk_TestEvent built name))))).
Proof.
  intros Hg Hs Hn Hp Hnd Hout. pose proof (so_count Hset) as Hcount. pose proof (others_creators D g n cols Hg Hnd) as [_ Hoth].
  destruct (others_fold (g_events g) cols (Z.of_nat n)) with (e := first_parent (new_event creator) parent) as (e & He & Heq).
  - unfold MaxInt32 in *. lia.
  - intros o p Ho Hop. assert (p ∈ omap (other_event (g_events g)) cols) as Hin by (apply list_elem_of_omap; by exists o).
    destruct (Hoth p Hin) as (_ & _ & _ & Hev). by apply (gi_bounds _ _ _ Hg _ _ Hev).
  - intros o Ho. by apply Hout.
  - exists e. split; [done|]. cbn zeta. unfold with_hash, SetID. set (built := SetFrame _ _). unfold new_checked.
    assert (e_lamport e = new_lamport g parent cols /\ e_seq e = new_seq parent /\ e_creator e = creator /\
      e_parents e = e_id <$> new_parents g parent cols) as (Hl & Hsq & Hc & Hpar).
    { rewrite Heq. cbn [SetLamport SetParents e_lamport e_seq e_creator e_parents]. unfold new_lamport, new_seq, new_parents. destruct parent as [p|].
      - pose proof (gi_bounds _ _ _ Hg _ _ (Hp p eq_refl)) as [Hlb Hsb]. cbn [first_parent e_lamport e_seq e_creator e_parents SetLamport SetSeq AddParent SetParents new_event].
        rewrite !u32_small by (unfold is_u32, MaxInt32 in *; lia). rewrite foldr_max_next by lia. by splits.
      - cbn [first_parent e_lamport e_seq e_creator e_parents SetLamport SetSeq new_event]. pose proof (foldr_max_next (omap (other_event (g_events g)) cols) 0) as Hm.
        change (0 + 1) with 1 in Hm. rewrite Hm by lia. cbn [option_list app].
        pose proof (foldr_max_nonneg (omap (other_event (g_events g)) cols)) as H0.
        rewrite Z.max_r by lia. by splits. }
    unfold built. cbn [SetFrame SetEpoch e_epoch e_seq e_frame e_creator e_parents e_lamport]. by rewrite Hl, Hsq, Hc, Hpar.
Qed.

(** The ids tell the generated events apart. *)
Lemma made_fresh D g n s creator lam name e0 : gen_inv D g n -> nodes !! s = Some creator -> Z.of_nat n < Z.of_nat (length nodes) * eventCount ->
  name = event_name s (length (evs g creator)) -> is_u32 lam -> D !! make_id epoch lam (take 24 (Sum (Bytes (mk_TestEvent e0 name)))) = None.
Proof.
  intros Hg Hs Hn -> Hlam. destruct (D !! _) as [x|] eqn:Hx; [|done]. exfalso.
  pose proof (dag_id _ _ _ _ _ (gi_dag _ _ _ Hg) Hx) as Hid. pose proof (gi_graph _ _ _ Hg _ _ Hx) as Hin.
  destruct (gi_events _ _ _ Hg _ _ Hin) as (_ & _ & Hc). apply list_elem_of_lookup in Hc as [s2 Hs2]. apply list_elem_of_lookup in Hin as [k Hk].
  destruct (gi_names _ _ _ Hg s2 _ k x Hs2 Hk) as (e2 & Hid2). rewrite Hid in Hid2.
  assert (forall e1 nm l, Event_Bytes (make_id epoch l (take 24 (Sum (Bytes (mk_TestEvent e1 nm))))) = Epoch_Bytes epoch ++ Lamport_Bytes l ++ take 24 (Sum (Bytes (mk_TestEvent e1 nm)))) as Hb.
  { intros e1 nm l. destruct (go_bytes Hgen (Bytes (mk_TestEvent e1 nm))) as [H1 H2]. by apply make_id_bytes. }
  apply (f_equal Event_Bytes) in Hid2. rewrite !Hb in Hid2. apply app_inj_1 in Hid2 as [_ Hid2]; [|done].
  apply app_inj_1 in Hid2 as [_ Hid2]; [|unfold Lamport_Bytes, BE_Uint32ToBytes; by rewrite !be_split_length].
  pose proof (lookup_lt_Some _ _ _ Hk) as Hklt.
  assert (forall i j : nat, (i <= j)%nat -> (j <= n)%nat -> Z.of_nat i < Z.of_nat (length nodes) * eventCount) as Hle by (intros; lia).
  destruct (go_names Hgen _ _ _ _ _ _ (lookup_lt_Some _ _ _ Hs) (lookup_lt_Some _ _ _ Hs2)
    (Hle _ _ (le_n _) (gi_length _ _ _ Hg creator)) (Hle _ _ (Nat.lt_le_incl _ _ Hklt) (gi_length _ _ _ Hg (e_creator x))) Hid2) as [-> Hlen].
  rewrite Hs in Hs2. injection Hs2 as Hs2. rewrite <- Hs2, <- Hlen in Hklt. by apply Nat.lt_irrefl in Hklt.
Qed.

Lemma evs_insert (events : gmap Z (list BaseEvent)) c (l : list BaseEvent) x :
  default [] (<[c := l]> events !! x) = if decide (x = c) then l else default [] (events !! x).
Proof. case_decide as Hx; [subst; by rewrite lookup_insert_eq|by rewrite lookup_insert_ne]. Qed.

Lemma extend_inv D g n s creator parent cols f name e0 r app :
  gen_inv D g n -> nodes !! s = Some creator -> Z.of_nat n < Z.of_nat (length nodes) * eventCount ->
  (forall p, parent = Some p -> p ∈ evs g creator) -> NoDup cols -> (forall o, o ∈ cols -> (o < length nodes)%nat /\ o <> s) ->
  (creator ∉ cheatersArr -> parent = last (evs g creator)) -> 0 < f < MaxInt32 - 1 -> name = event_name s (length (evs g creator)) ->
  let e := new_checked g creator parent cols f (make_id epoch (new_lamport g parent cols) (take 24 (Sum (Bytes (mk_TestEvent e0 name))))) in
  gen_inv (<[e_id e := e]> D) (mk_gen r app (<[creator := evs g creator ++ [e]]> (g_events g)) (g_cheaters g)) (S n) /\ D !! e_id e = None.
Proof.
  intros Hg Hs Hn Hp Hnd Hout Hhon Hf Hname e. pose proof (so_count Hset) as Hcount.
  assert (0 < new_lamport g parent cols <= Z.of_nat n + 1) as Hlb by (by eapply new_lamport_bound).
  assert (0 < new_seq parent <= Z.of_nat n + 1) as Hsb by (by eapply new_seq_bound).
  assert (D !! e_id e = None) as Hid by (eapply made_fresh; try done; unfold is_u32, MaxInt32 in *; lia). split; [|done].
  assert (forall x y, x ∈ evs g y -> e_id x <> e_id e) as Hne.
  { intros x y Hx Heq. destruct (gi_events _ _ _ Hg y x Hx) as (Hd & _). rewrite Heq in Hd. congruence. }
  split; cbn [g_events g_cheaters].
  - apply dag_connect; [apply Hg|]. by eapply new_connectable.
  - intros c x. rewrite evs_insert. case_decide as Hc.
    + subst c. intros [Hx| ->%list_elem_of_singleton]%elem_of_app.
      * destruct (gi_events _ _ _ Hg _ _ Hx) as (? & ? & ?). rewrite lookup_insert_ne by (symmetry; by eapply Hne). done.
      * rewrite lookup_insert_eq. split; [done|]. split; [done|]. by eapply list_elem_of_lookup_2.
    + intros Hx. destruct (gi_events _ _ _ Hg _ _ Hx) as (? & ? & ?). rewrite lookup_insert_ne by (symmetry; by eapply Hne). done.
  - intros h x [(<- & <-)|[_ Hx]]%lookup_insert_Some; rewrite evs_insert.
    + rewrite decide_True by done. set_solver.
    + apply (gi_graph _ _ _ Hg) in Hx. case_decide as Hc; [rewrite Hc in Hx; set_solver|done].
  - intros s2 c k x Hs2. rewrite evs_insert. case_decide as Hc; [|by eapply (gi_names _ _ _ Hg)]. subst c.
    intros [Hx|(Hk & Hx)]%lookup_app_Some; [by eapply (gi_names _ _ _ Hg)|]. apply list_lookup_singleton_Some in Hx as [Hk0 <-].
    assert (k = length (evs g creator)) as -> by lia. rewrite (NoDup_lookup nodes s2 s creator (so_nodes Hset) Hs2 Hs), <- Hname. exists e0. done.
  - intros c x. rewrite evs_insert. case_decide as Hc; [intros [Hx| ->%list_elem_of_singleton]%elem_of_app|intros Hx].
    + pose proof (gi_bounds _ _ _ Hg _ _ Hx). lia.
    + cbn [e new_checked e_lamport e_seq]. lia.
    + pose proof (gi_bounds _ _ _ Hg _ _ Hx). lia.
  - intros c. rewrite evs_insert. case_decide; [|by apply le_S, (gi_length _ _ _ Hg)]. rewrite length_app. cbn [length]. rewrite Nat.add_1_r. apply le_n_S, (gi_length _ _ _ Hg).
  - intros c k x Hc. rewrite evs_insert. case_decide as Hcc; [|by apply (gi_honest _ _ _ Hg)]. subst c.
    intros [Hx|(Hk & Hx)]%lookup_app_Some; [by apply (gi_honest _ _ _ Hg creator)|]. apply list_lookup_singleton_Some in Hx as [Hk0 <-].
    assert (k = length (evs g creator)) as -> by lia. cbn [e new_checked e_seq]. unfold new_seq. rewrite (Hhon Hc).
    destruct (last (evs g creator)) as [p|] eqn:Hl; [|by apply last_None in Hl as ->]. rewrite last_lookup in Hl.
    rewrite (gi_honest _ _ _ Hg creator _ p Hc Hl). pose proof (lookup_lt_Some _ _ _ Hl). lia.
  - apply Hg.
Qed.

Lemma gen_inv_next D g n : gen_inv D g n -> gen_inv D g (S n).
Proof.
  intros [H1 H2 H3 H4 H5 H6 H7 H8]. split; try done; [|intros c; by apply le_S].
  intros c e He. specialize (H5 c e He). lia.
Qed.

Lemma rand_event_ok D g n : gen_inv D g n -> Z.of_nat n < Z.of_nat (length nodes) * eventCount ->
  exists g' D', rand_event Perm Intn Bytes Sum (Some build) Process nodes eventCount parentCount forksCount g n = Ok g' /\ gen_inv D' g' (S n) /\ D ⊆ D'.
Proof.
  intros Hg Hn. pose proof (so_parents Hset) as Hpc. assert (n mod length nodes < length nodes)%nat as Hself by (apply Nat.mod_upper_bound; lia).
  destruct (lookup_lt_is_Some_2 nodes _ Hself) as [creator Hs]. unfold rand_event, index. rewrite Hs. cbn [outcome_bind].
  pose proof (go_Perm Hgen (g_rand g) (length nodes)) as Hperm. destruct (Perm (g_rand g) (length nodes)) as [perm r]. cbn [fst] in Hperm.
  destruct (other_columns_ok perm _ Hperm Hself) as (cols & -> & Hnd & Hout). cbn [outcome_bind].
  pose proof (gen_inv_rand D g n r (g_app g) (g_cheaters g) Hg (gi_cheaters _ _ _ Hg)) as Hg0.
  destruct (choose_parent_ok D _ n creator (length nodes) n Hg0) as (parent & r1 & ch & -> & Hp & Hch & Hhon). cbn [outcome_bind g_events g_app] in *.
  pose proof (gen_inv_rand D g n r1 (g_app g) ch Hg Hch) as Hg1.
  destruct (made_event D _ n _ creator parent cols 1 [] Hg1 Hs Hn Hp Hnd Hout) as (e & He & _). cbn [g_events] in He. rewrite He. cbn [outcome_bind].
  set (name := event_name _ _). pose proof (go_Build Hgen (g_app g) e name) as Hbuild. destruct (build (g_app g) e name) as [[built|] app]; cbn [fst] in Hbuild.
  2:{ do 2 eexists. split; [reflexivity|]. split; [|done]. apply gen_inv_next. by apply (gen_inv_rand D g n r1 app ch). }
  destruct (Hbuild built eq_refl) as (f & Hf & ->).
  destruct (made_event D _ n _ creator parent cols f name Hg1 Hs Hn Hp Hnd Hout) as (e' & He' & Hmade). cbn [g_events] in He'. rewrite He in He'. injection He' as <-.
  destruct (extend_inv D _ n _ creator parent cols f name (SetFrame (SetEpoch e epoch) f) r1
    (Process app (with_hash Bytes Sum (SetFrame (SetEpoch e epoch) f) name) name) Hg1 Hs Hn Hp Hnd Hout Hhon Hf eq_refl) as [Hinv Hid].
  cbn [g_events g_cheaters] in Hinv. cbn zeta in Hmade. rewrite <- Hmade in Hinv, Hid. do 2 eexists. split; [reflexivity|]. split; [exact Hinv|].
  by apply insert_subseteq.
Qed.

Lemma rand_run D g n k : gen_inv D g n -> Z.of_nat (n + k) <= Z.of_nat (length nodes) * eventCount ->
  exists g' D', foldM (rand_event Perm Intn Bytes Sum (Some build) Process nodes eventCount parentCount forksCount) g (seq n k) = Ok g' /\ gen_inv D' g' (n + k).
Proof.
  revert D g n. induction k as [|k IH]; intros D g n Hg Hn; [exists g, D; by rewrite Nat.add_0_r|]. cbn [seq foldM].
  destruct (rand_event_ok D g n Hg ltac:(lia)) as (g1 & D1 & -> & Hg1 & _). cbn [outcome_bind].
  destruct (IH D1 g1 (S n) Hg1 ltac:(lia)) as (g2 & D2 & H1 & H2). exists g2, D2. by rewrite Nat.add_succ_r.
Qed.

Lemma start_inv r app : gen_inv ∅ (mk_gen r app ∅ (list_to_map ((fun c => (c, 0)) <$> cheatersArr))) 0.
Proof.
  assert (forall c : Z, default [] ((∅ : gmap Z (list BaseEvent)) !! c) = []) as He by (intros c; by rewrite lookup_empty).
  split; cbn [g_events g_cheaters].
  - constructor.
  - intros c e. rewrite He. by intros ?%not_elem_of_nil.
  - intros h e. by rewrite lookup_empty.
  - intros s c k e _. by rewrite He.
  - intros c e. rewrite He. by intros ?%not_elem_of_nil.
  - intros c. by rewrite He.
  - intros c k e _. by rewrite He.
  - intros c [x Hx%elem_of_list_to_map_2]. apply list_elem_of_fmap in Hx as (c' & [= -> _] & Hc). done.
Qed.

End generated.

(** The random graphs of the tests are graphs that the checkers accept,
    whatever the random numbers: made of enough nodes of the group and with a
    [Build] that sets the epoch and a frame, the events can be connected in
    the order in which they are made; they are all in the result, under their
    creators, and only the nodes that are named as cheaters fork. *)
Theorem generated_dag {R App : Type} (Perm : R -> nat -> list nat * R) (Intn : R -> Z -> Z * R) (Bytes : TestEvent -> list Z) (Sum : list Z -> list Z)
    (build : App -> BaseEvent -> list Z -> option BaseEvent * App) (Process : App -> BaseEvent -> list Z -> App)
    (vv : Validators) (epoch : Z) (nodes cheatersArr : list Z) (eventCount parentCount forksCount : Z) (r : R) (app : App) :
  generator_ok Perm Intn Bytes Sum build epoch nodes eventCount -> setting_ok vv epoch nodes eventCount parentCount ->
  exists g D, ForEachRandFork Perm Intn Bytes Sum (Some build) Process nodes cheatersArr eventCount parentCount forksCount r app = Ok g /\
    dag vv epoch D /\
    (forall c e, e ∈ default [] (g_events g !! c) <-> D !! e_id e = Some e /\ e_creator e = c) /\
    (forall c, c ∉ cheatersArr -> ~ is_cheater D c).
Proof.
  intros Hgen Hset.
  assert (exists g D, ForEachRandFork Perm Intn Bytes Sum (Some build) Process nodes cheatersArr eventCount parentCount forksCount r app = Ok g /\
    exists n, gen_inv Bytes Sum vv epoch nodes cheatersArr D g n) as (g & D & Hrun & n & Hg).
  { unfold ForEachRandFork. destruct (decide (0 <= Z.of_nat (length nodes) * eventCount)) as [Hle|Hlt].
    - destruct (rand_run Perm Intn Bytes Sum build Process vv epoch nodes cheatersArr eventCount parentCount forksCount Hgen Hset ∅ _ 0
        (Z.to_nat (Z.of_nat (length nodes) * eventCount)) (start_inv Bytes Sum vv epoch nodes cheatersArr r app)) as (g & D & H1 & H2); [lia|].
      exists g, D. split; [exact H1|by eexists].
    - rewrite (Z2Nat.nonpos (_ * _)) by lia. do 2 eexists. split; [reflexivity|]. exists 0%nat. apply start_inv. }
  exists g, D. split; [done|]. split; [apply Hg|]. split.
  - intros c e. split; [intros He; by destruct (gi_events _ _ _ _ _ _ _ _ _ Hg c e He) as (? & ? & _)|]. intros [He <-]. by eapply gi_graph.
  - intros c Hc (x1 & x2 & e1 & e2 & H1 & H2 & Hne & Hc1 & Hc2 & Hseq). apply Hne.
    rewrite <- (dag_id _ _ _ _ _ (gi_dag _ _ _ _ _ _ _ _ _ Hg) H1), <- (dag_id _ _ _ _ _ (gi_dag _ _ _ _ _ _ _ _ _ Hg) H2).
    apply (gi_graph _ _ _ _ _ _ _ _ _ Hg) in H1, H2. rewrite Hc1 in H1. rewrite Hc2 in H2.
    apply list_elem_of_lookup in H1 as [k1 H1]. apply list_elem_of_lookup in H2 as [k2 H2].
    pose proof (gi_honest _ _ _ _ _ _ _ _ _ Hg c k1 e1 Hc H1) as E1. pose proof (gi_honest _ _ _ _ _ _ _ _ _ Hg c k2 e2 Hc H2) as E2.
    assert (k1 = k2) as -> by lia. by rewrite H1 in H2; injection H2 as ->.
Qed.

(** ** Two nodes, one of which may fork *)

Definition sample_Perm (r : Z) (n : nat) : list nat * Z := (seq 0 n, r + 1).
Definition sample_Intn (r n : Z) : Z * Z := (r mod n, r + 1).
Definition sample_Sum (b : list Z) : list Z := (fun x => x mod 256) <$> take 24 (b ++ replicate 24 0).
Definition sample_build (a : list Z) (e : BaseEvent) (name : list Z) : option BaseEvent * list Z := (Some (SetFrame (SetEpoch e 1) 1), a).
Definition sample_process (a : list Z) (e : BaseEvent) (name : list Z) : list Z := a ++ [e_id e].
Definition sample_gen : outcome (gen (R := Z) (App := list Z)) :=
  ForEachRandFork sample_Perm sample_Intn te_Name sample_Sum (Some sample_build) sample_process [1; 2] [2] 3 2 1 0 [].

Lemma sample_names s1 n1 s2 n2 : (s1 < 2)%nat -> (s2 < 2)%nat -> (n1 < 6)%nat -> (n2 < 6)%nat ->
  sample_Sum (event_name s1 n1) = sample_Sum (event_name s2 n2) -> s1 = s2 /\ n1 = n2.
Proof.
  intros H1 H2 H3 H4 He.
  assert (forallb (fun p => forallb (fun q => implb (bool_decide (sample_Sum (event_name p.1 p.2) = sample_Sum (event_name q.1 q.2)))
    (bool_decide (p = q))) (list_prod (seq 0 2) (seq 0 6))) (list_prod (seq 0 2) (seq 0 6)) = true) as Hall by (by vm_compute).
  rewrite forallb_forall in Hall. specialize (Hall (s1, n1)). rewrite in_prod_iff, !in_seq in Hall. specialize (Hall ltac:(lia)).
  rewrite forallb_forall in Hall. specialize (Hall (s2, n2)). rewrite in_prod_iff, !in_seq in Hall. specialize (Hall ltac:(lia)).
  cbn [fst snd] in Hall. rewrite bool_decide_eq_true_2 in Hall by done. cbn [implb] in Hall. apply bool_decide_eq_true in Hall. by injection Hall.
Qed.

Lemma sample_generator_ok : generator_ok sample_Perm sample_Intn te_Name sample_Sum sample_build 1 [1; 2] 3.
Proof.
  split.
  - done.
  - intros r n Hn. cbn. by apply Z.mod_pos_bound.
  - intros b. unfold sample_Sum. rewrite <- fmap_take, take_take, Nat.min_id. split.
    + rewrite length_fmap, length_take, length_app, length_replicate. lia.
    + apply Forall_fmap, Forall_forall. intros x _. unfold is_byte. cbn. pose proof (Z.mod_pos_bound x 256). lia.
  - intros s1 n1 s2 n2 e1 e2 H1 H2 H3 H4. cbn [te_Name length] in *. assert (forall b, take 24 (sample_Sum b) = sample_Sum b) as Ht.
    { intros b. unfold sample_Sum. by rewrite <- fmap_take, take_take. }
    rewrite !Ht. apply sample_names; lia.
  - intros a e name e' [= <-]. exists 1. split; [unfold MaxInt32; lia|done].
Qed.

Lemma generated_dag_witness :
  exists g D, sample_gen = Ok g /\ dag validators4 1 D /\
    (forall c e, e ∈ default [] (g_events g !! c) <-> D !! e_id e = Some e /\ e_creator e = c) /\ (forall c, c ∉ [2] -> ~ is_cheater D c).
Proof.
  apply (generated_dag sample_Perm sample_Intn te_Name sample_Sum sample_build sample_process validators4 1 [1; 2] [2] 3 2 1 0 []);
    [exact sample_generator_ok|].
  split.
  - apply (bool_decide_unpack _). by vm_compute.
  - intros c Hc. list_cases; subst; by eexists.
  - unfold MaxInt32. lia.
  - cbn. lia.
  - cbn. unfold MaxInt32. lia.
Defined.
