(* ===== verification/AsciiScheme.v ===== *)
(** * inter/dag/tdag/ascii_scheme.go: graphs drawn with box characters

    The parser makes the events of a scheme, one line at a time; the printer
    draws a list of events.  A Go string is the list of its runes, and [runes]
    reads them from a string of UTF-8 bytes. *)

From S2P Require Import Prelude Bytes Pos Dag TestDag.
Local Open Scope go_scope.

(** ** package strings *)

Abbreviation gostring := (list Z).

(** Code points of up to three bytes. *)
Fixpoint runes (s : string) : gostring :=
  let code (c : Ascii.ascii) := Z.of_N (Ascii.N_of_ascii c) in
  match s with
  | EmptyString => []
  | String a s1 =>
      if code a <? 128 then code a :: runes s1
      else match s1 with
           | String b s2 =>
               if code a <? 224 then ((code a - 192) * 64 + (code b - 128)) :: runes s2
               else match s2 with
                    | String c s3 => ((code a - 224) * 4096 + (code b - 128) * 64 + (code c - 128)) :: runes s3
                    | EmptyString => []
                    end
           | EmptyString => []
           end
  end.

(** [unicode.IsSpace] *)
Definition IsSpace (r : Z) : bool :=
  (9 <=? r) && (r <=? 13) || existsb (Z.eqb r) [32; 133; 160; 5760; 8232; 8233; 8239; 8287; 12288] || (8192 <=? r) && (r <=? 8202).

Fixpoint trim_left (f : Z -> bool) (s : gostring) : gostring :=
  match s with [] => [] | r :: s' => if f r then trim_left f s' else s end.
Definition trim (f : Z -> bool) (s : gostring) : gostring := reverse (trim_left f (reverse (trim_left f s))).
Definition TrimSpace (s : gostring) : gostring := trim IsSpace s.

(** [strings.Split] at a rune. *)
Fixpoint split_at (sep : Z) (s : gostring) : list gostring :=
  match s with
  | [] => [[]]
  | r :: s =>
      let l := split_at sep s in
      if r =? sep then [] :: l else match l with x :: l => (r :: x) :: l | [] => [[r]] end
  end.

(** [strings.FieldsFunc]: the runs of runes that are not separators. *)
Fixpoint FieldsFunc (f : Z -> bool) (s field : gostring) : list gostring :=
  match s with
  | [] => match field with [] => [] | _ => [field] end
  | r :: s => if f r then match field with [] => FieldsFunc f s [] | _ => field :: FieldsFunc f s [] end else FieldsFunc f s (field ++ [r])
  end.

Definition str_HasPrefix (s prefix : gostring) : bool := bool_decide (prefix = take (length prefix) s).
Definition str_HasSuffix (s suffix : gostring) : bool := str_HasPrefix (reverse s) (reverse suffix).

(** [strconv.ParseInt(s, 10, 64)] *)
Definition ParseInt (s : gostring) : outcome Z :=
  let '(neg, d) := match s with 45 :: d => (true, d) | 43 :: d => (false, d) | _ => (false, s) end in
  if bool_decide (d = []) || negb (forallb (fun r => (48 <=? r) && (r <=? 57)) d) then Err "invalid syntax"
  else
    let n := foldl (fun n r => 10 * n + (r - 48)) 0 d in
    let n := if neg : bool then - n else n in
    if (- 2 ^ 63 <=? n) && (n <? 2 ^ 63) then Ok n else Err "value out of range".

Definition filler (r : Z) : bool := (r =? 32) || (r =? 9472) || (r =? 9552).

(** ** The symbols of a line *)

Record line_state := mk_line_state {
  ls_col : Z;
  ls_nNames : list gostring;
  ls_nCreators : list Z;
  ls_nLinks : list (list Z);
  ls_curFarRefs : gmap Z Z;
  ls_prevRef : Z
}.

Definition set_links (st : line_state) (l : list (list Z)) : line_state :=
  mk_line_state (ls_col st) (ls_nNames st) (ls_nCreators st) l (ls_curFarRefs st) (ls_prevRef st).

(** [refs := make([]int, col+1); refs[col] = ref] *)
Definition new_refs (col ref : Z) : list Z := replicate (Z.to_nat col) 0 ++ [ref].

(** [append(nLinks[last], make([]int, col+1-len(nLinks[last]))...)], then the reference. *)
Definition link_last (nLinks : list (list Z)) (col ref : Z) : outcome (list (list Z)) :=
  match last nLinks with
  | None => Panic "index out of range"
  | Some refs =>
      let n := col + 1 - Z.of_nat (length refs) in
      if n <? 0 then Panic "makeslice: len out of range"
      else Ok (removelast nLinks ++ [<[Z.to_nat col := ref]> (refs ++ replicate (Z.to_nat n) 0)])
  end.

Inductive symbol_kind := SymSkip | SymStart | SymStartPrev | SymLink | SymLinkPrev | SymPass | SymFarRef | SymName.

Definition one_of (s : gostring) (l : list string) : bool := existsb (fun x => bool_decide (s = runes x)) l.

Definition kind_of (symbol : gostring) : symbol_kind :=
  if bool_decide (symbol = []) then SymSkip
  else if one_of symbol ["╠"; "║╠"; "╠╫"]%string then SymStart
  else if one_of symbol ["║╚"; "╚"]%string then SymStartPrev
  else if one_of symbol ["╣"; "╣║"; "╫╣"; "╬"]%string then SymLink
  else if one_of symbol ["╝║"; "╝"; "╩╫"; "╫╩"]%string then SymLinkPrev
  else if one_of symbol ["╫"; "║"; "║║"]%string then SymPass
  else if str_HasPrefix symbol (runes "║") || str_HasSuffix symbol (runes "║") then SymFarRef
  else SymName.

Definition parse_symbol {E} (prevFarRefs : gmap Z Z) (names : gmap gostring E) (st : line_state) (symbol : gostring) : outcome line_state :=
  let col := ls_col st in
  let prev := default 2 (prevFarRefs !! col) in
  let* st :=
    match kind_of symbol with
    | SymSkip => Ok (mk_line_state (col - 1) (ls_nNames st) (ls_nCreators st) (ls_nLinks st) (ls_curFarRefs st) (ls_prevRef st))
    | SymStart => Ok (set_links st (ls_nLinks st ++ [new_refs col 1]))
    | SymStartPrev => Ok (set_links st (ls_nLinks st ++ [new_refs col prev]))
    | SymLink => let* l := link_last (ls_nLinks st) col 1 in Ok (set_links st l)
    | SymLinkPrev => let* l := link_last (ls_nLinks st) col prev in Ok (set_links st l)
    | SymPass => Ok st
    | SymFarRef =>
        match ParseInt (trim (Z.eqb 9553) symbol) with
        | Ok ref => Ok (mk_line_state col (ls_nNames st) (ls_nCreators st) (ls_nLinks st) (<[col := ref]> (ls_curFarRefs st)) (ls_prevRef st))
        | Err e | Panic e => Panic e
        end
    | SymName =>
        if bool_decide (is_Some (names !! symbol)) then Panic "event already exists"
        else
          let nNames := ls_nNames st ++ [symbol] in
          Ok (mk_line_state col nNames (ls_nCreators st ++ [col])
                (if (length (ls_nLinks st) <? length nNames)%nat then ls_nLinks st ++ [new_refs col 0] else ls_nLinks st)
                (ls_curFarRefs st) (ls_prevRef st))
    end in
  if one_of symbol ["╚"; "╝"]%string then
    Ok (mk_line_state (ls_col st) (ls_nNames st) (ls_nCreators st) (ls_nLinks st) (ls_curFarRefs st)
          (match prevFarRefs !! ls_col st with Some ref => ref - 1 | None => 1 end))
  else Ok (mk_line_state (ls_col st + 1) (ls_nNames st) (ls_nCreators st) (ls_nLinks st) (ls_curFarRefs st) (ls_prevRef st)).

(** The loop over the fields of a line, up to a comment. *)
Fixpoint parse_line {E} (prevFarRefs : gmap Z Z) (names : gmap gostring E) (st : line_state) (symbols : list gostring) : outcome line_state :=
  match symbols with
  | [] => Ok st
  | symbol :: symbols =>
      let symbol := TrimSpace symbol in
      if str_HasPrefix symbol (runes "//") then Ok st
      else let* st := parse_symbol prevFarRefs names st symbol in parse_line prevFarRefs names st symbols
  end.

Definition new_line : line_state := mk_line_state 0 [] [] [] ∅ 0.

(** ** The events of a line *)

Section scheme.
(** The validator of a new column, from the name of its first event, the bytes
    of a test event and the digest of bytes; the callbacks, on a state of their
    user, an error of [Build] being [None]. *)
Context (validator_of : gostring -> Z) (Bytes : TestEvent -> list Z) (Sum : list Z -> list Z).
Context {App : Type} (Build : option (App -> BaseEvent -> gostring -> option BaseEvent * App)).
Context (Process : App -> BaseEvent -> gostring -> App).

Record scheme := mk_scheme {
  sc_nodes : list Z;
  sc_events : gmap Z (list BaseEvent);
  sc_names : gmap gostring BaseEvent;
  sc_app : App
}.

Definition sc_of (s : scheme) (creator : Z) : list BaseEvent := default [] (sc_events s !! creator).

(** The self-parent, [prevRef] events before the last one. *)
Definition scheme_self (s : scheme) (creator prevRef : Z) : outcome (option BaseEvent) :=
  let ee := sc_of s creator in
  let last := Z.of_nat (length ee) - prevRef - 1 in
  if 0 <=? last then let* p := index ee (Z.to_nat last) in Ok (Some p) else Ok None.

(** The other parents, column by column from [i]; a reference before the first
    event of a column ends them. *)
Fixpoint scheme_others (s : scheme) (i : nat) (refs : list Z) (parents : list Z) (maxLamport : Z) : outcome (list Z * Z) :=
  match refs with
  | [] => Ok (parents, maxLamport)
  | ref :: refs =>
      if ref <? 1 then scheme_others s (S i) refs parents maxLamport
      else
        let* other := index (sc_nodes s) i in
        let ee := sc_of s other in
        let last := Z.of_nat (length ee) - ref in
        if last <? 0 then Ok (parents, maxLamport)
        else
          let* p := index ee (Z.to_nat last) in
          if bool_decide (e_id p ∈ parents) then scheme_others s (S i) refs parents maxLamport
          else scheme_others s (S i) refs (parents ++ [e_id p]) (Z.max maxLamport (e_lamport p))
  end.

(** A node for a new column; an index out of range otherwise. *)
Definition scheme_node (s : scheme) (name : gostring) (col : Z) : outcome (Z * scheme) :=
  let s :=
    if Z.of_nat (length (sc_nodes s)) <=? col then
      mk_scheme (sc_nodes s ++ [validator_of name]) (<[validator_of name := []]> (sc_events s)) (sc_names s) (sc_app s)
    else s in
  let* creator := index (sc_nodes s) (Z.to_nat col) in
  Ok (creator, s).

Definition scheme_event (prevRef : Z) (s : scheme) (name : gostring) (col : Z) (refs : list Z) : outcome scheme :=
  let* ' (creator, s) := scheme_node s name col in
  let* self := scheme_self s creator prevRef in
  let '(seq, parents, maxLamport) :=
    match self with Some p => (u32 (e_seq p + 1), [e_id p], e_lamport p) | None => (1, [], 0) end in
  let* ' (parents, maxLamport) := scheme_others s 0 refs parents maxLamport in
  let e := SetLamport (SetParents (SetCreator (SetSeq (new_event 0) seq) creator) parents) (u32 (maxLamport + 1)) in
  let '(built, app) := match Build with None => (Some e, sc_app s) | Some build => build (sc_app s) e name end in
  match built with
  | None => Ok (mk_scheme (sc_nodes s) (sc_events s) (sc_names s) app)
  | Some e =>
      let e := with_hash Bytes Sum e name in
      Ok (mk_scheme (sc_nodes s) (<[creator := sc_of s creator ++ [e]]> (sc_events s)) (<[name := e]> (sc_names s)) (Process app e name))
  end.

(** The events of the line, with their columns and references. *)
Fixpoint scheme_events (prevRef : Z) (s : scheme) (names : list gostring) (cols : list Z) (links : list (list Z)) : outcome scheme :=
  match names, cols, links with
  | name :: names, col :: cols, refs :: links =>
      let* s := scheme_event prevRef s name col refs in scheme_events prevRef s names cols links
  | [], _, _ => Ok s
  | _, _, _ => Panic "index out of range"
  end.

Definition scheme_line (x : scheme * gmap Z Z) (line : gostring) : outcome (scheme * gmap Z Z) :=
  let '(s, prevFarRefs) := x in
  let* st := parse_line prevFarRefs (sc_names s) new_line (FieldsFunc filler (TrimSpace line) []) in
  let* s := scheme_events (ls_prevRef st) s (ls_nNames st) (ls_nCreators st) (ls_nLinks st) in
  Ok (s, ls_curFarRefs st).

(** The names given to the nodes in the log are left out. *)
Definition ASCIIschemeForEach (text : gostring) (app : App) : outcome scheme :=
  let* ' (s, _) := foldM scheme_line (mk_scheme [] ∅ ∅ app, ∅) (split_at 10 (TrimSpace text)) in
  Ok s.

End scheme.

Definition ASCIIschemeToDAG (validator_of : gostring -> Z) (Bytes : TestEvent -> list Z) (Sum : list Z -> list Z) (text : gostring) : outcome scheme :=
  ASCIIschemeForEach validator_of Bytes Sum (App := unit) None (fun a _ _ => a) text tt.

(** ** The events of a scheme know their parents *)

Section known.
Context (validator_of : gostring -> Z) (Bytes : TestEvent -> list Z) (Sum : list Z -> list Z).
Context {App : Type} (Build : option (App -> BaseEvent -> gostring -> option BaseEvent * App)) (Process : App -> BaseEvent -> gostring -> App).
(** [Build] leaves the parents and the Lamport time as they are. *)
Context (HBuild : forall build a e name e', Build = Some build -> (build a e name).1 = Some e' -> e_parents e' = e_parents e /\ e_lamport e' = e_lamport e).

(** [e] was made after [made]: its parents are there, once each, and its Lamport
    time is the next one after theirs. *)
Definition made_after (made : list BaseEvent) (e : BaseEvent) : Prop :=
  exists ps, (forall p, p ∈ ps -> p ∈ made) /\ e_parents e = e_id <$> ps /\ NoDup (e_parents e) /\
    e_lamport e = u32 (foldr (fun p m => Z.max (e_lamport p) m) 0 ps + 1).

(** All the events in the order in which they were made. *)
Inductive made_in_order : list BaseEvent -> Prop :=
| made_nil : made_in_order []
| made_snoc made e : made_in_order made -> made_after made e -> made_in_order (made ++ [e]).

Definition scheme_inv (made : list BaseEvent) (s : scheme (App := App)) : Prop :=
  made_in_order made /\ (forall c e, e ∈ sc_of s c -> e ∈ made) /\ (forall n e, sc_names s !! n = Some e -> e ∈ made).

Lemma made_lamport made e : made_in_order made -> e ∈ made -> 0 <= e_lamport e.
Proof.
  intros Hm. induction Hm as [|made x Hm IH (ps & _ & _ & _ & Hl)]; [by intros ?%not_elem_of_nil|].
  intros [He| ->%list_elem_of_singleton]%elem_of_app; [by apply IH|]. rewrite Hl. apply u32_range.
Qed.

(** The parents gathered so far. *)
Definition gathered (made : list BaseEvent) (parents : list Z) (maxLamport : Z) : Prop :=
  exists ps, (forall p, p ∈ ps -> p ∈ made) /\ parents = e_id <$> ps /\ NoDup parents /\ maxLamport = foldr (fun p m => Z.max (e_lamport p) m) 0 ps.

Lemma foldr_max_snoc (ps : list BaseEvent) p : 0 <= e_lamport p ->
  foldr (fun p m => Z.max (e_lamport p) m) 0 (ps ++ [p]) = Z.max (foldr (fun p m => Z.max (e_lamport p) m) 0 ps) (e_lamport p).
Proof. intros Hp. induction ps as [|q ps IH]; cbn [foldr app]; [lia|]. rewrite IH. lia. Qed.

Lemma scheme_others_known made s refs : scheme_inv made s -> forall i parents mx parents' mx', gathered made parents mx ->
  scheme_others s i refs parents mx = Ok (parents', mx') -> gathered made parents' mx'.
Proof.
  intros (Hm & He & _). induction refs as [|ref refs IH]; intros i parents mx parents' mx' Hg Hs; cbn [scheme_others] in Hs; [by injection Hs as <- <-|].
  destruct (ref <? 1); [by eapply IH|]. unfold index at 1 in Hs. destruct (sc_nodes s !! i) as [other|]; [|done]. cbn [outcome_bind] in Hs.
  destruct (_ <? 0); [by injection Hs as <- <-|]. unfold index in Hs. destruct (sc_of s other !! _) as [p|] eqn:Hp; [|done]. cbn [outcome_bind] in Hs.
  destruct (bool_decide (e_id p ∈ parents)) eqn:Hin; [by eapply IH|]. apply bool_decide_eq_false in Hin. eapply IH; [|exact Hs].
  destruct Hg as (ps & Hps & -> & Hnd & ->). pose proof (He _ _ (list_elem_of_lookup_2 _ _ _ Hp)) as Hpm. exists (ps ++ [p]). split; [|split; [|split]].
  - intros q [Hq| ->%list_elem_of_singleton]%elem_of_app; [by apply Hps|done].
  - by rewrite fmap_app.
  - apply NoDup_app. split; [done|]. split; [by intros x Hx ->%list_elem_of_singleton|apply NoDup_singleton].
  - by rewrite foldr_max_snoc by (by eapply made_lamport).
Qed.

Lemma scheme_node_known made s name col creator s' : scheme_inv made s -> scheme_node validator_of s name col = Ok (creator, s') -> scheme_inv made s'.
Proof.
  intros (Hm & He & Hn) Hs. unfold scheme_node in Hs. destruct (_ <=? col); unfold index in Hs;
    (destruct (_ !! Z.to_nat col); [|done]); cbn [outcome_bind] in Hs; injection Hs as <- <-; [|done].
  split; [done|]. split; [|done]. intros c e. unfold sc_of. cbn [sc_events]. rewrite evs_insert. case_decide; [by intros ?%not_elem_of_nil|apply He].
Qed.

Lemma scheme_event_known made prevRef s name col refs s' : scheme_inv made s ->
  scheme_event validator_of Bytes Sum Build Process prevRef s name col refs = Ok s' -> exists made', made `prefix_of` made' /\ scheme_inv made' s'.
Proof.
  intros Hinv Hs. unfold scheme_event in Hs. destruct (scheme_node validator_of s name col) as [[creator s1]|e|e] eqn:Hnode; [|done..].
  pose proof (scheme_node_known _ _ _ _ _ _ Hinv Hnode) as Hinv1. pose proof Hinv1 as (Hm & He & Hn). cbn [outcome_bind] in Hs.
  destruct (scheme_self s1 creator prevRef) as [self|e|e] eqn:Hself; [|done..]. cbn [outcome_bind] in Hs.
  assert (forall seq parents mx, match self with Some p => (u32 (e_seq p + 1), [e_id p], e_lamport p) | None => (1, [], 0) end = (seq, parents, mx) ->
    gathered made parents mx) as Hstart.
  { intros seq parents mx Heq. destruct self as [p|]; injection Heq as <- <- <-.
    - assert (p ∈ made) as Hp.
      { unfold scheme_self in Hself. destruct (0 <=? _); [|done]. unfold index in Hself. destruct (sc_of s1 creator !! _) as [q|] eqn:Hq; [|done].
        cbn in Hself. injection Hself as ->. by eapply He, list_elem_of_lookup_2. }
      exists [p]. split; [by intros q ->%list_elem_of_singleton|]. split; [done|]. split; [apply NoDup_singleton|]. cbn. pose proof (made_lamport _ _ Hm Hp). lia.
    - exists []. split; [by intros p ?%not_elem_of_nil|]. split; [done|]. split; [constructor|done]. }
  destruct (match self with Some p => _ | None => _ end) as [[seq parents] mx]. specialize (Hstart _ _ _ eq_refl).
  destruct (scheme_others s1 0 refs parents mx) as [[parents' mx']|e|e] eqn:Hoth; [|done..]. cbn [outcome_bind] in Hs.
  destruct (scheme_others_known made s1 refs Hinv1 _ _ _ _ _ Hstart Hoth) as (ps & Hps & Hpar & Hnd & Hmx).
  set (e := SetLamport _ _) in Hs.
  assert (forall b app, (match Build with None => (Some e, sc_app s1) | Some build => build (sc_app s1) e name end) = (Some b, app) ->
    e_parents b = e_parents e /\ e_lamport b = e_lamport e) as Hb.
  { intros b app Heq. destruct Build as [build|] eqn:HB; [|by injection Heq as <-]. apply (HBuild build (sc_app s1) e name b eq_refl). by rewrite Heq. }
  destruct (match Build with None => _ | Some _ => _ end) as [[b|] app].
  2:{ injection Hs as <-. exists made. split; [done|]. by split. }
  destruct (Hb b app eq_refl) as [Hbp Hbl]. injection Hs as <-. set (x := with_hash Bytes Sum b name). exists (made ++ [x]). split; [by eexists|].
  split; [|split].
  - constructor; [done|]. exists ps. subst x. cbn [with_hash SetID e_parents e_lamport]. rewrite Hbp, Hbl. cbn [e SetLamport SetParents e_parents e_lamport].
    splits; [done|done|done|]. by rewrite Hmx.
  - intros c y. unfold sc_of at 1. cbn [sc_events]. rewrite evs_insert. case_decide; [intros [Hy| ->%list_elem_of_singleton]%elem_of_app|intros Hy]; [|set_solver|].
    + apply elem_of_app. left. by eapply He.
    + apply elem_of_app. left. by eapply He.
  - intros n y. cbn [sc_names]. intros [(_ & <-)|[_ Hy]]%lookup_insert_Some; [set_solver|]. apply elem_of_app. left. by eapply Hn.
Qed.

Lemma scheme_events_known prevRef names : forall made s cols links s', scheme_inv made s ->
  scheme_events validator_of Bytes Sum Build Process prevRef s names cols links = Ok s' -> exists made', made `prefix_of` made' /\ scheme_inv made' s'.
Proof.
  induction names as [|name names IH]; intros made s cols links s' Hinv Hs; cbn [scheme_events] in Hs.
  - injection Hs as <-. by exists made.
  - destruct cols as [|col cols], links as [|refs links]; try done.
    destruct (scheme_event _ _ _ _ _ prevRef s name col refs) as [s1|e|e] eqn:H1; [|done..]. cbn [outcome_bind] in Hs.
    destruct (scheme_event_known _ _ _ _ _ _ _ Hinv H1) as (made1 & Hp1 & Hinv1). destruct (IH _ _ _ _ _ Hinv1 Hs) as (made2 & Hp2 & Hinv2).
    exists made2. split; [by etrans|done].
Qed.

(** The events of a parsed scheme can be listed so that each comes after its
    parents, which it has once each and whose Lamport times it follows. *)
Theorem scheme_known text app s : ASCIIschemeForEach validator_of Bytes Sum Build Process text app = Ok s ->
  exists made, made_in_order made /\ (forall c e, e ∈ sc_of s c -> e ∈ made) /\ (forall n e, sc_names s !! n = Some e -> e ∈ made).
Proof.
  unfold ASCIIschemeForEach. assert (forall lines made s far s' far', scheme_inv made s ->
    foldM (scheme_line validator_of Bytes Sum Build Process) (s, far) lines = Ok (s', far') -> exists made', scheme_inv made' s') as Hlines.
  { induction lines as [|line lines IH]; intros made s0 far s' far' Hinv Hs; cbn [foldM] in Hs; [injection Hs as <- <-; by exists made|].
    unfold scheme_line at 1 in Hs. destruct (parse_line _ _ _ _) as [st|e|e]; [|done..]. cbn [outcome_bind] in Hs.
    destruct (scheme_events _ _ _ _ _ _ s0 _ _ _) as [s1|e|e] eqn:H1; [|done..]. cbn [outcome_bind] in Hs.
    destruct (scheme_events_known _ _ _ _ _ _ _ Hinv H1) as (made1 & _ & Hinv1). by eapply IH. }
  destruct (foldM _ _ _) as [[s0 far]|e|e] eqn:Hf; [|done..]. cbn [outcome_bind]. intros [= <-].
  apply (Hlines _ [] _ _ _ _) in Hf; [exact Hf|]. split; [constructor|]. split; [intros c e; unfold sc_of; cbn; rewrite lookup_empty; by intros ?%not_elem_of_nil|done].
Qed.

End known.

(** ** The scheme of the first test, and the parents it expects *)

Definition name_of (s : scheme (App := unit)) (id : Z) : gostring :=
  default [] (fst <$> list_find (fun p : gostring * BaseEvent => e_id p.2 = id) (map_to_list (sc_names s)) ≫= fun x => Some x.2).

Definition scheme_parents (s : scheme (App := unit)) (name : gostring) : option (list gostring) :=
  (fun e => name_of s <$> e_parents e) <$> sc_names s !! name.

Definition parse_sample (text : gostring) : outcome (scheme (App := unit)) :=
  ASCIIschemeToDAG (fun name => be_value (take 4 name)) te_Name sample_Sum text.

Definition test_scheme : gostring := runes
"
a00 b00   c00 d00
║   ║     ║   ║
a01 ║     ║   ║
║   ╠  ─  c01 ║
a02 ╣     ║   ║
║   ║     ║   ║
╠ ─ ╫ ─ ─ c02 ║
║   b01  ╝║   ║
║   ╠ ─ ─ ╫ ─ d01
║   ║     ║   ║
║   ║     ║   ║
╠ ═ b02═══╬   ╣
║   ║     ║  ║║
a03 ╣     ╠ ─ d02
║║  ║     ║  ║║
║║  ║     ║  ║╠ ─ e00
║║  ║     ║   ║   ║
a04 ╫ ─ ─ ╬  ╝║   ║
║║  ║     ║   ║   ║
║╚═─╫╩  ─ c03 ╣   ║
║   ║     ║   ║   ║
║   ║     ║  3║   ║
║   b03 ─ ╫  ╝║   ║
║   ║     ║   ║   ║
".

Definition test_expected : list (string * list string) :=
  [("a00", []); ("a01", ["a00"]); ("a02", ["a01"; "b00"]); ("a03", ["a02"; "b02"]); ("a04", ["a03"; "c02";
   "d01"]); ("b00", []); ("b01", ["b00"; "c01"]); ("b02", ["b01"; "a02"; "c02"; "d01"]); ("b03", ["b02"; "d00"]);
   ("c00", []); ("c01", ["c00"; "b00"]); ("c02", ["c01"; "a02"]); ("c03", ["c02"; "a03"; "b01"; "d02"]); ("d00",
   []); ("d01", ["d00"; "b01"]); ("d02", ["d01"; "c02"]); ("e00", ["d02"])]%string.

Example test_scheme_parents :
  match parse_sample test_scheme with
  | Ok s => (length (sc_nodes s) =? 5)%nat && (size (sc_names s) =? length test_expected)%nat &&
      forallb (fun p => bool_decide (scheme_parents s (runes p.1) = Some (runes <$> p.2))) test_expected
  | _ => false
  end = true.
Proof. by vm_compute. Qed.
