(* ===== verification/AsciiPrint.v ===== *)
(** * inter/dag/tdag/ascii_scheme.go: drawing a list of events

    [DAGtoASCIIscheme] sorts the events, turns each into a row of references to
    columns, swaps rows to shorten the references and prints the rows.  The
    printed cells are all of one width ([rows_aligned]). *)

From S2P Require Import Prelude Bytes Pos Dag TestDag AsciiScheme.
Local Open Scope go_scope.

(** ** Rows *)

Record row := mk_row { rw_Name : gostring; rw_Refs : list Z; rw_Self : nat; rw_First : nat; rw_Last : nat }.

Definition set_Refs (r : row) (refs : list Z) : row := mk_row (rw_Name r) refs (rw_Self r) (rw_First r) (rw_Last r).

Inductive position := PosNone | PosPass | PosFirst | PosLeft | PosRight | PosLast.

Definition row_Position (r : row) (i : nat) : outcome position :=
  if (i <? rw_Self r)%nat then
    if (i <? rw_First r)%nat then Ok PosNone
    else if (rw_First r <? i)%nat then
      let* ref := index (rw_Refs r) i in Ok (if 0 <? ref then PosLeft else PosPass)
    else Ok PosFirst
  else if (rw_Last r <? i)%nat then Ok PosNone
  else if (i <? rw_Last r)%nat then
    let* ref := index (rw_Refs r) i in Ok (if (0 <? ref) || (i =? rw_Self r)%nat then PosRight else PosPass)
  else Ok PosLast.

(** [strings.Repeat] panics on a negative count. *)
Definition Repeat (s : gostring) (n : Z) : outcome gostring :=
  if n <? 0 then Panic "strings: negative Repeat count" else Ok (concat (replicate (Z.to_nat n) s)).

Definition nolink (n : Z) : outcome gostring := Repeat [32] n.

Definition link (n : Z) : outcome gostring :=
  if n <? 3 then Repeat [32] n
  else
    let* str := Repeat (runes "══") ((n - 1) / 2) in
    let str := str ++ runes "═" in
    Ok (if n mod 2 =? 0 then str ++ runes "═" else str).

(** [fmt.Sprintf("%d", ref)] of a positive number. *)
Definition decimal (n : Z) : gostring := digits (S (Z.to_nat n)) n.

Definition lenZ (s : gostring) : Z := Z.of_nat (length s).

(** *** The two lines of a row, cell by cell *)

Definition first_cell (colWidth : Z) (r : row) (i : nat) (ref : Z) : outcome gostring :=
  let* pos := row_Position r i in
  let s := runes " ║" in
  let s :=
    if ref =? 2 then match pos with PosFirst | PosLeft => runes " ║║" | PosRight | PosLast => runes "║║" | _ => s end else s in
  let s :=
    if 2 <? ref then
      match pos with PosFirst | PosLeft => runes " ║" ++ decimal ref | PosRight | PosLast => decimal ref ++ runes "║" | _ => s end
    else s in
  let* tail := nolink (colWidth - lenZ s + 2) in
  Ok (s ++ tail).

Definition append_link (s : string) (tail : outcome gostring) : outcome gostring := let* t := tail in Ok (runes s ++ t).

Definition second_cell (colWidth : Z) (r : row) (i : nat) (ref : Z) : outcome gostring :=
  let* pos := row_Position r i in
  let name := rw_Name r in
  if (i =? rw_Self r)%nat && (ref =? 0) then
    let tail := colWidth - lenZ name + 1 in
    let* t := match pos with PosRight => link tail | _ => nolink tail end in
    Ok (runes " " ++ name ++ t)
  else if (i =? rw_Self r)%nat && (1 <? ref) then
    let tail := colWidth - lenZ name in
    match pos with
    | PosFirst => let* t := link tail in Ok (name ++ runes " ╝" ++ t)
    | PosLast => let* t := nolink tail in Ok (runes "╚ " ++ name ++ t)
    | _ => let* t := link tail in Ok (runes "╚ " ++ name ++ t)
    end
  else if 1 <? ref then
    match pos with
    | PosFirst => append_link " ║╚" (link (colWidth - 1))
    | PosLast => append_link "╝║" (nolink colWidth)
    | PosLeft => append_link "─╫╩" (link (colWidth - 1))
    | PosRight => append_link "╩╫─" (link (colWidth - 1))
    | PosPass => append_link "─╫─" (link (colWidth - 1))
    | PosNone => append_link " ║" (nolink colWidth)
    end
  else
    match pos with
    | PosFirst => append_link " ╠" (link colWidth)
    | PosLast => append_link "═╣" (nolink colWidth)
    | PosLeft | PosRight => append_link "═╬" (link colWidth)
    | PosPass => append_link "─╫─" (link (colWidth - 1))
    | PosNone => append_link " ║" (nolink colWidth)
    end.

Definition row_line (cell : nat -> Z -> outcome gostring) (refs : list Z) : outcome gostring :=
  let* s := foldM (fun s p => let* c := cell p.1 p.2 in Ok (s ++ c)) [] (zip (seq 0 (length refs)) refs) in
  Ok (s ++ [10]).

Definition row_String (colWidth : Z) (r : row) : outcome gostring :=
  let* l1 := row_line (first_cell colWidth r) (rw_Refs r) in
  let* l2 := row_line (second_cell colWidth r) (rw_Refs r) in
  Ok (l1 ++ l2).

Definition rows_String (colWidth : Z) (rr : list row) : outcome gostring :=
  foldM (fun s r => let* x := row_String colWidth r in Ok (s ++ x)) [] rr.

(** ** Every cell is two runes wider than the column *)

Lemma Repeat_length s n x : Repeat s n = Ok x -> Z.of_nat (length x) = n * lenZ s /\ 0 <= n.
Proof.
  unfold Repeat. destruct (Z.ltb_spec n 0); [done|]. intros [= <-]. split; [|done].
  assert (forall k, Z.of_nat (length (concat (replicate k s))) = Z.of_nat k * lenZ s) as Hk.
  { unfold lenZ. induction k as [|k IH]; [done|]. cbn [replicate concat]. rewrite length_app, Nat2Z.inj_add, IH, Nat2Z.inj_succ. ring. }
  rewrite Hk. by rewrite Z2Nat.id by lia.
Qed.

Lemma link_length n x : link n = Ok x -> lenZ x = n.
Proof.
  unfold link. destruct (Z.ltb_spec n 3); [intros Hx; apply Repeat_length in Hx as [Hx _]; change (lenZ [32]) with 1 in Hx; unfold lenZ; lia|].
  destruct (Repeat _ _) as [str|e|e] eqn:Hr; [|done..]. cbn [outcome_bind]. intros [= <-]. apply Repeat_length in Hr as [Hr _].
  change (lenZ (runes "══")) with 2 in Hr. pose proof (Z.div_mod (n - 1) 2 ltac:(lia)). pose proof (Z.div_mod n 2 ltac:(lia)).
  pose proof (Z.mod_pos_bound n 2 ltac:(lia)). pose proof (Z.mod_pos_bound (n - 1) 2 ltac:(lia)).
  unfold lenZ in *. destruct (Z.eqb_spec (n mod 2) 0); rewrite !length_app; cbn [length]; lia.
Qed.

Lemma nolink_length n x : nolink n = Ok x -> lenZ x = n.
Proof. intros Hx. apply Repeat_length in Hx as [Hx _]. change (lenZ [32]) with 1 in Hx. unfold lenZ. lia. Qed.

Lemma first_cell_width colWidth r i ref c : first_cell colWidth r i ref = Ok c -> lenZ c = colWidth + 2.
Proof.
  unfold first_cell. destruct (row_Position r i) as [pos|e|e]; [|done..]. cbn [outcome_bind].
  match goal with |- context [nolink (colWidth - lenZ ?s + 2)] => generalize s end. intros s.
  destruct (nolink _) as [t|e|e] eqn:Ht; [|done..]. intros [= <-]. apply nolink_length in Ht. unfold lenZ in *. rewrite length_app. lia.
Qed.

Lemma append_link_width s tail c n : append_link s tail = Ok c -> (forall t, tail = Ok t -> lenZ t = n) -> lenZ c = lenZ (runes s) + n.
Proof.
  unfold append_link. destruct tail as [t|e|e]; [|done..]. intros [= <-] Ht. specialize (Ht t eq_refl). unfold lenZ in *. rewrite length_app. lia.
Qed.

Lemma second_cell_width colWidth r i ref c : second_cell colWidth r i ref = Ok c -> lenZ c = colWidth + 2.
Proof.
  assert (forall s n c, append_link s (link n) = Ok c -> lenZ (runes s) + n = colWidth + 2 -> lenZ c = colWidth + 2) as Hlink.
  { intros s n c0 Hc <-. apply (append_link_width _ _ _ _ Hc). intros t. apply link_length. }
  assert (forall s n c, append_link s (nolink n) = Ok c -> lenZ (runes s) + n = colWidth + 2 -> lenZ c = colWidth + 2) as Hno.
  { intros s n c0 Hc <-. apply (append_link_width _ _ _ _ Hc). intros t. apply nolink_length. }
  assert (forall (o : outcome gostring) n (a b : gostring) c, (let* t := o in Ok (a ++ b ++ t)) = Ok c -> (forall t, o = Ok t -> lenZ t = n) ->
    lenZ a + lenZ b + n = colWidth + 2 -> lenZ c = colWidth + 2) as Happ.
  { intros o n a b c0. destruct o as [t|e|e]; [|done..]. intros [= <-] Ho <-. specialize (Ho t eq_refl). unfold lenZ in *. rewrite !length_app. lia. }
  unfold second_cell. destruct (row_Position r i) as [pos|e|e]; [|done..]. cbn [outcome_bind].
  assert (lenZ (runes " ") = 1 /\ lenZ (runes "╚ ") = 2 /\ lenZ (runes " ╝") = 2) as (H1 & H2 & H3) by done.
  destruct (_ && (ref =? 0)); [|destruct (_ && (1 <? ref)); [|destruct (1 <? ref)]].
  - intros Hc. apply (Happ _ (colWidth - lenZ (rw_Name r) + 1) _ _ _ Hc); [intros t; destruct pos; (apply link_length || apply nolink_length)|lia].
  - destruct pos; intros Hc; (apply (Happ _ (colWidth - lenZ (rw_Name r)) _ _ _ Hc); [intros t; (apply link_length || apply nolink_length)|lia]).
  - destruct pos; intros Hc; ((apply (Hlink _ _ _ Hc) || apply (Hno _ _ _ Hc)); match goal with |- lenZ ?s + _ = _ => let n := eval vm_compute in (lenZ s) in change (lenZ s) with n end; lia).
  - destruct pos; intros Hc; ((apply (Hlink _ _ _ Hc) || apply (Hno _ _ _ Hc)); match goal with |- lenZ ?s + _ = _ => let n := eval vm_compute in (lenZ s) in change (lenZ s) with n end; lia).
Qed.

Lemma row_line_width cell w refs l : (forall i ref c, cell i ref = Ok c -> lenZ c = w) -> row_line cell refs = Ok l ->
  lenZ l = w * Z.of_nat (length refs) + 1.
Proof.
  intros Hcell. unfold row_line.
  assert (forall ps s x, foldM (fun s p => let* c := cell p.1 p.2 in Ok (s ++ c)) s ps = Ok x -> lenZ x = lenZ s + w * Z.of_nat (length ps)) as Hf.
  { induction ps as [|p ps IH]; intros s x Hx; cbn [foldM] in Hx; [injection Hx as <-; cbn [length]; lia|].
    destruct (cell p.1 p.2) as [c|e|e] eqn:Hc; [|done..]. cbn [outcome_bind] in Hx. apply IH in Hx. rewrite Hx. apply Hcell in Hc.
    unfold lenZ in *. rewrite length_app. cbn [length]. lia. }
  destruct (foldM _ _ _) as [s|e|e] eqn:Hs; [|done..]. cbn [outcome_bind]. intros Hl. apply Hf in Hs. injection Hl as <-.
  unfold lenZ in *. rewrite length_app. rewrite length_zip, length_seq, Nat.min_id in Hs. cbn [length] in *. lia.
Qed.

(** A row prints as two lines of the same width, the cells of a column under
    each other. *)
Theorem rows_aligned colWidth r s : row_String colWidth r = Ok s ->
  exists l1 l2, s = l1 ++ l2 /\ row_line (first_cell colWidth r) (rw_Refs r) = Ok l1 /\ row_line (second_cell colWidth r) (rw_Refs r) = Ok l2 /\
    lenZ l1 = (colWidth + 2) * Z.of_nat (length (rw_Refs r)) + 1 /\ lenZ l2 = (colWidth + 2) * Z.of_nat (length (rw_Refs r)) + 1.
Proof.
  unfold row_String. destruct (row_line (first_cell colWidth r) _) as [l1|e|e] eqn:H1; [|done..]. cbn [outcome_bind].
  destruct (row_line (second_cell colWidth r) _) as [l2|e|e] eqn:H2; [|done..]. cbn [outcome_bind]. intros [= <-]. exists l1, l2. splits; try done.
  - apply (row_line_width _ _ _ _ (first_cell_width colWidth r) H1).
  - apply (row_line_width _ _ _ _ (second_cell_width colWidth r) H2).
Qed.

(** ** Shorter references: [rows.Optimize] *)

(** The search from the row below [n] down for a row of column [iRef]; a row of
    the own column ends it, and the first row is left behind by a panic. *)
Fixpoint find_prev (rr : list row) (self iRef n : nat) : outcome (option nat) :=
  match n with
  | O => Panic "index out of range"
  | S prev =>
      let* r := index rr prev in
      if (rw_Self r =? iRef)%nat then Ok (Some prev)
      else if (self =? rw_Self r)%nat then Ok None
      else find_prev rr self iRef prev
  end.

(** The inner loop over [iter], [n] rows from [curr]. *)
Fixpoint bump_ref (rr : list row) (prev pRef iter n : nat) : outcome (list row) :=
  let* ri := index rr iter in
  let* rp := index rr prev in
  let* v := index (rw_Refs rp) pRef in
  if (pRef =? rw_Self ri)%nat && (v <? 2) then Ok (<[prev := set_Refs rp (<[pRef := v + 1]> (rw_Refs rp))]> rr)
  else match n with O => Ok rr | S n => bump_ref rr prev pRef (S iter) n end.

(** The remaining references of the row before; [false] if the swap is discarded. *)
Fixpoint update_refs (rr : list row) (prev curr : nat) (pRefs : list nat) : outcome (bool * list row) :=
  match pRefs with
  | [] => Ok (true, rr)
  | pRef :: pRefs =>
      if (S prev =? curr)%nat then Ok (true, rr)
      else
        let* rp := index rr prev in
        let* v := index (rw_Refs rp) pRef in
        if (pRef =? rw_Self rp)%nat || (v =? 0) then update_refs rr prev curr pRefs
        else
          let* ri := index rr (S prev) in
          if (rw_Self rp <? length (rw_Refs ri))%nat then Ok (false, rr)
          else let* rr := bump_ref rr prev pRef (S prev) (curr - S prev) in update_refs rr prev curr pRefs
  end.

(** The padding does not end where the row before is the longer one. *)
Definition swap_rows (rr : list row) (prev curr : nat) : outcome (list row) :=
  let* rp := index rr prev in
  let* rc := index rr curr in
  if (length (rw_Refs rc) <? length (rw_Refs rp))%nat then Err "does not end"
  else
    let rp := set_Refs rp (rw_Refs rp ++ replicate (length (rw_Refs rc) - length (rw_Refs rp)) 0) in
    Ok (<[prev := rc]> (<[curr := rp]> rr)).

Definition set_ref (rr : list row) (curr iRef : nat) (ref : Z) : list row :=
  alter (fun r => set_Refs r (<[iRef := ref]> (rw_Refs r))) curr rr.

Definition optimize_ref (x : list row * nat) (iRef : nat) : outcome (list row * nat) :=
  let '(rr, curr) := x in
  let* rc := index rr curr in
  let* ref := index (rw_Refs rc) iRef in
  if ref <? 3 then Ok (rr, curr)
  else
    let* found := find_prev rr (rw_Self rc) iRef curr in
    match found with
    | None => Ok (rr, curr)
    | Some prev =>
        let rr := set_ref rr curr iRef (ref - 1) in
        let* rp := index rr prev in
        let* ready :=
          if (rw_Self rc <? length (rw_Refs rp))%nat then
            let* back := index (rw_Refs rp) (rw_Self rc) in
            Ok (if back =? 1 then Some (set_ref rr prev (rw_Self rc) (back + 1)) else None)
          else Ok (Some rr) in
        match ready with
        | None => Ok (set_ref rr curr iRef ref, curr)
        | Some rr =>
            let* ' (swap, rr) := update_refs rr prev curr (seq 0 (length (rw_Refs rp))) in
            if swap : bool then let* rr := swap_rows rr prev curr in Ok (rr, prev)
            else Ok (set_ref rr curr iRef ref, curr)
        end
    end.

Definition Optimize (rr : list row) : outcome (list row) :=
  foldM (fun rr curr =>
      let* r := index rr curr in
      let* ' (rr, _) := foldM optimize_ref (rr, curr) (seq 0 (length (rw_Refs r))) in
      Ok rr) rr (seq 0 (length rr)).

(** ** DAGtoASCIIscheme *)

Section drawing.
(** The names in the log. *)
Context (GetEventName GetNodeName : Z -> gostring).

Record drawing := mk_drawing {
  dr_rows : list row;
  dr_width : Z;
  dr_processed : gmap Z BaseEvent;
  dr_cols : gmap Z nat;
  dr_index : gmap Z (gmap Z Z);
  dr_last : gmap Z Z;
  dr_seqs : gmap Z (gmap Z Z)
}.

Definition row_name (self : nat) (e : BaseEvent) : gostring :=
  match GetEventName (e_id e) with
  | [] =>
      let node := match GetNodeName (e_creator e) with [] => [97 + Z.of_nat self] | node => node end in
      node ++ pad3 (e_seq e)
  | name => name
  end.

(** The references to the parents and the number of own ones; [once] if the
    event is the first with its sequence number. *)
Fixpoint parent_refs (d : drawing) (e : BaseEvent) (once : bool) (parents : list Z) (refs : list Z) (selfRefs : nat) : outcome (list Z * nat) :=
  match parents with
  | [] => Ok (refs, selfRefs)
  | p :: parents =>
      match dr_processed d !! p with
      | None => Err "parent not found"
      | Some parent =>
          let own := e_creator parent =? e_creator e in
          let selfRefs := if own then S selfRefs else selfRefs in
          if own && once then parent_refs d e once parents refs selfRefs
          else
            let refCol := default 0%nat (dr_cols d !! e_creator parent) in
            if (refCol <? length refs)%nat then
              let ref := default 0 (dr_last d !! e_creator parent) - default 0 (default ∅ (dr_index d !! e_creator parent) !! e_id parent) +
                         (if own then 0 else 1) in
              parent_refs d e once parents (<[refCol := ref]> refs) selfRefs
            else Panic "index out of range"
      end
  end.

(** The first and the last column with a reference. *)
Definition ref_bounds (refs : list Z) : nat * nat :=
  foldl (fun b p => if p.2 =? 0 then b else ((if (p.1 <? b.1)%nat then p.1 else b.1), (if (b.2 <? p.1)%nat then p.1 else b.2)))
    (length refs, 0%nat) (zip (seq 0 (length refs)) refs).

Definition draw_event (d : drawing) (e : BaseEvent) : outcome drawing :=
  let c := e_creator e in
  let seqs := default ∅ (dr_seqs d !! c) in
  let count := default 0 (seqs !! e_seq e) + 1 in
  let last := match dr_last d !! c with Some k => k + 1 | None => 0 end in
  let self := default (size (dr_cols d)) (dr_cols d !! c) in
  let name := row_name self e in
  let d := mk_drawing (dr_rows d) (Z.max (dr_width d) (lenZ name)) (dr_processed d) (<[c := self]> (dr_cols d))
             (<[c := default ∅ (dr_index d !! c)]> (dr_index d)) (<[c := last]> (dr_last d)) (<[c := <[e_seq e := count]> seqs]> (dr_seqs d)) in
  let* ' (refs, selfRefs) := parent_refs d e (count =? 1) (e_parents e) (replicate (size (dr_cols d)) 0) 0 in
  if (e_seq e <=? 1) && negb (selfRefs =? 0)%nat || (1 <? e_seq e) && negb (selfRefs =? 1)%nat then Err "self-parents count"
  else
    let '(first, lst) := ref_bounds refs in
    Ok (mk_drawing (dr_rows d ++ [mk_row name refs self first lst]) (dr_width d) (<[e_id e := e]> (dr_processed d)) (dr_cols d)
          (<[c := <[e_id e := last]> (default ∅ (dr_index d !! c))]> (dr_index d)) (dr_last d) (dr_seqs d)).

Definition DAGtoASCIIscheme (events : list BaseEvent) : outcome gostring :=
  match ByParents events with
  | None => Err "does not end"
  | Some events =>
      let* d := foldM draw_event (mk_drawing [] 0 ∅ ∅ ∅ ∅ ∅) events in
      let* rr := Optimize (dr_rows d) in
      rows_String (dr_width d + 3) rr
  end.

End drawing.

(** ** The first scheme of the tests, drawn and parsed again *)

Definition scheme_events_of (s : scheme (App := unit)) : list BaseEvent := concat (sc_of s <$> sc_nodes s).

Definition drawn (text : gostring) : outcome gostring :=
  let* s := parse_sample text in DAGtoASCIIscheme (name_of s) (fun _ => []) (scheme_events_of s).

Definition has_parents (expected : list (string * list string)) (text : gostring) : bool :=
  match parse_sample text with
  | Ok s => (size (sc_names s) =? length expected)%nat && forallb (fun p => bool_decide (scheme_parents s (runes p.1) = Some (runes <$> p.2))) expected
  | _ => false
  end.

Example test_scheme_roundtrip : match drawn test_scheme with Ok text => has_parents test_expected text | _ => false end = true.
Proof. by vm_compute. Qed.

(** Its references of three rows are shortened by the swap of two rows. *)
Definition far_scheme : gostring := runes
"
a00  b00   c00
║    ║    ║║
a01══╣    ║║
║    ║    ║║
╠═══─╫═════c01
║    b01  ╝║
║    ║     ║
a02══╬═════╣
║    ║     ║
║3   ║     ║  // optimise this
║╚═══╬═════c02
║    ║     ║
".
Definition far_expected : list (string * list string) :=
  [("a00", []); ("a01", ["a00"; "b00"]); ("a02", ["a01"; "b01"; "c01"]); ("b00", []); ("b01", ["b00"; "c00"]); ("c00", []);
   ("c01", ["c00"; "a01"]); ("c02", ["c01"; "a00"; "b01"])]%string.

Example far_scheme_roundtrip :
  has_parents far_expected far_scheme && match drawn far_scheme with Ok text => has_parents far_expected text | _ => false end = true.
Proof. by vm_compute. Qed.
