(* ===== verification/Printing.v ===== *)
(** * Text for people: events, validators, elections, columns, filters of formats

    [String] of events (inter/dag/event.go, events.go), of a group of
    validators (inter/pos/validators.go) and of an election
    (abft/election/debug.go), the columns of utils/scheme.go and the compiled
    filters of utils/fmtfilter.  A Go string is a [string] of bytes where it is
    only concatenated, and the list of its runes where it is read. *)

From stdpp Require Import pretty.
From S2P Require Import Prelude Bytes Hashes Pos Dag Election TestDag AsciiScheme AsciiPrint.
Local Open Scope go_scope.

(** ** Events *)

Section events.
Context `{!HexUtil} (d : Names).

Definition fmtFrame (frame : Z) (isRoot : bool) : string := (pretty frame ++ (if isRoot then ":y" else ":n"))%string.

Definition BaseEvent_String (e : BaseEvent) : outcome string :=
  let* id := ShortID d (e_id e) 3 in
  let* p := Events_String d (e_parents e) in
  Ok ("{id=" ++ id ++ ", p=" ++ p ++ ", by=" ++ pretty (e_creator e) ++ ", frame=" ++ pretty (e_frame e) ++ "}")%string.

Definition dag_Events_String (ee : list BaseEvent) : outcome string :=
  let* ss := foldM (fun ss e => let* s := BaseEvent_String e in Ok (ss ++ [s])) [] ee in
  Ok (strings_Join ss " ").

(** ** Validators *)

Definition Validators_String (vv : Validators) : outcome string :=
  foldM (fun str ivid =>
    let str := (if (String.length str =? 0)%nat then str else str ++ ",")%string in
    let* w := GetWeightByIdx vv ivid.1 in
    Ok (str ++ "[" ++ pretty (ivid.2 : Z) ++ ":" ++ pretty w ++ "]")%string) ""%string (imap pair (SortedIDs vv)).

(** ** Elections *)

Definition vote_letter (vote : option voteValue) : string :=
  match vote with
  | None => "-"
  | Some vote => if vote_yes vote then (if vote_decided vote then "Y" else "y") else (if vote_decided vote then "N" else "n")
  end.

Definition votes_info : string :=
  "Every line contains votes from a root, for each subject. y is yes, n is no. Upper case means 'decided'. '-' means that subject was already decided when root was processed.
".

Definition voter_line (el : Election) (root : RootAndSlot) : outcome string :=
  let* id := Event_String d (r_ID root) in
  Ok (id ++ "-" ++ pretty (r_Frame root) ++ ": " ++
      foldr String.append "
" ((fun forV => vote_letter (votes el !! (root, forV))) <$> IDs (el_validators el)))%string.

Definition Election_String (el : Election) (voters : list RootAndSlot) : outcome string :=
  foldM (fun info root => let* line := voter_line el root in Ok (info ++ line)%string) votes_info voters.

(** With no voters given, those of the votes, in the order of a map. *)
Definition all_voters (el : Election) (voters : list RootAndSlot) : Prop :=
  voters ≡ₚ elements (set_map fst (dom (votes el)) : gset RootAndSlot).

End events.

(** The bytes written to the hasher; [vs] and [ds] are the two maps of the
    election in the order in which they are walked. *)
Definition debug_state (vs : list ((RootAndSlot * Z) * voteValue)) (ds : list (Z * voteValue)) : list Z :=
  concat ((fun '((root, _), vote) => Event_Bytes (r_ID root) ++ Frame_Bytes (r_Frame root) ++ ValidatorID_Bytes (r_Validator root) ++
            Event_Bytes (vote_observedRoot vote)) <$> vs) ++
  concat ((fun '(validator, vote) => ValidatorID_Bytes validator ++ Event_Bytes (vote_observedRoot vote)) <$> ds).

Definition DebugStateHash (Sum : list Z -> list Z) (el : Election) (h : Z) : Prop :=
  exists vs ds, vs ≡ₚ map_to_list (votes el) /\ ds ≡ₚ map_to_list (decidedRoots el) /\ h = FromBytes (Sum (debug_state vs ds)).

(** The letter of a vote tells what was voted. *)
Lemma vote_letter_inj v1 v2 : vote_letter v1 = vote_letter v2 ->
  (fun v => (vote_yes v, vote_decided v)) <$> v1 = (fun v => (vote_yes v, vote_decided v)) <$> v2.
Proof. by destruct v1 as [[[] [] ?]|], v2 as [[[] [] ?]|]. Qed.

(** The hash does not see it: votes of one root for the same observed roots give
    the same bytes, whatever their subjects and values. *)
Lemma debug_state_blind (root : RootAndSlot) (l1 l2 : list (Z * voteValue)) :
  (fun p => vote_observedRoot p.2) <$> l1 = (fun p => vote_observedRoot p.2) <$> l2 ->
  debug_state ((fun p => ((root, p.1), p.2)) <$> l1) [] = debug_state ((fun p => ((root, p.1), p.2)) <$> l2) [].
Proof.
  intros Hl. unfold debug_state. do 2 f_equal. rewrite <- !list_fmap_compose. revert l2 Hl.
  induction l1 as [|[s1 v1] l1 IH]; intros [|[s2 v2] l2] Hl; try done. injection Hl as Hv Hl. csimpl in *. rewrite (IH l2 Hl).
  simpl. by rewrite Hv.
Qed.

(** ** utils/scheme.go: columns side by side *)

Definition rune_bytes (r : Z) : Z := if r <? 128 then 1 else if r <? 2048 then 2 else if r <? 65536 then 3 else 4.
Definition utf8_len (s : gostring) : Z := foldr (fun r n => rune_bytes r + n) 0 s.

(** [bufio.ScanLines]: no line after a final line feed, no carriage return at the
    end of a line. *)
Definition drop_cr (l : gostring) : gostring := match last l with Some 13 => removelast l | _ => l end.
Definition drop_last_empty (l : list gostring) : list gostring := match last l with Some [] => removelast l | _ => l end.

(** The scanner stops at a line that fills its buffer of 65536 bytes. *)
Fixpoint scan_lines (l : list gostring) : list gostring :=
  match l with
  | [] => []
  | x :: l => if utf8_len x <? 65536 then drop_cr x :: scan_lines l else []
  end.
Definition text_lines (text : gostring) : list gostring := scan_lines (drop_last_empty (split_at 10 text)).

Definition max_len {A} (l : list (list A)) : nat := foldr (fun x n => Nat.max (length x) n) 0%nat l.

(** The cell of line [j] of a column, and whether the column has this line. *)
Definition text_cell (j : nat) (column : list gostring) (width : nat) : outcome (gostring * bool) :=
  match column !! j with
  | Some s => let* pad := Repeat [32] (Z.of_nat width - lenZ s) in Ok (s ++ pad, true)
  | None => let* pad := Repeat [32] (Z.of_nat width) in Ok (pad, false)
  end.

Definition text_row (j : nat) (columns : list (list gostring)) : outcome (gostring * bool) :=
  foldM (fun '(res, any) column =>
      let* ' (s, more) := text_cell j column (max_len column) in Ok (res ++ s ++ [9], any || more)) ([], false) columns.

(** One unit of fuel per written line; the last one is blank. *)
Fixpoint text_rows (fuel j : nat) (columns : list (list gostring)) : outcome gostring :=
  match fuel with
  | O => Err "out of fuel"
  | S fuel =>
      let* ' (res, more) := text_row j columns in
      if more : bool then let* rest := text_rows fuel (S j) columns in Ok (res ++ [10] ++ rest) else Ok (res ++ [10])
  end.

Definition TextColumns (texts : list gostring) : outcome gostring :=
  let columns := text_lines <$> texts in text_rows (S (max_len columns)) 0 columns.

(** Line [j], as it comes out. *)
Definition text_line (columns : list (list gostring)) (j : nat) : gostring :=
  concat ((fun column => let s := default [] (column !! j) in s ++ replicate (max_len column - length s) 32 ++ [9]) <$> columns).

Lemma max_len_lookup {A} (l : list (list A)) i x : l !! i = Some x -> (length x <= max_len l)%nat.
Proof. revert i. induction l as [|y l IH]; intros [|i] Hi; simplify_eq/=; [lia|]. specialize (IH i Hi). lia. Qed.

Lemma Repeat_ok (r : Z) (n : nat) : Repeat [r] (Z.of_nat n) = Ok (replicate n r).
Proof.
  unfold Repeat. destruct (Z.ltb_spec (Z.of_nat n) 0) as [|_]; [lia|]. f_equal. rewrite Nat2Z.id.
  induction n as [|n IH]; [done|]. simpl. by rewrite IH.
Qed.

Lemma text_cell_ok j column : text_cell j column (max_len column) =
  Ok (default [] (column !! j) ++ replicate (max_len column - length (default [] (column !! j))) 32, bool_decide (j < length column)%nat).
Proof.
  unfold text_cell. destruct (column !! j) as [s|] eqn:Hj.
  - pose proof (max_len_lookup _ _ _ Hj). apply lookup_lt_Some in Hj. unfold lenZ.
    replace (Z.of_nat (max_len column) - Z.of_nat (length s)) with (Z.of_nat (max_len column - length s)) by lia.
    rewrite Repeat_ok. cbn [outcome_bind default]. by rewrite bool_decide_true.
  - rewrite Repeat_ok. apply lookup_ge_None in Hj. cbn [outcome_bind default]. rewrite bool_decide_false by lia. simpl. by rewrite Nat.sub_0_r.
Qed.

Lemma text_row_ok j columns : text_row j columns = Ok (text_line columns j, bool_decide (j < max_len columns)%nat).
Proof.
  unfold text_row. assert (forall res any, foldM (fun '(res, any) column =>
      let* ' (s, more) := text_cell j column (max_len column) in Ok (res ++ s ++ [9], any || more)) (res, any) columns =
    Ok (res ++ text_line columns j, any || bool_decide (j < max_len columns)%nat)) as Hgen; [|apply (Hgen [] false)].
  induction columns as [|c columns IH]; intros res any.
  - cbn [foldM]. unfold text_line. csimpl. by rewrite app_nil_r, orb_false_r.
  - cbn [foldM]. rewrite text_cell_ok. cbn [outcome_bind]. rewrite IH. unfold text_line. csimpl. rewrite <- !app_assoc. do 2 f_equal.
    rewrite <- orb_assoc. f_equal. apply eq_iff_eq_true. rewrite orb_true_iff, !bool_decide_eq_true. simpl. lia.
Qed.

(** The columns always come out: as many lines as the longest has, and a blank
    one. *)
Lemma TextColumns_ok texts : let columns := text_lines <$> texts in
  TextColumns texts = Ok (concat ((fun j => text_line columns j ++ [10]) <$> seq 0 (S (max_len columns)))).
Proof.
  intros columns. unfold TextColumns. fold columns.
  assert (forall n j, (j + n = max_len columns)%nat ->
    text_rows (S n) j columns = Ok (concat ((fun j => text_line columns j ++ [10]) <$> seq j (S n)))) as Hgen; [|by apply Hgen].
  induction n as [|n IH]; intros j Hj; cbn [text_rows]; rewrite text_row_ok; cbn [outcome_bind].
  - rewrite bool_decide_false by lia. csimpl. by rewrite app_nil_r.
  - rewrite bool_decide_true by lia. specialize (IH (S j) ltac:(lia)). cbn [text_rows] in IH. cbn [text_rows].
    rewrite IH. cbn [outcome_bind]. change (seq j (S (S n))) with (j :: seq (S j) (S n)). csimpl. by rewrite <- !app_assoc.
Qed.

Lemma text_line_width columns j :
  length (text_line columns j) = sum_list ((fun column => S (max_len column)) <$> columns).
Proof.
  unfold text_line. induction columns as [|c columns IH]; [done|]. csimpl. rewrite length_app, IH. f_equal.
  rewrite !length_app, length_replicate. simpl. destruct (c !! j) as [s|] eqn:Hj; simpl; [|lia].
  pose proof (max_len_lookup _ _ _ Hj). lia.
Qed.

(** ** utils/fmtfilter *)

Section fmtfilter.
(** package unicode; package fmt, with the values of the operations of a template. *)
Context (IsLetter : Z -> bool).

Inductive fmt_value := FmtInt (n : Z) | FmtString (s : gostring).

Context (Sscanf : gostring -> gostring -> list Z -> outcome (list fmt_value)) (Sprintf : gostring -> list fmt_value -> gostring).

(** One rune of the template; [ops] are the letters of the operations so far, a
    percent sign before each. *)
Definition scan_op (st : bool * gostring) (ch : Z) : outcome (bool * gostring) :=
  let '(readOp, ops) := st in
  if readOp : bool then
    if ch =? 100 then Ok (false, ops ++ runes "%d")
    else if ch =? 115 then Ok (false, ops ++ runes "%s")
    else if ch =? 37 then Ok (false, ops)
    else if negb (IsLetter ch) then Ok (true, ops)
    else Err "unexpected op"
  else Ok (ch =? 37, ops).

Definition parseScanfOps (template : gostring) : outcome gostring :=
  let* ' (readOp, ops) := foldM scan_op (false, []) template in
  if readOp : bool then Err "non-closed %" else Ok ops.

(** The compiled filter: with no operation the request has to be the template;
    with one or two their values are scanned and printed. *)
Definition scan_filter (scanfTemplate printfTemplate : gostring) (verbs : list Z) (req : gostring) : outcome gostring :=
  let* vs := Sscanf req scanfTemplate verbs in Ok (Sprintf printfTemplate vs).

Definition CompileFilter (scanfTemplate printfTemplate : gostring) : outcome (gostring -> outcome gostring) :=
  let* ops := parseScanfOps scanfTemplate in
  let* printfOps := parseScanfOps printfTemplate in
  if negb (str_HasPrefix ops printfOps) then Err "template ops for scanf don't match scanf ops"
  else if bool_decide (ops = []) then
    Ok (fun req => if bool_decide (req = scanfTemplate) then Ok printfTemplate else Err "doesn't match template")
  else if bool_decide (ops = runes "%d") then Ok (scan_filter scanfTemplate printfTemplate [100])
  else if bool_decide (ops = runes "%s") then Ok (scan_filter scanfTemplate printfTemplate [115])
  else if bool_decide (ops = runes "%d%d") then Ok (scan_filter scanfTemplate printfTemplate [100; 100])
  else if bool_decide (ops = runes "%d%s") then Ok (scan_filter scanfTemplate printfTemplate [100; 115])
  else if bool_decide (ops = runes "%s%d") then Ok (scan_filter scanfTemplate printfTemplate [115; 100])
  else if bool_decide (ops = runes "%s%s") then Ok (scan_filter scanfTemplate printfTemplate [115; 115])
  else Err "unknown combination of scanf operations".

(** *** The grammar of templates *)

(** The operations of a template: text, a doubled percent sign, or a percent sign,
    anything but letters and percent signs, and [d] or [s]. *)
Inductive template_ops : gostring -> list Z -> Prop :=
| ops_nil : template_ops [] []
| ops_text r t l : r <> 37 -> template_ops t l -> template_ops (r :: t) l
| ops_percent flags t l : Forall (fun r => r <> 37 /\ r <> 100 /\ r <> 115 /\ IsLetter r = false) flags -> template_ops t l ->
    template_ops (37 :: flags ++ 37 :: t) l
| ops_verb flags v t l : Forall (fun r => r <> 37 /\ r <> 100 /\ r <> 115 /\ IsLetter r = false) flags -> v = 100 \/ v = 115 ->
    template_ops t l -> template_ops (37 :: flags ++ v :: t) (v :: l).

Definition ops_text_of (l : list Z) : gostring := concat ((fun v => [37; v]) <$> l).

Lemma scan_flags flags : forall t ops, Forall (fun r => r <> 37 /\ r <> 100 /\ r <> 115 /\ IsLetter r = false) flags ->
  foldM scan_op (true, ops) (flags ++ t) = foldM scan_op (true, ops) t.
Proof.
  induction flags as [|r flags IH]; intros t ops Hf; [done|]. apply Forall_cons in Hf as [(H1 & H2 & H3 & H4) Hf]. cbn [foldM app scan_op].
  apply Z.eqb_neq in H1, H2, H3. rewrite H1, H2, H3, H4. cbn [negb outcome_bind]. by apply IH.
Qed.

Lemma scan_template t l : template_ops t l -> forall ops, foldM scan_op (false, ops) t = Ok (false, ops ++ ops_text_of l).
Proof.
  induction 1 as [|r t l Hr _ IH|flags t l Hf _ IH|flags v t l Hf Hv _ IH]; intros ops; cbn [foldM].
  - unfold ops_text_of. simpl. by rewrite app_nil_r.
  - cbn [scan_op outcome_bind]. apply Z.eqb_neq in Hr. rewrite Hr. apply IH.
  - cbn [scan_op outcome_bind]. rewrite Z.eqb_refl, scan_flags by done. cbn. apply IH.
  - cbn [scan_op outcome_bind]. rewrite Z.eqb_refl, scan_flags by done.
    destruct Hv as [->| ->]; cbn; rewrite IH; unfold ops_text_of; csimpl; by rewrite <- app_assoc.
Qed.

Lemma scan_accepted t : forall readOp ops ops', foldM scan_op (readOp, ops) t = Ok (false, ops') ->
  if readOp : bool then
    exists flags v t', t = flags ++ v :: t' /\ Forall (fun r => r <> 37 /\ r <> 100 /\ r <> 115 /\ IsLetter r = false) flags /\
      (v = 37 \/ v = 100 \/ v = 115) /\ exists l, template_ops t' l
  else exists l, template_ops t l.
Proof.
  induction t as [|r t IH]; intros readOp ops ops' Ht.
  - cbn in Ht. injection Ht as -> _. exists []. constructor.
  - cbn [foldM scan_op] in Ht. destruct readOp.
    + destruct (Z.eqb_spec r 100) as [->|H1]; [apply IH in Ht; exists [], 100, t; auto 6|].
      destruct (Z.eqb_spec r 115) as [->|H2]; [apply IH in Ht; exists [], 115, t; auto 6|].
      destruct (Z.eqb_spec r 37) as [->|H3]; [apply IH in Ht; exists [], 37, t; auto 6|].
      destruct (IsLetter r) eqn:Hr; [done|]. apply IH in Ht as (flags & v & t' & -> & Hf & Hv & Hl).
      exists (r :: flags), v, t'. split; [done|]. by split; [constructor|].
    + cbn [outcome_bind] in Ht. apply IH in Ht. destruct (Z.eqb_spec r 37) as [->|Hr].
      * destruct Ht as (flags & v & t' & -> & Hf & [->|Hv] & l & Hl); [exists l; by constructor|]. exists (v :: l). by constructor.
      * destruct Ht as [l Hl]. exists l. by constructor.
Qed.

(** A template is accepted exactly when it is one of the grammar, with its
    operations. *)
Lemma parseScanfOps_correct t ops : parseScanfOps t = Ok ops <-> exists l, template_ops t l /\ ops = ops_text_of l.
Proof.
  unfold parseScanfOps. split.
  - destruct (foldM scan_op (false, []) t) as [[readOp ops']|?|?] eqn:Ht; [|done..]. cbn [outcome_bind]. destruct readOp; [done|].
    intros [= ->]. pose proof (scan_accepted t false [] ops Ht) as [l Hl]. exists l. split; [done|].
    rewrite (scan_template t l Hl) in Ht. by injection Ht as <-.
  - intros (l & Hl & ->). by rewrite (scan_template t l Hl).
Qed.

Lemma ops_text_prefix l1 l2 : str_HasPrefix (ops_text_of l2) (ops_text_of l1) = true <-> l1 `prefix_of` l2.
Proof.
  unfold str_HasPrefix. rewrite bool_decide_eq_true. revert l2. induction l1 as [|v l1 IH]; intros l2.
  - split; [intros _; apply prefix_nil|done].
  - destruct l2 as [|w l2]; [split; [done|by intros ?%prefix_nil_inv]|]. unfold ops_text_of in *. csimpl. split.
    + intros [= -> Hl]. apply prefix_cons. by apply IH.
    + intros Hp. pose proof (prefix_cons_inv_1 _ _ _ _ Hp) as ->. apply prefix_cons_inv_2, IH in Hp. by rewrite <- Hp.
Qed.

(** A filter is made exactly for templates of the grammar, when what is printed
    begins what is scanned, of at most two operations; it then scans and prints
    the values of these operations, so that no operation of the printed template
    lacks a value of its kind. *)
Lemma CompileFilter_correct scanf printf f : CompileFilter scanf printf = Ok f <->
  exists l l', template_ops scanf l /\ template_ops printf l' /\ l' `prefix_of` l /\ (length l <= 2)%nat /\
    f = match l with
        | [] => fun req => if bool_decide (req = scanf) then Ok printf else Err "doesn't match template"
        | _ => scan_filter scanf printf l
        end.
Proof.
  unfold CompileFilter. split.
  - destruct (parseScanfOps scanf) as [ops|?|?] eqn:Hs; [|done..]. destruct (parseScanfOps printf) as [ops'|?|?] eqn:Hp; [|done..].
    cbn [outcome_bind]. apply parseScanfOps_correct in Hs as (l & Hl & ->), Hp as (l' & Hl' & ->).
    destruct (str_HasPrefix _ _) eqn:Hpre; [|done]. apply ops_text_prefix in Hpre. cbn [negb]. intros Hf. exists l, l'.
    assert (forall vs, ops_text_of l = ops_text_of vs -> l = vs) as Hinj.
    { intros vs Hvs. apply (anti_symm prefix); apply ops_text_prefix; rewrite Hvs; unfold str_HasPrefix; by rewrite firstn_all, bool_decide_true. }
    change (runes "%d") with (ops_text_of [100]) in Hf. change (runes "%s") with (ops_text_of [115]) in Hf.
    change (runes "%d%d") with (ops_text_of [100; 100]) in Hf. change (runes "%d%s") with (ops_text_of [100; 115]) in Hf.
    change (runes "%s%d") with (ops_text_of [115; 100]) in Hf. change (runes "%s%s") with (ops_text_of [115; 115]) in Hf.
    repeat (case_bool_decide as Hops; [first [apply (Hinj []) in Hops | apply Hinj in Hops]; subst l; injection Hf as <-;
      split; [done|]; split; [done|]; split; [done|]; split; [simpl; lia|done]|clear Hops]).
    done.
  - intros (l & l' & Hl & Hl' & Hpre & Hlen & ->).
    rewrite (proj2 (parseScanfOps_correct scanf (ops_text_of l))) by eauto. rewrite (proj2 (parseScanfOps_correct printf (ops_text_of l'))) by eauto.
    cbn [outcome_bind]. rewrite (proj2 (ops_text_prefix l' l) Hpre). cbn [negb].
    assert (Forall (fun v => v = 100 \/ v = 115) l) as Hv by (clear -Hl; induction Hl; auto).
    destruct l as [|v [|w [|? ?]]]; [done|..|simpl in Hlen; lia]; repeat apply Forall_cons in Hv as [[->| ->] Hv]; done.
Qed.

End fmtfilter.

Definition ascii_letter (r : Z) : bool := (65 <=? r) && (r <=? 90) || (97 <=? r) && (r <=? 122).

Example group4_text : Validators_String validators4 = Ok "[2:5],[4:5],[1:3],[3:1]"%string.
Proof. vm_compute. reflexivity. Qed.
Example parse_flags : parseScanfOps ascii_letter (runes "qw%d%2s123%%") = Ok (runes "%d%s").
Proof. vm_compute. reflexivity. Qed.
Example parse_unclosed : parseScanfOps ascii_letter (runes "%5") = Err "non-closed %".
Proof. vm_compute. reflexivity. Qed.
Example columns_of_two : TextColumns [[97; 10; 98; 99]; [100]] =
  Ok ([97; 32; 9; 100; 9; 10] ++ [98; 99; 9; 32; 9; 10] ++ [32; 32; 9; 32; 9; 10]).
Proof. vm_compute. reflexivity. Qed.
